(* ===== verification/_CoqProject ===== *)
-Q . S2P
Prelude.v
Programs.v
GoFloat.v
Mathx.v
Ring.v
Scaling.v
ScalerSpec.v
ScalerConstraints.v
ScalerIntervals.v
ScalerSolver.v
ScalerFeasibility.v
ScalerAdmission.v
ScalerObjects.v
ScalerPlanner.v
ScalerSafety.v
ScalerControl.v
Names.v
Device.v
CuMask.v
PluginRecords.v
PluginLedger.v
PluginNode.v
PluginSlices.v
PluginAllocate.v
PluginDecision.v
PluginSafety.v
PluginCapacity.v
PluginHandler.v
PluginVerify.v
PluginAdvertise.v
MigRecords.v
MigWorld.v
MigAllocate.v
MigReclaim.v
MigSafety.v
MigLoops.v
MigTheorems.v
MigLiveness.v
AdmitDemand.v
AdmitFit.v
AdmitPlacement.v
AdmitWorld.v
AdmitReconcile.v
AdmitSafety.v
AdmitTheorems.v
ElasticRecord.v
ElasticKernel.v
ElasticPass.v
ElasticSafety.v
ModelStore.v
ModelGC.v
ModelDriver.v
ModelRebuild.v
ModelSafety.v
