(* ===== verification/Prelude.v ===== *)
(** * Verification of the GPUStack operator

    The operator runs model deployments on accelerator nodes.  This development
    models the parts of it whose mistakes are expensive: the resize of a running
    elastic deployment, the node's model cache, the autoscaler with its algorithms,
    its solver, its admission and its controller, the device plugin that hands out
    accelerators and their slices, the hardware partitions of NVIDIA accelerators,
    the admission check that promises accelerators to queued Workloads, and the
    containers and arithmetic they use.  Definitions carry the names of the
    Go source wherever Rocq allows it; integers are [Z] with the
    wrap-around of their width written out, bytes and runes are codes, times and
    durations are nanoseconds.

    ** The program and the files

    The elastic resize (src/pkg/worker/controllers/worker).  A resize is a durable
    operation: a record in a ConfigMap that says what was decided, a pure kernel
    that looks at the record and at what was observed and answers one action, and
    a reconcile pass that reads the world, asks the kernel, writes the record and
    acts.
    - ElasticRecord.v: model_deployment_elastic_operation.go.  The record, its
      validation, the envelope an update may not change, and the store over the
      API server.  The API server and the JSON codec are the classes
      [ConfigMapApi] and [RecordCodec] with the laws [ConfigMapApiLaws]
      (optimistic concurrency of resource versions) and [RecordCodecLaws]; one
      instance of each shows that the laws can hold.
    - ElasticKernel.v: model_deployment_elastic_operation_kernel.go and the retry
      schedule.  The kernel is a function of the record and the facts.
    - ElasticPass.v: model_deployment_elastic_reconcile.go.  The whole pass in a
      monad with state, early return and a log of the effects that leave the
      process; everything the pass reads from Pods, Ray, the engine and the
      ledger is a field of [env], over which the theorems quantify.
    - ElasticSafety.v: a Hoare logic over the pass and the safety theorems.

    The model cache of a node (src/pkg/modelmanager).  Model trees are downloaded,
    published by one rename, mounted read-only into Pods by a CSI driver, and
    collected when nothing refers to them; a ledger of references decides that.
    - ModelStore.v: store/store.go and store/ledger.go.  The disk, the mount table
      and the mutexes are a [world]; each file-system call is an [act] whose
      meaning and failures [perform] gives; a method is a program ([prog] of
      Programs.v) of actions, so that goroutines interleave between any two of
      them.
    - ModelGC.v: gc/gc.go, gc/watermark.go.  Collection, reservations and the
      watermarks.
    - ModelDriver.v: driver/driver.go, authorize.go, mount_linux.go.  The publish
      and unpublish calls.
    - ModelRebuild.v: store/rebuild.go.  The reference table after a restart.
    - ModelSafety.v: the safety of every interleaving, in the rely-guarantee logic
      of Programs.v.

    Autoscaling (src/pkg/worker/scaling/algorithm, src/pkg/worker/controllers/worker,
    src/pkg/worker/webhooks/worker).  An algorithm recommends a count for each role;
    the constraint solver moves the roles of a deployment towards the
    recommendations together, within bounds, paces and the ratios between roles;
    the webhook admits a policy only when some vector can keep it; the controller
    owns a deployment through a binding annotation, plans, commits the vector and
    takes it back when it cannot be served.
    - Scaling.v: proportional.go, token_throughput.go and predictive.go.  The
      demand history is the class [DemandHistory] with [DemandHistoryLaws]; the
      ring buffer of Ring.v is its instance, so the theorems about
      recommendations rest on the interface and the ring's refinement lemmas
      discharge it.
    - ScalerSpec.v: the fields of the scaler's API types and of resource
      quantities that the solver reads.
    - ScalerConstraints.v: model_deployment_scaler_constraints.go, the solver.
      The order in which a Go map is ranged over is a parameter.
    - ScalerIntervals.v: theorems about the history and the interval of a role.
    - ScalerSolver.v: theorems about the ratio graph, the search and the solver
      as a whole.
    - ScalerFeasibility.v: the checks of roles and ratios of
      webhooks/worker/model_deployment_scaler.go, with the union-find over coupled
      roles and the exact search for a vector.
    - ScalerAdmission.v: theorems about those checks.
    - ScalerObjects.v: the target, the scaler and its status, and the pure
      operations on them of model_deployment_scaler_status.go, _binding.go and
      _planner.go.  encoding/json on the two annotations is the class
      [AnnotationCodec] with [AnnotationCodecLaws].
    - ScalerPlanner.v: [Reconcile] of model_deployment_scaler.go with the files
      _planner.go, _rebalance.go, _binding.go and _prior_lifecycle.go, in a monad
      with state, early return and a log of the writes.  What the pass reads is a
      field of [world], over which the theorems quantify.
    - ScalerSafety.v: a Hoare logic over the pass; every write of the target is
      justified by the target and the scaler as they were read.
    - ScalerControl.v: the theorems about the controller.

    Accelerators (src/pkg/device, src/pkg/devicemanager/allocator/amd).
    - Device.v: where hardware partitions are placed, what can still be built,
      aggregated slicing details and the bus distance.
    - CuMask.v: windows of compute units on AMD accelerators.
    - Names.v: product names as label values.

    The device plugin of a node (src/pkg/deviceplugin).  kubelet asks it for the
    device IDs it may schedule and calls Allocate for each container it admits;
    the plugin decides the accelerators, records them in an annotation of the Pod
    and keeps in-process tables of what is decided and not yet visible there.
    - PluginRecords.v: resource.go, terminated.go, the allocation records of
      api/worker/v1alpha1/devices.go and the names of pkg/nodefeature/knowns.go.
      Device IDs and their parser; what a finished Pod still holds.
    - PluginLedger.v: the rebuild of the Devices status from the records
      (controller.go), with its rows updated in place.
    - PluginNode.v: the reservations, grants and pending give-backs of
      controller.go as one [Node], every operation on them, the annotation writes
      with their three outcomes, and the identification of the calling container.
    - PluginSlices.v: sliced_room.go, the live occupancy of a sliced accelerator.
    - PluginAllocate.v: Allocate of server.go phase by phase, and the
      verification against kubelet of kubelet_allocations.go and kubelet_pods.go.
    - PluginDecision.v: what one decision establishes.
    - PluginSafety.v: the calls of a node as a transition system, and its invariant.
    - PluginCapacity.v: the capacity theorem, and an executable scheduler of runs.
    - PluginHandler.v: modes, partitions, and the handler as a run of the system.
    - PluginVerify.v: theorems about the verification.
    - PluginAdvertise.v: ListAndWatch and GetPreferredAllocation.
    The tables of vendor names are the class [NameTables]; the allocator that
    places logical slices and the one that builds partitions are arguments.

    Hardware partitions (src/pkg/devicemanager/allocator/nvidia, and of
    src/pkg/deviceplugin the files gc.go and reclaim.go).  The allocator that
    Allocate calls for a partitioned resource creates or adopts a GPU instance on
    each accelerator and records its owner in a marker file below the Pod's work
    directory; a loop destroys the instances of Pods that are gone, and a collector
    removes their directories.
    - MigRecords.v: markers, their names and paths, placements (mig.go).
    - MigWorld.v: the files, the instances of each accelerator, the accelerator
      locks and the counters of the two loops, and what each call does; the calls
      of the [migDriver] interface with their failures.
    - MigAllocate.v: mig.go, mig_visibility.go.  Reserving, actuating, rolling back
      and naming again.
    - MigReclaim.v: mig_reclaim.go, gc.go, reclaim.go.
    - MigSafety.v, MigLoops.v: the invariant, and the rely-guarantee argument for
      every program.
    - MigTheorems.v: the node as a transition system, its safety, and executions
      that show what the assumptions are for.
    - MigLiveness.v: what passes achieve when calls work.

    The device admission check (src/pkg/worker/controllers/worker,
    node_devices_admission.go and node_devices_inflight.go).  Kueue reserves quota
    by sums; this controller then looks at single cards.  It reads what a Workload
    demands, rebuilds the ledgers of the candidate nodes from the Pods bound to
    them, charges what is promised to Workloads answered before, fits the demands on
    the rest, and answers Ready or Retry.
    - AdmitDemand.v: the families of resource names (pkg/nodefeature) and the
      demands of a Workload with its assignment.
    - AdmitFit.v: the cards of the candidate nodes and the greedy fit.
    - AdmitPlacement.v: placements independent of the fit, and the fit's relation
      to them.
    - AdmitWorld.v: Workloads on the API server and in the lagging cache, flavors,
      nodes, Devices and bound Pods, and what each call answers.
    - AdmitReconcile.v: [Reconcile] with all it calls, as programs of actions.
    - AdmitSafety.v: the invariant over cache, API server and the memory of
      unobserved answers, kept by every program and by what happens beside it.
    - AdmitTheorems.v: the controller as a transition system, its safety and
      liveness, and executions that show what it misses.
    Kueue's helpers are the class [Kueue] with the laws [KueueLaws]; one instance
    shows that the laws can hold.

    Shared (src/pkg/utils).
    - Programs.v: programs of actions on a shared world, runs of one goroutine, and
      a rely-guarantee logic for any number of them.
    - Ring.v: datax/ring.go, the ring stack, queue and buffer.
    - GoFloat.v: float64 as SpecFloat's binary64, rounded after every operation
      (as on amd64; the language allows fused operations elsewhere), with the
      conversions to integers; what an out-of-range value converts to is left to
      the platform by Go, and is a parameter.
    - Mathx.v: mathx, divisions and powers of two.
    - Prelude.v: this file; machine integers, panics ([outcome]), slices, decimal
      numbers, tactics and the hint database [gpustack].

    ** What the theorems show

    - Resize safety: for every environment, a scale command leaves only after its
      intent was stored; a Pod is deleted only as a captured, actor-free, owned
      worker of a released operation whose width was proved; the record goes away
      only after the settled observation was written; the retry bound is an
      invariant.  The kernel's commanding decisions are characterised exactly, and
      what the pass writes after a decision is valid again.  The store loses no
      update and returns what was written.
    - Cache safety: in every interleaving of publish calls, unpublish calls,
      collections, reservations and attempts, with any failures, a read-only mount
      keeps its reference and its tree, provided the reference directory can be
      listed; without that proviso an execution loses a mounted tree.  A call
      binds only what the artifact it read authorizes.  A rebuild leaves exactly
      the mounts in the ledger.
    - Scaling: a recommendation always comes and leaves the newest samples of the
      window; incomplete coverage never lowers a count; a warm predictor goes down
      one replica at a time, within its forecast and capacity.
    - Solving: the solver always answers, and its answer stays within bounds,
      holds, windows and steps and keeps satisfied ratios; within its budget the
      search is optimal; a steady recommendation is reached.  Two ratios that
      share no chain of roles block the coupled roles for good, and the cap on
      the history can forget the middle of a window; without reaching the cap
      pruning is invisible.
    - Admission: the feasibility check never panics, refuses only a policy no vector
      keeps, for ratio bounds that fit, and accepts, within its budget, only one
      that some vector keeps; a huge bound makes it refuse wrongly.
    - Control: for every environment, a pass scales only a target that names the
      scaler, under the term of that binding, to a vector inside the policy or back
      to one from before; it never takes another scaler's binding, and its terms do
      not go back; it returns; a scale-up nobody admits is rolled back at its
      deadline; a rebalance moves one replica and waits for the donor; an
      interrupted commit is recovered from the annotation.
    - Refinement: every call sequence on a ring container answers like the bounded
      list, queue or stack it stands for.
    - Placement: the chosen window shares the fewest occupied units; a percentage
      is served exactly in the range the refusal names; partitions go to the
      fullest candidate; the ledger of remaining profiles counts what is still
      buildable; aggregated details are sums.
    - Device plugin: in every interleaving of Allocates with a lagging informer,
      writes that are lost or not acknowledged, retried give-backs and restarts,
      the slices of an accelerator held by existing Pods stay within it, and what
      a container was answered is what the next decision reads.  A decision keeps
      one mode per accelerator and puts a partition on a free interval.  The
      ledger says exactly what the records hold.  Advertised IDs parse back and
      are accepted while the state stands, and so is the hint for slices.  What
      an Allocate records passes the verification once it is cached; before, the
      verification refuses it.
    - Partitions: in every interleaving of Allocates, visibility requests, reclaim
      passes, collections of work directories, failures, damaged markers, Pods that
      come and go and restarts, the partition a living container was answered stays
      on its accelerator and is nobody else's.  A marker that cannot be removed,
      or a directory collected while a process of the gone Pod still runs, breaks
      this or the promise beside it, by an execution each.  Three ticks of the
      reclaim loop take back what a gone Pod left, when nothing holds it back.
    - Device admission: in every interleaving of judgments with Kueue's writes, a
      lagging cache, changes of the cluster, failing calls and restarts, a Ready
      answer was judged on rebuilt ledgers and counts every Workload whose cards are
      promised, once; the cards it was judged on have room for those promises and
      for the Workload, by a placement that does not mention the fit.  The fit is
      exact for one demand, except for shared cards of a demand that names no node.
      The order in which Go ranges over resource maps does not matter, and cards are
      counted exactly while they fit an int32.  A judgment that is left alone
      answers.  An int32 that wraps, a failed Pod, a lost answer, whole cards summed
      over nodes and overlapping partitions each break a promise of the comments, by
      an execution or an input.
    - Names are label values and fixed points; the power-of-two search ends exactly
      below a quarter of the type's range.

    ** Bounds and fuel

    Loops over Go slices are structural.  [pack_loop] of CuMask.v has one unit of
    fuel per compute unit, and the start advances by at least one; the text
    replacements of Names.v have one per rune, each of which they consume;
    PowersOfTwoUpTo and LargestPowerOfTwoUpTo take their fuel as an argument,
    since ending is what is proved of them; [mean_loop] of Scaling.v has one per
    sample.  [connectedComponent] has one more than the ratio graph has roles, and every
    nested call marks a role; [candidates_from] has one per
    candidate, and every round adds one; [searchNeighbors] has one per role of the
    component, and every level assigns one; [find_loop] of ScalerFeasibility.v has
    one more than there are roles, and a path to a root visits each at most once;
    the feasibility search recurses on the roles left.  Programs of ModelStore.v are
    well-founded trees, so each call ends unless it waits for a lock.  Device IDs
    are printed with 20 digits of fuel, enough for 64 bits.  The walk of MigAllocate.v
    goes 2048 components deep, more than a path of the system can have.

    The capacity theorem is for nodes on which at most 1342 containers hold a
    slice of one accelerator, so that sums of 32-bit units do not wrap, and
    assumes that kubelet runs one Allocate per container at a time, that only the
    plugin writes its annotation, that a write of the annotation and the reads it
    is computed from are one step, and that the slicing capability of an
    accelerator does not change while the node runs.

    The safety of partitions assumes that kubelet runs one Allocate per container
    at a time and for an existing Pod, that a Pod is gone once the counters of a
    loop give it up, that a failed durable write leaves nothing and a file can be
    removed, that a restart does not fall between a partition and its marker, and
    that no tool takes away a partition in use.

    The safety of device admission assumes what the comments of the code say of its
    surroundings: one judgment at a time; a write that carries the version it was
    judged from and does not land on a newer object; that others neither answer for
    the controller nor change the podsets or the assignment of a Workload while its
    checks say Ready; that the cache of a new process starts from what the API server
    has; and that a write whose answer is an error was not applied, without which a
    counterexample is given.

    ** Not modelled

    The rest of the operator: other controllers and webhooks, the scaler's
    sampler and the catalogue of its capacity priors, the KV cache, the gateway, the RDMA
    devices, CDI documents and registration of the device plugin, the object that
    marks the admission check active, the NVML calls
    below the driver interface, the other vendors' allocators apart from the AMD
    masks, the detectors and their bindings to vendor
    libraries, downloads and peers of the model cache, the generated API types
    and clients, and start-up code.  Error texts are kept where code reads them
    again, and are constructors otherwise.  Metrics, logs and contexts other than
    cancellation have no counterpart. *)

From stdpp Require Import prelude gmap strings list sorting.
#[global] Open Scope Z_scope.

(** ** Machine integers

    Go's fixed-width integers are [Z] values kept in range by an explicit
    wrap-around after every operation that can leave the range. *)

Definition wrap_unsigned (w z : Z) : Z := z mod 2 ^ w.
Definition wrap_signed (w z : Z) : Z := (z + 2 ^ (w - 1)) mod 2 ^ w - 2 ^ (w - 1).

Abbreviation u64 := (wrap_unsigned 64).
Abbreviation u32 := (wrap_unsigned 32).
Abbreviation i64 := (wrap_signed 64).
Abbreviation i32 := (wrap_signed 32).

(** Ranges of the Go types, as propositions. *)
Definition is_u64 (z : Z) : Prop := 0 <= z < 2 ^ 64.
Definition is_i32 (z : Z) : Prop := - 2 ^ 31 <= z < 2 ^ 31.
Definition is_i64 (z : Z) : Prop := - 2 ^ 63 <= z < 2 ^ 63.

Lemma u64_small z : is_u64 z -> u64 z = z.
Proof. unfold is_u64, wrap_unsigned. intros. now apply Z.mod_small. Qed.

Lemma u64_range z : is_u64 (u64 z).
Proof. unfold is_u64, wrap_unsigned. now apply Z.mod_pos_bound. Qed.

Lemma u64_add_mod z k : u64 (u64 z + k) = u64 (z + k).
Proof. unfold wrap_unsigned. now rewrite Z.add_mod_idemp_l. Qed.

Lemma i32_small z : is_i32 z -> i32 z = z.
Proof.
  unfold is_i32, wrap_signed. intros. change (32 - 1) with 31.
  rewrite Z.mod_small; lia.
Qed.

Lemma i64_small z : is_i64 z -> i64 z = z.
Proof.
  unfold is_i64, wrap_signed. intros. change (64 - 1) with 63.
  rewrite Z.mod_small; lia.
Qed.

Lemma i32_range z : is_i32 (i32 z).
Proof.
  unfold is_i32, wrap_signed. change (32 - 1) with 31.
  pose proof (Z.mod_pos_bound (z + 2 ^ 31) (2 ^ 32) ltac:(lia)). lia.
Qed.

Lemma i64_range z : is_i64 (i64 z).
Proof.
  unfold is_i64, wrap_signed. change (64 - 1) with 63.
  pose proof (Z.mod_pos_bound (z + 2 ^ 63) (2 ^ 64) ltac:(lia)). lia.
Qed.

Lemma i32_add_l a b : i32 (i32 a + b) = i32 (a + b).
Proof.
  unfold wrap_signed. change (32 - 1) with 31. f_equal.
  replace ((a + 2 ^ 31) mod 2 ^ 32 - 2 ^ 31 + b + 2 ^ 31) with ((a + 2 ^ 31) mod 2 ^ 32 + b) by lia.
  rewrite Z.add_mod_idemp_l by lia. f_equal. lia.
Qed.

(** The signed reading of an unsigned difference is the difference itself
    whenever that difference fits. *)
Lemma i64_u64 z : i64 (u64 z) = i64 z.
Proof.
  unfold wrap_signed, wrap_unsigned. change (64 - 1) with 63.
  rewrite Z.add_mod_idemp_l by lia. reflexivity.
Qed.

(** Go's [min], [max] and truncated division on integers. *)
Abbreviation go_quot := Z.quot.
Abbreviation go_rem := Z.rem.

(** ** Outcomes

    An operation finishes with a value, panics (an index out of range), or
    retries forever because the iteration that retries left the state as it
    found it. *)
Inductive outcome (A : Type) : Type :=
  | Done (a : A)
  | Panic
  | Stuck.
Arguments Done {A} a.
Arguments Panic {A}.
Arguments Stuck {A}.

Definition outcome_bind {A B} (m : outcome A) (k : A -> outcome B) : outcome B :=
  match m with
  | Done a => k a
  | Panic => Panic
  | Stuck => Stuck
  end.

Declare Scope go_scope.
Delimit Scope go_scope with go.
Notation "'let*' x := m 'in' k" := (outcome_bind m (fun x => k))
  (at level 10, x pattern, m at level 100, k at level 200) : go_scope.
#[global] Open Scope go_scope.

(** A loop whose body may panic. *)
Definition fold_outcome {A B} (f : A -> B -> outcome A) (a : A) (l : list B) : outcome A :=
  foldl (fun acc x => let* a := acc in f a x) (Done a) l.

(** An invariant of such a loop, which then never panics. *)
Lemma fold_outcome_inv {A B} (f : A -> B -> outcome A) (P : list B -> A -> Prop) a l :
  P [] a ->
  (forall pre x post a, l = pre ++ x :: post -> P pre a -> exists a', f a x = Done a' /\ P (pre ++ [x]) a') ->
  exists a', fold_outcome f a l = Done a' /\ P l a'.
Proof.
  intros H0 Hstep. unfold fold_outcome. induction l as [|x l IH] using rev_ind; [by exists a|].
  destruct IH as (a' & E & Ha').
  { intros pre y post a1 -> Hp. apply (Hstep pre y (post ++ [x])); [|done]. by rewrite <- app_assoc. }
  rewrite foldl_app, E. simpl. by apply (Hstep l x []).
Qed.

(** Indexing a Go slice: out of range panics. *)
Definition slice_get {A} (l : list A) (i : Z) : outcome A :=
  if i <? 0 then Panic else
  match l !! Z.to_nat i with
  | Some x => Done x
  | None => Panic
  end.

(** Assigning to an element of a Go slice: out of range panics. *)
Definition slice_set {A} (l : list A) (i : Z) (x : A) : outcome (list A) :=
  if (i <? 0) || (Z.of_nat (length l) <=? i) then Panic else Done (<[Z.to_nat i := x]> l).

Lemma slice_get_Some {A} (l : list A) i x :
  0 <= i -> l !! Z.to_nat i = Some x -> slice_get l i = Done x.
Proof.
  intros Hi Hx. unfold slice_get. destruct (Z.ltb_spec i 0); [lia|]. now rewrite Hx.
Qed.

Lemma slice_set_in {A} (l : list A) i x :
  0 <= i < Z.of_nat (length l) -> slice_set l i x = Done (<[Z.to_nat i := x]> l).
Proof.
  intros Hi. unfold slice_set.
  destruct (Z.ltb_spec i 0); [lia|]. destruct (Z.leb_spec (Z.of_nat (length l)) i); [lia|].
  reflexivity.
Qed.

(** ** Lists *)

(** How many elements a stateful predicate accepts from the front, and the
    state it ends in; the first refusal stops the walk and still runs the
    predicate once. *)
Fixpoint count_while {St A} (p : St -> A -> bool * St) (s : St) (l : list A) : nat * St :=
  match l with
  | [] => (0%nat, s)
  | x :: l' =>
      match p s x with
      | (true, s') => let (n, s'') := count_while p s' l' in (S n, s'')
      | (false, s') => (0%nat, s')
      end
  end.

Lemma count_while_le {St A} (p : St -> A -> bool * St) s l :
  (fst (count_while p s l) <= length l)%nat.
Proof.
  revert s. induction l as [|x l IH]; intros s; simpl; [lia|].
  destruct (p s x) as [[] s']; simpl; [|lia].
  specialize (IH s'). destruct (count_while p s' l). simpl in *. lia.
Qed.

Lemma filter_agree {A} (P Q : A -> Prop) `{forall x, Decision (P x)} `{forall x, Decision (Q x)} (l : list A) :
  (forall x, x ∈ l -> P x <-> Q x) -> filter P l = filter Q l.
Proof.
  induction l as [|x l IH]; intros Hl; [done|]. rewrite !filter_cons.
  rewrite IH by (intros y Hy; apply Hl; by right). specialize (Hl x (list_elem_of_here _ _)).
  destruct (decide (P x)), (decide (Q x)); tauto.
Qed.

Lemma filter_none {A} (P : A -> Prop) `{forall x, Decision (P x)} (l : list A) :
  (forall x, x ∈ l -> ~ P x) -> filter P l = [].
Proof.
  induction l as [|x l IH]; intros H0; [done|]. rewrite filter_cons_False by (apply H0; left). apply IH.
  intros y Hy. apply H0. by right.
Qed.

Lemma filter_all {A} (P : A -> Prop) `{forall x, Decision (P x)} (l : list A) :
  (forall x, x ∈ l -> P x) -> filter P l = l.
Proof.
  induction l as [|x l IH]; intros H0; [done|]. rewrite filter_cons_True by (apply H0; left). f_equal. apply IH.
  intros y Hy. apply H0. by right.
Qed.

(** A map filled from a list with distinct keys. *)
Lemma fold_map_lookup {A B} (f : A -> string) (g : A -> B) (l : list A) :
  NoDup (f <$> l) ->
  (forall x, x ∈ l -> (foldl (fun m x => <[f x := g x]> m) ∅ l : gmap string B) !! f x = Some (g x)) /\
  (forall k, k ∉ f <$> l -> (foldl (fun m x => <[f x := g x]> m) ∅ l : gmap string B) !! k = None).
Proof.
  induction l as [|y l IH] using rev_ind; [intros _; split; [by intros ? ?%elem_of_nil|done]|].
  rewrite fmap_app, foldl_app. simpl. intros (Hnd & Hdis & _)%NoDup_app. destruct (IH Hnd) as [H1 H2]. split.
  - intros x [Hx| ->%list_elem_of_singleton]%elem_of_app; [|by rewrite lookup_insert_eq].
    rewrite lookup_insert_ne; [by apply H1|]. intros E.
    apply (Hdis (f x)); [by apply list_elem_of_fmap_2|]. rewrite E. left.
  - intros k Hk. rewrite elem_of_app, list_elem_of_singleton in Hk. rewrite lookup_insert_ne; [apply H2; tauto|].
    intros <-. tauto.
Qed.

(** *** Stable sorting *)

(** [slices.SortStableFunc] for a comparison given as "not after". *)
Fixpoint insert_stable {A} (le : A -> A -> bool) (x : A) (l : list A) : list A :=
  match l with
  | [] => [x]
  | y :: l' => if le x y then x :: l else y :: insert_stable le x l'
  end.
Definition sort_stable {A} (le : A -> A -> bool) (l : list A) : list A := foldr (insert_stable le) [] l.

Lemma sort_stable_perm {A} (le : A -> A -> bool) (l : list A) : sort_stable le l ≡ₚ l.
Proof.
  assert (forall x l, insert_stable le x l ≡ₚ x :: l) as Hi.
  { intros x l'. induction l' as [|y l' IH]; [done|]. cbn. destruct (le x y); [done|]. rewrite IH. apply Permutation_swap. }
  induction l as [|x l IH]; [done|]. cbn. by rewrite Hi, IH.
Qed.

Section Sorted.
Context {A : Type} (le : A -> A -> bool).
Context (le_total : forall a b, le a b = true \/ le b a = true).
Context (le_trans : forall a b c, le a b = true -> le b c = true -> le a c = true).

Lemma insert_stable_sorted x l :
  StronglySorted (fun a b => le a b = true) l -> StronglySorted (fun a b => le a b = true) (insert_stable le x l).
Proof.
  assert (forall z x l, z ∈ insert_stable le x l -> z = x \/ z ∈ l) as Hin.
  { intros z y l'. induction l' as [|w l' IH]; cbn; [rewrite list_elem_of_singleton; tauto|].
    destruct (le y w); rewrite !elem_of_cons; [tauto|]. intros [->|H]; [tauto|]. destruct (IH H); tauto. }
  induction 1 as [|y l Hs IH Hy]; cbn; [by repeat constructor|]. rewrite list.Forall_forall in Hy.
  destruct (le x y) eqn:E; constructor.
  - by constructor; [|apply list.Forall_forall].
  - apply list.Forall_forall. intros z [->|Hz]%elem_of_cons; [done|eauto].
  - done.
  - apply list.Forall_forall. intros z [->|Hz]%Hin; [|by apply Hy]. destruct (le_total x y); congruence.
Qed.

Lemma sort_stable_sorted l : StronglySorted (fun a b => le a b = true) (sort_stable le l).
Proof. induction l as [|x l IH]; [constructor|]. by apply insert_stable_sorted. Qed.

(** The first elements of a sorted list come before the others. *)
Lemma sorted_take n l a b :
  b ∈ sort_stable le l -> a ∈ take n (sort_stable le l) -> b ∉ take n (sort_stable le l) -> le a b = true.
Proof.
  pose proof (sort_stable_sorted l) as Hs. revert n. induction Hs as [|x k Hk IH Hx]; intros n; [by intros ?%elem_of_nil|].
  destruct n as [|n]; [by intros _ ?%elem_of_nil|]. cbn. rewrite !elem_of_cons. intros [->|Hb] Ha Hnb; [tauto|].
  destruct Ha as [->|Ha]; [|apply (IH n); tauto]. rewrite list.Forall_forall in Hx. by apply Hx.
Qed.
End Sorted.

(** A fold whose steps commute is the same for every order. *)
Lemma foldl_permutation {A B} (I : A -> Prop) (f : A -> B -> A) (l l' : list B) a :
  (forall a x, I a -> I (f a x)) -> (forall a x y, I a -> f (f a x) y = f (f a y) x) ->
  l ≡ₚ l' -> I a -> foldl f a l = foldl f a l'.
Proof.
  intros Hp Hc Hl. revert a. induction Hl as [|x l l' _ IH|x y l|l1 l2 l3 _ IH1 _ IH2]; intros a Ha; cbn; auto.
  - by rewrite Hc.
  - by rewrite IH1, IH2.
Qed.

Lemma last_app_last {A} (l k : list A) : last (l ++ k) = match last k with Some x => Some x | None => last l end.
Proof. destruct k as [|x k _] using rev_ind; [by rewrite app_nil_r|]. by rewrite app_assoc, !last_snoc. Qed.

(** The smallest power of two at or above a positive size is unique modulo
    the reduction of positions it induces. *)
Lemma alter_middle {A} (f : A -> A) (l : list A) i x :
  l !! i = Some x -> alter f i l = take i l ++ f x :: drop (S i) l.
Proof.
  revert i. induction l as [|y l IH]; intros [|i] Hi; try done; cbn in Hi.
  - by injection Hi as ->.
  - cbn. f_equal. by apply IH.
Qed.

Lemma land_mask_mod p k : 0 <= k -> Z.land p (2 ^ k - 1) = p mod 2 ^ k.
Proof. intros. rewrite <- Z.land_ones by lia. rewrite Z.ones_equiv. f_equal. Qed.

Lemma mod_eq_close a b m :
  0 < m -> a mod m = b mod m -> Z.abs (a - b) < m -> a = b.
Proof.
  intros Hm He Hd.
  assert ((a - b) mod m = 0) as H0 by (rewrite Zminus_mod, He, Z.sub_diag; apply Z.mod_0_l; lia).
  apply Z.mod_divide in H0; [|lia]. destruct H0 as [q Hq]. assert (q = 0) by nia. lia.
Qed.

(** ** Sums over finite maps *)

Definition sum_map `{Countable K} (m : gmap K Z) : Z := foldr (fun kv n => kv.2 + n) 0 (map_to_list m).

Section SumMap.
Context `{Countable K}.
Implicit Types m : gmap K Z.

Lemma foldr_sum_perm (l l' : list (K * Z)) :
  l ≡ₚ l' -> foldr (fun kv n => kv.2 + n) 0 l = foldr (fun kv n => kv.2 + n) 0 l'.
Proof. induction 1; cbn; lia. Qed.

Lemma sum_map_empty : sum_map (∅ : gmap K Z) = 0.
Proof. unfold sum_map. by rewrite map_to_list_empty. Qed.

Lemma sum_map_delete m k x : m !! k = Some x -> sum_map m = x + sum_map (delete k m).
Proof. intros Hk. unfold sum_map. by rewrite <- (foldr_sum_perm _ _ (map_to_list_delete m k x Hk)). Qed.

Lemma sum_map_insert m k x : sum_map (<[k := x]> m) = x + sum_map (delete k m).
Proof. rewrite (sum_map_delete _ k x) by apply lookup_insert_eq. by rewrite delete_insert_eq. Qed.

Lemma sum_map_subset m1 m2 :
  m1 ⊆ m2 -> (forall k x, m2 !! k = Some x -> 0 <= x) -> 0 <= sum_map m1 <= sum_map m2.
Proof.
  revert m2. induction m1 as [|k x m1 Hk IH] using map_ind; intros m2 Hs Hp.
  - rewrite sum_map_empty. split; [lia|]. unfold sum_map.
    assert (forall kv, kv ∈ map_to_list m2 -> 0 <= kv.2) as Hl.
    { intros [j y] Hj%elem_of_map_to_list. by eapply Hp. }
    induction (map_to_list m2) as [|kv l IHl]; cbn; [lia|].
    pose proof (Hl kv (list_elem_of_here _ _)). specialize (IHl (fun kv Hin => Hl kv (list_elem_of_further _ _ _ Hin))). lia.
  - assert (m2 !! k = Some x) as Hm2 by (eapply lookup_weaken; [apply lookup_insert_eq|done]).
    rewrite sum_map_insert, (sum_map_delete m2 k x Hm2), delete_id by done.
    pose proof (Hp k x Hm2). destruct (IH (delete k m2)) as [H1 H2]; [| |lia].
    + rewrite <- (delete_id m1 k Hk), <- (delete_insert_eq m1 k x). by apply delete_mono.
    + intros j y [_ Hj]%lookup_delete_Some. by eapply Hp.
Qed.

Lemma sum_map_bound m b :
  (forall k x, m !! k = Some x -> 0 <= x <= b) -> 0 <= sum_map m <= b * Z.of_nat (size m).
Proof.
  induction m as [|k x m Hk IH] using map_ind; intros Hb.
  - rewrite sum_map_empty, map_size_empty. lia.
  - rewrite sum_map_insert, delete_id, map_size_insert_None by done.
    pose proof (Hb k x (lookup_insert_eq _ _ _)). destruct IH as [H1 H2]; [|lia].
    intros j y Hj. apply (Hb j). rewrite lookup_insert_ne; [done|]. intros ->. congruence.
Qed.
End SumMap.

(** ** Decimal integers

    [strconv.ParseInt(s, 10, bits)]: an optional sign, then digits only, and an
    error when the value does not fit. *)
Fixpoint parse_digits (acc : Z) (s : string) : option Z :=
  match s with
  | EmptyString => Some acc
  | String c s' =>
      let d := Z.of_nat (Ascii.nat_of_ascii c) - 48 in
      if (0 <=? d) && (d <=? 9) then parse_digits (acc * 10 + d) s' else None
  end.

Definition parse_unsigned (s : string) : option Z :=
  match s with EmptyString => None | _ => parse_digits 0 s end.

Definition parse_int (bits : Z) (s : string) : option Z :=
  let value :=
    match s with
    | EmptyString => None
    | String c s' =>
        if Nat.eqb (Ascii.nat_of_ascii c) 43 then parse_unsigned s'
        else if Nat.eqb (Ascii.nat_of_ascii c) 45 then option_map Z.opp (parse_unsigned s')
        else parse_unsigned s
    end in
  match value with
  | Some z => if (- 2 ^ (bits - 1) <=? z) && (z <? 2 ^ (bits - 1)) then Some z else None
  | None => None
  end.

Create HintDb gpustack.
#[export] Hint Resolve u64_range i32_range i64_range : gpustack.

(** Split on a boolean comparison and hand the arithmetic to [lia]. *)
Ltac zcase :=
  match goal with
  | |- context [?a <? ?b] => destruct (Z.ltb_spec a b)
  | |- context [?a <=? ?b] => destruct (Z.leb_spec a b)
  | |- context [?a =? ?b] => destruct (Z.eqb_spec a b)
  | |- context [?a >? ?b] => rewrite (Z.gtb_ltb a b)
  | |- context [?a >=? ?b] => rewrite (Z.geb_leb a b)
  end.

Ltac zcases := repeat (zcase; try lia).
