(* ===== verification/Programs.v ===== *)
(** * Programs of actions, and reasoning about their interleavings

    A goroutine is a tree of actions on a shared world; the files that model
    concurrent code give the actions and what each does.  This file has the
    programs, their execution by one goroutine alone, and a rely-guarantee logic
    for any number of them. *)

From stdpp Require Import prelude gmap relations.
From S2P Require Import Prelude.

(** ** Programs *)

Section Prog.
Context {act : Type -> Type}.

Inductive prog (A : Type) : Type :=
  | Ret (x : A)
  | Do {X : Type} (a : act X) (k : X -> prog A).
#[global] Arguments Ret {A} x.
#[global] Arguments Do {A X} a k.

Fixpoint bind {A B} (p : prog A) (k : A -> prog B) : prog B :=
  match p with Ret x => k x | Do a h => Do a (fun x => bind (h x) k) end.

Definition call {X} (a : act X) : prog X := Do a Ret.

Definition discard {A} (p : prog A) : prog unit := bind p (fun _ => Ret tt).

(** [x, err := m; if err != nil { return err }]. *)
Definition bind_err {E A B} (m : prog (E + A)) (k : A -> prog (E + B)) : prog (E + B) :=
  bind m (fun r => match r with inl e => Ret (inl e) | inr x => k x end).

(** [if err := m; err != nil { return err }]. *)
Definition check {E B} (m : prog (option E)) (k : prog (E + B)) : prog (E + B) :=
  bind m (fun r => match r with Some e => Ret (inl e) | None => k end).

(** A loop over a list that threads a value and may return early with an error. *)
Fixpoint for_each {E A S} (l : list A) (s : S) (body : S -> A -> prog (E + S)) : prog (E + S) :=
  match l with
  | [] => Ret (inr s)
  | x :: l => bind_err (body s x) (fun s => for_each l s body)
  end.

(** A loop over a list that threads a value. *)
Fixpoint for_all {A S} (l : list A) (s : S) (body : S -> A -> prog S) : prog S :=
  match l with
  | [] => Ret s
  | x :: l => bind (body s x) (fun s => for_all l s body)
  end.
End Prog.
Arguments prog act A : clear implicits.

Declare Scope prog_scope.
Delimit Scope prog_scope with prog.
Bind Scope prog_scope with prog.
Notation "'let!' x := m 'in' k" := (bind m (fun x => k))
  (at level 200, x binder, m at level 100, k at level 200) : prog_scope.
Notation "m ;! k" := (bind m (fun _ => k)) (at level 100, k at level 200, right associativity) : prog_scope.
Notation "'let?' x := m 'in' k" := (bind_err m (fun x => k))
  (at level 200, x binder, m at level 100, k at level 200) : prog_scope.
Notation "m ?; k" := (check m k) (at level 100, k at level 200, right associativity) : prog_scope.

(** ** Programs of harmless actions *)

Section Quiet.
Context {act : Type -> Type} (harmless : forall X, act X -> bool).

Fixpoint quiet {A} (p : prog act A) : Prop :=
  match p with Ret _ => True | Do a k => harmless _ a = true /\ forall x, quiet (k x) end.

Lemma quiet_bind {A B} (p : prog act A) (k : A -> prog act B) :
  quiet p -> (forall x, quiet (k x)) -> quiet (bind p k).
Proof. induction p as [x|X a h IH]; simpl; [auto|]. intros [Hh Hq] Hk. split; [done|]. auto. Qed.

Lemma quiet_call {X} (a : act X) : harmless _ a = true -> quiet (call a).
Proof. by split. Qed.

Lemma quiet_bind_err {E A B} (p : prog act (E + A)) (k : A -> prog act (E + B)) :
  quiet p -> (forall x, quiet (k x)) -> quiet (bind_err p k).
Proof. intros Hp Hk. apply quiet_bind; [done|]. intros [e|x]; [done|apply Hk]. Qed.

Lemma quiet_check {E B} p (k : prog act (E + B)) : quiet p -> quiet k -> quiet (check p k).
Proof. intros Hp Hk. apply quiet_bind; [done|]. by intros [e|]. Qed.

Lemma quiet_for_each {E A S} (l : list A) (body : S -> A -> prog act (E + S)) :
  (forall s x, quiet (body s x)) -> forall s, quiet (for_each l s body).
Proof. intros Hb. induction l as [|x l IH]; intros s; [done|]. apply quiet_bind_err; auto. Qed.

Lemma quiet_for_list {A S} (l : list A) (body : S -> A -> prog act S) :
  (forall s x, x ∈ l -> quiet (body s x)) -> forall s, quiet (for_all l s body).
Proof.
  induction l as [|x l IH]; intros Hb s; [done|]. apply quiet_bind; [apply Hb, list_elem_of_here|].
  apply IH. intros s' y Hy. by apply Hb, list_elem_of_further.
Qed.

Lemma quiet_for_all {A S} (l : list A) (body : S -> A -> prog act S) :
  (forall s x, quiet (body s x)) -> forall s, quiet (for_all l s body).
Proof. intros Hb. by apply quiet_for_list. Qed.
End Quiet.

Lemma quiet_mono {act : Type -> Type} (h h' : forall X, act X -> bool) {A} (p : prog act A) :
  (forall X (a : act X), h X a = true -> h' X a = true) -> quiet h p -> quiet h' p.
Proof. intros Hh. induction p as [x|X a k IH]; [done|]. intros [Ha Hq]. split; auto. Qed.

(** ** What a program can return *)

(** Every result the program can return satisfies [R], whatever its actions answer
    within [says]. *)
Section Always.
Context {act : Type -> Type} (says : forall X, act X -> X -> Prop).

Fixpoint always {A} (p : prog act A) (R : A -> Prop) : Prop :=
  match p with
  | Ret x => R x
  | Do a k => forall x, says _ a x -> always (k x) R
  end.

Lemma always_mono {A} (p : prog act A) (R R' : A -> Prop) : (forall x, R x -> R' x) -> always p R -> always p R'.
Proof. intros HR. induction p as [x|X a k IH]; cbn; auto. Qed.

Lemma always_true {A} (p : prog act A) : always p (fun _ => True).
Proof. induction p as [x|X a k IH]; cbn; auto. Qed.

Lemma always_bind {A B} (p : prog act A) (k : A -> prog act B) R :
  always p (fun x => always (k x) R) -> always (bind p k) R.
Proof. induction p as [x|X a h IH]; cbn; auto. Qed.

Lemma always_bind_err {E A B} (p : prog act (E + A)) (k : A -> prog act (E + B)) (P : A -> Prop) (R : B -> Prop) :
  always p (fun r => match r with inl _ => True | inr x => P x end) ->
  (forall x, P x -> always (k x) (fun r => match r with inl _ => True | inr y => R y end)) ->
  always (bind_err p k) (fun r => match r with inl _ => True | inr y => R y end).
Proof.
  intros Hp Hk. apply always_bind. eapply always_mono; [|exact Hp]. intros [e|x]; cbn; auto.
Qed.

(** A loop keeps a property of what it went through. *)
Lemma always_for_each {E A S} (l : list A) (s : S) (body : S -> A -> prog act (E + S)) (I : list A -> S -> Prop) :
  I [] s ->
  (forall before x s, I before s -> always (body s x) (fun r => match r with inl _ => True | inr s => I (before ++ [x]) s end)) ->
  always (for_each l s body) (fun r => match r with inl _ => True | inr s => I l s end).
Proof.
  intros Hi Hb. cut (forall before, I before s ->
    always (for_each l s body) (fun r => match r with inl _ => True | inr s => I (before ++ l) s end)); [intros H; exact (H [] Hi)|].
  clear Hi. revert s. induction l as [|x l IH]; intros s before Hi; cbn [for_each]; [cbn; by rewrite app_nil_r|].
  eapply (always_bind_err _ _ (I (before ++ [x])) (fun s => I (before ++ x :: l) s)); [by apply Hb|].
  intros s' Hs'. specialize (IH s' (before ++ [x]) Hs'). by rewrite <- app_assoc in IH.
Qed.
End Always.

(** ** One goroutine alone *)

Section Run.
Context {act : Type -> Type} {world choice : Type}.
Context (perform : nat -> choice -> forall X, act X -> world -> option (X * world)).

(** Every action gets the same answers from the environment; [None] when the
    goroutine has to wait for another. *)
Fixpoint run {A} (t : nat) (c : choice) (p : prog act A) (w : world) : option (A * world) :=
  match p with
  | Ret x => Some (x, w)
  | Do a k => match perform t c _ a w with Some (x, w) => run t c (k x) w | None => None end
  end.

Lemma run_bind {A B} t c (p : prog act A) (k : A -> prog act B) w :
  run t c (bind p k) w = match run t c p w with Some (x, w') => run t c (k x) w' | None => None end.
Proof.
  revert w. induction p as [x|X a h IH]; intros w; simpl; [done|].
  destruct (perform t c _ a w) as [[x w']|]; [apply IH|done].
Qed.

Lemma run_bind_err {E A B} t c (p : prog act (E + A)) (k : A -> prog act (E + B)) w x w' :
  run t c p w = Some (inr x, w') -> run t c (bind_err p k) w = run t c (k x) w'.
Proof. intros H. unfold bind_err. rewrite run_bind, H. done. Qed.
End Run.

(** ** Runs that end *)

Section Alone.
Context {act : Type -> Type} {world choice : Type}.
Context (perform : nat -> choice -> forall X, act X -> world -> option (X * world)) (t : nat) (c : choice).

(** Left alone from [w], the goroutine comes to its end, with [Q]. *)
Definition finishes {A} (p : prog act A) (Q : A -> world -> Prop) (w : world) : Prop :=
  exists x w', run perform t c p w = Some (x, w') /\ Q x w'.

Lemma finishes_ret {A} (x : A) (Q : A -> world -> Prop) w : Q x w -> finishes (Ret x) Q w.
Proof. intros H. by exists x, w. Qed.

Lemma finishes_bind {A B} (p : prog act A) (k : A -> prog act B) Q w :
  finishes p (fun x => finishes (k x) Q) w -> finishes (bind p k) Q w.
Proof. intros (x & w1 & H1 & y & w2 & H2 & HQ). exists y, w2. by rewrite run_bind, H1. Qed.

Lemma finishes_call {X} (a : act X) (Q : X -> world -> Prop) w x w' :
  perform t c _ a w = Some (x, w') -> Q x w' -> finishes (call a) Q w.
Proof. intros H HQ. exists x, w'. simpl. by rewrite H. Qed.

Lemma finishes_mono {A} (p : prog act A) (P Q : A -> world -> Prop) w :
  (forall x w', P x w' -> Q x w') -> finishes p P w -> finishes p Q w.
Proof. intros HPQ (x & w' & H & HP). exists x, w'. auto. Qed.

(** A loop keeps an invariant, and what is done for one element stays done. *)
Lemma finishes_for_all {A S} (l : list A) (s : S) (body : S -> A -> prog act S) (I : S -> world -> Prop)
    (D : A -> world -> Prop) (R : relation world) w :
  (forall x w w', R w w' -> D x w -> D x w') ->
  (forall s x w, x ∈ l -> I s w -> finishes (body s x) (fun s' w' => I s' w' /\ R w w' /\ D x w') w) ->
  I s w -> finishes (for_all l s body) (fun s' w' => I s' w' /\ forall x, x ∈ l -> D x w') w.
Proof.
  intros HR Hb Hi.
  cut (forall pre, (forall x, x ∈ pre -> D x w) ->
    finishes (for_all l s body) (fun s' w' => I s' w' /\ forall x, x ∈ pre ++ l -> D x w') w).
  { intros H. apply (H []). intros x Hx. by apply not_elem_of_nil in Hx. }
  revert s w Hi. induction l as [|x l IH]; intros s w Hi pre Hpre; simpl.
  { apply finishes_ret. by rewrite app_nil_r. }
  apply finishes_bind. eapply finishes_mono; [|apply Hb; [apply list_elem_of_here|done]]. intros s1 w1 (Hi1 & HR1 & Hd1).
  change (x :: l) with ([x] ++ l). rewrite app_assoc. apply IH; [|done|].
  - intros s2 y w2 Hy. apply Hb. by apply list_elem_of_further.
  - intros y [Hy|Hy]%elem_of_app; [by eapply HR, Hpre|]. apply list_elem_of_singleton in Hy as ->. done.
Qed.

(** Programs of actions that always answer and stay within a preorder. *)
Lemma finishes_quiet (ok : forall X, act X -> bool) (R : relation world) `{!PreOrder R} {A} (p : prog act A) w :
  (forall X (a : act X) w, ok _ a = true -> exists x w', perform t c _ a w = Some (x, w') /\ R w w') ->
  quiet ok p -> finishes p (fun _ w' => R w w') w.
Proof.
  intros Hok. revert w. induction p as [x|X a k IH]; intros w Hq; [by apply finishes_ret|]. destruct Hq as [Ha Hq].
  destruct (Hok X a w Ha) as (x & w1 & Hp & H1). destruct (IH x w1 (Hq x)) as (y & w2 & Hrun & H2).
  exists y, w2. simpl. rewrite Hp. split; [done|]. by trans w1.
Qed.
End Alone.

(** ** Rely and guarantee *)

(** What a goroutine counts on holds over any number of steps of the others. *)
Class Interference {world : Type} (rely : nat -> relation world) : Prop := {
  interference_preorder t :: PreOrder (rely t) }.

Section Logic.
Context {act : Type -> Type} {world choice : Type}.
Context (perform : nat -> choice -> forall X, act X -> world -> option (X * world)).
Context (allowed : choice -> Prop) (rely guar : nat -> relation world) (inv : world -> Prop).

(** Goroutine [t], running [p] from [w] while others do what it relies on, does
    only what it guarantees, and ends with [Q]. *)
Fixpoint wp {A} (t : nat) (p : prog act A) (Q : A -> world -> Prop) (w : world) : Prop :=
  match p with
  | Ret x => forall w', rely t w w' -> Q x w'
  | Do a k => forall w', rely t w w' -> inv w' -> forall c x w'',
      allowed c -> perform t c _ a w' = Some (x, w'') -> guar t w' w'' /\ wp t (k x) Q w''
  end.

Context `{!Interference rely}.

Lemma wp_rely {A} t (p : prog act A) Q w w' : rely t w w' -> wp t p Q w -> wp t p Q w'.
Proof.
  intros Hr. destruct p; simpl; intros H.
  - intros w'' Hr'. apply H. by trans w'.
  - intros w'' Hr'. apply H. by trans w'.
Qed.

Lemma wp_mono {A} t (p : prog act A) (P Q : A -> world -> Prop) w :
  (forall x w', P x w' -> Q x w') -> wp t p P w -> wp t p Q w.
Proof.
  intros HPQ. revert w. induction p as [x|X a k IH]; simpl; intros w H; [auto|].
  intros w' Hr Hc c x w'' Ha Hp. destruct (H w' Hr Hc c x w'' Ha Hp). auto.
Qed.

Lemma wp_bind {A B} t (p : prog act A) (k : A -> prog act B) Q w :
  wp t p (fun x => wp t (k x) Q) w -> wp t (bind p k) Q w.
Proof.
  revert w. induction p as [x|X a h IH]; simpl; intros w H; [by apply H|].
  intros w' Hr Hc c x w'' Ha Hp. destruct (H w' Hr Hc c x w'' Ha Hp). auto.
Qed.

Lemma wp_call {X} t (a : act X) (Q : X -> world -> Prop) w :
  (forall w' c x w'', rely t w w' -> inv w' -> allowed c -> perform t c _ a w' = Some (x, w'') ->
     guar t w' w'' /\ forall w3, rely t w'' w3 -> Q x w3) ->
  wp t (call a) Q w.
Proof. intros H w' Hr Hc c x w'' Ha Hp. simpl. eauto. Qed.

Lemma wp_and {A} t (p : prog act A) (P Q : A -> world -> Prop) w :
  wp t p P w -> wp t p Q w -> wp t p (fun x w' => P x w' /\ Q x w') w.
Proof.
  revert w. induction p as [x|X a k IH]; simpl; intros w HP HQ; [auto|].
  intros w' Hr Hc c x w'' Ha Hp. destruct (HP w' Hr Hc c x w'' Ha Hp), (HQ w' Hr Hc c x w'' Ha Hp). auto.
Qed.

Lemma wp_all {I A} `{!Inhabited I} t (p : prog act A) (Q : I -> A -> world -> Prop) w :
  (forall i, wp t p (Q i) w) -> wp t p (fun x w' => forall i, Q i x w') w.
Proof.
  revert w. induction p as [x|X a k IH]; simpl; intros w HQ; [intros w' Hr i; by apply HQ|].
  intros w' Hr Hc c x w'' Ha Hp. split; [by eapply (HQ inhabitant)|]. apply IH. intros i. by eapply (HQ i).
Qed.

(** A loop keeps an invariant that interference keeps. *)
Lemma wp_for_all {A S} t (l : list A) (s : S) (body : S -> A -> prog act S) (I : S -> world -> Prop) w :
  (forall s w w', rely t w w' -> I s w -> I s w') ->
  (forall s x w, x ∈ l -> I s w -> wp t (body s x) I w) -> I s w -> wp t (for_all l s body) I w.
Proof.
  intros Hst. revert s w. induction l as [|x l IH]; intros s w Hb Hi; simpl.
  { intros w' Hr. by eapply Hst. }
  apply wp_bind. eapply wp_mono; [|apply Hb; [apply list_elem_of_here|done]].
  intros s' w' Hi'. apply IH; [|done]. intros s'' y w'' Hy. apply Hb. by apply list_elem_of_further.
Qed.

(** Harmless programs keep what the goroutine relies on. *)
Lemma wp_quiet (harmless : forall X, act X -> bool) :
  (forall t c X (a : act X) w x w', harmless _ a = true -> perform t c _ a w = Some (x, w') ->
     guar t w w' /\ rely t w w') ->
  forall {A} t (p : prog act A) w, quiet harmless p -> wp t p (fun _ => rely t w) w.
Proof.
  intros Hok A t p w. cut (forall w0, rely t w w0 -> quiet harmless p -> wp t p (fun _ => rely t w) w0).
  { intros H. by apply H. }
  induction p as [x|X a k IH]; intros w0 Hr Hq.
  - intros w1 Hr1. by trans w0.
  - destruct Hq as [Hh Hq]. intros w1 Hr1 _ c x w2 Hc Hp.
    destruct (Hok t c X a w1 x w2 Hh Hp) as [Hg Hk]. split; [done|].
    apply IH; [|done]. trans w0; [done|]. by trans w1.
Qed.

(** Harmless programs, with what they can return. *)
Lemma wp_always (harmless : forall X, act X -> bool) (says : forall X, act X -> X -> Prop) t :
  (forall c X (a : act X) w x w', harmless _ a = true -> perform t c _ a w = Some (x, w') ->
     guar t w w' /\ rely t w w' /\ says _ a x) ->
  forall {A} (p : prog act A) R w, quiet harmless p -> always says p R ->
  wp t p (fun x w' => R x /\ rely t w w') w.
Proof.
  intros Hok A p R w. cut (forall w0, rely t w w0 -> quiet harmless p -> always says p R -> wp t p (fun x w' => R x /\ rely t w w') w0).
  { intros H. by apply H. }
  induction p as [x|X a k IH]; intros w0 Hr Hq HR.
  - intros w1 Hr1. split; [done|]. by trans w0.
  - destruct Hq as [Hh Hq]. intros w1 Hr1 _ c x w2 Hc Hp.
    destruct (Hok c X a w1 x w2 Hh Hp) as (Hg & Hk & Hs). split; [done|].
    apply IH; [|done|by apply HR]. trans w0; [done|]. by trans w1.
Qed.

(** What interference and the program's own actions keep, the program keeps. *)
Lemma wp_frame (ok : forall X, act X -> bool) (P : world -> Prop) t :
  (forall w w', rely t w w' -> P w -> P w') ->
  (forall c X (a : act X) w x w', ok _ a = true -> perform t c _ a w = Some (x, w') -> P w -> P w') ->
  forall {A} (p : prog act A) Q w, quiet ok p -> P w -> wp t p Q w -> wp t p (fun x w' => Q x w' /\ P w') w.
Proof.
  intros Hr Hok A p Q. induction p as [x|X a k IH]; intros w Hq HP Hw.
  - intros w' Hr'. split; [by apply Hw|by eapply Hr].
  - destruct Hq as [Ha Hq]. intros w' Hr' Hi c x w'' Hc Hp. destruct (Hw w' Hr' Hi c x w'' Hc Hp) as [Hg Hk].
    split; [done|]. apply IH; [done| |done]. eapply Hok; [exact Ha|exact Hp|]. by eapply Hr.
Qed.

(** What every step keeps, a program keeps. *)
Lemma wp_keep (P : world -> Prop) t :
  (forall w w', rely t w w' -> P w -> P w') -> (forall w w', guar t w w' -> P w -> P w') ->
  forall {A} (p : prog act A) Q w, P w -> wp t p Q w -> wp t p (fun x w' => Q x w' /\ P w') w.
Proof.
  intros Hr Hg A p Q. induction p as [x|X a k IH]; intros w HP Hw.
  - intros w' Hr'. split; [by apply Hw|by eapply Hr].
  - intros w' Hr' Hi c x w'' Hc Hp. destruct (Hw w' Hr' Hi c x w'' Hc Hp) as [Hgu Hk].
    split; [done|]. apply IH; [|done]. eapply Hg; [exact Hgu|]. by eapply Hr.
Qed.

(** *** Systems of goroutines *)

Record system := { threads : gmap nat (prog act unit); state : world }.

(** The invariant holds and every goroutine is on the way of its proof. *)
Record running (s : system) : Prop := {
  running_inv : inv (state s);
  running_threads : forall t p, threads s !! t = Some p -> wp t p (fun _ _ => True) (state s) }.

Context (guar_inv : forall t w w', guar t w w' -> inv w -> inv w').
Context (guar_rely : forall t u w w', guar t w w' -> t <> u -> rely u w w').

Lemma running_spawn s t p :
  running s -> wp t p (fun _ _ => True) (state s) ->
  running {| threads := <[t := p]> (threads s); state := state s |}.
Proof.
  intros [Hc Ht] Hp. constructor; [done|]. simpl. intros u q [[<- <-]|[_ Hq]]%lookup_insert_Some; auto.
Qed.

(** A goroutine starts with a change of the world the others do not mind. *)
Lemma running_start s t p w :
  running s -> threads s !! t = None -> inv w -> (forall u, u <> t -> rely u (state s) w) ->
  wp t p (fun _ _ => True) w -> running {| threads := <[t := p]> (threads s); state := w |}.
Proof.
  intros [Hc Ht] Hn Hw Hr Hp. constructor; [done|]. simpl. intros u q [[<- <-]|[Hne Hq]]%lookup_insert_Some; [done|].
  eapply wp_rely; [apply Hr; congruence|auto].
Qed.

Lemma running_act s t X (a : act X) k c x w :
  running s -> threads s !! t = Some (Do a k) -> allowed c -> perform t c _ a (state s) = Some (x, w) ->
  running {| threads := <[t := k x]> (threads s); state := w |}.
Proof.
  intros [Hc Ht] Htp Ha Hp. destruct (Ht t _ Htp (state s) ltac:(done) Hc c x w Ha Hp) as [Hg Hk].
  constructor; simpl; [by eapply guar_inv|]. intros u q [[<- <-]|[Hne Hq]]%lookup_insert_Some; [done|].
  eapply wp_rely; [by eapply guar_rely|auto].
Qed.

(** What happens beside the goroutines. *)
Lemma running_env s w : running s -> inv w -> (forall t, rely t (state s) w) ->
  running {| threads := threads s; state := w |}.
Proof. intros [Hc Ht] Hw Hr. constructor; [done|]. simpl. intros t p Hp. eapply wp_rely; eauto. Qed.
(** A goroutine that is left alone runs to its end. *)
Lemma run_steps (step : relation system) t c (p : prog act unit) w x w' ts :
  (forall s X (a : act X) k c x w, threads s !! t = Some (Do a k) -> allowed c -> perform t c _ a (state s) = Some (x, w) ->
     step s {| threads := <[t := k x]> (threads s); state := w |}) ->
  allowed c -> run perform t c p w = Some (x, w') ->
  rtc step {| threads := <[t := p]> ts; state := w |} {| threads := <[t := Ret x]> ts; state := w' |}.
Proof.
  intros Hstep Ha. revert w. induction p as [y|X a k IH]; simpl; intros w Hrun; [by simplify_eq|].
  destruct (perform t c _ a w) as [[y w1]|] eqn:Hp; [|done].
  assert (step {| threads := <[t := Do a k]> ts; state := w |}
    {| threads := <[t := k y]> (<[t := Do a k]> ts); state := w1 |}) as Hs.
  { eapply Hstep; [|exact Ha|exact Hp]. simpl. apply lookup_insert_eq. }
  rewrite insert_insert_eq in Hs. eapply rtc_l; [exact Hs|]. by apply IH.
Qed.
End Logic.
Arguments system act world : clear implicits.
