(* ===== verification/GoFloat.v ===== *)
(** * Go's float64

    Binary64 arithmetic on the executable IEEE 754 specification of the standard
    library, with the functions of package math the source uses. *)

From stdpp Require Import prelude.
From Stdlib Require Import SpecFloat.
From S2P Require Import Prelude.

Abbreviation float64 := spec_float.

(** The conversion of an integer, rounded to the nearest. *)
Definition to_float (z : Z) : float64 := binary_normalize 53 1024 z 0 false.

Definition fadd : float64 -> float64 -> float64 := SFadd 53 1024.
Definition fsub : float64 -> float64 -> float64 := SFsub 53 1024.
Definition fmul : float64 -> float64 -> float64 := SFmul 53 1024.
Definition fdiv : float64 -> float64 -> float64 := SFdiv 53 1024.
Definition fabs : float64 -> float64 := SFabs.

(** [x <= y], [x < y] and [x == y]; all false on NaN. *)
Definition fle : float64 -> float64 -> bool := SFleb.
Definition flt : float64 -> float64 -> bool := SFltb.
Definition feq : float64 -> float64 -> bool := SFeqb.

Definition fzero : float64 := S754_zero false.

(** A decimal literal [n / d]: the quotient is rounded once, like the literal. *)
Definition flit (n d : Z) : float64 := fdiv (to_float n) (to_float d).

Definition isNaN (f : float64) : bool := match f with S754_nan => true | _ => false end.
Definition isInf (f : float64) : bool := match f with S754_infinity _ => true | _ => false end.

(** [math.IsInf(f, 1)]. *)
Definition isPosInf (f : float64) : bool := match f with S754_infinity false => true | _ => false end.

(** [math.Max]. *)
Definition math_max (x y : float64) : float64 :=
  match x, y with
  | S754_infinity false, _ | _, S754_infinity false => S754_infinity false
  | S754_nan, _ | _, S754_nan => S754_nan
  | S754_zero s, S754_zero _ => if s then y else x
  | _, _ => if flt y x then x else y
  end.

(** The signed mantissa of a finite number. *)
Definition signed (s : bool) (m : positive) : Z := if s then Z.neg m else Z.pos m.

(** The least integer not below a finite number. *)
Definition ceil_to_int (f : float64) : Z :=
  match f with
  | S754_finite s m e => if 0 <=? e then signed s m * 2 ^ e else - ((- signed s m) / 2 ^ (- e))
  | _ => 0
  end.

(** [math.Ceil]; a number with a non-negative exponent is an integer. *)
Definition math_ceil (f : float64) : float64 :=
  match f with
  | S754_finite _ _ e => if 0 <=? e then f else to_float (ceil_to_int f)
  | _ => f
  end.

(** The greatest integer not above a finite number, and [math.Floor]. *)
Definition floor_to_int (f : float64) : Z :=
  match f with
  | S754_finite s m e => if 0 <=? e then signed s m * 2 ^ e else signed s m / 2 ^ (- e)
  | _ => 0
  end.
Definition math_floor (f : float64) : float64 :=
  match f with
  | S754_finite _ _ e => if 0 <=? e then f else to_float (floor_to_int f)
  | _ => f
  end.

(** The integer part of a finite number. *)
Definition trunc_to_int (f : float64) : Z :=
  match f with
  | S754_finite s m e => if 0 <=? e then signed s m * 2 ^ e else Z.quot (signed s m) (2 ^ (- e))
  | _ => 0
  end.

Definition finite (f : float64) : bool := negb (isNaN f) && negb (isInf f).

(** Conversions to integers.  Out of range the result is the platform's:
    [elsewhere]. *)
Definition to_int (lo hi : Z) (elsewhere : float64 -> Z) (f : float64) : Z :=
  if finite f && (lo <=? trunc_to_int f) && (trunc_to_int f <=? hi) then trunc_to_int f else elsewhere f.
Definition to_i32 : (float64 -> Z) -> float64 -> Z := to_int (- 2 ^ 31) (2 ^ 31 - 1).
Definition to_i64 : (float64 -> Z) -> float64 -> Z := to_int (- 2 ^ 63) (2 ^ 63 - 1).

Lemma to_i32_range elsewhere f : (forall f, is_i32 (elsewhere f)) -> is_i32 (to_i32 elsewhere f).
Proof.
  intros H. unfold to_i32, to_int. destruct (finite f); [|apply H]. cbn [andb].
  destruct (Z.leb_spec (- 2 ^ 31) (trunc_to_int f)); [|apply H].
  destruct (Z.leb_spec (trunc_to_int f) (2 ^ 31 - 1)); [|apply H]. unfold is_i32. simpl. lia.
Qed.

(** ** The order of floats

    Numbers are ordered by sign, then exponent, then mantissa; NaN is not
    ordered. *)
Definition float_key (f : float64) : option (Z * Z * Z) :=
  match f with
  | S754_nan => None
  | S754_infinity s => Some (if s then -2 else 2, 0, 0)
  | S754_zero _ => Some (0, 0, 0)
  | S754_finite s m e => Some (if s then (-1, - e, Z.neg m) else (1, e, Z.pos m))
  end.

Definition key_lt (a b : Z * Z * Z) : Prop :=
  let '(a0, a1, a2) := a in
  let '(b0, b1, b2) := b in
  a0 < b0 \/ a0 = b0 /\ (a1 < b1 \/ a1 = b1 /\ a2 < b2).

Lemma SFcompare_key x y :
  match SFcompare x y, float_key x, float_key y with
  | Some Lt, Some a, Some b => key_lt a b
  | Some Eq, Some a, Some b => a = b
  | Some Gt, Some a, Some b => key_lt b a
  | None, a, b => a = None \/ b = None
  | _, _, _ => False
  end.
Proof.
  destruct x as [[]|[]| |[] mx ex], y as [[]|[]| |[] my ey]; simpl; unfold key_lt; auto; try lia.
  - destruct (Z.compare_spec ex ey); simpl; try lia.
    change (Pos.compare_cont Eq mx my) with (Pos.compare mx my).
    destruct (Pos.compare_spec mx my); simpl; [subst; f_equal; f_equal; lia|lia|lia].
  - destruct (Z.compare_spec ex ey); simpl; try lia.
    change (Pos.compare_cont Eq mx my) with (Pos.compare mx my).
    destruct (Pos.compare_spec mx my); simpl; [subst; f_equal; f_equal; lia|lia|lia].
Qed.

Lemma key_lt_irrefl a : ~ key_lt a a.
Proof. destruct a as [[a0 a1] a2]. unfold key_lt. lia. Qed.

Lemma key_lt_trans a b c : key_lt a b -> key_lt b c -> key_lt a c.
Proof. destruct a as [[a0 a1] a2], b as [[b0 b1] b2], c as [[c0 c1] c2]. unfold key_lt. lia. Qed.

Lemma flt_key x y : flt x y = true <-> exists a b, float_key x = Some a /\ float_key y = Some b /\ key_lt a b.
Proof.
  unfold flt, SFltb. pose proof (SFcompare_key x y) as H.
  destruct (float_key x) as [a|], (float_key y) as [b|], (SFcompare x y) as [[]|]; try contradiction;
    (split; [intros E|intros (a' & b' & [= <-] & [= <-] & Hlt)]); try discriminate; try reflexivity; try (by exists a, b); exfalso.
  - subst. by eapply key_lt_irrefl.
  - exact (key_lt_irrefl _ (key_lt_trans _ _ _ Hlt H)).
  - by destruct H.
Qed.

Lemma feq_key x y : feq x y = true <-> exists a, float_key x = Some a /\ float_key y = Some a.
Proof.
  unfold feq, SFeqb. pose proof (SFcompare_key x y) as H.
  destruct (float_key x) as [a|], (float_key y) as [b|], (SFcompare x y) as [[]|]; try contradiction;
    (split; [intros E|intros (a' & [= <-] & [= E])]); try discriminate; try reflexivity; try (by exists a; subst); exfalso.
  - subst. by eapply key_lt_irrefl.
  - subst. by eapply key_lt_irrefl.
  - by destruct H.
Qed.

Lemma flt_trans x y z : flt x y = true -> flt y z = true -> flt x z = true.
Proof.
  rewrite !flt_key. intros (a & b & -> & Hy & H1) (c & d & Hy' & -> & H2).
  rewrite Hy in Hy'. injection Hy' as <-. exists a, d. split; [done|]. split; [done|]. by eapply key_lt_trans.
Qed.

Lemma feq_flt x y z : feq x y = true -> flt y z = true -> flt x z = true.
Proof. rewrite feq_key, !flt_key. intros (a & -> & Hy) (b & c & Hy' & -> & H). simplify_eq. eauto. Qed.

Lemma flt_feq x y z : flt x y = true -> feq y z = true -> flt x z = true.
Proof. rewrite feq_key, !flt_key. intros (a & b & -> & Hy & H) (c & Hy' & ->). simplify_eq. eauto. Qed.

Lemma feq_trans x y z : feq x y = true -> feq y z = true -> feq x z = true.
Proof. rewrite !feq_key. intros (a & -> & Hy) (b & Hy' & ->). simplify_eq. eauto. Qed.
