(* ===== verification/Mathx.v ===== *)
(** * Integer helpers

    src/pkg/utils/mathx (division.go, power.go): the generic divisions and powers
    of two, at the width of the integer type they are instantiated with.  The
    power-of-two loops double until they pass [n]; the theorems say for which [n]
    they end, and with what. *)

From stdpp Require Import prelude list.
From S2P Require Import Prelude.

(** ** Division *)

Definition CeilDiv (wrap : Z -> Z) (a b : Z) : Z :=
  if b =? 0 then 0 else wrap (go_quot (wrap (a + b - 1)) b).

Definition RoundDiv (wrap : Z -> Z) (a b : Z) : Z :=
  if b =? 0 then 0 else wrap (go_quot (wrap (a + go_quot b 2)) b).

(** ** Powers of two *)

(** The loop of [PowersOfTwoUpTo] from [val], with fuel. *)
Fixpoint powers_loop (wrap : Z -> Z) (fuel : nat) (val n : Z) : option (list Z) :=
  match fuel with
  | O => None
  | S fuel =>
      if val <=? n
      then option_map (cons val) (powers_loop wrap fuel (wrap (Z.shiftl val 1)) n)
      else Some []
  end.

Definition PowersOfTwoUpTo (wrap : Z -> Z) (fuel : nat) (n : Z) : option (list Z) :=
  if n <? 1 then Some [] else powers_loop wrap fuel 1 n.

Fixpoint largest_loop (wrap : Z -> Z) (fuel : nat) (p n : Z) : option Z :=
  match fuel with
  | O => None
  | S fuel =>
      if wrap (Z.shiftl p 1) <=? n then largest_loop wrap fuel (wrap (Z.shiftl p 1)) n else Some p
  end.

Definition LargestPowerOfTwoUpTo (wrap : Z -> Z) (fuel : nat) (n : Z) : option Z :=
  if n <? 1 then Some 0 else largest_loop wrap fuel 1 n.

(** ** Division of non-negative integers *)

Lemma ceil_div_nonneg a b :
  0 <= a -> 0 < b -> a + b - 1 < 2 ^ 63 -> CeilDiv i64 a b = (a + b - 1) / b.
Proof.
  intros Ha Hb Hr. unfold CeilDiv. destruct (Z.eqb_spec b 0); [lia|].
  rewrite (i64_small (a + b - 1)) by (unfold is_i64; lia).
  rewrite Z.quot_div_nonneg by lia. apply i64_small.
  unfold is_i64. assert (0 <= (a + b - 1) / b) by (apply Z.div_pos; lia).
  assert ((a + b - 1) / b <= a + b - 1) by (apply Z.div_le_upper_bound; nia). lia.
Qed.

Lemma round_div_nonneg a b :
  0 <= a -> 0 < b -> a + b / 2 < 2 ^ 63 -> RoundDiv i64 a b = (a + b / 2) / b.
Proof.
  intros Ha Hb Hr. unfold RoundDiv. destruct (Z.eqb_spec b 0); [lia|].
  rewrite (Z.quot_div_nonneg b) by lia. assert (0 <= b / 2) by (apply Z.div_pos; lia).
  rewrite (i64_small (a + b / 2)) by (unfold is_i64; lia).
  rewrite Z.quot_div_nonneg by lia. apply i64_small. unfold is_i64.
  assert (0 <= (a + b / 2) / b) by (apply Z.div_pos; lia).
  assert ((a + b / 2) / b <= a + b / 2) by (apply Z.div_le_upper_bound; nia). lia.
Qed.

(** ** Doubling at a signed width *)

Section doubling.
Context (w : Z) (Hw : 2 <= w).

Lemma double_small k : 0 <= k -> k + 1 < w - 1 -> wrap_signed w (Z.shiftl (2 ^ k) 1) = 2 ^ (k + 1).
Proof.
  intros Hk Hkw. rewrite Z.shiftl_mul_pow2, Z.pow_1_r by lia.
  replace (2 ^ k * 2) with (2 ^ (k + 1)) by (rewrite Z.pow_add_r by lia; lia).
  assert (2 ^ (k + 1) < 2 ^ (w - 1)) by (apply Z.pow_lt_mono_r; lia).
  assert (0 < 2 ^ (k + 1)) by (apply Z.pow_pos_nonneg; lia).
  unfold wrap_signed. rewrite Z.mod_small; [lia|].
  replace (2 ^ w) with (2 * 2 ^ (w - 1)) by (rewrite <- Z.pow_succ_r by lia; f_equal; lia). lia.
Qed.

Lemma double_top : wrap_signed w (Z.shiftl (2 ^ (w - 2)) 1) = - 2 ^ (w - 1).
Proof.
  rewrite Z.shiftl_mul_pow2, Z.pow_1_r by lia. assert (0 < 2 ^ (w - 1)) by (apply Z.pow_pos_nonneg; lia).
  replace (2 ^ (w - 2) * 2) with (2 ^ (w - 1))
    by (replace (w - 1) with (Z.succ (w - 2)) by lia; rewrite Z.pow_succ_r by lia; lia).
  unfold wrap_signed.
  replace (2 ^ (w - 1) + 2 ^ (w - 1)) with (2 ^ w)
    by (replace w with (Z.succ (w - 1)) at 1 by lia; rewrite Z.pow_succ_r by lia; lia).
  rewrite Z.mod_same by lia. lia.
Qed.

Lemma double_wrapped : wrap_signed w (Z.shiftl (- 2 ^ (w - 1)) 1) = 0.
Proof.
  rewrite Z.shiftl_mul_pow2, Z.pow_1_r by lia. assert (0 < 2 ^ (w - 1)) by (apply Z.pow_pos_nonneg; lia).
  assert (2 ^ w = 2 * 2 ^ (w - 1)) as Hp
    by (replace w with (Z.succ (w - 1)) at 1 by lia; rewrite Z.pow_succ_r by lia; lia).
  unfold wrap_signed. replace (- 2 ^ (w - 1) * 2 + 2 ^ (w - 1)) with (2 ^ (w - 1) + (-1) * 2 ^ w) by lia.
  rewrite Z.mod_add, Z.mod_small by lia. lia.
Qed.

Lemma double_zero : wrap_signed w (Z.shiftl 0 1) = 0.
Proof.
  rewrite Z.shiftl_0_l. assert (0 < 2 ^ (w - 1)) by (apply Z.pow_pos_nonneg; lia).
  assert (2 ^ w = 2 * 2 ^ (w - 1))
    by (replace w with (Z.succ (w - 1)) at 1 by lia; rewrite Z.pow_succ_r by lia; lia).
  unfold wrap_signed. rewrite Z.mod_small by lia. lia.
Qed.

(** Once the doubling left the type the loop never ends. *)
Lemma largest_stuck n fuel :
  0 <= n -> largest_loop (wrap_signed w) fuel (- 2 ^ (w - 1)) n = None /\
  largest_loop (wrap_signed w) fuel 0 n = None.
Proof.
  intros Hn. assert (forall fuel, largest_loop (wrap_signed w) fuel 0 n = None) as H0.
  { clear fuel. induction fuel as [|fuel IH]; [done|]. cbn [largest_loop]. rewrite double_zero.
    destruct (Z.leb_spec 0 n); [done|lia]. }
  split; [|done]. destruct fuel as [|fuel]; [done|]. cbn [largest_loop]. rewrite double_wrapped.
  destruct (Z.leb_spec 0 n); [done|lia].
Qed.

Lemma largest_from k n :
  0 <= k <= w - 2 -> 2 ^ k <= n < 2 ^ (w - 1) ->
  (n < 2 ^ (w - 2) -> exists fuel j, largest_loop (wrap_signed w) fuel (2 ^ k) n = Some (2 ^ j) /\
     0 <= j /\ 2 ^ j <= n < 2 ^ (j + 1)) /\
  (2 ^ (w - 2) <= n -> forall fuel, largest_loop (wrap_signed w) fuel (2 ^ k) n = None).
Proof.
  intros Hk Hn. remember (Z.to_nat (w - 2 - k)) as m eqn:Hm. revert k Hk Hn Hm.
  induction m as [|m IH]; intros k Hk Hn Hm.
  { assert (k = w - 2) as -> by lia. split; [lia|]. intros _ [|fuel]; [done|]. cbn [largest_loop].
    rewrite double_top. assert (0 < 2 ^ (w - 1)) by (apply Z.pow_pos_nonneg; lia).
    destruct (Z.leb_spec (- 2 ^ (w - 1)) n); [|lia]. apply largest_stuck. assert (0 < 2 ^ (w - 2)) by (apply Z.pow_pos_nonneg; lia). lia. }
  destruct (Z.le_gt_cases (2 ^ (k + 1)) n) as [Hle|Hgt].
  - destruct (IH (k + 1) ltac:(lia) ltac:(lia) ltac:(lia)) as [IH1 IH2]. split.
    + intros Hlt. destruct (IH1 Hlt) as (fuel & j & Hf & Hj). exists (S fuel), j. split; [|done].
      cbn [largest_loop]. rewrite double_small by lia.
      now destruct (Z.leb_spec (2 ^ (k + 1)) n); [|lia].
    + intros Hge [|fuel]; [done|]. cbn [largest_loop]. rewrite double_small by lia.
      destruct (Z.leb_spec (2 ^ (k + 1)) n); [now apply IH2|lia].
  - split.
    + intros _. exists 1%nat, k. cbn [largest_loop]. rewrite double_small by lia.
      destruct (Z.leb_spec (2 ^ (k + 1)) n); [lia|]. split_and!; auto; lia.
    + intros Hge. assert (2 ^ (k + 1) <= 2 ^ (w - 2)) by (apply Z.pow_le_mono_r; lia). lia.
Qed.
End doubling.

(** On a signed w-bit type the search for the largest power of two ends
    with the right answer for every n below 2^(w-2), and never ends for a larger
    n: the doubling overflows to zero and the loop condition stays true. *)
Theorem largest_power_ends_iff (w n : Z) :
  2 <= w -> 1 <= n < 2 ^ (w - 1) ->
  (n < 2 ^ (w - 2) -> exists fuel j,
     LargestPowerOfTwoUpTo (wrap_signed w) fuel n = Some (2 ^ j) /\ 0 <= j /\ 2 ^ j <= n < 2 ^ (j + 1)) /\
  (2 ^ (w - 2) <= n -> forall fuel, LargestPowerOfTwoUpTo (wrap_signed w) fuel n = None).
Proof.
  intros Hw Hn. unfold LargestPowerOfTwoUpTo. destruct (Z.ltb_spec n 1); [lia|].
  apply (largest_from w Hw 0 n); [lia|simpl; lia].
Qed.

Lemma largest_power_ends_iff_witness :
  (exists fuel j, LargestPowerOfTwoUpTo i64 fuel 100 = Some (2 ^ j) /\ 0 <= j /\ 2 ^ j <= 100 < 2 ^ (j + 1)) /\
  (forall fuel, LargestPowerOfTwoUpTo (wrap_signed 8) fuel 100 = None).
Proof.
  split.
  - apply (largest_power_ends_iff 64 100); lia.
  - apply (largest_power_ends_iff 8 100); lia.
Defined.
