(* ===== verification/Ring.v ===== *)
(** * Ring containers (pkg/utils/datax/ring.go)

    [RingStack], [RingQueue] and [RingBuffer] share one layout: a slice of
    nodes whose length is a power of two, each node carrying a sequence number
    and a value, and two 64-bit counters.  The Go structs have the same
    fields, so one record models the three.

    The operations are those of one goroutine running at a time, which is what
    the doc comments of [Clone], [Reset], [DropWhile] and [At] require of a
    caller.  A compare-and-swap of a value loaded in the same iteration then
    succeeds, and a loop iteration that retries leaves the state unchanged, so
    it retries forever: that outcome is [Stuck], and the theorems prove that
    no operation is ever stuck or out of range on a well-formed ring.

    The abstraction of a ring is the list of its elements, oldest first. *)

From stdpp Require Import prelude list.
From S2P Require Import Prelude.

(** ** Layout and operations *)

Record node (A : Type) := Node { nseq : Z; nval : A }.
Arguments Node {A} _ _.
Arguments nseq {A} _.
Arguments nval {A} _.

Record ring (A : Type) := Ring {
  mask : Z;
  data : list (node A);
  head : Z;
  tail : Z
}.
Arguments Ring {A} _ _ _ _.
Arguments mask {A} _.
Arguments data {A} _.
Arguments head {A} _.
Arguments tail {A} _.

(** [bits.Len64]. *)
Definition len64 (x : Z) : Z := if x =? 0 then 0 else Z.log2 x + 1.

(** Padding of the requested size to a power of two. *)
Definition pad_size (size : Z) : Z :=
  if Z.land size (u64 (size - 1)) =? 0 then size
  else u64 (Z.shiftl 1 (len64 (u64 (size - 1)))).

Section operations.
Context {A : Type} (zero : A).

(** The index of a position's node. *)
Definition index (r : ring A) (position : Z) : Z := Z.land position (mask r).

Definition NewRingBuffer (size : Z) : outcome (ring A) :=
  if size <=? 0 then Panic
  else
    let size := pad_size size in
    Done (Ring (u64 (size - 1))
               ((fun i => Node (Z.of_nat i) zero) <$> seq 0 (Z.to_nat size)) 0 0).

Definition NewRingStack (size : Z) : outcome (ring A) :=
  if size =? 0 then Panic
  else
    let size := pad_size size in
    Done (Ring (u64 (size - 1))
               ((fun i => Node (Z.of_nat i) zero) <$> seq 0 (Z.to_nat size)) 0 0).

Definition NewRingQueue (size : Z) : outcome (ring A) :=
  if size <=? 0 then Panic
  else
    let size := pad_size size in
    Done (Ring (u64 (size - 1))
               ((fun i => Node (Z.of_nat i) zero) <$> seq 0 (Z.to_nat size)) 0 0).

(** [RingBuffer.Push]: write the slot at the tail, and move the head forward
    when the ring was full. *)
Definition Push (r : ring A) (v : A) : outcome (ring A) :=
  let* n := slice_get (data r) (index r (tail r)) in
  let diff := i64 (u64 (nseq n - tail r)) in
  if diff <=? 0 then
    let* d := slice_set (data r) (index r (tail r)) (Node (u64 (tail r + 1)) v) in
    let full := u64 (mask r + 1) <=? u64 (tail r - head r) in
    Done (Ring (mask r) d (if full then u64 (head r + 1) else head r) (u64 (tail r + 1)))
  else Stuck.

(** [RingQueue.Enqueue] and [RingStack.Push] have the same body. *)
Definition Enqueue (r : ring A) (v : A) : outcome (ring A) := Push r v.
Definition StackPush (r : ring A) (v : A) : outcome (ring A) := Push r v.

(** [RingQueue.Dequeue]. *)
Definition Dequeue (r : ring A) : outcome (option A * ring A) :=
  let* n := slice_get (data r) (index r (head r)) in
  let diff := i64 (u64 (nseq n - head r - 1)) in
  if diff <? 0 then Done (None, r)
  else if diff =? 0 then
    let* d := slice_set (data r) (index r (head r))
                (Node (u64 (head r + mask r + 1)) zero) in
    Done (Some (nval n), Ring (mask r) d (u64 (head r + 1)) (tail r))
  else Stuck.

(** [RingStack.Pop]. *)
Definition Pop (r : ring A) : outcome (option A * ring A) :=
  if tail r =? head r then Done (None, r)
  else
    let top := u64 (tail r - 1) in
    let* n := slice_get (data r) (index r top) in
    if nseq n =? tail r then
      let* d := slice_set (data r) (index r top)
                  (Node (u64 (tail r - mask r - 1)) zero) in
      Done (Some (nval n), Ring (mask r) d (head r) top)
    else Stuck.

(** [RingStack.Peek] and [RingBuffer.Last] read the newest element. *)
Definition Peek (r : ring A) : outcome (option A) :=
  if tail r =? head r then Done None
  else
    let* n := slice_get (data r) (index r (u64 (tail r - 1))) in
    if nseq n =? tail r then Done (Some (nval n)) else Stuck.

Definition Last (r : ring A) : outcome (option A) :=
  if tail r =? head r then Done None
  else
    let* n := slice_get (data r) (index r (u64 (tail r - 1))) in
    if nseq n =? tail r then Done (Some (nval n)) else Stuck.

(** [RingBuffer.First]. *)
Definition First (r : ring A) : outcome (option A) :=
  let* n := slice_get (data r) (index r (head r)) in
  let diff := i64 (u64 (nseq n - head r - 1)) in
  if diff <? 0 then Done None
  else if diff =? 0 then Done (Some (nval n))
  else Stuck.

(** [RingBuffer.At]. *)
Definition At (r : ring A) (i : Z) : outcome (option A) :=
  if i <? 0 then Done None
  else
    let position := u64 (head r + u64 i) in
    if tail r <=? position then Done None
    else
      let* n := slice_get (data r) (index r position) in
      if nseq n =? u64 (position + 1) then Done (Some (nval n)) else Done None.

(** [RingBuffer.DropWhile]: the predicate is a Go closure, so it threads a
    state.  [fuel] bounds the iterations of the loop. *)
Fixpoint drop_loop {St} (fuel : nat) (p : St -> A -> bool * St) (s : St)
    (r : ring A) (dropped : Z) : outcome (Z * St * ring A) :=
  match fuel with
  | O => Stuck
  | S fuel =>
      if head r =? tail r then Done (dropped, s, r)
      else
        let* n := slice_get (data r) (index r (head r)) in
        let diff := i64 (u64 (nseq n - head r - 1)) in
        if diff <? 0 then Done (dropped, s, r)
        else if 0 <? diff then Stuck
        else
          let (holds, s') := p s (nval n) in
          if negb holds then Done (dropped, s', r)
          else
            let* d := slice_set (data r) (index r (head r))
                        (Node (u64 (head r + mask r + 1)) zero) in
            drop_loop fuel p s' (Ring (mask r) d (u64 (head r + 1)) (tail r)) (dropped + 1)
  end.

Definition DropWhile {St} (p : St -> A -> bool * St) (s : St) (r : ring A)
    : outcome (Z * St * ring A) :=
  drop_loop (S (Z.to_nat (u64 (tail r - head r)))) p s r 0.

(** [RingBuffer.Data] and [RingQueue.Data]: walk the positions from the head
    to the tail and keep the nodes whose sequence number says they are full. *)
Fixpoint data_loop (n : nat) (r : ring A) (i : Z) : outcome (list A) :=
  match n with
  | O => Done []
  | S n =>
      let* nd := slice_get (data r) (index r i) in
      let* rest := data_loop n r (i + 1) in
      Done (if nseq nd =? u64 (i + 1) then nval nd :: rest else rest)
  end.

Definition Data (r : ring A) : outcome (list A) :=
  data_loop (Z.to_nat (tail r - head r)) r (head r).

Definition QueueData (r : ring A) : outcome (list A) :=
  data_loop (Z.to_nat (tail r - head r)) r (head r).

(** [RingStack.Data]: newest first. *)
Fixpoint stack_data_loop (n : nat) (r : ring A) (i : Z) : outcome (list A) :=
  match n with
  | O => Done []
  | S n =>
      let* nd := slice_get (data r) (index r (i - 1)) in
      let* rest := stack_data_loop n r (i - 1) in
      Done (if nseq nd =? i then nval nd :: rest else rest)
  end.

Definition StackData (r : ring A) : outcome (list A) :=
  stack_data_loop (Z.to_nat (tail r - head r)) r (tail r).

Definition Len (r : ring A) : Z := i64 (u64 (tail r - head r)).
Definition Cap (r : ring A) : Z := i64 (u64 (mask r + 1)).

(** [RingBuffer.Clone]: nil stays nil, and the copy owns its own nodes. *)
Definition Clone (r : option (ring A)) : option (ring A) :=
  match r with
  | None => None
  | Some r => Some (Ring (mask r) (data r) (head r) (tail r))
  end.

(** [RingBuffer.Reset]: slot [i] gets the position of the next push that
    lands on it. *)
Definition reset_node (span tail : Z) (i : nat) : node A :=
  Node (u64 (tail + u64 (u64 (u64 (Z.of_nat i + span) - tail mod span) mod span))) zero.

Definition Reset (r : ring A) : ring A :=
  let span := u64 (mask r + 1) in
  Ring (mask r) (reset_node span (tail r) <$> seq 0 (Z.to_nat span)) (tail r) (tail r).

End operations.

(** ** The bounded-list specification *)

(** Appending to a list of bounded length: past the bound the oldest element
    goes. *)
Definition bounded_push {A} (cap : Z) (l : list A) (v : A) : list A :=
  if cap <=? Z.of_nat (length l) then drop 1 (l ++ [v]) else l ++ [v].

(** ** Representation

    [rep freed k r l]: the ring [r] has [2 ^ k] slots and holds exactly [l].
    A live position [p] carries the sequence number [p + 1]; a free position
    carries a number [freed] accepts, which differs between the containers
    because [Pop] gives a slot back from the top and [Dequeue] from the
    front. *)
Section representation.
Context {A : Type} (zero : A).
Variable freed : Z -> Z -> Z -> Prop.
Implicit Types (r : ring A) (l : list A).

Definition slot (r : ring A) (p : Z) : nat := Z.to_nat (index r p).

Record rep (k : Z) (r : ring A) (l : list A) : Prop := {
  rep_k : 0 <= k <= 63;
  rep_mask : mask r = 2 ^ k - 1;
  rep_data : Z.of_nat (length (data r)) = 2 ^ k;
  rep_head : 0 <= head r;
  rep_tail : tail r = head r + Z.of_nat (length l);
  rep_cap : Z.of_nat (length l) <= 2 ^ k;
  rep_bound : tail r < 2 ^ 63;
  rep_live : forall i v, l !! i = Some v ->
    data r !! slot r (head r + Z.of_nat i) = Some (Node (head r + Z.of_nat i + 1) v);
  rep_free : forall p, tail r <= p < head r + 2 ^ k ->
    exists n, data r !! slot r p = Some n /\ freed (2 ^ k) p (nseq n)
}.

Lemma pow2_bounds k : 0 <= k <= 63 -> 1 <= 2 ^ k <= 2 ^ 63.
Proof.
  intros. split.
  - change 1 with (2 ^ 0). apply Z.pow_le_mono_r; lia.
  - apply Z.pow_le_mono_r; lia.
Qed.

Lemma index_mod k r p : 0 <= k -> mask r = 2 ^ k - 1 -> index r p = p mod 2 ^ k.
Proof. intros ? Hm. unfold index. rewrite Hm. now apply land_mask_mod. Qed.

Lemma index_range k r p : 0 <= k <= 63 -> mask r = 2 ^ k - 1 -> 0 <= index r p < 2 ^ k.
Proof.
  intros Hk Hm. pose proof (pow2_bounds k Hk).
  rewrite (index_mod k) by (lia || done). apply Z.mod_pos_bound. lia.
Qed.

Lemma slot_ne k r p q :
  0 <= k <= 63 -> mask r = 2 ^ k - 1 -> p <> q -> Z.abs (p - q) < 2 ^ k -> slot r p <> slot r q.
Proof.
  intros Hk Hm Hne Hd He. apply Hne. pose proof (pow2_bounds k Hk).
  pose proof (index_range k r p Hk Hm). pose proof (index_range k r q Hk Hm).
  apply (mod_eq_close p q (2 ^ k)); [lia| |done].
  rewrite <- !(index_mod k r) by (lia || done). unfold slot in He. lia.
Qed.

Lemma slot_wrap k r p : 0 <= k <= 63 -> mask r = 2 ^ k - 1 -> slot r (p + 2 ^ k) = slot r p.
Proof.
  intros Hk Hm. pose proof (pow2_bounds k Hk). unfold slot.
  rewrite !(index_mod k r) by (lia || done). f_equal.
  replace (p + 2 ^ k) with (p + 1 * 2 ^ k) by lia. apply Z_mod_plus_full.
Qed.

Lemma slot_eq r r' p : mask r = mask r' -> slot r p = slot r' p.
Proof. unfold slot, index. now intros ->. Qed.

(** Reading and writing a slot of a represented ring never panics. *)
Lemma rep_get k r l p n :
  rep k r l -> data r !! slot r p = Some n -> slice_get (data r) (index r p) = Done n.
Proof.
  intros R Hn. pose proof (index_range k r p (rep_k _ _ _ R) (rep_mask _ _ _ R)).
  apply slice_get_Some; [lia|done].
Qed.

Lemma rep_set k r l p n :
  rep k r l -> slice_set (data r) (index r p) n = Done (<[slot r p := n]> (data r)).
Proof.
  intros R. pose proof (index_range k r p (rep_k _ _ _ R) (rep_mask _ _ _ R)).
  apply slice_set_in. rewrite (rep_data _ _ _ R). lia.
Qed.

Lemma rep_slot_lt k r l p : rep k r l -> (slot r p < length (data r))%nat.
Proof.
  intros R. pose proof (index_range k r p (rep_k _ _ _ R) (rep_mask _ _ _ R)).
  pose proof (rep_data _ _ _ R). unfold slot. lia.
Qed.

Lemma insert_slot_eq k r l p n :
  rep k r l -> <[slot r p := n]> (data r) !! slot r p = Some n.
Proof. intros R. apply list_lookup_insert_eq. eapply rep_slot_lt; eauto. Qed.

Lemma insert_slot_ne k r l p q n :
  rep k r l -> p <> q -> Z.abs (p - q) < 2 ^ k ->
  <[slot r p := n]> (data r) !! slot r q = data r !! slot r q.
Proof.
  intros R Hne Hd. apply list_lookup_insert_ne.
  eapply (slot_ne k); eauto using rep_k, rep_mask.
Qed.

(** The node at the head of a nonempty ring, and at its last position. *)
Lemma rep_first k r x l :
  rep k r (x :: l) -> data r !! slot r (head r) = Some (Node (head r + 1) x).
Proof.
  intros R. pose proof (rep_live _ _ _ R 0%nat x eq_refl) as H.
  now rewrite Z.add_0_r in H.
Qed.

Lemma rep_last k r l x :
  rep k r (l ++ [x]) -> data r !! slot r (tail r - 1) = Some (Node (tail r) x).
Proof.
  intros R. pose proof (rep_live _ _ _ R (length l) x) as H.
  rewrite lookup_app_r in H by lia. rewrite Nat.sub_diag in H. specialize (H eq_refl).
  pose proof (rep_tail _ _ _ R) as T. rewrite length_app in T. simpl in T.
  replace (tail r - 1) with (head r + Z.of_nat (length l)) by lia.
  replace (tail r) with (head r + Z.of_nat (length l) + 1) by lia. exact H.
Qed.

(** *** Push *)

Hypothesis freed_writable : forall sz p s,
  1 <= sz <= 2 ^ 63 -> 0 <= p < 2 ^ 64 -> freed sz p s -> i64 (u64 (s - p)) <= 0.

Lemma push_room k r l v :
  rep k r l -> tail r + 1 < 2 ^ 63 -> Z.of_nat (length l) < 2 ^ k ->
  exists r', Push r v = Done r' /\ rep k r' (l ++ [v]) /\ tail r' = tail r + 1.
Proof.
  intros R Hb Hl. pose proof (pow2_bounds k (rep_k _ _ _ R)) as Hk.
  pose proof (rep_head _ _ _ R). pose proof (rep_tail _ _ _ R) as HT.
  pose proof (rep_mask _ _ _ R) as HM.
  destruct (rep_free _ _ _ R (tail r)) as (n & Hn & Hf); [lia|].
  unfold Push. rewrite (rep_get k r l _ n) by done. simpl.
  destruct (Z.leb_spec (i64 (u64 (nseq n - tail r))) 0) as [_|C];
    [|apply freed_writable in Hf; lia].
  rewrite (rep_set k r l) by done. simpl.
  rewrite HM, !u64_small by (unfold is_u64; lia).
  destruct (Z.leb_spec (2 ^ k - 1 + 1) (tail r - head r)) as [C|_]; [lia|].
  eexists. split; [reflexivity|]. split; [|reflexivity].
  constructor; simpl; try (eapply R; fail); auto.
  - rewrite length_insert. apply R.
  - rewrite length_app. simpl. lia.
  - rewrite length_app. simpl. lia.
  - intros i w Hi. rewrite (slot_eq _ r) by (simpl; congruence).
    destruct (decide (i = length l)) as [->|Hne].
    + rewrite lookup_app_r, Nat.sub_diag in Hi by lia. injection Hi as <-.
      rewrite <- HT. erewrite insert_slot_eq by eauto. done.
    + apply lookup_lt_Some in Hi as Hlt. rewrite length_app in Hlt. simpl in Hlt.
      rewrite lookup_app_l in Hi by lia.
      erewrite insert_slot_ne by (eauto; lia). now apply (rep_live _ _ _ R).
  - intros p Hp. rewrite (slot_eq _ r) by (simpl; congruence).
    erewrite insert_slot_ne by (eauto; lia). apply (rep_free _ _ _ R). lia.
Qed.

Lemma push_full k r x l v :
  rep k r (x :: l) -> tail r + 1 < 2 ^ 63 -> Z.of_nat (length (x :: l)) = 2 ^ k ->
  exists r', Push r v = Done r' /\ rep k r' (l ++ [v]) /\ tail r' = tail r + 1.
Proof.
  intros R Hb Hl. pose proof (pow2_bounds k (rep_k _ _ _ R)) as Hk.
  pose proof (rep_head _ _ _ R). pose proof (rep_tail _ _ _ R) as HT. simpl in Hl, HT.
  pose proof (rep_mask _ _ _ R) as HM. pose proof (rep_first _ _ _ _ R) as Hn.
  assert (slot r (tail r) = slot r (head r)) as Hs.
  { rewrite <- (slot_wrap k r (head r)) by (eapply R || done). f_equal. lia. }
  unfold Push. rewrite (rep_get k r _ _ (Node (head r + 1) x)) by (done || now rewrite Hs). simpl.
  replace (head r + 1 - tail r) with (1 - 2 ^ k) by lia.
  rewrite i64_u64, i64_small by (unfold is_i64; lia).
  destruct (Z.leb_spec (1 - 2 ^ k) 0) as [_|]; [|lia].
  rewrite (rep_set k r _) by done. simpl.
  rewrite HM, !u64_small by (unfold is_u64; lia).
  destruct (Z.leb_spec (2 ^ k - 1 + 1) (tail r - head r)) as [_|C]; [|lia].
  eexists. split; [reflexivity|]. split; [|reflexivity].
  constructor; simpl; try (eapply R; fail); auto; try lia.
  - rewrite length_insert. apply R.
  - rewrite length_app. simpl. lia.
  - rewrite length_app. simpl. lia.
  - intros i w Hi. rewrite (slot_eq _ r) by (simpl; congruence).
    destruct (decide (i = length l)) as [->|Hne].
    + rewrite lookup_app_r, Nat.sub_diag in Hi by lia. injection Hi as <-.
      replace (head r + 1 + Z.of_nat (length l)) with (tail r) by lia.
      erewrite insert_slot_eq by eauto. done.
    + apply lookup_lt_Some in Hi as Hlt. rewrite length_app in Hlt. simpl in Hlt.
      rewrite lookup_app_l in Hi by lia.
      erewrite insert_slot_ne by (eauto; lia).
      replace (head r + 1 + Z.of_nat i) with (head r + Z.of_nat (S i)) by lia.
      now apply (rep_live _ _ _ R).
Qed.

Lemma push_refines k r l v :
  rep k r l -> tail r + 1 < 2 ^ 63 ->
  exists r', Push r v = Done r' /\ rep k r' (bounded_push (2 ^ k) l v) /\ tail r' = tail r + 1.
Proof.
  intros R Hb. unfold bounded_push. pose proof (rep_cap _ _ _ R).
  destruct (Z.leb_spec (2 ^ k) (Z.of_nat (length l))); [|now apply push_room].
  destruct l as [|x l]; [|simpl; rewrite drop_0; apply push_full with x; auto; lia].
  pose proof (pow2_bounds k (rep_k _ _ _ R)). simpl in *. lia.
Qed.

(** *** Giving slots back *)

Lemma pop_front k r x l :
  (forall sz p, freed sz p (u64 p)) ->
  rep k r (x :: l) ->
  rep k (Ring (mask r) (<[slot r (head r) := Node (u64 (head r + mask r + 1)) zero]> (data r))
           (u64 (head r + 1)) (tail r)) l.
Proof.
  intros Hfree R. pose proof (pow2_bounds k (rep_k _ _ _ R)) as Hk.
  pose proof (rep_head _ _ _ R). pose proof (rep_tail _ _ _ R) as HT. simpl in HT.
  pose proof (rep_mask _ _ _ R) as HM. pose proof (rep_cap _ _ _ R) as HC. simpl in HC.
  pose proof (rep_bound _ _ _ R).
  rewrite (u64_small (head r + 1)) by (unfold is_u64; lia).
  constructor; simpl; try (eapply R; fail); try lia.
  - rewrite length_insert. apply R.
  - intros i w Hi. rewrite (slot_eq _ r) by done.
    apply lookup_lt_Some in Hi as Hlt.
    erewrite insert_slot_ne by (eauto; lia).
    replace (head r + 1 + Z.of_nat i) with (head r + Z.of_nat (S i)) by lia.
    now apply (rep_live _ _ _ R).
  - intros p Hp. rewrite (slot_eq _ r) by done.
    destruct (decide (p = head r + 2 ^ k)) as [->|Hne].
    + rewrite (slot_wrap k) by (eapply R || done). erewrite insert_slot_eq by eauto.
      eexists. split; [done|]. simpl.
      replace (head r + mask r + 1) with (head r + 2 ^ k) by lia. apply Hfree.
    + erewrite insert_slot_ne by (eauto; lia). apply (rep_free _ _ _ R). lia.
Qed.

Lemma pop_top k r l x :
  (forall sz p, freed sz p (u64 (p + 1 - sz))) ->
  rep k r (l ++ [x]) ->
  rep k (Ring (mask r) (<[slot r (tail r - 1) := Node (u64 (tail r - mask r - 1)) zero]> (data r))
           (head r) (tail r - 1)) l.
Proof.
  intros Hfree R. pose proof (pow2_bounds k (rep_k _ _ _ R)) as Hk.
  pose proof (rep_head _ _ _ R). pose proof (rep_tail _ _ _ R) as HT.
  pose proof (rep_mask _ _ _ R) as HM. pose proof (rep_cap _ _ _ R) as HC.
  rewrite length_app in HT, HC. simpl in HT, HC. pose proof (rep_bound _ _ _ R).
  constructor; simpl; try (eapply R; fail); try lia.
  - rewrite length_insert. apply R.
  - intros i w Hi. rewrite (slot_eq _ r) by done.
    apply lookup_lt_Some in Hi as Hlt.
    erewrite insert_slot_ne by (eauto; lia).
    apply (rep_live _ _ _ R). now rewrite lookup_app_l by lia.
  - intros p Hp. rewrite (slot_eq _ r) by done.
    destruct (decide (p = tail r - 1)) as [->|Hne].
    + erewrite insert_slot_eq by eauto. eexists. split; [done|]. simpl.
      replace (tail r - mask r - 1) with (tail r - 1 + 1 - 2 ^ k) by lia. apply Hfree.
    + erewrite insert_slot_ne by (eauto; lia). apply (rep_free _ _ _ R). lia.
Qed.

(** *** Observers *)

Lemma rep_at k r l i :
  rep k r l -> is_i64 i -> At r i = Done (if i <? 0 then None else l !! Z.to_nat i).
Proof.
  intros R Hi. unfold is_i64 in Hi. pose proof (pow2_bounds k (rep_k _ _ _ R)) as Hk.
  pose proof (rep_head _ _ _ R). pose proof (rep_tail _ _ _ R) as HT.
  pose proof (rep_cap _ _ _ R). pose proof (rep_bound _ _ _ R).
  unfold At. destruct (Z.ltb_spec i 0); [done|].
  rewrite (u64_small i) by (unfold is_u64; lia).
  destruct (l !! Z.to_nat i) as [v|] eqn:Hv.
  - apply lookup_lt_Some in Hv as Hlt.
    rewrite (u64_small (head r + i)) by (unfold is_u64; lia).
    destruct (Z.leb_spec (tail r) (head r + i)); [lia|].
    pose proof (rep_live _ _ _ R _ _ Hv) as Hn. rewrite Z2Nat.id in Hn by lia.
    rewrite (rep_get k r l _ _ R Hn). simpl. rewrite u64_small by (unfold is_u64; lia).
    now rewrite Z.eqb_refl.
  - apply lookup_ge_None in Hv.
    rewrite (u64_small (head r + i)) by (unfold is_u64; lia).
    destruct (Z.leb_spec (tail r) (head r + i)); [done|lia].
Qed.

Lemma rep_len k r l : rep k r l -> Len r = Z.of_nat (length l).
Proof.
  intros R. pose proof (rep_head _ _ _ R). pose proof (rep_tail _ _ _ R) as HT.
  pose proof (rep_bound _ _ _ R). unfold Len.
  rewrite i64_u64, i64_small by (unfold is_i64; lia). lia.
Qed.

Lemma rep_peek k r l : rep k r l -> Peek r = Done (last l).
Proof.
  intros R. pose proof (rep_head _ _ _ R). pose proof (rep_tail _ _ _ R) as HT.
  pose proof (rep_bound _ _ _ R). unfold Peek.
  destruct l as [|x l' _] using rev_ind.
  - simpl in HT. destruct (Z.eqb_spec (tail r) (head r)); [done|lia].
  - rewrite length_app in HT. simpl in HT.
    destruct (Z.eqb_spec (tail r) (head r)); [lia|].
    rewrite u64_small by (unfold is_u64; lia).
    rewrite (rep_get k r _ _ _ R (rep_last _ _ _ _ R)). simpl.
    now rewrite Z.eqb_refl, last_snoc.
Qed.

Lemma data_loop_spec k r l l1 l2 :
  rep k r l -> l = l1 ++ l2 ->
  data_loop (length l2) r (head r + Z.of_nat (length l1)) = Done l2.
Proof.
  intros R. pose proof (rep_head _ _ _ R). pose proof (rep_tail _ _ _ R) as HT.
  pose proof (rep_bound _ _ _ R). revert l1.
  induction l2 as [|x l2 IH]; intros l1 ->; [done|]. simpl.
  rewrite length_app in HT. simpl in HT.
  assert ((l1 ++ x :: l2) !! length l1 = Some x) as Hx by now rewrite list_lookup_middle.
  rewrite (rep_get k r _ _ _ R (rep_live _ _ _ R _ _ Hx)). simpl.
  specialize (IH (l1 ++ [x])). rewrite length_app in IH. simpl in IH.
  replace (head r + Z.of_nat (length l1 + 1)) with (head r + Z.of_nat (length l1) + 1) in IH by lia.
  rewrite IH by now rewrite <- app_assoc. simpl.
  rewrite u64_small by (unfold is_u64; lia). now rewrite Z.eqb_refl.
Qed.

Lemma rep_values k r l : rep k r l -> Data r = Done l.
Proof.
  intros R. pose proof (rep_tail _ _ _ R). unfold Data.
  replace (Z.to_nat (tail r - head r)) with (length l) by lia.
  pose proof (data_loop_spec k r l [] l R eq_refl) as H1. simpl in H1.
  now rewrite Z.add_0_r in H1.
Qed.

Lemma stack_data_loop_spec k r l l1 l2 :
  rep k r l -> l = l1 ++ l2 ->
  stack_data_loop (length l1) r (head r + Z.of_nat (length l1)) = Done (reverse l1).
Proof.
  intros R. pose proof (rep_head _ _ _ R). pose proof (rep_tail _ _ _ R) as HT.
  pose proof (rep_bound _ _ _ R). revert l2.
  induction l1 as [|x l1 IH] using rev_ind; intros l2 ->; [done|].
  rewrite length_app. simpl. rewrite Nat.add_1_r. simpl.
  replace (head r + Z.of_nat (S (length l1)) - 1) with (head r + Z.of_nat (length l1)) by lia.
  rewrite <- app_assoc in *. simpl in *.
  assert ((l1 ++ x :: l2) !! length l1 = Some x) as Hx by now rewrite list_lookup_middle.
  rewrite (rep_get k r _ _ _ R (rep_live _ _ _ R _ _ Hx)). simpl.
  rewrite (IH (x :: l2) eq_refl). simpl.
  replace (head r + Z.of_nat (length l1) + 1) with (head r + Z.of_nat (S (length l1))) by lia.
  now rewrite Z.eqb_refl, reverse_snoc.
Qed.

Lemma rep_stack_values k r l : rep k r l -> StackData r = Done (reverse l).
Proof.
  intros R. pose proof (rep_tail _ _ _ R) as HT. unfold StackData.
  replace (Z.to_nat (tail r - head r)) with (length l) by lia. rewrite HT.
  apply (stack_data_loop_spec k r l l []); [done|]. now rewrite app_nil_r.
Qed.

End representation.

(** ** Sizes *)

Lemma land_pred_pow2 n : 0 < n -> Z.land n (n - 1) = 0 -> n = 2 ^ Z.log2 n.
Proof.
  intros Hn Hl. destruct (Z.log2_spec n Hn) as [Hlo Hhi].
  destruct (decide (n = 2 ^ Z.log2 n)) as [|Hne]; [done|exfalso].
  pose proof (Z.log2_nonneg n).
  assert (Z.log2 (n - 1) = Z.log2 n) as He by (apply Z.log2_unique; lia).
  assert (0 < 2 ^ Z.log2 n) by (apply Z.pow_pos_nonneg; lia).
  assert (Z.testbit (Z.land n (n - 1)) (Z.log2 n) = true) as Hb.
  { rewrite Z.land_spec, Z.bit_log2 by lia. rewrite <- He at 1. now rewrite Z.bit_log2 by lia. }
  rewrite Hl, Z.bits_0 in Hb. done.
Qed.

Lemma pad_size_spec size :
  1 <= size <= 2 ^ 63 ->
  exists k, 0 <= k <= 63 /\ pad_size size = 2 ^ k /\ size <= 2 ^ k < 2 * size.
Proof.
  intros Hs. unfold pad_size. rewrite (u64_small (size - 1)) by (unfold is_u64; lia).
  destruct (Z.eqb_spec (Z.land size (size - 1)) 0) as [He|Hne].
  - exists (Z.log2 size). apply land_pred_pow2 in He; [|lia].
    pose proof (Z.log2_nonneg size). split; [|split; [done|lia]].
    split; [done|]. replace 63 with (Z.log2 (2 ^ 63)) by reflexivity.
    apply Z.log2_le_mono. lia.
  - assert (size <> 1) by (intros ->; now apply Hne).
    unfold len64. destruct (Z.eqb_spec (size - 1) 0); [lia|].
    destruct (Z.log2_spec (size - 1)) as [Hlo Hhi]; [lia|].
    pose proof (Z.log2_nonneg (size - 1)).
    assert (Z.log2 (size - 1) <= 62).
    { assert (Z.log2 (size - 1) < 63); [apply Z.log2_lt_pow2; lia|lia]. }
    exists (Z.log2 (size - 1) + 1). rewrite Z.shiftl_1_l.
    rewrite <- Z.add_1_r in Hhi.
    assert (2 ^ (Z.log2 (size - 1) + 1) = 2 * 2 ^ Z.log2 (size - 1)) as Hd
      by (rewrite Z.pow_add_r by lia; lia).
    rewrite u64_small by (unfold is_u64; lia). lia.
Qed.

(** ** Concrete representations *)

(** Free slots of a queue or buffer carry their own position; those of a stack
    may also carry the number [Pop] leaves. *)
Definition freed_front (sz p s : Z) : Prop := s = u64 p.
Definition freed_top (sz p s : Z) : Prop := s = u64 p \/ s = u64 (p + 1 - sz).

Lemma freed_front_writable sz p s :
  1 <= sz <= 2 ^ 63 -> 0 <= p < 2 ^ 64 -> freed_front sz p s -> i64 (u64 (s - p)) <= 0.
Proof.
  unfold freed_front. intros ? ? ->. rewrite (u64_small p) by (unfold is_u64; lia).
  rewrite Z.sub_diag. done.
Qed.

Lemma freed_top_writable sz p s :
  1 <= sz <= 2 ^ 63 -> 0 <= p < 2 ^ 64 -> freed_top sz p s -> i64 (u64 (s - p)) <= 0.
Proof.
  intros ? ? [->| ->].
  - eapply freed_front_writable; eauto; done.
  - unfold Z.sub at 1. rewrite u64_add_mod, i64_u64.
    replace (p + 1 - sz + - p) with (1 - sz) by lia.
    rewrite i64_small by (unfold is_i64; lia). lia.
Qed.

Section containers.
Context {A : Type} (zero : A).
Implicit Types (r : ring A) (l : list A).

Abbreviation buffer_rep := (@rep A freed_front).
Abbreviation stack_rep := (@rep A freed_top).

Lemma new_rep freed k m :
  (forall sz p, freed sz p (u64 p)) -> 0 <= k <= 63 -> m = 2 ^ k ->
  rep freed k (Ring (u64 (m - 1))
    ((fun i => Node (Z.of_nat i) zero) <$> seq 0 (Z.to_nat m)) 0 0) [].
Proof.
  intros Hf Hk ->. pose proof (pow2_bounds k Hk).
  rewrite u64_small by (unfold is_u64; lia).
  constructor; simpl; try lia; auto.
  - rewrite length_fmap, length_seq. lia.
  - intros i v Hi. discriminate.
  - intros p Hp. exists (Node p zero).
    unfold slot. rewrite (index_mod k) by (simpl; lia). rewrite Z.mod_small by lia.
    rewrite list_lookup_fmap, lookup_seq_lt by lia. simpl.
    rewrite Z2Nat.id by lia. split; [done|]. rewrite <- (u64_small p) at 2; [auto|].
    unfold is_u64. lia.
Qed.

Lemma rep_front k r l : buffer_rep k r l -> First r = Done (hd_error l).
Proof.
  intros R. pose proof (pow2_bounds k (rep_k _ _ _ _ R)) as Hk.
  pose proof (rep_head _ _ _ _ R). pose proof (rep_tail _ _ _ _ R) as HT.
  pose proof (rep_bound _ _ _ _ R). unfold First. destruct l as [|x l]; simpl in HT.
  - destruct (rep_free _ _ _ _ R (head r)) as (n & Hn & Hf); [lia|].
    rewrite (rep_get _ k r _ _ _ R Hn). simpl. rewrite Hf, (u64_small (head r)) by (unfold is_u64; lia).
    now replace (head r - head r - 1) with (-1) by lia.
  - rewrite (rep_get _ k r _ _ _ R (rep_first _ _ _ _ _ R)). simpl.
    now replace (head r + 1 - head r - 1) with 0 by lia.
Qed.

Lemma dequeue_refines k r l :
  buffer_rep k r l ->
  exists r', Dequeue zero r = Done (hd_error l, r') /\ buffer_rep k r' (drop 1 l)
             /\ tail r' = tail r.
Proof.
  intros R. pose proof (pow2_bounds k (rep_k _ _ _ _ R)) as Hk.
  pose proof (rep_head _ _ _ _ R). pose proof (rep_tail _ _ _ _ R) as HT.
  pose proof (rep_bound _ _ _ _ R). unfold Dequeue. destruct l as [|x l]; simpl in HT.
  - destruct (rep_free _ _ _ _ R (head r)) as (n & Hn & Hf); [lia|].
    rewrite (rep_get _ k r _ _ _ R Hn). simpl. rewrite Hf, (u64_small (head r)) by (unfold is_u64; lia).
    replace (head r - head r - 1) with (-1) by lia. simpl. eauto.
  - rewrite (rep_get _ k r _ _ _ R (rep_first _ _ _ _ _ R)). simpl.
    replace (head r + 1 - head r - 1) with 0 by lia. simpl.
    rewrite (rep_set _ k r _ _ _ R). simpl. eexists. split; [done|]. split; [|done].
    rewrite drop_0. eapply pop_front; [done|exact R].
Qed.

Lemma pop_refines k r l :
  stack_rep k r l ->
  exists r', Pop zero r = Done (last l, r') /\ stack_rep k r' (take (length l - 1) l)
             /\ tail r' <= tail r.
Proof.
  intros R. pose proof (rep_head _ _ _ _ R). pose proof (rep_tail _ _ _ _ R) as HT.
  pose proof (rep_bound _ _ _ _ R). unfold Pop.
  destruct l as [|x l' _] using rev_ind.
  - simpl in HT. destruct (Z.eqb_spec (tail r) (head r)); [|lia].
    exists r. split_and!; auto; lia.
  - rewrite length_app in HT |- *. simpl in HT |- *.
    destruct (Z.eqb_spec (tail r) (head r)); [lia|].
    rewrite u64_small by (unfold is_u64; lia).
    rewrite (rep_get _ k r _ _ _ R (rep_last _ _ _ _ _ R)). simpl. rewrite Z.eqb_refl.
    rewrite (rep_set _ k r _ _ _ R). simpl. rewrite last_snoc. eexists. split; [done|].
    replace (length l' + 1 - 1)%nat with (length l') by lia. rewrite take_app_length.
    split; [|simpl; lia]. eapply pop_top; [|exact R]. unfold freed_top. auto.
Qed.

Lemma drop_loop_refines {St} (p : St -> A -> bool * St) k fuel s r l d :
  buffer_rep k r l -> (length l < fuel)%nat ->
  let (n, s') := count_while p s l in
  exists r', drop_loop zero fuel p s r d = Done (d + Z.of_nat n, s', r')
             /\ buffer_rep k r' (drop n l) /\ tail r' = tail r.
Proof.
  revert s r l d. induction fuel as [|fuel IH]; intros s r l d R Hf; [lia|]. simpl.
  pose proof (rep_head _ _ _ _ R). pose proof (rep_tail _ _ _ _ R) as HT.
  destruct l as [|x l]; simpl in HT |- *.
  - destruct (Z.eqb_spec (head r) (tail r)); [|lia]. rewrite Z.add_0_r. eauto.
  - destruct (Z.eqb_spec (head r) (tail r)); [lia|].
    rewrite (rep_get _ k r _ _ _ R (rep_first _ _ _ _ _ R)). simpl.
    replace (head r + 1 - head r - 1) with 0 by lia. simpl.
    destruct (p s x) as [[] s'] eqn:Hp; simpl; [|rewrite Z.add_0_r; eauto].
    rewrite (rep_set _ k r _ _ _ R). simpl.
    pose proof (pop_front zero freed_front k r x l (fun _ _ => eq_refl) R) as R'.
    simpl in Hf. specialize (IH s' _ l (d + 1) R' ltac:(lia)).
    destruct (count_while p s' l) as [m s'']. destruct IH as (r' & -> & Hr' & Ht').
    exists r'. split; [|split; [done|exact Ht']].
    replace (d + Z.of_nat (S m)) with (d + 1 + Z.of_nat m) by lia. done.
Qed.

Lemma reset_rep k r l : buffer_rep k r l -> buffer_rep k (Reset zero r) [].
Proof.
  intros R. pose proof (pow2_bounds k (rep_k _ _ _ _ R)) as Hk.
  pose proof (rep_head _ _ _ _ R). pose proof (rep_tail _ _ _ _ R) as HT.
  pose proof (rep_bound _ _ _ _ R). pose proof (rep_mask _ _ _ _ R) as HM.
  unfold Reset. rewrite (u64_small (mask r + 1)) by (unfold is_u64; lia).
  replace (mask r + 1) with (2 ^ k) by lia.
  constructor; simpl; try (eapply R; fail); try lia.
  - rewrite length_fmap, length_seq. lia.
  - intros i v Hi. discriminate.
  - intros p Hp. unfold slot. rewrite (index_mod k) by (simpl; first [apply HM | apply (rep_k _ _ _ _ R) | lia]).
    pose proof (Z.mod_pos_bound p (2 ^ k) ltac:(lia)) as Hb.
    pose proof (Z.mod_pos_bound (tail r) (2 ^ k) ltac:(lia)) as Hb'.
    rewrite list_lookup_fmap, lookup_seq_lt by lia. simpl.
    eexists. split; [done|]. unfold reset_node, freed_front. simpl. rewrite Z2Nat.id by lia.
    rewrite (u64_small (p mod 2 ^ k + 2 ^ k)) by (unfold is_u64; lia).
    rewrite (u64_small (_ - _)) by (unfold is_u64; lia).
    assert ((p mod 2 ^ k + 2 ^ k - tail r mod 2 ^ k) mod 2 ^ k = p - tail r) as ->.
    { replace (p mod 2 ^ k + 2 ^ k - tail r mod 2 ^ k)
        with (p mod 2 ^ k - tail r mod 2 ^ k + 1 * 2 ^ k) by lia.
      rewrite Z_mod_plus_full, <- Zminus_mod. apply Z.mod_small. lia. }
    rewrite (u64_small (p - tail r)) by (unfold is_u64; lia). f_equal. lia.
Qed.

End containers.

(** ** Runs

    A container is driven by a sequence of calls; the calls refine a
    specification on lists when every reply along the sequence agrees. *)
Section runs.
Context {C Sp Op Re : Type} (run : C -> Op -> outcome (Re * C)) (spec : Sp -> Op -> Re * Sp).

Fixpoint run_all (c : C) (ops : list Op) : outcome (list Re) :=
  match ops with
  | [] => Done []
  | op :: ops => let* (x, c') := run c op in let* xs := run_all c' ops in Done (x :: xs)
  end.

Fixpoint spec_all (s : Sp) (ops : list Op) : list Re :=
  match ops with
  | [] => []
  | op :: ops => let (x, s') := spec s op in x :: spec_all s' ops
  end.

(** [R n c s]: [c] implements [s] and has budget for [n] more calls. *)
Lemma run_all_refines (R : nat -> C -> Sp -> Prop) (ok : Op -> Prop) ops c s :
  (forall n c s op, ok op -> R (S n) c s ->
     exists c', run c op = Done (fst (spec s op), c') /\ R n c' (snd (spec s op))) ->
  Forall ok ops -> R (length ops) c s -> run_all c ops = Done (spec_all s ops).
Proof.
  intros Hstep. revert c s. induction ops as [|op ops IH]; intros c s Hok HR; [done|].
  inversion Hok as [|? ? Hop Hops]; subst. simpl.
  destruct (Hstep _ c s op Hop HR) as (c' & -> & HR'). simpl.
  rewrite (IH c' (snd (spec s op))) by done. simpl. now destruct (spec s op).
Qed.
End runs.

(** What a call returns. *)
Inductive reply (A : Type) :=
  | RUnit
  | RCount (n : Z)
  | RElem (x : option A)
  | RList (l : list A).
Arguments RUnit {A}.
Arguments RCount {A} n.
Arguments RElem {A} x.
Arguments RList {A} l.

Inductive buffer_op (A : Type) :=
  | BPush (v : A)
  | BDropWhile (p : A -> bool)
  | BReset
  | BAt (i : Z)
  | BFirst
  | BLast
  | BData
  | BLen
  | BClone.
Arguments BPush {A} v.
Arguments BDropWhile {A} p.
Arguments BReset {A}.
Arguments BAt {A} i.
Arguments BFirst {A}.
Arguments BLast {A}.
Arguments BData {A}.
Arguments BLen {A}.
Arguments BClone {A}.

Inductive queue_op (A : Type) := QEnqueue (v : A) | QDequeue | QData | QLen.
Arguments QEnqueue {A} v.
Arguments QDequeue {A}.
Arguments QData {A}.
Arguments QLen {A}.

Inductive stack_op (A : Type) := SPush (v : A) | SPop | SPeek | SData | SLen.
Arguments SPush {A} v.
Arguments SPop {A}.
Arguments SPeek {A}.
Arguments SData {A}.
Arguments SLen {A}.

Section calls.
Context {A : Type} (zero : A).

(** A stateless Go predicate as the closure [DropWhile] receives. *)
Definition pure_predicate (p : A -> bool) (s : unit) (x : A) : bool * unit := (p x, s).

(** A call on the clone continues on the clone. *)
Definition run_buffer (r : ring A) (op : buffer_op A) : outcome (reply A * ring A) :=
  match op with
  | BPush v => let* r' := Push r v in Done (RUnit, r')
  | BDropWhile p =>
      let* (n, _, r') := DropWhile zero (pure_predicate p) tt r in Done (RCount n, r')
  | BReset => Done (RUnit, Reset zero r)
  | BAt i => let* x := At r i in Done (RElem x, r)
  | BFirst => let* x := First r in Done (RElem x, r)
  | BLast => let* x := Last r in Done (RElem x, r)
  | BData => let* l := Data r in Done (RList l, r)
  | BLen => Done (RCount (Len r), r)
  | BClone =>
      match Clone (Some r) with
      | Some r' => Done (RUnit, r')
      | None => Panic
      end
  end.

Definition spec_buffer (cap : Z) (l : list A) (op : buffer_op A) : reply A * list A :=
  match op with
  | BPush v => (RUnit, bounded_push cap l v)
  | BDropWhile p =>
      let n := fst (count_while (pure_predicate p) tt l) in (RCount (Z.of_nat n), drop n l)
  | BReset => (RUnit, [])
  | BAt i => (RElem (if i <? 0 then None else l !! Z.to_nat i), l)
  | BFirst => (RElem (hd_error l), l)
  | BLast => (RElem (last l), l)
  | BData => (RList l, l)
  | BLen => (RCount (Z.of_nat (length l)), l)
  | BClone => (RUnit, l)
  end.

(** An index is a Go [int]. *)
Definition buffer_op_ok (op : buffer_op A) : Prop :=
  match op with
  | BAt i => is_i64 i
  | _ => True
  end.

Definition run_queue (r : ring A) (op : queue_op A) : outcome (reply A * ring A) :=
  match op with
  | QEnqueue v => let* r' := Enqueue r v in Done (RUnit, r')
  | QDequeue => let* (x, r') := Dequeue zero r in Done (RElem x, r')
  | QData => let* l := QueueData r in Done (RList l, r)
  | QLen => Done (RCount (Len r), r)
  end.

Definition spec_queue (cap : Z) (l : list A) (op : queue_op A) : reply A * list A :=
  match op with
  | QEnqueue v => (RUnit, bounded_push cap l v)
  | QDequeue => (RElem (hd_error l), drop 1 l)
  | QData => (RList l, l)
  | QLen => (RCount (Z.of_nat (length l)), l)
  end.

Definition run_stack (r : ring A) (op : stack_op A) : outcome (reply A * ring A) :=
  match op with
  | SPush v => let* r' := StackPush r v in Done (RUnit, r')
  | SPop => let* (x, r') := Pop zero r in Done (RElem x, r')
  | SPeek => let* x := Peek r in Done (RElem x, r)
  | SData => let* l := StackData r in Done (RList l, r)
  | SLen => Done (RCount (Len r), r)
  end.

Definition spec_stack (cap : Z) (l : list A) (op : stack_op A) : reply A * list A :=
  match op with
  | SPush v => (RUnit, bounded_push cap l v)
  | SPop => (RElem (last l), take (length l - 1) l)
  | SPeek => (RElem (last l), l)
  | SData => (RList (reverse l), l)
  | SLen => (RCount (Z.of_nat (length l)), l)
  end.

(** The representation with a budget of calls before the counters could reach
    their width. *)
Definition budgeted (freed : Z -> Z -> Z -> Prop) (k : Z) (n : nat) (r : ring A) (l : list A)
    : Prop := rep freed k r l /\ tail r + Z.of_nat n < 2 ^ 63.

Lemma dropwhile_refines {St} (p : St -> A -> bool * St) k s (r : ring A) l :
  rep freed_front k r l ->
  let (n, s') := count_while p s l in
  exists r', DropWhile zero p s r = Done (Z.of_nat n, s', r')
             /\ rep freed_front k r' (drop n l) /\ tail r' = tail r.
Proof.
  intros R. pose proof (rep_head _ _ _ _ R). pose proof (rep_tail _ _ _ _ R) as HT.
  pose proof (rep_bound _ _ _ _ R). unfold DropWhile.
  rewrite u64_small by (unfold is_u64; lia).
  apply (drop_loop_refines zero p k _ s r l 0 R). lia.
Qed.

Lemma buffer_step k n r l op :
  buffer_op_ok op -> budgeted freed_front k (S n) r l ->
  exists r', run_buffer r op = Done (fst (spec_buffer (2 ^ k) l op), r')
             /\ budgeted freed_front k n r' (snd (spec_buffer (2 ^ k) l op)).
Proof.
  intros Hok [R Hb]. unfold budgeted.
  destruct op as [v|p| |i| | | | |]; simpl in *.
  - destruct (push_refines freed_front freed_front_writable k r l v R) as (r' & -> & R' & Ht);
      [lia|]. simpl. exists r'. split_and!; auto; lia.
  - pose proof (dropwhile_refines (pure_predicate p) k tt r l R) as H.
    destruct (count_while (pure_predicate p) tt l) as [m u] eqn:E.
    destruct H as (r' & -> & R' & Ht). simpl. exists r'. split_and!; auto; lia.
  - eexists. split; [done|]. split; [eapply reset_rep; eauto|]. simpl. lia.
  - rewrite (rep_at _ k r l i R Hok). simpl. eexists. split_and!; auto; lia.
  - rewrite (rep_front k r l R). simpl. eexists. split_and!; auto; lia.
  - change (Last r) with (Peek r). rewrite (rep_peek _ k r l R). simpl.
    eexists. split_and!; auto; lia.
  - rewrite (rep_values _ k r l R). simpl. eexists. split_and!; auto; lia.
  - rewrite (rep_len _ k r l R). eexists. split_and!; auto; lia.
  - destruct r as [m d h t]. eexists. split_and!; eauto; simpl in *; lia.
Qed.

Lemma queue_step k n r l op :
  budgeted freed_front k (S n) r l ->
  exists r', run_queue r op = Done (fst (spec_queue (2 ^ k) l op), r')
             /\ budgeted freed_front k n r' (snd (spec_queue (2 ^ k) l op)).
Proof.
  intros [R Hb]. unfold budgeted. destruct op as [v| | |]; simpl in *.
  - unfold Enqueue.
    destruct (push_refines freed_front freed_front_writable k r l v R) as (r' & -> & R' & Ht);
      [lia|]. simpl. exists r'. split_and!; auto; lia.
  - destruct (dequeue_refines zero k r l R) as (r' & -> & R' & Ht). simpl.
    exists r'. split_and!; auto; lia.
  - change (QueueData r) with (Data r). rewrite (rep_values _ k r l R). simpl.
    eexists. split_and!; auto; lia.
  - rewrite (rep_len _ k r l R). eexists. split_and!; auto; lia.
Qed.

Lemma stack_step k n r l op :
  budgeted freed_top k (S n) r l ->
  exists r', run_stack r op = Done (fst (spec_stack (2 ^ k) l op), r')
             /\ budgeted freed_top k n r' (snd (spec_stack (2 ^ k) l op)).
Proof.
  intros [R Hb]. unfold budgeted. destruct op as [v| | | |]; simpl in *.
  - unfold StackPush.
    destruct (push_refines freed_top freed_top_writable k r l v R) as (r' & -> & R' & Ht);
      [lia|]. simpl. exists r'. split_and!; auto; lia.
  - destruct (pop_refines zero k r l R) as (r' & -> & R' & Ht). simpl.
    exists r'. split_and!; auto; lia.
  - rewrite (rep_peek _ k r l R). simpl. eexists. split_and!; auto; lia.
  - rewrite (rep_stack_values _ k r l R). simpl. eexists. split_and!; auto; lia.
  - rewrite (rep_len _ k r l R). eexists. split_and!; auto; lia.
Qed.

End calls.

(** ** Refinement theorems *)

Lemma new_ring_rep {A} (zero : A) freed size :
  (forall sz p, freed sz p (u64 p)) -> 1 <= size <= 2 ^ 62 ->
  exists k r, NewRingBuffer zero size = Done r /\ rep freed k r [] /\ tail r = 0
              /\ Cap r = 2 ^ k /\ size <= 2 ^ k < 2 * size.
Proof.
  intros Hf Hs. destruct (pad_size_spec size) as (k & Hk & He & Hb); [lia|].
  exists k. unfold NewRingBuffer. destruct (Z.leb_spec size 0); [lia|].
  eexists. split; [done|]. split; [now apply new_rep|]. split; [done|]. split; [|done].
  unfold Cap. simpl. rewrite He. pose proof (pow2_bounds k Hk).
  rewrite (u64_small (2 ^ k - 1)) by (unfold is_u64; lia).
  rewrite i64_u64, i64_small by (unfold is_i64; lia). lia.
Qed.

(** C35: every sequence of calls on a fresh [RingBuffer] terminates without a
    panic and returns exactly what a list bounded by the buffer's capacity
    returns: pushes append and drop the oldest element past the capacity,
    [DropWhile] removes the longest accepted prefix and counts it, the reads
    see the elements oldest first.  The capacity is the requested size padded
    to less than its double. *)
Theorem ring_buffer_refines {A} (zero : A) (size : Z) (ops : list (buffer_op A)) :
  1 <= size <= 2 ^ 62 -> Z.of_nat (length ops) < 2 ^ 63 -> Forall buffer_op_ok ops ->
  exists r, NewRingBuffer zero size = Done r /\ size <= Cap r < 2 * size /\
    run_all (run_buffer zero) r ops = Done (spec_all (spec_buffer (Cap r)) [] ops).
Proof.
  intros Hs Hn Hok.
  destruct (new_ring_rep zero freed_front size ltac:(done) Hs) as (k & r & Hr & R & Ht & Hc & Hb).
  exists r. rewrite Hc. split_and!; [done|lia|lia|].
  apply (run_all_refines _ _ (budgeted freed_front k) buffer_op_ok); auto.
  - intros. now apply buffer_step.
  - split; [done|lia].
Qed.

Lemma ring_buffer_refines_witness :
  exists r, NewRingBuffer 0 3 = Done r /\ 3 <= Cap r < 6 /\
    run_all (run_buffer 0) r
      [BPush 5; BPush 6; BPush 7; BPush 8; BPush 9; BDropWhile (fun x => x <? 8); BData; BAt 1]
    = Done (spec_all (spec_buffer (Cap r)) []
      [BPush 5; BPush 6; BPush 7; BPush 8; BPush 9; BDropWhile (fun x => x <? 8); BData; BAt 1]).
Proof.
  apply (ring_buffer_refines 0 3
    [BPush 5; BPush 6; BPush 7; BPush 8; BPush 9; BDropWhile (fun x => x <? 8); BData; BAt 1]).
  - lia.
  - simpl. lia.
  - repeat constructor; unfold is_i64; lia.
Defined.

(** A fresh [RingQueue] behaves as a bounded first-in first-out queue
    under every sequence of calls, without panics or endless retries. *)
Theorem ring_queue_refines {A} (zero : A) (size : Z) (ops : list (queue_op A)) :
  1 <= size <= 2 ^ 62 -> Z.of_nat (length ops) < 2 ^ 63 ->
  exists r, NewRingQueue zero size = Done r /\ size <= Cap r < 2 * size /\
    run_all (run_queue zero) r ops = Done (spec_all (spec_queue (Cap r)) [] ops).
Proof.
  intros Hs Hn.
  destruct (new_ring_rep zero freed_front size ltac:(done) Hs) as (k & r & Hr & R & Ht & Hc & Hb).
  exists r. rewrite Hc. split_and!; [done|lia|lia|].
  apply (run_all_refines _ _ (budgeted freed_front k) (fun _ => True)); auto.
  - intros. now apply queue_step.
  - now apply Forall_true.
  - split; [done|lia].
Qed.

Lemma ring_queue_refines_witness :
  exists r, NewRingQueue 0 2 = Done r /\ 2 <= Cap r < 4 /\
    run_all (run_queue 0) r [QEnqueue 1; QEnqueue 2; QEnqueue 3; QDequeue; QDequeue; QDequeue]
    = Done (spec_all (spec_queue (Cap r)) []
        [QEnqueue 1; QEnqueue 2; QEnqueue 3; QDequeue; QDequeue; QDequeue]).
Proof.
  apply (ring_queue_refines 0 2
    [QEnqueue 1; QEnqueue 2; QEnqueue 3; QDequeue; QDequeue; QDequeue]); simpl; lia.
Defined.

(** A fresh [RingStack] behaves as a bounded last-in first-out stack whose
    oldest element is overwritten past the capacity, under every sequence of
    calls. *)
Theorem ring_stack_refines {A} (zero : A) (size : Z) (ops : list (stack_op A)) :
  1 <= size <= 2 ^ 62 -> Z.of_nat (length ops) < 2 ^ 63 ->
  exists r, NewRingStack zero size = Done r /\ size <= Cap r < 2 * size /\
    run_all (run_stack zero) r ops = Done (spec_all (spec_stack (Cap r)) [] ops).
Proof.
  intros Hs Hn.
  destruct (new_ring_rep zero freed_top size) as (k & r & Hr & R & Ht & Hc & Hb);
    [unfold freed_top; auto|done|].
  exists r. rewrite Hc. split_and!; [|lia|lia|].
  - unfold NewRingBuffer in Hr. unfold NewRingStack.
    destruct (Z.leb_spec size 0); [lia|]. destruct (Z.eqb_spec size 0); [lia|done].
  - apply (run_all_refines _ _ (budgeted freed_top k) (fun _ => True)); auto.
    + intros. now apply stack_step.
    + now apply Forall_true.
    + split; [done|lia].
Qed.

Lemma ring_stack_refines_witness :
  exists r, NewRingStack 0 2 = Done r /\ 2 <= Cap r < 4 /\
    run_all (run_stack 0) r [SPush 1; SPush 2; SPush 3; SPop; SPush 4; SPop; SPop; SPop]
    = Done (spec_all (spec_stack (Cap r)) []
        [SPush 1; SPush 2; SPush 3; SPop; SPush 4; SPop; SPop; SPop]).
Proof.
  apply (ring_stack_refines 0 2
    [SPush 1; SPush 2; SPush 3; SPop; SPush 4; SPop; SPop; SPop]); simpl; lia.
Defined.
