(* ===== verification/Scaling.v ===== *)
(** * Scaling recommendations

    src/pkg/worker/scaling/algorithm: the proportional, the token-throughput and
    the predictive algorithm, as functions of an observation and the state kept
    between ticks.  The demand history is used through the interface
    [DemandHistory], which the ring buffer of Ring.v implements; a ring operation
    may panic or spin, so recommendations are [outcome]s.  The theorems say that
    a recommendation always comes, that it never scales down on partial
    information, and what the history keeps. *)

From stdpp Require Import prelude list strings.
From Stdlib Require Import SpecFloat Sorted.
From S2P Require Import Prelude GoFloat Ring.

(** ** Observations and recommendations *)

Definition RoleKindServer : string := "Server".
Definition RoleKindPrefill : string := "Prefill".
Definition RoleKindDecode : string := "Decode".
Definition RoleKindEncode : string := "Encode".
Definition RoleKindUnknown : string := "Unknown".

Definition SignalFresh : string := "Fresh".
Definition SignalIdle : string := "Idle".
Definition SignalMissing : string := "Missing".

Definition ReasonWaitingForMetrics : string := "WaitingForMetrics".
Definition ReasonRatioCoupled : string := "RatioCoupled".
Definition ReasonPredictorWarmingUp : string := "PredictorWarmingUp".
Definition ReasonPredictiveConsolidationHold : string := "PredictiveConsolidationHold".
Definition ReasonLatencyGuardScaleUp : string := "LatencyGuardScaleUp".
Definition ReasonLatencyGuardHold : string := "LatencyGuardHold".
Definition ReasonTokenThroughput : string := "TokenThroughput".
Definition ReasonNoReadyReplicas : string := "NoReadyReplicas".
Definition ReasonWithinTolerance : string := "WithinTolerance".
Definition ReasonScaleUp : string := "ScaleUp".
Definition ReasonScaleDown : string := "ScaleDown".
Definition ReasonPanic : string := "Panic".

(** Times and durations are nanoseconds, the zero time is 0. *)
Record RoleObservation := {
  Role : string; Kind : string;
  CurrentReplicas : Z; ReadyReplicas : Z;
  PromptTokensPerSecond : float64; GenerationTokensPerSecond : float64;
  RunningRequests : float64; WaitingRequests : float64; KVCacheUsage : float64;
  TTFTMilliseconds : float64; ITLMilliseconds : float64;
  TTFTUnmeasured : bool; ITLUnmeasured : bool;
  ThroughputState : string; LatencyState : string; GaugeState : string;
  CompleteCoverage : bool; ObservedAt : Z }.

Record RoleRecommendation := {
  DesiredReplicas : Z; Reason : string; HoldScaleDown : bool; InPanic : bool }.

Definition with_desired (n : Z) (r : RoleRecommendation) : RoleRecommendation :=
  {| DesiredReplicas := n; Reason := Reason r; HoldScaleDown := HoldScaleDown r; InPanic := InPanic r |}.
Definition with_reason (s : string) (r : RoleRecommendation) : RoleRecommendation :=
  {| DesiredReplicas := DesiredReplicas r; Reason := s; HoldScaleDown := HoldScaleDown r; InPanic := InPanic r |}.
Definition with_hold (b : bool) (r : RoleRecommendation) : RoleRecommendation :=
  {| DesiredReplicas := DesiredReplicas r; Reason := Reason r; HoldScaleDown := b; InPanic := InPanic r |}.
Definition with_panic (r : RoleRecommendation) : RoleRecommendation :=
  {| DesiredReplicas := DesiredReplicas r; Reason := ReasonPanic; HoldScaleDown := true; InPanic := true |}.

(** The recommendation to stay. *)
Definition staying (obs : RoleObservation) : RoleRecommendation :=
  {| DesiredReplicas := CurrentReplicas obs; Reason := ""; HoldScaleDown := false; InPanic := false |}.

(** A hold with its reason. *)
Definition holding (obs : RoleObservation) (reason : string) : RoleRecommendation :=
  {| DesiredReplicas := CurrentReplicas obs; Reason := reason; HoldScaleDown := true; InPanic := false |}.

Record DemandSample := { Timestamp : Z; TokensPerSecond : float64 }.
Definition zero_sample : DemandSample := {| Timestamp := 0; TokensPerSecond := fzero |}.

Definition signalUsable (state : string) : bool :=
  bool_decide (state = SignalFresh) || bool_decide (state = SignalIdle).

Definition roleKind (obs : RoleObservation) : string :=
  if negb (bool_decide (Kind obs = "")) then Kind obs
  else if bool_decide (Role obs = "server") || bool_decide (Role obs = "Server") then RoleKindServer
  else if bool_decide (Role obs = "prefill") || bool_decide (Role obs = "Prefill") then RoleKindPrefill
  else if bool_decide (Role obs = "decode") || bool_decide (Role obs = "Decode") then RoleKindDecode
  else if bool_decide (Role obs = "encode") || bool_decide (Role obs = "Encode") then RoleKindEncode
  else RoleKindUnknown.

Definition clampPartialCoverage (rec : RoleRecommendation) (obs : RoleObservation) : RoleRecommendation :=
  if CompleteCoverage obs || (CurrentReplicas obs <=? DesiredReplicas rec) then rec
  else with_hold true (with_desired (CurrentReplicas obs) rec).

(** [target <= 0 || math.IsNaN(target) || math.IsInf(target, 0)]. *)
Definition no_target (target : float64) : bool := fle target fzero || isNaN target || isInf target.

(** ** The demand history *)

(** What the algorithms use of a bounded sequence of samples. *)
Class DemandHistory (H : Type) := {
  history_new : outcome H;
  history_push : H -> DemandSample -> outcome H;
  history_drop_while : forall {St}, (St -> DemandSample -> bool * St) -> St -> H -> outcome (Z * St * H);
  history_at : H -> Z -> outcome (option DemandSample);
  history_first : H -> outcome (option DemandSample);
  history_len : H -> Z;
  history_clone : option H -> option H }.

Definition defaultDemandHistoryCap : Z := 32.
Definition maxDemandHistoryCap : Z := 256.
Definition second : Z := 10 ^ 9.
Definition minSamplingInterval : Z := 5 * second.

(** ... and what it promises: [history_holds n h l] says that [h] holds the
    samples [l], oldest first, and takes [n] more pushes before its counters
    reach their width. *)
Class DemandHistoryLaws (H : Type) `{DemandHistory H} := {
  history_holds : Z -> H -> list DemandSample -> Prop;
  holds_new : exists h, history_new = Done h /\ history_holds (2 ^ 62) h [];
  holds_less : forall n n' h l, history_holds n h l -> n' <= n -> history_holds n' h l;
  holds_bound : forall n h l, history_holds n h l -> Z.of_nat (length l) <= maxDemandHistoryCap;
  holds_push : forall n h l v, history_holds n h l -> 1 <= n ->
    exists h', history_push h v = Done h' /\ history_holds (n - 1) h' (bounded_push maxDemandHistoryCap l v);
  holds_drop_while : forall n h l St (p : St -> DemandSample -> bool * St) (s : St), history_holds n h l ->
    exists h', history_drop_while p s h = Done (Z.of_nat (count_while p s l).1, (count_while p s l).2, h') /\
      history_holds n h' (drop (count_while p s l).1 l);
  holds_at : forall n h l i, history_holds n h l -> is_i64 i ->
    history_at h i = Done (if i <? 0 then None else l !! Z.to_nat i);
  holds_first : forall n h l, history_holds n h l -> history_first h = Done (hd_error l);
  holds_len : forall n h l, history_holds n h l -> history_len h = Z.of_nat (length l);
  holds_clone : forall n h l, history_holds n h l ->
    exists h', history_clone (Some h) = Some h' /\ history_holds n h' l }.

(** The ring buffer implements it. *)
#[export] Instance ring_history : DemandHistory (ring DemandSample) := {
  history_new := NewRingBuffer zero_sample maxDemandHistoryCap;
  history_push := Push;
  history_drop_while := fun St => @DropWhile DemandSample zero_sample St;
  history_at := At;
  history_first := First;
  history_len := Len;
  history_clone := Clone }.

#[export] Instance ring_history_laws : DemandHistoryLaws (ring DemandSample).
Proof.
  refine {| history_holds := fun n r l => rep freed_front 8 r l /\ tail r + n < 2 ^ 63 |}.
  - eexists. split; [reflexivity|]. split; [|simpl; lia].
    apply (new_rep zero_sample freed_front 8 (pad_size maxDemandHistoryCap)); [by intros|lia|reflexivity].
  - intros n n' r l [R Hb] Hn. split; [exact R|lia].
  - intros n r l [R _]. by pose proof (rep_cap _ _ _ _ R).
  - intros n r l v [R Hb] Hn.
    destruct (push_refines freed_front freed_front_writable 8 r l v R) as (r' & Hp & R' & Ht); [lia|].
    exists r'. split; [exact Hp|]. split; [exact R'|lia].
  - intros n r l St p s [R Hb]. pose proof (dropwhile_refines zero_sample p 8 s r l R) as H.
    destruct (count_while p s l) as [m s']. destruct H as (r' & Hd & R' & Ht).
    exists r'. split; [exact Hd|]. split; [done|]. rewrite Ht. done.
  - intros n r l i [R _] Hi. by apply (rep_at freed_front 8).
  - intros n r l [R _]. by apply (rep_front 8).
  - intros n r l [R _]. by apply (rep_len freed_front 8).
  - intros n r l [R Hb]. exists r. split; [by destruct r|done].
Defined.

(** ** Proportional *)

Record Proportional := { Metric : string; TargetValue : float64; Tolerance : float64 }.

(** The metric's value, the state of its signal and whether it is per replica. *)
Definition value (p : Proportional) (obs : RoleObservation) : float64 * string * bool :=
  if bool_decide (Metric p = "WaitingRequests") then (WaitingRequests obs, GaugeState obs, false)
  else if bool_decide (Metric p = "QueueDepth")
  then (fadd (RunningRequests obs) (WaitingRequests obs), GaugeState obs, false)
  else if bool_decide (Metric p = "KVCacheUsage") then (KVCacheUsage obs, GaugeState obs, true)
  else if bool_decide (Metric p = "PromptTokensPerSecond")
  then (PromptTokensPerSecond obs, ThroughputState obs, false)
  else if bool_decide (Metric p = "GenerationTokensPerSecond")
  then (GenerationTokensPerSecond obs, ThroughputState obs, false)
  else if bool_decide (Metric p = "TotalTokensPerSecond")
  then (fadd (PromptTokensPerSecond obs) (GenerationTokensPerSecond obs), ThroughputState obs, false)
  else if bool_decide (Metric p = "RunningRequests") || bool_decide (Metric p = "")
  then (RunningRequests obs, GaugeState obs, false)
  else (fzero, SignalMissing, false).

Definition one : float64 := to_float 1.

Section algorithms.
(** What the platform converts a float64 out of range to. *)
Context (elsewhere32 elsewhere64 : float64 -> Z).

(** The count a ratio asks for, before the reason is set. *)
Definition proportional_count (obs : RoleObservation) (ratio : float64) (rec : RoleRecommendation)
    : RoleRecommendation :=
  let rec := with_desired (to_i32 elsewhere32 (math_ceil (fmul (to_float (ReadyReplicas obs)) ratio))) rec in
  let rec := if flt one ratio && (DesiredReplicas rec <? CurrentReplicas obs)
             then with_desired (CurrentReplicas obs) rec else rec in
  let rec := if flt ratio one && (DesiredReplicas rec <? CurrentReplicas obs)
                && (ReadyReplicas obs <? CurrentReplicas obs)
             then with_hold true (with_desired (CurrentReplicas obs) rec) else rec in
  if DesiredReplicas rec <? 1 then with_desired 1 rec else rec.

Definition proportional_reason (obs : RoleObservation) (rec : RoleRecommendation) : RoleRecommendation :=
  if CurrentReplicas obs <? DesiredReplicas rec then with_reason ReasonScaleUp rec
  else if DesiredReplicas rec <? CurrentReplicas obs then with_reason ReasonScaleDown rec
  else with_reason ReasonWithinTolerance rec.

Definition ProportionalRecommend (p : Proportional) (obs : RoleObservation) : RoleRecommendation :=
  let rec := staying obs in
  if ReadyReplicas obs <=? 0 then holding obs ReasonNoReadyReplicas
  else
    let target := TargetValue p in
    if no_target target then holding obs ReasonWaitingForMetrics
    else
      let '(v, state, perReplica) := value p obs in
      if negb (signalUsable state) then holding obs ReasonWaitingForMetrics
      else
        let v := if negb perReplica then fdiv v (to_float (ReadyReplicas obs)) else v in
        let ratio := fdiv v target in
        let tolerance := if fle (Tolerance p) fzero then flit 1 10 else Tolerance p in
        if fle (fabs (fsub ratio one)) tolerance then with_reason ReasonWithinTolerance rec
        else if fle ratio fzero then
          if bool_decide (GaugeState obs = SignalIdle)
          then clampPartialCoverage (proportional_reason obs (with_desired 1 rec)) obs
          else clampPartialCoverage (holding obs ReasonWaitingForMetrics) obs
        else clampPartialCoverage (proportional_reason obs (proportional_count obs ratio rec)) obs.

(** ** Token throughput *)

Record TokenThroughput := {
  PrefillTargetTokensPerSecond : float64; DecodeTargetTokensPerSecond : float64;
  ServerTargetTokensPerSecond : float64; StableWindowSeconds : float64; PanicWindowSeconds : float64;
  PanicThreshold : float64; TTFTTargetMilliseconds : float64; ITLTargetMilliseconds : float64 }.

Definition target (t : TokenThroughput) (kind : string) : float64 :=
  if bool_decide (kind = RoleKindPrefill) then PrefillTargetTokensPerSecond t
  else if bool_decide (kind = RoleKindDecode) then DecodeTargetTokensPerSecond t
  else if bool_decide (kind = RoleKindUnknown) then fzero
  else ServerTargetTokensPerSecond t.

Definition nonNegative (v : float64) : float64 := if flt v fzero || isNaN v then fzero else v.

Definition demand (obs : RoleObservation) : float64 :=
  if bool_decide (roleKind obs = RoleKindPrefill) then nonNegative (PromptTokensPerSecond obs)
  else if bool_decide (roleKind obs = RoleKindDecode) then nonNegative (GenerationTokensPerSecond obs)
  else if bool_decide (roleKind obs = RoleKindServer)
  then fadd (nonNegative (PromptTokensPerSecond obs)) (nonNegative (GenerationTokensPerSecond obs))
  else fzero.

Definition desiredFromDemand (d tg : float64) : Z :=
  if fle d fzero then 1 else to_i32 elsewhere32 (math_max one (math_ceil (fdiv d tg))).

(** [time.Duration(seconds * float64(time.Second))]. *)
Definition seconds_duration (s : float64) : Z := to_i64 elsewhere64 (fmul s (to_float second)).

Definition stableWindow (t : TokenThroughput) : Z :=
  if flt fzero (StableWindowSeconds t) then seconds_duration (StableWindowSeconds t) else 180 * second.
Definition panicWindow (t : TokenThroughput) : Z :=
  if flt fzero (PanicWindowSeconds t) then seconds_duration (PanicWindowSeconds t) else 60 * second.
Definition maxWindow (t : TokenThroughput) : Z :=
  if panicWindow t <? stableWindow t then stableWindow t else panicWindow t.

Definition demandHistoryCap (window : Z) : Z :=
  let limit := defaultDemandHistoryCap in
  let limit :=
    if 0 <? window then
      let windowSamples :=
        i64 (to_i64 elsewhere64 (math_ceil (fdiv (to_float window) (to_float minSamplingInterval))) + 1) in
      if limit <? windowSamples then windowSamples else limit
    else limit in
  if maxDemandHistoryCap <? limit then maxDemandHistoryCap else limit.

Definition latencyConfigured (t : TokenThroughput) (obs : RoleObservation) : bool :=
  if bool_decide (roleKind obs = RoleKindPrefill) then flt fzero (TTFTTargetMilliseconds t)
  else if bool_decide (roleKind obs = RoleKindDecode) then flt fzero (ITLTargetMilliseconds t)
  else flt fzero (TTFTTargetMilliseconds t) || flt fzero (ITLTargetMilliseconds t).

(** The targets that apply, each with the latency and whether it is unmeasured. *)
Definition latency_targets (t : TokenThroughput) (obs : RoleObservation) : list (float64 * float64 * bool) :=
  (if negb (bool_decide (roleKind obs = RoleKindDecode)) && flt fzero (TTFTTargetMilliseconds t)
   then [(TTFTTargetMilliseconds t, TTFTMilliseconds obs, TTFTUnmeasured obs)] else [])
  ++ (if negb (bool_decide (roleKind obs = RoleKindPrefill)) && flt fzero (ITLTargetMilliseconds t)
      then [(ITLTargetMilliseconds t, ITLMilliseconds obs, ITLUnmeasured obs)] else []).

Definition latencyAssessment (t : TokenThroughput) (obs : RoleObservation) : float64 * bool :=
  foldl (fun '(ratio, missing) '(milliseconds, latency, unmeasured) =>
      if unmeasured || isNaN latency || isInf latency then (ratio, true)
      else (math_max ratio (fdiv latency milliseconds), missing)) (fzero, false) (latency_targets t obs).

(** The count, the reason and whether to hold; the empty reason asks for nothing. *)
Definition latencyGuard (t : TokenThroughput) (obs : RoleObservation) : Z * string * bool :=
  if bool_decide (LatencyState obs = SignalIdle) || negb (latencyConfigured t obs)
  then (CurrentReplicas obs, "", false)
  else if negb (signalUsable (LatencyState obs)) then (CurrentReplicas obs, ReasonWaitingForMetrics, true)
  else
    let '(ratio, missing) := latencyAssessment t obs in
    if flt (flit 12 10) ratio then (i32 (CurrentReplicas obs + 1), ReasonLatencyGuardScaleUp, true)
    else if flt one ratio then (CurrentReplicas obs, ReasonLatencyGuardHold, true)
    else if missing then (CurrentReplicas obs, ReasonWaitingForMetrics, true)
    else (CurrentReplicas obs, "", false).

(** *** The state between ticks *)

Context {H : Type} `{DemandHistory H}.

Record PredictorState := {
  Level : float64; Trend : float64; Covariance : float64 * float64 * float64 * float64;
  SampleCount : Z; History : option H; PanicExitAt : Z }.

Definition with_history (h : option H) (s : PredictorState) : PredictorState :=
  {| Level := Level s; Trend := Trend s; Covariance := Covariance s; SampleCount := SampleCount s;
     History := h; PanicExitAt := PanicExitAt s |}.
Definition with_panic_exit (t : Z) (s : PredictorState) : PredictorState :=
  {| Level := Level s; Trend := Trend s; Covariance := Covariance s; SampleCount := SampleCount s;
     History := History s; PanicExitAt := t |}.

Definition copyDemandHistory (source : option H) : outcome (option H) :=
  match source with
  | None => let* h := history_new in Done (Some h)
  | Some _ => Done (history_clone source)
  end.

Definition copyState (prior : option PredictorState) : outcome PredictorState :=
  match prior with
  | None =>
      let* h := history_new in
      Done {| Level := fzero; Trend := fzero; Covariance := (fzero, fzero, fzero, fzero); SampleCount := 0;
              History := Some h; PanicExitAt := 0 |}
  | Some prior => let* h := copyDemandHistory (History prior) in Done (with_history h prior)
  end.

(** The closure of [trimDemandHistory] counts what it dropped. *)
Definition trim_predicate (excess dropped : Z) (_ : DemandSample) : bool * Z :=
  if excess <=? dropped then (false, dropped) else (true, dropped + 1).

Definition trimDemandHistory (history : H) (limit : Z) : outcome H :=
  let excess := i64 (history_len history - limit) in
  if excess <=? 0 then Done history
  else let* r := history_drop_while (trim_predicate excess) 0 history in Done r.2.

Definition stale (cutoff : Z) (_ : unit) (entry : DemandSample) : bool * unit :=
  ((Timestamp entry =? 0) || (Timestamp entry <? cutoff), tt).

Definition appendDemand (state : PredictorState) (sample : DemandSample) (window : Z)
    : outcome PredictorState :=
  if Timestamp sample =? 0 then Done state
  else
    let* h := match History state with Some h => Done h | None => history_new end in
    let* h := history_push h sample in
    let* h := if 0 <? window
              then let* r := history_drop_while (stale (Timestamp sample - window)) tt h in Done r.2
              else Done h in
    let* h := trimDemandHistory h (demandHistoryCap window) in
    Done (with_history (Some h) state).

(** The loop of [windowMean]: [n] indexes from [i] on. *)
Fixpoint mean_loop (n : nat) (i : Z) (history : H) (now cutoff : Z) (sum : float64) (count : Z)
    : outcome (float64 * Z) :=
  match n with
  | O => Done (sum, count)
  | S n =>
      let* sample := history_at history i in
      match sample with
      | None => Done (sum, count)
      | Some sample =>
          if negb (Timestamp sample =? 0) && negb (Timestamp sample <? cutoff) && negb (now <? Timestamp sample)
          then mean_loop n (i + 1) history now cutoff (fadd sum (TokensPerSecond sample)) (count + 1)
          else mean_loop n (i + 1) history now cutoff sum count
      end
  end.

Definition windowMean (history : option H) (now window : Z) (fallback : float64) : outcome float64 :=
  match history with
  | None => Done fallback
  | Some h =>
      if (history_len h =? 0) || (now =? 0) then Done fallback
      else
        let* r := mean_loop (Z.to_nat (history_len h)) 0 h now (now - window) fzero 0 in
        if r.2 =? 0 then Done fallback else Done (fdiv r.1 (to_float r.2))
  end.

(** [time.Time.Sub], which saturates. *)
Definition elapsed (t u : Z) : Z := Z.max (- 2 ^ 63) (Z.min (2 ^ 63 - 1) (t - u)).

(** Whether the oldest sample is old enough to judge without latencies. *)
Definition matured_history (t : TokenThroughput) (obs : RoleObservation) (history : option H) : outcome bool :=
  match history with
  | None => Done false
  | Some h =>
      let* first := history_first h in
      match first with
      | Some first =>
          Done (if negb (Timestamp first =? 0)
                then Z.quot (stableWindow t) 2 <=? elapsed (ObservedAt obs) (Timestamp first) else false)
      | None => Done false
      end
  end.

(** Whether the panic is on, and until when. *)
Definition panic_state (t : TokenThroughput) (obs : RoleObservation) (tg panicTPS : float64)
    (state : PredictorState) : bool * PredictorState :=
  let ready := math_max one (to_float (ReadyReplicas obs)) in
  let threshold := if fle (PanicThreshold t) fzero then to_float 2 else PanicThreshold t in
  let panicRatio := fdiv panicTPS (fmul ready tg) in
  if fle threshold panicRatio then (true, with_panic_exit (ObservedAt obs + stableWindow t) state)
  else if negb (PanicExitAt state =? 0) && negb (PanicExitAt state <? ObservedAt obs) then (true, state)
  else (false, with_panic_exit 0 state).

(** The recommendation from demand alone. *)
Definition demand_recommendation (obs : RoleObservation) (stableDesired panicDesired : Z) (panicActive : bool)
    : RoleRecommendation :=
  let rec :=
    if panicActive then with_desired (Z.max stableDesired panicDesired) (with_panic (staying obs))
    else with_desired stableDesired (with_reason ReasonTokenThroughput (staying obs)) in
  let rec :=
    if CurrentReplicas obs <? DesiredReplicas rec then with_reason ReasonScaleUp rec
    else if DesiredReplicas rec <? CurrentReplicas obs then with_reason ReasonScaleDown rec else rec in
  if panicActive then with_reason ReasonPanic rec else rec.

(** The latency guard on top of it. *)
Definition guarded (t : TokenThroughput) (obs : RoleObservation) (matured panicActive : bool)
    (rec : RoleRecommendation) : RoleRecommendation :=
  let '(latencyRec, latencyReason, latencyHold) := latencyGuard t obs in
  if bool_decide (latencyReason = ReasonWaitingForMetrics) then
    if negb matured then
      let rec := with_hold true rec in
      if DesiredReplicas rec <=? CurrentReplicas obs then
        let rec := with_desired (CurrentReplicas obs) rec in
        if negb panicActive then with_reason latencyReason rec else rec
      else rec
    else rec
  else if negb (bool_decide (latencyReason = "")) then
    with_reason latencyReason
      (with_hold (HoldScaleDown rec || latencyHold) (with_desired (Z.max (DesiredReplicas rec) latencyRec) rec))
  else rec.

Definition at_least_one (rec : RoleRecommendation) : RoleRecommendation :=
  if DesiredReplicas rec <? 1 then with_desired 1 rec else rec.

Definition ThroughputRecommend (t : TokenThroughput) (obs : RoleObservation) (prior : option PredictorState)
    : outcome (RoleRecommendation * PredictorState) :=
  let* state := copyState prior in
  if bool_decide (roleKind obs = RoleKindEncode) then Done (with_reason ReasonRatioCoupled (staying obs), state)
  else if ReadyReplicas obs <=? 0 then Done (holding obs ReasonNoReadyReplicas, state)
  else
    let tg := target t (roleKind obs) in
    if no_target tg then Done (holding obs ReasonWaitingForMetrics, state)
    else if negb (signalUsable (ThroughputState obs)) then Done (holding obs ReasonWaitingForMetrics, state)
    else
      let d := demand obs in
      let* state := appendDemand state {| Timestamp := ObservedAt obs; TokensPerSecond := d |} (maxWindow t) in
      let* stableTPS := windowMean (History state) (ObservedAt obs) (stableWindow t) d in
      let* panicTPS := windowMean (History state) (ObservedAt obs) (panicWindow t) d in
      let (panicActive, state) := panic_state t obs tg panicTPS state in
      let rec := demand_recommendation obs (desiredFromDemand stableTPS tg) (desiredFromDemand panicTPS tg)
                   panicActive in
      let* matured := matured_history t obs (History state) in
      Done (clampPartialCoverage (at_least_one (guarded t obs matured panicActive rec)) obs, state).

(** ** Predictive *)

Record Predictive := {
  Throughput : TokenThroughput; HorizonSeconds : float64;
  PrefillTokenCapacityPerReplica : float64; DecodeTokenCapacityPerReplica : float64;
  ServerTokenCapacityPerReplica : float64; QLevel : float64; QTrend : float64; R : float64; MinPoints : Z }.

Definition previousDemandSample (history : option H) : outcome (option DemandSample) :=
  match history with
  | None => Done None
  | Some h => if history_len h <? 2 then Done None else history_at h (history_len h - 2)
  end.

(** [time.Duration.Seconds]. *)
Definition duration_seconds (d : Z) : float64 :=
  fadd (to_float (go_quot d second)) (fdiv (to_float (go_rem d second)) (to_float (10 ^ 9))).

Definition or_default (v d : float64) : float64 := if fle v fzero then d else v.

(** The seconds since the sample before. *)
Definition filter_step (obs : RoleObservation) (previous : option DemandSample) : float64 :=
  match previous with
  | Some p =>
      if negb (Timestamp p =? 0) && negb (ObservedAt obs =? 0) then
        let delta := duration_seconds (elapsed (ObservedAt obs) (Timestamp p)) in
        if flt fzero delta then delta else to_float 15
      else to_float 15
  | None => to_float 15
  end.

Definition all_zero (c : float64 * float64 * float64 * float64) : bool :=
  let '(a, b, c, d) := c in feq a fzero && feq b fzero && feq c fzero && feq d fzero.

(** One step of the local linear trend filter. *)
Definition filter_update (p : Predictive) (d dt : float64) (state : PredictorState) : PredictorState :=
  let '(p00, p01, p10, p11) := if all_zero (Covariance state) then
      let '(a, b, c, e) := Covariance state in (one, b, c, one) else Covariance state in
  let predictedLevel := fadd (Level state) (fmul dt (Trend state)) in
  let predictedTrend := Trend state in
  let qLevel := or_default (QLevel p) one in
  let qTrend := or_default (QTrend p) (flit 1 10) in
  let r := or_default (R p) (to_float 10) in
  let pred00 := fadd (fadd (fadd p00 (fmul dt (fadd p10 p01))) (fmul (fmul dt dt) p11)) qLevel in
  let pred01 := fadd p01 (fmul dt p11) in
  let pred10 := fadd p10 (fmul dt p11) in
  let pred11 := fadd p11 qTrend in
  let innovation := fsub d predictedLevel in
  let innovationVariance := or_default (fadd pred00 r) r in
  let gain0 := fdiv pred00 innovationVariance in
  let gain1 := fdiv pred10 innovationVariance in
  {| Level := fadd predictedLevel (fmul gain0 innovation);
     Trend := fadd predictedTrend (fmul gain1 innovation);
     Covariance := (fmul (fsub one gain0) pred00, fmul (fsub one gain0) pred01,
                    fsub pred10 (fmul gain1 pred00), fsub pred11 (fmul gain1 pred01));
     SampleCount := i32 (SampleCount state + 1); History := History state; PanicExitAt := PanicExitAt state |}.

Definition updateFilter (p : Predictive) (state : PredictorState) (obs : RoleObservation)
    : outcome PredictorState :=
  let d := demand obs in
  if SampleCount state =? 0 then
    Done {| Level := d; Trend := fzero;
            Covariance := if all_zero (Covariance state) then (one, fzero, fzero, one) else Covariance state;
            SampleCount := 1; History := History state; PanicExitAt := PanicExitAt state |}
  else
    let* previous := previousDemandSample (History state) in
    Done (filter_update p d (filter_step obs previous) state).

Definition forecast (p : Predictive) (state : PredictorState) : float64 :=
  let horizon := seconds_duration (HorizonSeconds p) in
  let horizon := if horizon <=? 0 then 300 * second else horizon in
  math_max fzero (fadd (Level state) (fmul (Trend state) (duration_seconds horizon))).

Definition capacity (p : Predictive) (kind : string) : float64 :=
  if bool_decide (kind = RoleKindPrefill) then PrefillTokenCapacityPerReplica p
  else if bool_decide (kind = RoleKindDecode) then DecodeTokenCapacityPerReplica p
  else ServerTokenCapacityPerReplica p.

Definition latencyBreached (p : Predictive) (obs : RoleObservation) : bool :=
  if bool_decide (LatencyState obs = SignalIdle) || negb (signalUsable (LatencyState obs)) then false
  else flt (flit 12 10) (latencyAssessment (Throughput p) obs).1.

(** The recommendation raised to the forecast and the latency. *)
Definition raised (p : Predictive) (obs : RoleObservation) (slowFloor : Z) (rec : RoleRecommendation)
    : RoleRecommendation :=
  let rec := with_desired (Z.max (DesiredReplicas rec) slowFloor) rec in
  let latencyFast := latencyBreached p obs in
  let rec :=
    if latencyFast || InPanic rec then
      let rec := with_hold true
        (with_desired (Z.max (DesiredReplicas rec) (i32 (CurrentReplicas obs + 1))) rec) in
      if latencyFast then with_reason ReasonLatencyGuardScaleUp rec else rec
    else rec in
  if (CurrentReplicas obs <? DesiredReplicas rec) && negb (bool_decide (Reason rec = ReasonPanic))
     && negb (bool_decide (Reason rec = ReasonLatencyGuardScaleUp))
  then with_reason ReasonScaleUp rec else rec.

(** A lower recommendation becomes one step, or a hold. *)
Definition consolidated (obs : RoleObservation) (cap : float64) (slowFloor : Z) (rec : RoleRecommendation)
    : RoleRecommendation :=
  if DesiredReplicas rec <? CurrentReplicas obs then
    let targetReplicas := Z.max (i32 (CurrentReplicas obs - 1)) slowFloor in
    let targetReplicas := if targetReplicas <? 1 then 1 else targetReplicas in
    let canConsolidate :=
      (slowFloor <? CurrentReplicas obs) && negb (HoldScaleDown rec) && negb (InPanic rec)
      && (1 <? CurrentReplicas obs)
      && fle (fdiv (demand obs) (to_float targetReplicas)) (fmul (flit 8 10) cap) in
    if canConsolidate then with_desired targetReplicas rec
    else with_reason ReasonPredictiveConsolidationHold (with_hold true (with_desired (CurrentReplicas obs) rec))
  else rec.

Definition slow_floor (p : Predictive) (cap : float64) (state : PredictorState) : Z :=
  Z.max 1 (to_i32 elsewhere32 (math_ceil (fdiv (forecast p state) cap))).

Definition PredictiveRecommend (p : Predictive) (obs : RoleObservation) (prior : option PredictorState)
    : outcome (RoleRecommendation * PredictorState) :=
  let* recommended := ThroughputRecommend (Throughput p) obs prior in
  let (rec, state) := recommended in
  if bool_decide (roleKind obs = RoleKindEncode) || negb (signalUsable (ThroughputState obs))
     || (ReadyReplicas obs <=? 0)
  then Done (rec, state)
  else
    let* state := updateFilter p state obs in
    let minimum := if MinPoints p <=? 0 then 6 else MinPoints p in
    if SampleCount state <? minimum then
      if negb (InPanic rec) && negb (bool_decide (Reason rec = ReasonPanic))
         && (DesiredReplicas rec <=? CurrentReplicas obs)
      then Done (with_hold true (with_reason ReasonPredictorWarmingUp rec), state)
      else Done (rec, state)
    else
      let cap := capacity p (roleKind obs) in
      if no_target cap then Done (rec, state)
      else if isNaN (forecast p state) || isInf (forecast p state) then Done (rec, state)
      else
        let floor := slow_floor p cap state in
        Done (clampPartialCoverage (consolidated obs cap floor (raised p obs floor rec)) obs, state).
End algorithms.

(** ** Counts *)

Lemma clamp_partial rec obs :
  (CompleteCoverage obs = false -> CurrentReplicas obs <= DesiredReplicas (clampPartialCoverage rec obs)) /\
  (DesiredReplicas (clampPartialCoverage rec obs) = DesiredReplicas rec \/
   DesiredReplicas rec < CurrentReplicas obs /\
   DesiredReplicas (clampPartialCoverage rec obs) = CurrentReplicas obs).
Proof.
  unfold clampPartialCoverage. destruct (CompleteCoverage obs); simpl; [by split; [|left]|].
  destruct (Z.leb_spec (CurrentReplicas obs) (DesiredReplicas rec)); simpl; split; auto; lia.
Qed.

(** What every recommendation keeps to: on partial coverage it does not go below
    the current count, and it asks for at least one replica unless there is none. *)
Definition moderate (obs : RoleObservation) (rec : RoleRecommendation) : Prop :=
  (CompleteCoverage obs = false -> CurrentReplicas obs <= DesiredReplicas rec) /\
  Z.min 1 (CurrentReplicas obs) <= DesiredReplicas rec.

Lemma moderate_current obs rec : DesiredReplicas rec = CurrentReplicas obs -> moderate obs rec.
Proof. intros H. unfold moderate. rewrite H. lia. Qed.

Lemma moderate_clamp obs rec :
  Z.min 1 (CurrentReplicas obs) <= DesiredReplicas rec -> moderate obs (clampPartialCoverage rec obs).
Proof.
  intros Hm. destruct (clamp_partial rec obs) as [H1 H2]. split; [done|]. destruct H2 as [->|[_ ->]]; lia.
Qed.

Lemma at_least_one_spec rec : 1 <= DesiredReplicas (at_least_one rec).
Proof. unfold at_least_one. destruct (Z.ltb_spec (DesiredReplicas rec) 1); simpl; lia. Qed.

Lemma proportional_reason_desired obs rec : DesiredReplicas (proportional_reason obs rec) = DesiredReplicas rec.
Proof. unfold proportional_reason. by repeat case_match. Qed.

Lemma proportional_count_pos e obs ratio rec : 1 <= DesiredReplicas (proportional_count e obs ratio rec).
Proof.
  unfold proportional_count. cbv zeta. set (r := if flt ratio one && _ && _ then _ else _).
  destruct (Z.ltb_spec (DesiredReplicas r) 1); simpl; lia.
Qed.

Lemma proportional_moderate e p obs : moderate obs (ProportionalRecommend e p obs).
Proof.
  unfold ProportionalRecommend. destruct (value p obs) as [[v state] perReplica].
  repeat match goal with |- context [if ?c then _ else _] => destruct c end;
    first [by apply moderate_current|apply moderate_clamp; rewrite ?proportional_reason_desired; simpl].
  all: try lia.
  all: match goal with |- _ <= DesiredReplicas (proportional_count ?e ?o ?x ?r) =>
    pose proof (proportional_count_pos e o x r) end; lia.
Qed.

Section recommendations.
Context (elsewhere32 elsewhere64 : float64 -> Z) {H : Type} `{DemandHistoryLaws H}.
Implicit Types h : H.

Abbreviation throughput := (ThroughputRecommend elsewhere32 elsewhere64).
Abbreviation predictive := (PredictiveRecommend elsewhere32 elsewhere64).

(** A role whose demand cannot be judged now. *)
Definition unjudged (obs : RoleObservation) : Prop :=
  roleKind obs = RoleKindEncode \/ ReadyReplicas obs <= 0 \/ signalUsable (ThroughputState obs) = false.

Lemma bind_done {A B} (m : outcome A) (k : A -> outcome B) y :
  outcome_bind m k = Done y -> exists x, m = Done x /\ k x = Done y.
Proof. destruct m; simpl; [eauto|done|done]. Qed.

Lemma throughput_counts t obs (prior : option (@PredictorState H)) rec state :
  throughput t obs prior = Done (rec, state) ->
  moderate obs rec /\ (unjudged obs -> DesiredReplicas rec = CurrentReplicas obs).
Proof.
  unfold ThroughputRecommend. intros (s0 & _ & Hr)%bind_done.
  case_bool_decide as Henc; [simplify_eq; split; [by apply moderate_current|done]|].
  destruct (Z.leb_spec (ReadyReplicas obs) 0); [simplify_eq; split; [by apply moderate_current|done]|].
  case_match; [simplify_eq; split; [by apply moderate_current|done]|].
  destruct (signalUsable (ThroughputState obs)) eqn:Hs; simpl in Hr;
    [|simplify_eq; split; [by apply moderate_current|done]].
  apply bind_done in Hr as (s1 & _ & Hr). apply bind_done in Hr as (a & _ & Hr).
  apply bind_done in Hr as (b & _ & Hr). destruct (panic_state _ _ _ _ _ _) as [active s2].
  apply bind_done in Hr as (m & _ & Hr). simplify_eq. split.
  - apply moderate_clamp. match goal with |- _ <= DesiredReplicas (at_least_one ?r) => pose proof (at_least_one_spec r) end. lia.
  - intros [?|[?|?]]; [done|lia|congruence].
Qed.

Lemma raised_desired p obs floor rec :
  DesiredReplicas rec <= DesiredReplicas (raised p obs floor rec) /\
  floor <= DesiredReplicas (raised p obs floor rec).
Proof. unfold raised. repeat case_match; simpl; lia. Qed.

(** One replica less, with the demand and the forecast it must carry. *)
Definition one_less (obs : RoleObservation) (cap : float64) (floor : Z) (rec : RoleRecommendation) : Prop :=
  DesiredReplicas rec = CurrentReplicas obs - 1 /\ 1 <= DesiredReplicas rec /\
  HoldScaleDown rec = false /\ InPanic rec = false /\ floor <= DesiredReplicas rec /\
  fle (fdiv (demand obs) (to_float (DesiredReplicas rec))) (fmul (flit 8 10) cap) = true.

Lemma consolidated_spec obs cap floor rec :
  is_i32 (CurrentReplicas obs) -> 1 <= floor ->
  let r := consolidated obs cap floor rec in
  DesiredReplicas r = DesiredReplicas rec /\ CurrentReplicas obs <= DesiredReplicas rec \/
  DesiredReplicas r = CurrentReplicas obs \/
  one_less obs cap floor r.
Proof.
  intros Hi Hf. cbv zeta. unfold consolidated, is_i32 in *.
  destruct (Z.ltb_spec (DesiredReplicas rec) (CurrentReplicas obs)); [|auto].
  destruct (Z.ltb_spec floor (CurrentReplicas obs)); [|simpl; auto].
  destruct (HoldScaleDown rec) eqn:Hh; [simpl; auto|]. destruct (InPanic rec) eqn:Hp; [simpl; auto|]. simpl.
  destruct (Z.ltb_spec 1 (CurrentReplicas obs)); [|simpl; auto].
  rewrite i32_small by (unfold is_i32; lia).
  destruct (Z.ltb_spec (Z.max (CurrentReplicas obs - 1) floor) 1); [lia|].
  replace (Z.max (CurrentReplicas obs - 1) floor) with (CurrentReplicas obs - 1) by lia. simpl.
  destruct (fle _ _) eqn:Hfle; simpl; [|auto]. right. right. unfold one_less. simpl. repeat split; auto; lia.
Qed.

(** The predictor has seen enough and knows the capacity of a replica. *)
Definition warm (p : Predictive) (obs : RoleObservation) (state : @PredictorState H) : Prop :=
  (if MinPoints p <=? 0 then 6 else MinPoints p) <= SampleCount state /\
  no_target (capacity p (roleKind obs)) = false /\
  isNaN (forecast elsewhere64 p state) = false /\ isInf (forecast elsewhere64 p state) = false.

Lemma predictive_counts p obs (prior : option (@PredictorState H)) rec state :
  is_i32 (CurrentReplicas obs) -> predictive p obs prior = Done (rec, state) ->
  moderate obs rec /\ (unjudged obs -> DesiredReplicas rec = CurrentReplicas obs) /\
  (warm p obs state -> CurrentReplicas obs <= DesiredReplicas rec \/
     CompleteCoverage obs = true /\
     one_less obs (capacity p (roleKind obs))
       (slow_floor elsewhere32 elsewhere64 p (capacity p (roleKind obs)) state) rec).
Proof.
  intros Hi. unfold PredictiveRecommend. intros ([rec0 s0] & Ht & Hr)%bind_done.
  destruct (throughput_counts _ _ _ _ _ Ht) as [Hm Hu]. simpl in Hr.
  destruct (bool_decide (roleKind obs = RoleKindEncode) || negb (signalUsable (ThroughputState obs))
            || (ReadyReplicas obs <=? 0)) eqn:Hj.
  { simplify_eq. assert (unjudged obs) as Huj.
    { apply orb_true_iff in Hj as [[Hj%bool_decide_eq_true|Hj%negb_true_iff]%orb_true_iff|Hj%Z.leb_le];
        unfold unjudged; auto. }
    split; [done|]. split; [done|]. intros _. left. rewrite Hu by done. lia. }
  assert (~ unjudged obs) as Hnu.
  { apply orb_false_iff in Hj as [[Hj1%bool_decide_eq_false Hj2%negb_false_iff]%orb_false_iff Hj3%Z.leb_gt].
    intros [?|[?|?]]; [done|lia|congruence]. }
  apply bind_done in Hr as (s1 & _ & Hr).
  destruct (Z.ltb_spec (SampleCount s1) (if MinPoints p <=? 0 then 6 else MinPoints p)) as [Hs|Hs].
  { assert (state = s1 /\ DesiredReplicas rec = DesiredReplicas rec0) as [-> Hd]
      by (clear Hs; by case_match; simplify_eq).
    split; [unfold moderate in *; by rewrite Hd|]. split; [done|]. intros [? _]. lia. }
  destruct (no_target (capacity p (roleKind obs))) eqn:Hcap.
  { simplify_eq. split; [done|]. split; [done|]. intros (_ & Hw & _). congruence. }
  destruct (isNaN (forecast elsewhere64 p s1) || isInf (forecast elsewhere64 p s1)) eqn:Hfc.
  { simplify_eq. split; [done|]. split; [done|]. intros (_ & _ & Ha & Hb). by rewrite Ha, Hb in Hfc. }
  simplify_eq. set (floor := slow_floor _ _ _ _ _).
  assert (1 <= floor) as Hfl by (unfold floor, slow_floor; lia).
  set (up := raised p obs floor rec0). pose proof (raised_desired p obs floor rec0) as [Hup1 Hup2]. fold up in Hup1, Hup2.
  pose proof (consolidated_spec obs (capacity p (roleKind obs)) floor up Hi Hfl) as Hc. cbv zeta in Hc.
  set (r := consolidated _ _ _ _) in *. split.
  { apply moderate_clamp. destruct Hc as [[-> ?]|[->|(_ & ? & _)]]; lia. }
  split; [done|]. intros _. pose proof (clamp_partial r obs) as [_ Hcl].
  destruct Hc as [[? ?]|[?|Hone]]; [lia|lia|].
  unfold clampPartialCoverage in *. destruct (CompleteCoverage obs); [by right|]. left.
  destruct Hcl as [Hcl|[_ Hcl]]; simpl in *; destruct (Z.leb_spec (CurrentReplicas obs) (DesiredReplicas r)); simpl in *; lia.
Qed.
(** ** What the history keeps *)

Definition newest {A} (k : nat) (l : list A) : list A := drop (length l - k) l.

(** The samples of a window, oldest first. *)
Definition recent (cutoff : Z) (l : list DemandSample) : list DemandSample :=
  filter (fun s => cutoff <= Timestamp s) l.

(** Samples come in the order of time, none from after [now]. *)
Definition timely (now : Z) (l : list DemandSample) : Prop :=
  StronglySorted (fun a b => Timestamp a <= Timestamp b) l /\ Forall (fun s => 0 < Timestamp s <= now) l.

Lemma newest_drop {A} (k : nat) (x : A) l : (k <= length l)%nat -> newest k (x :: l) = newest k l.
Proof. intros Hk. unfold newest. simpl. replace (S (length l) - k)%nat with (S (length l - k)) by lia. done. Qed.

Lemma timely_snoc now l sample :
  timely now l -> 0 < now -> Timestamp sample = now -> timely now (l ++ [sample]).
Proof.
  intros [Hs Hf] Hp Ht. split; [|apply Forall_app; split; [done|constructor; [lia|constructor]]].
  induction Hs as [|a l Hs IH Ha]; simpl; [repeat constructor|]. apply Forall_cons in Hf as [Ha' Hf].
  constructor; [by apply IH|]. apply Forall_app. split; [done|]. repeat constructor. lia.
Qed.

Lemma recent_cons cutoff a l :
  recent cutoff (a :: l) = if cutoff <=? Timestamp a then a :: recent cutoff l else recent cutoff l.
Proof.
  unfold recent. destruct (Z.leb_spec cutoff (Timestamp a)); [by rewrite filter_cons_True|].
  by rewrite filter_cons_False by lia.
Qed.

Lemma recent_all cutoff l : Forall (fun s => cutoff <= Timestamp s) l -> recent cutoff l = l.
Proof.
  induction 1 as [|a l Ha Hf IH]; [done|]. rewrite recent_cons, (proj2 (Z.leb_le _ _) Ha). by rewrite IH.
Qed.

(** Dropping the stale samples in front leaves the recent ones. *)
Lemma drop_stale now cutoff l :
  timely now l -> drop (count_while (stale cutoff) tt l).1 l = recent cutoff l.
Proof.
  intros [Hs Hf]. induction Hs as [|a l Hs IH Ha]; [done|]. apply Forall_cons in Hf as [Ha' Hf].
  cbn [count_while]. replace (stale cutoff tt a) with (Timestamp a <? cutoff, tt)
    by (unfold stale; destruct (Z.eqb_spec (Timestamp a) 0); [lia|done]).
  destruct (Z.ltb_spec (Timestamp a) cutoff).
  - specialize (IH Hf). destruct (count_while (stale cutoff) tt l) as [m u] eqn:E. simpl in *.
    rewrite recent_cons, (proj2 (Z.leb_gt _ _)) by lia. exact IH.
  - simpl. symmetry. apply recent_all. constructor; [lia|]. eapply Forall_impl; [exact Ha|]. simpl. lia.
Qed.

(** The counting predicate drops the excess. *)
Lemma drop_excess (excess dropped : Z) (l : list DemandSample) :
  (count_while (trim_predicate excess) dropped l).1 = Nat.min (Z.to_nat (excess - dropped)) (length l).
Proof.
  revert dropped. induction l as [|a l IH]; intros dropped; cbn [count_while]; [simpl; lia|].
  unfold trim_predicate at 1. destruct (Z.leb_spec excess dropped); [simpl; lia|]. specialize (IH (dropped + 1)).
  destruct (count_while (trim_predicate excess) (dropped + 1) l) as [m u]. simpl in *. lia.
Qed.

Lemma history_cap window : 32 <= demandHistoryCap elsewhere64 window <= 256.
Proof.
  unfold demandHistoryCap, defaultDemandHistoryCap, maxDemandHistoryCap. cbv zeta.
  repeat match goal with |- context [?a <? ?b] => destruct (Z.ltb_spec a b) end; lia.
Qed.

Lemma trim_refines n h l limit :
  history_holds n h l -> 0 <= limit <= 256 ->
  exists h', trimDemandHistory h limit = Done h' /\ history_holds n h' (newest (Z.to_nat limit) l).
Proof.
  intros Hh Hl. unfold trimDemandHistory. rewrite (holds_len _ _ _ Hh).
  pose proof (holds_bound _ _ _ Hh) as Hb. unfold maxDemandHistoryCap in Hb.
  rewrite i64_small by (unfold is_i64; lia). cbv zeta. unfold newest.
  destruct (Z.leb_spec (Z.of_nat (length l) - limit) 0).
  - exists h. split; [done|]. by replace (length l - Z.to_nat limit)%nat with 0%nat by lia.
  - destruct (holds_drop_while n h l Z (trim_predicate (Z.of_nat (length l) - limit)) 0 Hh) as (h' & -> & Hh').
    exists h'. split; [done|]. rewrite drop_excess in Hh'.
    by replace (length l - Z.to_nat limit)%nat
      with (Z.to_nat (Z.of_nat (length l) - limit - 0) `min` length l)%nat by lia.
Qed.

(** What an append leaves of the samples [l]. *)
Definition kept (window : Z) (sample : DemandSample) (l : list DemandSample) : list DemandSample :=
  let l := bounded_push maxDemandHistoryCap l sample in
  let l := if 0 <? window then drop (count_while (stale (Timestamp sample - window)) tt l).1 l else l in
  newest (Z.to_nat (demandHistoryCap elsewhere64 window)) l.

Definition state_holds (n : Z) (state : @PredictorState H) (l : list DemandSample) : Prop :=
  match History state with Some h => history_holds n h l | None => l = [] end.

Lemma append_refines n state l sample window :
  state_holds n state l -> 1 <= n <= 2 ^ 62 -> Timestamp sample <> 0 ->
  exists h, appendDemand elsewhere64 state sample window = Done (with_history (Some h) state) /\
    history_holds (n - 1) h (kept window sample l).
Proof.
  intros Hst Hn Ht. unfold appendDemand. destruct (Z.eqb_spec (Timestamp sample) 0); [done|].
  assert (exists h0, match History state with Some h => Done h | None => history_new end = Done h0 /\
    history_holds n h0 l) as (h0 & -> & H0h).
  { unfold state_holds in Hst. destruct (History state) as [h|]; [by exists h|]. subst l.
    destruct holds_new as (h & -> & Hh). exists h. split; [done|]. eapply holds_less; [exact Hh|lia]. }
  destruct (holds_push n h0 l sample H0h ltac:(lia)) as (h1 & Hp & H1h). simpl. rewrite Hp. simpl.
  unfold kept. set (l1 := bounded_push _ _ _) in *.
  assert (forall h l', history_holds (n - 1) h l' -> exists h',
    trimDemandHistory h (demandHistoryCap elsewhere64 window) = Done h' /\
    history_holds (n - 1) h' (newest (Z.to_nat (demandHistoryCap elsewhere64 window)) l')) as Htrim.
  { intros h l' Hh. apply trim_refines; [done|]. pose proof (history_cap window). lia. }
  destruct (0 <? window); simpl.
  - destruct (holds_drop_while _ _ _ _ (stale (Timestamp sample - window)) tt H1h) as (h2 & -> & H2h). simpl.
    destruct (Htrim _ _ H2h) as (h3 & -> & H3h). by exists h3.
  - destruct (Htrim _ _ H1h) as (h3 & -> & H3h). by exists h3.
Qed.

(** On timely samples an append keeps the newest ones of the window. *)
Lemma kept_timely window sample l :
  0 < window -> 0 < Timestamp sample -> timely (Timestamp sample) l ->
  Z.of_nat (length l) <= maxDemandHistoryCap ->
  kept window sample l =
    newest (Z.to_nat (demandHistoryCap elsewhere64 window)) (recent (Timestamp sample - window) (l ++ [sample])).
Proof.
  intros Hw Hp Htl Hlen. unfold kept. rewrite (proj2 (Z.ltb_lt 0 window)) by lia.
  pose proof (timely_snoc _ _ sample Htl Hp eq_refl) as Hs.
  unfold bounded_push. destruct (Z.leb_spec maxDemandHistoryCap (Z.of_nat (length l))) as [Hc|Hc];
    [|by rewrite (drop_stale (Timestamp sample))].
  unfold maxDemandHistoryCap in *. destruct l as [|a l]; [simpl in *; lia|].
  change ((a :: l) ++ [sample]) with (a :: (l ++ [sample])) in *.
  change (drop 1 (a :: (l ++ [sample]))) with (l ++ [sample]).
  destruct Hs as [Hs Hf]. inversion Hs as [|? ? Hs' Ha]; subst. apply Forall_cons in Hf as [Ha' Hf].
  rewrite (drop_stale (Timestamp sample)) by done.
  rewrite recent_cons. destruct (Z.leb_spec (Timestamp sample - window) (Timestamp a)); [|done].
  symmetry. apply newest_drop.
  rewrite recent_all; [|eapply Forall_impl; [exact Ha|simpl; lia]].
  pose proof (history_cap window). rewrite length_app. simpl in *. lia.
Qed.
(** ** Windows and whole recommendations *)

Definition in_window (now window : Z) (s : DemandSample) : bool :=
  negb (Timestamp s =? 0) && negb (Timestamp s <? now - window) && negb (now <? Timestamp s).

(** The mean of samples, added up oldest first. *)
Definition mean_demand (l : list DemandSample) (fallback : float64) : float64 :=
  match l with
  | [] => fallback
  | _ => fdiv (foldl fadd fzero (TokensPerSecond <$> l)) (to_float (Z.of_nat (length l)))
  end.

Lemma mean_loop_exact n h l now window m k sum count :
  history_holds n h l -> (k + m = length l)%nat ->
  let inside := filter (fun s => in_window now window s) (drop k l) in
  mean_loop m (Z.of_nat k) h now (now - window) sum count =
    Done (foldl fadd sum (TokensPerSecond <$> inside), count + Z.of_nat (length inside)).
Proof.
  intros Hh. pose proof (holds_bound _ _ _ Hh) as Hb. unfold maxDemandHistoryCap in Hb.
  revert k sum count. induction m as [|m IH]; intros k sum count Hk; cbv zeta; cbn [mean_loop].
  { rewrite drop_ge by lia. simpl. by rewrite Z.add_0_r. }
  rewrite (holds_at _ _ _ _ Hh) by (unfold is_i64; lia). cbn [outcome_bind].
  destruct (Z.ltb_spec (Z.of_nat k) 0); [lia|]. rewrite Nat2Z.id.
  destruct (lookup_lt_is_Some_2 l k) as [s Hs]; [lia|]. rewrite Hs, (drop_S l s k Hs).
  fold (in_window now window s). replace (Z.of_nat k + 1) with (Z.of_nat (S k)) by lia.
  destruct (in_window now window s) eqn:E; rewrite IH by lia.
  - rewrite filter_cons_True by (by rewrite E). simpl. do 2 f_equal. lia.
  - rewrite filter_cons_False by (rewrite E; intros []). done.
Qed.

Lemma mean_exact n h l now window fallback :
  history_holds n h l -> now <> 0 ->
  windowMean (Some h) now window fallback =
    Done (mean_demand (filter (fun s => in_window now window s) l) fallback).
Proof.
  intros Hh Hn. unfold windowMean. rewrite (holds_len _ _ _ Hh), Nat2Z.id.
  destruct (Z.eqb_spec now 0); [done|]. rewrite orb_false_r.
  destruct (Z.eqb_spec (Z.of_nat (length l)) 0) as [E|E].
  { destruct l; [done|simpl in E; lia]. }
  pose proof (mean_loop_exact n h l now window (length l) 0 fzero 0 Hh eq_refl) as Hm. cbv zeta in Hm.
  rewrite drop_0 in Hm. change (Z.of_nat 0) with 0 in Hm. rewrite Hm. simpl.
  by destruct (filter (fun s => in_window now window s) l) as [|a l'].
Qed.

Lemma mean_comes n state l now window fallback :
  state_holds n state l -> exists v, windowMean (History state) now window fallback = Done v.
Proof.
  unfold state_holds. intros Hh. destruct (History state) as [h|]; [|by eexists].
  destruct (decide (now = 0)) as [->|Hn]; [|rewrite (mean_exact _ _ _ _ _ _ Hh Hn); by eexists].
  unfold windowMean. rewrite Z.eqb_refl, orb_true_r. by eexists.
Qed.

Lemma matured_comes n state l t obs :
  state_holds n state l -> exists b, matured_history elsewhere64 t obs (History state) = Done b.
Proof.
  unfold state_holds. intros Hh. destruct (History state) as [h|]; [|by eexists]. simpl.
  rewrite (holds_first _ _ _ Hh). simpl. destruct (hd_error l); by eexists.
Qed.

Lemma previous_comes n state l :
  state_holds n state l -> exists s, previousDemandSample (History state) = Done s.
Proof.
  unfold state_holds. intros Hh. destruct (History state) as [h|]; [|by eexists]. simpl.
  pose proof (holds_bound _ _ _ Hh) as Hb. unfold maxDemandHistoryCap in Hb.
  rewrite (holds_len _ _ _ Hh). destruct (_ <? 2); [by eexists|].
  rewrite (holds_at _ _ _ _ Hh) by (unfold is_i64; lia). by eexists.
Qed.

(** What the prior state of a tick remembers. *)
Definition remembers (n : Z) (prior : option (@PredictorState H)) (l : list DemandSample) : Prop :=
  match prior with Some state => state_holds n state l | None => l = [] end.

(** Whether a tick adds its sample. *)
Definition sampled (t : TokenThroughput) (obs : RoleObservation) : bool :=
  negb (bool_decide (roleKind obs = RoleKindEncode)) && negb (ReadyReplicas obs <=? 0)
  && negb (no_target (target t (roleKind obs))) && signalUsable (ThroughputState obs)
  && negb (ObservedAt obs =? 0).

(** The samples after a tick. *)
Definition after_tick (t : TokenThroughput) (obs : RoleObservation) (l : list DemandSample)
    : list DemandSample :=
  if sampled t obs
  then kept (maxWindow elsewhere64 t) {| Timestamp := ObservedAt obs; TokensPerSecond := demand obs |} l
  else l.

Lemma copy_comes n prior l :
  remembers n prior l -> n <= 2 ^ 62 ->
  exists state, copyState prior = Done state /\ state_holds n state l.
Proof.
  intros Hr Hn. assert (exists h, history_new = Done h /\ history_holds n h []) as (h & Hh & Hnew).
  { destruct holds_new as (h & Hh & Hl). exists h. split; [done|]. eapply holds_less; [exact Hl|done]. }
  destruct prior as [state|]; simpl in *; [|rewrite Hh; subst l; by eexists].
  unfold state_holds in Hr |- *. destruct (History state) as [h0|]; simpl.
  - destruct (holds_clone _ _ _ Hr) as (h' & -> & Hh'). by eexists.
  - rewrite Hh. subst l. by eexists.
Qed.

Lemma panic_history t obs tg v (state : @PredictorState H) :
  History (panic_state elsewhere64 t obs tg v state).2 = History state.
Proof. unfold panic_state. by repeat case_match. Qed.

Lemma state_less n n' state l : state_holds n state l -> n' <= n -> state_holds n' state l.
Proof. unfold state_holds. destruct (History state); [by apply holds_less|done]. Qed.

Lemma append_tick n t obs state l :
  state_holds n state l -> 1 <= n <= 2 ^ 62 ->
  negb (bool_decide (roleKind obs = RoleKindEncode)) && negb (ReadyReplicas obs <=? 0)
  && negb (no_target (target t (roleKind obs))) && signalUsable (ThroughputState obs) = true ->
  exists state', appendDemand elsewhere64 state
      {| Timestamp := ObservedAt obs; TokensPerSecond := demand obs |} (maxWindow elsewhere64 t) = Done state' /\
    state_holds (n - 1) state' (after_tick t obs l).
Proof.
  intros Hst Hn Hc. unfold after_tick, sampled. rewrite Hc. destruct (Z.eqb_spec (ObservedAt obs) 0) as [E|E]; simpl.
  - exists state. unfold appendDemand. simpl. rewrite E. simpl. split; [done|]. eapply state_less; [done|lia].
  - destruct (append_refines n state l {| Timestamp := ObservedAt obs; TokensPerSecond := demand obs |}
      (maxWindow elsewhere64 t) Hst Hn E) as (h & -> & Hh). by eexists.
Qed.

Lemma throughput_comes n t obs prior l :
  remembers n prior l -> 1 <= n <= 2 ^ 62 ->
  exists rec state, throughput t obs prior = Done (rec, state) /\
    state_holds (n - 1) state (after_tick t obs l).
Proof.
  intros Hr Hn. destruct (copy_comes _ _ _ Hr ltac:(lia)) as (s0 & Hc & H0s).
  unfold ThroughputRecommend. rewrite Hc. cbn [outcome_bind].
  pose proof (append_tick n t obs s0 l H0s Hn) as Happ.
  assert (sampled t obs = false -> state_holds (n - 1) s0 (after_tick t obs l)) as Hsame.
  { intros E. unfold after_tick. rewrite E. eapply state_less; [done|lia]. }
  unfold sampled in Hsame.
  destruct (bool_decide (roleKind obs = RoleKindEncode)); [eauto|].
  destruct (ReadyReplicas obs <=? 0); [eauto|].
  destruct (no_target (target t (roleKind obs))); [eauto|].
  destruct (signalUsable (ThroughputState obs)); [|eauto]. cbn [negb].
  destruct (Happ eq_refl) as (s1 & -> & H1s). cbn [outcome_bind].
  destruct (mean_comes _ _ _ (ObservedAt obs) (stableWindow elsewhere64 t) (demand obs) H1s) as [v1 ->].
  destruct (mean_comes _ _ _ (ObservedAt obs) (panicWindow elsewhere64 t) (demand obs) H1s) as [v2 ->].
  cbn [outcome_bind]. destruct (panic_state _ _ _ _ _ _) as [active s2] eqn:E.
  assert (state_holds (n - 1) s2 (after_tick t obs l)) as H2s.
  { unfold state_holds. replace (History s2) with (History s1); [exact H1s|].
    rewrite <- (panic_history t obs (target t (roleKind obs)) v2 s1), E. done. }
  destruct (matured_comes _ _ _ t obs H2s) as [b ->]. simpl. eauto.
Qed.

Lemma filter_comes n p state obs l :
  state_holds n state l ->
  exists state', updateFilter p state obs = Done state' /\ History state' = History state.
Proof.
  intros Hst. unfold updateFilter. destruct (_ =? 0); [by eexists|].
  destruct (previous_comes _ _ _ Hst) as [s ->]. simpl. eexists. split; [done|].
  unfold filter_update. by repeat case_match.
Qed.

Lemma predictive_comes n p obs prior l :
  remembers n prior l -> 1 <= n <= 2 ^ 62 ->
  exists rec state, predictive p obs prior = Done (rec, state) /\
    remembers (n - 1) (Some state) (after_tick (Throughput p) obs l).
Proof.
  intros Hr Hn. destruct (throughput_comes n (Throughput p) obs prior l Hr Hn) as (rec & state & Ht & Hst).
  unfold PredictiveRecommend. rewrite Ht. cbn [outcome_bind].
  destruct (_ || _ || _); [by exists rec, state|].
  destruct (filter_comes _ p state obs _ Hst) as (s1 & -> & Hh). cbn [outcome_bind].
  assert (remembers (n - 1) (Some s1) (after_tick (Throughput p) obs l)) as H1s.
  { simpl. unfold state_holds in *. by rewrite Hh. }
  repeat match goal with |- context [if ?c then Done _ else _] => destruct c end; eauto.
  all: repeat case_match; eauto.
Qed.

(** ** The theorems *)

(** A recommendation comes.  For every configuration, every observation and
    every prior state whose history holds the samples [l] with room for one more
    push, the throughput and the predictive algorithm return, neither panicking
    nor spinning in the ring, and the state they return holds exactly the samples
    the tick leaves: those before it, with its own appended, outdated ones and the
    excess over the cap dropped. *)
Theorem recommendation_comes n p obs prior l :
  remembers n prior l -> 1 <= n <= 2 ^ 62 ->
  (exists rec state, throughput (Throughput p) obs prior = Done (rec, state) /\
     remembers (n - 1) (Some state) (after_tick (Throughput p) obs l)) /\
  (exists rec state, predictive p obs prior = Done (rec, state) /\
     remembers (n - 1) (Some state) (after_tick (Throughput p) obs l)).
Proof.
  intros Hr Hn. split; [exact (throughput_comes n (Throughput p) obs prior l Hr Hn)|by apply predictive_comes].
Qed.

(** What the window keeps.  On samples in the order of time an append never
    fails and leaves the newest samples of the window, the new one included, at
    most [demandHistoryCap] of them, in their order: the bound of the ring (256)
    takes nothing the cap would have kept. *)
Theorem append_keeps_window n state l sample window :
  state_holds n state l -> 1 <= n <= 2 ^ 62 ->
  0 < window -> 0 < Timestamp sample -> timely (Timestamp sample) l ->
  exists h, appendDemand elsewhere64 state sample window = Done (with_history (Some h) state) /\
    history_holds (n - 1) h
      (newest (Z.to_nat (demandHistoryCap elsewhere64 window))
         (recent (Timestamp sample - window) (l ++ [sample]))).
Proof.
  intros Hst Hn Hw Hp Htl. assert (Z.of_nat (length l) <= maxDemandHistoryCap).
  { unfold state_holds in Hst. destruct (History state); [by eapply holds_bound|]. subst l. done. }
  rewrite <- kept_timely by done. apply append_refines; [done|done|lia].
Qed.

(** The mean of a window is the mean of exactly the samples whose time lies
    in it, added up in their order; with none, or without a history, it is the
    demand of the tick. *)
Theorem window_mean_exact n h l now window fallback :
  history_holds n h l -> now <> 0 ->
  windowMean (Some h) now window fallback =
    Done (mean_demand (filter (fun s => in_window now window s) l) fallback) /\
  @windowMean H _ None now window fallback = Done fallback.
Proof. intros Hh Hn. split; [by apply (mean_exact n)|done]. Qed.

(** Partial information never scales down.  Whatever the metrics say, with
    incomplete coverage none of the three algorithms asks for fewer replicas than
    there are, and none asks for none where there is one; a role whose demand
    cannot be judged (no ready replica, no usable throughput signal, an encoder)
    keeps its count under the throughput and the predictive algorithm. *)
Theorem partial_never_lowers obs :
  is_i32 (CurrentReplicas obs) ->
  (forall p, moderate obs (ProportionalRecommend elsewhere32 p obs)) /\
  (forall t prior rec state, throughput t obs prior = Done (rec, state) ->
     moderate obs rec /\ (unjudged obs -> DesiredReplicas rec = CurrentReplicas obs)) /\
  (forall p prior rec state, predictive p obs prior = Done (rec, state) ->
     moderate obs rec /\ (unjudged obs -> DesiredReplicas rec = CurrentReplicas obs)).
Proof.
  intros Hi. split; [intros p; apply proportional_moderate|].
  split; intros p prior rec state Hr; [by eapply throughput_counts|].
  destruct (predictive_counts p obs prior rec state Hi Hr) as (? & ? & _). done.
Qed.

(** A warm predictor consolidates one replica at a time: once it has its
    samples, a capacity and a finite forecast, its recommendation is below the
    current count by at most one, and then only with complete coverage, out of
    panic, with nothing holding, at or above what the forecast needs, and with the
    demand of the tick at most at 80% of the capacity of the replicas left. *)
Theorem predictive_steps_down_by_one p obs prior rec state :
  is_i32 (CurrentReplicas obs) -> predictive p obs prior = Done (rec, state) -> warm p obs state ->
  CurrentReplicas obs <= DesiredReplicas rec \/
  CompleteCoverage obs = true /\
  one_less obs (capacity p (roleKind obs))
    (slow_floor elsewhere32 elsewhere64 p (capacity p (roleKind obs)) state) rec.
Proof. intros Hi Hr. by apply (predictive_counts p obs prior rec state Hi Hr). Qed.
End recommendations.

(** ** The theorems at work *)

Module ScalingExample.
(** What amd64 converts a float64 out of range to. *)
Definition min32 (_ : float64) : Z := - 2 ^ 31.
Definition min64 (_ : float64) : Z := - 2 ^ 63.

(** A server of five ready replicas under 120 tokens per second. *)
Definition observed (now : Z) (complete : bool) : RoleObservation :=
  {| Role := "server"; Kind := ""; CurrentReplicas := 5; ReadyReplicas := 5;
     PromptTokensPerSecond := to_float 20; GenerationTokensPerSecond := to_float 100;
     RunningRequests := to_float 3; WaitingRequests := fzero; KVCacheUsage := flit 1 10;
     TTFTMilliseconds := fzero; ITLMilliseconds := fzero; TTFTUnmeasured := true; ITLUnmeasured := true;
     ThroughputState := SignalFresh; LatencyState := SignalIdle; GaugeState := SignalFresh;
     CompleteCoverage := complete; ObservedAt := now |}.

(** Hundred tokens per second for a replica, judged from the first sample on. *)
Definition predictor : Predictive :=
  {| Throughput := {| PrefillTargetTokensPerSecond := fzero; DecodeTargetTokensPerSecond := fzero;
       ServerTargetTokensPerSecond := to_float 100; StableWindowSeconds := fzero; PanicWindowSeconds := fzero;
       PanicThreshold := fzero; TTFTTargetMilliseconds := fzero; ITLTargetMilliseconds := fzero |};
     HorizonSeconds := fzero; PrefillTokenCapacityPerReplica := fzero; DecodeTokenCapacityPerReplica := fzero;
     ServerTokenCapacityPerReplica := to_float 100; QLevel := fzero; QTrend := fzero; R := fzero; MinPoints := 1 |}.

Definition sample (now : Z) : DemandSample := {| Timestamp := now; TokensPerSecond := to_float 120 |}.

Definition empty_state : @PredictorState (ring DemandSample) :=
  {| Level := fzero; Trend := fzero; Covariance := (fzero, fzero, fzero, fzero); SampleCount := 0;
     History := None; PanicExitAt := 0 |}.

Definition at_second (n : Z) : Z := n * second.

(** A ring that holds one sample. *)
Lemma one_sample :
  exists h, state_holds 1000 (with_history (Some h) empty_state) [sample (at_second 1)].
Proof.
  destruct (append_refines min64 (H := ring DemandSample) 1001 empty_state [] (sample (at_second 1)) (180 * second))
    as (h & _ & Hh); [done|lia|done|]. exists h. exact Hh.
Qed.

Lemma recommendation_comes_witness :
  (exists rec state, ThroughputRecommend min32 min64 (Throughput predictor) (observed (at_second 16) true)
     (@None (@PredictorState (ring DemandSample))) = Done (rec, state) /\
     remembers 999 (Some state) (after_tick min64 (Throughput predictor) (observed (at_second 16) true) [])) /\
  (exists rec state, PredictiveRecommend min32 min64 predictor (observed (at_second 16) true)
     (@None (@PredictorState (ring DemandSample))) = Done (rec, state) /\
     remembers 999 (Some state) (after_tick min64 (Throughput predictor) (observed (at_second 16) true) [])).
Proof.
  apply (recommendation_comes min32 min64 1000 predictor (observed (at_second 16) true) None []); [reflexivity|lia].
Defined.

Lemma append_keeps_window_witness :
  exists state h, appendDemand min64 state (sample (at_second 16)) (10 * second) = Done (with_history (Some h) state) /\
    history_holds (H := ring DemandSample) 999 h [sample (at_second 16)].
Proof.
  destruct one_sample as [h0 H0h]. exists (with_history (Some h0) empty_state).
  apply (append_keeps_window min64 1000 (with_history (Some h0) empty_state) [sample (at_second 1)]
           (sample (at_second 16)) (10 * second) H0h).
  - lia.
  - reflexivity.
  - reflexivity.
  - split; repeat constructor; vm_compute; discriminate.
Defined.

Lemma window_mean_exact_witness :
  exists h, windowMean (H := ring DemandSample) (Some h) (at_second 16) (60 * second) fzero = Done (to_float 120) /\
    @windowMean (ring DemandSample) _ None (at_second 16) (60 * second) fzero = Done fzero.
Proof.
  destruct one_sample as [h0 H0h]. exists h0.
  apply (window_mean_exact 1000 h0 [sample (at_second 1)] (at_second 16) (60 * second) fzero H0h). discriminate.
Defined.

Lemma partial_never_lowers_witness :
  moderate (observed (at_second 16) false)
    (ProportionalRecommend min32 {| Metric := ""; TargetValue := to_float 10; Tolerance := fzero |}
       (observed (at_second 16) false)).
Proof.
  apply (partial_never_lowers min32 min64 (H := ring DemandSample) (observed (at_second 16) false)).
  split; vm_compute; congruence.
Defined.

Lemma predictive_steps_down_by_one_witness :
  exists rec state, PredictiveRecommend (H := ring DemandSample) min32 min64 predictor (observed (at_second 16) true) None
      = Done (rec, state) /\ DesiredReplicas rec = 4 /\
    (CurrentReplicas (observed (at_second 16) true) <= DesiredReplicas rec \/
     CompleteCoverage (observed (at_second 16) true) = true /\
     one_less (observed (at_second 16) true) (to_float 100)
       (slow_floor min32 min64 predictor (to_float 100) state) rec).
Proof.
  eexists. eexists. split; [vm_compute; reflexivity|]. split; [reflexivity|].
  apply (predictive_steps_down_by_one min32 min64 predictor (observed (at_second 16) true)
    (@None (@PredictorState (ring DemandSample)))).
  - split; vm_compute; congruence.
  - vm_compute. reflexivity.
  - repeat split; vm_compute; congruence.
Defined.
End ScalingExample.
