(* ===== verification/ScalerSpec.v ===== *)
(** * The scaler's specification

    The part of src/api/worker/v1alpha1/model_deployment_scaler.go the planner
    and the webhook read, and the quantities in it: a resource.Quantity is a
    decimal, read as a float64 by the planner and as an exact rational by the
    webhook. *)

From stdpp Require Import prelude gmap strings list.
From Stdlib Require Import SpecFloat QArith Qround.
From S2P Require Import Prelude GoFloat.
#[global] Open Scope Z_scope.

(** ** Quantities *)

(** [value * 10 ^ exponent], in either of the two representations. *)
Record Quantity := { QValue : Z; QExponent : Z }.

(** The literal [n / d], rounded once. *)
Definition flit_exact (n d : positive) : float64 :=
  SFdiv 53 1024 (S754_finite false n 0) (S754_finite false d 0).

(** [math.Pow10], from its tables of [10 ^ k] and [10 ^ (32 * k)]. *)
Definition math_pow10 (n : Z) : float64 :=
  if (0 <=? n) && (n <=? 308) then
    fmul (to_float (10 ^ (32 * (n / 32)))) (to_float (10 ^ (n mod 32)))
  else if (-323 <=? n) && (n <=? 0) then
    fdiv (flit_exact 1 (Z.to_pos (10 ^ (32 * (- n / 32))))) (to_float (10 ^ (- n mod 32)))
  else if 0 <? n then S754_infinity false else fzero.

Definition AsApproximateFloat64 (q : Quantity) : float64 :=
  let base := to_float (QValue q) in
  if QExponent q =? 0 then base else fmul base (math_pow10 (QExponent q)).

Definition quantity_sign (q : Quantity) : Z := Z.sgn (QValue q).

(** The quantity as an exact rational. *)
Definition modelDeploymentScalerRatioValue (q : option Quantity) : option Q :=
  match q with
  | None => None
  | Some q =>
      let scale := - QExponent q in
      Some (if 0 <=? scale then QValue q # Z.to_pos (10 ^ scale) else (QValue q * 10 ^ (- scale)) # 1)
  end.

(** ** Records *)

Definition ReasonBoundsConflict : string := "BoundsConflict".
Definition ReasonRatioConflict : string := "RatioConflict".
Definition ReasonPacingBounded : string := "PacingBounded".

Record RoleBounds := { BName : string; MinReplicas : Z; MaxReplicas : Z }.

Record RoleRatio := {
  NumeratorRole : string; DenominatorRole : string;
  RTarget : option Quantity; RMin : option Quantity; RMax : option Quantity }.

Definition StepPolicyTypePercent : string := "Percent".
Record StepPolicy := { SType : string; SValue : Z }.

Record ScaleUpRules := {
  UpStabilizationWindowSeconds : Z; MaxStepReplicas : Z; MaxStepPercent : Z; UpStepPolicy : option StepPolicy }.
Record ScaleDownRules := {
  DownStabilizationWindowSeconds : Z; CooldownAfterAbortSeconds : Z;
  DecodePostScaleUpGraceSeconds : Z; DownStepPolicy : option StepPolicy }.
Record BehaviorSpec := { ScaleUp : ScaleUpRules; ScaleDown : ScaleDownRules }.

(** The lists a plan reads. *)
Record PolicySpec := { Roles : list RoleBounds; Ratios : list RoleRatio; Behavior : BehaviorSpec }.

Record StabilizationSample := { STimestamp : Z; SReplicas : Z }.

#[global] Instance StabilizationSample_eq_dec : EqDecision StabilizationSample.
Proof. solve_decision. Defined.

(** ** Integers of the planner *)

Definition clamp (value low high : Z) : Z :=
  if value <? low then low else if high <? value then high else value.

(** A duration of [s] whole seconds, in 64 bits. *)
Definition seconds (s : Z) : Z := i64 (s * 10 ^ 9).

Lemma seconds_small s : is_i32 s -> seconds s = s * 10 ^ 9.
Proof. unfold is_i32. intros. apply i64_small. unfold is_i64. lia. Qed.

Lemma clamp_range v lo hi : lo <= hi -> lo <= clamp v lo hi <= hi.
Proof. intros. unfold clamp. zcases. Qed.

Lemma clamp_id v lo hi : lo <= v <= hi -> clamp v lo hi = v.
Proof. intros. unfold clamp. zcases. Qed.

#[export] Hint Resolve clamp_range : gpustack.
