(* ===== verification/ScalerConstraints.v ===== *)
(** * The constraint solver of the scaler

    src/pkg/worker/controllers/worker/model_deployment_scaler_constraints.go: the
    interval a role may move in, the stabilization history behind it, and the
    search for replica counts that keep the ratios between roles.  Maps are
    [gmap]s; where the source ranges over a map, [ranging] gives the order, which
    is any.  Computed in binary64 like the source. *)

From stdpp Require Import prelude gmap strings list sorting.
From Stdlib Require Import SpecFloat.
From S2P Require Import Prelude GoFloat ScalerSpec.

Definition RoleKindDecode : string := "Decode".

Record RoleState := {
  RsName : string; RsKind : string; RsCurrent : Z; RsRaw : Z;
  RsHoldScaleDown : bool; RsCompleteCoverage : bool; RsPending : bool;
  RsLastScaleUpTime : Z; RsHistory : list StabilizationSample }.

(** What a map of states holds for an unknown role. *)
Definition zero_state : RoleState :=
  {| RsName := ""; RsKind := ""; RsCurrent := 0; RsRaw := 0; RsHoldScaleDown := false;
     RsCompleteCoverage := false; RsPending := false; RsLastScaleUpTime := 0; RsHistory := [] |}.

Record ConstraintInput := {
  Spec : PolicySpec; InRoles : list RoleState; HasActiveRetirement : bool;
  InAbortCooldown : bool; CooldownUntil : Z; Now : Z }.

Record Interval := { Floor : Z; Ceil : Z }.
Definition zero_interval : Interval := {| Floor := 0; Ceil := 0 |}.

Record ConstraintResult := {
  Replicas : gmap string Z; Reasons : gmap string string; Intervals : gmap string Interval;
  Histories : gmap string (list StabilizationSample); BlockingReason : string }.

Definition with_replica (name : string) (n : Z) (r : ConstraintResult) : ConstraintResult :=
  {| Replicas := <[name := n]> (Replicas r); Reasons := Reasons r; Intervals := Intervals r;
     Histories := Histories r; BlockingReason := BlockingReason r |}.
Definition with_reason (reason name : string) (r : ConstraintResult) : ConstraintResult :=
  {| Replicas := Replicas r; Reasons := <[name := reason]> (Reasons r); Intervals := Intervals r;
     Histories := Histories r; BlockingReason := BlockingReason r |}.
Definition with_blocking (reason : string) (r : ConstraintResult) : ConstraintResult :=
  {| Replicas := Replicas r; Reasons := Reasons r; Intervals := Intervals r;
     Histories := Histories r; BlockingReason := reason |}.
Definition with_interval (name : string) (i : Interval) (r : ConstraintResult) : ConstraintResult :=
  {| Replicas := Replicas r; Reasons := Reasons r; Intervals := <[name := i]> (Intervals r);
     Histories := Histories r; BlockingReason := BlockingReason r |}.
Definition with_history (name : string) (h : list StabilizationSample) (r : ConstraintResult) : ConstraintResult :=
  {| Replicas := Replicas r; Reasons := Reasons r; Intervals := Intervals r;
     Histories := <[name := h]> (Histories r); BlockingReason := BlockingReason r |}.

Definition searchBudget : Z := 2 ^ 14.
Definition maxStabilizationSamples : nat := 256.
Definition defaultScaleDownWindow : Z := 300 * 10 ^ 9.
Definition defaultDecodeGrace : Z := 120 * 10 ^ 9.

(** ** The stabilization history *)

Definition largestStabilizationWindow (spec : PolicySpec) : Z :=
  let upWindow := seconds (UpStabilizationWindowSeconds (ScaleUp (Behavior spec))) in
  let downWindow := seconds (DownStabilizationWindowSeconds (ScaleDown (Behavior spec))) in
  let downWindow := if downWindow <=? 0 then defaultScaleDownWindow else downWindow in
  if downWindow <? upWindow then upWindow else downWindow.

(** The loop of [pruneStabilizationHistory]: the last sample at or before the
    cutoff, and the samples after it up to now. *)
Definition prune_step (cutoff now : Z) (acc : option StabilizationSample * list StabilizationSample)
    (sample : StabilizationSample) : option StabilizationSample * list StabilizationSample :=
  if negb (cutoff <? STimestamp sample) then (Some sample, acc.2)
  else if negb (now <? STimestamp sample) then (acc.1, acc.2 ++ [sample])
  else acc.

(** At most 256 samples: the oldest and the newest 255. *)
Definition cap_history (history : list StabilizationSample) : list StabilizationSample :=
  if bool_decide (maxStabilizationSamples < length history)%nat
  then take 1 history ++ drop (length history - (maxStabilizationSamples - 1)) history
  else history.

Definition pruneStabilizationHistory (history : list StabilizationSample) (now window : Z)
    : list StabilizationSample :=
  match history with
  | [] => []
  | _ =>
      let history :=
        if (0 <? window) && negb (now =? 0) then
          let (anchor, pruned) := foldl (prune_step (now - window) now) (None, []) history in
          match anchor with Some a => a :: pruned | None => pruned end
        else history in
      cap_history history
  end.

Definition maximum_step (cutoff now : Z) (acc : Z * bool) (sample : StabilizationSample) : Z * bool :=
  if (STimestamp sample <? cutoff) || (now <? STimestamp sample) then acc
  else if negb acc.2 || (acc.1 <? SReplicas sample) then (SReplicas sample, true) else acc.

Definition rollingMaximum (history : list StabilizationSample) (now window : Z) : Z * bool :=
  foldl (maximum_step (now - window) now) (0, false) history.

Definition historySpans (history : list StabilizationSample) (now window : Z) : bool :=
  if window <=? 0 then true
  else
    existsb (fun sample => negb (now - window <? STimestamp sample)) history
    && existsb (fun sample => negb (STimestamp sample <? now - window) && negb (now <? STimestamp sample)) history.

(** ** Graphs of ratios *)

Definition neighbors (graph : gmap string (list string)) (name : string) : list string :=
  default [] (graph !! name).

Definition ratioGraph (ratios : list RoleRatio) : gmap string (list string) :=
  foldl (fun graph ratio =>
      let graph := <[NumeratorRole ratio := neighbors graph (NumeratorRole ratio) ++ [DenominatorRole ratio]]> graph in
      <[DenominatorRole ratio := neighbors graph (DenominatorRole ratio) ++ [NumeratorRole ratio]]> graph)
    ∅ ratios.

Fixpoint connectedComponent (fuel : nat) (graph : gmap string (list string)) (start : string)
    (seen : gset string) : list string * gset string :=
  match fuel with
  | O => ([], seen)
  | S fuel =>
      foldl (fun acc next =>
          if bool_decide (next ∈ acc.2) then acc
          else let (found, seen) := connectedComponent fuel graph next acc.2 in (acc.1 ++ found, seen))
        ([start], {[start]} ∪ seen) (neighbors graph start)
  end.

(** Every recursive call marks one more role. *)
Definition component_fuel (graph : gmap string (list string)) : nat := S (size graph).

(** ** Ratios *)

Definition quantityFloat (q : option Quantity) : float64 :=
  match q with None => fzero | Some q => AsApproximateFloat64 q end.
Definition ratioMaxFloat (q : option Quantity) : float64 :=
  match q with None => S754_infinity false | Some _ => quantityFloat q end.

Definition ratioEpsilon : float64 := flit_exact 1 (10 ^ 9).

(** A count of a vector; 0 for a role it does not hold. *)
Definition count (values : gmap string Z) (name : string) : Z := default 0 (values !! name).

Definition ratio_holds (values : gmap string Z) (ratio : RoleRatio) : bool :=
  let denominator := count values (DenominatorRole ratio) in
  if denominator <=? 0 then false
  else
    let value := fdiv (to_float (count values (NumeratorRole ratio))) (to_float denominator) in
    negb (flt value (fsub (quantityFloat (RMin ratio)) ratioEpsilon)
          || flt (fadd (ratioMaxFloat (RMax ratio)) ratioEpsilon) value).

Definition ratiosSatisfied (values : gmap string Z) (ratios : list RoleRatio) : bool :=
  forallb (ratio_holds values) ratios.

(** ** The solver *)

Section solver.
(** What the platform converts a float64 out of range to, the order a map is
    ranged over, and the clock. *)
Context (elsewhere32 : float64 -> Z) (ranging : forall A, gmap string A -> list (string * A)) (clock : Z).

Definition stepAmount (current : Z) (policy : StepPolicy) : Z :=
  if SValue policy <=? 0 then 0
  else if bool_decide (SType policy = StepPolicyTypePercent)
  then to_i32 elsewhere32 (math_ceil (fdiv (fmul (to_float current) (to_float (SValue policy))) (to_float 100)))
  else SValue policy.

(** The ceiling a scale-up step allows, before it is clamped. *)
Definition step_ceil (up : ScaleUpRules) (current : Z) : Z :=
  match UpStepPolicy up with
  | Some policy => i32 (current + stepAmount current policy)
  | None =>
      let (pods, percent) :=
        if (MaxStepReplicas up =? 0) && (MaxStepPercent up =? 0) then (4, 100)
        else (MaxStepReplicas up, MaxStepPercent up) in
      let ceil := current in
      let ceil := if 0 <? pods then Z.max ceil (i32 (current + pods)) else ceil in
      if 0 <? percent
      then Z.max ceil (i32 (current + to_i32 elsewhere32
             (math_ceil (fdiv (fmul (to_float current) (to_float percent)) (to_float 100)))))
      else ceil
  end.

(** The ceiling of a role. *)
Definition interval_ceil (input : ConstraintInput) (role : RoleState) (history : list StabilizationSample)
    (current maximum : Z) : Z :=
  let up := ScaleUp (Behavior (Spec input)) in
  let ceil := clamp (step_ceil up current) current maximum in
  let ceil := if RsPending role then Z.min ceil current else ceil in
  let upWindow := seconds (UpStabilizationWindowSeconds up) in
  if (0 <? UpStabilizationWindowSeconds up) && (current <? RsRaw role)
     && negb (historySpans history (Now input) upWindow)
  then Z.min ceil current else ceil.

(** The floor of a role. *)
Definition interval_floor (input : ConstraintInput) (role : RoleState) (history : list StabilizationSample)
    (current minimum : Z) : Z :=
  let down := ScaleDown (Behavior (Spec input)) in
  let floor := i32 (current - 1) in
  let floor := match DownStepPolicy down with
               | Some policy => i32 (current - stepAmount current policy)
               | None => floor
               end in
  let floor := Z.max floor minimum in
  let window := seconds (DownStabilizationWindowSeconds down) in
  let window := if window <=? 0 then defaultScaleDownWindow else window in
  let floor :=
    if negb (historySpans history (Now input) window) then Z.max floor current
    else
      let (maxRecommendation, ok) := rollingMaximum history (Now input) window in
      if ok && (current <=? maxRecommendation) then Z.max floor current
      else if ok then Z.max floor (Z.min current maxRecommendation) else floor in
  let inCooldown := InAbortCooldown input || (negb (CooldownUntil input =? 0) && (Now input <? CooldownUntil input)) in
  let floor := if RsHoldScaleDown role || negb (RsCompleteCoverage role) || HasActiveRetirement input || inCooldown
               then Z.max floor current else floor in
  let grace := seconds (DecodePostScaleUpGraceSeconds down) in
  let grace := if grace <=? 0 then defaultDecodeGrace else grace in
  if bool_decide (RsKind role = RoleKindDecode) && negb (RsLastScaleUpTime role =? 0)
     && (Z.max (- 2 ^ 63) (Z.min (2 ^ 63 - 1) (Now input - RsLastScaleUpTime role)) <? grace)
  then Z.max floor current else floor.

Definition roleInterval (input : ConstraintInput) (role : RoleState) (bound : RoleBounds)
    (history : list StabilizationSample) : Interval :=
  let minimum := if MinReplicas bound <=? 0 then 1 else MinReplicas bound in
  let maximum := MaxReplicas bound in
  if maximum <? minimum then {| Floor := minimum; Ceil := maximum |}
  else
    let current := clamp (RsCurrent role) minimum maximum in
    {| Floor := clamp (interval_floor input role history current minimum) minimum maximum;
       Ceil := clamp (interval_ceil input role history current maximum) minimum maximum |}.

(** *** The search *)

(** The loop of [orderedCandidates]; every offset within reach adds a candidate. *)
Fixpoint candidates_from (fuel : nat) (low high center offset : Z) (n : nat) (candidates : list Z) : list Z :=
  match fuel with
  | O => candidates
  | S fuel =>
      if bool_decide (length candidates < n)%nat then
        let below := low <=? i32 (center - offset) in
        let candidates := if below then candidates ++ [i32 (center - offset)] else candidates in
        if below && bool_decide (length candidates = n) then candidates
        else
          let candidates := if i32 (center + offset) <=? high then candidates ++ [i32 (center + offset)] else candidates in
          candidates_from fuel low high center (i32 (offset + 1)) n candidates
      else candidates
  end.

(** A negative capacity makes [make] panic. *)
Definition orderedCandidates (low high target : Z) : outcome (list Z) :=
  if high <? low then Done []
  else
    let n := i32 (i32 (high - low) + 1) in
    let n := if searchBudget <? n then searchBudget else n in
    if n <? 0 then Panic
    else
      let center := clamp target low high in
      Done (candidates_from (Z.to_nat n) low high center 1 (Z.to_nat n) [center]).

Definition ratioLower (known : Z) (ratio : float64) (numerator : bool) : Z :=
  if numerator then to_i32 elsewhere32 (math_ceil (fsub (fmul ratio (to_float known)) ratioEpsilon))
  else if fle ratio fzero || isPosInf ratio then 1
  else to_i32 elsewhere32 (math_ceil (fsub (fdiv (to_float known) ratio) ratioEpsilon)).

Definition ratioUpper (known : Z) (ratio : float64) (numerator : bool) : Z :=
  if numerator then
    if isPosInf ratio then 2 ^ 31 - 1
    else to_i32 elsewhere32 (math_floor (fadd (fmul ratio (to_float known)) ratioEpsilon))
  else if fle ratio fzero then 2 ^ 31 - 1
  else to_i32 elsewhere32 (math_floor (fadd (fdiv (to_float known) ratio) ratioEpsilon)).

Definition scoreVector (values desired : gmap string Z) (ratios : list RoleRatio) : float64 * float64 * float64 :=
  let '(score0, score2) :=
    foldl (fun '(score0, score2) '(name, value) =>
        (fadd score0 (fabs (to_float (i32 (value - count desired name)))), fadd score2 (to_float value)))
      (fzero, fzero) (ranging Z values) in
  let score1 :=
    foldl (fun score1 ratio =>
        let denominator := count values (DenominatorRole ratio) in
        if 0 <? denominator then
          let target := quantityFloat (RTarget ratio) in
          let target := if feq target fzero
            then fdiv (fadd (quantityFloat (RMin ratio)) (quantityFloat (RMax ratio))) (to_float 2) else target in
          fadd score1 (fabs (fsub (fdiv (to_float (count values (NumeratorRole ratio))) (to_float denominator)) target))
        else score1) fzero ratios in
  (score0, score1, score2).

Record SearchState := {
  Best : option (gmap string Z); BestScore : float64 * float64 * float64; Budget : Z }.

Definition better (score best : float64 * float64 * float64) : bool :=
  let '(s0, s1, s2) := score in
  let '(b0, b1, b2) := best in
  flt s0 b0 || (feq s0 b0 && flt s1 b1) || (feq s0 b0 && feq s1 b1 && flt b2 s2).

(** A whole assignment is scored. *)
Definition score_leaf (ratios : list RoleRatio) (desired assignment : gmap string Z) (s : SearchState) : SearchState :=
  let s := {| Best := Best s; BestScore := BestScore s; Budget := Budget s - 1 |} in
  if negb (ratiosSatisfied assignment ratios) then s
  else
    let score := scoreVector assignment desired ratios in
    if better score (BestScore s) then {| Best := Some assignment; BestScore := score; Budget := Budget s |} else s.

(** The first unassigned neighbor of an assigned role, or a role left over. *)
Definition unassigned (assignment : gmap string Z) (names : list string) : string :=
  default "" (head (filter (fun name => assignment !! name = None) names)).

Fixpoint next_neighbor (graph : gmap string (list string)) (assignment : gmap string Z) (component : list string)
    : string :=
  match component with
  | [] => ""
  | assigned :: component =>
      match assignment !! assigned with
      | None => next_neighbor graph assignment component
      | Some _ =>
          let next := unassigned assignment (neighbors graph assigned) in
          if bool_decide (next = "") then next_neighbor graph assignment component else next
      end
  end.

Definition next_role (graph : gmap string (list string)) (assignment : gmap string Z) (component : list string)
    : string :=
  let next := next_neighbor graph assignment component in
  if bool_decide (next = "") then unassigned assignment component else next.

(** The bounds the assigned roles leave for the next one. *)
Definition tightened (ratios : list RoleRatio) (low high assignment : gmap string Z) (next : string) : Z * Z :=
  foldl (fun bounds ratio =>
      let bounds :=
        if bool_decide (NumeratorRole ratio = next) then
          match assignment !! DenominatorRole ratio with
          | Some den => (Z.max bounds.1 (ratioLower den (quantityFloat (RMin ratio)) true),
                         Z.min bounds.2 (ratioUpper den (ratioMaxFloat (RMax ratio)) true))
          | None => bounds
          end
        else bounds in
      if bool_decide (DenominatorRole ratio = next) then
        match assignment !! NumeratorRole ratio with
        | Some num => (Z.max bounds.1 (ratioLower num (ratioMaxFloat (RMax ratio)) false),
                       Z.min bounds.2 (ratioUpper num (quantityFloat (RMin ratio)) false))
        | None => bounds
        end
      else bounds)
    (count low next, count high next) ratios.

(** Try each candidate in turn until the budget is spent. *)
Definition try_candidates (visit : Z -> SearchState -> outcome SearchState) (candidates : list Z) (s : SearchState)
    : outcome SearchState :=
  foldl (fun s value => let* s := s in if Budget s <=? 0 then Done s else visit value s) (Done s) candidates.

(** [fuel] counts the roles that are not assigned. *)
Fixpoint searchNeighbors (fuel : nat) (component : list string) (graph : gmap string (list string))
    (ratios : list RoleRatio) (low high desired assignment : gmap string Z) (s : SearchState)
    : outcome SearchState :=
  if Budget s <=? 0 then Done s
  else if bool_decide (size assignment = length component) then Done (score_leaf ratios desired assignment s)
  else
    match fuel with
    | O => Done s
    | S fuel =>
        let next := next_role graph assignment component in
        if bool_decide (next = "") then Done s
        else
          let bounds := tightened ratios low high assignment next in
          let* candidates := orderedCandidates bounds.1 bounds.2 (count desired next) in
          try_candidates (fun value =>
              searchNeighbors fuel component graph ratios low high desired (<[next := value]> assignment))
            candidates s
    end.

(** The role with the most neighbors, the first on a tie. *)
Definition anchor_of (graph : gmap string (list string)) (component : list string) : string :=
  match component with
  | [] => ""
  | first :: rest =>
      foldl (fun anchor name =>
          if bool_decide (length (neighbors graph anchor) < length (neighbors graph name))%nat then name else anchor)
        first rest
  end.

Definition initial_search : SearchState :=
  {| Best := None; BestScore := (S754_infinity false, S754_infinity false, S754_infinity true); Budget := searchBudget |}.

Definition searchComponent (component : list string) (ratios : list RoleRatio) (low high desired : gmap string Z)
    : outcome (option (gmap string Z)) :=
  if existsb (fun name => count high name <? count low name) component then Done None
  else
    let graph := ratioGraph ratios in
    let anchor := anchor_of graph component in
    let* candidates := orderedCandidates (count low anchor) (count high anchor) (count desired anchor) in
    let* s := try_candidates (fun value =>
        searchNeighbors (length component) component graph ratios low high desired {[anchor := value]})
      candidates initial_search in
    Done (Best s).

(** *** Projection of a component *)

Definition state_of (states : gmap string RoleState) (name : string) : RoleState := default zero_state (states !! name).
Definition interval_of (r : ConstraintResult) (name : string) : Interval := default zero_interval (Intervals r !! name).

(** A map built by a loop over the names of a component. *)
Definition vector (f : string -> Z) (component : list string) : gmap string Z :=
  foldl (fun m name => <[name := f name]> m) ∅ component.

(** Keep the current counts of a component, for a reason. *)
Definition held (reason : string) (states : gmap string RoleState) (component : list string) (r : ConstraintResult)
    : ConstraintResult :=
  foldl (fun r name => with_reason reason name (with_replica name (RsCurrent (state_of states name)) r)) r component.

(** The bounds of a component in the direction it moves. *)
Definition directed_low (directionUp : bool) (states : gmap string RoleState) (r : ConstraintResult) (name : string) : Z :=
  if directionUp then Z.max (Floor (interval_of r name)) (RsCurrent (state_of states name)) else Floor (interval_of r name).
Definition directed_high (directionUp : bool) (states : gmap string RoleState) (r : ConstraintResult) (name : string) : Z :=
  if directionUp then Ceil (interval_of r name) else Z.min (Ceil (interval_of r name)) (RsCurrent (state_of states name)).

(** The result is passed by value: its maps are shared with the caller, while
    its blocking reason is not, so what is assigned to it here is lost. *)
Definition projectComponent (input : ConstraintInput) (component : list string) (states : gmap string RoleState)
    (r : ConstraintResult) : outcome ConstraintResult :=
  let component := merge_sort String.le component in
  let ratios := Ratios (Spec input) in
  let anyUp := existsb (fun name => RsCurrent (state_of states name) <? RsRaw (state_of states name)) component in
  let anyDown := existsb (fun name => RsRaw (state_of states name) <? RsCurrent (state_of states name)) component in
  if negb anyUp && negb anyDown then
    let values := vector (fun name => RsCurrent (state_of states name)) component in
    let r := foldl (fun r name => with_replica name (RsCurrent (state_of states name)) r) r component in
    if negb (ratiosSatisfied values ratios)
    then Done (foldl (fun r name => with_reason ReasonRatioConflict name r) r component)
    else Done r
  else
    let low := vector (directed_low anyUp states r) component in
    let high := vector (directed_high anyUp states r) component in
    let desired := vector (fun name => clamp (RsRaw (state_of states name)) (count low name) (count high name)) component in
    let* best := searchComponent component ratios low high desired in
    match best with
    | None =>
        let fullLow := vector (fun name => Floor (interval_of r name)) component in
        let fullHigh := vector (fun name => Ceil (interval_of r name)) component in
        let* full := searchComponent component ratios fullLow fullHigh desired in
        let reason := match full with Some _ => ReasonPacingBounded | None => ReasonRatioConflict end in
        Done (held reason states component r)
    | Some best =>
        let r := foldl (fun r name => with_replica name (count best name) r) r component in
        Done (foldl (fun r name =>
            if negb (count best name =? count desired name)
               || ((count best name =? RsCurrent (state_of states name))
                   && negb (count desired name =? RsCurrent (state_of states name)))
            then with_reason ReasonPacingBounded name r else r) r component)
    end.

(** *** The whole solver *)

Definition empty_result : ConstraintResult :=
  {| Replicas := ∅; Reasons := ∅; Intervals := ∅; Histories := ∅; BlockingReason := "" |}.

(** The history of a role with this tick's recommendation. *)
Definition role_history (input : ConstraintInput) (role : RoleState) : list StabilizationSample :=
  pruneStabilizationHistory (RsHistory role ++ [{| STimestamp := Now input; SReplicas := RsRaw role |}])
    (Now input) (largestStabilizationWindow (Spec input)).

(** The bounds of a name; the last entry wins. *)
Definition bounds_map (spec : PolicySpec) : gmap string RoleBounds :=
  foldl (fun m bound => <[BName bound := bound]> m) ∅ (Roles spec).

Definition role_step (input : ConstraintInput) (r : ConstraintResult) (role : RoleState) : ConstraintResult :=
  let r := with_replica (RsName role) (RsCurrent role) r in
  let history := role_history input role in
  let r := with_history (RsName role) history r in
  match bounds_map (Spec input) !! RsName role with
  | None => with_reason ReasonBoundsConflict (RsName role) (with_blocking ReasonBoundsConflict r)
  | Some bound => with_interval (RsName role) (roleInterval input role bound history) r
  end.

(** The roles up to the first whose interval is empty. *)
Fixpoint conflict_names (r : ConstraintResult) (roles : list RoleState) (names : list string) : option (list string) :=
  match roles with
  | [] => None
  | role :: roles =>
      let names := names ++ [RsName role] in
      if Ceil (interval_of r (RsName role)) <? Floor (interval_of r (RsName role)) then Some names
      else conflict_names r roles names
  end.

Definition states_map (roles : list RoleState) : gmap string RoleState :=
  foldl (fun m role => <[RsName role := role]> m) ∅ roles.

(** One name of the sorted loop over components. *)
Definition component_step (input : ConstraintInput) (states : gmap string RoleState)
    (graph : gmap string (list string)) (acc : outcome (ConstraintResult * gset string)) (name : string)
    : outcome (ConstraintResult * gset string) :=
  let* acc := acc in
  if bool_decide (name ∈ acc.2) then Done acc
  else
    let (component, seen) := connectedComponent (component_fuel graph) graph name acc.2 in
    if bool_decide (length component = 1%nat) && bool_decide (neighbors graph name = []) then
      let interval := interval_of acc.1 name in
      Done (with_replica name (clamp (RsRaw (state_of states name)) (Floor interval) (Ceil interval)) acc.1, seen)
    else
      let* r := projectComponent input component states acc.1 in
      Done (r, seen).

(** The reasons of the components become the blocking reason. *)
Definition blocking_from_reasons (r : ConstraintResult) : ConstraintResult :=
  if bool_decide (BlockingReason r = "") then
    match filter (fun entry => entry.2 = ReasonRatioConflict \/ entry.2 = ReasonPacingBounded)
            (ranging string (Reasons r)) with
    | entry :: _ => with_blocking entry.2 r
    | [] => r
    end
  else r.

Definition blocking_from_pacing (roles : list RoleState) (r : ConstraintResult) : ConstraintResult :=
  if bool_decide (BlockingReason r = "") then
    foldl (fun r role =>
        if negb (RsRaw role =? RsCurrent role) && (count (Replicas r) (RsName role) =? RsCurrent role)
        then with_reason ReasonPacingBounded (RsName role) (with_blocking ReasonPacingBounded r) else r) r roles
  else r.

Definition with_now (now : Z) (input : ConstraintInput) : ConstraintInput :=
  {| Spec := Spec input; InRoles := InRoles input; HasActiveRetirement := HasActiveRetirement input;
     InAbortCooldown := InAbortCooldown input; CooldownUntil := CooldownUntil input; Now := now |}.

Definition SolveModelDeploymentScalerConstraints (input : ConstraintInput) : outcome ConstraintResult :=
  let input := if Now input =? 0 then with_now clock input else input in
  let states := states_map (InRoles input) in
  let r := foldl (role_step input) empty_result (InRoles input) in
  if bool_decide (BlockingReason r = ReasonBoundsConflict) then Done r
  else
    match conflict_names r (InRoles input) [] with
    | Some names =>
        Done (foldl (fun r name => with_reason ReasonBoundsConflict name r) (with_blocking ReasonBoundsConflict r) names)
    | None =>
        let roleNames := merge_sort String.le (RsName <$> InRoles input) in
        let graph := ratioGraph (Ratios (Spec input)) in
        let* acc := foldl (component_step input states graph) (Done (r, ∅)) roleNames in
        Done (blocking_from_pacing (InRoles input) (blocking_from_reasons acc.1))
    end.
End solver.
