(* ===== verification/ScalerIntervals.v ===== *)
(** * What the history and the interval of a role guarantee

    Theorems about the first half of ScalerConstraints.v: pruning the history is
    invisible to the windows while it stays under its cap, and the interval a
    role may move in stays inside the bounds, contains the current count, and
    respects every guard. *)

From stdpp Require Import prelude gmap strings list sorting.
From Stdlib Require Import SpecFloat Sorted.
From S2P Require Import Prelude GoFloat ScalerSpec ScalerConstraints.

(** ** The history *)

Definition sample_in (cutoff now : Z) (s : StabilizationSample) : Prop := cutoff <= STimestamp s <= now.
#[export] Instance sample_in_dec cutoff now s : Decision (sample_in cutoff now s).
Proof. unfold sample_in. apply _. Defined.

(** The samples of a window, the only ones a maximum reads. *)
Definition windowed (cutoff now : Z) (h : list StabilizationSample) : list StabilizationSample :=
  filter (sample_in cutoff now) h.

(** Samples arrive in the order of time. *)
Definition in_order (h : list StabilizationSample) : Prop :=
  StronglySorted (fun a b => STimestamp a < STimestamp b) h.

Lemma maximum_windowed cutoff now acc h :
  foldl (maximum_step cutoff now) acc h = foldl (maximum_step cutoff now) acc (windowed cutoff now h).
Proof.
  unfold windowed. revert acc. induction h as [|s h IH]; intros acc; [done|]. simpl.
  rewrite filter_cons. unfold maximum_step at 2. unfold sample_in.
  destruct (Z.ltb_spec (STimestamp s) cutoff); [rewrite decide_False by lia; apply IH|].
  destruct (Z.ltb_spec now (STimestamp s)); [rewrite decide_False by lia; apply IH|].
  rewrite decide_True by lia. simpl. rewrite IH. f_equal. unfold maximum_step.
  destruct (Z.ltb_spec (STimestamp s) cutoff); [lia|]. destruct (Z.ltb_spec now (STimestamp s)); [lia|]. done.
Qed.

(** The running maximum is attained and bounds the samples of the window. *)
Lemma maximum_step_spec cutoff now h :
  let r := rollingMaximum h now (now - cutoff) in
  (r.2 = true <-> Exists (sample_in cutoff now) h) /\
  (r.2 = true -> Forall (fun s => sample_in cutoff now s -> SReplicas s <= r.1) h) /\
  (r.2 = true -> Exists (fun s => sample_in cutoff now s /\ SReplicas s = r.1) h).
Proof.
  unfold rollingMaximum. replace (now - (now - cutoff)) with cutoff by lia. cbv zeta.
  induction h as [|s h IH] using rev_ind.
  { simpl. split; [split; [done|]; by intros ?%Exists_nil|]. done. }
  rewrite foldl_app. simpl. destruct IH as (H1 & H2 & H3).
  set (r := foldl (maximum_step cutoff now) (0, false) h) in *. unfold maximum_step.
  assert (forall P, Exists P (h ++ [s]) <-> Exists P h \/ P s) as Hex.
  { intros P. rewrite Exists_app, Exists_cons, Exists_nil. tauto. }
  assert (forall P, Forall P (h ++ [s]) <-> Forall P h /\ P s) as Hall.
  { intros P. rewrite Forall_app, Forall_cons. split; intros [? ?]; repeat split; try tauto. constructor. }
  setoid_rewrite Hex. setoid_rewrite Hall. unfold sample_in in *.
  destruct (Z.ltb_spec (STimestamp s) cutoff); simpl.
  { split; [rewrite H1; split; [by left|intros [?|?]; [done|lia]]|].
    split; [intros Hr; split; [by apply H2|lia]|]. intros Hr. left. by apply H3. }
  destruct (Z.ltb_spec now (STimestamp s)); simpl.
  { split; [rewrite H1; split; [by left|intros [?|?]; [done|lia]]|].
    split; [intros Hr; split; [by apply H2|lia]|]. intros Hr. left. by apply H3. }
  destruct (r.2) eqn:Er; simpl.
  - destruct (Z.ltb_spec r.1 (SReplicas s)); simpl; rewrite ?Er.
    + split; [split; [right; lia|done]|]. split; [|right; lia]. intros _. split; [|lia].
      eapply Forall_impl; [by apply H2|]. simpl. intros x Hx Hi. specialize (Hx Hi). lia.
    + split; [split; [right; lia|done]|]. split; [intros _; split; [by apply H2|lia]|]. intros _. left. by apply H3.
  - split; [split; [right; lia|done]|]. split; [|right; lia]. intros _. split; [|lia].
    apply Forall_forall. intros x Hx Hi. exfalso.
    assert (false = true); [|done]. apply H1. apply Exists_exists. eauto.
Qed.

(** The loop of the pruning. *)
Lemma prune_fold cutoff now h acc :
  foldl (prune_step cutoff now) acc h =
    (match last (filter (fun s => STimestamp s <= cutoff) h) with Some a => Some a | None => acc.1 end,
     acc.2 ++ filter (fun s => cutoff < STimestamp s <= now) h).
Proof.
  revert acc. induction h as [|s h IH]; intros [a p]; [by rewrite app_nil_r|]. simpl. rewrite IH. unfold prune_step.
  rewrite !filter_cons. destruct (Z.ltb_spec cutoff (STimestamp s)) as [Hc|Hc]; simpl.
  - rewrite (decide_False (P := STimestamp s <= cutoff)) by lia. destruct (Z.ltb_spec now (STimestamp s)); simpl.
    + by rewrite (decide_False (P := cutoff < STimestamp s <= now)) by lia.
    + rewrite (decide_True (P := cutoff < STimestamp s <= now)) by lia. by rewrite <- app_assoc.
  - rewrite (decide_True (P := STimestamp s <= cutoff)) by lia.
    rewrite (decide_False (P := cutoff < STimestamp s <= now)) by lia. rewrite last_cons. by destruct (last _).
Qed.

(** What pruning by time keeps: the last sample at or before the cutoff and
    those after it. *)
Definition pruned (cutoff now : Z) (h : list StabilizationSample) : list StabilizationSample :=
  match last (filter (fun s => STimestamp s <= cutoff) h) with
  | Some a => a :: filter (fun s => cutoff < STimestamp s <= now) h
  | None => filter (fun s => cutoff < STimestamp s <= now) h
  end.

Lemma prune_eq h now window :
  0 < window -> now <> 0 -> pruneStabilizationHistory h now window = cap_history (pruned (now - window) now h).
Proof.
  intros Hw Hn. unfold pruneStabilizationHistory, pruned. destruct h as [|s h]; [done|].
  rewrite (proj2 (Z.ltb_lt 0 window)) by lia. rewrite (proj2 (Z.eqb_neq now 0)) by done. cbn [andb negb].
  rewrite prune_fold. cbn [fst snd app]. by destruct (last _).
Qed.

Lemma cap_history_length h : (length (cap_history h) <= maxStabilizationSamples)%nat.
Proof.
  unfold cap_history, maxStabilizationSamples. case_bool_decide; [|lia].
  rewrite length_app, length_take, length_drop. lia.
Qed.

Lemma in_order_old cutoff now cutoff' h :
  in_order h -> cutoff <= cutoff' ->
  windowed cutoff' now (filter (fun s => STimestamp s <= cutoff) h) =
  windowed cutoff' now (match last (filter (fun s => STimestamp s <= cutoff) h) with Some a => [a] | None => [] end).
Proof.
  intros Ho Hc. induction h as [|s h IH] using rev_ind; [done|].
  assert (in_order h) as Hh by (eapply StronglySorted_app_1_l; exact Ho).
  rewrite filter_app, filter_cons, filter_nil. destruct (decide (STimestamp s <= cutoff)) as [Hs|Hs];
    [|rewrite app_nil_r; by apply IH].
  rewrite last_snoc. unfold windowed. rewrite filter_app. replace (filter _ (filter _ h)) with (@nil StabilizationSample); [done|].
  symmetry. apply filter_none. intros x [Hx Hin]%list_elem_of_filter Hi. unfold sample_in in Hi.
  assert (STimestamp x < STimestamp s); [|lia].
  apply (StronglySorted_app_1_elem_of _ _ _ x s Ho Hin). left.
Qed.

Lemma in_order_split cutoff h :
  in_order h -> h = filter (fun s => STimestamp s <= cutoff) h ++ filter (fun s => cutoff < STimestamp s) h.
Proof.
  induction 1 as [|s h Hs IH Ha]; [done|]. rewrite !filter_cons.
  destruct (decide (STimestamp s <= cutoff)) as [Hc|Hc].
  - rewrite (decide_False (P := cutoff < STimestamp s)) by lia. simpl. by f_equal.
  - rewrite (decide_True (P := cutoff < STimestamp s)) by lia.
    rewrite Forall_forall in Ha. rewrite (filter_none (fun s => STimestamp s <= cutoff)).
    + simpl. f_equal. rewrite IH at 1. rewrite (filter_none (fun s => STimestamp s <= cutoff)); [done|].
      intros x Hx. specialize (Ha x Hx). simpl in *. lia.
    + intros x Hx. specialize (Ha x Hx). simpl in *. lia.
Qed.

Lemma pruned_windowed cutoff cutoff' now h :
  in_order h -> cutoff <= cutoff' -> windowed cutoff' now (pruned cutoff now h) = windowed cutoff' now h.
Proof.
  intros Ho Hc. rewrite (in_order_split cutoff h Ho) at 2. unfold windowed at 2. rewrite filter_app.
  fold (windowed cutoff' now (filter (fun s => STimestamp s <= cutoff) h)). rewrite (in_order_old cutoff) by done.
  replace (filter (sample_in cutoff' now) (filter (fun s => cutoff < STimestamp s) h))
    with (windowed cutoff' now (filter (fun s => cutoff < STimestamp s <= now) h)).
  2: { unfold windowed. rewrite !list_filter_filter. apply list_filter_iff. unfold sample_in. intros x. lia. }
  unfold pruned. destruct (last _); [|done]. by unfold windowed; rewrite !filter_cons; case_decide.
Qed.

Lemma existsb_windowed cutoff now h :
  existsb (fun sample => negb (STimestamp sample <? cutoff) && negb (now <? STimestamp sample)) h =
  bool_decide (windowed cutoff now h <> []).
Proof.
  apply eq_true_iff_eq. rewrite bool_decide_eq_true, existsb_exists. unfold windowed. split.
  - intros (x & Hx & Hb) Hn. apply (filter_nil_not_elem_of _ h x Hn); [|by apply list_elem_of_In].
    apply andb_true_iff in Hb as [Hb1%negb_true_iff%Z.ltb_ge Hb2%negb_true_iff%Z.ltb_ge]. done.
  - intros Hn. destruct (filter (sample_in cutoff now) h) as [|x l] eqn:E; [done|].
    assert (x ∈ filter (sample_in cutoff now) h) as [[Hi1 Hi2] Hx]%list_elem_of_filter by (rewrite E; left).
    exists x. split; [by apply list_elem_of_In|].
    apply andb_true_iff. split; apply negb_true_iff, Z.ltb_ge; lia.
Qed.

Lemma existsb_old cutoff h :
  existsb (fun sample => negb (cutoff <? STimestamp sample)) h = true <->
  exists s, s ∈ h /\ STimestamp s <= cutoff.
Proof.
  rewrite existsb_exists. setoid_rewrite list_elem_of_In. split; intros (x & Hx & Hb); exists x;
    (split; [done|]); [by apply negb_true_iff, Z.ltb_ge in Hb|by apply negb_true_iff, Z.ltb_ge].
Qed.

Lemma pruned_old cutoff cutoff' now h :
  cutoff <= cutoff' <= now ->
  (exists s, s ∈ pruned cutoff now h /\ STimestamp s <= cutoff') <-> (exists s, s ∈ h /\ STimestamp s <= cutoff').
Proof.
  intros Hc. unfold pruned. set (old := filter (fun s => STimestamp s <= cutoff) h).
  assert (forall s, s ∈ old <-> STimestamp s <= cutoff /\ s ∈ h) as Hold
    by (intros s; unfold old; by rewrite list_elem_of_filter).
  split.
  - intros (s & Hs & Ht). exists s. split; [|done].
    assert (s ∈ old \/ s ∈ filter (fun s => cutoff < STimestamp s <= now) h) as [H|H].
    { destruct (last old) as [a|] eqn:E; [|by right]. apply elem_of_cons in Hs as [->|?]; [left|by right].
      by apply last_Some_elem_of. }
    + by apply Hold.
    + rewrite list_elem_of_filter in H. tauto.
  - intros (s & Hs & Ht). destruct (decide (STimestamp s <= cutoff)) as [Ho|Ho].
    + assert (s ∈ old) as Hin by (by apply Hold). destruct (last old) as [a|] eqn:E.
      * exists a. split; [left|]. apply last_Some_elem_of, Hold in E. lia.
      * apply last_None in E. rewrite E in Hin. by apply elem_of_nil in Hin.
    + exists s. split; [|done]. assert (s ∈ filter (fun s => cutoff < STimestamp s <= now) h)
        by (rewrite list_elem_of_filter; split; [lia|done]). destruct (last old); [by right|done].
Qed.

(** Pruning tick by tick leaves what pruning once would leave. *)
Lemma pruned_again cutoff cutoff' now now' h s :
  in_order h -> Forall (fun s => STimestamp s <= now) h -> cutoff <= cutoff' -> cutoff <= now -> now <= now' ->
  pruned cutoff' now' (pruned cutoff now h ++ [s]) = pruned cutoff' now' (h ++ [s]).
Proof.
  intros Ho Hf Hc Hcn Hn. set (N := filter (fun s => cutoff < STimestamp s <= now) h).
  set (O := filter (fun s => STimestamp s <= cutoff) h).
  assert (h = O ++ N) as Hh.
  { rewrite (in_order_split cutoff h Ho) at 1. unfold O, N. f_equal. apply filter_agree.
    rewrite Forall_forall in Hf. intros x Hx. specialize (Hf x Hx). simpl in *. lia. }
  set (A := match last O with Some a => [a] | None => [] end).
  assert (pruned cutoff now h = A ++ N) as -> by (unfold pruned, A; fold O N; by destruct (last O)).
  assert (forall P (HP : forall x, Decision (P x)), (forall x, x ∈ O -> P x) \/ (forall x, x ∈ O -> ~ P x) ->
    last (filter P A) = last (filter P O)) as Hlast.
  { intros P HP [Hall|Hno].
    - assert (filter P O = O) as -> by (by apply filter_all).
      unfold A. destruct (last O) as [a|] eqn:E; [|done]. rewrite filter_cons_True; [done|].
      apply Hall. by apply last_Some_elem_of.
    - rewrite (filter_none P O) by done. rewrite (filter_none P A); [done|]. intros x Hx. apply Hno.
      unfold A in Hx. destruct (last O) as [a|] eqn:E; [|by apply elem_of_nil in Hx].
      apply list_elem_of_singleton in Hx as ->. by apply last_Some_elem_of. }
  assert (forall x, x ∈ O -> STimestamp x <= cutoff) as HO.
  { intros x Hx. unfold O in Hx. rewrite list_elem_of_filter in Hx. tauto. }
  assert (filter (fun s => cutoff' < STimestamp s <= now') A = [] /\ filter (fun s => cutoff' < STimestamp s <= now') O = []) as [HA HO'].
  { split; apply filter_none; intros x Hx; [|specialize (HO x Hx); lia].
    unfold A in Hx. destruct (last O) as [a|] eqn:E; [|by apply elem_of_nil in Hx].
    apply list_elem_of_singleton in Hx as ->. apply last_Some_elem_of, HO in E. lia. }
  transitivity (pruned cutoff' now' ((O ++ N) ++ [s])); [|by rewrite <- Hh].
  unfold pruned. rewrite <- !app_assoc, !filter_app, HA, HO', !last_app_last.
  rewrite (Hlast (fun s => STimestamp s <= cutoff')); [done|]. left. intros x Hx. specialize (HO x Hx). lia.
Qed.

(** What is remembered when a sample is added at every tick. *)
Definition remember (window : Z) (h : list StabilizationSample) (s : StabilizationSample) : list StabilizationSample :=
  pruneStabilizationHistory (h ++ [s]) (STimestamp s) window.
Definition remembered (window : Z) (l : list StabilizationSample) : list StabilizationSample :=
  foldl (remember window) [] l.

(** No window of the stream holds more samples than the cap. *)
Definition fits (window : Z) (l : list StabilizationSample) : Prop :=
  forall k s, l !! k = Some s ->
    (length (pruned (STimestamp s - window) (STimestamp s) (take (S k) l)) <= maxStabilizationSamples)%nat.

Lemma cap_history_id h : (length h <= maxStabilizationSamples)%nat -> cap_history h = h.
Proof. intros. unfold cap_history. case_bool_decide; [lia|done]. Qed.

Lemma in_order_last h s s' : in_order (h ++ [s]) -> s' ∈ h -> STimestamp s' < STimestamp s.
Proof. intros Ho Hin. apply (StronglySorted_app_1_elem_of _ _ _ s' s Ho Hin). left. Qed.

Lemma remembered_exact window l s :
  0 < window -> in_order l -> Forall (fun s => 0 < STimestamp s) l -> fits window l -> last l = Some s ->
  remembered window l = pruned (STimestamp s - window) (STimestamp s) l.
Proof.
  intros Hw. revert s. induction l as [|s0 l IH] using rev_ind; intros s Ho Hp Hfit Hl; [done|].
  rewrite last_snoc in Hl. injection Hl as ->. unfold remembered. rewrite foldl_app. simpl.
  fold (remembered window l). unfold remember.
  assert (in_order l) as Hol by (eapply StronglySorted_app_1_l; exact Ho).
  apply Forall_app in Hp as [Hp Hps]. rewrite Forall_singleton in Hps. simpl in Hps.
  rewrite prune_eq by lia.
  assert (pruned (STimestamp s - window) (STimestamp s) (remembered window l ++ [s]) =
          pruned (STimestamp s - window) (STimestamp s) (l ++ [s])) as ->.
  { destruct (last l) as [s1|] eqn:E; [|by apply last_None in E; subst l].
    assert (Forall (fun x => STimestamp x <= STimestamp s1) l) as Hle.
    { apply last_Some in E as [k ->]. apply Forall_app. split; [|repeat constructor; lia].
      apply Forall_forall. intros x Hx. pose proof (in_order_last k s1 x Hol Hx). lia. }
    assert (STimestamp s1 < STimestamp s) by (apply (in_order_last l); [done|by apply last_Some_elem_of]).
    rewrite (IH s1); [|done|done| |done].
    - apply pruned_again; [done|done|lia|lia|lia].
    - intros k x Hk. specialize (Hfit k x). rewrite take_app_le in Hfit by (apply lookup_lt_Some in Hk; lia).
      apply Hfit. rewrite lookup_app_l; [done|]. by eapply lookup_lt_Some. }
  apply cap_history_id. specialize (Hfit (length l) s). rewrite take_ge in Hfit by (rewrite length_app; simpl; lia).
  apply Hfit. by rewrite lookup_app_r, Nat.sub_diag.
Qed.

(** Pruning is invisible.  Feeding the recommendations to the history tick by
    tick, each time pruned to the window, answers every question about a window up
    to the pruned one like the whole stream of recommendations would: the maximum
    over the window and whether the history spans it are the same, as long as no
    window holds more than 256 samples. *)
Theorem pruning_invisible window window' l s :
  in_order l -> Forall (fun s => 0 < STimestamp s) l -> fits window l -> last l = Some s ->
  0 < window' <= window ->
  rollingMaximum (remembered window l) (STimestamp s) window' = rollingMaximum l (STimestamp s) window' /\
  historySpans (remembered window l) (STimestamp s) window' = historySpans l (STimestamp s) window'.
Proof.
  intros Ho Hp Hf Hl Hw. rewrite (remembered_exact window l s) by (done || lia). split.
  - unfold rollingMaximum. rewrite maximum_windowed, pruned_windowed by (done || lia). by rewrite <- maximum_windowed.
  - unfold historySpans. rewrite (proj2 (Z.leb_gt window' 0)) by lia. rewrite !existsb_windowed, pruned_windowed by (done || lia).
    f_equal. apply eq_true_iff_eq. rewrite !existsb_old. apply pruned_old. lia.
Qed.

(** ** Steps in percent are not negative *)

Definition not_negative (f : float64) : Prop :=
  match f with S754_finite s _ _ | S754_infinity s | S754_zero s => s = false | S754_nan => True end.

Lemma round_aux_sign m e l : not_negative (binary_round_aux 53 1024 false m e l).
Proof.
  unfold binary_round_aux. destruct (shr_fexp _ _ _ _ _) as [r e']. destruct (shr_fexp _ _ _ _ _) as [r' e''].
  destruct (shr_m r'); simpl; [done| |done]. by destruct (e'' <=? _).
Qed.

Lemma to_float_sign z : 0 <= z -> not_negative (to_float z).
Proof.
  intros Hz. unfold to_float, binary_normalize. destruct z; [done| |lia]. unfold binary_round.
  destruct (shl_align _ _ _). apply round_aux_sign.
Qed.

Lemma fmul_sign x y : not_negative x -> not_negative y -> not_negative (fmul x y).
Proof.
  destruct x as [[]|[]| |[] mx ex], y as [[]|[]| |[] my ey]; simpl; try done. intros _ _. apply round_aux_sign.
Qed.

Lemma fdiv_sign x y : not_negative x -> not_negative y -> not_negative (fdiv x y).
Proof.
  destruct x as [[]|[]| |[] mx ex], y as [[]|[]| |[] my ey]; simpl; try done. intros _ _. unfold fdiv, SFdiv.
  match goal with |- context [SFdiv_core_binary ?p ?q ?a ?b ?c ?d] =>
    destruct (SFdiv_core_binary p q a b c d) as [[m e] l] end. apply round_aux_sign.
Qed.

Lemma math_ceil_sign x : not_negative x -> not_negative (math_ceil x).
Proof.
  destruct x as [| | |[] m e]; simpl; try done. intros _. destruct (0 <=? e) eqn:E; [done|].
  apply to_float_sign. apply Z.leb_gt in E. assert (0 < 2 ^ (- e)) by (apply Z.pow_pos_nonneg; lia).
  assert (- Z.pos m / 2 ^ (- e) <= 0); [|lia]. apply Z.div_le_upper_bound; lia.
Qed.

Lemma to_i32_sign elsewhere x : not_negative x -> 0 <= to_i32 elsewhere x \/ to_i32 elsewhere x = elsewhere x.
Proof.
  unfold to_i32, to_int. intros Hx. destruct (finite x && _ && _); [|by right]. left.
  destruct x as [| | |[] m e]; simpl in *; try lia. destruct (0 <=? e) eqn:E.
  - apply Z.leb_le in E. pose proof (Z.pow_nonneg 2 e ltac:(lia)). lia.
  - apply Z.leb_gt in E. apply Z.quot_pos; [lia|]. apply Z.pow_pos_nonneg; lia.
Qed.

(** ** Intervals *)

(** What platforms convert a float64 out of range to: the least int32 (amd64) or
    the nearest one (arm64). *)
Definition platform (elsewhere : float64 -> Z) : Prop :=
  forall f, is_i32 (elsewhere f) /\ (elsewhere f = - 2 ^ 31 \/ (not_negative f -> 0 <= elsewhere f)).

Section intervals.
Context (elsewhere32 : float64 -> Z) (Hplatform : platform elsewhere32).

Lemma percent_cases current v :
  0 <= current -> 0 <= v ->
  let n := to_i32 elsewhere32 (math_ceil (fdiv (fmul (to_float current) (to_float v)) (to_float 100))) in
  is_i32 n /\ (0 <= n \/ n = - 2 ^ 31).
Proof.
  intros Hc Hv. cbv zeta. set (f := math_ceil _).
  assert (not_negative f) as Hf.
  { apply math_ceil_sign, fdiv_sign; [apply fmul_sign; apply to_float_sign; lia|apply to_float_sign; lia]. }
  split; [apply to_i32_range; intros g; apply Hplatform|].
  destruct (to_i32_sign elsewhere32 f Hf) as [?| ->]; [by left|]. destruct (Hplatform f) as [_ [?|?]]; auto.
Qed.

Lemma stepAmount_cases current policy :
  0 <= current -> is_i32 (SValue policy) ->
  is_i32 (stepAmount elsewhere32 current policy) /\
  (0 <= stepAmount elsewhere32 current policy \/ stepAmount elsewhere32 current policy = - 2 ^ 31).
Proof.
  intros Hc Hv. unfold stepAmount. destruct (Z.leb_spec (SValue policy) 0); [unfold is_i32; lia|].
  case_bool_decide; [apply percent_cases; lia|]. split; [done|left; lia].
Qed.

(** A step down never goes up, also when it overflows. *)
Lemma step_down current n :
  1 <= current < 2 ^ 31 -> is_i32 n -> 0 <= n \/ n = - 2 ^ 31 -> i32 (current - n) <= current.
Proof.
  unfold is_i32. intros Hc Hn [?| ->]; [rewrite i32_small by (unfold is_i32; lia); lia|].
  replace (current - - 2 ^ 31) with (current + 2 ^ 31) by lia. unfold wrap_signed. change (32 - 1) with 31.
  replace (current + 2 ^ 31 + 2 ^ 31) with (current + 1 * 2 ^ 32) by lia. rewrite Z.mod_add by lia.
  rewrite Z.mod_small by lia. lia.
Qed.

Definition effective_minimum (bound : RoleBounds) : Z := if MinReplicas bound <=? 0 then 1 else MinReplicas bound.

Definition down_window (input : ConstraintInput) : Z :=
  let window := seconds (DownStabilizationWindowSeconds (ScaleDown (Behavior (Spec input)))) in
  if window <=? 0 then defaultScaleDownWindow else window.

Definition in_cooldown (input : ConstraintInput) : bool :=
  InAbortCooldown input || (negb (CooldownUntil input =? 0) && (Now input <? CooldownUntil input)).

(** A decode role that was scaled up within its grace. *)
Definition in_grace (input : ConstraintInput) (role : RoleState) : bool :=
  let grace := seconds (DecodePostScaleUpGraceSeconds (ScaleDown (Behavior (Spec input)))) in
  let grace := if grace <=? 0 then defaultDecodeGrace else grace in
  bool_decide (RsKind role = RoleKindDecode) && negb (RsLastScaleUpTime role =? 0)
  && (Z.max (- 2 ^ 63) (Z.min (2 ^ 63 - 1) (Now input - RsLastScaleUpTime role)) <? grace).

(** The circumstances in which a role may not go down. *)
Definition down_held (input : ConstraintInput) (role : RoleState) (h : list StabilizationSample) : Prop :=
  RsHoldScaleDown role = true \/ RsCompleteCoverage role = false \/ HasActiveRetirement input = true \/
  in_cooldown input = true \/ in_grace input role = true \/ historySpans h (Now input) (down_window input) = false.

Definition step_in_range (policy : option StepPolicy) : Prop :=
  match policy with Some p => is_i32 (SValue p) | None => True end.

Lemma interval_floor_spec input role h current minimum :
  1 <= minimum <= current -> current < 2 ^ 31 -> step_in_range (DownStepPolicy (ScaleDown (Behavior (Spec input)))) ->
  let f := interval_floor elsewhere32 input role h current minimum in
  let m := rollingMaximum h (Now input) (down_window input) in
  minimum <= f <= current /\ (down_held input role h -> f = current) /\
  (m.2 = true -> Z.min current m.1 <= f) /\
  (DownStepPolicy (ScaleDown (Behavior (Spec input))) = None -> current - 1 <= f).
Proof.
  intros Hm Hc Hs. cbv zeta. unfold interval_floor. cbv zeta.
  fold (down_window input). fold (in_cooldown input). fold (in_grace input role).
  set (step := match DownStepPolicy _ with Some p => _ | None => _ end).
  assert (step <= current /\ (DownStepPolicy (ScaleDown (Behavior (Spec input))) = None -> step = current - 1)) as [Hstep Hnone].
  { unfold step. destruct (DownStepPolicy _) as [p|].
    - split; [|done]. destruct (stepAmount_cases current p ltac:(lia) Hs) as [? ?]. by apply step_down; [lia| |].
    - rewrite i32_small by (unfold is_i32; lia). split; [lia|done]. }
  unfold down_held. destruct (rollingMaximum h (Now input) (down_window input)) as [m ok]. simpl.
  destruct (historySpans h (Now input) (down_window input)); simpl;
    destruct (RsHoldScaleDown role), (RsCompleteCoverage role), (HasActiveRetirement input), (in_cooldown input),
      (in_grace input role), ok; simpl; try destruct (Z.leb_spec current m);
    repeat split; intros; try lia; try (specialize (Hnone ltac:(done)); lia);
    repeat match goal with H : _ \/ _ |- _ => destruct H end; try discriminate; lia.
Qed.

Lemma interval_ceil_spec input role h current maximum :
  current <= maximum ->
  let c := interval_ceil elsewhere32 input role h current maximum in
  current <= c <= maximum /\ (RsPending role = true -> c = current) /\
  (0 < UpStabilizationWindowSeconds (ScaleUp (Behavior (Spec input))) -> current < RsRaw role ->
   historySpans h (Now input) (seconds (UpStabilizationWindowSeconds (ScaleUp (Behavior (Spec input))))) = false ->
   c = current).
Proof.
  intros Hm. cbv zeta. unfold interval_ceil. cbv zeta.
  pose proof (clamp_range (step_ceil elsewhere32 (ScaleUp (Behavior (Spec input))) current) current maximum Hm).
  set (s := clamp _ _ _) in *.
  destruct (RsPending role), (Z.ltb_spec 0 (UpStabilizationWindowSeconds (ScaleUp (Behavior (Spec input))))),
    (Z.ltb_spec current (RsRaw role)), (historySpans _ _ _); simpl; repeat split; intros; try discriminate; lia.
Qed.

(** What [roleInterval] promises about a role. *)
Record interval_sound (input : ConstraintInput) (role : RoleState) (bound : RoleBounds)
    (h : list StabilizationSample) (i : Interval) : Prop := {
  sound_range : let current := clamp (RsCurrent role) (effective_minimum bound) (MaxReplicas bound) in
    effective_minimum bound <= Floor i <= current /\ current <= Ceil i <= MaxReplicas bound;
  sound_held : down_held input role h ->
    Floor i = clamp (RsCurrent role) (effective_minimum bound) (MaxReplicas bound);
  sound_window : let m := rollingMaximum h (Now input) (down_window input) in
    m.2 = true -> Z.min (clamp (RsCurrent role) (effective_minimum bound) (MaxReplicas bound)) m.1 <= Floor i;
  sound_step : DownStepPolicy (ScaleDown (Behavior (Spec input))) = None ->
    clamp (RsCurrent role) (effective_minimum bound) (MaxReplicas bound) - 1 <= Floor i;
  sound_pending : RsPending role = true ->
    Ceil i = clamp (RsCurrent role) (effective_minimum bound) (MaxReplicas bound) }.

Lemma roleInterval_sound input role bound h :
  effective_minimum bound <= MaxReplicas bound < 2 ^ 31 ->
  step_in_range (DownStepPolicy (ScaleDown (Behavior (Spec input)))) ->
  interval_sound input role bound h (roleInterval elsewhere32 input role bound h).
Proof.
  intros Hb Hs. unfold roleInterval. cbv zeta. fold (effective_minimum bound).
  assert (1 <= effective_minimum bound) by (unfold effective_minimum; zcases).
  rewrite (proj2 (Z.ltb_ge (MaxReplicas bound) (effective_minimum bound))) by lia.
  pose proof (clamp_range (RsCurrent role) (effective_minimum bound) (MaxReplicas bound) ltac:(lia)) as Hc.
  set (current := clamp (RsCurrent role) _ _) in *.
  pose proof (interval_floor_spec input role h current (effective_minimum bound) ltac:(lia) ltac:(lia) Hs) as (F1 & F2 & F3 & F4).
  pose proof (interval_ceil_spec input role h current (MaxReplicas bound) ltac:(lia)) as (C1 & C2 & C3).
  rewrite !clamp_id by lia. split; fold current; simpl; auto; lia.
Qed.

(** Steps counted in replicas, the default or a positive one, without a wait. *)
Definition steps_up (up : ScaleUpRules) : Prop :=
  UpStepPolicy up = None /\ UpStabilizationWindowSeconds up <= 0 /\
  (MaxStepReplicas up = 0 /\ MaxStepPercent up = 0 \/ 0 < MaxStepReplicas up < 2 ^ 30).

(** Such a step leaves room to grow. *)
Lemma roleInterval_grows input role bound h :
  effective_minimum bound <= RsCurrent role -> RsCurrent role < MaxReplicas bound <= 2 ^ 30 ->
  steps_up (ScaleUp (Behavior (Spec input))) -> RsPending role = false ->
  RsCurrent role + 1 <= Ceil (roleInterval elsewhere32 input role bound h).
Proof.
  intros Hc Hm (Hp & Hw & Hs) Hpend. unfold roleInterval. cbv zeta. fold (effective_minimum bound).
  assert (1 <= effective_minimum bound) by (unfold effective_minimum; zcases).
  rewrite (proj2 (Z.ltb_ge (MaxReplicas bound) (effective_minimum bound))) by lia.
  rewrite (clamp_id (RsCurrent role)) by lia. simpl. unfold interval_ceil. rewrite Hpend.
  rewrite (proj2 (Z.ltb_ge 0 (UpStabilizationWindowSeconds (ScaleUp (Behavior (Spec input)))))) by lia. cbn [andb].
  set (up := ScaleUp (Behavior (Spec input))) in *.
  assert (RsCurrent role + 1 <= step_ceil elsewhere32 up (RsCurrent role)) as Hstep.
  { unfold step_ceil. rewrite Hp. destruct Hs as [[-> ->]|Hs].
    - simpl. rewrite i32_small by (unfold is_i32; lia). lia.
    - destruct (Z.eqb_spec (MaxStepReplicas up) 0); [lia|]. cbn [andb].
      rewrite (proj2 (Z.ltb_lt 0 (MaxStepReplicas up))) by lia. rewrite i32_small by (unfold is_i32; lia).
      destruct (0 <? MaxStepPercent up); lia. }
  set (c := step_ceil elsewhere32 up (RsCurrent role)) in *.
  assert (RsCurrent role + 1 <= clamp c (RsCurrent role) (MaxReplicas bound) <= MaxReplicas bound) by (unfold clamp; zcases).
  rewrite clamp_id; lia.
Qed.
End intervals.

(** ** The cap of the history *)

Module HistoryExample.
Definition sample (at_second replicas : Z) : StabilizationSample :=
  {| STimestamp := at_second * 10 ^ 9; SReplicas := replicas |}.

(** Two recommendations, then a peak. *)
Definition short : list StabilizationSample := [sample 10 3; sample 20 7; sample 400 2].

Lemma pruning_invisible_witness :
  rollingMaximum (remembered (300 * 10 ^ 9) short) (400 * 10 ^ 9) (300 * 10 ^ 9) =
    rollingMaximum short (400 * 10 ^ 9) (300 * 10 ^ 9) /\
  historySpans (remembered (300 * 10 ^ 9) short) (400 * 10 ^ 9) (300 * 10 ^ 9) =
    historySpans short (400 * 10 ^ 9) (300 * 10 ^ 9).
Proof.
  apply (pruning_invisible (300 * 10 ^ 9) (300 * 10 ^ 9) short (sample 400 2)).
  - repeat constructor.
  - repeat constructor.
  - intros k s Hk. transitivity (length short); [|vm_compute; lia].
    destruct k as [|[|[|k]]]; simpl in Hk; [injection Hk as <-|injection Hk as <-|injection Hk as <-|done];
      vm_compute; lia.
  - reflexivity.
  - lia.
Defined.

(** A tick every 5 seconds for half an hour: one recommendation of 9 replicas
    after 100 seconds, and of 1 replica otherwise. *)
Definition ticks : list StabilizationSample :=
  (fun n => sample (5 * Z.of_nat n) (if Nat.eqb n 20 then 9 else 1)) <$> seq 1 361.

(** Half an hour is the longest window a specification may ask for, 5 seconds
    the shortest interval. *)
Definition half_hour : Z := 1800 * 10 ^ 9.
Definition spec : PolicySpec :=
  {| Roles := [{| BName := "server"; MinReplicas := 1; MaxReplicas := 10 |}]; Ratios := [];
     Behavior := {| ScaleUp := {| UpStabilizationWindowSeconds := 0; MaxStepReplicas := 0; MaxStepPercent := 0;
                                  UpStepPolicy := None |};
                    ScaleDown := {| DownStabilizationWindowSeconds := 1800; CooldownAfterAbortSeconds := 0;
                                    DecodePostScaleUpGraceSeconds := 0; DownStepPolicy := None |} |} |}.
Definition role : RoleState :=
  {| RsName := "server"; RsKind := "Server"; RsCurrent := 5; RsRaw := 1; RsHoldScaleDown := false;
     RsCompleteCoverage := true; RsPending := false; RsLastScaleUpTime := 0; RsHistory := [] |}.
Definition input : ConstraintInput :=
  {| Spec := spec; InRoles := [role]; HasActiveRetirement := false; InAbortCooldown := false;
     CooldownUntil := 0; Now := 1805 * 10 ^ 9 |}.
Definition bound : RoleBounds := {| BName := "server"; MinReplicas := 1; MaxReplicas := 10 |}.

(** The cap forgets the middle of a long window.  At the shortest interval
    and the longest window the history that is pruned tick by tick has lost a
    recommendation of 9 replicas that lies inside the window, and the role may go
    down to 4, while the window as a whole holds it at 5. *)
Theorem capped_window_forgets :
  rollingMaximum ticks (Now input) half_hour = (9, true) /\
  rollingMaximum (remembered half_hour ticks) (Now input) half_hour = (1, true) /\
  Floor (roleInterval (fun _ => - 2 ^ 31) input role bound ticks) = 5 /\
  Floor (roleInterval (fun _ => - 2 ^ 31) input role bound (remembered half_hour ticks)) = 4.
Proof. vm_compute. repeat split. Qed.
End HistoryExample.
