(* ===== verification/ScalerSolver.v ===== *)
(** * What the constraint solver finds

    Theorems about the second half of ScalerConstraints.v: components of the
    ratio graph, the search as the best of an enumeration, and the solver as a
    whole. *)

From stdpp Require Import prelude gmap strings list sorting.
From Stdlib Require Import SpecFloat.
From S2P Require Import Prelude GoFloat ScalerSpec ScalerConstraints ScalerIntervals.

(** ** The ratio graph *)

(** A ratio couples two roles. *)
Definition adjacent (ratios : list RoleRatio) (a b : string) : Prop :=
  exists ratio, ratio ∈ ratios /\
    (NumeratorRole ratio = a /\ DenominatorRole ratio = b \/ NumeratorRole ratio = b /\ DenominatorRole ratio = a).

Abbreviation connected ratios := (rtc (adjacent ratios)).

Lemma adjacent_sym ratios a b : adjacent ratios a b -> adjacent ratios b a.
Proof. intros (r & Hr & H). exists r. split; [done|]. tauto. Qed.

Lemma connected_sym ratios a b : connected ratios a b -> connected ratios b a.
Proof.
  induction 1 as [|a b c Hab Hbc IH]; [done|]. eapply rtc_r; [exact IH|]. by apply adjacent_sym.
Qed.

Lemma neighbors_insert graph k l a :
  neighbors (<[k := l]> graph) a = if decide (k = a) then l else neighbors graph a.
Proof.
  unfold neighbors. destruct (decide (k = a)) as [->|?]; [by rewrite lookup_insert_eq|by rewrite lookup_insert_ne].
Qed.

Lemma neighbors_spec ratios a b : b ∈ neighbors (ratioGraph ratios) a <-> adjacent ratios a b.
Proof.
  unfold ratioGraph, adjacent. revert a b. induction ratios as [|r ratios IH] using rev_ind; intros a b.
  { simpl. unfold neighbors. rewrite lookup_empty. split; [by intros ?%elem_of_nil|]. by intros (? & ?%elem_of_nil & _). }
  rewrite foldl_app. simpl. rewrite !neighbors_insert.
  setoid_rewrite elem_of_app. setoid_rewrite list_elem_of_singleton.
  assert ((exists ratio, (ratio ∈ ratios \/ ratio = r) /\
      (NumeratorRole ratio = a /\ DenominatorRole ratio = b \/ NumeratorRole ratio = b /\ DenominatorRole ratio = a)) <->
    b ∈ neighbors (foldl (fun graph ratio =>
        <[DenominatorRole ratio := neighbors (<[NumeratorRole ratio := neighbors graph (NumeratorRole ratio) ++ [DenominatorRole ratio]]> graph)
            (DenominatorRole ratio) ++ [NumeratorRole ratio]]>
        (<[NumeratorRole ratio := neighbors graph (NumeratorRole ratio) ++ [DenominatorRole ratio]]> graph)) ∅ ratios) a
      \/ (NumeratorRole r = a /\ DenominatorRole r = b \/ NumeratorRole r = b /\ DenominatorRole r = a)) as ->.
  { rewrite IH. split; [intros (x & [?| ->] & ?); eauto|]. intros [(x & ? & ?)|?]; eauto. }
  destruct (decide (DenominatorRole r = a)) as [Hd|Hd], (decide (NumeratorRole r = a)) as [Hn|Hn];
    destruct (decide (NumeratorRole r = DenominatorRole r)) as [He|He]; subst;
    rewrite ?elem_of_app, ?list_elem_of_singleton; try congruence; try tauto.
  all: rewrite ?He in *; rewrite ?elem_of_app, ?list_elem_of_singleton; intuition congruence.
Qed.

(** *** Depth-first search *)

Section search.
Context (graph : gmap string (list string)) (nodes : gset string).
Context (Hnodes : forall a b, b ∈ neighbors graph a -> b ∈ nodes).

Abbreviation edge := (fun a b => b ∈ neighbors graph a).

(** What a call of [connectedComponent] leaves, from [start] with [seen]. *)
Record found (start : string) (seen : gset string) (component : list string) (seen' : gset string) : Prop := {
  found_seen : seen' = seen ∪ list_to_set component;
  found_nodup : NoDup component;
  found_start : start ∈ component;
  found_in : forall x, x ∈ component -> x ∉ seen /\ x ∈ nodes /\ rtc edge start x }.

Lemma found_elem start seen component seen' x : found start seen component seen' -> x ∈ component -> x ∈ seen'.
Proof. intros [-> _ _ _] Hx. by apply elem_of_union_r, elem_of_list_to_set. Qed.

Lemma found_sub start seen component seen' : found start seen component seen' -> seen ⊆ seen'.
Proof. intros [-> _ _ _]. apply union_subseteq_l. Qed.

Lemma found_extend start seen component seen' next found' seen'' :
  found start seen component seen' -> edge start next -> found next seen' found' seen'' ->
  found start seen (component ++ found') seen''.
Proof.
  intros F1 He F2. pose proof F1 as [S1 N1 T1 I1]. pose proof F2 as [S2 N2 T2 I2]. split.
  - rewrite S2, S1, list_to_set_app_L. by rewrite assoc_L by apply _.
  - apply NoDup_app. split; [done|]. split; [|done]. intros x Hx Hx'. destruct (I2 x Hx') as (Hn & _).
    apply Hn. by eapply found_elem.
  - apply elem_of_app. by left.
  - intros x [Hx|Hx]%elem_of_app; [by apply I1|]. destruct (I2 x Hx) as (Hn & ? & Hr).
    split; [intros Hx'; apply Hn; by apply (found_sub _ _ _ _ F1)|].
    split; [done|]. eapply rtc_l; [exact He|exact Hr].
Qed.

Lemma dfs_found fuel start seen :
  start ∈ nodes -> start ∉ seen -> (size (nodes ∖ seen) <= fuel)%nat ->
  let r := connectedComponent fuel graph start seen in
  found start seen r.1 r.2 /\ (forall x y, x ∈ r.1 -> edge x y -> y ∈ r.2).
Proof.
  revert start seen. induction fuel as [|fuel IH]; intros start seen Hin Hns Hsize.
  { exfalso. assert (nodes ∖ seen = ∅) by (apply leibniz_equiv, size_empty_iff; lia). set_solver. }
  cbv zeta. cbn [connectedComponent].
  set (step := fun acc next => if bool_decide (next ∈ acc.2) then acc else _).
  assert (forall l acc, (forall y, y ∈ l -> edge start y) -> found start seen acc.1 acc.2 ->
    (forall x y, x ∈ acc.1 -> x <> start -> edge x y -> y ∈ acc.2) ->
    let r := foldl step acc l in
    found start seen r.1 r.2 /\ (forall x y, x ∈ r.1 -> x <> start -> edge x y -> y ∈ r.2) /\
    acc.2 ⊆ r.2 /\ (forall y, y ∈ l -> y ∈ r.2)) as Hloop.
  { intros l. induction l as [|next l IHl]; intros acc Hl Hf Hc; cbv zeta; cbn [foldl].
    { split; [done|]. split; [done|]. split; [done|]. by intros y ?%elem_of_nil. }
    assert (exists acc', step acc next = acc' /\ found start seen acc'.1 acc'.2 /\
      (forall x y, x ∈ acc'.1 -> x <> start -> edge x y -> y ∈ acc'.2) /\ acc.2 ⊆ acc'.2 /\ next ∈ acc'.2)
      as (acc' & -> & Hf' & Hc' & Hsub & Hnext).
    { unfold step. case_bool_decide as Hseen; [by exists acc|].
      assert (start ∈ acc.2) as Hst by (eapply found_elem; [done|apply Hf]).
      pose proof (found_sub _ _ _ _ Hf) as Hsub.
      pose proof (IH next acc.2) as IHn. cbv zeta in IHn. destruct (connectedComponent fuel graph next acc.2) as [found' seen''].
      destruct IHn as [Hfn Hcn].
      - apply (Hnodes start). apply Hl. left.
      - done.
      - assert (nodes ∖ acc.2 ⊂ nodes ∖ seen) as Hlt%subset_size; [|lia].
        clear -Hst Hsub Hin Hns. set_solver.
      - exists (acc.1 ++ found', seen''). split; [done|]. simpl in *.
        pose proof (found_sub _ _ _ _ Hfn) as Hsub'.
        split; [eapply found_extend; [done| |done]; apply Hl; left|].
        split; [|split; [done|eapply found_elem; [done|apply Hfn]]].
        intros x y [Hx|Hx]%elem_of_app Hne He; [|by eapply Hcn]. apply Hsub'. by eapply Hc. }
    destruct (IHl acc') as (R1 & R2 & R3 & R4); [intros y Hy; apply Hl; by right|done|done|].
    split; [done|]. split; [done|]. split; [by etransitivity|].
    intros y [->|Hy]%elem_of_cons; [by apply R3|by apply R4]. }
  destruct (Hloop (neighbors graph start) ([start], {[start]} ∪ seen)) as (R1 & R2 & R3 & R4); simpl.
  - done.
  - split; [clear; set_solver|apply NoDup_singleton|left|]. intros x ->%list_elem_of_singleton. split; [done|].
    split; [done|]. apply rtc_refl.
  - intros x y ->%list_elem_of_singleton. done.
  - split; [done|]. intros x y Hx He. destruct (decide (x = start)) as [->|Hne]; [by apply R4|by eapply R2].
Qed.
End search.

(** A set of roles no ratio leaves. *)
Definition closed (ratios : list RoleRatio) (seen : gset string) : Prop :=
  forall a b, a ∈ seen -> adjacent ratios a b -> b ∈ seen.

Lemma closed_connected ratios seen a b : closed ratios seen -> a ∈ seen -> connected ratios a b -> b ∈ seen.
Proof. intros Hc Ha. induction 1 as [|a b c Hab Hbc IH]; [done|]. apply IH. by eapply Hc. Qed.

(** The component of a role that was not seen: exactly the roles connected to it. *)
Lemma component_exact ratios start seen :
  closed ratios seen -> start ∉ seen ->
  let graph := ratioGraph ratios in
  let r := connectedComponent (component_fuel graph) graph start seen in
  NoDup r.1 /\ (forall x, x ∈ r.1 <-> connected ratios start x) /\
  r.2 = seen ∪ list_to_set r.1 /\ closed ratios r.2.
Proof.
  intros Hcl Hns. cbv zeta. set (graph := ratioGraph ratios). set (nodes := dom graph ∪ {[start]} : gset string).
  assert (forall a b, b ∈ neighbors graph a <-> adjacent ratios a b) as Hadj by apply neighbors_spec.
  assert (forall a b, b ∈ neighbors graph a -> b ∈ nodes) as Hnodes.
  { intros a b Hb. apply Hadj, adjacent_sym, Hadj in Hb. unfold neighbors in Hb.
    destruct (graph !! b) eqn:E; simpl in Hb; [|by apply elem_of_nil in Hb]. apply elem_of_dom_2 in E. set_solver. }
  destruct (dfs_found graph nodes Hnodes (component_fuel graph) start seen) as [[S1 N1 T1 I1] C1].
  - set_solver.
  - done.
  - unfold component_fuel. transitivity (size nodes); [apply subseteq_size; set_solver|].
    unfold nodes. rewrite size_union_alt, size_dom.
    assert (size ({[start]} ∖ dom graph : gset string) <= size ({[start]} : gset string))%nat
      by (apply subseteq_size; set_solver). rewrite size_singleton in H. lia.
  - set (r := connectedComponent _ _ _ _) in *.
    assert (forall x, x ∈ r.1 -> connected ratios start x) as Hreach.
    { intros x Hx. destruct (I1 x Hx) as (_ & _ & Hr). clear -Hr Hadj. induction Hr as [|a b c Hab Hbc IH]; [done|].
      eapply rtc_l; [by apply Hadj|exact IH]. }
    assert (closed ratios r.2) as Hcl'.
    { intros a b Ha Hab. rewrite S1 in Ha. apply elem_of_union in Ha as [Ha|Ha%elem_of_list_to_set].
      - rewrite S1. apply elem_of_union_l. by eapply Hcl.
      - apply (C1 a); [done|]. by apply Hadj. }
    split; [done|]. split; [|done]. intros x. split; [apply Hreach|]. intros Hx.
    assert (x ∈ r.2) as Hin by (eapply closed_connected; [done| |done]; rewrite S1; set_solver).
    rewrite S1 in Hin. apply elem_of_union in Hin as [Hin|Hin%elem_of_list_to_set]; [|done].
    exfalso. apply Hns. eapply closed_connected; [exact Hcl|exact Hin|]. by apply connected_sym.
Qed.

(** A component of more than a lone role consists of coupled roles. *)
Lemma component_coupled ratios name component :
  NoDup component -> (forall x, x ∈ component <-> connected ratios name x) ->
  ~ (length component = 1%nat /\ neighbors (ratioGraph ratios) name = []) ->
  forall x, x ∈ component -> exists y, adjacent ratios x y.
Proof.
  intros Hnd Hmem Hnot x Hx. destruct (decide (x = name)) as [->|Hne].
  2: { apply Hmem, connected_sym in Hx. inversion Hx as [|? y ? Hxy]; subst; [done|]. by exists y. }
  destruct (neighbors (ratioGraph ratios) name) as [|y l] eqn:Ey; [|exists y; apply neighbors_spec; rewrite Ey; left].
  exfalso. apply Hnot. split; [|done].
  assert (forall y, y ∈ component -> y = name) as Honly.
  { intros y Hy%Hmem. inversion Hy as [|? z ? Hz%neighbors_spec]; subst; [done|]. rewrite Ey in Hz. by apply elem_of_nil in Hz. }
  destruct component as [|c1 [|c2 k]]; [by apply elem_of_nil in Hx|done|]. exfalso.
  assert (c1 = c2) as -> by (transitivity name; [|symmetry]; apply Honly; [left|right; left]).
  apply NoDup_cons in Hnd as [Hnd _]. apply Hnd. left.
Qed.

(** ** Candidates *)

(** A list of candidates around a center: distinct, in range, the near ones first. *)
Record nearest (low high center : Z) (l : list Z) : Prop := {
  nearest_nodup : NoDup l;
  nearest_range : Forall (fun v => low <= v <= high) l;
  nearest_sorted : StronglySorted (fun a b => Z.abs (a - center) <= Z.abs (b - center)) l }.

Lemma nearest_snoc low high center l v :
  nearest low high center l -> low <= v <= high -> Forall (fun x => Z.abs (x - center) <= Z.abs (v - center)) l ->
  v ∉ l -> nearest low high center (l ++ [v]).
Proof.
  intros [N R S] Hv Hd Hn. split.
  - apply NoDup_app. split; [done|]. split; [|apply NoDup_singleton]. by intros x Hx ->%list_elem_of_singleton.
  - apply Forall_app. split; [done|]. by apply Forall_singleton.
  - apply StronglySorted_app_2; [|done|repeat constructor]. intros x y Hx ->%list_elem_of_singleton.
    rewrite Forall_forall in Hd. by apply Hd.
Qed.

(** The loop: at every offset all values nearer than it are in. *)
Lemma candidates_from_spec fuel low high center offset n acc :
  0 <= low <= center -> center <= high <= 2 ^ 30 -> 1 <= offset -> offset + Z.of_nat fuel <= 2 ^ 15 ->
  Z.of_nat n <= high - low + 1 -> nearest low high center acc ->
  Forall (fun v => Z.abs (v - center) < offset) acc ->
  Z.of_nat (length acc) = 1 + Z.min (offset - 1) (center - low) + Z.min (offset - 1) (high - center) ->
  (length acc <= n <= length acc + fuel)%nat ->
  let l := candidates_from fuel low high center offset n acc in
  nearest low high center l /\ length l = n.
Proof.
  intros Hl Hh. revert offset acc. induction fuel as [|fuel IH]; intros offset acc Ho Hf Hn Hnear Hd Hlen Hfuel; cbv zeta; cbn [candidates_from].
  { split; [done|lia]. }
  case_bool_decide as Hlt; [|split; [done|lia]].
  rewrite (i32_small (center - offset)), (i32_small (center + offset)), (i32_small (offset + 1)) by (unfold is_i32; lia).
  assert (forall v, Z.abs (v - center) = offset -> v ∉ acc) as Hout.
  { intros v Hv Hin. rewrite Forall_forall in Hd. specialize (Hd v Hin). simpl in Hd. lia. }
  assert (forall v, Z.abs (v - center) = offset -> Forall (fun x => Z.abs (x - center) <= Z.abs (v - center)) acc) as Hle.
  { intros v Hv. eapply Forall_impl; [exact Hd|]. simpl. lia. }
  assert (Forall (fun v => Z.abs (v - center) < offset + 1) acc) as Hd'.
  { eapply Forall_impl; [exact Hd|]. simpl. lia. }
  destruct (Z.leb_spec low (center - offset)) as [Hb|Hb]; cbn [andb].
  - assert (nearest low high center (acc ++ [center - offset])) as Hnear'.
    { apply nearest_snoc; [done|lia|apply Hle; lia|apply Hout; lia]. }
    case_bool_decide as Heq; [by split|]. rewrite length_app in Heq. simpl in Heq.
    destruct (Z.leb_spec (center + offset) high) as [Ha|Ha].
    + rewrite <- app_assoc. apply IH; try lia.
      * rewrite app_assoc. apply nearest_snoc; [done|lia| |].
        -- apply Forall_app. split; [apply Hle; lia|]. apply Forall_singleton. lia.
        -- rewrite elem_of_app, list_elem_of_singleton. intros [?|?]; [by apply (Hout (center + offset)); [lia|]|lia].
      * apply Forall_app. split; [done|]. repeat constructor; lia.
      * rewrite length_app. simpl. lia.
      * rewrite length_app. simpl. lia.
    + apply IH; try lia; [done|apply Forall_app; split; [done|repeat constructor; lia]| |]; rewrite length_app; simpl; lia.
  - destruct (Z.leb_spec (center + offset) high) as [Ha|Ha].
    + apply IH; try lia.
      * apply nearest_snoc; [done|lia|apply Hle; lia|apply Hout; lia].
      * apply Forall_app; split; [done|repeat constructor; lia].
      * rewrite length_app. simpl. lia.
      * rewrite length_app. simpl. lia.
    + exfalso. lia.
Qed.

Lemma orderedCandidates_spec low high target :
  0 <= low -> high <= 2 ^ 30 ->
  exists l, orderedCandidates low high target = Done l /\ nearest low high (clamp target low high) l /\
    Z.of_nat (length l) = Z.max 0 (Z.min searchBudget (high - low + 1)).
Proof.
  intros Hl Hh. unfold orderedCandidates. destruct (Z.ltb_spec high low).
  { exists []. split; [done|]. split; [|simpl; unfold searchBudget; lia]. split; constructor. }
  rewrite (i32_small (high - low)) by (unfold is_i32; lia).
  rewrite i32_small by (unfold is_i32; lia). cbv zeta.
  set (n := if searchBudget <? high - low + 1 then searchBudget else high - low + 1).
  assert (n = Z.min searchBudget (high - low + 1)) as Hn by (unfold n; zcases).
  unfold searchBudget in *. rewrite (proj2 (Z.ltb_ge n 0)) by lia.
  pose proof (clamp_range target low high ltac:(lia)) as Hc. set (center := clamp target low high) in *.
  eexists. split; [done|].
  destruct (candidates_from_spec (Z.to_nat n) low high center 1 (Z.to_nat n) [center]) as [H1 H2]; try lia.
  - split; [apply NoDup_singleton|by apply Forall_singleton|repeat constructor].
  - repeat constructor. lia.
  - simpl. lia.
  - simpl. lia.
  - split; [done|]. lia.
Qed.

(** Within the budget every value of the range is a candidate. *)
Lemma nearest_covers low high center l v :
  nearest low high center l -> Z.of_nat (length l) = high - low + 1 -> low <= v <= high -> v ∈ l.
Proof.
  intros [N R _] Hlen Hv. assert (l ≡ₚ seqZ low (high - low + 1)) as ->; [|apply elem_of_seqZ; lia].
  apply (submseteq_length_Permutation l).
  - apply NoDup_submseteq; [done|]. intros x Hx. rewrite Forall_forall in R. specialize (R x Hx). simpl in R. apply elem_of_seqZ. lia.
  - rewrite length_seqZ. lia.
Qed.

(** ** The search *)

Section searching.
Context (elsewhere32 : float64 -> Z) (ranging : forall A, gmap string A -> list (string * A)).

Abbreviation score := (score_leaf ranging).
Abbreviation scoring := (scoreVector ranging).

(** The candidates of a range, and the assignments a search enumerates. *)
Definition candidates (low high target : Z) : list Z :=
  match orderedCandidates low high target with Done l => l | _ => [] end.

Fixpoint leaves (fuel : nat) (component : list string) (graph : gmap string (list string))
    (ratios : list RoleRatio) (low high desired assignment : gmap string Z) : list (gmap string Z) :=
  if bool_decide (size assignment = length component) then [assignment]
  else
    match fuel with
    | O => []
    | S fuel =>
        let next := next_role graph assignment component in
        if bool_decide (next = "") then []
        else
          let bounds := tightened elsewhere32 ratios low high assignment next in
          value ← candidates bounds.1 bounds.2 (count desired next);
          leaves fuel component graph ratios low high desired (<[next := value]> assignment)
    end.

(** Score assignments one after the other while the budget lasts. *)
Definition run (ratios : list RoleRatio) (desired : gmap string Z) (s : SearchState) (l : list (gmap string Z))
    : SearchState :=
  foldl (fun s a => if Budget s <=? 0 then s else score ratios desired a s) s l.

(** Replica counts that leave room for the offsets of the search. *)
Definition small_box (low high : gmap string Z) : Prop :=
  forall name, 0 <= count low name /\ count high name <= 2 ^ 30.

Lemma run_spent ratios desired s l : Budget s <= 0 -> run ratios desired s l = s.
Proof.
  intros Hs. unfold run. induction l as [|a l IH]; [done|]. simpl.
  by rewrite (proj2 (Z.leb_le (Budget s) 0)).
Qed.

Lemma run_app ratios desired s l k : run ratios desired s (l ++ k) = run ratios desired (run ratios desired s l) k.
Proof. apply foldl_app. Qed.

Lemma try_candidates_run ratios desired visit (f : Z -> list (gmap string Z)) cands s :
  (forall v s, visit v s = Done (run ratios desired s (f v))) ->
  try_candidates visit cands s = Done (run ratios desired s (v ← cands; f v)).
Proof.
  intros Hv. unfold try_candidates. revert s. induction cands as [|v cands IH]; intros s; [done|]. simpl.
  destruct (Z.leb_spec (Budget s) 0).
  - rewrite IH. by rewrite !run_spent.
  - by rewrite Hv, IH, run_app.
Qed.

Lemma tightened_inside ratios low high assignment next :
  count low next <= (tightened elsewhere32 ratios low high assignment next).1 /\
  (tightened elsewhere32 ratios low high assignment next).2 <= count high next.
Proof.
  unfold tightened. set (init := (count low next, count high next)).
  assert (count low next <= init.1 /\ init.2 <= count high next) as Hinit by (simpl; lia).
  revert Hinit. generalize init. induction ratios as [|ratio ratios IH]; intros b Hb; [done|]. simpl. apply IH.
  repeat (case_bool_decide || case_match); simpl; lia.
Qed.

Lemma candidates_done low high target :
  0 <= low -> high <= 2 ^ 30 -> orderedCandidates low high target = Done (candidates low high target).
Proof.
  intros Hl Hh. unfold candidates. by destruct (orderedCandidates_spec low high target Hl Hh) as (l & -> & _).
Qed.

(** The search with its budget is the scoring of the enumeration. *)
Lemma search_refines fuel component graph ratios low high desired assignment s :
  small_box low high ->
  searchNeighbors elsewhere32 ranging fuel component graph ratios low high desired assignment s =
  Done (run ratios desired s (leaves fuel component graph ratios low high desired assignment)).
Proof.
  intros Hbox. revert assignment s. induction fuel as [|fuel IH]; intros assignment s; cbn [searchNeighbors leaves].
  - destruct (Z.leb_spec (Budget s) 0); [by rewrite run_spent|]. case_bool_decide; [|done].
    simpl. by rewrite (proj2 (Z.leb_gt (Budget s) 0)).
  - destruct (Z.leb_spec (Budget s) 0); [by rewrite run_spent|].
    case_bool_decide; [simpl; by rewrite (proj2 (Z.leb_gt (Budget s) 0))|]. cbv zeta.
    case_bool_decide; [done|].
    pose proof (tightened_inside ratios low high assignment (next_role graph assignment component)) as [T1 T2].
    destruct (Hbox (next_role graph assignment component)).
    rewrite candidates_done by lia. cbn [outcome_bind]. apply try_candidates_run. intros v s'. apply IH.
Qed.

(** *** What the enumeration holds *)

Lemma unassigned_spec assignment names :
  unassigned assignment names <> "" -> unassigned assignment names ∈ names /\ assignment !! unassigned assignment names = None.
Proof.
  unfold unassigned. destruct (filter _ names) as [|n l] eqn:E; [done|]. intros _. simpl.
  assert (n ∈ filter (fun name => assignment !! name = None) names) as Hn by (rewrite E; left).
  rewrite list_elem_of_filter in Hn. tauto.
Qed.

Lemma next_neighbor_spec graph assignment component :
  let n := next_neighbor graph assignment component in
  n <> "" -> assignment !! n = None /\ exists a, a ∈ component /\ is_Some (assignment !! a) /\ n ∈ neighbors graph a.
Proof.
  cbv zeta. induction component as [|a component IH]; [done|]. cbn [next_neighbor].
  destruct (assignment !! a) eqn:E.
  - case_bool_decide as Hu.
    + intros Hn. destruct (IH Hn) as (? & b & ? & ? & ?). split; [done|]. exists b. split; [by right|done].
    + intros _. destruct (unassigned_spec _ _ Hu) as [? ?]. split; [done|]. exists a. split; [left|]. by rewrite E.
  - intros Hn. destruct (IH Hn) as (? & b & ? & ? & ?). split; [done|]. exists b. split; [by right|done].
Qed.

Lemma next_role_spec graph assignment component :
  (forall a b, a ∈ component -> b ∈ neighbors graph a -> b ∈ component) ->
  next_role graph assignment component <> "" ->
  next_role graph assignment component ∈ component /\ assignment !! next_role graph assignment component = None.
Proof.
  intros Hcl. unfold next_role. case_bool_decide as Hn.
  - intros Hu. by apply unassigned_spec.
  - intros _. destruct (next_neighbor_spec graph assignment component Hn) as (? & a & ? & ? & ?). split; [|done].
    by eapply Hcl.
Qed.

Definition in_box (low high a : gmap string Z) : Prop :=
  forall name v, a !! name = Some v -> count low name <= v <= count high name.

Lemma candidates_range low high target v : 0 <= low -> high <= 2 ^ 30 -> v ∈ candidates low high target -> low <= v <= high.
Proof.
  intros Hl Hh. unfold candidates. destruct (orderedCandidates_spec low high target Hl Hh) as (l & -> & [_ R _] & _).
  rewrite Forall_forall in R. apply R.
Qed.

Lemma leaves_inside fuel component graph ratios low high desired assignment a :
  (forall a b, a ∈ component -> b ∈ neighbors graph a -> b ∈ component) ->
  small_box low high -> in_box low high assignment -> dom assignment ⊆ list_to_set component ->
  a ∈ leaves fuel component graph ratios low high desired assignment ->
  in_box low high a /\ dom a ⊆ list_to_set component /\ size a = length component.
Proof.
  intros Hcl Hbox. revert assignment. induction fuel as [|fuel IH]; intros assignment Hin Hdom; cbn [leaves].
  { case_bool_decide; [intros ->%list_elem_of_singleton; done|by intros ?%elem_of_nil]. }
  case_bool_decide; [intros ->%list_elem_of_singleton; done|]. case_bool_decide as Hn; [by intros ?%elem_of_nil|].
  intros (v & Ha & Hv)%list_elem_of_bind. destruct (next_role_spec graph assignment component Hcl Hn) as [Hnc Hnone].
  set (next := next_role graph assignment component) in *. revert Ha. apply IH.
  - intros name w. destruct (decide (name = next)) as [->|Hne]; [|rewrite lookup_insert_ne by done; apply Hin].
    rewrite lookup_insert_eq. intros [= <-].
    pose proof (tightened_inside ratios low high assignment next) as [T1 T2]. destruct (Hbox next).
    apply candidates_range in Hv; [|lia|lia]. lia.
  - rewrite dom_insert_L. apply union_subseteq. split; [|done]. apply singleton_subseteq_l. by apply elem_of_list_to_set.
Qed.

(** *** The best of it *)

Lemma better_mono s b a : better s b = true -> better a b = false -> better a s = false.
Proof.
  destruct s as [[s0 s1] s2], b as [[b0 b1] b2], a as [[a0 a1] a2]. unfold better. intros Hs Ha.
  apply not_true_iff_false. intros Hb. apply not_true_iff_false in Ha. apply Ha. clear Ha.
  rewrite !orb_true_iff, !andb_true_iff in *.
  destruct Hs as [[Hs|[Hs Hs1]]|[[Hs Hs1] Hs2]], Hb as [[Hb|[Hb Hb1]]|[[Hb Hb1] Hb2]].
  - left. left. exact (flt_trans _ _ _ Hb Hs).
  - left. left. exact (feq_flt _ _ _ Hb Hs).
  - left. left. exact (feq_flt _ _ _ Hb Hs).
  - left. left. exact (flt_feq _ _ _ Hb Hs).
  - left. right. exact (conj (feq_trans _ _ _ Hb Hs) (flt_trans _ _ _ Hb1 Hs1)).
  - left. right. exact (conj (feq_trans _ _ _ Hb Hs) (feq_flt _ _ _ Hb1 Hs1)).
  - left. left. exact (flt_feq _ _ _ Hb Hs).
  - left. right. exact (conj (feq_trans _ _ _ Hb Hs) (flt_feq _ _ _ Hb1 Hs1)).
  - right. exact (conj (conj (feq_trans _ _ _ Hb Hs) (feq_trans _ _ _ Hb1 Hs1)) (flt_trans _ _ _ Hs2 Hb2)).
Qed.

Lemma run_best ratios desired s l :
  let s' := run ratios desired s l in
  let visited := take (Z.to_nat (Budget s)) l in
  (Best s' = Best s /\ BestScore s' = BestScore s \/
   exists b, b ∈ visited /\ Best s' = Some b /\ ratiosSatisfied b ratios = true /\ BestScore s' = scoring b desired ratios) /\
  (forall a, a ∈ visited -> ratiosSatisfied a ratios = true -> better (scoring a desired ratios) (BestScore s') = false) /\
  (forall x, better x (BestScore s) = false -> better x (BestScore s') = false).
Proof.
  cbv zeta. revert s. induction l as [|a l IH]; intros s.
  { rewrite take_nil. split; [by left|]. split; [by intros ? ?%elem_of_nil|done]. }
  change (run ratios desired s (a :: l)) with
    (run ratios desired (if Budget s <=? 0 then s else score ratios desired a s) l).
  destruct (Z.leb_spec (Budget s) 0) as [Hz|Hz].
  { rewrite run_spent by done. replace (Z.to_nat (Budget s)) with 0%nat by lia.
    split; [by left|]. split; [by intros ? ?%elem_of_nil|done]. }
  set (s1 := score ratios desired a s). specialize (IH s1).
  assert (Budget s1 = Budget s - 1) as Hb by (unfold s1, score_leaf; by repeat case_match).
  rewrite Hb in IH. replace (Z.to_nat (Budget s)) with (S (Z.to_nat (Budget s - 1))) by lia. cbn [take].
  destruct IH as (I1 & I2 & I3).
  assert ((Best s1 = Best s /\ BestScore s1 = BestScore s \/
           Best s1 = Some a /\ ratiosSatisfied a ratios = true /\ BestScore s1 = scoring a desired ratios) /\
          (ratiosSatisfied a ratios = true -> better (scoring a desired ratios) (BestScore s1) = false) /\
          (forall x, better x (BestScore s) = false -> better x (BestScore s1) = false)) as (S1 & S2 & S3).
  { unfold s1, score_leaf. destruct (ratiosSatisfied a ratios); simpl; [|split; [by left|]; by split].
    destruct (better (scoring a desired ratios) (BestScore s)) eqn:E; simpl; [|split; [by left|]; by split].
    split; [by right|]. split.
    - intros _. destruct (scoring a desired ratios) as [[x0 x1] x2]. unfold better.
      apply not_true_iff_false. rewrite !orb_true_iff, !andb_true_iff, !flt_key.
      intros [[(?&?&?&?&?)|[_ (?&?&?&?&?)]]|[_ (?&?&?&?&?)]]; simplify_eq; by eapply key_lt_irrefl.
    - intros x Hx. by eapply better_mono. }
  split; [|split].
  - destruct I1 as [[-> ->]|(b & Hin & ?)]; [|right; exists b; split; [by right|done]].
    destruct S1 as [?|(? & ? & ?)]; [by left|]. right. exists a. split; [left|done].
  - intros x [->|Hx]%elem_of_cons Hsat; [by apply I3, S2|by apply I2].
  - intros x Hx. by apply I3, S3.
Qed.

(** *** Nothing is left out *)

(** No bound computed from roles assigned before a role excludes its count. *)
Definition admissible (component : list string) (graph : gmap string (list string)) (ratios : list RoleRatio)
    (low high a : gmap string Z) : Prop :=
  forall m v, m ⊆ a -> a !! next_role graph m component = Some v ->
    let bounds := tightened elsewhere32 ratios low high m (next_role graph m component) in bounds.1 <= v <= bounds.2.

Lemma next_role_exists graph assignment component :
  NoDup component -> "" ∉ component -> dom assignment ⊆ list_to_set component -> size assignment <> length component ->
  next_role graph assignment component <> "".
Proof.
  intros Hnd Hne Hdom Hsize. unfold next_role. case_bool_decide as Hn; [|done]. unfold unassigned.
  destruct (filter (fun name => assignment !! name = None) component) as [|n l] eqn:E; simpl.
  - exfalso. apply Hsize. rewrite <- size_dom. rewrite <- (size_list_to_set (C := gset string) component) by done. f_equal.
    apply set_eq. intros x. split; [apply Hdom|]. intros Hx%elem_of_list_to_set. apply elem_of_dom.
    destruct (assignment !! x) eqn:Ex; [by eexists|]. exfalso. by apply (filter_nil_not_elem_of _ _ x E).
  - assert (n ∈ filter (fun name => assignment !! name = None) component) as Hin by (rewrite E; left).
    rewrite list_elem_of_filter in Hin. intros ->. tauto.
Qed.

Lemma candidates_cover low high target v :
  0 <= low -> high <= 2 ^ 30 -> high - low + 1 <= searchBudget -> low <= v <= high -> v ∈ candidates low high target.
Proof.
  intros Hl Hh Hw Hv. unfold candidates. destruct (orderedCandidates_spec low high target Hl Hh) as (l & -> & Hn & Hlen).
  eapply nearest_covers; [exact Hn|lia|lia].
Qed.

Lemma leaves_complete fuel component graph ratios low high desired m a :
  (forall a b, a ∈ component -> b ∈ neighbors graph a -> b ∈ component) ->
  NoDup component -> "" ∉ component -> small_box low high ->
  (forall name, count high name - count low name + 1 <= searchBudget) ->
  dom a = list_to_set component -> admissible component graph ratios low high a ->
  m ⊆ a -> (length component <= size m + fuel)%nat ->
  a ∈ leaves fuel component graph ratios low high desired m.
Proof.
  intros Hcl Hnd Hne Hbox Hwide Hdom Hadm. assert (size a = length component) as Hsa.
  { rewrite <- size_dom, Hdom. by apply size_list_to_set. }
  revert m. induction fuel as [|fuel IH]; intros m Hsub Hfuel; cbn [leaves].
  all: assert (dom m ⊆ list_to_set component) as Hdm by (rewrite <- Hdom; by apply subseteq_dom).
  all: assert (size m = length component -> m = a) as Hfull
    by (intros Hs; apply map_subseteq_size_eq; [done|lia]).
  { case_bool_decide as Hs; [rewrite Hfull by done; by apply list_elem_of_singleton|]. exfalso. apply Hs.
    pose proof (map_subseteq_size m a Hsub). lia. }
  case_bool_decide as Hs; [rewrite Hfull by done; by apply list_elem_of_singleton|].
  pose proof (next_role_exists graph m component Hnd Hne Hdm Hs) as Hn. rewrite bool_decide_false by done.
  destruct (next_role_spec graph m component Hcl Hn) as [Hnc Hnone]. specialize (Hadm m).
  set (next := next_role graph m component) in *.
  assert (is_Some (a !! next)) as [v Hv] by (apply elem_of_dom; rewrite Hdom; by apply elem_of_list_to_set).
  apply list_elem_of_bind. exists v. split.
  - apply IH; [by apply insert_subseteq_l|]. rewrite map_size_insert_None by done. lia.
  - destruct (Hbox next). pose proof (tightened_inside ratios low high m next) as [T1 T2]. specialize (Hwide next).
    apply candidates_cover; [lia|lia|lia|]. by apply Hadm.
Qed.

(** *** A component *)

(** Every assignment the search of a component may score. *)
Definition component_leaves (component : list string) (ratios : list RoleRatio) (low high desired : gmap string Z)
    : list (gmap string Z) :=
  let graph := ratioGraph ratios in
  let anchor := anchor_of graph component in
  value ← candidates (count low anchor) (count high anchor) (count desired anchor);
  leaves (length component) component graph ratios low high desired {[anchor := value]}.

Lemma anchor_elem graph component : component <> [] -> anchor_of graph component ∈ component.
Proof.
  destruct component as [|first rest]; [done|]. intros _. cbn [anchor_of].
  assert (forall l a, a ∈ first :: rest -> (forall x, x ∈ l -> x ∈ first :: rest) ->
    foldl (fun anchor name => if bool_decide (length (neighbors graph anchor) < length (neighbors graph name))%nat
      then name else anchor) a l ∈ first :: rest) as H.
  { induction l as [|x l IH]; intros a Ha Hl; [done|]. simpl. apply IH; [|intros y Hy; apply Hl; by right].
    case_bool_decide; [apply Hl; left|done]. }
  apply H; [left|]. intros x Hx. by right.
Qed.

Lemma searchComponent_refines component ratios low high desired :
  small_box low high -> Forall (fun name => count low name <= count high name) component ->
  searchComponent elsewhere32 ranging component ratios low high desired =
  Done (Best (run ratios desired initial_search (component_leaves component ratios low high desired))).
Proof.
  intros Hbox Hle. unfold searchComponent.
  assert (existsb (fun name => count high name <? count low name) component = false) as ->.
  { apply not_true_iff_false. rewrite existsb_exists. intros (x & Hx%list_elem_of_In & Hlt%Z.ltb_lt).
    rewrite Forall_forall in Hle. specialize (Hle x Hx). simpl in Hle. lia. }
  cbv zeta. destruct (Hbox (anchor_of (ratioGraph ratios) component)). rewrite candidates_done by lia. cbn [outcome_bind].
  rewrite (try_candidates_run ratios desired _ (fun value =>
    leaves (length component) component (ratioGraph ratios) ratios low high desired
      {[anchor_of (ratioGraph ratios) component := value]})); [done|].
  intros v s. by apply search_refines.
Qed.

Lemma component_leaves_inside component ratios low high desired a :
  (forall a b, a ∈ component -> adjacent ratios a b -> b ∈ component) -> component <> [] ->
  small_box low high -> a ∈ component_leaves component ratios low high desired ->
  in_box low high a /\ dom a ⊆ list_to_set component /\ size a = length component.
Proof.
  intros Hcl Hne Hbox (v & Ha & Hv)%list_elem_of_bind. revert Ha. apply leaves_inside.
  - intros x y Hx Hy. apply (Hcl x y Hx). by apply neighbors_spec.
  - done.
  - intros name w. rewrite lookup_singleton_Some. intros [<- <-].
    destruct (Hbox (anchor_of (ratioGraph ratios) component)). apply candidates_range in Hv; lia.
  - rewrite dom_singleton_L. apply singleton_subseteq_l, elem_of_list_to_set. by apply anchor_elem.
Qed.

Lemma component_leaves_complete component ratios low high desired a :
  (forall a b, a ∈ component -> adjacent ratios a b -> b ∈ component) -> component <> [] ->
  NoDup component -> "" ∉ component -> small_box low high ->
  (forall name, count high name - count low name + 1 <= searchBudget) ->
  dom a = list_to_set component -> in_box low high a ->
  admissible component (ratioGraph ratios) ratios low high a ->
  a ∈ component_leaves component ratios low high desired.
Proof.
  intros Hcl Hne Hnd Hemp Hbox Hwide Hdom Hin Hadm. unfold component_leaves.
  set (anchor := anchor_of (ratioGraph ratios) component).
  assert (is_Some (a !! anchor)) as [v Hv].
  { apply elem_of_dom. rewrite Hdom. apply elem_of_list_to_set. by apply anchor_elem. }
  apply list_elem_of_bind. exists v. destruct (Hbox anchor). specialize (Hin anchor v Hv). split.
  - apply leaves_complete; try done.
    + intros x y Hx Hy. apply (Hcl x y Hx). by apply neighbors_spec.
    + by apply map_singleton_subseteq_l.
    + rewrite map_size_singleton. lia.
  - apply candidates_cover; [lia|lia|apply Hwide|done].
Qed.

(** What a search answers, given the assignments it may choose from. *)
Lemma search_answers component ratios low high desired :
  (forall a b, a ∈ component -> adjacent ratios a b -> b ∈ component) -> component <> [] -> NoDup component ->
  small_box low high -> Forall (fun name => count low name <= count high name) component ->
  exists o, searchComponent elsewhere32 ranging component ratios low high desired = Done o /\
    let visited := take (Z.to_nat searchBudget) (component_leaves component ratios low high desired) in
    match o with
    | Some b => b ∈ visited /\ dom b = list_to_set component /\ in_box low high b /\ ratiosSatisfied b ratios = true /\
        forall a, a ∈ visited -> ratiosSatisfied a ratios = true ->
          better (scoring a desired ratios) (scoring b desired ratios) = false
    | None => forall a, a ∈ visited -> ratiosSatisfied a ratios = true ->
        better (scoring a desired ratios) (BestScore initial_search) = false
    end.
Proof.
  intros Hcl Hne Hnd Hbox Hle. rewrite searchComponent_refines by done. eexists. split; [done|]. cbv zeta.
  destruct (run_best ratios desired initial_search (component_leaves component ratios low high desired)) as (R1 & R2 & _).
  cbn [Budget initial_search] in *. set (s := run _ _ _ _) in *.
  destruct R1 as [[-> Hs]|(b & Hb & -> & Hsat & Hs)]; rewrite Hs in R2; [exact R2|].
  assert (b ∈ component_leaves component ratios low high desired) as Hin
    by (apply elem_of_take in Hb as (i & Hi & _); by eapply list_elem_of_lookup_2).
  destruct (component_leaves_inside _ _ _ _ _ _ Hcl Hne Hbox Hin) as (Hbx & Hdom & Hsize).
  split; [done|]. split; [|done]. apply (set_subseteq_size_eq (C := gset string)); [done|].
  rewrite size_dom, size_list_to_set by done. lia.
Qed.
End searching.

(** ** Vectors *)

Lemma count_insert (m : gmap string Z) k v name : count (<[k := v]> m) name = if decide (k = name) then v else count m name.
Proof.
  unfold count. destruct (decide (k = name)) as [->|?]; [by rewrite lookup_insert_eq|by rewrite lookup_insert_ne].
Qed.

Lemma vector_count f component name : count (vector f component) name = if decide (name ∈ component) then f name else 0.
Proof.
  unfold vector. induction component as [|x l IH] using rev_ind; [done|]. rewrite foldl_app. simpl. rewrite count_insert, IH.
  destruct (decide (x = name)) as [->|Hne]; [rewrite decide_True; [done|]; apply elem_of_app; right; left|].
  destruct (decide (name ∈ l)) as [Hl|Hl]; [rewrite decide_True; [done|]; apply elem_of_app; by left|].
  rewrite decide_False; [done|]. rewrite elem_of_app, list_elem_of_singleton. by intros [?| ->].
Qed.

(** A loop that sets the replicas of a list of names. *)
Lemma set_replicas g l r :
  let r' := foldl (fun r name => with_replica name (g name) r) r l in
  Reasons r' = Reasons r /\ Intervals r' = Intervals r /\ Histories r' = Histories r /\
  BlockingReason r' = BlockingReason r /\
  forall name, Replicas r' !! name = if decide (name ∈ l) then Some (g name) else Replicas r !! name.
Proof.
  cbv zeta. induction l as [|x l IH] using rev_ind; [by repeat split|]. rewrite foldl_app. simpl.
  destruct IH as (H1 & H2 & H3 & H4 & H5). repeat split; try done. intros name. simpl.
  destruct (decide (x = name)) as [->|Hne].
  - rewrite lookup_insert_eq, decide_True; [done|]. apply elem_of_app. right. left.
  - rewrite lookup_insert_ne, H5 by done. destruct (decide (name ∈ l)) as [Hl|Hl].
    + rewrite decide_True; [done|]. apply elem_of_app. by left.
    + rewrite decide_False; [done|]. rewrite elem_of_app, list_elem_of_singleton. by intros [?| ->].
Qed.

(** A loop that gives some of a list of names a reason. *)
Lemma set_reasons (p : string -> bool) reason l r :
  let r' := foldl (fun r name => if p name then with_reason reason name r else r) r l in
  Replicas r' = Replicas r /\ Intervals r' = Intervals r /\ Histories r' = Histories r /\
  BlockingReason r' = BlockingReason r /\
  forall name, Reasons r' !! name = if decide (name ∈ l /\ p name = true) then Some reason else Reasons r !! name.
Proof.
  cbv zeta. induction l as [|x l IH] using rev_ind.
  { by repeat split. }
  rewrite foldl_app. simpl. destruct IH as (H1 & H2 & H3 & H4 & H5).
  destruct (p x) eqn:Ep; (repeat split; try done); intros name; simpl.
  - destruct (decide (x = name)) as [->|Hne].
    + rewrite lookup_insert_eq, decide_True; [done|]. split; [|done]. apply elem_of_app. right. left.
    + rewrite lookup_insert_ne, H5 by done. apply decide_ext. rewrite elem_of_app, list_elem_of_singleton.
      split; [tauto|]. by intros [[?| ->] ?].
  - rewrite H5. apply decide_ext. rewrite elem_of_app, list_elem_of_singleton.
    split; [tauto|]. intros [[?| ->] ?]; [done|congruence].
Qed.

Lemma ratiosSatisfied_needs values ratios ratio :
  ratiosSatisfied values ratios = true -> ratio ∈ ratios -> 0 < count values (DenominatorRole ratio).
Proof.
  unfold ratiosSatisfied. rewrite forallb_forall. intros H Hr%list_elem_of_In. specialize (H ratio Hr).
  unfold ratio_holds in H. destruct (Z.leb_spec (count values (DenominatorRole ratio)) 0); [done|lia].
Qed.

Lemma ratiosSatisfied_ext a b ratios :
  (forall ratio, ratio ∈ ratios -> count a (NumeratorRole ratio) = count b (NumeratorRole ratio) /\
     count a (DenominatorRole ratio) = count b (DenominatorRole ratio)) ->
  ratiosSatisfied a ratios = ratiosSatisfied b ratios.
Proof.
  intros H. unfold ratiosSatisfied. induction ratios as [|r ratios IH]; [done|]. simpl.
  rewrite IH by (intros x Hx; apply H; by right). f_equal. unfold ratio_holds.
  destruct (H r (list_elem_of_here _ _)) as [-> ->]. done.
Qed.

(** A vector whose roles do not hold a denominator cannot satisfy the ratios. *)
Lemma ratiosSatisfied_foreign values (component : list string) ratios ratio :
  dom values ⊆ list_to_set component -> ratio ∈ ratios -> DenominatorRole ratio ∉ component ->
  ratiosSatisfied values ratios = false.
Proof.
  intros Hdom Hr Hn. apply not_true_iff_false. intros Hs. pose proof (ratiosSatisfied_needs _ _ _ Hs Hr) as Hc.
  unfold count in Hc. destruct (values !! DenominatorRole ratio) eqn:E; simpl in Hc; [|lia].
  apply Hn. apply elem_of_dom_2, Hdom, elem_of_list_to_set in E. done.
Qed.

Section solving.
Context (elsewhere32 : float64 -> Z) (ranging : forall A, gmap string A -> list (string * A)).

Lemma search_done component ratios low high desired :
  (forall a b, a ∈ component -> adjacent ratios a b -> b ∈ component) -> component <> [] -> NoDup component ->
  small_box low high ->
  exists o, searchComponent elsewhere32 ranging component ratios low high desired = Done o /\
    forall b, o = Some b -> dom b = list_to_set component /\ in_box low high b /\ ratiosSatisfied b ratios = true.
Proof.
  intros Hcl Hne Hnd Hbox.
  destruct (existsb (fun name => count high name <? count low name) component) eqn:E.
  { exists None. split; [|done]. unfold searchComponent. by rewrite E. }
  assert (Forall (fun name => count low name <= count high name) component) as Hle.
  { apply Forall_forall. intros x Hx. apply Z.nlt_ge. intros Hlt. apply not_true_iff_false in E. apply E.
    apply existsb_exists. exists x. split; [by apply list_elem_of_In|by apply Z.ltb_lt]. }
  destruct (search_answers elsewhere32 ranging component ratios low high desired Hcl Hne Hnd Hbox Hle) as (o & Ho & Hans).
  exists o. split; [done|]. intros b ->. cbv zeta in Hans. tauto.
Qed.

(** *** One component *)

(** A role of a component stays, or the component moves together. *)
Record projected (ratios : list RoleRatio) (states : gmap string RoleState) (component : list string)
    (r r' : ConstraintResult) : Prop := {
  proj_intervals : Intervals r' = Intervals r;
  proj_histories : Histories r' = Histories r;
  proj_blocking : BlockingReason r' = BlockingReason r;
  proj_outside : forall name, name ∉ component ->
    Replicas r' !! name = Replicas r !! name /\ Reasons r' !! name = Reasons r !! name;
  proj_some : forall name, name ∈ component -> is_Some (Replicas r' !! name);
  proj_result :
    (forall name, name ∈ component -> count (Replicas r') name = RsCurrent (state_of states name)) \/
    (forall name, name ∈ component ->
       Floor (interval_of r name) <= count (Replicas r') name <= Ceil (interval_of r name)) /\
    ratiosSatisfied (Replicas r') ratios = true;
  proj_foreign : (exists ratio, ratio ∈ ratios /\ DenominatorRole ratio ∉ component) ->
    forall name, name ∈ component ->
      count (Replicas r') name = RsCurrent (state_of states name) /\ Reasons r' !! name = Some ReasonRatioConflict }.

Lemma vector_dom f component : dom (vector f component) = list_to_set component.
Proof.
  unfold vector. induction component as [|x l IH] using rev_ind; [apply dom_empty_L|].
  rewrite foldl_app. simpl. rewrite dom_insert_L, IH, list_to_set_app_L. simpl. by rewrite union_empty_r_L, union_comm_L.
Qed.

Lemma count_lookup (m : gmap string Z) name v : m !! name = Some v -> count m name = v.
Proof. unfold count. by intros ->. Qed.

Lemma foldl_ignore {A B} (l : list B) (a : A) : foldl (fun a _ => a) a l = a.
Proof. by induction l. Qed.

Lemma projected_perm ratios states component component' r r' :
  component ≡ₚ component' -> projected ratios states component r r' -> projected ratios states component' r r'.
Proof.
  intros Hp [P1 P2 P3 P4 P5 P6 P7]. split; try done; setoid_rewrite <- Hp; try done.
Qed.

(** Current counts, with a reason for some of the roles. *)
Lemma current_projected ratios states component p reason r :
  (forall ratio, ratio ∈ ratios -> DenominatorRole ratio ∉ component ->
     reason = ReasonRatioConflict /\ forall name, name ∈ component -> p name = true) ->
  projected ratios states component r
    (foldl (fun r name => if p name then with_reason reason name r else r)
       (foldl (fun r name => with_replica name (RsCurrent (state_of states name)) r) r component) component).
Proof.
  intros Hreason.
  pose proof (set_replicas (fun name => RsCurrent (state_of states name)) component r) as (A1 & A2 & A3 & A4 & A5).
  set (r1 := foldl _ r component) in *.
  pose proof (set_reasons p reason component r1) as (B1 & B2 & B3 & B4 & B5). set (r2 := foldl _ r1 component) in *.
  assert (forall name, name ∈ component -> count (Replicas r2) name = RsCurrent (state_of states name)) as Hcur.
  { intros name Hn. apply count_lookup. by rewrite B1, A5, decide_True. }
  split; try congruence.
  - intros name Hn. by rewrite B1, A5, B5, A1, !decide_False by tauto.
  - intros name Hn. rewrite B1, A5, decide_True by done. by eexists.
  - by left.
  - intros (ratio & Hr & Hf) name Hn. destruct (Hreason ratio Hr Hf) as [-> Hp].
    rewrite B5, decide_True by auto. auto.
Qed.

(** Found counts, with a reason for some of the roles. *)
Lemma best_projected ratios states component (p : string -> bool) reason b r :
  (forall a b, a ∈ component -> adjacent ratios a b -> b ∈ component) ->
  dom b = list_to_set component -> ratiosSatisfied b ratios = true ->
  (forall name, name ∈ component -> Floor (interval_of r name) <= count b name <= Ceil (interval_of r name)) ->
  projected ratios states component r
    (foldl (fun r name => if p name then with_reason reason name r else r)
       (foldl (fun r name => with_replica name (count b name) r) r component) component).
Proof.
  intros Hcl Hdom Hsat Hbox. pose proof (set_replicas (count b) component r) as (A1 & A2 & A3 & A4 & A5).
  set (r1 := foldl _ r component) in *.
  pose proof (set_reasons p reason component r1) as (B1 & B2 & B3 & B4 & B5). set (r2 := foldl _ r1 component) in *.
  assert (forall name, name ∈ component -> count (Replicas r2) name = count b name) as Hcur.
  { intros name Hn. apply count_lookup. by rewrite B1, A5, decide_True. }
  assert (forall ratio, ratio ∈ ratios -> DenominatorRole ratio ∈ component) as Hden.
  { intros ratio Hr. destruct (decide (DenominatorRole ratio ∈ component)) as [?|Hn]; [done|].
    rewrite (ratiosSatisfied_foreign b component ratios ratio) in Hsat; [done| |done|done]. by rewrite Hdom. }
  split; try congruence.
  - intros name Hn. by rewrite B1, A5, B5, A1, !decide_False by tauto.
  - intros name Hn. rewrite B1, A5, decide_True by done. by eexists.
  - right. split; [intros name Hn; rewrite Hcur by done; by apply Hbox|].
    rewrite <- Hsat. apply ratiosSatisfied_ext. intros ratio Hr. specialize (Hden ratio Hr). rewrite !Hcur; [done|done|].
    apply (Hcl _ _ Hden). exists ratio. auto.
  - intros (ratio & Hr & Hf). exfalso. auto.
Qed.

(** Holding a component sets both. *)
Lemma held_projected ratios states component reason r :
  (forall ratio, ratio ∈ ratios -> DenominatorRole ratio ∉ component -> reason = ReasonRatioConflict) ->
  projected ratios states component r (held reason states component r).
Proof.
  intros Hreason.
  assert (let r' := held reason states component r in
    Intervals r' = Intervals r /\ Histories r' = Histories r /\ BlockingReason r' = BlockingReason r /\
    forall name, Replicas r' !! name = (if decide (name ∈ component) then Some (RsCurrent (state_of states name)) else Replicas r !! name) /\
      Reasons r' !! name = (if decide (name ∈ component) then Some reason else Reasons r !! name)) as (H1 & H2 & H3 & H4).
  { cbv zeta. unfold held. clear. induction component as [|x l IH] using rev_ind; [by repeat split|].
    rewrite foldl_app. simpl. destruct IH as (H1 & H2 & H3 & H4). repeat split; try done; simpl.
    all: destruct (decide (x = name)) as [->|Hne];
      [rewrite lookup_insert_eq, decide_True; [done|]; apply elem_of_app; right; left|].
    all: rewrite lookup_insert_ne by done; destruct (H4 name) as [E1 E2]; rewrite ?E1, ?E2; apply decide_ext;
      rewrite elem_of_app, list_elem_of_singleton; (split; [tauto|]); by intros [?| ->]. }
  set (r' := held reason states component r) in *.
  assert (forall name, name ∈ component -> count (Replicas r') name = RsCurrent (state_of states name)) as Hcur.
  { intros name Hn. apply count_lookup. destruct (H4 name) as [-> _]. by rewrite decide_True. }
  split; try done.
  - intros name Hn. destruct (H4 name) as [-> ->]. by rewrite !decide_False.
  - intros name Hn. destruct (H4 name) as [-> _]. rewrite decide_True by done. by eexists.
  - by left.
  - intros (ratio & Hr & Hf) name Hn. split; [by apply Hcur|]. destruct (H4 name) as [_ ->].
    rewrite decide_True by done. by rewrite (Hreason ratio).
Qed.

Lemma project_sound input component states r :
  let ratios := Ratios (Spec input) in
  (forall a b, a ∈ component -> adjacent ratios a b -> b ∈ component) -> component <> [] -> NoDup component ->
  (forall name, 0 <= Floor (interval_of r name) /\ Ceil (interval_of r name) <= 2 ^ 30) ->
  exists r', projectComponent elsewhere32 ranging input component states r = Done r' /\ projected ratios states component r r'.
Proof.
  cbv zeta. intros Hcl Hne Hnd Hint. unfold projectComponent. set (ratios := Ratios (Spec input)) in *.
  pose proof (merge_sort_Permutation String.le component) as Hperm. set (sorted := merge_sort String.le component) in *.
  setoid_rewrite <- Hperm in Hcl. rewrite <- Hperm in Hnd.
  assert (sorted <> []) as Hnes by (intros E; rewrite E in Hperm; apply Hne; by apply Permutation_nil_l in Hperm).
  assert (forall P, (exists r', P = Done r' /\ projected ratios states sorted r r') ->
    exists r', P = Done r' /\ projected ratios states component r r') as Hto.
  { intros P (r' & ? & ?). exists r'. split; [done|]. by eapply projected_perm. }
  apply Hto. clear Hto Hperm Hne. cbv zeta. set (anyUp := existsb _ sorted). set (anyDown := existsb _ sorted).
  assert (forall f g, (forall name, 0 <= f name) -> (forall name, g name <= 2 ^ 30) ->
    small_box (vector f sorted) (vector g sorted)) as Hbox.
  { intros f g Hf Hg name. rewrite !vector_count. specialize (Hf name). specialize (Hg name). case_decide; lia. }
  destruct (negb anyUp && negb anyDown).
  { destruct (ratiosSatisfied _ ratios) eqn:Esat; cbn [negb]; eexists; (split; [done|]).
    - rewrite <- (foldl_ignore sorted). apply (current_projected ratios states sorted (fun _ => false) "").
      intros ratio Hr Hf. exfalso. rewrite (ratiosSatisfied_foreign _ sorted ratios ratio) in Esat; try done. by rewrite vector_dom.
    - by apply (current_projected ratios states sorted (fun _ => true) ReasonRatioConflict). }
  set (low := vector (directed_low anyUp states r) sorted). set (high := vector (directed_high anyUp states r) sorted).
  set (desired := vector _ sorted).
  destruct (search_done sorted ratios low high desired) as (o & -> & Hb); try done.
  { apply Hbox; intros name; destruct (Hint name); unfold directed_low, directed_high; destruct anyUp; lia. }
  cbn [outcome_bind]. destruct o as [b|].
  - destruct (Hb b eq_refl) as (Hdom & Hin & Hsat). eexists. split; [done|].
    apply (best_projected ratios states sorted (fun name => negb (count b name =? count desired name)
       || ((count b name =? RsCurrent (state_of states name)) && negb (count desired name =? RsCurrent (state_of states name))))
       ReasonPacingBounded); try done.
    intros name Hn. assert (is_Some (b !! name)) as [v Hv] by (apply elem_of_dom; rewrite Hdom; by apply elem_of_list_to_set).
    rewrite (count_lookup _ _ _ Hv). specialize (Hin name v Hv). unfold low, high in Hin. rewrite !vector_count, !decide_True in Hin by done.
    unfold directed_low, directed_high in Hin. destruct anyUp; lia.
  - destruct (search_done sorted ratios (vector (fun name => Floor (interval_of r name)) sorted)
      (vector (fun name => Ceil (interval_of r name)) sorted) desired) as (full & -> & Hf); try done.
    { apply Hbox; intros name; by destruct (Hint name). }
    cbn [outcome_bind]. eexists. split; [done|]. apply held_projected. intros ratio Hr Hn.
    destruct full as [b|]; [|done]. destruct (Hf b eq_refl) as (Hdom & _ & Hsat).
    rewrite (ratiosSatisfied_foreign b sorted ratios ratio) in Hsat; [done| |done|done]. by rewrite Hdom.
Qed.
End solving.

(** ** The whole solver *)

Definition coupled (ratios : list RoleRatio) (name : string) : Prop := exists other, adjacent ratios name other.

(** Two ratios that no chain of ratios connects. *)
Definition disconnected (ratios : list RoleRatio) : Prop :=
  exists ratio ratio', ratio ∈ ratios /\ ratio' ∈ ratios /\
    ~ connected ratios (DenominatorRole ratio) (DenominatorRole ratio').

(** Distinct roles, each with bounds that can hold. *)
Record solvable (input : ConstraintInput) : Prop := {
  solvable_names : NoDup (RsName <$> InRoles input);
  solvable_bounds : forall role, role ∈ InRoles input ->
    exists bound, bounds_map (Spec input) !! RsName role = Some bound /\
      effective_minimum bound <= MaxReplicas bound <= 2 ^ 30;
  solvable_step : step_in_range (DownStepPolicy (ScaleDown (Behavior (Spec input)))) }.

Lemma states_map_spec roles :
  NoDup (RsName <$> roles) ->
  (forall role, role ∈ roles -> states_map roles !! RsName role = Some role) /\
  (forall name, name ∉ RsName <$> roles -> states_map roles !! name = None).
Proof. exact (fold_map_lookup RsName id roles). Qed.

Section whole.
Context (elsewhere32 : float64 -> Z) (Hplatform : platform elsewhere32).
Context (ranging : forall A, gmap string A -> list (string * A)).
Context (input : ConstraintInput) (Hin : solvable input).

Abbreviation ratios := (Ratios (Spec input)).
Abbreviation states := (states_map (InRoles input)).
Abbreviation current := (fun name => RsCurrent (state_of states name)).

(** The first loop. *)
Lemma first_loop roles :
  NoDup (RsName <$> roles) -> (forall role, role ∈ roles -> role ∈ InRoles input) ->
  let r := foldl (role_step elsewhere32 input) empty_result roles in
  Reasons r = ∅ /\ BlockingReason r = "" /\
  (forall role bound, role ∈ roles -> bounds_map (Spec input) !! RsName role = Some bound ->
     Replicas r !! RsName role = Some (RsCurrent role) /\
     Intervals r !! RsName role = Some (roleInterval elsewhere32 input role bound (role_history input role)) /\
     Histories r !! RsName role = Some (role_history input role)) /\
  (forall name, name ∉ RsName <$> roles -> Replicas r !! name = None /\ Intervals r !! name = None).
Proof.
  induction roles as [|role roles IH] using rev_ind; cbv zeta.
  { intros _ _. split; [done|]. split; [done|]. split; [|done]. by intros ? ? ?%elem_of_nil. }
  rewrite fmap_app, foldl_app. simpl. intros (Hnd & Hdis & _)%NoDup_app Hsub.
  destruct IH as (H1 & H2 & H3 & H4); [done|intros x Hx; apply Hsub, elem_of_app; by left|].
  set (r := foldl _ _ roles) in *. unfold role_step.
  destruct (solvable_bounds _ Hin role) as (bound & Hb & _); [apply Hsub, elem_of_app; right; left|]. rewrite Hb.
  assert (forall x, x ∈ roles -> RsName role <> RsName x) as Hne.
  { intros x Hx E. apply (Hdis (RsName x)); [by apply list_elem_of_fmap_2|]. rewrite E. left. }
  split; [done|]. split; [done|]. split.
  - intros x bound' [Hx| ->%list_elem_of_singleton]%elem_of_app Hb'; simpl.
    + rewrite !lookup_insert_ne by auto. by apply H3.
    + rewrite !lookup_insert_eq. rewrite Hb in Hb'. by injection Hb' as ->.
  - intros name Hn. rewrite elem_of_app, list_elem_of_singleton in Hn. simpl.
    rewrite !lookup_insert_ne by (intros <-; tauto). apply H4. tauto.
Qed.

Definition first_result : ConstraintResult := foldl (role_step elsewhere32 input) empty_result (InRoles input).

Lemma first_role role :
  role ∈ InRoles input ->
  exists bound, bounds_map (Spec input) !! RsName role = Some bound /\
    Replicas first_result !! RsName role = Some (RsCurrent role) /\
    interval_sound input role bound (role_history input role) (interval_of first_result (RsName role)) /\
    state_of states (RsName role) = role /\ MaxReplicas bound <= 2 ^ 30.
Proof.
  intros Hr. destruct (solvable_bounds _ Hin role Hr) as (bound & Hb & Hrange). exists bound.
  destruct (first_loop (InRoles input) (solvable_names _ Hin)) as (_ & _ & H3 & _); [done|].
  destruct (H3 role bound Hr Hb) as (E1 & E2 & _). split; [done|]. split; [done|].
  unfold interval_of, first_result. rewrite E2. simpl. split.
  - apply roleInterval_sound; [done|lia|]. apply Hin.
  - split; [|lia]. unfold state_of. by rewrite (proj1 (states_map_spec _ (solvable_names _ Hin)) role Hr).
Qed.

(** A role that is not one of the input's. *)
Lemma first_unknown name :
  name ∉ RsName <$> InRoles input ->
  Replicas first_result !! name = None /\ interval_of first_result name = zero_interval /\ current name = 0.
Proof.
  intros Hn. destruct (first_loop (InRoles input) (solvable_names _ Hin)) as (_ & _ & _ & H4); [done|].
  destruct (H4 name Hn) as [E1 E2]. split; [done|]. unfold interval_of, first_result. rewrite E2. split; [done|].
  unfold state_of. by rewrite (proj2 (states_map_spec _ (solvable_names _ Hin)) name Hn).
Qed.

Lemma first_count name : count (Replicas first_result) name = current name.
Proof.
  destruct (decide (name ∈ RsName <$> InRoles input)) as [Hn|Hn].
  - apply list_elem_of_fmap in Hn as (role & -> & Hr). destruct (first_role role Hr) as (b & _ & E & _ & -> & _).
    by apply count_lookup.
  - destruct (first_unknown name Hn) as (E & _ & ->). unfold count. by rewrite E.
Qed.

Lemma first_box name :
  0 <= Floor (interval_of first_result name) /\ Ceil (interval_of first_result name) <= 2 ^ 30 /\
  Floor (interval_of first_result name) <= Ceil (interval_of first_result name).
Proof.
  destruct (decide (name ∈ RsName <$> InRoles input)) as [Hn|Hn].
  - apply list_elem_of_fmap in Hn as (role & -> & Hr). destruct (first_role role Hr) as (b & _ & _ & [S _ _ _ _] & _ & Hm).
    simpl in S. assert (1 <= effective_minimum b) by (unfold effective_minimum; zcases). lia.
  - destruct (first_unknown name Hn) as (_ & -> & _). simpl. lia.
Qed.

(** What holds after every component. *)
Record solving_inv (r : ConstraintResult) (seen : gset string) : Prop := {
  inv_intervals : Intervals r = Intervals first_result;
  inv_blocking : BlockingReason r = "";
  inv_closed : closed ratios seen;
  inv_unseen : forall name, name ∉ seen ->
    Replicas r !! name = Replicas first_result !! name /\ Reasons r !! name = None;
  inv_settled : forall name, count (Replicas r) name = current name \/
    Floor (interval_of first_result name) <= count (Replicas r) name <= Ceil (interval_of first_result name);
  inv_some : forall name, is_Some (Replicas first_result !! name) -> is_Some (Replicas r !! name);
  inv_dom : forall name, is_Some (Replicas r !! name) -> name ∈ RsName <$> InRoles input \/ coupled ratios name;
  inv_alone_exact : forall name, name ∈ seen -> ~ coupled ratios name ->
    count (Replicas r) name = clamp (RsRaw (state_of states name)) (Floor (interval_of first_result name))
                                (Ceil (interval_of first_result name));
  inv_ratios : (forall name, coupled ratios name -> count (Replicas r) name = current name) \/
    ratiosSatisfied (Replicas r) ratios = true;
  inv_foreign : disconnected ratios ->
    (forall name, name ∈ seen -> coupled ratios name ->
       count (Replicas r) name = current name /\ Reasons r !! name = Some ReasonRatioConflict) /\
    (forall name reason, Reasons r !! name = Some reason -> reason = ReasonRatioConflict) }.

Lemma interval_of_eq r name : Intervals r = Intervals first_result -> interval_of r name = interval_of first_result name.
Proof. unfold interval_of. by intros ->. Qed.

Lemma inv_first : solving_inv first_result ∅.
Proof.
  destruct (first_loop (InRoles input) (solvable_names _ Hin)) as (H1 & H2 & _ & H4); [done|].
  fold first_result in *. split; try done.
  - intros name _. by rewrite H1.
  - intros name. left. apply first_count.
  - intros name [v Hv]. left. destruct (decide (name ∈ RsName <$> InRoles input)) as [?|Hn]; [done|].
    destruct (H4 name Hn) as [E _]. congruence.
  - left. intros name _. apply first_count.
  - intros _. split; [by intros name ?%elem_of_empty|]. intros name reason. by rewrite H1.
Qed.

(** A role no ratio couples goes to its own interval. *)
Lemma inv_alone r seen name :
  solving_inv r seen -> name ∈ RsName <$> InRoles input -> ~ coupled ratios name ->
  solving_inv (with_replica name (clamp (RsRaw (state_of states name)) (Floor (interval_of r name)) (Ceil (interval_of r name))) r)
    ({[name]} ∪ seen).
Proof.
  intros [I1 I2 I3 I4 I5 I6 I7 IE I8 I9] Hn Hnc. rewrite (interval_of_eq r name I1).
  destruct (first_box name) as (_ & _ & Hle). pose proof (clamp_range (RsRaw (state_of states name)) _ _ Hle) as Hc.
  set (n := clamp _ _ _) in *.
  assert (forall x, x <> name -> count (<[name := n]> (Replicas r)) x = count (Replicas r) x) as Hother.
  { intros x Hx. rewrite count_insert. by rewrite decide_False by done. }
  assert (forall x, coupled ratios x -> x <> name) as Hcne by (intros x Hx ->; done).
  split; simpl; try done.
  - intros a b [->%elem_of_singleton|Ha]%elem_of_union Hab; [exfalso; apply Hnc; by exists b|].
    apply elem_of_union_r. by eapply I3.
  - intros x Hx. rewrite not_elem_of_union, not_elem_of_singleton in Hx. destruct Hx as [Hx1 Hx2].
    rewrite lookup_insert_ne by done. by apply I4.
  - intros x. rewrite count_insert. destruct (decide (name = x)) as [<-|?]; [by right|apply I5].
  - intros x Hx. destruct (decide (name = x)) as [<-|?]; [rewrite lookup_insert_eq; by eexists|].
    rewrite lookup_insert_ne by done. by apply I6.
  - intros x. destruct (decide (name = x)) as [<-|?]; [by left|]. rewrite lookup_insert_ne by done. apply I7.
  - intros x Hx Hxc. rewrite count_insert. destruct (decide (name = x)) as [<-|Hne]; [done|]. apply IE; [|done].
    apply elem_of_union in Hx as [->%elem_of_singleton|?]; done.
  - destruct I8 as [I8|I8]; [left; intros x Hx; rewrite Hother by auto; by apply I8|right].
    rewrite <- I8. apply ratiosSatisfied_ext. intros ratio Hr.
    split; apply Hother, Hcne; [exists (DenominatorRole ratio)|exists (NumeratorRole ratio)]; exists ratio; auto.
  - intros Hd. destruct (I9 Hd) as [J1 J2]. split; [|done]. intros x [->%elem_of_singleton|Hx]%elem_of_union Hxc; [done|].
    rewrite Hother by auto. by apply J1.
Qed.

(** A component of coupled roles moves together or stays. *)
Lemma inv_component r seen component r' :
  solving_inv r seen -> NoDup component -> (forall x, x ∈ component -> x ∉ seen) ->
  (forall x, x ∈ component -> x ∈ RsName <$> InRoles input \/ coupled ratios x) ->
  closed ratios (seen ∪ list_to_set component) -> (forall x, x ∈ component -> coupled ratios x) ->
  (disconnected ratios -> exists ratio, ratio ∈ ratios /\ DenominatorRole ratio ∉ component) ->
  projected ratios states component r r' -> solving_inv r' (seen ∪ list_to_set component).
Proof.
  intros [I1 I2 I3 I4 I5 I6 I7 IE I8 I9] Hnd Hdis Hdom Hcl Hcc Hdisc [P1 P2 P3 P4 P5 P6 P7].
  assert (forall x, x ∉ component -> count (Replicas r') x = count (Replicas r) x) as Hout.
  { intros x Hx. unfold count. by destruct (P4 x Hx) as [-> _]. }
  assert (forall x, x ∈ component -> count (Replicas r) x = current x) as Hbefore.
  { intros x Hx. destruct (I4 x (Hdis x Hx)) as [E _]. rewrite <- first_count. unfold count. by rewrite E. }
  split; try congruence; try done.
  - intros x Hx. rewrite not_elem_of_union, elem_of_list_to_set in Hx. destruct Hx as [Hx1 Hx2].
    destruct (P4 x Hx2) as [-> ->]. by apply I4.
  - intros x. destruct (decide (x ∈ component)) as [Hx|Hx]; [|rewrite Hout by done; apply I5].
    destruct P6 as [P6|[P6 _]]; [left; by apply P6|right]. rewrite <- !(interval_of_eq r x I1). by apply P6.
  - intros x Hx. destruct (decide (x ∈ component)) as [Hc|Hc]; [by apply P5|]. destruct (P4 x Hc) as [-> _]. by apply I6.
  - intros x Hx. destruct (decide (x ∈ component)) as [Hc|Hc]; [by apply Hdom|]. destruct (P4 x Hc) as [E _].
    rewrite E in Hx. by apply I7.
  - intros x [Hx|Hx%elem_of_list_to_set]%elem_of_union Hxc; [|by exfalso; apply Hxc, Hcc].
    rewrite Hout by (intros Hx'; by eapply Hdis). by apply IE.
  - destruct P6 as [P6|[_ P6]]; [|by right].
    assert (forall x, count (Replicas r') x = count (Replicas r) x) as Heq.
    { intros x. destruct (decide (x ∈ component)); [|by apply Hout]. by rewrite P6, Hbefore. }
    destruct I8 as [I8|I8]; [left; intros x Hx; rewrite Heq; by apply I8|right].
    rewrite <- I8. apply ratiosSatisfied_ext. auto.
  - intros Hd. specialize (Hdisc Hd). destruct (I9 Hd) as [J1 J2]. split.
    + intros x [Hx|Hx%elem_of_list_to_set]%elem_of_union Hxc; [|by apply P7].
      assert (x ∉ component) as Hn by (intros ?; by eapply Hdis). rewrite Hout by done. destruct (P4 x Hn) as [_ ->]. by apply J1.
    + intros x reason. destruct (decide (x ∈ component)) as [Hx|Hx].
      * destruct (P7 Hdisc x Hx) as [_ ->]. by intros [= <-].
      * destruct (P4 x Hx) as [_ ->]. apply J2.
Qed.

Lemma component_step_sound r seen name :
  solving_inv r seen -> name ∈ RsName <$> InRoles input ->
  exists r' seen', component_step elsewhere32 ranging input states (ratioGraph ratios) (Done (r, seen)) name = Done (r', seen') /\
    solving_inv r' seen' /\ seen ⊆ seen' /\ name ∈ seen'.
Proof.
  intros Hinv Hn. unfold component_step. cbn [outcome_bind fst snd]. case_bool_decide as Hseen; [by exists r, seen|].
  destruct (component_exact ratios name seen (inv_closed _ _ Hinv) Hseen) as (Hnd & Hmem & Hseen' & Hcl).
  set (graph := ratioGraph ratios) in *. destruct (connectedComponent (component_fuel graph) graph name seen) as [component seen'].
  cbn [fst snd] in *. assert (name ∈ component) as Hnc by (by apply Hmem).
  assert (forall x, x ∈ component -> x ∉ seen) as Hdis.
  { intros x Hx Hxs. apply Hseen. eapply closed_connected; [apply Hinv|exact Hxs|]. by apply connected_sym, Hmem. }
  destruct (bool_decide (length component = 1%nat) && bool_decide (neighbors graph name = [])) eqn:Ealone.
  - apply andb_true_iff in Ealone as [E1%bool_decide_eq_true E2%bool_decide_eq_true].
    assert (component = [name]) as -> by (destruct component as [|x [|? ?]]; simpl in *; [done|set_solver|done]).
    do 2 eexists. split; [done|]. assert (seen' = {[name]} ∪ seen) as -> by (rewrite Hseen'; clear; set_solver).
    split; [|split; [apply union_subseteq_r|apply elem_of_union_l, elem_of_singleton_2; done]].
    apply inv_alone; [done|done|]. intros [b Hb%neighbors_spec]. fold graph in Hb. rewrite E2 in Hb. by apply elem_of_nil in Hb.
  - assert (forall a b, a ∈ component -> adjacent ratios a b -> b ∈ component) as Hclc.
    { intros a b Ha Hab. apply Hmem. eapply rtc_r; [by apply Hmem|done]. }
    destruct (project_sound elsewhere32 ranging input component states r) as (r' & -> & Hproj); try done.
    { intros ->. by apply elem_of_nil in Hnc. }
    { intros x. rewrite (interval_of_eq r x) by apply Hinv. pose proof (first_box x). tauto. }
    cbn [outcome_bind]. do 2 eexists. split; [done|]. subst seen'.
    split; [|split; [apply union_subseteq_l|by apply elem_of_union_r, elem_of_list_to_set]].
    assert (forall x, x ∈ component -> coupled ratios x) as Hcoupled.
    { apply (component_coupled ratios name); [done|done|]. fold graph. intros [E1 E2].
      by rewrite !bool_decide_true in Ealone. }
    eapply inv_component; try done.
    + intros x Hx. right. by apply Hcoupled.
    + intros (ra & rb & Hra & Hrb & Hnot). destruct (decide (DenominatorRole ra ∈ component)) as [Ha|Ha]; [|by eauto].
      exists rb. split; [done|]. intros Hb. apply Hnot. apply Hmem in Ha, Hb. etransitivity; [by apply connected_sym|done].
Qed.

Lemma component_loop names r seen :
  solving_inv r seen -> (forall name, name ∈ names -> name ∈ RsName <$> InRoles input) ->
  exists r' seen', foldl (component_step elsewhere32 ranging input states (ratioGraph ratios)) (Done (r, seen)) names = Done (r', seen') /\
    solving_inv r' seen' /\ seen ⊆ seen' /\ (forall name, name ∈ names -> name ∈ seen').
Proof.
  revert r seen. induction names as [|name names IH]; intros r seen Hinv Hn.
  { exists r, seen. split; [done|]. split; [done|]. split; [done|]. by intros ? ?%elem_of_nil. }
  destruct (component_step_sound r seen name Hinv) as (r1 & seen1 & E & Hinv1 & Hsub & Hin1); [apply Hn; left|].
  cbn [foldl]. rewrite E. destruct (IH r1 seen1 Hinv1) as (r' & seen' & -> & Hinv' & Hsub' & Hall).
  { intros x Hx. apply Hn. by right. }
  exists r', seen'. split; [done|]. split; [done|]. split; [by etransitivity|].
  intros x [->|Hx]%elem_of_cons; [by apply Hsub'|by apply Hall].
Qed.

(** *** Reasons *)

Lemma blocking_reasons_keeps r :
  let r' := blocking_from_reasons ranging r in
  Replicas r' = Replicas r /\ Reasons r' = Reasons r /\ Intervals r' = Intervals r.
Proof. unfold blocking_from_reasons. repeat case_match; by repeat split. Qed.

Lemma blocking_pacing_keeps roles r :
  let r' := blocking_from_pacing roles r in Replicas r' = Replicas r /\ Intervals r' = Intervals r.
Proof.
  unfold blocking_from_pacing. case_bool_decide; [|done]. clear H. cbv zeta. revert r.
  induction roles as [|role roles IH]; intros r; [done|]. simpl. destruct (IH (if negb (RsRaw role =? RsCurrent role) &&
    (count (Replicas r) (RsName role) =? RsCurrent role) then with_reason ReasonPacingBounded (RsName role)
      (with_blocking ReasonPacingBounded r) else r)) as [-> ->]. by case_match.
Qed.

Lemma blocking_conflict r name :
  (forall A (m : gmap string A), ranging A m ≡ₚ map_to_list m) -> BlockingReason r = "" -> (forall name reason, Reasons r !! name = Some reason -> reason = ReasonRatioConflict) ->
  Reasons r !! name = Some ReasonRatioConflict -> BlockingReason (blocking_from_reasons ranging r) = ReasonRatioConflict.
Proof.
  intros Hranging Hb Hall Hn. unfold blocking_from_reasons. rewrite bool_decide_true by done.
  assert ((name, ReasonRatioConflict) ∈ ranging string (Reasons r)) as Hin' by (rewrite Hranging; by apply elem_of_map_to_list).
  destruct (filter _ (ranging string (Reasons r))) as [|[x reason] l] eqn:E.
  - exfalso. eapply filter_nil_not_elem_of; [exact E| |exact Hin']. by left.
  - simpl. apply (Hall x). apply elem_of_map_to_list. rewrite <- Hranging.
    assert ((x, reason) ∈ filter (fun entry => entry.2 = ReasonRatioConflict \/ entry.2 = ReasonPacingBounded)
      (ranging string (Reasons r))) as Hx by (rewrite E; left). rewrite list_elem_of_filter in Hx. tauto.
Qed.
End whole.

(** The input with its time; without one the clock is read. *)
Definition timed (clock : Z) (input : ConstraintInput) : ConstraintInput :=
  if Now input =? 0 then with_now clock input else input.

Lemma conflict_names_none r roles names :
  (forall role, role ∈ roles -> Floor (interval_of r (RsName role)) <= Ceil (interval_of r (RsName role))) ->
  conflict_names r roles names = None.
Proof.
  revert names. induction roles as [|role roles IH]; intros names Hr; [done|]. simpl.
  rewrite (proj2 (Z.ltb_ge _ _)) by (apply Hr; left). apply IH. intros x Hx. apply Hr. by right.
Qed.

Lemma timed_fields clock input : Spec (timed clock input) = Spec input /\ InRoles (timed clock input) = InRoles input.
Proof. unfold timed. by case_match. Qed.

Section theorems.
Context (elsewhere32 : float64 -> Z) (ranging : forall A, gmap string A -> list (string * A)) (clock : Z).

Lemma solve_runs input :
  platform elsewhere32 -> solvable (timed clock input) ->
  exists r seen, SolveModelDeploymentScalerConstraints elsewhere32 ranging clock input =
      Done (blocking_from_pacing (InRoles input) (blocking_from_reasons ranging r)) /\
    solving_inv elsewhere32 (timed clock input) r seen /\ (forall role, role ∈ InRoles input -> RsName role ∈ seen).
Proof.
  intros Hp Hs. unfold SolveModelDeploymentScalerConstraints. fold (timed clock input).
  destruct (timed_fields clock input) as [_ Er]. set (i := timed clock input) in *. cbv zeta.
  fold (first_result elsewhere32 i).
  destruct (first_loop elsewhere32 i Hs (InRoles i) (solvable_names _ Hs)) as (_ & Hb & _); [done|].
  fold (first_result elsewhere32 i) in Hb. rewrite Hb. rewrite bool_decide_false by done.
  rewrite conflict_names_none.
  2: { intros role Hr. pose proof (first_box elsewhere32 Hp i Hs (RsName role)). tauto. }
  pose proof (merge_sort_Permutation String.le (RsName <$> InRoles i)) as Hperm.
  destruct (component_loop elsewhere32 Hp ranging i Hs (merge_sort String.le (RsName <$> InRoles i))
    (first_result elsewhere32 i) ∅) as (r & seen & -> & Hinv & _ & Hall).
  { by apply inv_first. }
  { intros name. by rewrite Hperm. }
  exists r, seen. cbn [outcome_bind fst]. rewrite Er. split; [done|]. split; [done|].
  intros role Hr. apply Hall. rewrite Hperm, Er. by apply list_elem_of_fmap_2.
Qed.

(** The current counts of the input's roles. *)
Definition current_vector (input : ConstraintInput) : gmap string Z :=
  vector (fun name => RsCurrent (state_of (states_map (InRoles input)) name)) (RsName <$> InRoles input).

Lemma current_vector_count input name :
  NoDup (RsName <$> InRoles input) ->
  count (current_vector input) name = RsCurrent (state_of (states_map (InRoles input)) name).
Proof.
  intros Hnd. unfold current_vector. rewrite vector_count. case_decide as Hn; [done|].
  unfold state_of. by rewrite (proj2 (states_map_spec _ Hnd) name Hn).
Qed.

(** What a solution keeps for a role: its bounds, every guard against going down,
    the floor the stabilization window sets, single steps, and the hold of
    pending replicas. *)
Record role_kept (input : ConstraintInput) (role : RoleState) (bound : RoleBounds) (n : Z) : Prop := {
  kept_bounds : effective_minimum bound <= n <= MaxReplicas bound;
  kept_held : down_held input role (role_history input role) -> RsCurrent role <= n;
  kept_window : let m := rollingMaximum (role_history input role) (Now input) (down_window input) in
    m.2 = true -> Z.min (RsCurrent role) m.1 <= n;
  kept_step : DownStepPolicy (ScaleDown (Behavior (Spec input))) = None -> RsCurrent role - 1 <= n;
  kept_pending : RsPending role = true -> n <= RsCurrent role }.

(** What a solution keeps. *)
Lemma solve_keeps input :
  platform elsewhere32 -> solvable (timed clock input) ->
  (forall role bound, role ∈ InRoles input -> bounds_map (Spec input) !! RsName role = Some bound ->
     effective_minimum bound <= RsCurrent role <= MaxReplicas bound) ->
  exists r, SolveModelDeploymentScalerConstraints elsewhere32 ranging clock input = Done r /\
    (forall role bound, role ∈ InRoles input -> bounds_map (Spec input) !! RsName role = Some bound ->
       exists n, Replicas r !! RsName role = Some n /\ role_kept (timed clock input) role bound n) /\
    (ratiosSatisfied (current_vector input) (Ratios (Spec input)) = true ->
     ratiosSatisfied (Replicas r) (Ratios (Spec input)) = true).
Proof.
  intros Hp Hs Hcur. destruct (solve_runs input Hp Hs) as (r & seen & -> & Hinv & Hall). eexists. split; [done|].
  destruct (blocking_pacing_keeps (InRoles input) (blocking_from_reasons ranging r)) as [-> _].
  destruct (blocking_reasons_keeps ranging r) as [-> _]. destruct Hinv as [_ _ _ _ I5 I6 _ _ I8 _].
  destruct (timed_fields clock input) as [Es Er]. split.
  - intros role bound Hr Hb. assert (role ∈ InRoles (timed clock input)) as Hr' by (by rewrite Er).
    destruct (first_role elsewhere32 Hp _ Hs role Hr') as (bound' & Hb' & Hsome & [S1 S2 S3 S4 S5] & Hst & _).
    rewrite Es, Hb in Hb'. injection Hb' as <-. specialize (Hcur role bound Hr Hb). rewrite clamp_id in * by lia.
    destruct (I6 (RsName role)) as [n Hn]; [by eexists|]. exists n. split; [done|].
    specialize (I5 (RsName role)). rewrite (count_lookup _ _ _ Hn), Hst in I5. simpl in S1.
    split.
    + lia.
    + intros Hh. specialize (S2 Hh). lia.
    + intros m Hm. specialize (S3 Hm). fold m in S3. lia.
    + intros Hstep. specialize (S4 Hstep). lia.
    + intros Hpend. specialize (S5 Hpend). lia.
  - intros Hsat. rewrite Es in *. destruct I8 as [I8|I8]; [|done]. rewrite <- Hsat. apply ratiosSatisfied_ext.
    pose proof (solvable_names _ Hs) as Hnd. rewrite Er in Hnd.
    intros ratio Hr. rewrite !current_vector_count by done. rewrite Er in I8.
    split; apply I8; [exists (DenominatorRole ratio)|exists (NumeratorRole ratio)]; exists ratio; auto.
Qed.


(** Disconnected ratios block the scaler for good.  When two ratios are not
    connected by others, the solver checks each component against all ratios, also
    those of the other components, whose counts it takes as zero: no coupled role
    is ever moved, and each of them, and the scaler as a whole, reports a ratio
    conflict, whatever is recommended and whether or not the ratios hold. *)
Theorem disconnected_ratios_stick input role :
  platform elsewhere32 -> (forall A (m : gmap string A), ranging A m ≡ₚ map_to_list m) ->
  solvable (timed clock input) -> disconnected (Ratios (Spec input)) ->
  role ∈ InRoles input -> coupled (Ratios (Spec input)) (RsName role) ->
  exists r, SolveModelDeploymentScalerConstraints elsewhere32 ranging clock input = Done r /\
    count (Replicas r) (RsName role) = RsCurrent role /\ Reasons r !! RsName role = Some ReasonRatioConflict /\
    BlockingReason r = ReasonRatioConflict.
Proof.
  intros Hp Hrg Hs Hd Hr Hc. destruct (solve_runs input Hp Hs) as (r & seen & -> & Hinv & Hall). eexists. split; [done|].
  destruct (timed_fields clock input) as [Es Er]. assert (role ∈ InRoles (timed clock input)) as Hr' by (by rewrite Er).
  destruct (inv_foreign _ _ _ _ Hinv) as [F1 F2]; [by rewrite Es|].
  destruct (F1 (RsName role) (Hall role Hr)) as [Hn Hreason]; [by rewrite Es|].
  destruct (first_role elsewhere32 Hp _ Hs role Hr') as (_ & _ & _ & _ & Hst & _). rewrite Hst in Hn.
  assert (BlockingReason (blocking_from_reasons ranging r) = ReasonRatioConflict) as Hb.
  { apply (blocking_conflict ranging r (RsName role) Hrg); [apply Hinv|done|done]. }
  unfold blocking_from_pacing. rewrite Hb. rewrite bool_decide_false by done.
  destruct (blocking_reasons_keeps ranging r) as (-> & -> & _). done.
Qed.


(** *** Reaching the recommendation *)

(** A run of ticks in which an uncoupled role is asked for [n] replicas and gets
    the count of the last solution; times, histories and other roles are free. *)
Record asked_for (spec : PolicySpec) (name : string) (n : Z) (bound : RoleBounds)
    (ticks : nat -> ConstraintInput) (role : nat -> RoleState) : Prop := {
  asked_spec : forall k, Spec (ticks k) = spec;
  asked_solvable : forall k, solvable (timed clock (ticks k));
  asked_bound : bounds_map spec !! name = Some bound;
  asked_alone : ~ coupled (Ratios spec) name;
  asked_role : forall k, role k ∈ InRoles (ticks k) /\ RsName (role k) = name /\ RsRaw (role k) = n /\ RsPending (role k) = false;
  asked_steps : steps_up (ScaleUp (Behavior spec));
  asked_next : forall k r, SolveModelDeploymentScalerConstraints elsewhere32 ranging clock (ticks k) = Done r ->
    RsCurrent (role (S k)) = count (Replicas r) name }.

Lemma solve_alone input role bound :
  platform elsewhere32 -> solvable (timed clock input) -> role ∈ InRoles input -> ~ coupled (Ratios (Spec input)) (RsName role) ->
  bounds_map (Spec input) !! RsName role = Some bound ->
  exists r, SolveModelDeploymentScalerConstraints elsewhere32 ranging clock input = Done r /\
    let i := roleInterval elsewhere32 (timed clock input) role bound (role_history (timed clock input) role) in
    count (Replicas r) (RsName role) = clamp (RsRaw role) (Floor i) (Ceil i).
Proof.
  intros Hp Hs Hr Hc Hb. destruct (solve_runs input Hp Hs) as (r & seen & -> & Hinv & Hall). eexists. split; [done|].
  destruct (blocking_pacing_keeps (InRoles input) (blocking_from_reasons ranging r)) as [-> _].
  destruct (blocking_reasons_keeps ranging r) as [-> _]. cbv zeta.
  destruct (timed_fields clock input) as [Es Er]. assert (role ∈ InRoles (timed clock input)) as Hr' by (by rewrite Er).
  rewrite (inv_alone_exact _ _ _ _ Hinv (RsName role) (Hall role Hr)) by (by rewrite Es).
  destruct (first_role elsewhere32 Hp _ Hs role Hr') as (_ & _ & _ & _ & -> & _).
  destruct (first_loop elsewhere32 _ Hs (InRoles (timed clock input)) (solvable_names _ Hs)) as (_ & _ & H3 & _); [done|].
  destruct (H3 role bound Hr') as (_ & E2 & _); [by rewrite Es|]. unfold interval_of, first_result. by rewrite E2.
Qed.

End theorems.

(** ** Examples *)

Module SolverExample.
(** A platform whose conversions out of range give the least integer. *)
Definition lowest (f : float64) : Z := - 2 ^ 31.
Definition in_map_order (A : Type) (m : gmap string A) : list (string * A) := map_to_list m.

Lemma lowest_platform : platform lowest.
Proof. intros f. unfold lowest, is_i32. split; [lia|by left]. Defined.

Definition bounds (name : string) : RoleBounds := {| BName := name; MinReplicas := 1; MaxReplicas := 6 |}.
Definition unit_ratio (numerator denominator : string) : RoleRatio :=
  {| NumeratorRole := numerator; DenominatorRole := denominator;
     RTarget := Some {| QValue := 1; QExponent := 0 |}; RMin := Some {| QValue := 5; QExponent := -1 |};
     RMax := Some {| QValue := 2; QExponent := 0 |} |}.
Definition policy (names : list string) (ratios : list RoleRatio) : PolicySpec :=
  {| Roles := bounds <$> names; Ratios := ratios;
     Behavior := {| ScaleUp := {| UpStabilizationWindowSeconds := 0; MaxStepReplicas := 0; MaxStepPercent := 0;
                                  UpStepPolicy := None |};
                    ScaleDown := {| DownStabilizationWindowSeconds := 60; CooldownAfterAbortSeconds := 0;
                                    DecodePostScaleUpGraceSeconds := 0; DownStepPolicy := None |} |} |}.
Definition state (raw current : Z) (name : string) : RoleState :=
  {| RsName := name; RsKind := name; RsCurrent := current; RsRaw := raw; RsHoldScaleDown := false;
     RsCompleteCoverage := true; RsPending := false; RsLastScaleUpTime := 0; RsHistory := [] |}.
Definition tick (names : list string) (ratios : list RoleRatio) (raw current : Z) : ConstraintInput :=
  {| Spec := policy names ratios; InRoles := state raw current <$> names; HasActiveRetirement := false;
     InAbortCooldown := false; CooldownUntil := 0; Now := 1000 |}.

Lemma tick_solvable names ratios raw current :
  NoDup names -> Forall (fun name => bounds_map (policy names ratios) !! name = Some (bounds name)) names ->
  solvable (timed 1 (tick names ratios raw current)).
Proof.
  intros Hnd Hb. rewrite Forall_forall in Hb. split.
  - simpl. rewrite <- list_fmap_compose. rewrite (list_fmap_ext _ id names) by done. by rewrite list_fmap_id.
  - simpl. intros role (name & -> & Hn)%list_elem_of_fmap. exists (bounds name). split; [by apply Hb|]. by vm_compute.
  - done.
Defined.

Definition pair : list string := ["decode"; "prefill"].
Definition pair_ratios : list RoleRatio := [unit_ratio "prefill" "decode"].


Definition two_pairs : list string := ["a"; "b"; "c"; "d"].
Definition two_ratios : list RoleRatio := [unit_ratio "a" "b"; unit_ratio "c" "d"].

(** Two independent pairs, all asked for 5 and standing at 2, which satisfies
    both ratios and leaves room for 5. *)
Lemma disconnected_ratios_stick_witness : exists r,
  SolveModelDeploymentScalerConstraints lowest in_map_order 1 (tick two_pairs two_ratios 5 2) = Done r /\
  count (Replicas r) "a" = 2 /\ BlockingReason r = ReasonRatioConflict.
Proof.
  destruct (disconnected_ratios_stick lowest in_map_order 1 (tick two_pairs two_ratios 5 2) (state 5 2 "a"))
    as (r & Hr & Hn & _ & Hb).
  - exact lowest_platform.
  - done.
  - apply tick_solvable; [|by repeat constructor]. by apply (bool_decide_unpack _).
  - exists (unit_ratio "a" "b"), (unit_ratio "c" "d"). split; [left|]. split; [right; left|]. simpl.
    assert (forall x y, connected two_ratios x y -> x = "a" \/ x = "b" -> y = "a" \/ y = "b") as H.
    { induction 1 as [|x y z (ratio & Hr & Hc) _ IH]; [done|]. intros Hx. apply IH.
      apply elem_of_cons in Hr as [->|[->|[]%elem_of_nil]%elem_of_cons]; simpl in Hc; naive_solver. }
    intros Hc. apply H in Hc; naive_solver.
  - simpl. left.
  - exists "b", (unit_ratio "a" "b"). split; [left|]. by left.
  - exists r. auto.
Defined.

Definition pair_vector (n m : Z) : gmap string Z := <["decode" := n]> {["prefill" := m]}.

Lemma pair_vector_all (P : Z -> Z -> Prop) n m n' m' :
  P n n' -> P m m' -> P 0 0 -> forall name, P (count (pair_vector n m) name) (count (pair_vector n' m') name).
Proof.
  intros ??? name. unfold count, pair_vector. destruct (decide (name = "decode")) as [->|]; [by vm_compute|].
  destruct (decide (name = "prefill")) as [->|]; [by vm_compute|]. by rewrite !lookup_insert_ne, !lookup_singleton_ne by done.
Defined.


(** A server that starts with one replica and is asked for six. *)
Fixpoint grown (k : nat) : Z :=
  match k with
  | O => 1
  | S k => match SolveModelDeploymentScalerConstraints lowest in_map_order 1 (tick ["server"] [] 6 (grown k)) with
           | Done r => count (Replicas r) "server"
           | _ => 0
           end
  end.

End SolverExample.
