(* ===== verification/ScalerFeasibility.v ===== *)
(** * Admission of roles and ratios

    Models the part of src/pkg/worker/webhooks/worker/model_deployment_scaler.go
    that judges the roles and ratios of a scaler: the checks of the bounds and of
    the quantities, the grouping of coupled roles by union-find, and the exact
    search for a replica vector.  Errors keep their kind, path and value. *)

From stdpp Require Import prelude gmap strings list pretty.
From Stdlib Require Import QArith.
From S2P Require Import Prelude ScalerSpec.
#[local] Open Scope Z_scope.

(** ** Errors *)

Inductive field_value :=
  | VString (s : string)
  | VInt (z : Z)
  | VQuantity (q : Quantity).

Inductive field_error :=
  | ErrDuplicate (path : string) (value : field_value)
  | ErrInvalid (path : string) (value : field_value).

(** [path.Index(i)] *)
Definition path_index (path : string) (i : nat) : string := path +:+ "[" +:+ pretty (Z.of_nat i) +:+ "]".
(** [path.Child(name)] *)
Definition path_child (path name : string) : string := path +:+ "." +:+ name.

(** ** Roles *)

Definition modelDeploymentScalerMaxReplicas : Z := 1024.
Definition modelDeploymentScalerFeasibilityBudget : Z := 2 ^ 14.

(** One entry of the roles; [seen] maps a name to its index. *)
Definition role_errors (acc : gmap string nat * list field_error) (entry : nat * RoleBounds)
    : gmap string nat * list field_error :=
  let (seen, errs) := acc in
  let (i, bounds) := entry in
  let rolePath := path_index "spec.roles" i in
  match seen !! BName bounds with
  | Some _ =>
      (seen, errs ++ [ErrDuplicate (path_child rolePath "name") (VString (BName bounds));
                      ErrInvalid (path_child rolePath "name") (VString (BName bounds))])
  | None =>
      (<[BName bounds := i]> seen,
       errs
       ++ (if MinReplicas bounds <? 1
           then [ErrInvalid (path_child rolePath "minReplicas") (VInt (MinReplicas bounds))] else [])
       ++ (if MaxReplicas bounds <? 1
           then [ErrInvalid (path_child rolePath "maxReplicas") (VInt (MaxReplicas bounds))] else [])
       ++ (if modelDeploymentScalerMaxReplicas <? MaxReplicas bounds
           then [ErrInvalid (path_child rolePath "maxReplicas") (VInt (MaxReplicas bounds))] else [])
       ++ (if MaxReplicas bounds <? MinReplicas bounds
           then [ErrInvalid (path_child rolePath "minReplicas") (VInt (MinReplicas bounds))] else []))
  end.

Definition validateModelDeploymentScalerRoles (spec : PolicySpec) : list field_error :=
  (foldl role_errors (∅, []) (imap pair (Roles spec))).2.

(** ** Ratios *)

Definition validateModelDeploymentScalerPositiveQuantity (path : string) (quantity : option Quantity)
    : list field_error :=
  match quantity with
  | None => []
  | Some q => if quantity_sign q <=? 0 then [ErrInvalid path (VQuantity q)] else []
  end.

(** [a.Cmp(b) > 0], of two optional values; unset ones compare with nothing. *)
Definition exceeds (a b : option Q) : bool :=
  match a, b with
  | Some a, Some b => match Qcompare a b with Gt => true | _ => false end
  | _, _ => false
  end.

(** The quantity an error carries, set where it is compared. *)
Definition quantity_value (q : option Quantity) : field_value :=
  match q with Some q => VQuantity q | None => VString "" end.

Definition validateModelDeploymentScalerRatioQuantities (ratio : RoleRatio) (ratioPath : string) : list field_error :=
  let minimum := modelDeploymentScalerRatioValue (RMin ratio) in
  let maximum := modelDeploymentScalerRatioValue (RMax ratio) in
  let target := modelDeploymentScalerRatioValue (RTarget ratio) in
  validateModelDeploymentScalerPositiveQuantity (path_child ratioPath "target") (RTarget ratio)
  ++ validateModelDeploymentScalerPositiveQuantity (path_child ratioPath "min") (RMin ratio)
  ++ validateModelDeploymentScalerPositiveQuantity (path_child ratioPath "max") (RMax ratio)
  ++ (if exceeds minimum maximum then [ErrInvalid (path_child ratioPath "max") (quantity_value (RMax ratio))] else [])
  ++ (if exceeds minimum target then [ErrInvalid (path_child ratioPath "target") (quantity_value (RTarget ratio))] else [])
  ++ (if exceeds target maximum then [ErrInvalid (path_child ratioPath "target") (quantity_value (RTarget ratio))] else []).

(** One entry of the ratios. *)
Definition ratio_errors (known : gset string) (acc : gmap string nat * list field_error) (entry : nat * RoleRatio)
    : gmap string nat * list field_error :=
  let (seen, errs) := acc in
  let (i, ratio) := entry in
  let ratioPath := path_index "spec.ratios" i in
  if bool_decide (NumeratorRole ratio = DenominatorRole ratio)
  then (seen, errs ++ [ErrInvalid (path_child ratioPath "numeratorRole") (VString (NumeratorRole ratio))])
  else
    let errs := errs
      ++ (if bool_decide (NumeratorRole ratio ∈ known) then []
          else [ErrInvalid (path_child ratioPath "numeratorRole") (VString (NumeratorRole ratio))])
      ++ (if bool_decide (DenominatorRole ratio ∈ known) then []
          else [ErrInvalid (path_child ratioPath "denominatorRole") (VString (DenominatorRole ratio))]) in
    let key := NumeratorRole ratio +:+ "/" +:+ DenominatorRole ratio in
    match seen !! key with
    | Some _ => (seen, errs ++ [ErrDuplicate ratioPath (VString key); ErrInvalid ratioPath (VString key)])
    | None => (<[key := i]> seen, errs ++ validateModelDeploymentScalerRatioQuantities ratio ratioPath)
    end.

Definition validateModelDeploymentScalerRatios (spec : PolicySpec) : list field_error :=
  let known := list_to_set (BName <$> Roles spec) in
  (foldl (ratio_errors known) (∅, []) (imap pair (Ratios spec))).2.

(** ** Components by union-find *)

Record Band := { BandNumerator : string; BandDenominator : string; BandMinimum : option Q; BandMaximum : option Q }.

Record Component := {
  CRoles : list string; CLow : list Z; CHigh : list Z; CRatios : list Band; CIndex : gmap string Z }.

(** The loop of [modelDeploymentScalerFind], halving the path on the way. *)
Fixpoint find_loop (fuel : nat) (parent : list Z) (i : Z) : outcome (list Z * Z) :=
  match fuel with
  | O => Stuck
  | S fuel =>
      let* p := slice_get parent i in
      if p =? i then Done (parent, i)
      else
        let* grand := slice_get parent p in
        let* parent := slice_set parent i grand in
        find_loop fuel parent grand
  end.

(** More rounds than there are roles are never needed. *)
Definition modelDeploymentScalerFind (parent : list Z) (i : Z) : outcome (list Z * Z) :=
  find_loop (S (length parent)) parent i.

Definition modelDeploymentScalerUnion (parent : list Z) (a b : Z) : outcome (list Z) :=
  let* found := modelDeploymentScalerFind parent a in
  let rootA := found.2 in
  let* found := modelDeploymentScalerFind found.1 b in
  let rootB := found.2 in
  if rootA =? rootB then Done found.1 else slice_set found.1 rootB rootA.

Definition positions (roles : list RoleBounds) : gmap string Z :=
  foldl (fun m entry => <[BName entry.2 := Z.of_nat entry.1]> m) ∅ (imap pair roles).

Definition band_of (ratio : RoleRatio) : Band :=
  {| BandNumerator := NumeratorRole ratio; BandDenominator := DenominatorRole ratio;
     BandMinimum := modelDeploymentScalerRatioValue (RMin ratio);
     BandMaximum := modelDeploymentScalerRatioValue (RMax ratio) |}.

(** A ratio couples its roles and becomes a band. *)
Definition couple (position : gmap string Z) (acc : list Z * list Band) (ratio : RoleRatio)
    : outcome (list Z * list Band) :=
  match position !! NumeratorRole ratio, position !! DenominatorRole ratio with
  | Some numerator, Some denominator =>
      let* parent := modelDeploymentScalerUnion acc.1 numerator denominator in
      Done (parent, acc.2 ++ [band_of ratio])
  | _, _ => Done acc
  end.

Definition empty_component : Component :=
  {| CRoles := []; CLow := []; CHigh := []; CRatios := []; CIndex := ∅ |}.

Definition add_role (component : Component) (bounds : RoleBounds) : Component :=
  {| CIndex := <[BName bounds := Z.of_nat (length (CRoles component))]> (CIndex component);
     CRoles := CRoles component ++ [BName bounds];
     CLow := CLow component ++ [MinReplicas bounds];
     CHigh := CHigh component ++ [MaxReplicas bounds];
     CRatios := CRatios component |}.

Definition add_band (band : Band) (component : Component) : Component :=
  {| CRoles := CRoles component; CLow := CLow component; CHigh := CHigh component;
     CRatios := CRatios component ++ [band]; CIndex := CIndex component |}.

(** A role joins the group of its root. *)
Definition group_role (acc : list Z * gmap Z Component) (entry : nat * RoleBounds)
    : outcome (list Z * gmap Z Component) :=
  let* found := modelDeploymentScalerFind acc.1 (Z.of_nat entry.1) in
  let component := default empty_component (acc.2 !! found.2) in
  Done (found.1, <[found.2 := add_role component entry.2]> acc.2).

(** A band joins the group of both its roles; an absent group is a nil pointer. *)
Definition group_band (position : gmap string Z) (acc : list Z * gmap Z Component) (band : Band)
    : outcome (list Z * gmap Z Component) :=
  let* found := modelDeploymentScalerFind acc.1 (default 0 (position !! BandNumerator band)) in
  let rootN := found.2 in
  let* found := modelDeploymentScalerFind found.1 (default 0 (position !! BandDenominator band)) in
  let rootD := found.2 in
  match acc.2 !! rootN, acc.2 !! rootD with
  | Some component, Some _ =>
      if rootN =? rootD then Done (found.1, <[rootN := add_band band component]> acc.2) else Done (found.1, acc.2)
  | None, None => Panic
  | _, _ => Done (found.1, acc.2)
  end.

Section feasibility.
(** The order in which the groups are ranged over. *)
Context (ranging : gmap Z Component -> list (Z * Component)).

Definition modelDeploymentScalerComponents (spec : PolicySpec) : outcome (list Component) :=
  let parent := Z.of_nat <$> seq 0 (length (Roles spec)) in
  let position := positions (Roles spec) in
  let* coupled := fold_outcome (couple position) (parent, []) (Ratios spec) in
  let* grouped := fold_outcome group_role (coupled.1, ∅) (imap pair (Roles spec)) in
  let* grouped := fold_outcome (group_band position) grouped coupled.2 in
  Done (ranging grouped.2).*2.

(** ** The search *)

(** [new(big.Rat).SetFrac] *)
Definition set_frac (n d : Z) : Q := if d <? 0 then (- n) # Z.to_pos (- d) else n # Z.to_pos d.

Definition band_holds (band : Band) (numerator denominator : Z) : bool :=
  if denominator =? 0 then false
  else
    let quotient := Some (set_frac numerator denominator) in
    negb (exceeds (BandMinimum band) quotient) && negb (exceeds quotient (BandMaximum band)).

Definition position_in (c : Component) (name : string) : Z := default 0 (CIndex c !! name).

Fixpoint bands_hold (c : Component) (bands : list Band) (vector : list Z) : outcome bool :=
  match bands with
  | [] => Done true
  | band :: bands =>
      let* numerator := slice_get vector (position_in c (BandNumerator band)) in
      let* denominator := slice_get vector (position_in c (BandDenominator band)) in
      if band_holds band numerator denominator then bands_hold c bands vector else Done false
  end.

Definition holds (c : Component) (vector : list Z) : outcome bool := bands_hold c (CRatios c) vector.

(** The quotient rounded up, and down, in 64 bits. *)
Definition modelDeploymentScalerCeil (ratio : Q) : Z :=
  let quotient := Z.quot (Qnum ratio) (Zpos (Qden ratio)) in
  let remainder := Z.rem (Qnum ratio) (Zpos (Qden ratio)) in
  i64 (if 0 <? remainder then quotient + 1 else quotient).

Definition modelDeploymentScalerFloor (ratio : Q) : Z :=
  i64 (Z.quot (Qnum ratio) (Zpos (Qden ratio))).

(** [new(big.Rat).Quo] panics on a zero divisor. *)
Definition rat_quo (a b : Q) : outcome Q := if Qnum b =? 0 then Panic else Done (a / b)%Q.

(** Raise the lower bound of a role, or lower its upper bound. *)
Definition raise_low (low : list Z) (i bound : Z) : outcome (list Z) :=
  let* l := slice_get low i in if l <? bound then slice_set low i bound else Done low.
Definition lower_high (high : list Z) (i bound : Z) : outcome (list Z) :=
  let* h := slice_get high i in if bound <? h then slice_set high i bound else Done high.

(** The vectors after tightening, and whether the role's interval is not empty. *)
Definition tightened_to (low high : list Z) (i : Z) : outcome (bool * (list Z * list Z)) :=
  let* l := slice_get low i in
  let* h := slice_get high i in
  Done (l <=? h, (low, high)).

Definition tightenNumerator (low high : list Z) (numerator denominator : Z) (band : Band)
    : outcome (bool * (list Z * list Z)) :=
  let* known := slice_get low denominator in
  let value := known # 1 in
  let* low := match BandMinimum band with
    | Some minimum => raise_low low numerator (modelDeploymentScalerCeil (minimum * value)%Q)
    | None => Done low
    end in
  let* high := match BandMaximum band with
    | Some maximum => lower_high high numerator (modelDeploymentScalerFloor (maximum * value)%Q)
    | None => Done high
    end in
  tightened_to low high numerator.

Definition tightenDenominator (low high : list Z) (denominator numerator : Z) (band : Band)
    : outcome (bool * (list Z * list Z)) :=
  let* known := slice_get low numerator in
  let value := known # 1 in
  let* low := match BandMaximum band with
    | Some maximum => let* q := rat_quo value maximum in raise_low low denominator (modelDeploymentScalerCeil q)
    | None => Done low
    end in
  let* high := match BandMinimum band with
    | Some minimum => let* q := rat_quo value minimum in lower_high high denominator (modelDeploymentScalerFloor q)
    | None => Done high
    end in
  tightened_to low high denominator.

Fixpoint propagate_bands (c : Component) (bands : list Band) (index : Z) (low high : list Z)
    : outcome (bool * (list Z * list Z)) :=
  match bands with
  | [] => Done (true, (low, high))
  | band :: bands =>
      let numerator := position_in c (BandNumerator band) in
      let denominator := position_in c (BandDenominator band) in
      let* t :=
        if numerator =? index then tightenDenominator low high denominator numerator band
        else if denominator =? index then tightenNumerator low high numerator denominator band
        else Done (true, (low, high)) in
      if t.1 then propagate_bands c bands index t.2.1 t.2.2 else Done t
  end.

Definition propagate (c : Component) (index : Z) (low high : list Z) : outcome (bool * (list Z * list Z)) :=
  propagate_bands c (CRatios c) index low high.

(** The loop over the values of a role: each costs one of the budget. *)
Fixpoint try_values (visit : Z -> Z -> outcome (bool * Z)) (values : list Z) (budget : Z) : outcome (bool * Z) :=
  match values with
  | [] => Done (false, budget)
  | value :: values =>
      let budget := budget - 1 in
      if budget <=? 0 then Done (false, budget)
      else
        let* r := visit value budget in
        if r.1 then Done r else try_values visit values r.2
  end.

(** [roles] are those from the position on; the answer comes with the budget left. *)
Fixpoint search (c : Component) (roles : list string) (low high : list Z) (budget : Z) : outcome (bool * Z) :=
  match roles with
  | [] => let* b := holds c low in Done (b, budget)
  | role :: roles =>
      if budget <=? 0 then Done (false, budget)
      else
        let index := position_in c role in
        let* l := slice_get low index in
        let* h := slice_get high index in
        try_values (fun value budget =>
            let* nextLow := slice_set low index value in
            let* nextHigh := slice_set high index value in
            let* t := propagate c index nextLow nextHigh in
            if t.1 then search c roles t.2.1 t.2.2 budget else Done (false, budget))
          (seqZ l (h - l + 1)) budget
  end.

Definition feasible (c : Component) (budget : Z) : outcome (bool * Z) :=
  match CRatios c with
  | [] => Done (true, budget)
  | _ =>
      let* atLow := holds c (CLow c) in
      if atLow then Done (true, budget)
      else
        let* atHigh := holds c (CHigh c) in
        if atHigh then Done (true, budget) else search c (CRoles c) (CLow c) (CHigh c) budget
  end.

Definition roleNames (c : Component) : string := String.concat ", " (CRoles c).

Definition judge (errs : list field_error) (component : Component) : outcome (list field_error) :=
  let* r := feasible component modelDeploymentScalerFeasibilityBudget in
  if r.1 then Done errs
  else if r.2 <=? 0 then Done errs
  else Done (errs ++ [ErrInvalid "spec.roles" (VString (roleNames component))]).

Definition validateModelDeploymentScalerRatioFeasibility (spec : PolicySpec) : outcome (list field_error) :=
  let* components := modelDeploymentScalerComponents spec in
  fold_outcome judge [] components.
End feasibility.
