(* ===== verification/ScalerAdmission.v ===== *)
(** * What the admission of ratios decides

    Theorems about ScalerFeasibility.v: the union-find and the groups it gives,
    the search as an exact decision, and the check as a whole. *)

From stdpp Require Import prelude gmap strings list pretty.
From Stdlib Require Import QArith Qround.
From S2P Require Import Prelude ScalerSpec ScalerFeasibility.
#[local] Open Scope Z_scope.

(** ** Union-find *)

Lemma slice_get_inv {A} (l : list A) i x : slice_get l i = Done x -> 0 <= i < Z.of_nat (length l) /\ l !! Z.to_nat i = Some x.
Proof.
  unfold slice_get. destruct (Z.ltb_spec i 0); [done|]. destruct (l !! Z.to_nat i) eqn:E; [|done].
  intros [= <-]. apply lookup_lt_Some in E as ?. split; [lia|done].
Qed.

Lemma slice_get_set {A} (l : list A) i x j :
  0 <= i < Z.of_nat (length l) -> slice_get (<[Z.to_nat i := x]> l) j = if decide (i = j) then Done x else slice_get l j.
Proof.
  intros Hi. unfold slice_get. destruct (Z.ltb_spec j 0); [by case_decide; [lia|]|].
  case_decide as E; [subst; rewrite list_lookup_insert_eq by lia; done|].
  by rewrite list_lookup_insert_ne by lia.
Qed.

Lemma slice_get_ok {A} (l : list A) i : 0 <= i < Z.of_nat (length l) -> exists x, slice_get l i = Done x.
Proof.
  intros Hi. destruct (lookup_lt_is_Some_2 l (Z.to_nat i)) as [x Hx]; [lia|]. exists x. apply slice_get_Some; [lia|done].
Qed.

(** [reach parent i k r]: following [k] parents from [i] leads to the root [r]. *)
Inductive reach (parent : list Z) : Z -> nat -> Z -> Prop :=
  | reach_root r : slice_get parent r = Done r -> reach parent r 0 r
  | reach_step i p k r : slice_get parent i = Done p -> p <> i -> reach parent p k r -> reach parent i (S k) r.

Definition forest (parent : list Z) : Prop :=
  forall i, 0 <= i < Z.of_nat (length parent) -> exists k r, reach parent i k r.

Lemma reach_det parent i k r k' r' : reach parent i k r -> reach parent i k' r' -> k = k' /\ r = r'.
Proof.
  intros H. revert k' r'. induction H as [r Hr|i p k r Hp Hne H IH]; intros k' r' H'; inversion H' as [? Hr'|? p' ? ? Hp' ? H'']; subst.
  - done.
  - congruence.
  - congruence.
  - replace p' with p in * by congruence. by destruct (IH _ _ H'') as [-> ->].
Qed.

Lemma reach_in parent i k r : reach parent i k r -> 0 <= i < Z.of_nat (length parent) /\ 0 <= r < Z.of_nat (length parent) /\
  slice_get parent r = Done r.
Proof.
  induction 1 as [r Hr|i p k r Hp Hne H IH]; [|destruct IH as (_ & ? & ?); split; [apply slice_get_inv in Hp; tauto|auto]].
  apply slice_get_inv in Hr as ?. tauto.
Qed.

(** A path holds a role of every smaller depth, so it is shorter than the slice. *)
Lemma reach_path parent i k r : reach parent i k r ->
  exists path : list Z, length path = S k /\ NoDup path /\
    Forall (fun j => 0 <= j < Z.of_nat (length parent) /\ exists d, (d <= k)%nat /\ reach parent j d r) path.
Proof.
  induction 1 as [r Hr|i p k r Hp Hne H (path & Hlen & Hnd & Hall)].
  - exists [r]. split; [done|]. split; [apply NoDup_singleton|]. apply Forall_singleton.
    split; [apply slice_get_inv in Hr; tauto|]. exists 0%nat. split; [lia|by constructor].
  - assert (reach parent i (S k) r) as Hi by (by econstructor). exists (i :: path). simpl. split; [lia|]. split.
    + constructor; [|done]. intros Hin. rewrite Forall_forall in Hall.
      destruct (Hall i Hin) as (_ & d & Hd & Hreach). destruct (reach_det _ _ _ _ _ _ Hi Hreach). lia.
    + constructor; [split; [apply slice_get_inv in Hp; tauto|by exists (S k)]|].
      eapply Forall_impl; [exact Hall|]. intros j (? & d & ? & ?). split; [done|]. exists d. split; [lia|done].
Qed.

Lemma reach_depth parent i k r : reach parent i k r -> (k < length parent)%nat.
Proof.
  intros (path & Hlen & Hnd & Hall)%reach_path. rewrite Forall_forall in Hall.
  assert (length path <= length (Z.of_nat <$> seq 0 (length parent)))%nat as Hle.
  { apply submseteq_length, NoDup_submseteq; [done|]. intros j Hj. destruct (Hall j Hj) as [Hr _].
    apply list_elem_of_fmap. exists (Z.to_nat j). split; [lia|]. apply elem_of_seq. lia. }
  rewrite length_fmap, length_seq in Hle. lia.
Qed.

(** Two forests with the same roots. *)
Definition same_roots (parent parent' : list Z) : Prop :=
  length parent' = length parent /\
  forall j k r, reach parent j k r -> exists k', (k' <= k)%nat /\ reach parent' j k' r.

Lemma same_roots_refl parent : same_roots parent parent.
Proof. split; [done|]. intros j k r H. by exists k. Qed.

Lemma same_roots_trans p p' p'' : same_roots p p' -> same_roots p' p'' -> same_roots p p''.
Proof.
  intros [L1 H1] [L2 H2]. split; [congruence|]. intros j k r (k1 & ? & (k2 & ? & ?)%H2)%H1.
  exists k2. split; [lia|done].
Qed.

Lemma same_roots_forest p p' : same_roots p p' -> forest p -> forest p'.
Proof. intros [L H] Hf i Hi. rewrite L in Hi. destruct (Hf i Hi) as (k & r & (k' & _ & ?)%H). by exists k', r. Qed.

(** Halving a path keeps every root. *)
Lemma halve_roots parent i p grand :
  slice_get parent i = Done p -> p <> i -> slice_get parent p = Done grand ->
  same_roots parent (<[Z.to_nat i := grand]> parent).
Proof.
  intros Hp Hne Hg. destruct (slice_get_inv _ _ _ Hp) as [Hi _]. split; [by rewrite length_insert|].
  intros j k. revert j. induction (lt_wf k) as [k _ IH]. intros j r H.
  pose proof (fun x => slice_get_set parent i grand x Hi) as Hget.
  inversion H as [? Hr|? q k1 ? Hq Hqne H1]; subst.
  { exists 0%nat. split; [lia|]. constructor. rewrite Hget. rewrite decide_False by congruence. done. }
  destruct (decide (i = j)) as [<-|Hij].
  - replace q with p in * by congruence. inversion H1 as [? Hr|? g k2 ? Hg' Hgne H2]; subst.
    + replace grand with r in * by congruence. exists 1%nat. split; [lia|]. apply reach_step with r; [|done|].
      * rewrite Hget. by rewrite decide_True.
      * constructor. rewrite Hget. by rewrite decide_False.
    + replace g with grand in * by congruence. destruct (IH k2 ltac:(lia) grand r H2) as (k' & ? & H2').
      exists (S k'). split; [lia|]. apply reach_step with grand; [|intros ->; destruct (reach_det _ _ _ _ _ _ H H2); lia|done].
      rewrite Hget. by rewrite decide_True.
  - destruct (IH k1 ltac:(lia) q r H1) as (k' & ? & H1'). exists (S k'). split; [lia|].
    apply reach_step with q; [|done|done]. rewrite Hget. by rewrite decide_False.
Qed.

Lemma find_loop_spec fuel parent i k r :
  reach parent i k r -> (k < fuel)%nat ->
  exists parent', find_loop fuel parent i = Done (parent', r) /\ same_roots parent parent'.
Proof.
  revert parent i k. induction fuel as [|fuel IH]; intros parent i k H Hk; [lia|]. simpl.
  inversion H as [? Hr|? p k1 ? Hp Hne H1]; subst.
  { rewrite Hr. simpl. rewrite Z.eqb_refl. exists parent. split; [done|apply same_roots_refl]. }
  rewrite Hp. simpl. rewrite (proj2 (Z.eqb_neq p i) Hne).
  assert (exists grand k2, slice_get parent p = Done grand /\ reach parent grand k2 r /\ (k2 <= k1)%nat) as (grand & k2 & Hg & H2 & Hk2).
  { inversion H1 as [? Hr|? g k3 ? Hg Hgne H2]; subst; [by exists r, 0%nat|]. exists g, k3. split; [done|]. split; [done|lia]. }
  rewrite Hg. simpl. destruct (slice_get_inv _ _ _ Hp) as [Hi _]. rewrite slice_set_in by done. simpl.
  pose proof (halve_roots _ _ _ _ Hp Hne Hg) as Hh. destruct (proj2 Hh _ _ _ H2) as (k3 & ? & H3).
  destruct (IH _ _ _ H3 ltac:(lia)) as (parent' & -> & Hs). exists parent'. split; [done|]. by eapply same_roots_trans.
Qed.

(** The root of a role. *)
Definition root (parent : list Z) (i : Z) : Z :=
  match modelDeploymentScalerFind parent i with Done found => found.2 | _ => i end.

Lemma find_reach parent i k r :
  reach parent i k r -> exists parent', modelDeploymentScalerFind parent i = Done (parent', r) /\ same_roots parent parent'.
Proof.
  intros H. apply (find_loop_spec _ _ _ _ _ H). apply reach_depth in H. lia.
Qed.

Lemma root_reach parent i k r : reach parent i k r -> root parent i = r.
Proof. intros H. unfold root. by destruct (find_reach _ _ _ _ H) as (? & -> & _). Qed.

Lemma reach_of_root parent i : forest parent -> 0 <= i < Z.of_nat (length parent) -> exists k, reach parent i k (root parent i).
Proof. intros Hf Hi. destruct (Hf i Hi) as (k & r & H). exists k. by rewrite (root_reach _ _ _ _ H). Qed.

(** The find is total on a forest: it answers the root and keeps all roots. *)
Lemma find_spec parent i :
  forest parent -> 0 <= i < Z.of_nat (length parent) ->
  exists parent', modelDeploymentScalerFind parent i = Done (parent', root parent i) /\ forest parent' /\
    length parent' = length parent /\ forall j, 0 <= j < Z.of_nat (length parent) -> root parent' j = root parent j.
Proof.
  intros Hf Hi. destruct (reach_of_root _ _ Hf Hi) as [k H]. destruct (find_reach _ _ _ _ H) as (parent' & E & Hs).
  exists parent'. split; [done|]. split; [by eapply same_roots_forest|]. split; [apply Hs|].
  intros j Hj. destruct (reach_of_root _ _ Hf Hj) as [kj Hk]. destruct (proj2 Hs _ _ _ Hk) as (k' & _ & ?). by eapply root_reach.
Qed.

(** Hanging a root under another. *)
Lemma hang_reach parent a b j k r :
  slice_get parent a = Done a -> slice_get parent b = Done b -> a <> b -> reach parent j k r ->
  exists k', reach (<[Z.to_nat b := a]> parent) j k' (if decide (r = b) then a else r).
Proof.
  intros Ha Hb Hab H. destruct (slice_get_inv _ _ _ Hb) as [Hbr _].
  pose proof (fun x => slice_get_set parent b a x Hbr) as Hget.
  assert (reach (<[Z.to_nat b := a]> parent) a 0 a) as Hroot.
  { constructor. rewrite Hget. by rewrite decide_False. }
  induction H as [r Hr|i p k r Hp Hne H IH].
  - case_decide as E; [subst|].
    + exists 1%nat. apply reach_step with a; [|done|done]. rewrite Hget. by rewrite decide_True.
    + exists 0%nat. constructor. rewrite Hget. by rewrite decide_False.
  - destruct IH as [k' IH]. exists (S k'). apply reach_step with p; [|done|done].
    rewrite Hget. rewrite decide_False; [done|]. intros ->. congruence.
Qed.

(** The union is total on a forest, joins its two roles and separates none. *)
Lemma union_spec parent a b :
  forest parent -> 0 <= a < Z.of_nat (length parent) -> 0 <= b < Z.of_nat (length parent) ->
  exists parent', modelDeploymentScalerUnion parent a b = Done parent' /\ forest parent' /\ length parent' = length parent /\
    forall j, 0 <= j < Z.of_nat (length parent) ->
      root parent' j = if decide (root parent j = root parent b) then root parent a else root parent j.
Proof.
  intros Hf Ha Hb. unfold modelDeploymentScalerUnion.
  destruct (find_spec parent a Hf Ha) as (p1 & -> & Hf1 & L1 & R1). simpl.
  destruct (find_spec p1 b Hf1 ltac:(lia)) as (p2 & -> & Hf2 & L2 & R2). simpl. rewrite (R1 b Hb).
  assert (forall j, 0 <= j < Z.of_nat (length parent) -> root p2 j = root parent j) as R by (intros j Hj; rewrite R2, R1 by lia; done).
  destruct (Z.eqb_spec (root parent a) (root parent b)) as [E|E].
  { exists p2. split; [done|]. split; [done|]. split; [lia|]. intros j Hj. rewrite R by done. case_decide; congruence. }
  destruct (reach_of_root p2 a Hf2 ltac:(lia)) as [ka Hra]. destruct (reach_of_root p2 b Hf2 ltac:(lia)) as [kb Hrb].
  rewrite R in Hra, Hrb by done. destruct (reach_in _ _ _ _ Hra) as (_ & Ra & Sa). destruct (reach_in _ _ _ _ Hrb) as (_ & Rb & Sb).
  rewrite slice_set_in by done. eexists. split; [done|]. rewrite length_insert.
  assert (forall j, 0 <= j < Z.of_nat (length parent) -> exists k,
    reach (<[Z.to_nat (root parent b) := root parent a]> p2) j k (if decide (root parent j = root parent b) then root parent a else root parent j)) as H.
  { intros j Hj. destruct (reach_of_root p2 j Hf2 ltac:(lia)) as [k Hk]. rewrite R in Hk by done. by eapply hang_reach. }
  split; [|split; [lia|]].
  - intros j Hj. rewrite length_insert in Hj. destruct (H j ltac:(lia)) as [k Hk]. eauto.
  - intros j Hj. destruct (H j Hj) as [k Hk]. by eapply root_reach.
Qed.

(** ** What the field checks leave *)

Lemma imap_pair_snoc {A} (l : list A) x : imap pair (l ++ [x]) = imap pair l ++ [(length l, x)].
Proof. rewrite imap_app. simpl. by rewrite Nat.add_0_r. Qed.

Lemma imap_pair_snd {A} (l : list A) : (imap pair l).*2 = l.
Proof. induction l as [|x l IH] using rev_ind; [done|]. rewrite imap_pair_snoc, fmap_app, IH. done. Qed.

(** The bounds of a role that passes. *)
Definition role_admitted (b : RoleBounds) : Prop :=
  1 <= MinReplicas b /\ MinReplicas b <= MaxReplicas b /\ MaxReplicas b <= modelDeploymentScalerMaxReplicas.

Lemma roles_admitted spec :
  validateModelDeploymentScalerRoles spec = [] -> NoDup (BName <$> Roles spec) /\ Forall role_admitted (Roles spec).
Proof.
  unfold validateModelDeploymentScalerRoles.
  enough (forall l, let acc := foldl role_errors (∅, []) (imap pair l) in acc.2 = [] ->
    NoDup (BName <$> l) /\ Forall role_admitted l /\ dom acc.1 = list_to_set (BName <$> l)) as H.
  { intros E. destruct (H (Roles spec) E) as (? & ? & _). done. }
  induction l as [|b l IH] using rev_ind; [intros acc _; split; [constructor|]; split; [constructor|done]|].
  rewrite imap_pair_snoc, foldl_app. simpl in *.
  destruct (foldl role_errors (∅, []) (imap pair l)) as [seen errs]. simpl in *.
  destruct (seen !! BName b) as [first|] eqn:Eb; simpl; [by intros [_ ?]%app_nil|].
  intros (-> & (E1 & (E2 & (E3 & E4)%app_nil)%app_nil)%app_nil)%app_nil. destruct (IH eq_refl) as (Hnd & Hall & Hdom).
  rewrite fmap_app. split; [|split].
  - apply NoDup_app. split; [done|]. split; [|apply NoDup_singleton]. intros x Hx ->%list_elem_of_singleton.
    apply not_elem_of_dom in Eb. rewrite Hdom in Eb. apply Eb. by rewrite elem_of_list_to_set.
  - apply Forall_app. split; [done|]. apply Forall_singleton. unfold role_admitted, modelDeploymentScalerMaxReplicas in *.
    revert E1 E2 E3 E4. zcases; try done.
  - rewrite dom_insert_L, Hdom, list_to_set_app_L. simpl. set_solver.
Qed.

(** A quantity, if it is set, is positive. *)
Definition positive (q : option Q) : Prop := forall x, q = Some x -> 0 < Qnum x.

Lemma positive_value path q :
  validateModelDeploymentScalerPositiveQuantity path q = [] -> positive (modelDeploymentScalerRatioValue q).
Proof.
  destruct q as [[v e]|]; [|by intros _ x]. simpl. destruct (Z.leb_spec (quantity_sign {| QValue := v; QExponent := e |}) 0) as [|Hs]; [done|].
  intros _ x [= <-]. unfold quantity_sign in Hs. simpl in *. apply Z.sgn_pos_iff in Hs.
  destruct (Z.leb_spec 0 (- e)); simpl; [lia|]. apply Z.mul_pos_pos; [lia|]. apply Z.pow_pos_nonneg; lia.
Qed.

(** A ratio that passes names two roles and has positive bounds. *)
Definition ratio_admitted (known : gset string) (ratio : RoleRatio) : Prop :=
  NumeratorRole ratio <> DenominatorRole ratio /\ NumeratorRole ratio ∈ known /\ DenominatorRole ratio ∈ known /\
  positive (modelDeploymentScalerRatioValue (RMin ratio)) /\ positive (modelDeploymentScalerRatioValue (RMax ratio)).

Lemma ratios_admitted spec :
  validateModelDeploymentScalerRatios spec = [] ->
  Forall (ratio_admitted (list_to_set (BName <$> Roles spec))) (Ratios spec).
Proof.
  unfold validateModelDeploymentScalerRatios. set (known := list_to_set (BName <$> Roles spec)).
  enough (forall l, (foldl (ratio_errors known) (∅, []) (imap pair l)).2 = [] -> Forall (ratio_admitted known) l) as H by apply H.
  induction l as [|b l IH] using rev_ind; [constructor|].
  rewrite imap_pair_snoc, foldl_app. simpl in *.
  destruct (foldl (ratio_errors known) (∅, []) (imap pair l)) as [seen errs]. simpl in *.
  case_bool_decide as Hne; simpl; [by intros [_ ?]%app_nil|].
  destruct (seen !! _); simpl; [by intros [_ ?]%app_nil|].
  intros [(-> & (E1 & E2)%app_nil)%app_nil E]%app_nil. apply Forall_app. split; [by apply IH|]. apply Forall_singleton.
  do 2 case_bool_decide; try done. unfold validateModelDeploymentScalerRatioQuantities in E.
  apply app_nil in E as (_ & (Emin & (Emax & _)%app_nil)%app_nil). 
  split; [done|]. split; [done|]. split; [done|]. split; by eapply positive_value.
Qed.

(** ** Groups of coupled roles *)

Lemma positions_snoc l b : positions (l ++ [b]) = <[BName b := Z.of_nat (length l)]> (positions l).
Proof. unfold positions. by rewrite imap_pair_snoc, foldl_app. Qed.

Lemma positions_lookup roles i b :
  NoDup (BName <$> roles) -> roles !! i = Some b -> positions roles !! BName b = Some (Z.of_nat i).
Proof.
  revert i. induction roles as [|x l IH] using rev_ind; intros i Hnd Hi; [done|].
  rewrite fmap_app in Hnd. apply NoDup_app in Hnd as (Hnd & Hdis & _). rewrite positions_snoc.
  apply lookup_snoc_Some in Hi as [[Hlt Hi]|[-> <-]]; [|by rewrite lookup_insert_eq].
  rewrite lookup_insert_ne; [by apply IH|]. intros E.
  apply (Hdis (BName b)); [by apply list_elem_of_fmap_2, list_elem_of_lookup_2 with i|]. simpl. rewrite E. left.
Qed.

Definition built (l : list RoleBounds) : Component := foldl add_role empty_component l.

Lemma built_spec l :
  CRoles (built l) = BName <$> l /\ CLow (built l) = MinReplicas <$> l /\ CHigh (built l) = MaxReplicas <$> l /\
  CRatios (built l) = [] /\
  (NoDup (BName <$> l) -> forall i name, CRoles (built l) !! i = Some name -> CIndex (built l) !! name = Some (Z.of_nat i)).
Proof.
  unfold built. induction l as [|b l (IH1 & IH2 & IH3 & IH4 & IH5)] using rev_ind; [done|].
  rewrite foldl_app. simpl. rewrite IH1, IH2, IH3, IH4, !fmap_app, length_fmap. do 4 (split; [done|]).
  intros (Hnd & Hdis & _)%NoDup_app i name Hi. rewrite IH1 in IH5.
  apply lookup_snoc_Some in Hi as [[Hlt Hi]|[-> <-]]; [|rewrite lookup_insert_eq; by rewrite length_fmap].
  rewrite lookup_insert_ne; [by apply IH5|]. intros E.
  apply (Hdis name); [by apply list_elem_of_lookup_2 with i|]. simpl. rewrite <- E. left.
Qed.

Definition with_bands (bands : list Band) (c : Component) : Component :=
  {| CRoles := CRoles c; CLow := CLow c; CHigh := CHigh c; CRatios := CRatios c ++ bands; CIndex := CIndex c |}.

Section groups.
Context (spec : PolicySpec).
Context (Hnames : NoDup (BName <$> Roles spec)).
Context (Hratios : Forall (ratio_admitted (list_to_set (BName <$> Roles spec))) (Ratios spec)).

Abbreviation n := (length (Roles spec)).
Abbreviation position := (positions (Roles spec)).
Definition place (name : string) : Z := default 0 (position !! name).

Lemma place_in name : name ∈ BName <$> Roles spec ->
  position !! name = Some (place name) /\ 0 <= place name < Z.of_nat n.
Proof.
  intros (b & -> & [i Hi]%list_elem_of_lookup)%list_elem_of_fmap. unfold place.
  rewrite (positions_lookup _ _ _ Hnames Hi). apply lookup_lt_Some in Hi. simpl. split; [done|lia].
Qed.

Lemma ratio_places ratio : ratio ∈ Ratios spec ->
  NumeratorRole ratio ∈ BName <$> Roles spec /\ DenominatorRole ratio ∈ BName <$> Roles spec.
Proof.
  intros Hr. rewrite Forall_forall in Hratios. destruct (Hratios _ Hr) as (_ & Hn & Hd & _).
  by rewrite !elem_of_list_to_set in Hn, Hd.
Qed.

Lemma initial_forest : forest (Z.of_nat <$> seq 0 n) /\ length (Z.of_nat <$> seq 0 n) = n.
Proof.
  rewrite length_fmap, length_seq. split; [|done]. intros i Hi. rewrite length_fmap, length_seq in Hi.
  exists 0%nat, i. constructor. apply slice_get_Some; [lia|]. rewrite list_lookup_fmap, lookup_seq_lt by lia.
  simpl. f_equal. lia.
Qed.

(** Coupling puts the roles of every ratio under one root. *)
Lemma couple_loop : exists parent,
  fold_outcome (couple position) (Z.of_nat <$> seq 0 n, []) (Ratios spec) = Done (parent, band_of <$> Ratios spec) /\
  forest parent /\ length parent = n /\
  forall ratio, ratio ∈ Ratios spec -> root parent (place (NumeratorRole ratio)) = root parent (place (DenominatorRole ratio)).
Proof.
  destruct (fold_outcome_inv (couple position) (fun pre acc => acc.2 = band_of <$> pre /\ forest acc.1 /\ length acc.1 = n /\
    forall ratio, ratio ∈ pre -> root acc.1 (place (NumeratorRole ratio)) = root acc.1 (place (DenominatorRole ratio)))
    (Z.of_nat <$> seq 0 n, []) (Ratios spec)) as ([parent bands] & E & Hb & H).
  - destruct initial_forest. split; [done|]. split; [done|]. split; [done|]. by intros ratio ?%elem_of_nil.
  - intros pre ratio post [parent bands] El (Hb & Hf & Hl & Hs). simpl in *. subst bands.
    assert (ratio ∈ Ratios spec) as Hr by (rewrite El; set_solver). destruct (ratio_places _ Hr) as [Hn Hd].
    destruct (place_in _ Hn) as [En Rn]. destruct (place_in _ Hd) as [Ed Rd]. unfold couple. rewrite En, Ed. simpl.
    destruct (union_spec parent (place (NumeratorRole ratio)) (place (DenominatorRole ratio)) Hf) as (p' & -> & Hf' & L' & R'); [lia|lia|].
    eexists. split; [done|]. simpl. rewrite fmap_app. split; [done|]. split; [done|]. split; [lia|].
    intros ratio' [Hr'| ->%list_elem_of_singleton]%elem_of_app.
    + assert (ratio' ∈ Ratios spec) as Hr2 by (rewrite El; set_solver). destruct (ratio_places _ Hr2) as [Hn' Hd'].
      destruct (place_in _ Hn') as [_ Rn']. destruct (place_in _ Hd') as [_ Rd']. rewrite !R' by lia. by rewrite (Hs _ Hr').
    + rewrite !R' by lia. rewrite (decide_True _ _ (eq_refl (root parent (place (DenominatorRole ratio))))). by case_decide.
  - simpl in *. exists parent. by rewrite E, Hb.
Qed.

Section keyed.
Context (parent : list Z) (Hforest : forest parent) (Hlength : length parent = n).
Definition key (name : string) : Z := root parent (place name).
Context (Hkeys : forall ratio, ratio ∈ Ratios spec -> key (NumeratorRole ratio) = key (DenominatorRole ratio)).

(** Halved paths are of no consequence. *)
Definition keyed (p : list Z) : Prop :=
  forest p /\ length p = n /\ forall j, 0 <= j < Z.of_nat n -> root p j = root parent j.

Lemma keyed_find p j : keyed p -> 0 <= j < Z.of_nat n ->
  exists p', modelDeploymentScalerFind p j = Done (p', root parent j) /\ keyed p'.
Proof.
  intros (Hf & Hl & Hr) Hj. destruct (find_spec p j Hf ltac:(lia)) as (p' & -> & Hf' & L' & R').
  exists p'. rewrite Hr by done. split; [done|]. split; [done|]. split; [lia|]. intros i Hi. rewrite R' by lia. by apply Hr.
Qed.

(** The roles under a root. *)
Definition members (r : Z) (l : list RoleBounds) : list RoleBounds := filter (fun b => key (BName b) = r) l.

Lemma group_roles : exists p groups,
  fold_outcome group_role (parent, ∅) (imap pair (Roles spec)) = Done (p, groups) /\ keyed p /\
  forall r, groups !! r = match members r (Roles spec) with [] => None | l => Some (built l) end.
Proof.
  destruct (fold_outcome_inv group_role (fun pre acc => keyed acc.1 /\
    forall r, acc.2 !! r = match members r pre.*2 with [] => None | l => Some (built l) end)
    (parent, ∅) (imap pair (Roles spec))) as ([p groups] & E & Hk & Hg).
  - split; [done|]. intros r. apply lookup_empty.
  - intros pre [i b] post [p groups] El [Hk Hg]. simpl in *.
    assert (Roles spec !! i = Some b) as Hb.
    { assert (imap pair (Roles spec) !! length pre = Some (i, b)) as Hl by (rewrite El; by apply list_lookup_middle).
      rewrite list_lookup_imap in Hl. destruct (Roles spec !! length pre) eqn:Eb; simpl in Hl; [|done]. by injection Hl as <- <-. }
    assert (Z.of_nat i = place (BName b)) as Hi by (unfold place; by rewrite (positions_lookup _ _ _ Hnames Hb)).
    unfold group_role. simpl. apply lookup_lt_Some in Hb as Hlt.
    destruct (keyed_find p (Z.of_nat i) Hk ltac:(lia)) as (p' & -> & Hk'). simpl. eexists. split; [done|]. simpl. split; [done|].
    intros r. rewrite fmap_app. unfold members in *. rewrite filter_app. simpl. rewrite Hi. fold (key (BName b)).
    destruct (decide (key (BName b) = r)) as [<-|Hne].
    + rewrite lookup_insert_eq, Hg. rewrite filter_cons_True by done. rewrite filter_nil.
      destruct (filter (fun b' => key (BName b') = key (BName b)) pre.*2) as [|b0 l]; [done|].
      simpl. change (b0 :: l ++ [b]) with ((b0 :: l) ++ [b]). unfold built. by rewrite foldl_app.
    + rewrite lookup_insert_ne by done. rewrite filter_cons_False by done. by rewrite filter_nil, app_nil_r.
  - simpl in *. exists p, groups. split; [done|]. split; [done|]. intros r. rewrite Hg.
    by rewrite imap_pair_snd.
Qed.

(** A band joins the group of its roles. *)
Lemma group_bands p groups :
  keyed p -> (forall name, name ∈ BName <$> Roles spec -> is_Some (groups !! key name)) ->
  exists p' groups', fold_outcome (group_band position) (p, groups) (band_of <$> Ratios spec) = Done (p', groups') /\
    forall r, groups' !! r = with_bands (filter (fun band => key (BandNumerator band) = r) (band_of <$> Ratios spec)) <$> groups !! r.
Proof.
  intros Hk Hsome.
  destruct (fold_outcome_inv (group_band position) (fun pre acc => keyed acc.1 /\
    forall r, acc.2 !! r = with_bands (filter (fun band => key (BandNumerator band) = r) pre) <$> groups !! r)
    (p, groups) (band_of <$> Ratios spec)) as ([p' groups'] & E & Hk' & Hg).
  - split; [done|]. intros r. simpl. destruct (groups !! r) as [[]|]; [|done]. simpl. unfold with_bands. simpl. by rewrite app_nil_r.
  - intros pre band post [p1 g1] El [Hk1 Hg1]. simpl in *.
    assert (band ∈ band_of <$> Ratios spec) as (ratio & -> & Hr)%list_elem_of_fmap by (rewrite El; set_solver).
    destruct (ratio_places _ Hr) as [Hn Hd]. destruct (place_in _ Hn) as [_ Rn]. destruct (place_in _ Hd) as [_ Rd].
    unfold group_band. simpl. fold (place (NumeratorRole ratio)). fold (place (DenominatorRole ratio)).
    destruct (keyed_find p1 _ Hk1 Rn) as (p2 & -> & Hk2). simpl.
    destruct (keyed_find p2 _ Hk2 Rd) as (p3 & -> & Hk3). simpl. fold (key (NumeratorRole ratio)). fold (key (DenominatorRole ratio)).
    rewrite <- (Hkeys _ Hr). rewrite Hg1. destruct (Hsome _ Hn) as [c Hc]. rewrite Hc. simpl. rewrite Z.eqb_refl.
    eexists. split; [done|]. simpl. split; [done|]. intros r. rewrite filter_app.
    destruct (decide (key (NumeratorRole ratio) = r)) as [<-|Hne].
    + rewrite lookup_insert_eq, Hc, filter_cons_True, filter_nil by done. simpl. unfold add_band, with_bands. simpl. by rewrite app_assoc.
    + rewrite lookup_insert_ne, Hg1 by done. rewrite filter_cons_False, filter_nil, app_nil_r by done. done.
  - simpl in *. by exists p', groups'.
Qed.
End keyed.

(** The groups: each holds the roles of a key, with their bounds, and the bands
    between them. *)
Lemma components_spec ranging : exists (key : string -> Z) (groups : gmap Z Component),
  modelDeploymentScalerComponents ranging spec = Done (ranging groups).*2 /\
  (forall ratio, ratio ∈ Ratios spec -> key (NumeratorRole ratio) = key (DenominatorRole ratio)) /\
  (forall name, name ∈ BName <$> Roles spec -> is_Some (groups !! key name)) /\
  forall r c, groups !! r = Some c ->
    c = with_bands (filter (fun band => key (BandNumerator band) = r) (band_of <$> Ratios spec))
          (built (filter (fun b => key (BName b) = r) (Roles spec))).
Proof.
  destruct couple_loop as (parent & Ec & Hf & Hl & Hkeys).
  assert (keyed parent parent) as Hk by (split; [done|]; split; done).
  destruct (group_roles parent Hf Hl) as (p & groups & Eg & Hk' & Hg).
  assert (forall name, name ∈ BName <$> Roles spec -> is_Some (groups !! key parent name)) as Hsome.
  { intros name (b & -> & Hb)%list_elem_of_fmap. rewrite Hg.
    assert (b ∈ members parent (key parent (BName b)) (Roles spec)) as Hm by (unfold members; by rewrite list_elem_of_filter).
    destruct (members parent (key parent (BName b)) (Roles spec)); [by apply elem_of_nil in Hm|by eexists]. }
  destruct (group_bands parent Hf Hl Hkeys p groups Hk' Hsome) as (p' & groups' & Eb & Hg').
  exists (key parent), groups'. unfold modelDeploymentScalerComponents. rewrite Ec. simpl. rewrite Eg. simpl. rewrite Eb. simpl.
  split; [done|]. split; [done|]. split.
  - intros name Hn. rewrite Hg'. destruct (Hsome _ Hn) as [c ->]. by eexists.
  - intros r c. rewrite Hg', Hg. fold (members parent r (Roles spec)). destruct (members parent r (Roles spec)) eqn:E; [done|].
    simpl. by intros [= <-].
Qed.
End groups.

(** ** The search decides *)

(** A bound whose products and quotients with replica counts fit 64 bits. *)
Definition moderate (q : option Q) : Prop :=
  forall x, q = Some x -> Qnum x <= Zpos (Qden x) * 2 ^ 52 /\ Zpos (Qden x) <= Qnum x * 2 ^ 52.

Lemma ceil_le a p x :
  0 <= a -> a <= Zpos p * 2 ^ 62 -> a <= x * Zpos p -> modelDeploymentScalerCeil (a # p) <= x.
Proof.
  intros Ha Hb Hx. unfold modelDeploymentScalerCeil. simpl.
  pose proof (Z.quot_rem a (Zpos p) ltac:(lia)) as E. pose proof (Z.rem_bound_pos a (Zpos p) Ha ltac:(lia)).
  set (q := Z.quot a (Zpos p)) in *. set (r := Z.rem a (Zpos p)) in *.
  assert (0 <= q <= 2 ^ 62) by nia. rewrite i64_small; [destruct (Z.ltb_spec 0 r); nia|].
  unfold is_i64. destruct (0 <? r); lia.
Qed.

Lemma floor_ge a p x :
  0 <= a -> a <= Zpos p * 2 ^ 62 -> x * Zpos p <= a -> x <= modelDeploymentScalerFloor (a # p).
Proof.
  intros Ha Hb Hx. unfold modelDeploymentScalerFloor. simpl.
  pose proof (Z.quot_rem a (Zpos p) ltac:(lia)) as E. pose proof (Z.rem_bound_pos a (Zpos p) Ha ltac:(lia)).
  set (q := Z.quot a (Zpos p)) in *. set (r := Z.rem a (Zpos p)) in *.
  assert (0 <= q <= 2 ^ 62) by nia. rewrite i64_small; [nia|]. unfold is_i64. lia.
Qed.

(** Products with replica counts stay small. *)
Lemma small_product a b k : 0 <= a -> a <= b * 2 ^ 52 -> 1 <= k <= 1024 -> a * k <= b * 2 ^ 62.
Proof. intros. assert (a * k <= (b * 2 ^ 52) * 1024) by (apply Z.mul_le_mono_nonneg; lia). lia. Qed.

(** A band over positive counts, without division. *)
Lemma band_holds_iff band n d :
  1 <= d -> band_holds band n d = true <->
  (forall q, BandMinimum band = Some q -> Qnum q * d <= n * Zpos (Qden q)) /\
  (forall q, BandMaximum band = Some q -> n * Zpos (Qden q) <= Qnum q * d).
Proof.
  intros Hd. unfold band_holds, set_frac. rewrite (proj2 (Z.eqb_neq d 0)), (proj2 (Z.ltb_ge d 0)) by lia.
  rewrite andb_true_iff, !negb_true_iff. unfold exceeds.
  destruct d as [|d|]; [lia| |lia]. simpl.
  assert (forall a b, (match Qcompare a b with Gt => true | _ => false end) = false <-> Qnum a * Zpos (Qden b) <= Qnum b * Zpos (Qden a)) as Hc.
  { intros a b. unfold Qcompare. destruct (Z.compare_spec (Qnum a * Zpos (Qden b)) (Qnum b * Zpos (Qden a))); split; intros; try done; lia. }
  destruct (BandMinimum band) as [qm|]; destruct (BandMaximum band) as [qM|]; rewrite ?Hc; simpl; naive_solver.
Qed.

Section searching.
Context (c : Component).
Abbreviation m := (length (CRoles c)).
Definition pos (name : string) : nat := Z.to_nat (position_in c name).

Record component_wf : Prop := {
  wf_low : length (CLow c) = m;
  wf_high : length (CHigh c) = m;
  wf_index : forall i name, CRoles c !! i = Some name -> CIndex c !! name = Some (Z.of_nat i);
  wf_box : forall i, (i < m)%nat -> 1 <= CLow c !!! i /\ CLow c !!! i <= CHigh c !!! i /\ CHigh c !!! i <= 1024;
  wf_bands : forall band, band ∈ CRatios c ->
    (pos (BandNumerator band) < m)%nat /\ (pos (BandDenominator band) < m)%nat /\
    pos (BandNumerator band) <> pos (BandDenominator band) /\
    0 <= position_in c (BandNumerator band) /\ 0 <= position_in c (BandDenominator band) /\
    positive (BandMinimum band) /\ positive (BandMaximum band) }.
Context (Hwf : component_wf).

Definition box (low high : list Z) (v : nat -> Z) : Prop :=
  forall i, (i < m)%nat -> low !!! i <= v i <= high !!! i.

Definition sat (v : nat -> Z) : Prop :=
  forall band, band ∈ CRatios c -> band_holds band (v (pos (BandNumerator band))) (v (pos (BandDenominator band))) = true.

Definition moderate_bands : Prop :=
  forall band, band ∈ CRatios c -> moderate (BandMinimum band) /\ moderate (BandMaximum band).

Lemma get_total (l : list Z) z : 0 <= z -> (Z.to_nat z < length l)%nat -> slice_get l z = Done (l !!! Z.to_nat z).
Proof. intros Hz Hl. apply slice_get_Some; [done|]. by apply list_lookup_lookup_total_lt. Qed.

Lemma holds_spec vector : length vector = m ->
  exists b, holds c vector = Done b /\ (b = true <-> sat (fun i => vector !!! i)).
Proof.
  intros Hl. unfold holds, sat. pose proof (wf_bands Hwf) as Hb. induction (CRatios c) as [|band bands IH].
  { exists true. split; [done|]. split; [by intros _ ? ?%elem_of_nil|done]. }
  destruct (Hb band ltac:(left)) as (Hn & Hd & _ & Pn & Pd & _). unfold pos in *. simpl.
  rewrite !get_total by (done || lia). simpl. destruct (band_holds band _ _) eqn:E.
  - destruct IH as (b & -> & Hiff); [intros; apply Hb; by right|]. exists b. split; [done|]. rewrite Hiff.
    setoid_rewrite elem_of_cons. naive_solver.
  - exists false. split; [done|]. split; [done|]. intros H. rewrite H in E; [done|left].
Qed.

Lemma raise_low_spec low z bound : 0 <= z -> (Z.to_nat z < length low)%nat ->
  raise_low low z bound = Done (<[Z.to_nat z := Z.max (low !!! Z.to_nat z) bound]> low).
Proof.
  intros Hz Hl. unfold raise_low. rewrite get_total by done. simpl. destruct (Z.ltb_spec (low !!! Z.to_nat z) bound).
  - rewrite slice_set_in by lia. by rewrite Z.max_r by lia.
  - rewrite Z.max_l by lia. rewrite list_insert_id; [done|]. by apply list_lookup_lookup_total_lt.
Qed.

Lemma lower_high_spec high z bound : 0 <= z -> (Z.to_nat z < length high)%nat ->
  lower_high high z bound = Done (<[Z.to_nat z := Z.min (high !!! Z.to_nat z) bound]> high).
Proof.
  intros Hz Hl. unfold lower_high. rewrite get_total by done. simpl. destruct (Z.ltb_spec bound (high !!! Z.to_nat z)).
  - rewrite slice_set_in by lia. by rewrite Z.min_r by lia.
  - rewrite Z.min_l by lia. rewrite list_insert_id; [done|]. by apply list_lookup_lookup_total_lt.
Qed.

(** A tightened role: its interval is cut at [lb] and [hb]. *)
Definition cut (low high : list Z) (i : nat) (lb hb : Z) : bool * (list Z * list Z) :=
  let l := Z.max (low !!! i) lb in
  let h := Z.min (high !!! i) hb in
  (l <=? h, (<[i := l]> low, <[i := h]> high)).

Lemma cut_done low high z lb hb : 0 <= z -> (Z.to_nat z < length low)%nat -> (Z.to_nat z < length high)%nat ->
  tightened_to (<[Z.to_nat z := Z.max (low !!! Z.to_nat z) lb]> low) (<[Z.to_nat z := Z.min (high !!! Z.to_nat z) hb]> high) z =
  Done (cut low high (Z.to_nat z) lb hb).
Proof.
  intros Hz Hl Hh. unfold tightened_to. rewrite !get_total by (rewrite ?length_insert; done). simpl.
  by rewrite !list_lookup_total_insert_eq by done.
Qed.

Lemma raise_opt {A} (o : option A) (g : A -> Z) low z :
  0 <= z -> (Z.to_nat z < length low)%nat ->
  (match o with Some a => raise_low low z (g a) | None => Done low end) =
  Done (<[Z.to_nat z := Z.max (low !!! Z.to_nat z) (match o with Some a => g a | None => low !!! Z.to_nat z end)]> low).
Proof.
  intros Hz Hl. destruct o as [a|]; [by apply raise_low_spec|].
  rewrite Z.max_id, list_insert_id; [done|]. by apply list_lookup_lookup_total_lt.
Qed.

Lemma lower_opt {A} (o : option A) (g : A -> Z) high z :
  0 <= z -> (Z.to_nat z < length high)%nat ->
  (match o with Some a => lower_high high z (g a) | None => Done high end) =
  Done (<[Z.to_nat z := Z.min (high !!! Z.to_nat z) (match o with Some a => g a | None => high !!! Z.to_nat z end)]> high).
Proof.
  intros Hz Hl. destruct o as [a|]; [by apply lower_high_spec|].
  rewrite Z.min_id, list_insert_id; [done|]. by apply list_lookup_lookup_total_lt.
Qed.

(** Cutting at [lb] and [hb] keeps the counts that satisfy [P]. *)
Definition keeps (low high : list Z) (i : nat) (lb hb : Z) (P : Z -> Prop) : Prop :=
  forall x, low !!! i <= x <= high !!! i -> P x -> lb <= x <= hb.

Lemma tightenNumerator_spec low high zi zj band :
  0 <= zi -> (Z.to_nat zi < length low)%nat -> (Z.to_nat zi < length high)%nat ->
  0 <= zj -> (Z.to_nat zj < length low)%nat -> 1 <= low !!! Z.to_nat zj <= 1024 ->
  positive (BandMinimum band) -> positive (BandMaximum band) ->
  exists lb hb, tightenNumerator low high zi zj band = Done (cut low high (Z.to_nat zi) lb hb) /\
    (moderate (BandMinimum band) -> moderate (BandMaximum band) ->
     keeps low high (Z.to_nat zi) lb hb (fun x => band_holds band x (low !!! Z.to_nat zj) = true)).
Proof.
  intros Hi Hil Hih Hj Hjl Hd Pm PM. unfold tightenNumerator. rewrite get_total by done. cbn [outcome_bind].
  set (d := low !!! Z.to_nat zj) in *.
  rewrite (raise_opt (BandMinimum band) (fun q => modelDeploymentScalerCeil (q * (d # 1)))) by done. cbn [outcome_bind].
  rewrite (lower_opt (BandMaximum band) (fun q => modelDeploymentScalerFloor (q * (d # 1)))) by done.
  cbn [outcome_bind]. rewrite cut_done by done. eexists _, _. split; [done|]. intros Mm MM x Hx Hb.
  apply band_holds_iff in Hb as [Hmin Hmax]; [|lia]. split.
  - destruct (BandMinimum band) as [[a p]|]; [|lia]. specialize (Hmin _ eq_refl). specialize (Pm _ eq_refl).
    destruct (Mm _ eq_refl). cbn [Qnum Qden Qmult] in *.
    apply ceil_le; rewrite ?Pos.mul_1_r; cbn [Qnum Qden]; [nia|apply small_product; lia|lia].
  - destruct (BandMaximum band) as [[a p]|]; [|lia]. specialize (Hmax _ eq_refl). specialize (PM _ eq_refl).
    destruct (MM _ eq_refl). cbn [Qnum Qden Qmult] in *.
    apply floor_ge; rewrite ?Pos.mul_1_r; cbn [Qnum Qden]; [nia|apply small_product; lia|lia].
Qed.

Definition quo (n : Z) (q : Q) : Q := (n * Zpos (Qden q)) # Z.to_pos (Qnum q).

Lemma quo_opt {A} n (o : option Q) (f : Q -> outcome A) (x : outcome A) :
  positive o ->
  (match o with Some q => let* r := rat_quo (n # 1) q in f r | None => x end) =
  match o with Some q => f (quo n q) | None => x end.
Proof.
  intros Ho. destruct o as [q|]; [|done]. specialize (Ho q eq_refl). unfold rat_quo.
  rewrite (proj2 (Z.eqb_neq (Qnum q) 0)) by lia. destruct q as [[|a|a] p]; simpl in *; try lia. done.
Qed.

Lemma tightenDenominator_spec low high zi zj band :
  0 <= zi -> (Z.to_nat zi < length low)%nat -> (Z.to_nat zi < length high)%nat ->
  0 <= zj -> (Z.to_nat zj < length low)%nat -> 1 <= low !!! Z.to_nat zj <= 1024 -> 1 <= low !!! Z.to_nat zi ->
  positive (BandMinimum band) -> positive (BandMaximum band) ->
  exists lb hb, tightenDenominator low high zi zj band = Done (cut low high (Z.to_nat zi) lb hb) /\
    (moderate (BandMinimum band) -> moderate (BandMaximum band) ->
     keeps low high (Z.to_nat zi) lb hb (fun x => band_holds band (low !!! Z.to_nat zj) x = true)).
Proof.
  intros Hi Hil Hih Hj Hjl Hn Hpos Pm PM. unfold tightenDenominator. rewrite get_total by done. cbn [outcome_bind].
  set (k := low !!! Z.to_nat zj) in *.
  rewrite (quo_opt k (BandMaximum band)) by done.
  rewrite (raise_opt (BandMaximum band) (fun q => modelDeploymentScalerCeil (quo k q))) by done. cbn [outcome_bind].
  rewrite (quo_opt k (BandMinimum band)) by done.
  rewrite (lower_opt (BandMinimum band) (fun q => modelDeploymentScalerFloor (quo k q))) by done.
  cbn [outcome_bind]. rewrite cut_done by done. eexists _, _. split; [done|]. intros Mm MM x Hx Hb.
  apply band_holds_iff in Hb as [Hmin Hmax]; [|lia]. unfold quo. split.
  - destruct (BandMaximum band) as [[a p]|]; [|lia]. specialize (Hmax _ eq_refl). specialize (PM _ eq_refl).
    destruct (MM _ eq_refl). cbn [Qnum Qden] in *.
    apply ceil_le; rewrite ?Z2Pos.id by lia; [nia|rewrite Z.mul_comm; apply small_product; lia|lia].
  - destruct (BandMinimum band) as [[a p]|]; [|lia]. specialize (Hmin _ eq_refl). specialize (Pm _ eq_refl).
    destruct (Mm _ eq_refl). cbn [Qnum Qden] in *.
    apply floor_ge; rewrite ?Z2Pos.id by lia; [nia|rewrite Z.mul_comm; apply small_product; lia|lia].
Qed.

Definition nonempty (low high : list Z) : Prop := forall i, (i < m)%nat -> low !!! i <= high !!! i.

(** What tightening from the known role [idx] does. *)
Record tight (idx : nat) (low high : list Z) (t : bool * (list Z * list Z)) : Prop := {
  tight_low : length t.2.1 = m;
  tight_high : length t.2.2 = m;
  tight_narrow : forall i, (i < m)%nat -> low !!! i <= t.2.1 !!! i /\ t.2.2 !!! i <= high !!! i;
  tight_known : t.2.1 !!! idx = low !!! idx /\ t.2.2 !!! idx = high !!! idx;
  tight_nonempty : t.1 = true -> nonempty low high -> nonempty t.2.1 t.2.2;
  tight_keeps : moderate_bands -> forall v, box low high v -> sat v -> v idx = low !!! idx ->
    t.1 = true /\ box t.2.1 t.2.2 v }.

Lemma tight_id idx low high : length low = m -> length high = m -> tight idx low high (true, (low, high)).
Proof. intros. split; try done. Qed.

Lemma tight_trans idx low high t t' :
  tight idx low high t -> t.1 = true -> tight idx t.2.1 t.2.2 t' -> tight idx low high t'.
Proof.
  intros [A1 A2 A3 A4 A5 A6] Ht [B1 B2 B3 B4 B5 B6]. split; try done.
  - intros i Hi. specialize (A3 i Hi). specialize (B3 i Hi). lia.
  - destruct A4, B4. split; congruence.
  - auto.
  - intros Hm v Hb Hs Hv. destruct (A6 Hm v Hb Hs Hv) as [_ Hb']. apply B6; try done. destruct A4. congruence.
Qed.

Lemma tight_cut idx low high i lb hb :
  length low = m -> length high = m -> (i < m)%nat -> i <> idx ->
  (moderate_bands -> forall v, box low high v -> sat v -> v idx = low !!! idx -> lb <= v i <= hb) ->
  tight idx low high (cut low high i lb hb).
Proof.
  intros Hl Hh Hi Hne Hk.
  assert (forall (l : list Z) x j, length l = m -> <[i := x]> l !!! j = if decide (i = j) then x else l !!! j) as Hget.
  { intros l x j Hlen. case_decide as E; [subst; apply list_lookup_total_insert_eq; lia|by apply list_lookup_total_insert_ne]. }
  split; simpl; rewrite ?length_insert; try done.
  - intros j Hj. rewrite !Hget by done. case_decide; subst; lia.
  - rewrite !Hget by done. by rewrite !decide_False.
  - intros Hok%Z.leb_le Hn j Hj. rewrite !Hget by done. case_decide; [done|by apply Hn].
  - intros Hm v Hb Hs Hv. specialize (Hk Hm v Hb Hs Hv). pose proof (Hb i Hi). split; [apply Z.leb_le; lia|].
    intros j Hj. rewrite !Hget by done. case_decide; [subst; lia|by apply Hb].
Qed.

Lemma propagate_spec bands index low high :
  (forall band, band ∈ bands -> band ∈ CRatios c) -> 0 <= index -> (Z.to_nat index < m)%nat ->
  length low = m -> length high = m -> (forall i, (i < m)%nat -> 1 <= low !!! i) -> low !!! Z.to_nat index <= 1024 ->
  exists t, propagate_bands c bands index low high = Done t /\ tight (Z.to_nat index) low high t.
Proof.
  intros Hsub H0 Hidx. revert low high. induction bands as [|band bands IH]; intros low high Hl Hh H1 H2.
  { exists (true, (low, high)). split; [done|by apply tight_id]. }
  assert (band ∈ CRatios c) as Hband by (apply Hsub; left).
  destruct (wf_bands Hwf _ Hband) as (Hn & Hd & Hne & Pn & Pd & Pm & PM). unfold pos in *. simpl.
  set (zn := position_in c (BandNumerator band)) in *. set (zd := position_in c (BandDenominator band)) in *.
  assert (exists t, (if zn =? index then tightenDenominator low high zd zn band
      else if zd =? index then tightenNumerator low high zn zd band else Done (true, (low, high))) = Done t /\
    tight (Z.to_nat index) low high t) as (t & -> & Ht).
  { destruct (Z.eqb_spec zn index) as [<-|Hni]; [|destruct (Z.eqb_spec zd index) as [<-|Hdi]].
    - pose proof (H1 _ Hn). pose proof (H1 _ Hd). 
      destruct (tightenDenominator_spec low high zd zn band) as (lb & hb & -> & Hk); try done; try lia.
      eexists. split; [done|]. apply tight_cut; [done|done|done|lia|]. intros Hm v Hb Hs Hv. destruct (Hm _ Hband) as [Mm MM].
      apply (Hk Mm MM); [by apply Hb|]. rewrite <- Hv. by apply Hs.
    - pose proof (H1 _ Hn). pose proof (H1 _ Hd).
      destruct (tightenNumerator_spec low high zn zd band) as (lb & hb & -> & Hk); try done; try lia.
      eexists. split; [done|]. apply tight_cut; [done|done|done|lia|]. intros Hm v Hb Hs Hv. destruct (Hm _ Hband) as [Mm MM].
      apply (Hk Mm MM); [by apply Hb|]. rewrite <- Hv. by apply Hs.
    - eexists. split; [done|by apply tight_id]. }
  cbn [outcome_bind]. destruct t.1 eqn:Et; [|by exists t].
  pose proof Ht as [A1 A2 A3 A4 A5 A6]. destruct (IH ltac:(intros; apply Hsub; by right) t.2.1 t.2.2) as (t' & -> & Ht'); try done.
  - intros i Hi. specialize (A3 i Hi). specialize (H1 i Hi). lia.
  - destruct A4. lia.
  - exists t'. split; [done|]. by eapply tight_trans.
Qed.

(** The loop over values: what every visit finds, the loop finds; without a find
    and with budget left, every value was refuted. *)
Lemma try_values_spec visit values budget K (found : Prop) (refuted : Z -> Prop) :
  1 <= K ->
  (forall v b, v ∈ values -> 0 < b -> exists r b', visit v b = Done (r, b') /\ b - K < b' <= b /\
     (r = true -> found) /\ (r = false -> 0 < b' -> refuted v)) ->
  exists r b', try_values visit values budget = Done (r, b') /\ budget - K * Z.of_nat (length values) <= b' <= budget /\
    (r = true -> found) /\ (r = false -> 0 < b' -> forall v, v ∈ values -> refuted v).
Proof.
  intros HK. revert budget. induction values as [|v values IH]; intros budget Hv.
  { exists false, budget. split; [done|]. split; [simpl; lia|]. split; [done|]. by intros _ _ v ?%elem_of_nil. }
  cbn [try_values length]. destruct (Z.leb_spec (budget - 1) 0) as [Hb|Hb].
  { exists false, (budget - 1). split; [done|]. split; [nia|]. split; [done|]. lia. }
  destruct (Hv v (budget - 1) ltac:(left) Hb) as (r & b & -> & Hrange & Hfound & Href). cbn [outcome_bind fst snd].
  destruct r; [exists true, b; split; [done|]; split; [nia|]; split; [auto|done]|].
  destruct (IH b) as (r' & b' & -> & Hrange' & Hfound' & Href'); [intros; apply Hv; [by right|done]|].
  exists r', b'. split; [done|]. split; [nia|]. split; [done|]. intros Hr Hb' w [->|Hw]%elem_of_cons; [|by apply Href'].
  apply Href; [done|lia].
Qed.

(** One more than the values of each role left, multiplied. *)
Definition widths : list Z := zip_with (fun l h => h - l + 2) (CLow c) (CHigh c).
Definition cost (k : nat) : Z := foldr Z.mul 1 (drop k widths).

Lemma widths_lookup i : (i < m)%nat -> widths !! i = Some (CHigh c !!! i - CLow c !!! i + 2).
Proof.
  intros Hi. unfold widths. rewrite lookup_zip_with. pose proof (wf_low Hwf). pose proof (wf_high Hwf).
  rewrite !list_lookup_lookup_total_lt by lia. done.
Qed.

Lemma cost_step k : (k < m)%nat -> cost k = (CHigh c !!! k - CLow c !!! k + 2) * cost (S k).
Proof. intros Hk. unfold cost. by rewrite (drop_S _ _ _ (widths_lookup k Hk)). Qed.

Lemma cost_pos k : (k <= m)%nat -> 1 <= cost k.
Proof.
  intros Hk. remember (m - k)%nat as d eqn:Ed. revert k Hk Ed. induction d as [|d IH]; intros k Hk Ed.
  - unfold cost. rewrite drop_ge; [done|]. unfold widths. rewrite length_zip_with. pose proof (wf_low Hwf). lia.
  - rewrite cost_step by lia. specialize (IH (S k) ltac:(lia) ltac:(lia)). pose proof (wf_box Hwf k ltac:(lia)). nia.
Qed.

(** A state of the search: inside the bounds of the component, with the first [k]
    roles chosen. *)
Record searching (k : nat) (low high : list Z) : Prop := {
  s_low : length low = m;
  s_high : length high = m;
  s_inside : forall i, (i < m)%nat -> CLow c !!! i <= low !!! i /\ high !!! i <= CHigh c !!! i;
  s_nonempty : nonempty low high;
  s_chosen : forall i, (i < k)%nat -> low !!! i = high !!! i }.

Lemma choose_spec k low high role value :
  searching k low high -> CRoles c !! k = Some role -> low !!! k <= value <= high !!! k ->
  exists t, (let* nextLow := slice_set low (position_in c role) value in
      let* nextHigh := slice_set high (position_in c role) value in
      propagate c (position_in c role) nextLow nextHigh) = Done t /\
    (t.1 = true -> searching (S k) t.2.1 t.2.2) /\
    (forall v, box t.2.1 t.2.2 v -> t.1 = true -> box low high v) /\
    (moderate_bands -> forall v, box low high v -> sat v -> v k = value -> t.1 = true /\ box t.2.1 t.2.2 v).
Proof.
  intros [S1 S2 S3 S4 S5] Hr Hv. apply lookup_lt_Some in Hr as Hk.
  assert (position_in c role = Z.of_nat k) as -> by (unfold position_in; by rewrite (wf_index Hwf _ _ Hr)).
  rewrite !slice_set_in by lia. cbn [outcome_bind]. rewrite Nat2Z.id.
  assert (forall (l : list Z) j, length l = m -> <[k := value]> l !!! j = if decide (k = j) then value else l !!! j) as Hget.
  { intros l j Hlen. case_decide as E; [subst; apply list_lookup_total_insert_eq; lia|by apply list_lookup_total_insert_ne]. }
  pose proof (S3 k Hk) as Hin. pose proof (wf_box Hwf k Hk) as Hbox.
  destruct (propagate_spec (CRatios c) (Z.of_nat k) (<[k := value]> low) (<[k := value]> high)) as (t & E & [T1 T2 T3 T4 T5 T6]);
    rewrite ?Nat2Z.id, ?length_insert in *; try done; try lia.
  { intros i Hi. rewrite Hget by done. pose proof (wf_box Hwf i Hi). specialize (S3 i Hi). case_decide; lia. }
  { rewrite Hget by done. rewrite decide_True by done. lia. }
  rewrite !Hget, !decide_True in T4 by done. exists t. split; [done|].
  assert (forall i, (i < m)%nat -> low !!! i <= t.2.1 !!! i /\ t.2.2 !!! i <= high !!! i) as Hnarrow.
  { intros i Hi. specialize (T3 i Hi). rewrite !Hget in T3 by done. case_decide; subst; lia. }
  split; [|split].
  - intros Ht. assert (nonempty t.2.1 t.2.2) as Hne.
    { apply T5; [done|]. intros i Hi. rewrite !Hget by done. case_decide; [lia|by apply S4]. }
    split; try done.
    + intros i Hi. specialize (Hnarrow i Hi). specialize (S3 i Hi). lia.
    + intros i Hi. destruct (decide (i = k)) as [->|]; [destruct T4; congruence|].
      specialize (S5 i ltac:(lia)). specialize (Hnarrow i ltac:(lia)). specialize (Hne i ltac:(lia)). lia.
  - intros v Hb _ i Hi. specialize (Hb i Hi). specialize (Hnarrow i Hi). lia.
  - intros Hm v Hb Hs Hvk. apply (T6 Hm v); [|done|].
    + intros i Hi. rewrite !Hget by done. case_decide; [subst; lia|by apply Hb].
    + rewrite Hget by done. by rewrite decide_True.
Qed.

Lemma search_leaf low high budget :
  searching m low high ->
  exists b left, search c [] low high budget = Done (b, left) /\ budget - cost m < left <= budget /\
    (b = true -> exists v, box low high v /\ sat v) /\
    (b = false -> 0 < left -> moderate_bands -> forall v, box low high v -> ~ sat v).
Proof.
  pose proof (cost_pos m ltac:(lia)). intros [S1 S2 S3 S4 S5]. destruct (holds_spec low S1) as (b & E & Hiff).
  simpl. rewrite E. cbn [outcome_bind]. exists b, budget. split; [done|]. split; [lia|]. split.
  - intros Hb. exists (fun i => low !!! i). split; [|by apply Hiff]. intros i Hi. specialize (S5 i Hi). lia.
  - intros -> _ _ v Hb Hsat. enough (false = true) by done. apply Hiff. intros band Hband.
    destruct (wf_bands Hwf _ Hband) as (Hn & Hd & _). pose proof (Hb _ Hn). pose proof (Hb _ Hd).
    pose proof (S5 _ Hn). pose proof (S5 _ Hd). specialize (Hsat _ Hband).
    by replace (low !!! pos (BandNumerator band)) with (v (pos (BandNumerator band))) by lia;
       replace (low !!! pos (BandDenominator band)) with (v (pos (BandDenominator band))) by lia.
Qed.

Lemma search_spec roles k low high budget :
  drop k (CRoles c) = roles -> (k <= m)%nat -> searching k low high ->
  exists b left, search c roles low high budget = Done (b, left) /\ budget - cost k < left <= budget /\
    (b = true -> exists v, box low high v /\ sat v) /\
    (b = false -> 0 < left -> moderate_bands -> forall v, box low high v -> ~ sat v).
Proof.
  revert k low high budget. induction roles as [|role roles IH]; intros k low high budget Hdrop Hkm Hs.
  - assert (k = m) as -> by (apply (f_equal length) in Hdrop; rewrite length_drop in Hdrop; simpl in Hdrop; lia).
    by apply search_leaf.
  - assert (CRoles c !! k = Some role) as Hr.
    { rewrite <- (Nat.add_0_r k), <- lookup_drop, Hdrop. done. }
    apply lookup_lt_Some in Hr as Hk. pose proof (cost_pos (S k) ltac:(lia)) as Hcost.
    pose proof (cost_step k Hk) as Hstep. pose proof (s_inside _ _ _ Hs k Hk) as Hin. pose proof (s_nonempty _ _ _ Hs k Hk) as Hne.
    cbn [search]. destruct (Z.leb_spec budget 0).
    { exists false, budget. split; [done|]. split; [nia|]. split; [done|lia]. }
    assert (position_in c role = Z.of_nat k) as Epos by (unfold position_in; by rewrite (wf_index Hwf _ _ Hr)).
    rewrite Epos, !get_total by (rewrite ?(s_low _ _ _ Hs), ?(s_high _ _ _ Hs); lia). cbn [outcome_bind]. rewrite Nat2Z.id.
    destruct (try_values_spec (fun value budget0 =>
        let* nextLow := slice_set low (Z.of_nat k) value in
        let* nextHigh := slice_set high (Z.of_nat k) value in
        let* t := propagate c (Z.of_nat k) nextLow nextHigh in
        if t.1 then search c roles t.2.1 t.2.2 budget0 else Done (false, budget0))
      (seqZ (low !!! k) (high !!! k - low !!! k + 1)) budget (cost (S k)) (exists v, box low high v /\ sat v)
      (fun value => moderate_bands -> forall v, box low high v -> v k = value -> ~ sat v)) as (b & left & -> & Hleft & Hfound & Href); [lia| |].
    + intros value b Hval Hb. apply elem_of_seqZ in Hval.
      destruct (choose_spec k low high role value Hs Hr ltac:(lia)) as (t & E & Hsearch & Hbox & Hkeep).
      rewrite Epos in *. rewrite !slice_set_in in * by (rewrite ?(s_low _ _ _ Hs), ?(s_high _ _ _ Hs); lia). cbn [outcome_bind] in *.
      rewrite E. cbn [outcome_bind]. destruct t.1 eqn:Et.
      * destruct (IH (S k) t.2.1 t.2.2 b) as (r & b' & -> & Hb' & Hf & Hn); [by rewrite (drop_S _ _ _ Hr) in Hdrop; injection Hdrop|lia|by apply Hsearch|].
        exists r, b'. split; [done|]. split; [lia|]. split.
        -- intros Hr1. destruct (Hf Hr1) as (v & Hv & Hsat). exists v. split; [|done]. by apply Hbox.
        -- intros Hr1 Hb1 Hm v Hv Hvk Hsat. destruct (Hkeep Hm v Hv Hsat Hvk) as [_ Hin']. by apply (Hn Hr1 Hb1 Hm v).
      * exists false, b. split; [done|]. split; [lia|]. split; [done|]. intros _ _ Hm v Hv Hvk Hsat.
        destruct (Hkeep Hm v Hv Hsat Hvk) as [? _]. congruence.
    + exists b, left. split; [done|]. rewrite length_seqZ in Hleft. split; [nia|]. split; [done|].
      intros Hb Hl Hm v Hv Hsat. apply (Href Hb Hl (v k)) with v; try done.
      pose proof (Hv k Hk). apply elem_of_seqZ. lia.
Qed.

(** The search decides a component, within its budget. *)
Lemma feasible_spec budget :
  exists b left, feasible c budget = Done (b, left) /\ budget - cost 0 < left <= budget /\
    (b = true -> exists v, box (CLow c) (CHigh c) v /\ sat v) /\
    (b = false -> 0 < left -> moderate_bands -> forall v, box (CLow c) (CHigh c) v -> ~ sat v).
Proof.
  pose proof (cost_pos 0 ltac:(lia)). unfold feasible. destruct (CRatios c) as [|band bands] eqn:Ec.
  { exists true, budget. split; [done|]. split; [lia|]. split; [|done]. intros _. exists (fun i => CLow c !!! i). split.
    - intros i Hi. pose proof (wf_box Hwf i Hi). lia.
    - intros band Hb. rewrite Ec in Hb. by apply elem_of_nil in Hb. }
  destruct (holds_spec (CLow c) (wf_low Hwf)) as (b1 & -> & H1). cbn [outcome_bind]. destruct b1.
  { exists true, budget. split; [done|]. split; [lia|]. split; [|done]. intros _. eexists. split; [|by apply H1].
    intros i Hi. pose proof (wf_box Hwf i Hi). lia. }
  destruct (holds_spec (CHigh c) (wf_high Hwf)) as (b2 & -> & H2). cbn [outcome_bind]. destruct b2.
  { exists true, budget. split; [done|]. split; [lia|]. split; [|done]. intros _. eexists. split; [|by apply H2].
    intros i Hi. pose proof (wf_box Hwf i Hi). lia. }
  apply (search_spec (CRoles c) 0); [done|lia|]. split.
  - apply Hwf.
  - apply Hwf.
  - intros i _. lia.
  - intros i Hi. pose proof (wf_box Hwf i Hi). lia.
  - intros i Hi. lia.
Qed.
End searching.

(** ** The check as a whole *)

(** A ratio over counts, in exact rationals. *)
Definition keeps_ratio (ratio : RoleRatio) (n d : Z) : Prop :=
  (forall q, modelDeploymentScalerRatioValue (RMin ratio) = Some q -> Qle q (n # Z.to_pos d)) /\
  (forall q, modelDeploymentScalerRatioValue (RMax ratio) = Some q -> Qle (n # Z.to_pos d) q).

(** A vector the scaler could commit: inside all bounds, with all ratios kept. *)
Definition commits (spec : PolicySpec) (v : string -> Z) : Prop :=
  (forall b, b ∈ Roles spec -> MinReplicas b <= v (BName b) <= MaxReplicas b) /\
  (forall ratio, ratio ∈ Ratios spec -> keeps_ratio ratio (v (NumeratorRole ratio)) (v (DenominatorRole ratio))).

(** Ratio bounds between [2 ^ -52] and [2 ^ 52]. *)
Definition moderate_spec (spec : PolicySpec) : Prop :=
  forall ratio, ratio ∈ Ratios spec ->
    moderate (modelDeploymentScalerRatioValue (RMin ratio)) /\ moderate (modelDeploymentScalerRatioValue (RMax ratio)).

(** One more than the counts of each role, multiplied. *)
Definition search_space (spec : PolicySpec) : Z :=
  foldr Z.mul 1 ((fun b => MaxReplicas b - MinReplicas b + 2) <$> Roles spec).

Lemma keeps_ratio_band ratio n d : 1 <= d -> keeps_ratio ratio n d <-> band_holds (band_of ratio) n d = true.
Proof.
  intros Hd. rewrite band_holds_iff by done. unfold keeps_ratio, Qle. simpl. rewrite Z2Pos.id by lia. done.
Qed.

Lemma NoDup_fmap_filter {A B} (f : A -> B) (P : A -> Prop) `{forall x, Decision (P x)} l :
  NoDup (f <$> l) -> NoDup (f <$> filter P l).
Proof.
  induction l as [|x l IH]; [done|]. rewrite fmap_cons. intros [Hx Hnd]%NoDup_cons.
  destruct (decide (P x)); [rewrite filter_cons_True by done|rewrite filter_cons_False by done; by apply IH].
  rewrite fmap_cons. constructor; [|by apply IH]. intros (y & E & Hy)%list_elem_of_fmap. apply Hx.
  rewrite list_elem_of_filter in Hy. rewrite E. apply list_elem_of_fmap_2. tauto.
Qed.

Lemma product_filter {A} (f : A -> Z) (P : A -> Prop) `{forall x, Decision (P x)} l :
  Forall (fun x => 1 <= f x) l -> 1 <= foldr Z.mul 1 (f <$> filter P l) <= foldr Z.mul 1 (f <$> l).
Proof.
  induction 1 as [|x l Hx Hall IH]; [done|].
  destruct (decide (P x)); [rewrite filter_cons_True by done|rewrite filter_cons_False by done];
    rewrite ?fmap_cons; cbn [foldr]; set (kept := foldr Z.mul 1 (f <$> filter P l)) in *; set (all := foldr Z.mul 1 (f <$> l)) in *; nia.
Qed.

Section whole.
Context (spec : PolicySpec).
Context (Hroles : NoDup (BName <$> Roles spec) /\ Forall role_admitted (Roles spec)).
Context (Hratios : Forall (ratio_admitted (list_to_set (BName <$> Roles spec))) (Ratios spec)).
Context (key : string -> Z) (Hkey : forall ratio, ratio ∈ Ratios spec -> key (NumeratorRole ratio) = key (DenominatorRole ratio)).

(** The group of a key. *)
Definition group (r : Z) : Component :=
  with_bands (filter (fun band => key (BandNumerator band) = r) (band_of <$> Ratios spec))
    (built (filter (fun b => key (BName b) = r) (Roles spec))).

Lemma group_fields r : let l := filter (fun b => key (BName b) = r) (Roles spec) in
  CRoles (group r) = BName <$> l /\ CLow (group r) = MinReplicas <$> l /\ CHigh (group r) = MaxReplicas <$> l /\
  (forall i name, CRoles (group r) !! i = Some name -> CIndex (group r) !! name = Some (Z.of_nat i)).
Proof.
  cbv zeta. destruct (built_spec (filter (fun b => key (BName b) = r) (Roles spec))) as (E1 & E2 & E3 & _ & E5).
  do 3 (split; [done|]). apply E5. apply NoDup_fmap_filter, Hroles.
Qed.

Lemma group_role_at r i name : CRoles (group r) !! i = Some name -> exists b,
  b ∈ Roles spec /\ BName b = name /\ key name = r /\ CLow (group r) !!! i = MinReplicas b /\ CHigh (group r) !!! i = MaxReplicas b.
Proof.
  destruct (group_fields r) as (E1 & E2 & E3 & _). rewrite E1, E2, E3, list_lookup_fmap.
  destruct (filter _ (Roles spec) !! i) as [b|] eqn:Eb; [|done]. simpl. intros [= <-]. exists b.
  apply list_elem_of_lookup_2 in Eb as Hb. rewrite list_elem_of_filter in Hb.
  rewrite !list_lookup_total_alt, !list_lookup_fmap, Eb. simpl. tauto.
Qed.

Lemma group_member r b : b ∈ Roles spec -> key (BName b) = r -> exists i, CRoles (group r) !! i = Some (BName b) /\ pos (group r) (BName b) = i /\
  position_in (group r) (BName b) = Z.of_nat i.
Proof.
  intros Hb Hk. destruct (group_fields r) as (E1 & _ & _ & E4).
  assert (BName b ∈ CRoles (group r)) as [i Hi]%list_elem_of_lookup.
  { rewrite E1. apply list_elem_of_fmap_2. by rewrite list_elem_of_filter. }
  exists i. split; [done|]. unfold pos, position_in. rewrite (E4 _ _ Hi). simpl. split; [lia|done].
Qed.

Lemma group_band_ends r band : band ∈ CRatios (group r) -> exists ratio i j, ratio ∈ Ratios spec /\ band = band_of ratio /\
  CRoles (group r) !! i = Some (NumeratorRole ratio) /\ CRoles (group r) !! j = Some (DenominatorRole ratio) /\
  position_in (group r) (NumeratorRole ratio) = Z.of_nat i /\ position_in (group r) (DenominatorRole ratio) = Z.of_nat j.
Proof.
  destruct (built_spec (filter (fun b => key (BName b) = r) (Roles spec))) as (_ & _ & _ & E4 & _).
  unfold group at 1. simpl. rewrite E4. simpl. rewrite list_elem_of_filter, list_elem_of_fmap.
  intros (Hk & ratio & -> & Hr). simpl in Hk. destruct (ratio_places spec Hratios ratio Hr) as [Hn Hd].
  apply list_elem_of_fmap in Hn as (bn & En & Hbn). apply list_elem_of_fmap in Hd as (bd & Ed & Hbd).
  pose proof (Hkey _ Hr). destruct (group_member r bn Hbn ltac:(congruence)) as (i & Hi & _ & Pi).
  destruct (group_member r bd Hbd ltac:(congruence)) as (j & Hj & _ & Pj).
  exists ratio, i, j. rewrite En, Ed. auto 10.
Qed.

Lemma group_wf r : component_wf (group r).
Proof.
  destruct (group_fields r) as (E1 & E2 & E3 & E4). split.
  - by rewrite E1, E2, !length_fmap.
  - by rewrite E1, E3, !length_fmap.
  - done.
  - intros i Hi. destruct (lookup_lt_is_Some_2 _ _ Hi) as [name Hname].
    destruct (group_role_at _ _ _ Hname) as (b & Hb & _ & _ & -> & ->). destruct Hroles as [_ Hall].
    rewrite Forall_forall in Hall. apply (Hall b Hb).
  - intros band Hband. destruct (group_band_ends _ _ Hband) as (ratio & i & j & Hr & -> & Hi & Hj & Pi & Pj).
    unfold pos. simpl. rewrite Pi, Pj, !Nat2Z.id. rewrite Forall_forall in Hratios. destruct (Hratios _ Hr) as (Hne & _ & _ & Pm & PM).
    split; [by apply lookup_lt_Some in Hi|]. split; [by apply lookup_lt_Some in Hj|]. split; [|split; [lia|]; split; [lia|done]].
    intros ->. congruence.
Qed.

Lemma group_moderate r : moderate_spec spec -> moderate_bands (group r).
Proof. intros Hm band (ratio & i & j & Hr & -> & _)%group_band_ends. by apply Hm. Qed.

(** A vector of the whole restricts to a group. *)
Lemma group_restrict r v : commits spec v -> let w i := v (CRoles (group r) !!! i) in
  box (group r) (CLow (group r)) (CHigh (group r)) w /\ sat (group r) w.
Proof.
  intros [Hb Hs] w. assert (forall i name, CRoles (group r) !! i = Some name -> w i = v name) as Hw.
  { intros i name Hi. unfold w. by rewrite (list_lookup_total_correct _ _ _ Hi). }
  split.
  - intros i Hi. destruct (lookup_lt_is_Some_2 _ _ Hi) as [name Hname].
    destruct (group_role_at _ _ _ Hname) as (b & Hbin & <- & _ & -> & ->). rewrite (Hw _ _ Hname). by apply Hb.
  - intros band Hband. destruct (group_band_ends _ _ Hband) as (ratio & i & j & Hr & -> & Hi & Hj & Pi & Pj).
    unfold pos. simpl. rewrite Pi, Pj, !Nat2Z.id, (Hw _ _ Hi), (Hw _ _ Hj). apply keeps_ratio_band; [|by apply Hs].
    destruct (group_role_at _ _ _ Hj) as (b & Hbin & <- & _). destruct Hroles as [_ Hall]. rewrite Forall_forall in Hall.
    destruct (Hall b Hbin) as (? & _). specialize (Hb b Hbin). lia.
Qed.

(** Vectors of the groups make one of the whole. *)
Lemma groups_combine (w : Z -> nat -> Z) :
  (forall name, name ∈ BName <$> Roles spec ->
    box (group (key name)) (CLow (group (key name))) (CHigh (group (key name))) (w (key name)) /\ sat (group (key name)) (w (key name))) ->
  commits spec (fun name => w (key name) (pos (group (key name)) name)).
Proof.
  intros Hw. split.
  - intros b Hb. destruct (group_member _ b Hb eq_refl) as (i & Hi & -> & _).
    destruct (Hw (BName b)) as [Hbox _]; [by apply list_elem_of_fmap_2|].
    destruct (group_role_at _ _ _ Hi) as (b' & Hb' & E & _ & El & Eh). apply lookup_lt_Some in Hi as Hlt.
    specialize (Hbox i Hlt). rewrite El, Eh in Hbox. assert (b' = b) as ->; [|done].
    apply list_elem_of_lookup in Hb as [x Hx]. apply list_elem_of_lookup in Hb' as [y Hy].
    assert (x = y) as ->; [|congruence]. apply (NoDup_lookup _ _ _ (BName b) (proj1 Hroles)); rewrite list_lookup_fmap; [by rewrite Hx|by rewrite Hy; simpl; rewrite E].
  - intros ratio Hr. destruct (ratio_places spec Hratios ratio Hr) as [Hn Hd]. rewrite <- (Hkey _ Hr).
    set (r := key (NumeratorRole ratio)). destruct (Hw _ Hn) as [Hbox Hsat]. fold r in Hbox, Hsat.
    assert (band_of ratio ∈ CRatios (group r)) as Hband.
    { unfold group. simpl. apply elem_of_app. right. rewrite list_elem_of_filter. split; [done|by apply list_elem_of_fmap_2]. }
    destruct (wf_bands _ (group_wf r) _ Hband) as (_ & Hlt & _). simpl in Hlt. pose proof (Hbox _ Hlt).
    pose proof (wf_box _ (group_wf r) _ Hlt). apply keeps_ratio_band; [lia|]. by apply (Hsat _ Hband).
Qed.

Lemma group_cost r : cost (group r) 0 <= search_space spec.
Proof.
  destruct (group_fields r) as (_ & E2 & E3 & _). unfold cost, widths, search_space. rewrite E2, E3, drop_0.
  set (l := filter _ (Roles spec)).
  replace (zip_with (fun a h => h - a + 2) (MinReplicas <$> l) (MaxReplicas <$> l)) with ((fun b => MaxReplicas b - MinReplicas b + 2) <$> l)
    by (clear; induction l as [|b l IH]; [done|]; rewrite !fmap_cons; simpl; by rewrite IH).
  apply product_filter. destruct Hroles as [_ Hall]. eapply Forall_impl; [exact Hall|]. intros b (? & ? & _). lia.
Qed.
End whole.

(** The judgement of a list of well-formed components. *)
Lemma judge_loop cs : (forall c, c ∈ cs -> component_wf c) -> exists errs, fold_outcome judge [] cs = Done errs /\
  (errs <> [] -> exists c, c ∈ cs /\ (moderate_bands c -> forall v, box c (CLow c) (CHigh c) v -> ~ sat c v)) /\
  (errs = [] -> forall c, c ∈ cs -> cost c 0 <= modelDeploymentScalerFeasibilityBudget ->
     exists v, box c (CLow c) (CHigh c) v /\ sat c v).
Proof.
  intros Hwf. apply (fold_outcome_inv judge (fun pre errs =>
    (errs <> [] -> exists c, c ∈ pre /\ (moderate_bands c -> forall v, box c (CLow c) (CHigh c) v -> ~ sat c v)) /\
    (errs = [] -> forall c, c ∈ pre -> cost c 0 <= modelDeploymentScalerFeasibilityBudget ->
      exists v, box c (CLow c) (CHigh c) v /\ sat c v))).
  { split; [done|]. by intros _ c ?%elem_of_nil. }
  intros pre c post errs El [Hno Hyes]. destruct (feasible_spec c (Hwf c ltac:(rewrite El; set_solver)) modelDeploymentScalerFeasibilityBudget)
    as (b & left & E & Hleft & Hb & Hn). unfold judge. rewrite E. cbn [outcome_bind fst snd].
  setoid_rewrite elem_of_app. setoid_rewrite list_elem_of_singleton.
  destruct b; [|destruct (Z.leb_spec left 0)]; (eexists; split; [done|]); (split; [intros He|intros He c' [Hc'| ->] Hcost]);
    try (by apply Hyes); try (by apply app_nil in He as [_ ?]); try (destruct (Hno He) as (c0 & ? & ?); exists c0; by auto).
  - by apply Hb.
  - lia.
  - exists c. split; [by right|]. by apply Hn.
Qed.

(** Choose for every key. *)
Lemma choose_keys (P : Z -> (nat -> Z) -> Prop) (keys : list Z) :
  (forall r, r ∈ keys -> exists w, P r w) -> exists w : Z -> nat -> Z, forall r, r ∈ keys -> P r (w r).
Proof.
  induction keys as [|r keys IH]; intros H; [exists (fun _ _ => 0); by intros r ?%elem_of_nil|].
  destruct IH as [w Hw]; [intros; apply H; by right|]. destruct (H r ltac:(left)) as [wr Hwr].
  exists (fun x => if decide (x = r) then wr else w x). intros x Hx. case_decide as E; [by subst|].
  apply Hw. by apply elem_of_cons in Hx as [?|?].
Qed.

(** C32: the check of bounds and ratios decides.  For a specification that passes
    the field checks it never panics.  If it refuses, and the ratio bounds are
    between [2 ^ -52] and [2 ^ 52], no vector of counts inside the bounds keeps all
    ratios; if it accepts, and the box of counts is within the search budget, such
    a vector exists. *)
Theorem feasibility_decides spec (ranging : gmap Z Component -> list (Z * Component)) :
  (forall groups, ranging groups ≡ₚ map_to_list groups) ->
  validateModelDeploymentScalerRoles spec = [] -> validateModelDeploymentScalerRatios spec = [] ->
  exists errs, validateModelDeploymentScalerRatioFeasibility ranging spec = Done errs /\
    (errs <> [] -> moderate_spec spec -> forall v, ~ commits spec v) /\
    (errs = [] -> search_space spec <= modelDeploymentScalerFeasibilityBudget -> exists v, commits spec v).
Proof.
  intros Hranging Hroles%roles_admitted Hratios%ratios_admitted.
  destruct (components_spec spec (proj1 Hroles) Hratios ranging) as (key & groups & Ec & Hkey & Hsome & Hgroups).
  unfold validateModelDeploymentScalerRatioFeasibility. rewrite Ec. cbn [outcome_bind].
  assert (forall c, c ∈ (ranging groups).*2 <-> exists r, groups !! r = Some c) as Hin.
  { intros c. rewrite list_elem_of_fmap. setoid_rewrite Hranging. split.
    - intros ([r c'] & -> & H%elem_of_map_to_list). by exists r.
    - intros [r H%elem_of_map_to_list]. by exists (r, c). }
  assert (forall r c, groups !! r = Some c -> c = group spec key r) as Hgroup by (intros r c Hc; by apply Hgroups).
  destruct (judge_loop (ranging groups).*2) as (errs & E & Hno & Hyes).
  { intros c [r Hc]%Hin. rewrite (Hgroup _ _ Hc). by apply group_wf. }
  exists errs. split; [done|]. split.
  - intros He Hm v Hv. destruct (Hno He) as (c & [r Hc]%Hin & Href). rewrite (Hgroup _ _ Hc) in Href.
    destruct (group_restrict spec Hroles Hratios key Hkey r v Hv) as [Hb Hs]. by eapply Href; [by apply group_moderate|..].
  - intros He Hspace.
    destruct (choose_keys (fun r w => box (group spec key r) (CLow (group spec key r)) (CHigh (group spec key r)) w /\ sat (group spec key r) w)
      (key <$> (BName <$> Roles spec))) as [w Hw].
    + intros r (name & -> & Hn)%list_elem_of_fmap. destruct (Hsome name Hn) as [c Hc]. pose proof (Hgroup _ _ Hc) as ->.
      apply (Hyes He); [apply Hin; by eexists|]. pose proof (group_cost spec Hroles key (key name)). lia.
    + eexists. apply (groups_combine spec Hroles Hratios key Hkey w). intros name Hn. by apply Hw, list_elem_of_fmap_2.
Qed.

(** ** Examples *)

Module AdmissionExample.
Definition quantity (value exponent : Z) : option Quantity := Some {| QValue := value; QExponent := exponent |}.
Definition behavior : BehaviorSpec :=
  {| ScaleUp := {| UpStabilizationWindowSeconds := 0; MaxStepReplicas := 0; MaxStepPercent := 0; UpStepPolicy := None |};
     ScaleDown := {| DownStabilizationWindowSeconds := 60; CooldownAfterAbortSeconds := 0;
                     DecodePostScaleUpGraceSeconds := 0; DownStepPolicy := None |} |}.

(** Two roles of two or three replicas, [a] at least 1.2 times [b]. *)
Definition spec (maximum : option Quantity) : PolicySpec :=
  {| Roles := [{| BName := "a"; MinReplicas := 2; MaxReplicas := 3 |}; {| BName := "b"; MinReplicas := 2; MaxReplicas := 3 |}];
     Ratios := [{| NumeratorRole := "a"; DenominatorRole := "b"; RTarget := None;
                   RMin := quantity 12 (-1); RMax := maximum |}];
     Behavior := behavior |}.

Lemma feasibility_decides_witness :
  exists v, commits (spec (quantity 8 0)) v.
Proof.
  destruct (feasibility_decides (spec (quantity 8 0)) map_to_list) as (errs & E & _ & Hyes).
  - done.
  - by vm_compute.
  - by vm_compute.
  - vm_compute in E. injection E as <-. apply Hyes; [done|by vm_compute].
Defined.

(** A huge upper bound refuses a specification that can be kept.  With the
    upper bound [8e18] the counts 3 and 2 keep the ratio, but the bound times two
    does not fit 64 bits, and the check refuses the specification. *)
Theorem huge_bound_refused :
  validateModelDeploymentScalerRoles (spec (quantity 8 18)) = [] /\
  validateModelDeploymentScalerRatios (spec (quantity 8 18)) = [] /\
  validateModelDeploymentScalerRatioFeasibility map_to_list (spec (quantity 8 18)) = Done [ErrInvalid "spec.roles" (VString "a, b")] /\
  commits (spec (quantity 8 18)) (fun name => if bool_decide (name = "a") then 3 else 2).
Proof.
  split; [by vm_compute|]. split; [by vm_compute|]. split; [by vm_compute|]. split.
  - intros b [->|[->|[]%elem_of_nil]%elem_of_cons]%elem_of_cons; vm_compute; by split.
  - intros ratio ->%list_elem_of_singleton. split; intros q [= <-]; by vm_compute.
Qed.
End AdmissionExample.
