(* ===== verification/ScalerObjects.v ===== *)
(** * The objects of the scaler controller

    The target deployment, the scaler with its specification and status, and the
    pure operations on them, from src/pkg/worker/controllers/worker:
    model_deployment_scaler_status.go (conditions, the comparison that decides
    whether a status is written), model_deployment_scaler_binding.go (the
    annotations), model_deployment_scaler_prior_lifecycle.go, and the helpers of
    model_deployment_scaler_planner.go and model_deployment_scaler.go.  Times are
    nanoseconds; the metrics a role status repeats are left out. *)

From stdpp Require Import prelude gmap strings list pretty sorting.
From Stdlib Require Import SpecFloat Ascii.
From S2P Require Import Prelude GoFloat Scaling ScalerSpec ScalerConstraints.

(** ** The target *)

Record DeploymentRole := {
  RoName : string; RoKind : string; RoReplicas : Z; RoCommand : list string;
  RoElasticEP : bool; RoInstanceType : string }.

Definition with_replicas (n : Z) (r : DeploymentRole) : DeploymentRole :=
  {| RoName := RoName r; RoKind := RoKind r; RoReplicas := n; RoCommand := RoCommand r;
     RoElasticEP := RoElasticEP r; RoInstanceType := RoInstanceType r |}.

Definition RetirementAborted : string := "Aborted".
Definition RetirementCompleted : string := "Completed".
Record Retirement := { RetState : string; RetRoleName : string; RetReplicaOrdinal : Z; RetReason : string }.

(** A nil map of annotations is the empty one. *)
Record Deployment := {
  MdNamespace : string; MdName : string; MdUID : string; MdGeneration : Z; MdResourceVersion : string;
  MdAnnotations : gmap string string; MdRoles : list DeploymentRole; MdRetirement : option Retirement }.

Definition with_annotations (m : gmap string string) (md : Deployment) : Deployment :=
  {| MdNamespace := MdNamespace md; MdName := MdName md; MdUID := MdUID md; MdGeneration := MdGeneration md;
     MdResourceVersion := MdResourceVersion md; MdAnnotations := m; MdRoles := MdRoles md;
     MdRetirement := MdRetirement md |}.
Definition with_roles (roles : list DeploymentRole) (md : Deployment) : Deployment :=
  {| MdNamespace := MdNamespace md; MdName := MdName md; MdUID := MdUID md; MdGeneration := MdGeneration md;
     MdResourceVersion := MdResourceVersion md; MdAnnotations := MdAnnotations md; MdRoles := roles;
     MdRetirement := MdRetirement md |}.

Definition annotation (md : Deployment) (k : string) : string := default "" (MdAnnotations md !! k).

(** ** The scaler *)

Record ProportionalSpec := { PsMetric : string; PsRoleTargets : list (string * Quantity); PsTolerance : option Quantity }.
Record TokenThroughputSpec := {
  TsPrefillTarget : option Quantity; TsDecodeTarget : option Quantity; TsServerTarget : option Quantity;
  TsStableWindowSeconds : Z; TsPanicWindowSeconds : Z; TsPanicThreshold : option Quantity;
  TsTTFTTarget : option Quantity; TsITLTarget : option Quantity }.
Record PredictiveSpec := {
  PvTokenThroughput : TokenThroughputSpec; PvHorizonSeconds : Z;
  PvPrefillCapacity : option Quantity; PvDecodeCapacity : option Quantity; PvServerCapacity : option Quantity;
  PvQLevel : option Quantity; PvQTrend : option Quantity; PvMeasurementNoise : option Quantity; PvMinPoints : Z }.
Record AlgorithmSpec := {
  AlType : string; AlProportional : option ProportionalSpec; AlTokenThroughput : option TokenThroughputSpec;
  AlPredictive : option PredictiveSpec; AlCapacityPrior : bool }.

Record BindingStatus := { BsTargetUID : string; BsTargetName : string; BsTerm : Z }.
Record RoleStatus := {
  RtName : string; RtCurrentReplicas : Z; RtReadyReplicas : Z; RtSignalState : string;
  RtRawRecommended : Z; RtConstrained : Z; RtReason : string; RtLastScaleUpTime : option Z;
  RtHistory : list StabilizationSample }.
Record CommitStatus := {
  CmDecisionID : string; CmTerm : Z; CmVector : gmap string Z; CmBaseline : gmap string Z;
  CmTimestamp : option Z; CmTargetGeneration : Z }.
Record CohortStatus := {
  CoDecisionID : string; CoTerm : Z; CoBaseline : gmap string Z; CoTarget : gmap string Z; CoStartedAt : option Z }.
Record RebalanceStatus := {
  RbReceiverRole : string; RbDonorRole : string; RbDonorTarget : Z; RbReceiverTarget : Z;
  RbStartedAt : option Z; RbEpisode : Z; RbDonationAttempted : bool; RbReason : string }.
Record ScaleDownStatus := {
  SdRole : string; SdOrdinal : Z; SdPreVector : gmap string Z; SdOutcome : string;
  SdAbortedAt : option Z; SdCooldownUntil : option Z }.
Record ScalerCondition := {
  CnType : string; CnStatus : string; CnReason : string; CnMessage : string; CnGeneration : Z; CnTransition : Z }.
(** Of a predictor what the comparison of statuses reads. *)
Record PredictorStatus := { PdName : string; PdSampleCount : Z }.
(** A resolved prior: its role, its fingerprint, and its other fields in one. *)
Record ResolvedPrior := { PrName : string; PrFingerprint : string; PrDetail : string }.

#[export] Instance BindingStatus_eq_dec : EqDecision BindingStatus.
Proof. solve_decision. Defined.
#[export] Instance CommitStatus_eq_dec : EqDecision CommitStatus.
Proof. solve_decision. Defined.
#[export] Instance CohortStatus_eq_dec : EqDecision CohortStatus.
Proof. solve_decision. Defined.
#[export] Instance RebalanceStatus_eq_dec : EqDecision RebalanceStatus.
Proof. solve_decision. Defined.
#[export] Instance ScaleDownStatus_eq_dec : EqDecision ScaleDownStatus.
Proof. solve_decision. Defined.
#[export] Instance ResolvedPrior_eq_dec : EqDecision ResolvedPrior.
Proof. solve_decision. Defined.

Record ScalerStatus := {
  StObservedGeneration : Z; StBinding : option BindingStatus; StRoles : list RoleStatus;
  StLastCommit : option CommitStatus; StPendingCohort : option CohortStatus;
  StRebalance : option RebalanceStatus; StLastScaleDown : option ScaleDownStatus;
  StPredictors : list PredictorStatus; StConditions : list ScalerCondition;
  StPriors : list ResolvedPrior; StLatencyQuantile : string }.

Record Scaler := {
  ScNamespace : string; ScName : string; ScUID : string; ScGeneration : Z; ScDeleting : bool;
  ScFinalizers : list string; ScTargetName : string; ScMode : string; ScSuspend : bool;
  ScIntervalSeconds : Z; ScPendingTimeoutSeconds : Z; ScPolicy : PolicySpec; ScAlgorithm : AlgorithmSpec;
  ScRebalancePolicy : string; ScPriority : list string; ScStatus : ScalerStatus }.

Definition with_status (st : ScalerStatus) (sc : Scaler) : Scaler :=
  {| ScNamespace := ScNamespace sc; ScName := ScName sc; ScUID := ScUID sc; ScGeneration := ScGeneration sc;
     ScDeleting := ScDeleting sc; ScFinalizers := ScFinalizers sc; ScTargetName := ScTargetName sc;
     ScMode := ScMode sc; ScSuspend := ScSuspend sc; ScIntervalSeconds := ScIntervalSeconds sc;
     ScPendingTimeoutSeconds := ScPendingTimeoutSeconds sc; ScPolicy := ScPolicy sc;
     ScAlgorithm := ScAlgorithm sc; ScRebalancePolicy := ScRebalancePolicy sc; ScPriority := ScPriority sc;
     ScStatus := st |}.

(** The fields of the status, set through the scaler. *)
Definition set_observed_to (n : Z) (sc : Scaler) : Scaler :=
  let st := ScStatus sc in
  with_status {| StObservedGeneration := n; StBinding := StBinding st; StRoles := StRoles st;
    StLastCommit := StLastCommit st; StPendingCohort := StPendingCohort st; StRebalance := StRebalance st;
    StLastScaleDown := StLastScaleDown st; StPredictors := StPredictors st; StConditions := StConditions st;
    StPriors := StPriors st; StLatencyQuantile := StLatencyQuantile st |} sc.
Definition set_observed (sc : Scaler) : Scaler := set_observed_to (ScGeneration sc) sc.
Definition set_binding (b : option BindingStatus) (sc : Scaler) : Scaler :=
  let st := ScStatus sc in
  with_status {| StObservedGeneration := StObservedGeneration st; StBinding := b; StRoles := StRoles st;
    StLastCommit := StLastCommit st; StPendingCohort := StPendingCohort st; StRebalance := StRebalance st;
    StLastScaleDown := StLastScaleDown st; StPredictors := StPredictors st; StConditions := StConditions st;
    StPriors := StPriors st; StLatencyQuantile := StLatencyQuantile st |} sc.
Definition set_status_roles (l : list RoleStatus) (sc : Scaler) : Scaler :=
  let st := ScStatus sc in
  with_status {| StObservedGeneration := StObservedGeneration st; StBinding := StBinding st; StRoles := l;
    StLastCommit := StLastCommit st; StPendingCohort := StPendingCohort st; StRebalance := StRebalance st;
    StLastScaleDown := StLastScaleDown st; StPredictors := StPredictors st; StConditions := StConditions st;
    StPriors := StPriors st; StLatencyQuantile := StLatencyQuantile st |} sc.
Definition set_last_commit (c : option CommitStatus) (sc : Scaler) : Scaler :=
  let st := ScStatus sc in
  with_status {| StObservedGeneration := StObservedGeneration st; StBinding := StBinding st; StRoles := StRoles st;
    StLastCommit := c; StPendingCohort := StPendingCohort st; StRebalance := StRebalance st;
    StLastScaleDown := StLastScaleDown st; StPredictors := StPredictors st; StConditions := StConditions st;
    StPriors := StPriors st; StLatencyQuantile := StLatencyQuantile st |} sc.
Definition set_cohort (c : option CohortStatus) (sc : Scaler) : Scaler :=
  let st := ScStatus sc in
  with_status {| StObservedGeneration := StObservedGeneration st; StBinding := StBinding st; StRoles := StRoles st;
    StLastCommit := StLastCommit st; StPendingCohort := c; StRebalance := StRebalance st;
    StLastScaleDown := StLastScaleDown st; StPredictors := StPredictors st; StConditions := StConditions st;
    StPriors := StPriors st; StLatencyQuantile := StLatencyQuantile st |} sc.
Definition set_rebalance (r : option RebalanceStatus) (sc : Scaler) : Scaler :=
  let st := ScStatus sc in
  with_status {| StObservedGeneration := StObservedGeneration st; StBinding := StBinding st; StRoles := StRoles st;
    StLastCommit := StLastCommit st; StPendingCohort := StPendingCohort st; StRebalance := r;
    StLastScaleDown := StLastScaleDown st; StPredictors := StPredictors st; StConditions := StConditions st;
    StPriors := StPriors st; StLatencyQuantile := StLatencyQuantile st |} sc.
Definition set_scale_down (d : option ScaleDownStatus) (sc : Scaler) : Scaler :=
  let st := ScStatus sc in
  with_status {| StObservedGeneration := StObservedGeneration st; StBinding := StBinding st; StRoles := StRoles st;
    StLastCommit := StLastCommit st; StPendingCohort := StPendingCohort st; StRebalance := StRebalance st;
    StLastScaleDown := d; StPredictors := StPredictors st; StConditions := StConditions st;
    StPriors := StPriors st; StLatencyQuantile := StLatencyQuantile st |} sc.
Definition set_predictors (l : list PredictorStatus) (sc : Scaler) : Scaler :=
  let st := ScStatus sc in
  with_status {| StObservedGeneration := StObservedGeneration st; StBinding := StBinding st; StRoles := StRoles st;
    StLastCommit := StLastCommit st; StPendingCohort := StPendingCohort st; StRebalance := StRebalance st;
    StLastScaleDown := StLastScaleDown st; StPredictors := l; StConditions := StConditions st;
    StPriors := StPriors st; StLatencyQuantile := StLatencyQuantile st |} sc.
Definition set_conditions (l : list ScalerCondition) (sc : Scaler) : Scaler :=
  let st := ScStatus sc in
  with_status {| StObservedGeneration := StObservedGeneration st; StBinding := StBinding st; StRoles := StRoles st;
    StLastCommit := StLastCommit st; StPendingCohort := StPendingCohort st; StRebalance := StRebalance st;
    StLastScaleDown := StLastScaleDown st; StPredictors := StPredictors st; StConditions := l;
    StPriors := StPriors st; StLatencyQuantile := StLatencyQuantile st |} sc.
Definition set_priors (l : list ResolvedPrior) (sc : Scaler) : Scaler :=
  let st := ScStatus sc in
  with_status {| StObservedGeneration := StObservedGeneration st; StBinding := StBinding st; StRoles := StRoles st;
    StLastCommit := StLastCommit st; StPendingCohort := StPendingCohort st; StRebalance := StRebalance st;
    StLastScaleDown := StLastScaleDown st; StPredictors := StPredictors st; StConditions := StConditions st;
    StPriors := l; StLatencyQuantile := StLatencyQuantile st |} sc.
Definition set_quantile (q : string) (sc : Scaler) : Scaler :=
  let st := ScStatus sc in
  with_status {| StObservedGeneration := StObservedGeneration st; StBinding := StBinding st; StRoles := StRoles st;
    StLastCommit := StLastCommit st; StPendingCohort := StPendingCohort st; StRebalance := StRebalance st;
    StLastScaleDown := StLastScaleDown st; StPredictors := StPredictors st; StConditions := StConditions st;
    StPriors := StPriors st; StLatencyQuantile := q |} sc.
Definition with_finalizers (l : list string) (sc : Scaler) : Scaler :=
  {| ScNamespace := ScNamespace sc; ScName := ScName sc; ScUID := ScUID sc; ScGeneration := ScGeneration sc;
     ScDeleting := ScDeleting sc; ScFinalizers := l; ScTargetName := ScTargetName sc;
     ScMode := ScMode sc; ScSuspend := ScSuspend sc; ScIntervalSeconds := ScIntervalSeconds sc;
     ScPendingTimeoutSeconds := ScPendingTimeoutSeconds sc; ScPolicy := ScPolicy sc;
     ScAlgorithm := ScAlgorithm sc; ScRebalancePolicy := ScRebalancePolicy sc; ScPriority := ScPriority sc;
     ScStatus := ScStatus sc |}.

(** ** Conditions *)

Definition CondTrue : string := "True".
Definition CondFalse : string := "False".
Definition CondUnknown : string := "Unknown".
Definition ConditionBound : string := "Bound".
Definition ConditionActive : string := "Active".
Definition ConditionMetricsReady : string := "MetricsReady".
Definition ConditionPriorsReady : string := "CapacityPriorsReady".
Definition ConditionBlocked : string := "Blocked".

(** The reasons a scaler reports, beside those of the solver. *)
Definition ReasonTargetNotFound : string := "TargetNotFound".
Definition ReasonAlreadyBound : string := "AlreadyBound".
Definition ReasonTargetReplaced : string := "TargetReplaced".
Definition ReasonInvalidBinding : string := "InvalidBinding".
Definition ReasonSuspended : string := "Suspended".
Definition ReasonShadowMode : string := "ShadowMode".
Definition ReasonResourceExhausted : string := "ResourceExhausted".
Definition ReasonScaleDownAborted : string := "ScaleDownAborted".
Definition ReasonRebalanceNotApplicable : string := "RebalanceNotApplicable".
Definition ReasonRebalanceBlocked : string := "RebalanceBlocked".
Definition ReasonCapacityPriorUnresolved : string := "CapacityPriorUnresolved".

Fixpoint set_condition_in (generation : Z) (type status reason message : string) (now : Z)
    (l : list ScalerCondition) : list ScalerCondition :=
  match l with
  | [] => [{| CnType := type; CnStatus := status; CnReason := reason; CnMessage := message;
              CnGeneration := generation; CnTransition := now |}]
  | c :: l =>
      if bool_decide (CnType c = type) then
        {| CnType := type; CnStatus := status; CnReason := reason; CnMessage := message; CnGeneration := generation;
           CnTransition := if bool_decide (CnStatus c = status) then CnTransition c else now |} :: l
      else c :: set_condition_in generation type status reason message now l
  end.

Definition setCondition (type status reason message : string) (now : Z) (sc : Scaler) : Scaler :=
  set_conditions (set_condition_in (ScGeneration sc) type status reason message now (StConditions (ScStatus sc))) sc.

Definition modelDeploymentScalerConditionReason (sc : Scaler) (type : string) : string :=
  match list_find (fun c => CnType c = type) (StConditions (ScStatus sc)) with
  | Some (_, c) => CnReason c
  | None => ""
  end.

(** ** Whether a status is written *)

Definition equalScalerConditions (before after : list ScalerCondition) : bool :=
  bool_decide (length before = length after)
  && forallb (fun ab : ScalerCondition * ScalerCondition => let (a, b) := ab in
       bool_decide (CnType a = CnType b) && bool_decide (CnStatus a = CnStatus b)
       && bool_decide (CnReason a = CnReason b) && bool_decide (CnMessage a = CnMessage b)
       && (CnGeneration a =? CnGeneration b)) (zip before after).

Definition equalScalerRoleStatuses (before after : list RoleStatus) : bool :=
  bool_decide (length before = length after)
  && forallb (fun ab : RoleStatus * RoleStatus => let (a, b) := ab in
       bool_decide (RtName a = RtName b) && (RtCurrentReplicas a =? RtCurrentReplicas b)
       && (RtReadyReplicas a =? RtReadyReplicas b) && bool_decide (RtSignalState a = RtSignalState b)
       && (RtRawRecommended a =? RtRawRecommended b) && (RtConstrained a =? RtConstrained b)
       && bool_decide (RtReason a = RtReason b)
       && bool_decide (RtLastScaleUpTime a = RtLastScaleUpTime b)) (zip before after).

Definition checkpointStep : Z := 16.
Definition equalScalerPredictorCheckpoints (before after : list PredictorStatus) : bool :=
  if negb (bool_decide (length before = length after)) then
    match before with
    | [] => forallb (fun p => PdSampleCount p <? checkpointStep) after
    | _ => false
    end
  else
    forallb (fun ab : PredictorStatus * PredictorStatus => let (a, b) := ab in
      bool_decide (PdName a = PdName b) && negb (PdSampleCount b <? PdSampleCount a)
      && negb (checkpointStep <=? i32 (PdSampleCount b - PdSampleCount a))) (zip before after).

Definition modelDeploymentScalerStatusChanged (before after : ScalerStatus) : bool :=
  negb (StObservedGeneration before =? StObservedGeneration after)
  || negb (bool_decide (StLatencyQuantile before = StLatencyQuantile after))
  || negb (bool_decide (StPriors before = StPriors after))
  || negb (bool_decide (StBinding before = StBinding after))
  || negb (bool_decide (StLastCommit before = StLastCommit after))
  || negb (bool_decide (StPendingCohort before = StPendingCohort after))
  || negb (bool_decide (StRebalance before = StRebalance after))
  || negb (bool_decide (StLastScaleDown before = StLastScaleDown after))
  || negb (equalScalerConditions (StConditions before) (StConditions after))
  || negb (equalScalerPredictorCheckpoints (StPredictors before) (StPredictors after))
  || negb (equalScalerRoleStatuses (StRoles before) (StRoles after)).

Definition resetTargetState (sc : Scaler) : Scaler :=
  set_predictors [] (set_scale_down None (set_rebalance None (set_cohort None (set_last_commit None
    (set_status_roles [] (set_priors [] sc)))))).

Definition scalerRoleLastScaleUp (roles : list RoleStatus) (name : string) : option Z :=
  match list_find (fun r => RtName r = name /\ is_Some (RtLastScaleUpTime r)) roles with
  | Some (_, r) => RtLastScaleUpTime r
  | None => None
  end.

Definition SignalStale : string := "Stale".
Definition scalerObservationState (obs : RoleObservation) : string :=
  let states := [GaugeState obs; ThroughputState obs; LatencyState obs] in
  if bool_decide (SignalStale ∈ states) then SignalStale
  else if bool_decide (SignalMissing ∈ states) || negb (CompleteCoverage obs) then SignalMissing
  else if bool_decide (SignalFresh ∈ states) then SignalFresh
  else SignalIdle.

(** ** Replica vectors *)

Definition deploymentReplicaVector (md : Deployment) : gmap string Z :=
  foldl (fun m role => <[RoName role := RoReplicas role]> m) ∅ (MdRoles md).

Definition equalReplicaVectors (a b : gmap string Z) : bool :=
  bool_decide (size a = size b) && forallb (fun rc => count b rc.1 =? rc.2) (map_to_list a).

(** [%q] of a name without characters to escape. *)
Definition quoted (name : string) : string :=
  let quote := String (Ascii.ascii_of_nat 34) EmptyString in quote +:+ name +:+ quote.

(** Why the target's roles cannot be planned for; empty when they can. *)
Definition role_ineligible (declared : gmap string DeploymentRole) (what name : string) : string :=
  match declared !! name with
  | None => "the " +:+ what +:+ " role " +:+ quoted name +:+ " does not exist"
  | Some role =>
      if negb (bool_decide (RoCommand role = []))
      then "the " +:+ what +:+ " role " +:+ quoted name +:+ " runs a custom command and cannot be autoscaled"
      else if RoElasticEP role
      then "the " +:+ what +:+ " role " +:+ quoted name +:+ " runs elastic-EP and cannot be autoscaled"
      else ""
  end.

(** The first reason of a list. *)
Definition first_reason (l : list string) : string :=
  match list_find (fun s => s <> "") l with Some (_, s) => s | None => "" end.

Definition targetRolesEligibility (spec : PolicySpec) (roles : list DeploymentRole) : string :=
  let declared : gmap string DeploymentRole := foldl (fun m role => <[RoName role := role]> m) ∅ roles in
  first_reason
    ((role_ineligible declared "target" <$> (BName <$> Roles spec))
     ++ ((fun name => if bool_decide (name = "") then "" else role_ineligible declared "ratio" name) <$>
         (ratio ← Ratios spec; [NumeratorRole ratio; DenominatorRole ratio]))).

Definition bound_conflict (vector : gmap string Z) (bound : RoleBounds) : bool :=
  match vector !! BName bound with
  | None => true
  | Some current =>
      let minimum := if MinReplicas bound <=? 0 then 1 else MinReplicas bound in
      (current <? minimum) || (MaxReplicas bound <? current)
  end.

Definition currentVectorConflict (spec : PolicySpec) (roles : list DeploymentRole) (vector : gmap string Z) : string :=
  if negb (bool_decide (length (Roles spec) = length roles)) then ReasonBoundsConflict
  else if existsb (bound_conflict vector) (Roles spec) then ReasonBoundsConflict
  else if negb (ratiosSatisfied vector (Ratios spec)) then ReasonRatioConflict
  else "".

(** The first role, by name, that shrinks, and its new count. *)
Definition firstScaleDown (before after : gmap string Z) : string * Z :=
  match list_find (fun role => count after role < count before role)
          (merge_sort String.le (elements (dom after))) with
  | Some (_, role) => (role, count after role)
  | None => ("", 0)
  end.

(** ** Annotations *)

Definition BindingAnnotationKey : string := "modeldeployment.gpustack.ai/scaler-binding".
Definition DecisionAnnotationKey : string := "modeldeployment.gpustack.ai/scaler-decision".
Definition FinalizerKey : string := "modeldeployment.gpustack.ai/scaler-binding".

Record ScalerBinding := { BiScalerName : string; BiScalerUID : string; BiTerm : Z }.
Record Decision := {
  DeScalerUID : string; DeDecisionID : string; DeTerm : Z; DeVector : gmap string Z;
  DeBaseline : gmap string Z; DeTimestamp : option Z; DeTargetGeneration : Z }.

(** A timestamp keeps whole seconds in JSON. *)
Definition whole_seconds (d : Decision) : Decision :=
  {| DeScalerUID := DeScalerUID d; DeDecisionID := DeDecisionID d; DeTerm := DeTerm d; DeVector := DeVector d;
     DeBaseline := DeBaseline d; DeTimestamp := (fun t => t / 10 ^ 9 * 10 ^ 9) <$> DeTimestamp d;
     DeTargetGeneration := DeTargetGeneration d |}.

(** encoding/json on the two annotations. *)
Class AnnotationCodec := {
  encode_binding : ScalerBinding -> string;
  decode_binding : string -> option ScalerBinding;
  encode_decision : Decision -> string;
  decode_decision : string -> option Decision }.
Class AnnotationCodecLaws `{AnnotationCodec} := {
  binding_roundtrip : forall b, decode_binding (encode_binding b) = Some b;
  binding_written : forall b, encode_binding b <> "";
  decision_roundtrip : forall d, decode_decision (encode_decision d) = Some (whole_seconds d);
  decision_written : forall d, encode_decision d <> "" }.

Definition scalerTerm (sc : Scaler) : Z :=
  match StBinding (ScStatus sc) with Some b => BsTerm b | None => 0 end.

Section annotations.
Context `{AnnotationCodec}.

(** The binding: absent, present, or unreadable. *)
Inductive binding_read := BindingAbsent | BindingInvalid | BindingOf (b : ScalerBinding).

Definition readScalerBinding (md : Deployment) : binding_read :=
  let value := annotation md BindingAnnotationKey in
  if bool_decide (value = "") then BindingAbsent
  else match decode_binding value with Some b => BindingOf b | None => BindingInvalid end.

Definition recovered_commit (md : Deployment) (d : Decision) : CommitStatus :=
  {| CmDecisionID := DeDecisionID d; CmTerm := DeTerm d; CmVector := DeVector d; CmBaseline := DeBaseline d;
     CmTimestamp := DeTimestamp d;
     CmTargetGeneration := if DeTargetGeneration d =? 0 then MdGeneration md else DeTargetGeneration d |}.

Definition commit_matches (c : option CommitStatus) (d : Decision) : bool :=
  match c with
  | None => false
  | Some c => (CmTerm c =? DeTerm d) && bool_decide (CmDecisionID c = DeDecisionID d)
              && equalReplicaVectors (CmVector c) (DeVector d)
  end.

(** Whether the decision is this scaler's, under the binding it holds. *)
Definition decision_foreign (sc : Scaler) (md : Deployment) (d : Decision) : bool :=
  negb (bool_decide (DeScalerUID d = ScUID sc))
  || (match readScalerBinding md with
      | BindingInvalid => true
      | BindingOf b => negb (bool_decide (BiScalerUID b = ScUID sc)) || negb (DeTerm d =? BiTerm b)
      | BindingAbsent => false
      end)
  || (match StBinding (ScStatus sc) with
      | Some b => negb (DeTerm d =? BsTerm b)
                  || (negb (bool_decide (BsTargetUID b = "")) && negb (bool_decide (BsTargetUID b = MdUID md)))
      | None => false
      end).

Definition recoverDecision (md : Deployment) (sc : Scaler) : Scaler :=
  let value := annotation md DecisionAnnotationKey in
  if bool_decide (value = "") then sc
  else
    match decode_decision value with
    | None => sc
    | Some d =>
        if decision_foreign sc md d then sc
        else if negb (equalReplicaVectors (deploymentReplicaVector md) (DeVector d)) then sc
        else
          let sc := if commit_matches (StLastCommit (ScStatus sc)) d then sc
                    else set_last_commit (Some (recovered_commit md d)) sc in
          match StBinding (ScStatus sc) with
          | Some b =>
              if bool_decide (BsTargetUID b = "")
              then set_binding (Some {| BsTargetUID := MdUID md; BsTargetName := MdName md; BsTerm := DeTerm d |}) sc
              else sc
          | None => set_binding (Some {| BsTargetUID := MdUID md; BsTargetName := MdName md; BsTerm := DeTerm d |}) sc
          end
    end.

(** [md] with the counts and the decision of a commit. *)
Definition committed_roles (vector : gmap string Z) (roles : list DeploymentRole) : list DeploymentRole :=
  (fun role => match vector !! RoName role with Some n => with_replicas n role | None => role end) <$> roles.

Definition decision_id (sc : Scaler) (now : Z) : string :=
  ScUID sc +:+ "-" +:+ pretty (scalerTerm sc) +:+ "-" +:+ pretty now.

Definition decision_of (sc : Scaler) (md : Deployment) (vector baseline : gmap string Z) (now : Z) : Decision :=
  {| DeScalerUID := ScUID sc; DeDecisionID := decision_id sc now; DeTerm := scalerTerm sc; DeVector := vector;
     DeBaseline := baseline; DeTimestamp := Some now; DeTargetGeneration := i64 (MdGeneration md + 1) |}.

Definition committed (sc : Scaler) (vector baseline : gmap string Z) (now : Z) (md : Deployment) : Deployment :=
  with_annotations (<[DecisionAnnotationKey := encode_decision (decision_of sc md vector baseline now)]> (MdAnnotations md))
    (with_roles (committed_roles vector (MdRoles md)) md).
End annotations.
