(* ===== verification/ScalerPlanner.v ===== *)
(** * The scaler's reconcile pass

    [Reconcile] of src/pkg/worker/controllers/worker/model_deployment_scaler.go
    with the plan of model_deployment_scaler_planner.go, the rebalance of
    model_deployment_scaler_rebalance.go and the writes of
    model_deployment_scaler_binding.go.  What the pass reads (the API server, the
    sampler, the capacity priors) is an answer of [world]; what it does leaves an
    event in the log.  The recommendations are those of Scaling.v and the vector
    is that of ScalerConstraints.v. *)

From stdpp Require Import prelude gmap strings list pretty sorting.
From Stdlib Require Import SpecFloat.
From S2P Require Import Prelude GoFloat Scaling ScalerSpec ScalerConstraints ScalerObjects.

(** ** What the pass reads and does *)

(** A read of the API server. *)
Inductive reading (A : Type) := Found (a : A) | NotFound | ReadFailed.
Arguments Found {A} a.
Arguments NotFound {A}.
Arguments ReadFailed {A}.

(** The catalogue refuses, or a dependency cannot be read. *)
Inductive prior_error := PriorRefused (reason message : string) | PriorFailed.
Record Priors := { PAlgorithms : gmap string AlgorithmSpec; PStatus : list ResolvedPrior }.

(** A Pod with its role and ordinal labels, and a workload with its owners. *)
Record PodRef := { PoName : string; PoUID : string; PoRole : string; PoOrdinal : option Z }.
Record OwnerRef := { OwKind : string; OwName : string; OwUID : string }.
Record Workload := { WkOwners : list OwnerRef; WkReserved : bool; WkAdmitted : bool }.

Record world {H : Type} := {
  AtNow : Z;
  ReadScaler : reading Scaler;
  ReadTarget : reading Deployment;
  ReadBoundTarget : reading Deployment;
  Resolve : nat -> Scaler -> Deployment -> prior_error + Priors;
  ReadPods : option (list PodRef);
  ReadWorkloads : option (list Workload);
  Observations : gmap string RoleObservation;
  SampleReasons : string -> list string;
  HistoryOf : string -> list StabilizationSample;
  PredictorOf : string -> option (@PredictorState H);
  UpdateTarget : Deployment -> option Deployment;
  UpdateStatus : Scaler -> option Scaler;
  UpdateScaler : Scaler -> bool;
  ReadDonor : string -> Z -> reading unit;
  LatestScaler : reading Scaler;
  LatestTarget : reading Deployment;
  Quantile : AlgorithmSpec -> option string }.
Arguments world : clear implicits.

Inductive event :=
  | TargetUpdated (base sent : Deployment)
  | StatusWritten (sc : Scaler)
  | ScalerWritten (sc : Scaler)
  | SamplerForgot
  | HistoriesRecorded (h : gmap string (list StabilizationSample))
  | PredictorsRecorded (roles : list string).

Inductive answer := RequeueAfter (d : Z) | RequeueNow | Idle | Failed.

(** The scaler and the target in memory, and the log. *)
Record local := { LSc : Scaler; LMd : Deployment; LLog : list event }.

(** A step answers early, or goes on. *)
Definition job (A : Type) : Type := local -> outcome ((answer + A) * local).

Definition jret {A} (a : A) : job A := fun s => Done (inr a, s).
Definition jbind {A B} (m : job A) (k : A -> job B) : job B :=
  fun s => let* r := m s in
    match r with
    | (inl v, s) => Done (inl v, s)
    | (inr a, s) => k a s
    end.
Definition leave {A} (v : answer) : job A := fun s => Done (inl v, s).
Definition lift {A} (o : outcome A) : job A := fun s => let* a := o in Done (inr a, s).
Definition get_sc : job Scaler := fun s => Done (inr (LSc s), s).
Definition get_md : job Deployment := fun s => Done (inr (LMd s), s).
Definition put_sc (sc : Scaler) : job unit := fun s => Done (inr tt, {| LSc := sc; LMd := LMd s; LLog := LLog s |}).
Definition put_md (md : Deployment) : job unit := fun s => Done (inr tt, {| LSc := LSc s; LMd := md; LLog := LLog s |}).
Definition change (f : Scaler -> Scaler) : job unit :=
  fun s => Done (inr tt, {| LSc := f (LSc s); LMd := LMd s; LLog := LLog s |}).
Definition emit (e : event) : job unit :=
  fun s => Done (inr tt, {| LSc := LSc s; LMd := LMd s; LLog := LLog s ++ [e] |}).

Declare Scope planner_scope.
Delimit Scope planner_scope with planner.
Notation "'let!' x := m 'in' k" := (jbind m (fun x => k))
  (at level 10, x name, m at level 100, k at level 200) : planner_scope.
Notation "m ';!' k" := (jbind m (fun _ : unit => k)) (at level 100, right associativity) : planner_scope.
#[local] Open Scope planner_scope.

(** ** Execution state *)

(** The Pod a workload belongs to. *)
Definition workload_pod (pods : list PodRef) (wl : Workload) : option PodRef :=
  let podByName : gmap string PodRef := foldl (fun m p => <[PoName p := p]> m) ∅ pods in
  head (omap (fun owner =>
      if bool_decide (OwKind owner = "Pod") then
        match podByName !! OwName owner with
        | Some pod =>
            if negb (bool_decide (OwUID owner = "")) && negb (bool_decide (PoUID pod = OwUID owner)) then None
            else Some pod
        | None => None
        end
      else None) (WkOwners wl)).

Definition execution_step (pods : list PodRef) (acc : gset string * gmap string (gset Z)) (wl : Workload)
    : gset string * gmap string (gset Z) :=
  let (pending, cohorts) := acc in
  match workload_pod pods wl with
  | None => acc
  | Some pod =>
      let held := WkReserved wl && WkAdmitted wl in
      let pending := if held then pending else {[PoRole pod]} ∪ pending in
      match PoOrdinal pod with
      | Some ordinal =>
          (pending, if held then <[PoRole pod := {[i32 ordinal]} ∪ default ∅ (cohorts !! PoRole pod)]> cohorts else cohorts)
      | None => (pending, cohorts)
      end
  end.

Definition admitted_at (admitted : gmap string (gset Z)) (role : string) (ordinal : Z) : bool :=
  bool_decide (ordinal ∈ default ∅ (admitted !! role)).

(** The ordinals a cohort added to a role. *)
Definition added_ordinals (cohort : CohortStatus) (role : string) (target : Z) : list Z :=
  seqZ (count (CoBaseline cohort) role) (target - count (CoBaseline cohort) role).

Definition addedOrdinalsAdmitted (cohort : CohortStatus) (admitted : gmap string (gset Z)) : bool :=
  let added := map_to_list (CoTarget cohort) ≫= (fun rt => pair rt.1 <$> added_ordinals cohort rt.1 rt.2) in
  negb (bool_decide (added = [])) && forallb (fun ro => admitted_at admitted ro.1 ro.2) added.

Definition pendingTimeoutDefault : Z := 300 * 10 ^ 9.
Definition initialTerm : Z := 1.
Definition minimumPendingRequeue : Z := 10 ^ 9.
Definition defaultIntervalSeconds : Z := 15.
Definition pendingTimeout (sc : Scaler) : Z :=
  if ScPendingTimeoutSeconds sc <=? 0 then pendingTimeoutDefault else seconds (ScPendingTimeoutSeconds sc).
Definition interval (sc : Scaler) : Z :=
  if ScIntervalSeconds sc <=? 0 then seconds defaultIntervalSeconds else seconds (ScIntervalSeconds sc).

(** ** Algorithms *)

Definition AlgorithmProportional : string := "Proportional".
Definition AlgorithmTokenThroughput : string := "TokenThroughput".
Definition AlgorithmPredictive : string := "Predictive".

Inductive algorithm :=
  | UseProportional (p : Proportional)
  | UseThroughput (t : TokenThroughput)
  | UsePredictive (p : Predictive)
  | UseRatioCoupled.

Definition modelDeploymentScalerQuantityValue (q : option Quantity) : float64 :=
  match q with Some q => AsApproximateFloat64 q | None => fzero end.

Definition tokenThroughputAlgorithm (spec : TokenThroughputSpec) : TokenThroughput :=
  {| PrefillTargetTokensPerSecond := modelDeploymentScalerQuantityValue (TsPrefillTarget spec);
     DecodeTargetTokensPerSecond := modelDeploymentScalerQuantityValue (TsDecodeTarget spec);
     ServerTargetTokensPerSecond := modelDeploymentScalerQuantityValue (TsServerTarget spec);
     StableWindowSeconds := to_float (TsStableWindowSeconds spec);
     PanicWindowSeconds := to_float (TsPanicWindowSeconds spec);
     PanicThreshold := modelDeploymentScalerQuantityValue (TsPanicThreshold spec);
     TTFTTargetMilliseconds := modelDeploymentScalerQuantityValue (TsTTFTTarget spec);
     ITLTargetMilliseconds := modelDeploymentScalerQuantityValue (TsITLTarget spec) |}.

Definition modelDeploymentScalerAlgorithmForRole (spec : AlgorithmSpec) (role : string) : option algorithm :=
  if bool_decide (AlType spec = AlgorithmProportional) then
    match AlProportional spec with
    | None => None
    | Some p =>
        match list_find (fun rt => rt.1 = role) (PsRoleTargets p) with
        | None => Some UseRatioCoupled
        | Some (_, rt) =>
            Some (UseProportional {| Metric := PsMetric p; TargetValue := AsApproximateFloat64 rt.2;
              Tolerance := modelDeploymentScalerQuantityValue (PsTolerance p) |})
        end
    end
  else if bool_decide (AlType spec = AlgorithmTokenThroughput) then
    UseThroughput ∘ tokenThroughputAlgorithm <$> AlTokenThroughput spec
  else if bool_decide (AlType spec = AlgorithmPredictive) then
    (fun p => UsePredictive
      {| Throughput := tokenThroughputAlgorithm (PvTokenThroughput p); HorizonSeconds := to_float (PvHorizonSeconds p);
         PrefillTokenCapacityPerReplica := modelDeploymentScalerQuantityValue (PvPrefillCapacity p);
         DecodeTokenCapacityPerReplica := modelDeploymentScalerQuantityValue (PvDecodeCapacity p);
         ServerTokenCapacityPerReplica := modelDeploymentScalerQuantityValue (PvServerCapacity p);
         QLevel := modelDeploymentScalerQuantityValue (PvQLevel p); QTrend := modelDeploymentScalerQuantityValue (PvQTrend p);
         R := modelDeploymentScalerQuantityValue (PvMeasurementNoise p); MinPoints := PvMinPoints p |}) <$> AlPredictive spec
  else None.

Definition modelDeploymentScalerRoleKind (kind : string) : string :=
  if bool_decide (kind = "Prefill") then RoleKindPrefill
  else if bool_decide (kind = "Decode") then Scaling.RoleKindDecode
  else if bool_decide (kind = "Encode") then RoleKindEncode
  else if bool_decide (kind = "Server") then RoleKindServer
  else RoleKindUnknown.

(** An observation nothing was read for. *)
Definition unobserved (role : DeploymentRole) : RoleObservation :=
  {| Role := RoName role; Kind := modelDeploymentScalerRoleKind (RoKind role); CurrentReplicas := RoReplicas role;
     ReadyReplicas := 0; PromptTokensPerSecond := fzero; GenerationTokensPerSecond := fzero; RunningRequests := fzero;
     WaitingRequests := fzero; KVCacheUsage := fzero; TTFTMilliseconds := fzero; ITLMilliseconds := fzero;
     TTFTUnmeasured := false; ITLUnmeasured := false; ThroughputState := ""; LatencyState := ""; GaugeState := "";
     CompleteCoverage := false; ObservedAt := 0 |}.

Definition named_observation (role : DeploymentRole) (obs : RoleObservation) : RoleObservation :=
  {| Role := RoName role; Kind := Kind obs; CurrentReplicas := RoReplicas role;
     ReadyReplicas := ReadyReplicas obs; PromptTokensPerSecond := PromptTokensPerSecond obs;
     GenerationTokensPerSecond := GenerationTokensPerSecond obs; RunningRequests := RunningRequests obs;
     WaitingRequests := WaitingRequests obs; KVCacheUsage := KVCacheUsage obs; TTFTMilliseconds := TTFTMilliseconds obs;
     ITLMilliseconds := ITLMilliseconds obs; TTFTUnmeasured := TTFTUnmeasured obs; ITLUnmeasured := ITLUnmeasured obs;
     ThroughputState := ThroughputState obs; LatencyState := LatencyState obs; GaugeState := GaugeState obs;
     CompleteCoverage := CompleteCoverage obs; ObservedAt := ObservedAt obs |}.

(** ** The pass *)

Definition ModeShadow : string := "Shadow".
Definition ModeActive : string := "Active".
Definition OutcomeCommitted : string := "Committed".
Definition OutcomeAborted : string := "Aborted".
Definition PolicyOpposing : string := "Opposing".
Definition PolicyPriority : string := "Priority".
Definition PolicyDisabled : string := "Disabled".
Definition RebalanceDonorRelease : string := "DonorRelease".
Definition RebalanceReceiverAcquire : string := "ReceiverAcquire".
Definition RebalanceDonationAttempt : string := "DonationAttempted".

Section pass.
Context `{Codec : AnnotationCodec} {H : Type} `{HistoryH : DemandHistory H}.
Context (elsewhere32 elsewhere64 : float64 -> Z) (ranging : forall A, gmap string A -> list (string * A)).
Context (w : world H).

Abbreviation now := (AtNow w).

Definition set_cond (type status reason message : string) : job unit :=
  change (setCondition type status reason message now).

(** A write of the target; its answer replaces the object in memory. *)
Definition update_target (base sent : Deployment) : job unit :=
  emit (TargetUpdated base sent) ;!
  match UpdateTarget w sent with
  | Some md => put_md md
  | None => leave Failed
  end.

(** Whether the write, if one is due, succeeded. *)
Definition try_update_status (before : Scaler) : job bool :=
  let! sc := get_sc in
  change (match Quantile w (ScAlgorithm sc) with
          | None => set_observed_to (StObservedGeneration (ScStatus before))
          | Some q => set_quantile q
          end) ;!
  let! sc := get_sc in
  if negb (modelDeploymentScalerStatusChanged (ScStatus before) (ScStatus sc)) then jret true
  else
    emit (StatusWritten sc) ;!
    match UpdateStatus w sc with
    | Some sc => put_sc sc ;! jret true
    | None => jret false
    end.

(** [if err := r.updateStatus(...); err != nil { return err }] *)
Definition updateStatus (before : Scaler) : job unit :=
  let! ok := try_update_status before in
  if ok then jret tt else leave Failed.

(** ** Capacity priors *)

Definition modelDeploymentScalerPriorRequested (sc : Scaler) : bool := AlCapacityPrior (ScAlgorithm sc).

Definition fingerprints (l : list ResolvedPrior) : gmap string string :=
  foldl (fun m p => <[PrName p := PrFingerprint p]> m) ∅ l.

Definition without_history (r : RoleStatus) : RoleStatus :=
  {| RtName := RtName r; RtCurrentReplicas := RtCurrentReplicas r; RtReadyReplicas := RtReadyReplicas r;
     RtSignalState := RtSignalState r; RtRawRecommended := RtRawRecommended r; RtConstrained := RtConstrained r;
     RtReason := RtReason r; RtLastScaleUpTime := RtLastScaleUpTime r; RtHistory := [] |}.

Definition clearCapacityPriorState : job unit :=
  let! sc := get_sc in
  if negb (modelDeploymentScalerPriorRequested sc) && bool_decide (StPriors (ScStatus sc) = []) then jret tt
  else
    put_sc (set_status_roles (without_history <$> StRoles (ScStatus sc)) (set_predictors [] (set_priors [] sc))) ;!
    emit SamplerForgot.

Definition invalidateCapacityPriorState (reason message : string) : job unit :=
  let! sc := get_sc in
  if negb (modelDeploymentScalerPriorRequested sc) && bool_decide (StPriors (ScStatus sc) = [])
     && bool_decide (modelDeploymentScalerConditionReason sc ConditionPriorsReady = "")
  then jret tt
  else clearCapacityPriorState ;! set_cond ConditionPriorsReady CondUnknown reason message.

Definition refusal (e : prior_error) : string * string :=
  match e with
  | PriorRefused reason message => (reason, message)
  | PriorFailed => (ReasonCapacityPriorUnresolved, "capacity prior dependencies could not be read")
  end.

Definition applyCapacityPriorResolution (resolved : prior_error + Priors) : job unit :=
  match resolved with
  | inl e =>
      clearCapacityPriorState ;!
      set_cond ConditionPriorsReady CondFalse (refusal e).1 (refusal e).2 ;!
      set_cond ConditionActive CondFalse (refusal e).1 (refusal e).2
  | inr priors =>
      let! sc := get_sc in
      (if bool_decide (fingerprints (StPriors (ScStatus sc)) = fingerprints (PStatus priors)) then jret tt
       else clearCapacityPriorState) ;!
      change (set_priors (PStatus priors)) ;!
      let! sc := get_sc in
      if modelDeploymentScalerPriorRequested sc then
        set_cond ConditionPriorsReady CondTrue "Resolved"
          "all required capacities are explicit or resolved from compatible catalog profiles"
      else if negb (bool_decide (modelDeploymentScalerConditionReason sc ConditionPriorsReady = "")) then
        set_cond ConditionPriorsReady CondTrue "Manual" "every capacity is stated by hand"
      else jret tt
  end.

Definition stopForCapacityPrior {A} (before : Scaler) (e : prior_error) : job A :=
  match e with
  | PriorFailed =>
      change set_observed ;!
      let! _ok := try_update_status before in
      leave Failed
  | PriorRefused reason message =>
      set_cond ConditionBlocked CondTrue reason message ;!
      change set_observed ;!
      updateStatus before ;!
      let! sc := get_sc in
      leave (RequeueAfter (interval sc))
  end.

(** The refusal of no role in particular, with its text. *)
Definition prior_refusal (message : string) : prior_error :=
  PriorRefused ReasonCapacityPriorUnresolved
    (ReasonCapacityPriorUnresolved +:+ ": role " +:+ quoted "" +:+ ": " +:+ message).

Definition recheckCapacityPriors (planned : Priors) : job (option prior_error) :=
  let! sc := get_sc in
  if negb (modelDeploymentScalerPriorRequested sc) then jret None
  else
    match LatestScaler w with
    | Found latest =>
        if negb (bool_decide (ScUID latest = ScUID sc)) || negb (ScGeneration latest =? ScGeneration sc)
           || ScSuspend latest || negb (bool_decide (ScMode latest = ModeActive))
        then jret (Some (prior_refusal "scaler configuration changed while planning; retry resolution"))
        else
          match LatestTarget w with
          | Found target =>
              match Resolve w 2 latest target with
              | inl e => jret (Some e)
              | inr resolved =>
                  if bool_decide (fingerprints (PStatus planned) = fingerprints (PStatus resolved)) then jret None
                  else jret (Some (prior_refusal "capacity compatibility changed while planning; retry resolution"))
              end
          | _ => jret (Some PriorFailed)
          end
    | _ => jret (Some PriorFailed)
    end.

(** ** Ownership and commits *)

Definition ensureOwnedBinding (before : Scaler) : job bool :=
  let! sc := get_sc in
  let! md := get_md in
  match readScalerBinding md with
  | BindingInvalid =>
      set_cond ConditionBound CondFalse ReasonInvalidBinding "the target's scaler binding annotation cannot be read" ;!
      set_cond ConditionActive CondFalse ReasonInvalidBinding "the target's scaler binding annotation cannot be read" ;!
      change set_observed ;!
      updateStatus before ;!
      jret false
  | r =>
      if (match r with
          | BindingOf b => bool_decide (BiScalerUID b = ScUID sc) && (BiTerm b =? scalerTerm sc)
          | _ => false
          end)
      then jret true
      else
        set_cond ConditionBound CondFalse ReasonAlreadyBound "the target binding changed while the recommendation was computed" ;!
        change set_observed ;!
        updateStatus before ;!
        jret false
  end.

(** The guard before every write: without the binding the pass ends. *)
Definition owned_or_leave (before : Scaler) (every : Z) : job unit :=
  let! owned := ensureOwnedBinding before in
  if owned then jret tt else leave (RequeueAfter every).

Definition writeVector (vector baseline : gmap string Z) : job string :=
  let! sc := get_sc in
  let! md := get_md in
  update_target md (committed sc vector baseline now md) ;!
  jret (decision_id sc now).

(** What a successful write leaves in the status; the target is the one the
    write answered. *)
Definition commit_status (sc : Scaler) (md : Deployment) (id : string) (vector baseline : gmap string Z) : CommitStatus :=
  {| CmDecisionID := id; CmTerm := scalerTerm sc; CmVector := vector; CmBaseline := baseline; CmTimestamp := Some now;
     CmTargetGeneration := i64 (MdGeneration md + 1) |}.

Definition record_commit (id : string) (vector baseline : gmap string Z) : job unit :=
  let! sc := get_sc in
  let! md := get_md in
  put_sc (set_last_commit (Some (commit_status sc md id vector baseline)) sc).

(** [errors.Join] of a prior's API error and the status write. *)
Definition finish {A} (before : Scaler) (resolved : prior_error + Priors) (every : Z) : job A :=
  let! ok := try_update_status before in
  match resolved with
  | inl PriorFailed => leave Failed
  | _ => if ok then leave (RequeueAfter every) else leave Failed
  end.

(** ** Rebalance *)

Definition resetRebalanceForGenerationChange (md : Deployment) (sc : Scaler) : Scaler :=
  let st := ScStatus sc in
  match StRebalance st with
  | None => sc
  | Some state =>
      if negb (RbDonationAttempted state) then sc
      else
        let scalerChanged := (0 <? StObservedGeneration st) && negb (StObservedGeneration st =? ScGeneration sc) in
        let targetChanged :=
          match StLastCommit st with
          | Some commit => (0 <? CmTargetGeneration commit) && (CmTargetGeneration commit <? MdGeneration md)
          | None => false
          end in
        if negb scalerChanged && negb targetChanged then sc
        else
          let releasing := bool_decide (RbReason state = RebalanceDonorRelease)
                           || bool_decide (RbReason state = RebalanceReceiverAcquire) in
          set_rebalance (Some
            {| RbReceiverRole := RbReceiverRole state;
               RbDonorRole := if releasing then RbDonorRole state else "";
               RbDonorTarget := if releasing then RbDonorTarget state else 0;
               RbReceiverTarget := if releasing then RbReceiverTarget state else 0;
               RbStartedAt := RbStartedAt state; RbEpisode := i64 (RbEpisode state + 1);
               RbDonationAttempted := false;
               RbReason := if releasing then RbReason state else ReasonResourceExhausted |}) sc
  end.

Definition recordRebalanceExhaustion (cohort : CohortStatus) (admitted : gmap string (gset Z)) (sc : Scaler) : Scaler :=
  let roles := (fun rt => rt.1) <$>
    filter (fun rt => existsb (fun ordinal => negb (admitted_at admitted rt.1 ordinal)) (added_ordinals cohort rt.1 rt.2) = true)
      (map_to_list (CoTarget cohort)) in
  match merge_sort String.le roles with
  | [] => sc
  | receiver :: _ =>
      let old := StRebalance (ScStatus sc) in
      set_rebalance (Some
        {| RbReceiverRole := receiver;
           RbDonorRole := match old with Some s => RbDonorRole s | None => "" end;
           RbDonorTarget := match old with Some s => RbDonorTarget s | None => 0 end;
           RbReceiverTarget := count (CoTarget cohort) receiver;
           RbStartedAt := match old with Some s => RbStartedAt s | None => None end;
           RbEpisode := match old with
                        | Some s => if bool_decide (RbReceiverRole s = receiver) then RbEpisode s else i64 (RbEpisode s + 1)
                        | None => 1
                        end;
           RbDonationAttempted := match old with Some s => RbDonationAttempted s | None => false end;
           RbReason := ReasonResourceExhausted |}) sc
  end.

Definition rebalanceReceiverWantsScaleUp (sc : Scaler) (rec : RoleRecommendation) (role : string)
    (current : gmap string Z) : bool :=
  if count current role <? DesiredReplicas rec then true
  else if negb (bool_decide (Reason rec = ReasonWaitingForMetrics))
          && negb (bool_decide (Reason rec = ReasonPredictorWarmingUp)) then false
  else existsb (fun st => bool_decide (RtName st = role) && (count current role <? RtRawRecommended st)) (StRoles (ScStatus sc)).

Definition no_recommendation : RoleRecommendation :=
  {| DesiredReplicas := 0; Reason := ""; HoldScaleDown := false; InPanic := false |}.

Definition with_rebalance_reason (reason : string) (state : RebalanceStatus) : RebalanceStatus :=
  {| RbReceiverRole := RbReceiverRole state; RbDonorRole := RbDonorRole state; RbDonorTarget := RbDonorTarget state;
     RbReceiverTarget := RbReceiverTarget state; RbStartedAt := RbStartedAt state; RbEpisode := RbEpisode state;
     RbDonationAttempted := RbDonationAttempted state; RbReason := reason |}.
Definition with_donation_attempted (reason : string) (state : RebalanceStatus) : RebalanceStatus :=
  {| RbReceiverRole := RbReceiverRole state; RbDonorRole := RbDonorRole state; RbDonorTarget := RbDonorTarget state;
     RbReceiverTarget := RbReceiverTarget state; RbStartedAt := RbStartedAt state; RbEpisode := RbEpisode state;
     RbDonationAttempted := true; RbReason := reason |}.

Definition finishRebalanceDonorRelease (state : RebalanceStatus) (current : gmap string Z)
    : job (gmap string Z * string) :=
  let! sc := get_sc in
  let! md := get_md in
  if bool_decide (is_Some (MdRetirement md)) || negb (count current (RbDonorRole state) =? RbDonorTarget state)
  then jret (current, "")
  else
    match ReadDonor w (RbDonorRole state) (RbDonorTarget state) with
    | Found _ => jret (current, "")
    | ReadFailed => leave Failed
    | NotFound =>
        let receiverVector := <[RbReceiverRole state := RbReceiverTarget state]> current in
        if negb (bool_decide (currentVectorConflict (ScPolicy sc) (MdRoles md) receiverVector = "")) then
          put_sc (set_rebalance (Some (with_rebalance_reason ReasonRebalanceBlocked state)) sc) ;!
          jret (current, ReasonRebalanceBlocked)
        else
          put_sc (set_rebalance (Some (with_donation_attempted RebalanceReceiverAcquire state)) sc) ;!
          jret (receiverVector, "")
    end.

Definition role_named (roles : list DeploymentRole) (name : string) : option DeploymentRole :=
  (foldl (fun m role => <[RoName role := role]> m) ∅ roles : gmap string DeploymentRole) !! name.

(** What follows the first occurrence. *)
Fixpoint after_first (name : string) (l : list string) : list string :=
  match l with
  | [] => []
  | x :: l => if bool_decide (x = name) then l else after_first name l
  end.

Definition rebalanceDonorCandidates (sc : Scaler) (roles : list DeploymentRole) (receiver policy : string)
    : list DeploymentRole :=
  if bool_decide (policy = PolicyPriority) then omap (role_named roles) (after_first receiver (ScPriority sc))
  else filter (fun role => RoName role <> receiver) roles.

Definition scalerRoleMinimums (bounds : list RoleBounds) : gmap string Z :=
  foldl (fun m b => <[BName b := MinReplicas b]> m) ∅ bounds.

(** Whether a role may give a replica to the receiver. *)
Definition may_donate (sc : Scaler) (policy : string) (receiver donor : DeploymentRole) (current : gmap string Z)
    (recommendations : gmap string RoleRecommendation) : bool :=
  let minimum := count (scalerRoleMinimums (Roles (ScPolicy sc))) (RoName donor) in
  let minimum := if minimum <=? 0 then 1 else minimum in
  negb (count current (RoName donor) <=? minimum)
  && negb (bool_decide (RoInstanceType receiver = "")) && negb (bool_decide (RoInstanceType donor = ""))
  && bool_decide (RoInstanceType receiver = RoInstanceType donor)
  && negb (bool_decide (policy = PolicyOpposing)
           && (count current (RoName donor) <=? DesiredReplicas (default no_recommendation (recommendations !! RoName donor)))).

(** The first donor that may decides. *)
Definition try_donors (sc : Scaler) (md : Deployment) (state : RebalanceStatus) (policy : string)
    (receiver : DeploymentRole) (current : gmap string Z) (recommendations : gmap string RoleRecommendation)
    : job (gmap string Z * string) :=
  match list_find (fun donor => may_donate sc policy receiver donor current recommendations = true)
          (rebalanceDonorCandidates sc (MdRoles md) (RoName receiver) policy) with
  | None =>
      put_sc (set_rebalance (Some (with_rebalance_reason ReasonRebalanceNotApplicable state)) sc) ;!
      jret (current, ReasonRebalanceNotApplicable)
  | Some (_, donor) =>
      let donorTarget := i32 (count current (RoName donor) - 1) in
      let donorVector := <[RoName donor := donorTarget]> current in
      let receiverTarget := i32 (count current (RoName receiver) + 1) in
      let receiverVector := <[RoName receiver := receiverTarget]> donorVector in
      if negb (bool_decide (currentVectorConflict (ScPolicy sc) (MdRoles md) donorVector = ""))
         || negb (bool_decide (currentVectorConflict (ScPolicy sc) (MdRoles md) receiverVector = ""))
      then
        put_sc (set_rebalance (Some (with_rebalance_reason ReasonRebalanceBlocked state)) sc) ;!
        jret (current, ReasonRebalanceBlocked)
      else
        put_sc (set_rebalance (Some
          {| RbReceiverRole := RbReceiverRole state; RbDonorRole := RoName donor; RbDonorTarget := donorTarget;
             RbReceiverTarget := receiverTarget; RbStartedAt := Some now; RbEpisode := RbEpisode state;
             RbDonationAttempted := RbDonationAttempted state; RbReason := RebalanceDonorRelease |}) sc) ;!
        jret (donorVector, "")
  end.

Definition planRebalance (current target : gmap string Z) (recommendations : gmap string RoleRecommendation)
    (active : bool) : job (gmap string Z * string) :=
  let! sc := get_sc in
  let! md := get_md in
  match StRebalance (ScStatus sc) with
  | Some state =>
      if negb active || bool_decide (RbReceiverRole state = "") then jret (target, "")
      else if negb (rebalanceReceiverWantsScaleUp sc (default no_recommendation (recommendations !! RbReceiverRole state))
                      (RbReceiverRole state) current) then
        if bool_decide (RbReason state = RebalanceDonorRelease) && bool_decide (is_Some (MdRetirement md))
        then jret (current, "")
        else put_sc (set_rebalance None sc) ;! jret (target, "")
      else if bool_decide (RbReason state = RebalanceDonorRelease) then finishRebalanceDonorRelease state current
      else if bool_decide (RbReason state = RebalanceReceiverAcquire) then
        if bool_decide (is_Some (StPendingCohort (ScStatus sc))) then jret (current, "")
        else if RbReceiverTarget state <=? count current (RbReceiverRole state) then
          put_sc (set_rebalance (Some (with_donation_attempted RebalanceDonationAttempt state)) sc) ;! jret (target, "")
        else jret (current, ReasonRebalanceBlocked)
      else if bool_decide (is_Some (MdRetirement md)) then jret (current, "")
      else
        let policy := if bool_decide (ScRebalancePolicy sc = "") then PolicyOpposing else ScRebalancePolicy sc in
        if bool_decide (policy = PolicyDisabled) then put_sc (set_rebalance None sc) ;! jret (target, "")
        else if bool_decide (policy = PolicyPriority) && RbDonationAttempted state
                && bool_decide (RbReason state = ReasonResourceExhausted) then
          put_sc (set_rebalance (Some (with_rebalance_reason ReasonRebalanceBlocked state)) sc) ;!
          jret (current, ReasonRebalanceBlocked)
        else
          match role_named (MdRoles md) (RbReceiverRole state) with
          | None => put_sc (set_rebalance None sc) ;! jret (target, "")
          | Some receiver => try_donors sc md state policy receiver current recommendations
          end
  | None => jret (target, "")
  end.

(** ** The plan *)

(** Pods and workloads: the roles with a pending workload, and the admitted ordinals. *)
Definition executionState : job (gset string * gmap string (gset Z)) :=
  match ReadPods w with
  | None => leave Failed
  | Some [] => jret (∅, ∅)
  | Some pods =>
      match ReadWorkloads w with
      | None => leave Failed
      | Some wls => jret (foldl (execution_step pods) (∅, ∅) wls)
      end
  end.

(** A cohort past its deadline goes back to its baseline. *)
Definition retract {A} (before : Scaler) (resolved : prior_error + Priors) (cohort : CohortStatus)
    (cohorts : gmap string (gset Z)) (current : gmap string Z) (every : Z) : job A :=
  owned_or_leave before every ;!
  change (recordRebalanceExhaustion cohort cohorts) ;!
  let! id := writeVector (CoBaseline cohort) current in
  record_commit id (CoBaseline cohort) current ;!
  change (set_cohort None) ;!
  set_cond ConditionBlocked CondTrue ReasonResourceExhausted
    "the scale-up cohort stayed unadmitted past its deadline and was retracted" ;!
  set_cond ConditionMetricsReady CondFalse ReasonResourceExhausted "the scale-up cohort was retracted" ;!
  change set_observed ;!
  finish before resolved every.

Definition cohort_expired (sc : Scaler) (cohort : CohortStatus) : bool :=
  match CoStartedAt cohort with
  | Some started => negb (now <? started + pendingTimeout sc)
  | None => false
  end.

Definition settle_cohort (before : Scaler) (resolved : prior_error + Priors) (cohorts : gmap string (gset Z))
    (current : gmap string Z) (every : Z) (active : bool) : job unit :=
  let! sc := get_sc in
  match StPendingCohort (ScStatus sc) with
  | None => jret tt
  | Some cohort =>
      if negb (CoTerm cohort =? scalerTerm sc) then change (set_cohort None)
      else if addedOrdinalsAdmitted cohort cohorts then change (set_cohort None)
      else if active && cohort_expired sc cohort then retract before resolved cohort cohorts current every
      else jret tt
  end.

(** The scale-down an aborted retirement belongs to. *)
Definition aborted_scale_down (sc : Scaler) (md : Deployment) : option (ScaleDownStatus * Retirement) :=
  match MdRetirement md, StLastScaleDown (ScStatus sc) with
  | Some retirement, Some down =>
      if bool_decide (RetState retirement = RetirementAborted) && bool_decide (SdOutcome down = OutcomeCommitted)
         && bool_decide (SdRole down = RetRoleName retirement) && (SdOrdinal down =? RetReplicaOrdinal retirement)
      then Some (down, retirement) else None
  | _, _ => None
  end.

Definition restore {A} (before : Scaler) (resolved : prior_error + Priors) (down : ScaleDownStatus)
    (retirement : Retirement) (current : gmap string Z) (every : Z) : job A :=
  owned_or_leave before every ;!
  change (fun sc => match StRebalance (ScStatus sc) with
                    | Some state => if bool_decide (RbDonorRole state = RetRoleName retirement) then set_rebalance None sc else sc
                    | None => sc
                    end) ;!
  let! id := writeVector (SdPreVector down) current in
  let! sc := get_sc in
  put_sc (set_scale_down (Some
    {| SdRole := SdRole down; SdOrdinal := SdOrdinal down; SdPreVector := SdPreVector down; SdOutcome := OutcomeAborted;
       SdAbortedAt := Some now;
       SdCooldownUntil := Some (now + seconds (CooldownAfterAbortSeconds (ScaleDown (Behavior (ScPolicy sc))))) |}) sc) ;!
  record_commit id (SdPreVector down) current ;!
  set_cond ConditionBlocked CondTrue ReasonScaleDownAborted
    ("the retirement aborted and the pre-scale-down vector was restored: " +:+ RetReason retirement) ;!
  set_cond ConditionMetricsReady CondTrue "Observed" "metrics were observed" ;!
  change set_observed ;!
  finish before resolved every.

(** Planning is held, with the reason. *)
Definition hold {A} (before : Scaler) (reason message metrics : string) (every : Z) : job A :=
  set_cond ConditionBlocked CondTrue reason message ;!
  set_cond ConditionMetricsReady CondUnknown reason metrics ;!
  change set_observed ;!
  updateStatus before ;!
  leave (RequeueAfter every).

(** One recommendation of an algorithm, with the state it keeps. *)
Definition recommend (a : algorithm) (obs : RoleObservation) (prior : option (@PredictorState H))
    : outcome (RoleRecommendation * option (@PredictorState H)) :=
  match a with
  | UseProportional p => Done (ProportionalRecommend elsewhere32 p obs, None)
  | UseThroughput t => let* r := ThroughputRecommend elsewhere32 elsewhere64 t obs prior in Done (r.1, Some r.2)
  | UsePredictive p => let* r := PredictiveRecommend elsewhere32 elsewhere64 p obs prior in Done (r.1, Some r.2)
  | UseRatioCoupled => Done (Scaling.with_reason ReasonRatioCoupled (staying obs), prior)
  end.

(** What the loop over the roles gathers. *)
Record gathered := {
  GRecommendations : gmap string RoleRecommendation; GPredictors : gmap string (option (@PredictorState H));
  GStates : list RoleState; GStatuses : list RoleStatus; GReady : bool; GReasons : list string }.
Definition nothing_gathered : gathered :=
  {| GRecommendations := ∅; GPredictors := ∅; GStates := []; GStatuses := []; GReady := true; GReasons := [] |}.

Definition no_algorithm : AlgorithmSpec :=
  {| AlType := ""; AlProportional := None; AlTokenThroughput := None; AlPredictive := None; AlCapacityPrior := false |}.

Definition gather_role (sc : Scaler) (priors : Priors) (pending : gset string) (acc : gathered) (role : DeploymentRole)
    : job gathered :=
  let name := RoName role in
  let obs := named_observation role (default (unobserved role) (Observations w !! name)) in
  match modelDeploymentScalerAlgorithmForRole (default no_algorithm (PAlgorithms priors !! name)) name with
  | None => leave Failed
  | Some a =>
      let history := HistoryOf w name in
      let! r := lift (recommend a obs (PredictorOf w name)) in
      let rec := r.1 in
      let next := r.2 in
      let coupled := bool_decide (Reason rec = ReasonRatioCoupled) in
      let waiting := bool_decide (Reason rec = ReasonWaitingForMetrics) in
      let unready := waiting || (negb coupled && negb (CompleteCoverage obs)) in
      let reasons := String.concat "; " (SampleReasons w name) in
      let status :=
        {| RtName := name; RtCurrentReplicas := RoReplicas role; RtReadyReplicas := Z.max 0 (ReadyReplicas obs);
           RtSignalState := scalerObservationState obs; RtRawRecommended := DesiredReplicas rec; RtConstrained := 0;
           RtReason := if waiting && negb (bool_decide (SampleReasons w name = [])) then Reason rec +:+ ": " +:+ reasons
                       else Reason rec;
           RtLastScaleUpTime := if bool_decide (is_Some next) then scalerRoleLastScaleUp (StRoles (ScStatus sc)) name else None;
           RtHistory := if bool_decide (is_Some next) then history else [] |} in
      let state :=
        {| RsName := name; RsKind := Kind obs; RsCurrent := RoReplicas role; RsRaw := DesiredReplicas rec;
           RsHoldScaleDown := HoldScaleDown rec; RsCompleteCoverage := CompleteCoverage obs || coupled;
           RsPending := bool_decide (name ∈ pending) || bool_decide (is_Some (StPendingCohort (ScStatus sc)));
           RsLastScaleUpTime := default 0 (scalerRoleLastScaleUp (StRoles (ScStatus sc)) name);
           RsHistory := history |} in
      jret {| GRecommendations := <[name := rec]> (GRecommendations acc); GPredictors := <[name := next]> (GPredictors acc);
              GStates := GStates acc ++ [state]; GStatuses := GStatuses acc ++ [status];
              GReady := GReady acc && negb unready;
              GReasons := if unready then GReasons acc ++ [name +:+ ": " +:+ reasons] else GReasons acc |}
  end.

Fixpoint gather (sc : Scaler) (priors : Priors) (pending : gset string) (roles : list DeploymentRole) (acc : gathered)
    : job gathered :=
  match roles with
  | [] => jret acc
  | role :: roles =>
      let! acc := gather_role sc priors pending acc role in
      gather sc priors pending roles acc
  end.

Definition in_abort_cooldown (sc : Scaler) : bool :=
  match StLastScaleDown (ScStatus sc) with
  | Some down => match SdCooldownUntil down with Some until => now <? until | None => false end
  | None => false
  end.

Definition active_retirement (md : Deployment) : bool :=
  match MdRetirement md with
  | Some r => negb (bool_decide (RetState r = RetirementAborted)) && negb (bool_decide (RetState r = RetirementCompleted))
  | None => false
  end.

Definition constraint_input (sc : Scaler) (md : Deployment) (states : list RoleState) : ConstraintInput :=
  {| Spec := ScPolicy sc; InRoles := states; HasActiveRetirement := active_retirement md;
     InAbortCooldown := in_abort_cooldown sc; CooldownUntil := 0; Now := now |}.

(** A role status after the solver. *)
Definition constrained_status (sc : Scaler) (c : ConstraintResult) (st : RoleStatus) : RoleStatus :=
  let reason := default "" (Reasons c !! RtName st) in
  {| RtName := RtName st; RtCurrentReplicas := RtCurrentReplicas st; RtReadyReplicas := RtReadyReplicas st;
     RtSignalState := RtSignalState st; RtRawRecommended := RtRawRecommended st;
     RtConstrained := count (Replicas c) (RtName st);
     RtReason := if bool_decide (reason = "") then RtReason st else reason;
     RtLastScaleUpTime := match RtLastScaleUpTime st with
                          | Some t => Some t
                          | None => scalerRoleLastScaleUp (StRoles (ScStatus sc)) (RtName st)
                          end;
     RtHistory := default [] (Histories c !! RtName st) |}.

Definition predictor_statuses (predictors : gmap string (option (@PredictorState H))) : list PredictorStatus :=
  omap (fun role => match predictors !! role with
                    | Some (Some s) => Some {| PdName := role; PdSampleCount := SampleCount s |}
                    | _ => None
                    end) (merge_sort String.le (elements (dom predictors))).

Definition scaled_up_status (vector current : gmap string Z) (st : RoleStatus) : RoleStatus :=
  if bool_decide (is_Some (vector !! RtName st)) && (count current (RtName st) <? count vector (RtName st)) then
    {| RtName := RtName st; RtCurrentReplicas := RtCurrentReplicas st; RtReadyReplicas := RtReadyReplicas st;
       RtSignalState := RtSignalState st; RtRawRecommended := RtRawRecommended st; RtConstrained := RtConstrained st;
       RtReason := RtReason st; RtLastScaleUpTime := Some now; RtHistory := RtHistory st |}
  else st.

(** The status after a planned commit: the growing roles, the cohort and the
    scale-down. *)
Definition committed_status (id : string) (vector current : gmap string Z) (sc : Scaler) : Scaler :=
  let sc := set_status_roles (scaled_up_status vector current <$> StRoles (ScStatus sc)) sc in
  let sc := if existsb (fun rc => count current rc.1 <? rc.2) (map_to_list vector) then
      set_cohort (Some {| CoDecisionID := id; CoTerm := scalerTerm sc; CoBaseline := current; CoTarget := vector;
                          CoStartedAt := Some now |}) sc
    else sc in
  if existsb (fun rc => rc.2 <? count current rc.1) (map_to_list vector) then
    set_scale_down (Some {| SdRole := (firstScaleDown current vector).1; SdOrdinal := (firstScaleDown current vector).2;
                            SdPreVector := current; SdOutcome := OutcomeCommitted; SdAbortedAt := None;
                            SdCooldownUntil := None |}) sc
  else sc.

Definition commit_planned (before : Scaler) (priors : Priors) (vector current : gmap string Z) (every : Z) : job unit :=
  let! failed := recheckCapacityPriors priors in
  match failed with
  | Some e => applyCapacityPriorResolution (inl e) ;! stopForCapacityPrior before e
  | None =>
      owned_or_leave before every ;!
      let! id := writeVector vector current in
      record_commit id vector current ;!
      change (committed_status id vector current)
  end.

(** How soon to come back. *)
Definition next_interval (sc : Scaler) (every : Z) : Z :=
  match StPendingCohort (ScStatus sc) with
  | Some cohort =>
      match CoStartedAt cohort with
      | Some started =>
          let remaining := Z.max minimumPendingRequeue (started + pendingTimeout sc - now) in
          if remaining <? every then remaining else every
      | None => every
      end
  | None => every
  end.

(** From the recommendations to the end of the pass. *)
Definition plan_vector (before : Scaler) (priors : Priors) (pending : gset string) (current : gmap string Z)
    (every : Z) (active : bool) : job answer :=
  let! sc := get_sc in
  let! md := get_md in
  let! g := gather sc priors pending (MdRoles md) nothing_gathered in
  let! c := lift (SolveModelDeploymentScalerConstraints elsewhere32 ranging now (constraint_input sc md (GStates g))) in
  emit (HistoriesRecorded (Histories c)) ;!
  emit (PredictorsRecorded (elements (dom (filter (fun kv => is_Some kv.2) (GPredictors g))))) ;!
  let! planned := planRebalance current (Replicas c) (GRecommendations g) active in
  change (set_status_roles (constrained_status sc c <$> GStatuses g)) ;!
  change (set_predictors (predictor_statuses (GPredictors g))) ;!
  (if GReady g then set_cond ConditionMetricsReady CondTrue "Observed" "all required role signals are available"
   else set_cond ConditionMetricsReady CondFalse ReasonWaitingForMetrics (String.concat "; " (GReasons g))) ;!
  let blocking := if bool_decide (planned.2 = "") then BlockingReason c else planned.2 in
  (if bool_decide (blocking = "")
   then set_cond ConditionBlocked CondFalse "Ready" "no planning constraint is blocking a replica change"
   else set_cond ConditionBlocked CondTrue blocking
          "the recommendation is held by bounds, ratios, pacing, or quota-pool rebalance") ;!
  (if active && negb (equalReplicaVectors current planned.1)
   then commit_planned before priors planned.1 current every else jret tt) ;!
  change set_observed ;!
  updateStatus before ;!
  let! sc := get_sc in
  jret (RequeueAfter (next_interval sc every)).

Definition planWithPriors (before : Scaler) (preResolved : option Priors) (active : bool) : job answer :=
  let! sc := get_sc in
  let! md := get_md in
  let resolved := match preResolved with Some p => inr p | None => Resolve w 1 sc md end in
  applyCapacityPriorResolution resolved ;!
  let! execution := executionState in
  let current := deploymentReplicaVector md in
  let every := interval sc in
  change (resetRebalanceForGenerationChange md) ;!
  settle_cohort before resolved execution.2 current every active ;!
  let! sc := get_sc in
  (match (if active then aborted_scale_down sc md else None) with
   | Some dr => restore before resolved dr.1 dr.2 current every
   | None => jret tt
   end) ;!
  match resolved with
  | inl e => stopForCapacityPrior before e
  | inr priors =>
      let ineligible := targetRolesEligibility (ScPolicy sc) (MdRoles md) in
      let conflict := currentVectorConflict (ScPolicy sc) (MdRoles md) current in
      if negb (bool_decide (ineligible = "")) then
        hold before ReasonBoundsConflict ineligible "planning is held until target roles are eligible" every
      else if negb (bool_decide (conflict = "")) then
        hold before (if bool_decide (conflict = ReasonBoundsConflict) then ReasonBoundsConflict else ReasonRatioConflict)
          "the current replica vector is outside the scaler policy"
          "planning is held until the current vector satisfies the scaler policy" every
      else plan_vector before priors execution.1 current every active
  end.

(** ** Reconcile *)

Definition owned_by (sc : Scaler) (md : Deployment) : bool :=
  match readScalerBinding md with
  | BindingOf b => bool_decide (BiScalerUID b = ScUID sc)
  | _ => false
  end.

Definition decided_by (sc : Scaler) (md : Deployment) : bool :=
  let raw := annotation md DecisionAnnotationKey in
  negb (bool_decide (raw = ""))
  && match decode_decision raw with Some d => bool_decide (DeScalerUID d = ScUID sc) | None => false end.

Definition released (sc : Scaler) (md : Deployment) : Deployment :=
  let m := if owned_by sc md then delete BindingAnnotationKey (MdAnnotations md) else MdAnnotations md in
  with_annotations (if ScDeleting sc && decided_by sc md then delete DecisionAnnotationKey m else m) md.

Definition releaseOwnedBinding : job unit :=
  let! sc := get_sc in
  let! md := get_md in
  match readScalerBinding md with
  | BindingInvalid => jret tt
  | _ => if owned_by sc md || (ScDeleting sc && decided_by sc md) then update_target md (released sc md) else jret tt
  end.

Definition reconcileDeletion : job answer :=
  emit SamplerForgot ;!
  let! sc := get_sc in
  (if bool_decide (FinalizerKey ∈ ScFinalizers sc) then
     match ReadTarget w with
     | Found md => put_md md ;! releaseOwnedBinding
     | NotFound => jret tt
     | ReadFailed => leave Failed
     end ;!
     let sent := with_finalizers (filter (fun f => f <> FinalizerKey) (ScFinalizers sc)) sc in
     emit (ScalerWritten sent) ;!
     if UpdateScaler w sent then jret tt else leave Failed
   else jret tt) ;!
  jret Idle.

(** The scaler is not bound, with the reason; the pass ends. *)
Definition unbound {A} (reason bound active : string) (after : Scaler -> answer) : job A :=
  let! before := get_sc in
  set_cond ConditionBound CondFalse reason bound ;!
  set_cond ConditionActive CondFalse reason active ;!
  change set_observed ;!
  updateStatus before ;!
  let! sc := get_sc in
  leave (after sc).

(** The same after invalidating the capacity priors. *)
Definition unbound_invalidated {A} (reason message bound active : string) (after : Scaler -> answer) : job A :=
  let! before := get_sc in
  invalidateCapacityPriorState reason message ;!
  set_cond ConditionBound CondFalse reason bound ;!
  set_cond ConditionActive CondFalse reason active ;!
  change set_observed ;!
  updateStatus before ;!
  let! sc := get_sc in
  leave (after sc).

Definition every (sc : Scaler) : answer := RequeueAfter (interval sc).

(** A target that is not the one bound before: the scaler waits for an edit of
    its specification, and starts over after one. *)
Definition replaced_target : job unit :=
  let! sc := get_sc in
  let! md := get_md in
  match StBinding (ScStatus sc) with
  | Some b =>
      if negb (bool_decide (BsTargetUID b = "")) && negb (bool_decide (BsTargetUID b = MdUID md)) then
        if ScGeneration sc <=? StObservedGeneration (ScStatus sc) then
          unbound_invalidated ReasonTargetReplaced "the target was replaced"
            "the target was replaced; edit the Scaler spec to bind the new target" "the target was replaced" every
        else change resetTargetState ;! emit SamplerForgot
      else jret tt
  | None => jret tt
  end.

(** The plan of a scaler that only observes, and of one that owns the target. *)
Definition observe : job answer :=
  let! before := get_sc in
  let! md := get_md in
  change (set_binding (Some {| BsTargetUID := MdUID md; BsTargetName := MdName md; BsTerm := scalerTerm before |})) ;!
  change (recoverDecision md) ;!
  set_cond ConditionBound CondTrue "Bound" "the target is available" ;!
  set_cond ConditionActive CondFalse ReasonShadowMode "the scaler is observing without changing the target" ;!
  change set_observed ;!
  planWithPriors before None false.

Definition drive (term : Z) (preResolved : option Priors) : job answer :=
  let! before := get_sc in
  let! md := get_md in
  change (set_binding (Some {| BsTargetUID := MdUID md; BsTargetName := MdName md; BsTerm := term |})) ;!
  change (recoverDecision md) ;!
  set_cond ConditionBound CondTrue "Bound" "the scaler owns the target" ;!
  set_cond ConditionActive CondTrue "Active" "the scaler is planning replica changes" ;!
  planWithPriors before preResolved true.

(** Observing without changing the target. *)
Definition reconcile_shadow : job answer :=
  releaseOwnedBinding ;!
  let! sc := get_sc in
  (if ScSuspend sc then
     unbound_invalidated ReasonSuspended "the scaler is suspended" "the scaler is suspended" "the scaler is suspended"
       (fun _ => Idle)
   else jret tt) ;!
  let! md := get_md in
  match readScalerBinding md with
  | BindingInvalid =>
      unbound ReasonInvalidBinding "the target's scaler binding annotation cannot be read"
        "the target's scaler binding annotation cannot be read" every
  | r =>
      if (match r with BindingOf b => negb (bool_decide (BiScalerUID b = ScUID sc)) | _ => false end)
      then unbound ReasonAlreadyBound "another scaler owns the target" "another scaler owns the target" every
      else
        observe
  end.

(** The term to write under. *)
Definition next_term (sc : Scaler) (r : binding_read) : Z :=
  match r, StBinding (ScStatus sc) with
  | BindingOf b, Some s => Z.max (Z.max initialTerm (BiTerm b)) (BsTerm s)
  | BindingOf b, None => Z.max initialTerm (BiTerm b)
  | _, Some s => Z.max initialTerm (i64 (BsTerm s + 1))
  | _, None => initialTerm
  end.

Definition bound_to (sc : Scaler) (term : Z) (md : Deployment) : Deployment :=
  with_annotations (<[BindingAnnotationKey :=
    encode_binding {| BiScalerName := ScName sc; BiScalerUID := ScUID sc; BiTerm := term |}]> (MdAnnotations md)) md.

(** Take the binding under the term, unless it is held already. *)
Definition acquire (term : Z) : job (option Priors) :=
  let! sc := get_sc in
  let! md := get_md in
  if (match readScalerBinding md with
      | BindingOf b => bool_decide (BiScalerUID b = ScUID sc) && (BiTerm b =? term)
      | _ => false
      end)
  then jret None
  else
    match Resolve w 0 sc md with
    | inl e =>
        applyCapacityPriorResolution (inl e) ;!
        set_cond ConditionBound CondFalse ReasonCapacityPriorUnresolved "capacity priors must resolve before acquiring a binding" ;!
        stopForCapacityPrior sc e
    | inr priors =>
        update_target md (bound_to sc term md) ;!
        match ReadBoundTarget w with
        | Found md => put_md md ;! jret (Some priors)
        | _ => leave Failed
        end
    end.

Definition reconcile_active : job answer :=
  let! sc := get_sc in
  let! md := get_md in
  match readScalerBinding md with
  | BindingInvalid =>
      unbound ReasonInvalidBinding "the target's scaler binding annotation cannot be read"
        "the target's scaler binding annotation cannot be read" every
  | r =>
      if (match r with BindingOf b => negb (bool_decide (BiScalerUID b = ScUID sc)) | _ => false end)
      then unbound ReasonAlreadyBound "another scaler owns the target" "another scaler owns the target" every
      else
        let term := next_term sc r in
        let! preResolved := acquire term in
        drive term preResolved
  end.

Definition reconcile_scaler : job answer :=
  let! sc := get_sc in
  if ScDeleting sc then reconcileDeletion
  else if negb (bool_decide (FinalizerKey ∈ ScFinalizers sc)) then
    let sent := with_finalizers (ScFinalizers sc ++ [FinalizerKey]) sc in
    emit (ScalerWritten sent) ;!
    if UpdateScaler w sent then jret RequeueNow else leave Failed
  else
    match ReadTarget w with
    | ReadFailed => leave Failed
    | NotFound =>
        unbound_invalidated ReasonTargetNotFound "the target does not exist" "the target ModelDeployment does not exist"
          "the target ModelDeployment does not exist" every
    | Found md =>
        put_md md ;!
        replaced_target ;!
        let! sc := get_sc in
        if ScSuspend sc || bool_decide (ScMode sc = ModeShadow) || bool_decide (ScMode sc = "")
        then reconcile_shadow else reconcile_active
    end.

Definition no_target_yet : Deployment :=
  {| MdNamespace := ""; MdName := ""; MdUID := ""; MdGeneration := 0; MdResourceVersion := ""; MdAnnotations := ∅;
     MdRoles := []; MdRetirement := None |}.

(** The answer of a pass, and its log. *)
Definition Reconcile : outcome (answer * list event) :=
  match ReadScaler w with
  | NotFound => Done (Idle, [])
  | ReadFailed => Done (Failed, [])
  | Found sc =>
      let* r := reconcile_scaler {| LSc := sc; LMd := no_target_yet; LLog := [] |} in
      Done (match r.1 with inl v => v | inr v => v end, LLog r.2)
  end.
End pass.
