(* ===== verification/ScalerSafety.v ===== *)
(** * What a reconcile pass of the scaler may write

    Over the pass of ScalerPlanner.v: every write of the target is justified by
    the target as it was read and by the scaler as it was read.  The proofs use a
    small Hoare logic whose invariant is that the log so far is justified. *)

From stdpp Require Import prelude gmap strings list pretty sorting.
From Stdlib Require Import SpecFloat.
From S2P Require Import Prelude GoFloat Scaling ScalerSpec ScalerConstraints ScalerIntervals ScalerSolver.
From S2P Require Import ScalerFeasibility ScalerAdmission ScalerObjects ScalerPlanner.
#[local] Open Scope planner_scope.

(** ** Vectors inside the policy *)

Lemma conflict_none spec roles vector :
  currentVectorConflict spec roles vector = "" <->
  length (Roles spec) = length roles /\
  (forall b, b ∈ Roles spec -> exists n, vector !! BName b = Some n /\ effective_minimum b <= n <= MaxReplicas b) /\
  ratiosSatisfied vector (Ratios spec) = true.
Proof.
  assert (forall b, bound_conflict vector b = false <->
    exists n, vector !! BName b = Some n /\ effective_minimum b <= n <= MaxReplicas b) as Hb.
  { intros b. unfold bound_conflict. destruct (vector !! BName b) as [n|]; [|naive_solver].
    fold (effective_minimum b). rewrite orb_false_iff, !Z.ltb_ge. naive_solver. }
  unfold currentVectorConflict. case_bool_decide as Hl; simpl; [|by naive_solver].
  destruct (existsb (bound_conflict vector) (Roles spec)) eqn:E.
  - split; [done|]. intros (_ & Hall & _). apply existsb_exists in E as (b & Hin & Hc).
    rewrite <- list_elem_of_In in Hin. apply Hall, Hb in Hin. congruence.
  - assert (forall b, b ∈ Roles spec -> bound_conflict vector b = false) as Hall.
    { intros b Hin%list_elem_of_In. destruct (bound_conflict vector b) eqn:Eb; [|done].
      enough (existsb (bound_conflict vector) (Roles spec) = true) by congruence. apply existsb_exists. by exists b. }
    destruct (ratiosSatisfied vector (Ratios spec)); simpl; split; try done; [|naive_solver].
    intros _. split; [done|]. split; [|done]. intros b Hin. by apply Hb, Hall.
Qed.

Lemma replica_vector md :
  NoDup (RoName <$> MdRoles md) ->
  (forall role, role ∈ MdRoles md -> deploymentReplicaVector md !! RoName role = Some (RoReplicas role)) /\
  (forall name, name ∉ RoName <$> MdRoles md -> deploymentReplicaVector md !! name = None).
Proof. exact (fold_map_lookup RoName RoReplicas (MdRoles md)). Qed.

Lemma bounds_map_lookup spec b : NoDup (BName <$> Roles spec) -> b ∈ Roles spec -> bounds_map spec !! BName b = Some b.
Proof. intros Hnd. apply (fold_map_lookup BName id (Roles spec) Hnd). Qed.

(** The roles of the solver's input are those of the target. *)
Definition states_of (roles : list DeploymentRole) (states : list RoleState) : Prop :=
  Forall2 (fun role st => RsName st = RoName role /\ RsCurrent st = RoReplicas role) roles states.

Lemma states_of_names roles states : states_of roles states -> RsName <$> states = RoName <$> roles.
Proof. induction 1 as [|role st roles states [E _] _ IH]; [done|]. rewrite !fmap_cons. congruence. Qed.

Lemma states_of_elem roles states st : states_of roles states -> st ∈ states ->
  exists role, role ∈ roles /\ RsName st = RoName role /\ RsCurrent st = RoReplicas role.
Proof.
  intros Hs [i Hi]%list_elem_of_lookup. destruct (Forall2_lookup_r _ _ _ _ _ Hs Hi) as (role & Hr & E1 & E2).
  exists role. split; [by apply list_elem_of_lookup_2 with i|done].
Qed.

Section conformity.
Context (elsewhere32 : float64 -> Z) (ranging : forall A, gmap string A -> list (string * A)) (clock : Z).
Context (input : ConstraintInput) (md : Deployment).
Context (Hplatform : platform elsewhere32).
Context (Hpolicy : validateModelDeploymentScalerRoles (Spec input) = []).
Context (Hstep : step_in_range (DownStepPolicy (ScaleDown (Behavior (Spec input))))).
Context (Hroles : NoDup (RoName <$> MdRoles md)) (Hstates : states_of (MdRoles md) (InRoles input)).
Context (Hcurrent : currentVectorConflict (Spec input) (MdRoles md) (deploymentReplicaVector md) = "").

(** Each role of the target has its bounds, and is inside them. *)
Lemma role_bounded st : st ∈ InRoles input -> exists bound,
  bound ∈ Roles (Spec input) /\ bounds_map (Spec input) !! RsName st = Some bound /\
  effective_minimum bound <= RsCurrent st <= MaxReplicas bound /\ MaxReplicas bound <= 1024.
Proof.
  intros Hst. destruct (states_of_elem _ _ _ Hstates Hst) as (role & Hr & En & Ec).
  destruct (roles_admitted _ Hpolicy) as [Hnd Hall]. rewrite Forall_forall in Hall.
  apply conflict_none in Hcurrent as (Hlen & Hb & _). destruct (replica_vector md Hroles) as [V1 V2].
  assert ((RoName <$> MdRoles md) ⊆ (BName <$> Roles (Spec input))) as Hsub.
  { assert (forall (l k : list string), NoDup l -> length k = length l -> l ⊆ k -> k ⊆ l) as Hpigeon.
    { intros l k Hl Hlen' Hlk x Hx. assert (l ⊆+ k) as Hm by (by apply NoDup_submseteq).
      by rewrite (submseteq_length_Permutation _ _ Hm ltac:(lia)). }
    apply Hpigeon; [done|by rewrite !length_fmap|]. intros name (b & -> & Hbin)%list_elem_of_fmap.
    destruct (Hb b Hbin) as (n & Hn & _). destruct (decide (BName b ∈ RoName <$> MdRoles md)) as [|Hno]; [done|].
    rewrite (V2 _ Hno) in Hn. done. }
  assert (RoName role ∈ BName <$> Roles (Spec input)) as (bound & Eb & Hbound)%list_elem_of_fmap.
  { apply Hsub. by apply list_elem_of_fmap_2. }
  exists bound. split; [done|]. rewrite En, Eb. split; [by apply bounds_map_lookup|].
  destruct (Hb bound Hbound) as (n & Hn & Hrange). rewrite <- Eb, (V1 role Hr) in Hn. injection Hn as <-.
  split; [by rewrite Ec|]. apply (Hall bound Hbound).
Qed.

Lemma planned_conforms : exists c,
  SolveModelDeploymentScalerConstraints elsewhere32 ranging clock input = Done c /\
  currentVectorConflict (Spec input) (MdRoles md) (Replicas c) = "".
Proof.
  destruct (roles_admitted _ Hpolicy) as [Hnd _].
  assert (RsName <$> InRoles input = RoName <$> MdRoles md) as Hnames by (by apply states_of_names).
  destruct (timed_fields clock input) as [Es Er].
  destruct (solve_keeps elsewhere32 ranging clock input Hplatform) as (r & Hr & Hkept & Hratio).
  { split.
    - by rewrite Er, Hnames.
    - rewrite Er, Es. intros st (bound & _ & E & Hin & Hmax)%role_bounded. exists bound. split; [done|lia].
    - by rewrite Es. }
  { intros st bound (bound' & _ & E & Hin & _)%role_bounded E'. rewrite E in E'. injection E' as <-. done. }
  exists r. split; [done|]. apply conflict_none.
  pose proof Hcurrent as (Hlen & Hb & Hsat)%conflict_none. destruct (replica_vector md Hroles) as [V1 V2]. split; [done|]. split.
  - intros b Hbin. destruct (Hb b Hbin) as (n & Hn & _).
    destruct (decide (BName b ∈ RsName <$> InRoles input)) as [(st & Est & Hst)%list_elem_of_fmap|Hno];
      [|rewrite Hnames in Hno; rewrite (V2 _ Hno) in Hn; done].
    destruct (Hkept st b Hst) as (k & Hk & [Hrange _ _ _ _]); [rewrite <- Est; by apply bounds_map_lookup|].
    exists k. by rewrite Est.
  - apply Hratio. rewrite <- Hsat. apply ratiosSatisfied_ext. intros ratio _.
    assert (forall name, count (current_vector input) name = count (deploymentReplicaVector md) name) as Hcount.
    { intros name. rewrite current_vector_count by (by rewrite Hnames).
      destruct (states_map_spec (InRoles input) ltac:(by rewrite Hnames)) as [S1 S2]. unfold state_of, count.
      destruct (decide (name ∈ RsName <$> InRoles input)) as [(st & -> & Hst)%list_elem_of_fmap|Hno].
      - rewrite (S1 st Hst). simpl. destruct (states_of_elem _ _ _ Hstates Hst) as (role & Hrole & -> & ->). by rewrite (V1 role Hrole).
      - rewrite (S2 _ Hno). rewrite Hnames in Hno. by rewrite (V2 _ Hno). }
    by rewrite !Hcount.
Qed.
End conformity.

Create HintDb jobs.

Section safety.
Context `{Codec : AnnotationCodec} {H : Type} `{HistoryH : DemandHistoryLaws H}.
Context (elsewhere32 elsewhere64 : float64 -> Z) (ranging : forall A, gmap string A -> list (string * A)).
Context (w : world H) (sc0 : Scaler).

(** ** Assumptions *)

Definition distinct (md : Deployment) : Prop := NoDup (RoName <$> MdRoles md).

(** What the controller relies on: an admitted policy, conversions of floats that
    are exact in range, targets with distinct role names, and predictors whose
    history is a well-formed ring with room for one more sample. *)
Record sound : Prop := {
  sound_policy : validateModelDeploymentScalerRoles (ScPolicy sc0) = [];
  sound_step : step_in_range (DownStepPolicy (ScaleDown (Behavior (ScPolicy sc0))));
  sound_platform : platform elsewhere32;
  sound_read : forall md, ReadTarget w = Found md \/ ReadBoundTarget w = Found md -> distinct md;
  sound_updated : forall sent md, UpdateTarget w sent = Some md -> distinct md;
  sound_memory : forall name, exists n l, remembers n (PredictorOf w name) l /\ 1 <= n <= 2 ^ 62 }.

(** ** Justified writes *)

(** The scaler in memory: the one that was read, with another status, which holds
    the pending cohort and the last scale-down that were read, or none. *)
Definition derived (sc : Scaler) : Prop :=
  sc = with_status (ScStatus sc) sc0 /\
  (StPendingCohort (ScStatus sc) = StPendingCohort (ScStatus sc0) \/ StPendingCohort (ScStatus sc) = None) /\
  (StLastScaleDown (ScStatus sc) = StLastScaleDown (ScStatus sc0) \/ StLastScaleDown (ScStatus sc) = None).

(** The scaler may act. *)
Definition acting : Prop :=
  ScDeleting sc0 = false /\ ScSuspend sc0 = false /\ ScMode sc0 <> ModeShadow /\ ScMode sc0 <> "".

(** The target names this scaler and the term. *)
Definition owned_under (md : Deployment) (term : Z) : Prop :=
  exists b, readScalerBinding md = BindingOf b /\ BiScalerUID b = ScUID sc0 /\ BiTerm b = term.

(** Why a vector is written: a cohort that was not admitted in time goes back to
    its baseline, the vector before an aborted scale-down comes back, or a planned
    vector stays in the policy that the current counts satisfy. *)
Inductive cause (md : Deployment) (term : Z) (vector : gmap string Z) : Prop :=
  | cause_retract cohort :
      StPendingCohort (ScStatus sc0) = Some cohort -> CoTerm cohort = term -> cohort_expired w sc0 cohort = true ->
      vector = CoBaseline cohort -> cause md term vector
  | cause_restore down retirement :
      StLastScaleDown (ScStatus sc0) = Some down -> MdRetirement md = Some retirement ->
      RetState retirement = RetirementAborted -> SdOutcome down = OutcomeCommitted ->
      SdRole down = RetRoleName retirement -> SdOrdinal down = RetReplicaOrdinal retirement ->
      vector = SdPreVector down -> cause md term vector
  | cause_planned :
      currentVectorConflict (ScPolicy sc0) (MdRoles md) (deploymentReplicaVector md) = "" ->
      (sound -> currentVectorConflict (ScPolicy sc0) (MdRoles md) vector = "") ->
      cause md term vector.

Inductive justified : Deployment -> Deployment -> Prop :=
  | by_acquire md term :
      acting -> readScalerBinding md = BindingAbsent \/ owned_by sc0 md = true ->
      term = next_term sc0 (readScalerBinding md) ->
      justified md (bound_to sc0 term md)
  | by_release md :
      owned_by sc0 md = true \/ ScDeleting sc0 = true /\ decided_by sc0 md = true ->
      readScalerBinding md <> BindingInvalid -> justified md (released sc0 md)
  | by_commit sc md vector :
      acting -> derived sc -> owned_under md (scalerTerm sc) -> cause md (scalerTerm sc) vector ->
      justified md (committed sc vector (deploymentReplicaVector md) (AtNow w) md).

Definition good (e : event) : Prop :=
  match e with TargetUpdated base sent => justified base sent | _ => True end.
Definition ok (l : list event) : Prop := Forall good l.

(** ** The logic *)

Definition hoare {A} (P : local -> Prop) (m : job A) (Q : A -> local -> Prop) : Prop :=
  forall s, P s -> ok (LLog s) ->
    match m s with
    | Done (inl _, s') => ok (LLog s')
    | Done (inr a, s') => ok (LLog s') /\ Q a s'
    | _ => ~ sound
    end.

Lemma job_ret {A} (P : local -> Prop) (a : A) (Q : A -> local -> Prop) : (forall s, P s -> Q a s) -> hoare P (jret a) Q.
Proof. intros HQ s HP Ho. simpl. auto. Qed.

Lemma job_leave {A} P v (Q : A -> local -> Prop) : hoare P (leave v) Q.
Proof. by intros s HP Ho. Qed.

Lemma job_bind {A B} P (m : job A) Q (k : A -> job B) R :
  hoare P m Q -> (forall a, hoare (Q a) (k a) R) -> hoare P (jbind m k) R.
Proof.
  intros Hm Hk s HP Ho. specialize (Hm s HP Ho). unfold jbind. destruct (m s) as [[[v|a] s']| |]; simpl; [done| |done|done].
  destruct Hm as [Ho' HQ]. by apply Hk.
Qed.

Lemma job_pre {A} (P P' : local -> Prop) (m : job A) Q : hoare P' m Q -> (forall s, P s -> P' s) -> hoare P m Q.
Proof. intros Hm HP s Hs. apply Hm. by apply HP. Qed.

Lemma job_post {A} P (m : job A) (Q Q' : A -> local -> Prop) :
  hoare P m Q' -> (forall a s, Q' a s -> Q a s) -> hoare P m Q.
Proof.
  intros Hm HQ s HP Ho. specialize (Hm s HP Ho). destruct (m s) as [[[v|a] s']| |]; try done. destruct Hm. auto.
Qed.

Lemma job_lift {A} P (o : outcome A) (Q : A -> local -> Prop) :
  (sound -> exists a, o = Done a) -> (forall a s, o = Done a -> P s -> Q a s) -> hoare P (lift o) Q.
Proof. intros Hd HQ s HP Ho. unfold lift. destruct o; simpl; [auto|..]; by intros [? ?]%Hd. Qed.

Lemma job_get_sc (P : local -> Prop) : hoare P get_sc (fun sc s => P s /\ LSc s = sc).
Proof. intros s HP Ho. simpl. auto. Qed.

Lemma job_get_md (P : local -> Prop) : hoare P get_md (fun md s => P s /\ LMd s = md).
Proof. intros s HP Ho. simpl. auto. Qed.

(** A precondition that only constrains the scaler and the target. *)
Definition at_ (I : Scaler -> Deployment -> Prop) (s : local) : Prop := I (LSc s) (LMd s).

Lemma job_change (I I' : Scaler -> Deployment -> Prop) f :
  (forall sc md, I sc md -> I' (f sc) md) -> hoare (at_ I) (change f) (fun _ => at_ I').
Proof. intros HI s HP Ho. simpl. split; [done|]. by apply HI. Qed.

Lemma job_put_sc (I I' : Scaler -> Deployment -> Prop) sc :
  (forall sc' md, I sc' md -> I' sc md) -> hoare (at_ I) (put_sc sc) (fun _ => at_ I').
Proof. intros HI s HP Ho. simpl. split; [done|]. by eapply HI. Qed.

Lemma job_emit (I : Scaler -> Deployment -> Prop) e :
  (forall sc md, I sc md -> good e) -> hoare (at_ I) (emit e) (fun _ => at_ I).
Proof. intros Hg s HP Ho. simpl. split; [|done]. apply Forall_app. split; [done|]. apply Forall_singleton. by eapply Hg. Qed.

(** An assumption that does not depend on the state. *)
Lemma job_assume {A} (F : Prop) (P : local -> Prop) (m : job A) Q :
  (forall s, P s -> F) -> (F -> hoare P m Q) -> hoare P m Q.
Proof. intros HF Hm s HP. by apply Hm; [eapply HF|]. Qed.

(** Reading the scaler and going on with it. *)
Lemma job_with_sc {B} (I : Scaler -> Deployment -> Prop) (k : Scaler -> job B) Q :
  (forall sc, hoare (at_ (fun sc' md => sc' = sc /\ I sc' md)) (k sc) Q) -> hoare (at_ I) (jbind get_sc k) Q.
Proof.
  intros Hk. eapply job_bind; [apply job_get_sc|]. intros sc. eapply job_pre; [apply Hk|].
  intros s [HI <-]. by split.
Qed.

Lemma job_with_md {B} (I : Scaler -> Deployment -> Prop) (k : Deployment -> job B) Q :
  (forall md, hoare (at_ (fun sc md' => md' = md /\ I sc md')) (k md) Q) -> hoare (at_ I) (jbind get_md k) Q.
Proof.
  intros Hk. eapply job_bind; [apply job_get_md|]. intros md. eapply job_pre; [apply Hk|].
  intros s [HI <-]. by split.
Qed.

Lemma job_seq {B} (I I' : Scaler -> Deployment -> Prop) (m : job unit) (k : job B) Q :
  hoare (at_ I) m (fun _ => at_ I') -> hoare (at_ I') k Q -> hoare (at_ I) (jbind m (fun _ => k)) Q.
Proof. intros Hm Hk. eapply job_bind; [apply Hm|]. by intros []. Qed.

(** ** Steps that write no target *)

(** The target in memory, and the term the scaler acts under. *)
Definition inv (md : Deployment) (term : Z) (sc : Scaler) (md' : Deployment) : Prop :=
  derived sc /\ md' = md /\ scalerTerm sc = term.
Definition any (sc : Scaler) (md : Deployment) : Prop := True.

Lemma derived_with st sc :
  derived sc ->
  StPendingCohort st = StPendingCohort (ScStatus sc) \/ StPendingCohort st = None ->
  StLastScaleDown st = StLastScaleDown (ScStatus sc) \/ StLastScaleDown st = None ->
  derived (with_status st sc).
Proof.
  intros (E & Hc & Hd) Hc' Hd'. split; [rewrite E; done|]. simpl. split; [destruct Hc' as [->|]; auto|destruct Hd' as [->|]; auto].
Qed.

(** Changes of the scaler that keep the invariant. *)
Definition benign (f : Scaler -> Scaler) : Prop := forall sc md term md', inv md term sc md' -> inv md term (f sc) md'.

Ltac benign := intros ? ? ? ? (? & ? & ?); split; [apply derived_with; simpl; auto|split; done].

Lemma benign_cond type status reason message t : benign (setCondition type status reason message t).
Proof. benign. Qed.
Lemma benign_observed : benign set_observed.
Proof. benign. Qed.
Lemma benign_observed_to n : benign (set_observed_to n).
Proof. benign. Qed.
Lemma benign_priors l : benign (set_priors l).
Proof. benign. Qed.
Lemma benign_roles l : benign (set_status_roles l).
Proof. benign. Qed.
Lemma benign_predictors l : benign (set_predictors l).
Proof. benign. Qed.
Lemma benign_rebalance r : benign (set_rebalance r).
Proof. benign. Qed.
Lemma benign_commit c : benign (set_last_commit c).
Proof. benign. Qed.
Lemma benign_quantile q : benign (set_quantile q).
Proof. benign. Qed.
Lemma benign_cohort : benign (set_cohort None).
Proof. benign. Qed.
Lemma benign_reset md : benign (resetRebalanceForGenerationChange md).
Proof. intros sc md' term md'' Hi. unfold resetRebalanceForGenerationChange. repeat case_match; try done; by apply benign_rebalance. Qed.
Lemma benign_exhaustion cohort admitted : benign (recordRebalanceExhaustion cohort admitted).
Proof. intros sc md' term md'' Hi. unfold recordRebalanceExhaustion. repeat case_match; try done; by apply benign_rebalance. Qed.

(** A step that keeps the invariant, whatever it is. *)
Definition steady {A} (m : job A) : Prop := forall md term, hoare (at_ (inv md term)) m (fun _ => at_ (inv md term)).
(** A step that writes no target, from any state. *)
Definition silent {A} (m : job A) : Prop := hoare (at_ any) m (fun _ => at_ any).

Lemma steady_change f : benign f -> steady (change f).
Proof. intros Hf md term. apply job_change. intros sc md' Hi. by apply Hf. Qed.

Lemma steady_bind {A B} (m : job A) (k : A -> job B) : steady m -> (forall a, steady (k a)) -> steady (jbind m k).
Proof. intros Hm Hk md term. eapply job_bind; [apply Hm|]. intros a. apply Hk. Qed.

Lemma steady_ret {A} (a : A) : steady (jret a).
Proof. intros md term. by apply job_ret. Qed.

Lemma steady_leave {A} v : steady (leave v : job A).
Proof. intros md term. apply job_leave. Qed.

Lemma steady_get_sc : steady get_sc.
Proof. intros md term. eapply job_post; [apply job_get_sc|]. by intros sc s [? _]. Qed.

(** Reading the scaler, changing it and putting it back. *)
Lemma steady_put f : benign f -> forall (k : job unit), steady k ->
  steady (jbind get_sc (fun sc => jbind (put_sc (f sc)) (fun _ => k))).
Proof.
  intros Hf k Hk md term. apply job_with_sc. intros sc. eapply job_seq; [|apply Hk].
  apply job_put_sc. intros sc' md' [-> Hi]. by apply Hf.
Qed.

Lemma steady_emit e : good e -> steady (emit e).
Proof. intros Hg md term. by apply job_emit. Qed.

Lemma steady_cond type status reason message : steady (set_cond w type status reason message).
Proof. apply steady_change, benign_cond. Qed.

Lemma silent_bind {A B} (m : job A) (k : A -> job B) : silent m -> (forall a, silent (k a)) -> silent (jbind m k).
Proof. intros Hm Hk. eapply job_bind; [apply Hm|]. intros a. apply Hk. Qed.
Lemma silent_ret {A} (a : A) : silent (jret a).
Proof. by apply job_ret. Qed.
Lemma silent_leave {A} v : silent (leave v : job A).
Proof. apply job_leave. Qed.
Lemma silent_get_sc : silent get_sc.
Proof. eapply job_post; [apply job_get_sc|]. by intros. Qed.
Lemma silent_get_md : silent get_md.
Proof. eapply job_post; [apply job_get_md|]. by intros. Qed.
Lemma silent_change f : silent (change f).
Proof. by apply job_change. Qed.
Lemma silent_put_sc sc : silent (put_sc sc).
Proof. by eapply job_put_sc. Qed.
Lemma silent_put_md md : silent (put_md md).
Proof. intros s _ Ho. by simpl. Qed.
Lemma silent_emit e : good e -> silent (emit e).
Proof. intros Hg. by apply job_emit. Qed.

#[local] Hint Resolve benign_cond benign_observed benign_observed_to benign_priors benign_roles benign_predictors
  benign_rebalance benign_commit benign_quantile benign_cohort benign_reset benign_exhaustion : jobs.
#[local] Hint Resolve steady_change steady_ret steady_leave steady_get_sc steady_cond : jobs.
#[local] Hint Resolve silent_ret silent_leave silent_get_sc silent_get_md silent_change silent_put_sc silent_put_md : jobs.

(** Walk through a step that writes no target. *)
Ltac silent_step :=
  repeat first
    [ apply silent_bind; [|intros ?]
    | solve [eauto with jobs]
    | apply silent_emit; done
    | case_match ].

Lemma silent_try before : silent (try_update_status w before).
Proof. unfold try_update_status. silent_step. Qed.
#[local] Hint Resolve silent_try : jobs.
Lemma silent_update before : silent (updateStatus w before).
Proof. unfold updateStatus. silent_step. Qed.
#[local] Hint Resolve silent_update : jobs.
Lemma silent_cond type status reason message : silent (set_cond w type status reason message).
Proof. apply silent_change. Qed.
#[local] Hint Resolve silent_cond : jobs.
Lemma silent_clear : silent clearCapacityPriorState.
Proof. unfold clearCapacityPriorState. silent_step. Qed.
#[local] Hint Resolve silent_clear : jobs.
Lemma silent_apply resolved : silent (applyCapacityPriorResolution w resolved).
Proof. unfold applyCapacityPriorResolution. silent_step. Qed.
#[local] Hint Resolve silent_apply : jobs.
Lemma silent_stop {A} before e : silent (stopForCapacityPrior (A := A) w before e).
Proof. unfold stopForCapacityPrior. silent_step. Qed.
#[local] Hint Resolve silent_stop : jobs.
Lemma silent_hold {A} before reason message metrics every' : silent (hold (A := A) w before reason message metrics every').
Proof. unfold hold. silent_step. Qed.
#[local] Hint Resolve silent_hold : jobs.
Lemma silent_finish {A} before resolved every' : silent (finish (A := A) w before resolved every').
Proof. unfold finish. silent_step. Qed.
#[local] Hint Resolve silent_finish : jobs.
Lemma silent_record id vector baseline : silent (record_commit w id vector baseline).
Proof. unfold record_commit. silent_step. Qed.
#[local] Hint Resolve silent_record : jobs.
Lemma silent_unbound {A} reason bound active after : silent (unbound (A := A) w reason bound active after).
Proof. unfold unbound. silent_step. Qed.
#[local] Hint Resolve silent_unbound : jobs.
Lemma silent_unbound_invalidated {A} reason message bound active after :
  silent (unbound_invalidated (A := A) w reason message bound active after).
Proof. unfold unbound_invalidated, invalidateCapacityPriorState. silent_step. Qed.
#[local] Hint Resolve silent_unbound_invalidated : jobs.

(** A step that writes no target, where nothing is known afterwards. *)
Lemma quietly {A} P (m : job A) : silent m -> hoare P m (fun _ => at_ any).
Proof. intros Hm. eapply job_pre; [apply Hm|done]. Qed.

Lemma steady_clear : steady clearCapacityPriorState.
Proof.
  intros md term. unfold clearCapacityPriorState. apply job_with_sc. intros sc. case_match.
  - apply job_ret. by intros s [_ ?].
  - eapply job_seq; [apply job_put_sc|by apply job_emit]. intros sc' md' [-> Hi].
    apply benign_roles, benign_predictors, benign_priors, Hi.
Qed.

Lemma steady_apply resolved : steady (applyCapacityPriorResolution w resolved).
Proof.
  unfold applyCapacityPriorResolution. destruct resolved as [e|priors].
  - apply steady_bind; [apply steady_clear|intros []]. apply steady_bind; [|intros []]; auto with jobs.
  - apply steady_bind; [auto with jobs|intros sc]. apply steady_bind.
    { case_match; auto using steady_clear with jobs. }
    intros []. repeat (apply steady_bind; [auto with jobs|intros ?]). repeat case_match; auto with jobs.
Qed.

(** ** Steps that write the target *)

Lemma derived_uid sc : derived sc -> ScUID sc = ScUID sc0.
Proof. by intros [-> _]. Qed.
Lemma derived_policy sc : derived sc -> ScPolicy sc = ScPolicy sc0.
Proof. by intros [-> _]. Qed.

Lemma job_quiet {A B} P (m : job A) (k : A -> job B) Q :
  silent m -> (forall a, hoare (at_ any) (k a) Q) -> hoare P (jbind m k) Q.
Proof. intros Hm Hk. eapply job_bind; [by apply quietly|]. done. Qed.

(** Behind the ownership guard the target names this scaler and its term. *)
Lemma job_ensure md term before :
  hoare (at_ (inv md term)) (ensureOwnedBinding w before)
    (fun owned s => owned = true -> at_ (inv md term) s /\ owned_under md term).
Proof.
  unfold ensureOwnedBinding. apply job_with_sc. intros sc. apply job_with_md. intros md'.
  destruct (readScalerBinding md') as [| |b] eqn:E; simpl.
  1,2: repeat (apply job_quiet; [auto with jobs|intros []]); by apply job_ret.
  case_match eqn:Eb.
  - apply job_ret. intros s (Emd & Esc & Hi) _. split; [done|]. destruct Hi as (Hd & Hmd & Ht). simplify_eq.
    exists b. rewrite andb_true_iff, bool_decide_eq_true, Z.eqb_eq in Eb. rewrite <- (derived_uid _ Hd). tauto.
  - repeat (apply job_quiet; [auto with jobs|intros []]); by apply job_ret.
Qed.

Lemma job_owned {B} md term before every' (k : job B) Q :
  (owned_under md term -> hoare (at_ (inv md term)) k Q) ->
  hoare (at_ (inv md term)) (owned_or_leave w before every' ;! k) Q.
Proof.
  intros Hk. unfold owned_or_leave.
  eapply job_bind with (Q := fun _ s => at_ (inv md term) s /\ owned_under md term).
  - eapply job_bind; [apply job_ensure|]. intros []; [apply job_ret; auto|apply job_leave].
  - intros []. apply job_assume with (owned_under md term); [by intros s [_ ?]|].
    intros Ho. eapply job_pre; [by apply Hk|]. by intros s [? _].
Qed.

Lemma job_update P base sent : (forall s, P s -> justified base sent) -> hoare P (update_target w base sent) (fun _ => at_ any).
Proof.
  intros HP s Hs Ho. unfold update_target, jbind, emit. simpl. destruct (UpdateTarget w sent); simpl;
    [split; [|done]|]; apply Forall_app; (split; [done|]); apply Forall_singleton; by eapply HP.
Qed.

Lemma job_write md term vector :
  acting -> owned_under md term -> cause md term vector ->
  hoare (at_ (inv md term)) (writeVector w vector (deploymentReplicaVector md)) (fun _ => at_ any).
Proof.
  intros Ha Ho Hc. unfold writeVector. apply job_with_sc. intros sc. apply job_with_md. intros md'.
  eapply job_bind; [apply job_update|intros []; by apply job_ret].
  intros s (-> & <- & Hd & -> & <-). by apply by_commit.
Qed.

(** Going back on a cohort, and coming back from an aborted scale-down. *)
Lemma job_retract {A} md before resolved cohort cohorts every' term Q :
  acting -> cause md term (CoBaseline cohort) ->
  hoare (at_ (inv md term)) (retract (A := A) w before resolved cohort cohorts (deploymentReplicaVector md) every') Q.
Proof.
  intros Ha Hc. unfold retract. apply job_owned. intros Ho. eapply job_seq; [apply steady_change; auto with jobs|].
  eapply job_bind; [by apply job_write|]. intros id. repeat (apply job_quiet; [auto with jobs|intros ?]).
  repeat case_match; apply job_leave.
Qed.

Lemma job_restore {A} md before resolved down retirement every' term Q :
  acting -> cause md term (SdPreVector down) ->
  hoare (at_ (inv md term)) (restore (A := A) w before resolved down retirement (deploymentReplicaVector md) every') Q.
Proof.
  intros Ha Hc. unfold restore. apply job_owned. intros Ho. eapply job_seq.
  { apply steady_change. intros sc md' t md'' Hi. repeat case_match; auto with jobs. by apply benign_rebalance. }
  eapply job_bind; [by apply job_write|]. intros id. repeat (apply job_quiet; [auto with jobs|intros ?]).
  repeat case_match; apply job_leave.
Qed.

Lemma job_settle md term before resolved cohorts every' active :
  (active = true -> acting) ->
  hoare (at_ (inv md term)) (settle_cohort w before resolved cohorts (deploymentReplicaVector md) every' active)
    (fun _ => at_ (inv md term)).
Proof.
  intros Ha. unfold settle_cohort. apply job_with_sc. intros sc.
  assert (forall f, benign f -> hoare (at_ (fun sc' md' => sc' = sc /\ inv md term sc' md')) (change f) (fun _ => at_ (inv md term))) as Hf.
  { intros f Hf. apply job_change. intros sc' md' [_ Hi]. by apply Hf. }
  destruct (StPendingCohort (ScStatus sc)) as [cohort|] eqn:Ec; [|by apply job_ret; intros s [_ ?]].
  case_match eqn:Et; [auto with jobs|]. case_match; [auto with jobs|]. case_match eqn:Ee; [|by apply job_ret; intros s [_ ?]].
  apply andb_true_iff in Ee as [-> Ee]. apply negb_false_iff, Z.eqb_eq in Et.
  apply job_assume with (cause md term (CoBaseline cohort)).
  - intros s (E & (Es & Hc & _) & _ & Ht). rewrite E in Es, Hc, Ht. destruct Hc as [Hc|Hc]; rewrite Ec in Hc; [|done].
    eapply cause_retract; [done|congruence| |done]. by rewrite Es in Ee.
  - intros Hc. apply job_pre with (at_ (inv md term)); [apply job_retract; auto|by intros s [_ ?]].
Qed.

Lemma aborted_cause sc md term down retirement :
  derived sc -> aborted_scale_down sc md = Some (down, retirement) -> cause md term (SdPreVector down).
Proof.
  unfold aborted_scale_down. intros (_ & _ & [Hd|Hd]) E; destruct (MdRetirement md) eqn:Er; try done;
    destruct (StLastScaleDown (ScStatus sc)) eqn:Es; try done.
  case_match eqn:Eg; [|done]. injection E as -> ->. rewrite !andb_true_iff, !bool_decide_eq_true, Z.eqb_eq in Eg.
  destruct Eg as [[[? ?] ?] ?]. by eapply cause_restore.
Qed.

Lemma recommend_comes a obs name : sound -> exists r, recommend elsewhere32 elsewhere64 a obs (PredictorOf w name) = Done r.
Proof.
  intros So. destruct (sound_memory So name) as (n & l & Hr & Hn). destruct a as [p|t|p|]; simpl; eauto.
  - destruct (throughput_comes elsewhere32 elsewhere64 n t obs _ l Hr Hn) as (rec & state & -> & _). simpl. eauto.
  - destruct (predictive_comes elsewhere32 elsewhere64 n p obs _ l Hr Hn) as (rec & state & -> & _). simpl. eauto.
Qed.

(** The roles gathered for the solver are those of the target, in order. *)
Lemma job_gather P sc priors pending roles acc :
  hoare P (gather elsewhere32 elsewhere64 w sc priors pending roles acc)
    (fun g s => P s /\ exists states, GStates g = GStates acc ++ states /\ states_of roles states).
Proof.
  revert acc. induction roles as [|role roles IH]; intros acc; simpl.
  { apply job_ret. intros s Hs. split; [done|]. exists []. split; [by rewrite app_nil_r|constructor]. }
  eapply job_bind with (Q := fun g s => P s /\ exists st, GStates g = GStates acc ++ [st] /\
    RsName st = RoName role /\ RsCurrent st = RoReplicas role).
  - unfold gather_role. case_match; [|apply job_leave].
    eapply job_bind; [apply job_lift with (Q := fun _ => P); auto using recommend_comes|]. intros r. apply job_ret. simpl. eauto 6.
  - intros g. eapply job_assume; [by intros s [_ ?]|]. intros (st & E & Hst).
    eapply job_post; [eapply job_pre; [apply IH|by intros s [? _]]|].
    intros g' s [Hs (states & E' & Hall)]. split; [done|]. exists (st :: states). split; [by rewrite E', E, <- app_assoc|]. by constructor.
Qed.

(** A rebalance answers the solver's vector, the current one, or one inside the policy. *)
Definition settled (md : Deployment) (current target vector : gmap string Z) : Prop :=
  vector = target \/ vector = current \/ currentVectorConflict (ScPolicy sc0) (MdRoles md) vector = "".

(** The scaler in memory is known. *)
Definition holding (md : Deployment) (term : Z) (sc : Scaler) : local -> Prop :=
  at_ (fun sc' md' => sc' = sc /\ inv md term sc' md').

Lemma job_hold {B} md term (k : Scaler -> job B) Q :
  (forall sc, derived sc -> hoare (holding md term sc) (k sc) Q) -> hoare (at_ (inv md term)) (jbind get_sc k) Q.
Proof. intros Hk s Hi Ho. by apply (Hk (LSc s)); [apply Hi| |]. Qed.

Lemma job_known_sc {B} md term sc (k : Scaler -> job B) Q :
  hoare (holding md term sc) (k sc) Q -> hoare (holding md term sc) (jbind get_sc k) Q.
Proof. intros Hk s [E Hi] Ho. unfold jbind, get_sc. simpl. rewrite E. by apply Hk. Qed.

Lemma job_known_md {B} md term sc (k : Deployment -> job B) Q :
  hoare (holding md term sc) (k md) Q -> hoare (holding md term sc) (jbind get_md k) Q.
Proof. intros Hk s Hs Ho. unfold jbind, get_md. simpl. pose proof Hs as (_ & _ & Em & _). rewrite Em. by apply Hk. Qed.

Section rebalance.
Context (md : Deployment) (term : Z) (current target : gmap string Z).

Abbreviation answers := (fun (r : gmap string Z * string) s => at_ (inv md term) s /\ settled md current target r.1).

Lemma job_answer sc f vector reason :
  benign f -> settled md current target vector -> hoare (holding md term sc) (put_sc (f sc) ;! jret (vector, reason)) answers.
Proof.
  intros Hf Hv. eapply job_seq with (I' := inv md term); [|by apply job_ret]. apply job_put_sc. intros sc' md' [-> Hi]. by apply Hf.
Qed.

Lemma job_plain sc vector reason : settled md current target vector -> hoare (holding md term sc) (jret (vector, reason)) answers.
Proof. intros Hv. apply job_ret. by intros s [_ ?]. Qed.

Lemma settled_current : settled md current target current.
Proof. by right; left. Qed.
Lemma settled_target : settled md current target target.
Proof. by left. Qed.
#[local] Hint Resolve settled_current settled_target job_answer job_plain : jobs.

Lemma job_finish_rebalance sc state :
  derived sc -> hoare (holding md term sc) (finishRebalanceDonorRelease w state current) answers.
Proof.
  intros Hd. unfold finishRebalanceDonorRelease. apply job_known_sc, job_known_md.
  case_match; [auto with jobs|]. case_match; [auto with jobs| |apply job_leave].
  destruct (bool_decide (currentVectorConflict _ _ _ = "")) eqn:Hc; simpl; [|apply (job_answer sc (set_rebalance _)); auto with jobs].
  apply (job_answer sc (set_rebalance _)); [auto with jobs|]. right; right. apply bool_decide_eq_true in Hc.
  by rewrite <- (derived_policy _ Hd).
Qed.

Lemma job_donors sc state policy receiver recommendations :
  derived sc -> hoare (holding md term sc) (try_donors w sc md state policy receiver current recommendations) answers.
Proof.
  intros Hd. unfold try_donors. case_match; [case_match|apply (job_answer sc (set_rebalance _)); auto with jobs].
  case_bool_decide as Hc; simpl; [|apply (job_answer sc (set_rebalance _)); auto with jobs].
  case_match; apply (job_answer sc (set_rebalance _)); auto with jobs. right; right. by rewrite <- (derived_policy _ Hd).
Qed.

Lemma job_rebalance recommendations active :
  hoare (at_ (inv md term)) (planRebalance w current target recommendations active) answers.
Proof.
  unfold planRebalance. apply job_hold. intros sc Hd. apply job_known_md.
  repeat first [apply job_finish_rebalance; done | apply job_donors; done | apply (job_answer sc (set_rebalance _)); auto with jobs
    | apply job_plain; auto with jobs | case_match].
Qed.
End rebalance.

Lemma steady_recheck planned : steady (recheckCapacityPriors w planned).
Proof. unfold recheckCapacityPriors. apply steady_bind; [auto with jobs|]. intros sc. repeat case_match; auto with jobs. Qed.

(** The planned vector is inside the policy, when the current one is. *)
Definition conforming (md : Deployment) (vector : gmap string Z) : Prop :=
  sound -> currentVectorConflict (ScPolicy sc0) (MdRoles md) vector = "".

Lemma solver_conforming sc md states :
  derived sc -> states_of (MdRoles md) states -> distinct md -> sound ->
  currentVectorConflict (ScPolicy sc0) (MdRoles md) (deploymentReplicaVector md) = "" -> exists c,
  SolveModelDeploymentScalerConstraints elsewhere32 ranging (AtNow w) (constraint_input w sc md states) = Done c /\
  currentVectorConflict (ScPolicy sc0) (MdRoles md) (Replicas c) = "".
Proof.
  intros Hd Hs Hn So Hc. destruct So. rewrite <- (derived_policy _ Hd) in *.
  by apply (planned_conforms elsewhere32 ranging (AtNow w) (constraint_input w sc md states)).
Qed.

Lemma job_commit_planned md term before priors vector every' :
  acting -> currentVectorConflict (ScPolicy sc0) (MdRoles md) (deploymentReplicaVector md) = "" -> conforming md vector ->
  hoare (at_ (inv md term)) (commit_planned w before priors vector (deploymentReplicaVector md) every') (fun _ => at_ any).
Proof.
  intros Ha Hc Hv. unfold commit_planned. eapply job_bind; [apply steady_recheck|]. intros [e|].
  - apply job_quiet; [auto with jobs|intros []]. apply quietly. auto with jobs.
  - apply job_owned. intros Ho. eapply job_bind; [apply job_write; [done..|by apply cause_planned]|].
    intros id. apply job_quiet; [auto with jobs|intros []]. apply quietly. auto with jobs.
Qed.

Lemma job_plan_vector md term before priors pending every' active :
  (active = true -> acting) -> (sound -> distinct md) ->
  currentVectorConflict (ScPolicy sc0) (MdRoles md) (deploymentReplicaVector md) = "" ->
  hoare (at_ (inv md term))
    (plan_vector elsewhere32 elsewhere64 ranging w before priors pending (deploymentReplicaVector md) every' active) (fun _ => at_ any).
Proof.
  intros Ha Hn Hc. unfold plan_vector. apply job_hold. intros sc Hd. apply job_known_md.
  eapply job_bind; [apply job_gather|]. intros g. eapply job_assume; [by intros s [_ ?]|]. intros (states & Eg & Hs).
  simpl in Eg. subst states. apply job_pre with (at_ (inv md term)); [|by intros s [[_ ?] _]].
  eapply job_bind; [apply job_lift with (Q := fun c s => at_ (inv md term) s /\ conforming md (Replicas c))|].
  { intros So. destruct (solver_conforming sc md (GStates g)) as (c & Hsolve & _); eauto. }
  { intros c s Ec Hi. split; [done|]. intros So.
    destruct (solver_conforming sc md (GStates g)) as (c' & Hsolve & ?); eauto. congruence. }
  intros c. eapply job_assume; [by intros s [_ ?]|]. intros Hv. apply job_pre with (at_ (inv md term)); [|by intros s [? _]].
  do 2 (eapply job_seq; [by apply steady_emit|]).
  eapply job_bind; [apply job_rebalance|]. intros r. eapply job_assume; [by intros s [_ ?]|]. intros Hr.
  apply job_pre with (at_ (inv md term)); [|by intros s [? _]].
  do 2 (eapply job_seq; [apply steady_change; auto with jobs|]).
  eapply job_seq; [case_match; apply steady_cond|]. eapply job_seq; [case_match; apply steady_cond|].
  eapply job_seq with (I' := any); [|apply quietly; silent_step].
  case_match eqn:E; [|apply quietly; auto with jobs]. apply andb_true_iff in E as [-> _].
  apply job_commit_planned; [auto|done|]. destruct Hr as [->|[->|Hr]]; [done|by intros ?..].
Qed.

Lemma job_plan md term before preResolved active :
  (active = true -> acting) -> (sound -> distinct md) ->
  hoare (at_ (inv md term)) (planWithPriors elsewhere32 elsewhere64 ranging w before preResolved active) (fun _ => at_ any).
Proof.
  intros Ha Hn. unfold planWithPriors. apply job_hold. intros sc Hd. apply job_known_md.
  set (resolved := match preResolved with Some p => inr p | None => Resolve w 1 sc md end).
  apply job_pre with (at_ (inv md term)); [|by intros s [_ ?]].
  eapply job_seq; [apply steady_apply|]. eapply job_bind with (Q := fun _ => at_ (inv md term)).
  { unfold executionState. repeat case_match; first [apply job_leave|by apply job_ret]. }
  intros execution. eapply job_seq; [apply steady_change; auto with jobs|].
  eapply job_seq; [by apply job_settle|]. apply job_hold. intros sc' Hd'. eapply job_seq with (I' := inv md term).
  { case_match eqn:E; [|by apply job_ret; intros s [_ ?]]. destruct p as [down retirement]. destruct active; [|done].
    apply job_pre with (at_ (inv md term)); [|by intros s [_ ?]]. apply job_restore; [auto|]. by eapply aborted_cause. }
  destruct resolved as [e|priors]; [apply quietly; auto with jobs|].
  case_match; [apply quietly; auto with jobs|]. case_match eqn:Ec; [apply quietly; auto with jobs|].
  apply negb_false_iff, bool_decide_eq_true in Ec. rewrite (derived_policy _ Hd') in Ec. by apply job_plan_vector.
Qed.

(** ** The pass *)

(** Between the steps of the pass: the scaler is derived from the one read, and
    the target has distinct roles. *)
Definition ready (sc : Scaler) (md : Deployment) : Prop := derived sc /\ (sound -> distinct md).
(** The scaler's binding is still the one that was read. *)
Definition fresh (sc : Scaler) (md : Deployment) : Prop :=
  ready sc md /\ StBinding (ScStatus sc) = StBinding (ScStatus sc0).

Lemma owned_by_derived sc md : derived sc -> owned_by sc md = owned_by sc0 md.
Proof. intros Hd. unfold owned_by. by rewrite (derived_uid _ Hd). Qed.

Lemma released_derived sc md : derived sc -> released sc md = released sc0 md.
Proof. intros Hd. unfold released, decided_by. rewrite (owned_by_derived _ _ Hd), (derived_uid _ Hd). by destruct Hd as [-> _]. Qed.

Lemma job_update_ready base sent :
  justified base sent -> hoare (at_ ready) (update_target w base sent) (fun _ => at_ ready).
Proof.
  intros HP s [Hd _] Ho. unfold update_target, jbind, emit. simpl. destruct (UpdateTarget w sent) eqn:E; simpl; [split|];
    try (apply Forall_app; split; [done|by apply Forall_singleton]).
  split; [done|]. intros So. by eapply sound_updated.
Qed.

Lemma job_release : hoare (at_ ready) (releaseOwnedBinding w) (fun _ => at_ ready).
Proof.
  unfold releaseOwnedBinding. apply job_with_sc. intros sc. apply job_with_md. intros md.
  apply job_assume with (derived sc); [by intros s (_ & <- & ? & _)|]. intros Hd.
  assert (readScalerBinding md <> BindingInvalid -> hoare (at_ (fun sc' md' => md' = md /\ sc' = sc /\ ready sc' md'))
    (if owned_by sc md || (ScDeleting sc && decided_by sc md) then update_target w md (released sc md) else jret tt)
    (fun _ => at_ ready)) as Hgo.
  { intros Hb. case_match eqn:E; [|by apply job_ret; intros s (_ & _ & ?)].
    eapply job_pre; [apply job_update_ready|by intros s (_ & _ & ?)].
    rewrite (released_derived _ _ Hd). apply by_release; [|done].
    rewrite orb_true_iff, andb_true_iff, (owned_by_derived _ _ Hd) in E. unfold decided_by in *.
    rewrite (derived_uid _ Hd) in E. destruct Hd as [Es _]. rewrite Es in E. tauto. }
  destruct (readScalerBinding md); [by apply Hgo|by apply job_ret; intros s (_ & _ & ?)|by apply Hgo].
Qed.

Lemma derived_binding b sc : derived sc -> derived (set_binding b sc).
Proof. intros Hd. apply derived_with; simpl; auto. Qed.

Lemma derived_recover md sc : derived sc -> derived (recoverDecision md sc).
Proof.
  intros Hd. unfold recoverDecision. do 4 (case_match; try done). cbv zeta.
  assert (derived (if commit_matches (StLastCommit (ScStatus sc)) d then sc else set_last_commit (Some (recovered_commit md d)) sc)) as Hd'
    by (case_match; [done|apply derived_with; simpl; auto]).
  revert Hd'. generalize (if commit_matches (StLastCommit (ScStatus sc)) d then sc else set_last_commit (Some (recovered_commit md d)) sc).
  intros. repeat case_match; auto using derived_binding.
Qed.

(** The plan under a new binding, whatever its term. *)
Lemma job_bound md b (k : job answer) :
  (forall term, (sound -> distinct md) -> hoare (at_ (inv md term)) k (fun _ => at_ any)) ->
  hoare (at_ (fun sc md' => md' = md /\ ready sc md')) (change (set_binding b) ;! change (recoverDecision md) ;! k) (fun _ => at_ any).
Proof.
  intros Hk. apply job_assume with (sound -> distinct md); [by intros s [<- [_ ?]]|]. intros Hn.
  do 2 (eapply job_seq with (I' := fun sc md' => md' = md /\ ready sc md');
    [apply job_change; intros sc md' (? & ? & ?); split; [done|split]; by auto using derived_binding, derived_recover|]).
  intros s (Em & Hd & _). apply (Hk (scalerTerm (LSc s)) Hn). by split.
Qed.

Lemma job_observe : hoare (at_ ready) (observe elsewhere32 elsewhere64 ranging w) (fun _ => at_ any).
Proof.
  unfold observe. apply job_with_sc. intros sc. apply job_with_md. intros md.
  eapply job_pre; [apply (job_bound md)|by intros s (? & _ & ?)]. intros term Hn.
  do 3 (eapply job_seq; [first [apply steady_cond|apply steady_change; auto with jobs]|]). by apply job_plan.
Qed.

Lemma job_drive term preResolved :
  acting -> hoare (at_ ready) (drive elsewhere32 elsewhere64 ranging w term preResolved) (fun _ => at_ any).
Proof.
  intros Ha. unfold drive. apply job_with_sc. intros sc. apply job_with_md. intros md.
  eapply job_pre; [apply (job_bound md)|by intros s (? & _ & ?)]. intros term' Hn.
  do 2 (eapply job_seq; [apply steady_cond|]). by apply job_plan.
Qed.

Lemma silent_invalidate reason message : silent (invalidateCapacityPriorState w reason message).
Proof. unfold invalidateCapacityPriorState. silent_step. Qed.
#[local] Hint Resolve silent_invalidate : jobs.

(** A scaler that is not bound ends its pass. *)
Lemma job_unbound_invalidated {A} P reason message bound active after Q :
  hoare P (unbound_invalidated (A := A) w reason message bound active after) Q.
Proof. unfold unbound_invalidated. repeat (apply job_quiet; [auto with jobs|intros ?]). apply job_leave. Qed.

Lemma job_shadow : hoare (at_ ready) (reconcile_shadow elsewhere32 elsewhere64 ranging w) (fun _ => at_ any).
Proof.
  unfold reconcile_shadow. eapply job_seq; [apply job_release|]. apply job_with_sc. intros sc.
  eapply job_seq with (I' := ready).
  { case_match; [apply job_unbound_invalidated|by apply job_ret; intros s [_ ?]]. }
  apply job_with_md. intros md. repeat case_match; try (apply quietly; solve [auto with jobs]).
  all: eapply job_pre; [apply job_observe|by intros s [_ ?]].
Qed.

Lemma job_acquire md term :
  acting -> term = next_term sc0 (readScalerBinding md) -> readScalerBinding md = BindingAbsent \/ owned_by sc0 md = true ->
  hoare (at_ (fun sc md' => md' = md /\ ready sc md')) (acquire w term) (fun _ => at_ ready).
Proof.
  intros Ha Ht Hb. unfold acquire. apply job_with_sc. intros sc. apply job_with_md. intros md'.
  apply job_assume with (md' = md /\ derived sc); [by intros s (<- & <- & ? & ? & _)|]. intros [-> Hd].
  set (held := match readScalerBinding md with BindingOf b => _ | _ => _ end).
  destruct held; [by apply job_ret; intros s (_ & _ & _ & ?)|]. destruct (Resolve w 0 sc md) as [e|priors].
  - repeat (apply job_quiet; [auto with jobs|intros []]). unfold stopForCapacityPrior.
    case_match; repeat (apply job_quiet; [auto with jobs|intros ?]); apply job_leave.
  - assert (bound_to sc term md = bound_to sc0 term md) as -> by (by destruct Hd as [-> _]).
    apply job_pre with (at_ ready); [|by intros s (_ & _ & _ & ?)].
    eapply job_seq; [by apply job_update_ready, by_acquire|]. case_match eqn:E; [|apply job_leave..].
    eapply job_seq with (I' := ready); [|by apply job_ret]. intros s [Hs _] Ho. split; [done|]. split; [done|].
    intros So. eapply sound_read; eauto.
Qed.

Lemma job_active : acting -> hoare (at_ fresh) (reconcile_active elsewhere32 elsewhere64 ranging w) (fun _ => at_ any).
Proof.
  intros Ha. unfold reconcile_active. apply job_with_sc. intros sc. apply job_with_md. intros md.
  apply job_assume with (fresh sc md); [by intros s (<- & <- & ?)|]. intros [[Hd _] Hb].
  assert (forall r, next_term sc r = next_term sc0 r) as Ht by (intros r; unfold next_term; by rewrite Hb).
  assert (readScalerBinding md = BindingAbsent \/ owned_by sc0 md = true ->
    hoare (at_ (fun sc' md' => md' = md /\ sc' = sc /\ fresh sc' md'))
      (let! preResolved := acquire w (next_term sc (readScalerBinding md)) in
       drive elsewhere32 elsewhere64 ranging w (next_term sc (readScalerBinding md)) preResolved) (fun _ => at_ any)) as Hgo.
  { intros Hr. eapply job_bind; [eapply job_pre; [by apply (job_acquire md)|]|intros pre; by apply job_drive].
    by intros s (? & _ & ? & _). }
  destruct (readScalerBinding md) as [| |b] eqn:E; [by apply Hgo; left|apply quietly; auto with jobs|].
  case_match eqn:Eo; [apply quietly; auto with jobs|]. apply Hgo. right. apply negb_false_iff, bool_decide_eq_true in Eo.
  unfold owned_by. rewrite E. apply bool_decide_eq_true. by rewrite <- (derived_uid _ Hd).
Qed.

Lemma job_replaced : hoare (at_ fresh) (replaced_target w) (fun _ => at_ fresh).
Proof.
  unfold replaced_target. apply job_with_sc. intros sc. apply job_with_md. intros md.
  repeat case_match; try first [apply job_unbound_invalidated|by apply job_ret; intros s (_ & _ & ?)].
  eapply job_seq; [|by apply job_emit]. apply job_change. intros sc' md' (_ & _ & [Hd Hn] & Hb).
  split; [split; [|done]|done]. unfold resetTargetState. repeat (apply derived_with; simpl; auto).
Qed.

Lemma derived_read : derived sc0.
Proof. split; [by destruct sc0|auto]. Qed.

Lemma job_deletion : hoare (at_ (fun sc _ => sc = sc0)) (reconcileDeletion w) (fun _ => at_ any).
Proof.
  unfold reconcileDeletion. eapply job_seq; [by apply job_emit|]. apply job_with_sc. intros sc.
  eapply job_seq with (I' := any); [|by apply job_ret]. case_match; [|by apply job_ret].
  eapply job_seq with (I' := any); [|apply quietly; silent_step]. case_match eqn:E; [|by apply job_ret|apply job_leave].
  eapply job_seq with (I' := ready); [|eapply job_post; [apply job_release|done]].
  intros s [_ Hs] Ho. split; [done|]. split; [rewrite Hs; apply derived_read|]. intros So. eapply sound_read; eauto.
Qed.

Lemma job_scaler : hoare (at_ (fun sc _ => sc = sc0)) (reconcile_scaler elsewhere32 elsewhere64 ranging w) (fun _ => at_ any).
Proof.
  unfold reconcile_scaler. apply job_with_sc. intros sc.
  apply job_assume with (sc = sc0); [by intros s [<- ->]|]. intros ->.
  case_match eqn:Ed; [eapply job_pre; [apply job_deletion|by intros s [? _]]|].
  case_match; [apply quietly; silent_step|].
  case_match eqn:E; [|apply quietly; auto with jobs|apply job_leave].
  eapply job_seq with (I' := fresh).
  { intros s [Hs _] Ho. split; [done|]. unfold fresh, ready, at_. simpl. rewrite Hs. split; [split; [apply derived_read|]|done].
    intros So. eapply sound_read; eauto. }
  eapply job_seq; [apply job_replaced|]. apply job_with_sc. intros sc.
  apply job_assume with (derived sc); [by intros s [<- [[? _] _]]|]. intros [Es _].
  assert (ScMode sc = ScMode sc0 /\ ScSuspend sc = ScSuspend sc0) as [Em Eu] by (by rewrite Es).
  case_match eqn:Eg; [eapply job_pre; [apply job_shadow|by intros s [_ [? _]]]|].
  eapply job_pre; [apply job_active|by intros s [_ ?]]. rewrite Em, Eu, !orb_false_iff, !bool_decide_eq_false in Eg.
  by destruct Eg as [[? ?] ?].
Qed.

(** Every write of the target in a pass is justified, and a sound pass returns. *)
Lemma reconcile_justified :
  ReadScaler w = Found sc0 ->
  match Reconcile elsewhere32 elsewhere64 ranging w with Done (_, log) => ok log | _ => ~ sound end.
Proof.
  intros Hr. unfold Reconcile. rewrite Hr.
  pose proof (job_scaler {| LSc := sc0; LMd := no_target_yet; LLog := [] |} eq_refl ltac:(constructor)) as Hj.
  destruct (reconcile_scaler _ _ _ _ _) as [[[v|a] s]| |]; simpl; [done|by destruct Hj|done|done].
Qed.
End safety.
