(* ===== verification/ScalerControl.v ===== *)
(** * What the scaler's controller guarantees

    The theorems on the reconcile pass of ScalerPlanner.v: who may write the
    target and what, that the pass returns, that an interrupted commit is
    recovered, how a replica moves between two roles, and that a scale-up nobody
    admits is rolled back. *)

From stdpp Require Import prelude gmap strings list pretty sorting countable.
From Stdlib Require Import SpecFloat Ascii.
From S2P Require Import Prelude GoFloat Ring Scaling ScalerSpec ScalerConstraints ScalerIntervals ScalerSolver.
From S2P Require Import ScalerFeasibility ScalerAdmission ScalerObjects ScalerPlanner ScalerSafety.
#[local] Open Scope planner_scope.

(** ** Writes of the target *)

Lemma binding_kept `{AnnotationCodec} md md' :
  MdAnnotations md' !! BindingAnnotationKey = MdAnnotations md !! BindingAnnotationKey ->
  readScalerBinding md' = readScalerBinding md.
Proof. intros E. unfold readScalerBinding, annotation. by rewrite E. Qed.

Lemma keys_differ : DecisionAnnotationKey <> BindingAnnotationKey.
Proof. done. Qed.

Lemma committed_binding `{AnnotationCodec} sc vector baseline now md :
  readScalerBinding (committed sc vector baseline now md) = readScalerBinding md.
Proof. apply binding_kept. simpl. apply lookup_insert_ne, keys_differ. Qed.

Section writes.
Context `{Codec : AnnotationCodec} {Laws : AnnotationCodecLaws} {H : Type} `{HistoryH : DemandHistoryLaws H}.
Context (elsewhere32 elsewhere64 : float64 -> Z) (ranging : forall A, gmap string A -> list (string * A)).
Context (w : world H) (sc : Scaler).

Abbreviation pass := (Reconcile elsewhere32 elsewhere64 ranging w).

Lemma update_justified v log base sent :
  ReadScaler w = Found sc -> pass = Done (v, log) -> TargetUpdated base sent ∈ log ->
  justified elsewhere32 w sc base sent.
Proof.
  intros Hr Hp Hin. pose proof (reconcile_justified elsewhere32 elsewhere64 ranging w sc Hr) as Hj.
  rewrite Hp in Hj. exact (proj1 (list.Forall_forall _ _) Hj _ Hin).
Qed.

(** Only a commit changes the roles. *)
Lemma roles_written base sent :
  justified elsewhere32 w sc base sent -> MdRoles sent <> MdRoles base -> exists sc' vector,
  acting sc /\ derived sc sc' /\ owned_under sc base (scalerTerm sc') /\
  cause elsewhere32 w sc base (scalerTerm sc') vector /\
  sent = committed sc' vector (deploymentReplicaVector base) (AtNow w) base.
Proof. destruct 1 as [md term|md|sc' md vector]; [done|done|]. intros _. by exists sc', vector. Qed.

(** C8: only the owner scales.  When a pass changes the roles of the target, the
    scaler is neither deleted, suspended nor in shadow mode, and the target it
    read names this scaler in its binding.  The object it sends is the one it read,
    resource version and binding included, with the counts of one vector and with
    a decision annotation that records this scaler, the term of that binding, the
    vector and the counts before. *)
Theorem scaling_is_fenced v log base sent :
  ReadScaler w = Found sc -> pass = Done (v, log) -> TargetUpdated base sent ∈ log -> MdRoles sent <> MdRoles base ->
  acting sc /\ exists b d, readScalerBinding base = BindingOf b /\ BiScalerUID b = ScUID sc /\
    DeScalerUID d = ScUID sc /\ DeTerm d = BiTerm b /\ DeBaseline d = deploymentReplicaVector base /\
    sent = with_annotations (<[DecisionAnnotationKey := encode_decision d]> (MdAnnotations base))
             (with_roles (committed_roles (DeVector d) (MdRoles base)) base) /\
    readScalerBinding sent = BindingOf b.
Proof.
  intros Hr Hp Hin Hne.
  destruct (roles_written _ _ (update_justified _ _ _ _ Hr Hp Hin) Hne) as (sc' & vector & Ha & Hd & Ho & _ & ->).
  split; [done|]. destruct Ho as (b & Hb & Hu & Ht).
  exists b, (decision_of sc' base vector (deploymentReplicaVector base) (AtNow w)). rewrite committed_binding.
  repeat split; [done|done|by apply derived_uid|by rewrite Ht|done].
Qed.

(** C9: scaling stays in the policy.  When the policy is admitted, the role names
    are distinct and the predictors are well formed, a pass changes the roles only
    to a vector that is the baseline of a cohort not admitted before its deadline,
    the vector before a scale-down whose retirement was aborted, or one inside the
    bounds and the ratios; in the last case the counts before were inside them
    too. *)
Theorem scaling_stays_in_policy v log base sent :
  sound elsewhere32 w sc ->
  ReadScaler w = Found sc -> pass = Done (v, log) -> TargetUpdated base sent ∈ log -> MdRoles sent <> MdRoles base ->
  exists vector, MdRoles sent = committed_roles vector (MdRoles base) /\
    ((exists cohort, StPendingCohort (ScStatus sc) = Some cohort /\ cohort_expired w sc cohort = true /\
        vector = CoBaseline cohort) \/
     (exists down retirement, aborted_scale_down sc base = Some (down, retirement) /\ vector = SdPreVector down) \/
     (currentVectorConflict (ScPolicy sc) (MdRoles base) (deploymentReplicaVector base) = "" /\
      currentVectorConflict (ScPolicy sc) (MdRoles base) vector = "")).
Proof.
  intros So Hr Hp Hin Hne.
  destruct (roles_written _ _ (update_justified _ _ _ _ Hr Hp Hin) Hne) as (sc' & vector & _ & _ & _ & Hc & ->).
  exists vector. split; [done|]. destruct Hc as [cohort ? ? ? ->|down retirement E1 E2 ? ? ? ? ->|? Hv]; [by left; exists cohort| |by right; right; auto].
  right; left. exists down, retirement. split; [|done]. unfold aborted_scale_down. rewrite E1, E2.
  rewrite !bool_decide_eq_true_2 by done. simpl. by rewrite (proj2 (Z.eqb_eq _ _)).
Qed.


Lemma bound_read term md :
  readScalerBinding (bound_to sc term md) = BindingOf {| BiScalerName := ScName sc; BiScalerUID := ScUID sc; BiTerm := term |}.
Proof.
  unfold readScalerBinding, annotation. simpl. rewrite lookup_insert_eq. simpl.
  rewrite bool_decide_eq_false_2 by apply binding_written. by rewrite binding_roundtrip.
Qed.

Lemma released_read md :
  readScalerBinding (released sc md) = if owned_by sc md then BindingAbsent else readScalerBinding md.
Proof.
  assert (forall m : gmap string string, (if ScDeleting sc && decided_by sc md then delete DecisionAnnotationKey m else m) !! BindingAnnotationKey
    = m !! BindingAnnotationKey) as Hm by (intros m; case_match; [apply lookup_delete_ne, keys_differ|done]).
  destruct (owned_by sc md) eqn:E.
  - unfold readScalerBinding, annotation, released. simpl. by rewrite E, Hm, lookup_delete_eq.
  - apply binding_kept. unfold released. simpl. by rewrite E, Hm.
Qed.

(** C10: a binding is not stolen.  A pass changes the binding only of a target that
    no scaler or this scaler is bound to; an unreadable binding stays.  What it
    writes is its own name with a term at least that of the binding before and
    that of its status, and greater than the latter when the binding was gone;
    what it removes is its own. *)
Theorem binding_is_respected v log base sent :
  ReadScaler w = Found sc -> pass = Done (v, log) -> TargetUpdated base sent ∈ log ->
  readScalerBinding sent <> readScalerBinding base ->
  match readScalerBinding sent with
  | BindingInvalid => False
  | BindingAbsent => owned_by sc base = true
  | BindingOf b =>
      acting sc /\ BiScalerUID b = ScUID sc /\ initialTerm <= BiTerm b /\
      (readScalerBinding base = BindingAbsent \/ owned_by sc base = true) /\
      (forall b', readScalerBinding base = BindingOf b' -> BiTerm b' <= BiTerm b) /\
      (forall s, StBinding (ScStatus sc) = Some s -> is_i64 (BsTerm s + 1) ->
         BsTerm s <= BiTerm b /\ (readScalerBinding base = BindingAbsent -> BsTerm s < BiTerm b))
  end.
Proof.
  intros Hr Hp Hin Hne. pose proof (update_justified _ _ _ _ Hr Hp Hin) as Hj.
  destruct Hj as [md term Ha Hb ->|md Ho Hv|sc' md vector _ _ _ _].
  - rewrite bound_read. split; [done|]. split; [done|]. simpl. unfold next_term, initialTerm.
    destruct (readScalerBinding md) as [| |b']; destruct (StBinding (ScStatus sc)) as [s|];
      (split; [lia|]); (split; [done|]); (split; [intros b'' E; simplify_eq; lia|]); intros s' [= ->] Hi; rewrite ?(i64_small _ Hi);
      (split; [lia|]); intros E; try discriminate; lia.
  - rewrite released_read in *. by destruct (owned_by sc md).
  - by rewrite committed_binding in Hne.
Qed.
End writes.

(** ** An interrupted commit *)

Lemma equal_vectors_refl v : equalReplicaVectors v v = true.
Proof.
  unfold equalReplicaVectors. rewrite bool_decide_eq_true_2 by done. apply forallb_forall. intros [name n] Hin.
  apply list_elem_of_In, elem_of_map_to_list in Hin. unfold count. simpl. rewrite Hin. apply Z.eqb_refl.
Qed.

Lemma committed_roles_names vector roles : RoName <$> committed_roles vector roles = RoName <$> roles.
Proof. unfold committed_roles. rewrite <- list_fmap_compose. apply list_fmap_ext. intros i role _. simpl. by case_match. Qed.

(** The counts written are the vector, when it names exactly the roles. *)
Lemma committed_vector vector md md' :
  distinct md -> (forall name, is_Some (vector !! name) <-> name ∈ RoName <$> MdRoles md) ->
  MdRoles md' = committed_roles vector (MdRoles md) -> deploymentReplicaVector md' = vector.
Proof.
  intros Hn Hv Hr. assert (distinct md') as Hn' by (unfold distinct; by rewrite Hr, committed_roles_names).
  destruct (replica_vector md' Hn') as [V1 V2]. rewrite Hr in V1, V2. rewrite committed_roles_names in V2.
  apply map_eq. intros name. destruct (decide (name ∈ RoName <$> MdRoles md)) as [Hin|Hno].
  - pose proof Hin as (role & -> & Hrole)%list_elem_of_fmap. destruct (proj2 (Hv _) Hin) as [n En]. rewrite En.
    apply (V1 (with_replicas n role)), list_elem_of_fmap. exists role. by rewrite En.
  - rewrite (V2 _ Hno). destruct (vector !! name) eqn:E; [|done]. destruct Hno. apply Hv. by eexists.
Qed.

Section recovery.
Context `{Codec : AnnotationCodec} {Laws : AnnotationCodecLaws} {H : Type} (w : world H).
Context (sc : Scaler) (md : Deployment) (vector baseline : gmap string Z).

(** The commit the next pass finds in the annotation. *)
Definition commit_found : CommitStatus :=
  {| CmDecisionID := decision_id sc (AtNow w); CmTerm := scalerTerm sc; CmVector := vector; CmBaseline := baseline;
     CmTimestamp := Some (AtNow w / 10 ^ 9 * 10 ^ 9); CmTargetGeneration := MdGeneration md + 1 |}.

(** C14: an interrupted commit is recovered.  Suppose a scaler that owns the target
    sends a vector naming exactly its roles, the API server stores it as the next
    generation, and the scaler stops before it writes its status.  The next pass,
    which has the status from before with the binding of the same term, recovers
    from the annotation the decision id, the term, the vector and the baseline, to
    the second.  Its target generation is the one the vector was stored as, while
    a pass that is not interrupted records one more than that. *)
Theorem interrupted_commit_recovers md' sc' name :
  owned_under sc md (scalerTerm sc) -> distinct md ->
  (forall name, is_Some (vector !! name) <-> name ∈ RoName <$> MdRoles md) ->
  0 <= MdGeneration md -> is_i64 (MdGeneration md + 2) ->
  MdUID md' = MdUID md -> MdUID md <> "" -> MdGeneration md' = MdGeneration md + 1 ->
  MdAnnotations md' = MdAnnotations (committed sc vector baseline (AtNow w) md) ->
  MdRoles md' = MdRoles (committed sc vector baseline (AtNow w) md) ->
  ScUID sc' = ScUID sc ->
  StBinding (ScStatus sc') = Some {| BsTargetUID := MdUID md; BsTargetName := name; BsTerm := scalerTerm sc |} ->
  (forall c, StLastCommit (ScStatus sc') = Some c -> CmDecisionID c <> decision_id sc (AtNow w)) ->
  recoverDecision md' sc' = set_last_commit (Some commit_found) sc' /\
  CmTargetGeneration (commit_status w sc md' (decision_id sc (AtNow w)) vector baseline) =
    CmTargetGeneration commit_found + 1.
Proof.
  intros (b & Hb & Hu & Ht) Hn Hv Hg Hi Huid Hne Hgen Han Hro Hsu Hsb Hlast.
  assert (readScalerBinding md' = BindingOf b) as Hb'.
  { rewrite <- Hb. rewrite <- (committed_binding sc vector baseline (AtNow w) md). apply binding_kept. by rewrite Han. }
  unfold is_i64 in Hi.
  assert (i64 (MdGeneration md + 1) = MdGeneration md + 1) as Eg by (apply i64_small; unfold is_i64; lia). split.
  - unfold recoverDecision. set (d := whole_seconds (decision_of sc md vector baseline (AtNow w))).
    assert (annotation md' DecisionAnnotationKey = encode_decision (decision_of sc md vector baseline (AtNow w))) as ->.
    { unfold annotation. rewrite Han. simpl. by rewrite lookup_insert_eq. }
    rewrite bool_decide_eq_false_2 by apply decision_written. rewrite decision_roundtrip. fold d.
    assert (decision_foreign sc' md' d = false) as ->.
    { unfold decision_foreign. rewrite Hb', Hsb. unfold d. simpl. rewrite Hsu, Hu, Ht, Huid.
      rewrite !bool_decide_eq_true_2, Z.eqb_refl by done. simpl. rewrite (bool_decide_eq_true_2 (MdUID md = MdUID md)) by done. by rewrite andb_false_r. }
    rewrite (committed_vector vector md md' Hn Hv Hro). unfold d at 1. simpl. rewrite equal_vectors_refl. simpl.
    assert (commit_matches (StLastCommit (ScStatus sc')) d = false) as ->.
    { unfold commit_matches. destruct (StLastCommit (ScStatus sc')) as [c|]; [|done]. unfold d. simpl.
      rewrite (bool_decide_eq_false_2 (CmDecisionID c = _)) by (by apply Hlast). by rewrite andb_false_r. }
    simpl. rewrite Hsb. simpl. rewrite bool_decide_eq_false_2 by done.
    unfold commit_found, recovered_commit, d. simpl. rewrite Eg. by rewrite (proj2 (Z.eqb_neq _ 0)) by lia.
  - simpl. rewrite Hgen. rewrite i64_small; [lia|unfold is_i64; lia].
Qed.
End recovery.

(** ** Moving a replica *)

Lemma role_named_spec roles name role : role_named roles name = Some role -> role ∈ roles /\ RoName role = name.
Proof.
  unfold role_named. assert (forall m : gmap string DeploymentRole, (forall n r, m !! n = Some r -> r ∈ roles /\ RoName r = n) ->
    forall l, (forall r, r ∈ l -> r ∈ roles) ->
    forall n r, foldl (fun m role => <[RoName role := role]> m) m l !! n = Some r -> r ∈ roles /\ RoName r = n) as Hl.
  { intros m Hm l. revert m Hm. induction l as [|x l IH]; intros m Hm Hsub n r; simpl; [by apply Hm|]. apply IH.
    - intros n' r' E. apply lookup_insert_Some in E as [[<- <-]|[_ E]]; [|by apply Hm]. split; [|done]. apply Hsub. left.
    - intros r' Hr'. apply Hsub. by right. }
  apply Hl; [|done]. intros n r E. by rewrite lookup_empty in E.
Qed.

Lemma after_first_not name l : NoDup l -> name ∉ after_first name l.
Proof.
  induction 1 as [|x l Hx _ IH]; simpl; [apply not_elem_of_nil|]. case_bool_decide as E; [by subst|done].
Qed.

Lemma candidate_other sc roles receiver policy donor :
  NoDup (ScPriority sc) -> donor ∈ rebalanceDonorCandidates sc roles receiver policy -> donor ∈ roles /\ RoName donor <> receiver.
Proof.
  intros Hn. unfold rebalanceDonorCandidates. case_bool_decide.
  - intros (name & Hin & E)%list_elem_of_omap. apply role_named_spec in E as [? <-]. split; [done|].
    intros E. rewrite E in Hin. by apply (after_first_not receiver _ Hn).
  - intros [? ?]%list_elem_of_filter. done.
Qed.

Section rebalance.
Context {H : Type}.

(** How a donation starts: the state names the donor and both targets, and both
    vectors stay in the policy. *)
Record donates (s s' : local) (state state' : RebalanceStatus) (current vector : gmap string Z) (donor receiver : DeploymentRole) : Prop := {
  donates_receiver : role_named (MdRoles (LMd s)) (RbReceiverRole state) = Some receiver;
  donates_donor : donor ∈ rebalanceDonorCandidates (LSc s) (MdRoles (LMd s)) (RoName receiver)
    (if bool_decide (ScRebalancePolicy (LSc s) = "") then PolicyOpposing else ScRebalancePolicy (LSc s));
  donates_above : Z.max 1 (count (scalerRoleMinimums (Roles (ScPolicy (LSc s)))) (RoName donor)) < count current (RoName donor);
  donates_type : RoInstanceType donor = RoInstanceType receiver /\ RoInstanceType donor <> "";
  donates_vector : vector = <[RoName donor := RbDonorTarget state']> current;
  donates_conforms : currentVectorConflict (ScPolicy (LSc s)) (MdRoles (LMd s)) vector = "" /\
    currentVectorConflict (ScPolicy (LSc s)) (MdRoles (LMd s)) (<[RoName receiver := RbReceiverTarget state']> vector) = "";
  donates_state : StRebalance (ScStatus (LSc s')) = Some state' /\ RbReason state' = RebalanceDonorRelease /\
    RbReceiverRole state' = RbReceiverRole state /\ RbReceiverRole state <> "" /\ RbDonorRole state' = RoName donor /\
    RbDonorTarget state' = i32 (count current (RoName donor) - 1) /\
    RbReceiverTarget state' = i32 (count current (RoName receiver) + 1) }.

Lemma try_donors_donates (w : world H) s s' state policy receiver current recommendations vector reason :
  policy = (if bool_decide (ScRebalancePolicy (LSc s) = "") then PolicyOpposing else ScRebalancePolicy (LSc s)) ->
  role_named (MdRoles (LMd s)) (RbReceiverRole state) = Some receiver -> RbReceiverRole state <> "" -> 
  try_donors w (LSc s) (LMd s) state policy receiver current recommendations s = Done (inr (vector, reason), s') ->
  vector <> current -> exists donor state', donates s s' state state' current vector donor receiver.
Proof.
  intros -> Hr Hne. unfold try_donors. destruct (list_find _ _) as [[i donor]|] eqn:E; [|by intros [= <- _ _]].
  apply list_find_Some in E as (Hl & Hm & _). apply list_elem_of_lookup_2 in Hl.
  destruct (negb _ || negb _) eqn:Ec; [by intros [= <- _ _]|]. intros [= <- _ <-] _.
  apply orb_false_iff in Ec as [C1%negb_false_iff%bool_decide_eq_true C2%negb_false_iff%bool_decide_eq_true].
  unfold may_donate in Hm. rewrite !andb_true_iff, !negb_true_iff, !bool_decide_eq_true, Z.leb_gt in Hm.
  destruct Hm as ((((Hm & _) & Ht1%bool_decide_eq_false) & Ht2) & _).
  exists donor. eexists. split; simpl; try done; [|exact eq_refl|exact (conj C1 C2)].
  clear -Hm. revert Hm. generalize (count (scalerRoleMinimums (Roles (ScPolicy (LSc s)))) (RoName donor)).
  intros n. destruct (n <=? 0) eqn:E; lia.
Qed.

Lemma rebalance_donates (w : world H) s s' state current target recommendations vector reason :
  StRebalance (ScStatus (LSc s)) = Some state -> RbReason state <> RebalanceDonorRelease ->
  planRebalance w current target recommendations true s = Done (inr (vector, reason), s') ->
  vector <> target -> vector <> current ->
  exists donor receiver state', donates s s' state state' current vector donor receiver.
Proof.
  intros Hs Hre Hp Ht Hc. revert Hp. unfold planRebalance, jbind at 1, get_sc at 1. cbn [outcome_bind].
  unfold jbind at 1, get_md at 1. cbn [outcome_bind]. rewrite Hs. cbn [negb orb].
  destruct (bool_decide (RbReceiverRole state = "")) eqn:Er; [by intros [= <- _ _]|]. apply bool_decide_eq_false in Er.
  destruct (rebalanceReceiverWantsScaleUp _ _ _ _); cbn [negb]; [|case_match; by intros [= <- _ _]].
  rewrite (bool_decide_eq_false_2 (RbReason state = _)) by done.
  destruct (bool_decide (RbReason state = RebalanceReceiverAcquire)); [repeat case_match; by intros [= <- _ _]|].
  destruct (bool_decide (is_Some (MdRetirement (LMd s)))); [by intros [= <- _ _]|]. cbv zeta.
  set (policy := if bool_decide (ScRebalancePolicy (LSc s) = "") then PolicyOpposing else ScRebalancePolicy (LSc s)).
  destruct (bool_decide (policy = PolicyDisabled)); [by intros [= <- _ _]|].
  destruct (_ && _ && _); [by intros [= <- _ _]|].
  destruct (role_named (MdRoles (LMd s)) (RbReceiverRole state)) as [receiver|] eqn:En; [|by intros [= <- _ _]].
  intros Hp. destruct (try_donors_donates _ _ _ _ policy _ _ _ _ _ eq_refl En Er Hp Hc) as (donor & state' & Hd). eauto.
Qed.

(** A replica moves in two steps.  Suppose a pass starts a donation, the donor
    shrinks, and a later pass finds no retirement, the same policy and a receiver
    that still wants to grow.  The donor is another role of the same instance type
    above its minimum, and it gives exactly one replica.  As long as the workload of
    that replica exists the counts stay; once it is gone the receiver gets exactly
    one, and the result is inside the policy: the second check never blocks what
    the first accepted. *)
Theorem rebalance_moves_one_replica (w1 w2 : world H) s1 s1' s2 state current target1 target2 recs1 recs2 vector reason :
  (forall name, 0 <= count current name < 2 ^ 31 - 1) -> NoDup (ScPriority (LSc s1)) ->
  StRebalance (ScStatus (LSc s1)) = Some state -> RbReason state <> RebalanceDonorRelease ->
  planRebalance w1 current target1 recs1 true s1 = Done (inr (vector, reason), s1') ->
  vector <> target1 -> vector <> current ->
  StRebalance (ScStatus (LSc s2)) = StRebalance (ScStatus (LSc s1')) -> ScPolicy (LSc s2) = ScPolicy (LSc s1) ->
  MdRoles (LMd s2) = committed_roles vector (MdRoles (LMd s1)) -> MdRetirement (LMd s2) = None ->
  exists donor receiver, donor ∈ MdRoles (LMd s1) /\ receiver ∈ MdRoles (LMd s1) /\
    RoName donor <> RoName receiver /\ RoName receiver = RbReceiverRole state /\
    RoInstanceType donor = RoInstanceType receiver /\
    count (scalerRoleMinimums (Roles (ScPolicy (LSc s1)))) (RoName donor) < count current (RoName donor) /\
    vector = <[RoName donor := count current (RoName donor) - 1]> current /\
    let moved := <[RoName receiver := count current (RoName receiver) + 1]> vector in
    currentVectorConflict (ScPolicy (LSc s2)) (MdRoles (LMd s2)) moved = "" /\
    (rebalanceReceiverWantsScaleUp (LSc s2) (default no_recommendation (recs2 !! RoName receiver)) (RoName receiver) vector = true ->
     match ReadDonor w2 (RoName donor) (count current (RoName donor) - 1) with
     | Found _ => planRebalance w2 vector target2 recs2 true s2 = Done (inr (vector, ""), s2)
     | ReadFailed => planRebalance w2 vector target2 recs2 true s2 = Done (inl Failed, s2)
     | NotFound => exists s2', planRebalance w2 vector target2 recs2 true s2 = Done (inr (moved, ""), s2')
     end).
Proof.
  intros Hr Hnd Hs Hre Hp Ht Hc Es Ep Em Eret.
  destruct (rebalance_donates _ _ _ _ _ _ _ _ _ Hs Hre Hp Ht Hc) as (donor & receiver & state' & D).
  destruct D as [D1 D2 D3 D4 D5 [_ D6] (S0 & S1 & S2 & S3 & S4 & S5 & S6)].
  destruct (candidate_other _ _ _ _ _ Hnd D2) as [Hdin Hdne]. apply role_named_spec in D1 as [Hrin Hrn].
  pose proof (Hr (RoName donor)). pose proof (Hr (RoName receiver)).
  rewrite i32_small in S5, S6 by (unfold is_i32; lia). rewrite S5 in D5. rewrite S6, <- Ep in D6.
  assert (currentVectorConflict (ScPolicy (LSc s2)) (MdRoles (LMd s2))
    (<[RoName receiver := count current (RoName receiver) + 1]> vector) = "") as D7.
  { rewrite <- D6. unfold currentVectorConflict. rewrite Em. unfold committed_roles. by rewrite length_fmap. }
  exists donor, receiver. destruct D4 as [D4 _]. repeat (split; [first [done|lia]|]).
  intros Hw. rewrite <- S2 in Hrn, S3.
  assert (planRebalance w2 vector target2 recs2 true s2 = finishRebalanceDonorRelease w2 state' vector s2) as ->.
  { unfold planRebalance, jbind at 1, get_sc at 1. cbn [outcome_bind]. unfold jbind at 1, get_md at 1. cbn [outcome_bind].
    rewrite Es, S0, <- Hrn, Hw, S1, (bool_decide_eq_false_2 (RoName receiver = "")) by (by rewrite Hrn). done. }
  assert (count vector (RoName donor) =? count current (RoName donor) - 1 = true) as Ec.
  { rewrite D5. unfold count. rewrite lookup_insert_eq. apply Z.eqb_refl. }
  unfold finishRebalanceDonorRelease. rewrite S4, S5, S6, <- Hrn, Ec.
  destruct (ReadDonor w2 _ _); unfold jbind, get_sc, get_md; cbn [outcome_bind]; rewrite Eret; [done| |done].
  rewrite D7. by eexists.
Qed.
End rebalance.

(** ** A scale-up nobody admits *)

Section deadline.
Context `{Codec : AnnotationCodec} {H : Type} `{HistoryH : DemandHistory H}.
Context (elsewhere32 elsewhere64 : float64 -> Z) (ranging : forall A, gmap string A -> list (string * A)).
Context (w : world H) (sc : Scaler) (md : Deployment) (cohort : CohortStatus).

(** What the pass must not lose before it looks at the cohort. *)
Definition kept (x : Scaler) : Prop :=
  ScUID x = ScUID sc /\ ScPendingTimeoutSeconds x = ScPendingTimeoutSeconds sc /\ scalerTerm x = CoTerm cohort /\
  StPendingCohort (ScStatus x) = Some cohort.
Definition waiting (s : local) : Prop := LMd s = md /\ kept (LSc s).

(** A step that goes on, and one whose log has the rollback. *)
Definition goes {A} (m : job A) (P : A -> Prop) : Prop :=
  forall s, waiting s -> exists a s', m s = Done (inr a, s') /\ waiting s' /\ P a.
Definition rolls_back {A} (m : job A) : Prop :=
  forall s, waiting s -> exists v s' sent, m s = Done (inl v, s') /\ TargetUpdated md sent ∈ LLog s' /\
    MdRoles sent = committed_roles (CoBaseline cohort) (MdRoles md).
(** A step that returns and only adds to the log, and one that also ends the pass. *)
Definition adds {A} (m : job A) : Prop := forall s, exists r s' l, m s = Done (r, s') /\ LLog s' = LLog s ++ l.
Definition ends {A} (m : job A) : Prop := forall s, exists v s' l, m s = Done (inl v, s') /\ LLog s' = LLog s ++ l.

Lemma goes_bind {A B} (m : job A) P (k : A -> job B) Q :
  goes m P -> (forall a, P a -> goes (k a) Q) -> goes (jbind m k) Q.
Proof. intros Hm Hk s Hs. destruct (Hm s Hs) as (a & s' & E & Hs' & Ha). unfold jbind. rewrite E. by apply Hk. Qed.

Lemma rolls_bind {A B} (m : job A) P (k : A -> job B) :
  goes m P -> (forall a, P a -> rolls_back (k a)) -> rolls_back (jbind m k).
Proof. intros Hm Hk s Hs. destruct (Hm s Hs) as (a & s' & E & Hs' & Ha). unfold jbind. rewrite E. by apply (Hk a Ha). Qed.

Lemma rolls_first {A B} (m : job A) (k : A -> job B) : rolls_back m -> rolls_back (jbind m k).
Proof. intros Hm s Hs. destruct (Hm s Hs) as (v & s' & sent & E & ?). unfold jbind. rewrite E. by exists v, s', sent. Qed.

Lemma goes_ret {A} (a : A) : goes (jret a) (eq a).
Proof. intros s Hs. by exists a, s. Qed.
Lemma goes_any {A} (m : job A) P : goes m P -> goes m (fun _ => True).
Proof. intros Hm s Hs. destruct (Hm s Hs) as (a & s' & ? & ? & _). by exists a, s'. Qed.
Lemma goes_get_sc : goes get_sc kept.
Proof. intros s Hs. exists (LSc s), s. split; [done|]. split; [done|]. apply Hs. Qed.
Lemma goes_get_md : goes get_md (eq md).
Proof. intros s Hs. exists (LMd s), s. split; [done|]. split; [done|]. by destruct Hs. Qed.
Lemma goes_change f : (forall x, kept x -> kept (f x)) -> goes (change f) (fun _ => True).
Proof. intros Hf s [E Hs]. eexists tt, _. split; [done|]. split; [split; [done|by apply Hf]|done]. Qed.
Lemma goes_put x : kept x -> goes (put_sc x) (fun _ => True).
Proof. intros Hx s [E Hs]. by eexists tt, _. Qed.
Lemma goes_emit e : goes (emit e) (fun _ => True).
Proof. intros s [E Hs]. by eexists tt, _. Qed.
Lemma goes_cond type status reason message : goes (set_cond w type status reason message) (fun _ => True).
Proof. apply goes_change. by intros x Hx. Qed.

Lemma adds_bind {A B} (m : job A) (k : A -> job B) : adds m -> (forall a, adds (k a)) -> adds (jbind m k).
Proof.
  intros Hm Hk s. destruct (Hm s) as ([v|a] & s' & l & E & El); unfold jbind; rewrite E; simpl; [by exists (inl v), s', l|].
  destruct (Hk a s') as (r & s2 & l2 & E2 & El2). exists r, s2, (l ++ l2). by rewrite El2, El, app_assoc.
Qed.
Lemma adds_none {A} (m : job A) : (forall s, exists r s', m s = Done (r, s') /\ LLog s' = LLog s) -> adds m.
Proof. intros Hm s. destruct (Hm s) as (r & s' & E & El). exists r, s', []. by rewrite app_nil_r. Qed.
Lemma adds_emit e : adds (emit e).
Proof. intros s. by eexists _, _, [e]. Qed.

Lemma ends_bind {A B} (m : job A) (k : A -> job B) : adds m -> (forall a, ends (k a)) -> ends (jbind m k).
Proof.
  intros Hm Hk s. destruct (Hm s) as ([v|a] & s' & l & E & El); unfold jbind; rewrite E; simpl; [by exists v, s', l|].
  destruct (Hk a s') as (v & s2 & l2 & E2 & El2). exists v, s2, (l ++ l2). by rewrite El2, El, app_assoc.
Qed.
Lemma ends_leave {A} v : ends (leave v : job A).
Proof. intros s. exists v, s, []. by rewrite app_nil_r. Qed.

Ltac adds_step :=
  repeat first [ apply adds_bind; [|intros ?] | apply adds_emit | (apply adds_none; intros ?; by eexists _, _) | case_match ].

Lemma ends_finish {A} before resolved every' : ends (finish (A := A) w before resolved every').
Proof.
  unfold finish. apply ends_bind; [unfold try_update_status; adds_step|]. intros written. repeat case_match; apply ends_leave.
Qed.

Lemma goes_clear : goes clearCapacityPriorState (fun _ => True).
Proof.
  unfold clearCapacityPriorState. eapply goes_bind; [apply goes_get_sc|]. intros x Hx. case_match; [eapply goes_any, goes_ret|].
  eapply goes_bind; [by apply goes_put|]. intros [] _. apply goes_emit.
Qed.

Lemma goes_apply resolved : goes (applyCapacityPriorResolution w resolved) (fun _ => True).
Proof.
  unfold applyCapacityPriorResolution. destruct resolved as [e|priors].
  - eapply goes_bind; [apply goes_clear|]. intros [] _. eapply goes_bind; [apply goes_cond|]. intros [] _. apply goes_cond.
  - eapply goes_bind; [apply goes_get_sc|]. intros x _. eapply goes_bind.
    { instantiate (1 := fun _ => True). case_match; [eapply goes_any, goes_ret|apply goes_clear]. }
    intros [] _. eapply goes_bind; [by apply goes_change|]. intros [] _. eapply goes_bind; [apply goes_get_sc|]. intros x' _.
    repeat case_match; first [apply goes_cond|eapply goes_any, goes_ret].
Qed.

Context (Hexpired : cohort_expired w sc cohort = true).
Context (Howned : exists b, readScalerBinding md = BindingOf b /\ BiScalerUID b = ScUID sc /\ BiTerm b = CoTerm cohort).

Lemma goes_owned before every' : goes (owned_or_leave w before every') (fun _ => True).
Proof.
  unfold owned_or_leave. eapply goes_bind with (P := eq true); [|intros ? <-; eapply goes_any, goes_ret].
  unfold ensureOwnedBinding. eapply goes_bind; [apply goes_get_sc|]. intros x (Hu & _ & Ht & _).
  eapply goes_bind; [apply goes_get_md|]. intros ? <-. destruct Howned as (b & -> & Eu & Et).
  rewrite bool_decide_eq_true_2 by congruence. rewrite (proj2 (Z.eqb_eq _ _)) by congruence. apply goes_ret.
Qed.

Lemma exhaustion_kept admitted x : kept x -> kept (recordRebalanceExhaustion cohort admitted x).
Proof. unfold recordRebalanceExhaustion. by case_match. Qed.

Lemma rolls_write {A} current (k : string -> job A) :
  (forall id, ends (k id)) -> rolls_back (jbind (writeVector w (CoBaseline cohort) current) k).
Proof.
  intros Hk s [Em _]. set (sent := committed (LSc s) (CoBaseline cohort) current (AtNow w) md).
  assert (writeVector w (CoBaseline cohort) current s =
    Done (match UpdateTarget w sent with
          | Some md' => (inr (decision_id (LSc s) (AtNow w)), {| LSc := LSc s; LMd := md'; LLog := LLog s ++ [TargetUpdated md sent] |})
          | None => (inl Failed, {| LSc := LSc s; LMd := LMd s; LLog := LLog s ++ [TargetUpdated md sent] |})
          end)) as E.
  { unfold writeVector, update_target, jbind, get_sc, get_md, emit. simpl. rewrite Em. fold sent. by destruct (UpdateTarget w sent). }
  unfold jbind. rewrite E. destruct (UpdateTarget w sent) as [md'|]; simpl.
  - destruct (Hk (decision_id (LSc s) (AtNow w)) {| LSc := LSc s; LMd := md'; LLog := LLog s ++ [TargetUpdated md sent] |})
      as (v & s' & l & -> & El). exists v, s', sent. split; [done|]. rewrite El. simpl. split; [|done]. set_solver.
  - eexists _, _, sent. split; [done|]. simpl. split; [|done]. set_solver.
Qed.

Lemma retract_rolls_back {A} before resolved admitted current every' :
  rolls_back (retract (A := A) w before resolved cohort admitted current every').
Proof.
  unfold retract. eapply rolls_bind; [apply goes_owned|]. intros [] _.
  eapply rolls_bind; [apply goes_change, exhaustion_kept|]. intros [] _. apply rolls_write. intros id. unfold record_commit, set_cond.
  do 5 (apply ends_bind; [adds_step|intros []]). apply ends_finish.
Qed.

Lemma reset_kept x : kept x -> kept (resetRebalanceForGenerationChange md x).
Proof. unfold resetRebalanceForGenerationChange. by repeat case_match. Qed.

Lemma plan_rolls_back before preResolved pods workloads :
  ReadPods w = Some pods -> ReadWorkloads w = Some workloads ->
  addedOrdinalsAdmitted cohort (foldl (execution_step pods) (∅, ∅) (if bool_decide (pods = []) then [] else workloads)).2 = false ->
  rolls_back (planWithPriors elsewhere32 elsewhere64 ranging w before preResolved true).
Proof.
  intros Hp Hw Ha. unfold planWithPriors. eapply rolls_bind; [apply goes_get_sc|]. intros x Hx.
  eapply rolls_bind; [apply goes_get_md|]. intros ? <-. eapply rolls_bind; [apply goes_apply|]. intros [] _.
  eapply rolls_bind with (P := fun e => addedOrdinalsAdmitted cohort e.2 = false).
  { unfold executionState. rewrite Hp, Hw. intros s Hs. destruct pods; (eexists _, s; split; [done|]; split; [done|]); exact Ha. }
  intros execution He. eapply rolls_bind; [apply goes_change, reset_kept|]. intros [] _. apply rolls_first.
  unfold settle_cohort. eapply rolls_bind; [apply goes_get_sc|]. intros y (_ & Ht & Htm & ->). rewrite Htm, Z.eqb_refl, He.
  assert (cohort_expired w y cohort = true) as -> by (unfold cohort_expired, pendingTimeout in *; by rewrite Ht).
  apply retract_rolls_back.
Qed.

Lemma recover_kept x : is_Some (StBinding (ScStatus x)) -> kept x -> kept (recoverDecision md x).
Proof.
  intros [b Hb] Hk. unfold recoverDecision. case_match; [done|]. destruct (decode_decision _) as [d|]; [|done].
  destruct (decision_foreign x md d) eqn:Ef; [done|]. destruct (negb _); [done|]. cbv zeta.
  assert (DeTerm d = BsTerm b) as Ed.
  { unfold decision_foreign in Ef. rewrite Hb, !orb_false_iff, !negb_false_iff, Z.eqb_eq in Ef. tauto. }
  set (y := if commit_matches _ _ then x else _).
  assert (StBinding (ScStatus y) = Some b /\ kept y) as [Hy Hky] by (unfold y; by case_match). rewrite Hy.
  case_match; [|done]. destruct Hky as (? & ? & Ht & ?). repeat split; try done. unfold scalerTerm in *. simpl. rewrite Hy in Ht. congruence.
Qed.

Context (status : BindingStatus) (pods : list PodRef) (workloads : list Workload).

(** C12: a scale-up nobody admits is rolled back.  Let an active scaler own its
    target, with a pending cohort of its term that is past its deadline and has an
    added ordinal no admitted workload backs.  The next pass returns and sends the
    target with the counts of the cohort's baseline, whether or not the capacity
    priors resolve and whatever the metrics say. *)
Theorem expired_cohort_rolled_back :
  ReadScaler w = Found sc -> acting sc -> FinalizerKey ∈ ScFinalizers sc -> ReadTarget w = Found md ->
  StBinding (ScStatus sc) = Some status -> BsTargetUID status = MdUID md -> BsTerm status = CoTerm cohort ->
  initialTerm <= CoTerm cohort -> StPendingCohort (ScStatus sc) = Some cohort ->
  ReadPods w = Some pods -> ReadWorkloads w = Some workloads ->
  addedOrdinalsAdmitted cohort (foldl (execution_step pods) (∅, ∅) (if bool_decide (pods = []) then [] else workloads)).2 = false ->
  exists v log sent, Reconcile elsewhere32 elsewhere64 ranging w = Done (v, log) /\ TargetUpdated md sent ∈ log /\
    MdRoles sent = committed_roles (CoBaseline cohort) (MdRoles md).
Proof.
  intros Hr (Hd & Hsu & Hm1 & Hm2) Hf Ht Hb Hu Hterm Hi Hc Hp Hw Ha. unfold Reconcile. rewrite Hr.
  assert (kept sc) as Hk by (repeat split; [unfold scalerTerm; by rewrite Hb|done]).
  assert (rolls_back (drive elsewhere32 elsewhere64 ranging w (CoTerm cohort) None)) as Hdrive.
  { unfold drive. eapply rolls_bind; [apply goes_get_sc|]. intros x Hx. eapply rolls_bind; [apply goes_get_md|]. intros ? <-.
    apply (rolls_bind (change (fun x => recoverDecision md (set_binding
      (Some {| BsTargetUID := MdUID md; BsTargetName := MdName md; BsTerm := CoTerm cohort |}) x))) (fun _ => True)).
    - apply goes_change. intros y (? & ? & ? & ?). apply recover_kept; [done|]. by repeat split.
    - intros [] _. do 2 (eapply rolls_bind; [apply goes_cond|intros [] _]). by apply (plan_rolls_back _ _ pods workloads). }
  destruct (Hdrive {| LSc := sc; LMd := md; LLog := [] |}) as (v & s' & sent & E & Hin & Hro); [by split|].
  exists v, (LLog s'), sent. split; [|done].
  assert (reconcile_scaler elsewhere32 elsewhere64 ranging w {| LSc := sc; LMd := no_target_yet; LLog := [] |} =
    drive elsewhere32 elsewhere64 ranging w (CoTerm cohort) None {| LSc := sc; LMd := md; LLog := [] |}) as ->; [|by rewrite E].
  destruct Howned as (b & Hrb & Hbu & Hbt).
  unfold reconcile_scaler, replaced_target, reconcile_active, acquire, jbind, get_sc, get_md, put_md. cbn [outcome_bind LSc LMd LLog].
  rewrite Hd, Ht, (bool_decide_eq_true_2 (FinalizerKey ∈ _)) by done. cbn [negb outcome_bind LSc LMd LLog].
  rewrite Hb, Hu, (bool_decide_eq_true_2 (MdUID md = MdUID md)) by done. rewrite andb_false_r. cbn [negb outcome_bind LSc LMd LLog jret].
  rewrite (bool_decide_eq_false_2 (ScMode sc = _)), (bool_decide_eq_false_2 (ScMode sc = _)) by done.
  rewrite Hsu. cbn [orb outcome_bind LSc LMd LLog]. rewrite Hrb. cbv beta iota zeta.
  assert (next_term sc (BindingOf b) = CoTerm cohort) as -> by (simpl; rewrite Hb; lia).
  rewrite Hbu, (bool_decide_eq_true_2 (ScUID sc = ScUID sc)) by done. cbn [negb outcome_bind LSc LMd LLog].
  rewrite Hrb, Hbu, Hbt, Z.eqb_refl, (bool_decide_eq_true_2 (ScUID sc = ScUID sc)) by done. done.
Qed.

End deadline.

(** ** A concrete controller *)

Module ControlExample.
(** A codec of annotations: the bits of a countable type. *)
Fixpoint show (p : BinNums.positive) : string :=
  match p with xH => "." | xO p => String "0"%char (show p) | xI p => String "1"%char (show p) end.
Fixpoint read (s : string) : option BinNums.positive :=
  match s with
  | String c s => if bool_decide (c = "."%char) then Some xH
                  else if bool_decide (c = "0"%char) then xO <$> read s else xI <$> read s
  | EmptyString => None
  end.

Lemma read_show p : read (show p) = Some p.
Proof. induction p as [p IH|p IH|]; simpl; [by rewrite IH..|done]. Qed.
Lemma show_written p : show p <> "".
Proof. by destruct p. Qed.

#[local] Instance ScalerBinding_eq_dec : EqDecision ScalerBinding.
Proof. solve_decision. Defined.
#[local] Instance Decision_eq_dec : EqDecision ScalerObjects.Decision.
Proof. solve_decision. Defined.
#[local] Instance ScalerBinding_countable : Countable ScalerBinding.
Proof.
  refine (inj_countable' (fun b => (BiScalerName b, BiScalerUID b, BiTerm b))
    (fun '(n, u, t) => {| BiScalerName := n; BiScalerUID := u; BiTerm := t |}) _). by intros [].
Defined.
#[local] Instance Decision_countable : Countable ScalerObjects.Decision.
Proof.
  refine (inj_countable' (fun d => (DeScalerUID d, DeDecisionID d, DeTerm d, DeVector d, DeBaseline d, DeTimestamp d, DeTargetGeneration d))
    (fun '(u, i, t, v, b, at', g) => {| DeScalerUID := u; DeDecisionID := i; DeTerm := t; DeVector := v; DeBaseline := b;
       DeTimestamp := at'; DeTargetGeneration := g |}) _). by intros [].
Defined.

#[local] Instance bits : AnnotationCodec := {
  encode_binding b := show (encode b);
  decode_binding s := p ← read s; decode p;
  encode_decision d := show (encode (whole_seconds d));
  decode_decision s := p ← read s; decode p }.
#[local] Instance bits_laws : AnnotationCodecLaws.
Proof.
  split; simpl; intros; rewrite ?read_show; simpl; [apply decode_encode|apply show_written|apply decode_encode|apply show_written].
Defined.

(** One role of two replicas, each asked to run ten requests. *)
Definition server (n : Z) : DeploymentRole :=
  {| RoName := "server"; RoKind := "Server"; RoReplicas := n; RoCommand := []; RoElasticEP := false; RoInstanceType := "gpu" |}.
Definition target_with (binding : option string) (n : Z) : Deployment :=
  {| MdNamespace := "ns"; MdName := "m"; MdUID := "target"; MdGeneration := 4; MdResourceVersion := "17";
     MdAnnotations := match binding with Some b => {[BindingAnnotationKey := b]} | None => ∅ end;
     MdRoles := [server n]; MdRetirement := None |}.
Definition own : string := encode_binding {| BiScalerName := "s"; BiScalerUID := "scaler"; BiTerm := 3 |}.

Definition running : AlgorithmSpec :=
  {| AlType := AlgorithmProportional;
     AlProportional := Some {| PsMetric := "RunningRequests"; PsRoleTargets := [("server", {| QValue := 10; QExponent := 0 |})];
                               PsTolerance := None |};
     AlTokenThroughput := None; AlPredictive := None; AlCapacityPrior := false |}.
Definition status (cohort : option CohortStatus) : ScalerStatus :=
  {| StObservedGeneration := 1; StBinding := Some {| BsTargetUID := "target"; BsTargetName := "m"; BsTerm := 3 |};
     StRoles := []; StLastCommit := None; StPendingCohort := cohort; StRebalance := None; StLastScaleDown := None;
     StPredictors := []; StConditions := []; StPriors := []; StLatencyQuantile := "" |}.
Definition scaler (cohort : option CohortStatus) : Scaler :=
  {| ScNamespace := "ns"; ScName := "s"; ScUID := "scaler"; ScGeneration := 1; ScDeleting := false;
     ScFinalizers := [FinalizerKey]; ScTargetName := "m"; ScMode := ModeActive; ScSuspend := false;
     ScIntervalSeconds := 15; ScPendingTimeoutSeconds := 300; ScPolicy := SolverExample.policy ["server"] [];
     ScAlgorithm := running; ScRebalancePolicy := ""; ScPriority := []; ScStatus := status cohort |}.

(** Sixty requests run, so six replicas are wanted. *)
Definition busy : RoleObservation :=
  {| Role := "server"; Kind := RoleKindServer; CurrentReplicas := 2; ReadyReplicas := 2; PromptTokensPerSecond := fzero;
     GenerationTokensPerSecond := fzero; RunningRequests := to_float 60; WaitingRequests := fzero; KVCacheUsage := fzero;
     TTFTMilliseconds := fzero; ITLMilliseconds := fzero; TTFTUnmeasured := false; ITLUnmeasured := false;
     ThroughputState := SignalFresh; LatencyState := SignalFresh; GaugeState := SignalFresh; CompleteCoverage := true;
     ObservedAt := 1000 * second |}.

Definition api (md : Deployment) (cohort : option CohortStatus) : world (ring DemandSample) :=
  {| AtNow := 1000 * second; ReadScaler := Found (scaler cohort); ReadTarget := Found md;
     ReadBoundTarget := Found (target_with (Some own) 2);
     Resolve := fun _ _ _ => inr {| PAlgorithms := {["server" := running]}; PStatus := [] |};
     ReadPods := Some []; ReadWorkloads := Some []; Observations := {["server" := busy]}; SampleReasons := fun _ => [];
     HistoryOf := fun _ => []; PredictorOf := fun _ => None; UpdateTarget := fun _ => Some (target_with (Some own) 6);
     UpdateStatus := Some; UpdateScaler := fun _ => true; ReadDonor := fun _ _ => NotFound;
     LatestScaler := ReadFailed; LatestTarget := ReadFailed; Quantile := fun _ => Some "" |}.

Definition run (w : world (ring DemandSample)) : outcome (answer * list event) :=
  Reconcile SolverExample.lowest SolverExample.lowest SolverExample.in_map_order w.
Definition log_of (o : outcome (answer * list event)) : list event := match o with Done (_, l) => l | _ => [] end.
Definition answer_of (o : outcome (answer * list event)) : answer := match o with Done (v, _) => v | _ => Failed end.
Definition updates (l : list event) : list (Deployment * Deployment) :=
  omap (fun e => match e with TargetUpdated base sent => Some (base, sent) | _ => None end) l.

Lemma updates_in l base sent : (base, sent) ∈ updates l -> TargetUpdated base sent ∈ l.
Proof. unfold updates. intros (e & Hin & E)%list_elem_of_omap. destruct e; naive_solver. Qed.

Definition bound : Deployment := target_with (Some own) 2.
Definition scaled : Deployment :=
  committed (scaler None) {["server" := 6]} {["server" := 2]} (1000 * second) bound.

Lemma api_sound : sound SolverExample.lowest (api bound None) (scaler None).
Proof.
  assert (forall b n, distinct (target_with b n)) as Hd by (intros; apply NoDup_singleton). split.
  - by vm_compute.
  - done.
  - exact SolverExample.lowest_platform.
  - intros md [[= <-]|[= <-]]; apply Hd.
  - intros sent md [= <-]. apply Hd.
  - intros name. by exists 1000, [].
Defined.

Lemma scaling_is_fenced_witness : exists b, readScalerBinding bound = BindingOf b /\ BiScalerUID b = "scaler".
Proof.
  destruct (scaling_is_fenced SolverExample.lowest SolverExample.lowest SolverExample.in_map_order (api bound None) (scaler None)
    (answer_of (run (api bound None))) (log_of (run (api bound None))) bound scaled) as (_ & b & d & Hb & Hu & _).
  - done.
  - vm_compute. reflexivity.
  - apply updates_in. vm_compute. left.
  - discriminate.
  - by exists b.
Defined.

Lemma scaling_stays_in_policy_witness : exists vector, MdRoles scaled = committed_roles vector (MdRoles bound).
Proof.
  destruct (scaling_stays_in_policy SolverExample.lowest SolverExample.lowest SolverExample.in_map_order (api bound None) (scaler None)
    (answer_of (run (api bound None))) (log_of (run (api bound None))) bound scaled) as (vector & E & _).
  - exact api_sound.
  - done.
  - vm_compute. reflexivity.
  - apply updates_in. vm_compute. left.
  - discriminate.
  - by exists vector.
Defined.


(** A target nobody is bound to is taken under the next term. *)
Definition free : Deployment := target_with None 2.
Definition taken : Deployment := bound_to (scaler None) 4 free.

Lemma binding_is_respected_witness :
  match readScalerBinding taken with
  | BindingOf b => BiScalerUID b = "scaler" /\ 3 < BiTerm b
  | _ => False
  end.
Proof.
  pose proof (binding_is_respected SolverExample.lowest SolverExample.lowest SolverExample.in_map_order (api free None) (scaler None)
    (answer_of (run (api free None))) (log_of (run (api free None))) free taken) as Hb.
  unfold taken in *. rewrite bound_read in *. cbv iota in *. destruct Hb as (_ & Hu & _ & _ & _ & Ht).
  - done.
  - vm_compute. reflexivity.
  - apply updates_in. vm_compute. left.
  - discriminate.
  - split; [exact Hu|]. by apply (Ht {| BsTargetUID := "target"; BsTargetName := "m"; BsTerm := 3 |}).
Defined.

(** What the API server stored after the write. *)
Definition stored : Deployment :=
  {| MdNamespace := "ns"; MdName := "m"; MdUID := "target"; MdGeneration := 5; MdResourceVersion := "18";
     MdAnnotations := MdAnnotations scaled; MdRoles := MdRoles scaled; MdRetirement := None |}.

Lemma interrupted_commit_recovers_witness :
  StLastCommit (ScStatus (recoverDecision stored (scaler None))) =
  Some (commit_found (api bound None) (scaler None) bound {["server" := 6]} {["server" := 2]}).
Proof.
  destruct (interrupted_commit_recovers (api bound None) (scaler None) bound {["server" := 6]} {["server" := 2]}
    stored (scaler None) "m") as [-> _]; try done.
  - exists {| BiScalerName := "s"; BiScalerUID := "scaler"; BiTerm := 3 |}. by vm_compute.
  - apply NoDup_singleton.
  - intros name. change (RoName <$> MdRoles bound) with ["server"]. rewrite list_elem_of_singleton. destruct (decide (name = "server")) as [->|Hne].
    { split; [done|]. intros _. vm_compute. by eexists. }
    rewrite lookup_singleton_ne by done. split; [by intros [? ?]|done].
Defined.

(** A cohort of six replicas of which none was admitted for five minutes. *)
Definition stuck : CohortStatus :=
  {| CoDecisionID := "d"; CoTerm := 3; CoBaseline := {["server" := 1]}; CoTarget := {["server" := 2]};
     CoStartedAt := Some (600 * second) |}.

Lemma expired_cohort_rolled_back_witness : exists v log sent,
  run (api bound (Some stuck)) = Done (v, log) /\ TargetUpdated bound sent ∈ log /\ MdRoles sent = [server 1].
Proof.
  unfold run. apply (expired_cohort_rolled_back SolverExample.lowest SolverExample.lowest SolverExample.in_map_order (api bound (Some stuck))
    (scaler (Some stuck)) bound stuck) with (status := {| BsTargetUID := "target"; BsTargetName := "m"; BsTerm := 3 |})
    (pods := []) (workloads := []); try done.
  - exists {| BiScalerName := "s"; BiScalerUID := "scaler"; BiTerm := 3 |}. by vm_compute.
  - left.
Defined.

(** Two roles on the same instance type; decode ran out of quota. *)
Definition role (name : string) (n : Z) : DeploymentRole :=
  {| RoName := name; RoKind := ""; RoReplicas := n; RoCommand := []; RoElasticEP := false; RoInstanceType := "gpu" |}.
Definition exhausted : RebalanceStatus :=
  {| RbReceiverRole := "decode"; RbDonorRole := ""; RbDonorTarget := 0; RbReceiverTarget := 3; RbStartedAt := None;
     RbEpisode := 1; RbDonationAttempted := false; RbReason := ReasonResourceExhausted |}.
Definition shared (rebalance : option RebalanceStatus) : Scaler :=
  set_rebalance rebalance
    {| ScNamespace := "ns"; ScName := "s"; ScUID := "scaler"; ScGeneration := 1; ScDeleting := false;
       ScFinalizers := [FinalizerKey]; ScTargetName := "m"; ScMode := ModeActive; ScSuspend := false;
       ScIntervalSeconds := 15; ScPendingTimeoutSeconds := 300; ScPolicy := SolverExample.policy ["decode"; "prefill"] [];
       ScAlgorithm := running; ScRebalancePolicy := PolicyPriority; ScPriority := ["decode"; "prefill"];
       ScStatus := status None |}.
Definition pool (prefill decode : Z) : Deployment := with_roles [role "decode" decode; role "prefill" prefill] bound.
Definition at_pool (rebalance : option RebalanceStatus) (prefill decode : Z) : local :=
  {| LSc := shared rebalance; LMd := pool prefill decode; LLog := [] |}.
Definition wanting (n : Z) : gmap string RoleRecommendation :=
  {["decode" := {| DesiredReplicas := n; Reason := ""; HoldScaleDown := false; InPanic := false |}]}.
Definition counts (prefill decode : Z) : gmap string Z := <["prefill" := prefill]> {["decode" := decode]}.

(** The state after the first step. *)
Definition releasing : option RebalanceStatus :=
  match planRebalance (api bound None) (counts 2 2) (counts 2 3) (wanting 3) true (at_pool (Some exhausted) 2 2) with
  | Done (_, s) => StRebalance (ScStatus (LSc s))
  | _ => None
  end.

Lemma counts_range name : 0 <= count (counts 2 2) name < 2 ^ 31 - 1.
Proof.
  unfold counts, count. destruct (decide (name = "prefill")) as [->|]; [by vm_compute|]. rewrite lookup_insert_ne by done.
  destruct (decide (name = "decode")) as [->|]; [by vm_compute|]. by rewrite lookup_singleton_ne.
Qed.

Lemma rebalance_moves_one_replica_witness : exists s',
  planRebalance (api bound None) (counts 1 2) (counts 1 3) (wanting 3) true (at_pool releasing 1 2) =
    Done (inr (counts 1 3, ""), s').
Proof.
  destruct (rebalance_moves_one_replica (api bound None) (api bound None) (at_pool (Some exhausted) 2 2)
    {| LSc := shared releasing; LMd := pool 2 2; LLog := [] |} (at_pool releasing 1 2) exhausted
    (counts 2 2) (counts 2 3) (counts 1 3) (wanting 3) (wanting 3) (counts 1 2) "")
    as (donor & receiver & Hd & Hr & Hne & Hn & _ & _ & Hv & _ & Hgo); try done.
  - exact counts_range.
  - by apply (bool_decide_unpack _).
  - assert (RoName donor = "prefill") as En.
    { apply elem_of_cons in Hd as [->|[->|[]%elem_of_nil]%elem_of_cons]; [by rewrite Hn in Hne|done]. }
    rewrite En, Hn in Hgo. destruct Hgo as [s' Hs']; [by vm_compute|]. exists s'. rewrite Hs'. by vm_compute.
Defined.
End ControlExample.
