(* ===== verification/Names.v ===== *)
(** * Product names as label values

    [NormalizeName], [NormalizeVersion], [RuntimeMajor] and [ConstructGroupID] of
    src/pkg/device/helper.go, on lists of runes.  The theorems say that a
    normalized name is always a usable Kubernetes label value, and that such
    values are left alone.  The formatting of memory sizes goes through a
    Kubernetes quantity and is a parameter. *)

From stdpp Require Import prelude list strings.
From S2P Require Import Prelude.

Abbreviation rune := Z.
Abbreviation text := (list Z).

(** The runes of an ASCII literal. *)
Definition runes (s : string) : text :=
  (fun c => Z.of_nat (Ascii.nat_of_ascii c)) <$> String.list_ascii_of_string s.

(** Bytes of the UTF-8 encoding: [len] of a string. *)
Definition utf8_len (r : rune) : Z :=
  if r <? 128 then 1 else if r <? 2048 then 2 else if r <? 65536 then 3 else 4.
Definition byte_len (t : text) : Z := foldr (fun r n => utf8_len r + n) 0 t.

Definition is_upper (r : rune) : bool := (65 <=? r) && (r <=? 90).
Definition is_lower (r : rune) : bool := (97 <=? r) && (r <=? 122).
Definition is_digit (r : rune) : bool := (48 <=? r) && (r <=? 57).
Definition is_sep (r : rune) : bool := (r =? 45) || (r =? 95) || (r =? 46).

(** Simple case folding onto ASCII: the runes whose fold is an ASCII letter are
    the letters themselves, the long s and the Kelvin sign. *)
Definition fold (r : rune) : rune :=
  if is_upper r then r + 32 else if r =? 383 then 115 else if r =? 8490 then 107 else r.
Definition equal_fold (a b : text) : bool := bool_decide (fold <$> a = fold <$> b).

(** [unicode.IsSpace]. *)
Definition is_space (r : rune) : bool :=
  ((9 <=? r) && (r <=? 13)) || (r =? 32) || (r =? 133) || (r =? 160) || (r =? 5760)
  || ((8192 <=? r) && (r <=? 8202)) || (r =? 8232) || (r =? 8233) || (r =? 8239) || (r =? 8287)
  || (r =? 12288).

Fixpoint drop_space (t : text) : text :=
  match t with r :: t' => if is_space r then drop_space t' else t | [] => [] end.
Definition trim_space (t : text) : text := reverse (drop_space (reverse (drop_space t))).

(** [strings.CutPrefix]; [None] when it is not a prefix. *)
Fixpoint strip (p t : text) : option text :=
  match p, t with
  | [], _ => Some t
  | x :: p, y :: t => if x =? y then strip p t else None
  | _ :: _, [] => None
  end.

Definition trim_suffix (t suffix : text) : text :=
  match strip (reverse suffix) (reverse t) with Some r => reverse r | None => t end.

(** [before, _, _ := strings.Cut(t, sep)]. *)
Fixpoint cut_before (sep t : text) : text :=
  match strip sep t with
  | Some _ => []
  | None => match t with [] => [] | r :: t => r :: cut_before sep t end
  end.

(** [strings.NewReplacer] with empty replacements: leftmost, first listed. *)
Fixpoint first_match (olds : list text) (t : text) : option text :=
  match olds with
  | [] => None
  | old :: olds => match strip old t with Some rest => Some rest | None => first_match olds t end
  end.
Fixpoint replace_all (fuel : nat) (olds : list text) (t : text) : text :=
  match fuel with
  | O => t
  | S fuel =>
      match first_match olds t with
      | Some rest => replace_all fuel olds rest
      | None => match t with [] => [] | r :: t => r :: replace_all fuel olds t end
      end
  end.

Definition trademark_markers : list text := [runes "(R)"; runes "(r)"; runes "(TM)"; runes "(tm)"].

(** The digits at the front, and what follows. *)
Fixpoint span_digits (t : text) : nat * text :=
  match t with
  | r :: t' => if is_digit r then let (n, rest) := span_digits t' in (S n, rest) else (0%nat, t)
  | [] => (0%nat, [])
  end.

(** One repetition of the regular expression for leading cruft. *)
Definition cruft_once (t : text) : option text :=
  match strip (runes "Genuine ") t with
  | Some rest => Some rest
  | None =>
      let (n, rest) := span_digits t in
      if bool_decide (n = 0%nat) then None
      else
        match first_match [runes "st"; runes "nd"; runes "rd"; runes "th"] rest with
        | Some rest => strip (runes " Gen ") rest
        | None => None
        end
  end.
Fixpoint strip_prefix_cruft (fuel : nat) (t : text) : text :=
  match fuel with
  | O => t
  | S fuel => match cruft_once t with Some rest => strip_prefix_cruft fuel rest | None => t end
  end.

(** The regular expression for a trailing core count matches all of [t]. *)
Definition core_count (t : text) : bool :=
  match t with
  | 32 :: t =>
      let (n, rest) := span_digits t in
      negb (bool_decide (n = 0%nat))
      && (equal_fold rest (runes "-core") || equal_fold rest (runes "-cores"))
  | _ => false
  end.
Fixpoint strip_core_count (t : text) : text :=
  if core_count t then [] else match t with [] => [] | r :: t => r :: strip_core_count t end.

Definition strip_cruft (name : text) : text :=
  let name := cut_before (runes " @ ") name in
  let name := replace_all (length name) trademark_markers name in
  let name := strip_prefix_cruft (length name) name in
  let name := trim_space name in
  let name := trim_suffix name (runes " CPU") in
  let name := trim_suffix name (runes " Processor") in
  strip_core_count name.

(** *** The loop *)

(** What the switch makes of a rune, given whether the buffer is empty and the
    rune kept before: [None] continues with the next rune. *)
Definition keep (buf_empty : bool) (pr r : rune) : option rune :=
  if is_upper r then Some (r + 32)
  else if is_lower r || is_digit r then Some r
  else
    let r := if r =? 32 then 45 else r in
    if is_sep r then if buf_empty || is_sep pr then None else Some r else None.

Definition is_nil (t : text) : bool := match t with [] => true | _ => false end.

Fixpoint normalize_loop (prefix : text) (maxLength : Z) (name buf : text) (pr : rune) : text :=
  match name with
  | [] => buf
  | r :: name =>
      match keep (is_nil buf) pr r with
      | None => normalize_loop prefix maxLength name buf pr
      | Some r =>
          let buf := buf ++ [r] in
          let '(buf, pr) :=
            if (Z.of_nat (length buf) =? byte_len prefix) && equal_fold buf prefix then ([], 0)
            else (buf, r) in
          if maxLength <=? Z.of_nat (length buf) then buf
          else normalize_loop prefix maxLength name buf pr
      end
  end.

Definition trim_last_sep (buf : text) : text :=
  match last buf with
  | Some c => if is_sep c then take (length buf - 1) buf else buf
  | None => []
  end.

Definition NormalizeName (name prefix : text) (maxLength : Z) (stripCruft : bool) : text :=
  let name := if stripCruft then strip_cruft name else name in
  let maxLength := if maxLength <=? 0 then byte_len name else maxLength in
  trim_last_sep (normalize_loop prefix maxLength name [] 0).

(** [NormalizeVersion] on the dot-separated parts. *)
Fixpoint split_dots (t cur : text) : list text :=
  match t with
  | [] => [cur]
  | r :: t => if r =? 46 then cur :: split_dots t [] else split_dots t (cur ++ [r])
  end.

Definition NormalizeVersion (ver : text) : text :=
  match ver with
  | [] => []
  | _ => match split_dots ver [] with
         | a :: b :: _ => a ++ [46] ++ b
         | _ => ver
         end
  end.

Definition RuntimeMajor (runtimeVersion fallback : text) : text :=
  match runtimeVersion with
  | [] => fallback
  | _ => match split_dots runtimeVersion [] with a :: _ => a | [] => [] end
  end.

(** The group identifier; [withMemory] is the environment's toggle and
    [formatMemory] the quantity formatting. *)
Definition ConstructGroupID (withMemory : bool) (formatMemory : Z -> text)
    (manufacturer name : text) (memory : Z) : text :=
  let budget := 63 - byte_len manufacturer - 1 in
  let budget := if withMemory then budget - 7 else budget in
  let n := NormalizeName name manufacturer budget false in
  if negb withMemory then n else n ++ [45] ++ formatMemory memory.

(** ** Label values *)

Definition label_rune (r : rune) : Prop := is_lower r = true \/ is_digit r = true \/ is_sep r = true.

(** No two separators in a row. *)
Definition spaced (t : text) : Prop :=
  forall i a b, t !! i = Some a -> t !! S i = Some b -> ~ (is_sep a = true /\ is_sep b = true).

(** A label value: lower-case letters, digits and single inner separators. *)
Record slug (t : text) : Prop := {
  slug_runes : Forall label_rune t;
  slug_spaced : spaced t;
  slug_first : forall r, head t = Some r -> is_sep r = false;
  slug_last : forall r, last t = Some r -> is_sep r = false }.

(** The buffer of the loop: a slug up to its last rune, which is the one kept
    before. *)
Record buffer (buf : text) (pr : rune) : Prop := {
  buf_runes : Forall label_rune buf;
  buf_spaced : spaced buf;
  buf_first : forall r, head buf = Some r -> is_sep r = false;
  buf_last : forall r, last buf = Some r -> r = pr }.

Lemma empty_buffer pr : buffer [] pr.
Proof. split; [constructor|now intros [|i]|done|done]. Qed.

Lemma keep_label empty pr r r' : keep empty pr r = Some r' ->
  label_rune r' /\ (is_sep r' = true -> empty = false /\ is_sep pr = false).
Proof.
  unfold keep, label_rune, is_upper, is_lower, is_digit, is_sep. intros Hk.
  destruct ((65 <=? r) && (r <=? 90)) eqn:Hu.
  { injection Hk as <-. split; [left|]; lia. }
  destruct ((97 <=? r) && (r <=? 122) || (48 <=? r) && (r <=? 57)) eqn:Hl.
  { injection Hk as <-. apply orb_true_iff in Hl. split; [tauto|]. lia. }
  destruct ((_ =? 45) || _ || _) eqn:Hs; [|done].
  destruct (empty || _) eqn:He; [done|]. injection Hk as <-. apply orb_false_iff in He. tauto.
Qed.

Lemma buffer_push buf pr r :
  buffer buf pr -> label_rune r -> (is_sep r = true -> is_nil buf = false /\ is_sep pr = false) ->
  buffer (buf ++ [r]) r.
Proof.
  intros [Hr Hs Hf Hl] Hlr Hsep. split.
  - apply Forall_app. auto.
  - intros i a b Ha Hb. destruct (decide (S i < length buf)%nat) as [Hi|Hi].
    + rewrite lookup_app_l in Ha, Hb by lia. eauto.
    + rewrite lookup_app_r in Hb by lia. destruct (S i - length buf)%nat eqn:E; [|done].
      simpl in Hb. injection Hb as <-. rewrite lookup_app_l in Ha by lia. intros [H1 H2].
      assert (last buf = Some a) as Hla by (rewrite last_lookup; replace (pred (length buf)) with i by lia; done).
      apply Hl in Hla as ->. destruct (Hsep H2). congruence.
  - intros x Hx. destruct buf as [|y buf]; [|now apply Hf]. simpl in Hx. injection Hx as <-.
    destruct (is_sep r); [|done]. destruct (Hsep eq_refl). done.
  - intros x. rewrite last_snoc. congruence.
Qed.

Lemma normalize_loop_buffer prefix maxLength name buf pr :
  0 < maxLength -> Z.of_nat (length buf) < maxLength -> buffer buf pr ->
  exists pr', buffer (normalize_loop prefix maxLength name buf pr) pr' /\
    Z.of_nat (length (normalize_loop prefix maxLength name buf pr)) <= maxLength.
Proof.
  intros Hm. revert buf pr. induction name as [|r name IH]; intros buf pr Hb Hbuf; simpl.
  { exists pr. split; [done|lia]. }
  destruct (keep (is_nil buf) pr r) as [r'|] eqn:Hk; [|now apply IH].
  destruct (keep_label _ _ _ _ Hk) as [Hlr Hsep].
  pose proof (buffer_push _ _ _ Hbuf Hlr Hsep) as Hpush.
  destruct (_ && _); simpl.
  - zcase; [simpl in *; lia|]. apply IH; [simpl; lia|apply empty_buffer].
  - rewrite length_app. simpl. zcase; [exists r'; split; [done|rewrite length_app; simpl; lia]|].
    apply IH; [rewrite length_app; simpl; lia|done].
Qed.

Lemma trim_last_slug buf pr : buffer buf pr -> slug (trim_last_sep buf).
Proof.
  intros [Hr Hs Hf Hl]. unfold trim_last_sep. destruct buf as [|c buf _] using rev_ind.
  { simpl. split; done. }
  rewrite last_snoc. destruct (is_sep c) eqn:Hc.
  - rewrite length_app. simpl. rewrite Nat.add_sub, take_app_length.
    apply Forall_app in Hr as [Hr _]. split; [done| | |].
    + intros i a b Ha Hb. apply (Hs i); now apply lookup_app_l_Some.
    + intros r Hx. apply Hf. destruct buf; [done|exact Hx].
    + intros r Hx. destruct (is_sep r) eqn:Hsr; [|done]. exfalso. rewrite last_lookup in Hx.
      apply (Hs (pred (length buf)) r c); [now apply lookup_app_l_Some| |done].
      destruct buf; [done|]. rewrite lookup_app_r by (simpl; lia). simpl. now rewrite Nat.sub_diag.
  - split; auto. intros r. rewrite last_snoc. congruence.
Qed.

Lemma length_trim buf : (length (trim_last_sep buf) <= length buf)%nat.
Proof.
  unfold trim_last_sep. destruct (last buf); [|simpl; lia].
  case_match; [rewrite length_take; lia|done].
Qed.

Lemma byte_len_nonneg t : 0 <= byte_len t.
Proof. induction t as [|x t IH]; simpl; [lia|]. unfold utf8_len. repeat case_match; lia. Qed.

Lemma normalized_slug name prefix maxLength stripCruft :
  slug (NormalizeName name prefix maxLength stripCruft) /\
  (0 < maxLength -> Z.of_nat (length (NormalizeName name prefix maxLength stripCruft)) <= maxLength).
Proof.
  unfold NormalizeName. cbv zeta. set (t := if stripCruft then strip_cruft name else name).
  destruct (Z.leb_spec maxLength 0) as [Hm|Hm].
  - split; [|intros; exfalso; lia]. destruct t as [|r t]; [eapply trim_last_slug, (empty_buffer 0)|].
    assert (0 < byte_len (r :: t)) as Hpos.
    { pose proof (byte_len_nonneg t). simpl. unfold utf8_len. repeat case_match; lia. }
    destruct (normalize_loop_buffer prefix (byte_len (r :: t)) (r :: t) [] 0) as (pr & Hb & _);
      [done|exact Hpos|apply empty_buffer|]. eapply trim_last_slug, Hb.
  - destruct (normalize_loop_buffer prefix maxLength t [] 0) as (pr & Hb & Hl);
      [done|exact Hm|apply empty_buffer|].
    split; [eapply trim_last_slug, Hb|]. intros _. etransitivity; [|exact Hl].
    apply inj_le, length_trim.
Qed.

(** Whatever the product name and the prefix, a normalized name is a usable
    label value: only lower-case letters, digits and the separators - _ .,
    beginning and ending with a letter or digit, never two separators in a row,
    and no longer than the requested maximum. *)
Theorem normalize_name_label (name prefix : text) (maxLength : Z) (stripCruft : bool) :
  let out := NormalizeName name prefix maxLength stripCruft in
  slug out /\ (0 < maxLength -> Z.of_nat (length out) <= maxLength).
Proof. apply normalized_slug. Qed.

(** ** Label values are left alone *)

Lemma label_kept buf pr r :
  buffer buf pr -> label_rune r -> (is_sep r = true -> is_nil buf = false /\ is_sep pr = false) ->
  keep (is_nil buf) pr r = Some r.
Proof.
  unfold keep, label_rune, is_upper, is_lower, is_digit, is_sep. intros _ Hr Hs.
  destruct ((65 <=? r) && (r <=? 90)) eqn:Hu; [lia|].
  destruct ((97 <=? r) && (r <=? 122) || (48 <=? r) && (r <=? 57)) eqn:Hl; [done|].
  replace (r =? 32) with false by lia.
  destruct ((r =? 45) || _ || _) eqn:Hx; [|lia].
  destruct (Hs eq_refl) as [-> Hp]. now rewrite Hp.
Qed.

Lemma label_ascii t : Forall label_rune t -> byte_len t = Z.of_nat (length t).
Proof.
  induction 1 as [|r t Hr _ IH]; simpl; [done|]. rewrite IH.
  unfold label_rune, is_lower, is_digit, is_sep, utf8_len in *.
  destruct (Z.ltb_spec r 128); lia.
Qed.

Lemma normalize_loop_slug maxLength rest buf pr :
  slug (buf ++ rest) -> buffer buf pr -> Z.of_nat (length (buf ++ rest)) <= maxLength ->
  normalize_loop [] maxLength rest buf pr = buf ++ rest.
Proof.
  revert buf pr. induction rest as [|r rest IH]; intros buf pr Hs Hb Hl; cbn [normalize_loop];
    [now rewrite app_nil_r|].
  assert (label_rune r) as Hlr.
  { pose proof (slug_runes _ Hs) as Hr. rewrite Forall_app, Forall_cons in Hr. tauto. }
  assert (is_sep r = true -> is_nil buf = false /\ is_sep pr = false) as Hsep.
  { intros Hsr. destruct buf as [|c buf _] using rev_ind.
    - pose proof (slug_first _ Hs r eq_refl). congruence.
    - split; [now destruct buf|]. assert (c = pr) as -> by (apply (buf_last _ _ Hb); apply last_snoc).
      destruct (is_sep pr) eqn:Hp; [|done]. exfalso.
      apply (slug_spaced _ Hs (length buf) pr r); [| |done]; rewrite <- app_assoc;
        rewrite lookup_app_r by lia; [now rewrite Nat.sub_diag|].
      now rewrite Nat.sub_succ_l, Nat.sub_diag by lia. }
  rewrite (label_kept buf pr r) by done. rewrite length_app. cbn [length byte_len foldr].
  destruct (Z.eqb_spec (Z.of_nat (length buf + 1)) 0); [lia|]. cbn [andb].
  replace (buf ++ r :: rest) with ((buf ++ [r]) ++ rest) in * by now rewrite <- app_assoc.
  rewrite length_app. simpl. zcase.
  - rewrite !length_app in Hl. simpl in Hl. destruct rest; [now rewrite app_nil_r|simpl in Hl; lia].
  - apply IH; auto. now apply (buffer_push buf pr).
Qed.

Lemma normalize_slug t maxLength :
  slug t -> maxLength <= 0 \/ Z.of_nat (length t) <= maxLength -> NormalizeName t [] maxLength false = t.
Proof.
  intros Hs Hm. unfold NormalizeName. cbv zeta.
  rewrite (normalize_loop_slug _ t [] 0); [| |apply empty_buffer|].
  - simpl. unfold trim_last_sep. destruct (last t) as [c|] eqn:Hc.
    + now rewrite (slug_last _ Hs c Hc).
    + now apply last_None in Hc.
  - exact Hs.
  - simpl. rewrite (label_ascii _ (slug_runes _ Hs)). zcase; lia.
Qed.

(** Normalization is idempotent: a normalized name, normalized again with
    no prefix to strip and any maximum it fits, is unchanged, so a group keeps
    one identifier however often its name passes through. *)
Theorem normalize_name_idempotent (name prefix : text) (maxLength maxLength' : Z) (stripCruft : bool) :
  let out := NormalizeName name prefix maxLength stripCruft in
  maxLength' <= 0 \/ Z.of_nat (length out) <= maxLength' ->
  NormalizeName out [] maxLength' false = out.
Proof. intros out Hm. apply normalize_slug; [|done]. apply normalized_slug. Qed.

Lemma normalize_name_idempotent_witness :
  let out := NormalizeName (runes "AMD EPYC(TM) 9654 96-Core Processor") (runes "amd") 0 true in
  out = runes "epyc-9654" /\ NormalizeName out [] 0 false = out.
Proof.
  intros out. split; [vm_compute; reflexivity|].
  apply (normalize_name_idempotent (runes "AMD EPYC(TM) 9654 96-Core Processor") (runes "amd") 0 0 true).
  left. lia.
Defined.
