(* ===== verification/Device.v ===== *)
(** * Device arithmetic

    The pure decisions of src/pkg/device: where hardware partitions are placed
    and what can still be built (physical_placement.go), what an accelerator can
    serve (population.go), a group's aggregated slicing detail (sliced.go) and
    the bus distance (topology_distance.go).  The theorems characterise the
    greedy placement, relate the overlap test to the intervals it stands for,
    and show that the remaining-profile ledger counts what is still
    buildable. *)

From stdpp Require Import prelude gmap strings list sorting.
From S2P Require Import Prelude.

(** ** Placements *)

Record AcceleratorPlacement := Placement { Start : Z; Length : Z }.
#[export] Instance AcceleratorPlacement_eq_dec : EqDecision AcceleratorPlacement.
Proof. solve_decision. Defined.

Record PartitionCandidate := {
  ID : string;
  Possible : list AcceleratorPlacement;
  Occupied : list AcceleratorPlacement }.

Record PartitionSelection := { SelID : string; SelPlacement : AcceleratorPlacement }.

Record AcceleratorProfileCount := { PcName : string; PcCount : Z }.

Definition overlaps (slot occ : AcceleratorPlacement) : bool :=
  (Start slot <? i32 (Start occ + Length occ)) && (Start occ <? i32 (Start slot + Length slot)).

Definition placementOverlapsAny (slot : AcceleratorPlacement) (occupied : list AcceleratorPlacement)
    : bool := existsb (overlaps slot) occupied.

Definition occupiedLength (occupied : list AcceleratorPlacement) : Z :=
  foldl (fun n p => i32 (n + Length p)) 0 occupied.

Fixpoint lowestFreePlacement (possible occupied : list AcceleratorPlacement)
    : option AcceleratorPlacement :=
  match possible with
  | [] => None
  | p :: possible =>
      if negb (placementOverlapsAny p occupied) then Some p
      else lowestFreePlacement possible occupied
  end.

Definition PartitionCandidateFull (candidate : PartitionCandidate) : bool :=
  match lowestFreePlacement (Possible candidate) (Occupied candidate) with
  | Some _ => false
  | None => true
  end.

(** The counting loop of one profile. *)
Definition count_free (occupied slots : list AcceleratorPlacement) : Z :=
  foldl (fun n slot => if negb (placementOverlapsAny slot occupied) then i32 (n + 1) else n) 0 slots.

Definition ComputeRemainingProfiles (occupied : list AcceleratorPlacement)
    (possible : gmap string (list AcceleratorPlacement)) : gmap string Z :=
  omap (fun slots => let n := count_free occupied slots in if 0 <? n then Some n else None) possible.

(** One step of the scan for the next accelerator: the best index so far with
    its slot and how full it is, after candidate [i] was looked at. *)
Definition consider (i : nat) (c : PartitionCandidate) (u : bool)
    (best : option (nat * AcceleratorPlacement * Z)) : option (nat * AcceleratorPlacement * Z) :=
  if u then best
  else
    match lowestFreePlacement (Possible c) (Occupied c) with
    | None => best
    | Some slot =>
        let room := occupiedLength (Occupied c) in
        match best with
        | None => Some (i, slot, room)
        | Some (_, _, bestRoom) => if bestRoom <? room then Some (i, slot, room) else best
        end
    end.

(** The whole scan; [i] is the index of the head of [candidates]. *)
Fixpoint scan (candidates : list PartitionCandidate) (used : list bool) (i : nat)
    (best : option (nat * AcceleratorPlacement * Z)) : option (nat * AcceleratorPlacement * Z) :=
  match candidates, used with
  | c :: candidates, u :: used => scan candidates used (S i) (consider i c u best)
  | _, _ => best
  end.

(** [n] more picks, each an index of [candidates] and its slot. *)
Fixpoint select_loop (candidates : list PartitionCandidate) (n : nat) (used : list bool)
    (picks : list (nat * AcceleratorPlacement)) : option (list (nat * AcceleratorPlacement)) :=
  match n with
  | O => Some picks
  | S n =>
      match scan candidates used 0 None with
      | None => None
      | Some (best, slot, _) =>
          select_loop candidates n (<[best := true]> used) (picks ++ [(best, slot)])
      end
  end.

Definition selection (candidates : list PartitionCandidate) (pick : nat * AcceleratorPlacement)
    : PartitionSelection :=
  {| SelID := match candidates !! fst pick with Some c => ID c | None => "" end;
     SelPlacement := snd pick |}.

Definition SelectPartitionPlacements (candidates : list PartitionCandidate) (count : Z)
    : list PartitionSelection * bool :=
  if count <=? 0 then ([], true)
  else
    match select_loop candidates (Z.to_nat count) (replicate (length candidates) false) [] with
    | None => ([], false)
    | Some picks => (selection candidates <$> picks, true)
    end.

(** [slices.SortFunc] by name, on the entries of a map. *)
Definition profile_le (a b : string * Z) : Prop := String.leb (fst a) (fst b) = true.
#[export] Instance profile_le_dec : RelDecision profile_le.
Proof. intros a b. exact (bool_eq_dec _ _). Defined.

Definition ProfileCountSlice (counts : gmap string Z) : list AcceleratorProfileCount :=
  (fun '(name, count) => {| PcName := name; PcCount := count |})
    <$> merge_sort profile_le (map_to_list counts).

(** ** Intervals *)

(** A run of units whose end fits an [int32]. *)
Record in_range (p : AcceleratorPlacement) : Prop := {
  start_nonneg : 0 <= Start p;
  length_pos : 0 < Length p;
  end_fits : Start p + Length p < 2 ^ 31 }.

Definition covers (p : AcceleratorPlacement) (x : Z) : Prop := Start p <= x < Start p + Length p.
Definition disjoint_runs (p q : AcceleratorPlacement) : Prop := forall x, ~ (covers p x /\ covers q x).

Lemma end_exact p : in_range p -> i32 (Start p + Length p) = Start p + Length p.
Proof. intros []. apply i32_small. unfold is_i32. lia. Qed.

Lemma overlaps_spec p q : in_range p -> in_range q -> overlaps p q = true <-> ~ disjoint_runs p q.
Proof.
  intros Hp Hq. unfold overlaps, disjoint_runs, covers. rewrite !end_exact by done.
  destruct Hp, Hq. rewrite andb_true_iff, !Z.ltb_lt. split.
  - intros [H1 H2] Hd. apply (Hd (Z.max (Start p) (Start q))). lia.
  - intros Hd. split; apply Z.nle_gt; intros Hle; apply Hd; intros x; lia.
Qed.

Lemma overlaps_any_spec p occupied :
  in_range p -> Forall in_range occupied ->
  placementOverlapsAny p occupied = false <-> Forall (disjoint_runs p) occupied.
Proof.
  intros Hp Ho. unfold placementOverlapsAny. induction Ho as [|q occupied Hq Ho IH]; simpl; [easy|].
  rewrite orb_false_iff, Forall_cons, IH, <- not_true_iff_false, overlaps_spec by done.
  split; intros [H1 H2]; (split; [|done]); [|tauto].
  intros x Hx. apply H1. intros Hd. now apply (Hd x).
Qed.

Definition free_slots (occupied slots : list AcceleratorPlacement) : list AcceleratorPlacement :=
  filter (fun slot => placementOverlapsAny slot occupied = false) slots.

Lemma count_free_acc occupied slots n :
  0 <= n -> n + Z.of_nat (length slots) < 2 ^ 31 ->
  foldl (fun n slot => if negb (placementOverlapsAny slot occupied) then i32 (n + 1) else n) n slots
  = n + Z.of_nat (length (free_slots occupied slots)).
Proof.
  revert n. induction slots as [|s slots IH]; intros n Hn Hb; simpl in *; [lia|].
  unfold free_slots. rewrite filter_cons. fold (free_slots occupied slots).
  destruct (placementOverlapsAny s occupied) eqn:Hs; simpl.
  - apply IH; lia.
  - rewrite i32_small by (unfold is_i32; lia).
    rewrite IH by lia. simpl. lia.
Qed.

Lemma count_free_length occupied slots :
  Z.of_nat (length slots) < 2 ^ 31 ->
  count_free occupied slots = Z.of_nat (length (free_slots occupied slots)).
Proof. intros. unfold count_free. rewrite count_free_acc; lia. Qed.

Lemma lowest_free_find possible occupied :
  lowestFreePlacement possible occupied = head (free_slots occupied possible).
Proof.
  induction possible as [|p possible IH]; simpl; [done|].
  unfold free_slots. rewrite filter_cons. fold (free_slots occupied possible).
  destruct (placementOverlapsAny p occupied) eqn:Hs; simpl; [exact IH|done].
Qed.

(** ** The remaining-profile ledger *)

Lemma free_slots_spec occupied slots s :
  Forall in_range slots -> Forall in_range occupied ->
  s ∈ free_slots occupied slots <-> s ∈ slots /\ Forall (disjoint_runs s) occupied.
Proof.
  intros Hs Ho. unfold free_slots. rewrite list_elem_of_filter. rewrite Forall_forall in Hs.
  split.
  - intros [H1 H2]. split; [done|]. apply overlaps_any_spec; auto.
  - intros [H1 H2]. split; [|done]. apply overlaps_any_spec; auto.
Qed.

Lemma remaining_count occupied possible name slots :
  possible !! name = Some slots -> Z.of_nat (length slots) < 2 ^ 31 ->
  default 0 (ComputeRemainingProfiles occupied possible !! name)
  = Z.of_nat (length (free_slots occupied slots)).
Proof.
  intros Hp Hb. unfold ComputeRemainingProfiles. rewrite lookup_omap, Hp. simpl.
  rewrite count_free_length by done. zcase; simpl; lia.
Qed.

Lemma free_slots_more occupied slots slot :
  free_slots (occupied ++ [slot]) slots
  = filter (fun s => overlaps s slot = false) (free_slots occupied slots).
Proof.
  unfold free_slots, placementOverlapsAny. rewrite list_filter_filter. apply list_filter_iff.
  intros s. rewrite existsb_app. simpl. rewrite orb_false_r, orb_false_iff. tauto.
Qed.

Lemma overlaps_self slot : in_range slot -> overlaps slot slot = true.
Proof.
  intros Hs. apply overlaps_spec; auto. intros Hd. apply (Hd (Start slot)). destruct Hs.
  unfold covers. lia.
Qed.

(** The geometry of one accelerator is well formed: every legal placement and
    every occupied run is a run, and no profile lists absurdly many. *)
Record geometry_ok (occupied : list AcceleratorPlacement)
    (possible : gmap string (list AcceleratorPlacement)) : Prop := {
  occupied_ok : Forall in_range occupied;
  slots_ok : forall name slots, possible !! name = Some slots ->
    Forall in_range slots /\ Z.of_nat (length slots) < 2 ^ 31 }.

(** The ledger reports, for every profile, exactly the number of its legal
    placements that share no memory slice with any occupied run; a profile with
    none is left out. *)
Theorem remaining_profiles_exact (occupied : list AcceleratorPlacement)
    (possible : gmap string (list AcceleratorPlacement)) (name : string) :
  geometry_ok occupied possible ->
  match possible !! name with
  | None => ComputeRemainingProfiles occupied possible !! name = None
  | Some slots => exists free,
      (forall s, s ∈ free <-> s ∈ slots /\ Forall (disjoint_runs s) occupied) /\
      free `sublist_of` slots /\
      ComputeRemainingProfiles occupied possible !! name =
        match free with [] => None | _ => Some (Z.of_nat (length free)) end
  end.
Proof.
  intros [Ho Hs]. destruct (possible !! name) as [slots|] eqn:Hp.
  - destruct (Hs _ _ Hp) as [Hr Hb]. exists (free_slots occupied slots). split_and!.
    + intros s. now apply free_slots_spec.
    + apply sublist_filter.
    + unfold ComputeRemainingProfiles. rewrite lookup_omap, Hp. simpl.
      rewrite count_free_length by done. now destruct (free_slots occupied slots).
  - unfold ComputeRemainingProfiles. now rewrite lookup_omap, Hp.
Qed.

(** Building a partition where the selector puts it consumes capacity: no
    profile can be built more often than before, and the placed profile strictly
    less often. *)
Theorem placing_consumes (occupied : list AcceleratorPlacement)
    (possible : gmap string (list AcceleratorPlacement)) (name : string)
    (slots : list AcceleratorPlacement) (slot : AcceleratorPlacement) :
  geometry_ok occupied possible ->
  possible !! name = Some slots -> lowestFreePlacement slots occupied = Some slot ->
  let before := ComputeRemainingProfiles occupied possible in
  let after := ComputeRemainingProfiles (occupied ++ [slot]) possible in
  (forall k, default 0 (after !! k) <= default 0 (before !! k)) /\
  default 0 (after !! name) < default 0 (before !! name).
Proof.
  intros [Ho Hs] Hp Hl before after. split.
  - intros k. destruct (possible !! k) as [ks|] eqn:Hk.
    + destruct (Hs _ _ Hk) as [_ Hb]. unfold before, after.
      rewrite !(remaining_count _ _ _ _ Hk) by done. rewrite free_slots_more.
      apply inj_le, length_filter.
    + unfold before, after, ComputeRemainingProfiles. rewrite !lookup_omap, Hk. simpl. lia.
  - destruct (Hs _ _ Hp) as [Hr Hb]. unfold before, after.
    rewrite !(remaining_count _ _ _ _ Hp) by done. rewrite free_slots_more.
    rewrite lowest_free_find in Hl.
    destruct (free_slots occupied slots) as [|s free] eqn:Hf; [done|]. injection Hl as ->.
    assert (in_range slot) as Hin.
    { assert (slot ∈ free_slots occupied slots) as He by (rewrite Hf; now left).
      apply list_elem_of_filter in He as [_ He]. rewrite Forall_forall in Hr. auto. }
    rewrite filter_cons_False by (rewrite (overlaps_self _ Hin); done).
    simpl. pose proof (length_filter (fun s => overlaps s slot = false) free). lia.
Qed.

(** ** The greedy selection *)

(** Candidate [j] is unused and fits: its slot, and how full it is. *)
Definition offers (candidates : list PartitionCandidate) (used : list bool) (i : nat)
    (x : nat * AcceleratorPlacement * Z) : Prop :=
  exists k c, fst (fst x) = (i + k)%nat /\ candidates !! k = Some c /\ used !! k = Some false /\
    lowestFreePlacement (Possible c) (Occupied c) = Some (snd (fst x)) /\
    snd x = occupiedLength (Occupied c).

(** Fuller first, then earlier. *)
Definition preferred (x y : nat * AcceleratorPlacement * Z) : Prop :=
  x = y \/ snd y < snd x \/ (snd y = snd x /\ (fst (fst x) < fst (fst y))%nat).

Lemma preferred_trans x y z : preferred x y -> preferred y z -> preferred x z.
Proof.
  intros [->|Hxy] [->|Hyz]; unfold preferred; auto.
  destruct Hxy as [?|[? ?]], Hyz as [?|[? ?]]; right; lia.
Qed.

(** What candidate [i] itself offers. *)
Definition head_offer (i : nat) (c : PartitionCandidate) (u : bool)
    (x : nat * AcceleratorPlacement * Z) : Prop :=
  fst (fst x) = i /\ u = false /\
  lowestFreePlacement (Possible c) (Occupied c) = Some (snd (fst x)) /\
  snd x = occupiedLength (Occupied c).

Lemma offers_cons c u cs us i x :
  offers (c :: cs) (u :: us) i x <-> head_offer i c u x \/ offers cs us (S i) x.
Proof.
  split.
  - intros ([|k] & c' & Hi & Hc & Hu & Hl & Hr); simpl in *.
    + left. simplify_eq. split_and!; auto; lia.
    + right. exists k, c'. split_and!; auto; lia.
  - intros [(Hi & -> & Hl & Hr)|(k & c' & Hi & Hc & Hu & Hl & Hr)].
    + exists 0%nat, c. split_and!; auto. lia.
    + exists (S k), c'. split_and!; auto. lia.
Qed.

(** [b] is one of the offers and preferred to all of them. *)
Definition best_of (S : nat * AcceleratorPlacement * Z -> Prop)
    (best : option (nat * AcceleratorPlacement * Z)) : Prop :=
  match best with
  | None => forall x, ~ S x
  | Some b => S b /\ forall x, S x -> preferred b x
  end.

Lemma consider_spec i c u best :
  (forall b, best = Some b -> (fst (fst b) < i)%nat) ->
  best_of (fun x => best = Some x \/ head_offer i c u x) (consider i c u best).
Proof.
  intros Hb. unfold consider, head_offer, best_of.
  destruct u; [destruct best as [b|]; [split; [auto|]|]; intros x Hx;
    intuition (simplify_eq; auto; now left)|].
  destruct (lowestFreePlacement _ _) as [slot|];
    [|destruct best as [b|]; [split; [auto|]|]; intros x Hx; intuition (simplify_eq; auto; now left)].
  destruct best as [[[b0 s0] r0]|].
  - specialize (Hb _ eq_refl). simpl in Hb. zcase; (split; [auto|]).
    + intros [[j s] r] [Hx|Hx]; simpl in *; [simplify_eq; right; simpl; lia|].
      destruct_and? Hx. simplify_eq. now left.
    + intros [[j s] r] [Hx|Hx]; simpl in *; [simplify_eq; now left|].
      destruct_and? Hx. simplify_eq. right. simpl. lia.
  - split; [auto|]. intros [[j s] r] [Hx|Hx]; simpl in *; [done|].
    destruct_and? Hx. simplify_eq. now left.
Qed.

Lemma scan_spec cs us i best :
  length us = length cs -> (forall b, best = Some b -> (fst (fst b) < i)%nat) ->
  best_of (fun x => best = Some x \/ offers cs us i x) (scan cs us i best).
Proof.
  revert us i best. induction cs as [|c cs IH]; intros [|u us] i best Hl Hb; simpl in *; try discriminate.
  { unfold best_of. assert (forall x, ~ offers [] [] i x) as Hno by (intros x (k & c & _ & Hc & _); done).
    destruct best as [b|]; [split; [auto|]|]; intros x [Hx|Hx]; simplify_eq; try (now left);
      now apply Hno in Hx. }
  injection Hl as Hl. pose proof (consider_spec i c u best Hb) as Hc.
  assert (forall b, consider i c u best = Some b -> (fst (fst b) < S i)%nat) as Hb'.
  { intros b E. rewrite E in Hc. destruct Hc as [[Hx|Hx] _]; [specialize (Hb _ Hx); lia|].
    destruct Hx as [-> _]. lia. }
  specialize (IH us (S i) _ Hl Hb'). unfold best_of in *.
  destruct (scan cs us (S i) (consider i c u best)) as [b|].
  - destruct IH as [Hin Hpref]. split.
    + rewrite offers_cons. destruct Hin as [Hin|Hin]; [|auto]. rewrite Hin in Hc. tauto.
    + intros x. rewrite offers_cons. intros Hx.
      destruct (consider i c u best) as [b1|] eqn:E.
      * destruct Hc as [_ Hc]. destruct Hx as [Hx|[Hx|Hx]]; [| |auto];
          (eapply preferred_trans; [apply Hpref; left; reflexivity|apply Hc; auto]).
      * destruct Hx as [Hx|[Hx|Hx]]; [| |auto]; exfalso; apply (Hc x); auto.
  - intros x. rewrite offers_cons. intros Hx.
    destruct (consider i c u best) as [b1|] eqn:E; [exfalso; apply (IH b1); auto|].
    destruct Hx as [Hx|[Hx|Hx]]; [apply (Hc x)|apply (Hc x)|apply (IH x)]; auto.
Qed.

Definition fits (c : PartitionCandidate) : Prop := PartitionCandidateFull c = false.
#[export] Instance fits_dec c : Decision (fits c).
Proof. exact (bool_eq_dec _ _). Defined.

Lemma fits_slot c : fits c <-> exists slot, lowestFreePlacement (Possible c) (Occupied c) = Some slot.
Proof.
  unfold fits, PartitionCandidateFull. destruct (lowestFreePlacement _ _); split; eauto; [done|].
  now intros [? ?].
Qed.

(** Every pick is preferred among the candidates that fit and were not picked
    before it. *)
Definition greedy (cs : list PartitionCandidate) (picks : list (nat * AcceleratorPlacement)) : Prop :=
  forall k b slot, picks !! k = Some (b, slot) ->
  exists c, cs !! b = Some c /\ lowestFreePlacement (Possible c) (Occupied c) = Some slot /\
  forall j c' slot', cs !! j = Some c' ->
    lowestFreePlacement (Possible c') (Occupied c') = Some slot' ->
    j ∉ (take k picks).*1 ->
    preferred (b, slot, occupiedLength (Occupied c)) (j, slot', occupiedLength (Occupied c')).

Definition used_by (cs : list PartitionCandidate) (picks : list (nat * AcceleratorPlacement))
    (used : list bool) : Prop :=
  length used = length cs /\
  forall j, (j < length cs)%nat -> used !! j = Some (bool_decide (j ∈ picks.*1)).

Lemma offers_used cs picks used x :
  used_by cs picks used ->
  offers cs used 0 x <-> exists c, cs !! fst (fst x) = Some c /\ (fst (fst x) ∉ picks.*1) /\
    lowestFreePlacement (Possible c) (Occupied c) = Some (snd (fst x)) /\
    snd x = occupiedLength (Occupied c).
Proof.
  intros [Hl Hu]. unfold offers. split.
  - intros (k & c & -> & Hc & Hk & Hs & Hr). simpl. exists c. split_and!; auto.
    rewrite Hu in Hk by now apply lookup_lt_Some in Hc. injection Hk as Hk.
    now apply bool_decide_eq_false in Hk.
  - intros (c & Hc & Hn & Hs & Hr). exists (fst (fst x)), c. split_and!; auto.
    rewrite Hu by now apply lookup_lt_Some in Hc. f_equal. now apply bool_decide_eq_false.
Qed.

Lemma used_by_pick cs picks used b slot :
  used_by cs picks used -> used_by cs (picks ++ [(b, slot)]) (<[b := true]> used).
Proof.
  intros [Hl Hu]. split; [now rewrite length_insert|]. intros j Hj.
  rewrite fmap_app. simpl. destruct (decide (j = b)) as [->|Hne].
  - rewrite list_lookup_insert_eq by lia. f_equal. symmetry. apply bool_decide_eq_true.
    apply elem_of_app. right. now left.
  - rewrite list_lookup_insert_ne by done. rewrite Hu by done. f_equal. apply bool_decide_ext.
    rewrite elem_of_app, list_elem_of_singleton. tauto.
Qed.

Lemma greedy_pick cs picks b slot c :
  greedy cs picks -> cs !! b = Some c ->
  lowestFreePlacement (Possible c) (Occupied c) = Some slot ->
  (forall j c' slot', cs !! j = Some c' ->
    lowestFreePlacement (Possible c') (Occupied c') = Some slot' -> j ∉ picks.*1 ->
    preferred (b, slot, occupiedLength (Occupied c)) (j, slot', occupiedLength (Occupied c'))) ->
  greedy cs (picks ++ [(b, slot)]).
Proof.
  intros Hg Hc Hs Hp k b' slot' Hk. destruct (decide (k < length picks)%nat) as [Hlt|Hge].
  - rewrite lookup_app_l in Hk by done. rewrite take_app_le by lia. now apply Hg.
  - rewrite lookup_app_r in Hk by lia. destruct (k - length picks)%nat eqn:E; [|done].
    simpl in Hk. injection Hk as <- <-. exists c. split_and!; auto.
    rewrite take_app_length' by lia. auto.
Qed.

(** A run of the selection loop: greedy picks of distinct candidates, or a proof
    that those which fit were exhausted. *)
Lemma select_loop_spec cs n used picks :
  used_by cs picks used -> greedy cs picks -> NoDup picks.*1 ->
  match select_loop cs n used picks with
  | Some picks' => length picks' = (length picks + n)%nat /\ greedy cs picks' /\ NoDup picks'.*1
  | None => exists picks' : list (nat * AcceleratorPlacement), (length picks' < length picks + n)%nat /\
      forall j c, cs !! j = Some c -> fits c -> j ∈ picks'.*1
  end.
Proof.
  revert used picks. induction n as [|n IH]; intros used picks Hu Hg Hd; simpl; [split_and!; auto|].
  pose proof (scan_spec cs used 0 None (proj1 Hu) ltac:(done)) as Hs.
  destruct (scan cs used 0 None) as [[[b slot] room]|]; simpl in Hs.
  - destruct Hs as [[Hin|Hin] Hp]; [done|]. apply (offers_used _ _ _ _ Hu) in Hin.
    destruct Hin as (c & Hc & Hnb & Hsl & Hr). simpl in *. subst room.
    specialize (IH _ _ (used_by_pick _ _ _ b slot Hu)).
    rewrite length_app in IH. simpl in IH.
    replace (length picks + S n)%nat with (length picks + 1 + n)%nat by lia. apply IH.
    + eapply greedy_pick; eauto. intros j c' slot' Hj Hs' Hnj. apply Hp. right.
      apply (offers_used _ _ _ _ Hu). exists c'. split_and!; auto.
    + rewrite fmap_app. apply NoDup_app. split_and!; auto; [|apply NoDup_singleton].
      intros x Hx Hx'. apply list_elem_of_singleton in Hx'. now subst x.
  - exists picks. split; [lia|]. intros j c Hc [slot Hf]%fits_slot. apply dec_stable. intros Hn.
    apply (Hs (j, slot, occupiedLength (Occupied c))). right. apply (offers_used _ _ _ _ Hu).
    exists c. split_and!; auto.
Qed.

(** The indices of the candidates that fit. *)
Definition fits_at (cs : list PartitionCandidate) (j : nat) : bool :=
  match cs !! j with Some c => negb (PartitionCandidateFull c) | None => false end.
Definition fitting (cs : list PartitionCandidate) : list nat :=
  filter (fun j => fits_at cs j = true) (seq 0 (length cs)).

Lemma fitting_spec cs j : j ∈ fitting cs <-> exists c, cs !! j = Some c /\ fits c.
Proof.
  unfold fitting, fits_at, fits. rewrite list_elem_of_filter, elem_of_seq. split.
  - intros [Hf _]. destruct (cs !! j) as [c|]; [|done]. exists c. now apply negb_true_iff in Hf.
  - intros (c & Hc & Hf). rewrite Hc, Hf. apply lookup_lt_Some in Hc. simpl. lia.
Qed.

Lemma filter_ext_in {A} (f g : A -> bool) (l : list A) :
  (forall x, x ∈ l -> f x = g x) ->
  filter (fun x => f x = true) l = filter (fun x => g x = true) l.
Proof.
  induction l as [|x l IH]; intros He; [done|]. rewrite !filter_cons, IH, (He x);
    [done|now left|intros; apply He; now right].
Qed.

Lemma length_fitting cs : length (fitting cs) = length (filter fits cs).
Proof.
  unfold fitting. induction cs as [|c cs IH] using rev_ind; [done|].
  rewrite length_app, Nat.add_1_r, seq_S, !filter_app, !length_app, <- IH. f_equal.
  - f_equal. apply filter_ext_in. intros j Hj. apply elem_of_seq in Hj.
    unfold fits_at. now rewrite lookup_app_l by lia.
  - rewrite Nat.add_0_l, !filter_cons. unfold fits_at, fits.
    rewrite lookup_app_r, Nat.sub_diag by lia. simpl.
    repeat case_decide; simpl; try done; destruct (PartitionCandidateFull c); done.
Qed.

Lemma fresh_used cs : used_by cs [] (replicate (length cs) false).
Proof.
  split; [apply length_replicate|]. intros j Hj. rewrite lookup_replicate_2 by done. f_equal.
Qed.

Lemma greedy_fitting cs picks j : greedy cs picks -> j ∈ picks.*1 -> j ∈ fitting cs.
Proof.
  intros Hg Hj. apply list_elem_of_fmap in Hj as ([b slot] & -> & Hin).
  apply list_elem_of_lookup_1 in Hin as [k Hk]. destruct (Hg _ _ _ Hk) as (c & Hc & Hs & _).
  apply fitting_spec. exists c. split; [done|]. apply fits_slot. eauto.
Qed.

(** A selection is possible exactly when as many candidates still fit the
    profile as instances were asked for: the selector never refuses what the
    node can host, and never places two instances of one request on one
    accelerator. *)
Theorem select_possible_iff (candidates : list PartitionCandidate) (count : Z) :
  snd (SelectPartitionPlacements candidates count) = true <->
  count <= Z.of_nat (length (filter fits candidates)).
Proof.
  unfold SelectPartitionPlacements. zcase; simpl; [split; [lia|done]|].
  rewrite <- length_fitting.
  pose proof (select_loop_spec candidates (Z.to_nat count) _ [] (fresh_used _)
                ltac:(intros ? ? ? ?; done) NoDup_nil_2) as Hs. simpl in Hs.
  destruct (select_loop _ _ _ _) as [picks|]; simpl.
  - destruct Hs as (Hl & Hg & Hd). split; [intros _|done].
    assert (length picks.*1 <= length (fitting candidates))%nat as Hle.
    { apply submseteq_length, NoDup_submseteq; [done|]. intros j. now apply greedy_fitting. }
    rewrite length_fmap in Hle. lia.
  - destruct Hs as (picks & Hl & Hall). split; [done|]. intros Hc.
    assert (length (fitting candidates) <= length picks.*1)%nat as Hle.
    { apply submseteq_length, NoDup_submseteq; [apply NoDup_filter, NoDup_seq|].
      intros j (c & Hj & Hf)%fitting_spec. eauto. }
    rewrite length_fmap in Hle. lia.
Qed.

(** A successful selection is greedy: it picks as many distinct candidates
    as were asked for, gives each its lowest free placement, and each pick is the
    fullest of those that fit and were not yet picked, the earliest on a tie. *)
Theorem select_greedy (candidates : list PartitionCandidate) (count : Z)
    (selections : list PartitionSelection) :
  0 < count -> SelectPartitionPlacements candidates count = (selections, true) ->
  exists picks, selections = selection candidates <$> picks /\
    Z.of_nat (length picks) = count /\ NoDup picks.*1 /\ greedy candidates picks.
Proof.
  intros Hc. unfold SelectPartitionPlacements. zcase; [lia|].
  pose proof (select_loop_spec candidates (Z.to_nat count) _ [] (fresh_used _)
                ltac:(intros ? ? ? ?; done) NoDup_nil_2) as Hs. simpl in Hs.
  destruct (select_loop _ _ _ _) as [picks|]; [|done]. intros [= <-].
  destruct Hs as (Hl & Hg & Hd). exists picks. split_and!; auto. lia.
Qed.

Lemma remaining_profiles_exact_witness :
  let possible : gmap string (list AcceleratorPlacement) :=
    {[ "1g" := [Placement 0 1; Placement 1 1; Placement 2 1] ]} in
  exists free, (forall s, s ∈ free <-> s ∈ [Placement 0 1; Placement 1 1; Placement 2 1] /\
                  Forall (disjoint_runs s) [Placement 1 1]) /\
    free `sublist_of` [Placement 0 1; Placement 1 1; Placement 2 1] /\
    ComputeRemainingProfiles [Placement 1 1] possible !! "1g" =
      match free with [] => None | _ => Some (Z.of_nat (length free)) end.
Proof.
  intros possible. apply (remaining_profiles_exact [Placement 1 1] possible "1g"). split.
  - repeat constructor; simpl; lia.
  - intros name slots Hs. apply lookup_singleton_Some in Hs as [_ <-].
    split; [repeat constructor; simpl; lia|simpl; lia].
Defined.

Lemma placing_consumes_witness :
  let possible : gmap string (list AcceleratorPlacement) :=
    {[ "1g" := [Placement 0 1; Placement 1 1; Placement 2 1] ]} in
  let before := ComputeRemainingProfiles [Placement 0 1] possible in
  let after := ComputeRemainingProfiles ([Placement 0 1] ++ [Placement 1 1]) possible in
  (forall k, default 0 (after !! k) <= default 0 (before !! k)) /\
  default 0 (after !! "1g") < default 0 (before !! "1g").
Proof.
  intros possible. apply (placing_consumes [Placement 0 1] possible "1g"
    [Placement 0 1; Placement 1 1; Placement 2 1] (Placement 1 1)); [|reflexivity..]. split.
  - repeat constructor; simpl; lia.
  - intros name slots Hs. apply lookup_singleton_Some in Hs as [_ <-].
    split; [repeat constructor; simpl; lia|simpl; lia].
Defined.

Lemma select_greedy_witness :
  let cs := [{| ID := "a"; Possible := [Placement 0 2; Placement 2 2]; Occupied := [] |};
             {| ID := "b"; Possible := [Placement 0 2; Placement 2 2]; Occupied := [Placement 0 1] |};
             {| ID := "c"; Possible := [Placement 0 2]; Occupied := [Placement 1 1] |}] in
  let sel := [{| SelID := "b"; SelPlacement := Placement 2 2 |};
              {| SelID := "a"; SelPlacement := Placement 0 2 |}] in
  SelectPartitionPlacements cs 2 = (sel, true) /\
  exists picks, sel = selection cs <$> picks /\
    Z.of_nat (length picks) = 2 /\ NoDup picks.*1 /\ greedy cs picks.
Proof.
  intros cs sel. assert (SelectPartitionPlacements cs 2 = (sel, true)) as Hs by reflexivity.
  split; [exact Hs|]. apply (select_greedy cs 2 sel); [lia|exact Hs].
Defined.

(** ** What an accelerator can serve *)

Record PhysicalProfile := {
  PName : string; PMemoryMib : Z; PComputeSlices : Z; PMemorySlices : Z; PCount : Z;
  PPlacements : list AcceleratorPlacement }.

Record AcceleratorStatus := {
  Unhealthy : bool;
  LogicalCount : Z; LogicalOvercommit : bool;
  PhysicalCount : Z; PhysicalProfiles : list PhysicalProfile }.

Definition IsPartitioned (status : AcceleratorStatus) : bool := 0 <? PhysicalCount status.
Definition IsLogicallySliceable (status : AcceleratorStatus) : bool :=
  (0 <? LogicalCount status) && negb (IsPartitioned status).
Definition IsWholeAcceleratorCapable (status : AcceleratorStatus) : bool :=
  negb (IsPartitioned status).
Definition LogicalSlotsFree (status : AcceleratorStatus) (allocatedSlices : Z) : Z :=
  if negb (IsLogicallySliceable status) then 0 else i32 (LogicalCount status - allocatedSlices).

(** ** The aggregated detail of a group *)

Record DetailProfile := { DName : string; DCount : Z; DMemoryMib : Z }.

Record SlicedDetail := {
  DLogicalCount : Z; DOvercommit : bool; DPhysicalCount : Z; DProfiles : list DetailProfile }.

(** One profile of one accelerator: added to the entry of its name, or appended;
    [profileIndex] finds the entry. *)
Definition add_profile (st : gmap string nat * list DetailProfile) (p : PhysicalProfile)
    : gmap string nat * list DetailProfile :=
  let '(profileIndex, profiles) := st in
  match profileIndex !! PName p with
  | Some idx =>
      (profileIndex,
       alter (fun d => {| DName := DName d; DCount := i32 (DCount d + PCount p);
                          DMemoryMib := DMemoryMib d |}) idx profiles)
  | None =>
      (<[PName p := length profiles]> profileIndex,
       profiles ++ [{| DName := PName p; DCount := PCount p; DMemoryMib := PMemoryMib p |}])
  end.

Definition add_accelerator (st : SlicedDetail * gmap string nat) (s : AcceleratorStatus)
    : SlicedDetail * gmap string nat :=
  let '(d, profileIndex) := st in
  let '(profileIndex, profiles) := foldl add_profile (profileIndex, DProfiles d) (PhysicalProfiles s) in
  ({| DLogicalCount := i32 (DLogicalCount d + LogicalCount s);
      DOvercommit := if (0 <? LogicalCount s) && LogicalOvercommit s then true else DOvercommit d;
      DPhysicalCount := i32 (DPhysicalCount d + PhysicalCount s);
      DProfiles := profiles |}, profileIndex).

Definition AggregateAcceleratorSlicedDetail (accelerators : list AcceleratorStatus) : SlicedDetail :=
  fst (foldl add_accelerator
         ({| DLogicalCount := 0; DOvercommit := false; DPhysicalCount := 0; DProfiles := [] |}, ∅)
         accelerators).

(** The total of a profile name over a list of profiles. *)
Definition total (name : string) (ps : list PhysicalProfile) : Z :=
  foldr (fun p n => (if bool_decide (PName p = name) then PCount p else 0) + n) 0 ps.

Lemma total_app name ps qs : total name (ps ++ qs) = total name ps + total name qs.
Proof. induction ps as [|p ps IH]; simpl; [done|]. rewrite IH. lia. Qed.

Lemma i32_add_idem a b : i32 (i32 a + b) = i32 (a + b).
Proof.
  unfold wrap_signed. change (32 - 1) with 31.
  replace ((a + 2 ^ 31) mod 2 ^ 32 - 2 ^ 31 + b + 2 ^ 31) with ((a + 2 ^ 31) mod 2 ^ 32 + b) by lia.
  rewrite Z.add_mod_idemp_l by lia. do 2 f_equal. lia.
Qed.

(** The running state after the profiles [seen]: one entry per name in order of
    first appearance, the index in step with it. *)
Record aggregated (seen : list PhysicalProfile) (index : gmap string nat)
    (profiles : list DetailProfile) : Prop := {
  agg_index : forall name k, index !! name = Some k <->
    exists d, profiles !! k = Some d /\ DName d = name;
  agg_count : forall d, d ∈ profiles -> DCount d = i32 (total (DName d) seen);
  agg_memory : forall d, d ∈ profiles -> exists p, p ∈ seen /\ PName p = DName d
    /\ PMemoryMib p = DMemoryMib d;
  agg_names : forall p, p ∈ seen -> is_Some (index !! PName p) }.

Lemma total_zero name ps : (forall p, p ∈ ps -> PName p <> name) -> total name ps = 0.
Proof.
  induction ps as [|p ps IH]; intros Hn; simpl; [done|].
  rewrite bool_decide_eq_false_2 by (apply Hn; now left). rewrite IH; [done|].
  intros q Hq. apply Hn. now right.
Qed.

Lemma total_snoc name seen p :
  total name (seen ++ [p]) = total name seen + (if bool_decide (PName p = name) then PCount p else 0).
Proof. rewrite total_app. simpl. lia. Qed.

(** Adding to the entry of a name that was seen. *)
Definition bump (p : PhysicalProfile) (d : DetailProfile) : DetailProfile :=
  {| DName := DName d; DCount := i32 (DCount d + PCount p); DMemoryMib := DMemoryMib d |}.

Lemma bumped (index : gmap string nat) (profiles : list DetailProfile) p k d :
  (forall name k, index !! name = Some k <-> exists d, profiles !! k = Some d /\ DName d = name) ->
  index !! PName p = Some k -> d ∈ alter (bump p) k profiles ->
  exists d', d' ∈ profiles /\ DName d = DName d' /\ DMemoryMib d = DMemoryMib d' /\
    (d = d' /\ DName d' <> PName p \/ DCount d = i32 (DCount d' + PCount p) /\ DName d' = PName p).
Proof.
  intros Hi Hk Hin. destruct (proj1 (Hi _ _) Hk) as (dk & Hdk & Hname).
  apply list_elem_of_lookup in Hin as [j Hj]. destruct (decide (j = k)) as [->|Hne].
  - rewrite list_lookup_alter_eq, Hdk in Hj. simpl in Hj. injection Hj as <-. exists dk. simpl.
    split_and!; auto. apply list_elem_of_lookup. eauto.
  - rewrite list_lookup_alter_ne in Hj by done. exists d. split_and!; auto;
      [apply list_elem_of_lookup; eauto|]. left. split; [done|]. intros He.
    assert (index !! PName p = Some j) by (apply Hi; eauto). congruence.
Qed.

Lemma aggregated_bump seen index profiles p k :
  aggregated seen index profiles -> index !! PName p = Some k ->
  aggregated (seen ++ [p]) index (alter (bump p) k profiles).
Proof.
  intros [Hi Hc Hm Hn] Hk. destruct (proj1 (Hi _ _) Hk) as (dk & Hdk & Hname). split.
  - intros name j. rewrite Hi. destruct (decide (j = k)) as [->|Hne].
    + rewrite list_lookup_alter_eq, Hdk. simpl. split.
      * intros (d & [= <-] & <-). eexists. split; [reflexivity|done].
      * intros (d & [= <-] & <-). eauto.
    + now rewrite list_lookup_alter_ne by done.
  - intros d Hin. destruct (bumped _ _ _ _ _ Hi Hk Hin) as (d' & Hin' & E1 & _ & [[-> Hne]|[E2 E3]]);
      rewrite total_snoc.
    + rewrite bool_decide_eq_false_2 by congruence. rewrite Z.add_0_r. auto.
    + rewrite bool_decide_eq_true_2 by congruence. rewrite E2, E1, (Hc _ Hin'). apply i32_add_idem.
  - intros d Hin. destruct (bumped _ _ _ _ _ Hi Hk Hin) as (d' & Hin' & E1 & E2 & _).
    destruct (Hm _ Hin') as (q & Hq & E3 & E4). exists q. split_and!; try congruence.
    apply elem_of_app. auto.
  - intros q [Hq| ->%list_elem_of_singleton]%elem_of_app; eauto.
Qed.

(** Appending an entry for a name seen for the first time. *)
Lemma aggregated_append seen index profiles p :
  is_i32 (PCount p) -> aggregated seen index profiles -> index !! PName p = None ->
  aggregated (seen ++ [p]) (<[PName p := length profiles]> index)
    (profiles ++ [{| DName := PName p; DCount := PCount p; DMemoryMib := PMemoryMib p |}]).
Proof.
  intros Hp [Hi Hc Hm Hn] Hk.
  assert (forall d, d ∈ profiles -> DName d <> PName p) as Hnew.
  { intros d Hd E. apply list_elem_of_lookup in Hd as [j Hj].
    assert (index !! PName p = Some j) by (apply Hi; eauto). congruence. }
  split.
  - intros name j. rewrite lookup_app. destruct (decide (name = PName p)) as [->|Hne].
    + rewrite lookup_insert_eq. split.
      * intros [= <-]. rewrite lookup_ge_None_2, Nat.sub_diag by lia. simpl. eauto.
      * intros (d & Hd & Hname). destruct (profiles !! j) as [d'|] eqn:Hj.
        -- injection Hd as ->. now apply list_elem_of_lookup_2, Hnew in Hj.
        -- apply lookup_lt_Some in Hd as Hlt. simpl in Hlt. apply lookup_ge_None_1 in Hj. f_equal. lia.
    + rewrite lookup_insert_ne by congruence. rewrite Hi. split.
      * intros (d & -> & <-). eauto.
      * intros (d & Hd & Hname). destruct (profiles !! j) as [d'|] eqn:Hj; [eauto|].
        apply list_elem_of_lookup_2, list_elem_of_singleton in Hd. subst d. now destruct Hne.
  - intros d [Hd| ->%list_elem_of_singleton]%elem_of_app; rewrite total_snoc; simpl.
    + rewrite bool_decide_eq_false_2, Z.add_0_r by (intros E; apply (Hnew d); congruence). auto.
    + rewrite bool_decide_eq_true_2 by done.
      rewrite total_zero, Z.add_0_l; [symmetry; now apply i32_small|].
      intros q Hq E. destruct (Hn q Hq) as [k E2]. congruence.
  - intros d [Hd| ->%list_elem_of_singleton]%elem_of_app.
    + destruct (Hm _ Hd) as (q & Hq & ?). exists q. rewrite elem_of_app. tauto.
    + exists p. rewrite elem_of_app, list_elem_of_singleton. simpl. tauto.
  - intros q Hq. destruct (decide (PName q = PName p)) as [->|]; [rewrite lookup_insert_eq; eauto|].
    rewrite lookup_insert_ne by congruence.
    apply elem_of_app in Hq as [Hq| ->%list_elem_of_singleton]; [auto|done].
Qed.

Lemma add_profiles_aggregated ps seen index profiles :
  Forall (fun p => is_i32 (PCount p)) ps -> aggregated seen index profiles ->
  aggregated (seen ++ ps) (fst (foldl add_profile (index, profiles) ps))
    (snd (foldl add_profile (index, profiles) ps)).
Proof.
  intros Hps. revert seen index profiles. induction Hps as [|p ps Hp Hps IH]; intros seen index profiles Ha;
    [now rewrite app_nil_r|].
  rewrite cons_middle, app_assoc. cbn [foldl]. unfold add_profile at 2 4.
  destruct (index !! PName p) as [k|] eqn:Hk; apply IH;
    [now apply (aggregated_bump _ _ _ _ _ Ha)|now apply aggregated_append].
Qed.

(** The first-level sums, with [int32] wrap-around. *)
Definition sum_of (f : AcceleratorStatus -> Z) (l : list AcceleratorStatus) : Z :=
  foldr (fun s n => f s + n) 0 l.

Definition detail_of (l : list AcceleratorStatus) (d : SlicedDetail) (index : gmap string nat) : Prop :=
  DLogicalCount d = i32 (sum_of LogicalCount l) /\
  DPhysicalCount d = i32 (sum_of PhysicalCount l) /\
  (DOvercommit d = true <-> exists s, s ∈ l /\ 0 < LogicalCount s /\ LogicalOvercommit s = true) /\
  aggregated (mjoin (PhysicalProfiles <$> l)) index (DProfiles d).

Lemma add_accelerator_detail l s d index :
  Forall (fun p => is_i32 (PCount p)) (PhysicalProfiles s) -> detail_of l d index ->
  detail_of (l ++ [s]) (fst (add_accelerator (d, index) s)) (snd (add_accelerator (d, index) s)).
Proof.
  intros Hp (Hl & Hph & Ho & Ha). unfold add_accelerator.
  pose proof (add_profiles_aggregated _ _ _ _ Hp Ha) as Hagg.
  destruct (foldl add_profile _ _) as [index' profiles']. simpl in *.
  assert (forall f, sum_of f (l ++ [s]) = sum_of f l + f s) as Hsum.
  { intros f. clear. induction l as [|x l IH]; simpl; lia. }
  unfold detail_of. simpl. rewrite !Hsum, Hl, Hph, !i32_add_idem. split_and!; auto.
  - destruct (_ && _) eqn:Hs.
    + apply andb_true_iff in Hs as [Hs1 Hs2]. split; [|done]. intros _. exists s.
      rewrite elem_of_app, list_elem_of_singleton. split_and!; auto; lia.
    + rewrite Ho. split.
      * intros (x & Hx & ?). exists x. rewrite elem_of_app. tauto.
      * intros (x & [Hx| ->%list_elem_of_singleton]%elem_of_app & H1 & H2); [eauto|].
        rewrite H2, andb_true_r in Hs. lia.
  - rewrite fmap_app, join_app. simpl. now rewrite app_nil_r.
Qed.

Lemma aggregate_detail l l0 d index :
  Forall (fun s => Forall (fun p => is_i32 (PCount p)) (PhysicalProfiles s)) l ->
  detail_of l0 d index ->
  detail_of (l0 ++ l) (fst (foldl add_accelerator (d, index) l))
    (snd (foldl add_accelerator (d, index) l)).
Proof.
  intros Hl. revert l0 d index. induction Hl as [|s l Hs Hl IH]; intros l0 d index Hd;
    [now rewrite app_nil_r|].
  rewrite cons_middle, app_assoc. cbn [foldl].
  pose proof (add_accelerator_detail _ _ _ _ Hs Hd) as Hd'.
  destruct (add_accelerator (d, index) s) as [d' index']. now apply IH.
Qed.

Lemma aggregated_nodup seen index profiles :
  aggregated seen index profiles -> NoDup (DName <$> profiles).
Proof.
  intros [Hi _ _ _]. apply NoDup_alt. intros i j name H1 H2. rewrite list_lookup_fmap in H1, H2.
  destruct (profiles !! i) as [di|] eqn:Ei, (profiles !! j) as [dj|] eqn:Ej; try done. simpl in *.
  assert (index !! name = Some i) by (apply Hi; exists di; split; congruence).
  assert (index !! name = Some j) by (apply Hi; exists dj; split; congruence). congruence.
Qed.

(** A group's slicing detail is the exact aggregate of its accelerators (in
    [int32] arithmetic): the logical and physical ceilings are the sums, the
    overcommit flag is set exactly when some logically sliceable accelerator
    sets it, and there is exactly one profile entry per profile name that occurs,
    holding the sum of that name's counts and the memory one accelerator
    reported for it. *)
Theorem aggregate_exact (accelerators : list AcceleratorStatus) :
  Forall (fun s => Forall (fun p => is_i32 (PCount p)) (PhysicalProfiles s)) accelerators ->
  let detail := AggregateAcceleratorSlicedDetail accelerators in
  let profiles := mjoin (PhysicalProfiles <$> accelerators) in
  DLogicalCount detail = i32 (sum_of LogicalCount accelerators) /\
  DPhysicalCount detail = i32 (sum_of PhysicalCount accelerators) /\
  (DOvercommit detail = true <->
     exists s, s ∈ accelerators /\ 0 < LogicalCount s /\ LogicalOvercommit s = true) /\
  NoDup (DName <$> DProfiles detail) /\
  (forall p, p ∈ profiles -> PName p ∈ DName <$> DProfiles detail) /\
  (forall d, d ∈ DProfiles detail -> DCount d = i32 (total (DName d) profiles) /\
     exists p, p ∈ profiles /\ PName p = DName d /\ PMemoryMib p = DMemoryMib d).
Proof.
  intros Hl detail profiles. pose proof (aggregate_detail accelerators []
    {| DLogicalCount := 0; DOvercommit := false; DPhysicalCount := 0; DProfiles := [] |} ∅ Hl) as Hd.
  destruct Hd as (H1 & H2 & H3 & H4).
  { unfold detail_of. split_and!; try reflexivity.
    - simpl. split; [done|]. intros (s & Hs & _). now apply not_elem_of_nil in Hs.
    - split; try (intros x Hx; now apply not_elem_of_nil in Hx).
      intros name k. rewrite lookup_empty. split; [done|]. now intros (d & Hd & _). }
  pose proof (aggregated_nodup _ _ _ H4) as H5. destruct H4 as [Hi Hc Hm Hn].
  split_and!; auto.
  intros p Hp. destruct (Hn p Hp) as [k Hk]. apply Hi in Hk as (d & Hd & <-).
  apply list_elem_of_fmap. exists d. split; [done|]. now apply list_elem_of_lookup_2 in Hd.
Qed.

Lemma aggregate_exact_witness :
  let accs := [{| Unhealthy := false; LogicalCount := 10; LogicalOvercommit := true; PhysicalCount := 0;
                  PhysicalProfiles := [] |};
               {| Unhealthy := false; LogicalCount := 0; LogicalOvercommit := true; PhysicalCount := 7;
                  PhysicalProfiles := [{| PName := "1g"; PMemoryMib := 4864; PComputeSlices := 1; PMemorySlices := 1; PCount := 7; PPlacements := [] |}] |};
               {| Unhealthy := false; LogicalCount := 0; LogicalOvercommit := false; PhysicalCount := 7;
                  PhysicalProfiles := [{| PName := "1g"; PMemoryMib := 4864; PComputeSlices := 1; PMemorySlices := 1; PCount := 7; PPlacements := [] |}] |}] in
  DProfiles (AggregateAcceleratorSlicedDetail accs)
    = [{| DName := "1g"; DCount := 14; DMemoryMib := 4864 |}] /\
  DLogicalCount (AggregateAcceleratorSlicedDetail accs) = i32 (sum_of LogicalCount accs).
Proof.
  intros accs. split; [reflexivity|].
  apply (aggregate_exact accs). repeat constructor; vm_compute; first [discriminate|reflexivity].
Defined.

(** ** Bus distance *)

Inductive TopologyDistance :=
  | DistanceSelf | DistanceLink | DistancePIX | DistancePXB | DistancePHB | DistanceNode
  | DistanceSys | DistanceUnknown.
#[export] Instance TopologyDistance_eq_dec : EqDecision TopologyDistance.
Proof. solve_decision. Defined.

(** The value the level is persisted as; a smaller value is closer. *)
Definition distance_value (d : TopologyDistance) : Z :=
  match d with
  | DistanceSelf => 0 | DistanceLink => 5 | DistancePIX => 10 | DistancePXB => 20
  | DistancePHB => 30 | DistanceNode => 40 | DistanceSys => 50 | DistanceUnknown => 100
  end.

(** The word of a persisted value. *)
Definition distance_string (value : Z) : string :=
  match value with
  | 0 => "SELF" | 5 => "LINK" | 10 => "PIX" | 20 => "PXB" | 30 => "PHB" | 40 => "NODE"
  | 50 => "SYS" | _ => "UNK"
  end.

(** The bus coordinates both an accelerator and a network interface publish. *)
Record BusCoordinates := {
  PciBusID : string; PciRootID : string; PciSwitches : list string; NumaAffinity : string }.

Definition same_innermost (a b : list string) : bool :=
  match a, b with
  | x :: _, y :: _ => bool_decide (x = y)
  | _, _ => false
  end.

Definition BusDistance (accelerator iface : BusCoordinates) : TopologyDistance :=
  if bool_decide (PciBusID accelerator = "") || bool_decide (PciBusID iface = "")
     || bool_decide (PciRootID accelerator = "") || bool_decide (PciRootID iface = "")
  then DistanceUnknown
  else if same_innermost (PciSwitches accelerator) (PciSwitches iface) then DistancePIX
  else if bool_decide (PciRootID accelerator = PciRootID iface) then DistancePXB
  else if bool_decide (NumaAffinity accelerator = "") || bool_decide (NumaAffinity iface = "")
  then DistanceUnknown
  else if bool_decide (NumaAffinity accelerator = NumaAffinity iface) then DistanceNode
  else DistanceSys.

Lemma same_innermost_spec a b :
  same_innermost a b = true <-> exists s, head a = Some s /\ head b = Some s.
Proof.
  destruct a as [|x a], b as [|y b]; simpl; split; try done; try (intros (s & ? & ?); congruence).
  - intros ->%bool_decide_eq_true. eauto.
  - intros (s & [= ->] & [= ->]). now apply bool_decide_eq_true.
Qed.

Lemma bool_decide_sym {A} `{EqDecision A} (x y : A) : bool_decide (x = y) = bool_decide (y = x).
Proof. apply bool_decide_ext. split; congruence. Qed.

Lemma same_innermost_sym a b : same_innermost a b = same_innermost b a.
Proof. destruct a, b; simpl; auto using bool_decide_sym. Qed.

Lemma bus_distance_sym a b : BusDistance b a = BusDistance a b.
Proof.
  unfold BusDistance. rewrite (same_innermost_sym (PciSwitches b)).
  rewrite (bool_decide_sym (PciRootID b) (PciRootID a)), (bool_decide_sym (NumaAffinity b) (NumaAffinity a)).
  rewrite (orb_comm (bool_decide (PciBusID b = _))).
  rewrite <- !orb_assoc. rewrite (orb_comm (bool_decide (PciRootID b = _))).
  now rewrite (orb_comm (bool_decide (NumaAffinity b = ""))).
Qed.

(** The bus distance is symmetric, never overclaims (it answers at most PIX,
    and never a level the coordinates cannot show), tells "far" from "unknown"
    (an unknown answer means a coordinate is missing), and places a pair within
    one NUMA node only on equal, known NUMA nodes or a shared bridge. *)
Theorem bus_distance_sound (a b : BusCoordinates) :
  let d := BusDistance a b in
  BusDistance b a = d /\
  (d = DistancePIX \/ d = DistancePXB \/ d = DistanceNode \/ d = DistanceSys \/ d = DistanceUnknown) /\
  (d = DistanceUnknown -> PciBusID a = "" \/ PciBusID b = "" \/ PciRootID a = "" \/ PciRootID b = ""
     \/ NumaAffinity a = "" \/ NumaAffinity b = "") /\
  (distance_value d <= distance_value DistanceNode ->
     (exists s, head (PciSwitches a) = Some s /\ head (PciSwitches b) = Some s) \/
     (PciRootID a = PciRootID b /\ PciRootID a <> "") \/
     (NumaAffinity a = NumaAffinity b /\ NumaAffinity a <> "")).
Proof.
  cbv zeta. split; [apply bus_distance_sym|]. unfold BusDistance.
  destruct (_ || _ || _ || _) eqn:H1.
  { rewrite !orb_true_iff, !bool_decide_eq_true in H1.
    split; [auto 6|]. split; [intros _; tauto|]. simpl. lia. }
  rewrite !orb_false_iff, !bool_decide_eq_false in H1.
  destruct (same_innermost _ _) eqn:H2.
  { apply same_innermost_spec in H2. split; [auto|]. split; [discriminate|auto]. }
  case_bool_decide as H3.
  { split; [auto|]. split; [discriminate|]. intros _. right. left. tauto. }
  destruct (_ || _) eqn:H4.
  { rewrite orb_true_iff, !bool_decide_eq_true in H4.
    split; [auto 6|]. split; [intros _; tauto|]. simpl. lia. }
  rewrite orb_false_iff, !bool_decide_eq_false in H4.
  case_bool_decide as H5; (split; [auto 6|]; split; [discriminate|simpl]); [intros _; tauto|lia].
Qed.
