(* ===== verification/CuMask.v ===== *)
(** * Compute-unit masks

    src/pkg/devicemanager/allocator/amd/cumask.go: how a percentage of an AMD
    accelerator becomes a window of compute units, where the window is put next
    to the ones already handed out, and how it is rendered.  The theorems say
    which percentages are served and with how many units, and that the position
    chosen is the one sharing the fewest occupied units. *)

From stdpp Require Import prelude list strings sorting pretty.
From S2P Require Import Prelude Mathx Device.

(** ** The accelerator *)

Record Topology := { TName : string; CU : Z; SE : Z; SAPerSE : Z; XCC : Z }.

Inductive mask_error :=
  | NoComputeUnits | UnknownFamily | NoXCC | NoShaderEngines | OddUnits | TooManyEngines
  | QuantumRemainder | NotAPercentage | BelowQuantum (minPercent : Z).

Definition has_prefix (p s : string) : bool := bool_decide (String.substring 0 (String.length p) s = p).

(** [Some true] on the CDNA/GCN arithmetic, [Some false] on RDNA, [None] when the
    name is not recognized. *)
Definition family (t : Topology) : option bool :=
  if has_prefix "gfx10" (TName t) || has_prefix "gfx11" (TName t) || has_prefix "gfx12" (TName t)
  then Some false
  else if has_prefix "gfx9" (TName t) then Some true
  else None.

Definition IsCDNAFamily (t : Topology) : bool := match family t with Some cdna => cdna | None => false end.

Definition xcc (t : Topology) : Z := Z.max (XCC t) 1.

Definition Quantum (t : Topology) : Z := if IsCDNAFamily t then xcc t else i64 (2 * SE t).

Definition Validate (t : Topology) : option mask_error :=
  if CU t <=? 0 then Some NoComputeUnits
  else
    match family t with
    | None => Some UnknownFamily
    | Some cdna =>
        let family_error :=
          if cdna then if XCC t <=? 0 then Some NoXCC else None
          else if SE t <=? 0 then Some NoShaderEngines
          else if negb (go_rem (CU t) 2 =? 0) then Some OddUnits
          else if go_quot (CU t) 2 <? SE t then Some TooManyEngines
          else None in
        match family_error with
        | Some err => Some err
        | None => if negb (go_rem (CU t) (Quantum t) =? 0) then Some QuantumRemainder else None
        end
    end.

Definition MinPercent (t : Topology) : Z :=
  let '(units, atom) :=
    if IsCDNAFamily t then (CU t, xcc t) else (go_quot (CU t) 2, SE t) in
  CeilDiv i64 (i64 (i64 (100 * atom) - 50)) units.

Definition WindowCUs (t : Topology) (pct : Z) : mask_error + Z :=
  match Validate t with
  | Some err => inl err
  | None =>
      if (pct <=? 0) || (100 <? pct) then inl NotAPercentage
      else if IsCDNAFamily t then
        let x := xcc t in
        let n := i64 (go_quot (RoundDiv i64 (i64 (CU t * pct)) 100) x * x) in
        if n =? 0 then inl (BelowQuantum (MinPercent t)) else inr (Z.min n (CU t))
      else
        let wgps := go_quot (CU t) 2 in
        let n := i64 (go_quot (RoundDiv i64 (i64 (wgps * pct)) 100) (SE t) * SE t) in
        if n =? 0 then inl (BelowQuantum (MinPercent t)) else inr (i64 (2 * Z.min n wgps))
  end.

(** ** Occupancy *)

Definition clamp (cu : Z) (p : AcceleratorPlacement) : list AcceleratorPlacement :=
  let start := Z.max (Start p) 0 in
  let stop := Z.min (Start p + Length p) cu in
  if stop <=? start then [] else [Placement (i32 start) (i32 (stop - start))].

Definition start_le (p q : AcceleratorPlacement) : Prop := Start p <= Start q.
#[export] Instance start_le_dec : RelDecision start_le.
Proof. intros p q. unfold start_le. apply _. Defined.

(** The merging loop; [last] is the last interval of the result so far. *)
Fixpoint merge_from (last : AcceleratorPlacement) (l : list AcceleratorPlacement)
    : list AcceleratorPlacement :=
  match l with
  | [] => [last]
  | p :: l =>
      if Start p <=? i32 (Start last + Length last)
      then merge_from (Placement (Start last)
             (Z.max (Length last) (i32 (i32 (Start p + Length p) - Start last)))) l
      else last :: merge_from p l
  end.

Definition mergePlacements (l : list AcceleratorPlacement) (cu : Z) : list AcceleratorPlacement :=
  match merge_sort start_le (mjoin (clamp cu <$> l)) with
  | [] => []
  | p :: l => merge_from p l
  end.

Definition coveredCUs (merged : list AcceleratorPlacement) (start stop : Z) : Z :=
  foldl (fun total p =>
      let lo := Z.max (Start p) start in
      let hi := Z.min (Start p + Length p) stop in
      if lo <? hi then total + (hi - lo) else total) 0 merged.

(** ** The position *)

(** The scan over the quantised starts from [start]; [fuel] bounds the number of
    starts left. *)
Fixpoint pack_loop (fuel : nat) (cu q length : Z) (covered : list AcceleratorPlacement)
    (start best bestOverlap : Z) : Z :=
  match fuel with
  | O => best
  | S fuel =>
      if start + length <=? cu then
        let overlap := coveredCUs covered start (start + length) in
        if overlap =? 0 then start
        else
          let '(best, bestOverlap) :=
            if (bestOverlap <? 0) || (overlap <? bestOverlap) then (start, overlap)
            else (best, bestOverlap) in
          pack_loop fuel cu q length covered (start + q) best bestOverlap
      else best
  end.

Definition PackWindow (t : Topology) (length : Z) (occupied : list AcceleratorPlacement)
    : AcceleratorPlacement :=
  if (length <=? 0) || (CU t <=? 0) then Placement 0 0
  else
    let q := if Quantum t <=? 0 then 1 else Quantum t in
    let length := Z.min length (CU t) in
    let covered := mergePlacements occupied (CU t) in
    let best := pack_loop (Z.to_nat (CU t) + 1) (CU t) q length covered 0 0 (-1) in
    Placement (i32 best) (i32 length).

Definition Mask (index : Z) (w : AcceleratorPlacement) : string :=
  pretty index +:+ ":" +:+ pretty (Start w) +:+ "-" +:+ pretty (i32 (i32 (Start w + Length w) - 1)).

(** ** Windows *)

(** A topology [Validate] accepts, within the [int32] the placements use. *)
Definition usable (t : Topology) : Prop := Validate t = None /\ CU t < 2 ^ 31.

Lemma usable_spec t :
  usable t ->
  0 < CU t < 2 ^ 31 /\
  (if IsCDNAFamily t then Quantum t = XCC t /\ 0 < XCC t
   else Quantum t = 2 * SE t /\ 0 < SE t /\ CU t = 2 * (CU t / 2) /\ SE t <= CU t / 2) /\
  CU t mod Quantum t = 0 /\ 0 < Quantum t <= CU t.
Proof.
  intros [Hv Hb]. unfold Validate in Hv.
  destruct (Z.leb_spec (CU t) 0); [done|]. split; [lia|].
  assert (Quantum t = if IsCDNAFamily t then xcc t else i64 (2 * SE t)) as Hq by reflexivity.
  unfold IsCDNAFamily in *. destruct (family t) as [cdna|]; [|done].
  destruct cdna.
  - destruct (Z.leb_spec (XCC t) 0); [done|]. unfold xcc in Hq. rewrite Z.max_l in Hq by lia.
    rewrite Hq in Hv |- *. destruct (negb _) eqn:Hr; [done|].
    apply negb_false_iff, Z.eqb_eq in Hr. rewrite Z.rem_mod_nonneg in Hr by lia.
    split_and!; auto. apply Z.mod_divide in Hr; [|lia]. apply Z.divide_pos_le in Hr; lia.
  - destruct (Z.leb_spec (SE t) 0); [done|].
    destruct (negb (go_rem (CU t) 2 =? 0)) eqn:Ho; [done|].
    rewrite Z.quot_div_nonneg in Hv by lia. destruct (Z.ltb_spec (CU t / 2) (SE t)); [done|].
    apply negb_false_iff, Z.eqb_eq in Ho. rewrite Z.rem_mod_nonneg in Ho by lia.
    pose proof (Z.div_mod (CU t) 2 ltac:(lia)).
    rewrite i64_small in Hq by (unfold is_i64; lia).
    rewrite Hq in Hv |- *. destruct (negb _) eqn:Hr; [done|].
    apply negb_false_iff, Z.eqb_eq in Hr. rewrite Z.rem_mod_nonneg in Hr by lia.
    split_and!; auto; lia.
Qed.

(** The units of a topology (compute units, or pairs of them) and the multiple
    they are handed out in. *)
Definition units (t : Topology) : Z := if IsCDNAFamily t then CU t else CU t / 2.
Definition atom (t : Topology) : Z := if IsCDNAFamily t then XCC t else SE t.
Definition unit_size (t : Topology) : Z := if IsCDNAFamily t then 1 else 2.

Lemma units_spec t :
  usable t ->
  0 < atom t <= units t /\ units t < 2 ^ 31 /\ units t mod atom t = 0 /\
  CU t = unit_size t * units t /\ Quantum t = unit_size t * atom t /\ 1 <= unit_size t <= 2.
Proof.
  intros H. destruct (usable_spec t H) as (H1 & H2 & H3 & H4). unfold units, atom, unit_size.
  destruct (IsCDNAFamily t).
  - destruct H2 as [Hq ?]. rewrite Hq in *. split_and!; auto; lia.
  - destruct H2 as (Hq & ? & Hcu & ?). split_and!; try lia.
    rewrite Hq in H3. rewrite Hcu in H3. rewrite Z.mul_mod_distr_l in H3 by lia. lia.
Qed.

Lemma aligned_share u a pct :
  0 < a <= u -> u < 2 ^ 31 -> 0 < pct <= 100 ->
  i64 (go_quot (RoundDiv i64 (i64 (u * pct)) 100) a * a) = (u * pct + 50) / 100 / a * a /\
  0 <= (u * pct + 50) / 100 / a * a <= u * pct + 50.
Proof.
  intros Ha Hu Hp. assert (0 < u * pct <= u * 100) by nia.
  assert (0 <= (u * pct + 50) / 100) by (apply Z.div_pos; lia).
  assert (100 * ((u * pct + 50) / 100) <= u * pct + 50) by (apply Z.mul_div_le; lia).
  assert (0 <= (u * pct + 50) / 100 / a) by (apply Z.div_pos; lia).
  assert (a * ((u * pct + 50) / 100 / a) <= (u * pct + 50) / 100) by (apply Z.mul_div_le; lia).
  split; [|lia].
  rewrite (i64_small (u * pct)) by (unfold is_i64; lia). rewrite round_div_nonneg by (change (100 / 2) with 50; lia).
  change (100 / 2) with 50. rewrite Z.quot_div_nonneg by lia. apply i64_small. unfold is_i64. lia.
Qed.

Lemma window_cus_usable t pct :
  usable t ->
  WindowCUs t pct =
  if (pct <=? 0) || (100 <? pct) then inl NotAPercentage
  else
    let n := (units t * pct + 50) / 100 / atom t * atom t in
    if n =? 0 then inl (BelowQuantum (MinPercent t)) else inr (unit_size t * Z.min n (units t)).
Proof.
  intros H. destruct (units_spec t H) as (Ha & Hu & _ & Hcu & _). destruct (usable_spec t H) as (H1 & H2 & _).
  unfold WindowCUs. rewrite (proj1 H). destruct ((pct <=? 0) || (100 <? pct)) eqn:Hp; [done|].
  apply orb_false_iff in Hp as [?%Z.leb_gt ?%Z.ltb_ge].
  pose proof (aligned_share (units t) (atom t) pct Ha Hu ltac:(lia)) as [Hs Hr].
  unfold units, atom, unit_size in *. cbv zeta. destruct (IsCDNAFamily t).
  - unfold xcc. rewrite Z.max_l by lia. rewrite Hs. now rewrite Z.mul_1_l.
  - rewrite (Z.quot_div_nonneg (CU t)) by lia. rewrite Hs. destruct (_ =? 0); [done|].
    f_equal. apply i64_small. unfold is_i64. lia.
Qed.

Lemma min_percent_usable t : usable t -> MinPercent t = (100 * atom t - 50 + units t - 1) / units t.
Proof.
  intros H. destruct (units_spec t H) as (Ha & Hu & _). destruct (usable_spec t H) as (H1 & H2 & _).
  assert (MinPercent t = CeilDiv i64 (i64 (i64 (100 * atom t) - 50)) (units t)) as ->.
  { unfold MinPercent, units, atom, xcc in *. destruct (IsCDNAFamily t).
    - now rewrite Z.max_l by lia.
    - now rewrite Z.quot_div_nonneg by lia. }
  rewrite (i64_small (100 * atom t)) by (unfold is_i64; lia).
  rewrite i64_small by (unfold is_i64; lia). now rewrite ceil_div_nonneg by lia.
Qed.

Lemma share_positive_iff u a pct :
  0 < a <= u -> 0 < pct ->
  (u * pct + 50) / 100 / a * a <> 0 <-> (100 * a - 50 + u - 1) / u <= pct.
Proof.
  intros Ha Hp. assert (0 <= (u * pct + 50) / 100) by (apply Z.div_pos; nia).
  trans (a <= (u * pct + 50) / 100).
  { split.
    - intros Hn. destruct (Z.le_gt_cases a ((u * pct + 50) / 100)); [done|].
      rewrite Z.div_small in Hn by lia. lia.
    - intros Hle. assert (1 <= (u * pct + 50) / 100 / a) by (apply Z.div_le_lower_bound; lia). lia. }
  split; intros Hle.
  - apply Z.lt_succ_r, Z.div_lt_upper_bound; [lia|].
    assert (100 * ((u * pct + 50) / 100) <= u * pct + 50) by (apply Z.mul_div_le; lia). nia.
  - apply Z.div_le_lower_bound; [lia|].
    pose proof (Z.mul_succ_div_gt (100 * a - 50 + u - 1) u ltac:(lia)). nia.
Qed.

(** On a topology that validates, a percentage is served exactly when it
    lies between the smallest one the refusal names and 100; the window is then
    a positive number of whole quanta within the accelerator, at most one unit's
    rounding above the share asked for and less than one quantum and that
    rounding below it. *)
Theorem window_cus_exact (t : Topology) (pct : Z) :
  usable t ->
  ((exists n, WindowCUs t pct = inr n) <-> MinPercent t <= pct <= 100) /\
  (forall n, WindowCUs t pct = inr n ->
     0 < n <= CU t /\ n mod Quantum t = 0 /\
     100 * n <= CU t * pct + 100 /\ CU t * pct < 100 * (n + Quantum t) + 100).
Proof.
  intros H. rewrite window_cus_usable, min_percent_usable by done.
  destruct (units_spec t H) as (Ha & Hu & Hm & Hcu & Hq & Hk).
  assert (1 <= (100 * atom t - 50 + units t - 1) / units t) by (apply Z.div_le_lower_bound; lia).
  destruct ((pct <=? 0) || (100 <? pct)) eqn:Hp.
  { apply orb_true_iff in Hp as [?%Z.leb_le|?%Z.ltb_lt]; (split; [|done]);
      split; try lia; intros [? [=]]. }
  apply orb_false_iff in Hp as [?%Z.leb_gt ?%Z.ltb_ge]. cbv zeta.
  pose proof (share_positive_iff (units t) (atom t) pct Ha ltac:(lia)) as Hs.
  set (r := (units t * pct + 50) / 100) in *.
  assert (100 * r <= units t * pct + 50 < 100 * (r + 1)) as Hr.
  { pose proof (Z.mul_div_le (units t * pct + 50) 100 ltac:(lia)).
    pose proof (Z.mul_succ_div_gt (units t * pct + 50) 100 ltac:(lia)). unfold r. lia. }
  assert (r <= units t) by nia. assert (0 <= r) by nia.
  pose proof (Z.mul_div_le r (atom t) ltac:(lia)). pose proof (Z.mul_succ_div_gt r (atom t) ltac:(lia)).
  assert (0 <= r / atom t) by (apply Z.div_pos; lia).
  destruct (Z.eqb_spec (r / atom t * atom t) 0) as [Hz|Hz].
  - split; [|done]. split; [intros [? [=]]|]. tauto.
  - split; [split; [intros _; split; [tauto|lia]|eauto]|]. intros n [= <-].
    rewrite Z.min_l by lia. rewrite Hcu, Hq. split_and!; try nia.
    rewrite (Z.mul_comm (r / _)), Z.mul_assoc, Z.mul_comm. apply Z.mod_mul. nia.
Qed.

Lemma window_cus_exact_witness :
  let t := {| TName := "gfx942"; CU := 304; SE := 32; SAPerSE := 1; XCC := 8 |} in
  WindowCUs t 3 = inr 8 /\ WindowCUs t 2 = inl (BelowQuantum 3) /\
  (exists n, WindowCUs t 25 = inr n) /\ 8 mod Quantum t = 0.
Proof.
  assert (usable {| TName := "gfx942"; CU := 304; SE := 32; SAPerSE := 1; XCC := 8 |}) as H
    by (split; [reflexivity|simpl; lia]).
  split_and!; [reflexivity|reflexivity| |].
  - apply (window_cus_exact _ 25 H). vm_compute. split; discriminate.
  - apply (window_cus_exact _ 3 H). reflexivity.
Defined.

(** ** Merging *)

Definition covers_unit (p : AcceleratorPlacement) (x : Z) : bool :=
  (Start p <=? x) && (x <? Start p + Length p).

Definition covered_by (l : list AcceleratorPlacement) (x : Z) : bool := existsb (fun p => covers_unit p x) l.

(** How many of the [n] integers from [a] satisfy [P]. *)
Fixpoint count_in (P : Z -> bool) (a : Z) (n : nat) : Z :=
  match n with
  | O => 0
  | S n => (if P a then 1 else 0) + count_in P (a + 1) n
  end.

(** The compute units of the window at [start] already in some occupied interval. *)
Definition shared_units (occupied : list AcceleratorPlacement) (start length : Z) : Z :=
  count_in (covered_by occupied) start (Z.to_nat length).

Lemma count_in_ext P Q a n :
  (forall x, a <= x < a + Z.of_nat n -> P x = Q x) -> count_in P a n = count_in Q a n.
Proof.
  revert a. induction n as [|n IH]; intros a H; [done|]. cbn [count_in].
  rewrite (H a) by lia. rewrite (IH (a + 1)); [done|]. intros x Hx. apply H. lia.
Qed.

Lemma count_in_split P Q a n :
  (forall x, P x = true -> Q x = false) ->
  count_in (fun x => P x || Q x) a n = count_in P a n + count_in Q a n.
Proof.
  intros H. revert a. induction n as [|n IH]; intros a; [done|]. cbn [count_in]. rewrite IH.
  specialize (H a). destruct (P a), (Q a); simpl; lia.
Qed.

Lemma count_in_covers p a n :
  count_in (covers_unit p) a n = Z.max 0 (Z.min (Start p + Length p) (a + Z.of_nat n) - Z.max (Start p) a).
Proof.
  revert a. induction n as [|n IH]; intros a; [simpl; lia|]. cbn [count_in]. rewrite IH. unfold covers_unit.
  destruct (Z.leb_spec (Start p) a), (Z.ltb_spec a (Start p + Length p)); simpl; lia.
Qed.

(** Positive intervals in order, none starting before the end of the previous. *)
Fixpoint separated (from : Z) (l : list AcceleratorPlacement) : Prop :=
  match l with
  | [] => True
  | p :: l => from <= Start p /\ 0 < Length p /\ separated (Start p + Length p) l
  end.

Lemma separated_weaken a b l : a <= b -> separated b l -> separated a l.
Proof. destruct l; simpl; [done|]. intros ? (? & ? & ?). split_and!; auto; lia. Qed.

Lemma separated_below from l x : separated from l -> x < from -> covered_by l x = false.
Proof.
  revert from. induction l as [|p l IH]; intros from Hs Hx; [done|]. destruct Hs as (Hf & Hl & Hs).
  unfold covered_by. cbn [existsb]. fold (covered_by l x). rewrite (IH _ Hs) by lia.
  unfold covers_unit. destruct (Z.leb_spec (Start p) x); [lia|done].
Qed.

Lemma covered_cus_count from l start n :
  separated from l ->
  coveredCUs l start (start + Z.of_nat n) = count_in (covered_by l) start n.
Proof.
  unfold coveredCUs. set (f := fun _ _ => _).
  assert (forall l total, foldl f total l = total + foldl f 0 l) as Hacc.
  { clear l. induction l as [|p l IH]; intros total; simpl; [lia|].
    rewrite (IH (f total p)), (IH (f 0 p)). unfold f. destruct (_ <? _); lia. }
  revert from. induction l as [|p l IH]; intros from Hs.
  { simpl. clear. revert start. induction n as [|n IH]; intros start; [done|]. cbn [count_in]. rewrite <- IH. done. }
  destruct Hs as (Hf & Hl & Hs). cbn [foldl]. rewrite Hacc, (IH _ Hs).
  transitivity (count_in (fun x => covers_unit p x || covered_by l x) start n); [|done].
  rewrite count_in_split.
  - rewrite count_in_covers. unfold f. destruct (Z.ltb_spec (Z.max (Start p) start)
      (Z.min (Start p + Length p) (start + Z.of_nat n))); lia.
  - intros x Hx. unfold covers_unit in Hx. apply andb_true_iff in Hx as [_ ?%Z.ltb_lt].
    eapply separated_below; [done|lia].
Qed.

(** An interval as [clamp] leaves it on an accelerator of [cu] units. *)
Definition inside (cu : Z) (p : AcceleratorPlacement) : Prop :=
  0 <= Start p /\ 0 < Length p /\ Start p + Length p <= cu.

Lemma merge_from_spec cu last l :
  cu < 2 ^ 31 -> inside cu last -> Forall (inside cu) l -> Sorted start_le (last :: l) ->
  separated (Start last) (merge_from last l) /\
  forall x, covered_by (merge_from last l) x = covered_by (last :: l) x.
Proof.
  intros Hcu. revert last. induction l as [|p l IH]; intros last Hlast Hl Hsort.
  { destruct Hlast as (? & ? & ?). simpl. split; [lia|done]. }
  inversion Hl as [|?? Hp Hl']; subst. destruct Hlast as (? & ? & ?), Hp as (? & ? & ?).
  apply Sorted_inv in Hsort as [Hsort Hle]. inversion Hle as [|? ? Hle']; subst. unfold start_le in Hle'.
  cbn [merge_from]. rewrite (i32_small (Start last + Length last)) by (unfold is_i32; lia).
  rewrite (i32_small (Start p + Length p)) by (unfold is_i32; lia).
  rewrite i32_small by (unfold is_i32; lia).
  destruct (Z.leb_spec (Start p) (Start last + Length last)).
  - set (m := Placement _ _). destruct (IH m) as [IHs IHc]; [|done| |].
    { unfold inside, m. simpl. lia. }
    { apply Sorted_inv in Hsort as [Hsort Hle2]. constructor; [done|].
      destruct Hle2 as [|? ? Hle2]; constructor. unfold start_le, m in *. simpl. lia. }
    split; [done|]. intros x. rewrite IHc. unfold covered_by. cbn [existsb]. rewrite orb_assoc. f_equal.
    unfold covers_unit, m. cbn [Start Length].
    apply eq_true_iff_eq. rewrite orb_true_iff, !andb_true_iff, !Z.leb_le, !Z.ltb_lt. lia.
  - destruct (IH p) as [IHs IHc]; [done|done|done|]. split.
    + cbn [separated]. split_and!; [lia|lia|]. eapply separated_weaken; [|done]. lia.
    + intros x. unfold covered_by in *. cbn [existsb] in *. now rewrite IHc.
Qed.

Lemma clamp_inside cu p : cu < 2 ^ 31 -> Forall (inside cu) (clamp cu p).
Proof.
  intros Hcu. unfold clamp. destruct (Z.leb_spec (Z.min (Start p + Length p) cu) (Z.max (Start p) 0)); [done|].
  constructor; [|done]. unfold inside. cbn [Start Length]. rewrite !i32_small by (unfold is_i32; lia). lia.
Qed.

Lemma clamp_covers cu p x :
  cu < 2 ^ 31 -> 0 <= x < cu -> covered_by (clamp cu p) x = covers_unit p x.
Proof.
  intros Hcu Hx. unfold clamp.
  destruct (Z.leb_spec (Z.min (Start p + Length p) cu) (Z.max (Start p) 0)).
  - symmetry. apply not_true_iff_false. unfold covers_unit. rewrite andb_true_iff, Z.leb_le, Z.ltb_lt. lia.
  - unfold covered_by. cbn [existsb]. rewrite orb_false_r. unfold covers_unit. cbn [Start Length].
    rewrite !i32_small by (unfold is_i32; lia).
    apply eq_true_iff_eq. rewrite !andb_true_iff, !Z.leb_le, !Z.ltb_lt. lia.
Qed.

Lemma covered_by_true l x : covered_by l x = true <-> exists p, p ∈ l /\ covers_unit p x = true.
Proof.
  unfold covered_by. rewrite existsb_exists. split; intros (p & Hp & Hc); exists p; split; auto;
    now apply list_elem_of_In.
Qed.

Lemma covered_by_perm l k x : l ≡ₚ k -> covered_by l x = covered_by k x.
Proof. intros H. apply eq_true_iff_eq. rewrite !covered_by_true. now setoid_rewrite H. Qed.

Lemma covered_by_clamped cu l x :
  cu < 2 ^ 31 -> 0 <= x < cu -> covered_by (mjoin (clamp cu <$> l)) x = covered_by l x.
Proof.
  intros Hcu Hx. induction l as [|p l IH]; [done|].
  assert (forall a b, covered_by (a ++ b) x = covered_by a x || covered_by b x) as Happ
    by (intros; apply existsb_app).
  cbn [fmap list_fmap mjoin list_join]. rewrite Happ, clamp_covers by done.
  unfold covered_by at 2. cbn [existsb]. fold (covered_by l x). now rewrite <- IH.
Qed.

#[export] Instance start_le_total : Total start_le.
Proof. intros p q. unfold start_le. lia. Qed.

Lemma merge_placements_spec l cu :
  cu < 2 ^ 31 ->
  separated 0 (mergePlacements l cu) /\
  forall x, 0 <= x < cu -> covered_by (mergePlacements l cu) x = covered_by l x.
Proof.
  intros Hcu. unfold mergePlacements.
  assert (Forall (inside cu) (mjoin (clamp cu <$> l))) as Hin.
  { induction l as [|p l IH]; [constructor|]. cbn [fmap list_fmap mjoin list_join].
    apply Forall_app. split; [now apply clamp_inside|done]. }
  pose proof (fun x => covered_by_clamped cu l x Hcu) as Hcl.
  pose proof (merge_sort_Permutation start_le (mjoin (clamp cu <$> l))) as Hperm.
  assert (Sorted start_le (merge_sort start_le (mjoin (clamp cu <$> l)))) as Hsort.
  { apply Sorted_merge_sort, _. }
  rewrite <- Hperm in Hin. destruct (merge_sort _ _) as [|p k].
  - split; [done|]. intros x Hx. rewrite <- Hcl by done. now apply covered_by_perm.
  - inversion Hin as [|?? Hp Hk]; subst. destruct (merge_from_spec cu p k Hcu Hp Hk Hsort) as [Hs Hc].
    split; [destruct Hp; eapply separated_weaken; [|done]; lia|].
    intros x Hx. rewrite Hc, <- Hcl by done. now apply covered_by_perm.
Qed.

(** ** Packing *)

Lemma covered_merged occupied cu start length :
  cu < 2 ^ 31 -> 0 <= start -> 0 <= length -> start + length <= cu ->
  coveredCUs (mergePlacements occupied cu) start (start + length) = shared_units occupied start length.
Proof.
  intros Hcu Hs Hl He. destruct (merge_placements_spec occupied cu Hcu) as [Hsep Hc].
  replace (start + length) with (start + Z.of_nat (Z.to_nat length)) by lia.
  rewrite (covered_cus_count 0) by done. apply count_in_ext. intros x Hx. apply Hc. lia.
Qed.

Section packing.
Context (cu q length : Z) (occupied : list AcceleratorPlacement).
Context (Hcu : 0 < cu < 2 ^ 31) (Hq : 0 < q) (Hlen : 0 < length <= cu).

(** The starts the scan may choose. *)
Definition quantised_start (s : Z) : Prop := 0 <= s /\ s mod q = 0 /\ s + length <= cu.

(** Fewer shared units, the lower start on a tie. *)
Definition no_worse (s s' : Z) : Prop :=
  shared_units occupied s length < shared_units occupied s' length \/
  shared_units occupied s length = shared_units occupied s' length /\ s <= s'.

(** What the scan knows on reaching [start]. *)
Definition scanned (start best bestOverlap : Z) : Prop :=
  start = 0 /\ best = 0 /\ bestOverlap = -1 \/
  quantised_start best /\ best < start /\ bestOverlap = shared_units occupied best length /\ 0 < bestOverlap /\
  forall s, quantised_start s -> s < start -> no_worse best s.

Lemma count_in_nonneg P a n : 0 <= count_in P a n.
Proof. revert a. induction n as [|n IH]; intros a; simpl; [lia|]. specialize (IH (a + 1)). destruct (P a); lia. Qed.

Lemma quantised_next start s :
  start mod q = 0 -> quantised_start s -> s < start + q -> s <= start.
Proof.
  intros Hs (H0 & Hm & He) Hlt. apply Z.mod_divide in Hs as [a ->]; [|lia].
  apply Z.mod_divide in Hm as [b ->]; [|lia].
  replace (a * q + q) with ((a + 1) * q) in Hlt by lia.
  apply Z.mul_lt_mono_pos_r in Hlt; [|lia]. apply Z.mul_le_mono_nonneg_r; lia.
Qed.

Lemma scanned_step start best bestOverlap :
  quantised_start start -> scanned start best bestOverlap -> shared_units occupied start length <> 0 ->
  let '(best', overlap') :=
    if (bestOverlap <? 0) || (shared_units occupied start length <? bestOverlap)
    then (start, shared_units occupied start length) else (best, bestOverlap) in
  scanned (start + q) best' overlap'.
Proof.
  intros Hstart Hscan Hne. assert (0 < shared_units occupied start length) as Hpos.
  { pose proof (count_in_nonneg (covered_by occupied) start (Z.to_nat length)).
    unfold shared_units in *. lia. }
  destruct Hscan as [(-> & -> & ->)|(Hb & Hlast & -> & Hp & Hbest)].
  - simpl. right. split; [done|]. split; [lia|]. split; [done|]. split; [lia|]. intros s Hs Hlt.
    pose proof (quantised_next 0 s ltac:(apply Hstart) Hs Hlt). destruct Hs.
    assert (s = 0) as -> by lia. unfold no_worse. lia.
  - destruct (Z.ltb_spec (shared_units occupied best length) 0); [lia|]. cbn [orb].
    destruct (Z.ltb_spec (shared_units occupied start length) (shared_units occupied best length)) as [Hlt|Hge];
      right; (split; [done|split; [lia|split; [done|split; [lia|]]]]); intros s Hs Hs';
      pose proof (quantised_next start s ltac:(apply Hstart) Hs Hs');
      (destruct (decide (s = start)) as [->|]; [|specialize (Hbest s Hs ltac:(lia))]);
      unfold no_worse in *; lia.
Qed.

Lemma pack_loop_spec fuel start best bestOverlap :
  cu < start + Z.of_nat fuel -> 0 <= start -> start mod q = 0 -> scanned start best bestOverlap ->
  let r := pack_loop fuel cu q length (mergePlacements occupied cu) start best bestOverlap in
  quantised_start r /\ forall s, quantised_start s -> no_worse r s.
Proof.
  revert start best bestOverlap. induction fuel as [|fuel IH]; intros start best bestOverlap Hf H0 Hm Hscan.
  { assert (cu < start) by lia. destruct Hscan as [(? & _)|(Hb & _ & _ & _ & Hbest)]; [lia|].
    split; [done|]. intros s Hs. apply Hbest; [done|]. destruct Hs as (_ & _ & ?). lia. }
  cbn [pack_loop]. destruct (Z.leb_spec (start + length) cu) as [Hle|Hgt].
  - assert (quantised_start start) as Hstart by done. rewrite covered_merged by lia. cbv zeta.
    destruct (Z.eqb_spec (shared_units occupied start length) 0) as [Hz|Hz].
    + split; [done|]. intros s Hs. unfold no_worse. rewrite Hz.
      pose proof (count_in_nonneg (covered_by occupied) s (Z.to_nat length)) as Hnn.
      fold (shared_units occupied s length) in Hnn.
      destruct (Z.le_gt_cases start s); [lia|].
      destruct Hscan as [(-> & _)|(Hb & _ & -> & Hp & Hbest)]; [destruct Hs; lia|].
      specialize (Hbest s Hs ltac:(lia)). unfold no_worse in Hbest. lia.
    + pose proof (scanned_step start best bestOverlap Hstart Hscan Hz) as Hstep.
      destruct (if _ || _ then _ else _) as [best' overlap']. apply IH; [lia|lia| |done].
      rewrite Z.add_mod, Hm, Z.mod_same by lia. apply Z.mod_0_l. lia.
  - destruct Hscan as [(-> & _)|(Hb & _ & _ & _ & Hbest)]; [lia|].
    split; [done|]. intros s Hs. apply Hbest; [done|]. destruct Hs as (_ & _ & ?). lia.
Qed.
End packing.

(** On a topology that validates, a window is cut to the accelerator, starts
    on a quantum and lies within the accelerator, and no other quantised start
    shares fewer compute units with the occupied intervals, however those
    overlap or repeat; among equals it is the lowest.  A free start is thus
    always taken when there is one. *)
Theorem pack_window_optimal (t : Topology) (length : Z) (occupied : list AcceleratorPlacement) :
  usable t -> 0 < length ->
  let w := PackWindow t length occupied in
  Length w = Z.min length (CU t) /\
  quantised_start (CU t) (Quantum t) (Length w) (Start w) /\
  forall s, quantised_start (CU t) (Quantum t) (Length w) s -> no_worse (Length w) occupied (Start w) s.
Proof.
  intros H Hl. destruct (usable_spec t H) as (Hcu & _ & _ & Hq). cbv zeta. unfold PackWindow.
  destruct (Z.leb_spec length 0); [lia|]. destruct (Z.leb_spec (CU t) 0); [lia|]. cbn [orb].
  destruct (Z.leb_spec (Quantum t) 0); [lia|]. cbn [Start Length].
  rewrite (i32_small (Z.min length (CU t))) by (unfold is_i32; lia). split; [done|].
  destruct (pack_loop_spec (CU t) (Quantum t) (Z.min length (CU t)) occupied Hcu ltac:(lia) ltac:(lia)
    (Z.to_nat (CU t) + 1) 0 0 (-1) ltac:(lia) ltac:(lia) (Z.mod_0_l (Quantum t) ltac:(lia)) ltac:(left; done))
    as [Hr Hbest].
  cbv zeta in *. rewrite i32_small; [done|]. destruct Hr as (? & _ & ?). unfold is_i32. lia.
Qed.

Lemma pack_window_optimal_witness :
  let t := {| TName := "gfx1100"; CU := 12; SE := 2; SAPerSE := 2; XCC := 0 |} in
  let occupied := [Placement 0 8; Placement 0 8; Placement 6 4] in
  PackWindow t 4 occupied = Placement 8 4 /\ shared_units occupied 8 4 = 2 /\
  no_worse 4 occupied 8 0.
Proof.
  cbv zeta. split; [reflexivity|]. split; [reflexivity|].
  refine (proj2 (proj2 (pack_window_optimal
    {| TName := "gfx1100"; CU := 12; SE := 2; SAPerSE := 2; XCC := 0 |} 4
    [Placement 0 8; Placement 0 8; Placement 6 4] _ ltac:(lia))) 0 _).
  - split; [reflexivity|simpl; lia].
  - vm_compute. repeat split; discriminate.
Defined.
