(* ===== verification/PluginRecords.v ===== *)
(** * Device plugin: tokens and allocation records

    The data of src/pkg/deviceplugin: accelerators as Kubernetes resources and
    the device IDs that name tokens on them (resource.go), the allocation
    records of containers (controller.go, the API types), what a finished Pod
    still holds (terminated.go), and the resource names of the accelerator
    families (src/pkg/nodefeature/knowns.go).  The theorems show that every
    advertised device ID parses back to its accelerator, and that the
    aggregation of a Pod's records neither loses nor invents one. *)

From stdpp Require Import prelude gmap strings list sorting.
From Stdlib Require Import Ascii.
From S2P Require Import Prelude Device.

(** ** Resources and tokens *)

Record Resource := { Group : string; Card : string }.
#[export] Instance Resource_eq_dec : EqDecision Resource.
Proof. solve_decision. Defined.
#[export] Instance Resource_countable : Countable Resource.
Proof.
  apply (inj_countable' (fun r => (Group r, Card r)) (fun p => {| Group := p.1; Card := p.2 |})).
  by intros [].
Defined.

Definition resource_string (res : Resource) : string := Group res +:+ ":" +:+ Card res.

Inductive DeviceAllocationMode :=
  | ModeNone | ModeExclusive | ModeShared | ModeSliced | ModePartitioned | ModeVisibility.
#[export] Instance DeviceAllocationMode_eq_dec : EqDecision DeviceAllocationMode.
Proof. solve_decision. Defined.

Definition ResourceMaxUnits : Z := 1600000.
Definition SharedResourceMaxSize : Z := 10.
Definition SlicedResourceMaxSize : Z := 512.

(** [strconv.FormatUint(i, 10)]; twenty digits hold every [uint64]. *)
Definition digit (d : Z) : ascii := ascii_of_nat (Z.to_nat (48 + d)).

Fixpoint format_digits (fuel : nat) (n : Z) (acc : string) : string :=
  match fuel with
  | O => acc
  | S fuel =>
      let acc := String (digit (n mod 10)) acc in
      if n <? 10 then acc else format_digits fuel (n / 10) acc
  end.

Definition FormatUint (n : Z) : string := format_digits 20 n "".

Definition zeros (n : nat) : string := foldr (fun _ s => String "0"%char s) "" (replicate n tt).

Definition PadZeroUint (i : Z) (width : nat) : string :=
  let s := FormatUint i in
  if Nat.leb width (String.length s) then s else zeros (width - String.length s) +:+ s.

Definition padIndex (idx : Z) : string := PadZeroUint idx 4.

(** The indexes [0, step, 2 * step, ...] below [n * step]. *)
Definition stepped (n : nat) (step : Z) : list Z := (fun i => Z.of_nat i * step) <$> seq 0 n.

Definition DeviceIDs (res : Resource) (mode : DeviceAllocationMode) (poolSize : Z) : list string :=
  let str := resource_string res +:+ ":" in
  match mode with
  | ModeExclusive => [str +:+ "0000"]
  | ModeShared =>
      (fun i => str +:+ padIndex i)
        <$> stepped (Z.to_nat SharedResourceMaxSize) (ResourceMaxUnits / SharedResourceMaxSize)
  | ModeVisibility => (fun i => str +:+ padIndex i) <$> stepped (Z.to_nat SlicedResourceMaxSize) 1
  | ModeSliced | ModePartitioned =>
      if poolSize <=? 0 then []
      else (fun i => str +:+ padIndex i) <$> stepped (Z.to_nat poolSize) 1
  | ModeNone => []
  end.

Record ResourceToken := { TokenResource : Resource; Index : Z }.

Definition token_string (t : ResourceToken) : string :=
  resource_string (TokenResource t) +:+ ":" +:+ padIndex (Index t).

(** [strings.Split(s, sep)] for a one-byte separator. *)
Fixpoint split_on (sep : ascii) (s : string) : list string :=
  match s with
  | EmptyString => [""]
  | String c s' =>
      if Ascii.eqb c sep then "" :: split_on sep s'
      else match split_on sep s' with
           | [] => [String c ""]
           | w :: ws => String c w :: ws
           end
  end.

(** [strconv.ParseUint(s, 10, 64)]. *)
Definition ParseUint (s : string) : option Z :=
  match parse_unsigned s with
  | Some z => if z <? 2 ^ 64 then Some z else None
  | None => None
  end.

Definition ParseResourceToken (id : string) : option ResourceToken :=
  match split_on ":"%char id with
  | [group; card; index] =>
      if bool_decide (group = "") || bool_decide (card = "") then None
      else match ParseUint index with
           | Some idx => Some {| TokenResource := {| Group := group; Card := card |}; Index := idx |}
           | None => None
           end
  | _ => None
  end.

(** *** Decimal round trip *)

Lemma digit_value d : 0 <= d <= 9 -> Z.of_nat (nat_of_ascii (digit d)) - 48 = d.
Proof. intros H. unfold digit. rewrite nat_ascii_embedding; lia. Qed.

Lemma parse_digits_cons acc d s :
  0 <= d <= 9 -> parse_digits acc (String (digit d) s) = parse_digits (acc * 10 + d) s.
Proof.
  intros H. cbn [parse_digits]. rewrite (digit_value d H).
  destruct (Z.leb_spec 0 d); [|lia]. destruct (Z.leb_spec d 9); [done|lia].
Qed.

Lemma parse_format_digits fuel n s :
  0 <= n < 10 ^ Z.of_nat fuel -> parse_digits 0 (format_digits fuel n s) = parse_digits n s.
Proof.
  revert n s. induction fuel as [|fuel IH]; intros n s Hn.
  { simpl in *. assert (n = 0) as -> by lia. done. }
  cbn [format_digits]. pose proof (Z.mod_pos_bound n 10 ltac:(lia)) as Hm.
  destruct (Z.ltb_spec n 10).
  - rewrite parse_digits_cons by lia. f_equal. rewrite Z.mod_small; lia.
  - rewrite IH.
    + rewrite parse_digits_cons by lia. f_equal. pose proof (Z.div_mod n 10). lia.
    + rewrite Nat2Z.inj_succ, Z.pow_succ_r in Hn by lia.
      split; [apply Z.div_pos; lia|]. apply Z.div_lt_upper_bound; lia.
Qed.

Lemma format_digits_nonempty fuel n s : s <> "" -> format_digits fuel n s <> "".
Proof.
  revert n s. induction fuel as [|fuel IH]; intros n s Hs; [done|].
  cbn [format_digits]. destruct (n <? 10); [done|]. by apply IH.
Qed.

Lemma FormatUint_nonempty n : FormatUint n <> "".
Proof.
  unfold FormatUint. generalize 19%nat as fuel. intros fuel. cbn [format_digits].
  destruct (n <? 10); [done|]. by apply format_digits_nonempty.
Qed.

Lemma parse_zeros k s : parse_digits 0 (zeros k +:+ s) = parse_digits 0 s.
Proof. induction k as [|k IH]; [done|]. unfold zeros in *. cbn. apply IH. Qed.

Lemma append_nonempty a b : b <> "" -> a +:+ b <> "".
Proof. by destruct a, b. Qed.

Lemma parse_pad n : 0 <= n < 2 ^ 64 -> ParseUint (padIndex n) = Some n.
Proof.
  intros Hn. unfold ParseUint, padIndex, PadZeroUint.
  assert (parse_digits 0 (FormatUint n) = Some n) as Hf.
  { unfold FormatUint. rewrite parse_format_digits; [done|]. simpl. lia. }
  assert (forall s, s <> "" -> parse_digits 0 s = Some n ->
            match parse_unsigned s with
            | Some z => if z <? 2 ^ 64 then Some z else None | None => None end = Some n) as Hp.
  { intros s Hs Hd. unfold parse_unsigned. destruct s; [done|]. rewrite Hd.
    destruct (Z.ltb_spec n (2 ^ 64)); [done|lia]. }
  destruct (Nat.leb _ _); apply Hp; auto using append_nonempty, FormatUint_nonempty. by rewrite parse_zeros.
Qed.

(** *** Splitting *)

Fixpoint free_of (sep : ascii) (s : string) : bool :=
  match s with
  | EmptyString => true
  | String c s' => negb (Ascii.eqb c sep) && free_of sep s'
  end.

Lemma split_free sep s : free_of sep s = true -> split_on sep s = [s].
Proof.
  induction s as [|c s IH]; [done|]. cbn. intros [Hc Hs]%andb_true_iff.
  apply negb_true_iff in Hc. rewrite Hc, (IH Hs). done.
Qed.

Lemma split_app sep s t :
  free_of sep s = true -> split_on sep (s +:+ String sep t) = s :: split_on sep t.
Proof.
  induction s as [|c s IH]; simpl.
  - intros _. by rewrite Ascii.eqb_refl.
  - intros [Hc Hs]%andb_true_iff. apply negb_true_iff in Hc. by rewrite Hc, (IH Hs).
Qed.

Lemma free_of_app sep s t : free_of sep (s +:+ t) = free_of sep s && free_of sep t.
Proof. induction s as [|c s IH]; [done|]. simpl. by rewrite IH, andb_assoc. Qed.

Lemma format_digits_free fuel n s :
  0 <= n -> free_of ":"%char s = true -> free_of ":"%char (format_digits fuel n s) = true.
Proof.
  revert n s. induction fuel as [|fuel IH]; intros n s Hn Hs; [done|].
  assert (free_of ":"%char (String (digit (n mod 10)) s) = true) as Hd.
  { cbn [free_of]. rewrite Hs, andb_true_r. pose proof (Z.mod_pos_bound n 10 ltac:(lia)) as Hm.
    apply negb_true_iff, Ascii.eqb_neq. intros He%(f_equal nat_of_ascii).
    pose proof (digit_value (n mod 10) ltac:(lia)) as Hv. rewrite He in Hv.
    change (nat_of_ascii ":"%char) with 58%nat in Hv. lia. }
  cbn [format_digits]. destruct (n <? 10); [done|]. apply IH; [apply Z.div_pos; lia|done].
Qed.

Lemma pad_free n : 0 <= n -> free_of ":"%char (padIndex n) = true.
Proof.
  intros Hn. unfold padIndex, PadZeroUint, FormatUint. destruct (Nat.leb _ _).
  - by apply format_digits_free.
  - rewrite free_of_app. apply andb_true_iff. split; [|by apply format_digits_free].
    induction (4 - _)%nat as [|k IH]; [done|]. unfold zeros in *. cbn. apply IH.
Qed.

(** A resource whose identifiers a device ID can carry: neither is empty and
    neither holds the separator. *)
Definition nameable (res : Resource) : bool :=
  negb (bool_decide (Group res = "")) && negb (bool_decide (Card res = "")) &&
  free_of ":"%char (Group res) && free_of ":"%char (Card res).

Lemma append_assoc_colon a b c : (a +:+ ":" +:+ b) +:+ ":" +:+ c = a +:+ String ":"%char (b +:+ String ":"%char c).
Proof. induction a as [|x a IH]; [done|]. exact (f_equal (String x) IH). Qed.

Lemma parse_token_string t :
  nameable (TokenResource t) = true -> 0 <= Index t < 2 ^ 64 ->
  ParseResourceToken (token_string t) = Some t.
Proof.
  destruct t as [[g c] i]. unfold nameable, token_string, resource_string. cbn [Group Card TokenResource Index].
  intros [[[Hg Hc]%andb_true_iff Hfg]%andb_true_iff Hfc]%andb_true_iff Hi.
  unfold ParseResourceToken. rewrite append_assoc_colon, split_app, split_app, split_free by (done || (apply pad_free; lia)).
  apply negb_true_iff in Hg as ->. apply negb_true_iff in Hc as ->. cbn. by rewrite parse_pad.
Qed.

Definition ids_at (res : Resource) (indexes : list Z) : list string :=
  (fun i => token_string {| TokenResource := res; Index := i |}) <$> indexes.

Lemma colon_assoc a b : (a +:+ ":") +:+ b = a +:+ ":" +:+ b.
Proof. induction a as [|x a IH]; [done|]. exact (f_equal (String x) IH). Qed.

Lemma ids_at_alt res indexes :
  ((fun i => (resource_string res +:+ ":") +:+ padIndex i) <$> indexes) = ids_at res indexes.
Proof. apply list_fmap_ext. intros _ i _. apply colon_assoc. Qed.

Lemma elem_of_stepped n step i : i ∈ stepped n step -> exists k, i = Z.of_nat k * step /\ (k < n)%nat.
Proof.
  intros (k & -> & Hk%elem_of_seq)%list_elem_of_fmap. exists k. split; [done|lia].
Qed.

Lemma stepped_NoDup n step : 0 < step -> NoDup (stepped n step).
Proof.
  intros Hs. apply NoDup_fmap_2_strong; [|apply NoDup_seq].
  intros i j _ _ He. apply Z.mul_cancel_r in He; lia.
Qed.

Lemma DeviceIDs_tokens res mode poolSize :
  exists indexes, DeviceIDs res mode poolSize = ids_at res indexes /\ NoDup indexes /\
    (poolSize < 2 ^ 31 -> Forall (fun i => 0 <= i < 2 ^ 64) indexes).
Proof.
  assert (forall n step, 0 < step -> Z.of_nat n * step < 2 ^ 64 ->
            Forall (fun i => 0 <= i < 2 ^ 64) (stepped n step)) as Hr.
  { intros n step Hs Hn. apply list.Forall_forall. intros i (k & -> & Hk)%elem_of_stepped. nia. }
  destruct mode; cbn [DeviceIDs].
  - exists []. repeat constructor.
  - exists [0]. split_and!; [exact (ids_at_alt res [0])|apply NoDup_singleton|]. intros _. repeat constructor; lia.
  - eexists (stepped _ _). split_and!; [apply ids_at_alt|by apply stepped_NoDup|]. intros _. apply Hr; vm_compute; done.
  - destruct (Z.leb_spec poolSize 0); [exists []; repeat constructor|].
    eexists (stepped _ _). split_and!; [apply ids_at_alt|by apply stepped_NoDup|]. intros Hp. apply Hr; lia.
  - destruct (Z.leb_spec poolSize 0); [exists []; repeat constructor|].
    eexists (stepped _ _). split_and!; [apply ids_at_alt|by apply stepped_NoDup|]. intros Hp. apply Hr; lia.
  - eexists (stepped _ _). split_and!; [apply ids_at_alt|by apply stepped_NoDup|]. intros _. apply Hr; vm_compute; done.
Qed.

(** C31: every device ID an accelerator advertises, in any allocation mode,
    parses back to that accelerator, and an accelerator never advertises one ID
    twice, when its group and its own identifier are non-empty and free of the
    separator. *)
Theorem device_ids_roundtrip (res : Resource) (mode : DeviceAllocationMode) (poolSize : Z) :
  nameable res = true -> poolSize < 2 ^ 31 ->
  NoDup (DeviceIDs res mode poolSize) /\
  (forall id, id ∈ DeviceIDs res mode poolSize ->
     exists idx, ParseResourceToken id = Some {| TokenResource := res; Index := idx |} /\
                 token_string {| TokenResource := res; Index := idx |} = id).
Proof.
  intros Hn Hp. destruct (DeviceIDs_tokens res mode poolSize) as (indexes & -> & Hnd & Hr).
  specialize (Hr Hp). rewrite list.Forall_forall in Hr. split.
  - apply NoDup_fmap_2_strong; [|done]. intros i j Hi Hj He%(f_equal ParseResourceToken).
    rewrite !parse_token_string in He by auto. congruence.
  - intros id (i & -> & Hi)%list_elem_of_fmap. exists i. rewrite parse_token_string by auto. done.
Qed.

Lemma device_ids_roundtrip_witness :
  let res := {| Group := "nvidia-a100-80gb"; Card := "GPU-1" |} in
  DeviceIDs res ModeSliced 2 = ["nvidia-a100-80gb:GPU-1:0000"; "nvidia-a100-80gb:GPU-1:0001"] /\
  NoDup (DeviceIDs res ModeSliced 2).
Proof.
  intros res. split; [vm_compute; reflexivity|].
  apply (device_ids_roundtrip res ModeSliced 2); [vm_compute; reflexivity|lia].
Defined.

(** ** Allocation records *)

Record AcceleratorAllocation := {
  AllocID : string;
  AllocIndex : Z;
  Mode : DeviceAllocationMode;
  Allocated : Z;
  Remaining : Z;
  AllocatedSlices : Z;
  AllocatedProfiles : list AcceleratorProfileCount;
  RemainingProfiles : list AcceleratorProfileCount;
  AllocatedPhysicalProfile : string;
  AllocatedPhysicalPlacements : list AcceleratorPlacement;
  AllocatedPhysicalID : string;
  AllocatedLogicalPlacements : list AcceleratorPlacement }.

Record DevicesAllocationGroup := {
  AgID : string; AgManufacturer : string; AgAccelerators : list AcceleratorAllocation }.

(** [DevicesStatus.Groups]; the rest of the status belongs to other writers. *)
Abbreviation DevicesStatus := (list DevicesAllocationGroup).

Record Accelerator := { AccID : string; AccIndex : Z; AccStatus : AcceleratorStatus }.

Record DevicesGroup := {
  GrpID : string; GrpManufacturer : string; GrpMemory : Z; GrpAccelerators : list Accelerator }.

Record Devices := { SpecGroups : list DevicesGroup; StatusGroups : DevicesStatus }.

Record ContainerAllocation := { CaDevices : DevicesStatus; CaDeviceIDs : list string }.

Abbreviation PodAllocations := (gmap string ContainerAllocation).

(** The allocation annotation as [AllocatedAcceleratorsOf] reads it: absent or
    empty, not decodable, or the records of the Pod's containers. *)
Inductive Annotation :=
  | Unannotated
  | Unreadable
  | Recorded (allocations : PodAllocations).

Definition AllocatedAcceleratorsOf (a : Annotation) : option PodAllocations :=
  match a with
  | Unannotated => Some ∅
  | Unreadable => None
  | Recorded allocations => Some allocations
  end.

(** The records of a status with the accelerator each is about. *)
Definition group_cards (g : DevicesAllocationGroup) : list (Resource * AcceleratorAllocation) :=
  (fun acc => ({| Group := AgID g; Card := AllocID acc |}, acc)) <$> AgAccelerators g.
Definition cards (status : DevicesStatus) : list (Resource * AcceleratorAllocation) :=
  mjoin (group_cards <$> status).
#[global] Arguments cards : simpl never.
#[global] Arguments group_cards : simpl never.

(** *** Aggregation *)

Definition name_le (a b : string) : Prop := String.leb a b = true.
#[export] Instance name_le_dec : RelDecision name_le.
Proof. intros a b. exact (bool_eq_dec _ _). Defined.

(** The records in container-name order. *)
Definition in_name_order (allocations : PodAllocations) : list ContainerAllocation :=
  omap (fun name => allocations !! name) (merge_sort name_le (map_to_list allocations).*1).

Definition aggregate_group (st : gmap string nat * DevicesStatus) (src : DevicesAllocationGroup)
    : gmap string nat * DevicesStatus :=
  let '(groupIndex, aggregated) := st in
  let push d := {| AgID := AgID d; AgManufacturer := AgManufacturer d;
                   AgAccelerators := AgAccelerators d ++ AgAccelerators src |} in
  match groupIndex !! AgID src with
  | Some idx => (groupIndex, alter push idx aggregated)
  | None =>
      (<[AgID src := length aggregated]> groupIndex,
       aggregated ++ [push {| AgID := AgID src; AgManufacturer := AgManufacturer src; AgAccelerators := [] |}])
  end.

Definition Aggregate (allocations : PodAllocations) : DevicesStatus :=
  snd (foldl aggregate_group (∅, []) (mjoin (CaDevices <$> in_name_order allocations))).

Definition allocatedStatusOf (a : Annotation) : option DevicesStatus :=
  Aggregate <$> AllocatedAcceleratorsOf a.

Lemma cards_app a b : cards (a ++ b) = cards a ++ cards b.
Proof. unfold cards. by rewrite fmap_app, join_app. Qed.

Lemma cards_cons g l : cards (g :: l) = group_cards g ++ cards l.
Proof. done. Qed.

Lemma group_cards_app i m m' a b :
  group_cards {| AgID := i; AgManufacturer := m; AgAccelerators := a ++ b |}
  = group_cards {| AgID := i; AgManufacturer := m; AgAccelerators := a |} ++
    group_cards {| AgID := i; AgManufacturer := m'; AgAccelerators := b |}.
Proof. unfold group_cards. cbn. by rewrite fmap_app. Qed.

(** The index holds, for each group identifier, the position of its group. *)
Definition indexed (st : gmap string nat * DevicesStatus) : Prop :=
  forall id idx, st.1 !! id = Some idx -> AgID <$> st.2 !! idx = Some id.

Lemma aggregate_group_cards st src :
  indexed st ->
  indexed (aggregate_group st src) /\
  cards (aggregate_group st src).2 ≡ₚ cards st.2 ++ group_cards src.
Proof.
  destruct st as [index agg], src as [id m accs]. intros Hi. cbn [aggregate_group AgID AgManufacturer AgAccelerators].
  destruct (index !! id) as [idx|] eqn:Hl.
  - specialize (Hi id idx Hl) as Hd. cbn in Hd. apply fmap_Some in Hd as ([i' m' a'] & Hd & Heq). cbn in Heq. subst i'.
    split.
    + intros j n Hj. cbn in *. specialize (Hi j n Hj). cbn in Hi.
      destruct (decide (n = idx)) as [->|Hn]; [|by rewrite list_lookup_alter_ne].
      rewrite list_lookup_alter_eq. apply fmap_Some in Hi as ([] & Hg & ->). by rewrite Hg.
    + cbn [snd]. rewrite (alter_middle _ _ _ _ Hd). rewrite <- (take_drop_middle agg idx _ Hd) at 3.
      rewrite !cards_app, !cards_cons. cbn [AgID AgManufacturer AgAccelerators].
      rewrite (group_cards_app _ _ m), <- !app_assoc. do 2 f_equiv. apply Permutation_app_comm.
  - split.
    + intros j n. cbn. intros [[<- <-]|[Hne Hj]]%lookup_insert_Some.
      * by rewrite lookup_app_r, Nat.sub_diag by lia.
      * specialize (Hi j n Hj). cbn in Hi. apply fmap_Some in Hi as (g & Hg & Hid).
        rewrite lookup_app_l by eauto using lookup_lt_Some. by rewrite Hg, Hid.
    + cbn [snd]. by rewrite cards_app, cards_cons, app_nil_r.
Qed.

Lemma aggregate_cards l st :
  indexed st ->
  cards (foldl aggregate_group st l).2 ≡ₚ cards st.2 ++ cards l.
Proof.
  revert st. induction l as [|g l IH]; intros st Hi; cbn [foldl].
  - unfold cards at 3. cbn. by rewrite app_nil_r.
  - destruct (aggregate_group_cards st g Hi) as [Hi' Hc]. rewrite (IH _ Hi'), Hc.
    by rewrite cards_cons, app_assoc.
Qed.

Lemma in_name_order_perm (allocations : PodAllocations) :
  in_name_order allocations ≡ₚ (map_to_list allocations).*2.
Proof.
  unfold in_name_order. rewrite merge_sort_Permutation.
  assert (forall l, l ⊆ map_to_list allocations ->
            omap (fun name => allocations !! name) l.*1 = l.*2) as Hl.
  { induction l as [|[k v] l IH]; intros Hs; [done|]. cbn.
    rewrite (proj1 (elem_of_map_to_list allocations k v)) by (apply Hs; left).
    f_equal. apply IH. set_solver. }
  by rewrite Hl.
Qed.

Lemma Aggregate_cards (allocations : PodAllocations) :
  cards (Aggregate allocations)
  ≡ₚ mjoin ((fun c => cards (CaDevices c)) <$> (map_to_list allocations).*2).
Proof.
  unfold Aggregate. rewrite aggregate_cards by (intros ? ?; cbn; by rewrite lookup_empty).
  cbn [snd]. rewrite <- (in_name_order_perm allocations). change (cards []) with (@nil (Resource * AcceleratorAllocation)).
  induction (in_name_order allocations) as [|c l IH]; [done|].
  rewrite !fmap_cons. cbn. rewrite cards_app. by f_equiv.
Qed.

(** ** Pods *)

Record Container := { CName : string; Requests : gmap string Z; Limits : gmap string Z }.

Inductive PodPhase := PhaseUnset | PodPending | PodRunning | PodSucceeded | PodFailed.
#[export] Instance PodPhase_eq_dec : EqDecision PodPhase.
Proof. solve_decision. Defined.

Record Pod := {
  PodNamespace : string;
  PodName : string;
  PodUID : string;
  CreationTimestamp : Z;
  Phase : PodPhase;
  AllocationAnnotation : Annotation;
  InitContainers : list Container;
  Containers : list Container }.

(** ** What a finished Pod still holds *)

Definition statefulSlicedManufacturers : list string := ["metax"; "cambricon"].

Definition podTerminated (pod : Pod) : bool :=
  bool_decide (Phase pod = PodSucceeded) || bool_decide (Phase pod = PodFailed).

Definition heldAfterTermination (manufacturer : string) (acc : AcceleratorAllocation) : bool :=
  if negb (bool_decide (AllocatedPhysicalProfile acc = "")) ||
     negb (Nat.eqb (length (AllocatedPhysicalPlacements acc)) 0) then true
  else match Mode acc with
       | ModeExclusive | ModeShared => false
       | ModeSliced => bool_decide (manufacturer ∈ statefulSlicedManufacturers)
       | _ => true
       end.

Definition held_group (grp : DevicesAllocationGroup) : option DevicesAllocationGroup :=
  let accs := filter (fun acc => heldAfterTermination (AgManufacturer grp) acc = true) (AgAccelerators grp) in
  if Nat.eqb (length accs) 0 then None
  else Some {| AgID := AgID grp; AgManufacturer := AgManufacturer grp; AgAccelerators := accs |}.

(** [released] is [terminatedPodsReleased()], fixed at start-up. *)
Definition heldAllocation (released : bool) (pod : Pod) (status : DevicesStatus) : DevicesStatus :=
  if negb (podTerminated pod) || negb released then status else omap held_group status.

(** ** Resource names *)

(** The name tables of the process, after the environment's overrides. *)
Class NameTables := {
  ResourceNames : gmap string string;
  PartitionKinds : gmap string string }.

Section Names.
Context `{Tables : NameTables}.

Definition default_string (o : option string) : string := default "" o.

(** [_PartitionedProfileResourceNamePrefixMap], as [init] builds it. *)
Definition PartitionPrefixes : gmap string string :=
  map_imap (fun manufacturer kind =>
    let resName := default_string (ResourceNames !! manufacturer) in
    if bool_decide (resName = "") || bool_decide (kind = "") then None
    else Some (resName +:+ ".partitioned" +:+ "." +:+ kind +:+ "-")) PartitionKinds.

Definition GetPartitionKind (manufacturer : string) : string :=
  if bool_decide (default_string (PartitionPrefixes !! manufacturer) = "") then ""
  else default_string (PartitionKinds !! manufacturer).

Definition GetAcceleratableResourceName (manufacturer : string) (mode : DeviceAllocationMode) : string :=
  let resName := default_string (ResourceNames !! manufacturer) in
  match mode with
  | ModeShared => resName +:+ ".shared"
  | ModeSliced => resName +:+ ".sliced"
  | ModePartitioned =>
      if bool_decide (GetPartitionKind manufacturer = "") then "" else resName +:+ ".partitioned"
  | ModeVisibility => "device.gpustack.ai/" +:+ manufacturer +:+ ".visibility"
  | _ => resName
  end.

Definition GetAcceleratableSlicedUnitsResourceName (manufacturer : string) : string :=
  default_string (ResourceNames !! manufacturer) +:+ ".sliced.units".

Definition GetAcceleratablePartitionedUnitsResourceName (manufacturer : string) : string :=
  if bool_decide (GetPartitionKind manufacturer = "") then ""
  else default_string (ResourceNames !! manufacturer) +:+ ".partitioned.units".

(** [strings.CutPrefix]. *)
Fixpoint cut_prefix (prefix s : string) : option string :=
  match prefix, s with
  | EmptyString, _ => Some s
  | String c prefix', String d s' => if Ascii.eqb c d then cut_prefix prefix' s' else None
  | String _ _, EmptyString => None
  end.

Fixpoint take_digits (s : string) : string * string :=
  match s with
  | EmptyString => ("", "")
  | String c s' =>
      let d := Z.of_nat (nat_of_ascii c) - 48 in
      if (0 <=? d) && (d <=? 9) then let '(ds, rest) := take_digits s' in (String c ds, rest) else ("", s)
  end.

(** The published geometry [^([0-9]+)g\.([0-9]+)gb$], its two numbers. *)
Definition published_geometry (profile : string) : option (string * string) :=
  let '(slices, rest) := take_digits profile in
  match cut_prefix "g." rest with
  | Some rest =>
      let '(memory, rest) := take_digits rest in
      if negb (bool_decide (slices = "")) && negb (bool_decide (memory = "")) && bool_decide (rest = "gb")
      then Some (slices, memory) else None
  | None => None
  end.

Definition VendorPartitionedProfileName (manufacturer profile : string) : string :=
  if negb (bool_decide (manufacturer = "thead")) then profile
  else match published_geometry profile with
       | Some (slices, memory) => slices +:+ "g" +:+ memory +:+ "gb"
       | None => profile
       end.

(** The first entry of a map walk that answers. *)
Definition first_of {A B} (f : A -> option B) (l : list A) : option B := head (omap f l).

Definition partitionedProfileOf (name : string) : option (string * string) :=
  first_of (fun '(manufacturer, prefix) =>
    match cut_prefix prefix name with
    | Some p => if bool_decide (p = "") then None else Some (manufacturer, p)
    | None => None
    end) (map_to_list PartitionPrefixes).

Definition VendorPartitionedProfileOf (name : string) : option string :=
  (fun '(manufacturer, profile) => VendorPartitionedProfileName manufacturer profile)
    <$> partitionedProfileOf name.

Definition partitionProfileOf (ctr : Container) : option string :=
  first_of (fun '(name, _) => VendorPartitionedProfileOf name) (map_to_list (Limits ctr)).

End Names.

Definition MemoryMibToUnits (mib cardVRAMMib : Z) : Z :=
  if cardVRAMMib <=? 0 then 0 else i64 (mib * ResourceMaxUnits) `quot` cardVRAMMib.
