(* ===== verification/PluginLedger.v ===== *)
(** * Device plugin: the node's ledger

    The rebuild of a node's Devices status from its inventory and the
    allocation records of its Pods (src/pkg/deviceplugin/controller.go:
    [BuildDesiredStatus] and the shared fold, with the strict rebuild).  The
    reducer mutates the ledger it is given in place, so the model threads one
    store through every Pod, including through a merge that fails half-way.
    The theorems give the exact content of the ledger, the agreement of the
    strict and the ordinary rebuild, and what a failed merge leaves behind. *)

From stdpp Require Import prelude gmap strings list sorting.
From S2P Require Import Prelude Device PluginRecords.

(** ** The reducer *)

Definition seed_accelerator (acc : Accelerator) : AcceleratorAllocation := {|
  AllocID := AccID acc; AllocIndex := AccIndex acc; Mode := ModeNone; Allocated := 0;
  Remaining := ResourceMaxUnits; AllocatedSlices := 0; AllocatedProfiles := []; RemainingProfiles := [];
  AllocatedPhysicalProfile := ""; AllocatedPhysicalPlacements := []; AllocatedPhysicalID := "";
  AllocatedLogicalPlacements := [] |}.

Definition seed_group (grp : DevicesGroup) : DevicesAllocationGroup := {|
  AgID := GrpID grp; AgManufacturer := GrpManufacturer grp;
  AgAccelerators := seed_accelerator <$> GrpAccelerators grp |}.

Definition initDesiredStatus (devs : Devices) : DevicesStatus := seed_group <$> SpecGroups devs.

(** Rows of a ledger, by position: the pointers [&Groups[i].Accelerators[j]]. *)
Definition row (st : DevicesStatus) (i j : nat) : option AcceleratorAllocation :=
  st !! i ≫= fun g => AgAccelerators g !! j.

Definition set_row (f : AcceleratorAllocation -> AcceleratorAllocation) (i j : nat) (st : DevicesStatus)
    : DevicesStatus :=
  alter (fun g => {| AgID := AgID g; AgManufacturer := AgManufacturer g;
                     AgAccelerators := alter f j (AgAccelerators g) |}) i st.

Definition positions (st : DevicesStatus) : list (Resource * (nat * nat)) :=
  mjoin (imap (fun i g =>
    imap (fun j acc => ({| Group := AgID g; Card := AllocID acc |}, (i, j))) (AgAccelerators g)) st).

(** [dstAcceleratorIndex]: a resource listed twice keeps its last row. *)
Definition ledger_index (st : DevicesStatus) : gmap Resource (nat * nat) :=
  list_to_map (reverse (positions st)).

Definition charge (src dst : AcceleratorAllocation) : AcceleratorAllocation := {|
  AllocID := AllocID dst; AllocIndex := AllocIndex dst; Mode := Mode src; Allocated := Allocated dst;
  Remaining := Z.max (i32 (Remaining dst - Allocated src)) 0;
  AllocatedSlices :=
    if bool_decide (Mode src = ModeSliced) then i32 (AllocatedSlices dst + 1) else AllocatedSlices dst;
  AllocatedProfiles := AllocatedProfiles dst; RemainingProfiles := RemainingProfiles dst;
  AllocatedPhysicalProfile := AllocatedPhysicalProfile dst;
  AllocatedPhysicalPlacements := AllocatedPhysicalPlacements dst;
  AllocatedPhysicalID := AllocatedPhysicalID dst;
  AllocatedLogicalPlacements := AllocatedLogicalPlacements dst |}.

Definition conflicts (dst src : AcceleratorAllocation) : bool :=
  negb (bool_decide (Mode dst = ModeNone)) && negb (bool_decide (Mode dst = Mode src)).

(** The merge loop over a Pod's records.  The rows are written in place, so the
    store comes back as far as the loop went, also when a record conflicts. *)
Fixpoint apply_cards (index : gmap Resource (nat * nat)) (srcs : list (Resource * AcceleratorAllocation))
    (st : DevicesStatus) : DevicesStatus * option Resource :=
  match srcs with
  | [] => (st, None)
  | (res, src) :: srcs =>
      match index !! res with
      | None => apply_cards index srcs st
      | Some (i, j) =>
          match row st i j with
          | None => (st, None)
          | Some dst =>
              if conflicts dst src then (st, Some res)
              else apply_cards index srcs (set_row (charge src) i j st)
          end
      end
  end.

Definition applyAllocatedStatus (allocatedStatus remainingStatus : DevicesStatus)
    : DevicesStatus * option Resource :=
  if Nat.eqb (length allocatedStatus) 0 then (remainingStatus, None)
  else apply_cards (ledger_index remainingStatus) (cards allocatedStatus) remainingStatus.

(** ** Placements *)

Abbreviation Placements := (gmap Resource (list AcceleratorPlacement)).

Definition placed (occupied : Placements) (res : Resource) : list AcceleratorPlacement :=
  default [] (occupied !! res).

Definition is_physical (acc : AcceleratorAllocation) : bool :=
  negb (bool_decide (AllocatedPhysicalProfile acc = "")) &&
  negb (Nat.eqb (length (AllocatedPhysicalPlacements acc)) 0).

Definition add_physical (st : Placements * gmap Resource (gmap string Z))
    (c : Resource * AcceleratorAllocation) : Placements * gmap Resource (gmap string Z) :=
  let '(occupied, allocated) := st in
  let '(res, acc) := c in
  if negb (is_physical acc) then st
  else
    let counts := default ∅ (allocated !! res) in
    (<[res := placed occupied res ++ AllocatedPhysicalPlacements acc]> occupied,
     <[res := <[AllocatedPhysicalProfile acc :=
                  i32 (default 0 (counts !! AllocatedPhysicalProfile acc) + 1)]> counts]> allocated).

Definition accumulatePhysicalOccupied (podStatus : DevicesStatus)
    (st : Placements * gmap Resource (gmap string Z)) : Placements * gmap Resource (gmap string Z) :=
  foldl add_physical st (cards podStatus).

Definition add_logical (occupied : Placements) (c : Resource * AcceleratorAllocation) : Placements :=
  if Nat.eqb (length (AllocatedLogicalPlacements c.2)) 0 then occupied
  else <[c.1 := placed occupied c.1 ++ AllocatedLogicalPlacements c.2]> occupied.

Definition accumulateLogicalOccupied (podStatus : DevicesStatus) (occupied : Placements) : Placements :=
  foldl add_logical occupied (cards podStatus).

(** The profile ledger of one accelerator: the profiles with a placement. *)
Definition possible_placements (profiles : list PhysicalProfile) : gmap string (list AcceleratorPlacement) :=
  foldl (fun m p => if Nat.eqb (length (PPlacements p)) 0 then m else <[PName p := PPlacements p]> m) ∅ profiles.

Definition with_profiles (allocated remaining : list AcceleratorProfileCount) (dst : AcceleratorAllocation)
    : AcceleratorAllocation := {|
  AllocID := AllocID dst; AllocIndex := AllocIndex dst; Mode := Mode dst; Allocated := Allocated dst;
  Remaining := Remaining dst; AllocatedSlices := AllocatedSlices dst;
  AllocatedProfiles := allocated; RemainingProfiles := remaining;
  AllocatedPhysicalProfile := AllocatedPhysicalProfile dst;
  AllocatedPhysicalPlacements := AllocatedPhysicalPlacements dst;
  AllocatedPhysicalID := AllocatedPhysicalID dst;
  AllocatedLogicalPlacements := AllocatedLogicalPlacements dst |}.

Definition fold_physical_row (occupied : Placements) (allocated : gmap Resource (gmap string Z))
    (group : string) (acc : Accelerator) (dst : AcceleratorAllocation) : AcceleratorAllocation :=
  if Nat.eqb (length (PhysicalProfiles (AccStatus acc))) 0 then dst
  else
    let res := {| Group := group; Card := AccID acc |} in
    with_profiles
      (ProfileCountSlice (default ∅ (allocated !! res)))
      (ProfileCountSlice (ComputeRemainingProfiles (placed occupied res)
                            (possible_placements (PhysicalProfiles (AccStatus acc))))) dst.

(** The status rows are built one to one from the inventory, so they are paired
    by position. *)
Definition foldPhysicalLedger (devs : Devices) (status : DevicesStatus) (occupied : Placements)
    (allocated : gmap Resource (gmap string Z)) : DevicesStatus :=
  zip_with (fun grp st =>
    {| AgID := AgID st; AgManufacturer := AgManufacturer st;
       AgAccelerators := zip_with (fold_physical_row occupied allocated (GrpID grp))
                           (GrpAccelerators grp) (AgAccelerators st) |}) (SpecGroups devs) status.

(** ** The fold over Pods *)

Inductive foldStep := readFoldStep | mergeFoldStep.

Record fold_state := {
  FsStatus : DevicesStatus;
  FsPhysical : Placements * gmap Resource (gmap string Z);
  FsLive : list string }.

Section Fold.
(** [terminatedPodsReleased()] and what the caller does with a failure: carry on
    or stop. *)
Context (released : bool) (onFailure : foldStep -> Pod -> bool).

Definition fold_pod (st : fold_state) (pod : Pod) : (foldStep * Pod) + fold_state :=
  let live := FsLive st ++ [PodUID pod] in
  match allocatedStatusOf (AllocationAnnotation pod) with
  | None =>
      if onFailure readFoldStep pod
      then inr {| FsStatus := FsStatus st; FsPhysical := FsPhysical st; FsLive := live |}
      else inl (readFoldStep, pod)
  | Some podStatus =>
      let podStatus := heldAllocation released pod podStatus in
      match applyAllocatedStatus podStatus (FsStatus st) with
      | (status, Some _) =>
          if onFailure mergeFoldStep pod
          then inr {| FsStatus := status; FsPhysical := FsPhysical st; FsLive := live |}
          else inl (mergeFoldStep, pod)
      | (status, None) =>
          inr {| FsStatus := status;
                 FsPhysical := accumulatePhysicalOccupied podStatus (FsPhysical st); FsLive := live |}
      end
  end.

Fixpoint fold_pods (st : fold_state) (pods : list Pod) : (foldStep * Pod) + fold_state :=
  match pods with
  | [] => inr st
  | pod :: pods =>
      match fold_pod st pod with
      | inl e => inl e
      | inr st => fold_pods st pods
      end
  end.

Definition foldPodAllocations (devs : Devices) (pods : list Pod) (desiredStatus : DevicesStatus)
    : (foldStep * Pod) + (DevicesStatus * list string) :=
  match fold_pods {| FsStatus := desiredStatus; FsPhysical := (∅, ∅); FsLive := [] |} pods with
  | inl e => inl e
  | inr st =>
      inr (foldPhysicalLedger devs (FsStatus st) (FsPhysical st).1 (FsPhysical st).2, FsLive st)
  end.
End Fold.

Definition mergePodAllocationsStrict (released : bool) (devs : Devices) (pods : list Pod)
    : (foldStep * Pod) + (DevicesStatus * list string) :=
  foldPodAllocations released (fun _ _ => false) devs pods (initDesiredStatus devs).

(** The ordinary rebuild absorbs every failure; its error is unreachable. *)
Definition mergePodAllocations (released : bool) (devs : Devices) (pods : list Pod)
    (desiredStatus : DevicesStatus) : DevicesStatus * list string :=
  match foldPodAllocations released (fun _ _ => true) devs pods desiredStatus with
  | inl _ => ([], [])
  | inr r => r
  end.

Definition BuildDesiredStatus (released : bool) (devs : Devices) (pods : list Pod)
    : DevicesStatus * list string :=
  mergePodAllocations released devs pods (initDesiredStatus devs).

(** ** Rows and positions *)

Lemma elem_of_positions st res i j :
  (res, (i, j)) ∈ positions st <->
  exists g acc, st !! i = Some g /\ AgAccelerators g !! j = Some acc /\
                res = {| Group := AgID g; Card := AllocID acc |}.
Proof.
  unfold positions. rewrite list_elem_of_join. split.
  - intros (l & Hin & (i' & g & -> & Hg)%elem_of_lookup_imap).
    apply elem_of_lookup_imap in Hin as (j' & acc & [= -> <- <-] & Hacc). eauto.
  - intros (g & acc & Hg & Hacc & ->). eexists. split; [|apply elem_of_lookup_imap; eauto].
    apply elem_of_lookup_imap. eauto.
Qed.

Lemma imap_alter {A B} (f : nat -> A -> B) (g : A -> A) i (l : list A) :
  (forall x, l !! i = Some x -> f i (g x) = f i x) -> imap f (alter g i l) = imap f l.
Proof.
  intros Hf. apply list_eq. intros k. rewrite !list_lookup_imap.
  destruct (decide (i = k)) as [->|]; [|by rewrite list_lookup_alter_ne].
  rewrite list_lookup_alter_eq. destruct (l !! k) as [x|] eqn:E; [|done]. cbn. by rewrite Hf.
Qed.

Lemma positions_set_row f i j st :
  (forall a, AllocID (f a) = AllocID a) -> positions (set_row f i j st) = positions st.
Proof.
  intros Hf. unfold positions, set_row. f_equal. apply imap_alter. intros g _. cbn.
  apply imap_alter. intros a _. by rewrite Hf.
Qed.

Lemma row_set_row f i j st i' j' :
  row (set_row f i j st) i' j' =
    if bool_decide ((i', j') = (i, j)) then f <$> row st i j else row st i' j'.
Proof.
  unfold row, set_row. case_bool_decide as E.
  - injection E as -> ->. rewrite list_lookup_alter_eq. destruct (st !! i) as [g|]; [|done].
    cbn. apply list_lookup_alter_eq.
  - destruct (decide (i = i')) as [<-|Hi]; [|by rewrite list_lookup_alter_ne].
    rewrite list_lookup_alter_eq. destruct (st !! i) as [g|]; [|done]. cbn.
    apply list_lookup_alter_ne. congruence.
Qed.

Lemma ledger_index_spec st res i j :
  NoDup (positions st).*1 -> ledger_index st !! res = Some (i, j) <-> (res, (i, j)) ∈ positions st.
Proof.
  intros Hn. unfold ledger_index.
  rewrite <- (elem_of_list_to_map (reverse (positions st))); [apply elem_of_reverse|].
  by rewrite reverse_Permutation.
Qed.

(** ** One accelerator over many records *)

Definition on (res : Resource) (srcs : list (Resource * AcceleratorAllocation)) : list AcceleratorAllocation :=
  (filter (fun c => c.1 = res) srcs).*2.

Definition absorb (a : AcceleratorAllocation) (srcs : list AcceleratorAllocation) : AcceleratorAllocation :=
  foldl (fun a src => charge src a) a srcs.

Fixpoint compatible (a : AcceleratorAllocation) (srcs : list AcceleratorAllocation) : Prop :=
  match srcs with
  | [] => True
  | src :: srcs => conflicts a src = false /\ compatible (charge src a) srcs
  end.

Lemma on_app res a b : on res (a ++ b) = on res a ++ on res b.
Proof. unfold on. by rewrite filter_app, fmap_app. Qed.

Lemma on_cons_eq res src srcs : on res ((res, src) :: srcs) = src :: on res srcs.
Proof. unfold on. by rewrite filter_cons_True. Qed.

Lemma on_cons_ne res res' src srcs : res' <> res -> on res ((res', src) :: srcs) = on res srcs.
Proof. intros. unfold on. by rewrite filter_cons_False. Qed.

Lemma absorb_app a xs ys : absorb a (xs ++ ys) = absorb (absorb a xs) ys.
Proof. unfold absorb. by rewrite foldl_app. Qed.

Lemma compatible_app a xs ys : compatible a (xs ++ ys) <-> compatible a xs /\ compatible (absorb a xs) ys.
Proof. revert a. induction xs as [|x xs IH]; intros a; cbn; [tauto|]. rewrite IH. tauto. Qed.

Lemma absorb_mode a srcs :
  compatible a srcs ->
  (Mode a <> ModeNone -> Mode (absorb a srcs) = Mode a) /\
  Forall (fun src => Mode src = Mode (absorb a srcs) \/ Mode src = ModeNone) srcs.
Proof.
  revert a. induction srcs as [|src srcs IH]; intros a; cbn [compatible]; [done|].
  intros [Hc Hs]. destruct (IH _ Hs) as [Hm Hf].
  change (absorb a (src :: srcs)) with (absorb (charge src a) srcs). split.
  - intros Ha. unfold conflicts in Hc. repeat case_bool_decide; try done. rewrite Hm; cbn; congruence.
  - constructor; [|done]. destruct (decide (Mode src = ModeNone)) as [|Hn]; [by right|].
    left. symmetry. exact (Hm Hn).
Qed.

Definition sum_allocated (srcs : list AcceleratorAllocation) : Z :=
  foldr (fun src n => Allocated src + n) 0 srcs.
Definition slices_of (srcs : list AcceleratorAllocation) : list AcceleratorAllocation :=
  filter (fun src => Mode src = ModeSliced) srcs.

Lemma absorb_units a srcs :
  0 <= Remaining a <= ResourceMaxUnits ->
  Forall (fun src => 0 <= Allocated src < 2 ^ 31) srcs ->
  Remaining (absorb a srcs) = Z.max 0 (Remaining a - sum_allocated srcs) /\ 0 <= sum_allocated srcs.
Proof.
  revert a. induction srcs as [|src srcs IH]; intros a Ha Hs; cbn [absorb foldl sum_allocated foldr]; [lia|].
  apply Forall_cons in Hs as [Hsrc Hs].
  assert (Remaining (charge src a) = Z.max 0 (Remaining a - Allocated src)) as Hr.
  { cbn. rewrite i32_small by (unfold is_i32, ResourceMaxUnits in *; lia). lia. }
  destruct (IH (charge src a)) as [He Hn]; [rewrite Hr; lia|done|].
  unfold absorb in He. rewrite He, Hr. unfold sum_allocated in *. lia.
Qed.

Lemma absorb_slices a srcs :
  0 <= AllocatedSlices a -> AllocatedSlices a + Z.of_nat (length srcs) < 2 ^ 31 ->
  AllocatedSlices (absorb a srcs) = AllocatedSlices a + Z.of_nat (length (slices_of srcs)).
Proof.
  revert a. induction srcs as [|src srcs IH]; intros a Ha Hl; cbn [absorb foldl]; [cbn; lia|].
  unfold absorb in IH. cbn [length] in Hl. unfold slices_of. rewrite filter_cons.
  assert (AllocatedSlices (charge src a) =
          AllocatedSlices a + if decide (Mode src = ModeSliced) then 1 else 0) as Hc.
  { cbn. case_bool_decide; case_decide; try done; [|lia]. apply i32_small. unfold is_i32. lia. }
  rewrite IH; rewrite Hc; case_decide; cbn [length]; unfold slices_of; lia.
Qed.

(** ** The merge of one Pod *)

Lemma apply_cards_rows st0 srcs st st' :
  NoDup (positions st0).*1 -> positions st = positions st0 ->
  apply_cards (ledger_index st0) srcs st = (st', None) ->
  positions st' = positions st0 /\
  forall res i j a, (res, (i, j)) ∈ positions st0 -> row st i j = Some a ->
    row st' i j = Some (absorb a (on res srcs)) /\ compatible a (on res srcs).
Proof.
  intros Hn. revert st. induction srcs as [|[r src] srcs IH]; intros st Hp Ha; cbn [apply_cards] in Ha.
  { injection Ha as <-. split; [done|]. intros. cbn. done. }
  destruct (ledger_index st0 !! r) as [[i0 j0]|] eqn:Hi.
  - apply ledger_index_spec in Hi; [|done].
    destruct (row st i0 j0) as [dst|] eqn:Hr.
    2:{ exfalso. rewrite <- Hp in Hi. apply elem_of_positions in Hi as (g & acc & Hg & Hacc & _).
        unfold row in Hr. rewrite Hg in Hr. cbn in Hr. congruence. }
    destruct (conflicts dst src) eqn:Hc; [done|].
    apply IH in Ha as [Hp' Hrow]; [|by rewrite positions_set_row].
    split; [done|]. intros res i j a Hpos Hrw.
    destruct (decide (res = r)) as [->|Hne].
    + assert ((i, j) = (i0, j0)) as [= -> ->].
      { apply ledger_index_spec in Hpos, Hi; [|done..]. congruence. }
      assert (a = dst) as -> by congruence. rewrite on_cons_eq.
      destruct (Hrow r i0 j0 (charge src dst) Hpos) as [H1 H2].
      { rewrite row_set_row, bool_decide_true, Hr by done. done. }
      done.
    + rewrite on_cons_ne by congruence. apply Hrow; [done|].
      rewrite row_set_row, bool_decide_false; [done|]. intros [= -> ->].
      apply elem_of_positions in Hpos as (g & acc & Hg & Hacc & ->), Hi as (g' & acc' & Hg' & Hacc' & ->).
      congruence.
  - apply IH in Ha as [Hp' Hrow]; [|done]. split; [done|]. intros res i j a Hpos Hrw.
    rewrite on_cons_ne; [by apply Hrow|]. intros ->. apply ledger_index_spec in Hpos; [|done]. congruence.
Qed.

Lemma ledger_index_positions st st0 : positions st = positions st0 -> ledger_index st = ledger_index st0.
Proof. unfold ledger_index. by intros ->. Qed.

Lemma apply_rows alloc st0 st st' :
  NoDup (positions st0).*1 -> positions st = positions st0 ->
  applyAllocatedStatus alloc st = (st', None) ->
  positions st' = positions st0 /\
  forall res i j a, (res, (i, j)) ∈ positions st0 -> row st i j = Some a ->
    row st' i j = Some (absorb a (on res (cards alloc))) /\ compatible a (on res (cards alloc)).
Proof.
  intros Hn Hp. unfold applyAllocatedStatus. destruct alloc as [|g alloc]; cbn [length Nat.eqb].
  - intros [= <-]. split; [done|]. intros. by cbn.
  - rewrite (ledger_index_positions _ _ Hp). by apply apply_cards_rows.
Qed.

(** ** The fold *)

(** The records the Pods still hold, in the order the fold meets them. *)
Definition held_cards (released : bool) (pods : list Pod) : list (Resource * AcceleratorAllocation) :=
  mjoin ((fun pod =>
    match allocatedStatusOf (AllocationAnnotation pod) with
    | Some status => cards (heldAllocation released pod status)
    | None => []
    end) <$> pods).

Lemma fold_strict_rows released pods st0 st st' :
  NoDup (positions st0).*1 -> positions (FsStatus st) = positions st0 ->
  fold_pods released (fun _ _ => false) st pods = inr st' ->
  positions (FsStatus st') = positions st0 /\
  (forall res i j a, (res, (i, j)) ∈ positions st0 -> row (FsStatus st) i j = Some a ->
     row (FsStatus st') i j = Some (absorb a (on res (held_cards released pods))) /\
     compatible a (on res (held_cards released pods))) /\
  FsPhysical st' = foldl add_physical (FsPhysical st) (held_cards released pods).
Proof.
  intros Hn. revert st. induction pods as [|pod pods IH]; intros st Hp Hf; cbn [fold_pods] in Hf.
  { injection Hf as <-. split_and!; [done| |done]. intros. by cbn. }
  unfold fold_pod in Hf. unfold held_cards. rewrite fmap_cons. cbn [mjoin list_join].
  destruct (allocatedStatusOf _) as [status|]; [|done].
  destruct (applyAllocatedStatus _ _) as [st1 [e|]] eqn:Ha; [done|].
  apply (apply_rows _ st0) in Ha as [Hp1 Hr1]; [|done..].
  apply IH in Hf as (Hp' & Hr & Hph); [|done]. split_and!; [done| |].
  - intros res i j a Hpos Hrow. destruct (Hr1 res i j a Hpos Hrow) as [H1 C1].
    destruct (Hr res i j _ Hpos H1) as [H2 C2]. fold (held_cards released pods).
    rewrite on_app, absorb_app, compatible_app. done.
  - rewrite Hph. cbn. unfold accumulatePhysicalOccupied. fold (held_cards released pods). by rewrite foldl_app.
Qed.

(** The intervals a list of records occupies on an accelerator. *)
Definition physical_on (res : Resource) (srcs : list (Resource * AcceleratorAllocation))
    : list AcceleratorPlacement :=
  mjoin (AllocatedPhysicalPlacements <$> filter (fun a => is_physical a = true) (on res srcs)).

Lemma physical_occupied srcs st res :
  placed (foldl add_physical st srcs).1 res = placed st.1 res ++ physical_on res srcs.
Proof.
  revert st. induction srcs as [|[r a] srcs IH]; intros [occ al]; cbn [foldl]; [by rewrite app_nil_r|].
  rewrite IH. unfold add_physical, physical_on. destruct (is_physical a) eqn:Hp; cbn [negb].
  - cbn [fst]. destruct (decide (r = res)) as [->|Hne].
    + rewrite on_cons_eq, filter_cons_True by done. unfold placed at 1. rewrite lookup_insert_eq.
      cbn. by rewrite <- app_assoc.
    + rewrite on_cons_ne by done. unfold placed at 1. by rewrite lookup_insert_ne.
  - cbn [fst]. destruct (decide (r = res)) as [->|Hne].
    + rewrite on_cons_eq, filter_cons_False by congruence. done.
    + by rewrite on_cons_ne.
Qed.

(** ** The ledger *)

Definition spec_resources (devs : Devices) : list Resource := (positions (initDesiredStatus devs)).*1.

Definition spec_at (devs : Devices) (i j : nat) (grp : DevicesGroup) (acc : Accelerator) : Prop :=
  SpecGroups devs !! i = Some grp /\ GrpAccelerators grp !! j = Some acc.

Definition resource_of (grp : DevicesGroup) (acc : Accelerator) : Resource :=
  {| Group := GrpID grp; Card := AccID acc |}.

Lemma seed_row devs i j grp acc :
  spec_at devs i j grp acc ->
  (resource_of grp acc, (i, j)) ∈ positions (initDesiredStatus devs) /\
  row (initDesiredStatus devs) i j = Some (seed_accelerator acc).
Proof.
  intros [Hg Ha]. unfold initDesiredStatus. split.
  - apply elem_of_positions. exists (seed_group grp), (seed_accelerator acc).
    rewrite list_lookup_fmap, Hg. cbn. by rewrite list_lookup_fmap, Ha.
  - unfold row. rewrite list_lookup_fmap, Hg. cbn. by rewrite list_lookup_fmap, Ha.
Qed.

Lemma physical_row devs st occupied allocated i j grp acc a :
  spec_at devs i j grp acc -> row st i j = Some a ->
  row (foldPhysicalLedger devs st occupied allocated) i j
  = Some (fold_physical_row occupied allocated (GrpID grp) acc a).
Proof.
  intros [Hg Ha]. unfold row, foldPhysicalLedger. rewrite lookup_zip_with, Hg. cbn.
  destruct (st !! i) as [g|]; [|done]. cbn. intros Hr. by rewrite lookup_zip_with, Ha, Hr.
Qed.

(** What a ledger row says of the records held on its accelerator. *)
Record row_exact (srcs : list AcceleratorAllocation) (a : AcceleratorAllocation) : Prop := {
  row_remaining : Remaining a = Z.max 0 (ResourceMaxUnits - sum_allocated srcs);
  row_slices : AllocatedSlices a = Z.of_nat (length (slices_of srcs));
  row_mode : Forall (fun src => Mode src = Mode a \/ Mode src = ModeNone) srcs;
  row_free : srcs = [] -> Mode a = ModeNone }.

Lemma row_exact_absorb acc srcs :
  Forall (fun src => 0 <= Allocated src < 2 ^ 31) srcs -> Z.of_nat (length srcs) < 2 ^ 31 ->
  compatible (seed_accelerator acc) srcs ->
  row_exact srcs (absorb (seed_accelerator acc) srcs).
Proof.
  intros Hs Hl Hc. constructor.
  - destruct (absorb_units (seed_accelerator acc) srcs) as [He _]; [cbn; unfold ResourceMaxUnits; lia|done|done].
  - rewrite absorb_slices; cbn; lia.
  - apply (absorb_mode _ _ Hc).
  - by intros ->.
Qed.

Lemma row_exact_physical srcs a occupied allocated group acc :
  row_exact srcs a -> row_exact srcs (fold_physical_row occupied allocated group acc a).
Proof. intros []. unfold fold_physical_row. destruct (Nat.eqb _ _); by constructor. Qed.

(** C19: a ledger the strict rebuild returns is exact.  On every accelerator of the
    inventory, the units left are a whole accelerator less what the Pods' held
    records allocate there, never below zero; the slices are the sliced records;
    every record agrees with the recorded mode; and the profiles still buildable
    are counted against exactly the intervals those records occupy. *)
Theorem ledger_exact (released : bool) (devs : Devices) (pods : list Pod) (status : DevicesStatus)
    (live : list string) (i j : nat) (grp : DevicesGroup) (acc : Accelerator) :
  NoDup (spec_resources devs) ->
  Forall (fun c => 0 <= Allocated c.2 < 2 ^ 31) (held_cards released pods) ->
  Z.of_nat (length (held_cards released pods)) < 2 ^ 31 ->
  mergePodAllocationsStrict released devs pods = inr (status, live) ->
  spec_at devs i j grp acc ->
  exists a, row status i j = Some a /\ AllocID a = AccID acc /\
    row_exact (on (resource_of grp acc) (held_cards released pods)) a /\
    (PhysicalProfiles (AccStatus acc) <> [] ->
     RemainingProfiles a = ProfileCountSlice (ComputeRemainingProfiles
       (physical_on (resource_of grp acc) (held_cards released pods))
       (possible_placements (PhysicalProfiles (AccStatus acc))))).
Proof.
  intros Hn Hr Hl. unfold mergePodAllocationsStrict, foldPodAllocations.
  destruct (fold_pods _ _ _ _) as [e|st] eqn:Hf; [done|]. intros [= <- _] Hat.
  apply (fold_strict_rows _ _ (initDesiredStatus devs)) in Hf as (_ & Hrow & Hph); [|done..].
  destruct (seed_row _ _ _ _ _ Hat) as [Hpos Hseed].
  destruct (Hrow _ _ _ _ Hpos Hseed) as [Ha Hc].
  set (srcs := held_cards released pods) in *. set (res := resource_of grp acc) in *.
  eexists. split_and!.
  - by apply physical_row.
  - unfold fold_physical_row. assert (forall a l, AllocID (absorb a l) = AllocID a) as Hid.
    { intros a l. revert a. induction l as [|x l IH]; intros a; [done|]. apply (IH (charge x a)). }
    destruct (Nat.eqb _ _); cbn; apply Hid.
  - apply row_exact_physical, row_exact_absorb; [| |done].
    + unfold on. rewrite Forall_fmap. rewrite list.Forall_forall in Hr |- *.
      intros c [_ Hin]%list_elem_of_filter. by apply Hr.
    + unfold on. rewrite length_fmap. eapply Z.le_lt_trans; [apply inj_le, length_filter|done].
  - intros Hp. unfold fold_physical_row. destruct (PhysicalProfiles (AccStatus acc)) as [|p ps] eqn:E; [done|].
    cbn [length Nat.eqb]. cbn [with_profiles RemainingProfiles]. fold res.
    rewrite Hph, physical_occupied. done.
Qed.

(** One Pod whose record shares the first of two accelerators and takes a slice of
    the second, beside a Pod that holds the second one exclusively. *)
Definition demo_row (card : string) (mode : DeviceAllocationMode) (units : Z) : AcceleratorAllocation := {|
  AllocID := card; AllocIndex := 0; Mode := mode; Allocated := units; Remaining := 0; AllocatedSlices := 0;
  AllocatedProfiles := []; RemainingProfiles := []; AllocatedPhysicalProfile := "";
  AllocatedPhysicalPlacements := []; AllocatedPhysicalID := ""; AllocatedLogicalPlacements := [] |}.
Definition demo_group (rows : list AcceleratorAllocation) : DevicesStatus :=
  [{| AgID := "a100"; AgManufacturer := "nvidia"; AgAccelerators := rows |}].
Definition demo_holder (uid : string) (rows : list AcceleratorAllocation) : Pod := {|
  PodNamespace := "default"; PodName := uid; PodUID := uid; CreationTimestamp := 0; Phase := PodRunning;
  AllocationAnnotation := Recorded {["main" := {| CaDevices := demo_group rows; CaDeviceIDs := [] |}]};
  InitContainers := []; Containers := [] |}.
Definition demo_accelerator (card : string) : Accelerator := {|
  AccID := card; AccIndex := 0;
  AccStatus := {| Unhealthy := false; LogicalCount := 4; LogicalOvercommit := false; PhysicalCount := 0;
                  PhysicalProfiles := [] |} |}.
Definition demo_inventory_group : DevicesGroup := {|
  GrpID := "a100"; GrpManufacturer := "nvidia"; GrpMemory := 81920;
  GrpAccelerators := [demo_accelerator "GPU-1"; demo_accelerator "GPU-2"] |}.
Definition demo_inventory : Devices := {| SpecGroups := [demo_inventory_group]; StatusGroups := [] |}.
Definition demo_pods : list Pod :=
  [demo_holder "u1" [demo_row "GPU-1" ModeSliced 400000];
   demo_holder "u2" [demo_row "GPU-1" ModeSliced 800000; demo_row "GPU-2" ModeExclusive ResourceMaxUnits]].
Definition demo_ledger : DevicesStatus := (BuildDesiredStatus true demo_inventory demo_pods).1.

Lemma ledger_exact_witness :
  exists a, row demo_ledger 0 0 = Some a /\ Remaining a = 400000 /\
    row_exact (on {| Group := "a100"; Card := "GPU-1" |} (held_cards true demo_pods)) a.
Proof.
  destruct (ledger_exact true demo_inventory demo_pods demo_ledger ["u1"; "u2"] 0 0 demo_inventory_group
              (demo_accelerator "GPU-1")) as (a & Ha & _ & He & _).
  - apply (bool_decide_eq_true_1 _). vm_compute. reflexivity.
  - apply (bool_decide_eq_true_1 _). vm_compute. reflexivity.
  - vm_compute. reflexivity.
  - vm_compute. reflexivity.
  - done.
  - exists a. split_and!; [done| |exact He]. vm_compute in Ha. by injection Ha as <-.
Defined.

(** Whenever the strict rebuild answers, the ordinary rebuild answers the
    same ledger and the same live set; they differ only on a failure. *)
Theorem strict_agrees_with_ordinary (released : bool) (devs : Devices) (pods : list Pod)
    (r : DevicesStatus * list string) :
  mergePodAllocationsStrict released devs pods = inr r -> BuildDesiredStatus released devs pods = r.
Proof.
  unfold mergePodAllocationsStrict, BuildDesiredStatus, mergePodAllocations, foldPodAllocations.
  generalize {| FsStatus := initDesiredStatus devs; FsPhysical := (∅, ∅); FsLive := [] |} as st.
  induction pods as [|pod pods IH]; intros st; cbn [fold_pods]; [by intros [= <-]|].
  unfold fold_pod. destruct (allocatedStatusOf _) as [s|]; [|done].
  destruct (applyAllocatedStatus _ _) as [st1 [e|]]; [done|]. apply IH.
Qed.

Lemma strict_agrees_with_ordinary_witness :
  BuildDesiredStatus true demo_inventory demo_pods = (demo_ledger, ["u1"; "u2"]).
Proof. apply strict_agrees_with_ordinary. vm_compute. reflexivity. Defined.

(** The records charged before the one that conflicts. *)
Lemma apply_cards_conflict index srcs st st' res :
  apply_cards index srcs st = (st', Some res) ->
  exists before src after i j dst,
    srcs = before ++ (res, src) :: after /\ apply_cards index before st = (st', None) /\
    index !! res = Some (i, j) /\ row st' i j = Some dst /\ conflicts dst src = true.
Proof.
  revert st. induction srcs as [|[r src] srcs IH]; intros st; cbn [apply_cards]; [done|].
  destruct (index !! r) as [[i j]|] eqn:Hi.
  - destruct (row st i j) as [dst|] eqn:Hr; [|done]. destruct (conflicts dst src) eqn:Hc.
    + intros [= <- <-]. exists [], src, srcs, i, j, dst. by cbn.
    + intros (b & s & a & i' & j' & d & -> & Hb & H1 & H2 & H3)%IH.
      exists ((r, src) :: b), s, a, i', j', d. split_and!; try done. cbn. by rewrite Hi, Hr, Hc.
  - intros (b & s & a & i' & j' & d & -> & Hb & H1 & H2 & H3)%IH.
    exists ((r, src) :: b), s, a, i', j', d. split_and!; try done. cbn. by rewrite Hi.
Qed.

(** A Pod whose record conflicts is not dropped whole: the ledger a failed
    merge leaves behind carries every record listed before the conflicting one,
    although the rebuild reports the Pod as not merged. *)
Theorem failed_merge_charges_prefix (alloc st st' : DevicesStatus) (res : Resource) :
  NoDup (positions st).*1 -> applyAllocatedStatus alloc st = (st', Some res) ->
  exists before src after,
    cards alloc = before ++ (res, src) :: after /\
    forall res' i j a, (res', (i, j)) ∈ positions st -> row st i j = Some a ->
      row st' i j = Some (absorb a (on res' before)).
Proof.
  intros Hn. unfold applyAllocatedStatus. destruct (Nat.eqb _ _); [done|].
  intros (before & src & after & i & j & dst & -> & Hb & _)%apply_cards_conflict.
  exists before, src, after. split; [done|]. intros res' i' j' a Hpos Hrow.
  apply (apply_cards_rows st) in Hb as [_ Hrows]; [|done..]. by apply (Hrows res').
Qed.

Lemma failed_merge_charges_prefix_witness :
  let alloc := demo_group [demo_row "GPU-1" ModeSliced 400000; demo_row "GPU-2" ModeSliced 400000] in
  let merged := applyAllocatedStatus alloc demo_ledger in
  merged.2 = Some {| Group := "a100"; Card := "GPU-2" |} /\
  (Remaining <$> row demo_ledger 0 0) = Some 400000 /\ (Remaining <$> row merged.1 0 0) = Some 0 /\
  exists before src after, cards alloc = before ++ ({| Group := "a100"; Card := "GPU-2" |}, src) :: after.
Proof.
  intros alloc merged. split_and!; [vm_compute; reflexivity..|].
  destruct (failed_merge_charges_prefix alloc demo_ledger merged.1 {| Group := "a100"; Card := "GPU-2" |})
    as (before & src & after & Hc & _).
  - apply (bool_decide_eq_true_1 _). vm_compute. reflexivity.
  - vm_compute. reflexivity.
  - by exists before, src, after.
Defined.
