(* ===== verification/PluginNode.v ===== *)
(** * Device plugin: the node's in-process tables

    The tables one [DevicesReconciler] keeps in memory and every operation on
    them (src/pkg/deviceplugin/controller.go): reservations, visibility grants
    and give-backs that have not landed; the identification of the container an
    Allocate serves; and the annotation writes that make a claim durable or take
    it back.  An API write has three outcomes: it lands, it is refused, or it
    lands while its caller is told it failed. *)

From stdpp Require Import prelude gmap strings list sorting.
From S2P Require Import Prelude Device PluginRecords PluginLedger.

(** ** Tables *)

Record ReservationKey := { KeyUID : string; KeyContainer : string }.
#[export] Instance ReservationKey_eq_dec : EqDecision ReservationKey.
Proof. solve_decision. Defined.
#[export] Instance ReservationKey_countable : Countable ReservationKey.
Proof.
  apply (inj_countable' (fun k => (KeyUID k, KeyContainer k))
                        (fun p => {| KeyUID := p.1; KeyContainer := p.2 |})).
  by intros [].
Defined.

Record Reservation := { ResAllocated : DevicesStatus; ResDeviceIDs : list string }.

(** [pendingEvent] is the wake-up buffered in [pendingReleaseEvents]. *)
Record Node := {
  reservations : gmap ReservationKey Reservation;
  visibilityGrants : gset ReservationKey;
  pendingReleases : gmap ReservationKey (option ContainerAllocation);
  pendingEvent : bool }.

Definition empty_node : Node :=
  {| reservations := ∅; visibilityGrants := ∅; pendingReleases := ∅; pendingEvent := false |}.

Definition with_reservations (m : gmap ReservationKey Reservation) (n : Node) : Node := {|
  reservations := m; visibilityGrants := visibilityGrants n;
  pendingReleases := pendingReleases n; pendingEvent := pendingEvent n |}.
Definition with_grants (g : gset ReservationKey) (n : Node) : Node := {|
  reservations := reservations n; visibilityGrants := g;
  pendingReleases := pendingReleases n; pendingEvent := pendingEvent n |}.
Definition with_pending (m : gmap ReservationKey (option ContainerAllocation)) (e : bool) (n : Node) : Node := {|
  reservations := reservations n; visibilityGrants := visibilityGrants n;
  pendingReleases := m; pendingEvent := e |}.

Definition key (uid container : string) : ReservationKey := {| KeyUID := uid; KeyContainer := container |}.

(** *** Reservations *)

Definition reserveDevices (uid container : string) (allocated : DevicesStatus) (deviceIDs : list string)
    (n : Node) : Node :=
  if bool_decide (uid = "") || bool_decide (container = "") || Nat.eqb (length allocated) 0 then n
  else with_reservations
         (<[key uid container := {| ResAllocated := allocated; ResDeviceIDs := deviceIDs |}]> (reservations n)) n.

Definition reservedDevices (n : Node) (uid container : string) : option DevicesStatus :=
  ResAllocated <$> reservations n !! key uid container.

Definition releaseReservation (uid container : string) (n : Node) : Node :=
  with_reservations (delete (key uid container) (reservations n)) n.

(** The reservations of a Pod by container name. *)
Definition reservationsFor (n : Node) (uid : string) : gmap string Reservation :=
  list_to_map (omap (fun '(k, r) =>
    if bool_decide (KeyUID k = uid) then Some (KeyContainer k, r) else None) (map_to_list (reservations n))).

Definition reservedPhysicalOccupied (n : Node) : Placements :=
  (foldl (fun st r => accumulatePhysicalOccupied (ResAllocated r) st) (∅, ∅)
     (map_to_list (reservations n)).*2).1.

Definition reservedLogicalOccupied (n : Node) : Placements :=
  foldl (fun occ r => accumulateLogicalOccupied (ResAllocated r) occ) ∅ (map_to_list (reservations n)).*2.

(** The mode one status records for an accelerator, when it is not none. *)
Definition held_mode (status : DevicesStatus) (res : Resource) : option DeviceAllocationMode :=
  first_of (fun c => if bool_decide (c.1 = res) && negb (bool_decide (Mode c.2 = ModeNone))
                     then Some (Mode c.2) else None) (cards status).

Definition reservedModeForResource (n : Node) (res : Resource) : option DeviceAllocationMode :=
  first_of (fun r => held_mode (ResAllocated r) res) (map_to_list (reservations n)).*2.

Definition pruneReservations (livePodUIDs : list string) (n : Node) : Node :=
  with_reservations (filter (fun kv => KeyUID kv.1 ∈ livePodUIDs) (reservations n)) n.

(** *** Visibility grants *)

Definition grantVisibility (uid container : string) (n : Node) : Node :=
  if bool_decide (uid = "") || bool_decide (container = "") then n
  else with_grants ({[key uid container]} ∪ visibilityGrants n) n.

Definition revokeVisibility (uid container : string) (n : Node) : Node :=
  with_grants (visibilityGrants n ∖ {[key uid container]}) n.

Definition visibilityGranted (n : Node) (uid container : string) : bool :=
  bool_decide (key uid container ∈ visibilityGrants n).

Definition pruneVisibilityGrants (livePodUIDs : list string) (n : Node) : Node :=
  with_grants (filter (fun k => KeyUID k ∈ livePodUIDs) (visibilityGrants n)) n.

(** The lexicographically smallest name other than [self]; "" for none. *)
Definition pick_owner (self owner name : string) : string :=
  if bool_decide (name = self) then owner
  else if bool_decide (owner = "") || String.ltb name owner then name else owner.

Definition pickAcceleratorOwner (candidates : list string) (self : string) : option string :=
  let owner := foldl (pick_owner self) "" candidates in
  if bool_decide (owner = "") then None else Some owner.

Definition reservedAcceleratorDevices (n : Node) (uid self : string) : option (DevicesStatus * string) :=
  let held := reservationsFor n uid in
  match pickAcceleratorOwner (map_to_list held).*1 self with
  | None => None
  | Some owner => (fun r => (ResAllocated r, owner)) <$> held !! owner
  end.

(** *** Give-backs *)

Definition recordPendingRelease (uid container : string) (prior : option ContainerAllocation) (n : Node)
    : Node :=
  if bool_decide (uid = "") || bool_decide (container = "") then n
  else
    let wasEmpty := bool_decide (pendingReleases n = ∅) in
    with_pending (<[key uid container := prior]> (pendingReleases n)) (wasEmpty || pendingEvent n) n.

Definition dropPendingRelease (k : ReservationKey) (n : Node) : Node :=
  with_pending (delete k (pendingReleases n)) (pendingEvent n) n.

Definition peekPendingRelease (n : Node) (k : ReservationKey) : option (option ContainerAllocation) :=
  pendingReleases n !! k.

Definition hasPendingReleases (n : Node) : bool := negb (bool_decide (pendingReleases n = ∅)).

(** ** Claims *)

Definition pod_allocations (pod : Pod) : option PodAllocations :=
  AllocatedAcceleratorsOf (AllocationAnnotation pod).

Definition recorded_claim (pod : Pod) (container : string) : option ContainerAllocation :=
  match pod_allocations pod with
  | None => None
  | Some allocations =>
      match allocations !! container with
      | Some held => if Nat.eqb (length (CaDevices held)) 0 then None else Some held
      | None => None
      end
  end.

(** What a container already holds: the reservation, then a give-back still
    pending, then the annotation. *)
Definition priorClaimOf (n : Node) (pod : Pod) (container : string) : option ContainerAllocation :=
  let recorded :=
    match peekPendingRelease n (key (PodUID pod) container) with
    | Some prior => prior
    | None => recorded_claim pod container
    end in
  match reservationsFor n (PodUID pod) !! container with
  | Some held =>
      if Nat.eqb (length (ResAllocated held)) 0 then recorded
      else Some {| CaDevices := ResAllocated held; CaDeviceIDs := ResDeviceIDs held |}
  | None => recorded
  end.

Definition priorAllocationOf (n : Node) (pod : Pod) (container : string) : option DevicesStatus :=
  let recorded := CaDevices <$> recorded_claim pod container in
  match reservedDevices n (PodUID pod) container with
  | Some reserved => if Nat.eqb (length reserved) 0 then recorded else Some reserved
  | None => recorded
  end.

(** ** Annotation writes *)

Inductive write := Landed | Refused | Unacknowledged.

Definition landed (w : write) : bool := match w with Refused => false | _ => true end.
Definition acknowledged (w : write) : bool := match w with Landed => true | _ => false end.

(** The pod's records as the informer has them, overlaid with the reservations of
    its other containers. *)
Definition overlay (n : Node) (uid container : string) (allocations : PodAllocations) : PodAllocations :=
  map_imap (fun name r => if bool_decide (name = container) then None
                          else Some {| CaDevices := ResAllocated r; CaDeviceIDs := ResDeviceIDs r |})
    (reservationsFor n uid) ∪ allocations.

Definition patch_value (n : Node) (pod : Pod) (container : string) (status : DevicesStatus)
    (deviceIDs : list string) : option Annotation :=
  match pod_allocations pod with
  | None => None
  | Some allocations =>
      Some (Recorded (<[container := {| CaDevices := status; CaDeviceIDs := deviceIDs |}]>
                        (overlay n (PodUID pod) container allocations)))
  end.

(** The table after the write, the value that landed and whether it succeeded. *)
Definition patchAllocatingPod (n : Node) (pod : Pod) (container : string) (status : DevicesStatus)
    (deviceIDs : list string) (w : write) : Node * option Annotation * bool :=
  match patch_value n pod container status deviceIDs with
  | None => (n, None, false)
  | Some value =>
      (if acknowledged w then dropPendingRelease (key (PodUID pod) container) n else n,
       if landed w then Some value else None, acknowledged w)
  end.

Definition unpatch_value (n : Node) (pod : Pod) (container : string) (prior : option ContainerAllocation)
    : option Annotation :=
  match pod_allocations pod with
  | None => None
  | Some allocations =>
      let kept := overlay n (PodUID pod) container allocations in
      let value := match prior with
                   | Some claim => <[container := claim]> kept
                   | None => delete container kept
                   end in
      Some (if bool_decide (value = ∅) then Unannotated else Recorded value)
  end.

Definition unpatchAllocatingPod (n : Node) (pod : Pod) (container : string)
    (prior : option ContainerAllocation) (w : write) : Node * option Annotation * bool :=
  match unpatch_value n pod container prior with
  | None => (n, None, false)
  | Some value =>
      (if acknowledged w then n else recordPendingRelease (PodUID pod) container prior n,
       if landed w then Some value else None, acknowledged w)
  end.

(** *** The retry walk *)

(** The keys of one Pod, in the order the set is walked: a key whose give-back was
    dropped meanwhile is passed over, the first other one is written and ends the
    walk for this Pod. *)
Fixpoint retry_pod (pod : Pod) (keys : list ReservationKey) (ws : ReservationKey -> write) (n : Node)
    : Node * list (string * Annotation) :=
  match keys with
  | [] => (n, [])
  | k :: keys =>
      match peekPendingRelease n k with
      | None => retry_pod pod keys ws n
      | Some prior =>
          let '(n, value, ok) := unpatchAllocatingPod n pod (KeyContainer k) prior (ws k) in
          (if ok : bool then dropPendingRelease k n else n,
           match value with Some v => [(PodUID pod, v)] | None => [] end)
      end
  end.

Definition keys_of (uid : string) (pending : gset ReservationKey) : list ReservationKey :=
  filter (fun k => KeyUID k = uid) (elements pending).

Fixpoint retry_pods (pods : list Pod) (pending : gset ReservationKey) (ws : ReservationKey -> write) (n : Node)
    : Node * list (string * Annotation) :=
  match pods with
  | [] => (n, [])
  | pod :: pods =>
      let '(n, written) := retry_pod pod (keys_of (PodUID pod) pending) ws n in
      let '(n, rest) := retry_pods pods pending ws n in
      (n, written ++ rest)
  end.

Definition retryPendingReleases (pods : list Pod) (livePodUIDs : list string) (ws : ReservationKey -> write)
    (n : Node) : Node * list (string * Annotation) :=
  let pending := dom (pendingReleases n) in
  let gone := filter (fun k => KeyUID k ∉ livePodUIDs) pending in
  let n := set_fold dropPendingRelease n gone in
  retry_pods pods (pending ∖ gone) ws n.

(** ** The container an Allocate serves *)

(** What kubelet reports per Pod: for each container it names, whether it already
    holds a device of the resource. *)
Abbreviation KubeletPending := (gmap (string * string) (gmap string bool)).

Definition waitsForDevice (pending : KubeletPending) (pod : Pod) (ctr : Container) : bool :=
  match pending !! (PodNamespace pod, PodName pod) with
  | None => false
  | Some ctrs => match ctrs !! CName ctr with Some held => negb held | None => true end
  end.

Record AllocationMatch := {
  MatchResource : string;
  MatchQuantity : Z;
  SkipReserved : bool;
  SkipGranted : bool;
  Feasible : option (Pod -> Container -> bool);
  Kubelet : option KubeletPending }.

Abbreviation Candidate := (Pod * Container)%type.

Definition containerRequests (ctr : Container) (resName : string) (quantity : Z) : bool :=
  bool_decide (Limits ctr !! resName = Some quantity).

Inductive tier := TierNone | TierFeasible | TierInfeasible | TierClaimed.
#[export] Instance tier_eq_dec : EqDecision tier.
Proof. solve_decision. Defined.

Definition classify (n : Node) (m : AllocationMatch) (c : Candidate) : tier :=
  let '(pod, ctr) := c in
  if negb (containerRequests ctr (MatchResource m) (MatchQuantity m)) then TierNone
  else if SkipReserved m && bool_decide (is_Some (reservedDevices n (PodUID pod) (CName ctr))) then TierClaimed
  else if SkipGranted m && visibilityGranted n (PodUID pod) (CName ctr) then TierClaimed
  else match Feasible m with
       | Some feasible => if feasible pod ctr then TierFeasible else TierInfeasible
       | None => TierFeasible
       end.

Definition pod_candidates (pod : Pod) : list Candidate :=
  if bool_decide (Phase pod = PhaseUnset) || bool_decide (Phase pod = PodPending)
  then (fun ctr => (pod, ctr)) <$> InitContainers pod ++ Containers pod else [].

Definition in_tier (n : Node) (m : AllocationMatch) (pods : list Pod) (t : tier) : list Candidate :=
  filter (fun c => classify n m c = t) (mjoin (pod_candidates <$> pods)).

Definition classifyAllocatingCandidates (n : Node) (m : AllocationMatch) (pods : list Pod)
    : list Candidate * list Candidate * list Candidate :=
  (in_tier n m pods TierFeasible, in_tier n m pods TierInfeasible, in_tier n m pods TierClaimed).

(** When no candidate waits, every tier comes back empty, as [waiting] leaves it. *)
Definition narrowToKubeletPending (m : AllocationMatch)
    (tiers : list Candidate * list Candidate * list Candidate)
    : list Candidate * list Candidate * list Candidate :=
  let '(feasible, infeasible, claimed) := tiers in
  match Kubelet m with
  | None => tiers
  | Some pending =>
      let waiting := filter (fun c => waitsForDevice pending c.1 c.2 = true) in
      (waiting feasible, waiting infeasible, waiting claimed)
  end.

Definition rankAllocatingCandidate (tiers : list Candidate * list Candidate * list Candidate)
    : option Candidate :=
  let '(feasible, infeasible, claimed) := tiers in
  match feasible, infeasible, claimed with
  | c :: _, _, _ => Some c
  | [], c :: _, _ => Some c
  | [], [], c :: _ => Some c
  | [], [], [] => None
  end.

(** [byCreation] stands for [slices.SortFunc] on the creation time, which is not
    stable: any order that sorts the listed Pods. *)
Definition getAllocatingPod (byCreation : list Pod -> list Pod) (n : Node) (m : AllocationMatch)
    (pods : list Pod) : option Candidate :=
  rankAllocatingCandidate (narrowToKubeletPending m (classifyAllocatingCandidates n m (byCreation pods))).

(** ** Lookup lemmas *)

Lemma key_eta k : key (KeyUID k) (KeyContainer k) = k.
Proof. by destruct k. Qed.

Lemma reservationsFor_lookup n uid container :
  reservationsFor n uid !! container = reservations n !! key uid container.
Proof.
  unfold reservationsFor. set (f := fun '(k, r) => _).
  assert (NoDup (omap f (map_to_list (reservations n))).*1) as Hn.
  { pose proof (NoDup_fst_map_to_list (reservations n)) as Hd. revert Hd.
    generalize (map_to_list (reservations n)) as l. induction l as [|[k r] l IH]; [constructor|].
    cbn. intros [Hk Hl]%NoDup_cons. specialize (IH Hl). case_bool_decide as Hu; [|done]. cbn.
    constructor; [|done]. intros ([c' r'] & Hc & Hin)%list_elem_of_fmap. cbn in Hc. subst c'.
    apply list_elem_of_omap in Hin as ([k' r''] & Hin & Hf). cbn in Hf.
    case_bool_decide as Hu'; [|done]. injection Hf as Hc ->. apply Hk, list_elem_of_fmap.
    exists (k', r'). split; [|done]. destruct k, k'; cbn in *; congruence. }
  apply option_eq. intros r. rewrite <- elem_of_list_to_map by done.
  rewrite list_elem_of_omap. split.
  - intros ([k r'] & Hin%elem_of_map_to_list & Hf). cbn in Hf. case_bool_decide as Hu; [|done].
    injection Hf as <- ->. by rewrite <- Hu, key_eta.
  - intros Hr. exists (key uid container, r). split; [by apply elem_of_map_to_list|].
    cbn. by rewrite bool_decide_true.
Qed.

Lemma rank_in tiers c :
  rankAllocatingCandidate tiers = Some c -> c ∈ tiers.1.1 \/ c ∈ tiers.1.2 \/ c ∈ tiers.2.
Proof.
  destruct tiers as [[[|a f] [|b i]] [|d l]]; cbn; intros; simplify_eq; auto using list_elem_of_here.
Qed.

Lemma narrow_in n m pods c :
  let tiers := narrowToKubeletPending m (classifyAllocatingCandidates n m pods) in
  c ∈ tiers.1.1 \/ c ∈ tiers.1.2 \/ c ∈ tiers.2 ->
  c ∈ in_tier n m pods TierFeasible \/ c ∈ in_tier n m pods TierInfeasible \/ c ∈ in_tier n m pods TierClaimed.
Proof.
  unfold narrowToKubeletPending, classifyAllocatingCandidates. destruct (Kubelet m); cbn; [|done].
  rewrite !list_elem_of_filter. naive_solver.
Qed.

Lemma getAllocatingPod_candidate byCreation n m pods pod ctr :
  (forall l, byCreation l ≡ₚ l) ->
  getAllocatingPod byCreation n m pods = Some (pod, ctr) ->
  pod ∈ pods /\ (Phase pod = PhaseUnset \/ Phase pod = PodPending) /\
  ctr ∈ InitContainers pod ++ Containers pod /\
  Limits ctr !! MatchResource m = Some (MatchQuantity m).
Proof.
  intros Hs Hg.
  assert (exists t, t <> TierNone /\ (pod, ctr) ∈ in_tier n m (byCreation pods) t) as (t & Ht & Hin).
  { apply rank_in in Hg. apply narrow_in in Hg as [Hx|[Hx|Hx]]; (eexists; split; [|exact Hx]; done). }
  unfold in_tier in Hin. apply list_elem_of_filter in Hin as [Hc Hin].
  apply list_elem_of_join in Hin as (l & Hl & (p & -> & Hp)%list_elem_of_fmap).
  rewrite (Hs pods) in Hp. unfold pod_candidates in Hl.
  destruct (bool_decide _ || bool_decide _) eqn:Hph; [|by apply not_elem_of_nil in Hl].
  apply list_elem_of_fmap in Hl as (c & [= -> ->] & Hc').
  split_and!; [done| |done|].
  - apply orb_true_iff in Hph as [?%bool_decide_eq_true|?%bool_decide_eq_true]; auto.
  - unfold classify in Hc. destruct (containerRequests _ _ _) eqn:Hr; [|by subst].
    by apply bool_decide_eq_true in Hr.
Qed.
