(* ===== verification/PluginSlices.v ===== *)
(** * Device plugin: room for logical slices

    What the node's live logical slices hold, per accelerator and container, and
    whether one more slice fits (src/pkg/deviceplugin/sliced_room.go), with the
    ledger reads of server.go.  Sums are kept at [int32].  The lemmas give the
    occupancy of every container exactly, whichever of the three records it is
    read from, and the gate's verdict as arithmetic on it. *)

From stdpp Require Import prelude gmap strings list sorting.
From S2P Require Import Prelude Device PluginRecords PluginLedger PluginNode.

(** ** Reads of the Devices object *)

Definition capabilityOf (devs : Devices) (res : Resource) : option AcceleratorStatus :=
  first_of (fun grp =>
    if bool_decide (GrpID grp = Group res)
    then first_of (fun acc => if bool_decide (AccID acc = Card res) then Some (AccStatus acc) else None)
           (GrpAccelerators grp)
    else None) (SpecGroups devs).

Definition status_row (devs : Devices) (res : Resource) : option AcceleratorAllocation :=
  first_of (fun grp =>
    if bool_decide (AgID grp = Group res)
    then first_of (fun acc => if bool_decide (AllocID acc = Card res) then Some acc else None)
           (AgAccelerators grp)
    else None) (StatusGroups devs).

Definition statusModeOf (devs : Devices) (res : Resource) : DeviceAllocationMode :=
  match status_row devs res with Some acc => Mode acc | None => ModeNone end.

Definition statusRemainingOf (devs : Devices) (res : Resource) : Z :=
  match status_row devs res with Some acc => Remaining acc | None => ResourceMaxUnits end.

(** ** Occupancy *)

Abbreviation Occupancy := (gmap Resource (gmap ReservationKey Z)).

Definition holders_on (o : Occupancy) (res : Resource) : gmap ReservationKey Z := default ∅ (o !! res).

Definition occupy (holder : ReservationKey) (o : Occupancy) (c : Resource * AcceleratorAllocation) : Occupancy :=
  if negb (bool_decide (Mode c.2 = ModeSliced)) then o
  else <[c.1 := <[holder := i32 (default 0 (holders_on o c.1 !! holder) + Allocated c.2)]> (holders_on o c.1)]> o.

Definition occupancy_add (holder : ReservationKey) (held : DevicesStatus) (o : Occupancy) : Occupancy :=
  foldl (occupy holder) o (cards held).

Definition pod_holders (n : Node) (pod : Pod) : gset string :=
  dom (default ∅ (pod_allocations pod)) ∪ dom (reservationsFor n (PodUID pod)).

Definition occupy_claim (released : bool) (n : Node) (pod : Pod) (o : Occupancy) (name : string) : Occupancy :=
  match priorClaimOf n pod name with
  | Some held => occupancy_add (key (PodUID pod) name) (heldAllocation released pod (CaDevices held)) o
  | None => o
  end.

Definition occupy_pod (released : bool) (n : Node) (o : Occupancy) (pod : Pod) : Occupancy :=
  foldl (occupy_claim released n pod) o (merge_sort name_le (elements (pod_holders n pod))).

Definition slicedOccupancy (released : bool) (n : Node) (pods : list Pod) : Occupancy :=
  foldl (occupy_pod released n) ∅ pods.

Definition except_step (self : ReservationKey) (acc : Z * Z) (kv : ReservationKey * Z) : Z * Z :=
  let '(units, slices) := acc in
  let '(holder, u) := kv in
  if bool_decide (holder = self) then (units, slices) else (i32 (units + u), i32 (slices + 1)).

Definition heldExcept (o : Occupancy) (res : Resource) (self : ReservationKey) : Z * Z :=
  foldl (except_step self) (0, 0) (map_to_list (holders_on o res)).

(** ** Room *)

(** [RoomOccupied] is [None] when the refusal is switched off or the family is not
    sliced: every read then goes to the published ledger. *)
Record SlicedRoom := {
  RoomDevs : Devices; RoomOccupied : option Occupancy; RoomSelf : ReservationKey }.

Definition remaining (r : SlicedRoom) (res : Resource) : Z :=
  match RoomOccupied r with
  | None => statusRemainingOf (RoomDevs r) res
  | Some o => Z.max (i32 (ResourceMaxUnits - (heldExcept o res (RoomSelf r)).1)) 0
  end.

Inductive Shortage :=
  | SlotsTaken (slices count : Z)
  | UnitsShort (free need : Z).

Definition shortage (r : SlicedRoom) (res : Resource) (need : Z) : option Shortage :=
  let slots :=
    match RoomOccupied r with
    | None => None
    | Some o =>
        let slices := (heldExcept o res (RoomSelf r)).2 in
        match capabilityOf (RoomDevs r) res with
        | Some capability =>
            if IsLogicallySliceable capability && (LogicalSlotsFree capability slices <=? 0)
            then Some (SlotsTaken slices (LogicalCount capability)) else None
        | None => None
        end
    end in
  match slots with
  | Some s => Some s
  | None => let free := remaining r res in if free <? need then Some (UnitsShort free need) else None
  end.

Definition slicedRoomFor (devs : Devices) (occupied : option Occupancy) (self : option (Pod * Container))
    : SlicedRoom := {|
  RoomDevs := devs; RoomOccupied := occupied;
  RoomSelf := match self with Some (pod, ctr) => key (PodUID pod) (CName ctr) | None => key "" "" end |}.

Definition unitsCharged (unitsPerToken : Z) (tokens : nat) : Z :=
  let perToken := Z.min unitsPerToken ResourceMaxUnits in
  i32 (Z.min (i64 (perToken * Z.of_nat tokens)) ResourceMaxUnits).

(** The cards of a request in the order of their names. *)
Definition resource_le (a b : Resource) : Prop := String.leb (resource_string a) (resource_string b) = true.
#[export] Instance resource_le_dec : RelDecision resource_le.
Proof. intros a b. exact (bool_eq_dec _ _). Defined.

Definition rejectSlicedOvercommit (devs : Devices) (occupied : option Occupancy) (pod : Pod) (ctr : Container)
    (tokensByCard : gmap Resource (list ResourceToken)) (unitsPerToken : Z) : option (Resource * Shortage) :=
  match occupied with
  | None => None
  | Some o =>
      let room := slicedRoomFor devs (Some o) (Some (pod, ctr)) in
      first_of (fun res =>
        let tokens := default [] (tokensByCard !! res) in
        (fun why => (res, why)) <$> shortage room res (unitsCharged unitsPerToken (length tokens)))
        (merge_sort resource_le (map_to_list tokensByCard).*1)
  end.

(** ** The units a status holds as logical slices *)

(** The entry a holder of this status has on an accelerator, if any. *)
Definition slice_of (held : DevicesStatus) (res : Resource) : option Z :=
  foldl (fun o acc => Some (i32 (default 0 o + Allocated acc))) None (slices_of (on res (cards held))).

Lemma first_of_None {A B} (f : A -> option B) l : first_of f l = None <-> Forall (fun x => f x = None) l.
Proof.
  unfold first_of. induction l as [|x l IH]; [done|]. cbn. rewrite Forall_cons.
  destruct (f x) eqn:E; [|by rewrite IH; intuition]. split; [done|]. intros [? _]. congruence.
Qed.

Lemma first_of_Some {A B} (f : A -> option B) l y : first_of f l = Some y -> exists x, x ∈ l /\ f x = Some y.
Proof.
  unfold first_of. intros Hh%head_Some_elem_of. by apply list_elem_of_omap in Hh.
Qed.

Lemma holders_on_occupy holder o c res k :
  holders_on (occupy holder o c) res !! k =
    if bool_decide (Mode c.2 = ModeSliced /\ c.1 = res /\ k = holder)
    then Some (i32 (default 0 (holders_on o res !! k) + Allocated c.2))
    else holders_on o res !! k.
Proof.
  unfold occupy. destruct (decide (Mode c.2 = ModeSliced)) as [Hm|Hm].
  - rewrite (bool_decide_true (Mode c.2 = _)) by done. cbn [negb].
    unfold holders_on at 1. destruct (decide (c.1 = res)) as [<-|Hr].
    + rewrite lookup_insert_eq. cbn. destruct (decide (k = holder)) as [->|Hk].
      * by rewrite lookup_insert_eq, bool_decide_true.
      * by rewrite lookup_insert_ne, bool_decide_false by naive_solver.
    + rewrite lookup_insert_ne, bool_decide_false by naive_solver. done.
  - rewrite (bool_decide_false (Mode c.2 = _)), bool_decide_false by naive_solver. done.
Qed.

Lemma occupancy_add_lookup holder held o res k :
  holders_on (occupancy_add holder held o) res !! k =
    if bool_decide (k = holder)
    then foldl (fun o acc => Some (i32 (default 0 o + Allocated acc))) (holders_on o res !! k)
           (slices_of (on res (cards held)))
    else holders_on o res !! k.
Proof.
  unfold occupancy_add. generalize (cards held) as l. intros l. revert o.
  induction l as [|[r a] l IH]; intros o; cbn [foldl]; [by case_bool_decide|].
  rewrite IH, holders_on_occupy. cbn [fst snd].
  destruct (decide (k = holder)) as [->|Hk].
  - rewrite (bool_decide_true (holder = holder)) by done.
    destruct (decide (r = res)) as [->|Hr].
    + rewrite on_cons_eq. unfold slices_of. rewrite filter_cons.
      destruct (decide (Mode a = ModeSliced)).
      * by rewrite bool_decide_true.
      * by rewrite bool_decide_false by naive_solver.
    + by rewrite on_cons_ne, bool_decide_false by naive_solver.
  - by rewrite !bool_decide_false by naive_solver.
Qed.

(** ** The occupancy of every container *)

(** What the records say a container of a listed Pod holds. *)
Definition claimed (released : bool) (n : Node) (pod : Pod) (name : string) : DevicesStatus :=
  match priorClaimOf n pod name with
  | Some held => heldAllocation released pod (CaDevices held)
  | None => []
  end.

Lemma slice_of_nil res : slice_of [] res = None.
Proof. done. Qed.

(** A container with a claim that is not a bare give-back is among the holders. *)
Lemma pod_holders_claim n pod name c :
  priorClaimOf n pod name = Some c ->
  name ∈ pod_holders n pod \/ is_Some (peekPendingRelease n (key (PodUID pod) name)).
Proof.
  unfold priorClaimOf, pod_holders. intros Hc.
  destruct (reservationsFor n (PodUID pod) !! name) as [r|] eqn:Hr.
  { left. apply elem_of_union_r, elem_of_dom. eauto. }
  destruct (peekPendingRelease n _) as [p|] eqn:Hp; [by right|]. left.
  unfold recorded_claim in Hc. destruct (pod_allocations pod) as [al|]; [|done].
  destruct (al !! name) eqn:Hl; [|done]. apply elem_of_union_l, elem_of_dom. eauto.
Qed.

Lemma occupy_claims_lookup released n pod names o res k :
  NoDup names ->
  holders_on (foldl (occupy_claim released n pod) o names) res !! k =
    if bool_decide (KeyUID k = PodUID pod /\ KeyContainer k ∈ names)
    then foldl (fun o acc => Some (i32 (default 0 o + Allocated acc))) (holders_on o res !! k)
           (slices_of (on res (cards (claimed released n pod (KeyContainer k)))))
    else holders_on o res !! k.
Proof.
  revert o. induction names as [|name names IH]; intros o Hn; cbn [foldl].
  { rewrite bool_decide_false; [done|]. intros [_ ?%not_elem_of_nil]. done. }
  apply NoDup_cons in Hn as [Hname Hn]. rewrite IH by done.
  assert (holders_on (occupy_claim released n pod o name) res !! k =
          if bool_decide (k = key (PodUID pod) name)
          then foldl (fun o acc => Some (i32 (default 0 o + Allocated acc))) (holders_on o res !! k)
                 (slices_of (on res (cards (claimed released n pod name))))
          else holders_on o res !! k) as ->.
  { unfold occupy_claim, claimed. destruct (priorClaimOf n pod name); [apply occupancy_add_lookup|].
    by destruct (bool_decide (k = _)). }
  destruct (decide (k = key (PodUID pod) name)) as [->|Hk].
  - rewrite (bool_decide_true (key _ _ = _)) by done. cbn [KeyUID KeyContainer key].
    rewrite bool_decide_false, bool_decide_true; [done| |naive_solver]. split; [done|left].
  - rewrite (bool_decide_false (k = _)) by done. erewrite bool_decide_ext; [reflexivity|].
    rewrite elem_of_cons. split; [naive_solver|]. intros [Hu [Hc|Hc]]; [|done].
    exfalso. apply Hk. rewrite <- Hu, <- Hc. by rewrite key_eta.
Qed.

Lemma sorted_holders n pod :
  NoDup (merge_sort name_le (elements (pod_holders n pod))) /\
  forall name, name ∈ merge_sort name_le (elements (pod_holders n pod)) <-> name ∈ pod_holders n pod.
Proof.
  split.
  - rewrite merge_sort_Permutation. apply NoDup_elements.
  - intros name. rewrite merge_sort_Permutation. apply elem_of_elements.
Qed.

Lemma occupy_pods_lookup released n pods o res k :
  NoDup (PodUID <$> pods) -> (forall pod, pod ∈ pods -> KeyUID k = PodUID pod -> holders_on o res !! k = None) ->
  holders_on (foldl (occupy_pod released n) o pods) res !! k =
    match list_find (fun pod => PodUID pod = KeyUID k) pods with
    | Some (_, pod) =>
        if bool_decide (KeyContainer k ∈ pod_holders n pod)
        then slice_of (claimed released n pod (KeyContainer k)) res else None
    | None => holders_on o res !! k
    end.
Proof.
  revert o. induction pods as [|pod pods IH]; intros o Hn Ho; cbn [foldl list_find]; [done|].
  apply NoDup_cons in Hn as [Hp Hn]. destruct (sorted_holders n pod) as [Hs1 Hs2].
  assert (forall r, holders_on (occupy_pod released n o pod) res !! r = _) as Hone
    by (intros r; apply (occupy_claims_lookup released n pod _ o res r Hs1)).
  rewrite IH; [|done|].
  - rewrite Hone. destruct (decide (PodUID pod = KeyUID k)) as [Hu|Hu].
    + destruct (list_find _ pods) as [[i q]|] eqn:Hf.
      { exfalso. apply list_find_Some in Hf as (Hq & Hqu & _). apply Hp. rewrite Hu, <- Hqu.
        apply list_elem_of_fmap. eauto using list_elem_of_lookup_2. }
      rewrite (Ho pod) by (done || left). unfold slice_of.
      erewrite bool_decide_ext; [reflexivity|]. rewrite Hs2. naive_solver.
    + rewrite bool_decide_false by naive_solver. by destruct (list_find _ pods) as [[i q]|].
  - intros q Hq Hk. rewrite Hone, bool_decide_false.
    + apply (Ho q); [by right|done].
    + intros [Hu _]. apply Hp. rewrite <- Hu, Hk. by apply list_elem_of_fmap_2.
Qed.

(** The occupancy of an accelerator holds, for each container of a listed Pod,
    exactly what its claim holds there as a slice. *)
Lemma slicedOccupancy_lookup released n pods res pod k :
  NoDup (PodUID <$> pods) -> pod ∈ pods -> KeyUID k = PodUID pod ->
  holders_on (slicedOccupancy released n pods) res !! k =
    if bool_decide (KeyContainer k ∈ pod_holders n pod)
    then slice_of (claimed released n pod (KeyContainer k)) res else None.
Proof.
  intros Hn Hp Hu. unfold slicedOccupancy. rewrite occupy_pods_lookup by done.
  destruct (list_find _ pods) as [[i q]|] eqn:Hf.
  - apply list_find_Some in Hf as (Hq & Hqu & _).
    assert (q = pod) as ->; [|done]. apply list_elem_of_lookup_1 in Hp as [j Hj].
    assert (i = j) as ->; [|congruence].
    apply (NoDup_lookup (PodUID <$> pods) i j (KeyUID k) Hn); rewrite list_lookup_fmap;
      [by rewrite Hq; cbn; rewrite Hqu|by rewrite Hj; cbn; rewrite Hu].
  - apply list_find_None in Hf. rewrite list.Forall_forall in Hf. exfalso. by apply (Hf pod).
Qed.

Lemma slicedOccupancy_unlisted released n pods res k :
  NoDup (PodUID <$> pods) -> (forall pod, pod ∈ pods -> PodUID pod <> KeyUID k) ->
  holders_on (slicedOccupancy released n pods) res !! k = None.
Proof.
  intros Hn Hp. unfold slicedOccupancy. rewrite occupy_pods_lookup by done.
  destruct (list_find _ pods) as [[i q]|] eqn:Hf; [|done].
  apply list_find_Some in Hf as (Hq & Hqu & _). exfalso.
  by apply (Hp q); [eapply list_elem_of_lookup_2|].
Qed.

(** ** The sums of the gate *)

(** Holders whose units a whole accelerator bounds, few enough that the [int32]
    sums of [heldExcept] cannot wrap: 1342 whole accelerators are the most that
    fit. *)
Definition bounded_holders (m : gmap ReservationKey Z) : Prop :=
  (forall k u, m !! k = Some u -> 0 <= u <= ResourceMaxUnits) /\ (size m <= 1342)%nat.

Definition except_sum (self : ReservationKey) (l : list (ReservationKey * Z)) : Z :=
  foldr (fun kv n => (if bool_decide (kv.1 = self) then 0 else kv.2) + n) 0 l.
Definition except_count (self : ReservationKey) (l : list (ReservationKey * Z)) : Z :=
  foldr (fun kv n => (if bool_decide (kv.1 = self) then 0 else 1) + n) 0 l.

Lemma except_fold self l units slices :
  Forall (fun kv => kv.1 <> self -> 0 <= kv.2) l -> 0 <= units -> 0 <= slices ->
  units + except_sum self l < 2 ^ 31 -> slices + except_count self l < 2 ^ 31 ->
  foldl (except_step self) (units, slices) l = (units + except_sum self l, slices + except_count self l).
Proof.
  revert units slices. induction l as [|[k u] l IH]; intros units slices Hl Hu Hs Hbu Hbs; cbn in *; [f_equal; lia|].
  apply Forall_cons in Hl as [Hk Hl]. cbn in Hk.
  assert (0 <= except_sum self l /\ 0 <= except_count self l) as [? ?].
  { clear -Hl. induction l as [|[j y] l IH]; cbn; [lia|]. apply Forall_cons in Hl as [Hy Hl]. cbn in Hy.
    destruct (IH Hl). unfold except_sum, except_count in *. case_bool_decide; [lia|]. specialize (Hy ltac:(done)). lia. }
  unfold except_sum, except_count in *. case_bool_decide.
  - rewrite IH by (done || lia). f_equal; lia.
  - specialize (Hk ltac:(done)). rewrite !i32_small by (unfold is_i32; lia). rewrite IH by (done || lia). f_equal; lia.
Qed.

Lemma except_delete self (m : gmap ReservationKey Z) :
  except_sum self (map_to_list m) = sum_map (delete self m) /\
  except_count self (map_to_list m) = Z.of_nat (size (delete self m)).
Proof.
  assert (forall l : list (ReservationKey * Z), Forall (fun kv => kv.1 <> self) l ->
            except_sum self l = foldr (fun kv n => kv.2 + n) 0 l /\ except_count self l = Z.of_nat (length l)) as Hno.
  { induction l as [|[j y] l IH]; cbn; [done|]. intros [Hj Hl]%Forall_cons. cbn in Hj.
    rewrite bool_decide_false by done. destruct (IH Hl). unfold except_sum, except_count in *. lia. }
  assert (Forall (fun kv => kv.1 <> self) (map_to_list (delete self m))) as Hd.
  { apply list.Forall_forall. intros [j y] Hj%elem_of_map_to_list. cbn. intros ->. by rewrite lookup_delete_eq in Hj. }
  destruct (Hno _ Hd) as [Hs Hc]. unfold sum_map. rewrite <- Hs. rewrite <- length_map_to_list, <- Hc.
  destruct (m !! self) as [x|] eqn:Hm; [|by rewrite delete_id by done].
  assert (forall l l', l ≡ₚ l' -> except_sum self l = except_sum self l' /\ except_count self l = except_count self l') as Hp.
  { unfold except_sum, except_count. induction 1; cbn; lia. }
  destruct (Hp _ _ (map_to_list_delete m self x Hm)) as [<- <-]. cbn. by rewrite bool_decide_true.
Qed.

Lemma heldExcept_exact o res self :
  bounded_holders (delete self (holders_on o res)) ->
  heldExcept o res self = (sum_map (delete self (holders_on o res)),
                           Z.of_nat (size (delete self (holders_on o res)))).
Proof.
  intros [Hb Hs]. unfold heldExcept.
  pose proof (sum_map_bound (delete self (holders_on o res)) ResourceMaxUnits Hb) as Hsum.
  destruct (except_delete self (holders_on o res)) as [Hd Hc]. rewrite <- Hd, <- Hc.
  rewrite except_fold; [done| |lia|lia| |].
  - apply list.Forall_forall. intros [k u] Hk%elem_of_map_to_list Hne. cbn in *.
    apply (Hb k). by rewrite lookup_delete_ne.
  - unfold ResourceMaxUnits in *. lia.
  - lia.
Qed.

(** The slots and units a room finds, as arithmetic on the occupancy. *)
Lemma shortage_None devs o self res need :
  bounded_holders (delete self (holders_on o res)) ->
  shortage {| RoomDevs := devs; RoomOccupied := Some o; RoomSelf := self |} res need = None ->
  need <= Z.max 0 (ResourceMaxUnits - sum_map (delete self (holders_on o res))) /\
  (forall capability, capabilityOf devs res = Some capability -> IsLogicallySliceable capability = true ->
     is_i32 (LogicalCount capability) ->
     Z.of_nat (size (delete self (holders_on o res))) < LogicalCount capability).
Proof.
  intros Hb. pose proof (heldExcept_exact o res self Hb) as He. destruct Hb as [Hb Hs].
  pose proof (sum_map_bound (delete self (holders_on o res)) ResourceMaxUnits Hb) as Hsum.
  unfold shortage, remaining. cbn [RoomOccupied RoomDevs RoomSelf]. rewrite He. cbn [fst snd].
  set (slots := match capabilityOf devs res with Some _ => _ | None => None end).
  destruct slots as [x|] eqn:Hslots; [done|].
  rewrite i32_small by (unfold is_i32, ResourceMaxUnits in *; lia).
  destruct (Z.ltb_spec (Z.max (ResourceMaxUnits - sum_map (delete self (holders_on o res))) 0) need); [done|].
  intros _. split; [lia|]. intros capability Hc Hl Hi. unfold slots in Hslots. rewrite Hc, Hl in Hslots.
  cbn [andb] in Hslots. unfold LogicalSlotsFree in Hslots. rewrite Hl in Hslots. cbn [negb] in Hslots.
  assert (0 < LogicalCount capability) by (apply andb_true_iff in Hl as [?%Z.ltb_lt _]; done).
  unfold is_i32 in Hi. rewrite i32_small in Hslots by (unfold is_i32; lia).
  destruct (Z.leb_spec (LogicalCount capability - Z.of_nat (size (delete self (holders_on o res)))) 0); [done|lia].
Qed.

Lemma unitsCharged_bounds unitsPerToken tokens :
  0 <= unitsPerToken -> Z.of_nat tokens < 2 ^ 31 ->
  unitsCharged unitsPerToken tokens = Z.min (Z.min unitsPerToken ResourceMaxUnits * Z.of_nat tokens) ResourceMaxUnits /\
  0 <= unitsCharged unitsPerToken tokens <= ResourceMaxUnits.
Proof.
  intros Hu Ht. unfold unitsCharged.
  assert (0 <= Z.min unitsPerToken ResourceMaxUnits * Z.of_nat tokens <= ResourceMaxUnits * 2 ^ 31) as Hp
    by (unfold ResourceMaxUnits; nia).
  rewrite i64_small by (unfold is_i64, ResourceMaxUnits in *; lia).
  rewrite i32_small by (unfold is_i32, ResourceMaxUnits in *; lia). unfold ResourceMaxUnits in *. lia.
Qed.

(** A request the gate lets through finds room on every card it names. *)
Lemma reject_None devs o pod ctr (tokensByCard : gmap Resource (list ResourceToken)) unitsPerToken res tokens :
  rejectSlicedOvercommit devs (Some o) pod ctr tokensByCard unitsPerToken = None ->
  tokensByCard !! res = Some tokens ->
  shortage {| RoomDevs := devs; RoomOccupied := Some o; RoomSelf := key (PodUID pod) (CName ctr) |} res
    (unitsCharged unitsPerToken (length tokens)) = None.
Proof.
  intros Hr Ht. unfold rejectSlicedOvercommit in Hr. apply first_of_None in Hr.
  rewrite merge_sort_Permutation, list.Forall_forall in Hr.
  assert (res ∈ (map_to_list tokensByCard).*1) as Hin.
  { apply list_elem_of_fmap. exists (res, tokens). split; [done|]. by apply elem_of_map_to_list. }
  specialize (Hr res Hin). rewrite Ht in Hr. by apply fmap_None in Hr.
Qed.
