(* ===== verification/PluginAllocate.v ===== *)
(** * Device plugin: Allocate

    The workload Allocate of src/pkg/deviceplugin/server.go, phase by phase: the
    decision taken under the node's allocate mutex, the actuation of a hardware
    partition, the durable record, the response and the compensation of a
    refused one; the visibility Allocate; and the verification of kubelet's own
    records (kubelet_allocations.go, kubelet_pods.go).  The vendor half of a
    response is an argument of the phases that call it. *)

From stdpp Require Import prelude gmap strings list sorting.
From S2P Require Import Prelude Device PluginRecords PluginLedger PluginNode PluginSlices.

Declare Scope plugin_scope.
Delimit Scope plugin_scope with plugin.
Open Scope plugin_scope.

(** One ResourceServer. *)
Record Server := { Manufacturer : string; AllocationMode : DeviceAllocationMode }.

Inductive AllocateError :=
  | Unconfigured
  | KubeletConflict (pod container : string)
  | KubeletUncached (pod : string)
  | KubeletDeviceID (id : string)
  | KubeletInventory (pod : string)
  | KubeletUnreadable (pod : string)
  | InvalidDeviceID (id : string)
  | RepeatedCard (res : Resource)
  | NoCandidate
  | ConflictingReplay
  | NoProfile
  | NoPartitionRoom (profile : string)
  | CrossMode (res : Resource) (mode : DeviceAllocationMode)
  | Overcommit (res : Resource) (why : Shortage)
  | PlacementFailed
  | CannotActuate
  | ActuationFailed
  | ResponseFailed
  | PatchFailed
  | NoCoAllocation
  | StaleCoAllocation
  | NoOwnerContainer.

Inductive Code := Internal | InvalidArgument | FailedPrecondition | ResourceExhausted.

(** The gRPC code of an error the server itself builds; [None] for one a responder
    returned, which is passed on as it is. *)
Definition error_code (e : AllocateError) : option Code :=
  match e with
  | Unconfigured | NoCandidate | PlacementFailed | CannotActuate | ActuationFailed | PatchFailed => Some Internal
  | InvalidDeviceID _ => Some InvalidArgument
  | NoPartitionRoom _ => Some ResourceExhausted
  | ResponseFailed => None
  | _ => Some FailedPrecondition
  end.

Definition try {A B} (m : AllocateError + A) (k : A -> AllocateError + B) : AllocateError + B :=
  match m with inl e => inl e | inr a => k a end.
Notation "'let?' x := m 'in' k" := (try m (fun x => k))
  (at level 200, x binder, m at level 100, k at level 200) : plugin_scope.

(** [if cond { return err }]. *)
Definition refuse_if {B} (o : option B) (f : B -> AllocateError) : AllocateError + unit :=
  match o with Some b => inl (f b) | None => inr tt end.

(** ** Tokens of a request *)

Abbreviation CardTokens := (gmap Resource (list ResourceToken)).

Definition push_token (m : CardTokens) (t : ResourceToken) : CardTokens :=
  <[TokenResource t := default [] (m !! TokenResource t) ++ [t]]> m.

Fixpoint parse_tokens (ids : list string) (m : CardTokens) : AllocateError + CardTokens :=
  match ids with
  | [] => inr m
  | id :: ids =>
      match ParseResourceToken id with
      | None => inl (InvalidDeviceID id)
      | Some t => parse_tokens ids (push_token m t)
      end
  end.

(** [sort.Strings]. *)
Definition sort_strings (ids : list string) : list string := merge_sort name_le ids.

Definition rejectRepeatedSharedCards (s : Server) (cardTokens : CardTokens) : option Resource :=
  if negb (bool_decide (AllocationMode s = ModeShared)) then None
  else head (merge_sort resource_le
               (filter (fun kv => (1 < length kv.2)%nat) (map_to_list cardTokens)).*1).

(** ** Modes *)

Definition other_mode (s : Server) (m : DeviceAllocationMode) : bool :=
  negb (bool_decide (m = ModeNone)) && negb (bool_decide (m = AllocationMode s)).

Definition cardHeldInOtherMode (s : Server) (n : Node) (devs : Devices) (res : Resource)
    : option DeviceAllocationMode :=
  let m := statusModeOf devs res in
  if other_mode s m then Some m
  else match reservedModeForResource n res with
       | Some m => if other_mode s m then Some m else None
       | None => None
       end.

Definition rejectCrossModeCards (s : Server) (n : Node) (devs : Devices) (cardTokens : CardTokens)
    : option (Resource * DeviceAllocationMode) :=
  first_of (fun res => (fun m => (res, m)) <$> cardHeldInOtherMode s n devs res) (map_to_list cardTokens).*1.

(** ** Units *)

Section Allocate.
Context `{Tables : NameTables}.

Definition ResourceName (s : Server) : string :=
  GetAcceleratableResourceName (Manufacturer s) (AllocationMode s).

Definition unitsResourceName (s : Server) : string :=
  match AllocationMode s with
  | ModeSliced => GetAcceleratableSlicedUnitsResourceName (Manufacturer s)
  | ModePartitioned => GetAcceleratablePartitionedUnitsResourceName (Manufacturer s)
  | _ => ""
  end.

Definition requestedUnits (s : Server) (ctr : Container) : Z * bool :=
  let unitsResName := unitsResourceName s in
  if bool_decide (unitsResName = "") then (1, false)
  else match Limits ctr !! unitsResName with
       | Some q => if 0 <? q then (q, true) else (1, false)
       | None => (1, false)
       end.

(** *** The allocation a set of tokens commits *)

Definition charged (s : Server) (unitsPerToken : Z) (tokens : nat) : Z :=
  let allocated :=
    match AllocationMode s with
    | ModeShared => ResourceMaxUnits / SharedResourceMaxSize
    | ModeSliced | ModePartitioned => unitsCharged unitsPerToken tokens
    | _ => ResourceMaxUnits
    end in
  if ResourceMaxUnits <? allocated then ResourceMaxUnits else allocated.

Definition allocation_row (s : Server) (acc : Accelerator) (allocated : Z) : AcceleratorAllocation := {|
  AllocID := AccID acc; AllocIndex := AccIndex acc; Mode := AllocationMode s; Allocated := allocated;
  Remaining := 0; AllocatedSlices := 0; AllocatedProfiles := []; RemainingProfiles := [];
  AllocatedPhysicalProfile := ""; AllocatedPhysicalPlacements := []; AllocatedPhysicalID := "";
  AllocatedLogicalPlacements := [] |}.

(** [append] to the last group when it is the accelerator's, to a new one otherwise. *)
Definition push_row (grp : DevicesGroup) (status : DevicesStatus) (r : AcceleratorAllocation) : DevicesStatus :=
  let fresh := status ++ [{| AgID := GrpID grp; AgManufacturer := GrpManufacturer grp; AgAccelerators := [r] |}] in
  match last status with
  | None => fresh
  | Some g =>
      if negb (bool_decide (AgID g = GrpID grp)) then fresh
      else alter (fun g => {| AgID := AgID g; AgManufacturer := AgManufacturer g;
                              AgAccelerators := AgAccelerators g ++ [r] |}) (length status - 1)%nat status
  end.

Definition accumulate_card (s : Server) (cardTokens : CardTokens) (unitsPerToken : Z) (grp : DevicesGroup)
    (st : DevicesStatus * gmap Resource Z) (acc : Accelerator) : DevicesStatus * gmap Resource Z :=
  let res := resource_of grp acc in
  match cardTokens !! res with
  | None => st
  | Some tokens =>
      let allocated := charged s unitsPerToken (length tokens) in
      (push_row grp st.1 (allocation_row s acc allocated), <[res := allocated]> st.2)
  end.

Definition accumulate_group (s : Server) (cardTokens : CardTokens) (unitsPerToken : Z)
    (st : DevicesStatus * gmap Resource Z) (grp : DevicesGroup) : DevicesStatus * gmap Resource Z :=
  if negb (bool_decide (GrpManufacturer grp = Manufacturer s)) then st
  else foldl (accumulate_card s cardTokens unitsPerToken grp) st (GrpAccelerators grp).

Definition accumulateAllocation (s : Server) (devs : Devices) (cardTokens : CardTokens) (unitsPerToken : Z)
    : DevicesStatus * gmap Resource Z :=
  foldl (accumulate_group s cardTokens unitsPerToken) ([], ∅) (SpecGroups devs).

(** *** Geometry *)

Definition map_rows (f : Resource -> AcceleratorAllocation -> AcceleratorAllocation) (status : DevicesStatus)
    : DevicesStatus :=
  (fun g => {| AgID := AgID g; AgManufacturer := AgManufacturer g;
               AgAccelerators := (fun acc => f {| Group := AgID g; Card := AllocID acc |} acc) <$> AgAccelerators g |})
    <$> status.

Definition set_logical (placements : Placements) (res : Resource) (acc : AcceleratorAllocation)
    : AcceleratorAllocation :=
  match placements !! res with
  | Some (p :: ps) => {|
      AllocID := AllocID acc; AllocIndex := AllocIndex acc; Mode := Mode acc; Allocated := Allocated acc;
      Remaining := Remaining acc; AllocatedSlices := AllocatedSlices acc;
      AllocatedProfiles := AllocatedProfiles acc; RemainingProfiles := RemainingProfiles acc;
      AllocatedPhysicalProfile := AllocatedPhysicalProfile acc;
      AllocatedPhysicalPlacements := AllocatedPhysicalPlacements acc;
      AllocatedPhysicalID := AllocatedPhysicalID acc; AllocatedLogicalPlacements := p :: ps |}
  | _ => acc
  end.

Definition applyLogicalPlacements (placements : Placements) (status : DevicesStatus) : DevicesStatus :=
  map_rows (set_logical placements) status.

Definition set_physical (profile : string) (placements : Placements) (ids : gmap Resource string)
    (res : Resource) (acc : AcceleratorAllocation) : AcceleratorAllocation :=
  match placements !! res with
  | Some p => {|
      AllocID := AllocID acc; AllocIndex := AllocIndex acc; Mode := Mode acc; Allocated := Allocated acc;
      Remaining := Remaining acc; AllocatedSlices := AllocatedSlices acc;
      AllocatedProfiles := AllocatedProfiles acc; RemainingProfiles := RemainingProfiles acc;
      AllocatedPhysicalProfile := profile; AllocatedPhysicalPlacements := p;
      AllocatedPhysicalID := default "" (ids !! res);
      AllocatedLogicalPlacements := AllocatedLogicalPlacements acc |}
  | None => acc
  end.

Definition applyPhysicalPlacements (profile : string) (placements : Placements) (ids : gmap Resource string)
    (status : DevicesStatus) : DevicesStatus :=
  map_rows (set_physical profile placements ids) status.

(** *** Partitions *)

Definition profilePlacements (profiles : list PhysicalProfile) (profile : string) : list AcceleratorPlacement :=
  match list_find (fun p => PName p = profile) profiles with
  | Some (_, p) => PPlacements p
  | None => []
  end.

Definition add_candidate (s : Server) (n : Node) (devs : Devices) (occupied : Placements) (profile : string)
    (grp : DevicesGroup) (st : list PartitionCandidate * gmap string Resource) (acc : Accelerator)
    : list PartitionCandidate * gmap string Resource :=
  let possible := profilePlacements (PhysicalProfiles (AccStatus acc)) profile in
  let res := resource_of grp acc in
  if negb (IsPartitioned (AccStatus acc)) then st
  else if Unhealthy (AccStatus acc) then st
  else if Nat.eqb (length possible) 0 then st
  else match cardHeldInOtherMode s n devs res with
       | Some _ => st
       | None =>
           (st.1 ++ [{| ID := resource_string res; Possible := possible; Occupied := placed occupied res |}],
            <[resource_string res := res]> st.2)
       end.

Definition partitionCandidates (s : Server) (n : Node) (devs : Devices) (occupied : Placements)
    (profile : string) : list PartitionCandidate * gmap string Resource :=
  foldl (fun st grp =>
    if negb (bool_decide (GrpManufacturer grp = Manufacturer s)) then st
    else foldl (add_candidate s n devs occupied profile grp) st (GrpAccelerators grp)) ([], ∅) (SpecGroups devs).

Definition profile_units (grp : DevicesGroup) (profile : string) (acc : Accelerator) : option Z :=
  if negb (IsPartitioned (AccStatus acc)) then None
  else first_of (fun p =>
         if bool_decide (PName p = profile) && (0 <? PMemoryMib p)
         then Some (MemoryMibToUnits (PMemoryMib p) (i64 (GrpMemory grp))) else None)
         (PhysicalProfiles (AccStatus acc)).

Definition partitionProfileUnits (s : Server) (devs : Devices) (profile : string) : Z :=
  default 0 (first_of (fun grp =>
    if negb (bool_decide (GrpManufacturer grp = Manufacturer s)) || (GrpMemory grp =? 0) then None
    else first_of (profile_units grp profile) (GrpAccelerators grp)) (SpecGroups devs)).

(** One token per record, numbered as the records of its card are met. *)
Definition prior_token (m : CardTokens) (c : Resource * AcceleratorAllocation) : CardTokens :=
  push_token m {| TokenResource := c.1; Index := Z.of_nat (length (default [] (m !! c.1))) |}.

Definition priorPartitionTokens (prior : DevicesStatus) : CardTokens * Placements :=
  (foldl prior_token ∅ (cards prior),
   foldl (fun m c => if is_physical c.2 then <[c.1 := AllocatedPhysicalPlacements c.2]> m else m) ∅ (cards prior)).

Definition partition_token (byID : gmap string Resource) (st : CardTokens * Placements) (sel : PartitionSelection)
    : CardTokens * Placements :=
  let res := default {| Group := ""; Card := "" |} (byID !! SelID sel) in
  (push_token st.1 {| TokenResource := res; Index := Z.of_nat (length (default [] (st.1 !! res))) |},
   <[res := placed st.2 res ++ [SelPlacement sel]]> st.2).

Definition partitionTokens (selections : list PartitionSelection) (byID : gmap string Resource)
    : CardTokens * Placements :=
  foldl (partition_token byID) (∅, ∅) selections.

(** *** The decision *)

Record Decision := {
  DPod : Pod;
  DContainer : Container;
  DDevices : Devices;
  DProfile : string;
  DStatus : DevicesStatus;
  DAllocation : gmap Resource Z;
  DLogicalPlacements : Placements;
  DPriorClaim : option ContainerAllocation }.

Definition with_status (status : DevicesStatus) (d : Decision) : Decision := {|
  DPod := DPod d; DContainer := DContainer d; DDevices := DDevices d; DProfile := DProfile d;
  DStatus := status; DAllocation := DAllocation d; DLogicalPlacements := DLogicalPlacements d;
  DPriorClaim := DPriorClaim d |}.

Definition decision_key (d : Decision) : ReservationKey := key (PodUID (DPod d)) (CName (DContainer d)).

(** [PlaceLogicalSliced] of the vendor's responder, when it has one; [None] in its
    answer is an error. *)
Abbreviation Placer :=
  (Pod -> Container -> Devices -> gmap Resource Z -> Placements -> option Placements).

(** Process settings and the unspecified order of [slices.SortFunc]. *)
Record Settings := {
  TerminatedReleased : bool;
  slicedAllocateGateOff : bool;
  ByCreation : list Pod -> list Pod }.

(** The reads an Allocate is served from: the Devices object and the node's Pods,
    both from the informer cache. *)
Record Snapshot := { SnapDevices : Devices; SnapPods : list Pod }.

Definition live_occupied (add : DevicesStatus -> Placements -> Placements) (held : Pod -> DevicesStatus -> DevicesStatus)
    (pods : list Pod) : Placements :=
  foldl (fun occ pod =>
    match allocatedStatusOf (AllocationAnnotation pod) with
    | Some status => add (held pod status) occ
    | None => occ
    end) ∅ pods.

Definition add_physical_only (status : DevicesStatus) (occ : Placements) : Placements :=
  (accumulatePhysicalOccupied status (occ, ∅)).1.

Definition LivePhysicalOccupied (pods : list Pod) : Placements :=
  live_occupied add_physical_only (fun _ status => status) pods.

Definition LiveLogicalOccupied (cfg : Settings) (pods : list Pod) : Placements :=
  live_occupied accumulateLogicalOccupied (heldAllocation (TerminatedReleased cfg)) pods.

(** [occupied[res] = append(occupied[res], placements...)] for every entry. *)
Definition append_placements (occupied more : Placements) : Placements :=
  union_with (fun a b => Some (a ++ b)) occupied more.

Definition occupiedPhysicalPlacements (n : Node) (pods : list Pod) : Placements :=
  append_placements (LivePhysicalOccupied pods) (reservedPhysicalOccupied n).

Definition occupiedLogicalPlacements (cfg : Settings) (n : Node) (pods : list Pod) : Placements :=
  append_placements (LiveLogicalOccupied cfg pods) (reservedLogicalOccupied n).

Definition slicedOccupancyForAllocate (cfg : Settings) (s : Server) (n : Node) (pods : list Pod)
    : option Occupancy :=
  if negb (bool_decide (AllocationMode s = ModeSliced)) || slicedAllocateGateOff cfg then None
  else Some (slicedOccupancy (TerminatedReleased cfg) n pods).

Definition candidateFeasible (s : Server) (n : Node) (devs : Devices) (cardTokens : CardTokens)
    (occupied : Placements) (sliced : option Occupancy) : option (Pod -> Container -> bool) :=
  match AllocationMode s with
  | ModeSliced => Some (fun pod ctr =>
      match Limits ctr !! GetAcceleratableSlicedUnitsResourceName (Manufacturer s) with
      | None => true
      | Some q =>
          if q <=? 0 then true
          else
            let room := slicedRoomFor devs sliced (Some (pod, ctr)) in
            forallb (fun '(res, tokens) =>
              bool_decide (shortage room res (unitsCharged q (length tokens)) = None)) (map_to_list cardTokens)
      end)
  | ModePartitioned => Some (fun _ ctr =>
      match partitionProfileOf ctr with
      | None => true
      | Some profile => (SelectPartitionPlacements (partitionCandidates s n devs occupied profile).1 1).2
      end)
  | _ => None
  end.

Definition choosePartitionCards (s : Server) (n : Node) (devs : Devices) (occupied : Placements)
    (pod : Pod) (ctr : Container) (deviceIDs : list string) (unitsPerToken : Z) (unitsRequested : bool)
    : AllocateError + (string * CardTokens * Placements * Z) :=
  match partitionProfileOf ctr with
  | None => inl NoProfile
  | Some profile =>
      let folded := partitionProfileUnits s devs profile in
      let unitsPerToken := if negb unitsRequested && (0 <? folded) then folded else unitsPerToken in
      match priorAllocationOf n pod (CName ctr) with
      | Some prior =>
          let '(tokens, placements) := priorPartitionTokens prior in inr (profile, tokens, placements, unitsPerToken)
      | None =>
          let '(candidates, byID) := partitionCandidates s n devs occupied profile in
          match SelectPartitionPlacements candidates (Z.of_nat (length deviceIDs)) with
          | (_, false) => inl (NoPartitionRoom profile)
          | (selections, true) =>
              let '(tokens, placements) := partitionTokens selections byID in
              inr (profile, tokens, placements, unitsPerToken)
          end
      end
  end.

Definition priorLogicalPlacements (n : Node) (pod : Pod) (container : string) : option Placements :=
  match priorAllocationOf n pod container with
  | None => None
  | Some prior =>
      let placements := accumulateLogicalOccupied prior ∅ in
      if bool_decide (placements = ∅) then None else Some placements
  end.

Definition placeLogicalSlice (n : Node) (place : Placer) (pod : Pod) (ctr : Container) (devs : Devices)
    (allocation : gmap Resource Z) (occupiedLogical : Placements) : AllocateError + Placements :=
  match priorLogicalPlacements n pod (CName ctr) with
  | Some prior => inr prior
  | None => match place pod ctr devs allocation occupiedLogical with
            | Some placements => inr placements
            | None => inl PlacementFailed
            end
  end.

(** The cards a record names. *)
Definition claim_cards (c : ContainerAllocation) : gset Resource := list_to_set (cards (CaDevices c)).*1.

Definition conflicting_replay (s : Server) (prior : option ContainerAllocation) (cardTokens : CardTokens) : bool :=
  match prior with
  | None => false
  | Some c => negb (bool_decide (AllocationMode s = ModePartitioned)) &&
              negb (bool_decide (claim_cards c = dom cardTokens))
  end.

(** [decideAllocation], run under the allocate mutex: the decision and the node
    with its reservation, or the error, which leaves the node as it was. *)
Definition decideAllocation (cfg : Settings) (s : Server) (place : option Placer) (kubelet : option KubeletPending)
    (snap : Snapshot) (deviceIDs : list string) (cardTokens : CardTokens) (n : Node)
    : AllocateError + (Decision * Node) :=
  let devs := SnapDevices snap in
  let pods := SnapPods snap in
  let place := if bool_decide (AllocationMode s = ModeSliced) then place else None in
  let occupied :=
    if bool_decide (AllocationMode s = ModePartitioned) then occupiedPhysicalPlacements n pods else ∅ in
  let occupiedLogical := occupiedLogicalPlacements cfg n pods in
  let sliced := slicedOccupancyForAllocate cfg s n pods in
  let m := {| MatchResource := ResourceName s; MatchQuantity := Z.of_nat (length deviceIDs);
              SkipReserved := true; SkipGranted := false;
              Feasible := candidateFeasible s n devs cardTokens occupied sliced; Kubelet := kubelet |} in
  match getAllocatingPod (ByCreation cfg) n m pods with
  | None => inl NoCandidate
  | Some (pod, ctr) =>
      let prior := priorClaimOf n pod (CName ctr) in
      if conflicting_replay s prior cardTokens then inl ConflictingReplay
      else
        let '(unitsPerToken, unitsRequested) := requestedUnits s ctr in
        let? '(profile, cardTokens, placements, unitsPerToken) :=
          (if bool_decide (AllocationMode s = ModePartitioned)
           then choosePartitionCards s n devs occupied pod ctr deviceIDs unitsPerToken unitsRequested
           else inr ("", cardTokens, ∅, unitsPerToken)) in
        let? _ := refuse_if (rejectCrossModeCards s n devs cardTokens) (fun '(res, mode) => CrossMode res mode) in
        let? _ := refuse_if (rejectSlicedOvercommit devs sliced pod ctr cardTokens unitsPerToken)
                    (fun '(res, why) => Overcommit res why) in
        let '(status, allocation) := accumulateAllocation s devs cardTokens unitsPerToken in
        let? '(status, logical) :=
          match place with
          | None => inr (status, ∅)
          | Some place =>
              let? placements := placeLogicalSlice n place pod ctr devs allocation occupiedLogical in
              inr (applyLogicalPlacements placements status, placements)
          end in
        let status := if bool_decide (placements = ∅) then status
                      else applyPhysicalPlacements profile placements ∅ status in
        inr ({| DPod := pod; DContainer := ctr; DDevices := devs; DProfile := profile; DStatus := status;
                DAllocation := allocation; DLogicalPlacements := logical; DPriorClaim := prior |},
             reserveDevices (PodUID pod) (CName ctr) status deviceIDs n)
  end.

(** *** After the mutex *)

(** What an actuator reports: the profile, the intervals and the identifiers. *)
Record Physical := {
  PhysProfile : string; PhysPlacements : Placements; PhysIDs : gmap Resource string }.

(** [actuatePartition]: [actuation] is [None] when the responder cannot actuate,
    [Some None] when it fails. *)
Definition actuatePartition (d : Decision) (deviceIDs : list string) (actuation : option (option Physical))
    (n : Node) : (AllocateError + (Decision * option Physical)) * Node :=
  let '(uid, container) := (PodUID (DPod d), CName (DContainer d)) in
  if bool_decide (DProfile d = "") then (inr (d, None), n)
  else match actuation with
       | None => (inl CannotActuate, releaseReservation uid container n)
       | Some None => (inl ActuationFailed, releaseReservation uid container n)
       | Some (Some physical) =>
           let status := applyPhysicalPlacements (PhysProfile physical) (PhysPlacements physical)
                           (PhysIDs physical) (DStatus d) in
           (inr (with_status status d, Some physical), reserveDevices uid container status deviceIDs n)
       end.

(** [renderPrePatchResponse]: whether the response is already rendered. *)
Definition renderPrePatchResponse (d : Decision) (physical : option Physical) (placesLogical ok : bool) (n : Node)
    : (AllocateError + bool) * Node :=
  match physical with
  | Some _ => (inr true, n)
  | None =>
      if placesLogical then
        if ok then (inr true, n)
        else (inl ResponseFailed, releaseReservation (PodUID (DPod d)) (CName (DContainer d)) n)
      else (inr false, n)
  end.

(** [persistAllocation]: the node, the annotation that landed and the error. *)
Definition persistAllocation (d : Decision) (deviceIDs : list string) (w : write) (n : Node)
    : Node * option Annotation * option AllocateError :=
  let '(n, value, ok) := patchAllocatingPod n (DPod d) (CName (DContainer d)) (DStatus d) deviceIDs w in
  if ok : bool then (n, value, None)
  else (releaseReservation (PodUID (DPod d)) (CName (DContainer d)) n, value, Some PatchFailed).

(** [releaseAllocation], its two halves: the reservation is settled first, then the
    annotation is written. *)
Definition settle_reservation (d : Decision) (n : Node) : Node :=
  let '(uid, container) := (PodUID (DPod d), CName (DContainer d)) in
  match DPriorClaim d with
  | Some prior => reserveDevices uid container (CaDevices prior) (CaDeviceIDs prior) n
  | None => releaseReservation uid container n
  end.

Definition unpatch_refused (d : Decision) (w : write) (n : Node) : Node * option Annotation * bool :=
  unpatchAllocatingPod n (DPod d) (CName (DContainer d)) (DPriorClaim d) w.

Definition releaseAllocation (d : Decision) (w : write) (n : Node) : Node * option Annotation * bool :=
  unpatch_refused d w (settle_reservation d n).

(** The front of [Allocate] up to the end of the serialized section. *)
Definition decide_request (cfg : Settings) (s : Server) (place : option Placer) (kubelet : option KubeletPending)
    (snap : Snapshot) (deviceIDs : list string) (n : Node) : AllocateError + (Decision * Node) :=
  let? cardTokens := parse_tokens deviceIDs ∅ in
  let? _ := refuse_if (rejectRepeatedSharedCards s cardTokens) RepeatedCard in
  decideAllocation cfg s place kubelet snap deviceIDs cardTokens n.

(** What the vendor's responder and the API server answer during one call. *)
Record Replies := {
  Actuation : option (option Physical);
  RenderOK : bool;
  PatchWrite : write;
  RespondOK : bool;
  UnpatchWrite : write }.

(** The workload path of [Allocate] without interleaving: the decision, then the
    phases after the mutex; the node, the annotations that landed and the answer. *)
Definition Allocate (cfg : Settings) (s : Server) (place : option Placer) (kubelet : option KubeletPending)
    (snap : Snapshot) (ids : list string) (replies : Replies) (n : Node)
    : (AllocateError + Decision) * Node * list Annotation :=
  let deviceIDs := sort_strings ids in
  let placesLogical := bool_decide (AllocationMode s = ModeSliced) && bool_decide (is_Some place) in
  match decide_request cfg s place kubelet snap deviceIDs n with
  | inl e => (inl e, n, [])
  | inr (d, n) =>
      match actuatePartition d deviceIDs (Actuation replies) n with
      | (inl e, n) => (inl e, n, [])
      | (inr (d, physical), n) =>
          match renderPrePatchResponse d physical placesLogical (RenderOK replies) n with
          | (inl e, n) => (inl e, n, [])
          | (inr rendered, n) =>
              let '(n, value, err) := persistAllocation d deviceIDs (PatchWrite replies) n in
              let written := option_list value in
              match err with
              | Some e => (inl e, n, written)
              | None =>
                  if rendered || RespondOK replies then (inr d, n, written)
                  else
                    let '(n, value, _) := releaseAllocation d (UnpatchWrite replies) n in
                    (inl ResponseFailed, n, written ++ option_list value)
              end
          end
      end
  end.

(** ** Visibility *)

Definition claimVisibilityContainer (cfg : Settings) (s : Server) (kubelet : option KubeletPending)
    (pods : list Pod) (quantity : Z) (n : Node) : option (Pod * Container * Node) :=
  let m := {| MatchResource := ResourceName s; MatchQuantity := quantity; SkipReserved := false;
              SkipGranted := true; Feasible := None; Kubelet := kubelet |} in
  match getAllocatingPod (ByCreation cfg) n m pods with
  | None => None
  | Some (pod, ctr) => Some (pod, ctr, grantVisibility (PodUID pod) (CName ctr) n)
  end.

(** The devices a container other than [self] holds; [inl] for an unreadable
    annotation, an empty status when there is no record. *)
Definition coAllocatedAccelerators (n : Node) (pod : Pod) (self : string)
    : AllocateError + (DevicesStatus * string) :=
  let recorded :=
    match pod_allocations pod with
    | None => inl NoCoAllocation
    | Some allocations =>
        match pickAcceleratorOwner (map_to_list allocations).*1 self with
        | None => inr ([], "")
        | Some owner => inr (default [] (CaDevices <$> allocations !! owner), owner)
        end
    end in
  match reservedAcceleratorDevices n (PodUID pod) self with
  | Some (reserved, owner) => if Nat.eqb (length reserved) 0 then recorded else inr (reserved, owner)
  | None => recorded
  end.

Definition validateVisibilityReservation (devs : Devices) (reserved : DevicesStatus) (requestCount : Z)
    : AllocateError + gmap Resource Z :=
  let present := spec_resources devs in
  let allocated :=
    foldl (fun (m : gmap Resource Z) c => if bool_decide (c.1 ∈ present) then <[c.1 := Allocated c.2]> m else m)
      ∅ (cards reserved) in
  let reservedCount := length (cards reserved) in
  if negb (Nat.eqb (size allocated) reservedCount) || negb (Z.of_nat reservedCount =? requestCount)
  then inl StaleCoAllocation else inr allocated.

Definition containerByName (pod : Pod) (name : string) : option Container :=
  snd <$> list_find (fun ctr => CName ctr = name) (InitContainers pod ++ Containers pod).

(** Whether the response is rendered, by the whole-accelerator responder or by the
    partition capability; [partition] is [None] when the responder lacks it. *)
Definition visibilityResponse (pod : Pod) (owner : string) (whole : bool) (partition : option bool)
    : AllocateError + unit :=
  match containerByName pod owner with
  | None => inl NoOwnerContainer
  | Some ownerCtr =>
      match partitionProfileOf ownerCtr with
      | None => if whole then inr tt else inl ResponseFailed
      | Some _ => match partition with Some true => inr tt | _ => inl NoCoAllocation end
      end
  end.

(** The visibility Allocate: the accelerators it grants, and the node. *)
Definition allocateVisibility (cfg : Settings) (s : Server) (kubelet : option KubeletPending) (snap : Snapshot)
    (ids : list string) (whole : bool) (partition : option bool) (n : Node)
    : (AllocateError + gmap Resource Z) * Node :=
  let quantity := Z.of_nat (length ids) in
  match claimVisibilityContainer cfg s kubelet (SnapPods snap) quantity n with
  | None => (inl NoCandidate, n)
  | Some (pod, ctr, n) =>
      let answer :=
        let? '(reserved, owner) := coAllocatedAccelerators n pod (CName ctr) in
        if Nat.eqb (length reserved) 0 then inl NoCoAllocation
        else
          let? allocated := validateVisibilityReservation (SnapDevices snap) reserved quantity in
          let? _ := visibilityResponse pod owner whole partition in
          inr allocated in
      match answer with
      | inl e => (inl e, revokeVisibility (PodUID pod) (CName ctr) n)
      | inr allocated => (inr allocated, n)
      end
  end.

(** ** Kubelet's own records *)

Record ContainerResources := { CrName : string; CrDevices : list (string * list string) }.
Record PodResources := { PrNamespace : string; PrName : string; PrContainers : list ContainerResources }.

Definition holds_device (resName : string) (c : ContainerResources) : bool :=
  existsb (fun d => bool_decide (d.1 = resName) && negb (Nat.eqb (length d.2) 0)) (CrDevices c).

Definition kubeletPendingFrom (listed : list PodResources) (resName : string) : KubeletPending :=
  foldl (fun m p =>
    <[(PrNamespace p, PrName p) :=
        foldl (fun (ctrs : gmap string bool) c => <[CrName c := holds_device resName c]> ctrs) ∅ (PrContainers p)]> m)
    ∅ listed.

(** The manufacturer and mode of a whole-accelerator resource name. *)
Definition manufacturableAccelerators : gmap string Server :=
  foldl (fun table manufacturer =>
    foldl (fun table mode =>
      <[GetAcceleratableResourceName manufacturer mode := {| Manufacturer := manufacturer; AllocationMode := mode |}]>
        table) table [ModeExclusive; ModeShared]) ∅ (merge_sort name_le (map_to_list ResourceNames).*1).

Fixpoint kubelet_tokens (ids : list string) (m : CardTokens) : AllocateError + CardTokens :=
  match ids with
  | [] => inr m
  | id :: ids =>
      match ParseResourceToken id with
      | None => inl (KubeletDeviceID id)
      | Some t => kubelet_tokens ids (push_token m t)
      end
  end.

#[export] Instance AcceleratorProfileCount_eq_dec : EqDecision AcceleratorProfileCount.
Proof. solve_decision. Defined.
#[export] Instance AcceleratorAllocation_eq_dec : EqDecision AcceleratorAllocation.
Proof. solve_decision. Defined.
#[export] Instance DevicesAllocationGroup_eq_dec : EqDecision DevicesAllocationGroup.
Proof. solve_decision. Defined.

Definition verifyKubeletContainer (devs : Devices) (pods : list Pod) (reported : PodResources)
    (container : string) (deviceIDs : list string) (s : Server) : AllocateError + unit :=
  match list_find (fun p => PodName p = PrName reported /\ PodNamespace p = PrNamespace reported) pods with
  | None => inl (KubeletUncached (PrName reported))
  | Some (_, pod) =>
      if podTerminated pod then inr tt
      else
        let? tokens := kubelet_tokens deviceIDs ∅ in
        let '(expected, allocation) := accumulateAllocation s devs tokens 0 in
        if negb (Nat.eqb (size allocation) (size tokens)) then inl (KubeletInventory (PodName pod))
        else match pod_allocations pod with
             | None => inl (KubeletUnreadable (PodName pod))
             | Some allocations =>
                 let claim := default {| CaDevices := []; CaDeviceIDs := [] |} (allocations !! container) in
                 if negb (bool_decide ((list_to_set (CaDeviceIDs claim) : gset string) = list_to_set deviceIDs)) ||
                    negb (bool_decide (CaDevices claim = expected))
                 then inl (KubeletConflict (PodName pod) container) else inr tt
             end
  end.

(** The devices of one resource, over all the blocks kubelet reports it in. *)
Definition container_devices (c : ContainerResources) : gmap string (list string) :=
  foldl (fun m d => <[d.1 := default [] (m !! d.1) ++ d.2]> m) ∅ (CrDevices c).

Definition verify_resource (devs : Devices) (pods : list Pod) (reported : PodResources) (container : string)
    (r : string * list string) : option AllocateError :=
  if Nat.eqb (length r.2) 0 then None
  else match manufacturableAccelerators !! r.1 with
       | None => None
       | Some s => match verifyKubeletContainer devs pods reported container r.2 s with
                   | inl e => Some e
                   | inr _ => None
                   end
       end.

(** [listed] is [None] when kubelet is not asked; the call that asks it is not part
    of the model. *)
Definition verifyKubeletAllocations (devs : Devices) (pods : list Pod) (listed : option (list PodResources))
    : AllocateError + option (list PodResources) :=
  match listed with
  | None => inr None
  | Some l =>
      match first_of (fun p =>
              first_of (fun c =>
                first_of (verify_resource devs pods p (CrName c)) (map_to_list (container_devices c)))
                (PrContainers p)) l with
      | Some e => inl e
      | None => inr (Some l)
      end
  end.

Definition verifiedKubeletPending (snap : Snapshot) (listed : option (list PodResources)) (resName : string)
    : AllocateError + option KubeletPending :=
  let? l := verifyKubeletAllocations (SnapDevices snap) (SnapPods snap) listed in
  inr ((fun l => kubeletPendingFrom l resName) <$> l).

End Allocate.
