(* ===== verification/PluginDecision.v ===== *)
(** * Device plugin: what a decision commits

    Facts of the serialized section of an Allocate that the safety proof reads:
    the rows [accumulateAllocation] commits, one per requested accelerator of
    the inventory, with the units the gate measured; that the geometry laid over
    them changes no unit; and the contract of [decide_request] as a record. *)

From stdpp Require Import prelude gmap strings list sorting.
From S2P Require Import Prelude Device PluginRecords PluginLedger PluginNode PluginSlices PluginAllocate.

(** ** Well-formed statuses *)

(** Each accelerator once, and slices no larger than an accelerator. *)
Definition wf_status (st : DevicesStatus) : Prop :=
  NoDup (cards st).*1 /\
  Forall (fun c => Mode c.2 = ModeSliced -> 0 <= Allocated c.2 <= ResourceMaxUnits) (cards st).

Lemma wf_nil : wf_status [].
Proof. split; constructor. Qed.

Lemma wf_sublist st st' : cards st' `sublist_of` cards st -> wf_status st -> wf_status st'.
Proof.
  intros Hs [Hn Hf]. split.
  - eapply sublist_NoDup; [exact Hn|]. by apply fmap_sublist.
  - rewrite list.Forall_forall in Hf |- *. intros c Hc. eapply Hf, elem_of_sublist; [done|exact Hs].
Qed.

Lemma held_sublist released pod st : cards (heldAllocation released pod st) `sublist_of` cards st.
Proof.
  unfold heldAllocation. destruct (_ || _); [done|].
  induction st as [|g st IH]; [done|]. rewrite cards_cons. cbn [omap list_omap].
  unfold held_group at 1. destruct (Nat.eqb _ _); [by apply sublist_inserts_l|].
  rewrite cards_cons. apply sublist_app; [|done]. unfold group_cards. cbn.
  apply fmap_sublist, sublist_filter.
Qed.

Lemma on_nodup res l : NoDup l.*1 -> (length (on res l) <= 1)%nat.
Proof.
  unfold on. rewrite length_fmap. induction l as [|[r a] l IH]; [cbn; lia|].
  rewrite fmap_cons. cbn [fst]. intros [Hr Hl]%NoDup_cons. rewrite filter_cons. cbn [fst].
  case_decide as E; [|by apply IH]. subst r. cbn [length]. rewrite filter_none; [done|]. intros [r' a'] Hin He. cbn in He. subst r'.
  apply Hr, list_elem_of_fmap. exists (res, a'). done.
Qed.

Lemma on_elem res l a : a ∈ on res l <-> (res, a) ∈ l.
Proof.
  unfold on. rewrite list_elem_of_fmap. split.
  - intros ([r b] & -> & [Hr Hin]%list_elem_of_filter). cbn in *. by subst.
  - intros Hin. exists (res, a). split; [done|]. by apply list_elem_of_filter.
Qed.

(** On a well-formed status, an accelerator's slice is the one row it has. *)
Lemma slice_of_Some st res u :
  wf_status st -> slice_of st res = Some u <->
  exists a, (res, a) ∈ cards st /\ Mode a = ModeSliced /\ Allocated a = u.
Proof.
  intros [Hn Hf]. pose proof (on_nodup res _ Hn) as Hl. unfold slice_of, slices_of.
  destruct (on res (cards st)) as [|a [|b l]] eqn:Ho; cbn in Hl; [| |lia].
  - cbn. split; [done|]. intros (a & Ha%on_elem & _). rewrite Ho in Ha. by apply not_elem_of_nil in Ha.
  - assert ((res, a) ∈ cards st) as Ha by (apply on_elem; rewrite Ho; left).
    rewrite filter_cons. case_decide as Hm; cbn.
    + rewrite list.Forall_forall in Hf. specialize (Hf _ Ha Hm). cbn in Hf.
      rewrite i32_small by (unfold is_i32, ResourceMaxUnits in *; lia). split.
      * intros [= <-]. eauto.
      * intros (b & Hb%on_elem & _ & <-). rewrite Ho in Hb. by apply list_elem_of_singleton in Hb as ->.
    + split; [done|]. intros (b & Hb%on_elem & Hbm & _). rewrite Ho in Hb.
      apply list_elem_of_singleton in Hb as ->. done.
Qed.

Lemma slice_of_bounds st res u : wf_status st -> slice_of st res = Some u -> 0 <= u <= ResourceMaxUnits.
Proof.
  intros Hwf (a & Ha & Hm & <-)%slice_of_Some; [|done]. destruct Hwf as [_ Hf].
  rewrite list.Forall_forall in Hf. by apply (Hf (res, a)).
Qed.

(** Holding less, an accelerator's slice stays or goes. *)
Lemma slice_of_sublist st st' res u :
  cards st' `sublist_of` cards st -> wf_status st -> slice_of st' res = Some u -> slice_of st res = Some u.
Proof.
  intros Hs Hwf. rewrite !slice_of_Some by (done || by eapply wf_sublist).
  intros (a & Ha & Hm & Hu). exists a. split; [|done]. by eapply elem_of_sublist.
Qed.

(** ** Tokens by accelerator *)

Definition id_resource (id : string) : option Resource := TokenResource <$> ParseResourceToken id.

Lemma push_token_dom m t : dom (push_token m t) = {[TokenResource t]} ∪ dom m.
Proof. unfold push_token. by rewrite dom_insert_L. Qed.

Lemma kubelet_tokens_dom ids m m' :
  kubelet_tokens ids m = inr m' -> dom m' = dom m ∪ list_to_set (omap id_resource ids).
Proof.
  revert m. induction ids as [|id ids IH]; intros m; cbn [kubelet_tokens].
  - intros [= ->]. cbn. set_solver.
  - destruct (ParseResourceToken id) as [t|] eqn:Ht; [|done]. intros ->%IH. rewrite push_token_dom.
    cbn. unfold id_resource at 2. rewrite Ht. cbn. set_solver.
Qed.

Lemma kubelet_tokens_ok ids m :
  (exists m', kubelet_tokens ids m = inr m') <-> Forall (fun id => is_Some (ParseResourceToken id)) ids.
Proof.
  revert m. induction ids as [|id ids IH]; intros m; cbn [kubelet_tokens]; [split; [by constructor|eauto]|].
  rewrite Forall_cons. destruct (ParseResourceToken id) as [t|]; [rewrite IH|]; split.
  - by intros ?; split; [eexists|].
  - by intros [_ ?].
  - by intros [].
  - by intros [[] _].
Qed.

Lemma parse_kubelet ids m m' : parse_tokens ids m = inr m' <-> kubelet_tokens ids m = inr m'.
Proof.
  revert m. induction ids as [|id ids IH]; intros m; cbn; [done|].
  destruct (ParseResourceToken id); [apply IH|done].
Qed.

(** ** What a decision commits *)

Definition spec_list (devs : Devices) : list (DevicesGroup * Accelerator) :=
  mjoin ((fun grp => (fun acc => (grp, acc)) <$> GrpAccelerators grp) <$> SpecGroups devs).

Lemma positions_cards st : (positions st).*1 = (cards st).*1.
Proof.
  unfold positions, cards. generalize (fun i : nat => i) as f. intros f.
  assert (forall f : nat -> nat,
    (mjoin (imap (fun i g => imap (fun j acc => ({| Group := AgID g; Card := AllocID acc |}, (f i, j)))
                               (AgAccelerators g)) st)).*1 = (mjoin (group_cards <$> st)).*1) as Hg.
  { clear f. induction st as [|g st IH]; intros f; [done|]. rewrite imap_cons, fmap_cons. cbn [mjoin list_join].
    rewrite !fmap_app. f_equal; [|apply (IH (f ∘ S))].
    unfold group_cards. rewrite <- list_fmap_compose, fmap_imap.
    generalize (AgAccelerators g) as l. intros l.
    assert (forall (h : nat -> AcceleratorAllocation -> Resource), (forall j a, h j a = {| Group := AgID g; Card := AllocID a |}) ->
              imap h l = (fun a => {| Group := AgID g; Card := AllocID a |}) <$> l) as Hh.
    { induction l as [|a l IHl]; intros h Hh; [done|]. rewrite imap_cons, fmap_cons, Hh. f_equal. apply IHl. intros. apply Hh. }
    by apply Hh. }
  apply (Hg (fun i => i)).
Qed.

Lemma spec_resources_list devs : spec_resources devs = (fun p => resource_of p.1 p.2) <$> spec_list devs.
Proof.
  unfold spec_resources, spec_list, initDesiredStatus. rewrite positions_cards.
  induction (SpecGroups devs) as [|grp l IH]; [done|]. rewrite !fmap_cons, cards_cons. cbn [mjoin list_join].
  rewrite !fmap_app, IH. f_equal. unfold group_cards. cbn. by rewrite <- !list_fmap_compose.
Qed.

Definition committed (s : Server) (cardTokens : CardTokens) (units : Z) (p : DevicesGroup * Accelerator)
    : option (Resource * AcceleratorAllocation) :=
  if bool_decide (GrpManufacturer p.1 = Manufacturer s)
  then (fun tokens => (resource_of p.1 p.2, allocation_row s p.2 (charged s units (length tokens))))
         <$> cardTokens !! resource_of p.1 p.2
  else None.

Lemma push_row_cards grp status r :
  cards (push_row grp status r) = cards status ++ [({| Group := GrpID grp; Card := AllocID r |}, r)].
Proof.
  unfold push_row. assert (forall m, cards (status ++ [{| AgID := GrpID grp; AgManufacturer := m; AgAccelerators := [r] |}])
            = cards status ++ [({| Group := GrpID grp; Card := AllocID r |}, r)]) as Hfresh.
  { intros m. by rewrite cards_app. }
  destruct (last status) as [g|] eqn:Hl; [|apply Hfresh].
  destruct (decide (AgID g = GrpID grp)) as [He|He].
  2:{ rewrite bool_decide_false by done. apply Hfresh. }
  rewrite bool_decide_true by done. cbn [negb].
  apply last_Some in Hl as [l ->]. rewrite length_app. cbn [length].
  replace (length l + 1 - 1)%nat with (length l) by lia.
  rewrite (alter_middle _ _ _ g) by (by rewrite lookup_app_r, Nat.sub_diag by lia).
  rewrite take_app_length, drop_app_ge by lia.
  replace (drop (S (length l) - length l) [g]) with (@nil DevicesAllocationGroup)
    by (rewrite drop_ge; [done|cbn; lia]).
  rewrite !cards_app, <- app_assoc. f_equal. rewrite !cards_cons. change (cards []) with (@nil (Resource * AcceleratorAllocation)).
  rewrite !app_nil_r. unfold group_cards. cbn. rewrite fmap_app. cbn. by rewrite He.
Qed.

Section Decision.
Context `{Tables : NameTables}.

Lemma accumulate_cards s devs cardTokens units :
  cards (accumulateAllocation s devs cardTokens units).1 = omap (committed s cardTokens units) (spec_list devs).
Proof.
  unfold accumulateAllocation, spec_list.
  assert (forall grp accs st, GrpManufacturer grp = Manufacturer s ->
    cards (foldl (accumulate_card s cardTokens units grp) st accs).1
    = cards st.1 ++ omap (committed s cardTokens units) ((fun acc => (grp, acc)) <$> accs)) as Hcard.
  { intros grp accs st Hm. revert st. induction accs as [|acc accs IH]; intros st; cbn [foldl]; [by rewrite app_nil_r|].
    rewrite IH, fmap_cons. cbn. unfold accumulate_card, committed. cbn [fst snd]. rewrite bool_decide_true by done.
    destruct (cardTokens !! resource_of grp acc) as [tokens|]; cbn; [|done].
    rewrite push_row_cards, <- app_assoc. done. }
  assert (forall grps st,
    cards (foldl (accumulate_group s cardTokens units) st grps).1
    = cards st.1 ++ omap (committed s cardTokens units)
        (mjoin ((fun grp => (fun acc => (grp, acc)) <$> GrpAccelerators grp) <$> grps))) as Hgroup.
  { induction grps as [|grp grps IH]; intros st; cbn [foldl]; [by rewrite app_nil_r|].
    rewrite IH, fmap_cons. cbn [mjoin list_join]. rewrite omap_app, app_assoc. f_equal. unfold accumulate_group.
    destruct (decide (GrpManufacturer grp = Manufacturer s)) as [Hm|Hm].
    - rewrite bool_decide_true by done. by apply Hcard.
    - rewrite bool_decide_false by done. cbn [negb].
      assert (omap (committed s cardTokens units) ((fun acc => (grp, acc)) <$> GrpAccelerators grp) = []) as ->; [|by rewrite app_nil_r].
      induction (GrpAccelerators grp) as [|acc l IHl]; [done|]. cbn. unfold committed at 1. cbn.
      by rewrite bool_decide_false. }
  apply Hgroup.
Qed.

Lemma committed_elem s devs cardTokens units res a :
  (res, a) ∈ cards (accumulateAllocation s devs cardTokens units).1 ->
  exists tokens, cardTokens !! res = Some tokens /\ Mode a = AllocationMode s /\
                 Allocated a = charged s units (length tokens).
Proof.
  rewrite accumulate_cards. intros ([grp acc] & _ & Hc)%list_elem_of_omap. unfold committed in Hc.
  case_bool_decide; [|done]. apply fmap_Some in Hc as (tokens & Ht & [= -> ->]). eauto.
Qed.

Lemma committed_resources s devs cardTokens units res :
  res ∈ (cards (accumulateAllocation s devs cardTokens units).1).*1 <->
  exists p, p ∈ spec_list devs /\ GrpManufacturer p.1 = Manufacturer s /\ res = resource_of p.1 p.2 /\
    is_Some (cardTokens !! res).
Proof.
  rewrite accumulate_cards, list_elem_of_fmap. split.
  - intros ([r a] & -> & (p & Hp & Hc)%list_elem_of_omap). unfold committed in Hc. case_bool_decide as Hm; [|done].
    apply fmap_Some in Hc as (tokens & Ht & [= -> _]). exists p. split_and!; [done..|by eexists].
  - intros (p & Hp & Hm & -> & tokens & Ht). eexists (_, _). split; [|apply list_elem_of_omap; exists p; split; [done|]].
    2:{ unfold committed. rewrite bool_decide_true, Ht by done. reflexivity. }
    done.
Qed.

Lemma accumulate_NoDup s devs cardTokens units :
  NoDup (spec_resources devs) -> NoDup (cards (accumulateAllocation s devs cardTokens units).1).*1.
Proof.
  rewrite accumulate_cards, spec_resources_list. intros Hn. eapply sublist_NoDup; [exact Hn|].
  generalize (spec_list devs) as l. induction l as [|p l IH]; [done|]. cbn. unfold committed at 1.
  case_bool_decide; [|by apply sublist_cons].
  destruct (cardTokens !! resource_of p.1 p.2) as [tokens|]; cbn; [by apply sublist_skip|by apply sublist_cons].
Qed.

Lemma map_rows_cards f st :
  (forall res a, AllocID (f res a) = AllocID a) ->
  cards (map_rows f st) = (fun c => (c.1, f c.1 c.2)) <$> cards st.
Proof.
  intros Hf. induction st as [|g st IH]; [done|]. unfold map_rows in *. rewrite fmap_cons, !cards_cons, fmap_app, IH.
  f_equal. unfold group_cards. cbn. rewrite <- !list_fmap_compose. apply list_fmap_ext. intros _ a _. cbn. by rewrite Hf.
Qed.

(** A change of geometry: identifiers, modes and units stay. *)
Definition geometric (f : Resource -> AcceleratorAllocation -> AcceleratorAllocation) : Prop :=
  forall res a, AllocID (f res a) = AllocID a /\ Mode (f res a) = Mode a /\ Allocated (f res a) = Allocated a.

Lemma set_logical_geometric p : geometric (set_logical p).
Proof. intros res a. unfold set_logical. by repeat case_match. Qed.

Lemma set_physical_geometric profile p ids : geometric (set_physical profile p ids).
Proof. intros res a. unfold set_physical. by repeat case_match. Qed.

Lemma map_rows_elem f st res a :
  geometric f -> (res, a) ∈ cards (map_rows f st) ->
  exists b, (res, b) ∈ cards st /\ Mode a = Mode b /\ Allocated a = Allocated b.
Proof.
  intros Hf. rewrite map_rows_cards by (intros; apply Hf).
  intros ([r b] & [= -> ->] & Hb)%list_elem_of_fmap. exists b. split; [done|]. apply Hf.
Qed.

Lemma map_rows_fst f st : geometric f -> (cards (map_rows f st)).*1 = (cards st).*1.
Proof.
  intros Hf. rewrite map_rows_cards by (intros; apply Hf). rewrite <- list_fmap_compose.
  by apply list_fmap_ext.
Qed.

Lemma map_rows_nil f st : map_rows f st = [] <-> st = [].
Proof. unfold map_rows. by destruct st. Qed.

Definition token_count (m : CardTokens) (b : nat) : Prop :=
  forall res tokens, m !! res = Some tokens -> (length tokens <= b)%nat.

Lemma parse_tokens_count ids m b cardTokens :
  token_count m b -> parse_tokens ids m = inr cardTokens -> token_count cardTokens (b + length ids).
Proof.
  revert m b. induction ids as [|id ids IH]; intros m b Hm; cbn [parse_tokens length].
  { intros [= <-]. by rewrite Nat.add_0_r. }
  destruct (ParseResourceToken id) as [t|]; [|done]. intros Hp.
  rewrite Nat.add_succ_r, <- Nat.add_succ_l. eapply IH; [|done]. intros res tokens. unfold push_token.
  intros [[<- <-]|[_ Hl]]%lookup_insert_Some.
  - rewrite length_app. cbn. destruct (m !! TokenResource t) eqn:E; cbn; [|lia]. specialize (Hm _ _ E). lia.
  - specialize (Hm _ _ Hl). lia.
Qed.

Lemma charged_sliced s units tokens :
  AllocationMode s = ModeSliced -> 0 <= units -> Z.of_nat tokens < 2 ^ 31 ->
  charged s units tokens = unitsCharged units tokens /\ 0 <= unitsCharged units tokens <= ResourceMaxUnits.
Proof.
  intros Hm Hu Ht. destruct (unitsCharged_bounds units tokens Hu Ht) as [_ Hb]. unfold charged. rewrite Hm.
  destruct (Z.ltb_spec ResourceMaxUnits (unitsCharged units tokens)); [lia|done].
Qed.

Lemma requestedUnits_pos s ctr : 0 <= (requestedUnits s ctr).1.
Proof.
  unfold requestedUnits. destruct (bool_decide _); [cbn; lia|].
  destruct (Limits ctr !! _) as [q|]; [|cbn; lia]. destruct (Z.ltb_spec 0 q); cbn; lia.
Qed.

(** What the serialized section establishes about the decision it returns. *)
Record decided (cfg : Settings) (s : Server) (snap : Snapshot) (deviceIDs : list string) (n : Node)
    (d : Decision) (n' : Node) : Prop := {
  decided_pod : DPod d ∈ SnapPods snap;
  decided_phase : Phase (DPod d) = PhaseUnset \/ Phase (DPod d) = PodPending;
  decided_container : DContainer d ∈ InitContainers (DPod d) ++ Containers (DPod d);
  decided_prior : DPriorClaim d = priorClaimOf n (DPod d) (CName (DContainer d));
  decided_node : n' = reserveDevices (PodUID (DPod d)) (CName (DContainer d)) (DStatus d) deviceIDs n;
  decided_wf : wf_status (DStatus d);
  decided_mode : Forall (fun c => Mode c.2 = AllocationMode s) (cards (DStatus d));
  decided_profile : DProfile d <> "" -> AllocationMode s = ModePartitioned;
  decided_single : forall res a, (res, a) ∈ cards (DStatus d) ->
    cardHeldInOtherMode s n (SnapDevices snap) res = None;
  decided_partition : AllocationMode s = ModePartitioned ->
    exists units requested cardTokens placements units',
      choosePartitionCards s n (SnapDevices snap) (occupiedPhysicalPlacements n (SnapPods snap)) (DPod d)
        (DContainer d) deviceIDs units requested = inr (DProfile d, cardTokens, placements, units') /\
      DStatus d = let st := (accumulateAllocation s (SnapDevices snap) cardTokens units').1 in
                  if bool_decide (placements = ∅) then st else applyPhysicalPlacements (DProfile d) placements ∅ st;
  decided_room : AllocationMode s = ModeSliced -> slicedAllocateGateOff cfg = false ->
    forall res u, slice_of (DStatus d) res = Some u ->
      shortage {| RoomDevs := SnapDevices snap;
                  RoomOccupied := Some (slicedOccupancy (TerminatedReleased cfg) n (SnapPods snap));
                  RoomSelf := decision_key d |} res u = None }.

(** A geometric change of the committed rows keeps their facts. *)
Definition rows_of (s : Server) (cardTokens : CardTokens) (units : Z) (st : DevicesStatus) : Prop :=
  NoDup (cards st).*1 /\
  forall res a, (res, a) ∈ cards st -> exists tokens,
    cardTokens !! res = Some tokens /\ Mode a = AllocationMode s /\ Allocated a = charged s units (length tokens).

Lemma rows_of_accumulate s devs cardTokens units :
  NoDup (spec_resources devs) -> rows_of s cardTokens units (accumulateAllocation s devs cardTokens units).1.
Proof. intros Hn. split; [by apply accumulate_NoDup|]. apply committed_elem. Qed.

Lemma rows_of_map s cardTokens units f st :
  geometric f -> rows_of s cardTokens units st -> rows_of s cardTokens units (map_rows f st).
Proof.
  intros Hf [Hn Hr]. split; [by rewrite map_rows_fst|].
  intros res a (b & Hb & -> & ->)%map_rows_elem; [|done]. by apply Hr.
Qed.

Lemma rows_of_wf s cardTokens units st b :
  rows_of s cardTokens units st -> 0 <= units ->
  (AllocationMode s = ModeSliced -> token_count cardTokens b) -> Z.of_nat b < 2 ^ 31 ->
  wf_status st /\ Forall (fun c => Mode c.2 = AllocationMode s) (cards st).
Proof.
  intros [Hn Hr] Hu Hc Hb. split; [split; [done|]|]; apply list.Forall_forall; intros [res a] Ha; cbn.
  - destruct (Hr res a Ha) as (tokens & Ht & -> & ->). intros Hm. specialize (Hc Hm res tokens Ht).
    destruct (charged_sliced s units (length tokens)) as [-> ?]; [done|done|lia|done].
  - by destruct (Hr res a Ha) as (tokens & _ & -> & _).
Qed.

Lemma try_inr {A B} (m : AllocateError + A) (k : A -> AllocateError + B) b :
  try m k = inr b -> exists a, m = inr a /\ k a = inr b.
Proof. destruct m; [done|]. eauto. Qed.

Lemma refuse_inr {B} (o : option B) f u : refuse_if o f = inr u -> o = None.
Proof. by destruct o. Qed.

(** The geometry a decision lays over the rows it commits. *)
Lemma decision_rows s n place pod ctr devs cardTokens units allocation occupiedLogical profile placements status0 status logical :
  rows_of s cardTokens units status0 ->
  match place with
  | None => inr (status0, ∅)
  | Some place =>
      let? placements := placeLogicalSlice n place pod ctr devs allocation occupiedLogical in
      inr (applyLogicalPlacements placements status0, placements)
  end = inr (status, logical) ->
  rows_of s cardTokens units
    (if bool_decide (placements = ∅) then status else applyPhysicalPlacements profile placements ∅ status).
Proof.
  intros Hr Hp. assert (rows_of s cardTokens units status) as Hs.
  { destruct place as [place|]; [|by injection Hp as <- _].
    apply try_inr in Hp as (ps & _ & [= <- _]). apply rows_of_map; [apply set_logical_geometric|done]. }
  destruct (bool_decide _); [done|]. apply rows_of_map; [apply set_physical_geometric|done].
Qed.

Lemma choose_units s n devs occupied pod ctr deviceIDs units requested profile cardTokens placements units' :
  0 <= units ->
  choosePartitionCards s n devs occupied pod ctr deviceIDs units requested
    = inr (profile, cardTokens, placements, units') -> 0 <= units'.
Proof.
  intros Hu. unfold choosePartitionCards. destruct (partitionProfileOf ctr) as [p|]; [|done].
  set (units0 := if _ && _ then _ else _).
  assert (0 <= units0) as H0.
  { unfold units0. destruct (negb requested); cbn [andb]; [|done].
    destruct (Z.ltb_spec 0 (partitionProfileUnits s devs p)); lia. }
  destruct (priorAllocationOf _ _ _) as [prior|]; [by intros [= <- <- <- <-]|].
  destruct (partitionCandidates _ _ _ _ _) as [cs byID].
  destruct (SelectPartitionPlacements _ _) as [sels []]; [|done].
  destruct (partitionTokens sels byID) as [ts ps]. by intros [= <- <- <- <-].
Qed.

Lemma cross_None s n devs cardTokens res tokens :
  rejectCrossModeCards s n devs cardTokens = None -> cardTokens !! res = Some tokens ->
  cardHeldInOtherMode s n devs res = None.
Proof.
  intros Hr%first_of_None Ht. rewrite list.Forall_forall in Hr.
  specialize (Hr res). destruct (cardHeldInOtherMode s n devs res); [|done]. discriminate Hr.
  apply list_elem_of_fmap. exists (res, tokens). split; [done|]. by apply elem_of_map_to_list.
Qed.

Lemma decideAllocation_decided cfg s place kubelet snap deviceIDs cardTokens n d n' b :
  (forall l, ByCreation cfg l ≡ₚ l) -> NoDup (spec_resources (SnapDevices snap)) ->
  token_count cardTokens b -> Z.of_nat b < 2 ^ 31 ->
  decideAllocation cfg s place kubelet snap deviceIDs cardTokens n = inr (d, n') ->
  decided cfg s snap deviceIDs n d n'.
Proof.
  intros Hsort Hn Hc Hb. unfold decideAllocation.
  destruct (getAllocatingPod _ _ _ _) as [[pod ctr]|] eqn:Hg; [|done].
  apply getAllocatingPod_candidate in Hg as (Hpod & Hph & Hctr & _); [|done].
  destruct (conflicting_replay _ _ _); [done|].
  pose proof (requestedUnits_pos s ctr) as Hpos. destruct (requestedUnits s ctr) as [units requested]. cbn in Hpos.
  intros ([[[profile cardTokens'] placements] units'] & Hch & Hd)%try_inr.
  apply try_inr in Hd as (u & Hcross%refuse_inr & Hd). apply try_inr in Hd as (v & Hover%refuse_inr & Hd). clear u v.
  assert (0 <= units' /\ (profile <> "" -> AllocationMode s = ModePartitioned) /\
          (AllocationMode s = ModeSliced -> cardTokens' = cardTokens)) as (Hu & Hprof & Htok).
  { destruct (decide (AllocationMode s = ModePartitioned)) as [Hp|Hp].
    - rewrite bool_decide_true in Hch by done. split_and!; [by eapply choose_units|done|congruence].
    - rewrite bool_decide_false in Hch by done. injection Hch as <- <- _ <-. done. }
  pose proof (rows_of_accumulate s (SnapDevices snap) cardTokens' units' Hn) as Hrows.
  destruct (accumulateAllocation _ _ _ _) as [status0 allocation] eqn:Hacc. cbn [fst] in Hrows.
  apply try_inr in Hd as ([status logical] & Hgeo & [= <- <-]).
  apply (decision_rows s _ _ _ _ _ _ _ _ _ profile placements _ _ _ Hrows) in Hgeo as Hfin.
  set (st := if bool_decide (placements = ∅) then _ else _) in *.
  destruct (rows_of_wf s cardTokens' units' st b Hfin Hu) as [Hwf Hmode]; [by intros ->%Htok|done|].
  constructor; cbn; try done.
  { intros res a Ha. destruct (proj2 Hfin res a Ha) as (tokens & Ht & _). by eapply cross_None. }
  { intros Hm. rewrite bool_decide_true in Hch by done. exists units, requested, cardTokens', placements, units'.
    split; [done|]. rewrite Hacc. rewrite bool_decide_false in Hgeo by congruence. by injection Hgeo as <- _. }
  intros Hm Hgate res u Hs. apply slice_of_Some in Hs as (a & Ha & _ & <-); [|done].
  destruct (proj2 Hfin res a Ha) as (tokens & Ht & _ & ->).
  specialize (Htok Hm). subst cardTokens'. pose proof (Hc res tokens Ht).
  destruct (charged_sliced s units' (length tokens)) as [-> _]; [done|done|lia|].
  unfold slicedOccupancyForAllocate in Hover. rewrite bool_decide_true, Hgate in Hover by done.
  by eapply reject_None.
Qed.

Lemma decide_request_decided cfg s place kubelet snap deviceIDs n d n' :
  (forall l, ByCreation cfg l ≡ₚ l) -> NoDup (spec_resources (SnapDevices snap)) ->
  Z.of_nat (length deviceIDs) < 2 ^ 31 ->
  decide_request cfg s place kubelet snap deviceIDs n = inr (d, n') ->
  decided cfg s snap deviceIDs n d n'.
Proof.
  intros Hsort Hn Hl. unfold decide_request. intros (cardTokens & Hp & Hd)%try_inr.
  apply try_inr in Hd as (_ & _ & Hd).
  eapply (decideAllocation_decided _ _ _ _ _ _ _ _ _ _ (length deviceIDs)); [done|done| |done|exact Hd].
  apply (parse_tokens_count deviceIDs ∅ 0 cardTokens); [|done].
  intros res tokens. by rewrite lookup_empty.
Qed.
End Decision.
