(* ===== verification/PluginSafety.v ===== *)
(** * Device plugin: no accelerator is handed out twice

    The Allocate calls of a node as a transition system: any number of calls in
    flight, each advancing by the phases of PluginAllocate.v, beside the API
    server, an informer cache that lags behind it, the reconciler's sweeps and
    retries, and restarts that lose every in-process table.  The invariant says
    that what a container was or is being answered is visible in the records the
    next decision reads; it gives the capacity theorem.

    Three things are assumed of the surroundings.  kubelet does not run two
    Allocates for one container at once, and nobody but the device plugin writes
    the allocation annotation; these are guards of the steps.  A write of the
    annotation and the reads it is computed from are one step: the comment at
    [retryPendingReleases] leaves the race between two writers of the annotation
    of one Pod open. *)

From stdpp Require Import prelude gmap strings list sorting relations.
From S2P Require Import Prelude Device PluginRecords PluginLedger PluginNode PluginSlices PluginAllocate.
From S2P Require Import PluginDecision.

(** ** The system *)

(** How far a call has come: decided under the mutex; actuated, with what the
    actuator reported; its response rendered before the patch or not; recorded in
    the annotation; refused with the annotation still to be taken back. *)
Inductive CallPhase :=
  | Decided
  | Actuated (physical : option Physical)
  | Rendered (rendered : bool)
  | Recording (rendered : bool)
  | Releasing.

Record Call := {
  CallDecision : Decision; CallIDs : list string; CallPlaces : bool; CallPhaseOf : CallPhase }.

Definition call_key (c : Call) : ReservationKey := decision_key (CallDecision c).

Definition advance (p : CallPhase) (c : Call) : Call := {|
  CallDecision := CallDecision c; CallIDs := CallIDs c; CallPlaces := CallPlaces c; CallPhaseOf := p |}.

(** [served] is what the plugin stands for: the containers whose last Allocate is
    in flight or was answered, with the accelerators that answer names.  It is read
    by no operation. *)
Record System := {
  node : Node;
  store : gmap string Pod;
  cache : gmap string Pod;
  calls : gmap nat Call;
  served : gmap ReservationKey DevicesStatus }.

Definition listed (sys : System) : list Pod := (map_to_list (cache sys)).*2.

Definition set_annotation (a : Annotation) (p : Pod) : Pod := {|
  PodNamespace := PodNamespace p; PodName := PodName p; PodUID := PodUID p;
  CreationTimestamp := CreationTimestamp p; Phase := Phase p; AllocationAnnotation := a;
  InitContainers := InitContainers p; Containers := Containers p |}.

Definition set_phase (ph : PodPhase) (p : Pod) : Pod := {|
  PodNamespace := PodNamespace p; PodName := PodName p; PodUID := PodUID p;
  CreationTimestamp := CreationTimestamp p; Phase := ph; AllocationAnnotation := AllocationAnnotation p;
  InitContainers := InitContainers p; Containers := Containers p |}.

(** A write that landed replaces the annotation of a stored Pod. *)
Definition written (uid : string) (value : option Annotation) (st : gmap string Pod) : gmap string Pod :=
  match value with Some a => alter (set_annotation a) uid st | None => st end.

Definition serve (d : Decision) (m : gmap ReservationKey DevicesStatus) : gmap ReservationKey DevicesStatus :=
  if Nat.eqb (length (DStatus d)) 0 then delete (decision_key d) m
  else <[decision_key d := DStatus d]> m.

(** A Pod as the API server creates it. *)
Definition new_pod (p : Pod) : Prop :=
  PodUID p <> "" /\ AllocationAnnotation p = Unannotated /\ podTerminated p = false /\
  Forall (fun c => CName c <> "") (InitContainers p ++ Containers p).

Section System.
Context `{Tables : NameTables} (cfg : Settings) (capability : Resource -> option AcceleratorStatus).

Inductive step (sys : System) : System -> Prop :=
  | step_decide i s place kubelet devs ids d n :
      calls sys !! i = None ->
      NoDup (spec_resources devs) -> (forall res, capabilityOf devs res = capability res) ->
      Z.of_nat (length ids) < 2 ^ 31 ->
      (forall res, (size (holders_on (slicedOccupancy (TerminatedReleased cfg) (node sys) (listed sys)) res)
                    <= 1342)%nat) ->
      decide_request cfg s place kubelet {| SnapDevices := devs; SnapPods := listed sys |} ids (node sys)
        = inr (d, n) ->
      (forall j c, calls sys !! j = Some c -> call_key c <> decision_key d) ->
      step sys {| node := n; store := store sys; cache := cache sys;
                  calls := <[i := {| CallDecision := d; CallIDs := ids;
                                     CallPlaces := bool_decide (AllocationMode s = ModeSliced) &&
                                                   bool_decide (is_Some place);
                                     CallPhaseOf := Decided |}]> (calls sys);
                  served := serve d (served sys) |}
  | step_actuate i c reply r n :
      calls sys !! i = Some c -> CallPhaseOf c = Decided ->
      actuatePartition (CallDecision c) (CallIDs c) reply (node sys) = (r, n) ->
      step sys match r with
               | inl _ => {| node := n; store := store sys; cache := cache sys; calls := delete i (calls sys);
                             served := delete (call_key c) (served sys) |}
               | inr (d, physical) =>
                   {| node := n; store := store sys; cache := cache sys;
                      calls := <[i := {| CallDecision := d; CallIDs := CallIDs c; CallPlaces := CallPlaces c;
                                         CallPhaseOf := Actuated physical |}]> (calls sys);
                      served := serve d (served sys) |}
               end
  | step_render i c physical ok r n :
      calls sys !! i = Some c -> CallPhaseOf c = Actuated physical ->
      renderPrePatchResponse (CallDecision c) physical (CallPlaces c) ok (node sys) = (r, n) ->
      step sys match r with
               | inl _ => {| node := n; store := store sys; cache := cache sys; calls := delete i (calls sys);
                             served := delete (call_key c) (served sys) |}
               | inr rendered =>
                   {| node := n; store := store sys; cache := cache sys;
                      calls := <[i := advance (Rendered rendered) c]> (calls sys); served := served sys |}
               end
  | step_persist i c rendered w n value err :
      calls sys !! i = Some c -> CallPhaseOf c = Rendered rendered ->
      (landed w = true -> is_Some (store sys !! PodUID (DPod (CallDecision c)))) ->
      persistAllocation (CallDecision c) (CallIDs c) w (node sys) = (n, value, err) ->
      step sys {| node := n; store := written (PodUID (DPod (CallDecision c))) value (store sys);
                  cache := cache sys;
                  calls := match err with
                           | Some _ => delete i (calls sys)
                           | None => <[i := advance (Recording rendered) c]> (calls sys)
                           end;
                  served := match err with
                            | Some _ => delete (call_key c) (served sys)
                            | None => served sys
                            end |}
  | step_respond i c rendered ok :
      calls sys !! i = Some c -> CallPhaseOf c = Recording rendered ->
      step sys
        (if rendered || ok
         then {| node := node sys; store := store sys; cache := cache sys; calls := delete i (calls sys);
                 served := served sys |}
         else {| node := settle_reservation (CallDecision c) (node sys); store := store sys; cache := cache sys;
                 calls := <[i := advance Releasing c]> (calls sys);
                 served := delete (call_key c) (served sys) |})
  | step_unpatch i c w n value ok :
      calls sys !! i = Some c -> CallPhaseOf c = Releasing ->
      (landed w = true -> is_Some (store sys !! PodUID (DPod (CallDecision c)))) ->
      unpatch_refused (CallDecision c) w (node sys) = (n, value, ok) ->
      step sys {| node := n; store := written (PodUID (DPod (CallDecision c))) value (store sys);
                  cache := cache sys; calls := delete i (calls sys); served := served sys |}
  | step_retry k prior pod w n value ok :
      pendingReleases (node sys) !! k = Some prior -> cache sys !! KeyUID k = Some pod ->
      (landed w = true -> is_Some (store sys !! KeyUID k)) ->
      unpatchAllocatingPod (node sys) pod (KeyContainer k) prior w = (n, value, ok) ->
      step sys {| node := if ok : bool then dropPendingRelease k n else n;
                  store := written (KeyUID k) value (store sys);
                  cache := cache sys; calls := calls sys; served := served sys |}
  | step_forget k :
      cache sys !! KeyUID k = None ->
      step sys {| node := dropPendingRelease k (node sys); store := store sys; cache := cache sys;
                  calls := calls sys; served := served sys |}
  | step_prune :
      step sys {| node := pruneVisibilityGrants (PodUID <$> listed sys)
                            (pruneReservations (PodUID <$> listed sys) (node sys));
                  store := store sys; cache := cache sys; calls := calls sys; served := served sys |}
  | step_visibility g :
      step sys {| node := with_grants g (node sys); store := store sys; cache := cache sys;
                  calls := calls sys; served := served sys |}
  | step_sync uid :
      step sys {| node := node sys; store := store sys;
                  cache := partial_alter (fun _ => store sys !! uid) uid (cache sys);
                  calls := calls sys; served := served sys |}
  | step_create p :
      new_pod p -> store sys !! PodUID p = None -> cache sys !! PodUID p = None ->
      (forall k, is_Some (served sys !! k) -> KeyUID k <> PodUID p) ->
      step sys {| node := node sys; store := <[PodUID p := p]> (store sys); cache := cache sys;
                  calls := calls sys; served := served sys |}
  | step_phase uid p ph :
      store sys !! uid = Some p -> (podTerminated p = true -> podTerminated (set_phase ph p) = true) ->
      step sys {| node := node sys; store := <[uid := set_phase ph p]> (store sys); cache := cache sys;
                  calls := calls sys; served := served sys |}
  | step_delete uid :
      step sys {| node := node sys; store := delete uid (store sys); cache := cache sys;
                  calls := calls sys; served := served sys |}
  | step_restart :
      step sys {| node := empty_node; store := store sys; cache := store sys; calls := ∅;
                  served := filter (fun ks => map_Forall (fun _ c => call_key c <> ks.1) (calls sys)) (served sys) |}.

(** ** Records are well formed *)

Definition wf_annotation (a : Annotation) : Prop :=
  forall allocations name c, AllocatedAcceleratorsOf a = Some allocations -> allocations !! name = Some c ->
    wf_status (CaDevices c).

Record wf_node (n : Node) : Prop := {
  wf_reservations : forall k r, reservations n !! k = Some r -> wf_status (ResAllocated r);
  wf_pending : forall k c, pendingReleases n !! k = Some (Some c) -> wf_status (CaDevices c) }.

Definition wf_pods (m : gmap string Pod) : Prop :=
  forall u p, m !! u = Some p -> wf_annotation (AllocationAnnotation p).

Record wf_call (c : Call) : Prop := {
  wf_call_status : wf_status (DStatus (CallDecision c));
  wf_call_pod : wf_annotation (AllocationAnnotation (DPod (CallDecision c)));
  wf_call_prior : forall prior, DPriorClaim (CallDecision c) = Some prior -> wf_status (CaDevices prior);
  wf_call_profile : DProfile (CallDecision c) <> "" ->
    Forall (fun r => Mode r.2 = ModePartitioned) (cards (DStatus (CallDecision c))) }.

Record wf_system (sys : System) : Prop := {
  wf_sys_node : wf_node (node sys);
  wf_sys_store : wf_pods (store sys);
  wf_sys_cache : wf_pods (cache sys);
  wf_sys_calls : forall j c, calls sys !! j = Some c -> wf_call c;
  wf_sys_served : forall k s, served sys !! k = Some s -> wf_status s }.

Lemma wf_with_reservations n m :
  wf_node n -> (forall k r, m !! k = Some r -> wf_status (ResAllocated r)) -> wf_node (with_reservations m n).
Proof. intros [_ Hp] Hm. by constructor. Qed.

Lemma wf_reserve uid container st ids n : wf_status st -> wf_node n -> wf_node (reserveDevices uid container st ids n).
Proof.
  intros Hst Hn. unfold reserveDevices. destruct (_ || _); [done|]. apply wf_with_reservations; [done|].
  intros k r [[_ <-]|[_ Hr]]%lookup_insert_Some; [done|]. by eapply wf_reservations.
Qed.

Lemma wf_release uid container n : wf_node n -> wf_node (releaseReservation uid container n).
Proof.
  intros Hn. apply wf_with_reservations; [done|]. intros k r [_ Hr]%lookup_delete_Some.
  by eapply wf_reservations.
Qed.

Lemma wf_drop k n : wf_node n -> wf_node (dropPendingRelease k n).
Proof. intros [Hr Hp]. constructor; [done|]. cbn. intros j c [_ Hj]%lookup_delete_Some. by eapply Hp. Qed.

Lemma wf_record uid container prior n :
  (forall c, prior = Some c -> wf_status (CaDevices c)) -> wf_node n ->
  wf_node (recordPendingRelease uid container prior n).
Proof.
  intros Hc [Hr Hp]. unfold recordPendingRelease. destruct (_ || _); [done|]. constructor; [done|].
  intros j c. cbn. intros [[_ ->]|[_ Hj]]%lookup_insert_Some; [by apply Hc|by eapply Hp].
Qed.

Lemma overlay_lookup n uid container allocations name :
  overlay n uid container allocations !! name =
    match reservations n !! key uid name with
    | Some r => if bool_decide (name = container) then allocations !! name
                else Some {| CaDevices := ResAllocated r; CaDeviceIDs := ResDeviceIDs r |}
    | None => allocations !! name
    end.
Proof.
  unfold overlay. rewrite lookup_union, map_lookup_imap, reservationsFor_lookup.
  destruct (reservations n !! key uid name) as [r|]; cbn; [|by rewrite left_id by apply _].
  case_bool_decide; [by rewrite left_id by apply _|]. by destruct (allocations !! name).
Qed.

Lemma wf_overlay n uid container allocations name c :
  wf_node n -> (forall name c, allocations !! name = Some c -> wf_status (CaDevices c)) ->
  overlay n uid container allocations !! name = Some c -> wf_status (CaDevices c).
Proof.
  intros Hn Ha. rewrite overlay_lookup. destruct (reservations n !! key uid name) as [r|] eqn:Hr; [|apply Ha].
  case_bool_decide; [apply Ha|]. intros [= <-]. by eapply wf_reservations.
Qed.

Lemma wf_patch n pod container status ids w n' value ok :
  wf_node n -> wf_annotation (AllocationAnnotation pod) -> wf_status status ->
  patchAllocatingPod n pod container status ids w = (n', value, ok) ->
  wf_node n' /\ (forall a, value = Some a -> wf_annotation a).
Proof.
  intros Hn Hp Hs. unfold patchAllocatingPod, patch_value. unfold pod_allocations.
  destruct (AllocatedAcceleratorsOf _) as [al|] eqn:Hal; [|by intros [= <- <- _]].
  intros [= <- <- _]. split; [destruct (acknowledged w); [by apply wf_drop|done]|].
  intros a. destruct (landed w); [|done]. intros [= <-] m name c [= <-].
  intros [[_ <-]|[_ Hl]]%lookup_insert_Some; [done|]. eapply wf_overlay; [done| |done].
  intros name' c' Hc'. by eapply Hp.
Qed.

Lemma wf_unpatch n pod container prior w n' value ok :
  wf_node n -> wf_annotation (AllocationAnnotation pod) ->
  (forall c, prior = Some c -> wf_status (CaDevices c)) ->
  unpatchAllocatingPod n pod container prior w = (n', value, ok) ->
  wf_node n' /\ (forall a, value = Some a -> wf_annotation a).
Proof.
  intros Hn Hp Hs. unfold unpatchAllocatingPod, unpatch_value, pod_allocations.
  destruct (AllocatedAcceleratorsOf _) as [al|] eqn:Hal; [|by intros [= <- <- _]].
  intros [= <- <- _]. split; [destruct (acknowledged w); [done|by apply wf_record]|].
  intros a. destruct (landed w); [|done]. intros [= <-] m name c. case_bool_decide; intros [= <-].
  { by rewrite lookup_empty. }
  assert (forall name' c', al !! name' = Some c' -> wf_status (CaDevices c')) as Hal' by (intros; by eapply Hp).
  destruct prior as [claim|].
  - intros [[_ <-]|[_ Hl]]%lookup_insert_Some; [by apply Hs|]. by eapply wf_overlay.
  - intros [_ Hl]%lookup_delete_Some. by eapply wf_overlay.
Qed.

Lemma wf_recorded pod container c :
  wf_annotation (AllocationAnnotation pod) -> recorded_claim pod container = Some c -> wf_status (CaDevices c).
Proof.
  intros Hp. unfold recorded_claim, pod_allocations. destruct (AllocatedAcceleratorsOf _) as [al|] eqn:Hal; [|done].
  destruct (al !! container) as [h|] eqn:Hh; [|done]. destruct (Nat.eqb _ _); [done|]. intros [= <-]. by eapply Hp.
Qed.

Lemma wf_prior n pod container c :
  wf_node n -> wf_annotation (AllocationAnnotation pod) ->
  priorClaimOf n pod container = Some c -> wf_status (CaDevices c).
Proof.
  intros Hn Hp. unfold priorClaimOf. rewrite reservationsFor_lookup.
  set (recorded := match peekPendingRelease _ _ with Some p => p | None => _ end).
  assert (recorded = Some c -> wf_status (CaDevices c)) as Hrec.
  { unfold recorded, peekPendingRelease. destruct (pendingReleases n !! _) as [[x|]|] eqn:Hx; [|done|by apply wf_recorded].
    intros [= ->]. by eapply wf_pending. }
  destruct (reservations n !! _) as [r|] eqn:Hr; [|done]. destruct (Nat.eqb _ _); [done|].
  intros [= <-]. by eapply wf_reservations.
Qed.

Lemma wf_written uid value m :
  wf_pods m -> (forall a, value = Some a -> wf_annotation a) -> wf_pods (written uid value m).
Proof.
  intros Hm Hv. unfold written. destruct value as [a|]; [|done]. intros u p.
  destruct (decide (u = uid)) as [->|Hu]; [|rewrite lookup_alter_ne by done; apply Hm].
  rewrite lookup_alter_eq. intros (q & Hq & ->)%fmap_Some. by apply Hv.
Qed.

Lemma wf_serve d m :
  wf_status (DStatus d) -> (forall k s, m !! k = Some s -> wf_status s) ->
  forall k s, serve d m !! k = Some s -> wf_status s.
Proof.
  intros Hd Hm k s. unfold serve. destruct (Nat.eqb _ _).
  - intros [_ Hl]%lookup_delete_Some. by eapply Hm.
  - intros [[_ <-]|[_ Hl]]%lookup_insert_Some; [done|]. by eapply Hm.
Qed.

Lemma listed_elem sys p : p ∈ listed sys -> exists u, cache sys !! u = Some p.
Proof. intros ([u q] & -> & Hq%elem_of_map_to_list)%list_elem_of_fmap. eauto. Qed.

Lemma listed_in sys u p : cache sys !! u = Some p -> p ∈ listed sys.
Proof. intros Hp. apply list_elem_of_fmap. exists (u, p). split; [done|]. by apply elem_of_map_to_list. Qed.

Context (Hsort : forall l, ByCreation cfg l ≡ₚ l).

Lemma serve_wf_call sys d ids places ph :
  wf_system sys -> wf_call {| CallDecision := d; CallIDs := ids; CallPlaces := places; CallPhaseOf := ph |} ->
  forall i j c, <[i := {| CallDecision := d; CallIDs := ids; CallPlaces := places; CallPhaseOf := ph |}]>
                  (calls sys) !! j = Some c -> wf_call c.
Proof. intros Hw Hc i j c [[_ <-]|[_ Hj]]%lookup_insert_Some; [done|]. by eapply wf_sys_calls. Qed.

Lemma advance_wf_call sys p i c :
  wf_system sys -> calls sys !! i = Some c ->
  forall j c', <[i := advance p c]> (calls sys) !! j = Some c' -> wf_call c'.
Proof.
  intros Hw Hc j c' [[_ <-]|[_ Hj]]%lookup_insert_Some; [|by eapply wf_sys_calls].
  destruct (wf_sys_calls _ Hw _ _ Hc). by constructor.
Qed.

Lemma delete_wf_call sys i :
  wf_system sys -> forall j c, delete i (calls sys) !! j = Some c -> wf_call c.
Proof. intros Hw j c [_ Hj]%lookup_delete_Some. by eapply wf_sys_calls. Qed.

Lemma delete_wf_served sys k :
  wf_system sys -> forall j s, delete k (served sys) !! j = Some s -> wf_status s.
Proof. intros Hw j s [_ Hj]%lookup_delete_Some. by eapply wf_sys_served. Qed.

Lemma actuate_wf d ids reply n r n' :
  wf_node n -> wf_status (DStatus d) ->
  actuatePartition d ids reply n = (r, n') ->
  wf_node n' /\
  match r with
  | inl _ => True
  | inr (d', _) => wf_status (DStatus d') /\ DPod d' = DPod d /\ DContainer d' = DContainer d /\
      DPriorClaim d' = DPriorClaim d /\ DProfile d' = DProfile d /\
      (DProfile d = "" -> d' = d /\ n' = n) /\
      (DStatus d' = [] <-> DStatus d = []) /\
      (forall P, Forall (fun c => P (Mode c.2)) (cards (DStatus d)) -> Forall (fun c => P (Mode c.2)) (cards (DStatus d')))
  end.
Proof.
  intros Hn Hd. unfold actuatePartition. case_bool_decide as Hp.
  { intros [= <- <-]. split; [done|]. by split_and!. }
  destruct reply as [[physical|]|]; intros [= <- <-]; [|split; [by apply wf_release|done]..].
  set (st := applyPhysicalPlacements _ _ _ _).
  pose proof (set_physical_geometric (PhysProfile physical) (PhysPlacements physical) (PhysIDs physical)) as Hg.
  assert (wf_status st) as Hst.
  { destruct Hd as [Hd1 Hd2]. split; [by unfold st, applyPhysicalPlacements; rewrite map_rows_fst|].
    apply list.Forall_forall. intros [res a] (b & Hb & Hm & Hal)%map_rows_elem; [|done]. cbn. rewrite Hm, Hal.
    rewrite list.Forall_forall in Hd2. by apply (Hd2 (res, b)). }
  split; [by apply wf_reserve|]. cbn. split_and!; try done.
  - apply map_rows_nil.
  - intros P HP. apply list.Forall_forall. intros [res a] (b & Hb & He & _)%map_rows_elem; [|done]. cbn.
    rewrite list.Forall_forall in HP. rewrite He. by apply (HP (res, b)).
Qed.

Lemma wf_rendered d physical places ok n r n' :
  wf_node n -> renderPrePatchResponse d physical places ok n = (r, n') -> wf_node n'.
Proof.
  intros Hn. unfold renderPrePatchResponse. destruct physical, places, ok; intros [= _ <-]; try done.
  by apply wf_release.
Qed.

Lemma wf_persisted c w n n' value err :
  wf_node n -> wf_call c -> persistAllocation (CallDecision c) (CallIDs c) w n = (n', value, err) ->
  wf_node n' /\ (forall a, value = Some a -> wf_annotation a).
Proof.
  intros Hn [Hc1 Hc2 _ _]. unfold persistAllocation.
  destruct (patchAllocatingPod _ _ _ _ _ _) as [[n1 v] ok] eqn:Hpatch.
  apply wf_patch in Hpatch as [Hn1 Hv]; [|done..].
  destruct ok; intros [= <- <- _]; split; try done. by apply wf_release.
Qed.

Lemma wf_settle c n : wf_node n -> wf_call c -> wf_node (settle_reservation (CallDecision c) n).
Proof.
  intros Hn Hc. unfold settle_reservation. destruct (DPriorClaim _) as [prior|] eqn:Hp; [|by apply wf_release].
  apply wf_reserve; [|done]. by apply (wf_call_prior _ Hc).
Qed.

Lemma wf_decide sys i s devs ids d n places :
  wf_system sys -> decided cfg s {| SnapDevices := devs; SnapPods := listed sys |} ids (node sys) d n ->
  wf_system {| node := n; store := store sys; cache := cache sys;
               calls := <[i := {| CallDecision := d; CallIDs := ids; CallPlaces := places;
                                  CallPhaseOf := Decided |}]> (calls sys);
               served := serve d (served sys) |}.
Proof.
  intros Hw []. pose proof Hw as [Hn _ Hca _ Hse]. apply listed_elem in decided_pod as [u Hu].
  specialize (Hca u _ Hu) as Hpod. constructor; cbn; [|by apply Hw|by apply Hw| |by apply wf_serve].
  - rewrite decided_node. by apply wf_reserve.
  - apply serve_wf_call; [done|]. constructor; cbn; [done|done| |].
    + intros prior Hprior. rewrite decided_prior in Hprior. by eapply wf_prior.
    + intros Hp. rewrite <- (decided_profile Hp). done.
Qed.

Lemma wf_actuate sys i c reply d physical n :
  wf_system sys -> calls sys !! i = Some c ->
  actuatePartition (CallDecision c) (CallIDs c) reply (node sys) = (inr (d, physical), n) ->
  wf_system {| node := n; store := store sys; cache := cache sys;
               calls := <[i := {| CallDecision := d; CallIDs := CallIDs c; CallPlaces := CallPlaces c;
                                  CallPhaseOf := Actuated physical |}]> (calls sys);
               served := serve d (served sys) |}.
Proof.
  intros Hw Hc Ha. destruct (wf_sys_calls _ Hw _ _ Hc) as [Hc1 Hc2 Hc3 Hc4].
  apply actuate_wf in Ha as [Hn' (Hd & Hp & Hctr & Hpr & Hprof & _ & _ & HP)]; [|by apply Hw|done].
  constructor; cbn; [done|by apply Hw|by apply Hw| |by apply wf_serve; [|apply Hw]].
  apply serve_wf_call; [done|]. constructor; cbn; [done|by rewrite Hp|by rewrite Hpr|].
  rewrite Hprof. intros Hne. by apply (HP (fun m => m = ModePartitioned)), Hc4.
Qed.

Lemma wf_step sys sys' : wf_system sys -> step sys sys' -> wf_system sys'.
Proof.
  intros Hw Hs. pose proof Hw as [Hn Hst Hca Hcl Hse]. destruct Hs.
  - apply decide_request_decided in H4; [|done..]. by eapply wf_decide.
  - destruct r as [e|[d physical]]; [|by eapply wf_actuate].
    apply actuate_wf in H1 as [Hn' _]; [|done|by apply (Hcl i c)].
    constructor; cbn; [done|done|done|by apply delete_wf_call|by apply delete_wf_served].
  - apply wf_rendered in H1; [|done]. destruct r; constructor; cbn; try done;
      [by apply delete_wf_call|by apply delete_wf_served|by apply advance_wf_call].
  - apply wf_persisted in H2 as [Hn' Hv]; [|done|by eapply Hcl].
    constructor; cbn; [done|by apply wf_written|done| |].
    + destruct err; [by apply delete_wf_call|by apply advance_wf_call].
    + destruct err; [by apply delete_wf_served|done].
  - destruct (rendered || ok); constructor; cbn; try done;
      [by apply delete_wf_call|by apply wf_settle; [|eapply Hcl]|by apply advance_wf_call|by apply delete_wf_served].
  - destruct (Hcl _ _ H). apply wf_unpatch in H2 as [Hn' Hv]; [|done..].
    constructor; cbn; [done|by apply wf_written|done|by apply delete_wf_call|done].
  - apply wf_unpatch in H2 as [Hn' Hv]; [|done|by eapply Hca|].
    + constructor; cbn; [|by apply wf_written|done..]. destruct ok; [by apply wf_drop|done].
    + intros c ->. by eapply wf_pending.
  - constructor; cbn; try done. by apply wf_drop.
  - constructor; cbn; try done. constructor; cbn; [|apply Hn].
    intros k r [Hr _]%map_lookup_filter_Some. by eapply wf_reservations.
  - constructor; cbn; try done. by destruct Hn; constructor.
  - constructor; cbn; try done. intros u p. destruct (decide (u = uid)) as [->|].
    + rewrite lookup_partial_alter_eq. apply Hst.
    + rewrite lookup_partial_alter_ne by done. apply Hca.
  - constructor; cbn; try done. intros u q [[_ <-]|[_ Hq]]%lookup_insert_Some; [|by eapply Hst].
    destruct H as (_ & Ha & _). rewrite Ha. intros m name c [= <-]. by rewrite lookup_empty.
  - constructor; cbn; try done. intros u q [[_ <-]|[_ Hq]]%lookup_insert_Some; [|by eapply Hst].
    by apply (Hst uid p).
  - constructor; cbn; try done. intros u q [_ Hq]%lookup_delete_Some. by eapply Hst.
  - constructor; cbn; try done.
    intros k s [Hk _]%map_lookup_filter_Some. by eapply Hse.
Qed.

(** ** What is served is visible *)

Definition reserved_as (n : Node) (k : ReservationKey) (s : DevicesStatus) : Prop :=
  exists r, reservations n !! k = Some r /\ ResAllocated r = s.

Definition recorded (p : Pod) (name : string) : option DevicesStatus := CaDevices <$> recorded_claim p name.

(** A call that has not yet made its claim durable. *)
Definition unrecorded (c : Call) : Prop :=
  match CallPhaseOf c with Decided | Actuated _ | Rendered _ => True | _ => False end.

Definition pod_ok (u : string) (p : Pod) : Prop :=
  PodUID p = u /\ u <> "" /\ Forall (fun c => CName c <> "") (InitContainers p ++ Containers p).

Definition is_listed (sys : System) (k : ReservationKey) : Prop := is_Some (cache sys !! KeyUID k).

Record call_ok (sys : System) (c : Call) : Prop := {
  call_named : KeyUID (call_key c) <> "" /\ KeyContainer (call_key c) <> "";
  call_served :
    served sys !! call_key c =
      match CallPhaseOf c with
      | Releasing => None
      | _ => if Nat.eqb (length (DStatus (CallDecision c))) 0 then None else Some (DStatus (CallDecision c))
      end;
  call_reserved : forall s, served sys !! call_key c = Some s -> is_listed sys (call_key c) ->
    reserved_as (node sys) (call_key c) s }.

(** The Pod a call read at its decision still carries its siblings' claims, unless a
    reservation does. *)
Definition snapshot_ok (sys : System) (c : Call) : Prop :=
  forall k s, served sys !! k = Some s -> KeyUID k = KeyUID (call_key c) -> k <> call_key c -> is_listed sys k ->
    reserved_as (node sys) k s \/ recorded (DPod (CallDecision c)) (KeyContainer k) = Some s.

Record visible (sys : System) : Prop := {
  vis_store : forall u p, store sys !! u = Some p -> pod_ok u p;
  vis_cache : forall u p, cache sys !! u = Some p -> pod_ok u p;
  vis_terminal : forall u p q, cache sys !! u = Some p -> store sys !! u = Some q ->
    podTerminated p = true -> podTerminated q = true;
  vis_listed : forall k s, served sys !! k = Some s -> is_listed sys k \/ store sys !! KeyUID k = None;
  vis_claim : forall k s p, served sys !! k = Some s -> cache sys !! KeyUID k = Some p -> s <> [] /\
    (reserved_as (node sys) k s \/
     (reservations (node sys) !! k = None /\ pendingReleases (node sys) !! k = None /\
      recorded p (KeyContainer k) = Some s /\ forall j c, calls sys !! j = Some c -> call_key c <> k));
  vis_durable : forall k s q, served sys !! k = Some s -> store sys !! KeyUID k = Some q ->
    (forall j c, calls sys !! j = Some c -> call_key c = k -> ~ unrecorded c) ->
    recorded q (KeyContainer k) = Some s;
  vis_pending : forall k o, pendingReleases (node sys) !! k = Some o -> is_Some (served sys !! k) ->
    exists j c, calls sys !! j = Some c /\ call_key c = k /\ unrecorded c;
  vis_serial : forall i j c c', calls sys !! i = Some c -> calls sys !! j = Some c' ->
    call_key c = call_key c' -> i = j;
  vis_call : forall j c, calls sys !! j = Some c -> call_ok sys c;
  vis_snapshot : forall j c, calls sys !! j = Some c -> snapshot_ok sys c }.

(** A step that touches the claim of one container only. *)
Record touches (k0 : ReservationKey) (sys sys' : System) : Prop := {
  t_cache : cache sys' = cache sys;
  t_served : forall k, k <> k0 -> served sys' !! k = served sys !! k;
  t_reservations : forall k, k <> k0 -> reservations (node sys') !! k = reservations (node sys) !! k;
  t_pending : forall k, k <> k0 -> pendingReleases (node sys') !! k = pendingReleases (node sys) !! k;
  t_calls : forall j c, call_key c <> k0 -> calls sys' !! j = Some c <-> calls sys !! j = Some c;
  t_store : forall u q', store sys' !! u = Some q' -> exists q, store sys !! u = Some q /\
    (pod_ok u q -> pod_ok u q') /\ podTerminated q' = podTerminated q /\
    (forall k s, KeyUID k = u -> k <> k0 -> served sys !! k = Some s ->
       recorded q (KeyContainer k) = Some s -> recorded q' (KeyContainer k) = Some s);
  t_gone : forall u, store sys !! u = None -> store sys' !! u = None }.

Record own_ok (k0 : ReservationKey) (sys' : System) : Prop := {
  o_listed : forall s, served sys' !! k0 = Some s -> is_listed sys' k0 \/ store sys' !! KeyUID k0 = None;
  o_claim : forall s, served sys' !! k0 = Some s -> is_listed sys' k0 -> s <> [] /\ reserved_as (node sys') k0 s;
  o_durable : forall s q, served sys' !! k0 = Some s -> store sys' !! KeyUID k0 = Some q ->
    (forall j c, calls sys' !! j = Some c -> call_key c = k0 -> ~ unrecorded c) ->
    recorded q (KeyContainer k0) = Some s;
  o_pending : forall o, pendingReleases (node sys') !! k0 = Some o -> is_Some (served sys' !! k0) ->
    exists j c, calls sys' !! j = Some c /\ call_key c = k0 /\ unrecorded c;
  o_calls : forall j c, calls sys' !! j = Some c -> call_key c = k0 -> call_ok sys' c /\ snapshot_ok sys' c;
  o_serial : forall i j c c', calls sys' !! i = Some c -> calls sys' !! j = Some c' ->
    call_key c = k0 -> call_key c' = k0 -> i = j }.

Lemma touches_reserved k0 sys sys' k s :
  touches k0 sys sys' -> k <> k0 -> reserved_as (node sys') k s <-> reserved_as (node sys) k s.
Proof. intros Ht Hk. unfold reserved_as. by rewrite (t_reservations _ _ _ Ht). Qed.

Lemma frame_calls k0 sys sys' j c :
  visible sys -> touches k0 sys sys' -> own_ok k0 sys' -> calls sys' !! j = Some c ->
  call_ok sys' c /\ snapshot_ok sys' c.
Proof.
  intros Hv Ht Ho Hj. destruct (decide (call_key c = k0)) as [Hk|Hk]; [by apply (o_calls _ _ Ho j c)|].
  assert (forall k, is_listed sys' k <-> is_listed sys k) as Hli
    by (intros; unfold is_listed; by rewrite (t_cache _ _ _ Ht)).
  apply (t_calls _ _ _ Ht) in Hj; [|done]. split.
  - destruct (vis_call _ Hv j c Hj) as [H1 H2 H3]. constructor; [done|by rewrite (t_served _ _ _ Ht)|]. intros s.
    rewrite (t_served _ _ _ Ht), Hli, (touches_reserved k0 sys sys') by done. apply H3.
  - intros k s Hs Hu Hne Hl. destruct (decide (k = k0)) as [->|Hk0]; [left; by apply (o_claim _ _ Ho s)|].
    rewrite (t_served _ _ _ Ht) in Hs by done. rewrite (touches_reserved k0 sys sys') by done.
    apply Hli in Hl. by apply (vis_snapshot _ Hv j c Hj k s).
Qed.

Lemma frame k0 sys sys' : visible sys -> touches k0 sys sys' -> own_ok k0 sys' -> visible sys'.
Proof.
  intros Hv Ht Ho. pose proof (t_cache _ _ _ Ht) as Hca.
  assert (forall k, is_listed sys' k <-> is_listed sys k) as Hli by (intros; unfold is_listed; by rewrite Hca).
  constructor.
  - intros u q' (q & Hq & Hok & _)%(t_store _ _ _ Ht). by apply Hok, (vis_store _ Hv).
  - rewrite Hca. apply (vis_cache _ Hv).
  - rewrite Hca. intros u p q' Hp (q & Hq & _ & -> & _)%(t_store _ _ _ Ht). by apply (vis_terminal _ Hv u).
  - intros k s Hs. destruct (decide (k = k0)) as [->|Hk]; [by eapply o_listed|].
    rewrite (t_served _ _ _ Ht) in Hs by done. rewrite Hli.
    destruct (vis_listed _ Hv k s Hs) as [?|?]; [by left|right]. by apply (t_gone _ _ _ Ht).
  - intros k s p Hs Hp. destruct (decide (k = k0)) as [->|Hk].
    { destruct (o_claim _ _ Ho s Hs) as [??]; [by eexists|]. split; [done|by left]. }
    rewrite (t_served _ _ _ Ht) in Hs by done. rewrite Hca in Hp.
    rewrite (touches_reserved k0 sys sys'), (t_reservations _ _ _ Ht), (t_pending _ _ _ Ht) by done.
    destruct (vis_claim _ Hv k s p Hs Hp) as [? [?|(?&?&?&Hc)]]; split; [done|by left|done|right].
    split_and!; try done. intros j c Hj He. subst k. apply (Hc j c); [|done]. by apply (t_calls _ _ _ Ht).
  - intros k s q' Hs Hq Hc. destruct (decide (k = k0)) as [->|Hk]; [by eapply o_durable|].
    rewrite (t_served _ _ _ Ht) in Hs by done. destruct (t_store _ _ _ Ht _ _ Hq) as (q & Hq0 & _ & _ & Hkeep).
    apply (Hkeep k s); [done..|]. eapply (vis_durable _ Hv); [done..|].
    intros j c Hj He. apply (Hc j c); [|done]. apply (t_calls _ _ _ Ht); [by subst|done].
  - intros k o Hp Hs. destruct (decide (k = k0)) as [->|Hk]; [by eapply o_pending|].
    rewrite (t_pending _ _ _ Ht) in Hp by done. rewrite (t_served _ _ _ Ht) in Hs by done.
    destruct (vis_pending _ Hv k o Hp Hs) as (j & c & Hj & <- & Hu). exists j, c. split; [|done].
    by apply (t_calls _ _ _ Ht).
  - intros i j c c' Hi Hj He. destruct (decide (call_key c = k0)) as [Hk|Hk].
    + eapply (o_serial _ _ Ho); [done..|congruence].
    + eapply (vis_serial _ Hv); [by apply (t_calls _ _ _ Ht)| |done]. apply (t_calls _ _ _ Ht); congruence.
  - intros j c Hj. by apply (frame_calls k0 sys sys' j c).
  - intros j c Hj. by apply (frame_calls k0 sys sys' j c).
Qed.

(** *** Node operations on one key *)

Lemma reserve_other uid container st ids n k :
  k <> key uid container -> reservations (reserveDevices uid container st ids n) !! k = reservations n !! k.
Proof. intros Hk. unfold reserveDevices. destruct (_ || _); [done|]. cbn. by rewrite lookup_insert_ne. Qed.

Lemma reserve_own uid container st ids n :
  uid <> "" -> container <> "" -> st <> [] ->
  reserved_as (reserveDevices uid container st ids n) (key uid container) st.
Proof.
  intros Hu Hc Hs. unfold reserveDevices. rewrite !bool_decide_false by done. destruct st; [done|]. cbn.
  eexists. cbn. by rewrite lookup_insert_eq.
Qed.

Lemma reserve_pending uid container st ids n :
  pendingReleases (reserveDevices uid container st ids n) = pendingReleases n.
Proof. unfold reserveDevices. by destruct (_ || _). Qed.

Lemma settle_other d n k :
  k <> decision_key d -> reservations (settle_reservation d n) !! k = reservations n !! k.
Proof.
  intros Hk. unfold settle_reservation. destruct (DPriorClaim d); [by apply reserve_other|].
  cbn. by rewrite lookup_delete_ne.
Qed.

Lemma settle_pending d n : pendingReleases (settle_reservation d n) = pendingReleases n.
Proof. unfold settle_reservation. destruct (DPriorClaim d); [apply reserve_pending|done]. Qed.

Lemma record_other uid container prior n k :
  k <> key uid container ->
  pendingReleases (recordPendingRelease uid container prior n) !! k = pendingReleases n !! k.
Proof. intros Hk. unfold recordPendingRelease. destruct (_ || _); [done|]. cbn. by rewrite lookup_insert_ne. Qed.

Lemma record_reservations uid container prior n :
  reservations (recordPendingRelease uid container prior n) = reservations n.
Proof. unfold recordPendingRelease. by destruct (_ || _). Qed.

Lemma serve_other d m k : k <> decision_key d -> serve d m !! k = m !! k.
Proof. intros Hk. unfold serve. destruct (Nat.eqb _ _); [by rewrite lookup_delete_ne|by rewrite lookup_insert_ne]. Qed.

Lemma serve_own d m :
  serve d m !! decision_key d = if Nat.eqb (length (DStatus d)) 0 then None else Some (DStatus d).
Proof. unfold serve. destruct (Nat.eqb _ _); [apply lookup_delete_eq|apply lookup_insert_eq]. Qed.

Lemma serve_own_Some d m s : serve d m !! decision_key d = Some s -> s = DStatus d /\ s <> [].
Proof.
  rewrite serve_own. destruct (DStatus d) as [|g l]; cbn; [done|]. by intros [= <-].
Qed.

(** *** Annotations rebuilt around one container *)

Definition rebuilt (n : Node) (pod : Pod) (container : string) (a : Annotation) : Prop :=
  exists al m, pod_allocations pod = Some al /\ AllocatedAcceleratorsOf a = Some m /\
    forall name, name <> container -> m !! name = overlay n (PodUID pod) container al !! name.

Lemma patch_rebuilt n pod container status ids w n' a ok :
  patchAllocatingPod n pod container status ids w = (n', Some a, ok) ->
  rebuilt n pod container a /\
  (forall q, status <> [] -> recorded (set_annotation a q) container = Some status).
Proof.
  unfold patchAllocatingPod, patch_value. destruct (pod_allocations pod) as [al|] eqn:Hal; [|done].
  destruct (landed w); [|done]. intros [= _ <- _]. split.
  - exists al. eexists. split_and!; [done|done|]. intros name Hn. by rewrite lookup_insert_ne.
  - intros q Hs. unfold recorded, recorded_claim, pod_allocations. cbn. rewrite lookup_insert_eq.
    by destruct status.
Qed.

Lemma unpatch_rebuilt n pod container prior w n' a ok :
  unpatchAllocatingPod n pod container prior w = (n', Some a, ok) -> rebuilt n pod container a.
Proof.
  unfold unpatchAllocatingPod, unpatch_value. destruct (pod_allocations pod) as [al|] eqn:Hal; [|done].
  destruct (landed w); [|done]. intros [= _ <- _].
  set (m := match prior with Some claim => _ | None => _ end). exists al, m. split_and!; [done| |].
  - case_bool_decide as He; [by rewrite He|done].
  - intros name Hn. unfold m. destruct prior; [by rewrite lookup_insert_ne|by rewrite lookup_delete_ne].
Qed.

Lemma rebuilt_keeps n pod container a q name s :
  rebuilt n pod container a -> name <> container -> s <> [] ->
  reserved_as n (key (PodUID pod) name) s \/
    (reservations n !! key (PodUID pod) name = None /\ recorded pod name = Some s) ->
  recorded (set_annotation a q) name = Some s.
Proof.
  intros (al & m & Hal & Hm & Hov) Hn Hs Hc.
  assert (exists c, m !! name = Some c /\ CaDevices c = s) as (c & Hcl & <-).
  { rewrite (Hov name Hn), overlay_lookup. destruct Hc as [(r & Hr & <-)|[Hr Hrec]].
    - rewrite Hr, bool_decide_false by done. eexists. done.
    - rewrite Hr. unfold recorded, recorded_claim in Hrec. rewrite Hal in Hrec.
      destruct (al !! name) as [h|]; [|done]. destruct (Nat.eqb _ _); [done|].
      exists h. split; [done|]. by injection Hrec. }
  unfold recorded, recorded_claim, pod_allocations. cbn. rewrite Hm, Hcl.
  destruct (CaDevices c) eqn:E; [done|]. cbn. by rewrite E.
Qed.

(** The store after such a write, for every other container. *)
Lemma written_touch sys k0 pod value u q' :
  visible sys -> KeyUID k0 = PodUID pod ->
  (forall a, value = Some a -> rebuilt (node sys) pod (KeyContainer k0) a) ->
  (forall k s, served sys !! k = Some s -> KeyUID k = KeyUID k0 -> k <> k0 -> is_listed sys k ->
     reserved_as (node sys) k s \/ recorded pod (KeyContainer k) = Some s) ->
  written (KeyUID k0) value (store sys) !! u = Some q' ->
  exists q, store sys !! u = Some q /\ (pod_ok u q -> pod_ok u q') /\ podTerminated q' = podTerminated q /\
    (forall k s, KeyUID k = u -> k <> k0 -> served sys !! k = Some s ->
       recorded q (KeyContainer k) = Some s -> recorded q' (KeyContainer k) = Some s).
Proof.
  intros Hv Hu Hval Hsib. unfold written. destruct value as [a|]; [|intros Hq; eauto 10].
  destruct (decide (u = KeyUID k0)) as [->|Hne]; [|rewrite lookup_alter_ne by done; eauto 10].
  rewrite lookup_alter_eq. intros (q & Hq & ->)%fmap_Some. exists q. split_and!; [done|done|done|].
  intros k s Hku Hk Hs _.
  assert (is_listed sys k) as Hl.
  { destruct (vis_listed _ Hv k s Hs) as [?|Hno]; [done|]. rewrite Hku in Hno. congruence. }
  assert (key (PodUID pod) (KeyContainer k) = k) as Hkey by (rewrite <- Hu, <- Hku; apply key_eta).
  destruct Hl as [p Hp] eqn:Heq. clear Heq. destruct (vis_claim _ Hv k s p Hs Hp) as [Hnil Hcl].
  apply (rebuilt_keeps (node sys) pod (KeyContainer k0)); [by apply Hval| |done|].
  - intros He. apply Hk. rewrite <- (key_eta k), <- (key_eta k0). congruence.
  - rewrite Hkey. destruct Hcl as [?|(Hr & _)]; [by left|].
    destruct (Hsib k s Hs Hku Hk) as [?|?]; [by eexists|by left|by right].
Qed.

Lemma written_gone uid value m u : m !! u = None -> written uid value m !! u = None.
Proof.
  intros Hm. unfold written. destruct value; [|done]. destruct (decide (u = uid)) as [->|].
  - by rewrite lookup_alter_eq, Hm.
  - by rewrite lookup_alter_ne.
Qed.

(** *** Calls *)

Lemma calls_insert sys i c c' k0 :
  calls sys !! i = Some c -> call_key c = k0 -> call_key c' = k0 ->
  forall j c1, call_key c1 <> k0 -> <[i := c']> (calls sys) !! j = Some c1 <-> calls sys !! j = Some c1.
Proof.
  intros Hc Hk Hk' j c1 Hne. destruct (decide (j = i)) as [->|Hj]; [|by rewrite lookup_insert_ne].
  rewrite lookup_insert_eq, Hc. split; intros [= ->]; congruence.
Qed.

Lemma calls_delete sys i c k0 :
  calls sys !! i = Some c -> call_key c = k0 ->
  forall j c1, call_key c1 <> k0 -> delete i (calls sys) !! j = Some c1 <-> calls sys !! j = Some c1.
Proof.
  intros Hc Hk j c1 Hne. destruct (decide (j = i)) as [->|Hj]; [|by rewrite lookup_delete_ne].
  rewrite lookup_delete_eq, Hc. split; [done|]. intros [= ->]. congruence.
Qed.

Lemma only_call sys i c j c' :
  visible sys -> calls sys !! i = Some c -> delete i (calls sys) !! j = Some c' -> call_key c' <> call_key c.
Proof.
  intros Hv Hc [Hne Hj]%lookup_delete_Some He. apply Hne. symmetry. by eapply (vis_serial _ Hv).
Qed.

Lemma own_gone sys k0 :
  served sys !! k0 = None -> (forall j c, calls sys !! j = Some c -> call_key c <> k0) -> own_ok k0 sys.
Proof.
  intros Hs Hc. constructor; try (intros; congruence).
  - intros o _ [x Hx]. congruence.
  - intros j c Hj He. by destruct (Hc j c).
  - intros i j c c' Hi _ He _. by destruct (Hc i c).
Qed.

(** The one call of [k0] after a step that advances it. *)
Lemma own_advance sys sys' i c c' :
  visible sys -> calls sys !! i = Some c -> call_key c' = call_key c ->
  calls sys' = <[i := c']> (calls sys) -> call_ok sys' c' -> snapshot_ok sys' c' ->
  (forall j c1, calls sys' !! j = Some c1 -> call_key c1 = call_key c -> j = i /\ c1 = c') /\
  (forall j c1, calls sys' !! j = Some c1 -> call_key c1 = call_key c -> call_ok sys' c1 /\ snapshot_ok sys' c1) /\
  (forall a b c1 c2, calls sys' !! a = Some c1 -> calls sys' !! b = Some c2 ->
     call_key c1 = call_key c -> call_key c2 = call_key c -> a = b).
Proof.
  intros Hv Hc Hk He Hok Hsn.
  assert (forall j c1, calls sys' !! j = Some c1 -> call_key c1 = call_key c -> j = i /\ c1 = c') as Hone.
  { intros j c1. rewrite He. intros [[<- <-]|[Hne Hj]]%lookup_insert_Some; [done|].
    intros Hk1. exfalso. apply Hne. by eapply (vis_serial _ Hv). }
  split_and!; [done| |].
  - intros j c1 Hj Hk1. by destruct (Hone j c1 Hj Hk1) as [_ ->].
  - intros a b c1 c2 Ha Hb H1 H2. destruct (Hone a c1 Ha H1) as [-> _]. by destruct (Hone b c2 Hb H2) as [-> _].
Qed.

(** Siblings of a call that were fine stay fine when only its own claim changes. *)
Lemma snapshot_frame sys sys' c c' :
  visible sys -> touches (call_key c) sys sys' -> call_key c' = call_key c ->
  DPod (CallDecision c') = DPod (CallDecision c) -> snapshot_ok sys c -> snapshot_ok sys' c'.
Proof.
  intros Hv Ht Hk Hp Hs k s Hserved Hu Hne Hl. rewrite Hk in *. rewrite Hp.
  rewrite (t_served _ _ _ Ht) in Hserved by done. rewrite (touches_reserved (call_key c) sys sys') by done.
  apply (Hs k s); [done..|]. unfold is_listed in *. by rewrite (t_cache _ _ _ Ht) in Hl.
Qed.

Lemma vis_decide sys i s devs ids d n :
  visible sys -> calls sys !! i = None ->
  decided cfg s {| SnapDevices := devs; SnapPods := listed sys |} ids (node sys) d n ->
  (forall j c, calls sys !! j = Some c -> call_key c <> decision_key d) ->
  forall places,
  visible {| node := n; store := store sys; cache := cache sys;
             calls := <[i := {| CallDecision := d; CallIDs := ids; CallPlaces := places;
                                CallPhaseOf := Decided |}]> (calls sys);
             served := serve d (served sys) |}.
Proof.
  intros Hv Hi Hd Hguard places. destruct Hd. apply listed_elem in decided_pod as [u Hu].
  destruct (vis_cache _ Hv u _ Hu) as (Huid & Hne & Hnames). subst u. cbn in *.
  assert (CName (DContainer d) <> "") as Hcn by (rewrite list.Forall_forall in Hnames; by apply Hnames).
  set (c := {| CallDecision := d; CallIDs := ids; CallPlaces := places; CallPhaseOf := Decided |}).
  set (sys' := {| node := n; store := _; cache := _; calls := _; served := _ |}).
  assert (forall s, served sys' !! decision_key d = Some s -> s <> [] /\ reserved_as (node sys') (decision_key d) s) as Hown.
  { intros st [-> Hst]%serve_own_Some. split; [done|]. cbn. rewrite decided_node. by apply reserve_own. }
  assert (touches (decision_key d) sys sys') as Ht.
  { constructor; cbn; [done|by apply serve_other| | | |eauto 10|done].
    - rewrite decided_node. intros. by apply reserve_other.
    - rewrite decided_node. intros. by rewrite reserve_pending.
    - intros j c1 Hk. destruct (decide (j = i)) as [->|Hj]; [|by rewrite lookup_insert_ne].
      rewrite lookup_insert_eq, Hi. split; [|done]. by intros [= <-]. }
  assert (forall j c1, calls sys' !! j = Some c1 -> call_key c1 = decision_key d -> j = i /\ c1 = c) as Hone.
  { intros j c1. cbn. intros [[<- <-]|[_ Hj]]%lookup_insert_Some; [done|]. intros He. by destruct (Hguard j c1). }
  apply (frame (decision_key d) sys); [done|done|]. constructor.
  - intros st _. left. by eexists.
  - intros st Hst _. by apply Hown.
  - intros st q _ _ Hall. exfalso. apply (Hall i c); [apply lookup_insert_eq|done|exact I].
  - intros o _ _. exists i, c. split; [apply lookup_insert_eq|]. by split.
  - intros j c1 Hj He. destruct (Hone j c1 Hj He) as [-> ->]. split.
    + constructor; [done|apply serve_own|]. intros st Hst _. by apply Hown.
    + intros k st Hst Hku Hk _. cbn in Hst. rewrite serve_other in Hst by done.
      rewrite (touches_reserved (decision_key d) sys sys') by done.
      assert (cache sys !! KeyUID k = Some (DPod d)) as Hck by (rewrite Hku; exact Hu).
      destruct (vis_claim _ Hv k st _ Hst Hck) as [_ [?|(_ & _ & ? & _)]]; [by left|by right].
  - intros a b c1 c2 Ha Hb H1 H2. destruct (Hone a c1 Ha H1) as [-> _]. by destruct (Hone b c2 Hb H2) as [-> _].
Qed.

(** What the steps of one call leave alone, with the annotation they may rebuild. *)
Record confined (sys sys' : System) (c : Call) (value : option Annotation) : Prop := {
  c_cache : cache sys' = cache sys;
  c_served : forall k, k <> call_key c -> served sys' !! k = served sys !! k;
  c_reservations : forall k, k <> call_key c -> reservations (node sys') !! k = reservations (node sys) !! k;
  c_pending : forall k, k <> call_key c -> pendingReleases (node sys') !! k = pendingReleases (node sys) !! k;
  c_store : store sys' = written (KeyUID (call_key c)) value (store sys);
  c_value : forall a, value = Some a ->
    rebuilt (node sys) (DPod (CallDecision c)) (KeyContainer (call_key c)) a }.

Lemma confined_touches sys sys' i c value :
  visible sys -> calls sys !! i = Some c -> confined sys sys' c value ->
  (forall j c1, call_key c1 <> call_key c -> calls sys' !! j = Some c1 <-> calls sys !! j = Some c1) ->
  touches (call_key c) sys sys'.
Proof.
  intros Hv Hc [] Hcalls. constructor; try done.
  - rewrite c_store0. intros u q'. apply (written_touch sys (call_key c) (DPod (CallDecision c)) value); try done.
    intros k s Hs Hu Hne Hl. by apply (vis_snapshot _ Hv i c Hc k s).
  - rewrite c_store0. intros u. apply written_gone.
Qed.

Lemma vis_end sys sys' i c value :
  visible sys -> calls sys !! i = Some c -> confined sys sys' c value ->
  calls sys' = delete i (calls sys) -> served sys' !! call_key c = None -> visible sys'.
Proof.
  intros Hv Hc Hcon Hcalls Hs. apply (frame (call_key c) sys); [done| |].
  - eapply confined_touches; [done..|]. rewrite Hcalls. by eapply calls_delete.
  - apply own_gone; [done|]. rewrite Hcalls. intros j c'. by apply only_call.
Qed.

Lemma vis_advance sys sys' i c c' value :
  visible sys -> calls sys !! i = Some c -> confined sys sys' c value ->
  calls sys' = <[i := c']> (calls sys) -> call_key c' = call_key c ->
  DPod (CallDecision c') = DPod (CallDecision c) -> call_ok sys' c' ->
  (forall s, served sys' !! call_key c = Some s -> s <> [] /\ is_Some (served sys !! call_key c)) ->
  (forall s q, ~ unrecorded c' -> served sys' !! call_key c = Some s ->
     store sys' !! KeyUID (call_key c) = Some q -> recorded q (KeyContainer (call_key c)) = Some s) ->
  (forall o, pendingReleases (node sys') !! call_key c = Some o -> is_Some (served sys' !! call_key c) ->
     unrecorded c') ->
  visible sys'.
Proof.
  intros Hv Hc Hcon Hcalls Hk Hp Hok Hs Hdur Hpen.
  assert (touches (call_key c) sys sys') as Ht.
  { eapply confined_touches; [done..|]. rewrite Hcalls. by eapply calls_insert. }
  assert (snapshot_ok sys' c') as Hsn by (eapply snapshot_frame; [done..|by eapply vis_snapshot]).
  destruct (own_advance sys sys' i c c') as (Hone & Ho1 & Ho2); [done..|].
  assert (calls sys' !! i = Some c') as Hi by (rewrite Hcalls; apply lookup_insert_eq).
  apply (frame (call_key c) sys); [done|done|]. constructor; try done.
  - intros s Hsv. destruct (Hs s Hsv) as [_ [s0 Hs0]]. unfold is_listed. rewrite (t_cache _ _ _ Ht).
    destruct (vis_listed _ Hv _ s0 Hs0) as [?|?]; [by left|right]. by apply (t_gone _ _ _ Ht).
  - intros s Hsv Hl. split; [by apply (Hs s)|]. rewrite <- Hk in *. by apply (call_reserved _ _ Hok).
  - intros s q Hsv Hq Hall. apply Hdur; [|done..]. by apply (Hall i c').
  - intros o Ho Hsv. exists i, c'. split_and!; [done|done|]. by eapply Hpen.
Qed.

Lemma vis_answered sys i c :
  visible sys -> calls sys !! i = Some c -> ~ unrecorded c ->
  visible {| node := node sys; store := store sys; cache := cache sys; calls := delete i (calls sys);
             served := served sys |}.
Proof.
  intros Hv Hc Hrec. apply (frame (call_key c) sys); [done| |].
  { eapply (confined_touches _ _ i c None); [done..| |by eapply calls_delete]. by constructor. }
  assert (forall j c1, calls sys !! j = Some c1 -> call_key c1 = call_key c -> ~ unrecorded c1) as Hall.
  { intros j c1 Hj He. assert (j = i) as -> by (by eapply (vis_serial _ Hv)). congruence. }
  pose proof (vis_call _ Hv i c Hc) as [_ _ Hres]. constructor; cbn.
  - apply (vis_listed _ Hv).
  - intros s Hs Hl. split; [|by apply Hres]. destruct Hl as [p Hp]. by destruct (vis_claim _ Hv _ s p Hs Hp).
  - intros s q Hs Hq _. by apply (vis_durable _ Hv (call_key c) s q).
  - intros o Ho Hs. destruct (vis_pending _ Hv _ o Ho Hs) as (j & c1 & Hj & He & Hu). by destruct (Hall j c1).
  - intros j c1 Hj He. by destruct (only_call sys i c j c1).
  - intros a b c1 c2 Ha _ He _. by destruct (only_call sys i c a c1).
Qed.

(** *** The steps of a call *)

Lemma release_other uid container n k :
  k <> key uid container -> reservations (releaseReservation uid container n) !! k = reservations n !! k.
Proof. intros Hk. cbn. by rewrite lookup_delete_ne. Qed.

Lemma vis_refused sys i c n :
  visible sys -> calls sys !! i = Some c -> n = releaseReservation (KeyUID (call_key c)) (KeyContainer (call_key c)) (node sys) ->
  visible {| node := n; store := store sys; cache := cache sys; calls := delete i (calls sys);
             served := delete (call_key c) (served sys) |}.
Proof.
  intros Hv Hc ->. apply (vis_end sys _ i c None); [done|done| |done|apply lookup_delete_eq].
  constructor; [done| |apply release_other|done|done|done]. intros k Hk. by apply lookup_delete_ne.
Qed.

Lemma vis_actuate sys i c reply r n :
  visible sys -> wf_system sys -> calls sys !! i = Some c -> CallPhaseOf c = Decided ->
  actuatePartition (CallDecision c) (CallIDs c) reply (node sys) = (r, n) ->
  visible match r with
          | inl _ => {| node := n; store := store sys; cache := cache sys; calls := delete i (calls sys);
                        served := delete (call_key c) (served sys) |}
          | inr (d, physical) =>
              {| node := n; store := store sys; cache := cache sys;
                 calls := <[i := {| CallDecision := d; CallIDs := CallIDs c; CallPlaces := CallPlaces c;
                                    CallPhaseOf := Actuated physical |}]> (calls sys);
                 served := serve d (served sys) |}
          end.
Proof.
  intros Hv Hw Hc Hph Ha. pose proof (wf_call_status _ (wf_sys_calls _ Hw _ _ Hc)) as Hst.
  destruct (actuate_wf _ _ _ _ _ _ (wf_sys_node _ Hw) Hst Ha) as [_ Hd].
  pose proof (vis_call _ Hv i c Hc) as [Hnm Hsv Hres]. rewrite Hph in Hsv.
  unfold actuatePartition in Ha. case_bool_decide as Hp.
  - injection Ha as <- <-. set (sys' := {| node := node sys; store := _; cache := _; calls := _; served := _ |}).
    assert (served sys' = served sys) as Hsame.
    { apply map_eq. intros k. destruct (decide (k = call_key c)) as [->|]; [|by apply serve_other].
      rewrite Hsv. apply serve_own. }
    apply (vis_advance sys _ i c {| CallDecision := CallDecision c; CallIDs := CallIDs c;
             CallPlaces := CallPlaces c; CallPhaseOf := Actuated None |} None); try done.
    + constructor; try done. intros. by rewrite Hsame.
    + constructor; [done|by rewrite Hsame|]. intros s. by rewrite Hsame; apply Hres.
    + intros s. rewrite Hsame, Hsv. intros Hs. split; [|done]. destruct (DStatus _); [done|]. by injection Hs as <-.
  - destruct reply as [[physical|]|]; injection Ha as <- <-; [|by apply vis_refused..].
    set (d' := with_status _ _) in *. destruct Hd as (_ & _ & _ & _ & _ & _ & Hnil & _).
    apply (vis_advance sys _ i c {| CallDecision := d'; CallIDs := CallIDs c;
             CallPlaces := CallPlaces c; CallPhaseOf := Actuated (Some physical) |} None); try done.
    + constructor; try done; cbn; intros k Hk; [by apply serve_other|by apply reserve_other|by rewrite reserve_pending].
    + constructor; [done|apply serve_own|]. intros s [-> Hs]%(serve_own_Some d') _. by apply reserve_own; apply Hnm || done.
    + intros s [-> Hs]%(serve_own_Some d'). split; [done|]. rewrite Hsv.
      destruct (DStatus (CallDecision c)); [by destruct Hs; apply Hnil|done].
Qed.

Lemma served_nonempty sys c s : call_ok sys c -> served sys !! call_key c = Some s -> s <> [].
Proof.
  intros [_ -> _]. destruct (CallPhaseOf c), (DStatus (CallDecision c)); by intros [= <-] || done.
Qed.

Lemma vis_render sys i c physical ok r n :
  visible sys -> calls sys !! i = Some c -> CallPhaseOf c = Actuated physical ->
  renderPrePatchResponse (CallDecision c) physical (CallPlaces c) ok (node sys) = (r, n) ->
  visible match r with
          | inl _ => {| node := n; store := store sys; cache := cache sys; calls := delete i (calls sys);
                        served := delete (call_key c) (served sys) |}
          | inr rendered =>
              {| node := n; store := store sys; cache := cache sys;
                 calls := <[i := advance (Rendered rendered) c]> (calls sys); served := served sys |}
          end.
Proof.
  intros Hv Hc Hph Hr. pose proof (vis_call _ Hv i c Hc) as Hok. pose proof Hok as [Hnm Hsv Hres]. rewrite Hph in Hsv.
  assert (forall rendered, visible {| node := node sys; store := store sys; cache := cache sys;
    calls := <[i := advance (Rendered rendered) c]> (calls sys); served := served sys |}) as Hadv.
  { intros rendered. apply (vis_advance sys _ i c (advance (Rendered rendered) c) None); try done.
    cbn. intros s Hs. split; [by eapply served_nonempty|done]. }
  unfold renderPrePatchResponse in Hr. destruct physical; [injection Hr as <- <-; apply Hadv|].
  destruct (CallPlaces c); [destruct ok|]; injection Hr as <- <-; [apply Hadv|by apply vis_refused|apply Hadv].
Qed.

Lemma patch_acknowledged n pod container status ids w n' value :
  patchAllocatingPod n pod container status ids w = (n', value, true) ->
  n' = dropPendingRelease (key (PodUID pod) container) n /\ is_Some value /\ landed w = true.
Proof.
  unfold patchAllocatingPod. destruct (patch_value _ _ _ _ _); [|done]. destruct w; try done.
  cbn. by intros [= <- <-].
Qed.

Lemma patch_refused n pod container status ids w n' value :
  patchAllocatingPod n pod container status ids w = (n', value, false) -> n' = n.
Proof. unfold patchAllocatingPod. destruct (patch_value _ _ _ _ _); [|by intros [= <-]]. destruct w; by intros [= <-]. Qed.

Lemma vis_persist sys i c rendered w n value err :
  visible sys -> calls sys !! i = Some c -> CallPhaseOf c = Rendered rendered ->
  persistAllocation (CallDecision c) (CallIDs c) w (node sys) = (n, value, err) ->
  visible {| node := n; store := written (PodUID (DPod (CallDecision c))) value (store sys); cache := cache sys;
             calls := match err with
                      | Some _ => delete i (calls sys)
                      | None => <[i := advance (Recording rendered) c]> (calls sys)
                      end;
             served := match err with
                       | Some _ => delete (call_key c) (served sys)
                       | None => served sys
                       end |}.
Proof.
  intros Hv Hc Hph Hp. pose proof (vis_call _ Hv i c Hc) as Hok. pose proof Hok as [Hnm Hsv Hres]. rewrite Hph in Hsv.
  unfold persistAllocation in Hp. destruct (patchAllocatingPod _ _ _ _ _ _) as [[n1 v] ok] eqn:Hpatch.
  assert (forall a, v = Some a -> rebuilt (node sys) (DPod (CallDecision c)) (KeyContainer (call_key c)) a) as Hreb.
  { intros a ->. by apply patch_rebuilt in Hpatch as [? _]. }
  destruct ok; injection Hp as <- <- <-.
  - pose proof Hpatch as [-> [[a ->] Hw]]%patch_acknowledged.
    apply (vis_advance sys _ i c (advance (Recording rendered) c) (Some a)); try done.
    + constructor; try done. intros k Hk. cbn. by apply lookup_delete_ne.
    + cbn. intros s Hs. split; [by eapply served_nonempty|done].
    + cbn. intros s q _ Hs. rewrite lookup_alter_eq. intros (q0 & Hq0 & ->)%fmap_Some.
      apply patch_rebuilt in Hpatch as [_ Hrec]. rewrite Hsv in Hs.
      destruct (DStatus (CallDecision c)) eqn:E; [done|]. injection Hs as <-. by apply Hrec.
    + cbn. intros o. by rewrite lookup_delete_eq.
  - apply patch_refused in Hpatch as ->.
    apply (vis_end sys _ i c v); [done|done| |done|apply lookup_delete_eq].
    constructor; [done| |apply release_other|done|done|done]. intros k Hk. by apply lookup_delete_ne.
Qed.

Lemma vis_release sys i c :
  visible sys -> calls sys !! i = Some c ->
  visible {| node := settle_reservation (CallDecision c) (node sys); store := store sys; cache := cache sys;
             calls := <[i := advance Releasing c]> (calls sys); served := delete (call_key c) (served sys) |}.
Proof.
  intros Hv Hc. pose proof (vis_call _ Hv i c Hc) as [Hnm _ _].
  apply (vis_advance sys _ i c (advance Releasing c) None); try done; cbn.
  - constructor; try done; intros k Hk; [by apply lookup_delete_ne|by apply settle_other|].
    apply (f_equal (lookup k)), settle_pending.
  - constructor; [done|apply lookup_delete_eq|]. cbn. intros s. by rewrite lookup_delete_eq.
  - intros s. by rewrite lookup_delete_eq.
  - intros s q _. by rewrite lookup_delete_eq.
  - intros o _. rewrite lookup_delete_eq. by intros [].
Qed.

Lemma unpatch_node n pod container prior w n' value ok :
  unpatchAllocatingPod n pod container prior w = (n', value, ok) ->
  reservations n' = reservations n /\
  (forall k, k <> key (PodUID pod) container -> pendingReleases n' !! k = pendingReleases n !! k).
Proof.
  unfold unpatchAllocatingPod. destruct (unpatch_value _ _ _ _); [|by intros [= <- _ _]]. intros [= <- _ _].
  destruct (acknowledged w); [done|]. split; [apply record_reservations|]. intros k Hk. by apply record_other.
Qed.

Lemma vis_unpatch sys i c w n value ok :
  visible sys -> calls sys !! i = Some c -> CallPhaseOf c = Releasing ->
  unpatch_refused (CallDecision c) w (node sys) = (n, value, ok) ->
  visible {| node := n; store := written (PodUID (DPod (CallDecision c))) value (store sys); cache := cache sys;
             calls := delete i (calls sys); served := served sys |}.
Proof.
  intros Hv Hc Hph Hu. pose proof (vis_call _ Hv i c Hc) as [_ Hsv _]. rewrite Hph in Hsv.
  apply (vis_end sys _ i c value); [done|done| |done|done].
  pose proof (unpatch_node _ _ _ _ _ _ _ _ Hu) as [Hr Hp].
  constructor; try done; cbn; [by rewrite Hr|]. intros a ->. by eapply unpatch_rebuilt.
Qed.

(** Calls are fine when the claims, the reservations and the listing are as they were. *)
Lemma calls_kept sys sys' j c :
  visible sys -> calls sys !! j = Some c -> served sys' = served sys ->
  (forall k, is_Some (served sys !! k) -> is_listed sys' k ->
     is_listed sys k /\ reservations (node sys') !! k = reservations (node sys) !! k) ->
  call_ok sys' c /\ snapshot_ok sys' c.
Proof.
  intros Hv Hj Hs Hl. destruct (vis_call _ Hv j c Hj) as [H1 H2 H3]. split.
  - constructor; [done|by rewrite Hs|]. rewrite Hs. intros s Hsv Hli. destruct (Hl _ ltac:(by eexists) Hli) as [Hl' Hr].
    unfold reserved_as. rewrite Hr. by apply H3.
  - intros k s Hsv Hu Hne Hli. rewrite Hs in Hsv. destruct (Hl _ ltac:(by eexists) Hli) as [Hl' Hr].
    unfold reserved_as. rewrite Hr. by apply (vis_snapshot _ Hv j c Hj k s).
Qed.

Lemma vis_retry sys k prior pod w n value ok :
  visible sys -> pendingReleases (node sys) !! k = Some prior -> cache sys !! KeyUID k = Some pod ->
  unpatchAllocatingPod (node sys) pod (KeyContainer k) prior w = (n, value, ok) ->
  visible {| node := if ok : bool then dropPendingRelease k n else n;
             store := written (KeyUID k) value (store sys);
             cache := cache sys; calls := calls sys; served := served sys |}.
Proof.
  intros Hv Hk Hpod Hu. pose proof (unpatch_node _ _ _ _ _ _ _ _ Hu) as [Hr Hp].
  destruct (vis_cache _ Hv _ _ Hpod) as (Huid & _). rewrite Huid, key_eta in Hp.
  set (n' := if ok : bool then dropPendingRelease k n else n).
  assert (reservations n' = reservations (node sys)) as Hr' by (unfold n'; by destruct ok).
  assert (is_listed sys k) as Hli by (by eexists).
  apply (frame k sys); [done| |].
  - constructor; cbn; [done|done|by rewrite Hr'| |done| |intros; by apply written_gone].
    + intros j Hj. rewrite <- (Hp j Hj). unfold n'. destruct ok; [|done]. by apply lookup_delete_ne.
    + intros u q'. apply (written_touch sys k pod); [done|done| |].
      * intros a ->. by eapply unpatch_rebuilt.
      * intros j s Hs Hju _ _. rewrite <- Hju in Hpod.
        destruct (vis_claim _ Hv j s pod Hs Hpod) as [_ [?|(_ & _ & ? & _)]]; [by left|by right].
  - constructor; cbn.
    + intros s _. by left.
    + intros s Hs _. destruct (vis_claim _ Hv k s pod Hs Hpod) as [? [?|(_ & Hno & _)]]; [|congruence].
      split; [done|]. unfold reserved_as. by rewrite Hr'.
    + intros s q Hs _ Hall. destruct (vis_pending _ Hv k prior Hk) as (j & c & Hj & He & Hc); [by eexists|].
      by destruct (Hall j c).
    + intros o _ Hs. by apply (vis_pending _ Hv k prior).
    + intros j c Hj _. apply (calls_kept sys _ j); [done|done|done|]. cbn. intros k1 _ Hk1. by rewrite Hr'.
    + intros a b c1 c2 Ha Hb H1 H2. eapply (vis_serial _ Hv); [done..|congruence].
Qed.

(** *** The surroundings *)

Lemma vis_node sys n :
  visible sys -> (forall k, is_listed sys k -> reservations n !! k = reservations (node sys) !! k) ->
  pendingReleases n ⊆ pendingReleases (node sys) ->
  visible {| node := n; store := store sys; cache := cache sys; calls := calls sys; served := served sys |}.
Proof.
  intros Hv Hr Hp.
  assert (forall k, is_listed sys k -> is_listed sys k /\ reservations n !! k = reservations (node sys) !! k) as Hk
    by (intros k Hl; split; [done|by apply Hr]).
  constructor; cbn; try apply Hv.
  - intros k s p Hs Hc. unfold reserved_as. rewrite Hr by (by eexists).
    destruct (vis_claim _ Hv k s p Hs Hc) as [? [?|(?&Hno&?&?)]]; split; [done|by left|done|right].
    split_and!; [done| |done|done]. by apply (lookup_weaken_None _ _ _ Hno).
  - intros k o Ho. apply (vis_pending _ Hv k o). by eapply lookup_weaken.
  - intros j c Hj. apply (calls_kept sys _ j); try done. intros k _. apply Hk.
  - intros j c Hj. apply (calls_kept sys _ j); try done. intros k _. apply Hk.
Qed.

Lemma vis_sync sys uid :
  visible sys ->
  visible {| node := node sys; store := store sys;
             cache := partial_alter (fun _ => store sys !! uid) uid (cache sys);
             calls := calls sys; served := served sys |}.
Proof.
  intros Hv. set (sys' := {| node := _; store := _; cache := _; calls := _; served := _ |}).
  assert (forall u p, cache sys' !! u = Some p -> cache sys !! u = Some p \/ store sys !! u = Some p) as Hfrom.
  { intros u p. cbn. destruct (decide (u = uid)) as [->|]; [rewrite lookup_partial_alter_eq; by right|].
    rewrite lookup_partial_alter_ne by done. by left. }
  assert (forall k s, served sys !! k = Some s -> is_listed sys' k -> is_listed sys k) as Hli.
  { intros k s Hs [p [?|Hst]%Hfrom]; [by eexists|]. destruct (vis_listed _ Hv k s Hs); [done|congruence]. }
  assert (forall j c, calls sys !! j = Some c -> call_ok sys' c /\ snapshot_ok sys' c) as Hcalls.
  { intros j c Hj. apply (calls_kept sys _ j); try done. intros k [s Hs] Hl. split; [by eapply Hli|done]. }
  constructor; try apply Hv.
  - intros u p [?|?]%Hfrom; [by apply (vis_cache _ Hv)|by apply (vis_store _ Hv)].
  - intros u p q [Hp|Hp]%Hfrom Hq; [by eapply (vis_terminal _ Hv)|cbn in Hq; congruence].
  - intros k s Hs. unfold is_listed. cbn. destruct (decide (KeyUID k = uid)) as [->|Hne].
    + rewrite lookup_partial_alter_eq. destruct (store sys !! uid); [left; by eexists|by right].
    + rewrite lookup_partial_alter_ne by done. by apply (vis_listed _ Hv k s).
  - intros k s p Hs Hp. destruct (Hli k s Hs) as [p0 Hp0]; [by eexists|].
    destruct (vis_claim _ Hv k s p0 Hs Hp0) as [Hn [?|(Hr & Hpd & Hrec & Hc)]]; split; [done|by left|done|right].
    split_and!; try done. destruct (Hfrom _ _ Hp) as [?|Hst]; [congruence|].
    apply (vis_durable _ Hv k); [done..|]. intros j c Hj He. by destruct (Hc j c).
  - intros j c Hj. by apply (Hcalls j).
  - intros j c Hj. by apply (Hcalls j).
Qed.

Lemma vis_stored sys st :
  visible sys ->
  (forall u q', st !! u = Some q' -> pod_ok u q' /\
     (forall p, cache sys !! u = Some p -> podTerminated p = true -> podTerminated q' = true) /\
     (forall k, KeyUID k = u -> is_Some (served sys !! k) -> exists q, store sys !! u = Some q /\
        AllocationAnnotation q' = AllocationAnnotation q)) ->
  visible {| node := node sys; store := st; cache := cache sys; calls := calls sys; served := served sys |}.
Proof.
  intros Hv Hst. constructor; cbn; try apply Hv.
  - intros u q' Hq. by destruct (Hst u q' Hq).
  - intros u p q' Hp Hq. destruct (Hst u q' Hq) as (_ & Ht & _). by apply Ht.
  - intros k s Hs. destruct (vis_listed _ Hv k s Hs) as [?|Hno]; [by left|right].
    destruct (st !! KeyUID k) as [q'|] eqn:Hq; [|done]. destruct (Hst _ _ Hq) as (_ & _ & Hrec).
    destruct (Hrec k) as (q & Hq0 & _); [done|by eexists|]. congruence.
  - intros k s q' Hs Hq Hall. destruct (Hst _ _ Hq) as (_ & _ & Hrec).
    destruct (Hrec k) as (q & Hq0 & He); [done|by eexists|].
    unfold recorded, recorded_claim, pod_allocations. rewrite He. by apply (vis_durable _ Hv k s q).
  - intros j c Hj. by apply (calls_kept sys _ j).
Qed.

Lemma recorded_nonempty p name s : recorded p name = Some s -> s <> [].
Proof.
  unfold recorded, recorded_claim. destruct (pod_allocations p) as [al|]; [|done].
  destruct (al !! name) as [h|]; [|done]. destruct (CaDevices h) eqn:E; [done|]. cbn. rewrite E. by intros [= <-].
Qed.

Lemma vis_restart sys :
  visible sys ->
  visible {| node := empty_node; store := store sys; cache := store sys; calls := ∅;
             served := filter (fun ks => map_Forall (fun _ c => call_key c <> ks.1) (calls sys)) (served sys) |}.
Proof.
  intros Hv. set (f := filter _ _).
  assert (forall k s q, f !! k = Some s -> store sys !! KeyUID k = Some q -> recorded q (KeyContainer k) = Some s) as Hd.
  { intros k s q [Hs Hc]%map_lookup_filter_Some Hq. apply (vis_durable _ Hv k); [done..|].
    intros j c Hj He. by destruct (Hc j c Hj). }
  constructor; cbn; try apply Hv; try done.
  - intros u p q Hp Hq. congruence.
  - intros k s Hs. unfold is_listed. cbn. destruct (store sys !! KeyUID k); [left; by eexists|by right].
  - intros k s p Hs Hp. specialize (Hd k s p Hs Hp). split; [by eapply recorded_nonempty|]. right. by split_and!.
  - intros k s q Hs Hq _. by apply Hd.
Qed.

Lemma vis_step sys sys' : wf_system sys -> visible sys -> step sys sys' -> visible sys'.
Proof.
  intros Hw Hv Hs. destruct Hs.
  - apply decide_request_decided in H4; [|done..]. by eapply vis_decide.
  - by eapply vis_actuate.
  - by eapply vis_render.
  - by eapply vis_persist.
  - destruct (rendered || ok); [|by apply vis_release]. apply (vis_answered _ i c); [done|done|].
    unfold unrecorded. rewrite H0. tauto.
  - by eapply vis_unpatch.
  - by eapply vis_retry.
  - apply vis_node; [done|done|]. apply delete_subseteq.
  - apply vis_node; [done| |done]. intros k [p Hp]. destruct (vis_cache _ Hv _ _ Hp) as (Hu & _).
    unfold pruneVisibilityGrants, pruneReservations. cbn. rewrite map_lookup_filter.
    destruct (reservations (node sys) !! k); [|done]. cbn. rewrite option_guard_True; [done|].
    rewrite <- Hu. by apply list_elem_of_fmap_2, (listed_in _ (KeyUID k)).
  - by apply vis_node.
  - by apply vis_sync.
  - apply vis_stored; [done|]. intros u q' [[<- <-]|[Hne Hq]]%lookup_insert_Some.
    + destruct H as (? & ? & ? & ?). split_and!; [done|intros p'; congruence|]. intros k Hk Hsv. by destruct (H2 k).
    + split_and!; [by apply (vis_store _ Hv)|intros p' Hp'; by apply (vis_terminal _ Hv u p')|eauto].
  - apply vis_stored; [done|]. intros u q' [[<- <-]|[Hne Hq]]%lookup_insert_Some.
    + split_and!; [exact (vis_store _ Hv uid p H)| |eauto]. intros p' Hp' Ht. by apply H0, (vis_terminal _ Hv uid p').
    + split_and!; [by apply (vis_store _ Hv)|intros p' Hp'; by apply (vis_terminal _ Hv u p')|eauto].
  - apply vis_stored; [done|]. intros u q' [Hne Hq]%lookup_delete_Some.
    split_and!; [by apply (vis_store _ Hv)|intros p' Hp'; by apply (vis_terminal _ Hv u p')|eauto].
  - by apply vis_restart.
Qed.

End System.
