(* ===== verification/PluginCapacity.v ===== *)
(** * Device plugin: slices never overcommit an accelerator

    The capacity invariant on the transition system of PluginSafety.v.  [in_use]
    collects, for one accelerator, the sliced units of every container the plugin
    stands for whose Pod exists; over every reachable system their sum stays
    within one accelerator and their number within the slice count of a
    hardware-capped one, whatever calls interleave, writes fail or restarts
    happen. *)

From stdpp Require Import prelude gmap strings list sorting relations.
From S2P Require Import Prelude Device PluginRecords PluginLedger PluginNode PluginSlices PluginAllocate.
From S2P Require Import PluginDecision PluginSafety.

(** What the served containers of [pods] hold of one accelerator. *)
Definition held_slice (released : bool) (pods : gmap string Pod) (res : Resource) (k : ReservationKey)
    (s : DevicesStatus) : option Z :=
  match pods !! KeyUID k with
  | Some p => slice_of (heldAllocation released p s) res
  | None => None
  end.

Definition holding (released : bool) (pods : gmap string Pod) (sys : System) (res : Resource)
    : gmap ReservationKey Z :=
  map_imap (held_slice released pods res) (served sys).

(** By the Pods the API server has. *)
Definition in_use (released : bool) (sys : System) (res : Resource) : gmap ReservationKey Z :=
  holding released (store sys) sys res.

(** By the Pods the plugin sees. *)
Definition in_view (released : bool) (sys : System) (res : Resource) : gmap ReservationKey Z :=
  holding released (cache sys) sys res.

(** A node that has served nothing yet. *)
Definition initial (sys : System) : Prop :=
  node sys = empty_node /\ calls sys = ∅ /\ served sys = ∅ /\ cache sys = store sys /\
  forall u p, store sys !! u = Some p -> PodUID p = u /\ new_pod p.

Lemma holding_Some released pods sys res k u :
  holding released pods sys res !! k = Some u <->
  exists s p, served sys !! k = Some s /\ pods !! KeyUID k = Some p /\
    slice_of (heldAllocation released p s) res = Some u.
Proof.
  unfold holding, held_slice. rewrite map_lookup_imap. destruct (served sys !! k) as [s|]; cbn.
  - destruct (pods !! KeyUID k) as [p|]; naive_solver.
  - naive_solver.
Qed.

Lemma held_live released p s : podTerminated p = false -> heldAllocation released p s = s.
Proof. intros Hp. unfold heldAllocation. by rewrite Hp. Qed.

Lemma held_terminal released p q s :
  (podTerminated p = true -> podTerminated q = true) ->
  cards (heldAllocation released q s) `sublist_of` cards (heldAllocation released p s).
Proof.
  intros Hpq. destruct (podTerminated p) eqn:Hp.
  - specialize (Hpq eq_refl). unfold heldAllocation. by rewrite Hp, Hpq.
  - rewrite (held_live released p s) by done. apply held_sublist.
Qed.

Lemma held_wf released p s : wf_status s -> wf_status (heldAllocation released p s).
Proof. apply wf_sublist, held_sublist. Qed.

Lemma slice_of_terminal released p q s res u :
  wf_status s -> (podTerminated p = true -> podTerminated q = true) ->
  slice_of (heldAllocation released q s) res = Some u -> slice_of (heldAllocation released p s) res = Some u.
Proof. intros Hw Hpq. apply slice_of_sublist; [by apply held_terminal|by apply held_wf]. Qed.

Section Capacity.
Context `{Tables : NameTables} (cfg : Settings) (capability : Resource -> option AcceleratorStatus).
Context (Hsort : forall l, ByCreation cfg l ≡ₚ l) (Hgate : slicedAllocateGateOff cfg = false).

Abbreviation released := (TerminatedReleased cfg).

(** An accelerator holds the units, and as many slices as its hardware cap. *)
Definition within (res : Resource) (m : gmap ReservationKey Z) : Prop :=
  sum_map m <= ResourceMaxUnits /\
  (forall status, capability res = Some status -> IsLogicallySliceable status = true ->
     is_i32 (LogicalCount status) -> Z.of_nat (size m) <= LogicalCount status).

Lemma within_subset res m1 m2 :
  m1 ⊆ m2 -> (forall k u, m2 !! k = Some u -> 0 <= u) -> within res m2 -> within res m1.
Proof.
  intros Hs Hp [Hu Hc]. pose proof (sum_map_subset m1 m2 Hs Hp) as Hm. pose proof (map_subseteq_size _ _ Hs) as Hn.
  split; [lia|]. intros status H1 H2 H3. specialize (Hc status H1 H2 H3). lia.
Qed.

Lemma in_view_bounds sys res k u :
  wf_system sys -> in_view released sys res !! k = Some u -> 0 <= u <= ResourceMaxUnits.
Proof.
  intros Hw (s & p & Hs & _ & Hu)%holding_Some. eapply slice_of_bounds; [|done]. apply held_wf.
  by eapply wf_sys_served.
Qed.

Lemma listed_nodup sys : visible sys -> NoDup (PodUID <$> listed sys).
Proof.
  intros Hv. assert (PodUID <$> listed sys = (map_to_list (cache sys)).*1) as ->.
  { unfold listed. rewrite <- list_fmap_compose. apply list_fmap_ext. intros i [u p] Hi. cbn.
    apply list_elem_of_lookup_2, elem_of_map_to_list in Hi. by destruct (vis_cache _ Hv u p Hi). }
  apply NoDup_fst_map_to_list.
Qed.

Lemma reserved_claimed n pod k s :
  reserved_as n k s -> KeyUID k = PodUID pod -> s <> [] ->
  claimed released n pod (KeyContainer k) = heldAllocation released pod s /\ KeyContainer k ∈ pod_holders n pod.
Proof.
  intros (r & Hr & <-) Hu Hs.
  assert (reservationsFor n (PodUID pod) !! KeyContainer k = Some r) as Hf
    by (by rewrite reservationsFor_lookup, <- Hu, key_eta).
  split.
  - unfold claimed, priorClaimOf. rewrite Hf.
    destruct (Nat.eqb_spec (length (ResAllocated r)) 0) as [?%nil_length_inv|]; done.
  - unfold pod_holders. apply elem_of_union_r, elem_of_dom. by eexists.
Qed.

Lemma recorded_claimed n pod k s :
  reservations n !! k = None -> pendingReleases n !! k = None -> recorded pod (KeyContainer k) = Some s ->
  KeyUID k = PodUID pod ->
  claimed released n pod (KeyContainer k) = heldAllocation released pod s /\ KeyContainer k ∈ pod_holders n pod.
Proof.
  intros Hr Hp Hrec Hu. unfold recorded in Hrec. destruct (recorded_claim pod _) as [c|] eqn:Hc; [|done].
  injection Hrec as <-. split.
  - unfold claimed, priorClaimOf. rewrite reservationsFor_lookup, <- Hu, key_eta, Hr.
    unfold peekPendingRelease. by rewrite Hp, Hc.
  - unfold recorded_claim in Hc. unfold pod_holders. destruct (pod_allocations pod) as [al|]; [|done].
    apply elem_of_union_l, elem_of_dom. cbn. by destruct (al !! KeyContainer k).
Qed.

(** What is served is what the decision's occupancy counts. *)
Lemma view_occupied sys res k u :
  visible sys -> in_view released sys res !! k = Some u ->
  holders_on (slicedOccupancy released (node sys) (listed sys)) res !! k = Some u.
Proof.
  intros Hv (s & p & Hs & Hp & Hu)%holding_Some. destruct (vis_cache _ Hv _ _ Hp) as (Hpu & _).
  rewrite (slicedOccupancy_lookup _ _ _ _ p) by (by apply listed_nodup || by eapply listed_in || done).
  destruct (vis_claim _ Hv k s p Hs Hp) as [Hn Hc].
  assert (claimed released (node sys) p (KeyContainer k) = heldAllocation released p s /\
          KeyContainer k ∈ pod_holders (node sys) p) as [-> Hin].
  { destruct Hc as [?|(?&?&?&_)]; [by apply reserved_claimed|by apply recorded_claimed]. }
  by rewrite bool_decide_true.
Qed.

Lemma occupied_bounds sys res k u :
  wf_system sys -> visible sys ->
  holders_on (slicedOccupancy released (node sys) (listed sys)) res !! k = Some u -> 0 <= u <= ResourceMaxUnits.
Proof.
  intros Hw Hv Hk. destruct (cache sys !! KeyUID k) as [p|] eqn:Hp.
  - destruct (vis_cache _ Hv _ _ Hp) as (Hpu & _).
    rewrite (slicedOccupancy_lookup _ _ _ _ p) in Hk by (by apply listed_nodup || by eapply listed_in || done).
    case_bool_decide; [|done]. apply slice_of_bounds in Hk; [done|]. unfold claimed.
    destruct (priorClaimOf _ _ _) as [c|] eqn:Hc; [|apply wf_nil]. apply held_wf.
    eapply wf_prior; [apply Hw|by eapply wf_sys_cache|done].
  - rewrite slicedOccupancy_unlisted in Hk; [done|by apply listed_nodup|].
    intros pod [v Hin]%listed_elem Hu. destruct (vis_cache _ Hv _ _ Hin) as (Hpu & _). congruence.
Qed.

(** *** A decision keeps within the accelerator *)

Lemma view_served sys sys' res :
  cache sys' = cache sys -> served sys' ⊆ served sys -> in_view released sys' res ⊆ in_view released sys res.
Proof.
  intros Hc Hs. apply map_subseteq_spec. intros k u (s & p & Hk & Hp & Hu)%holding_Some. apply holding_Some.
  rewrite Hc in Hp. exists s, p. split; [|done]. by eapply lookup_weaken.
Qed.

Lemma serve_view sys sys' d res :
  cache sys' = cache sys -> served sys' = serve d (served sys) -> cache sys !! PodUID (DPod d) = Some (DPod d) ->
  podTerminated (DPod d) = false ->
  in_view released sys' res !! decision_key d = slice_of (DStatus d) res /\
  delete (decision_key d) (in_view released sys' res) = delete (decision_key d) (in_view released sys res).
Proof.
  intros Hc Hs Hp Ht. split.
  - unfold in_view, holding, held_slice. rewrite map_lookup_imap, Hs, serve_own, Hc. cbn [decision_key KeyUID key].
    destruct (DStatus d) as [|g l] eqn:E; [done|]. cbn [length Nat.eqb mbind option_bind].
    rewrite Hp, held_live by done. done.
  - apply map_eq. intros k. destruct (decide (k = decision_key d)) as [->|Hk]; [by rewrite !lookup_delete_eq|].
    rewrite !lookup_delete_ne by done. unfold in_view, holding. by rewrite !map_lookup_imap, Hs, serve_other, Hc.
Qed.

Lemma within_decide sys sys' s devs ids d n res :
  wf_system sys -> visible sys -> (forall r, capabilityOf devs r = capability r) ->
  (forall r, (size (holders_on (slicedOccupancy released (node sys) (listed sys)) r) <= 1342)%nat) ->
  decided cfg s {| SnapDevices := devs; SnapPods := listed sys |} ids (node sys) d n ->
  cache sys' = cache sys -> served sys' = serve d (served sys) ->
  within res (in_view released sys res) -> within res (in_view released sys' res).
Proof.
  intros Hw Hv Hcap Hsz Hd Hca Hse Hin. destruct Hd. apply listed_elem in decided_pod as [v Hpod].
  destruct (vis_cache _ Hv _ _ Hpod) as (<- & _).
  assert (podTerminated (DPod d) = false) as Ht by (unfold podTerminated; by destruct decided_phase as [-> | ->]).
  destruct (serve_view sys sys' d res Hca Hse Hpod Ht) as [Hown Hrest]. set (k := decision_key d) in *.
  assert (forall j u, in_view released sys res !! j = Some u -> 0 <= u) as Hpos
    by (intros j u Hj%in_view_bounds; [lia|done]).
  destruct (slice_of (DStatus d) res) as [u|] eqn:Hu.
  2:{ apply (within_subset _ _ (in_view released sys res)); [|done|done].
      rewrite <- (delete_id (in_view released sys' res) k Hown), Hrest. apply delete_subseteq. }
  assert (AllocationMode s = ModeSliced) as Hm.
  { apply slice_of_Some in Hu as (a & Ha & Hm & _); [|done]. rewrite list.Forall_forall in decided_mode.
    by rewrite <- (decided_mode _ Ha). }
  set (o := slicedOccupancy released (node sys) (listed sys)) in *.
  assert (bounded_holders (delete k (holders_on o res))) as Hb.
  { split; [intros j w [_ Hj]%lookup_delete_Some; by eapply occupied_bounds|].
    etransitivity; [|apply (Hsz res)]. apply map_subseteq_size, delete_subseteq. }
  apply (shortage_None devs o k res u Hb) in decided_room as [Hneed Hslots]; [|done..].
  assert (delete k (in_view released sys res) ⊆ delete k (holders_on o res)) as Hsub.
  { apply map_subseteq_spec. intros j w [Hj Hl]%lookup_delete_Some. apply lookup_delete_Some. split; [done|].
    by apply view_occupied. }
  pose proof (sum_map_subset _ _ Hsub (fun j w Hj => proj1 (proj1 Hb j w Hj))) as Hs1.
  pose proof (sum_map_subset _ _ (delete_subseteq (in_view released sys res) k) Hpos) as Hs2.
  pose proof (map_subseteq_size _ _ Hsub) as Hn. pose proof (slice_of_bounds _ _ _ decided_wf Hu) as Hub.
  destruct Hin as [Hsum _]. split.
  - rewrite (sum_map_delete _ k u Hown), Hrest. lia.
  - intros status Hst Hl Hi. rewrite <- Hcap in Hst. specialize (Hslots status Hst Hl Hi).
    rewrite <- (insert_delete_id _ k u Hown), map_size_insert_None by apply lookup_delete_eq. rewrite Hrest. lia.
Qed.

(** *** Every other step only gives back *)

Lemma actuate_view sys i c reply d physical n res :
  wf_system sys -> visible sys -> calls sys !! i = Some c -> CallPhaseOf c = Decided ->
  actuatePartition (CallDecision c) (CallIDs c) reply (node sys) = (inr (d, physical), n) ->
  forall sys', cache sys' = cache sys -> served sys' = serve d (served sys) ->
  in_view released sys' res ⊆ in_view released sys res.
Proof.
  intros Hw Hv Hc Hph Ha sys' Hca Hse. destruct (wf_sys_calls _ Hw _ _ Hc) as [Hst _ _ Hprof].
  destruct (vis_call _ Hv _ _ Hc) as [_ Hsv _]. rewrite Hph in Hsv.
  destruct (actuate_wf _ _ _ _ _ _ (wf_sys_node _ Hw) Hst Ha) as [_ (Hd & Hpod & Hctr & _ & _ & Hsame & _ & HP)].
  assert (call_key c = decision_key d) as Hk by (unfold call_key, decision_key; by rewrite Hpod, Hctr).
  apply map_subseteq_spec. intros k u (s & p & Hs & Hp & Hu)%holding_Some. apply holding_Some.
  rewrite Hca in Hp. rewrite Hse in Hs. destruct (decide (k = decision_key d)) as [->|Hne].
  2:{ rewrite serve_other in Hs by done. eauto 10. }
  destruct (decide (DProfile (CallDecision c) = "")) as [Hp0|Hp0].
  - destruct (Hsame Hp0) as [-> _]. exists s, p. split; [|done]. rewrite serve_own in Hs. rewrite <- Hk, Hsv. exact Hs.
  - apply serve_own_Some in Hs as [-> _]. exfalso.
    apply slice_of_Some in Hu as (a & Hin & Hm & _); [|by apply held_wf].
    specialize (HP (fun m => m = ModePartitioned) (Hprof Hp0)). rewrite list.Forall_forall in HP.
    specialize (HP _ (elem_of_sublist _ _ _ Hin (held_sublist _ _ _))). cbn in HP. congruence.
Qed.

Lemma sync_view sys uid res :
  wf_system sys -> visible sys ->
  in_view released {| node := node sys; store := store sys;
                      cache := partial_alter (fun _ => store sys !! uid) uid (cache sys);
                      calls := calls sys; served := served sys |} res ⊆ in_view released sys res.
Proof.
  intros Hw Hv. apply map_subseteq_spec. intros k u (s & p & Hs & Hp & Hu)%holding_Some. cbn in Hs, Hp.
  apply holding_Some. destruct (decide (KeyUID k = uid)) as [He|He].
  2:{ rewrite lookup_partial_alter_ne in Hp by done. eauto. }
  rewrite He, lookup_partial_alter_eq in Hp. rewrite <- He in Hp.
  destruct (vis_listed _ Hv k s Hs) as [[p0 Hp0]|Hno]; [|congruence]. exists s, p0. split_and!; [done..|].
  eapply slice_of_terminal; [by eapply wf_sys_served| |done]. by apply (vis_terminal _ Hv (KeyUID k)).
Qed.

Lemma use_in_view sys res :
  wf_system sys -> visible sys ->
  in_use released sys res ⊆ in_view released sys res.
Proof.
  intros Hw Hv. apply map_subseteq_spec. intros k u (s & q & Hs & Hq & Hu)%holding_Some. apply holding_Some.
  destruct (vis_listed _ Hv k s Hs) as [[p Hp]|Hno]; [|congruence]. exists s, p. split_and!; [done..|].
  eapply slice_of_terminal; [by eapply wf_sys_served| |done]. by apply (vis_terminal _ Hv (KeyUID k)).
Qed.

(** ** Reachable systems *)

Record safe (sys : System) : Prop := {
  safe_wf : wf_system sys;
  safe_visible : visible sys;
  safe_within : forall res, within res (in_view released sys res) }.

Lemma shrinks_within sys sys' :
  wf_system sys -> (forall res, within res (in_view released sys res)) ->
  (forall res, in_view released sys' res ⊆ in_view released sys res) ->
  forall res, within res (in_view released sys' res).
Proof.
  intros Hw Hin Hs res. apply (within_subset _ _ _ (Hs res)); [|done].
  intros k u Hk%in_view_bounds; [lia|done].
Qed.

Lemma step_within sys sys' :
  wf_system sys -> visible sys -> step cfg capability sys sys' ->
  (forall res, within res (in_view released sys res)) -> forall res, within res (in_view released sys' res).
Proof.
  intros Hw Hv Hs Hin. destruct Hs; [|apply (shrinks_within sys); [done|done|intros res; try by apply view_served]..].
  - intros res. apply decide_request_decided in H4; [|done..]. by eapply within_decide.
  - destruct r as [e|[d physical]]; [apply view_served; [done|apply delete_subseteq]|]. by eapply actuate_view.
  - destruct r; apply view_served; [done|apply delete_subseteq|done|done].
  - apply view_served; [done|]. destruct err; [apply delete_subseteq|done].
  - destruct (rendered || ok); apply view_served; [done|done|done|apply delete_subseteq].
  - by apply sync_view.
  - etransitivity; [|by apply use_in_view]. apply map_subseteq_spec.
    intros k u (s & p & [Hs _]%map_lookup_filter_Some & Hp & Hu)%holding_Some. apply holding_Some. eauto.
Qed.

Lemma safe_step sys sys' : safe sys -> step cfg capability sys sys' -> safe sys'.
Proof.
  intros [Hw Hv Hin] Hs. constructor; [by eapply wf_step|by eapply vis_step|by eapply step_within].
Qed.

Lemma initial_visible sys : initial sys -> wf_system sys /\ visible sys.
Proof.
  intros (Hn & Hc & Hs & Hca & Hp).
  assert (forall u p, store sys !! u = Some p -> wf_annotation (AllocationAnnotation p)) as Ha.
  { intros u p Hu. destruct (Hp u p Hu) as [_ (_ & -> & _)]. intros m name c [= <-]. by rewrite lookup_empty. }
  assert (forall u p, store sys !! u = Some p -> pod_ok u p) as Hok.
  { intros u p Hu. destruct (Hp u p Hu) as [<- (? & _ & _ & ?)]. done. }
  split.
  - constructor; [|done|by rewrite Hca|by rewrite Hc|by rewrite Hs]. rewrite Hn. done.
  - constructor; rewrite ?Hn, ?Hs, ?Hc, ?Hca; try done. intros u p q Hu Hq. congruence.
Qed.

Lemma safe_initial sys : initial sys -> safe sys.
Proof.
  intros Hi. destruct (initial_visible sys Hi) as [Hw Hv]. destruct Hi as (_ & _ & Hs & _).
  constructor; [done|done|]. intros res. unfold in_view, holding. rewrite Hs, map_imap_empty. split.
  - by rewrite sum_map_empty.
  - rewrite map_size_empty. intros status _ Hl _. apply andb_true_iff in Hl as [?%Z.ltb_lt _]. cbn. lia.
Qed.

Lemma visible_reachable sys0 sys : initial sys0 -> rtc (step cfg capability) sys0 sys -> wf_system sys /\ visible sys.
Proof.
  intros Hi Hr. assert (wf_system sys0 /\ visible sys0) as H0 by (by apply initial_visible).
  clear Hi. induction Hr as [|x y z Hxy _ IH]; [done|]. destruct H0 as [Hw Hv].
  apply IH. split; [by eapply wf_step|by eapply vis_step].
Qed.

Lemma safe_reachable sys0 sys : initial sys0 -> rtc (step cfg capability) sys0 sys -> safe sys.
Proof.
  intros Hi%safe_initial Hr. induction Hr as [|x y z Hxy _ IH]; [done|]. by apply IH, (safe_step x).
Qed.



End Capacity.

(** ** A run *)

Section Run.
Context `{Tables : NameTables} (cfg : Settings) (s : Server) (devs : Devices).

Definition small_holders (o : Occupancy) : bool :=
  forallb (fun rm => (size rm.2 <=? 1342)%nat) (map_to_list o).

Definition no_call_of (k : ReservationKey) (sys : System) : bool :=
  forallb (fun jc => negb (bool_decide (call_key jc.2 = k))) (map_to_list (calls sys)).

Definition run_decide (i : nat) (ids : list string) (sys : System) : option System :=
  match calls sys !! i with
  | Some _ => None
  | None =>
      match decide_request cfg s None None {| SnapDevices := devs; SnapPods := listed sys |} ids (node sys) with
      | inl _ => None
      | inr (d, n) =>
          if no_call_of (decision_key d) sys && (Z.of_nat (length ids) <? 2 ^ 31) &&
             small_holders (slicedOccupancy (TerminatedReleased cfg) (node sys) (listed sys)) then
            Some {| node := n; store := store sys; cache := cache sys;
                    calls := <[i := {| CallDecision := d; CallIDs := ids; CallPlaces := false;
                                       CallPhaseOf := Decided |}]> (calls sys);
                    served := serve d (served sys) |}
          else None
      end
  end.

Lemma small_holders_ok o res : small_holders o = true -> (size (holders_on o res) <= 1342)%nat.
Proof.
  intros Ho. unfold holders_on. destruct (o !! res) as [m|] eqn:E; [|cbn; rewrite map_size_empty; lia].
  unfold small_holders in Ho. rewrite forallb_forall in Ho. cbn. apply Nat.leb_le, (Ho (res, m)).
  by apply list_elem_of_In, elem_of_map_to_list.
Qed.

Lemma run_decide_step i ids sys sys' :
  NoDup (spec_resources devs) -> run_decide i ids sys = Some sys' -> step cfg (capabilityOf devs) sys sys'.
Proof.
  intros Hn. unfold run_decide. destruct (calls sys !! i) eqn:Hi; [done|].
  destruct (decide_request _ _ _ _ _ _ _) as [e|[d n]] eqn:Hd; [done|].
  destruct (_ && _) eqn:Hok; [|done]. intros [= <-].
  apply andb_true_iff in Hok as [[Hc Hl%Z.ltb_lt]%andb_true_iff Hs].
  assert (forall j c, calls sys !! j = Some c -> call_key c <> decision_key d) as Hcalls.
  { intros j c Hj He. unfold no_call_of in Hc. rewrite forallb_forall in Hc.
    specialize (Hc (j, c)). cbn [snd] in Hc. rewrite bool_decide_true in Hc by done. cbn in Hc. discriminate Hc.
    by apply list_elem_of_In, elem_of_map_to_list. }
  pose proof (step_decide cfg (capabilityOf devs) sys i s None None devs ids d n Hi Hn (fun _ => eq_refl) Hl
                (fun res => small_holders_ok _ res Hs) Hd Hcalls) as Hstep.
  rewrite (bool_decide_false (is_Some None)), andb_false_r in Hstep by (by intros []). exact Hstep.
Qed.

(** The phases of a whole-accelerator or sliced call whose writes all land. *)
Definition run_phase (i : nat) (sys : System) : option System :=
  match calls sys !! i with
  | None => None
  | Some c =>
      match CallPhaseOf c with
      | Decided =>
          match actuatePartition (CallDecision c) (CallIDs c) None (node sys) with
          | (inr (d, physical), n) =>
              Some {| node := n; store := store sys; cache := cache sys;
                      calls := <[i := {| CallDecision := d; CallIDs := CallIDs c; CallPlaces := CallPlaces c;
                                         CallPhaseOf := Actuated physical |}]> (calls sys);
                      served := serve d (served sys) |}
          | _ => None
          end
      | Actuated physical =>
          match renderPrePatchResponse (CallDecision c) physical (CallPlaces c) true (node sys) with
          | (inr rendered, n) =>
              Some {| node := n; store := store sys; cache := cache sys;
                      calls := <[i := advance (Rendered rendered) c]> (calls sys); served := served sys |}
          | _ => None
          end
      | Rendered rendered =>
          match store sys !! PodUID (DPod (CallDecision c)),
                persistAllocation (CallDecision c) (CallIDs c) Landed (node sys) with
          | Some _, (n, value, None) =>
              Some {| node := n; store := written (PodUID (DPod (CallDecision c))) value (store sys);
                      cache := cache sys; calls := <[i := advance (Recording rendered) c]> (calls sys);
                      served := served sys |}
          | _, _ => None
          end
      | Recording rendered =>
          Some {| node := node sys; store := store sys; cache := cache sys; calls := delete i (calls sys);
                  served := served sys |}
      | Releasing => None
      end
  end.

Lemma run_phase_step capability i sys sys' : run_phase i sys = Some sys' -> step cfg capability sys sys'.
Proof.
  unfold run_phase. destruct (calls sys !! i) as [c|] eqn:Hc; [|done].
  destruct (CallPhaseOf c) as [|physical|rendered|rendered|] eqn:Hp; [| | | |done].
  - destruct (actuatePartition _ _ _ _) as [[e|[d physical]] n] eqn:Ha; [done|]. intros [= <-].
    exact (step_actuate _ _ _ i c None _ n Hc Hp Ha).
  - destruct (renderPrePatchResponse _ _ _ _ _) as [[e|rendered] n] eqn:Hr; [done|]. intros [= <-].
    exact (step_render _ _ _ i c physical true _ n Hc Hp Hr).
  - destruct (store sys !! _) as [p|] eqn:Hst; [|done].
    destruct (persistAllocation _ _ _ _) as [[n value] [e|]] eqn:Ha; [done|]. intros [= <-].
    exact (step_persist _ _ _ i c rendered Landed n value None Hc Hp (fun _ => ltac:(by eexists)) Ha).
  - intros [= <-]. pose proof (step_respond cfg capability sys i c rendered true Hc Hp) as Hs.
    by rewrite orb_true_r in Hs.
Qed.

Inductive Event := Ask (i : nat) (ids : list string) | Next (i : nat).

Definition run_event (e : Event) : System -> option System :=
  match e with Ask i ids => run_decide i ids | Next i => run_phase i end.

Fixpoint run (es : list Event) (sys : System) : option System :=
  match es with
  | [] => Some sys
  | e :: es => match run_event e sys with Some sys' => run es sys' | None => None end
  end.

Lemma run_rtc es sys sys' :
  NoDup (spec_resources devs) -> run es sys = Some sys' -> rtc (step cfg (capabilityOf devs)) sys sys'.
Proof.
  intros Hn. revert sys. induction es as [|e es IH]; intros sys; cbn; [by intros [= ->]|].
  destruct (run_event e sys) as [s1|] eqn:He; [|done]. intros Hr. apply rtc_l with s1; [|by apply IH].
  destruct e; [by eapply run_decide_step|by eapply run_phase_step].
Qed.

End Run.

(** Two Pods ask for half of one accelerator each; the first is answered and the
    second is being served. *)
Definition demo_tables : NameTables :=
  {| ResourceNames := {["nvidia" := "nvidia.com/gpu"]}; PartitionKinds := ∅ |}.
Definition demo_settings : Settings :=
  {| TerminatedReleased := true; slicedAllocateGateOff := false; ByCreation := fun l => l |}.
Definition demo_server : Server := {| Manufacturer := "nvidia"; AllocationMode := ModeSliced |}.
Definition demo_card : Resource := {| Group := "a100"; Card := "GPU-1" |}.
Definition demo_devices : Devices := {|
  SpecGroups := [{| GrpID := "a100"; GrpManufacturer := "nvidia"; GrpMemory := 81920;
    GrpAccelerators := [{| AccID := "GPU-1"; AccIndex := 0;
      AccStatus := {| Unhealthy := false; LogicalCount := 2; LogicalOvercommit := false; PhysicalCount := 0;
                      PhysicalProfiles := [] |} |}] |}];
  StatusGroups := [] |}.
Definition demo_pod (uid : string) (created : Z) : Pod := {|
  PodNamespace := "default"; PodName := uid; PodUID := uid; CreationTimestamp := created; Phase := PodPending;
  AllocationAnnotation := Unannotated; InitContainers := [];
  Containers := [{| CName := "main"; Requests := ∅; Limits := {["nvidia.com/gpu.sliced" := 1;
                                                 "nvidia.com/gpu.sliced.units" := 800000]} |}] |}.
Definition demo_start : System :=
  let pods := {["u1" := demo_pod "u1" 1; "u2" := demo_pod "u2" 2]} in
  {| node := empty_node; store := pods; cache := pods; calls := ∅; served := ∅ |}.
Definition demo_events : list Event :=
  [Ask 0 ["a100:GPU-1:0000"]; Next 0; Next 0; Next 0; Next 0; Ask 1 ["a100:GPU-1:0001"]].
Definition demo_end : System :=
  default demo_start (@run demo_tables demo_settings demo_server demo_devices demo_events demo_start).

Lemma demo_initial : initial demo_start.
Proof.
  split_and!; [done..|]. intros u p. cbn. intros [[<- <-]|[_ [<- <-]%lookup_singleton_Some]]%lookup_insert_Some;
    (split; [done|]; unfold new_pod; split_and!; [done..|by repeat constructor]).
Qed.

Lemma demo_reachable :
  rtc (@step demo_tables demo_settings (capabilityOf demo_devices)) demo_start demo_end.
Proof.
  apply (@run_rtc demo_tables demo_settings demo_server demo_devices demo_events); [|vm_compute; reflexivity].
  apply (bool_decide_eq_true_1 _). vm_compute. reflexivity.
Qed.


