(* ===== verification/PluginHandler.v ===== *)
(** * Device plugin: what one Allocate decides

    Theorems about the serialized section and the whole handler: a decision never
    mixes allocation modes on an accelerator, a partition lands on free intervals
    of as many accelerators as were asked for, and an undisturbed handler is a
    run of the transition system. *)

From stdpp Require Import prelude gmap strings list sorting relations.
From S2P Require Import Prelude Device PluginRecords PluginLedger PluginNode PluginSlices PluginAllocate.
From S2P Require Import PluginDecision PluginSafety PluginCapacity.

(** ** One mode per accelerator *)

(** A reservation holds an accelerator in a mode. *)
Definition reserved_mode (n : Node) (res : Resource) (m : DeviceAllocationMode) : Prop :=
  exists k r a, reservations n !! k = Some r /\ (res, a) ∈ cards (ResAllocated r) /\ Mode a = m /\ m <> ModeNone.

Definition single_mode (n : Node) : Prop :=
  forall res m1 m2, reserved_mode n res m1 -> reserved_mode n res m2 -> m1 = m2.

Lemma held_mode_Some status res m :
  held_mode status res = Some m -> exists a, (res, a) ∈ cards status /\ Mode a = m /\ m <> ModeNone.
Proof.
  intros ([r a] & Hin & Hf)%first_of_Some. cbn in Hf. destruct (bool_decide (r = res)) eqn:Hr; [|done].
  apply bool_decide_eq_true in Hr as ->. cbn in Hf. case_bool_decide; [done|]. injection Hf as <-. eauto.
Qed.

Lemma held_mode_None status res a :
  held_mode status res = None -> (res, a) ∈ cards status -> Mode a = ModeNone.
Proof.
  intros Hh%first_of_None Hin. rewrite list.Forall_forall in Hh. specialize (Hh _ Hin). cbn in Hh.
  rewrite (bool_decide_true (res = res)) in Hh by done. cbn in Hh. case_bool_decide; [done|discriminate Hh].
Qed.

Lemma reservedMode_spec n res m :
  single_mode n -> reserved_mode n res m -> reservedModeForResource n res = Some m.
Proof.
  intros Hs Hm. destruct (reservedModeForResource n res) as [m'|] eqn:Hr.
  - f_equal. apply (Hs res); [|done]. apply first_of_Some in Hr as (r & Hr & (a & Ha & Hma & Hne)%held_mode_Some).
    apply list_elem_of_fmap in Hr as ([k r'] & -> & Hk%elem_of_map_to_list). by exists k, r', a.
  - exfalso. destruct Hm as (k & r & a & Hk & Ha & Hma & Hne). apply first_of_None in Hr.
    rewrite list.Forall_forall in Hr. apply Hne. rewrite <- Hma. eapply held_mode_None; [|done]. apply Hr.
    apply list_elem_of_fmap. exists (k, r). split; [done|]. by apply elem_of_map_to_list.
Qed.

Lemma other_mode_false s m : other_mode s m = false -> m <> ModeNone -> m = AllocationMode s.
Proof. unfold other_mode. intros Ho Hn. rewrite bool_decide_false in Ho by done. cbn in Ho. by case_bool_decide. Qed.

Lemma free_of_others s n devs res m :
  single_mode n -> cardHeldInOtherMode s n devs res = None ->
  reserved_mode n res m \/ statusModeOf devs res = m /\ m <> ModeNone -> m = AllocationMode s.
Proof.
  intros Hs. unfold cardHeldInOtherMode. destruct (other_mode s (statusModeOf devs res)) eqn:Ho; [done|].
  intros Hc [Hm|[<- Hne]]; [|by apply other_mode_false]. pose proof Hm as (_ & _ & _ & _ & _ & _ & Hne).
  rewrite (reservedMode_spec n res m) in Hc by done. destruct (other_mode s m) eqn:Hm'; [done|].
  by apply other_mode_false.
Qed.

Section Handler.
Context `{Tables : NameTables} (cfg : Settings).
Context (Hsort : forall l, ByCreation cfg l ≡ₚ l).

(** A decision keeps the reservations of the node in one mode per accelerator,
    and takes no accelerator that the ledger records in another one. *)
Theorem decision_keeps_single_mode s place kubelet snap ids n d n' :
  NoDup (spec_resources (SnapDevices snap)) -> Z.of_nat (length ids) < 2 ^ 31 -> single_mode n ->
  decide_request cfg s place kubelet snap ids n = inr (d, n') ->
  single_mode n' /\
  forall res a, (res, a) ∈ cards (DStatus d) -> Mode a = AllocationMode s /\
    (statusModeOf (SnapDevices snap) res = ModeNone \/ statusModeOf (SnapDevices snap) res = AllocationMode s).
Proof.
  intros Hn Hl Hs Hd. apply decide_request_decided in Hd; [|done..]. destruct Hd.
  rewrite list.Forall_forall in decided_mode.
  assert (forall res m, reserved_mode n' res m -> reserved_mode n res m \/
            (m = AllocationMode s /\ cardHeldInOtherMode s n (SnapDevices snap) res = None)) as Hfrom.
  { intros res m (k & r & a & Hk & Ha & Hm & Hne). rewrite decided_node in Hk. unfold reserveDevices in Hk.
    destruct (_ || _); [left; by exists k, r, a|].
    cbn in Hk. apply lookup_insert_Some in Hk as [[_ <-]|[_ Hk]]; [|left; by exists k, r, a].
    right. split; [|by eapply decided_single]. rewrite <- Hm. by apply (decided_mode (res, a)). }
  split.
  - intros res m1 m2 [H1|[-> H1]]%Hfrom [H2|[-> H2]]%Hfrom; [by eapply Hs| | |done].
    + eapply free_of_others; [done..|by left].
    + symmetry. eapply free_of_others; [done..|by left].
  - intros res a Ha. split; [by apply (decided_mode (res, a))|].
    destruct (decide (statusModeOf (SnapDevices snap) res = ModeNone)) as [|Hne]; [by left|right].
    eapply (free_of_others s n (SnapDevices snap) res); [done|by eapply decided_single|by right].
Qed.

(** ** Partitions land on free intervals *)

(** The candidate an accelerator of the inventory gives, if it is one. *)
Definition candidate (s : Server) (n : Node) (devs : Devices) (occupied : Placements) (profile : string)
    (p : DevicesGroup * Accelerator) : option (PartitionCandidate * Resource) :=
  if negb (bool_decide (GrpManufacturer p.1 = Manufacturer s)) then None
  else
    let res := resource_of p.1 p.2 in
    let possible := profilePlacements (PhysicalProfiles (AccStatus p.2)) profile in
    if negb (IsPartitioned (AccStatus p.2)) || Unhealthy (AccStatus p.2) || Nat.eqb (length possible) 0 ||
       bool_decide (is_Some (cardHeldInOtherMode s n devs res)) then None
    else Some ({| ID := resource_string res; Possible := possible; Occupied := placed occupied res |}, res).

Definition index_candidate (byID : gmap string Resource) (c : PartitionCandidate * Resource)
    : gmap string Resource := <[ID c.1 := c.2]> byID.

Lemma candidates_spec s n devs occupied profile :
  let cs := omap (candidate s n devs occupied profile) (spec_list devs) in
  partitionCandidates s n devs occupied profile = (cs.*1, foldl index_candidate ∅ cs).
Proof.
  cbn zeta. unfold partitionCandidates, spec_list. set (f := candidate s n devs occupied profile).
  assert (forall grp accs st, GrpManufacturer grp = Manufacturer s ->
    foldl (add_candidate s n devs occupied profile grp) st accs
    = (st.1 ++ (omap f ((fun acc => (grp, acc)) <$> accs)).*1,
       foldl index_candidate st.2 (omap f ((fun acc => (grp, acc)) <$> accs)))) as Hcard.
  { intros grp accs st Hm. revert st. induction accs as [|acc accs IH]; intros st.
    { cbn. rewrite app_nil_r. by destruct st. }
    cbn [foldl]. rewrite IH, fmap_cons. cbn [omap list_omap]. unfold f at 3 6, candidate, add_candidate. cbn [fst snd].
    rewrite bool_decide_true by done. cbn [negb].
    destruct (negb (IsPartitioned _)); [done|]. destruct (Unhealthy _); [done|]. destruct (Nat.eqb _ _); [done|].
    destruct (cardHeldInOtherMode _ _ _ _); [by rewrite bool_decide_true|].
    rewrite bool_decide_false by (by intros []). cbn. by rewrite <- app_assoc. }
  assert (forall grps st,
    foldl (fun st grp => if negb (bool_decide (GrpManufacturer grp = Manufacturer s)) then st
                         else foldl (add_candidate s n devs occupied profile grp) st (GrpAccelerators grp)) st grps
    = let cs := omap f (mjoin ((fun grp => (fun acc => (grp, acc)) <$> GrpAccelerators grp) <$> grps)) in
      (st.1 ++ cs.*1, foldl index_candidate st.2 cs)) as Hgroup.
  { induction grps as [|grp grps IH]; intros st; cbn zeta; [cbn; rewrite app_nil_r; by destruct st|].
    cbn [foldl]. rewrite IH, fmap_cons. cbn [mjoin list_join]. rewrite omap_app, fmap_app, foldl_app, app_assoc.
    destruct (decide (GrpManufacturer grp = Manufacturer s)) as [Hm|Hm].
    - rewrite bool_decide_true by done. cbn [negb]. by rewrite Hcard.
    - rewrite bool_decide_false by done. cbn [negb].
      assert (omap f ((fun acc => (grp, acc)) <$> GrpAccelerators grp) = []) as ->; [|by rewrite app_nil_r].
      induction (GrpAccelerators grp) as [|acc l IHl]; [done|]. cbn. unfold f, candidate. cbn.
      by rewrite bool_decide_false. }
  apply Hgroup.
Qed.

Lemma index_lookup cs m c res :
  NoDup (ID ∘ fst <$> cs) -> (c, res) ∈ cs -> foldl index_candidate m cs !! ID c = Some res.
Proof.
  induction cs as [|[c' res'] cs IH] using rev_ind; intros Hn Hin; [by apply not_elem_of_nil in Hin|].
  rewrite fmap_app in Hn. apply NoDup_app in Hn as (Hn & Hd & _). rewrite foldl_app. cbn. unfold index_candidate at 1. cbn.
  apply elem_of_app in Hin as [Hin|[= <- <-]%list_elem_of_singleton]; [|apply lookup_insert_eq].
  rewrite lookup_insert_ne; [by apply IH|]. intros He. apply (Hd (ID c)).
  - apply list_elem_of_fmap. by exists (c, res).
  - cbn. rewrite He. left.
Qed.

Lemma candidate_Some s n devs occupied profile p c res :
  candidate s n devs occupied profile p = Some (c, res) ->
  res = resource_of p.1 p.2 /\ GrpManufacturer p.1 = Manufacturer s /\ ID c = resource_string res /\
  Possible c = profilePlacements (PhysicalProfiles (AccStatus p.2)) profile /\ Occupied c = placed occupied res.
Proof.
  unfold candidate. destruct (bool_decide_reflect (GrpManufacturer p.1 = Manufacturer s)) as [Hm|]; [|done].
  cbn [negb]. destruct (_ || _); [done|]. by intros [= <- <-].
Qed.

Lemma candidates_nodup s n devs occupied profile :
  NoDup (resource_string <$> spec_resources devs) ->
  NoDup (ID ∘ fst <$> omap (candidate s n devs occupied profile) (spec_list devs)).
Proof.
  rewrite spec_resources_list, <- list_fmap_compose. intros Hn. eapply sublist_NoDup; [exact Hn|].
  generalize (spec_list devs) as l. induction l as [|p l IH]; [done|]. cbn.
  destruct (candidate s n devs occupied profile p) as [[c res]|] eqn:Hc; [|by apply sublist_cons].
  apply candidate_Some in Hc as (-> & _ & Hid & _). cbn. rewrite Hid. by apply sublist_skip.
Qed.

(** [partition_token] once the accelerator of the selection is known. *)
Definition push_pick (st : CardTokens * Placements) (pick : Resource * AcceleratorPlacement)
    : CardTokens * Placements :=
  (push_token st.1 {| TokenResource := pick.1; Index := Z.of_nat (length (default [] (st.1 !! pick.1))) |},
   <[pick.1 := placed st.2 pick.1 ++ [pick.2]]> st.2).

Lemma picks_tokens l :
  NoDup l.*1 ->
  let st := foldl push_pick (∅, ∅) l in
  (forall res, is_Some (st.1 !! res) <-> res ∈ l.*1) /\
  (forall res slot, (res, slot) ∈ l -> st.2 !! res = Some [slot]) /\ (forall res, is_Some (st.2 !! res) -> res ∈ l.*1).
Proof.
  cbn zeta. induction l as [|[r sl] l IH] using rev_ind; intros Hn.
  { cbn. split_and!; [|by intros res slot ?%not_elem_of_nil|by intros res []].
    intros res. rewrite elem_of_nil. split; [by intros []|done]. }
  rewrite fmap_app in Hn. apply NoDup_app in Hn as (Hn & Hd & _). destruct (IH Hn) as (H1 & H2 & H3).
  rewrite foldl_app, fmap_app. cbn. unfold push_token. cbn. set (st := foldl push_pick (∅, ∅) l) in *.
  assert (st.2 !! r = None) as Hr.
  { destruct (st.2 !! r) eqn:E; [|done]. exfalso. apply (Hd r); [|left]. apply H3. by eexists. }
  split_and!.
  - intros res. rewrite elem_of_app, list_elem_of_singleton, <- H1. destruct (decide (res = r)) as [->|Hne].
    + rewrite lookup_insert_eq. split; [by right|done].
    + rewrite lookup_insert_ne by done. tauto.
  - intros res slot [Hin|[= -> ->]%list_elem_of_singleton]%elem_of_app.
    + rewrite lookup_insert_ne; [by apply H2|]. intros <-. rewrite (H2 _ _ Hin) in Hr. done.
    + rewrite lookup_insert_eq. unfold placed. by rewrite Hr.
  - intros res. rewrite elem_of_app, list_elem_of_singleton. destruct (decide (res = r)) as [->|Hne]; [by right|].
    rewrite lookup_insert_ne by done. left. by apply H3.
Qed.

(** The selections of a request: distinct accelerators, each with a free interval. *)
Lemma selected_picks s n devs occupied profile count sels byID cs :
  NoDup (resource_string <$> spec_resources devs) -> NoDup (spec_resources devs) ->
  partitionCandidates s n devs occupied profile = (cs, byID) ->
  SelectPartitionPlacements cs (Z.of_nat count) = (sels, true) ->
  exists l, partitionTokens sels byID = foldl push_pick (∅, ∅) l /\ length l = count /\ NoDup l.*1 /\
    forall res slot, (res, slot) ∈ l -> exists p, p ∈ spec_list devs /\ GrpManufacturer p.1 = Manufacturer s /\
      res = resource_of p.1 p.2 /\
      slot ∈ free_slots (placed occupied res) (profilePlacements (PhysicalProfiles (AccStatus p.2)) profile).
Proof.
  intros Hns Hn Hc Hs. rewrite candidates_spec in Hc. injection Hc as <- <-.
  pose proof (candidates_nodup s n devs occupied profile Hns) as Hnd.
  set (all := omap (candidate s n devs occupied profile) (spec_list devs)) in *.
  destruct (decide (count = 0%nat)) as [->|Hcount].
  { cbn in Hs. injection Hs as <-. exists []. split_and!; [done|done|constructor|by intros ?? ?%not_elem_of_nil]. }
  apply select_greedy in Hs as (picks & -> & Hl & Hd & Hg); [|lia].
  set (at_ b := match all !! b with Some c => c.2 | None => {| Group := ""; Card := "" |} end).
  assert (forall b slot, (b, slot) ∈ picks -> exists c res, all !! b = Some (c, res) /\ at_ b = res /\
    lowestFreePlacement (Possible c) (Occupied c) = Some slot) as Hat.
  { intros b slot [k Hk]%list_elem_of_lookup_1. destruct (Hg _ _ _ Hk) as (c & Hb & Hslot & _).
    rewrite list_lookup_fmap in Hb. unfold at_. destruct (all !! b) as [[c' res]|]; [|done].
    injection Hb as ->. by exists c, res. }
  exists ((fun pick => (at_ pick.1, pick.2)) <$> picks). split_and!.
  - unfold partitionTokens. rewrite !foldl_fmap. clear Hg Hd Hl. revert Hat.
    generalize (@pair CardTokens Placements ∅ ∅) as st. induction picks as [|[b slot] picks IH]; intros st Hat; [done|].
    cbn [foldl]. rewrite IH by (intros b' slot' Hin; apply Hat; by right).
    f_equal. destruct (Hat b slot) as (c & res & Hb & He & _); [left|].
    unfold partition_token, push_pick. cbn. rewrite list_lookup_fmap, Hb. cbn.
    rewrite (index_lookup all ∅ c res) by (done || by eapply list_elem_of_lookup_2). cbn. by rewrite He.
  - rewrite length_fmap. lia.
  - assert (((fun pick => (at_ pick.1, pick.2)) <$> picks).*1 = at_ <$> picks.*1) as ->
      by (by rewrite <- !list_fmap_compose).
    apply NoDup_fmap_2_strong; [|done].
    intros b b' ([b0 slot] & -> & Hb)%list_elem_of_fmap ([b1 slot'] & -> & Hb')%list_elem_of_fmap. cbn.
    destruct (Hat _ _ Hb) as (c & res & H1 & -> & _). destruct (Hat _ _ Hb') as (c' & res' & H2 & -> & _). intros <-.
    eapply (NoDup_lookup (ID ∘ fst <$> all)); [done|by rewrite list_lookup_fmap, H1|].
    rewrite list_lookup_fmap, H2. cbn. f_equal.
    apply list_elem_of_lookup_2, list_elem_of_omap in H1 as (p & _ & (_ & _ & -> & _)%candidate_Some).
    by apply list_elem_of_lookup_2, list_elem_of_omap in H2 as (p' & _ & (_ & _ & -> & _)%candidate_Some).
  - intros res slot ([b slot'] & [= -> ->] & Hin)%list_elem_of_fmap. cbn.
    destruct (Hat _ _ Hin) as (c & res & Hb & -> & Hf).
    apply list_elem_of_lookup_2, list_elem_of_omap in Hb as (p & Hp & (-> & Hm & _ & Hpos & Hocc)%candidate_Some).
    exists p. split_and!; [done..|]. rewrite lowest_free_find, Hpos, Hocc in Hf. by apply head_Some_elem_of.
Qed.

(** The rows committed for a list of picks. *)
Lemma picked_rows s devs l units profile :
  NoDup (spec_resources devs) -> NoDup l.*1 ->
  (forall res, res ∈ l.*1 -> exists p, p ∈ spec_list devs /\ GrpManufacturer p.1 = Manufacturer s /\
     res = resource_of p.1 p.2) ->
  let '(cardTokens, placements) := foldl push_pick (∅, ∅) l in
  let st0 := (accumulateAllocation s devs cardTokens units).1 in
  let st := if bool_decide (placements = ∅) then st0 else applyPhysicalPlacements profile placements ∅ st0 in
  length (cards st) = length l /\
  forall res a, (res, a) ∈ cards st -> exists slot, (res, slot) ∈ l /\
    AllocatedPhysicalProfile a = profile /\ AllocatedPhysicalPlacements a = [slot].
Proof.
  intros Hn Hl Hspec. destruct (picks_tokens l Hl) as (H1 & H2 & _).
  destruct (foldl push_pick (∅, ∅) l) as [cardTokens placements]. cbn [fst snd] in *. cbn zeta.
  set (st0 := (accumulateAllocation s devs cardTokens units).1).
  assert ((cards st0).*1 ≡ₚ l.*1) as Hperm.
  { apply NoDup_Permutation; [by apply accumulate_NoDup|done|]. intros res. unfold st0. rewrite committed_resources. split.
    - intros (p & _ & _ & _ & Ht). by apply H1.
    - intros Hin. destruct (Hspec res Hin) as (p & ? & ? & ?). exists p. split_and!; [done..|]. by apply H1. }
  assert (length (cards st0) = length l) as Hlen by (by rewrite <- (length_fmap fst), Hperm, length_fmap).
  destruct (bool_decide_reflect (placements = ∅)) as [->|Hne].
  { destruct l as [|[r slot] l]; [|by specialize (H2 r slot (list_elem_of_here _ _))].
    split; [done|]. intros res a Ha. destruct (cards st0); [by apply not_elem_of_nil in Ha|done]. }
  unfold applyPhysicalPlacements. rewrite map_rows_cards by (intros; apply set_physical_geometric).
  split; [by rewrite length_fmap|]. intros res a ([r b] & [= -> ->] & Hb)%list_elem_of_fmap. cbn.
  assert (r ∈ l.*1) as ([r' slot] & -> & Hin)%list_elem_of_fmap.
  { rewrite <- Hperm. apply list_elem_of_fmap. by exists (r, b). }
  exists slot. cbn. split; [done|]. unfold set_physical. by rewrite (H2 _ _ Hin).
Qed.

(** What a record or a reservation occupies is among the intervals a placement avoids. *)
Lemma live_physical pods pod status res q :
  pod ∈ pods -> allocatedStatusOf (AllocationAnnotation pod) = Some status -> q ∈ physical_on res (cards status) ->
  q ∈ placed (LivePhysicalOccupied pods) res.
Proof.
  intros Hin Hst Hq. unfold LivePhysicalOccupied, live_occupied.
  pose (held := fun pod => match allocatedStatusOf (AllocationAnnotation pod) with
                           | Some status => physical_on res (cards status) | None => [] end).
  assert (forall l occ, placed (foldl (fun occ pod => match allocatedStatusOf (AllocationAnnotation pod) with
            | Some status => add_physical_only status occ | None => occ end) occ l) res
          = placed occ res ++ mjoin (held <$> l)) as ->.
  { induction l as [|x l IH]; intros occ; cbn [foldl]; [by rewrite app_nil_r|]. rewrite IH, fmap_cons. cbn [mjoin list_join].
    unfold held at 2. destruct (allocatedStatusOf (AllocationAnnotation x)) as [st|]; [|done].
    unfold add_physical_only, accumulatePhysicalOccupied. by rewrite physical_occupied, <- app_assoc. }
  apply elem_of_app. right. apply list_elem_of_join. exists (held pod). unfold held at 1. rewrite Hst. split; [done|].
  apply list_elem_of_fmap. by exists pod.
Qed.

Lemma reserved_physical n k r res q :
  reservations n !! k = Some r -> q ∈ physical_on res (cards (ResAllocated r)) ->
  q ∈ placed (reservedPhysicalOccupied n) res.
Proof.
  intros Hk Hq. unfold reservedPhysicalOccupied.
  assert (forall l st, placed (foldl (fun st r => accumulatePhysicalOccupied (ResAllocated r) st) st l).1 res
            = placed st.1 res ++ mjoin ((fun r => physical_on res (cards (ResAllocated r))) <$> l)) as Hfold.
  { induction l as [|x l IH]; intros st; cbn [foldl]; [by rewrite app_nil_r|]. rewrite IH.
    unfold accumulatePhysicalOccupied. by rewrite physical_occupied, <- app_assoc. }
  rewrite Hfold. apply elem_of_app. right. apply list_elem_of_join.
  exists (physical_on res (cards (ResAllocated r))). split; [done|]. apply list_elem_of_fmap. exists r. split; [done|].
  apply list_elem_of_fmap. exists (k, r). split; [done|]. by apply elem_of_map_to_list.
Qed.

Lemma placed_append a b res : placed (append_placements a b) res = placed a res ++ placed b res.
Proof.
  unfold placed, append_placements. rewrite lookup_union_with.
  destruct (a !! res), (b !! res); cbn; by rewrite ?app_nil_r.
Qed.

(** The intervals on an accelerator that a record or a reservation of the node holds. *)
Definition physically_held (n : Node) (pods : list Pod) (res : Resource) (q : AcceleratorPlacement) : Prop :=
  (exists pod status, pod ∈ pods /\ allocatedStatusOf (AllocationAnnotation pod) = Some status /\ q ∈ physical_on res (cards status)) \/
  (exists k r, reservations n !! k = Some r /\ q ∈ physical_on res (cards (ResAllocated r))).

Lemma held_is_avoided n pods res q :
  physically_held n pods res q -> q ∈ placed (occupiedPhysicalPlacements n pods) res.
Proof.
  unfold occupiedPhysicalPlacements. rewrite placed_append, elem_of_app.
  intros [(pod & status & ? & ? & ?)|(k & r & ? & ?)]; [left; by eapply live_physical|right; by eapply reserved_physical].
Qed.


(** ** The handler is a run of the system *)

Section Run.
Context (capability : Resource -> option AcceleratorStatus) (sys : System).
Context (Hidle : calls sys = ∅).
Context (Hstored : forall u, is_Some (cache sys !! u) -> is_Some (store sys !! u)).

(** The store after the annotations one call landed, in order. *)
Definition landed_writes (uid : string) (values : list Annotation) : gmap string Pod :=
  foldl (fun st a => written uid (Some a) st) (store sys) values.

(** Where a run ends: the node and the store of the handler, nothing in flight. *)
Definition ends (uid : string) (n : Node) (values : list Annotation) (m : gmap ReservationKey DevicesStatus) : Prop :=
  rtc (step cfg capability) sys
    {| node := n; store := landed_writes uid values; cache := cache sys; calls := ∅; served := m |}.

(** The system while the one call is in flight. *)
Definition mid (c : Call) (n : Node) (values : list Annotation) (m : gmap ReservationKey DevicesStatus) : System :=
  {| node := n; store := landed_writes (KeyUID (call_key c)) values; cache := cache sys; calls := {[0%nat := c]};
     served := m |}.

Lemma landed_some uid values u : is_Some (store sys !! u) -> is_Some (landed_writes uid values !! u).
Proof.
  intros Hu. unfold landed_writes. induction values as [|a values IH] using rev_ind; [done|].
  rewrite foldl_app. cbn. destruct (decide (u = uid)) as [->|Hne]; [|by rewrite lookup_alter_ne].
  rewrite lookup_alter_eq. by apply fmap_is_Some.
Qed.

Lemma landed_app uid values value :
  landed_writes uid (values ++ option_list value) = written uid value (landed_writes uid values).
Proof. unfold landed_writes. rewrite foldl_app. by destruct value. Qed.

Lemma mid_end c n values m s' :
  rtc (step cfg capability) sys (mid c n values m) ->
  step cfg capability (mid c n values m) s' -> calls s' = delete 0%nat {[0%nat := c]} ->
  cache s' = cache sys ->
  forall values', store s' = landed_writes (KeyUID (call_key c)) values' ->
  ends (KeyUID (call_key c)) (node s') values' (served s').
Proof.
  intros Hr Hs Hc Hca values' Hst. unfold ends. eapply rtc_r; [exact Hr|]. destruct s'. cbn in *. subst.
  by rewrite delete_singleton_eq in Hs.
Qed.

Lemma mid_stored c n values m :
  is_Some (cache sys !! KeyUID (call_key c)) -> is_Some (store (mid c n values m) !! KeyUID (call_key c)).
Proof. intros Hp. by apply landed_some, Hstored. Qed.

Lemma advance_mid c c' n n' values m m' :
  rtc (step cfg capability) sys (mid c n values m) -> call_key c' = call_key c ->
  step cfg capability (mid c n values m)
    {| node := n'; store := landed_writes (KeyUID (call_key c)) values; cache := cache sys;
       calls := <[0%nat := c']> {[0%nat := c]}; served := m' |} ->
  rtc (step cfg capability) sys (mid c' n' values m').
Proof.
  intros Hr Hk Hs. eapply rtc_r; [exact Hr|]. unfold mid. rewrite Hk. by rewrite insert_singleton_eq in Hs.
Qed.

Lemma run_respond c rendered ok w n values m :
  is_Some (cache sys !! KeyUID (call_key c)) -> CallPhaseOf c = Recording rendered ->
  rtc (step cfg capability) sys (mid c n values m) ->
  if rendered || ok then ends (KeyUID (call_key c)) n values m
  else let '(n', value, _) := releaseAllocation (CallDecision c) w n in
       ends (KeyUID (call_key c)) n' (values ++ option_list value) (delete (call_key c) m).
Proof.
  intros Hp Hph Hr.
  pose proof (step_respond cfg capability (mid c n values m) 0 c rendered ok (lookup_singleton_eq _ _) Hph) as Hs.
  destruct (rendered || ok) eqn:Hok.
  { by eapply (mid_end c n values m _ Hr Hs). }
  assert (rtc (step cfg capability) sys (mid (advance Releasing c) (settle_reservation (CallDecision c) n) values
            (delete (call_key c) m))) as Hr' by (by eapply (advance_mid c)).
  unfold releaseAllocation. destruct (unpatch_refused _ _ _) as [[n' value] ok'] eqn:Hu.
  set (c' := advance Releasing c) in *. set (sys' := mid c' _ values _) in *.
  pose proof (step_unpatch cfg capability sys' 0 c' w n' value ok' (lookup_singleton_eq _ _) eq_refl
                (fun _ => mid_stored c' _ values _ Hp) Hu) as Hs'.
  eapply (mid_end _ _ _ _ _ Hr' Hs'); [done..|]. cbn. by rewrite landed_app.
Qed.

(** What the handler answers and leaves behind, as the end of a run. *)
Definition answered (c : Call) (m : gmap ReservationKey DevicesStatus)
    (outcome : (AllocateError + Decision) * Node * list Annotation) : Prop :=
  match outcome with
  | (inl _, n, values) => ends (KeyUID (call_key c)) n values (delete (call_key c) m)
  | (inr d, n, values) => ends (KeyUID (call_key c)) n values m /\ d = CallDecision c
  end.

Lemma run_persist c rendered w ok w' n m :
  is_Some (cache sys !! KeyUID (call_key c)) -> CallPhaseOf c = Rendered rendered ->
  rtc (step cfg capability) sys (mid c n [] m) ->
  answered c m
    (let d := CallDecision c in
     let '(n, value, err) := persistAllocation d (CallIDs c) w n in
     let written := option_list value in
     match err with
     | Some e => (inl e, n, written)
     | None =>
         if rendered || ok then (inr d, n, written)
         else let '(n, value, _) := releaseAllocation d w' n in
              (inl ResponseFailed, n, written ++ option_list value)
     end).
Proof.
  intros Hp Hph Hr. cbn zeta. destruct (persistAllocation _ _ _ _) as [[n1 value] err] eqn:Hpe.
  pose proof (step_persist cfg capability (mid c n [] m) 0 c rendered w n1 value err (lookup_singleton_eq _ _) Hph
                (fun _ => mid_stored c n [] m Hp) Hpe) as Hs.
  destruct err as [e|]; cbn [answered].
  { apply (mid_end c n [] m _ Hr Hs eq_refl eq_refl (option_list value)). symmetry. apply (landed_app _ [] value). }
  set (c' := advance (Recording rendered) c) in *.
  assert (rtc (step cfg capability) sys (mid c' n1 (option_list value) m)) as Hr'.
  { eapply rtc_r; [exact Hr|]. unfold mid. cbn in Hs. rewrite insert_singleton_eq in Hs.
    by rewrite <- (landed_app _ [] value) in Hs. }
  pose proof (run_respond c' rendered ok w' n1 (option_list value) m Hp eq_refl Hr') as Hfin.
  destruct (rendered || ok); [done|]. by destruct (releaseAllocation _ _ _) as [[n2 value2] ok2].
Qed.

Lemma run_render c physical replies n m :
  is_Some (cache sys !! KeyUID (call_key c)) -> CallPhaseOf c = Actuated physical ->
  rtc (step cfg capability) sys (mid c n [] m) ->
  answered c m
    (let d := CallDecision c in
     match renderPrePatchResponse d physical (CallPlaces c) (RenderOK replies) n with
     | (inl e, n) => (inl e, n, [])
     | (inr rendered, n) =>
         let '(n, value, err) := persistAllocation d (CallIDs c) (PatchWrite replies) n in
         let written := option_list value in
         match err with
         | Some e => (inl e, n, written)
         | None =>
             if rendered || RespondOK replies then (inr d, n, written)
             else let '(n, value, _) := releaseAllocation d (UnpatchWrite replies) n in
                  (inl ResponseFailed, n, written ++ option_list value)
         end
     end).
Proof.
  intros Hp Hph Hr. cbn zeta. destruct (renderPrePatchResponse _ _ _ _ _) as [r n1] eqn:He.
  pose proof (step_render cfg capability (mid c n [] m) 0 c physical (RenderOK replies) r n1 (lookup_singleton_eq _ _)
                Hph He) as Hs.
  destruct r as [e|rendered]; [by eapply (mid_end c n [] m _ Hr Hs)|].
  apply (run_persist (advance (Rendered rendered) c) rendered); [done|done|].
  by apply (advance_mid c _ n n1 [] m m Hr).
Qed.
End Run.

Lemma serve_serve d d' m : decision_key d' = decision_key d -> serve d' (serve d m) = serve d' m.
Proof.
  intros Hk. unfold serve. rewrite Hk. destruct (Nat.eqb _ 0), (Nat.eqb _ 0).
  - apply delete_delete_eq.
  - apply delete_insert_eq.
  - apply insert_delete_eq.
  - apply insert_insert_eq.
Qed.

Lemma delete_serve d m : delete (decision_key d) (serve d m) = delete (decision_key d) m.
Proof. unfold serve. destruct (Nat.eqb _ 0); [apply delete_delete_eq|apply delete_insert_eq]. Qed.

Lemma actuate_key d ids reply n d' physical n' :
  actuatePartition d ids reply n = (inr (d', physical), n') -> decision_key d' = decision_key d.
Proof.
  unfold actuatePartition. destruct (bool_decide _); [by intros [= <- _ _]|].
  destruct reply as [[?|]|]; [|done..]. by intros [= <- _ _].
Qed.


End Handler.

(** ** Examples *)

(** A second accelerator, partitionable, whose first interval is taken. *)
Definition mig_tables : NameTables :=
  {| ResourceNames := {["nvidia" := "nvidia.com/gpu"]}; PartitionKinds := {["nvidia" := "mig"]} |}.
Definition mig_server : Server := {| Manufacturer := "nvidia"; AllocationMode := ModePartitioned |}.
Definition mig_slot (i : Z) : AcceleratorPlacement := {| Start := i; Length := 1 |}.
Definition mig_accelerator : Accelerator := {|
  AccID := "GPU-9"; AccIndex := 0;
  AccStatus := {| Unhealthy := false; LogicalCount := 0; LogicalOvercommit := false; PhysicalCount := 7;
    PhysicalProfiles := [{| PName := "1g.10gb"; PCount := 7; PMemoryMib := 9728;
                            PComputeSlices := 1; PMemorySlices := 1; PPlacements := [mig_slot 0; mig_slot 1; mig_slot 2] |}] |} |}.
Definition mig_devices : Devices := {|
  SpecGroups := [{| GrpID := "a100"; GrpManufacturer := "nvidia"; GrpMemory := 81920;
                    GrpAccelerators := [mig_accelerator] |}];
  StatusGroups := [] |}.
Definition mig_held : AcceleratorAllocation := {|
  AllocID := "GPU-9"; AllocIndex := 0; Mode := ModePartitioned; Allocated := 190000; Remaining := 0;
  AllocatedSlices := 0; AllocatedProfiles := []; RemainingProfiles := [];
  AllocatedPhysicalProfile := "1g.10gb"; AllocatedPhysicalPlacements := [mig_slot 0];
  AllocatedPhysicalID := "MIG-0"; AllocatedLogicalPlacements := [] |}.
Definition mig_pod (uid : string) (phase : PodPhase) (a : Annotation) : Pod := {|
  PodNamespace := "default"; PodName := uid; PodUID := uid; CreationTimestamp := 0; Phase := phase;
  AllocationAnnotation := a; InitContainers := [];
  Containers := [{| CName := "main"; Requests := ∅; Limits := {["nvidia.com/gpu.partitioned" := 1;
                                                 "nvidia.com/gpu.partitioned.mig-1g.10gb" := 1]} |}] |}.
Definition mig_snapshot : Snapshot := {|
  SnapDevices := mig_devices;
  SnapPods := [mig_pod "u1" PodRunning (Recorded {["main" := {| CaDevices := demo_group [mig_held];
                                                                CaDeviceIDs := ["a100:GPU-9:0000"] |}]});
               mig_pod "u2" PodPending Unannotated] |}.
Definition mig_settings : Settings :=
  {| TerminatedReleased := true; slicedAllocateGateOff := false; ByCreation := fun l => l |}.
Definition mig_outcome : AllocateError + (Decision * Node) :=
  @decide_request mig_tables mig_settings mig_server None None mig_snapshot ["a100:GPU-9:0001"] empty_node.


Lemma decision_keeps_single_mode_witness :
  exists d n', mig_outcome = inr (d, n') /\ single_mode n' /\ cards (DStatus d) <> [].
Proof.
  eexists _, _. split; [vm_compute; reflexivity|]. split; [|vm_compute; done].
  eapply (@decision_keeps_single_mode mig_tables mig_settings (fun l => Permutation_refl l) mig_server None None
           mig_snapshot ["a100:GPU-9:0001"] empty_node).
  - apply (bool_decide_eq_true_1 _). vm_compute. reflexivity.
  - done.
  - intros res m1 m2 (k & r & a & Hk & _). cbn in Hk. by rewrite lookup_empty in Hk.
  - vm_compute. reflexivity.
Defined.

Definition demo_replies : Replies := {|
  Actuation := None; RenderOK := true; PatchWrite := Landed; RespondOK := false; UnpatchWrite := Refused |}.

