(* ===== verification/PluginVerify.v ===== *)
(** * Device plugin: allocations against kubelet's records

    Every Allocate and every rebuild of the ledger first compares what kubelet
    reports with the annotations of the cached Pods
    (src/pkg/deviceplugin/kubelet_allocations.go).  What an Allocate recorded
    passes the comparison; before the informer has seen the record, the same
    claim is refused. *)

From stdpp Require Import prelude gmap strings list sorting relations.
From S2P Require Import Prelude Device PluginRecords PluginLedger PluginNode PluginSlices PluginAllocate.
From S2P Require Import PluginDecision PluginSafety PluginCapacity.

Section Verify.
Context `{Tables : NameTables} (cfg : Settings).

Definition whole (s : Server) : Prop := AllocationMode s = ModeExclusive \/ AllocationMode s = ModeShared.

(** Whole accelerators are charged by mode, so the rows depend on the accelerators
    alone. *)
Lemma accumulate_whole s devs tokens tokens' units units' :
  whole s -> dom tokens = dom tokens' ->
  accumulateAllocation s devs tokens units = accumulateAllocation s devs tokens' units'.
Proof.
  intros Hw Hd. unfold accumulateAllocation.
  assert (forall grp accs st, foldl (accumulate_card s tokens units grp) st accs
                              = foldl (accumulate_card s tokens' units' grp) st accs) as Hc.
  { intros grp accs. induction accs as [|acc accs IH]; intros st; [done|]. cbn [foldl]. rewrite IH. f_equal.
    unfold accumulate_card. assert (resource_of grp acc ∈ dom tokens <-> resource_of grp acc ∈ dom tokens') as He
      by (by rewrite Hd).
    rewrite !elem_of_dom in He.
    destruct (tokens !! resource_of grp acc) as [ts|], (tokens' !! resource_of grp acc) as [ts'|];
      [|by destruct (proj1 He ltac:(by eexists))|by destruct (proj2 He ltac:(by eexists))|done].
    unfold charged. by destruct Hw as [-> | ->]. }
  generalize (@nil DevicesAllocationGroup, (∅ : gmap Resource Z)) as st.
  induction (SpecGroups devs) as [|grp grps IH]; intros st; [done|]. cbn [foldl]. rewrite IH. f_equal.
  unfold accumulate_group. destruct (negb _); [done|]. apply Hc.
Qed.

Lemma whole_decision s place kubelet snap ids n d n' :
  whole s -> decide_request cfg s place kubelet snap ids n = inr (d, n') ->
  exists tokens units, kubelet_tokens ids ∅ = inr tokens /\
    accumulateAllocation s (SnapDevices snap) tokens units = (DStatus d, DAllocation d).
Proof.
  intros Hw. unfold decide_request. intros (tokens & Hp%parse_kubelet & Hd)%try_inr.
  apply try_inr in Hd as (_ & _ & Hd). unfold decideAllocation in Hd.
  assert (AllocationMode s <> ModeSliced /\ AllocationMode s <> ModePartitioned) as [H1 H2]
    by (destruct Hw as [-> | ->]; done).
  rewrite !(bool_decide_false (AllocationMode s = ModeSliced)) in Hd by done.
  rewrite !(bool_decide_false (AllocationMode s = ModePartitioned)) in Hd by done.
  destruct (getAllocatingPod _ _ _ _) as [[pod ctr]|]; [|done]. destruct (conflicting_replay _ _ _); [done|].
  destruct (requestedUnits s ctr) as [units requested]. cbn [try] in Hd.
  apply try_inr in Hd as (_ & _ & Hd). apply try_inr in Hd as (_ & _ & Hd).
  exists tokens, units. split; [done|]. destruct (accumulateAllocation _ _ _ _) as [st al]. cbn [try] in Hd.
  rewrite bool_decide_true in Hd by done. by injection Hd as <- _.
Qed.

(** What an Allocate of whole accelerators records is what the verification
    expects: once the cached Pod carries the record, kubelet's report of the same
    device IDs, in any order, is accepted. *)
Theorem recorded_allocation_verifies s place kubelet snap ids n d n' pods i pod container reported kubeletIDs al :
  whole s -> decide_request cfg s place kubelet snap ids n = inr (d, n') ->
  size (DAllocation d) = size (list_to_set (omap id_resource ids) : gset Resource) ->
  list_find (fun p => PodName p = PrName reported /\ PodNamespace p = PrNamespace reported) pods = Some (i, pod) ->
  AllocationAnnotation pod = Recorded al ->
  al !! container = Some {| CaDevices := DStatus d; CaDeviceIDs := ids |} ->
  kubeletIDs ≡ₚ ids ->
  verifyKubeletContainer (SnapDevices snap) pods reported container kubeletIDs s = inr tt.
Proof.
  intros Hw Hd Hsize Hpod Ha Hal Hperm. destruct (whole_decision _ _ _ _ _ _ _ _ Hw Hd) as (tokens & units & Ht & Hacc).
  assert (exists tokens', kubelet_tokens kubeletIDs ∅ = inr tokens') as [tokens' Ht'].
  { apply kubelet_tokens_ok. rewrite Hperm. by apply (kubelet_tokens_ok ids ∅); eexists. }
  apply kubelet_tokens_dom in Ht as Hdom. apply kubelet_tokens_dom in Ht' as Hdom'.
  assert (list_to_set (omap id_resource kubeletIDs) = list_to_set (omap id_resource ids) :> gset Resource) as Hset
    by (by rewrite Hperm).
  unfold verifyKubeletContainer. rewrite Hpod. destruct (podTerminated pod); [done|]. rewrite Ht'. cbn [try].
  rewrite (accumulate_whole s (SnapDevices snap) tokens' tokens 0 units), Hacc by (done || congruence).
  assert (size tokens' = size (DAllocation d)) as ->.
  { rewrite Hsize, <- size_dom, Hdom', dom_empty_L, (left_id_L ∅ (∪)). by rewrite Hset. }
  rewrite Nat.eqb_refl. cbn [negb]. unfold pod_allocations. rewrite Ha. cbn [AllocatedAcceleratorsOf]. rewrite Hal.
  cbn [default CaDeviceIDs CaDevices]. rewrite !bool_decide_true; [done|done|by rewrite Hperm].
Qed.

End Verify.

(** ** A record the informer has not seen *)

Definition lag_server : Server := {| Manufacturer := "nvidia"; AllocationMode := ModeExclusive |}.
Definition lag_pod (uid : string) (created : Z) : Pod := {|
  PodNamespace := "default"; PodName := uid; PodUID := uid; CreationTimestamp := created; Phase := PodPending;
  AllocationAnnotation := Unannotated; InitContainers := [];
  Containers := [{| CName := "main"; Requests := ∅; Limits := {["nvidia.com/gpu" := 1]} |}] |}.
Definition lag_start : System :=
  let pods := {["u1" := lag_pod "u1" 1; "u2" := lag_pod "u2" 2]} in
  {| node := empty_node; store := pods; cache := pods; calls := ∅; served := ∅ |}.
Definition lag_ids : list string := ["a100:GPU-1:0000"].
(** The Allocate of the first Pod, answered. *)
Definition lag_end : System :=
  default lag_start (@run demo_tables demo_settings lag_server demo_devices
                       [Ask 0 lag_ids; Next 0; Next 0; Next 0; Next 0] lag_start).
Definition lag_synced : System := {|
  node := node lag_end; store := store lag_end;
  cache := partial_alter (fun _ => store lag_end !! "u1") "u1" (cache lag_end);
  calls := calls lag_end; served := served lag_end |}.
(** What kubelet reports once it has the answer. *)
Definition lag_reported : PodResources := {|
  PrNamespace := "default"; PrName := "u1";
  PrContainers := [{| CrName := "main"; CrDevices := [("nvidia.com/gpu", lag_ids)] |}] |}.
Definition lag_verify (sys : System) : AllocateError + option (gmap (string * string) (gmap string bool)) :=
  @verifiedKubeletPending demo_tables {| SnapDevices := demo_devices; SnapPods := listed sys |} (Some [lag_reported])
    "nvidia.com/gpu".


Lemma recorded_allocation_verifies_witness :
  exists d n' al,
    @decide_request demo_tables demo_settings lag_server None None
      {| SnapDevices := demo_devices; SnapPods := listed lag_start |} lag_ids empty_node = inr (d, n') /\
    AllocationAnnotation <$> store lag_end !! "u1" = Some (Recorded al) /\ cards (DStatus d) <> [] /\
    verifyKubeletContainer demo_devices (listed lag_synced) lag_reported "main" lag_ids lag_server = inr tt.
Proof.
  eexists _, _, _. split_and!; [vm_compute; reflexivity..|vm_compute; done|].
  eapply (@recorded_allocation_verifies demo_tables demo_settings lag_server None None
           {| SnapDevices := demo_devices; SnapPods := listed lag_start |} lag_ids empty_node).
  - by left.
  - vm_compute. reflexivity.
  - vm_compute. reflexivity.
  - vm_compute. reflexivity.
  - vm_compute. reflexivity.
  - vm_compute. reflexivity.
  - done.
Defined.
