(* ===== verification/PluginAdvertise.v ===== *)
(** * Device plugin: what kubelet is offered

    ListAndWatch and GetPreferredAllocation of src/pkg/deviceplugin/server.go: the
    device IDs an accelerator contributes and their health, the node-level count
    of the partition pool, and the hint that packs logical slices.  The topology
    hints of an advertised device are left out; the accelerators a Pod prefers
    ([preferredAcceleratorIDsOf]) are an argument of the hint. *)

From Stdlib Require Import Ascii.
From stdpp Require Import prelude gmap strings list sorting.
From S2P Require Import Prelude Device PluginRecords PluginLedger PluginNode PluginSlices PluginAllocate.
From S2P Require Import PluginDecision PluginSafety PluginCapacity PluginHandler.

(** ** ListAndWatch *)

Record Advertised := { DevID : string; DevHealthy : bool }.

Definition advertiseCard (s : Server) (n : Node) (devs : Devices) (acc : Accelerator) (res : Resource)
    : list Advertised :=
  let in_scope :=
    match AllocationMode s with
    | ModeExclusive | ModeShared => IsWholeAcceleratorCapable (AccStatus acc)
    | ModeSliced => IsLogicallySliceable (AccStatus acc)
    | _ => true
    end in
  let poolSize := match AllocationMode s with ModeSliced => LogicalCount (AccStatus acc) | _ => 0 end in
  if negb in_scope then []
  else
    let healthy :=
      if Unhealthy (AccStatus acc) then false
      else if negb (bool_decide (AllocationMode s = ModeVisibility)) then
        match cardHeldInOtherMode s n devs res with Some _ => false | None => true end
      else true in
    (fun id => {| DevID := id; DevHealthy := healthy |}) <$> DeviceIDs res (AllocationMode s) poolSize.

(** [liveDeviceIDs]: what a reservation or a readable annotation holds. *)
Definition liveDeviceIDs (n : Node) (pods : list Pod) : gset string :=
  foldl (fun held r => list_to_set (ResDeviceIDs r) ∪ held)
    (foldl (fun held pod =>
       match pod_allocations pod with
       | None => held
       | Some allocations =>
           foldl (fun held c => list_to_set (CaDeviceIDs c) ∪ held) held (map_to_list allocations).*2
       end) ∅ pods)
    (map_to_list (reservations n)).*2.

Definition PartitionLedgerReady (row : AcceleratorAllocation) : bool :=
  (0 <? Z.of_nat (length (AllocatedProfiles row))) || (0 <? Z.of_nat (length (RemainingProfiles row))).

Definition partitionRoomOf (devs : Devices) (res : Resource) (ceiling : Z) : Z :=
  match status_row devs res with
  | None => ceiling
  | Some acc =>
      if negb (PartitionLedgerReady acc) then ceiling
      else
        let allocated := foldl (fun n p => i32 (n + PcCount p)) 0 (AllocatedProfiles acc) in
        let remaining := foldl (fun n p => Z.max n (PcCount p)) 0 (RemainingProfiles acc) in
        i32 (allocated + remaining)
  end.

(** The IDs of the partition pool and the instances the node accounts for. *)
Definition pool_card (s : Server) (devs : Devices) (grp : DevicesGroup) (st : list string * Z) (acc : Accelerator)
    : list string * Z :=
  if negb (IsPartitioned (AccStatus acc)) then st
  else
    let res := resource_of grp acc in
    let ceiling := PhysicalCount (AccStatus acc) in
    (st.1 ++ DeviceIDs res (AllocationMode s) ceiling,
     if Unhealthy (AccStatus acc) then st.2 else i64 (st.2 + partitionRoomOf devs res ceiling)).

Definition partition_pool (s : Server) (devs : Devices) : list string * Z :=
  foldl (fun st grp =>
    if negb (bool_decide (GrpManufacturer grp = Manufacturer s)) then st
    else foldl (pool_card s devs grp) st (GrpAccelerators grp)) ([], 0) (SpecGroups devs).

Fixpoint grant_ids (held : gset string) (room granted : Z) (ids : list string) : list Advertised :=
  match ids with
  | [] => []
  | id :: ids =>
      if bool_decide (id ∈ held) then {| DevID := id; DevHealthy := true |} :: grant_ids held room granted ids
      else if granted <? room
           then {| DevID := id; DevHealthy := true |} :: grant_ids held room (granted + 1) ids
           else {| DevID := id; DevHealthy := false |} :: grant_ids held room granted ids
  end.

Definition getPartitionListAndWatchResponse (s : Server) (n : Node) (snap : Snapshot) : list Advertised :=
  let held := liveDeviceIDs n (SnapPods snap) in
  let '(ids, room) := partition_pool s (SnapDevices snap) in
  grant_ids held room (Z.of_nat (length (filter (fun id => id ∈ held) ids))) ids.

Definition getListAndWatchResponse (s : Server) (n : Node) (snap : Snapshot) : list Advertised :=
  if bool_decide (AllocationMode s = ModePartitioned) then getPartitionListAndWatchResponse s n snap
  else
    mjoin ((fun grp =>
      if negb (bool_decide (GrpManufacturer grp = Manufacturer s)) then []
      else mjoin ((fun acc => advertiseCard s n (SnapDevices snap) acc (resource_of grp acc)) <$> GrpAccelerators grp))
      <$> SpecGroups (SnapDevices snap)).

(** ** GetPreferredAllocation *)

(** One comparison after another, each negative, zero or positive. *)
Definition and_then (c d : Z) : Z := if c =? 0 then d else c.
Definition CompareTrueFirst (a b : bool) : Z := if Bool.eqb a b then 0 else if a then -1 else 1.
Definition compare_z (a b : Z) : Z := if a <? b then -1 else if b <? a then 1 else 0.

Definition in_tokens (m : CardTokens) (res : Resource) : bool := bool_decide (is_Some (m !! res)).
Definition fits_slice (room : SlicedRoom) (res : Resource) (units : Z) : bool :=
  match shortage room res units with None => true | Some _ => false end.

Definition packing_compare (room : SlicedRoom) (must : CardTokens) (units : Z) (resA resB : Resource) : Z :=
  and_then (CompareTrueFirst (in_tokens must resA) (in_tokens must resB))
    (and_then (CompareTrueFirst (fits_slice room resA units) (fits_slice room resB units))
       (if fits_slice room resA units then compare_z (remaining room resA) (remaining room resB)
        else compare_z (remaining room resB) (remaining room resA))).

Definition resource_at (grp : DevicesGroup) (j : nat) : Resource :=
  {| Group := GrpID grp; Card := match GrpAccelerators grp !! j with Some acc => AccID acc | None => "" end |}.

Definition slicedPackingOrder (room : SlicedRoom) (grp : DevicesGroup) (must : CardTokens) (slicedUnits : Z)
    : list nat :=
  let order := seq 0 (length (GrpAccelerators grp)) in
  if slicedUnits <=? 0 then order
  else sort_stable (fun a b => packing_compare room must slicedUnits (resource_at grp a) (resource_at grp b) <=? 0) order.

Record Selection := {
  Selected : list ResourceToken;
  Unselected : list ResourceToken;
  RemainingSize : Z;
  PreferredLeft : gset string }.

Record Hint := {
  HintServer : Server;
  HintRoom : SlicedRoom;
  HintAvailable : CardTokens;
  HintMust : CardTokens;
  HintPreferred : list string;
  HintSize : Z;
  HintUnits : Z }.

Definition hasPreferred (h : Hint) : bool := negb (Nat.eqb (length (HintPreferred h)) 0).

Definition take_token (res : Resource) (t : ResourceToken) (sel : Selection) : Selection := {|
  Selected := Selected sel ++ [t]; Unselected := Unselected sel;
  RemainingSize := i32 (RemainingSize sel - 1); PreferredLeft := PreferredLeft sel ∖ {[Card res]} |}.

Definition pass_over (t : ResourceToken) (sel : Selection) : Selection := {|
  Selected := Selected sel; Unselected := Unselected sel ++ [t];
  RemainingSize := RemainingSize sel; PreferredLeft := PreferredLeft sel |}.

(** The mode of the row at the accelerator's own position in the status. *)
Definition positional_mode (devs : Devices) (i j : nat) : DeviceAllocationMode :=
  match row (StatusGroups devs) i j with Some acc => Mode acc | None => ModeNone end.

(** One accelerator of the walk: the selection, and whether a token was taken. *)
Definition visit (h : Hint) (sel : Selection) (v : nat * DevicesGroup * nat) : Selection * bool :=
  let '(i, grp, j) := v in
  let res := resource_at grp j in
  match HintAvailable h !! res with
  | None | Some [] => (sel, false)
  | Some (t :: _) =>
      if other_mode (HintServer h) (positional_mode (RoomDevs (HintRoom h)) i j) then (sel, false)
      else match HintMust h !! res with
           | Some (m :: _) => (take_token res m sel, true)
           | _ =>
               if (0 <? HintUnits h) && negb (fits_slice (HintRoom h) res (HintUnits h)) then (pass_over t sel, false)
               else if hasPreferred h && negb (bool_decide (Card res ∈ PreferredLeft sel)) then (pass_over t sel, false)
               else (take_token res t sel, true)
           end
  end.

Fixpoint walk (h : Hint) (vs : list (nat * DevicesGroup * nat)) (sel : Selection) : Selection :=
  match vs with
  | [] => sel
  | v :: vs =>
      let '(sel, taken) := visit h sel v in
      if taken && negb (hasPreferred h) && (RemainingSize sel <=? 0) then sel else walk h vs sel
  end.

Definition visits (h : Hint) : list (nat * DevicesGroup * nat) :=
  mjoin (imap (fun i grp =>
    if negb (bool_decide (GrpManufacturer grp = Manufacturer (HintServer h))) then []
    else (fun j => (i, grp, j)) <$> slicedPackingOrder (HintRoom h) grp (HintMust h) (HintUnits h))
    (SpecGroups (RoomDevs (HintRoom h)))).

(** [preferredRank[id]], zero when the ID is not preferred. *)
Definition preferred_rank (preferred : list string) (id : string) : Z :=
  default 0 (foldl (fun (m : gmap string Z) p => <[p.2 := p.1]> m) ∅ (imap (fun i id => (Z.of_nat i, id)) preferred) !! id).

Definition capAndOrderPreferredTokens (must : CardTokens) (preferred : list string) (selected : list ResourceToken)
    (allocationSize : Z) : list ResourceToken * Z :=
  let le a b :=
    and_then (CompareTrueFirst (in_tokens must (TokenResource a)) (in_tokens must (TokenResource b)))
      (compare_z (preferred_rank preferred (Card (TokenResource a))) (preferred_rank preferred (Card (TokenResource b))))
      <=? 0 in
  let sorted := sort_stable le selected in
  let selected := if allocationSize <? Z.of_nat (length sorted) then take (Z.to_nat allocationSize) sorted else sorted in
  (selected, i32 (allocationSize - Z.of_nat (length selected))).

Definition selectPreferredUnits (h : Hint) : Selection :=
  let sel := walk h (visits h) {| Selected := []; Unselected := []; RemainingSize := HintSize h;
                                  PreferredLeft := list_to_set (HintPreferred h) |} in
  if hasPreferred h then
    let '(selected, remainingSize) :=
      capAndOrderPreferredTokens (HintMust h) (HintPreferred h) (Selected sel) (HintSize h) in
    {| Selected := selected; Unselected := Unselected sel; RemainingSize := remainingSize;
       PreferredLeft := PreferredLeft sel |}
  else sel.

Definition sortTokensByHardwareOrder (devs : Devices) (tokens : list ResourceToken) : list ResourceToken :=
  let pos := foldl (fun (m : gmap Resource Z) p => <[p.2 := p.1]> m) ∅
               (imap (fun i res => (Z.of_nat i, res)) (spec_resources devs)) in
  sort_stable (fun a b =>
    compare_z (default 0 (pos !! TokenResource a)) (default 0 (pos !! TokenResource b)) <=? 0) tokens.

Section Hints.
Context `{Tables : NameTables}.

Definition slicedUnitsOf (s : Server) (ctr : option Container) : Z :=
  if bool_decide (AllocationMode s = ModeSliced) then
    match ctr with
    | None => 0
    | Some ctr => match Limits ctr !! GetAcceleratableSlicedUnitsResourceName (Manufacturer s) with
                  | Some q => i32 (Z.min q ResourceMaxUnits)
                  | None => 0
                  end
    end
  else 0.

(** The hint a full selection renders. *)
Definition hinted (devs : Devices) (preferred : list string) (tokens : list ResourceToken) : list string :=
  token_string <$> (if Nat.eqb (length preferred) 0 then tokens else sortTokensByHardwareOrder devs tokens).

Definition getContainerPreferredAllocationResponse (s : Server) (room : SlicedRoom) (preferred : list string)
    (ctr : option Container) (available must : list string) (allocationSize : Z) : AllocateError + list string :=
  let? availableTokens := parse_tokens (sort_strings available) ∅ in
  let? mustTokens := parse_tokens (sort_strings must) ∅ in
  let sel := selectPreferredUnits {|
    HintServer := s; HintRoom := room; HintAvailable := availableTokens; HintMust := mustTokens;
    HintPreferred := preferred; HintSize := allocationSize; HintUnits := slicedUnitsOf s ctr |} in
  if negb (Nat.eqb (length preferred) 0) && (0 <? RemainingSize sel) then
    if Nat.eqb (length (Unselected sel)) 0 then inr []
    else if RemainingSize sel <=? Z.of_nat (length (Unselected sel))
         then inr (hinted (RoomDevs room) preferred
                     (Selected sel ++ take (Z.to_nat (RemainingSize sel)) (Unselected sel)))
         else inr []
  else if 0 <? RemainingSize sel then inr []
  else inr (hinted (RoomDevs room) preferred (Selected sel)).

(** [preferredOf] is [preferredAcceleratorIDsOf] on the listed Devices. *)
Definition GetPreferredAllocation (cfg : Settings) (s : Server) (kubelet : option KubeletPending) (snap : Snapshot)
    (n : Node) (preferredOf : Pod -> list string) (available must : list string) (allocationSize : Z)
    : AllocateError + list string :=
  if bool_decide (AllocationMode s = ModeVisibility) || bool_decide (AllocationMode s = ModePartitioned) then inr []
  else
    let m := {| MatchResource := ResourceName s; MatchQuantity := allocationSize; SkipReserved := false;
                SkipGranted := false; Feasible := None; Kubelet := kubelet |} in
    match getAllocatingPod (ByCreation cfg) n m (SnapPods snap) with
    | None => inl NoCandidate
    | Some (pod, ctr) =>
        let sliced := slicedOccupancyForAllocate cfg s n (SnapPods snap) in
        let room := slicedRoomFor (SnapDevices snap) sliced (Some (pod, ctr)) in
        getContainerPreferredAllocationResponse s room (preferredOf pod) (Some ctr) available must allocationSize
    end.

End Hints.

(** ** The partition pool *)

Lemma grant_ids_ids held room granted ids : DevID <$> grant_ids held room granted ids = ids.
Proof.
  revert granted. induction ids as [|id ids IH]; intros granted; [done|]. cbn.
  case_bool_decide; [|destruct (_ <? _)]; rewrite fmap_cons, IH; done.
Qed.

Definition healthy_ids (l : list Advertised) : list string := DevID <$> filter (fun d => DevHealthy d = true) l.

Lemma healthy_cons d l : healthy_ids (d :: l) = (if DevHealthy d then [DevID d] else []) ++ healthy_ids l.
Proof. unfold healthy_ids. rewrite filter_cons. destruct d as [id []]; done. Qed.

(** The held IDs are healthy; of the others, the first [room - granted]. *)
Lemma grant_ids_healthy held room granted ids :
  filter (fun id => id ∈ held) (healthy_ids (grant_ids held room granted ids)) = filter (fun id => id ∈ held) ids /\
  filter (fun id => id ∉ held) (healthy_ids (grant_ids held room granted ids))
    = take (Z.to_nat (room - granted)) (filter (fun id => id ∉ held) ids).
Proof.
  revert granted. induction ids as [|id ids IH]; intros granted; [cbn; by rewrite take_nil|]. cbn [grant_ids].
  rewrite !filter_cons. case_bool_decide as Hh.
  - destruct (IH granted) as [IH1 IH2]. rewrite healthy_cons. cbn [DevHealthy DevID app]. rewrite !filter_cons.
    rewrite !(decide_True _ _ Hh), !decide_False by tauto. by rewrite IH1, IH2.
  - destruct (Z.ltb_spec granted room) as [Hlt|Hge].
    + destruct (IH (granted + 1)) as [IH1 IH2]. rewrite healthy_cons. cbn [DevHealthy DevID app]. rewrite !filter_cons.
      rewrite !(decide_False _ _ Hh), !decide_True by done. rewrite IH1, IH2. split; [done|].
      replace (Z.to_nat (room - granted)) with (S (Z.to_nat (room - (granted + 1)))) by lia. done.
    + destruct (IH granted) as [IH1 IH2]. rewrite healthy_cons. cbn [DevHealthy app].
      rewrite !(decide_False _ _ Hh), !decide_True by done. rewrite IH1, IH2. split; [done|].
      replace (Z.to_nat (room - granted)) with 0%nat by lia. done.
Qed.

(** Every ID of every partitioned accelerator of the inventory, whatever its state. *)
Definition ceiling_ids (s : Server) (p : DevicesGroup * Accelerator) : list string :=
  if bool_decide (GrpManufacturer p.1 = Manufacturer s) && IsPartitioned (AccStatus p.2)
  then DeviceIDs (resource_of p.1 p.2) (AllocationMode s) (PhysicalCount (AccStatus p.2)) else [].

Lemma pool_ids s devs : (partition_pool s devs).1 = mjoin (ceiling_ids s <$> spec_list devs).
Proof.
  unfold partition_pool, spec_list.
  assert (forall grp accs st, GrpManufacturer grp = Manufacturer s ->
    (foldl (pool_card s devs grp) st accs).1 = st.1 ++ mjoin (ceiling_ids s <$> ((fun acc => (grp, acc)) <$> accs))) as Hc.
  { intros grp accs st Hm. revert st. induction accs as [|acc accs IH]; intros st; cbn [foldl]; [by rewrite app_nil_r|].
    rewrite IH, !fmap_cons. cbn [mjoin list_join]. unfold ceiling_ids at 2, pool_card. cbn [fst snd].
    rewrite bool_decide_true by done. destruct (IsPartitioned _); cbn; [by rewrite <- app_assoc|done]. }
  assert (forall grps st,
    (foldl (fun st grp => if negb (bool_decide (GrpManufacturer grp = Manufacturer s)) then st
                          else foldl (pool_card s devs grp) st (GrpAccelerators grp)) st grps).1
    = st.1 ++ mjoin (ceiling_ids s <$> mjoin ((fun grp => (fun acc => (grp, acc)) <$> GrpAccelerators grp) <$> grps))) as Hg.
  { induction grps as [|grp grps IH]; intros st; cbn [foldl]; [by rewrite app_nil_r|].
    rewrite IH, fmap_cons. cbn [mjoin list_join]. rewrite fmap_app, join_app, app_assoc. f_equal.
    destruct (decide (GrpManufacturer grp = Manufacturer s)) as [Hm|Hm].
    - rewrite bool_decide_true by done. by apply Hc.
    - rewrite bool_decide_false by done. cbn [negb].
      assert (mjoin (ceiling_ids s <$> ((fun acc => (grp, acc)) <$> GrpAccelerators grp)) = []) as ->; [|by rewrite app_nil_r].
      induction (GrpAccelerators grp) as [|acc l IHl]; [done|]. cbn. unfold ceiling_ids at 1. cbn.
      by rewrite bool_decide_false. }
  apply Hg.
Qed.

(** The partition pool advertises every ID of every partitioned accelerator, in a
    fixed order; the healthy ones are exactly those a live allocation holds and the
    first of the others, as many as the instances the node accounts for exceed the
    held ones. *)
Theorem partition_pool_exact (s : Server) (n : Node) (snap : Snapshot) :
  AllocationMode s = ModePartitioned ->
  let held := liveDeviceIDs n (SnapPods snap) in
  let '(ids, room) := partition_pool s (SnapDevices snap) in
  let resp := getListAndWatchResponse s n snap in
  let live := length (filter (fun id => id ∈ held) ids) in
  ids = mjoin (ceiling_ids s <$> spec_list (SnapDevices snap)) /\ DevID <$> resp = ids /\
  filter (fun id => id ∈ held) (healthy_ids resp) = filter (fun id => id ∈ held) ids /\
  filter (fun id => id ∉ held) (healthy_ids resp)
    = take (Z.to_nat (room - Z.of_nat live)) (filter (fun id => id ∉ held) ids).
Proof.
  intros Hm held. unfold getListAndWatchResponse. rewrite bool_decide_true by done.
  unfold getPartitionListAndWatchResponse. fold held. rewrite <- pool_ids.
  destruct (partition_pool s (SnapDevices snap)) as [ids room].
  split; [done|]. split; [apply grant_ids_ids|]. apply grant_ids_healthy.
Qed.

(** ** Healthy IDs and the Allocate that follows *)

Definition pool_size (s : Server) (acc : Accelerator) : Z :=
  match AllocationMode s with ModeSliced => LogicalCount (AccStatus acc) | _ => 0 end.

Lemma advertised_healthy s n snap id :
  AllocationMode s <> ModePartitioned -> AllocationMode s <> ModeVisibility ->
  {| DevID := id; DevHealthy := true |} ∈ getListAndWatchResponse s n snap ->
  exists p, p ∈ spec_list (SnapDevices snap) /\ GrpManufacturer p.1 = Manufacturer s /\
    id ∈ DeviceIDs (resource_of p.1 p.2) (AllocationMode s) (pool_size s p.2) /\
    cardHeldInOtherMode s n (SnapDevices snap) (resource_of p.1 p.2) = None.
Proof.
  intros Hp Hv. unfold getListAndWatchResponse. rewrite bool_decide_false by done.
  intros (l & Hl & (grp & -> & Hgrp)%list_elem_of_fmap)%list_elem_of_join.
  destruct (bool_decide_reflect (GrpManufacturer grp = Manufacturer s)) as [Hm|]; [|by apply not_elem_of_nil in Hl].
  cbn [negb] in Hl. apply list_elem_of_join in Hl as (l & Hl & (acc & -> & Hacc)%list_elem_of_fmap).
  exists (grp, acc). cbn [fst snd]. split_and!; [|done| |].
  - unfold spec_list. apply list_elem_of_join. eexists. split; [|apply list_elem_of_fmap; by exists grp].
    apply list_elem_of_fmap. by exists acc.
  - unfold advertiseCard in Hl. destruct (negb _); [by apply not_elem_of_nil in Hl|].
    by apply list_elem_of_fmap in Hl as (id' & [= -> _] & Hid).
  - unfold advertiseCard in Hl. destruct (negb _); [by apply not_elem_of_nil in Hl|].
    apply list_elem_of_fmap in Hl as (id' & [= _ Hh] & _). destruct (Unhealthy _); [done|].
    rewrite bool_decide_false in Hh by done. cbn in Hh. by destruct (cardHeldInOtherMode _ _ _ _).
Qed.

Lemma device_id_resource res mode poolSize id :
  nameable res = true -> poolSize < 2 ^ 31 -> id ∈ DeviceIDs res mode poolSize -> id_resource id = Some res.
Proof.
  intros Hn Hp. destruct (DeviceIDs_tokens res mode poolSize) as (indexes & -> & _ & Hr). specialize (Hr Hp).
  rewrite list.Forall_forall in Hr. intros (i & -> & Hi)%list_elem_of_fmap. unfold id_resource.
  by rewrite parse_token_string by auto.
Qed.

Section Composition.
Context `{Tables : NameTables}.


End Composition.

(** ** The hint and the Allocate that follows *)

(** *** Tokens that came out of an ID go back into one *)

Definition valid_token (t : ResourceToken) : Prop :=
  nameable (TokenResource t) = true /\ 0 <= Index t < 2 ^ 64.

Lemma split_on_free sep s : Forall (fun w => free_of sep w = true) (split_on sep s).
Proof.
  induction s as [|c s IH]; cbn; [by repeat constructor|]. destruct (Ascii.eqb c sep) eqn:E; [by constructor|].
  destruct (split_on sep s) as [|w ws]; [constructor; [cbn; by rewrite E|done]|].
  apply Forall_cons in IH as [Hw Hws]. constructor; [cbn; by rewrite E, Hw|done].
Qed.

Lemma parse_digits_nonneg s acc z : 0 <= acc -> parse_digits acc s = Some z -> 0 <= z.
Proof.
  revert acc. induction s as [|c s IH]; intros acc Ha; cbn [parse_digits]; [by intros [= <-]|].
  destruct (_ && _) eqn:E; [|done]. apply andb_true_iff in E as [E1%Z.leb_le _]. apply IH. lia.
Qed.

Lemma parse_valid id t : ParseResourceToken id = Some t -> valid_token t.
Proof.
  unfold ParseResourceToken. pose proof (split_on_free ":"%char id) as Hf.
  destruct (split_on _ id) as [|g [|c [|x [|]]]]; try done.
  apply Forall_cons in Hf as [Hg [Hc _]%Forall_cons].
  destruct (bool_decide_reflect (g = "")) as [|Hgn]; [done|]. destruct (bool_decide_reflect (c = "")) as [|Hcn]; [done|].
  cbn [orb]. destruct (ParseUint x) as [idx|] eqn:Hx; [|done]. intros [= <-]. split; cbn.
  - unfold nameable. cbn. by rewrite !bool_decide_false, Hg, Hc.
  - unfold ParseUint, parse_unsigned in Hx. destruct x; [done|]. destruct (parse_digits _ _) as [z|] eqn:Hz; [|done].
    destruct (Z.ltb_spec z (2 ^ 64)); [|done]. injection Hx as <-. apply parse_digits_nonneg in Hz; lia.
Qed.

(** The tokens of a request by accelerator, each from an ID of the request. *)
Definition tokens_from (ids : list string) (m : CardTokens) : Prop :=
  forall res tokens, m !! res = Some tokens -> tokens <> [] /\
    Forall (fun t => TokenResource t = res /\ exists id, id ∈ ids /\ ParseResourceToken id = Some t) tokens.

Lemma parse_tokens_from all ids m m' :
  (forall id, id ∈ ids -> id ∈ all) -> tokens_from all m -> parse_tokens ids m = inr m' -> tokens_from all m'.
Proof.
  revert m. induction ids as [|id ids IH]; intros m Hall Hm; cbn [parse_tokens]; [by intros [= <-]|].
  destruct (ParseResourceToken id) as [t|] eqn:Ht; [|done].
  apply IH; [intros id' Hid; apply Hall; by right|]. intros res tokens. unfold push_token.
  intros [[<- <-]|[_ Hl]]%lookup_insert_Some; [|by apply Hm].
  split; [by destruct (default _ _)|]. apply Forall_app. split.
  - destruct (m !! TokenResource t) as [ts|] eqn:E; [by apply Hm|constructor].
  - apply Forall_singleton. split; [done|]. exists id. split; [apply Hall; left|done].
Qed.

Lemma parse_token_strings ts m :
  Forall valid_token ts -> parse_tokens (token_string <$> ts) m = inr (foldl push_token m ts).
Proof.
  intros Hv. revert m. induction Hv as [|t ts [H1 H2] _ IH]; intros m; [done|]. cbn. by rewrite parse_token_string.
Qed.

Lemma push_tokens_single ts :
  NoDup (TokenResource <$> ts) ->
  forall res tokens, foldl push_token ∅ ts !! res = Some tokens <-> exists t, t ∈ ts /\ TokenResource t = res /\ tokens = [t].
Proof.
  induction ts as [|t ts IH] using rev_ind; intros Hn res tokens; [split; [done|by intros (t & ?%not_elem_of_nil & _)]|].
  rewrite fmap_app in Hn. apply NoDup_app in Hn as (Hn & Hd & _). specialize (IH Hn).
  rewrite foldl_app. cbn. unfold push_token at 1.
  assert (foldl push_token ∅ ts !! TokenResource t = None) as Ht.
  { destruct (_ !! _) as [ts'|] eqn:E; [|done]. exfalso. apply IH in E as (t' & Hin & He & _).
    apply (Hd (TokenResource t)); [rewrite <- He; by apply list_elem_of_fmap_2|left]. }
  rewrite Ht. cbn. destruct (decide (TokenResource t = res)) as [<-|Hne].
  - rewrite lookup_insert_eq. split; [intros [= <-]; exists t; split_and!; [set_solver|done|done]|].
    intros (t' & [Hin|Hin%list_elem_of_singleton]%elem_of_app & He & ->); [|by rewrite Hin].
    exfalso. apply (Hd (TokenResource t)); [rewrite <- He; by apply list_elem_of_fmap_2|left].
  - rewrite lookup_insert_ne, IH by done. split; [intros (t' & ? & ? & ?); exists t'; set_solver|].
    intros (t' & [Hin|Hin%list_elem_of_singleton]%elem_of_app & He & ->); [eauto|congruence].
Qed.

(** *** The walk *)

Definition visit_resource (v : nat * DevicesGroup * nat) : Resource := resource_at v.1.2 v.2.

Lemma resource_at_all grp :
  resource_at grp <$> seq 0 (length (GrpAccelerators grp)) = resource_of grp <$> GrpAccelerators grp.
Proof.
  apply list_eq. intros j. rewrite !list_lookup_fmap.
  destruct (GrpAccelerators grp !! j) as [acc|] eqn:E.
  - pose proof (lookup_lt_Some _ _ _ E). rewrite lookup_seq_lt by done. cbn. unfold resource_at. by rewrite E.
  - apply lookup_ge_None in E. rewrite lookup_seq_ge by done. done.
Qed.

Lemma packing_perm room grp must units :
  slicedPackingOrder room grp must units ≡ₚ seq 0 (length (GrpAccelerators grp)).
Proof. unfold slicedPackingOrder. destruct (_ <=? _); [done|]. apply sort_stable_perm. Qed.

Lemma visits_nodup h : NoDup (spec_resources (RoomDevs (HintRoom h))) -> NoDup (visit_resource <$> visits h).
Proof.
  rewrite spec_resources_list. unfold visits, spec_list. generalize (SpecGroups (RoomDevs (HintRoom h))) as grps.
  set (F := fun (i : nat) grp => if negb (bool_decide (GrpManufacturer grp = Manufacturer (HintServer h))) then []
            else (fun j => (i, grp, j)) <$> slicedPackingOrder (HintRoom h) grp (HintMust h) (HintUnits h)).
  intros grps Hn.
  assert (forall grps (f : nat -> nat), exists l,
    (visit_resource <$> mjoin (imap (fun i => F (f i)) grps)) ≡ₚ l /\
    l `sublist_of` ((fun p => resource_of p.1 p.2) <$>
                     mjoin ((fun grp => (fun acc => (grp, acc)) <$> GrpAccelerators grp) <$> grps))) as Hperm.
  { clear. induction grps as [|grp grps IH]; intros f; [exists []; split; [done|constructor]|].
    rewrite imap_cons, fmap_cons. cbn [mjoin list_join]. rewrite !fmap_app.
    destruct (IH (f ∘ S)) as (l & Hl & Hs). unfold F at 1. destruct (negb _).
    - exists l. split; [exact Hl|]. by apply sublist_inserts_l.
    - exists ((resource_of grp <$> GrpAccelerators grp) ++ l). split.
      + apply Permutation_app; [|exact Hl]. rewrite <- list_fmap_compose, <- resource_at_all.
        change (visit_resource ∘ (fun j => (f 0%nat, grp, j))) with (resource_at grp). by rewrite packing_perm.
      + apply sublist_app; [|done]. rewrite <- list_fmap_compose. done. }
  destruct (Hperm grps (fun i => i)) as (l & -> & Hs). by eapply sublist_NoDup.
Qed.

(** A token the walk may take. *)
Record offered (h : Hint) (t : ResourceToken) : Prop := {
  offered_valid : valid_token t;
  offered_available : exists tokens, HintAvailable h !! TokenResource t = Some tokens /\ t ∈ tokens;
  offered_fits : 0 < HintUnits h -> fits_slice (HintRoom h) (TokenResource t) (HintUnits h) = true }.

Record walked (h : Hint) (sel : Selection) : Prop := {
  walked_distinct : NoDup (TokenResource <$> Selected sel);
  walked_offered : Forall (offered h) (Selected sel);
  walked_size : RemainingSize sel = HintSize h - Z.of_nat (length (Selected sel)) }.

Definition valid_available (h : Hint) : Prop :=
  forall res tokens, HintAvailable h !! res = Some tokens ->
    Forall (fun t => TokenResource t = res /\ valid_token t) tokens.

Lemma visit_walked h sel v sel' taken :
  HintPreferred h = [] -> HintMust h = ∅ -> valid_available h ->
  walked h sel -> 0 < RemainingSize sel < 2 ^ 31 -> visit_resource v ∉ (TokenResource <$> Selected sel) ->
  visit h sel v = (sel', taken) ->
  walked h sel' /\ (RemainingSize sel' = RemainingSize sel - if taken then 1 else 0) /\
  (forall res, res ∈ (TokenResource <$> Selected sel') -> res ∈ (TokenResource <$> Selected sel) \/ res = visit_resource v).
Proof.
  intros Hp Hm Ha Hw Hr Hv. destruct v as [[i grp] j]. unfold visit, visit_resource in *. cbn [fst snd] in *.
  set (res := resource_at grp j) in *.
  assert (forall s b, (sel, false) = (s, b) -> walked h s /\ (RemainingSize s = RemainingSize sel - if b then 1 else 0) /\
    (forall r, r ∈ (TokenResource <$> Selected s) -> r ∈ (TokenResource <$> Selected sel) \/ r = res)) as Hskip.
  { intros s b [= <- <-]. split_and!; [done|lia|by left]. }
  destruct (HintAvailable h !! res) as [[|t ts]|] eqn:Hav; [apply Hskip| |apply Hskip].
  destruct (other_mode _ _); [apply Hskip|]. rewrite Hm, lookup_empty.
  apply Ha in Hav as Hall. apply Forall_cons in Hall as [[Ht Hval] _].
  destruct ((0 <? HintUnits h) && _) eqn:Hfit.
  { intros [= <- <-]. cbn. destruct Hw. split_and!; [by constructor|lia|by left]. }
  unfold hasPreferred. rewrite Hp. cbn [length Nat.eqb negb andb]. intros [= <- <-]. cbn.
  destruct Hw as [Hd Ho Hs]. split_and!; [constructor; cbn| |].
  - rewrite fmap_app. apply NoDup_app. split_and!; [done| |apply NoDup_singleton].
    intros r Hr1 Hr2%list_elem_of_singleton. subst r. by rewrite Ht in Hr1.
  - apply Forall_app. split; [done|]. apply Forall_singleton. constructor; [done| |].
    + exists (t :: ts). rewrite Ht. split; [done|left].
    + intros Hu. rewrite Ht. destruct (Z.ltb_spec 0 (HintUnits h)); [|lia]. by apply negb_false_iff in Hfit.
  - rewrite length_app, i32_small by (unfold is_i32; lia). cbn. lia.
  - rewrite i32_small by (unfold is_i32; lia). lia.
  - intros r. rewrite fmap_app, elem_of_app. cbn. rewrite list_elem_of_singleton, Ht. tauto.
Qed.

Lemma walk_walked h vs sel :
  HintPreferred h = [] -> HintMust h = ∅ -> valid_available h -> NoDup (visit_resource <$> vs) ->
  (forall v, v ∈ vs -> visit_resource v ∉ (TokenResource <$> Selected sel)) ->
  walked h sel -> 0 < RemainingSize sel < 2 ^ 31 ->
  walked h (walk h vs sel) /\ 0 <= RemainingSize (walk h vs sel).
Proof.
  intros Hp Hm Ha. revert sel. induction vs as [|v vs IH]; intros sel Hn Hv Hw Hr; [split; [done|cbn; lia]|].
  cbn [walk]. destruct (visit h sel v) as [sel' taken] eqn:Hvis.
  apply (visit_walked h sel v sel' taken) in Hvis as (Hw' & Hr' & Hsub); [|done..|apply Hv; left].
  rewrite fmap_cons in Hn. apply NoDup_cons in Hn as [Hnv Hn].
  unfold hasPreferred. rewrite Hp. cbn [length Nat.eqb negb]. rewrite andb_true_r.
  assert (forall v', v' ∈ vs -> visit_resource v' ∉ (TokenResource <$> Selected sel')) as Hfresh.
  { intros v' Hv' [Hin|He]%Hsub; [by apply (Hv v'); [right|]|]. apply Hnv. rewrite <- He. by apply list_elem_of_fmap_2. }
  destruct taken; cbn [andb].
  - destruct (Z.leb_spec (RemainingSize sel') 0); [split; [done|lia]|]. apply IH; [done|done|done|lia].
  - apply IH; [done|done|done|lia].
Qed.

Section HintAccepted.
Context `{Tables : NameTables}.

(** Without a preference and without devices kubelet has already chosen, a hint
    for logical slices that is not empty names as many accelerators as were asked
    for, each once and out of the available ones, and the Allocate of exactly those
    IDs for the same container on the same occupancy is not refused for lack of
    room. *)
Theorem hint_is_accepted (s : Server) (devs : Devices) (o : Occupancy) (pod : Pod) (ctr : Container)
    (available : list string) (count q : Z) (ids : list string) :
  AllocationMode s = ModeSliced -> NoDup (spec_resources devs) -> 0 < count < 2 ^ 31 ->
  Limits ctr !! GetAcceleratableSlicedUnitsResourceName (Manufacturer s) = Some q -> 0 < q ->
  getContainerPreferredAllocationResponse s (slicedRoomFor devs (Some o) (Some (pod, ctr))) [] (Some ctr)
    available [] count = inr ids -> ids <> [] ->
  Z.of_nat (length ids) = count /\
  exists tokens, parse_tokens ids ∅ = inr tokens /\
    (forall res ts, tokens !! res = Some ts -> exists t, ts = [t] /\ exists id, id ∈ available /\
       ParseResourceToken id = Some t) /\
    rejectSlicedOvercommit devs (Some o) pod ctr tokens q = None.
Proof.
  intros Hs Hn Hc Hq Hq0. unfold getContainerPreferredAllocationResponse.
  intros (avail & Hav & Hresp)%try_inr Hne. cbn [sort_strings merge_sort] in Hresp.
  apply try_inr in Hresp as (must & [= <-] & Hresp). cbn zeta in Hresp. cbn [length Nat.eqb negb andb] in Hresp.
  set (h := {| HintServer := s |}) in *.
  assert (tokens_from available avail) as Hfrom.
  { eapply parse_tokens_from; [|by intros res ts; rewrite lookup_empty|exact Hav].
    intros id. unfold sort_strings. by rewrite merge_sort_Permutation. }
  assert (valid_available h) as Hvalid.
  { intros res ts Hts. apply Hfrom in Hts as [_ Hts]. eapply Forall_impl; [exact Hts|].
    intros t (Ht & id & _ & Hid%parse_valid). done. }
  destruct (walk_walked h (visits h) {| Selected := []; Unselected := []; RemainingSize := count;
              PreferredLeft := list_to_set [] |}) as [[Hd Ho Hsize] Hrem]; try done.
  { by apply visits_nodup. }
  { intros v _. apply not_elem_of_nil. }
  { constructor; [constructor|constructor|cbn; lia]. }
  unfold selectPreferredUnits, hasPreferred in Hresp. cbn [h HintPreferred length Nat.eqb negb] in Hresp.
  fold h in Hresp. set (sel := walk h (visits h) _) in *. change (HintSize h) with count in *.
  destruct (Z.ltb_spec 0 (RemainingSize sel)); [by injection Hresp as <-|]. injection Hresp as <-.
  unfold hinted. cbn [length Nat.eqb]. rewrite length_fmap. split; [lia|].
  rewrite parse_token_strings by (eapply Forall_impl; [exact Ho|by intros t []]).
  eexists. split_and!; [done| |].
  - intros res ts (t & Hin & <- & ->)%push_tokens_single; [|done]. exists t. split; [done|].
    rewrite list.Forall_forall in Ho. destruct (Ho t Hin) as [_ (ts & Hts & Hin') _].
    apply Hfrom in Hts as [_ Hts]. rewrite list.Forall_forall in Hts. by apply Hts.
  - apply first_of_None, list.Forall_forall. intros res Hres. rewrite merge_sort_Permutation in Hres.
    apply list_elem_of_fmap in Hres as ([r ts] & -> & Hin%elem_of_map_to_list). cbn [fst]. rewrite Hin.
    apply push_tokens_single in Hin as (t & Hin & <- & ->); [|done]. cbn [from_option].
    rewrite list.Forall_forall in Ho. destruct (Ho t Hin) as [_ _ Hfits].
    assert (HintUnits h = unitsCharged q 1 /\ 0 < HintUnits h) as [Hunits Hpos].
    { unfold h. cbn [HintUnits]. unfold slicedUnitsOf. rewrite bool_decide_true, Hq by done. unfold unitsCharged, ResourceMaxUnits.
      rewrite (i64_small (_ * _)) by (unfold is_i64; lia).
      replace (Z.min (Z.min q 1600000 * Z.of_nat 1) 1600000) with (Z.min q 1600000) by lia.
      split; [done|]. rewrite i32_small by (unfold is_i32; lia). lia. }
    specialize (Hfits Hpos). unfold fits_slice in Hfits. change (length (id [t])) with 1%nat. rewrite <- Hunits.
    change (slicedRoomFor devs (Some o) (Some (pod, ctr))) with (HintRoom h).
    by destruct (shortage (HintRoom h) (TokenResource t) (HintUnits h)).
Qed.
End HintAccepted.

(** ** Examples *)

(** One instance is held and three more fit: of the seven IDs, the held one and the
    first three others are healthy. *)
Definition mig_ledger_snapshot : Snapshot := {|
  SnapDevices := {| SpecGroups := SpecGroups mig_devices;
                    StatusGroups := (BuildDesiredStatus true mig_devices (SnapPods mig_snapshot)).1 |};
  SnapPods := SnapPods mig_snapshot |}.

Lemma partition_pool_exact_witness :
  (partition_pool mig_server (SnapDevices mig_ledger_snapshot)).2 = 3 /\
  healthy_ids (getListAndWatchResponse mig_server empty_node mig_ledger_snapshot)
    = ["a100:GPU-9:0000"; "a100:GPU-9:0001"; "a100:GPU-9:0002"] /\
  length (DevID <$> getListAndWatchResponse mig_server empty_node mig_ledger_snapshot) = 7%nat.
Proof.
  pose proof (partition_pool_exact mig_server empty_node mig_ledger_snapshot eq_refl) as Hp. cbv zeta in Hp.
  destruct (partition_pool mig_server (SnapDevices mig_ledger_snapshot)) as [ids room] eqn:E.
  destruct Hp as (Hids & Hall & _). rewrite Hall, Hids. split_and!; [|vm_compute; reflexivity..].
  vm_compute in E. by injection E as _ <-.
Defined.


Lemma hint_is_accepted_witness :
  let o := slicedOccupancy true (node demo_start) (listed demo_start) in
  let pod := demo_pod "u1" 1 in
  exists ctr tokens, head (Containers pod) = Some ctr /\
    parse_tokens ["a100:GPU-1:0000"] ∅ = inr tokens /\
    rejectSlicedOvercommit demo_devices (Some o) pod ctr tokens 800000 = None.
Proof.
  intros o pod. eexists.
  destruct (@hint_is_accepted demo_tables demo_server demo_devices o pod
              {| CName := "main"; Requests := ∅; Limits := {["nvidia.com/gpu.sliced" := 1; "nvidia.com/gpu.sliced.units" := 800000]} |}
              ["a100:GPU-1:0000"; "a100:GPU-1:0001"] 1 800000 ["a100:GPU-1:0000"]) as (_ & tokens & Hp & _ & Hr).
  - done.
  - apply (bool_decide_eq_true_1 _). vm_compute. reflexivity.
  - done.
  - vm_compute. reflexivity.
  - done.
  - vm_compute. reflexivity.
  - done.
  - exists tokens. split_and!; [done|exact Hp|exact Hr].
Defined.
