(* ===== verification/MigRecords.v ===== *)
(** * Hardware partitions: ownership markers, and the node they live on

    src/pkg/devicemanager/allocator/nvidia/mig.go, first half, and the work
    directory of src/pkg/deviceplugin/inject.go.  A MIG partition carries no tag
    of its own, so the allocator writes a marker file per container and
    accelerator beside the Pod's other files.  The names of these files, what a
    scan of them tells, and the choice of a placement are here, with the [world]
    the programs of MigAllocate.v and MigReclaim.v act on: marker files, the GPU
    instances of each accelerator as NVML shows them, and the accelerator locks.

    The theorems of this file are about names and placements: a marker's path
    gives back its Pod and its accelerator, and the slot picked is the lowest
    free one. *)

From stdpp Require Import prelude gmap strings list sorting.
From Stdlib Require Import Ascii.
From S2P Require Import Prelude Programs Device PluginRecords.

(** ** Partitions *)

(** [migPlacement] has the fields of [AcceleratorPlacement], and is that record
    here. *)
Record migInstance := {
  GiID : Z; CiID : Z; ComputeSlices : Z; InstPlacement : AcceleratorPlacement; UUID : string }.
#[export] Instance migInstance_eq_dec : EqDecision migInstance.
Proof. solve_decision. Defined.

Record migCardState := { PossibleSlots : list AcceleratorPlacement; Live : list migInstance }.

Record migMarker := {
  MPodUID : string; MContainer : string; MCard : string; MProfile : string;
  MGiID : Z; MCiID : Z; MigUUID : string; MComputeSlices : Z; MStart : Z; MLength : Z }.
#[export] Instance migMarker_inhabited : Inhabited migMarker := populate {|
  MPodUID := ""; MContainer := ""; MCard := ""; MProfile := ""; MGiID := 0; MCiID := 0; MigUUID := "";
  MComputeSlices := 0; MStart := 0; MLength := 0 |}.
#[export] Instance migMarker_eq_dec : EqDecision migMarker.
Proof. solve_decision. Defined.

Definition instance (m : migMarker) : migInstance := {|
  GiID := MGiID m; CiID := MCiID m; ComputeSlices := MComputeSlices m;
  InstPlacement := {| Start := MStart m; Length := MLength m |}; UUID := MigUUID m |}.

(** ** File names *)

Fixpoint strip_prefix (p s : string) : option string :=
  match p, s with
  | EmptyString, _ => Some s
  | String a p, String b s => if Ascii.eqb a b then strip_prefix p s else None
  | String _ _, EmptyString => None
  end.

Definition reversed (s : string) : string := String.string_of_list_ascii (rev (String.list_ascii_of_string s)).

Definition strip_suffix (p s : string) : option string := reversed <$> strip_prefix (reversed p) (reversed s).

Definition HasPrefix (s p : string) : bool := bool_decide (is_Some (strip_prefix p s)).
Definition HasSuffix (s p : string) : bool := bool_decide (is_Some (strip_suffix p s)).
Definition TrimPrefix (s p : string) : string := default s (strip_prefix p s).
Definition TrimSuffix (s p : string) : string := default s (strip_suffix p s).

Definition markerName : string := "nvidia-mig.json".

Definition markerFileName (cardUUID : string) : string :=
  TrimSuffix markerName ".json" +:+ "-" +:+ cardUUID +:+ ".json".

(** A path is the list of its components below [OperatorPodsDir]: Pod UIDs,
    container names and GPU UUIDs have no separator in them. *)
Abbreviation path := (list string).

Definition PodWorkDir (podUID containerName : string) : path := [podUID; "c-" +:+ containerName].

Definition markerPath (podUID container cardUUID : string) : path :=
  PodWorkDir podUID container ++ [markerFileName cardUUID].
Arguments markerPath : simpl never.

(** [filepath.Base]; the last component of [OperatorPodsDir] is "pods". *)
Definition Base (p : path) : string := default "pods" (last p).

Definition isMarkerFile (name : string) : bool :=
  HasPrefix name (TrimSuffix markerName ".json" +:+ "-") && HasSuffix name ".json".

Definition cardFromMarkerPath (p : path) : option string :=
  let name := Base p in
  if negb (isMarkerFile name) then None
  else
    let card := TrimSuffix (TrimPrefix name (TrimSuffix markerName ".json" +:+ "-")) ".json" in
    if bool_decide (card = "") then None else Some card.

Definition podUIDFromMarkerPath (p : path) : option string :=
  if negb (isMarkerFile (Base p)) then None
  else
    match p with
    | [uid; _; _] => if bool_decide (uid = "") || bool_decide (uid = "..") then None else Some uid
    | _ => None
    end.

(** ** What a scan tells *)

Record markerEntry := { EntryPath : path; EntryMarker : migMarker }.

Definition ownedGiIDsOnCard (entries : list markerEntry) (cardUUID : string) : gset Z :=
  list_to_set ((fun e => MGiID (EntryMarker e)) <$> filter (fun e => MCard (EntryMarker e) = cardUUID) entries).

Definition ownershipUnknownOnCard (corrupt : list path) (cardUUID : string) : bool :=
  existsb (fun p => match cardFromMarkerPath p with
                    | None => true
                    | Some card => bool_decide (card = cardUUID)
                    end) corrupt.

Definition reuseUnboundInstance (state : migCardState) (owned : gset Z) (computeSlices memorySlices : Z)
    : option migInstance :=
  list_find (fun inst => UUID inst <> "" /\ ComputeSlices inst = computeSlices /\
               Length (InstPlacement inst) = memorySlices /\ GiID inst ∉ owned) (Live state) ≫= (fun r => Some r.2).

Definition findLiveInstance (state : migCardState) (giID : Z) : option migInstance :=
  (list_find (fun inst => GiID inst = giID) (Live state)) ≫= (fun r => Some r.2).

(** ** Placements *)

Definition slotOverlapsAny (slot : AcceleratorPlacement) (occupied : list AcceleratorPlacement) : bool :=
  let slotEnd := i32 (Start slot + Length slot) in
  existsb (fun occ => (Start slot <? i32 (Start occ + Length occ)) && (Start occ <? slotEnd)) occupied.

(** [slices.SortFunc] by [Start]; the placements of one profile differ in it. *)
Definition start_le (a b : AcceleratorPlacement) : Prop := Start a <= Start b.
#[export] Instance start_le_dec : RelDecision start_le.
Proof. unfold start_le. solve_decision. Defined.

Definition pickPlacement (possible occupied : list AcceleratorPlacement) : option AcceleratorPlacement :=
  (list_find (fun slot => slotOverlapsAny slot occupied = false) (merge_sort start_le possible))
    ≫= (fun r => Some r.2).

(** ** Names give back what they were made from *)

Lemma strip_prefix_spec p s r : strip_prefix p s = Some r <-> s = p +:+ r.
Proof.
  revert s. induction p as [|a p IH]; intros s; cbn [strip_prefix].
  { split; [by intros [= ->]|by intros ->]. }
  destruct s as [|b s]; [by split|]. change (String a p +:+ r) with (String a (p +:+ r)).
  destruct (Ascii.eqb_spec a b) as [->|Hne].
  - rewrite IH. split; [by intros ->|by intros [= ->]].
  - split; [done|]. intros [= ? ?]. by subst.
Qed.

Lemma list_ascii_app a b :
  String.list_ascii_of_string (a +:+ b) = String.list_ascii_of_string a ++ String.list_ascii_of_string b.
Proof.
  induction a as [|x a IH]; [done|].
  change (x :: String.list_ascii_of_string (a +:+ b) = x :: String.list_ascii_of_string a ++ String.list_ascii_of_string b).
  by rewrite IH.
Qed.

Lemma string_of_app a b :
  String.string_of_list_ascii (a ++ b) = String.string_of_list_ascii a +:+ String.string_of_list_ascii b.
Proof.
  induction a as [|x a IH]; [done|].
  change (String x (String.string_of_list_ascii (a ++ b)) = String x (String.string_of_list_ascii a +:+ String.string_of_list_ascii b)).
  by rewrite IH.
Qed.

Lemma reversed_app a b : reversed (a +:+ b) = reversed b +:+ reversed a.
Proof. unfold reversed. by rewrite list_ascii_app, rev_app_distr, string_of_app. Qed.

Lemma reversed_involutive s : reversed (reversed s) = s.
Proof.
  unfold reversed. by rewrite String.list_ascii_of_string_of_list_ascii, rev_involutive,
    String.string_of_list_ascii_of_string.
Qed.

Lemma strip_suffix_spec p s r : strip_suffix p s = Some r <-> s = r +:+ p.
Proof.
  unfold strip_suffix. rewrite fmap_Some. setoid_rewrite strip_prefix_spec. split.
  - intros (x & Hs & ->). rewrite <- (reversed_involutive s), Hs, reversed_app. by rewrite reversed_involutive.
  - intros ->. exists (reversed r). by rewrite reversed_app, reversed_involutive.
Qed.

Lemma trim_prefix_app p s : TrimPrefix (p +:+ s) p = s.
Proof. unfold TrimPrefix. by rewrite (proj2 (strip_prefix_spec p (p +:+ s) s)). Qed.
Lemma trim_suffix_app p s : TrimSuffix (s +:+ p) p = s.
Proof. unfold TrimSuffix. by rewrite (proj2 (strip_suffix_spec p (s +:+ p) s)). Qed.

Lemma marker_stem : TrimSuffix markerName ".json" = "nvidia-mig".
Proof. reflexivity. Qed.

Lemma string_app_assoc (a b c : string) : (a +:+ b) +:+ c = a +:+ (b +:+ c).
Proof.
  induction a as [|x a IH]; [done|].
  change (String x ((a +:+ b) +:+ c) = String x (a +:+ (b +:+ c))). by rewrite IH.
Qed.

(** A name is a marker's when it has both ends, whatever stands between. *)
Lemma isMarkerFile_spec name : isMarkerFile name = true <-> exists card, name = markerFileName card.
Proof.
  unfold isMarkerFile, HasPrefix, HasSuffix, markerFileName. rewrite marker_stem.
  rewrite andb_true_iff, !bool_decide_eq_true. split.
  - intros [[a Ha%strip_prefix_spec] [b Hb%strip_suffix_spec]].
    assert (exists card, a = card +:+ ".json") as [card ->].
    { rewrite Ha in Hb. clear Ha. revert b Hb. change ("nvidia-mig" +:+ "-") with "nvidia-mig-".
      intros b Hb. apply (f_equal reversed) in Hb. rewrite !reversed_app in Hb.
      destruct (reversed a) as [|c1 [|c2 [|c3 [|c4 [|c5 r]]]]] eqn:Hr; try discriminate Hb.
      cbn in Hb. injection Hb as -> -> -> -> -> Hb. exists (reversed r).
      rewrite <- (reversed_involutive a), Hr.
      change (String "n" (String "o" (String "s" (String "j" (String "." r))))) with (reversed ".json" +:+ r).
      by rewrite reversed_app. }
    exists card. rewrite Ha. by rewrite string_app_assoc.
  - intros [card ->]. split.
    + exists (card +:+ ".json"). apply strip_prefix_spec. by rewrite string_app_assoc.
    + exists ("nvidia-mig" +:+ "-" +:+ card). apply strip_suffix_spec. by rewrite !string_app_assoc.
Qed.

Lemma card_of_name card : TrimSuffix (TrimPrefix (markerFileName card) "nvidia-mig-") ".json" = card.
Proof.
  change (markerFileName card) with ("nvidia-mig-" +:+ (card +:+ ".json")).
  by rewrite trim_prefix_app, trim_suffix_app.
Qed.

Lemma markerFileName_inj card1 card2 : markerFileName card1 = markerFileName card2 -> card1 = card2.
Proof. intros H. by rewrite <- (card_of_name card1), H, card_of_name. Qed.

Lemma cardFromMarkerPath_spec p card :
  cardFromMarkerPath p = Some card <-> Base p = markerFileName card /\ card <> "".
Proof.
  unfold cardFromMarkerPath. rewrite marker_stem. change ("nvidia-mig" +:+ "-") with "nvidia-mig-".
  destruct (isMarkerFile (Base p)) eqn:Hm; cbn [negb].
  - apply isMarkerFile_spec in Hm as [c ->]. rewrite card_of_name. case_bool_decide as He.
    + split; [done|]. intros [Hc%markerFileName_inj Hne]. congruence.
    + split; [by intros [= <-]|]. by intros [->%markerFileName_inj _].
  - split; [done|]. intros [Hb _]. rewrite Hb, (proj2 (isMarkerFile_spec _)) in Hm; [done|eauto].
Qed.

Lemma base_markerPath uid container card : Base (markerPath uid container card) = markerFileName card.
Proof. done. Qed.

Lemma markerPath_inj uid1 ctr1 card1 uid2 ctr2 card2 :
  markerPath uid1 ctr1 card1 = markerPath uid2 ctr2 card2 -> uid1 = uid2 /\ ctr1 = ctr2 /\ card1 = card2.
Proof.
  unfold markerPath, PodWorkDir. cbn [app]. intros H. injection H as Hu Hc Hf.
  split_and!; [done|done|]. apply markerFileName_inj. exact (f_equal (fun s => "nvidia-mig-" +:+ s) Hf).
Qed.

(** The path of a marker names its accelerator and its Pod, even when the
    record inside cannot be read: both are read back from the path, and no two
    containers or accelerators share one. *)
Theorem marker_path_names_owner uid container card :
  uid <> "" -> uid <> ".." -> card <> "" ->
  cardFromMarkerPath (markerPath uid container card) = Some card /\
  podUIDFromMarkerPath (markerPath uid container card) = Some uid /\
  forall uid' container' card', markerPath uid' container' card' = markerPath uid container card ->
    uid' = uid /\ container' = container /\ card' = card.
Proof.
  intros Hu Hd Hc. split; [by apply cardFromMarkerPath_spec|]. split; [|intros u c d; apply markerPath_inj].
  unfold podUIDFromMarkerPath. rewrite base_markerPath, (proj2 (isMarkerFile_spec _)) by eauto.
  unfold markerPath. cbn. by rewrite !bool_decide_false.
Qed.

Lemma marker_path_names_owner_witness :
  cardFromMarkerPath (markerPath "5b1c" "main" "GPU-3") = Some "GPU-3" /\
  podUIDFromMarkerPath (markerPath "5b1c" "main" "GPU-3") = Some "5b1c".
Proof.
  destruct (marker_path_names_owner "5b1c" "main" "GPU-3") as (H1 & H2 & _); [done..|]. by split.
Defined.

(** ** The slot picked *)

Lemma slot_overlaps slot occupied : slotOverlapsAny slot occupied = placementOverlapsAny slot occupied.
Proof. done. Qed.

#[local] Instance start_le_total : Total start_le.
Proof. intros x y. unfold start_le. lia. Qed.
#[local] Instance start_le_trans : Transitive start_le.
Proof. intros x y z. unfold start_le. lia. Qed.

Lemma pick_lowest possible occupied slot :
  pickPlacement possible occupied = Some slot ->
  slot ∈ possible /\ placementOverlapsAny slot occupied = false /\
  forall s, s ∈ possible -> placementOverlapsAny s occupied = false -> Start slot <= Start s.
Proof.
  unfold pickPlacement. intros ((i & s) & (Hi & Hfree & Hbefore)%list_find_Some & [= ->])%bind_Some.
  set (l := merge_sort start_le possible) in *.
  assert (l ≡ₚ possible) as Hperm by apply merge_sort_Permutation.
  assert (StronglySorted start_le l) as Hsort by (apply StronglySorted_merge_sort; apply _).
  rewrite <- (take_drop_middle l i slot Hi) in Hperm, Hsort.
  split; [rewrite <- Hperm; set_solver|]. split; [done|]. intros s Hs Hsf. rewrite <- Hperm in Hs.
  apply elem_of_app in Hs as [Hs|Hs].
  { apply elem_of_take in Hs as (j & Hj & Hlt). by destruct (Hbefore j s Hj Hlt). }
  apply StronglySorted_app_1_r in Hsort. inversion Hsort as [|? ? _ Hall]; subst.
  apply elem_of_cons in Hs as [->|Hs]; [lia|]. rewrite list.Forall_forall in Hall. by apply Hall.
Qed.

Lemma pick_none possible occupied s :
  pickPlacement possible occupied = None -> s ∈ possible -> placementOverlapsAny s occupied = true.
Proof.
  unfold pickPlacement. destruct (list_find _ _) as [[i slot]|] eqn:Hf; [done|]. intros _ Hs.
  apply list_find_None in Hf. rewrite list.Forall_forall in Hf.
  rewrite <- (merge_sort_Permutation start_le possible) in Hs. specialize (Hf s Hs).
  rewrite slot_overlaps in Hf. by destruct (placementOverlapsAny s occupied).
Qed.
