(* ===== verification/MigWorld.v ===== *)
(** * Hardware partitions: the node as the allocator finds it

    The [world] the programs of MigAllocate.v and MigReclaim.v act on: the marker
    files below [OperatorPodsDir], the GPU instances of each accelerator as NVML
    shows them, the accelerator locks, and the counters of the two loops that
    clean up.  [perform] says what each call does and how it may fail; the driver
    calls are those of the [migDriver] interface (mig.go), with what its comments
    promise: an instance is identified before it is destroyed, an enumeration is
    complete or fails.  Which Pods exist, which containers an Allocate runs for
    and what they were answered is recorded beside, for the theorems only. *)

From stdpp Require Import prelude gmap strings list sorting.
From S2P Require Import Prelude Programs Device PluginRecords MigRecords.

Inductive ioerr := NotExist | IOError.
Inductive destroyErr := InUse | Refused.
Inductive queryErr := NoAddressableDevice | Unanswered.

(** A marker file; storage that lost its bytes leaves it [Damaged], and no read
    gives what it said. *)
Inductive content := Intact (m : migMarker) | Damaged (m : migMarker).

Definition recorded (c : content) : migMarker := match c with Intact m | Damaged m => m end.

(** A GPU instance: [Device] is the UUID of its MIG device, empty without a
    compute instance; [Procs] counts the processes on it. *)
Record GpuInstance := {
  Gi : Z; Slices : Z; Where : AcceleratorPlacement; MigDevice : string; Procs : Z }.

(** As an enumeration shows it. *)
Definition shown (g : GpuInstance) : migInstance := {|
  GiID := Gi g; CiID := 0; ComputeSlices := Slices g; InstPlacement := Where g; UUID := MigDevice g |}.

(** The keys of the reclaim loop's counters; the prefixes of the source keep the
    kinds apart, Pod UIDs being UUIDs. *)
Inductive missKey := PodKey (uid : string) | CardKey (card : string) | CorruptKey (p : path) | HeldKey (p : path).
#[export] Instance missKey_eq_dec : EqDecision missKey.
Proof. solve_decision. Defined.
#[export] Instance missKey_countable : Countable missKey.
Proof.
  apply (inj_countable' (fun k => match k with
    | PodKey u => inl (inl u) | CardKey c => inl (inr c) | CorruptKey p => inr (inl p) | HeldKey p => inr (inr p) end)
    (fun k => match k with
    | inl (inl u) => PodKey u | inl (inr c) => CardKey c | inr (inl p) => CorruptKey p | inr (inr p) => HeldKey p end)).
  by intros [].
Defined.

Record reclaimer := { misses : gmap missKey Z; inUse : gmap missKey Z }.

(** A container of a Pod. *)
Abbreviation holder := (string * string)%type.

Record world := {
  files : gmap path content;
  hardware : gmap string (list GpuInstance);
  locks : gmap string nat;
  sweep : reclaimer; sweeping : bool;
  dirMisses : gmap string Z; collecting : bool;
  lastLive : option (list string);
  (** [true] while the Pod exists. *)
  pods : gmap string bool;
  active : gmap holder nat;
  granted : gmap (holder * string) migInstance }.

Definition set_files f w := {| files := f (files w); hardware := hardware w; locks := locks w; sweep := sweep w;
  sweeping := sweeping w; dirMisses := dirMisses w; collecting := collecting w; lastLive := lastLive w;
  pods := pods w; active := active w; granted := granted w |}.
Definition set_hardware f w := {| files := files w; hardware := f (hardware w); locks := locks w; sweep := sweep w;
  sweeping := sweeping w; dirMisses := dirMisses w; collecting := collecting w; lastLive := lastLive w;
  pods := pods w; active := active w; granted := granted w |}.
Definition set_locks f w := {| files := files w; hardware := hardware w; locks := f (locks w); sweep := sweep w;
  sweeping := sweeping w; dirMisses := dirMisses w; collecting := collecting w; lastLive := lastLive w;
  pods := pods w; active := active w; granted := granted w |}.
Definition set_sweep r b w := {| files := files w; hardware := hardware w; locks := locks w; sweep := r;
  sweeping := b; dirMisses := dirMisses w; collecting := collecting w; lastLive := lastLive w;
  pods := pods w; active := active w; granted := granted w |}.
Definition set_collect m b w := {| files := files w; hardware := hardware w; locks := locks w; sweep := sweep w;
  sweeping := sweeping w; dirMisses := m; collecting := b; lastLive := lastLive w;
  pods := pods w; active := active w; granted := granted w |}.
Definition set_pods f w := {| files := files w; hardware := hardware w; locks := locks w; sweep := sweep w;
  sweeping := sweeping w; dirMisses := dirMisses w; collecting := collecting w; lastLive := lastLive w;
  pods := f (pods w); active := active w; granted := granted w |}.
Definition set_active f w := {| files := files w; hardware := hardware w; locks := locks w; sweep := sweep w;
  sweeping := sweeping w; dirMisses := dirMisses w; collecting := collecting w; lastLive := lastLive w;
  pods := pods w; active := f (active w); granted := granted w |}.
Definition set_granted f w := {| files := files w; hardware := hardware w; locks := locks w; sweep := sweep w;
  sweeping := sweeping w; dirMisses := dirMisses w; collecting := collecting w; lastLive := lastLive w;
  pods := pods w; active := active w; granted := f (granted w) |}.
Definition set_last l w := {| files := files w; hardware := hardware w; locks := locks w; sweep := sweep w;
  sweeping := sweeping w; dirMisses := dirMisses w; collecting := collecting w; lastLive := l;
  pods := pods w; active := active w; granted := granted w |}.

(** The instances of an accelerator. *)
Definition instances_on (card : string) (w : world) : list GpuInstance := default [] (hardware w !! card).
Definition view (card : string) (w : world) : list migInstance := shown <$> instances_on card w.

(** ** Actions *)

Inductive act : Type -> Type :=
  | LockCard (card : string) : act unit
  | UnlockCard (card : string) : act unit
  | ReadFile (p : path) : act (ioerr + option migMarker)
  | MkdirAll (p : path) : act (option ioerr)
  | DurableWrite (p : path) (m : migMarker) : act (option ioerr)
  | Remove (p : path) : act (option ioerr)
  | RemoveDir (p : path) : act (option ioerr)
  | RemoveAll (p : path) : act (option ioerr)
  | Lstat : act (option ioerr)
  | ReadDir (p : path) : act (list (string * bool) * option ioerr)
  | CardState (card profile : string) : act (option migCardState)
  | CreateInstance (card profile : string) (computeSlices : Z) (slot : AcceleratorPlacement)
      : act (option migInstance)
  | DestroyInstance (card : string) (inst : migInstance) : act (option destroyErr)
  | ListInstances : act (option (list (string * migInstance)))
  | CardInstances (card : string) : act (option (list migInstance))
  | InstanceProcesses (card : string) (inst : migInstance) : act (queryErr + Z)
  | LiveClaims : act (option (gmap string (list AcceleratorPlacement)))
  | Persist : act bool
  | Answer (h : holder) (insts : list (string * migInstance)) : act unit
  | Refuse (h : holder) : act unit
  | StoreSweep (r : reclaimer) : act unit
  | StoreCollect (m : gmap string Z) : act unit.

(** What the environment decides of one action. *)
Record choice := {
  (** the call fails, other than for a missing file *)
  failing : bool;
  (** a failed durable write has replaced the file, the directory sync failed *)
  landed : bool;
  (** the removal of a file fails *)
  stuck : bool;
  (** the entries a failed directory read still returned, the files a failed
      removal of a tree left *)
  partial : nat; left_over : path -> bool;
  (** an empty directory is gone *)
  gone : bool;
  (** the driver call fails, and whether it got half way *)
  driver : option destroyErr; late : bool;
  (** what the driver creates, and where a profile may go *)
  new_gi : Z; new_ci : Z; new_uuid : string;
  legal : string -> string -> list AcceleratorPlacement;
  (** the MIG devices are hidden from the process query *)
  hidden : bool;
  claimed : option (gmap string (list AcceleratorPlacement));
  persisted : bool }.

(** *** Directories *)

Fixpoint below (p q : path) : option path :=
  match p, q with
  | [], _ => Some q
  | a :: p, b :: q => if bool_decide (a = b) then below p q else None
  | _ :: _, [] => None
  end.

Definition child (p q : path) : option (string * bool) :=
  match below p q with Some (n :: rest) => Some (n, negb (bool_decide (rest = []))) | _ => None end.

Definition name_le (a b : string * bool) : Prop := String.le a.1 b.1.
#[export] Instance name_le_dec : RelDecision name_le.
Proof. intros a b. unfold name_le. apply _. Defined.

Definition children (p : path) (w : world) : list (string * bool) :=
  merge_sort name_le (remove_dups (omap (child p) (map_to_list (files w)).*1)).

(** *** The driver *)

Definition free_slot (slot : AcceleratorPlacement) (l : list GpuInstance) : bool :=
  negb (slotOverlapsAny slot (Where <$> l)).

(** What a call that creates an instance leaves: the whole instance, or on failure
    perhaps one without its compute instance. *)
Definition create (c : choice) (card : string) (computeSlices : Z) (slot : AcceleratorPlacement) (w : world)
    : option migInstance * world :=
  let l := instances_on card w in
  let add uuid := set_hardware (fun h => <[card := l ++ [{| Gi := new_gi c; Slices := computeSlices; Where := slot;
                                                              MigDevice := uuid; Procs := 0 |}]]> h) w in
  if bool_decide (new_gi c ∈ Gi <$> l) || negb (free_slot slot l) then (None, w)
  else match driver c with
       | None => if bool_decide (new_uuid c = "") then (None, w)
                 else (Some {| GiID := new_gi c; CiID := new_ci c; ComputeSlices := computeSlices;
                               InstPlacement := slot; UUID := new_uuid c |}, add (new_uuid c))
       | Some _ => (None, if late c then add "" else w)
       end.

(** [verifyInstanceIdentity]. *)
Definition same_identity (inst : migInstance) (g : GpuInstance) : bool :=
  bool_decide (MigDevice g = UUID inst) && bool_decide (Where g = InstPlacement inst).

Definition without_device (g : GpuInstance) : GpuInstance :=
  {| Gi := Gi g; Slices := Slices g; Where := Where g; MigDevice := ""; Procs := Procs g |}.

Definition destroy (c : choice) (card : string) (inst : migInstance) (w : world) : option destroyErr * world :=
  let l := instances_on card w in
  match list_find (fun g => Gi g = GiID inst) l with
  | None => (driver c, w)
  | Some (_, g) =>
      if negb (same_identity inst g) then (Some Refused, w)
      else match driver c with
           | None => (None, set_hardware <[card := filter (fun g => Gi g <> GiID inst) l]> w)
           | Some e =>
               (Some e, if late c
                        then set_hardware <[card := (fun g => if bool_decide (Gi g = GiID inst)
                                                              then without_device g else g) <$> l]> w
                        else w)
           end
  end.

Definition processes (c : choice) (card : string) (inst : migInstance) (w : world) : queryErr + Z :=
  match driver c with
  | Some _ => inl Unanswered
  | None =>
      match list_find (fun g => Gi g = GiID inst) (instances_on card w) with
      | Some (_, g) => if hidden c || bool_decide (MigDevice g = "") then inl NoAddressableDevice else inr (Procs g)
      | None => inl NoAddressableDevice
      end
  end.

(** *** One action *)

Definition answering {X} (c : choice) (x : X) : option X :=
  match driver c with None => Some x | Some _ => None end.

Definition perform (t : nat) (c : choice) {X} (a : act X) (w : world) : option (X * world) :=
  match a with
  | LockCard card => match locks w !! card with None => Some (tt, set_locks <[card := t]> w) | Some _ => None end
  | UnlockCard card =>
      if bool_decide (locks w !! card = Some t) then Some (tt, set_locks (delete card) w) else None
  | ReadFile p =>
      Some (if failing c then inl IOError
            else match files w !! p with
                 | None => inl NotExist
                 | Some (Intact m) => inr (Some m)
                 | Some (Damaged _) => inr None
                 end, w)
  | MkdirAll _ => Some (if failing c then Some IOError else None, w)
  | DurableWrite p m =>
      Some (if failing c then (Some IOError, if landed c then set_files <[p := Intact m]> w else w)
            else (None, set_files <[p := Intact m]> w))
  | Remove p =>
      Some (match files w !! p with
            | None => (Some NotExist, w)
            | Some _ => if stuck c then (Some IOError, w) else (None, set_files (delete p) w)
            end)
  | RemoveDir _ => Some (if failing c then Some IOError else None, w)
  | RemoveAll p =>
      Some (if failing c
            then (Some IOError, set_files (filter (fun pc => below p pc.1 = None \/ left_over c pc.1 = true)) w)
            else (None, set_files (filter (fun pc => below p pc.1 = None)) w))
  | Lstat =>
      Some (if failing c then Some IOError
            else if bool_decide (files w = ∅) && gone c then Some NotExist else None, w)
  | ReadDir p =>
      let l := children p w in
      Some (if failing c then (take (partial c) l, Some IOError)
            else match l with
                 | [] => ([], if gone c then Some NotExist else None)
                 | _ => (l, None)
                 end, w)
  | CardState card profile =>
      Some (answering c {| PossibleSlots := legal c card profile; Live := view card w |}, w)
  | CreateInstance card _ computeSlices slot => Some (create c card computeSlices slot w)
  | DestroyInstance card inst => Some (destroy c card inst w)
  | ListInstances =>
      Some (answering c (mjoin ((fun ci => (fun g => (ci.1, shown g)) <$> ci.2) <$> map_to_list (hardware w))), w)
  | CardInstances card => Some (answering c (view card w), w)
  | InstanceProcesses card inst => Some (processes c card inst w, w)
  | LiveClaims => Some (claimed c, w)
  | Persist => Some (persisted c, w)
  | Answer h insts =>
      Some (tt, set_active (delete h)
                  (set_granted (fun g => foldl (fun g ci => <[(h, ci.1) := ci.2]> g) g insts) w))
  | Refuse h => Some (tt, set_active (delete h) w)
  | StoreSweep r => Some (tt, set_sweep r false w)
  | StoreCollect m => Some (tt, set_collect m false w)
  end.

Abbreviation prog := (Programs.prog act).
Abbreviation run := (Programs.run (@perform)).
#[global] Open Scope prog_scope.
