(* ===== verification/MigAllocate.v ===== *)
(** * Hardware partitions: materializing one for a container

    src/pkg/devicemanager/allocator/nvidia/mig.go, second half, and
    mig_visibility.go.  Each function that touches the disk, the driver or a lock
    is a program over MigWorld.v.  [ActuatePhysicalSliced] answers the [Physical]
    the device plugin records (PluginAllocate.v); [servePartition] is the part of
    its Allocate that calls it, up to the answer or the rollback. *)

From stdpp Require Import prelude gmap strings list sorting.
From S2P Require Import Prelude Programs Device PluginRecords PluginLedger PluginNode PluginSlices PluginAllocate.
From S2P Require Import MigRecords MigWorld.

(** ** Markers *)

(** The checks of [parseMarker] on a record it could decode. *)
Definition marker_complete (p : path) (m : migMarker) : bool :=
  negb (bool_decide (MPodUID m = "") || bool_decide (MCard m = "") || bool_decide (MProfile m = "")
        || bool_decide (MigUUID m = ""))
  && bool_decide (cardFromMarkerPath p = Some (MCard m)).

Definition parseMarker (p : path) : prog (ioerr + migMarker) :=
  let! r := call (ReadFile p) in
  match r with
  | inl e => Ret (inl e)
  | inr None => Ret (inl IOError)
  | inr (Some m) => Ret (if marker_complete p m then inr m else inl IOError)
  end.

Definition writeMarker (p : path) (m : migMarker) : prog (option ioerr) :=
  let! err := call (MkdirAll (take 2 p)) in
  match err with
  | Some e => Ret (Some e)
  | None => call (DurableWrite p m)
  end.

Abbreviation scanned := (list markerEntry * list path)%type.

Definition visit_file (acc : scanned) (p : path) : prog scanned :=
  if negb (isMarkerFile (Base p)) then Ret acc
  else
    let! r := parseMarker p in
    match r with
    | inl _ => Ret (acc.1, acc.2 ++ [p])
    | inr m => Ret (acc.1 ++ [{| EntryPath := p; EntryMarker := m |}], acc.2)
    end.

(** [filepath.WalkDir].  A path of more than [fuel] components is too long for the
    system: reading it is an error like another. *)
Fixpoint walk (fuel : nat) (p : path) (acc : scanned) : prog scanned :=
  match fuel with
  | O => Ret (acc.1, acc.2 ++ [p])
  | S fuel =>
      let! r := call (ReadDir p) in
      let acc := match r.2 with Some IOError => (acc.1, acc.2 ++ [p]) | _ => acc end in
      for_all r.1 acc (fun acc e => if e.2 : bool then walk fuel (p ++ [e.1]) acc else visit_file acc (p ++ [e.1]))
  end.

(** Half of [PATH_MAX]: every component takes a separator and a byte. *)
Definition path_depth : nat := 2048.

Definition scanMarkers : prog scanned :=
  let! err := call Lstat in
  match err with
  | Some NotExist => Ret ([], [])
  | Some IOError => Ret ([], [[]])
  | None => walk path_depth [] ([], [])
  end.

(** ** One accelerator *)

Inductive migReserveOutcome := migCreated | migBound | migRebound.
#[export] Instance migReserveOutcome_eq_dec : EqDecision migReserveOutcome.
Proof. solve_decision. Defined.

Inductive reserveError :=
  | MarkerMismatch | CardUnread | InstanceMissing | IdReused | MarkerUnread | NoPlacement | CreateFailed | MarkerUnwritten.

Definition marker_of (podUID container cardUUID profile : string) (inst : migInstance) : migMarker := {|
  MPodUID := podUID; MContainer := container; MCard := cardUUID; MProfile := profile;
  MGiID := GiID inst; MCiID := CiID inst; MigUUID := UUID inst; MComputeSlices := ComputeSlices inst;
  MStart := Start (InstPlacement inst); MLength := Length (InstPlacement inst) |}.

(** The self marker was read: the container's own partition is bound again. *)
Definition rebind (cardUUID profile : string) (m : migMarker) : prog (reserveError + migInstance * migReserveOutcome) :=
  if negb (bool_decide (MProfile m = profile)) then Ret (inl MarkerMismatch)
  else
    let! state := call (CardState cardUUID profile) in
    match state with
    | None => Ret (inl CardUnread)
    | Some state =>
        match findLiveInstance state (MGiID m) with
        | None => Ret (inl InstanceMissing)
        | Some liveInst =>
            if negb (bool_decide (UUID liveInst = MigUUID m)) then Ret (inl IdReused)
            else Ret (inr (instance m, migRebound))
        end
    end.

(** Adopt an unbound instance of the profile, or create one. *)
Definition take_instance (cardUUID profile : string) (computeSlices memorySlices : Z) (state : migCardState)
    (entries : list markerEntry) (corrupt : list path) : prog (reserveError + migInstance * migReserveOutcome) :=
  let adoptable :=
    if ownershipUnknownOnCard corrupt cardUUID then None
    else reuseUnboundInstance state (ownedGiIDsOnCard entries cardUUID) computeSlices memorySlices in
  match adoptable with
  | Some inst => Ret (inr (inst, migBound))
  | None =>
      match pickPlacement (PossibleSlots state) (InstPlacement <$> Live state) with
      | None => Ret (inl NoPlacement)
      | Some slot =>
          let! inst := call (CreateInstance cardUUID profile computeSlices slot) in
          Ret (match inst with None => inl CreateFailed | Some inst => inr (inst, migCreated) end)
      end
  end.

Definition reserveMigInstance (podUID container cardUUID profile : string) (computeSlices memorySlices : Z)
    : prog (reserveError + migInstance * migReserveOutcome) :=
  let self := markerPath podUID container cardUUID in
  let! r := parseMarker self in
  match r with
  | inr m => rebind cardUUID profile m
  | inl IOError => Ret (inl MarkerUnread)
  | inl NotExist =>
      let! state := call (CardState cardUUID profile) in
      match state with
      | None => Ret (inl CardUnread)
      | Some state =>
          let! r := scanMarkers in
          let? '(inst, outcome) := take_instance cardUUID profile computeSlices memorySlices state r.1 r.2 in
          let! werr := writeMarker self (marker_of podUID container cardUUID profile inst) in
          match werr with
          | None => Ret (inr (inst, outcome))
          | Some _ =>
              (if bool_decide (outcome = migCreated)
               then discard (call (DestroyInstance cardUUID inst)) else Ret tt) ;!
              Ret (inl MarkerUnwritten)
          end
      end
  end.

(** ** All accelerators of a container *)

Definition accelerators (devs : Devices) : list (DevicesGroup * Accelerator) :=
  mjoin ((fun grp => (fun acc => (grp, acc)) <$> GrpAccelerators grp) <$> SpecGroups devs).

Definition profileGeometry (devs : Devices) (cardUUID profile : string) : option (Z * Z) :=
  head (omap (fun ga =>
    if bool_decide (AccID ga.2 = cardUUID)
    then (fun p => (PComputeSlices p, PMemorySlices p)) <$>
           head (filter (fun p => PName p = profile) (PhysicalProfiles (AccStatus ga.2)))
    else None) (accelerators devs)).

Definition allocatedAccelerators (devs : Devices) (allocated : gmap Resource Z) : list string :=
  (fun ga => AccID ga.2) <$>
    filter (fun ga => is_Some (allocated !! {| Group := GrpID ga.1; Card := AccID ga.2 |})) (accelerators devs).

Definition resourceForAccelerator (devs : Devices) (cardUUID : string) : Resource :=
  match head (filter (fun ga => AccID ga.2 = cardUUID) (accelerators devs)) with
  | Some ga => {| Group := GrpID ga.1; Card := cardUUID |}
  | None => {| Group := ""; Card := cardUUID |}
  end.

Record cardResult := { RCard : string; RInst : migInstance; ROutcome : migReserveOutcome }.

Inductive actuateError := NoDriver | NoCard | NoProfile | NotReserved (e : reserveError).

Definition rollback_one (podUID container : string) (r : cardResult) : prog unit :=
  call (LockCard (RCard r)) ;!
  (match ROutcome r with
   | migCreated =>
       call (DestroyInstance (RCard r) (RInst r)) ;!
       discard (call (Remove (markerPath podUID container (RCard r))))
   | migBound => discard (call (Remove (markerPath podUID container (RCard r))))
   | migRebound => Ret tt
   end) ;!
  call (UnlockCard (RCard r)).

Definition rollback (podUID container : string) (results : list cardResult) : prog unit :=
  for_all results tt (fun _ r => rollback_one podUID container r).

Definition actuate_card (devs : Devices) (podUID container profile : string) (results : list cardResult)
    (cardUUID : string) : prog ((actuateError * list cardResult) + list cardResult) :=
  match profileGeometry devs cardUUID profile with
  | None => Ret (inl (NoProfile, results))
  | Some (computeSlices, memorySlices) =>
      call (LockCard cardUUID) ;!
      let! r := reserveMigInstance podUID container cardUUID profile computeSlices memorySlices in
      call (UnlockCard cardUUID) ;!
      Ret (match r with
           | inl e => inl (NotReserved e, results)
           | inr (inst, outcome) =>
               inr (results ++ [{| RCard := cardUUID; RInst := inst; ROutcome := outcome |}])
           end)
  end.

(** What is answered for the accelerators served. *)
Definition physical_of (devs : Devices) (profile : string) (results : list cardResult) : Physical := {|
  PhysProfile := profile;
  PhysPlacements := foldl (fun m r => <[resourceForAccelerator devs (RCard r) := [InstPlacement (RInst r)]]> m) ∅ results;
  PhysIDs := foldl (fun m r => <[resourceForAccelerator devs (RCard r) := UUID (RInst r)]> m) ∅ results |}.

(** [configured] is false without a driver.  The results are those the returned
    [Rollback] closes over. *)
Definition ActuatePhysicalSliced (configured : bool) (podUID container : string) (devs : Devices)
    (allocated : gmap Resource Z) (profile : string) : prog (actuateError + Physical * list cardResult) :=
  if negb configured then Ret (inl NoDriver)
  else
    let cards := allocatedAccelerators devs allocated in
    if bool_decide (cards = []) then Ret (inl NoCard)
    else
      let! r := for_each cards [] (actuate_card devs podUID container profile) in
      match r with
      | inl (e, results) => rollback podUID container results ;! Ret (inl e)
      | inr results => Ret (inr (physical_of devs profile results, results))
      end.

(** The part of the plugin's Allocate around it: the durable patch, and on its
    failure the rollback. *)
Definition servePartition (configured : bool) (podUID container : string) (devs : Devices)
    (allocated : gmap Resource Z) (profile : string) : prog unit :=
  let! r := ActuatePhysicalSliced configured podUID container devs allocated profile in
  match r with
  | inl _ => call (Refuse (podUID, container))
  | inr (_, results) =>
      let! ok := call Persist in
      if ok : bool then call (Answer (podUID, container) ((fun r => (RCard r, RInst r)) <$> results))
      else rollback podUID container results ;! call (Refuse (podUID, container))
  end.

(** ** Naming the partition again *)

Inductive visibilityError := VNoDriver | VNoCard | VMarker | VCard | VProfile | VState | VMissing | VReused.

Definition livePartitionUUID (devs : Devices) (podUID owner cardUUID : string) : prog (visibilityError + string) :=
  let! r := parseMarker (markerPath podUID owner cardUUID) in
  match r with
  | inl _ => Ret (inl VMarker)
  | inr m =>
      if negb (bool_decide (MCard m = cardUUID)) then Ret (inl VCard)
      else
        match profileGeometry devs cardUUID (MProfile m) with
        | None => Ret (inl VProfile)
        | Some _ =>
            call (LockCard cardUUID) ;!
            let! state := call (CardState cardUUID (MProfile m)) in
            call (UnlockCard cardUUID) ;!
            Ret (match state with
                 | None => inl VState
                 | Some state =>
                     match findLiveInstance state (MGiID m) with
                     | None => inl VMissing
                     | Some liveInst =>
                         if bool_decide (UUID liveInst = MigUUID m) then inr (MigUUID m) else inl VReused
                     end
                 end)
        end
  end.

Definition GetPhysicalSlicedVisibilityResponse (configured : bool) (podUID : string) (devs : Devices)
    (allocated : gmap Resource Z) (owner : string) : prog (visibilityError + list string) :=
  if negb configured then Ret (inl VNoDriver)
  else
    let cards := allocatedAccelerators devs allocated in
    if bool_decide (cards = []) then Ret (inl VNoCard)
    else for_each cards [] (fun uuids cardUUID =>
           let? uuid := livePartitionUUID devs podUID owner cardUUID in Ret (inr (uuids ++ [uuid]))).
