(* ===== verification/MigReclaim.v ===== *)
(** * Hardware partitions: taking them back

    src/pkg/devicemanager/allocator/nvidia/mig_reclaim.go, and of
    src/pkg/deviceplugin the loop that drives it (reclaim.go) and the collector
    of work directories that runs beside it (gc.go).  A pass compares the markers
    and the driver's instances with a list of live Pods; nothing is destroyed on
    less than three passes of evidence. *)

From stdpp Require Import prelude gmap strings list sorting.
From S2P Require Import Prelude Programs Device PluginRecords PluginLedger PluginNode PluginSlices PluginAllocate.
From S2P Require Import MigRecords MigWorld MigAllocate.

Definition reclaimMaxMisses : Z := 3.
Definition podDirGCMaxMisses : Z := 3.

Definition newReclaimer : reclaimer := {| misses := ∅; inUse := ∅ |}.

(** ** The counters *)

Definition misses_of (r : reclaimer) (k : missKey) : Z := default 0 (misses r !! k).
Definition set_misses (k : missKey) (n : Z) (r : reclaimer) : reclaimer :=
  {| misses := <[k := n]> (misses r); inUse := inUse r |}.
Definition set_inUse (k : missKey) (n : Z) (r : reclaimer) : reclaimer :=
  {| misses := misses r; inUse := <[k := n]> (inUse r) |}.
(** [delete] of both counters of a key. *)
Definition forget (k : missKey) (r : reclaimer) : reclaimer :=
  {| misses := delete k (misses r); inUse := delete k (inUse r) |}.

(** [r.inUse[k]++] when something blocked, and back to zero otherwise. *)
Definition count_blocked (k : missKey) (blocked : option destroyErr) (r : reclaimer) : reclaimer :=
  match blocked with
  | Some _ => set_inUse k (i64 (default 0 (inUse r !! k) + 1)) r
  | None => set_inUse k 0 r
  end.

(** ** What another record says *)

Definition findLiveGi (instances : list migInstance) (giID : Z) : option migInstance :=
  list_find (fun inst => GiID inst = giID) instances ≫= (fun r => Some r.2).

Definition matchesMarker (inst : migInstance) (m : migMarker) : bool :=
  bool_decide (UUID inst = MigUUID m) && bool_decide (Start (InstPlacement inst) = MStart m)
  && bool_decide (Length (InstPlacement inst) = MLength m).

Definition supersedingGiIDsOnCard (entries : list markerEntry) (cardUUID reclaimingPodUID : string) : gset Z :=
  list_to_set ((fun e => MGiID (EntryMarker e)) <$>
    filter (fun e => MCard (EntryMarker e) = cardUUID /\ MPodUID (EntryMarker e) <> reclaimingPodUID) entries).

Definition supersedingCorruptOnCard (corrupt : list path) (cardUUID reclaimingPodUID : string) : bool :=
  existsb (fun p =>
    match cardFromMarkerPath p with
    | None => true
    | Some card =>
        bool_decide (card = cardUUID) &&
        match podUIDFromMarkerPath p with
        | None => true
        | Some owner => negb (bool_decide (owner = reclaimingPodUID))
        end
    end) corrupt.

(** ** Destroying *)

(** Errors are [InUse], or [Refused] for every other. *)
Definition worseBlock (held : option destroyErr) (next : destroyErr) : option destroyErr :=
  match held, next with
  | None, _ => Some next
  | Some InUse, Refused => Some next
  | Some e, _ => Some e
  end.

Definition destroyBlockedBy (card : string) (inst : migInstance) : prog (option destroyErr) :=
  let! r := call (InstanceProcesses card inst) in
  Ret (match r with
       | inl NoAddressableDevice => None
       | inl Unanswered => Some Refused
       | inr procs => if procs =? 0 then None else Some InUse
       end).

Definition removeIfEmpty (dir : path) : prog unit :=
  let! r := call (ReadDir dir) in
  match r with
  | ([], None) => discard (call (RemoveDir dir))
  | _ => Ret tt
  end.

Definition removeMarker (p : path) : prog bool :=
  let! err := call (Remove p) in
  match err with
  | Some IOError => Ret false
  | _ =>
      removeIfEmpty (removelast p) ;!
      removeIfEmpty (removelast (removelast p)) ;!
      Ret true
  end.

(** One marker of a dead Pod, under the accelerator's lock. *)
Definition destroy_marked (card : string) (instances : list migInstance) (superseded : gset Z)
    (st : bool * option destroyErr) (e : markerEntry) : prog (bool * option destroyErr) :=
  let '(done, blocked) := st in
  let m := EntryMarker e in
  let drop :=
    let! ok := removeMarker (EntryPath e) in Ret (done && ok, blocked) in
  match findLiveGi instances (MGiID m) with
  | None => drop
  | Some inst =>
      if bool_decide (MGiID m ∈ superseded) then drop
      else if negb (matchesMarker inst m) then drop
      else
        let! berr := destroyBlockedBy card (instance m) in
        match berr with
        | Some b => Ret (false, worseBlock blocked b)
        | None =>
            let! derr := call (DestroyInstance card (instance m)) in
            match derr with
            | Some InUse => Ret (false, worseBlock blocked InUse)
            | Some Refused => Ret (false, blocked)
            | None => drop
            end
        end
  end.

Definition destroyMarkedInstancesOnCard (uid card : string) (entries : list markerEntry)
    : prog (bool * option destroyErr) :=
  call (LockCard card) ;!
  let! instances := call (CardInstances card) in
  let! r :=
    (match instances with
     | None => Ret (false, None)
     | Some instances =>
         let! s := scanMarkers in
         if supersedingCorruptOnCard s.2 card uid then Ret (false, None)
         else for_all entries (true, None)
                (destroy_marked card instances (supersedingGiIDsOnCard s.1 card uid))
     end) in
  call (UnlockCard card) ;!
  Ret r.

Section Pass.
(** The order in which Go ranges over a map. *)
Context (ord : forall A : Type, list A -> list A).
#[local] Arguments ord {A} _.

(** Grouping of a list by a key, as the maps of slices of the source. *)
Definition group_by {A} (key : A -> string) (l : list A) : gmap string (list A) :=
  foldl (fun m x => <[key x := default [] (m !! key x) ++ [x]]> m) ∅ l.

Definition destroyPod (uid : string) (entries : list markerEntry)
    (claims : gmap string (list AcceleratorPlacement)) (r : reclaimer) : prog reclaimer :=
  let overlapping e := slotOverlapsAny {| Start := MStart (EntryMarker e); Length := MLength (EntryMarker e) |}
                         (default [] (claims !! MCard (EntryMarker e))) in
  let ok := negb (existsb overlapping entries) in
  let byCard := group_by (fun e => MCard (EntryMarker e)) (filter (fun e => overlapping e = false) entries) in
  let! st := for_all (ord (map_to_list byCard)) (ok, None) (fun (st : bool * option destroyErr) ce =>
      let! res := destroyMarkedInstancesOnCard uid ce.1 ce.2 in
      Ret (st.1 && res.1, match res.2 with None => st.2 | Some b => worseBlock st.2 b end)) in
  let r := count_blocked (PodKey uid) st.2 r in
  Ret (if st.1 : bool then forget (PodKey uid) r else r).

Definition destroyOrphans (card : string) (orphans : list migInstance) (r : reclaimer) : prog reclaimer :=
  call (LockCard card) ;!
  let! s := scanMarkers in
  let! r :=
    (if negb (bool_decide (ownedGiIDsOnCard s.1 card = ∅)) || ownershipUnknownOnCard s.2 card then Ret r
     else
       let! st := for_all orphans (true, None) (fun (st : bool * option destroyErr) inst =>
           let! berr := destroyBlockedBy card inst in
           match berr with
           | Some b => Ret (false, worseBlock st.2 b)
           | None =>
               let! derr := call (DestroyInstance card inst) in
               Ret (match derr with
                    | Some InUse => (false, worseBlock st.2 InUse)
                    | Some Refused => (false, st.2)
                    | None => st
                    end)
           end) in
       let r := count_blocked (CardKey card) st.2 r in
       Ret (if st.1 : bool then forget (CardKey card) r else r)) in
  call (UnlockCard card) ;!
  Ret r.

Abbreviation touching := (reclaimer * gset missKey)%type.

(** [r.misses[k]++], the kept paths' count. *)
Definition hold (k : missKey) (st : touching) : touching :=
  (set_misses k (i64 (misses_of st.1 k + 1)) st.1, {[k]} ∪ st.2).

Definition prune_corrupt (live : gset string) (st : touching) (p : path) : prog touching :=
  match podUIDFromMarkerPath p with
  | None => Ret (hold (CorruptKey p) st)
  | Some uid =>
      let key := CorruptKey p in
      let touched := {[key]} ∪ st.2 in
      if bool_decide (uid ∈ live) then Ret (hold (HeldKey p) (set_misses key 0 st.1, touched))
      else
        let r := set_misses key (i64 (misses_of st.1 key + 1)) st.1 in
        if misses_of r key <? reclaimMaxMisses then Ret (r, touched)
        else
          let! ok := removeMarker p in
          Ret (if ok : bool then {| misses := delete key (misses r); inUse := inUse r |} else r, touched)
  end.

Definition pruneCorruptMarkers (corrupt : list path) (live : gset string) (st : touching) : prog touching :=
  for_all corrupt st (prune_corrupt live).

(** The decision about one Pod with markers. *)
Definition decide_pod (live : gset string) (claims : gmap string (list AcceleratorPlacement)) (st : touching)
    (pe : string * list markerEntry) : prog touching :=
  let '(uid, entries) := pe in
  let key := PodKey uid in
  let touched := {[key]} ∪ st.2 in
  if bool_decide (uid ∈ live) then Ret (set_inUse key 0 (set_misses key 0 st.1), touched)
  else
    let r := set_misses key (i64 (misses_of st.1 key + 1)) st.1 in
    if misses_of r key <? reclaimMaxMisses then Ret (r, touched)
    else let! r := destroyPod uid entries claims r in Ret (r, touched).

(** The decision about one accelerator with instances no marker names. *)
Definition decide_card (liveOnCard : gset string) (corrupt : list path) (st : touching)
    (ce : string * list (string * migInstance)) : prog touching :=
  let '(card, orphans) := ce in
  let key := CardKey card in
  let touched := {[key]} ∪ st.2 in
  if bool_decide (card ∈ liveOnCard) || ownershipUnknownOnCard corrupt card
  then Ret (set_inUse key 0 (set_misses key 0 st.1), touched)
  else
    let r := set_misses key (i64 (misses_of st.1 key + 1)) st.1 in
    if misses_of r key <? reclaimMaxMisses then Ret (r, touched)
    else let! r := destroyOrphans card orphans.*2 r in Ret (r, touched).

Definition prune_counters (st : touching) : reclaimer := {|
  misses := filter (fun kn => kn.1 ∈ st.2) (misses st.1); inUse := filter (fun kn => kn.1 ∈ st.2) (inUse st.1) |}.

(** The accelerators a live Pod claims or marks. *)
Definition live_on_card (claims : gmap string (list AcceleratorPlacement)) (live : gset string)
    (markers : list markerEntry) : gset string :=
  list_to_set (filter (fun cl => cl.2 <> []) (map_to_list claims)).*1 ∪
  list_to_set ((fun e => MCard (EntryMarker e)) <$> filter (fun e => MPodUID (EntryMarker e) ∈ live) markers).

Definition reconcile (r : reclaimer) (livePodUIDs : list string) : prog reclaimer :=
  let live : gset string := list_to_set livePodUIDs in
  let! s := scanMarkers in
  let! claims := call LiveClaims in
  match claims with
  | None => Ret r
  | Some claims =>
      let! instances := call ListInstances in
      match instances with
      | None => Ret r
      | Some instances =>
          let liveOnCard := live_on_card claims live s.1 in
          let markedGI : gset (string * Z) :=
            list_to_set ((fun e => (MCard (EntryMarker e), MGiID (EntryMarker e))) <$> s.1) in
          let byPod := group_by (fun e => MPodUID (EntryMarker e)) s.1 in
          let orphansByCard :=
            group_by fst (filter (fun li => (li.1, GiID li.2) ∉ markedGI) instances) in
          let! st := for_all (ord (map_to_list byPod)) (r, ∅) (decide_pod live claims) in
          let! st := pruneCorruptMarkers s.2 live st in
          let! st := for_all (ord (map_to_list orphansByCard)) st (decide_card liveOnCard s.2) in
          Ret (prune_counters st)
      end
  end.

(** ** Work directories *)

(** [scanPodUIDs]: nothing when the directory cannot be read. *)
Definition scanPodUIDs : prog (list string) :=
  let! r := call (ReadDir []) in
  Ret (match r.2 with
       | Some _ => []
       | None => (filter (fun e => e.2 = true) r.1).*1
       end).

(** [newPodDirGC]: every directory found starts at zero. *)
Definition newPodDirGC : prog (gmap string Z) :=
  let! onDisk := scanPodUIDs in Ret (list_to_map ((fun uid => (uid, 0)) <$> onDisk)).

Definition collect_dir (live : gset string) (m : gmap string Z) (uid : string) : prog (gmap string Z) :=
  if bool_decide (uid ∈ live) then Ret (<[uid := 0]> m)
  else
    let m := <[uid := i64 (default 0 (m !! uid) + 1)]> m in
    if default 0 (m !! uid) <? podDirGCMaxMisses then Ret m
    else
      let! err := call (RemoveAll [uid]) in
      Ret (match err with None => delete uid m | Some _ => m end).

Definition podDirGC_reconcile (m : gmap string Z) (livePodUIDs : list string) : prog (gmap string Z) :=
  let live : gset string := list_to_set livePodUIDs in
  let! onDisk := scanPodUIDs in
  let! m := for_all (ord (elements (list_to_set onDisk : gset string))) m (collect_dir live) in
  Ret (filter (fun kn => kn.1 ∈ onDisk) m).

End Pass.

(** ** The loop *)

Inductive tick := Broadcast (live : list string) | Resync.

(** [reclaimLoop]: the list a tick reconciles against, if any, and the last one
    the loop was given. *)
Definition reclaim_tick (lastLive : option (list string)) (e : tick) : option (list string) * option (list string) :=
  match e with
  | Broadcast live => (Some live, Some live)
  | Resync => (lastLive, lastLive)
  end.

Fixpoint reclaimLoop (ord : forall A : Type, list A -> list A) (lastLive : option (list string)) (r : reclaimer)
    (ticks : list tick) : prog reclaimer :=
  match ticks with
  | [] => Ret r
  | e :: ticks =>
      let '(reconciled, lastLive) := reclaim_tick lastLive e in
      match reconciled with
      | Some live => let! r := reconcile ord r live in reclaimLoop ord lastLive r ticks
      | None => reclaimLoop ord lastLive r ticks
      end
  end.
