(* ===== verification/MigSafety.v ===== *)
(** * Hardware partitions: what a container was given stays its own

    Allocations, visibility requests, reclaim passes and collections of work
    directories run in any number of goroutines over the world of MigWorld.v,
    interleaved action by action, beside Pods that come and go, markers that lose
    their bytes, tools that change idle accelerators, and restarts.  This file has
    the invariant and a rely-guarantee argument for every program of MigAllocate.v
    and MigReclaim.v; MigTheorems.v has what follows. *)

From stdpp Require Import prelude gmap strings list sorting relations.
From S2P Require Import Prelude Programs Device PluginRecords PluginLedger PluginNode PluginSlices PluginAllocate.
From S2P Require Import MigRecords MigWorld MigAllocate MigReclaim.

(** ** Claims *)

Definition alive (w : world) (uid : string) : Prop := pods w !! uid = Some true.

Abbreviation mp h card := (markerPath h.1 h.2 card).

(** What the marker of a container on an accelerator says, readable or not. *)
Definition claim_of (w : world) (h : holder) (card : string) : option migMarker :=
  recorded <$> files w !! mp h card.

(** The partition a marker names is there. *)
Definition backed (w : world) (card : string) (m : migMarker) : Prop :=
  exists i, i ∈ view card w /\ GiID i = MGiID m /\ matchesMarker i m = true.

(** The container's own Allocate holds the accelerator and has not been answered
    for it: its marker may be on the way. *)
Definition exempt (w : world) (h : holder) (card : string) : Prop :=
  exists t, locks w !! card = Some t /\ active w !! h = Some t /\ granted w !! (h, card) = None.

Definition agrees (inst : migInstance) (m : migMarker) : Prop :=
  GiID inst = MGiID m /\ matchesMarker inst m = true.

Record inv (w : world) : Prop := {
  inv_paths : forall p c, files w !! p = Some c ->
    exists h card, p = mp h card /\ is_Some (pods w !! h.1) /\ MPodUID (recorded c) = h.1 /\ MCard (recorded c) = card;
  inv_names : forall u, is_Some (pods w !! u) -> isMarkerFile u = false;
  inv_backed : forall h card m, alive w h.1 -> claim_of w h card = Some m -> exempt w h card \/ backed w card m;
  inv_alone : forall h1 h2 card m1 m2, alive w h1.1 -> alive w h2.1 ->
    claim_of w h1 card = Some m1 -> claim_of w h2 card = Some m2 -> MGiID m1 = MGiID m2 -> h1 = h2;
  inv_ids : forall card, NoDup (Gi <$> instances_on card w);
  inv_active : forall h t, active w !! h = Some t -> alive w h.1;
  inv_granted : forall h card inst, granted w !! (h, card) = Some inst ->
    is_Some (pods w !! h.1) /\ (alive w h.1 -> exists m, claim_of w h card = Some m /\ agrees inst m) }.

(** ** Rely and guarantee *)

Definition same_file (a b : option content) : Prop :=
  a = b \/ exists m, a = Some (Intact m) /\ b = Some (Damaged m).

(** The markers of living Pods on an accelerator: none new, none lost. *)
Definition kept (card : string) (w w' : world) : Prop := forall h, alive w' h.1 ->
  (alive w h.1 -> same_file (files w !! mp h card) (files w' !! mp h card)) /\
  (~ alive w h.1 -> files w' !! mp h card = None).

Record rely (t : nat) (w w' : world) : Prop := {
  rely_inv : inv w -> inv w';
  rely_pods : forall u b, pods w !! u = Some b -> exists b', pods w' !! u = Some b' /\ (b' = true -> b = true);
  rely_locks : forall card, locks w' !! card = Some t <-> locks w !! card = Some t;
  rely_card : forall card, locks w !! card = Some t -> view card w' = view card w /\ kept card w w';
  rely_actives : forall h, active w' !! h = Some t <-> active w !! h = Some t;
  rely_active : forall h card, active w !! h = Some t ->
    same_file (files w !! mp h card) (files w' !! mp h card) /\ granted w' !! (h, card) = granted w !! (h, card) }.

Record guar (t : nat) (w w' : world) : Prop := {
  guar_inv : inv w -> inv w';
  guar_pods : pods w' = pods w;
  guar_locks : forall card u, u <> t -> locks w' !! card = Some u <-> locks w !! card = Some u;
  guar_card : forall card, locks w !! card <> Some t -> view card w' = view card w /\
    forall h, alive w h.1 -> files w' !! mp h card = files w !! mp h card;
  guar_actives : forall h u, u <> t -> active w' !! h = Some u <-> active w !! h = Some u;
  guar_active : forall h u card, active w !! h = Some u -> u <> t ->
    files w' !! mp h card = files w !! mp h card /\ granted w' !! (h, card) = granted w !! (h, card) }.

Lemma same_file_refl a : same_file a a.
Proof. by left. Qed.
Lemma same_file_trans a b c : same_file a b -> same_file b c -> same_file a c.
Proof.
  intros [->|(m & -> & ->)] [<-|(m' & H1 & H2)]; [by left|right; eauto|right; eauto|done].
Qed.
Lemma same_file_recorded a b : same_file a b -> recorded <$> b = recorded <$> a.
Proof. by intros [->|(m & -> & ->)]. Qed.
Lemma same_file_None a b : same_file a b -> a = None <-> b = None.
Proof. by intros [->|(m & -> & ->)]. Qed.

Lemma guar_gives_rely t u w w' : guar t w w' -> t <> u -> rely u w w'.
Proof.
  intros [Hi Hp Hl Hc Hact Ha] Hne. constructor; [done|rewrite Hp; eauto|by intros card; apply Hl| |by intros h; apply Hact|].
  - intros card Hu. destruct (Hc card) as [Hv Hf]; [congruence|]. split; [done|].
    intros h. unfold alive. rewrite Hp. intros Hal. split; [|done]. intros _. rewrite Hf by done. apply same_file_refl.
  - intros h card Hu. destruct (Ha h u card Hu) as [-> ->]; [done|]. split; [apply same_file_refl|done].
Qed.

Lemma rely_alive t w w' u : rely t w w' -> alive w' u -> is_Some (pods w !! u) -> alive w u.
Proof.
  intros Hr Ha [b Hb]. destruct (rely_pods _ _ _ Hr u b Hb) as (b' & Hb' & Hle). unfold alive in *.
  assert (b' = true) as -> by congruence. by rewrite Hb, (Hle eq_refl).
Qed.

#[export] Instance rely_interference : Interference rely.
Proof.
  constructor. intros t. split.
  - intros w. constructor; [done|eauto|done| |done|].
    + intros card _. split; [done|]. intros h Ha. split; [intros _; apply same_file_refl|done].
    + intros h card Ha. split; [apply same_file_refl|done].
  - intros w1 w2 w3 H12 H23. constructor.
    + intros Hi. by apply (rely_inv _ _ _ H23), (rely_inv _ _ _ H12).
    + intros u b Hb. destruct (rely_pods _ _ _ H12 u b Hb) as (b2 & Hb2 & Hle2).
      destruct (rely_pods _ _ _ H23 u b2 Hb2) as (b3 & Hb3 & Hle3). eauto 10.
    + intros card. by rewrite (rely_locks _ _ _ H23), (rely_locks _ _ _ H12).
    + intros card Hl. destruct (rely_card _ _ _ H12 card Hl) as [Hv12 Hk12].
      apply (rely_locks _ _ _ H12) in Hl. destruct (rely_card _ _ _ H23 card Hl) as [Hv23 Hk23].
      split; [congruence|]. intros h Ha3. destruct (Hk23 h Ha3) as [K1 K2].
      destruct (decide (pods w2 !! h.1 = Some true)) as [Ha2|Hd2].
      * destruct (Hk12 h Ha2) as [J1 J2]. split; intros H1.
        -- eapply same_file_trans; [by apply J1|by apply K1].
        -- specialize (J2 H1). specialize (K1 Ha2). by apply (same_file_None _ _ K1).
      * split; [|intros _; by apply K2]. intros Ha1. exfalso. apply Hd2.
        apply (rely_alive _ _ _ _ H23 Ha3). destruct (rely_pods _ _ _ H12 _ _ Ha1) as (b & Hb & _). eauto.
    + intros h. by rewrite (rely_actives _ _ _ H23), (rely_actives _ _ _ H12).
    + intros h card Ha. destruct (rely_active _ _ _ H12 h card Ha) as [S2 G2].
      apply (rely_actives _ _ _ H12) in Ha. destruct (rely_active _ _ _ H23 h card Ha) as [S3 G3].
      split; [by eapply same_file_trans|congruence].
Qed.

Lemma guar_refl t w : guar t w w.
Proof. constructor; auto. Qed.

(** ** What one action does to the others *)

(** Worlds that differ in what no claim is about. *)
Record frame (w w' : world) : Prop := {
  frame_files : files w' = files w;
  frame_hardware : hardware w' = hardware w;
  frame_locks : locks w' = locks w;
  frame_pods : pods w' = pods w;
  frame_active : active w' = active w;
  frame_granted : granted w' = granted w }.

Lemma inv_frame w w' : frame w w' -> inv w -> inv w'.
Proof.
  intros [Hf Hh Hl Hp Ha Hg] [I1 I2 I3 I4 I5 I6 I7].
  constructor; unfold alive, claim_of, backed, exempt, view, instances_on in *; rewrite ?Hf, ?Hh, ?Hl, ?Hp, ?Ha, ?Hg;
    auto.
Qed.

Lemma guar_frame t w w' : frame w w' -> guar t w w'.
Proof.
  intros F. pose proof (inv_frame w w' F). destruct F as [Hf Hh Hl Hp Ha Hg].
  constructor; [done|done|by rewrite Hl| |by rewrite Ha|].
  - intros card _. unfold view, instances_on. by rewrite Hh, Hf.
  - intros h u card Hu _. by rewrite Hf, Hg.
Qed.

(** The locks an Allocate holds excuse its marker only while it holds them. *)
Lemma exempt_lock w card t h card' :
  locks w !! card = None -> exempt w h card' -> exempt (set_locks <[card := t]> w) h card'.
Proof.
  intros Hl (u & Hu & Ha & Hg). exists u. cbn. split; [|done]. rewrite lookup_insert_ne; [done|congruence].
Qed.

Lemma guar_lock t w card : locks w !! card = None -> guar t w (set_locks <[card := t]> w).
Proof.
  intros Hl. constructor; cbn; [|done| |done..].
  - intros [I1 I2 I3 I4 I5 I6 I7]. constructor; try done.
    intros h card' m Ha Hc. destruct (I3 h card' m Ha Hc) as [He|Hb]; [left; by apply exempt_lock|by right].
  - intros card' u Hu. rewrite lookup_insert_Some. split; [intros [[_ ->]|[_ ?]]; done|].
    intros H. right. split; [congruence|done].
Qed.

(** The own marker of an Allocate that lets go of an accelerator. *)
Definition settled (t : nat) (card : string) (w : world) : Prop :=
  forall h m, active w !! h = Some t -> claim_of w h card = Some m -> granted w !! (h, card) = None -> backed w card m.

Lemma guar_unlock_card t w card :
  locks w !! card = Some t -> settled t card w -> guar t w (set_locks (delete card) w).
Proof.
  intros Hl Hs. constructor; cbn; [|done| |done..].
  - intros [I1 I2 I3 I4 I5 I6 I7]. constructor; try done.
    intros h card' m Ha Hc. destruct (I3 h card' m Ha Hc) as [(u & Hu & Hact & Hg)|Hb]; [|by right].
    destruct (decide (card' = card)) as [->|Hne].
    + right. apply (Hs h m); [congruence|done|done].
    + left. exists u. cbn. by rewrite lookup_delete_ne.
  - intros card' u Hu. rewrite lookup_delete_Some. split; [by intros [_ ?]|]. intros H. split; [congruence|done].
Qed.

Lemma claim_insert w p c h card :
  claim_of (set_files <[p := c]> w) h card = if decide (p = mp h card) then Some (recorded c) else claim_of w h card.
Proof.
  unfold claim_of. cbn [files set_files]. destruct (decide (p = mp h card)) as [->|Hne].
  - by rewrite lookup_insert_eq.
  - by rewrite lookup_insert_ne.
Qed.

Lemma mp_eq (h1 h2 : holder) card1 card2 : mp h1 card1 = mp h2 card2 -> h1 = h2 /\ card1 = card2.
Proof. destruct h1, h2. cbn [fst snd]. intros (-> & -> & ->)%markerPath_inj. done. Qed.

(** The marker an Allocate may write for its container: of a partition that is
    there and that no living container claims. *)
Record writable (t : nat) (h : holder) (card : string) (m : migMarker) (w : world) : Prop := {
  writable_lock : locks w !! card = Some t;
  writable_active : active w !! h = Some t;
  writable_granted : granted w !! (h, card) = None;
  writable_canon : MPodUID m = h.1 /\ MCard m = card;
  writable_backed : backed w card m;
  writable_fresh : forall h' m', h' <> h -> alive w h'.1 -> claim_of w h' card = Some m' -> MGiID m' <> MGiID m }.

Lemma guar_write t h card m w : writable t h card m w -> guar t w (set_files <[mp h card := Intact m]> w).
Proof.
  intros [Hl Ha Hg [Hu Hcd] Hb Hf]. constructor; cbn; [|done|done| |done|].
  - intros [I1 I2 I3 I4 I5 I6 I7]. constructor; try done.
    + cbn. intros p c [[<- <-]|[_ Hp]]%lookup_insert_Some; [|by apply I1].
      exists h, card. split; [done|]. split; [rewrite (I6 h t Ha); eauto|done].
    + intros h' card' m' Hal. rewrite claim_insert. case_decide as Hd; [|apply I3, Hal].
      apply mp_eq in Hd as [<- <-]. intros [= <-]. by right.
    + intros h1 h2 card' m1 m2 Hal1 Hal2. rewrite !claim_insert.
      case_decide as Hd1; case_decide as Hd2; [|..|by apply I4].
      * apply mp_eq in Hd1 as [-> _], Hd2 as [-> _]. done.
      * apply mp_eq in Hd1 as [-> <-]. intros [= <-] Hc2 Heq.
        destruct (decide (h2 = h1)); [done|]. by destruct (Hf h2 m2).
      * apply mp_eq in Hd2 as [-> <-]. intros Hc1 [= <-] Heq.
        destruct (decide (h1 = h2)); [done|]. by destruct (Hf h1 m1).
    + intros h' card' inst Hgr. destruct (I7 h' card' inst Hgr) as [Hk Hm]. split; [done|]. intros Hal.
      rewrite claim_insert. case_decide as Hd; [|by apply Hm]. apply mp_eq in Hd as [<- <-]. cbn in Hgr. congruence.
  - intros card' Hne. split; [done|]. intros h' _. rewrite lookup_insert_ne; [done|].
    intros [_ <-]%mp_eq. done.
  - intros h' u card' Hu' Hne. split; [|done]. rewrite lookup_insert_ne; [done|].
    intros [<- _]%mp_eq. congruence.
Qed.

(** Files that go: the own marker of an Allocate, or those of Pods that are gone. *)
Definition droppable (t : nat) (w : world) (h : holder) (card : string) : Prop :=
  (locks w !! card = Some t /\ active w !! h = Some t /\ granted w !! (h, card) = None) \/
  (~ alive w h.1 /\ active w !! h = None).

Lemma guar_drop t w fs :
  fs ⊆ files w ->
  (forall h card, fs !! mp h card <> files w !! mp h card -> droppable t w h card) ->
  guar t w (set_files (fun _ => fs) w).
Proof.
  intros Hsub Hd.
  assert (forall h card, fs !! mp h card = files w !! mp h card \/ droppable t w h card) as Hc.
  { intros h card. destruct (fs !! mp h card) as [c|] eqn:E1.
    - left. symmetry. by eapply lookup_weaken.
    - destruct (files w !! mp h card) eqn:E2; [|by left]. right. apply Hd. by rewrite E1, E2. }
  assert (forall h card m, claim_of (set_files (fun _ => fs) w) h card = Some m -> claim_of w h card = Some m) as Hcl.
  { intros h card m. unfold claim_of. cbn. rewrite !fmap_Some. intros (c & Hf & ->). exists c.
    split; [by eapply lookup_weaken|done]. }
  constructor; cbn; [|done|done| |done|].
  - intros [I1 I2 I3 I4 I5 I6 I7]. constructor; try done.
    + cbn. intros p c Hp. apply I1. by eapply lookup_weaken.
    + intros h card m Hal Hm%Hcl. by apply I3.
    + intros h1 h2 card m1 m2 ? ? ?%Hcl ?%Hcl. by apply (I4 h1 h2 card m1 m2).
    + intros h card inst Hgr. destruct (I7 h card inst Hgr) as [Hk Hmk]. split; [done|]. intros Hal.
      destruct (Hmk Hal) as (m & Hm & Hag). exists m. split; [|done].
      unfold claim_of in *. cbn. destruct (Hc h card) as [->|[(_ & _ & Hg)|[Hdead _]]]; [done| |done].
      cbn in Hgr. congruence.
  - intros card Hne. split; [done|]. intros h Hal. by destruct (Hc h card) as [?|[[? _]|[? _]]].
  - intros h u card Hu Hne. split; [|done]. destruct (Hc h card) as [?|[(_ & ? & _)|[_ ?]]]; [done|congruence..].
Qed.

(** A change of one accelerator by the holder of its lock. *)
Lemma guar_hardware t w card l :
  locks w !! card = Some t -> (inv w -> NoDup (Gi <$> l)) ->
  (forall h m i, alive w h.1 -> claim_of w h card = Some m -> i ∈ view card w -> GiID i = MGiID m ->
     (active w !! h = Some t /\ granted w !! (h, card) = None) \/ i ∈ shown <$> l) ->
  guar t w (set_hardware <[card := l]> w).
Proof.
  intros Hl Hnd Hkeep.
  assert (forall card', card' <> card -> instances_on card' (set_hardware <[card := l]> w) = instances_on card' w) as Hne.
  { intros card' Hc. unfold instances_on. cbn. by rewrite lookup_insert_ne. }
  assert (instances_on card (set_hardware <[card := l]> w) = l) as Heq.
  { unfold instances_on. cbn. by rewrite lookup_insert_eq. }
  constructor; cbn; [|done|done| |done..].
  - intros I. specialize (Hnd I). destruct I as [I1 I2 I3 I4 I5 I6 I7]. constructor; try done.
    + intros h card' m Hal Hc. destruct (I3 h card' m Hal Hc) as [He|(i & Hi & Hid & Hmatch)]; [by left|].
      destruct (decide (card' = card)) as [->|Hcne].
      * destruct (Hkeep h m i Hal Hc Hi Hid) as [[Ha Hg]|Hin]; [left; by exists t|].
        right. exists i. unfold view. by rewrite Heq.
      * right. exists i. unfold view. by rewrite Hne.
    + intros card'. destruct (decide (card' = card)) as [->|Hcne]; [by rewrite Heq|by rewrite Hne].
  - intros card' Hc. split; [|done]. unfold view. rewrite Hne; [done|congruence].
Qed.

Lemma guar_create t c card computeSlices slot w x w' :
  locks w !! card = Some t -> create c card computeSlices slot w = (x, w') -> guar t w w'.
Proof.
  intros Hl. unfold create. destruct (bool_decide_reflect (new_gi c ∈ Gi <$> instances_on card w)) as [_|Hid]; cbn [orb].
  { intros [= _ <-]. apply guar_refl. }
  assert (forall uuid, guar t w (set_hardware <[card := instances_on card w ++
    [{| Gi := new_gi c; Slices := computeSlices; Where := slot; MigDevice := uuid; Procs := 0 |}]]> w)) as Hadd.
  { intros uuid. apply guar_hardware; [done| |].
    - intros I. rewrite fmap_app. apply NoDup_app. split; [apply (inv_ids _ I)|]. split; [|apply NoDup_singleton].
      intros y Hy ->%list_elem_of_singleton. done.
    - intros h m i _ _ Hi _. right. rewrite fmap_app. apply elem_of_app. by left. }
  pose proof (guar_refl t w). repeat case_match; intros [= _ <-]; eauto.
Qed.

(** Destroying an instance nobody else claims. *)
Lemma guar_destroy t c card inst w x w' :
  locks w !! card = Some t ->
  (forall h m, alive w h.1 -> claim_of w h card = Some m -> MGiID m = GiID inst ->
     active w !! h = Some t /\ granted w !! (h, card) = None) ->
  destroy c card inst w = (x, w') -> guar t w w'.
Proof.
  intros Hl Hown. unfold destroy. pose proof (guar_refl t w) as Hrefl.
  destruct (list_find _ _) as [[j g]|] eqn:Hf; [|by intros [= _ <-]].
  destruct (negb _); [by intros [= _ <-]|].
  destruct (driver c) as [e|]; [destruct (late c); [|by intros [= _ <-]]|]; intros [= _ <-].
  - apply guar_hardware; [done| |].
    + intros I. rewrite <- list_fmap_compose.
      assert (Gi ∘ (fun g => if bool_decide (Gi g = GiID inst) then without_device g else g) <$> instances_on card w
              = Gi <$> instances_on card w) as ->; [|apply (inv_ids _ I)].
      apply list_fmap_ext. intros k g' _. cbn. by destruct (bool_decide _).
    + intros h m i Hal Hc Hi Hid. destruct (decide (MGiID m = GiID inst)) as [He|Hne]; [left; by eapply Hown|right].
      apply list_elem_of_fmap in Hi as (g' & -> & Hg'). apply list_elem_of_fmap.
      exists g'. split; [done|]. apply list_elem_of_fmap. exists g'. split; [|done].
      rewrite bool_decide_false; [done|]. cbn in Hid. congruence.
  - apply guar_hardware; [done| |].
    + intros I. eapply sublist_NoDup; [apply (inv_ids _ I card)|]. apply fmap_sublist, sublist_filter.
    + intros h m i Hal Hc Hi Hid. destruct (decide (MGiID m = GiID inst)) as [He|Hne]; [left; by eapply Hown|right].
      apply list_elem_of_fmap in Hi as (g' & -> & Hg'). apply list_elem_of_fmap.
      exists g'. split; [done|]. apply list_elem_of_filter. split; [|done]. cbn in Hid. congruence.
Qed.

(** *** The end of a call *)

Definition record_grants (h : holder) (insts : list (string * migInstance)) (g : gmap (holder * string) migInstance) :=
  foldl (fun g ci => <[(h, ci.1) := ci.2]> g) g insts.

Lemma record_grants_other h insts g h' card : h' <> h -> record_grants h insts g !! (h', card) = g !! (h', card).
Proof.
  intros Hne. revert g. induction insts as [|ci insts IH]; intros g; [done|]. cbn. unfold record_grants in IH.
  rewrite IH. apply lookup_insert_ne. congruence.
Qed.

Lemma record_grants_own h insts g card inst :
  record_grants h insts g !! (h, card) = Some inst -> (card, inst) ∈ insts \/ g !! (h, card) = Some inst.
Proof.
  revert g. induction insts as [|[c i] insts IH]; intros g; [by right|]. cbn. intros H. apply IH in H as [H|H].
  - left. by right.
  - apply lookup_insert_Some in H as [[[= ->] ->]|[_ H]]; [left; by left|by right].
Qed.

Lemma guar_answer t h insts w :
  active w !! h = Some t -> (forall card, locks w !! card <> Some t) ->
  (forall card inst, (card, inst) ∈ insts -> exists m, claim_of w h card = Some m /\ agrees inst m) ->
  guar t w (set_active (delete h) (set_granted (record_grants h insts) w)).
Proof.
  intros Ha Hl Hin. constructor; cbn; [|done|done|done| |].
  - intros [I1 I2 I3 I4 I5 I6 I7]. constructor; try done.
    + intros h' card m Hal Hc. destruct (I3 h' card m Hal Hc) as [(u & Hu & Hact & Hg)|Hb]; [|by right].
      destruct (decide (h' = h)) as [->|Hne]; [exfalso; apply (Hl card); congruence|].
      left. exists u. cbn. by rewrite lookup_delete_ne, record_grants_other.
    + cbn. intros h' u [_ Hu]%lookup_delete_Some. by eapply I6.
    + cbn. intros h' card inst. destruct (decide (h' = h)) as [->|Hne].
      * intros [Hx|Hx]%record_grants_own; [|by apply I7]. split; [rewrite (I6 h t Ha); eauto|]. intros _. by apply Hin.
      * rewrite record_grants_other by done. apply I7.
  - intros h' u Hne. rewrite lookup_delete_Some. split; [by intros [_ ?]|]. intros Hu. split; [congruence|done].
  - intros h' u card Hu Hne. split; [done|]. rewrite record_grants_other; [done|congruence].
Qed.

(** ** Programs under interference *)

Section Safety.
(** A failed durable write leaves nothing, and a file can be removed. *)
Context (allowed : choice -> Prop).
Context (Hallowed : forall c, allowed c -> landed c = false /\ stuck c = false).

Abbreviation wp := (Programs.wp (@perform) allowed rely guar inv).
Abbreviation wp_rely := (Programs.wp_rely (@perform) allowed rely guar inv).
Abbreviation wp_mono := (Programs.wp_mono (@perform) allowed rely guar inv).
Abbreviation wp_bind := (Programs.wp_bind (@perform) allowed rely guar inv).
Abbreviation wp_call := (Programs.wp_call (@perform) allowed rely guar inv).
Abbreviation wp_and := (Programs.wp_and (@perform) allowed rely guar inv).
Abbreviation wp_all := (Programs.wp_all (@perform) allowed rely guar inv).
Abbreviation wp_frame := (Programs.wp_frame (@perform) allowed rely guar inv).
Abbreviation wp_for_all := (Programs.wp_for_all (@perform) allowed rely guar inv).

Definition harmless {X} (a : act X) : bool :=
  match a with
  | ReadFile _ | MkdirAll _ | RemoveDir _ | Lstat | ReadDir _ | CardState _ _ | ListInstances | CardInstances _
  | InstanceProcesses _ _ | LiveClaims | Persist => true
  | _ => false
  end.
Abbreviation quiet := (Programs.quiet (@harmless)).

Lemma harmless_same {X} t c (a : act X) w x w' : harmless a = true -> perform t c a w = Some (x, w') -> w' = w.
Proof. intros Hh Hp. destruct a; try discriminate Hh; cbn in Hp; by simplify_eq. Qed.

Lemma wp_calm {A} t (p : prog A) w : quiet p -> wp t p (fun _ => rely t w) w.
Proof.
  apply (Programs.wp_quiet (@perform) allowed rely guar inv). clear. intros t c X a w x w' Hh Hp.
  apply harmless_same in Hp as ->; [|done]. split; [apply guar_refl|done].
Qed.

(** A read sees one world between the start and the end. *)
Lemma wp_read {X} t (a : act X) (Q : X -> world -> Prop) w :
  harmless a = true ->
  (forall w1 c x w2, rely t w w1 -> inv w1 -> perform t c a w1 = Some (x, w1) -> rely t w1 w2 -> Q x w2) ->
  wp t (call a) Q w.
Proof.
  intros Hh HQ. apply wp_call. intros w1 c x w2 Hr Hi _ Hp. pose proof (harmless_same _ _ _ _ _ _ Hh Hp) as ->.
  split; [apply guar_refl|]. intros w3 Hr3. by eapply HQ.
Qed.

Lemma wp_parse t p (Q : ioerr + migMarker -> world -> Prop) w :
  (forall w1 w2 r, rely t w w1 -> inv w1 -> rely t w1 w2 ->
     match r with
     | inl NotExist => files w1 !! p = None
     | inl IOError => True
     | inr m => files w1 !! p = Some (Intact m) /\ marker_complete p m = true
     end -> Q r w2) ->
  wp t (parseMarker p) Q w.
Proof.
  intros HQ. unfold parseMarker. apply wp_bind, wp_read; [done|]. intros w1 c x w2 Hr1 Hi Hp Hr2.
  cbn in Hp. simplify_eq.
  destruct (failing c); [intros w3 Hr3; apply (HQ w1 w3); [done|done|by trans w2|done]|].
  destruct (files w1 !! p) as [[m|m]|] eqn:Hf; intros w3 Hr3;
    (apply (HQ w1 w3); [done|done|by trans w2|]); try done.
  by destruct (marker_complete p m) eqn:Hc.
Qed.

(** *** Scans *)

Definition extends (p q : path) : Prop := exists r, q = p ++ r.

Definition entry_ok (e : markerEntry) : Prop :=
  exists h card, EntryPath e = mp h card /\ MPodUID (EntryMarker e) = h.1 /\ MCard (EntryMarker e) = card.

(** What a walk adds: entries of markers, and paths each once. *)
Definition adds (P : path -> Prop) (acc acc' : scanned) : Prop :=
  exists ne nc, acc' = (acc.1 ++ ne, acc.2 ++ nc) /\ Forall entry_ok ne /\ Forall P nc /\ NoDup nc.

Lemma adds_nothing P acc : adds P acc acc.
Proof. exists [], []. rewrite !app_nil_r. destruct acc. split_and!; [done|constructor..]. Qed.

Lemma adds_app (P Q R : path -> Prop) acc1 acc2 acc3 :
  (forall q, P q -> R q) -> (forall q, Q q -> R q) -> (forall q, P q -> ~ Q q) ->
  adds P acc1 acc2 -> adds Q acc2 acc3 -> adds R acc1 acc3.
Proof.
  intros HP HQ Hd (ne & nc & -> & He & Hc & Hn) (ne' & nc' & -> & He' & Hc' & Hn'). cbn.
  exists (ne ++ ne'), (nc ++ nc'). rewrite <- !app_assoc. split; [done|]. split; [by apply Forall_app|].
  rewrite list.Forall_forall in Hc. rewrite list.Forall_forall in Hc'. split.
  - rewrite list.Forall_forall. intros q [Hq|Hq]%elem_of_app; auto.
  - apply NoDup_app. split; [done|]. split; [|done]. intros q Hq Hq'. by apply (Hd q); auto.
Qed.

Lemma adds_weaken (P Q : path -> Prop) acc acc' : (forall q, P q -> Q q) -> adds P acc acc' -> adds Q acc acc'.
Proof.
  intros H (ne & nc & -> & He & Hc & Hn). exists ne, nc. split_and!; try done.
  eapply Forall_impl; [exact Hc|done].
Qed.

Lemma wp_visit t acc p w : wp t (visit_file acc p) (fun acc' _ => adds (fun q => q = p) acc acc') w.
Proof.
  unfold visit_file. destruct (negb _); [intros w' _; apply adds_nothing|]. apply wp_bind, wp_parse.
  intros w1 w2 r Hr1 Hi Hr2 Hr. destruct r as [e|m]; intros w3 _.
  - exists [], [p]. rewrite app_nil_r. split_and!; [done|constructor|by constructor|apply NoDup_singleton].
  - destruct Hr as [Hf _]. destruct (inv_paths _ Hi p _ Hf) as (h & card & Hp & _ & Hu & Hc).
    eexists [_], []. rewrite app_nil_r. split_and!; [done| |constructor|constructor].
    constructor; [|constructor]. exists h, card. by cbn.
Qed.

Lemma below_spec p q r : below p q = Some r <-> q = p ++ r.
Proof.
  revert q. induction p as [|a p IH]; intros q; cbn; [split; [by intros [= ->]|by intros ->]|].
  destruct q as [|b q]; [by split|]. case_bool_decide as Hab.
  - subst b. rewrite IH. split; [by intros ->|by intros [= ->]].
  - split; [done|]. intros [= ? _]. congruence.
Qed.

Lemma child_spec p q n b : child p q = Some (n, b) <-> exists rest, q = p ++ n :: rest /\ b = negb (bool_decide (rest = [])).
Proof.
  unfold child. split.
  - destruct (below p q) as [[|x rest]|] eqn:Hb; try done. intros [= -> <-]. apply below_spec in Hb. eauto.
  - intros (rest & Hq%below_spec & ->). by rewrite Hq.
Qed.

Lemma elem_children p w n b :
  (n, b) ∈ children p w <-> exists q c, files w !! q = Some c /\ child p q = Some (n, b).
Proof.
  unfold children. rewrite merge_sort_Permutation, elem_of_remove_dups, list_elem_of_omap. split.
  - intros (q & Hq & Hc). apply list_elem_of_fmap in Hq as ([q' c] & -> & Hin%elem_of_map_to_list). eauto.
  - intros (q & c & Hq & Hc). exists q. split; [|done]. apply list_elem_of_fmap. exists (q, c).
    split; [done|]. by apply elem_of_map_to_list.
Qed.

(** All markers are at one depth, so a name is a file or a directory. *)
Lemma children_names p w : inv w -> NoDup (children p w).*1.
Proof.
  intros Hi. assert (NoDup (children p w)) as Hn.
  { unfold children. rewrite merge_sort_Permutation. apply NoDup_remove_dups. }
  apply NoDup_alt. intros i j n Hin Hjn. rewrite NoDup_alt in Hn.
  apply list_lookup_fmap_Some in Hin as ([n1 b1] & -> & Hi1), Hjn as ([n2 b2] & Hn2 & Hj2). cbn in Hn2. subst n2.
  apply (Hn i j (n1, b1)); [done|]. rewrite Hj2. f_equal. f_equal.
  pose proof (list_elem_of_lookup_2 _ _ _ Hi1) as H1. pose proof (list_elem_of_lookup_2 _ _ _ Hj2) as H2.
  apply elem_children in H1 as (q1 & c1 & Hf1 & (r1 & -> & ->)%child_spec).
  apply elem_children in H2 as (q2 & c2 & Hf2 & (r2 & -> & ->)%child_spec).
  destruct (inv_paths _ Hi _ _ Hf1) as (h1 & card1 & E1 & _), (inv_paths _ Hi _ _ Hf2) as (h2 & card2 & E2 & _).
  apply (f_equal length) in E1, E2. unfold markerPath in E1, E2. rewrite length_app in E1, E2. cbn in E1, E2.
  destruct r1, r2; cbn in E1, E2; try done; lia.
Qed.

Lemma wp_walk_loop t p l acc (body : scanned -> string * bool -> prog scanned) w :
  NoDup l.*1 ->
  (forall acc e w, e ∈ l -> wp t (body acc e) (fun acc' _ => adds (extends (p ++ [e.1])) acc acc') w) ->
  wp t (for_all l acc body) (fun acc' _ => adds (fun q => exists n, n ∈ l.*1 /\ extends (p ++ [n]) q) acc acc') w.
Proof.
  revert acc w. induction l as [|e l IH]; intros acc w Hn Hb; cbn [for_all].
  { intros w' _. apply adds_nothing. }
  apply NoDup_cons in Hn as [He Hn]. apply wp_bind. eapply wp_mono; [|apply Hb, list_elem_of_here].
  intros acc1 w1 H1. eapply wp_mono; [|apply IH; [done|intros; apply Hb; by right]].
  intros acc2 w2 H2. eapply adds_app; [| | |exact H1|exact H2].
  - intros q Hq. exists e.1. split; [by left|done].
  - intros q (n & Hn' & Hq). exists n. split; [by right|done].
  - intros q (r1 & ->) (n & Hn' & (r2 & Hq)). rewrite <- !app_assoc in Hq. apply app_inv_head in Hq.
    injection Hq as Heq _. apply He. by rewrite Heq.
Qed.

Lemma wp_walk t fuel p acc w : wp t (walk fuel p acc) (fun acc' _ => adds (extends p) acc acc') w.
Proof.
  revert p acc w. induction fuel as [|fuel IH]; intros p acc w; cbn [walk].
  { intros w' _. exists [], [p]. rewrite app_nil_r. split_and!; [done|constructor| |apply NoDup_singleton].
    constructor; [|constructor]. exists []. by rewrite app_nil_r. }
  apply wp_bind, wp_read; [done|]. intros w1 c [l err] w2 Hr1 Hi Hp Hr2. cbn [fst snd].
  assert (NoDup l.*1) as Hn.
  { pose proof (children_names p w1 Hi) as Hn. cbn in Hp. destruct (failing c); simplify_eq.
    - rewrite fmap_take. eapply sublist_NoDup; [exact Hn|apply sublist_take].
    - destruct (children p w1); simplify_eq; done. }
  eapply wp_mono; [|apply (wp_walk_loop t p); [done|]].
  - intros acc' w' H. eapply (adds_app (fun q => q = p)); [| | | |exact H].
    + intros q ->. exists []. by rewrite app_nil_r.
    + intros q (n & _ & (r & ->)). exists (n :: r). by rewrite <- app_assoc.
    + intros q -> (n & _ & (r & Hq)). apply (f_equal length) in Hq. rewrite !length_app in Hq. cbn in Hq. lia.
    + destruct err as [[]|]; try apply adds_nothing. exists [], [p]. rewrite app_nil_r.
      split_and!; [done|constructor|by constructor|apply NoDup_singleton].
  - intros acc' [n b] w' _. cbn [fst snd]. destruct b; [apply IH|].
    eapply wp_mono; [|apply wp_visit]. intros acc2 w3 H. eapply adds_weaken; [|exact H].
    intros q ->. exists []. by rewrite app_nil_r.
Qed.

(** *** No living claim is overlooked *)

Definition covers_claim (acc : scanned) (h : holder) (card : string) (m : migMarker) : Prop :=
  (exists e, e ∈ acc.1 /\ EntryPath e = mp h card /\ EntryMarker e = m) \/
  mp h card ∈ acc.2 \/ (exists p, p ∈ acc.2 /\ cardFromMarkerPath p = None).

(** Under the lock, a claim that stands in the end stood all along. *)
Lemma claim_back t w w' h card m :
  locks w !! card = Some t -> rely t w w' -> alive w' h.1 -> claim_of w' h card = Some m ->
  alive w h.1 /\ claim_of w h card = Some m.
Proof.
  intros Hl Hr Ha Hc. destruct (rely_card _ _ _ Hr card Hl) as [_ Hk]. destruct (Hk h Ha) as [H1 H2].
  unfold claim_of in *. destruct (decide (pods w !! h.1 = Some true)) as [Hal|Hd].
  - split; [done|]. by rewrite <- (same_file_recorded _ _ (H1 Hal)).
  - by rewrite (H2 Hd) in Hc.
Qed.

Lemma prefix_dark pre suf h card :
  pre ++ suf = mp h card -> suf <> [] -> isMarkerFile h.1 = false -> cardFromMarkerPath pre = None.
Proof.
  intros Hp Hs Hu. assert (isMarkerFile (Base pre) = false) as Hm; [|unfold cardFromMarkerPath; by rewrite Hm].
  unfold markerPath, PodWorkDir in Hp. destruct pre as [|a [|b [|c [|d pre]]]]; [done| | | |].
  - by injection Hp as -> _.
  - by injection Hp as _ -> _.
  - injection Hp as _ _ _ ?. done.
  - discriminate Hp.
Qed.

Definition grows (acc acc' : scanned) : Prop := exists ne nc, acc' = (acc.1 ++ ne, acc.2 ++ nc).

Lemma covers_grows acc acc' h card m : grows acc acc' -> covers_claim acc h card m -> covers_claim acc' h card m.
Proof.
  intros (ne & nc & ->) [(e & He & Hp & Hm)|[Hc|(p & Hp & Hd)]].
  - left. exists e. cbn. split; [apply elem_of_app; by left|done].
  - right. left. cbn. apply elem_of_app. by left.
  - right. right. exists p. cbn. split; [apply elem_of_app; by left|done].
Qed.

Lemma grows_refl acc : grows acc acc.
Proof. exists [], []. rewrite !app_nil_r. by destruct acc. Qed.

Lemma grows_trans a b c : grows a b -> grows b c -> grows a c.
Proof. intros (n1 & c1 & ->) (n2 & c2 & ->). exists (n1 ++ n2), (c1 ++ c2). cbn. by rewrite !app_assoc. Qed.

(** A step of a walk: the world moves on and the result grows. *)
Definition stepped_on (t : nat) (w : world) (acc acc' : scanned) (w' : world) : Prop := rely t w w' /\ grows acc acc'.

Lemma wp_visit_on t acc p w : wp t (visit_file acc p) (stepped_on t w acc) w.
Proof.
  apply wp_and; [apply wp_calm|eapply wp_mono; [|apply wp_visit]].
  - unfold visit_file, parseMarker. destruct (negb _); [done|]. apply quiet_bind; [|by intros []].
    apply quiet_bind; [by apply quiet_call|]. by intros [|[]].
  - intros acc' w' (ne & nc & -> & _). by exists ne, nc.
Qed.

Lemma wp_loop_on t (l : list (string * bool)) acc body w :
  (forall acc e w, wp t (body acc e) (stepped_on t w acc) w) -> wp t (for_all l acc body) (stepped_on t w acc) w.
Proof.
  intros Hb. apply wp_for_all.
  - intros acc' w1 w2 Hr [H1 H2]. split; [by trans w1|done].
  - intros acc' e w1 _ [H1 H2]. eapply wp_mono; [|apply Hb]. intros acc2 w2 [H3 H4].
    split; [by trans w1|by eapply grows_trans].
  - split; [done|apply grows_refl].
Qed.

Lemma wp_walk_on t fuel p acc w : wp t (walk fuel p acc) (stepped_on t w acc) w.
Proof.
  revert p acc w. induction fuel as [|fuel IH]; intros p acc w; cbn [walk].
  { intros w' Hr. split; [done|]. exists [], [p]. by rewrite app_nil_r. }
  apply wp_bind, wp_read; [done|]. intros w1 c [l err] w2 Hr1 _ _ Hr2.
  eapply wp_mono; [|apply wp_loop_on; intros acc' [n []] w'; [apply IH|apply wp_visit_on]].
  intros acc' w' [H1 H2]. split; [trans w1; [done|by trans w2]|]. eapply grows_trans; [|exact H2].
  destruct err as [[]|]; try apply grows_refl. exists [], [p]. by rewrite app_nil_r.
Qed.

Section Cover.
Context (t : nat) (h : holder) (card : string) (m : migMarker).

Definition covered (acc : scanned) (w : world) : Prop :=
  alive w h.1 -> claim_of w h card = Some m -> covers_claim acc h card m.

Lemma covered_on acc acc' w w' :
  locks w !! card = Some t -> covered acc w -> stepped_on t w acc acc' w' -> covered acc' w'.
Proof.
  intros Hl Hc [Hr Hg] Ha Hcl. destruct (claim_back t w w' h card m Hl Hr Ha Hcl) as [Ha' Hcl'].
  eapply covers_grows; [exact Hg|by apply Hc].
Qed.

Lemma wp_loop_hit (l : list (string * bool)) e acc body w :
  e ∈ l -> locks w !! card = Some t ->
  (forall acc e w, wp t (body acc e) (stepped_on t w acc) w) ->
  (forall acc w, locks w !! card = Some t -> wp t (body acc e) covered w) ->
  wp t (for_all l acc body) covered w.
Proof.
  intros Hin Hl Hon Hhit. revert acc w Hl. induction l as [|x l IH]; [by apply not_elem_of_nil in Hin|].
  intros acc w Hl. cbn [for_all]. apply wp_bind. apply elem_of_cons in Hin as [->|Hin].
  - eapply wp_mono; [|apply wp_and; [by apply Hhit|apply Hon]]. intros acc1 w1 [Hc [Hr _]].
    eapply wp_mono; [|by apply wp_loop_on]. intros acc2 w2 Hon2. eapply covered_on; [|exact Hc|exact Hon2].
    by apply (rely_locks _ _ _ Hr).
  - eapply wp_mono; [|apply Hon]. intros acc1 w1 [Hr _]. apply IH; [done|]. by apply (rely_locks _ _ _ Hr).
Qed.

Lemma wp_visit_covers acc w : locks w !! card = Some t -> wp t (visit_file acc (mp h card)) covered w.
Proof.
  intros Hl. unfold visit_file. rewrite (proj2 (isMarkerFile_spec _)) by (rewrite base_markerPath; eauto). cbn [negb].
  apply wp_bind, wp_parse. intros w1 w2 r Hr1 Hi Hr2 Hr.
  apply (rely_locks _ _ _ Hr1) in Hl. destruct r as [e|m']; intros w3 Hr3 Ha Hc.
  - right. left. cbn. apply elem_of_app. right. by apply list_elem_of_singleton.
  - assert (rely t w1 w3) as Hr13 by (by trans w2).
    destruct (claim_back t w1 w3 h card m Hl Hr13 Ha Hc) as [_ Hc1].
    destruct Hr as [Hf _]. unfold claim_of in Hc1. rewrite Hf in Hc1. injection Hc1 as <-.
    left. eexists. split; [cbn; apply elem_of_app; right; by apply list_elem_of_singleton|done].
Qed.

Lemma wp_walk_covers fuel pre suf acc w :
  pre ++ suf = mp h card -> suf <> [] -> (length suf <= fuel)%nat -> locks w !! card = Some t ->
  wp t (walk fuel pre acc) covered w.
Proof.
  revert pre suf acc w. induction fuel as [|fuel IH]; intros pre suf acc w Hp Hs Hlen Hl.
  { destruct suf; [done|]. cbn in Hlen. lia. }
  cbn [walk]. apply wp_bind, wp_read; [done|]. intros w1 c [l err] w2 Hr1 Hi Hx Hr2.
  apply (rely_locks _ _ _ Hr1) in Hl. assert (locks w2 !! card = Some t) as Hl2 by (by apply (rely_locks _ _ _ Hr2)).
  set (body := fun acc e => _).
  assert (forall acc e w, wp t (body acc e) (stepped_on t w acc) w) as Hon.
  { intros acc' [n []] w'; [apply wp_walk_on|apply wp_visit_on]. }
  destruct (decide (pods w1 !! h.1 = Some true /\ claim_of w1 h card = Some m)) as [[Ha Hc]|Hno].
  2: { eapply wp_mono; [|by apply wp_loop_on]. intros acc' w' [Hr _] Ha Hc. exfalso. apply Hno.
       eapply (claim_back t w1 w'); [done|by trans w2|done|done]. }
  unfold claim_of in Hc. apply fmap_Some in Hc as (cc & Hf & _).
  destruct suf as [|n rest]; [done|].
  assert ((n, negb (bool_decide (rest = []))) ∈ children pre w1) as Hch.
  { apply elem_children. exists (mp h card), cc. split; [done|]. apply child_spec. by exists rest. }
  cbn in Hx. destruct (failing c).
  - simplify_eq. eapply wp_mono; [|by apply wp_loop_on]. intros acc' w' Hs' _ _.
    eapply covers_grows; [apply Hs'|]. right. right. exists pre. split; [cbn; set_solver|].
    eapply prefix_dark; [exact Hp|done|]. apply (inv_names _ Hi). rewrite Ha. eauto.
  - assert (l = children pre w1) as ->.
    { destruct (children pre w1); [by apply not_elem_of_nil in Hch|]. by simplify_eq. }
    apply (wp_loop_hit _ _ _ _ _ Hch Hl2 Hon). intros acc' w' Hl'. unfold body. cbn [fst snd].
    destruct (bool_decide_reflect (rest = [])) as [->|Hne]; cbn [negb].
    + rewrite Hp. by apply wp_visit_covers.
    + eapply (IH (pre ++ [n]) rest); [by rewrite <- app_assoc|done|cbn in Hlen; lia|done].
Qed.
End Cover.

(** What a scan under the lock of an accelerator is worth. *)
Record scan_of (t : nat) (card : string) (w : world) (s : scanned) (w' : world) : Prop := {
  scan_rely : rely t w w';
  scan_entries : Forall entry_ok s.1;
  scan_corrupt : NoDup s.2;
  scan_covers : locks w !! card = Some t -> forall h m, alive w' h.1 -> claim_of w' h card = Some m ->
    covers_claim s h card m }.

Lemma wp_scan_covers t h card m w : locks w !! card = Some t -> wp t scanMarkers (covered h card m) w.
Proof.
  intros Hl. unfold scanMarkers. apply wp_bind, wp_read; [done|]. intros w1 c x w2 Hr1 _ Hx Hr2.
  apply (rely_locks _ _ _ Hr1) in Hl. cbn in Hx. destruct (failing c); simplify_eq.
  { intros w3 _ _ _. right. right. exists []. split; [cbn; set_solver|done]. }
  destruct (bool_decide_reflect (files w1 = ∅)) as [He|_]; cbn [andb]; [destruct (gone c)|].
  1: { intros w3 Hr3 Ha Hc. exfalso. assert (rely t w1 w3) as Hr by (by trans w2).
       destruct (claim_back t w1 w3 h card m Hl Hr Ha Hc) as [_ Hc1].
       unfold claim_of in Hc1. by rewrite He, lookup_empty in Hc1. }
  all: apply (wp_walk_covers t h card m _ [] (mp h card)); [done|by unfold markerPath| |by apply (rely_locks _ _ _ Hr2)];
    by apply Nat.leb_le.
Qed.

Lemma wp_scan t card w : wp t scanMarkers (scan_of t card w) w.
Proof.
  assert (wp t scanMarkers (fun s w' => rely t w w' /\ Forall entry_ok s.1 /\ NoDup s.2) w) as Hbase.
  { unfold scanMarkers. apply wp_bind, wp_read; [done|]. intros w1 c x w2 Hr1 _ _ Hr2.
    assert (rely t w w2) as Hr by (by trans w1).
    destruct x as [[]|]; [intros w3 Hr3|intros w3 Hr3|].
    - split; [by trans w2|]. split; constructor.
    - split; [by trans w2|]. split; [constructor|apply NoDup_singleton].
    - eapply wp_mono; [|apply wp_and; [apply wp_walk|apply wp_walk_on]]. intros s w3 [(ne & nc & -> & He & _ & Hn) [Hr3 _]].
      split; [by trans w2|]. done. }
  destruct (decide (locks w !! card = Some t)) as [Hl|Hno].
  - eapply wp_mono; [|apply wp_and; [exact Hbase|
      apply (wp_all _ _ (fun hm : holder * migMarker => covered hm.1 card hm.2)); intros [h m]; by apply wp_scan_covers]].
    intros s w' [(H1 & H2 & H3) H4]. constructor; try done. intros _ h m. apply (H4 (h, m)).
  - eapply wp_mono; [|exact Hbase]. intros s w' (H1 & H2 & H3). by constructor.
Qed.

(** *** Serving a container *)

Definition serving (t : nat) (h : holder) (w : world) : Prop :=
  active w !! h = Some t /\ forall h', active w !! h' = Some t -> h' = h.

Lemma serving_rely t h w w' : rely t w w' -> serving t h w -> serving t h w'.
Proof.
  intros Hr [H1 H2]. split; [by apply (rely_actives _ _ _ Hr)|]. intros h' Hh'. apply H2.
  by apply (rely_actives _ _ _ Hr).
Qed.

Lemma claim_rely t w w' h card :
  rely t w w' -> active w !! h = Some t -> claim_of w' h card = claim_of w h card.
Proof. intros Hr Ha. apply same_file_recorded. by apply (rely_active _ _ _ Hr h card). Qed.

Lemma granted_rely t w w' h card :
  rely t w w' -> active w !! h = Some t -> granted w' !! (h, card) = granted w !! (h, card).
Proof. intros Hr Ha. by apply (rely_active _ _ _ Hr h card). Qed.

Lemma backed_rely t w w' card m : rely t w w' -> locks w !! card = Some t -> backed w card m -> backed w' card m.
Proof. intros Hr Hl. unfold backed. destruct (rely_card _ _ _ Hr card Hl) as [-> _]. done. Qed.

Lemma settled_rely t w w' card : rely t w w' -> locks w !! card = Some t -> settled t card w -> settled t card w'.
Proof.
  intros Hr Hl Hs h m Ha Hc Hg. apply (rely_actives _ _ _ Hr) in Ha.
  rewrite (claim_rely _ _ _ _ _ Hr Ha) in Hc. rewrite (granted_rely _ _ _ _ _ Hr Ha) in Hg.
  eapply backed_rely; [exact Hr|done|]. by eapply Hs.
Qed.

(** The Allocate for [h] works on [card]. *)
Record working (t : nat) (h : holder) (card : string) (w : world) : Prop := {
  working_serving : serving t h w;
  working_lock : locks w !! card = Some t;
  working_settled : settled t card w }.

Lemma working_rely t h card w w' : rely t w w' -> working t h card w -> working t h card w'.
Proof.
  intros Hr [Hs Hl Hst]. constructor; [by eapply serving_rely|by apply (rely_locks _ _ _ Hr)|by eapply settled_rely].
Qed.

(** The container has no marker on [card]. *)
Record unmarked (t : nat) (h : holder) (card : string) (w : world) : Prop := {
  unmarked_serving : serving t h w;
  unmarked_lock : locks w !! card = Some t;
  unmarked_claim : claim_of w h card = None;
  unmarked_granted : granted w !! (h, card) = None }.

Lemma unmarked_rely t h card w w' : rely t w w' -> unmarked t h card w -> unmarked t h card w'.
Proof.
  intros Hr [Hs Hl Hc Hg]. pose proof (proj1 Hs) as Ha. constructor.
  - by eapply serving_rely.
  - by apply (rely_locks _ _ _ Hr).
  - by rewrite (claim_rely _ _ _ _ _ Hr Ha).
  - by rewrite (granted_rely _ _ _ _ _ Hr Ha).
Qed.

Lemma unmarked_working t h card w : unmarked t h card w -> working t h card w.
Proof.
  intros [[Ha Hsole] Hl Hc Hg]. constructor; [done|done|]. intros h' m Ha' Hc' _.
  rewrite (Hsole h' Ha') in Hc'. congruence.
Qed.

Lemma writable_rely t h card m w w' : rely t w w' -> writable t h card m w -> writable t h card m w'.
Proof.
  intros Hr [Hl Ha Hg Hcn Hb Hf]. constructor; [by apply (rely_locks _ _ _ Hr)|by apply (rely_actives _ _ _ Hr)| |done| |].
  - by rewrite (granted_rely _ _ _ _ _ Hr Ha).
  - by eapply backed_rely.
  - intros h' m' Hne Hal Hc. destruct (claim_back t w w' h' card m' Hl Hr Hal Hc) as [Hal' Hc']. by eapply Hf.
Qed.

(** What an accelerator served gives the container. *)
Record owned (t : nat) (h : holder) (r : cardResult) (w : world) : Prop := {
  owned_serving : serving t h w;
  owned_claim : exists m, claim_of w h (RCard r) = Some m /\ agrees (RInst r) m;
  owned_granted : ROutcome r <> migRebound -> granted w !! (h, RCard r) = None }.

Lemma owned_rely t h r w w' : rely t w w' -> owned t h r w -> owned t h r w'.
Proof.
  intros Hr [Hs (m & Hc & Ha) Hg]. pose proof (proj1 Hs) as Hact. constructor; [by eapply serving_rely| |].
  - exists m. by rewrite (claim_rely _ _ _ _ _ Hr Hact).
  - intros Hne. rewrite (granted_rely _ _ _ _ _ Hr Hact). auto.
Qed.

Lemma agrees_marker uid ctr card profile inst : agrees inst (marker_of uid ctr card profile inst).
Proof. split; [done|]. unfold matchesMarker, marker_of. cbn. by rewrite !bool_decide_true. Qed.

Lemma agrees_instance m : agrees (instance m) m.
Proof. split; [done|]. unfold matchesMarker, instance. cbn. by rewrite !bool_decide_true. Qed.

(** With every owner known, a covered claim is one of those the scan owns. *)
Lemma covered_owned s h card m :
  Forall entry_ok s.1 -> covers_claim s h card m -> ownershipUnknownOnCard s.2 card = false ->
  MGiID m ∈ ownedGiIDsOnCard s.1 card.
Proof.
  intros He Hcov Hu.
  assert (forall p, p ∈ s.2 -> cardFromMarkerPath p = None \/ p = mp h card -> False) as Hno.
  { intros p Hp Hor. apply not_true_iff_false in Hu. apply Hu, existsb_exists. exists p.
    split; [by apply list_elem_of_In|]. destruct Hor as [->|Hpm]; [done|].
    destruct (cardFromMarkerPath p) as [c|] eqn:Hcp; [|done]. apply cardFromMarkerPath_spec in Hcp as [Hb _].
    rewrite Hpm, base_markerPath in Hb. apply markerFileName_inj in Hb. by apply bool_decide_eq_true. }
  destruct Hcov as [(e & Hin & Hp & <-)|[Hp|(p & Hp & Hd)]];
    [|by destruct (Hno _ Hp); right|by destruct (Hno _ Hp); left].
  apply elem_of_list_to_set, list_elem_of_fmap. exists e. split; [done|]. apply list_elem_of_filter. split; [|done].
  rewrite list.Forall_forall in He. destruct (He e Hin) as (h2 & c2 & Hp2 & _ & Hcd).
  rewrite Hp in Hp2. apply mp_eq in Hp2 as [_ <-]. done.
Qed.

(** What a scan says nobody owns, no living container claims. *)
Lemma unowned_fresh t h card profile inst s w :
  unmarked t h card w -> inst ∈ view card w -> Forall entry_ok s.1 ->
  (forall h' m', alive w h'.1 -> claim_of w h' card = Some m' -> covers_claim s h' card m') ->
  ownershipUnknownOnCard s.2 card = false -> GiID inst ∉ ownedGiIDsOnCard s.1 card ->
  writable t h card (marker_of h.1 h.2 card profile inst) w.
Proof.
  intros [[Ha Hsole] Hl Hcl Hg] Hin He Hcov Hu Hown. constructor; [done|done|done|done| |].
  - exists inst. split; [done|]. apply agrees_marker.
  - intros h' m' Hne Hal Hc Heq. cbn in Heq. apply Hown. rewrite <- Heq. by eapply covered_owned; [|apply Hcov|].
Qed.

Lemma wp_create t h card profile cs slot w :
  unmarked t h card w ->
  wp t (call (CreateInstance card profile cs slot)) (fun r w' => unmarked t h card w' /\
    match r with Some inst => writable t h card (marker_of h.1 h.2 card profile inst) w' | None => True end) w.
Proof.
  intros Hu. apply wp_call. intros w1 c x w2 Hr Hi _ Hp. apply (unmarked_rely _ _ _ _ _ Hr) in Hu.
  cbn in Hp. injection Hp as Hc. destruct Hu as [Hs Hl Hcl Hg].
  assert (unmarked t h card w2 /\
    match x with Some inst => writable t h card (marker_of h.1 h.2 card profile inst) w2 | None => True end) as [Hu2 Hx].
  { unfold create in Hc.
    destruct (bool_decide_reflect (new_gi c ∈ Gi <$> instances_on card w1)) as [_|Hid]; cbn [orb] in Hc;
      [by simplify_eq|]. destruct (negb _); [by simplify_eq|].
    destruct (driver c); [destruct (late c); by simplify_eq|]. case_bool_decide as Hne; [by simplify_eq|].
    simplify_eq. split; [done|]. destruct Hs as [Ha Hsole]. constructor; [done|done|done|done| |].
    - eexists (shown {| Gi := new_gi c |}). split; [|split; [done|]].
      + unfold view, instances_on. cbn. rewrite lookup_insert_eq. cbn. rewrite fmap_app. apply elem_of_app. right.
        apply list_elem_of_singleton. reflexivity.
      + unfold matchesMarker. cbn. by rewrite !bool_decide_true.
    - intros h' m' Hne' Hal Hc' Heq. cbn in Heq.
      destruct (inv_backed _ Hi h' card m' Hal Hc') as [(u & Hu & Hau & _)|(i & Hin & Hgi & _)].
      + apply Hne', Hsole. congruence.
      + apply Hid. rewrite <- Heq, <- Hgi. apply list_elem_of_fmap in Hin as (g & -> & Hin).
        apply list_elem_of_fmap. by exists g. }
  split; [by eapply guar_create|]. intros w3 Hr3. split; [by eapply unmarked_rely|].
  destruct x; [by eapply writable_rely|done].
Qed.

Lemma wp_take t h card profile cs ms state s w :
  unmarked t h card w -> Live state = view card w -> Forall entry_ok s.1 ->
  (forall h' m', alive w h'.1 -> claim_of w h' card = Some m' -> covers_claim s h' card m') ->
  wp t (take_instance card profile cs ms state s.1 s.2) (fun r w' => unmarked t h card w' /\
    match r with
    | inr (inst, outcome) => outcome <> migRebound /\ writable t h card (marker_of h.1 h.2 card profile inst) w'
    | inl _ => True
    end) w.
Proof.
  intros Hu Hlive He Hcov. unfold take_instance.
  destruct (if ownershipUnknownOnCard s.2 card then None else _) as [inst|] eqn:Had.
  - destruct (ownershipUnknownOnCard s.2 card) eqn:Hunk; [done|]. unfold reuseUnboundInstance in Had.
    apply bind_Some in Had as ([j inst'] & (Hj & (_ & _ & _ & Hown) & _)%list_find_Some & [= ->]).
    assert (writable t h card (marker_of h.1 h.2 card profile inst) w) as Hw.
    { eapply unowned_fresh; [done| |done|done|done|done]. rewrite <- Hlive. by eapply list_elem_of_lookup_2. }
    intros w' Hr. split; [by eapply unmarked_rely|]. split; [done|by eapply writable_rely].
  - destruct (pickPlacement _ _) as [slot|].
    + apply wp_bind. eapply wp_mono; [|by apply wp_create]. intros [inst|] w1 [Hu1 Hw1] w2 Hr2.
      * split; [by eapply unmarked_rely|]. split; [done|by eapply writable_rely].
      * split; [by eapply unmarked_rely|done].
    + intros w' Hr. split; [by eapply unmarked_rely|done].
Qed.

(** Destroying what only this Allocate may claim. *)
Lemma wp_destroy_own t card inst Q w :
  locks w !! card = Some t ->
  (forall w1, rely t w w1 -> inv w1 -> forall h m, alive w1 h.1 -> claim_of w1 h card = Some m -> MGiID m = GiID inst ->
     active w1 !! h = Some t /\ granted w1 !! (h, card) = None) ->
  (forall w1 x w2 w3, rely t w w1 -> inv w1 -> files w2 = files w1 -> locks w2 = locks w1 -> active w2 = active w1 ->
     granted w2 = granted w1 -> pods w2 = pods w1 -> rely t w2 w3 -> Q x w3) ->
  wp t (call (DestroyInstance card inst)) Q w.
Proof.
  intros Hl Hown HQ. apply wp_call. intros w1 c x w2 Hr Hi _ Hp. cbn in Hp. injection Hp as Hd.
  apply (rely_locks _ _ _ Hr) in Hl. split; [by eapply guar_destroy; [|by apply Hown|]|].
  intros w3 Hr3. apply (HQ w1 x w2 w3); try done; unfold destroy in Hd; repeat case_match; by simplify_eq.
Qed.

Lemma wp_write t h card profile inst w :
  unmarked t h card w -> writable t h card (marker_of h.1 h.2 card profile inst) w ->
  wp t (writeMarker (mp h card) (marker_of h.1 h.2 card profile inst)) (fun err w' =>
    match err with
    | None => working t h card w' /\ granted w' !! (h, card) = None /\
              claim_of w' h card = Some (marker_of h.1 h.2 card profile inst)
    | Some _ => unmarked t h card w' /\ writable t h card (marker_of h.1 h.2 card profile inst) w'
    end) w.
Proof.
  intros Hu Hw. unfold writeMarker. apply wp_bind, wp_read; [done|]. intros w1 c [e|] w2 Hr1 _ _ Hr2;
    assert (rely t w w2) as Hr by (by trans w1).
  { intros w3 Hr3. assert (rely t w w3) by (by trans w2). split; [by eapply unmarked_rely|by eapply writable_rely]. }
  apply (unmarked_rely _ _ _ _ _ Hr) in Hu. apply (writable_rely _ _ _ _ _ _ Hr) in Hw.
  apply wp_call. intros w3 c' x w4 Hr3 Hi Hc' Hp.
  apply (unmarked_rely _ _ _ _ _ Hr3) in Hu. apply (writable_rely _ _ _ _ _ _ Hr3) in Hw.
  destruct (Hallowed c' Hc') as [Hland _]. cbn in Hp. rewrite Hland in Hp.
  destruct (failing c'); simplify_eq.
  { split; [apply guar_refl|]. intros w5 Hr5. split; [by eapply unmarked_rely|by eapply writable_rely]. }
  split; [by apply guar_write|]. intros w5 Hr5.
  assert (claim_of (set_files <[mp h card := Intact (marker_of h.1 h.2 card profile inst)]> w3) h card
          = Some (marker_of h.1 h.2 card profile inst)) as Hc by (rewrite claim_insert; by rewrite decide_True).
  destruct Hu as [[Ha Hsole] Hl _ Hg]. split; [|split].
  - eapply working_rely; [exact Hr5|]. constructor; [done|done|]. intros h' m Ha' Hc2 _.
    rewrite (Hsole h' Ha'), Hc in Hc2. injection Hc2 as <-. apply (writable_backed _ _ _ _ _ Hw).
  - by rewrite (granted_rely _ _ _ _ _ Hr5 Ha).
  - by rewrite (claim_rely _ _ _ _ _ Hr5 Ha).
Qed.

Abbreviation result card inst outcome := {| RCard := card; RInst := inst; ROutcome := outcome |}.

(** What reserving leaves: the accelerator settled, and what was answered owned. *)
Definition reserved (t : nat) (h : holder) (card : string) (r : reserveError + migInstance * migReserveOutcome)
    (w : world) : Prop :=
  working t h card w /\
  match r with inr (inst, outcome) => owned t h (result card inst outcome) w | inl _ => True end.

Lemma reserved_error t h card e w w' :
  rely t w w' -> working t h card w -> reserved t h card (inl e) w'.
Proof. intros Hr Hw. split; [by eapply working_rely|done]. Qed.

Lemma wp_rebind t h card profile m w :
  working t h card w -> claim_of w h card = Some m -> wp t (rebind card profile m) (reserved t h card) w.
Proof.
  intros Hw Hc. unfold rebind. destruct (negb _); [intros w' Hr; by eapply reserved_error|].
  apply wp_bind, wp_read; [done|]. intros w1 c [state|] w2 Hr1 _ _ Hr2; assert (rely t w w2) as Hr by (by trans w1).
  2: { intros w3 Hr3. eapply reserved_error; [|exact Hw]. by trans w2. }
  destruct (findLiveInstance _ _) as [i|]; [destruct (negb _)|]; intros w3 Hr3; assert (rely t w w3) by (by trans w2);
    [by eapply reserved_error| |by eapply reserved_error].
  split; [by eapply working_rely|]. eapply owned_rely; [done|]. constructor; [by apply working_serving in Hw| |done].
  exists m. split; [done|apply agrees_instance].
Qed.

Lemma wp_reserve t h card profile cs ms w :
  working t h card w -> wp t (reserveMigInstance h.1 h.2 card profile cs ms) (reserved t h card) w.
Proof.
  intros Hw. unfold reserveMigInstance. apply wp_bind, wp_parse. intros w1 w2 r Hr1 Hi Hr2 Hr.
  apply (working_rely _ _ _ _ _ Hr1) in Hw. destruct r as [[]|m].
  2: { intros w3 Hr3. eapply reserved_error; [|exact Hw]. by trans w2. }
  2: { destruct Hr as [Hf _]. eapply wp_rely; [exact Hr2|]. apply wp_rebind; [done|]. unfold claim_of. by rewrite Hf. }
  assert (unmarked t h card w1) as Hu.
  { destruct Hw as [[Ha Hsole] Hl _]. constructor; [done|done|unfold claim_of; by rewrite Hr|].
    destruct (granted w1 !! (h, card)) as [inst|] eqn:Hg; [|done].
    destruct (proj2 (inv_granted _ Hi h card inst Hg) (inv_active _ Hi h t Ha)) as (m & Hm & _).
    unfold claim_of in Hm. by rewrite Hr in Hm. }
  apply (unmarked_rely _ _ _ _ _ Hr2) in Hu. clear Hw Hr1 Hi Hr2 Hr w1 w.
  apply wp_bind, wp_read; [done|]. intros w3 c x w4 Hr3 _ Hx Hr4. apply (unmarked_rely _ _ _ _ _ Hr3) in Hu.
  cbn in Hx. unfold answering in Hx. destruct (driver c); simplify_eq.
  { intros w5 Hr5. eapply reserved_error; [|by apply unmarked_working]. by trans w4. }
  apply wp_bind. eapply wp_mono; [|apply (wp_scan t card)]. intros s w5 [Hr5 He _ Hcov].
  assert (rely t w3 w5) as Hr35 by (by trans w4). pose proof (unmarked_lock _ _ _ _ Hu) as Hl3.
  apply wp_bind. eapply wp_mono; [|apply (wp_take t h card profile cs ms _ s)].
  - intros [e|[inst outcome]] w6 [Hu6 H6].
    { intros w7 Hr7. eapply reserved_error; [exact Hr7|by apply unmarked_working]. }
    destruct H6 as [Hout Hw6]. apply wp_bind. eapply wp_mono; [|by apply wp_write]. intros [e|] w7 H7.
    + destruct H7 as [Hu7 Hw7]. apply wp_bind. case_bool_decide as Hcr.
      * apply wp_bind, wp_destroy_own; [apply (unmarked_lock _ _ _ _ Hu7)| |].
        -- intros w8 Hr8 Hi8 h' m' Hal Hc Hgi. exfalso. apply (writable_rely _ _ _ _ _ _ Hr8) in Hw7.
           apply (unmarked_rely _ _ _ _ _ Hr8) in Hu7. destruct (decide (h' = h)) as [->|Hne].
           ++ by rewrite (unmarked_claim _ _ _ _ Hu7) in Hc.
           ++ by apply (writable_fresh _ _ _ _ _ Hw7 h' m' Hne Hal Hc).
        -- intros w8 x w9 w10 Hr8 _ Hf Hlk Hact Hgr _ Hr10 w11 Hr11 w12 Hr12.
           apply (unmarked_rely _ _ _ _ _ Hr8) in Hu7.
           eapply reserved_error; [|apply unmarked_working; destruct Hu7 as [Hs7 Hl7 Hc7 Hg7]; constructor;
             unfold serving, claim_of in *; rewrite ?Hf, ?Hlk, ?Hact, ?Hgr; done]. by trans w10; [|trans w11].
      * intros w8 Hr8 w9 Hr9. eapply reserved_error; [|by apply unmarked_working]. by trans w8.
    + destruct H7 as (Hw7 & Hg7 & Hc7). intros w8 Hr8. split; [by eapply working_rely|].
      eapply owned_rely; [exact Hr8|]. constructor; [by apply working_serving in Hw7| |done].
      cbn. eexists. split; [exact Hc7|apply agrees_marker].
  - by eapply unmarked_rely.
  - cbn. by destruct (rely_card _ _ _ Hr35 card Hl3) as [-> _].
  - done.
  - apply Hcov. by apply (rely_locks _ _ _ Hr4).
Qed.

(** *** The accelerators of a container, one after the other *)

Definition idle (t : nat) (w : world) : Prop := forall card, locks w !! card <> Some t.

Lemma idle_rely t w w' : rely t w w' -> idle t w -> idle t w'.
Proof. intros Hr Hi card Hl. apply (Hi card). by apply (rely_locks _ _ _ Hr). Qed.

(** Actions that leave the container's markers on other accelerators alone, and the
    locks. *)
Definition elsewhere (h : holder) (card : string) {X} (a : act X) : bool :=
  match a with
  | DurableWrite p _ | Remove p => bool_decide (p = mp h card)
  | LockCard _ | UnlockCard _ | RemoveAll _ | Answer _ _ | Refuse _ => false
  | _ => true
  end.

Lemma elsewhere_keeps {X} t h card r c (a : act X) w x w' :
  RCard r <> card -> elsewhere h card a = true -> perform t c a w = Some (x, w') -> owned t h r w -> owned t h r w'.
Proof.
  intros Hne He Hp [Hs Hc Hg].
  assert (active w' = active w /\ granted w' = granted w /\ files w' !! mp h (RCard r) = files w !! mp h (RCard r))
    as (E1 & E2 & E3).
  { destruct a; cbn in He; try discriminate He; cbn in Hp; unfold create, destroy in Hp; repeat case_match; simplify_eq/=;
      try done; apply bool_decide_eq_true in He as ->;
      by rewrite ?lookup_insert_ne, ?lookup_delete_ne by (intros [_ ?]%mp_eq; congruence). }
  constructor; unfold serving, claim_of in *; rewrite ?E1, ?E2, ?E3; done.
Qed.

#[local] Ltac quiet_step :=
  first
    [ done
    | apply quiet_call; first [reflexivity | cbn; by apply bool_decide_eq_true]
    | apply quiet_bind_err; [|intros ?]
    | apply quiet_for_all; intros ? ?
    | apply quiet_bind; [|intros ?]
    | match goal with |- Programs.quiet _ (match ?x with _ => _ end) => destruct x end ].
#[local] Ltac quiet := repeat quiet_step.

Lemma elsewhere_walk h card fuel p acc : Programs.quiet (@elsewhere h card) (walk fuel p acc).
Proof.
  revert p acc. induction fuel as [|fuel IH]; intros p acc; cbn [walk]; [done|].
  apply quiet_bind; [by apply quiet_call|]. intros r. apply quiet_for_all. intros acc' e.
  destruct e.2; [apply IH|]. unfold visit_file, parseMarker. quiet.
Qed.

Lemma elsewhere_scan h card : Programs.quiet (@elsewhere h card) scanMarkers.
Proof. unfold scanMarkers. apply quiet_bind; [by apply quiet_call|]. intros [[]|]; [done|done|apply elsewhere_walk]. Qed.

Lemma elsewhere_reserve h card profile cs ms :
  Programs.quiet (@elsewhere h card) (reserveMigInstance h.1 h.2 card profile cs ms).
Proof.
  unfold reserveMigInstance, parseMarker, rebind. apply quiet_bind; [quiet|]. intros [[]|m]; [|quiet|quiet].
  apply quiet_bind; [quiet|]. intros [state|]; [|quiet]. apply quiet_bind; [apply elsewhere_scan|].
  intros s. unfold take_instance, writeMarker. quiet.
Qed.

(** *** Locking *)

Definition holding (t : nat) (card : string) (w : world) : Prop := forall card', locks w !! card' = Some t <-> card' = card.

Lemma holding_rely t card w w' : rely t w w' -> holding t card w -> holding t card w'.
Proof. intros Hr Hh card'. by rewrite (rely_locks _ _ _ Hr). Qed.

Lemma holding_lock t card w : idle t w -> holding t card (set_locks <[card := t]> w).
Proof.
  intros Hi card'. cbn. rewrite lookup_insert_Some. split; [intros [[-> _]|[_ H]]; [done|by destruct (Hi card')]|].
  intros ->. by left.
Qed.

Lemma idle_unlock t card w : holding t card w -> idle t (set_locks (delete card) w).
Proof. intros Hh card'. cbn. intros [Hne H%Hh]%lookup_delete_Some. congruence. Qed.

Lemma wp_lock_card t card (Q : unit -> world -> Prop) w :
  (forall w1 w2, rely t w w1 -> inv w1 -> locks w1 !! card = None -> rely t (set_locks <[card := t]> w1) w2 -> Q tt w2) ->
  wp t (call (LockCard card)) Q w.
Proof.
  intros HQ. apply wp_call. intros w1 c x w2 Hr Hi _ Hp. cbn in Hp. destruct (locks w1 !! card) eqn:Hl; simplify_eq.
  split; [by apply guar_lock|]. intros w3 Hr3. by eapply HQ.
Qed.

Lemma wp_unlock_card t card (Q : unit -> world -> Prop) w :
  locks w !! card = Some t -> settled t card w ->
  (forall w1 w2, rely t w w1 -> rely t (set_locks (delete card) w1) w2 -> Q tt w2) ->
  wp t (call (UnlockCard card)) Q w.
Proof.
  intros Hl Hs HQ. apply wp_call. intros w1 c x w2 Hr Hi _ Hp. cbn in Hp.
  case_bool_decide as Hl1; [|done]. simplify_eq. split; [|intros w3 Hr3; by eapply HQ].
  apply guar_unlock_card; [done|]. by eapply settled_rely.
Qed.

(** What the accelerators served so far give. *)
Record served (t : nat) (h : holder) (rs : list cardResult) (w : world) : Prop := {
  served_serving : serving t h w;
  served_idle : idle t w;
  served_owned : Forall (fun r => owned t h r w) rs;
  served_once : NoDup (RCard <$> rs) }.

Lemma owned_all_rely t h rs w w' :
  rely t w w' -> Forall (fun r => owned t h r w) rs -> Forall (fun r => owned t h r w') rs.
Proof. intros Hr H. eapply Forall_impl; [exact H|]. intros r. by apply owned_rely. Qed.

Lemma served_rely t h rs w w' : rely t w w' -> served t h rs w -> served t h rs w'.
Proof.
  intros Hr [H1 H2 H3 H4]. constructor; [by eapply serving_rely|by eapply idle_rely|by eapply owned_all_rely|done].
Qed.

Lemma wp_lock_served t h rs card w :
  served t h rs w -> wp t (call (LockCard card)) (fun _ w' => working t h card w' /\ holding t card w' /\
    Forall (fun r => owned t h r w') rs) w.
Proof.
  intros Hsv. apply wp_lock_card. intros w1 w2 Hr Hi Hl Hr2. destruct (served_rely _ _ _ _ _ Hr Hsv) as [Hs Hid Hown _].
  split; [|split].
  - eapply working_rely; [exact Hr2|]. constructor; [done|cbn; by rewrite lookup_insert_eq|].
    intros h' m Ha Hc Hg. cbn in Ha, Hg. destruct (inv_backed _ Hi h' card m (inv_active _ Hi h' t Ha) Hc) as [(u & Hu & _)|Hb];
      [congruence|done].
  - eapply holding_rely; [exact Hr2|by apply holding_lock].
  - eapply owned_all_rely; [exact Hr2|]. eapply Forall_impl; [exact Hown|]. by intros r [].
Qed.

Lemma wp_unlock_served t h rs card w :
  working t h card w -> holding t card w -> Forall (fun r => owned t h r w) rs -> NoDup (RCard <$> rs) ->
  wp t (call (UnlockCard card)) (fun _ => served t h rs) w.
Proof.
  intros [Hs Hl Hst] Hh Hown Hnd. apply wp_unlock_card; [done|done|]. intros w1 w2 Hr Hr2.
  eapply served_rely; [exact Hr2|]. constructor; [|apply idle_unlock; by eapply holding_rely| |done].
  - by apply (serving_rely _ _ _ _ Hr).
  - eapply Forall_impl; [eapply owned_all_rely; [exact Hr|exact Hown]|]. by intros r [].
Qed.

(** Work on one accelerator leaves what the others gave, and the locks. *)
Lemma wp_owned {A} t h card rs (p : prog A) Q w :
  Programs.quiet (@elsewhere h card) p -> card ∉ RCard <$> rs -> holding t card w ->
  Forall (fun r => owned t h r w) rs -> wp t p Q w ->
  wp t p (fun x w' => Q x w' /\ holding t card w' /\ Forall (fun r => owned t h r w') rs) w.
Proof.
  intros Hq Hn Hh Ho.
  apply (wp_frame (@elsewhere h card) (fun w => holding t card w /\ Forall (fun r => owned t h r w) rs)); [| |done|done].
  - intros w1 w2 Hr [H1 H2]. split; [by eapply holding_rely|by eapply owned_all_rely].
  - intros c X a w1 x w2 He Hp [Hh1 H]. split.
    + assert (locks w2 = locks w1) as E; [|intros card'; rewrite E; apply Hh1].
      destruct a; cbn in He; try discriminate He; cbn in Hp; unfold create, destroy in Hp; repeat case_match;
        by simplify_eq/=.
    + rewrite list.Forall_forall in H. rewrite list.Forall_forall. intros r Hr.
      eapply elsewhere_keeps; [|exact He|exact Hp|by apply H]. intros <-. apply Hn. by apply list_elem_of_fmap_2.
Qed.

Lemma wp_actuate_card t h devs profile rs card w :
  served t h rs w -> card ∉ RCard <$> rs ->
  wp t (actuate_card devs h.1 h.2 profile rs card) (fun r w' =>
    match r with
    | inl (_, rs') => served t h rs' w'
    | inr rs' => served t h rs' w' /\ RCard <$> rs' = (RCard <$> rs) ++ [card]
    end) w.
Proof.
  intros Hsv Hn. unfold actuate_card. destruct (profileGeometry _ _ _) as [[cs ms]|].
  2: { intros w' Hr. by eapply served_rely. }
  pose proof (served_once _ _ _ _ Hsv) as Hnd.
  apply wp_bind. eapply wp_mono; [|by apply wp_lock_served]. intros _ w1 (Hw1 & Hh1 & Ho1).
  apply wp_bind. eapply wp_mono; [|apply (wp_owned t h card rs);
    [apply elsewhere_reserve|done|done|done|by apply wp_reserve]].
  intros r w2 ([Hw2 Hr2] & Hh2 & Ho2). apply wp_bind. destruct r as [e|[inst outcome]].
  - eapply wp_mono; [|by apply (wp_unlock_served t h rs)]. intros ? w3 H3 w4 Hr4. by eapply served_rely.
  - eapply wp_mono; [|apply (wp_unlock_served t h (rs ++ [result card inst outcome])); [done|done| |]].
    + intros ? w3 H3 w4 Hr4. split; [by eapply served_rely|]. by rewrite fmap_app.
    + apply Forall_app. split; [done|by constructor].
    + rewrite fmap_app. apply NoDup_app. split; [done|]. split; [|apply NoDup_singleton].
      intros c Hc ->%list_elem_of_singleton. done.
Qed.

Lemma wp_actuate_cards t h devs profile cards rs w :
  served t h rs w -> NoDup ((RCard <$> rs) ++ cards) ->
  wp t (for_each cards rs (actuate_card devs h.1 h.2 profile)) (fun r w' =>
    served t h (match r with inl (_, rs') => rs' | inr rs' => rs' end) w') w.
Proof.
  revert rs w. induction cards as [|card cards IH]; intros rs w Hsv Hnd; cbn [for_each].
  { intros w' Hr. by eapply served_rely. }
  assert (card ∉ RCard <$> rs) as Hn.
  { intros Hin. apply NoDup_app in Hnd as (_ & Hd & _). apply (Hd card Hin). by left. }
  apply wp_bind. eapply wp_mono; [|by apply wp_actuate_card]. intros [[e rs']|rs'] w1 H1.
  - intros w2 Hr2. by eapply served_rely.
  - destruct H1 as [H1 E1]. apply IH; [done|]. by rewrite E1, <- app_assoc.
Qed.

(** Undoing one accelerator. *)
Lemma wp_remove_own t h card w :
  serving t h w -> locks w !! card = Some t -> granted w !! (h, card) = None ->
  wp t (discard (call (Remove (mp h card)))) (fun _ => working t h card) w.
Proof.
  intros Hs Hl Hg. apply wp_bind, wp_call. intros w1 c x w2 Hr Hi Hc Hp. pose proof (proj1 Hs) as Ha.
  assert (serving t h w1) as Hs1 by (by eapply serving_rely).
  rewrite <- (granted_rely _ _ _ _ _ Hr Ha) in Hg. apply (rely_locks _ _ _ Hr) in Hl.
  assert (guar t w1 w2 /\ unmarked t h card w2) as [Hgu Hu].
  { cbn in Hp. rewrite (proj2 (Hallowed c Hc)) in Hp. destruct (files w1 !! mp h card) as [f|] eqn:Hf; simplify_eq.
    - split; [|constructor; try done; unfold claim_of; cbn; by rewrite lookup_delete_eq].
      apply (guar_drop t w1 (delete (mp h card) (files w1))); [apply delete_subseteq|].
      intros h' card' Hd. destruct (decide (mp h card = mp h' card')) as [[<- <-]%mp_eq|Hne].
      + left. split; [done|]. split; [apply Hs1|done].
      + by rewrite lookup_delete_ne in Hd.
    - split; [apply guar_refl|]. constructor; try done. unfold claim_of. by rewrite Hf. }
  split; [done|]. intros w3 Hr3 w4 Hr4. eapply working_rely; [|by apply unmarked_working]. by trans w3.
Qed.

Lemma wp_rollback_one t h r rs w :
  served t h (r :: rs) w -> wp t (rollback_one h.1 h.2 r) (fun _ => served t h rs) w.
Proof.
  intros Hsv. pose proof (served_once _ _ _ _ Hsv) as Hnd. cbn in Hnd. apply NoDup_cons in Hnd as [Hn Hnd].
  unfold rollback_one. apply wp_bind. eapply wp_mono; [|by apply wp_lock_served]. intros _ w1 (Hw1 & Hh1 & Ho1).
  apply Forall_cons in Ho1 as [Hr1 Ho1]. apply wp_bind.
  eapply wp_mono; [|apply (wp_owned t h (RCard r) rs); [destruct (ROutcome r); quiet|done|done|done|
    instantiate (1 := fun _ => working t h (RCard r))]].
  { intros _ w2 (Hw2 & Hh2 & Ho2). by apply wp_unlock_served. }
  destruct Hr1 as [Hs1 (m & Hm & Hag) Hg1]. pose proof (working_lock _ _ _ _ Hw1) as Hl1. pose proof (proj1 Hs1) as Ha1.
  destruct (ROutcome r).
  - specialize (Hg1 ltac:(done)). apply wp_bind, wp_destroy_own; [done| |].
    + intros w2 Hr2 Hi2 h' m' Hal Hc Hgi. assert (h' = h) as ->.
      { eapply (inv_alone _ Hi2 h' h (RCard r) m' m); [done| |done| |by destruct Hag as [<- _]].
        - apply (inv_active _ Hi2 h t). by apply (rely_actives _ _ _ Hr2).
        - by rewrite (claim_rely _ _ _ _ _ Hr2 Ha1). }
      split; [by apply (rely_actives _ _ _ Hr2)|by rewrite (granted_rely _ _ _ _ _ Hr2 Ha1)].
    + intros w2 x w3 w4 Hr2 _ _ Hlk Hact Hgr _ Hr4. eapply wp_rely; [exact Hr4|]. apply wp_remove_own.
      * unfold serving. rewrite Hact. by apply (serving_rely _ _ _ _ Hr2).
      * rewrite Hlk. by apply (rely_locks _ _ _ Hr2).
      * by rewrite Hgr, (granted_rely _ _ _ _ _ Hr2 Ha1).
  - by apply wp_remove_own; [| |apply Hg1].
  - intros w2 Hr2. by eapply working_rely.
Qed.

Lemma wp_rollback t h rs w :
  served t h rs w -> wp t (rollback h.1 h.2 rs) (fun _ => served t h []) w.
Proof.
  unfold rollback. revert w. induction rs as [|r rs IH]; intros w Hsv; cbn [for_all].
  { intros w' Hr. by eapply served_rely. }
  apply wp_bind. eapply wp_mono; [|by apply wp_rollback_one]. intros [] w1 H1. by apply IH.
Qed.

Lemma wp_refuse t h w : served t h [] w -> wp t (call (Refuse h)) (fun _ _ => True) w.
Proof.
  intros Hsv. apply wp_call. intros w1 c x w2 Hr _ _ Hp. destruct (served_rely _ _ _ _ _ Hr Hsv) as [[Ha _] Hid _ _].
  cbn in Hp. simplify_eq. split; [|done]. pose proof (guar_answer t h [] w1 Ha Hid) as Hg.
  destruct w1. apply Hg. intros card inst Hin. by apply not_elem_of_nil in Hin.
Qed.

Lemma wp_serve t h configured devs allocated profile w :
  serving t h w -> idle t w -> NoDup (allocatedAccelerators devs allocated) ->
  wp t (servePartition configured h.1 h.2 devs allocated profile) (fun _ _ => True) w.
Proof.
  intros Hs Hid Hnd. assert (served t h [] w) as Hsv by (constructor; [done|done|constructor|constructor]).
  rewrite (surjective_pairing h) in Hsv |- *. set (h' := (h.1, h.2)) in *.
  unfold servePartition, ActuatePhysicalSliced. apply wp_bind.
  eapply (wp_mono _ _ (fun r w' => match r with inl _ => served t h' [] w' | inr (_, rs) => served t h' rs w' end)).
  - intros [e|[phys rs]] w1 H1; [by apply wp_refuse|]. apply wp_bind, wp_read; [done|].
    intros w2 c x w3 Hr2 _ _ Hr3. assert (served t h' rs w3) as H3 by (eapply served_rely; [|done]; by trans w2).
    destruct x.
    + apply wp_call. intros w4 c' y w5 Hr4 _ _ Hp. destruct (served_rely _ _ _ _ _ Hr4 H3) as [[Ha4 _] Hid4 Ho4 _].
      cbn in Hp. simplify_eq. split; [|done]. apply (guar_answer t h' _ w4); [done|done|].
      intros card inst ([c0 i0 o0] & [= -> ->] & Hin)%list_elem_of_fmap. rewrite list.Forall_forall in Ho4.
      apply (owned_claim _ _ _ _ (Ho4 _ Hin)).
    + apply wp_bind. eapply wp_mono; [|by apply (wp_rollback t h')]. intros ? w4 H4. by apply wp_refuse.
  - destruct (negb configured); [intros w' Hr; by eapply served_rely|].
    case_bool_decide; [intros w' Hr; by eapply served_rely|].
    apply wp_bind. eapply wp_mono; [|by apply (wp_actuate_cards t h')]. intros [[e rs]|rs] w1 H1.
    + apply wp_bind. eapply wp_mono; [|by apply (wp_rollback t h')]. intros ? w2 H2 w3 Hr3. by eapply served_rely.
    + intros w2 Hr2. by eapply served_rely.
Qed.
End Safety.
