(* ===== verification/MigLoops.v ===== *)
(** * Hardware partitions: cleaning up takes nothing a living container has

    The rely-guarantee arguments of MigSafety.v for the programs that name
    partitions again and for those that take them back: a reclaim pass and a
    collection of work directories keep the invariant as long as a Pod they give
    up is gone. *)

From stdpp Require Import prelude gmap strings list sorting relations.
From S2P Require Import Prelude Programs Device PluginRecords PluginLedger PluginNode PluginSlices PluginAllocate.
From S2P Require Import MigRecords MigWorld MigAllocate MigReclaim MigSafety.

Lemma group_by_spec {A} (key : A -> string) l k xs x :
  group_by key l !! k = Some xs -> x ∈ xs -> x ∈ l /\ key x = k.
Proof.
  unfold group_by. revert k xs x. induction l as [|y l IH] using rev_ind; intros k xs x; [done|].
  rewrite foldl_app. cbn. intros Hk Hx. apply lookup_insert_Some in Hk as [[<- <-]|[_ Hk]].
  - apply elem_of_app in Hx as [Hx|Hx]; [|apply list_elem_of_singleton in Hx as ->; set_solver].
    destruct (foldl _ ∅ l !! key y) as [ys|] eqn:Hy; [|by apply not_elem_of_nil in Hx].
    destruct (IH _ _ _ Hy Hx). set_solver.
  - destruct (IH _ _ _ Hk Hx). set_solver.
Qed.

Section Loops.
Context (allowed : choice -> Prop).
Context (Hallowed : forall c, allowed c -> landed c = false /\ stuck c = false).

Abbreviation wp := (Programs.wp (@perform) allowed rely guar inv).
Abbreviation wp_rely := (Programs.wp_rely (@perform) allowed rely guar inv).
Abbreviation wp_mono := (Programs.wp_mono (@perform) allowed rely guar inv).
Abbreviation wp_bind := (Programs.wp_bind (@perform) allowed rely guar inv).
Abbreviation wp_call := (Programs.wp_call (@perform) allowed rely guar inv).
Abbreviation wp_for_all := (Programs.wp_for_all (@perform) allowed rely guar inv).
Abbreviation quiet := (Programs.quiet (@harmless)).

(** ** Goroutines that serve no container *)

Definition helper (t : nat) (w : world) : Prop := forall h, active w !! h <> Some t.

Lemma helper_rely t w w' : rely t w w' -> helper t w -> helper t w'.
Proof. intros Hr Hh h Ha. apply (Hh h). by apply (rely_actives _ _ _ Hr). Qed.

Definition dead (uid : string) (w : world) : Prop := pods w !! uid = Some false.

Lemma dead_rely t uid w w' : rely t w w' -> dead uid w -> dead uid w'.
Proof.
  intros Hr Hd. destruct (rely_pods _ _ _ Hr uid false Hd) as (b & Hb & Hle). unfold dead. rewrite Hb.
  destruct b; [|done]. by discriminate (Hle eq_refl).
Qed.

Lemma wp_dead {A} t uid (p : prog A) Q w : dead uid w -> wp t p Q w -> wp t p (fun x w' => Q x w' /\ dead uid w') w.
Proof.
  apply (Programs.wp_keep (@perform) allowed rely guar inv (dead uid)); intros w1 w2 H.
  - by apply (dead_rely t).
  - unfold dead. by rewrite (guar_pods _ _ _ H).
Qed.

(** The accelerator is held, and every living claim on it is on one of [ids]. *)
Record clearing (t : nat) (card : string) (ids : gset Z) (w : world) : Prop := {
  clearing_helper : helper t w;
  clearing_lock : locks w !! card = Some t;
  clearing_claims : forall h m, alive w h.1 -> claim_of w h card = Some m -> MGiID m ∈ ids }.

Lemma clearing_rely t card ids w w' : rely t w w' -> clearing t card ids w -> clearing t card ids w'.
Proof.
  intros Hr [Hh Hl Hc]. constructor; [by eapply helper_rely|by apply (rely_locks _ _ _ Hr)|].
  intros h m Ha Hm. destruct (claim_back t w w' h card m Hl Hr Ha Hm). eauto.
Qed.

Lemma clearing_drop t card ids p w : clearing t card ids w -> clearing t card ids (set_files (delete p) w).
Proof.
  intros [Hh Hl Hc]. constructor; [done|done|]. intros h m Ha Hm. apply (Hc h m); [done|].
  unfold claim_of in *. cbn in Hm. apply fmap_Some in Hm as (f & [_ Hf]%lookup_delete_Some & ->). by rewrite Hf.
Qed.

Lemma wp_lock_helper t card w :
  helper t w -> wp t (call (LockCard card)) (fun _ w' => helper t w' /\ locks w' !! card = Some t) w.
Proof.
  intros Hh. apply wp_lock_card. intros w1 w2 Hr _ _ Hr2. split.
  - eapply helper_rely; [exact Hr2|]. exact (helper_rely _ _ _ Hr Hh).
  - apply (rely_locks _ _ _ Hr2). cbn. by rewrite lookup_insert_eq.
Qed.

Lemma wp_unlock_helper t card (P : world -> Prop) w :
  helper t w -> locks w !! card = Some t -> (forall w1 w2, rely t w1 w2 -> P w1 -> P w2) ->
  (forall w1, P w1 -> P (set_locks (delete card) w1)) -> P w -> wp t (call (UnlockCard card)) (fun _ => P) w.
Proof.
  intros Hh Hl Hst Hun HP. apply wp_unlock_card; [done|intros h m Ha; by destruct (Hh h)|].
  intros w1 w2 Hr1 Hr2. eapply Hst; [exact Hr2|]. apply Hun. by eapply Hst.
Qed.

(** ** Removing the markers of Pods that are gone *)

Lemma guar_drop_dead t w fs :
  inv w -> fs ⊆ files w -> (forall h card, fs !! mp h card <> files w !! mp h card -> dead h.1 w) ->
  guar t w (set_files (fun _ => fs) w).
Proof.
  intros Hi Hs Hd. apply guar_drop; [done|]. intros h card Hne. specialize (Hd h card Hne). right. unfold dead, alive in *.
  split; [congruence|]. destruct (active w !! h) as [u|] eqn:Ha; [|done]. pose proof (inv_active _ Hi h u Ha) as Hal.
  unfold alive in Hal. congruence.
Qed.

Lemma quiet_removeIfEmpty dir : quiet (removeIfEmpty dir).
Proof. apply quiet_bind; [by apply quiet_call|]. by intros [[|] [|]]. Qed.

Lemma wp_remove_dead t p uid (P : world -> Prop) w :
  (forall h card, p = mp h card -> h.1 = uid) -> dead uid w -> (forall w1 w2, rely t w1 w2 -> P w1 -> P w2) ->
  (forall w1, P w1 -> P (set_files (delete p) w1)) -> P w -> wp t (removeMarker p) (fun _ => P) w.
Proof.
  intros Hp Hd Hst Hdrop HP. unfold removeMarker. apply wp_bind, wp_call. intros w1 c x w2 Hr Hi Hc Hx.
  apply (dead_rely _ _ _ _ Hr) in Hd. apply (Hst _ _ Hr) in HP. cbn in Hx. rewrite (proj2 (Hallowed c Hc)) in Hx.
  assert (guar t w1 w2 /\ P w2) as [Hg HP2].
  { destruct (files w1 !! p) eqn:Hf; simplify_eq; [|by split; [apply guar_refl|]].
    split; [|by apply Hdrop]. apply (guar_drop_dead t w1 (delete p (files w1))); [done|apply delete_subseteq|].
    intros h card Hne. destruct (decide (p = mp h card)) as [E|E]; [by rewrite (Hp h card E)|].
    by rewrite lookup_delete_ne in Hne. }
  split; [done|]. intros w3 Hr3. apply (Hst _ _ Hr3) in HP2.
  assert (wp t (removeIfEmpty (removelast p) ;! removeIfEmpty (removelast (removelast p)) ;! Ret true) (fun _ => P) w3) as Hq.
  { eapply wp_mono; [|apply wp_calm; repeat (apply quiet_bind; [apply quiet_removeIfEmpty|intros ?]); done].
    intros ? w4 Hr4. eapply Hst; [exact Hr4|done]. }
  destruct x as [[]|]; [done|intros w4 Hr4; by eapply Hst|done].
Qed.

(** ** The partitions of a Pod that is gone *)

Lemma podUID_of_mp h card uid : podUIDFromMarkerPath (mp h card) = Some uid -> h.1 = uid.
Proof.
  unfold podUIDFromMarkerPath. destruct (negb _); [done|]. unfold markerPath. cbn. destruct (_ || _); congruence.
Qed.

(** Under the lock, a scan without unknown owners names every other owner. *)
Lemma superseding_covers uid card s w :
  Forall entry_ok s.1 -> (forall h m, alive w h.1 -> claim_of w h card = Some m -> covers_claim s h card m) ->
  dead uid w -> supersedingCorruptOnCard s.2 card uid = false ->
  forall h m, alive w h.1 -> claim_of w h card = Some m -> MGiID m ∈ supersedingGiIDsOnCard s.1 card uid.
Proof.
  intros He Hcov Hd Hsc h m Ha Hc. assert (h.1 <> uid) as Hne by (unfold dead, alive in *; congruence).
  assert (forall p, p ∈ s.2 -> cardFromMarkerPath p = None \/ p = mp h card -> False) as Hno.
  { intros p Hp Hor. apply not_true_iff_false in Hsc. apply Hsc, existsb_exists. exists p.
    split; [by apply list_elem_of_In|]. destruct Hor as [->|Hpm]; [done|].
    destruct (cardFromMarkerPath p) as [c|] eqn:Hcp; [|done].
    assert (c = card) as ->.
    { apply cardFromMarkerPath_spec in Hcp as [Hb _]. rewrite Hpm, base_markerPath in Hb. symmetry. by apply markerFileName_inj. }
    rewrite bool_decide_true by done. cbn. destruct (podUIDFromMarkerPath p) as [o|] eqn:Ho; [|done].
    rewrite Hpm in Ho. apply podUID_of_mp in Ho as <-. by rewrite bool_decide_false. }
  destruct (Hcov h m Ha Hc) as [(e & Hin & Hp & <-)|[Hp|(p & Hp & Hdk)]]; [|by destruct (Hno _ Hp); right|by destruct (Hno _ Hp); left].
  rewrite list.Forall_forall in He. destruct (He e Hin) as (h' & card' & Hp' & Hu & Hcd).
  rewrite Hp in Hp'. apply mp_eq in Hp' as [<- <-].
  unfold supersedingGiIDsOnCard. apply elem_of_list_to_set, list_elem_of_fmap. exists e. split; [done|].
  apply list_elem_of_filter. split; [|done]. split; [done|congruence].
Qed.

Definition entry_of (uid : string) (e : markerEntry) : Prop :=
  entry_ok e /\ MPodUID (EntryMarker e) = uid.

Lemma entry_owner uid e : entry_of uid e -> forall h card, EntryPath e = mp h card -> h.1 = uid.
Proof.
  intros [(h' & card' & Hp & Hu & _) He] h card Hp'. rewrite Hp in Hp'. apply mp_eq in Hp' as [<- _]. congruence.
Qed.

Lemma wp_destroy_unclaimed t card ids inst w :
  clearing t card ids w -> GiID inst ∉ ids ->
  wp t (call (DestroyInstance card inst)) (fun _ => clearing t card ids) w.
Proof.
  intros Hc Hni. apply wp_destroy_own; [apply Hc| |].
  - intros w1 Hr Hi h m Ha Hm Heq. destruct Hni. rewrite <- Heq.
    by apply (clearing_claims _ _ _ _ (clearing_rely _ _ _ _ _ Hr Hc) h m).
  - intros w1 x w2 w3 Hr _ Hf Hl Hact _ Hpods Hr3. eapply clearing_rely; [exact Hr3|].
    destruct (clearing_rely _ _ _ _ _ Hr Hc) as [H1 H2 H3].
    constructor; unfold helper, alive, claim_of in *; rewrite ?Hf, ?Hl, ?Hact, ?Hpods; done.
Qed.

Lemma wp_blocked t card card' inst ids w :
  clearing t card ids w -> wp t (destroyBlockedBy card' inst) (fun _ => clearing t card ids) w.
Proof.
  intros Hc. eapply wp_mono; [|apply wp_calm, quiet_bind; [by apply quiet_call|done]].
  intros ? w1 Hr. eapply clearing_rely; [exact Hr|done].
Qed.

Lemma wp_destroy_marked t uid card instances ids st e w :
  entry_of uid e -> dead uid w -> clearing t card ids w ->
  wp t (destroy_marked card instances ids st e) (fun _ => clearing t card ids) w.
Proof.
  intros He Hd Hc. destruct st as [ok blocked]. unfold destroy_marked.
  assert (forall w, dead uid w -> clearing t card ids w ->
    wp t (let! ok' := removeMarker (EntryPath e) in Ret (ok && ok', blocked)) (fun _ => clearing t card ids) w) as Hdrop.
  { intros w0 Hd0 Hc0. apply wp_bind. eapply wp_mono;
      [|apply (wp_remove_dead t (EntryPath e) uid (clearing t card ids)); [by apply entry_owner|done| |intros; by apply clearing_drop|done]].
    - intros ok' w1 H1 w2 Hr2. eapply clearing_rely; [exact Hr2|exact H1].
    - intros w1 w2. apply clearing_rely. }
  destruct (findLiveGi _ _) as [inst|]; [|by apply Hdrop].
  case_bool_decide as Hin; [by apply Hdrop|]. destruct (negb _); [by apply Hdrop|].
  apply wp_bind. eapply wp_mono; [|apply (wp_dead t uid); [done|by apply wp_blocked]]. intros [b|] w1 [Hc1 Hd1].
  { intros w2 Hr2. by eapply clearing_rely. }
  apply wp_bind. eapply wp_mono; [|apply (wp_dead t uid); [done|by apply wp_destroy_unclaimed]].
  intros [[]|] w2 [Hc2 Hd2]; [intros w3 Hr3; by eapply clearing_rely..|]. by apply Hdrop.
Qed.

Lemma wp_destroy_on_card t uid card entries w :
  Forall (entry_of uid) entries -> dead uid w -> helper t w ->
  wp t (destroyMarkedInstancesOnCard uid card entries) (fun _ => helper t) w.
Proof.
  intros He Hd Hh. unfold destroyMarkedInstancesOnCard.
  apply wp_bind. eapply wp_mono; [|apply (wp_dead t uid); [done|by apply wp_lock_helper]]. intros ? w1 [[Hh1 Hl1] Hd1].
  apply wp_bind, wp_read; [done|]. intros w2 c instances w3 Hr2 _ _ Hr3. assert (rely t w1 w3) as Hr by (by trans w2).
  apply (helper_rely _ _ _ Hr) in Hh1. apply (rely_locks _ _ _ Hr) in Hl1. apply (dead_rely _ _ _ _ Hr) in Hd1.
  apply wp_bind. eapply (wp_mono _ _ (fun _ w' => helper t w' /\ locks w' !! card = Some t)).
  { intros r w4 [Hh4 Hl4]. apply wp_bind. eapply wp_mono; [|apply (wp_unlock_helper t card (helper t)); [done|done| |done|done]].
    - intros ? w5 Hh5 w6 Hr6. eapply helper_rely; [exact Hr6|exact Hh5].
    - intros w5 w6. apply helper_rely. }
  destruct instances as [instances|].
  2: { intros w4 Hr4. split; [by eapply helper_rely|by apply (rely_locks _ _ _ Hr4)]. }
  apply wp_bind. eapply wp_mono; [|apply (wp_scan _ Hallowed t card)]. intros s w4 [Hr4 Hok _ Hcov]. specialize (Hcov Hl1).
  apply (helper_rely _ _ _ Hr4) in Hh1. apply (rely_locks _ _ _ Hr4) in Hl1. apply (dead_rely _ _ _ _ Hr4) in Hd1.
  destruct (supersedingCorruptOnCard s.2 card uid) eqn:Hsc.
  { intros w5 Hr5. split; [by eapply helper_rely|by apply (rely_locks _ _ _ Hr5)]. }
  set (ids := supersedingGiIDsOnCard s.1 card uid).
  eapply wp_mono; [|apply (wp_for_all t entries (true, None) _ (fun _ w => dead uid w /\ clearing t card ids w))].
  - intros st w5 [_ [H1 H2 _]]. by split.
  - intros st w5 w6 Hr5 [H1 H2]. split; [by eapply dead_rely|by eapply clearing_rely].
  - intros st e w5 Hin [H1 H2]. eapply wp_mono; [|apply (wp_dead t uid); [done|apply (wp_destroy_marked t uid card)]].
    + intros st' w6 [H3 H4]. by split.
    + rewrite list.Forall_forall in He. by apply He.
    + done.
    + done.
  - split; [done|]. constructor; [done|done|]. by apply superseding_covers.
Qed.

(** ** A pass *)

Context (ord : forall A : Type, list A -> list A).
Context (Hord : forall A (l : list A), ord A l ≡ₚ l).

Lemma ord_group {A} (key : A -> string) l k xs x :
  (k, xs) ∈ ord _ (map_to_list (group_by key l)) -> x ∈ xs -> x ∈ l /\ key x = k.
Proof. rewrite Hord. intros Hk%elem_of_map_to_list. by apply group_by_spec. Qed.

Lemma misses_count_blocked k k' b r : misses_of (count_blocked k b r) k' = misses_of r k'.
Proof. by destruct b. Qed.

Lemma misses_forget k k' r : k' <> k -> misses_of (forget k r) k' = misses_of r k'.
Proof. intros Hne. unfold misses_of. cbn. by rewrite lookup_delete_ne. Qed.

Lemma misses_set k k' n r : misses_of (set_misses k n r) k' = if decide (k' = k) then n else misses_of r k'.
Proof.
  unfold misses_of. cbn. case_decide as Hk; [subst; by rewrite lookup_insert_eq|by rewrite lookup_insert_ne].
Qed.

Lemma wp_destroyPod t uid entries claims r w :
  Forall (entry_of uid) entries -> dead uid w -> helper t w ->
  wp t (destroyPod ord uid entries claims r) (fun r' w' => helper t w' /\
    forall k, k <> PodKey uid -> misses_of r' k = misses_of r k) w.
Proof.
  intros He Hd Hh. unfold destroyPod. apply wp_bind.
  eapply wp_mono; [|apply (wp_for_all t _ _ _ (fun _ w => dead uid w /\ helper t w))].
  - intros st w1 [_ Hh1] w2 Hr2. split; [by eapply helper_rely|]. intros k Hk.
    destruct st.1; rewrite ?misses_forget by done; apply misses_count_blocked.
  - intros st w1 w2 Hr [H1 H2]. split; [by eapply dead_rely|by eapply helper_rely].
  - intros st [card es] w1 Hin [Hd1 Hh1]. apply wp_bind. cbn [fst snd].
    eapply wp_mono; [|apply (wp_dead t uid); [done|apply wp_destroy_on_card; [|done|done]]].
    + intros res w2 [H1 H2] w3 Hr3. split; [by eapply dead_rely|by eapply helper_rely].
    + rewrite list.Forall_forall in He. rewrite list.Forall_forall. intros e Hes.
      destruct (ord_group _ _ _ _ _ Hin Hes) as [Hf _]. apply He. by apply list_elem_of_filter in Hf as [_ ?].
  - done.
Qed.

Lemma wp_destroyOrphans t card orphans r w :
  helper t w -> wp t (destroyOrphans card orphans r) (fun _ => helper t) w.
Proof.
  intros Hh. unfold destroyOrphans. apply wp_bind. eapply wp_mono; [|by apply wp_lock_helper]. intros ? w1 [Hh1 Hl1].
  apply wp_bind. eapply wp_mono; [|apply (wp_scan _ Hallowed t card)]. intros s w2 [Hr2 Hok _ Hcov]. specialize (Hcov Hl1).
  apply (helper_rely _ _ _ Hr2) in Hh1. apply (rely_locks _ _ _ Hr2) in Hl1.
  apply wp_bind. eapply (wp_mono _ _ (fun _ w' => helper t w' /\ locks w' !! card = Some t)).
  { intros r' w4 [Hh4 Hl4]. apply wp_bind. eapply wp_mono; [|apply (wp_unlock_helper t card (helper t)); [done|done| |done|done]].
    - intros ? w5 Hh5 w6 Hr6. eapply helper_rely; [exact Hr6|exact Hh5].
    - intros w5 w6. apply helper_rely. }
  destruct (negb _ || _) eqn:Hskip.
  { intros w3 Hr3. split; [by eapply helper_rely|by apply (rely_locks _ _ _ Hr3)]. }
  apply orb_false_iff in Hskip as [Hown%negb_false_iff%bool_decide_eq_true Hunk].
  apply wp_bind. eapply wp_mono; [|apply (wp_for_all t orphans (true, None) _ (fun _ w => clearing t card ∅ w))].
  - intros st w3 [H1 H2 _] w4 Hr4. split; [by eapply helper_rely|by apply (rely_locks _ _ _ Hr4)].
  - intros st w3 w4. apply clearing_rely.
  - intros st inst w3 _ Hc. apply wp_bind. eapply wp_mono; [|by apply wp_blocked]. intros [b|] w4 Hc4.
    { intros w5 Hr5. by eapply clearing_rely. }
    apply wp_bind. eapply wp_mono; [|apply wp_destroy_unclaimed; [done|set_solver]].
    intros derr w5 Hc5 w6 Hr6. by eapply clearing_rely.
  - constructor; [done|done|]. intros h m Ha Hm. rewrite <- Hown. by eapply covered_owned; [|apply Hcov|].
Qed.

(** A Pod that enough lists left out is gone. *)
Definition evidence (r : reclaimer) (live : gset string) (w : world) : Prop := forall uid, uid ∉ live ->
  reclaimMaxMisses <= i64 (misses_of r (PodKey uid) + 1) \/
  (exists p, podUIDFromMarkerPath p = Some uid /\ reclaimMaxMisses <= i64 (misses_of r (CorruptKey p) + 1)) ->
  dead uid w.

Lemma wp_evidence {A} t r live (p : prog A) Q w :
  evidence r live w -> wp t p Q w -> wp t p (fun x w' => Q x w' /\ evidence r live w') w.
Proof.
  apply (Programs.wp_keep (@perform) allowed rely guar inv (evidence r live)); intros w1 w2 H He uid Hu Hm.
  - by eapply dead_rely; [|apply He].
  - unfold dead. rewrite (guar_pods _ _ _ H). by apply He.
Qed.

Lemma evidence_rely t r live w w' : rely t w w' -> evidence r live w -> evidence r live w'.
Proof. intros Hr He uid Hu Hm. by eapply dead_rely; [|apply He]. Qed.

(** The counters of a kind of key are those the pass started with. *)
Definition untouched (K : missKey -> Prop) (r r' : reclaimer) : Prop := forall k, K k -> misses_of r' k = misses_of r k.

Lemma wp_decide_pod t r live claims st uid entries w :
  Forall (entry_of uid) entries -> evidence r live w -> helper t w -> untouched (fun k => k = PodKey uid) r st.1 ->
  wp t (decide_pod ord live claims st (uid, entries)) (fun st' w' => helper t w' /\
    untouched (fun k => k <> PodKey uid) st.1 st'.1) w.
Proof.
  intros He Hev Hh Hun. unfold decide_pod. case_bool_decide as Hlive.
  { intros w' Hr. split; [by eapply helper_rely|]. intros k Hk. cbn. unfold set_inUse, misses_of. cbn.
    by rewrite lookup_insert_ne. }
  rewrite misses_set, decide_True by done. rewrite (Hun (PodKey uid)) by done. set (n := i64 _).
  destruct (Z.ltb_spec n reclaimMaxMisses) as [Hlt|Hge].
  { intros w' Hr. split; [by eapply helper_rely|]. intros k Hk. cbn. by rewrite misses_set, decide_False. }
  apply wp_bind. eapply wp_mono; [|apply wp_destroyPod; [done|apply Hev; [done|by left]|done]].
  intros r' w1 [Hh1 Hr'] w2 Hr2. split; [by eapply helper_rely|]. intros k Hk. cbn.
  rewrite Hr' by done. by rewrite misses_set, decide_False.
Qed.

Lemma wp_decide_pods t r live claims l st w :
  NoDup l.*1 -> (forall uid es, (uid, es) ∈ l -> Forall (entry_of uid) es) -> evidence r live w -> helper t w ->
  untouched (fun k => exists uid, uid ∈ l.*1 /\ k = PodKey uid) r st.1 ->
  wp t (for_all l st (decide_pod ord live claims)) (fun st' w' => helper t w' /\
    untouched (fun k => forall uid, k <> PodKey uid) st.1 st'.1) w.
Proof.
  revert st w. induction l as [|[uid es] l IH]; intros st w Hnd He Hev Hh Hun; cbn [for_all].
  { intros w' Hr. split; [by eapply helper_rely|done]. }
  cbn in Hnd, Hun. apply NoDup_cons in Hnd as [Hn Hnd]. apply wp_bind.
  eapply wp_mono; [|apply (wp_evidence t r live); [done|apply (wp_decide_pod t r); [apply He; by left|done|done|]]].
  - intros st1 w1 [[Hh1 Hun1] Hev1]. eapply wp_mono; [|apply IH; [done| |done|done|]].
    + intros st2 w2 [Hh2 Hun2]. split; [done|]. intros k Hk. rewrite Hun2 by done. by apply Hun1.
    + intros u e Hin. apply He. by right.
    + intros k (u & Hu & ->). rewrite Hun1 by (intros [= ->]; done). apply Hun. exists u. split; [by right|done].
  - intros k ->. apply Hun. exists uid. split; [by left|done].
Qed.

Lemma wp_prune t r live p st w :
  evidence r live w -> helper t w -> untouched (fun k => k = CorruptKey p) r st.1 ->
  wp t (prune_corrupt live st p) (fun st' w' => helper t w' /\
    untouched (fun k => k <> CorruptKey p /\ k <> HeldKey p) st.1 st'.1) w.
Proof.
  intros Hev Hh Hun. unfold prune_corrupt. destruct (podUIDFromMarkerPath p) as [uid|] eqn:Hu.
  2: { intros w' Hr. split; [by eapply helper_rely|]. intros k [Hk _]. cbn. by rewrite misses_set, decide_False. }
  case_bool_decide as Hlive.
  { intros w' Hr. split; [by eapply helper_rely|]. intros k [Hk1 Hk2]. cbn. by rewrite !misses_set, !decide_False. }
  rewrite misses_set, decide_True by done. rewrite (Hun (CorruptKey p)) by done. set (n := i64 _).
  destruct (Z.ltb_spec n reclaimMaxMisses) as [Hlt|Hge].
  { intros w' Hr. split; [by eapply helper_rely|]. intros k [Hk _]. cbn. by rewrite misses_set, decide_False. }
  apply wp_bind. eapply wp_mono; [|apply (wp_remove_dead t p uid (helper t)); [|apply Hev; [done|]| |done|done]].
  - intros ok w1 Hh1 w2 Hr2. split; [by eapply helper_rely; [exact Hr2|]|]. intros k [Hk _]. destruct ok; cbn.
    + unfold misses_of. cbn. by rewrite lookup_delete_ne, lookup_insert_ne.
    + by rewrite misses_set, decide_False.
  - intros h card ->. by apply podUID_of_mp in Hu.
  - right. by exists p.
  - intros w1 w2. apply helper_rely.
Qed.

Lemma wp_prunes t r live corrupt st w :
  NoDup corrupt -> evidence r live w -> helper t w ->
  untouched (fun k => exists p, p ∈ corrupt /\ k = CorruptKey p) r st.1 ->
  wp t (pruneCorruptMarkers corrupt live st) (fun _ => helper t) w.
Proof.
  unfold pruneCorruptMarkers. revert st w. induction corrupt as [|p l IH]; intros st w Hnd Hev Hh Hun; cbn [for_all].
  { intros w' Hr. by eapply helper_rely. }
  apply NoDup_cons in Hnd as [Hn Hnd]. apply wp_bind.
  eapply wp_mono; [|apply (wp_evidence t r live); [done|apply (wp_prune t r); [done|done|]]].
  - intros st1 w1 [[Hh1 Hun1] Hev1]. apply IH; [done|done|done|]. intros k (q & Hq & ->).
    rewrite Hun1; [|split; congruence]. apply Hun. exists q. split; [by right|done].
  - intros k ->. apply Hun. exists p. split; [by left|done].
Qed.

Lemma wp_reconcile t r live w :
  evidence r (list_to_set live) w -> helper t w -> wp t (reconcile ord r live) (fun _ => helper t) w.
Proof.
  intros Hev Hh. unfold reconcile. apply wp_bind. eapply wp_mono; [|apply (wp_scan _ Hallowed t "")].
  intros s w1 [Hr1 Hok Hnd _]. apply (helper_rely _ _ _ Hr1) in Hh. apply (evidence_rely _ _ _ _ _ Hr1) in Hev.
  apply wp_bind, wp_read; [done|]. intros w2 c [claims|] w3 Hr2 _ _ Hr3.
  2: { intros w4 Hr4. eapply helper_rely; [|done]. trans w2; [done|by trans w3]. }
  apply wp_bind, wp_read; [done|]. intros w4 c' [instances|] w5 Hr4 _ _ Hr5.
  2: { intros w6 Hr6. eapply helper_rely; [|done]. trans w2; [done|]. trans w3; [done|]. trans w4; [done|by trans w5]. }
  assert (rely t w1 w5) as Hr by (trans w2; [done|]; trans w3; [done|by trans w4]).
  apply (helper_rely _ _ _ Hr) in Hh. apply (evidence_rely _ _ _ _ _ Hr) in Hev.
  apply wp_bind. eapply wp_mono; [|apply (wp_evidence t r (list_to_set live)); [done|apply (wp_decide_pods t r); [| |done|done|done]]].
  - intros st w6 [[Hh6 Hun6] Hev6]. apply wp_bind. eapply wp_mono; [|apply (wp_prunes t r); [done|done|done|]].
    + intros st1 w7 Hh7. apply wp_bind. eapply wp_mono; [|apply (wp_for_all t _ _ _ (fun _ => helper t)); [| |done]].
      * intros st2 w8 Hh8 w9 Hr9. eapply helper_rely; [exact Hr9|exact Hh8].
      * intros st2 w8 w9. apply helper_rely.
      * intros st2 [card orphans] w8 _ Hh8. unfold decide_card. destruct (_ || _); [intros w9 Hr9; by eapply helper_rely|].
        destruct (_ <? _); [intros w9 Hr9; by eapply helper_rely|]. apply wp_bind.
        eapply wp_mono; [|by apply wp_destroyOrphans]. intros r' w9 Hh9 w10 Hr10. eapply helper_rely; [exact Hr10|exact Hh9].
    + intros k (p & _ & ->). by apply Hun6.
  - rewrite Hord. apply NoDup_fst_map_to_list.
  - intros uid es Hin. rewrite list.Forall_forall in Hok. rewrite list.Forall_forall. intros e He.
    destruct (ord_group _ _ _ _ _ Hin He) as [Hs Hu]. split; [by apply Hok|done].
Qed.

(** ** Work directories *)

Definition overdue (m : gmap string Z) (live : gset string) (w : world) : Prop := forall uid, uid ∉ live ->
  podDirGCMaxMisses <= i64 (default 0 (m !! uid) + 1) -> dead uid w.

Lemma wp_overdue {A} t m live (p : prog A) Q w :
  overdue m live w -> wp t p Q w -> wp t p (fun x w' => Q x w' /\ overdue m live w') w.
Proof.
  apply (Programs.wp_keep (@perform) allowed rely guar inv (overdue m live)); intros w1 w2 H He uid Hu Hm.
  - by eapply dead_rely; [|apply He].
  - unfold dead. rewrite (guar_pods _ _ _ H). by apply He.
Qed.

Lemma below_mp uid h card : below [uid] (mp h card) <> None -> h.1 = uid.
Proof.
  destruct (below [uid] (mp h card)) as [r|] eqn:Hb; [|done]. intros _. apply below_spec in Hb.
  unfold markerPath in Hb. by injection Hb.
Qed.

Lemma wp_remove_dir t uid w :
  dead uid w -> helper t w -> wp t (call (RemoveAll [uid])) (fun _ => helper t) w.
Proof.
  intros Hd Hh. apply wp_call. intros w1 c x w2 Hr Hi Hc Hp. apply (dead_rely _ _ _ _ Hr) in Hd.
  apply (helper_rely _ _ _ Hr) in Hh.
  assert (exists fs, w2 = set_files (fun _ => fs) w1 /\ fs ⊆ files w1 /\
    forall p, fs !! p <> files w1 !! p -> below [uid] p <> None) as (fs & -> & Hs & Hk).
  { cbn [perform] in Hp. destruct (failing c); simplify_eq; (eexists; split; [reflexivity|]; split; [apply map_filter_subseteq|]);
      intros p Hne Hb; apply Hne; apply option_eq; intros f; rewrite map_lookup_filter_Some; naive_solver. }
  split; [|intros w3 Hr3; eapply helper_rely; [exact Hr3|exact Hh]].
  apply guar_drop_dead; [done|done|]. intros h card Hne. by rewrite (below_mp uid h card (Hk _ Hne)).
Qed.

Lemma wp_collect_dir t m0 live m uid w :
  overdue m0 live w -> helper t w -> m !! uid = m0 !! uid ->
  wp t (collect_dir live m uid) (fun m' w' => helper t w' /\ forall u, u <> uid -> m' !! u = m !! u) w.
Proof.
  intros Hod Hh Hm. unfold collect_dir. case_bool_decide as Hlive.
  { intros w' Hr. split; [by eapply helper_rely|]. intros u Hu. by rewrite lookup_insert_ne. }
  rewrite lookup_insert_eq, Hm. set (n := i64 _). change (default 0 (Some n)) with n.
  destruct (Z.ltb_spec n podDirGCMaxMisses) as [_|Hge].
  { intros w' Hr. split; [by eapply helper_rely|]. intros u Hu. by rewrite lookup_insert_ne. }
  apply wp_bind. eapply wp_mono; [|apply wp_remove_dir; [by apply Hod|done]].
  intros err w1 Hh1 w2 Hr2. split; [by eapply helper_rely; [exact Hr2|]|]. intros u Hu.
  destruct err; by rewrite ?lookup_delete_ne, lookup_insert_ne.
Qed.

Lemma wp_collect_dirs t m0 live l m w :
  NoDup l -> overdue m0 live w -> helper t w -> (forall u, u ∈ l -> m !! u = m0 !! u) ->
  wp t (for_all l m (collect_dir live)) (fun _ => helper t) w.
Proof.
  revert m w. induction l as [|uid l IH]; intros m w Hnd Hod Hh Hm; cbn [for_all].
  { intros w' Hr. by eapply helper_rely. }
  apply NoDup_cons in Hnd as [Hn Hnd]. apply wp_bind.
  eapply wp_mono; [|apply (wp_overdue t m0 live); [done|apply (wp_collect_dir t m0); [done|done|apply Hm; by left]]].
  intros m' w1 [[Hh1 Hm1] Hod1]. apply IH; [done|done|done|]. intros u Hu. rewrite Hm1 by congruence. apply Hm. by right.
Qed.

Lemma wp_collect t m live w :
  overdue m (list_to_set live) w -> helper t w -> wp t (podDirGC_reconcile ord m live) (fun _ => helper t) w.
Proof.
  intros Hod Hh. unfold podDirGC_reconcile, scanPodUIDs. apply wp_bind.
  eapply wp_mono; [|apply (wp_overdue t m (list_to_set live)); [done|apply wp_calm, quiet_bind; [by apply quiet_call|done]]].
  intros onDisk w1 [Hr1 Hod1]. apply wp_bind. eapply wp_mono; [|apply (wp_collect_dirs t m); [|done| |done]].
  - intros m' w2 Hh2 w3 Hr3. eapply helper_rely; [exact Hr3|exact Hh2].
  - rewrite Hord. apply NoDup_elements.
  - eapply helper_rely; [exact Hr1|exact Hh].
Qed.

(** ** Naming partitions again *)

Lemma wp_live_uuid t devs podUID owner card w :
  helper t w -> wp t (livePartitionUUID devs podUID owner card) (fun _ => helper t) w.
Proof.
  intros Hh. unfold livePartitionUUID. apply wp_bind, wp_parse. intros w1 w2 r Hr1 _ Hr2 _.
  assert (rely t w w2) as Hr by (by trans w1). apply (helper_rely _ _ _ Hr) in Hh.
  destruct r as [e|m]; [intros w3 Hr3; by eapply helper_rely|].
  destruct (negb _); [intros w3 Hr3; by eapply helper_rely|].
  destruct (profileGeometry _ _ _); [|intros w3 Hr3; by eapply helper_rely].
  apply wp_bind. eapply wp_mono; [|by apply wp_lock_helper]. intros ? w3 [Hh3 Hl3].
  apply wp_bind, wp_read; [done|]. intros w4 c state w5 Hr4 _ _ Hr5. assert (rely t w3 w5) as Hr35 by (by trans w4).
  apply wp_bind. eapply wp_mono; [|apply (wp_unlock_helper t card (helper t))].
  - intros ? w6 Hh6 w7 Hr7. eapply helper_rely; [exact Hr7|exact Hh6].
  - by eapply helper_rely.
  - by apply (rely_locks _ _ _ Hr35).
  - intros w6 w7. apply helper_rely.
  - done.
  - by eapply helper_rely.
Qed.

Lemma wp_visibility t configured podUID devs allocated owner w :
  helper t w -> wp t (discard (GetPhysicalSlicedVisibilityResponse configured podUID devs allocated owner)) (fun _ _ => True) w.
Proof.
  intros Hh. apply wp_bind. eapply (wp_mono _ _ (fun _ _ => True)); [by intros ? ? _ ? ?|].
  unfold GetPhysicalSlicedVisibilityResponse. destruct (negb _); [by intros ? ?|]. case_bool_decide; [by intros ? ?|].
  generalize (allocatedAccelerators devs allocated). intros cards. set (body := fun _ _ => _).
  cut (forall uuids, wp t (for_each cards uuids body) (fun _ _ => True) w); [done|].
  revert w Hh. induction cards as [|card cards IH]; intros w Hh uuids; cbn [for_each]; [by intros ? ?|].
  apply wp_bind, wp_bind. eapply wp_mono; [|by apply wp_live_uuid]. intros [e|uuid] w1 Hh1 w2 Hr2; [by intros ? ?|].
  apply IH. eapply helper_rely; [exact Hr2|exact Hh1].
Qed.

(** A pass or a collection, and the counters it leaves. *)
Definition sweep_pass (r : reclaimer) (live : list string) : prog unit :=
  let! r := reconcile ord r live in call (StoreSweep r).
Definition collect_pass (m : gmap string Z) (live : list string) : prog unit :=
  let! m := podDirGC_reconcile ord m live in call (StoreCollect m).

Lemma wp_sweep_pass t r live w :
  evidence r (list_to_set live) w -> helper t w -> wp t (sweep_pass r live) (fun _ _ => True) w.
Proof.
  intros Hev Hh. apply wp_bind. eapply wp_mono; [|by apply wp_reconcile]. intros r' w1 _. apply wp_call.
  intros w2 c x w3 _ _ _ Hp. cbn in Hp. simplify_eq. split; [by apply guar_frame|done].
Qed.

Lemma wp_collect_pass t m live w :
  overdue m (list_to_set live) w -> helper t w -> wp t (collect_pass m live) (fun _ _ => True) w.
Proof.
  intros Hod Hh. apply wp_bind. eapply wp_mono; [|by apply wp_collect]. intros m' w1 _. apply wp_call.
  intros w2 c x w3 _ _ _ Hp. cbn in Hp. simplify_eq. split; [by apply guar_frame|done].
Qed.
End Loops.
