(* ===== verification/MigTheorems.v ===== *)
(** * Hardware partitions: the node over time

    Any number of goroutines run the programs of MigAllocate.v and MigReclaim.v
    beside the kubelet, the tools of an administrator and restarts.  What a living
    container was answered stays on the accelerator and stays its own. *)

From stdpp Require Import prelude gmap strings list sorting relations.
From S2P Require Import Prelude Programs Device PluginRecords PluginLedger PluginNode PluginSlices PluginAllocate.
From S2P Require Import MigRecords MigWorld MigAllocate MigReclaim MigSafety MigLoops.

Abbreviation system := (Programs.system act world).

(** A process that starts: no goroutine, no lock, counters anew. *)
Definition restarted (dirs : gmap string Z) (w : world) : world := {|
  files := files w; hardware := hardware w; locks := ∅; sweep := newReclaimer; sweeping := false;
  dirMisses := dirs; collecting := false; lastLive := None; pods := pods w; active := ∅; granted := granted w |}.

Section System.
Context (ord : forall A : Type, list A -> list A) (allowed : choice -> Prop).

(** - An Allocate is for a container of an existing Pod, one at a time, and names
      an accelerator once.
    - Reclaim passes follow one another, and so do collections; a Pod that one of
      them would give up for gone is gone.
    - A Pod UID is used once.  A Pod does not go while an Allocate for it runs.
    - A marker may lose its bytes at any time, processes come and go, and an
      administrator may change an accelerator nobody holds, but not take away a
      partition a living container has.
    - The process may stop when every marker of a living Pod is backed by its
      partition. *)
Inductive step : system -> system -> Prop :=
  | step_act s t X (a : act X) k c x w :
      threads s !! t = Some (Do a k) -> allowed c -> perform t c a (state s) = Some (x, w) ->
      step s {| threads := <[t := k x]> (threads s); state := w |}
  | step_serve s t h configured devs allocated profile :
      threads s !! t = None -> active (state s) !! h = None -> alive (state s) h.1 ->
      NoDup (allocatedAccelerators devs allocated) ->
      step s {| threads := <[t := servePartition configured h.1 h.2 devs allocated profile]> (threads s);
                state := set_active <[h := t]> (state s) |}
  | step_visibility s t configured podUID devs allocated owner :
      threads s !! t = None ->
      step s {| threads :=
                  <[t := discard (GetPhysicalSlicedVisibilityResponse configured podUID devs allocated owner)]> (threads s);
                state := state s |}
  | step_sweep s t e live last :
      threads s !! t = None -> sweeping (state s) = false -> reclaim_tick (lastLive (state s)) e = (Some live, last) ->
      evidence (sweep (state s)) (list_to_set live) (state s) ->
      step s {| threads := <[t := sweep_pass ord (sweep (state s)) live]> (threads s);
                state := set_last last (set_sweep (sweep (state s)) true (state s)) |}
  | step_collect s t live :
      threads s !! t = None -> collecting (state s) = false ->
      overdue (dirMisses (state s)) (list_to_set live) (state s) ->
      step s {| threads := <[t := collect_pass ord (dirMisses (state s)) live]> (threads s);
                state := set_collect (dirMisses (state s)) true (state s) |}
  | step_pod_new s uid :
      pods (state s) !! uid = None -> isMarkerFile uid = false ->
      step s {| threads := threads s; state := set_pods <[uid := true]> (state s) |}
  | step_pod_gone s uid :
      (forall h t, active (state s) !! h = Some t -> h.1 <> uid) -> alive (state s) uid ->
      step s {| threads := threads s; state := set_pods <[uid := false]> (state s) |}
  | step_damage s p m :
      files (state s) !! p = Some (Intact m) ->
      step s {| threads := threads s; state := set_files <[p := Damaged m]> (state s) |}
  | step_hardware s card l :
      locks (state s) !! card = None \/ shown <$> l = view card (state s) -> NoDup (Gi <$> l) ->
      (forall h m i, alive (state s) h.1 -> claim_of (state s) h card = Some m -> i ∈ view card (state s) ->
         GiID i = MGiID m -> i ∈ shown <$> l) ->
      step s {| threads := threads s; state := set_hardware <[card := l]> (state s) |}
  | step_restart s c dirs :
      (forall h card m, alive (state s) h.1 -> claim_of (state s) h card = Some m -> backed (state s) card m) ->
      run 0%nat c newPodDirGC (state s) = Some (dirs, state s) ->
      step s {| threads := ∅; state := restarted dirs (state s) |}.

(** ** Every step keeps the invariant *)

Context (Hord : forall A (l : list A), ord A l ≡ₚ l).
Context (Hallowed : forall c, allowed c -> landed c = false /\ stuck c = false).

Abbreviation running := (Programs.running (@perform) allowed rely guar inv).

(** A goroutine that does not exist holds nothing. *)
Definition unused (s : system) : Prop := forall t, threads s !! t = None -> idle t (state s) /\ helper t (state s).

(** *** What happens beside the goroutines *)

Lemma rely_frame t w w' : frame w w' -> rely t w w'.
Proof. intros F. apply (guar_gives_rely (S t) t); [by apply guar_frame|lia]. Qed.

Lemma inv_serve t h w : inv w -> active w !! h = None -> alive w h.1 -> inv (set_active <[h := t]> w).
Proof.
  intros [I1 I2 I3 I4 I5 I6 I7] Hn Ha. constructor; try done.
  - intros h' card m Ha' Hc. destruct (I3 h' card m Ha' Hc) as [(u & Hu & Hact & Hg)|Hb]; [|by right].
    left. exists u. cbn. rewrite lookup_insert_ne by congruence. done.
  - cbn. intros h' u [[<- _]|[_ Hu]]%lookup_insert_Some; [done|by eapply I6].
Qed.

Lemma rely_serve t u h w : u <> t -> active w !! h = None -> alive w h.1 -> rely u w (set_active <[h := t]> w).
Proof.
  intros Hne Hn Ha. constructor; cbn; [by intros Hi; apply inv_serve|eauto|done| | |].
  - intros card _. split; [done|]. intros h' Hal. split; [intros _; apply same_file_refl|done].
  - intros h'. rewrite lookup_insert_Some. split; [intros [[_ ?]|[_ ?]]; [congruence|done]|]. intros Hh'. right.
    split; [congruence|done].
  - intros h' card _. split; [apply same_file_refl|done].
Qed.

(** The Pods change; those that live afterwards and have a marker lived before. *)
Lemma inv_pods f w :
  inv w -> (forall u, is_Some (pods w !! u) -> is_Some (f (pods w) !! u)) ->
  (forall u, is_Some (f (pods w) !! u) -> is_Some (pods w !! u) \/ isMarkerFile u = false) ->
  (forall u, f (pods w) !! u = Some true -> is_Some (pods w !! u) -> alive w u) ->
  (forall h t, active w !! h = Some t -> f (pods w) !! h.1 = Some true) -> inv (set_pods f w).
Proof.
  intros [I1 I2 I3 I4 I5 I6 I7] Hk Hn Ha Hact.
  assert (forall h card m, alive (set_pods f w) h.1 -> claim_of w h card = Some m -> alive w h.1) as Hal.
  { intros h card m Hl Hc. unfold claim_of in Hc. apply fmap_Some in Hc as (c & Hf & _).
    destruct (I1 _ _ Hf) as (h' & card' & [<- <-]%mp_eq & Hs & _). by apply Ha. }
  constructor.
  - cbn. intros p c Hf. destruct (I1 p c Hf) as (h & card & Hp & Hs & Hr). exists h, card. split; [done|].
    split; [by apply Hk|done].
  - cbn. intros u Hu. destruct (Hn u Hu) as [Hs|Hm]; [by apply I2|done].
  - intros h card m Hl Hc. apply I3; [by eapply Hal|done].
  - intros h1 h2 card m1 m2 Hl1 Hl2 Hc1 Hc2. apply (I4 h1 h2 card m1 m2); [by eapply Hal|by eapply Hal|done..].
  - done.
  - done.
  - cbn. intros h card inst Hg. destruct (I7 h card inst Hg) as [Hs Hm]. split; [by apply Hk|].
    intros Hl. by apply Hm, Ha.
Qed.

Lemma rely_pods_change t f w :
  inv w -> inv (set_pods f w) ->
  (forall u b, pods w !! u = Some b -> exists b', f (pods w) !! u = Some b' /\ (b' = true -> b = true)) ->
  rely t w (set_pods f w).
Proof.
  intros Hi Hi' Hp. constructor; cbn; [done|done|done| |done|].
  - intros card _. split; [done|]. intros h Hal. split; [intros _; apply same_file_refl|]. intros Hd. cbn.
    destruct (files w !! mp h card) as [c|] eqn:Hf; [|done].
    destruct (inv_paths _ Hi _ _ Hf) as (h' & card' & [<- <-]%mp_eq & [b Hb] & _). destruct (Hp _ _ Hb) as (b' & Hb' & Hle).
    unfold alive in *. cbn in Hal. rewrite Hb' in Hal. injection Hal as ->. destruct Hd. by rewrite Hb, (Hle eq_refl).
  - intros h card _. split; [apply same_file_refl|done].
Qed.

Lemma claim_damage p m w h card :
  files w !! p = Some (Intact m) -> claim_of (set_files <[p := Damaged m]> w) h card = claim_of w h card.
Proof. intros Hf. rewrite claim_insert. case_decide as Hp; [|done]. subst p. unfold claim_of. by rewrite Hf. Qed.

Lemma inv_damage p m w : inv w -> files w !! p = Some (Intact m) -> inv (set_files <[p := Damaged m]> w).
Proof.
  intros [I1 I2 I3 I4 I5 I6 I7] Hf. constructor; try done.
  - cbn. intros q c [[<- <-]|[_ Hq]]%lookup_insert_Some; [by apply (I1 p (Intact m))|by apply I1].
  - intros h card m'. rewrite claim_damage by done. apply I3.
  - intros h1 h2 card m1 m2. rewrite !claim_damage by done. apply I4.
  - intros h card inst. rewrite claim_damage by done. apply I7.
Qed.

Lemma rely_damage t p m w : files w !! p = Some (Intact m) -> rely t w (set_files <[p := Damaged m]> w).
Proof.
  intros Hf. assert (forall q, same_file (files w !! q) (<[p := Damaged m]> (files w) !! q)) as Hs.
  { intros q. destruct (decide (q = p)) as [->|Hne]; [|rewrite lookup_insert_ne by done; apply same_file_refl].
    rewrite Hf, lookup_insert_eq. right. eauto. }
  constructor; cbn; [by intros Hi; apply inv_damage|eauto|done| |done|by intros].
  intros card _. split; [done|]. intros h Hal. by split.
Qed.

Lemma rely_hardware t card l w :
  locks w !! card = None \/ shown <$> l = view card w -> NoDup (Gi <$> l) ->
  (forall h m i, alive w h.1 -> claim_of w h card = Some m -> i ∈ view card w -> GiID i = MGiID m -> i ∈ shown <$> l) ->
  rely t w (set_hardware <[card := l]> w).
Proof.
  intros Hl Hnd Hk.
  assert (forall card', view card' (set_hardware <[card := l]> w) = if decide (card' = card) then shown <$> l else view card' w) as Hv.
  { intros card'. unfold view, instances_on. cbn. case_decide as Hc; [subst; by rewrite lookup_insert_eq|by rewrite lookup_insert_ne]. }
  constructor; cbn; [|eauto|done| |done|].
  - intros [I1 I2 I3 I4 I5 I6 I7]. constructor; try done.
    + intros h card' m Ha Hc. destruct (I3 h card' m Ha Hc) as [He|(i & Hi & Hid & Hm)]; [by left|]. right. exists i.
      rewrite Hv. case_decide as Hcc; [subst card'|done]. split; [by eapply Hk|done].
    + intros card'. unfold instances_on. cbn. destruct (decide (card' = card)) as [->|Hne]; [by rewrite lookup_insert_eq|].
      rewrite lookup_insert_ne by done. apply I5.
  - intros card' Hc. split; [|intros h Hal; split; [intros _; apply same_file_refl|done]].
    rewrite Hv. case_decide as Hcc; [subst card'|done]. destruct Hl as [Hl|Hl]; [congruence|done].
  - intros h card' _. split; [apply same_file_refl|done].
Qed.

Lemma inv_restart dirs w :
  inv w -> (forall h card m, alive w h.1 -> claim_of w h card = Some m -> backed w card m) -> inv (restarted dirs w).
Proof. intros [I1 I2 I3 I4 I5 I6 I7] Hb. constructor; try done. intros h card m Ha Hc. right. by apply (Hb h). Qed.

(** *** Reachable states *)

Record sound (s : system) : Prop := { sound_running : running s; sound_unused : unused s }.

Lemma sound_act s t X (a : act X) k c x w :
  threads s !! t = Some (Do a k) -> allowed c -> perform t c a (state s) = Some (x, w) -> sound s ->
  sound {| threads := <[t := k x]> (threads s); state := w |}.
Proof.
  intros Ht Hc Hp [Hr Hu]. constructor.
  - eapply (running_act (@perform) allowed rely guar inv); [apply guar_inv|apply guar_gives_rely|done|done|done|done].
  - destruct Hr as [Hi Hth]. destruct (Hth t _ Ht (state s) ltac:(done) Hi c x w Hc Hp) as [Hg _].
    intros u. cbn. intros [Hn Hne]%lookup_insert_None. destruct (Hu u Hn) as [Hid Hh]. split.
    + intros card Hl. apply (Hid card). by apply (guar_locks _ _ _ Hg).
    + intros h Ha. apply (Hh h). by apply (guar_actives _ _ _ Hg).
Qed.

Lemma sound_start s t p w :
  threads s !! t = None -> locks w = locks (state s) ->
  (forall h u, u <> t -> active w !! h = Some u -> active (state s) !! h = Some u) -> inv w ->
  (forall u, u <> t -> rely u (state s) w) -> wp (@perform) allowed rely guar inv t p (fun _ _ => True) w -> sound s ->
  sound {| threads := <[t := p]> (threads s); state := w |}.
Proof.
  intros Hn Hl Ha Hi Hr Hp [Hs Hu]. constructor; [by apply (running_start (@perform) allowed rely guar inv)|].
  intros u. cbn. intros [Hn' Hne]%lookup_insert_None. destruct (Hu u Hn') as [Hid Hh]. split.
  - intros card. rewrite Hl. apply Hid.
  - intros h Hh'. apply (Hh h). apply Ha; [congruence|done].
Qed.

Lemma sound_env s w :
  locks w = locks (state s) -> active w = active (state s) -> inv w -> (forall u, rely u (state s) w) -> sound s ->
  sound {| threads := threads s; state := w |}.
Proof.
  intros Hl Ha Hi Hr [Hs Hu]. constructor; [by apply (running_env (@perform) allowed rely guar inv)|].
  intros u Hn. destruct (Hu u Hn) as [Hid Hh]. unfold idle, helper in *. cbn. by rewrite Hl, Ha.
Qed.

Lemma sound_pod_new s uid :
  pods (state s) !! uid = None -> isMarkerFile uid = false -> sound s ->
  sound {| threads := threads s; state := set_pods <[uid := true]> (state s) |}.
Proof.
  intros Hn Hm Hs. pose proof (running_inv _ _ _ _ _ _ (sound_running _ Hs)) as Hi.
  assert (inv (set_pods <[uid := true]> (state s))) as Hi'.
  { apply inv_pods; [done|..].
    - intros u Hu. rewrite lookup_insert_is_Some'. by right.
    - intros u Hu. rewrite lookup_insert_is_Some' in Hu. destruct Hu as [<-|Hu]; [by right|by left].
    - intros u [[<- _]|[_ Hu]]%lookup_insert_Some [b Hb]; [congruence|done].
    - intros h t Ht. pose proof (inv_active _ Hi h t Ht) as Ha. unfold alive in Ha. rewrite lookup_insert_ne; [done|congruence]. }
  apply sound_env; [done|done|done| |done]. intros u. apply rely_pods_change; [done|done|].
  intros v b Hv. rewrite lookup_insert_ne by congruence. eauto.
Qed.

Lemma sound_pod_gone s uid :
  (forall h t, active (state s) !! h = Some t -> h.1 <> uid) -> alive (state s) uid -> sound s ->
  sound {| threads := threads s; state := set_pods <[uid := false]> (state s) |}.
Proof.
  intros Hact Hal Hs. pose proof (running_inv _ _ _ _ _ _ (sound_running _ Hs)) as Hi.
  assert (inv (set_pods <[uid := false]> (state s))) as Hi'.
  { apply inv_pods; [done|..].
    - intros u Hu. rewrite lookup_insert_is_Some'. by right.
    - intros u Hu. rewrite lookup_insert_is_Some' in Hu. destruct Hu as [<-|Hu]; [left; rewrite Hal; eauto|by left].
    - intros u [[_ ?]|[_ Hu]]%lookup_insert_Some _; done.
    - intros h t Ht. pose proof (inv_active _ Hi h t Ht) as Ha. rewrite lookup_insert_ne; [done|].
      intros E. by apply (Hact h t Ht). }
  apply sound_env; [done|done|done| |done]. intros u. apply rely_pods_change; [done|done|]. intros v b Hv.
  destruct (decide (v = uid)) as [->|Hne]; [rewrite lookup_insert_eq; by exists false|rewrite lookup_insert_ne; eauto].
Qed.

Lemma step_sound s s' : step s s' -> sound s -> sound s'.
Proof.
  intros Hst Hs. pose proof (running_inv _ _ _ _ _ _ (sound_running _ Hs)) as Hi.
  destruct Hst as [s t X a k c x w Ht Hc Hp|s t h conf devs alloc prof Hn Hact Hal Hnd|s t conf uid devs alloc owner Hn
    |s t e live last Hn _ _ Hev|s t live Hn _ Hod|s uid Hn Hm|s uid Hact Hal|s p m Hf|s card l Hl Hnd Hk|s c dirs Hb _].
  - by eapply sound_act.
  - destruct (sound_unused _ Hs t Hn) as [Hid Hh]. apply sound_start; [done|done| |by apply inv_serve| | |done].
    + cbn. intros h' u Hne [[_ ?]|[_ ?]]%lookup_insert_Some; [congruence|done].
    + intros u Hne. by apply rely_serve.
    + apply wp_serve; [done| |done|done]. split; [apply lookup_insert_eq|].
      cbn. intros h' [[<- _]|[_ Hh']]%lookup_insert_Some; [done|]. by destruct (Hh h').
  - destruct (sound_unused _ Hs t Hn) as [Hid Hh]. by apply sound_start; [..|apply wp_visibility|].
  - destruct (sound_unused _ Hs t Hn) as [Hid Hh].
    assert (frame (state s) (set_last last (set_sweep (sweep (state s)) true (state s)))) as F by done.
    apply sound_start; [done|done|done|by eapply inv_frame|intros; by apply rely_frame| |done]. by apply wp_sweep_pass.
  - destruct (sound_unused _ Hs t Hn) as [Hid Hh].
    assert (frame (state s) (set_collect (dirMisses (state s)) true (state s))) as F by done.
    apply sound_start; [done|done|done|by eapply inv_frame|intros; by apply rely_frame| |done]. by apply wp_collect_pass.
  - by apply sound_pod_new.
  - by apply sound_pod_gone.
  - apply sound_env; [done|done|by apply inv_damage|intros u; by apply rely_damage|done].
  - apply sound_env; [done|done| |intros u; by apply rely_hardware|done].
    by apply (rely_inv _ _ _ (rely_hardware 0%nat card l (state s) Hl Hnd Hk)).
  - constructor; [constructor; [by apply inv_restart|by intros t p; cbn; rewrite lookup_empty]|].
    intros t _. split; intros x; cbn; by rewrite lookup_empty.
Qed.
End System.

(** A node that served nobody yet. *)
Record fresh_node (s : system) : Prop := {
  fresh_threads : threads s = ∅;
  fresh_files : files (state s) = ∅;
  fresh_locks : locks (state s) = ∅;
  fresh_active : active (state s) = ∅;
  fresh_granted : granted (state s) = ∅;
  fresh_names : forall u, is_Some (pods (state s) !! u) -> isMarkerFile u = false;
  fresh_ids : forall card, NoDup (Gi <$> instances_on card (state s)) }.

Lemma fresh_sound allowed s : fresh_node s -> sound allowed s.
Proof.
  intros [Ht Hf Hl Ha Hg Hn Hi]. constructor.
  - constructor; [constructor|].
    + intros p c. by rewrite Hf, lookup_empty.
    + done.
    + intros h card m _. unfold claim_of. by rewrite Hf, lookup_empty.
    + intros h1 h2 card m1 m2 _ _. unfold claim_of. by rewrite Hf, lookup_empty.
    + done.
    + intros h t. by rewrite Ha, lookup_empty.
    + intros h card inst. by rewrite Hg, lookup_empty.
    + intros t p. by rewrite Ht, lookup_empty.
  - intros t _. split; intros x; [by rewrite Hl, lookup_empty|by rewrite Ha, lookup_empty].
Qed.

Lemma steps_sound ord allowed s s' :
  (forall A (l : list A), ord A l ≡ₚ l) -> (forall c, allowed c -> landed c = false /\ stuck c = false) ->
  rtc (step ord allowed) s s' -> sound allowed s -> sound allowed s'.
Proof. intros Ho Ha Hs. induction Hs as [|s1 s2 s3 Hst _ IH]; [done|]. intros H. by eapply IH, step_sound. Qed.

Lemma granted_claim w h card inst :
  inv w -> alive w h.1 -> granted w !! (h, card) = Some inst ->
  exists m, claim_of w h card = Some m /\ agrees inst m /\ backed w card m.
Proof.
  intros Hi Ha Hg. destruct (proj2 (inv_granted _ Hi h card inst Hg) Ha) as (m & Hm & Hag). exists m.
  split; [done|]. split; [done|]. destruct (inv_backed _ Hi h card m Ha Hm) as [(t & _ & _ & Hn)|Hb]; [congruence|done].
Qed.

Lemma matches_eq i m j :
  matchesMarker i m = true -> matchesMarker j m = true -> UUID i = UUID j /\ InstPlacement i = InstPlacement j.
Proof.
  unfold matchesMarker. rewrite !andb_true_iff, !bool_decide_eq_true. intros [[-> E1] E2] [[-> E3] E4]. split; [done|].
  destruct (InstPlacement i), (InstPlacement j). cbn in *. congruence.
Qed.


(** ** Executions *)

(** A schedule in which one goroutine at a time runs to its end. *)
Inductive event :=
  | Serve (c : choice) (h : holder) (devs : Devices) (allocated : gmap Resource Z) (profile : string)
  | Sweep (c : choice) (live : list string)
  | Collect (c : choice) (live : list string)
  | Gone (uid : string)
  | Busy (card : string) (procs : Z).

Definition evident (r : reclaimer) (live : list string) (w : world) : bool :=
  forallb (fun kn => match kn with
    | (PodKey uid, n) => (i64 (n + 1) <? reclaimMaxMisses) || bool_decide (uid ∈ live \/ pods w !! uid = Some false)
    | (CorruptKey p, n) =>
        (i64 (n + 1) <? reclaimMaxMisses) ||
        match podUIDFromMarkerPath p with
        | Some uid => bool_decide (uid ∈ live \/ pods w !! uid = Some false)
        | None => true
        end
    | _ => true
    end) (map_to_list (misses r)).

Definition due (m : gmap string Z) (live : list string) (w : world) : bool :=
  forallb (fun un => (i64 (un.2 + 1) <? podDirGCMaxMisses) ||
                     bool_decide (un.1 ∈ live \/ pods w !! un.1 = Some false)) (map_to_list m).

Definition with_procs (procs : Z) (g : GpuInstance) : GpuInstance :=
  {| Gi := Gi g; Slices := Slices g; Where := Where g; MigDevice := MigDevice g; Procs := procs |}.

Definition play_one (ord : forall A : Type, list A -> list A) (t : nat) (e : event) (w : world) : option world :=
  match e with
  | Serve c h devs allocated profile =>
      if bool_decide (active w !! h = None /\ pods w !! h.1 = Some true /\ NoDup (allocatedAccelerators devs allocated))
      then snd <$> run t c (servePartition true h.1 h.2 devs allocated profile) (set_active <[h := t]> w) else None
  | Sweep c live =>
      if bool_decide (sweeping w = false) && evident (sweep w) live w
      then snd <$> run t c (sweep_pass ord (sweep w) live) (set_last (Some live) (set_sweep (sweep w) true w)) else None
  | Collect c live =>
      if bool_decide (collecting w = false) && due (dirMisses w) live w
      then snd <$> run t c (collect_pass ord (dirMisses w) live) (set_collect (dirMisses w) true w) else None
  | Gone uid =>
      if bool_decide (active w = ∅ /\ pods w !! uid = Some true) then Some (set_pods <[uid := false]> w) else None
  | Busy card procs =>
      if bool_decide (NoDup (Gi <$> instances_on card w))
      then Some (set_hardware <[card := with_procs procs <$> instances_on card w]> w) else None
  end.

Fixpoint play (ord : forall A : Type, list A -> list A) (t : nat) (es : list event) (w : world) : option world :=
  match es with
  | [] => Some w
  | e :: es => play_one ord t e w ≫= play ord (S t) es
  end.

Definition answers_of (e : event) : option choice :=
  match e with Serve c _ _ _ _ | Sweep c _ | Collect c _ => Some c | _ => None end.

Lemma evident_sound r live w : evident r live w = true -> evidence r (list_to_set live) w.
Proof.
  unfold evident. rewrite forallb_forall. intros Hall uid Hu%not_elem_of_list_to_set Hm.
  assert (forall k, reclaimMaxMisses <= i64 (misses_of r k + 1) -> misses r !! k <> None) as Hk.
  { intros k Hk Hn. unfold misses_of in Hk. rewrite Hn in Hk. by vm_compute in Hk. }
  destruct Hm as [Hm|(p & Hp & Hm)]; pose proof (Hk _ Hm) as Hs; unfold misses_of in Hm;
    match goal with H : misses r !! ?k <> None |- _ => destruct (misses r !! k) as [n|] eqn:E; [|done] end;
    cbn in Hm; apply elem_of_map_to_list, list_elem_of_In, Hall in E; rewrite ?Hp in E;
    (apply orb_true_iff in E as [E|E]; [apply Z.ltb_lt in E; lia|]); apply bool_decide_eq_true in E as [E|E]; done.
Qed.

Lemma due_sound m live w : due m live w = true -> overdue m (list_to_set live) w.
Proof.
  unfold due. rewrite forallb_forall. intros Hall uid Hu%not_elem_of_list_to_set Hm.
  destruct (m !! uid) as [n|] eqn:E; [|by vm_compute in Hm]. cbn in Hm.
  apply elem_of_map_to_list, list_elem_of_In, Hall in E. apply orb_true_iff in E as [E|E]; [apply Z.ltb_lt in E; cbn in E; lia|].
  by apply bool_decide_eq_true in E as [E|E].
Qed.

Section Play.
Context (ord : forall A : Type, list A -> list A) (allowed : choice -> Prop).

Lemma run_alone t c p w x w' ts :
  allowed c -> run t c p w = Some (x, w') ->
  rtc (step ord allowed) {| threads := <[t := p]> ts; state := w |} {| threads := <[t := Ret x]> ts; state := w' |}.
Proof. intros Ha Hrun. eapply (run_steps (@perform) allowed); [|exact Ha|exact Hrun]. intros *. apply step_act. Qed.

Lemma play_one_steps t e w w' ts :
  (forall c, answers_of e = Some c -> allowed c) -> ts !! t = None ->
  play_one ord t e w = Some w' ->
  exists ts', rtc (step ord allowed) {| threads := ts; state := w |} {| threads := ts'; state := w' |} /\
    forall u, u <> t -> ts !! u = None -> ts' !! u = None.
Proof.
  intros Ha Ht Hp.
  destruct e as [c h devs allocated profile|c live|c live|uid|card procs]; cbn [play_one] in Hp.
  - case_bool_decide as Hg; [|done]. destruct Hg as (Hact & Hal & Hn).
    apply fmap_Some in Hp as ([x w1] & Hrun & ->). exists (<[t := Ret x]> ts). split; [|intros; by rewrite lookup_insert_ne].
    eapply rtc_l; [by eapply step_serve|]. eapply run_alone; [by apply Ha|exact Hrun].
  - destruct (bool_decide_reflect (sweeping w = false)) as [Hsw|]; [|done]. cbn [andb] in Hp.
    destruct (evident _ _ _) eqn:Hev; [|done]. apply fmap_Some in Hp as ([x w1] & Hrun & ->).
    exists (<[t := Ret x]> ts). split; [|intros; by rewrite lookup_insert_ne].
    eapply rtc_l; [by eapply (step_sweep _ _ _ t (Broadcast live)); [| |done|apply evident_sound]|].
    eapply run_alone; [by apply Ha|exact Hrun].
  - destruct (bool_decide_reflect (collecting w = false)) as [Hsw|]; [|done]. cbn [andb] in Hp.
    destruct (due _ _ _) eqn:Hev; [|done]. apply fmap_Some in Hp as ([x w1] & Hrun & ->).
    exists (<[t := Ret x]> ts). split; [|intros; by rewrite lookup_insert_ne].
    eapply rtc_l; [by eapply step_collect; [| |apply due_sound]|]. eapply run_alone; [by apply Ha|exact Hrun].
  - case_bool_decide as Hg; [|done]. destruct Hg as [Hact Hal]. simplify_eq. exists ts. split; [|done].
    apply rtc_once. apply (step_pod_gone _ _ {| threads := ts; state := w |}); [|done]. intros h u. cbn [state]. by rewrite Hact, lookup_empty.
  - case_bool_decide as Hnd; [|done]. simplify_eq. exists ts. split; [|done]. apply rtc_once.
    assert (shown <$> (with_procs procs <$> instances_on card w) = view card w) as Hv.
    { unfold view. rewrite <- list_fmap_compose. by apply list_fmap_ext. }
    apply (step_hardware _ _ {| threads := ts; state := w |}); [by right| |].
    + rewrite <- list_fmap_compose. erewrite list_fmap_ext; [exact Hnd|done].
    + intros h m i _ _ Hi _. by rewrite Hv.
Qed.

Lemma play_steps t es w w' ts :
  Forall (fun e => forall c, answers_of e = Some c -> allowed c) es -> (forall u, (t <= u)%nat -> ts !! u = None) ->
  play ord t es w = Some w' ->
  exists ts', rtc (step ord allowed) {| threads := ts; state := w |} {| threads := ts'; state := w' |}.
Proof.
  revert t w ts. induction es as [|e es IH]; intros t w ts Ha Ht Hp; cbn [play] in Hp; [simplify_eq; by exists ts|].
  apply Forall_cons in Ha as [He Ha]. apply bind_Some in Hp as (w1 & H1 & Hp).
  destruct (play_one_steps t e w w1 ts He (Ht t (le_n t)) H1) as (ts1 & Hs1 & Hn1).
  destruct (IH (S t) w1 ts1 Ha) as (ts2 & Hs2); [|done|exists ts2; by trans {| threads := ts1; state := w1 |}].
  intros u Hu. apply Hn1; [lia|]. apply Ht. lia.
Qed.

Lemma play_reaches es w (f : world -> bool) :
  Forall (fun e => forall c, answers_of e = Some c -> allowed c) es ->
  match play ord 0%nat es w with Some w' => f w' | None => false end = true ->
  exists s', rtc (step ord allowed) {| threads := ∅; state := w |} s' /\ f (state s') = true.
Proof.
  intros Ha Hf. destruct (play ord 0%nat es w) as [w'|] eqn:Hp; [|done].
  destruct (play_steps 0%nat es w w' ∅ Ha) as (ts & Hs); [intros; apply lookup_empty|done|].
  by exists {| threads := ts; state := w' |}.
Qed.
End Play.

Module PartitionExample.
Definition slot (i : Z) : AcceleratorPlacement := {| Start := i; Length := 1 |}.
Definition accelerator : Accelerator := {|
  AccID := "GPU-9"; AccIndex := 0;
  AccStatus := {| Unhealthy := false; LogicalCount := 0; LogicalOvercommit := false; PhysicalCount := 7;
    PhysicalProfiles := [{| PName := "1g.10gb"; PCount := 2; PMemoryMib := 9728; PComputeSlices := 1; PMemorySlices := 1;
                            PPlacements := [slot 0; slot 1] |}] |} |}.
Definition devices : Devices := {|
  SpecGroups := [{| GrpID := "a100"; GrpManufacturer := "nvidia"; GrpMemory := 81920; GrpAccelerators := [accelerator] |}];
  StatusGroups := [] |}.
Definition allocated : gmap Resource Z := {[ {| Group := "a100"; Card := "GPU-9" |} := 1 ]}.

(** Two Pods of one container each, on an accelerator without partitions. *)
Definition first : holder := ("p1", "main").
Definition second : holder := ("p2", "main").
Definition node : world := {|
  files := ∅; hardware := {["GPU-9" := []]}; locks := ∅; sweep := newReclaimer; sweeping := false; dirMisses := ∅;
  collecting := false; lastLive := None; pods := {["p1" := true; "p2" := true]}; active := ∅; granted := ∅ |}.
Definition start : system := {| threads := ∅; state := node |}.

(** Every call works, but perhaps the durable patch and the removal of a file. *)
Definition answers (patched removable : bool) : choice := {|
  failing := false; landed := false; stuck := negb removable; partial := 0%nat; left_over := fun _ => false; gone := false;
  driver := None; late := false; new_gi := 7; new_ci := 0; new_uuid := "MIG-GPU-9-7"; legal := fun _ _ => [slot 0; slot 1];
  hidden := false; claimed := Some ∅; persisted := patched |}.

Definition serve (h : holder) (c : choice) : event := Serve c h devices allocated "1g.10gb".
Definition partition : migInstance := {|
  GiID := 7; CiID := 0; ComputeSlices := 1; InstPlacement := slot 0; UUID := "MIG-GPU-9-7" |}.
(** Maps are ranged over in the order of their keys. *)
Definition id_order (A : Type) (l : list A) : list A := l.

Lemma fresh : fresh_node start.
Proof.
  constructor; cbn; try done.
  - intros u [b Hb]. apply lookup_insert_Some in Hb as [[<- _]|[_ Hb]]; [reflexivity|].
    apply lookup_singleton_Some in Hb as [<- _]. reflexivity.
  - intros card. unfold instances_on. cbn. destruct (decide (card = "GPU-9")) as [->|Hne].
    + rewrite lookup_singleton_eq. constructor.
    + rewrite lookup_singleton_ne by done. constructor.
Qed.
End PartitionExample.
Import PartitionExample.


(** C27: for this the removal of a file must not fail.  A rollback destroys the
    partition first and ignores that its marker stays; another container is given
    the next partition of that slot, which has the same identity, and the retried
    Allocate of the first container takes its old marker for the proof that it owns
    it: two living containers are answered the same partition. *)
Theorem stuck_marker_shares_partition :
  exists s', fresh_node start /\ rtc (step id_order (fun c => landed c = false)) start s' /\
    alive (state s') first.1 /\ alive (state s') second.1 /\ first <> second /\
    granted (state s') !! (first, "GPU-9") = Some partition /\
    granted (state s') !! (second, "GPU-9") = Some partition.
Proof.
  destruct (play_reaches id_order (fun c => landed c = false)
    [serve first (answers false false); serve second (answers true true); serve first (answers true true)] node
    (fun w => bool_decide (granted w !! (first, "GPU-9") = Some partition /\
       granted w !! (second, "GPU-9") = Some partition /\ pods w !! "p1" = Some true /\ pods w !! "p2" = Some true)))
    as (s' & Hs & Hf).
  - repeat (constructor; [by intros c [= <-]|]). constructor.
  - vm_compute. reflexivity.
  - apply bool_decide_eq_true in Hf as (Hg1 & Hg2 & Hp1 & Hp2). exists s'. split; [exact fresh|]. by split_and!.
Qed.

(** C28: the collector of work directories removes markers too.  A Pod is gone and
    its process is still on the partition: a reclaim pass leaves partition and
    marker, but the third collection removes the Pod's directory with the marker,
    and the next container of that profile is given the partition the process runs
    on. *)
Theorem collected_marker_frees_busy_partition :
  exists s' g, fresh_node start /\ rtc (step id_order (fun c => landed c = false /\ stuck c = false)) start s' /\
    granted (state s') !! (first, "GPU-9") = Some partition /\
    alive (state s') second.1 /\ (exists inst, granted (state s') !! (second, "GPU-9") = Some inst /\ GiID inst = GiID partition) /\
    g ∈ instances_on "GPU-9" (state s') /\ Gi g = GiID partition /\ 0 < Procs g.
Proof.
  destruct (play_reaches id_order (fun c => landed c = false /\ stuck c = false)
    ([serve first (answers true true); Busy "GPU-9" 1; Gone "p1"] ++
     [Sweep (answers true true) ["p2"]; Collect (answers true true) ["p2"]; Sweep (answers true true) ["p2"];
      Collect (answers true true) ["p2"]; Sweep (answers true true) ["p2"]; Collect (answers true true) ["p2"];
      serve second (answers true true)]) node
    (fun w => bool_decide (granted w !! (first, "GPU-9") = Some partition /\ pods w !! "p2" = Some true /\
       GiID <$> granted w !! (second, "GPU-9") = Some 7) &&
       match instances_on "GPU-9" w with [g] => (Gi g =? 7) && (0 <? Procs g) | _ => false end))
    as (s' & Hs & Hf).
  - repeat (constructor; [by intros c [= <-]|]). constructor.
  - vm_compute. reflexivity.
  - apply andb_true_iff in Hf as [Hf Hg]. apply bool_decide_eq_true in Hf as (Hg1 & Hp2 & Hg2).
    destruct (instances_on "GPU-9" (state s')) as [|g [|]] eqn:Hi; try done.
    apply andb_true_iff in Hg as [Hgi%Z.eqb_eq Hpr%Z.ltb_lt]. apply fmap_Some in Hg2 as (inst & Hg2 & Hid).
    exists s', g. rewrite Hi. split_and!; [exact fresh|done|done|done|by exists inst|by left|done|done].
Qed.
