(* ===== verification/MigLiveness.v ===== *)
(** * Hardware partitions: what Pods leave behind is taken back

    A goroutine that reclaims and is left alone, with calls that work, comes to the
    end of its pass, and three passes that miss a Pod destroy its partitions and
    remove its markers. *)

From stdpp Require Import prelude gmap strings list sorting relations.
From S2P Require Import Prelude Programs Device PluginRecords PluginLedger PluginNode PluginSlices PluginAllocate.
From S2P Require Import MigRecords MigWorld MigAllocate MigReclaim MigSafety MigLoops MigTheorems.

Section Alone.
Context (t : nat) (c : choice).
(** Every call works. *)
Context (Hread : failing c = false) (Hremove : stuck c = false) (Hdriver : driver c = None).

Abbreviation run := (Programs.run (@perform) t c).
Abbreviation finishes := (Programs.finishes (@perform) t c).
Abbreviation finishes_bind := (Programs.finishes_bind (@perform) t c).
Abbreviation finishes_mono := (Programs.finishes_mono (@perform) t c).
Abbreviation finishes_ret := (Programs.finishes_ret (@perform) t c).

(** ** Scans are exact *)

(** The markers of a node, each where its record says. *)
Record tidy (w : world) : Prop := {
  tidy_paths : forall p f, files w !! p = Some f -> exists h card, p = mp h card /\ card <> "" /\
    MPodUID (recorded f) = h.1 /\ MCard (recorded f) = card;
  tidy_ids : forall card, NoDup (Gi <$> instances_on card w) }.

Definition parsed (w : world) (p : path) : option migMarker :=
  match files w !! p with
  | Some (Intact m) => if marker_complete p m then Some m else None
  | _ => None
  end.

Lemma parsed_Some w p m : parsed w p = Some m <-> files w !! p = Some (Intact m) /\ marker_complete p m = true.
Proof.
  unfold parsed. destruct (files w !! p) as [[m'|m']|]; [|by split; [|intros [? _]]..].
  destruct (marker_complete p m') eqn:E; split; [by intros [= <-]|by intros [[= <-] _]|done|intros [[= <-] ?]; congruence].
Qed.

Lemma run_parse p w :
  is_Some (files w !! p) ->
  exists r, run (parseMarker p) w = Some (r, w) /\
    match r with inl _ => parsed w p = None | inr m => parsed w p = Some m end.
Proof.
  intros [f Hf]. unfold parsed. cbn. rewrite Hread, Hf. destruct f as [m|m]; cbn; [|by eexists; split].
  destruct (marker_complete p m) eqn:E; eexists; (split; [reflexivity|]); cbn; done.
Qed.

Definition found (w : world) (P : path -> Prop) (acc acc' : scanned) : Prop :=
  exists ne nc, acc' = (acc.1 ++ ne, acc.2 ++ nc) /\
    (forall e, e ∈ ne <-> parsed w (EntryPath e) = Some (EntryMarker e) /\ P (EntryPath e)) /\
    (forall q, q ∈ nc <-> is_Some (files w !! q) /\ parsed w q = None /\ P q).

Lemma run_visit acc p w :
  tidy w -> is_Some (files w !! p) -> exists acc', run (visit_file acc p) w = Some (acc', w) /\ found w (fun q => q = p) acc acc'.
Proof.
  intros Hw Hs. unfold visit_file. destruct Hs as [f Hf]. destruct (tidy_paths _ Hw p f Hf) as (h & card & -> & _).
  rewrite (proj2 (isMarkerFile_spec _)) by (rewrite base_markerPath; eauto). cbn [negb].
  destruct (run_parse (mp h card) w) as (r & Hr & Hp); [eauto|].
  rewrite run_bind, Hr. destruct r as [e|m]; eexists; (split; [reflexivity|]).
  - exists [], [mp h card]. rewrite app_nil_r. split; [done|]. split.
    + intros x. rewrite elem_of_nil. split; [done|]. intros [Hx E]. rewrite E in Hx. congruence.
    + intros q. rewrite list_elem_of_singleton. split; [intros ->; eauto|by intros (_ & _ & ->)].
  - eexists [_], []. rewrite app_nil_r. split; [reflexivity|]. split.
    + intros x. rewrite list_elem_of_singleton. split; [by intros ->|]. destruct x as [xp xm]. cbn.
      intros [Hx ->]. rewrite Hp in Hx. by injection Hx as ->.
    + intros q. rewrite elem_of_nil. split; [done|]. intros (_ & Hq & ->). congruence.
Qed.

Lemma run_collect {X} (l : list X) (body : scanned -> X -> prog scanned) (P : X -> path -> Prop) acc w :
  (forall acc x, x ∈ l -> exists acc', run (body acc x) w = Some (acc', w) /\ found w (P x) acc acc') ->
  exists acc', run (for_all l acc body) w = Some (acc', w) /\ found w (fun q => exists x, x ∈ l /\ P x q) acc acc'.
Proof.
  revert acc. induction l as [|x l IH]; intros acc Hb; cbn [for_all].
  { exists acc. split; [done|]. exists [], []. rewrite !app_nil_r. split; [by destruct acc|].
    split; intros e; rewrite elem_of_nil; (split; [done|]).
    - intros (_ & x & Hx & _). by apply not_elem_of_nil in Hx.
    - intros (_ & _ & x & Hx & _). by apply not_elem_of_nil in Hx. }
  destruct (Hb acc x) as (acc1 & H1 & ne1 & nc1 & -> & He1 & Hc1); [by left|].
  destruct (IH (acc.1 ++ ne1, acc.2 ++ nc1)) as (acc2 & H2 & ne2 & nc2 & -> & He2 & Hc2); [intros; apply Hb; by right|].
  eexists. rewrite run_bind, H1. split; [exact H2|]. exists (ne1 ++ ne2), (nc1 ++ nc2). cbn. rewrite !app_assoc.
  split; [done|]. split; intros e; rewrite elem_of_app.
  - rewrite He1, He2. setoid_rewrite elem_of_cons. naive_solver.
  - rewrite Hc1, Hc2. setoid_rewrite elem_of_cons. naive_solver.
Qed.

Lemma found_weaken w (P Q : path -> Prop) acc acc' :
  (forall q, is_Some (files w !! q) -> P q <-> Q q) -> found w P acc acc' -> found w Q acc acc'.
Proof.
  intros HPQ (ne & nc & -> & He & Hc). exists ne, nc. split; [done|]. split; intros e.
  - rewrite He. split; intros [Hp HP]; (split; [done|]); apply parsed_Some in Hp as [Hf _]; apply HPQ; eauto.
  - rewrite Hc. split; intros (Hs & Hp & HP); (split; [done|]); (split; [done|]); by apply HPQ.
Qed.

Definition strictly_below (p q : path) : Prop := exists n r, q = p ++ n :: r.

Lemma run_walk fuel p acc w :
  tidy w -> (length p <= 2)%nat -> (3 <= length p + fuel)%nat ->
  exists acc', run (walk fuel p acc) w = Some (acc', w) /\ found w (strictly_below p) acc acc'.
Proof.
  intros Hw. revert p acc. induction fuel as [|fuel IH]; intros p acc Hlen Hfuel; [lia|]. cbn [walk].
  assert (exists r, run (call (ReadDir p)) w = Some (r, w) /\ r.1 = children p w /\ r.2 <> Some IOError) as ([l err] & Hr & Hl & He).
  { cbn. rewrite Hread. destruct (children p w); [destruct (gone c)|]; eexists; (split; [reflexivity|]); done. }
  rewrite run_bind, Hr. cbn [fst snd] in *. subst l.
  assert (match err with Some IOError => (acc.1, acc.2 ++ [p]) | _ => acc end = acc) as -> by (by destruct err as [[]|]).
  destruct (run_collect (children p w) (fun acc (e : string * bool) => if e.2 then walk fuel (p ++ [e.1]) acc else visit_file acc (p ++ [e.1]))
    (fun e q => if e.2 then strictly_below (p ++ [e.1]) q else q = p ++ [e.1]) acc w) as (acc' & Hrun & Hf).
  - intros acc1 [n b] Hin. apply elem_children in Hin as (q & f & Hq & (rest & -> & ->)%child_spec). cbn [fst snd].
    destruct (tidy_paths _ Hw _ _ Hq) as (h & card & Hp & _). apply (f_equal length) in Hp.
    unfold markerPath in Hp. rewrite length_app in Hp. cbn in Hp.
    destruct (bool_decide_reflect (rest = [])) as [->|Hne]; cbn [negb].
    + apply run_visit; [done|eauto].
    + destruct rest as [|x rest]; [done|]. cbn in Hp. apply IH; rewrite length_app; cbn; lia.
  - exists acc'. split; [exact Hrun|]. eapply found_weaken; [|exact Hf]. intros q [f Hq]. split.
    + intros ([n []] & _ & H); cbn in H; [destruct H as (n' & r & ->); exists n, (n' :: r); by rewrite <- app_assoc|].
      subst q. by exists n, [].
    + intros (n & r & ->). exists (n, negb (bool_decide (r = []))). split.
      * apply elem_children. exists (p ++ n :: r), f. split; [done|]. apply child_spec. by exists r.
      * cbn. destruct (bool_decide_reflect (r = [])) as [->|Hne]; [done|]. cbn. destruct r as [|x r]; [done|].
        exists x, r. by rewrite <- app_assoc.
Qed.

(** What a scan returns when every read works. *)
Record exact (w : world) (s : scanned) : Prop := {
  exact_entries : forall e, e ∈ s.1 <-> parsed w (EntryPath e) = Some (EntryMarker e);
  exact_corrupt : forall p, p ∈ s.2 <-> is_Some (files w !! p) /\ parsed w p = None }.

Lemma run_scan w : tidy w -> exists s, run scanMarkers w = Some (s, w) /\ exact w s.
Proof.
  intros Hw. unfold scanMarkers. rewrite run_bind. cbn [Programs.run call perform]. rewrite Hread.
  assert (files w = ∅ -> exact w ([], [])) as Hempty.
  { intros He. constructor; cbn; intros x; rewrite elem_of_nil; (split; [done|]).
    - intros [Hf _]%parsed_Some. by rewrite He, lookup_empty in Hf.
    - intros [[f Hf] _]. by rewrite He, lookup_empty in Hf. }
  destruct (bool_decide_reflect (files w = ∅)) as [He|_]; cbn [andb]; [destruct (gone c); [by eexists; split; [|apply Hempty]|]|].
  all: destruct (run_walk path_depth [] ([], []) w) as (s & Hs & ne & nc & -> & Hne & Hnc);
    [done|cbn; lia|unfold path_depth; cbn [length]; apply Nat.leb_le; reflexivity|]; eexists; (split; [exact Hs|]).
  all: assert (forall q, is_Some (files w !! q) -> strictly_below [] q) as Hb.
  1, 3: intros q [f Hq]; destruct (tidy_paths _ Hw _ _ Hq) as (h & card & -> & _); unfold markerPath; by eexists _, _.
  all: constructor; cbn [fst snd app]; intros x; [rewrite Hne|rewrite Hnc].
  1, 3: split; [by intros [? _]|]; intros Hp; (split; [done|]); apply Hb; apply parsed_Some in Hp as [-> _]; eauto.
  all: split; [by intros (? & ? & _)|]; intros [H1 H2]; (split_and!; [done|done|by apply Hb]).
Qed.

(** ** Reclaiming only takes away *)

Record shrinks (w w' : world) : Prop := {
  shrinks_files : files w' ⊆ files w;
  shrinks_hardware : forall card, instances_on card w' `sublist_of` instances_on card w;
  shrinks_locks : locks w' = locks w }.

#[export] Instance shrinks_preorder : PreOrder shrinks.
Proof.
  split; [by constructor|]. intros w1 w2 w3 [F1 H1 L1] [F2 H2 L2]. constructor; [by trans (files w2)| |congruence].
  intros card. by trans (instances_on card w2).
Qed.

Lemma shrinks_tidy w w' : shrinks w w' -> tidy w -> tidy w'.
Proof.
  intros [F H _] [T1 T2]. constructor.
  - intros p f Hf. apply T1. by eapply lookup_weaken.
  - intros card. eapply sublist_NoDup; [apply (T2 card)|]. by apply fmap_sublist.
Qed.

(** The markers of a Pod are as they were. *)
Definition spares (uid : string) (w w' : world) : Prop := forall p, head p = Some uid -> files w' !! p = files w !! p.

Definition sparing (uid : string) {X} (a : act X) : bool :=
  match a with Remove p => negb (bool_decide (head p = Some uid)) | DestroyInstance _ _ => true | _ => harmless a end.

Definition spared (uid : string) (w w' : world) : Prop := shrinks w w' /\ spares uid w w'.
#[export] Instance spared_preorder uid : PreOrder (spared uid).
Proof.
  split; [done|]. intros w1 w2 w3 [H1 S1] [H2 S2]. split; [by trans w2|]. intros p Hp. by rewrite S2, S1.
Qed.

Lemma set_hardware_shrinks card l w :
  l `sublist_of` instances_on card w -> shrinks w (set_hardware <[card := l]> w).
Proof.
  intros Hl. constructor; [done| |done]. intros card'. unfold instances_on. cbn.
  destruct (decide (card' = card)) as [->|Hne]; [by rewrite lookup_insert_eq|by rewrite lookup_insert_ne].
Qed.

Lemma sparing_answers uid {X} (a : act X) w :
  sparing uid a = true -> exists x w', perform t c a w = Some (x, w') /\ spared uid w w'.
Proof.
  intros Hs. destruct a; try discriminate Hs; cbn; try (by eexists _, _).
  - rewrite Hremove. destruct (files w !! p) as [f|] eqn:Hf; [|by eexists _, _]. eexists _, _. split; [done|]. split.
    + constructor; [apply delete_subseteq|done|done].
    + intros q Hq. cbn. rewrite lookup_delete_ne; [done|]. intros <-. cbn in Hs. by rewrite bool_decide_true in Hs.
  - eexists _, _. split; [by rewrite <- surjective_pairing|]. unfold destroy. rewrite Hdriver.
    destruct (list_find _ _) as [[i g]|]; [|done]. destruct (negb _); [done|]. cbn.
    split; [|done]. apply set_hardware_shrinks, sublist_filter.
Qed.

Lemma finishes_sparing uid {A} (p : prog A) w :
  Programs.quiet (@sparing uid) p -> finishes p (fun _ => spared uid w) w.
Proof.
  intros Hq. apply (finishes_quiet (@perform) t c (@sparing uid)); [apply _| |done]. intros X a w0. apply sparing_answers.
Qed.

Lemma sparing_harmless uid {A} (p : prog A) : Programs.quiet (@harmless) p -> Programs.quiet (@sparing uid) p.
Proof.
  induction p as [x|X a k IH]; [done|]. intros [Ha Hq]. split; [|auto]. destruct a; try discriminate Ha; done.
Qed.

Lemma run_harmless {A} (p : prog A) w : Programs.quiet (@harmless) p -> exists x, run p w = Some (x, w).
Proof.
  revert w. induction p as [x|X a k IH]; intros w Hq; [by exists x|]. destruct Hq as [Ha Hq].
  destruct (sparing_answers "" a w) as (x & w1 & Hp & _); [by apply (sparing_harmless "" (call a))|].
  pose proof (harmless_same _ _ _ _ _ _ Ha Hp) as ->. destruct (IH x w (Hq x)) as (y & Hy). exists y. cbn. by rewrite Hp.
Qed.

(** Work under a lock that was free. *)
Lemma finishes_lock {A} card (k : prog A) Q w :
  locks w !! card = None -> finishes k Q (set_locks <[card := t]> w) -> finishes (call (LockCard card) ;! k) Q w.
Proof.
  intros Hl (x & w1 & Hk & HQ). exists x, w1. split; [|done]. rewrite run_bind. cbn [Programs.run call perform]. by rewrite Hl.
Qed.

Lemma finishes_unlock {A} card (k : prog A) Q w L :
  locks w = <[card := t]> L -> L !! card = None -> finishes k Q (set_locks (fun _ => L) w) ->
  finishes (call (UnlockCard card) ;! k) Q w.
Proof.
  intros Hl Hn (x & w1 & Hk & HQ). exists x, w1. split; [|done]. rewrite run_bind. cbn [Programs.run call perform].
  rewrite bool_decide_true by (rewrite Hl; apply lookup_insert_eq). rewrite <- Hk. f_equal.
  unfold set_locks. by rewrite Hl, delete_insert_id.
Qed.

Lemma shrinks_unlocked card w w' :
  shrinks (set_locks <[card := t]> w) w' -> shrinks w (set_locks (fun _ => locks w) w').
Proof. intros [F H _]. by constructor. Qed.

Lemma quiet_removeMarker uid p : head p <> Some uid -> Programs.quiet (@sparing uid) (removeMarker p).
Proof.
  intros Hp. apply quiet_bind; [apply quiet_call; cbn; by rewrite bool_decide_false|]. intros [[]|]; [|done|];
    apply sparing_harmless, quiet_bind; [apply quiet_removeIfEmpty| |apply quiet_removeIfEmpty|]; intros u;
    (apply quiet_bind; [apply quiet_removeIfEmpty|done]).
Qed.

Lemma quiet_walk fuel p acc : Programs.quiet (@harmless) (walk fuel p acc).
Proof.
  revert p acc. induction fuel as [|fuel IH]; intros p acc; cbn [walk]; [done|].
  apply quiet_bind; [by apply quiet_call|]. intros r. apply quiet_for_all. intros acc' e. destruct e.2; [apply IH|].
  unfold visit_file, parseMarker. destruct (negb _); [done|]. apply quiet_bind; [|by intros []].
  apply quiet_bind; [by apply quiet_call|]. by intros [|[]].
Qed.

Lemma quiet_scan : Programs.quiet (@harmless) scanMarkers.
Proof. apply quiet_bind; [by apply quiet_call|]. intros [[]|]; [done|done|apply quiet_walk]. Qed.

Lemma quiet_destroy_marked uid card instances ids st e :
  head (EntryPath e) <> Some uid -> Programs.quiet (@sparing uid) (destroy_marked card instances ids st e).
Proof.
  intros He. destruct st as [ok blocked]. unfold destroy_marked.
  assert (Programs.quiet (@sparing uid) (let! ok' := removeMarker (EntryPath e) in Ret (ok && ok', blocked))) as Hd.
  { apply quiet_bind; [by apply quiet_removeMarker|done]. }
  destruct (findLiveGi _ _); [|done]. destruct (bool_decide _); [done|]. destruct (negb _); [done|].
  apply quiet_bind; [apply quiet_bind; [by apply quiet_call|done]|]. intros [b|]; [done|].
  apply quiet_bind; [by apply quiet_call|]. by intros [[]|].
Qed.

(** The partitions of another Pod. *)
Lemma finishes_other_card uid v card entries w :
  locks w !! card = None -> Forall (fun e => head (EntryPath e) <> Some uid) entries ->
  finishes (destroyMarkedInstancesOnCard v card entries) (fun _ => spared uid w) w.
Proof.
  intros Hl He. unfold destroyMarkedInstancesOnCard. apply finishes_lock; [done|].
  apply finishes_bind. eapply finishes_mono; [|apply (finishes_sparing uid), quiet_call; done]. intros instances w1 H1.
  apply finishes_bind. eapply finishes_mono; [|apply (finishes_sparing uid)].
  - intros r w2 H2. destruct (transitivity H1 H2) as [Hs Hsp].
    apply (finishes_unlock _ _ _ _ (locks w)); [apply (shrinks_locks _ _ Hs)|done|].
    apply finishes_ret. split; [by apply (shrinks_unlocked card)|exact Hsp].
  - destruct instances as [instances|]; [|done]. apply quiet_bind; [apply sparing_harmless, quiet_scan|]. intros s.
    destruct (supersedingCorruptOnCard _ _ _); [done|].
    apply quiet_for_list. intros st e Hin. apply quiet_destroy_marked. rewrite list.Forall_forall in He. by apply He.
Qed.

(** ** The Pod that is gone *)

Section Pod.
Context (claims : gmap string (list AcceleratorPlacement)) (Hclaims : claimed c = Some claims).
Context (uid : string).

Definition slot_of (m : migMarker) : AcceleratorPlacement := {| Start := MStart m; Length := MLength m |}.

(** Nothing holds back what the Pod left: its markers can be read, no process runs
    on the partitions they name, no running Pod claims them, and the other markers
    on these accelerators can be read and name other partitions. *)
Record reclaimable (w : world) : Prop := {
  reclaimable_mine : forall h card f, h.1 = uid -> files w !! mp h card = Some f ->
    exists m, f = Intact m /\ marker_complete (mp h card) m = true /\
      slotOverlapsAny (slot_of m) (default [] (claims !! card)) = false /\
      forall g, g ∈ instances_on card w -> Gi g = MGiID m -> matchesMarker (shown g) m = true /\ Procs g = 0;
  reclaimable_others : forall h card f h' f', h.1 = uid -> files w !! mp h card = Some f ->
    h'.1 <> uid -> files w !! mp h' card = Some f' ->
    exists m', f' = Intact m' /\ marker_complete (mp h' card) m' = true /\ MGiID m' <> MGiID (recorded f) }.

Lemma reclaimable_shrinks w w' : shrinks w w' -> reclaimable w -> reclaimable w'.
Proof.
  intros [F H _] [R1 R2]. constructor.
  - intros h card f Hu Hf. destruct (R1 h card f Hu) as (m & -> & Hc & Ho & Hg); [by eapply lookup_weaken|].
    exists m. split_and!; [done|done|done|]. intros g Hin. apply Hg. by eapply elem_of_sublist; [|apply H].
  - intros h card f h' f' Hu Hf Hne Hf'. apply (R2 h card f h' f'); [done| |done|]; by eapply lookup_weaken.
Qed.

(** The node when the pass begins. *)
Context (w0 : world) (Htidy : tidy w0) (Hreclaimable : reclaimable w0).

(** An entry of the Pod, and what it means to be done with it. *)
Definition mine (card : string) (e : markerEntry) : Prop :=
  exists h, EntryPath e = mp h card /\ h.1 = uid /\ files w0 !! EntryPath e = Some (Intact (EntryMarker e)).

Definition cleared (card : string) (e : markerEntry) (w : world) : Prop :=
  files w !! EntryPath e = None /\ MGiID (EntryMarker e) ∉ Gi <$> instances_on card w.

Lemma cleared_shrinks card e w w' : shrinks w w' -> cleared card e w -> cleared card e w'.
Proof.
  intros [F H _] [H1 H2]. split.
  - destruct (files w' !! EntryPath e) eqn:E; [|done]. by rewrite (lookup_weaken _ _ _ _ E F) in H1.
  - intros Hin. apply H2. eapply elem_of_sublist; [exact Hin|]. by apply fmap_sublist.
Qed.

Lemma finishes_drop card e w (ok : bool) (blocked : option destroyErr) :
  MGiID (EntryMarker e) ∉ Gi <$> instances_on card w ->
  finishes (let! ok' := removeMarker (EntryPath e) in Ret (ok && ok', blocked))
    (fun r w' => r = (ok, blocked) /\ shrinks w w' /\ cleared card e w') w.
Proof.
  intros Hgi. unfold removeMarker. apply finishes_bind, finishes_bind.
  set (w1 := match files w !! EntryPath e with Some _ => set_files (delete (EntryPath e)) w | None => w end).
  assert (files w1 = delete (EntryPath e) (files w) /\ hardware w1 = hardware w /\ locks w1 = locks w) as (F1 & H1 & L1).
  { unfold w1. destruct (files w !! EntryPath e) eqn:E; [done|]. by rewrite delete_id. }
  assert (shrinks w w1 /\ cleared card e w1) as [Hs Hc].
  { split; [constructor; [rewrite F1; apply delete_subseteq|unfold instances_on; by rewrite H1|done]|].
    split; [by rewrite F1, lookup_delete_eq|]. unfold instances_on. by rewrite H1. }
  assert (exists err, err <> Some IOError /\ perform t c (Remove (EntryPath e)) w = Some (err, w1)) as (err & Hne & Hp).
  { cbn. rewrite Hremove. unfold w1. destruct (files w !! EntryPath e); eexists; (split; [|reflexivity]); done. }
  apply (finishes_call (@perform) t c _ _ _ err w1); [done|].
  destruct (run_harmless (removeIfEmpty (removelast (EntryPath e)) ;! removeIfEmpty (removelast (removelast (EntryPath e))) ;! Ret true) w1)
    as (x & Hx).
  { apply quiet_bind; [apply quiet_removeIfEmpty|]. intros u. apply quiet_bind; [apply quiet_removeIfEmpty|done]. }
  assert (x = true) as ->.
  { rewrite run_bind in Hx. destruct (run (removeIfEmpty _) w1) as [[u w2]|]; [|done]. rewrite run_bind in Hx.
    destruct (run (removeIfEmpty _) w2) as [[u' w3]|]; [|done]. cbn in Hx. by simplify_eq. }
  assert (match err with Some IOError => Ret false | _ => removeIfEmpty (removelast (EntryPath e)) ;!
      removeIfEmpty (removelast (removelast (EntryPath e))) ;! Ret true end =
    (removeIfEmpty (removelast (EntryPath e)) ;! removeIfEmpty (removelast (removelast (EntryPath e))) ;! Ret true))
    as -> by (by destruct err as [[]|]).
  exists true, w1. split; [exact Hx|]. apply finishes_ret. by rewrite andb_true_r.
Qed.

Lemma findLiveGi_spec instances gi :
  match findLiveGi instances gi with
  | Some inst => inst ∈ instances /\ GiID inst = gi
  | None => forall inst, inst ∈ instances -> GiID inst <> gi
  end.
Proof.
  unfold findLiveGi. destruct (list_find _ _) as [[i inst]|] eqn:E; cbn.
  - apply list_find_Some in E as (Hi & Hg & _). split; [by eapply list_elem_of_lookup_2|done].
  - apply list_find_None in E. rewrite list.Forall_forall in E. done.
Qed.

(** Destroying what no process uses, known by its identity. *)
Lemma run_destroy card m w :
  (forall g, g ∈ instances_on card w -> Gi g = MGiID m -> matchesMarker (shown g) m = true /\ Procs g = 0) ->
  run (destroyBlockedBy card (instance m)) w = Some (None, w) /\
  exists w', perform t c (DestroyInstance card (instance m)) w = Some (None, w') /\ shrinks w w' /\
    files w' = files w /\ MGiID m ∉ Gi <$> instances_on card w'.
Proof.
  intros Hg. unfold destroyBlockedBy. rewrite run_bind. cbn [Programs.run call perform]. unfold processes, destroy.
  rewrite Hdriver. cbn [GiID instance].
  destruct (list_find (fun g => Gi g = MGiID m) (instances_on card w)) as [[i g]|] eqn:E.
  - apply list_find_Some in E as (Hi & Hid & _). pose proof (list_elem_of_lookup_2 _ _ _ Hi) as Hin.
    destruct (Hg g Hin Hid) as [Hm Hp]. split; [destruct (_ || _); cbn; by rewrite ?Hp|].
    assert (same_identity (instance m) g = true) as ->.
    { unfold matchesMarker in Hm. rewrite !andb_true_iff, !bool_decide_eq_true in Hm. destruct Hm as [[H1 H2] H3].
      unfold same_identity. cbn in *. rewrite !bool_decide_true; [done| |done]. destruct (Where g). cbn in *. by subst. }
    eexists. split; [reflexivity|]. split; [apply set_hardware_shrinks, sublist_filter|]. split; [done|].
    unfold instances_on at 1. cbn. rewrite lookup_insert_eq. cbn.
    intros (g' & Hg' & Hf)%list_elem_of_fmap. apply list_elem_of_filter in Hf as [Hne _]. congruence.
  - split; [done|]. exists w. split; [done|]. split; [done|]. split; [done|].
    intros (g & Hgi & Hin)%list_elem_of_fmap. apply list_find_None in E. rewrite list.Forall_forall in E. by apply (E g Hin).
Qed.

Lemma finishes_mine card ids e w w1 :
  mine card e -> MGiID (EntryMarker e) ∉ ids -> shrinks w0 w ->
  instances_on card w1 `sublist_of` instances_on card w ->
  finishes (destroy_marked card (view card w) ids (true, None) e)
    (fun r w' => r = (true, None) /\ shrinks w1 w' /\ cleared card e w') w1.
Proof.
  intros (h & Hp & Hu & Hf) Hids Hs0 Hs. unfold destroy_marked. rewrite Hp in Hf.
  destruct (reclaimable_mine _ Hreclaimable h card _ Hu Hf) as (m & [= Hm] & _ & _ & Hg). rewrite Hm in *.
  pose proof (findLiveGi_spec (view card w) (MGiID m)) as Hfind.
  destruct (findLiveGi (view card w) (MGiID m)) as [inst|].
  - rewrite bool_decide_false by done. destruct Hfind as [(g & -> & Hin)%list_elem_of_fmap Hid].
    destruct (Hg g) as [-> _]; [by eapply elem_of_sublist; [|apply (shrinks_hardware _ _ Hs0)]|done|]. cbn [negb].
    destruct (run_destroy card m w1) as (Hb & w2 & Hd & Hs2 & Hfl & Hgi).
    { intros g' Hin'. apply Hg. eapply elem_of_sublist; [exact Hin'|]. trans (instances_on card w); [done|apply Hs0]. }
    apply finishes_bind. exists None, w1. split; [exact Hb|]. apply finishes_bind.
    apply (finishes_call (@perform) t c _ _ _ None w2); [done|].
    eapply finishes_mono; [|apply (finishes_drop card); by rewrite Hm]. cbn. intros r w3 (-> & Hs3 & Hc).
    split; [done|]. split; [by trans w2|done].
  - apply finishes_drop. rewrite Hm. intros (g & Hgi & Hin)%list_elem_of_fmap. apply (Hfind (shown g)); [|done].
    apply list_elem_of_fmap_2. by eapply elem_of_sublist.
Qed.

Lemma card_of_mp h card : card <> "" -> cardFromMarkerPath (mp h card) = Some card.
Proof. intros Hne. apply cardFromMarkerPath_spec. by rewrite base_markerPath. Qed.

(** No marker of another Pod stands in the way. *)
Lemma unhindered card e s w :
  shrinks w0 w -> exact w s -> mine card e ->
  supersedingCorruptOnCard s.2 card uid = false /\
  forall e', mine card e' -> MGiID (EntryMarker e') ∉ supersedingGiIDsOnCard s.1 card uid.
Proof.
  intros Hs [He Hc] (h & Hp & Hu & Hf). rewrite Hp in Hf.
  assert (forall p f, files w !! p = Some f -> files w0 !! p = Some f) as Hback.
  { intros p f Hp'. eapply lookup_weaken; [exact Hp'|apply Hs]. }
  destruct (tidy_paths _ Htidy _ _ Hf) as (h0 & card0 & [<- <-]%mp_eq & Hcard & _). split.
  - apply not_true_iff_false. intros (p & Hin & Hx)%existsb_exists. apply list_elem_of_In, Hc in Hin as [[f' Hw] Hn].
    pose proof (Hback _ _ Hw) as Hf'.
    destruct (tidy_paths _ Htidy p f' Hf') as (h' & card' & -> & Hne & _). rewrite card_of_mp in Hx by done.
    apply andb_true_iff in Hx as [->%bool_decide_eq_true Hx].
    assert (forall m', f' = Intact m' -> marker_complete (mp h' card) m' = true -> False) as Hno.
    { intros m' -> Hmc. assert (parsed w (mp h' card) = Some m') by (by apply parsed_Some). congruence. }
    destruct (decide (h'.1 = uid)) as [Heq|Hne'].
    + destruct (reclaimable_mine _ Hreclaimable h' card f' Heq Hf') as (m' & -> & Hmc & _). by eapply Hno.
    + destruct (reclaimable_others _ Hreclaimable h card _ h' f' Hu Hf Hne' Hf') as (m' & -> & Hmc & _). by eapply Hno.
  - intros e' (h1 & Hp1 & Hu1 & Hf1) (e2 & Hgi & Hin)%elem_of_list_to_set%list_elem_of_fmap.
    apply list_elem_of_filter in Hin as [[Hcd Hne] Hin]. apply He, parsed_Some in Hin as [Hf2%Hback _].
    destruct (tidy_paths _ Htidy _ _ Hf2) as (h2 & card2 & Hp2 & _ & Hu2 & Hc2). cbn in Hu2, Hc2.
    rewrite Hp1 in Hf1. rewrite Hp2 in Hf2. assert (card2 = card) as -> by congruence.
    assert (h2.1 <> uid) as Hne2 by congruence.
    destruct (reclaimable_others _ Hreclaimable h1 card _ h2 _ Hu1 Hf1 Hne2 Hf2) as (m' & [= <-] & _ & Hgi'). by apply Hgi'.
Qed.

Lemma finishes_mine_card card entries w :
  shrinks w0 w -> locks w !! card = None -> entries <> [] -> (forall e, e ∈ entries -> mine card e) ->
  finishes (destroyMarkedInstancesOnCard uid card entries)
    (fun r w' => r = (true, None) /\ shrinks w w' /\ forall e, e ∈ entries -> cleared card e w') w.
Proof.
  intros Hs0 Hl Hne Hm. unfold destroyMarkedInstancesOnCard. apply finishes_lock; [done|].
  set (w1 := set_locks <[card := t]> w). pose proof (shrinks_tidy _ _ Hs0 Htidy) as Ht.
  assert (tidy w1) as Ht1 by (by destruct Ht).
  apply finishes_bind. apply (finishes_call (@perform) t c _ _ _ (Some (view card w)) w1).
  { cbn. unfold answering. by rewrite Hdriver. }
  apply finishes_bind, finishes_bind. destruct (run_scan w1 Ht1) as (s & Hs & Hex). exists s, w1. split; [exact Hs|].
  destruct entries as [|e0 rest] eqn:E; [done|].
  destruct (unhindered card e0 s w) as [-> Hids]; [done|by destruct Hex|apply Hm; by left|]. rewrite <- E in *.
  eapply finishes_mono; [|apply (finishes_for_all (@perform) t c entries (true, None) _
    (fun st w' => st = (true, None) /\ shrinks w1 w') (cleared card) shrinks)].
  - intros st w2 [[-> Hs2] Hc]. apply (finishes_unlock _ _ _ _ (locks w)); [apply (shrinks_locks _ _ Hs2)|done|].
    apply finishes_ret. split; [done|]. split; [by apply (shrinks_unlocked card)|]. done.
  - intros e w2 w3. apply cleared_shrinks.
  - intros st e w2 Hin [-> Hs2]. eapply finishes_mono; [|apply (finishes_mine card _ e w w2)].
    + intros r w3 (-> & Hs3 & Hc). split; [split; [done|by trans w2]|done].
    + by apply Hm.
    + apply Hids. by apply Hm.
    + done.
    + apply (shrinks_hardware _ _ Hs2).
  - done.
Qed.

(** *** The whole Pod *)

Context (ord : forall A : Type, list A -> list A).
Context (Hord : forall A (l : list A), ord A l ≡ₚ l).

Lemma group_by_complete {A} (key : A -> string) l x :
  x ∈ l -> exists xs, group_by key l !! key x = Some xs /\ x ∈ xs.
Proof.
  unfold group_by. induction l as [|y l IH] using rev_ind; [by intros ?%not_elem_of_nil|].
  rewrite foldl_app. cbn. intros [Hx|Hx]%elem_of_app.
  - destruct (IH Hx) as (xs & Hxs & Hin). destruct (decide (key y = key x)) as [E|E].
    + rewrite E, lookup_insert_eq, Hxs. eexists. split; [done|]. apply elem_of_app. by left.
    + rewrite lookup_insert_ne by done. eauto.
  - apply list_elem_of_singleton in Hx as ->. rewrite lookup_insert_eq. eexists. split; [done|].
    apply elem_of_app. right. by apply list_elem_of_singleton.
Qed.

Lemma group_by_nonempty {A} (key : A -> string) l k xs : group_by key l !! k = Some xs -> xs <> [].
Proof.
  unfold group_by. revert k xs. induction l as [|y l IH] using rev_ind; intros k xs; [done|].
  rewrite foldl_app. cbn. intros [[_ <-]|[_ H]]%lookup_insert_Some; [by destruct (default [] _)|by eapply IH].
Qed.

Definition of_pod (v : string) (e : markerEntry) : Prop :=
  files w0 !! EntryPath e = Some (Intact (EntryMarker e)) /\ MPodUID (EntryMarker e) = v.

Lemma of_pod_mine e : of_pod uid e -> mine (MCard (EntryMarker e)) e.
Proof.
  intros [Hf Hu]. destruct (tidy_paths _ Htidy _ _ Hf) as (h & card & Hp & _ & Hh & Hc). cbn in Hh, Hc.
  exists h. rewrite Hc. split; [done|]. split; [congruence|done].
Qed.

Lemma of_pod_head v e : of_pod v e -> head (EntryPath e) = Some v.
Proof.
  intros [Hf Hu]. destruct (tidy_paths _ Htidy _ _ Hf) as (h & card & -> & _ & Hh & _). cbn in Hh. unfold markerPath. cbn. congruence.
Qed.

(** The entry's marker is gone and so is its partition. *)
Definition settled_entry (e : markerEntry) (w : world) : Prop := cleared (MCard (EntryMarker e)) e w.

Lemma finishes_pod entries r w :
  shrinks w0 w -> locks w = ∅ -> (forall e, e ∈ entries -> of_pod uid e) ->
  finishes (destroyPod ord uid entries claims r) (fun r' w' => shrinks w w' /\ (forall e, e ∈ entries -> settled_entry e w') /\
    (misses_of r' (PodKey uid) = 0 \/ misses_of r' (PodKey uid) = misses_of r (PodKey uid))) w.
Proof.
  intros Hs0 Hl Hm. unfold destroyPod. cbv zeta.
  set (overlapping := fun e : markerEntry => slotOverlapsAny {| Start := MStart (EntryMarker e); Length := MLength (EntryMarker e) |}
    (default [] (claims !! MCard (EntryMarker e)))).
  assert (forall e, e ∈ entries -> overlapping e = false) as Hov.
  { intros e Hin. destruct (of_pod_mine e (Hm e Hin)) as (h & Hp & Hu & Hf). rewrite Hp in Hf.
    destruct (reclaimable_mine _ Hreclaimable h _ _ Hu Hf) as (m & [= Em] & _ & Ho & _). unfold overlapping. rewrite Em in *. exact Ho. }
  rewrite filter_all by exact Hov.
  assert (existsb overlapping entries = false) as ->.
  { apply not_true_iff_false. intros (e & Hin%list_elem_of_In & Ho)%existsb_exists. by rewrite (Hov e Hin) in Ho. }
  cbn [negb]. set (byCard := group_by _ entries).
  apply finishes_bind. eapply finishes_mono; [|apply (finishes_for_all (@perform) t c (ord _ (map_to_list byCard)) (true, None) _
    (fun st w' => shrinks w w') (fun ce w' => forall e, e ∈ ce.2 -> settled_entry e w') shrinks)].
  - intros st w1 [Hs1 Hd]. apply finishes_ret. split; [done|].
    split; [|destruct st.1; [left; unfold misses_of; cbn; by rewrite lookup_delete_eq|right; apply misses_count_blocked]]. intros e Hin.
    destruct (group_by_complete (fun e => MCard (EntryMarker e)) entries e Hin) as (xs & Hxs & Hx).
    apply (Hd (MCard (EntryMarker e), xs)); [|done]. rewrite Hord. by apply elem_of_map_to_list.
  - intros ce w1 w2 Hs Hd e Hin. by eapply cleared_shrinks, Hd.
  - intros st [card es] w1 Hin Hs1. cbn [fst snd]. rewrite Hord in Hin. apply elem_of_map_to_list in Hin.
    assert (forall e, e ∈ es -> e ∈ entries /\ MCard (EntryMarker e) = card) as Hes.
    { intros e. by apply (group_by_spec (fun e => MCard (EntryMarker e)) entries card es e). }
    apply finishes_bind. eapply finishes_mono; [|apply (finishes_mine_card card es w1)].
    + intros res w2 (-> & Hs2 & Hc). apply finishes_ret. split; [by trans w1|]. split; [done|].
      intros e He. unfold settled_entry. rewrite (proj2 (Hes e He)). by apply Hc.
    + by trans w.
    + by rewrite (shrinks_locks _ _ Hs1), Hl, lookup_empty.
    + by eapply group_by_nonempty.
    + intros e He. destruct (Hes e He) as [Hin' <-]. by apply of_pod_mine, Hm.
  - done.
Qed.

(** *** The others *)

Lemma misses_set_ne k k' n i r : k <> k' -> misses_of (set_inUse k' i (set_misses k' n r)) k = misses_of r k.
Proof. intros Hne. unfold misses_of. cbn. by rewrite lookup_insert_ne. Qed.

Lemma finishes_other_pod v entries r w :
  v <> uid -> locks w = ∅ -> (forall e, e ∈ entries -> of_pod v e) ->
  finishes (destroyPod ord v entries claims r) (fun r' w' => spared uid w w' /\
    forall k, k <> PodKey v -> misses_of r' k = misses_of r k) w.
Proof.
  intros Hne Hl Hm. unfold destroyPod. cbv zeta. apply finishes_bind.
  eapply finishes_mono; [|apply (finishes_for_all (@perform) t c _ _ _ (fun _ w' => spared uid w w') (fun _ _ => True) (fun _ _ => True))].
  - intros st w1 [Hs _]. apply finishes_ret. split; [done|]. intros k Hk.
    destruct st.1; rewrite ?misses_forget by done; apply misses_count_blocked.
  - done.
  - intros st [card es] w1 Hin Hs1. apply finishes_bind. cbn [fst snd]. rewrite Hord in Hin. apply elem_of_map_to_list in Hin.
    eapply finishes_mono; [|apply (finishes_other_card uid v card es w1)].
    + intros res w2 H2. apply finishes_ret. split; [by trans w1|done].
    + by rewrite (shrinks_locks _ _ (proj1 Hs1)), Hl, lookup_empty.
    + rewrite list.Forall_forall. intros e He. destruct (group_by_spec _ _ _ _ _ Hin He) as [Hf _].
      apply list_elem_of_filter in Hf as [_ Hf]. rewrite (of_pod_head v e (Hm e Hf)). congruence.
  - done.
Qed.

(** A part of the pass that leaves the Pod and its counter alone. *)
Definition aside (w : world) (st st' : reclaimer * gset missKey) (w' : world) : Prop :=
  spared uid w w' /\ misses_of st'.1 (PodKey uid) = misses_of st.1 (PodKey uid) /\ st.2 ⊆ st'.2.

Lemma aside_trans w st w1 st1 st2 w2 : aside w st st1 w1 -> aside w1 st1 st2 w2 -> aside w st st2 w2.
Proof. intros (H1 & H2 & H3) (H4 & H5 & H6). split; [by trans w1|]. split; [congruence|by trans st1.2]. Qed.

Lemma aside_refl w st r' T : misses_of r' (PodKey uid) = misses_of st.1 (PodKey uid) -> st.2 ⊆ T -> aside w st (r', T) w.
Proof. by intros. Qed.

Lemma finishes_aside_loop {X} (l : list X) (body : reclaimer * gset missKey -> X -> prog (reclaimer * gset missKey)) st w :
  locks w = ∅ -> (forall st x w, x ∈ l -> locks w = ∅ -> finishes (body st x) (aside w st) w) ->
  finishes (for_all l st body) (aside w st) w.
Proof.
  intros Hl Hb. eapply finishes_mono; [|apply (finishes_for_all (@perform) t c l st body (aside w st) (fun _ _ => True) (fun _ _ => True))].
  - by intros st' w' [? _].
  - done.
  - intros st1 x w1 Hx Ha. eapply finishes_mono; [|apply Hb; [done|]].
    + intros st2 w2 H2. split; [by eapply aside_trans|done].
    + by rewrite (shrinks_locks _ _ (proj1 (proj1 Ha))).
  - by apply aside_refl.
Qed.

Lemma finishes_other_decision live st v entries w :
  v <> uid -> locks w = ∅ -> (forall e, e ∈ entries -> of_pod v e) ->
  finishes (decide_pod ord live claims st (v, entries)) (aside w st) w.
Proof.
  intros Hne Hl Hm. unfold decide_pod. assert (PodKey uid <> PodKey v) as Hk by congruence.
  case_bool_decide; [apply finishes_ret, aside_refl; [|set_solver]; by apply misses_set_ne|].
  destruct (_ <? _); [apply finishes_ret, aside_refl; [by rewrite misses_set, decide_False|set_solver]|].
  apply finishes_bind. eapply finishes_mono; [|by apply finishes_other_pod]. intros r' w1 [Hs Hr]. apply finishes_ret.
  split; [done|]. cbn. split; [|set_solver]. rewrite Hr by done. by rewrite misses_set, decide_False.
Qed.

Lemma finishes_prune live corrupt st w :
  locks w = ∅ -> (forall p, p ∈ corrupt -> head p <> Some uid) ->
  finishes (pruneCorruptMarkers corrupt live st) (aside w st) w.
Proof.
  intros Hl Hp. apply finishes_aside_loop; [done|]. intros st1 p w1 Hin _. unfold prune_corrupt.
  destruct (podUIDFromMarkerPath p) as [v|].
  2: { apply finishes_ret, aside_refl; [by rewrite misses_set, decide_False|set_solver]. }
  case_bool_decide.
  { apply finishes_ret, aside_refl; [|set_solver]. rewrite misses_set, decide_False by done. cbn [fst].
    by rewrite misses_set, decide_False. }
  destruct (_ <? _); [apply finishes_ret, aside_refl; [by rewrite misses_set, decide_False|set_solver]|].
  apply finishes_bind. eapply finishes_mono; [|apply (finishes_sparing uid), quiet_removeMarker; by apply Hp].
  intros ok w2 Hs. apply finishes_ret. split; [done|]. cbn. split; [|set_solver]. destruct ok.
  - unfold misses_of. cbn. by rewrite lookup_delete_ne, lookup_insert_ne.
  - by rewrite misses_set, decide_False.
Qed.

Lemma finishes_orphans card orphans r w :
  locks w = ∅ -> finishes (destroyOrphans card orphans r) (fun r' w' => spared uid w w' /\
    misses_of r' (PodKey uid) = misses_of r (PodKey uid)) w.
Proof.
  intros Hl. unfold destroyOrphans. apply finishes_lock; [by rewrite Hl, lookup_empty|].
  apply finishes_bind. eapply finishes_mono; [|apply (finishes_sparing uid), sparing_harmless, quiet_scan]. intros s w1 H1.
  apply finishes_bind.
  apply (finishes_mono _ (fun r' w' => spared uid w1 w' /\ misses_of r' (PodKey uid) = misses_of r (PodKey uid))).
  { intros r' w2 [H2 Hr]. destruct (transitivity H1 H2) as [Hs Hsp].
    apply (finishes_unlock _ _ _ _ (locks w)); [apply (shrinks_locks _ _ Hs)|by rewrite Hl, lookup_empty|].
    apply finishes_ret. split; [|done]. split; [by apply (shrinks_unlocked card)|exact Hsp]. }
  destruct (_ || _); [by apply finishes_ret|]. apply finishes_bind. eapply finishes_mono; [|apply (finishes_sparing uid)].
  - intros st w2 H2. apply finishes_ret. split; [done|]. destruct st.1; rewrite ?misses_forget by done; apply misses_count_blocked.
  - apply quiet_for_all. intros st inst. apply quiet_bind; [apply quiet_bind; [by apply quiet_call|done]|].
    intros [b|]; [done|]. apply quiet_bind; [by apply quiet_call|done].
Qed.

Lemma finishes_decide_card liveOnCard corrupt st ce w :
  locks w = ∅ -> finishes (decide_card liveOnCard corrupt st ce) (aside w st) w.
Proof.
  intros Hl. destruct ce as [card orphans]. unfold decide_card.
  destruct (_ || _); [apply finishes_ret, aside_refl; [by apply misses_set_ne|set_solver]|].
  destruct (_ <? _); [apply finishes_ret, aside_refl; [by rewrite misses_set, decide_False|set_solver]|].
  apply finishes_bind. eapply finishes_mono; [|by apply finishes_orphans]. intros r' w1 [Hs Hr]. apply finishes_ret.
  split; [done|]. cbn. split; [|set_solver]. rewrite Hr. by rewrite misses_set, decide_False.
Qed.

(** *** The pass *)

Lemma finishes_app {X S} (l1 l2 : list X) (s : S) (body : S -> X -> prog S) Q w :
  finishes (for_all l1 s body) (fun s' => finishes (for_all l2 s' body) Q) w -> finishes (for_all (l1 ++ l2) s body) Q w.
Proof.
  revert s w. induction l1 as [|x l1 IH]; intros s w; cbn [for_all app].
  { intros (s' & w' & Hr & Hf). cbn in Hr. by simplify_eq. }
  intros (s' & w' & Hr & Hf). rewrite run_bind in Hr. apply finishes_bind.
  destruct (run (body s x) w) as [[s1 w1]|] eqn:H1; [|done]. exists s1, w1. split; [done|]. apply IH. by exists s', w'.
Qed.

(** What a pass that misses the Pod with a count of [n] so far does. *)
Definition counted (n : Z) (w w' : world) (r' : reclaimer) (entries : list markerEntry) : Prop :=
  shrinks w w' /\ 0 <= misses_of r' (PodKey uid) <= n + 1 /\
  (reclaimMaxMisses <= n + 1 -> forall e, e ∈ entries -> settled_entry e w') /\
  (n + 1 < reclaimMaxMisses -> spares uid w w' /\ misses_of r' (PodKey uid) = n + 1).

Lemma finishes_decision live st entries w :
  uid ∉ live -> 0 <= misses_of st.1 (PodKey uid) < 2 ^ 62 -> shrinks w0 w -> locks w = ∅ ->
  (forall e, e ∈ entries -> of_pod uid e) ->
  finishes (decide_pod ord live claims st (uid, entries)) (fun st' w' =>
    counted (misses_of st.1 (PodKey uid)) w w' st'.1 entries /\ PodKey uid ∈ st'.2) w.
Proof.
  intros Hlive Hn Hs Hl Hm. unfold decide_pod. rewrite bool_decide_false by done. rewrite misses_set, decide_True by done.
  set (n := misses_of st.1 (PodKey uid)) in *. rewrite i64_small by (unfold is_i64; lia).
  destruct (Z.ltb_spec (n + 1) reclaimMaxMisses) as [Hlt|Hge].
  - apply finishes_ret. split; [|set_solver].
    assert (misses_of (set_misses (PodKey uid) (n + 1) st.1) (PodKey uid) = n + 1) as Hn1 by (by rewrite misses_set, decide_True).
    split; [done|]. cbn. split; [lia|]. split; [lia|]. by intros _.
  - apply finishes_bind. eapply finishes_mono; [|by apply finishes_pod]. intros r' w1 (Hs1 & Hset & Hr'). apply finishes_ret.
    split; [|set_solver]. split; [done|]. cbn. rewrite misses_set, decide_True in Hr' by done. split; [lia|]. split; [done|lia].
Qed.

Lemma finishes_decisions live st l w :
  NoDup l.*1 -> (forall v es e, (v, es) ∈ l -> e ∈ es -> of_pod v e) -> uid ∉ live ->
  0 <= misses_of st.1 (PodKey uid) < 2 ^ 62 -> shrinks w0 w -> locks w = ∅ ->
  finishes (for_all l st (decide_pod ord live claims)) (fun st' w' => locks w' = ∅ /\
    match list_find (fun ve => ve.1 = uid) l with
    | Some (_, ve) => counted (misses_of st.1 (PodKey uid)) w w' st'.1 ve.2 /\ PodKey uid ∈ st'.2
    | None => spared uid w w' /\ misses_of st'.1 (PodKey uid) = misses_of st.1 (PodKey uid)
    end) w.
Proof.
  intros Hnd Hm Hlive Hn Hs Hl.
  assert (forall l' st w, l' ⊆ l -> uid ∉ l'.*1 -> locks w = ∅ ->
    finishes (for_all l' st (decide_pod ord live claims)) (aside w st) w) as Hother.
  { intros l' st1 w1 Hsub Hni Hl1. apply finishes_aside_loop; [done|]. intros st2 [v es] w2 Hin Hl2.
    apply finishes_other_decision; [|done|intros e; by apply Hm, Hsub]. intros ->. apply Hni.
    by apply (list_elem_of_fmap_2 fst) in Hin. }
  destruct (list_find _ l) as [[i [v es]]|] eqn:Hf.
  2: { eapply finishes_mono; [|apply (Hother l); [done| |done]].
       - intros st' w' (Hsp & Hm' & _). split; [by rewrite (shrinks_locks _ _ (proj1 Hsp))|done].
       - intros (ve & Hu & Hin)%list_elem_of_fmap. apply list_find_None in Hf. rewrite list.Forall_forall in Hf. by apply (Hf ve Hin). }
  apply list_find_Some in Hf as (Hi & Hu & _). cbn in Hu. subst v. cbn [snd].
  pose proof (take_drop_middle l i _ Hi) as Hsplit. set (l1 := take i l) in *. set (l2 := drop (S i) l) in *.
  rewrite <- Hsplit in Hnd. rewrite fmap_app in Hnd. cbn in Hnd. apply NoDup_app in Hnd as (_ & Hd & [Hn2 _]%NoDup_cons).
  assert (uid ∉ l1.*1) as Hn1 by (intros Hin; apply (Hd uid Hin); by left).
  rewrite <- Hsplit. apply finishes_app. eapply finishes_mono; [|apply (Hother l1); [|done|done]].
  2: { rewrite <- Hsplit. set_solver. }
  intros st1 w1 ([Hs1 Hsp1] & Hn1' & _). cbn [for_all]. apply finishes_bind.
  assert (locks w1 = ∅) as Hl1 by (by rewrite (shrinks_locks _ _ Hs1)).
  eapply finishes_mono; [|apply finishes_decision; [done|by rewrite Hn1'|by trans w|done|]].
  2: { intros e. apply Hm. by eapply list_elem_of_lookup_2. }
  intros st2 w2 [(Hs2 & Hb2 & Hset & Hcnt) Ht2].
  assert (locks w2 = ∅) as Hl2 by (by rewrite (shrinks_locks _ _ Hs2)).
  eapply finishes_mono; [|apply (Hother l2); [|done|done]].
  2: { rewrite <- Hsplit. set_solver. }
  intros st3 w3 ([Hs3 Hsp3] & Hn3 & Ht3). rewrite Hn1' in *.
  split; [by rewrite (shrinks_locks _ _ Hs3)|]. split; [|set_solver]. split; [by trans w1; [|trans w2]|].
  split; [by rewrite Hn3|]. split.
  - intros Hge e He. eapply cleared_shrinks; [exact Hs3|by apply Hset].
  - intros Hlt. destruct (Hcnt Hlt) as [Hsp2 Hm2]. split; [|congruence]. intros p Hp. by rewrite Hsp3, Hsp2, Hsp1.
Qed.

Lemma misses_prune st k : k ∈ st.2 -> misses_of (prune_counters st) k = misses_of st.1 k.
Proof.
  intros Hk. unfold misses_of, prune_counters. cbn. f_equal. apply option_eq. intros n. rewrite map_lookup_filter_Some.
  split; [by intros [? _]|by intros].
Qed.

(** The rest of a pass. *)
Lemma finishes_rest live liveOnCard corrupt (orphans : list (string * list (string * migInstance))) st w :
  locks w = ∅ -> (forall p, p ∈ corrupt -> head p <> Some uid) ->
  finishes (let! st := pruneCorruptMarkers corrupt live st in
            let! st := for_all orphans st (decide_card liveOnCard corrupt) in Ret (prune_counters st))
    (fun r' w' => spared uid w w' /\ (PodKey uid ∈ st.2 -> misses_of r' (PodKey uid) = misses_of st.1 (PodKey uid)) /\
       (misses_of r' (PodKey uid) = 0 \/ misses_of r' (PodKey uid) = misses_of st.1 (PodKey uid))) w.
Proof.
  intros Hl Hp. apply finishes_bind. eapply finishes_mono; [|by apply finishes_prune]. intros st2 w2 H2.
  assert (locks w2 = ∅) as Hl2 by (by rewrite (shrinks_locks _ _ (proj1 (proj1 H2)))).
  apply finishes_bind. eapply finishes_mono; [|apply finishes_aside_loop; [exact Hl2|intros st3 ce w3 _; apply finishes_decide_card]].
  intros st3 w3 H3. destruct (aside_trans _ _ _ _ _ _ H2 H3) as (Hs & Hm & Ht). apply finishes_ret. split; [done|].
  split; [intros Hin; rewrite misses_prune by set_solver; done|]. rewrite <- Hm.
  destruct (decide (PodKey uid ∈ st3.2)) as [Hin|Hn]; [right; by apply misses_prune|left]. unfold misses_of, prune_counters. cbn.
  rewrite map_lookup_filter_None_2; [done|]. right. by intros n _ ?.
Qed.

(** One pass that misses the Pod. *)
Lemma finishes_pass r live :
  locks w0 = ∅ -> uid ∉ live -> 0 <= misses_of r (PodKey uid) < 2 ^ 62 ->
  finishes (reconcile ord r live) (fun r' w' => shrinks w0 w' /\
    0 <= misses_of r' (PodKey uid) <= misses_of r (PodKey uid) + 1 /\
    (reclaimMaxMisses <= misses_of r (PodKey uid) + 1 -> forall e, of_pod uid e -> settled_entry e w') /\
    (misses_of r (PodKey uid) + 1 < reclaimMaxMisses -> spares uid w0 w' /\
       ((exists e, of_pod uid e) -> misses_of r' (PodKey uid) = misses_of r (PodKey uid) + 1))) w0.
Proof.
  intros Hl Hlive Hn. unfold reconcile. apply finishes_bind. destruct (run_scan w0 Htidy) as (s & Hs & [He Hc]).
  exists s, w0. split; [exact Hs|]. apply finishes_bind.
  apply (finishes_call (@perform) t c _ _ _ (Some claims) w0); [cbn; by rewrite Hclaims|].
  apply finishes_bind. eapply (finishes_call (@perform) t c _ _ _ _ w0); [cbn; unfold answering; by rewrite Hdriver|].
  cbv beta iota zeta. set (byPod := group_by _ s.1). set (l := ord _ (map_to_list byPod)).
  assert (forall v es, (v, es) ∈ l <-> byPod !! v = Some es) as Hlk by (intros; unfold l; rewrite Hord; apply elem_of_map_to_list).
  assert (forall e, of_pod uid e -> exists es, byPod !! uid = Some es /\ e ∈ es) as Hmine.
  { intros e Ho. pose proof (proj2 Ho) as Hu. rewrite <- Hu.
    apply (group_by_complete (fun e => MPodUID (EntryMarker e))), He, parsed_Some.
    destruct (of_pod_mine e Ho) as (h & Hp & Hh & Hf). split; [done|]. rewrite Hp in *.
    destruct (reclaimable_mine _ Hreclaimable h _ _ Hh Hf) as (m & [= ->] & Hmc & _). done. }
  apply finishes_bind. eapply finishes_mono; [|apply (finishes_decisions (list_to_set live) (r, ∅) l w0)].
  - intros st w1 [Hl1 Hd]. eapply finishes_mono; [|apply finishes_rest; [done|]].
    + intros r' w2 ([Hs2 Hsp2] & Hm2 & Hb2). destruct (list_find _ l) as [[i [v es]]|] eqn:Hf; cbn [snd fst] in Hd.
      * apply list_find_Some in Hf as (Hi & Hu & _). cbn in Hu. subst v. apply list_elem_of_lookup_2, Hlk in Hi.
        destruct Hd as [(Hs1 & Hb1 & Hset & Hcnt) Ht]. cbn in Hb1. split; [by trans w1|]. split; [lia|]. split.
        -- intros Hge e Ho. destruct (Hmine e Ho) as (es' & Hes & Hin). assert (es' = es) as -> by congruence.
           eapply cleared_shrinks; [exact Hs2|by apply Hset].
        -- intros Hlt. destruct (Hcnt Hlt) as [Hsp1 Hm1]. split; [intros p Hp; by rewrite Hsp2, Hsp1|].
           intros _. by rewrite Hm2.
      * assert (forall e, ~ of_pod uid e) as Hno.
        { intros e (es & Hes%Hlk & _)%Hmine. apply list_find_None in Hf. rewrite list.Forall_forall in Hf. by apply (Hf _ Hes). }
        destruct Hd as [Hd Hm1]. cbn in Hm1. destruct (transitivity Hd (conj Hs2 Hsp2 : spared uid w1 w2)) as [Hs12 Hsp12].
        split; [done|]. split; [lia|]. split.
        -- intros _ e Ho. by destruct (Hno e).
        -- intros _. split; [done|]. intros [e Ho]. by destruct (Hno e).
    + intros p [[f Hf] Hnone]%Hc Hh. destruct (tidy_paths _ Htidy p f Hf) as (h & card & -> & _).
      unfold markerPath in Hh. cbn in Hh. injection Hh as Hu.
      destruct (reclaimable_mine _ Hreclaimable h card f Hu Hf) as (m & -> & Hmc & _).
      assert (parsed w0 (mp h card) = Some m) by (by apply parsed_Some). congruence.
  - unfold l. rewrite Hord. apply NoDup_fst_map_to_list.
  - intros v es e Hin%Hlk Hes. destruct (group_by_spec _ _ _ _ _ Hin Hes) as [Hs1 Hv]. split; [|done].
    by apply He, parsed_Some in Hs1 as [? _].
  - by rewrite not_elem_of_list_to_set.
  - done.
  - done.
  - done.
Qed.
End Pod.

(** ** Three passes *)

Lemma spares_of_pod uid w w' e :
  tidy w -> spares uid w w' -> of_pod w uid e -> of_pod w' uid e.
Proof.
  intros Ht Hs Ho. pose proof (of_pod_head w Ht uid e Ho) as Hh. destruct Ho as [Hf Hu]. split; [|done]. by rewrite Hs.
Qed.

(** The markers of a Pod, and the partitions they named, are gone. *)
Definition taken_back (uid : string) (w w' : world) : Prop :=
  (forall h card, h.1 = uid -> files w' !! mp h card = None) /\
  (forall h card m, h.1 = uid -> files w !! mp h card = Some (Intact m) -> MGiID m ∉ Gi <$> instances_on card w').

Lemma settled_taken_back claims uid w w1 w' :
  tidy w -> reclaimable claims uid w -> shrinks w w1 -> spares uid w w1 -> shrinks w1 w' ->
  (forall e, of_pod w1 uid e -> settled_entry e w') -> taken_back uid w w'.
Proof.
  intros Ht Hr Hs1 Hsp Hs Hall.
  assert (forall h card m, h.1 = uid -> files w !! mp h card = Some (Intact m) ->
    files w' !! mp h card = None /\ MGiID m ∉ Gi <$> instances_on card w') as Hone.
  { intros h card m Hu Hf. destruct (tidy_paths _ Ht _ _ Hf) as (h' & card' & [<- <-]%mp_eq & _ & Hmu & Hmc). cbn in Hmu, Hmc.
    destruct (Hall {| EntryPath := mp h card; EntryMarker := m |}) as [H1 H2].
    - split; [|cbn; congruence]. cbn. rewrite Hsp; [done|]. unfold markerPath. cbn. congruence.
    - cbn in H1, H2. rewrite Hmc in H2. by split. }
  split; [|intros h card m Hu Hf; by apply (Hone h card m)].
  intros h card Hu. destruct (files w' !! mp h card) as [f|] eqn:Hf'; [|done].
  assert (files w !! mp h card = Some f) as Hf.
  { eapply lookup_weaken; [exact Hf'|]. trans (files w1); [apply Hs|apply Hs1]. }
  destruct (reclaimable_mine _ _ _ Hr h card f Hu Hf) as (m & -> & _). destruct (Hone h card m Hu Hf) as [Hn _]. congruence.
Qed.

(** What a list of ticks tells about a Pod: it is on none of the lists. *)
Definition omits (uid : string) (e : tick) : Prop := match e with Broadcast live => uid ∉ live | Resync => True end.

Lemma tick_omits uid lastLive e :
  uid ∉ lastLive -> omits uid e -> exists live, reclaim_tick (Some lastLive) e = (Some live, Some live) /\ uid ∉ live.
Proof. intros Hl He. destruct e as [live|]; eexists; by split. Qed.

Section Ticks.
Context (claims : gmap string (list AcceleratorPlacement)) (Hclaims : claimed c = Some claims) (uid : string).
Context (ord : forall A : Type, list A -> list A) (Hord : forall A (l : list A), ord A l ≡ₚ l).
Context (w : world) (Htidy : tidy w) (Hreclaimable : reclaimable claims uid w) (Hlocks : locks w = ∅).

(** After [k] passes: what the Pod left is gone, or its markers are there and were
    missed [k] times. *)
Definition progress (k : Z) (r : reclaimer) (w' : world) : Prop :=
  shrinks w w' /\ 0 <= misses_of r (PodKey uid) < 2 ^ 61 + k /\
  (taken_back uid w w' \/
   (spares uid w w' /\ ((exists e, of_pod w uid e) -> k <= misses_of r (PodKey uid) /\ (0 < k -> misses_of r (PodKey uid) < reclaimMaxMisses)))).

Lemma taken_back_shrinks w1 w2 : shrinks w1 w2 -> taken_back uid w w1 -> taken_back uid w w2.
Proof.
  intros Hs [H1 H2]. split.
  - intros h card Hu. destruct (files w2 !! mp h card) eqn:E; [|done].
    specialize (H1 h card Hu). by rewrite (lookup_weaken _ _ _ _ E (shrinks_files _ _ Hs)) in H1.
  - intros h card m Hu Hf Hin. apply (H2 h card m Hu Hf). eapply elem_of_sublist; [exact Hin|]. apply fmap_sublist, Hs.
Qed.

Lemma progress_pass k r live w1 :
  0 <= k < 1000 -> progress k r w1 -> uid ∉ live -> finishes (reconcile ord r live) (progress (k + 1)) w1.
Proof.
  intros Hk (Hs1 & Hb & Hor) Hlive. pose proof (shrinks_tidy _ _ Hs1 Htidy) as Ht1.
  pose proof (reclaimable_shrinks _ _ _ _ Hs1 Hreclaimable) as Hr1.
  eapply finishes_mono; [|apply (finishes_pass claims Hclaims uid w1 Ht1 Hr1 ord Hord r live); [|done|lia]].
  2: { by rewrite (shrinks_locks _ _ Hs1). }
  intros r' w2 (Hs2 & Hb2 & Hset & Hcnt). split; [by trans w1|]. split; [lia|].
  destruct Hor as [Hgone|[Hsp Hk1]]; [left; by eapply taken_back_shrinks|].
  destruct (Z.le_gt_cases reclaimMaxMisses (misses_of r (PodKey uid) + 1)) as [Hge|Hlt].
  - left. apply (settled_taken_back claims uid w w1 w2); auto.
  - right. destruct (Hcnt Hlt) as [Hsp2 Hm2]. split; [intros p Hp; by rewrite Hsp2, Hsp|]. intros [e He].
    rewrite Hm2; [destruct (Hk1 (ex_intro _ e He)); lia|]. exists e. by apply (spares_of_pod uid w w1).
Qed.

Lemma progress_done r w' : progress reclaimMaxMisses r w' -> taken_back uid w w'.
Proof.
  intros (Hs & _ & [Hg|[Hsp Hk]]); [done|]. apply (settled_taken_back claims uid w w' w'); [done|done|done|done|done|].
  intros e He. exfalso. assert (of_pod w uid e) as Ho.
  { destruct He as [Hf Hu]. split; [|done]. eapply lookup_weaken; [exact Hf|apply Hs]. }
  destruct (Hk (ex_intro _ e Ho)) as [H1 H2]. assert (0 < reclaimMaxMisses) as Hpos by done. specialize (H2 Hpos). lia.
Qed.

Lemma progress_tick k r lastLive e ticks w1 :
  0 <= k < 1000 -> progress k r w1 -> uid ∉ lastLive -> omits uid e ->
  (forall r' lastLive' w2, progress (k + 1) r' w2 -> uid ∉ lastLive' ->
     finishes (reclaimLoop ord (Some lastLive') r' ticks) (fun _ => taken_back uid w) w2) ->
  finishes (reclaimLoop ord (Some lastLive) r (e :: ticks)) (fun _ => taken_back uid w) w1.
Proof.
  intros Hk Hp Hl He Hrest. destruct (tick_omits uid lastLive e Hl He) as (live & Ht & Hlive). cbn [reclaimLoop]. rewrite Ht.
  apply finishes_bind. eapply finishes_mono; [|by apply (progress_pass k)]. intros r' w2 H2. by apply Hrest.
Qed.
End Ticks.
End Alone.

(** C7: what a Pod leaves behind is taken back.  When nothing holds back the
    partitions of a Pod that is on no list any more, three ticks of the reclaim
    loop, of either kind, come to their end, whatever else the passes have to do,
    and then the Pod's markers are removed and the partitions they named are
    destroyed. *)
Theorem dead_pod_reclaimed ord t c claims uid w r lastLive e1 e2 e3 :
  failing c = false -> stuck c = false -> driver c = None -> claimed c = Some claims ->
  (forall A (l : list A), ord A l ≡ₚ l) ->
  tidy w -> locks w = ∅ -> reclaimable claims uid w -> 0 <= misses_of r (PodKey uid) < 2 ^ 61 ->
  uid ∉ lastLive -> omits uid e1 -> omits uid e2 -> omits uid e3 ->
  exists r' w', Programs.run (@perform) t c (reclaimLoop ord (Some lastLive) r [e1; e2; e3]) w = Some (r', w') /\ taken_back uid w w'.
Proof.
  intros Hread Hremove Hdriver Hclaims Hord Htidy Hl Hr Hm Hlast H1 H2 H3.
  assert (progress uid w 0 r w) as Hp0.
  { split; [done|]. split; [lia|]. right. split; [done|]. intros _. split; [lia|lia]. }
  change (finishes (@perform) t c (reclaimLoop ord (Some lastLive) r [e1; e2; e3]) (fun _ => taken_back uid w) w).
  apply (progress_tick t c Hread Hremove Hdriver claims Hclaims uid ord Hord w Htidy Hr Hl 0); [lia|done|done|done|]. intros r1 l1 w1 Hp1 Hl1.
  apply (progress_tick t c Hread Hremove Hdriver claims Hclaims uid ord Hord w Htidy Hr Hl 1); [lia|done|done|done|]. intros r2 l2 w2 Hp2 Hl2.
  apply (progress_tick t c Hread Hremove Hdriver claims Hclaims uid ord Hord w Htidy Hr Hl 2); [lia|done|done|done|]. intros r3 l3 w3 Hp3 Hl3.
  apply finishes_ret. by eapply progress_done.
Qed.

Module LeftoverExample.
Import PartitionExample.

(** The first Pod is gone and left its partition. *)
Definition marker : migMarker := marker_of "p1" "main" "GPU-9" "1g.10gb" partition.
Definition left_over : world := {|
  files := {[mp first "GPU-9" := Intact marker]};
  hardware := {["GPU-9" := [{| Gi := 7; Slices := 1; Where := slot 0; MigDevice := "MIG-GPU-9-7"; Procs := 0 |}]]};
  locks := ∅; sweep := newReclaimer; sweeping := false; dirMisses := ∅; collecting := false; lastLive := None;
  pods := {["p1" := false; "p2" := true]}; active := ∅; granted := ∅ |}.

Lemma left_over_tidy : tidy left_over.
Proof.
  constructor.
  - cbn. intros p f [<- <-]%lookup_singleton_Some. by exists first, "GPU-9".
  - intros card. unfold instances_on. cbn. destruct (decide (card = "GPU-9")) as [->|Hne].
    + rewrite lookup_singleton_eq. apply NoDup_singleton.
    + rewrite lookup_singleton_ne by done. constructor.
Qed.

Lemma left_over_reclaimable : reclaimable ∅ "p1" left_over.
Proof.
  constructor.
  - cbn [files left_over]. intros h card f Hu [[<- <-]%mp_eq <-]%lookup_singleton_Some. exists marker. split_and!; [done|reflexivity|done|].
    unfold instances_on. cbn. rewrite lookup_singleton_eq. cbn. intros g Hg%list_elem_of_singleton _. subst g. by split.
  - cbn [files left_over]. intros h card f h' f' Hu _ Hne [[<- _]%mp_eq _]%lookup_singleton_Some. done.
Qed.
End LeftoverExample.

Lemma dead_pod_reclaimed_witness :
  exists r' w', Programs.run (@perform) 0%nat (PartitionExample.answers true true)
    (reclaimLoop PartitionExample.id_order (Some ["p2"]) newReclaimer [Broadcast ["p2"]; Resync; Resync]) LeftoverExample.left_over
    = Some (r', w') /\ taken_back "p1" LeftoverExample.left_over w'.
Proof.
  apply (dead_pod_reclaimed PartitionExample.id_order 0%nat (PartitionExample.answers true true) ∅ "p1" LeftoverExample.left_over
    newReclaimer ["p2"] (Broadcast ["p2"]) Resync Resync); try done.
  - exact LeftoverExample.left_over_tidy.
  - exact LeftoverExample.left_over_reclaimable.
  - set_solver.
  - cbn. set_solver.
Defined.
