(* ===== verification/AdmitDemand.v ===== *)
(** * Device admission: what a Workload asks for

    The first half of src/pkg/worker/controllers/worker/node_devices_admission.go:
    the demands a Workload places on accelerators, read off its pod templates and
    the assignment Kueue wrote, and the classification of resource names they rest
    on (src/pkg/nodefeature).  The theorems show that the order in which a resource
    map is walked never shows in a demand, and what a card count that leaves the
    [int32] does. *)

From stdpp Require Import prelude gmap strings list sorting.
From Stdlib Require Import Ascii.
From S2P Require Import Prelude Device PluginRecords.

(** ** Resource families *)

Inductive ResourceFamily :=
  | ResourceFamilyNone | ResourceFamilyExclusive | ResourceFamilyShared | ResourceFamilySliced
  | ResourceFamilyPartitioned | ResourceFamilyVisibility.

Definition family_string (f : ResourceFamily) : string :=
  match f with
  | ResourceFamilyNone => "none"
  | ResourceFamilyExclusive => "exclusive"
  | ResourceFamilyShared => "shared"
  | ResourceFamilySliced => "sliced"
  | ResourceFamilyPartitioned => "partitioned"
  | ResourceFamilyVisibility => "visibility"
  end.
#[export] Instance family_string_inj : Inj (=) (=) family_string.
Proof. by intros [] []. Qed.
#[export] Instance ResourceFamily_eq_dec : EqDecision ResourceFamily.
Proof. solve_decision. Defined.
#[export] Instance ResourceFamily_countable : Countable ResourceFamily.
Proof.
  apply (inj_countable'
    (fun f => match f with
       | ResourceFamilyNone => 0%nat | ResourceFamilyExclusive => 1%nat | ResourceFamilyShared => 2%nat
       | ResourceFamilySliced => 3%nat | ResourceFamilyPartitioned => 4%nat | ResourceFamilyVisibility => 5%nat end)
    (fun n => match n with
       | 1%nat => ResourceFamilyExclusive | 2%nat => ResourceFamilyShared | 3%nat => ResourceFamilySliced
       | 4%nat => ResourceFamilyPartitioned | 5%nat => ResourceFamilyVisibility | _ => ResourceFamilyNone end)).
  by intros [].
Defined.

(** [strings.CutSuffix] and [strings.HasSuffix]. *)
Definition cut_suffix (suffix s : string) : option string :=
  let n := (String.length s - String.length suffix)%nat in
  if Nat.leb (String.length suffix) (String.length s) &&
     bool_decide (String.substring n (String.length suffix) s = suffix)
  then Some (String.substring 0 n s) else None.
Definition has_suffix (suffix s : string) : bool := bool_decide (is_Some (cut_suffix suffix s)).

(** The part before and after the first separator, [strings.Cut]. *)
Fixpoint cut_at (sep : ascii) (s : string) : option (string * string) :=
  match s with
  | EmptyString => None
  | String c s' =>
      if Ascii.eqb c sep then Some ("", s')
      else (fun '(a, b) => (String c a, b)) <$> cut_at sep s'
  end.

Definition SharedResourceNameSuffix : string := ".shared".
Definition SlicedResourceNameSuffix : string := ".sliced".
Definition SlicedUnitsResourceNameSuffix : string := ".sliced.units".
Definition PartitionedResourceNameSuffix : string := ".partitioned".
Definition PartitionedUnitsResourceNameSuffix : string := ".partitioned.units".

Definition ResourceFamilyFixedSuffixes : list (string * ResourceFamily) := [
  (".sliced.memory-percentage", ResourceFamilySliced);
  (".sliced.cores-percentage", ResourceFamilySliced);
  (".sliced.memory-mib", ResourceFamilySliced);
  (PartitionedUnitsResourceNameSuffix, ResourceFamilyPartitioned);
  (SlicedUnitsResourceNameSuffix, ResourceFamilySliced);
  (PartitionedResourceNameSuffix, ResourceFamilyPartitioned);
  (SlicedResourceNameSuffix, ResourceFamilySliced);
  (SharedResourceNameSuffix, ResourceFamilyShared)].

Section Families.
Context `{Tables : NameTables}.

(** [_AcceleratableResourceNameSet]. *)
Definition AcceleratableResourceNames : list string := (map_to_list ResourceNames).*2.

Definition IsKnownAcceleratableManufacturer (manufacturer : string) : bool :=
  negb (bool_decide (default_string (ResourceNames !! manufacturer) = "")).

Definition PartitionedProfileOf (name : string) : option string := snd <$> partitionedProfileOf name.

Definition fixed_suffix_family (name : string) : option ResourceFamily :=
  first_of (fun '(suffix, family) =>
    match cut_suffix suffix name with
    | Some base => if bool_decide (base ∈ AcceleratableResourceNames) then Some family else None
    | None => None
    end) ResourceFamilyFixedSuffixes.

Definition ResourceFamilyOf (name : string) : ResourceFamily :=
  match cut_prefix "device.gpustack.ai/" name with
  | Some manufacturer =>
      match cut_suffix ".visibility" manufacturer with
      | Some manufacturer =>
          if IsKnownAcceleratableManufacturer manufacturer then ResourceFamilyVisibility else ResourceFamilyNone
      | None => ResourceFamilyNone
      end
  | None =>
      match PartitionedProfileOf name with
      | Some _ => ResourceFamilyPartitioned
      | None =>
          match fixed_suffix_family name with
          | Some family => family
          | None =>
              if bool_decide (name ∈ AcceleratableResourceNames) then ResourceFamilyExclusive
              else ResourceFamilyNone
          end
      end
  end.

Definition IsAcceleratableCreditsResourceName (name : string) : bool :=
  match cut_prefix "credits.gpustack.ai/" name with
  | Some manufacturer => IsKnownAcceleratableManufacturer manufacturer
  | None => false
  end.

Definition AcceleratableFeatureLabelPrefix : string := "acceleratable.feature.gpustack.ai/".

(** The order of the keys is that of a map walk; callers use a single key only. *)
Definition ExtractAcceleratableKeys (labels : gmap string string) : list string :=
  omap (fun '(k, v) =>
    match cut_prefix AcceleratableFeatureLabelPrefix k with
    | Some key =>
        if bool_decide (v = "true") then
          match cut_at "-"%char key with
          | Some (manufacturer, _) => if IsKnownAcceleratableManufacturer manufacturer then Some key else None
          | None => None
          end
        else None
    | None => None
    end) (map_to_list labels).
End Families.

(** ** Workloads, as Kueue's API has them *)

Record PodSet := {
  PsName : string; PsCount : Z; PsInitContainers : list Container; PsContainers : list Container }.

(** A topology assignment: its levels, and the domains Kueue's iterator yields, each
    the values of its levels and the number of Pods placed there. *)
Record TopologyAssignment := { TaLevels : list string; TaDomains : list (list string * Z) }.

Record PodSetAssignment := {
  PsaName : string; PsaFlavors : gmap string string; PsaTopology : option TopologyAssignment }.

Inductive CheckState := CheckStateReady | CheckStateRetry | CheckStateRejected | CheckStatePending.
#[export] Instance CheckState_eq_dec : EqDecision CheckState.
Proof. solve_decision. Defined.

(** The messages this controller writes, kept as what they say: the state, the
    names each quotes, and whether it ends with the clause about cards promised to
    other Workloads.  Any other text of a check is [OtherText]. *)
Inductive Message :=
  | PoolVerdict (state : CheckState) (roles : list string)
  | NodeVerdict (state : CheckState) (node : string) (roles : list string)
  | PartitionVerdict (state : CheckState) (profile : string) (roles : list string)
  | NoPartitionedCard (profile : string) (roles : list string)
  | PartitionLedgerNotReady (roles : list string)
  | UnassignedFlavor (roles : list string)
  | UnresolvedFlavor (roles : list string)
  | UnresolvedInflight (node : string)
  | WithInflightClause (m : Message)
  | OtherText (text : string).
#[export] Instance Message_eq_dec : EqDecision Message.
Proof. solve_decision. Defined.

Record AdmissionCheckState := {
  AcsName : string; AcsState : CheckState; AcsMessage : Message; AcsRequeueAfterSeconds : option Z }.
#[export] Instance AdmissionCheckState_eq_dec : EqDecision AdmissionCheckState.
Proof. solve_decision. Defined.

(** The five booleans are what [HasQuotaReservation], [IsEvicted], [IsFinished],
    [IsActive] and [IsAdmitted] of Kueue answer for the object. *)
Record Workload := {
  WlNamespace : string; WlName : string; WlUID : string;
  WlPodSets : list PodSet;
  WlAdmission : option (list PodSetAssignment);
  WlChecks : list AdmissionCheckState;
  HasQuotaReservation : bool; IsEvicted : bool; IsFinished : bool; IsActive : bool; IsAdmitted : bool }.

(** What the controller calls of Kueue. *)
Class Kueue := {
  IsLowestLevelHostname : list string -> bool;
  FindAdmissionCheck : list AdmissionCheckState -> string -> option AdmissionCheckState;
  SetAdmissionCheckState : list AdmissionCheckState -> AdmissionCheckState -> list AdmissionCheckState }.

(** ** Demands *)

Record sharedNeed := { need_cards : Z; need_containers : Z }.
#[export] Instance sharedNeed_eq_dec : EqDecision sharedNeed.
Proof. solve_decision. Defined.

Record familyDemand := {
  d_family : ResourceFamily;
  d_cards : Z;
  d_unitsPerCard : Z;
  d_profile : string;
  d_flavor : string;
  d_podSets : list string;
  d_sharedNeeds : list sharedNeed;
  d_node : string }.
#[export] Instance familyDemand_eq_dec : EqDecision familyDemand.
Proof. solve_decision. Defined.

(** [&familyDemand{family: family}]. *)
Definition no_demand (family : ResourceFamily) : familyDemand := {|
  d_family := family; d_cards := 0; d_unitsPerCard := 0; d_profile := ""; d_flavor := "";
  d_podSets := []; d_sharedNeeds := []; d_node := "" |}.

Definition set_cards (cards : Z) (needs : list sharedNeed) (d : familyDemand) : familyDemand := {|
  d_family := d_family d; d_cards := cards; d_unitsPerCard := d_unitsPerCard d; d_profile := d_profile d;
  d_flavor := d_flavor d; d_podSets := d_podSets d; d_sharedNeeds := needs; d_node := d_node d |}.
Definition set_units (units : Z) (d : familyDemand) : familyDemand := {|
  d_family := d_family d; d_cards := d_cards d; d_unitsPerCard := units; d_profile := d_profile d;
  d_flavor := d_flavor d; d_podSets := d_podSets d; d_sharedNeeds := d_sharedNeeds d; d_node := d_node d |}.
Definition set_profile (profile : string) (d : familyDemand) : familyDemand := {|
  d_family := d_family d; d_cards := d_cards d; d_unitsPerCard := d_unitsPerCard d; d_profile := profile;
  d_flavor := d_flavor d; d_podSets := d_podSets d; d_sharedNeeds := d_sharedNeeds d; d_node := d_node d |}.
Definition set_origin (flavor : string) (podSets : list string) (node : string) (d : familyDemand) : familyDemand := {|
  d_family := d_family d; d_cards := d_cards d; d_unitsPerCard := d_unitsPerCard d; d_profile := d_profile d;
  d_flavor := flavor; d_podSets := podSets; d_sharedNeeds := d_sharedNeeds d; d_node := node |}.

Definition clampInt32 (v : Z) : Z := if 2147483647 <? v then 2147483647 else if v <? 0 then 0 else v.

(** The per-count totals, [int64] as the code's. *)
Definition add_needs (times : Z) (byCards : gmap Z Z) (needs : list sharedNeed) : gmap Z Z :=
  foldl (fun m n =>
    <[need_cards n := i64 (default 0 (m !! need_cards n) + i64 (need_containers n * times))]> m) byCards needs.

Definition needs_of (byCards : gmap Z Z) : list sharedNeed :=
  reverse (omap (fun cards =>
    let containers := clampInt32 (default 0 (byCards !! cards)) in
    if 0 <? containers then Some {| need_cards := cards; need_containers := containers |} else None)
    (merge_sort Z.le (map_to_list byCards).*1)).

Definition mergeSharedNeeds (acc add : list sharedNeed) (times : Z) : list sharedNeed :=
  needs_of (add_needs times (add_needs 1 ∅ acc) add).

(** [cmp.Compare] on strings: negative, zero or positive. *)
Definition compare_strings (a b : string) : Z :=
  match String.compare a b with Lt => -1 | Eq => 0 | Gt => 1 end.

Definition CompareTrueFirst (a b : bool) : Z := if Bool.eqb a b then 0 else if a then -1 else 1.

Definition compare_demands (a b : familyDemand) : Z :=
  let c := CompareTrueFirst (bool_decide (d_family a = ResourceFamilyPartitioned))
                            (bool_decide (d_family b = ResourceFamilyPartitioned)) in
  if negb (c =? 0) then c
  else if negb (d_unitsPerCard a =? d_unitsPerCard b) then
    (if d_unitsPerCard b <? d_unitsPerCard a then -1 else 1)
  else let c := compare_strings (family_string (d_family a)) (family_string (d_family b)) in
  if negb (c =? 0) then c else compare_strings (d_node a) (d_node b).

Definition sortDemands (demands : list familyDemand) : list familyDemand :=
  sort_stable (fun a b => compare_demands a b <=? 0) demands.

Definition isCardKey (name : string) (family : ResourceFamily) : bool :=
  match family with
  | ResourceFamilyExclusive => true
  | ResourceFamilyShared => has_suffix SharedResourceNameSuffix name
  | ResourceFamilySliced => has_suffix SlicedResourceNameSuffix name
  | ResourceFamilyPartitioned => has_suffix PartitionedResourceNameSuffix name
  | _ => false
  end.

Definition mergedContainerResources (ctr : Container) : gmap string Z :=
  if bool_decide (Limits ctr = ∅) then Requests ctr else Requests ctr ∪ Limits ctr.

(** One of the four families a card is asked for in. *)
Definition card_family (family : ResourceFamily) : bool :=
  match family with
  | ResourceFamilyExclusive | ResourceFamilyShared | ResourceFamilySliced | ResourceFamilyPartitioned => true
  | _ => false
  end.

Section Demands.
Context `{Tables : NameTables} `{KueueAPI : Kueue}.

(** What one entry of a resource map does to the demand of its family. *)
Definition read_entry (name : string) (qty : Z) (d : familyDemand) : familyDemand :=
  if has_suffix SlicedUnitsResourceNameSuffix name || has_suffix PartitionedUnitsResourceNameSuffix name then
    let u := clampInt32 qty in if d_unitsPerCard d <? u then set_units u d else d
  else if isCardKey name (d_family d) then
    set_cards (i32 (d_cards d + clampInt32 qty))
      (if bool_decide (d_family d = ResourceFamilyShared) && (0 <? qty)
       then mergeSharedNeeds (d_sharedNeeds d) [{| need_cards := clampInt32 qty; need_containers := 1 |}] 1
       else d_sharedNeeds d) d
  else match PartitionedProfileOf name with
       | Some profile =>
           if bool_decide (d_profile d = "") || String.ltb profile (d_profile d) then set_profile profile d else d
       | None => d
       end.

Definition scan_entry (byFamily : gmap ResourceFamily familyDemand) (entry : string * Z)
    : gmap ResourceFamily familyDemand :=
  let '(name, qty) := entry in
  let family := ResourceFamilyOf name in
  if card_family family then
    <[family := read_entry name qty (default (no_demand family) (byFamily !! family))]> byFamily
  else byFamily.

(** The entries of the podset's containers, one walk of a map after another. *)
Definition entries_of (ps : PodSet) : list (string * Z) :=
  mjoin ((fun ctr => map_to_list (mergedContainerResources ctr)) <$> (PsInitContainers ps ++ PsContainers ps)).

(** The demand of the podset's Pods: none without a card. *)
Definition scale_demand (count : Z) (d : familyDemand) : option familyDemand :=
  let cards := clampInt32 (i64 (d_cards d * count)) in
  if cards <=? 0 then None else Some (set_cards cards (mergeSharedNeeds [] (d_sharedNeeds d) count) d).

Definition demands_of_entries (entries : list (string * Z)) (count : Z) : list familyDemand :=
  let byFamily := foldl scan_entry ∅ entries in
  sortDemands (omap (fun fd => scale_demand count fd.2) (map_to_list byFamily)).

Definition podSetFamilyDemands (ps : PodSet) (count : Z) : list familyDemand :=
  demands_of_entries (entries_of ps) count.

Definition podSetFamilyDemand (ps : PodSet) (family : ResourceFamily) (count : Z) : familyDemand :=
  default (no_demand family)
    (first_of (fun d => if bool_decide (d_family d = family) then Some d else None) (podSetFamilyDemands ps count)).

Definition same_shape (a b : familyDemand) : bool :=
  bool_decide (d_family a = d_family b) && (d_unitsPerCard a =? d_unitsPerCard b) &&
  bool_decide (d_profile a = d_profile b) && bool_decide (d_flavor a = d_flavor b) &&
  bool_decide (d_node a = d_node b).

Definition absorb_demand (e d : familyDemand) : familyDemand :=
  set_origin (d_flavor e) (d_podSets e ++ d_podSets d) (d_node e)
    (set_cards (clampInt32 (i64 (d_cards e + d_cards d)))
               (mergeSharedNeeds (d_sharedNeeds e) (d_sharedNeeds d) 1) e).

Fixpoint mergeDemand (demands : list familyDemand) (d : familyDemand) : list familyDemand :=
  match demands with
  | [] => [d]
  | e :: rest => if same_shape e d then absorb_demand e d :: rest else e :: mergeDemand rest d
  end.

(** *** The assignment *)

Record nodeShare := { hostname : string; share_count : Z }.

Definition assignment_of (wl : Workload) (podSet : string) : option PodSetAssignment :=
  WlAdmission wl ≫= first_of (fun psa => if bool_decide (PsaName psa = podSet) then Some psa else None).

Definition assignedNodes (wl : Workload) (podSet : string) : list nodeShare :=
  match assignment_of wl podSet with
  | None => []
  | Some psa =>
      match PsaTopology psa with
      | None => []
      | Some ta =>
          if negb (IsLowestLevelHostname (TaLevels ta)) then []
          else omap (fun '(values, count) =>
                 match last values with
                 | None => None
                 | Some host => if count <=? 0 then None else Some {| hostname := host; share_count := count |}
                 end) (TaDomains ta)
      end
  end.

Definition assignedFlavor (wl : Workload) (podSet : string) : string :=
  match assignment_of wl podSet with
  | None => ""
  | Some psa =>
      match filter (fun rf => IsAcceleratableCreditsResourceName rf.1 = true) (map_to_list (PsaFlavors psa)) with
      | [(_, ref)] => ref
      | _ => ""
      end
  end.

Definition podset_demands (wl : Workload) (demands : list familyDemand) (ps : PodSet) : list familyDemand :=
  let flavor := assignedFlavor wl (PsName ps) in
  let nodes := assignedNodes wl (PsName ps) in
  foldl (fun demands d =>
    match nodes with
    | [] => mergeDemand demands (set_origin flavor [PsName ps] "" d)
    | _ => foldl (fun demands n =>
             mergeDemand demands
               (set_origin flavor [PsName ps] (hostname n) (podSetFamilyDemand ps (d_family d) (share_count n))))
             demands nodes
    end) demands (podSetFamilyDemands ps (PsCount ps)).

Definition parseFamilyDemands (wl : Workload) : list familyDemand :=
  sortDemands (foldl (podset_demands wl) [] (WlPodSets wl)).

Definition withoutRoles (demands : list familyDemand) : list familyDemand :=
  (fun d => set_origin (d_flavor d) [] (d_node d) d) <$> demands.

Definition unassignedDemands (demands : list familyDemand) : list familyDemand :=
  filter (fun d => d_flavor d = "") demands.

Definition rolesOf (demands : list familyDemand) : list string :=
  merge_sort name_le (remove_dups (mjoin (d_podSets <$> demands))).
End Demands.

(** ** The walk order does not show *)

(** The maps of card counts that [mergeSharedNeeds] keeps between merges. *)
Definition in_int32 (m : gmap Z Z) : Prop := map_Forall (fun _ n => 1 <= n <= 2147483647) m.

Lemma clampInt32_range v : 0 <= clampInt32 v <= 2147483647.
Proof. unfold clampInt32. zcases. Qed.

Lemma clampInt32_id v : 0 <= v <= 2147483647 -> clampInt32 v = v.
Proof. intros Hv. unfold clampInt32. zcases. Qed.

Lemma elem_of_needs_of m n :
  n ∈ needs_of m <-> exists v, m !! need_cards n = Some v /\ need_containers n = clampInt32 v /\ 0 < need_containers n.
Proof.
  unfold needs_of. rewrite elem_of_reverse, list_elem_of_omap. split.
  - intros (k & Hk & Hn). rewrite merge_sort_Permutation in Hk. apply list_elem_of_fmap in Hk as ([k' v] & -> & Hk).
    apply elem_of_map_to_list in Hk. cbn in Hn. rewrite Hk in Hn. cbn in Hn.
    destruct (Z.ltb_spec 0 (clampInt32 v)); [|done]. injection Hn as <-. exists v. cbn. auto.
  - intros (v & Hv & Hc & Hp). exists (need_cards n). split.
    + rewrite merge_sort_Permutation. apply list_elem_of_fmap. exists (need_cards n, v). split; [done|].
      by apply elem_of_map_to_list.
    + rewrite Hv. cbn. rewrite <- Hc. destruct (Z.ltb_spec 0 (need_containers n)); [|lia]. by destruct n.
Qed.

Lemma needs_of_NoDup m : NoDup (need_cards <$> needs_of m).
Proof.
  assert (NoDup (merge_sort Z.le (map_to_list m).*1)) as Hn.
  { rewrite merge_sort_Permutation. apply NoDup_fst_map_to_list. }
  unfold needs_of. rewrite fmap_reverse, reverse_Permutation.
  induction Hn as [|k l Hk _ IH]; [constructor|]. cbn. destruct (0 <? _); [|done]. cbn. constructor; [|done].
  intros (n & -> & Hn)%list_elem_of_fmap. apply list_elem_of_omap in Hn as (k' & Hk' & Hn).
  destruct (0 <? _); [|done]. injection Hn as <-. done.
Qed.

Lemma add_needs_lookup m l k :
  NoDup (need_cards <$> l) -> (forall n, n ∈ l -> need_cards n ∉ dom m) ->
  (forall n, n ∈ l -> is_i64 (need_containers n)) ->
  add_needs 1 m l !! k =
    match list_find (fun n => need_cards n = k) l with Some (_, n) => Some (need_containers n) | None => m !! k end.
Proof.
  revert m. induction l as [|n l IH]; intros m Hd Hm Hr; [done|].
  apply NoDup_cons in Hd as [Hn Hd]. change (add_needs 1 m (n :: l)) with
    (add_needs 1 (<[need_cards n := i64 (default 0 (m !! need_cards n) + i64 (need_containers n * 1))]> m) l).
  assert (m !! need_cards n = None) as -> by (apply not_elem_of_dom, Hm; left).
  cbn [default]. rewrite Z.mul_1_r, Z.add_0_l, !i64_small by (try apply i64_range; apply Hr; left).
  rewrite IH; [|done| |intros x Hx; apply Hr; by right].
  - cbn [list_find]. destruct (decide (need_cards n = k)) as [<-|Hne].
    + rewrite (proj2 (list_find_None _ l)); [by rewrite lookup_insert_eq|]. apply list.Forall_forall. intros x Hx E. apply Hn.
      rewrite <- E. by apply list_elem_of_fmap_2.
    + destruct (list_find _ l) as [[]|]; [done|]. by rewrite lookup_insert_ne.
  - intros x Hx. rewrite dom_insert, elem_of_union, elem_of_singleton. intros [E|Hi]; [|by apply (Hm x); [right|]].
    apply Hn. rewrite <- E. by apply list_elem_of_fmap_2.
Qed.

(** What a merge wrote reads back. *)
Lemma add_needs_of m : in_int32 m -> add_needs 1 ∅ (needs_of m) = m.
Proof.
  intros Hm. apply map_eq. intros k. rewrite add_needs_lookup; [|apply needs_of_NoDup|set_solver|].
  - destruct (list_find _ (needs_of m)) as [[i n]|] eqn:Hf.
    + apply list_find_Some in Hf as (Hi & <- & _). apply list_elem_of_lookup_2, elem_of_needs_of in Hi as (v & Hv & -> & _).
      rewrite Hv, clampInt32_id; [done|]. specialize (Hm _ _ Hv). cbn in Hm. lia.
    + rewrite lookup_empty. symmetry. apply list_find_None in Hf. rewrite list.Forall_forall in Hf.
      destruct (m !! k) as [v|] eqn:Hv; [|done]. exfalso. pose proof (Hm _ _ Hv) as Hr. cbn in Hr.
      apply (Hf {| need_cards := k; need_containers := v |}); [|done]. apply elem_of_needs_of. exists v. cbn.
      rewrite clampInt32_id by lia. split; [done|]. split; [done|lia].
  - intros n (v & _ & -> & _)%elem_of_needs_of. pose proof (clampInt32_range v). unfold is_i64. lia.
Qed.

(** One holder more at [k]. *)
Definition one_more (k : Z) (m : gmap Z Z) : gmap Z Z := <[k := clampInt32 (default 0 (m !! k) + 1)]> m.

Lemma in_int32_default m k : in_int32 m -> 0 <= default 0 (m !! k) <= 2147483647.
Proof. intros Hm. destruct (m !! k) as [v|] eqn:E; cbn; [|lia]. specialize (Hm _ _ E). cbn in Hm. lia. Qed.

Lemma needs_of_clamp m : needs_of (clampInt32 <$> m) = needs_of m.
Proof.
  unfold needs_of. rewrite map_to_list_fmap, <- list_fmap_compose. f_equal.
  change (fst ∘ prod_map id clampInt32) with (@fst Z Z).
  induction (merge_sort Z.le (map_to_list m).*1) as [|k l IH]; [done|]. cbn. rewrite IH, lookup_fmap.
  destruct (m !! k) as [v|]; [|done]. cbn. by rewrite (clampInt32_id (clampInt32 v)) by apply clampInt32_range.
Qed.

Lemma merge_one m k :
  in_int32 m -> mergeSharedNeeds (needs_of m) [{| need_cards := k; need_containers := 1 |}] 1 = needs_of (one_more k m).
Proof.
  intros Hm. unfold mergeSharedNeeds. rewrite add_needs_of by done.
  change (add_needs 1 m [{| need_cards := k; need_containers := 1 |}]) with (<[k := i64 (default 0 (m !! k) + i64 1)]> m).
  pose proof (in_int32_default m k Hm). rewrite (i64_small 1), i64_small by (unfold is_i64; lia).
  rewrite <- (needs_of_clamp (<[k := default 0 (m !! k) + 1]> m)), fmap_insert. unfold one_more. f_equal.
  f_equal. apply map_eq. intros j. rewrite lookup_fmap. destruct (m !! j) as [v|] eqn:E; [|done]. cbn. f_equal.
  specialize (Hm _ _ E). cbn in Hm. apply clampInt32_id. lia.
Qed.

Lemma one_more_int32 k m : in_int32 m -> in_int32 (one_more k m).
Proof.
  intros Hm. pose proof (in_int32_default m k Hm). apply map_Forall_insert_2; [|done]. unfold clampInt32. zcases.
Qed.

Lemma one_more_comm j k m : one_more j (one_more k m) = one_more k (one_more j m).
Proof.
  unfold one_more. destruct (decide (j = k)) as [->|Hne]; [done|].
  rewrite !lookup_insert_ne by done. by apply insert_insert_ne.
Qed.

(** *** Entries commute *)

(** The smaller profile name, any name before none. *)
Definition least_profile (p x : string) : string := if bool_decide (x = "") || String.ltb p x then p else x.

Lemma ltb_leb a b : String.ltb a b = negb (String.leb b a).
Proof. unfold String.ltb, String.leb. rewrite String.compare_antisym. by destruct (String.compare b a). Qed.

Lemma least_profile_comm p q x : p <> "" -> q <> "" -> least_profile p (least_profile q x) = least_profile q (least_profile p x).
Proof.
  intros Hp Hq. unfold least_profile. rewrite !ltb_leb.
  assert (forall a b, String.leb a b = true <-> String.le a b) as Hle by (intros; unfold String.le; by rewrite Is_true_true).
  assert (forall a b, String.leb a b = false -> String.leb b a = true) as Hf.
  { intros a b Hab. destruct (String.leb_total b a) as [|Hba]; congruence. }
  assert (forall a b c, String.leb a b = true -> String.leb b c = true -> String.leb a c = true) as Htr.
  { intros a b c. rewrite !Hle. apply transitivity. }
  assert (forall a b, String.leb a b = true -> String.leb b a = true -> a = b) as Hanti by apply String.leb_antisym.
  destruct (bool_decide (x = "")) eqn:Ex, (String.leb x q) eqn:E1, (String.leb x p) eqn:E2, (String.leb q p) eqn:E3, (String.leb p q) eqn:E4;
    cbn; rewrite ?Ex, ?E1, ?E2, ?E3, ?E4, ?(bool_decide_eq_false_2 (p = "")), ?(bool_decide_eq_false_2 (q = "")) by done;
    cbn; rewrite ?E3, ?E4; cbn; try done; eauto;
    repeat match goal with H : String.leb _ _ = false |- _ => pose proof (Hf _ _ H); revert H end; intros;
    exfalso; match goal with H : String.leb ?a ?b = false |- _ => enough (String.leb a b = true) by congruence end; eauto.
Qed.

Section Walk.
Context `{Tables : NameTables}.

Lemma profile_nonempty name p : PartitionedProfileOf name = Some p -> p <> "".
Proof.
  unfold PartitionedProfileOf, partitionedProfileOf, first_of. intros ([m q] & Hh & ->)%fmap_Some. cbn.
  apply head_Some_elem_of, list_elem_of_omap in Hh as ([m' prefix] & _ & Hc). cbn in Hc.
  destruct (cut_prefix prefix name) as [r|]; [|done]. case_bool_decide; [done|]. by injection Hc as <- <-.
Qed.

(** What an entry says about a family. *)
Inductive reading := ReadsUnits (u : Z) | ReadsCards (qty : Z) | ReadsProfile (p : string) | ReadsNothing.

Definition reading_of (family : ResourceFamily) (name : string) (qty : Z) : reading :=
  if has_suffix SlicedUnitsResourceNameSuffix name || has_suffix PartitionedUnitsResourceNameSuffix name
  then ReadsUnits (clampInt32 qty)
  else if isCardKey name family then ReadsCards qty
  else match PartitionedProfileOf name with Some p => ReadsProfile p | None => ReadsNothing end.

Definition counted_needs (qty : Z) (d : familyDemand) : list sharedNeed :=
  if bool_decide (d_family d = ResourceFamilyShared) && (0 <? qty)
  then mergeSharedNeeds (d_sharedNeeds d) [{| need_cards := clampInt32 qty; need_containers := 1 |}] 1
  else d_sharedNeeds d.

Definition apply_reading (r : reading) (d : familyDemand) : familyDemand :=
  match r with
  | ReadsUnits u => set_units (Z.max (d_unitsPerCard d) u) d
  | ReadsCards qty => set_cards (i32 (d_cards d + clampInt32 qty)) (counted_needs qty d) d
  | ReadsProfile p => set_profile (least_profile p (d_profile d)) d
  | ReadsNothing => d
  end.

Lemma read_entry_alt name qty d : read_entry name qty d = apply_reading (reading_of (d_family d) name qty) d.
Proof.
  unfold read_entry, reading_of. destruct (_ || _).
  - cbn. destruct (Z.ltb_spec (d_unitsPerCard d) (clampInt32 qty)); [by rewrite Z.max_r by lia|].
    rewrite Z.max_l by lia. by destruct d.
  - destruct (isCardKey _ _); [done|]. destruct (PartitionedProfileOf name) as [p|]; [|done]. cbn.
    unfold least_profile. destruct (_ || _); [done|]. by destruct d.
Qed.

Definition tidy (d : familyDemand) : Prop := exists m, in_int32 m /\ d_sharedNeeds d = needs_of m.

Lemma counted_tidy qty d : tidy d -> exists m, in_int32 m /\ counted_needs qty d = needs_of m.
Proof.
  intros (m & Hm & Hd). unfold counted_needs. destruct (_ && _); [|by exists m]. exists (one_more (clampInt32 qty) m).
  split; [by apply one_more_int32|]. by rewrite Hd, merge_one.
Qed.

Lemma apply_reading_tidy r d : tidy d -> tidy (apply_reading r d).
Proof. intros Hd. destruct r; try exact Hd. exact (counted_tidy qty d Hd). Qed.

Lemma counted_comm q q' d :
  tidy d -> counted_needs q' (set_cards 0 (counted_needs q d) d) = counted_needs q (set_cards 0 (counted_needs q' d) d).
Proof.
  intros (m & Hm & Hd). unfold counted_needs. cbn [d_family set_cards d_sharedNeeds].
  destruct (bool_decide _); [|done]. cbn. destruct (0 <? q), (0 <? q'); try done.
  rewrite Hd, !merge_one by auto using one_more_int32. by rewrite one_more_comm.
Qed.

Lemma apply_reading_comm r r' d :
  tidy d -> (forall p, r = ReadsProfile p -> p <> "") -> (forall p, r' = ReadsProfile p -> p <> "") ->
  apply_reading r (apply_reading r' d) = apply_reading r' (apply_reading r d).
Proof.
  intros Hd Hp Hp'. destruct r as [u|q|p|], r' as [u'|q'|p'|]; try done; unfold apply_reading; cbn.
  - unfold set_units. cbn. f_equal. lia.
  - pose proof (counted_comm q q' d Hd) as Hc. unfold counted_needs, set_cards in *. cbn in *. f_equal; [|congruence].
    rewrite !i32_add_l. f_equal. lia.
  - unfold set_profile. cbn. f_equal. apply least_profile_comm; [by apply Hp|by apply Hp'].
Qed.

Lemma read_entry_family name qty d : d_family (read_entry name qty d) = d_family d.
Proof. rewrite read_entry_alt. by destruct (reading_of _ _ _). Qed.

Lemma read_entry_comm n1 q1 n2 q2 d :
  tidy d -> read_entry n1 q1 (read_entry n2 q2 d) = read_entry n2 q2 (read_entry n1 q1 d).
Proof.
  intros Hd. rewrite !read_entry_alt. rewrite <- !(read_entry_alt _ _ d), !read_entry_family, !read_entry_alt.
  assert (forall n q p, reading_of (d_family d) n q = ReadsProfile p -> p <> "") as Hr.
  { intros n q p. unfold reading_of. destruct (_ || _); [done|]. destruct (isCardKey _ _); [done|].
    destruct (PartitionedProfileOf n) as [p'|] eqn:E; [|done]. intros [= ->]. by eapply profile_nonempty. }
  apply apply_reading_comm; eauto.
Qed.

Definition tidy_map (m : gmap ResourceFamily familyDemand) : Prop :=
  map_Forall (fun family d => d_family d = family /\ tidy d) m.

Lemma tidy_default m family : tidy_map m -> d_family (default (no_demand family) (m !! family)) = family /\
  tidy (default (no_demand family) (m !! family)).
Proof.
  intros Hm. destruct (m !! family) as [d|] eqn:E; [exact (Hm _ _ E)|]. split; [done|]. exists ∅. split; [|done].
  apply map_Forall_empty.
Qed.

Lemma scan_entry_tidy m e : tidy_map m -> tidy_map (scan_entry m e).
Proof.
  intros Hm. destruct e as [name qty]. unfold scan_entry. destruct (card_family _); [|done].
  destruct (tidy_default m (ResourceFamilyOf name) Hm) as [Hf Ht]. apply map_Forall_insert_2; [|done].
  rewrite read_entry_family. split; [done|]. rewrite read_entry_alt. by apply apply_reading_tidy.
Qed.

Lemma scan_entry_comm m x y : tidy_map m -> scan_entry (scan_entry m x) y = scan_entry (scan_entry m y) x.
Proof.
  intros Hm. destruct x as [n1 q1], y as [n2 q2]. unfold scan_entry.
  destruct (card_family (ResourceFamilyOf n1)) eqn:C1, (card_family (ResourceFamilyOf n2)) eqn:C2; try done.
  destruct (decide (ResourceFamilyOf n1 = ResourceFamilyOf n2)) as [E|Hne].
  - rewrite E, !lookup_insert_eq, !insert_insert_eq. cbn. f_equal. apply read_entry_comm.
    rewrite <- E. by apply (tidy_default m).
  - rewrite !lookup_insert_ne by done. by apply insert_insert_ne.
Qed.

Lemma entries_permutation l l' count : l ≡ₚ l' -> demands_of_entries l count = demands_of_entries l' count.
Proof.
  intros Hl. unfold demands_of_entries. do 3 f_equal.
  apply (foldl_permutation tidy_map); [exact scan_entry_tidy|exact scan_entry_comm|done|apply map_Forall_empty].
Qed.

(** C38: the order in which Go walks the resource maps of a podset's containers never
    shows: any other walk of the same entries reads the same demands, with the same
    card counts, holders, units and profile, in the same order. *)
Theorem walk_order_irrelevant (ps : PodSet) (count : Z) (walks : list (list (string * Z))) :
  Forall2 (fun walk ctr => walk ≡ₚ map_to_list (mergedContainerResources ctr)) walks
    (PsInitContainers ps ++ PsContainers ps) ->
  demands_of_entries (mjoin walks) count = podSetFamilyDemands ps count.
Proof.
  intros Hw. apply entries_permutation. unfold entries_of.
  induction Hw as [|walk ctr walks ctrs Hp _ IH]; [done|]. cbn. by rewrite Hp, IH.
Qed.
End Walk.

(** ** The numbers of a demand *)

Section Sizes.
Context `{Tables : NameTables} `{KueueAPI : Kueue}.

(** *** Sizes stay within [int32] *)

Definition sized_needs (l : list sharedNeed) : Prop :=
  Forall (fun n => 1 <= need_cards n <= 2147483647 /\ 1 <= need_containers n <= 2147483647) l.

(** What the fit takes for granted of a demand. *)
Record sized (d : familyDemand) : Prop := {
  sized_family : card_family (d_family d) = true;
  sized_cards : 1 <= d_cards d <= 2147483647;
  sized_units : 0 <= d_unitsPerCard d <= 2147483647;
  sized_holders : sized_needs (d_sharedNeeds d) }.

(** The same of a demand still being read. *)
Record sizing (d : familyDemand) : Prop := {
  sizing_family : card_family (d_family d) = true;
  sizing_cards : is_i32 (d_cards d);
  sizing_units : 0 <= d_unitsPerCard d <= 2147483647;
  sizing_holders : sized_needs (d_sharedNeeds d) }.

Lemma add_needs_dom times m l k :
  is_Some (add_needs times m l !! k) -> is_Some (m !! k) \/ exists n, n ∈ l /\ need_cards n = k.
Proof.
  revert m. induction l as [|n l IH]; intros m; [by left|]. cbn. intros [Hk|(n' & Hn & <-)]%IH.
  - apply lookup_insert_is_Some' in Hk as [<-|Hk]; [right; exists n; split; [left|done]|by left].
  - right. exists n'. split; [by right|done].
Qed.

Lemma merge_sized acc add times : sized_needs acc -> sized_needs add -> sized_needs (mergeSharedNeeds acc add times).
Proof.
  unfold sized_needs. rewrite !list.Forall_forall. intros Ha Hb n (v & Hv & Hc & Hp)%elem_of_needs_of. split.
  - destruct (add_needs_dom times (add_needs 1 ∅ acc) add (need_cards n) ltac:(eauto)) as [Hs|(n' & Hn & <-)]; [|by apply Hb].
    apply add_needs_dom in Hs as [[? He]|(n' & Hn & <-)]; [by rewrite lookup_empty in He|by apply Ha].
  - rewrite Hc in *. pose proof (clampInt32_range v). lia.
Qed.

Lemma read_sizing name qty d : sizing d -> sizing (read_entry name qty d).
Proof.
  intros [Hf Hc Hu Hh]. rewrite read_entry_alt. unfold reading_of. destruct (_ || _); [|destruct (isCardKey _ _)].
  - pose proof (clampInt32_range qty). constructor; cbn; [done|done|lia|done].
  - constructor; cbn; [done|apply i32_range|done|]. unfold counted_needs.
    destruct (bool_decide _ && (0 <? qty)) eqn:Hq; [|done]. apply andb_true_iff in Hq as [_ Hq%Z.ltb_lt].
    apply merge_sized; [done|]. apply list.Forall_singleton. cbn. unfold clampInt32. zcases.
  - destruct (PartitionedProfileOf name) as [p|]; by constructor.
Qed.

Lemma scan_sizing m l : map_Forall (fun _ d => sizing d) m -> map_Forall (fun _ d => sizing d) (foldl scan_entry m l).
Proof.
  revert m. induction l as [|[name qty] l IH]; intros m Hm; [done|]. cbn [foldl]. apply IH. unfold scan_entry.
  destruct (card_family _) eqn:Hc; [|done]. apply map_Forall_insert_2; [|done]. apply read_sizing.
  destruct (m !! ResourceFamilyOf name) as [d|] eqn:E; [exact (Hm _ _ E)|].
  constructor; cbn; [done|unfold is_i32; lia|lia|constructor].
Qed.

Lemma scale_sized count d d' : sizing d -> scale_demand count d = Some d' -> sized d'.
Proof.
  intros [Hf Hc Hu Hh] Hs. unfold scale_demand in Hs. destruct (Z.leb_spec (clampInt32 (i64 (d_cards d * count))) 0); [done|].
  injection Hs as <-. constructor; cbn; [done| |done|]; [pose proof (clampInt32_range (i64 (d_cards d * count))); lia|].
  apply merge_sized; [constructor|done].
Qed.

Lemma podset_sized ps count d : d ∈ podSetFamilyDemands ps count -> sized d.
Proof.
  unfold podSetFamilyDemands, demands_of_entries, sortDemands. rewrite sort_stable_perm.
  intros ([f d0] & Hd & Hs)%list_elem_of_omap. apply elem_of_map_to_list in Hd. eapply scale_sized; [|exact Hs].
  by apply (scan_sizing ∅ (entries_of ps) (map_Forall_empty _) f d0).
Qed.

(** A family asked for by some of the Pods is asked for by any positive number. *)
Lemma scale_some count count' d d' :
  is_i32 (d_cards d) -> 0 <= count < 2 ^ 31 -> 0 < count' < 2 ^ 31 ->
  scale_demand count d = Some d' -> exists d'', scale_demand count' d = Some d''.
Proof.
  unfold scale_demand, is_i32. intros Hd Hc Hc'. rewrite !i64_small by (unfold is_i64; nia).
  destruct (Z.leb_spec (clampInt32 (d_cards d * count)) 0) as [|Hp]; [done|]. intros _.
  assert (0 < d_cards d) by (revert Hp; unfold clampInt32; zcases; nia).
  destruct (Z.leb_spec (clampInt32 (d_cards d * count')) 0) as [Hn|]; [|eauto].
  revert Hn. unfold clampInt32. zcases; nia.
Qed.

Lemma podset_family_sized ps count count' d :
  0 <= count < 2 ^ 31 -> 0 < count' < 2 ^ 31 -> d ∈ podSetFamilyDemands ps count ->
  sized (podSetFamilyDemand ps (d_family d) count').
Proof.
  intros Hc Hc'. unfold podSetFamilyDemands at 1, demands_of_entries, sortDemands. rewrite sort_stable_perm.
  intros ([f d0] & Hd & Hs)%list_elem_of_omap. apply elem_of_map_to_list in Hd.
  assert (map_Forall (fun _ d => sizing d) (foldl scan_entry ∅ (entries_of ps))) as Hall by apply scan_sizing, map_Forall_empty.
  destruct (scale_some _ count' _ _ (sizing_cards _ (Hall _ _ Hd)) Hc Hc' Hs) as [d' Hs'].
  assert (d' ∈ podSetFamilyDemands ps count') as Hin.
  { unfold podSetFamilyDemands, demands_of_entries, sortDemands. rewrite sort_stable_perm. apply list_elem_of_omap.
    exists (f, d0). split; [by apply elem_of_map_to_list|done]. }
  assert (d_family d' = d_family d) as Hfam.
  { unfold scale_demand in Hs, Hs'. cbn in Hs. destruct (_ <=? 0); [done|]. destruct (_ <=? 0); [done|]. by injection Hs as <-; injection Hs' as <-. }
  unfold podSetFamilyDemand, first_of.
  destruct (head _) as [e|] eqn:He; cbn.
  - apply head_Some_elem_of, list_elem_of_omap in He as (e' & He' & Hb). case_bool_decide; [|done]. injection Hb as <-.
    by eapply podset_sized.
  - exfalso. apply head_None in He. apply (elem_of_nil d'). rewrite <- He. apply list_elem_of_omap. exists d'.
    split; [done|]. by rewrite bool_decide_eq_true_2.
Qed.

Lemma absorb_sized e d : sized e -> sized d -> sized (absorb_demand e d).
Proof.
  intros [He1 He2 He3 He4] [Hd1 Hd2 Hd3 Hd4]. constructor; cbn; [done| |done|by apply merge_sized].
  rewrite i64_small by (unfold is_i64; lia). unfold clampInt32. zcases.
Qed.

Lemma merge_demand_sized l d : Forall sized l -> sized d -> Forall sized (mergeDemand l d).
Proof.
  intros Hl Hd. induction Hl as [|e l He Hl IH]; cbn; [by apply list.Forall_singleton|].
  destruct (same_shape e d); constructor; auto using absorb_sized.
Qed.

Lemma origin_sized flavor podSets node d : sized d -> sized (set_origin flavor podSets node d).
Proof. by intros [H1 H2 H3 H4]. Qed.

(** Pod counts as the API server admits them. *)
Definition valid_counts (wl : Workload) : Prop :=
  Forall (fun ps => 0 <= PsCount ps < 2 ^ 31) (WlPodSets wl) /\
  Forall (fun psa => Forall (fun ta => Forall (fun vc => vc.2 < 2 ^ 31) (TaDomains ta)) (option_list (PsaTopology psa)))
    (default [] (WlAdmission wl)).

Lemma assignedNodes_counts wl podSet n : valid_counts wl -> n ∈ assignedNodes wl podSet -> 0 < share_count n < 2 ^ 31.
Proof.
  intros [_ Hv]. unfold assignedNodes, assignment_of. destruct (WlAdmission wl) as [psas|]; cbn in *; [|by intros ?%elem_of_nil].
  destruct (first_of _ psas) as [psa|] eqn:Hf; [|by intros ?%elem_of_nil].
  assert (psa ∈ psas) as Hin.
  { apply head_Some_elem_of, list_elem_of_omap in Hf as (p & Hp & Hb). case_bool_decide; [|done]. by injection Hb as <-. }
  rewrite list.Forall_forall in Hv. specialize (Hv psa Hin). destruct (PsaTopology psa) as [ta|]; [|by intros ?%elem_of_nil].
  cbn in Hv. apply list.Forall_cons in Hv as [Hv _]. rewrite list.Forall_forall in Hv. destruct (negb _); [by intros ?%elem_of_nil|].
  intros ([values count] & Hd & Hn)%list_elem_of_omap. specialize (Hv _ Hd). cbn in *. destruct (last values); [|done].
  destruct (Z.leb_spec count 0); [done|]. injection Hn as <-. cbn. lia.
Qed.

Lemma podset_demands_sized wl demands ps :
  valid_counts wl -> ps ∈ WlPodSets wl -> Forall sized demands -> Forall sized (podset_demands wl demands ps).
Proof.
  intros Hv Hps. unfold podset_demands. assert (0 <= PsCount ps < 2 ^ 31) as Hc.
  { destruct Hv as [Hv _]. rewrite list.Forall_forall in Hv. by apply Hv. }
  assert (Forall (fun d => sized d /\ forall n, n ∈ assignedNodes wl (PsName ps) ->
            sized (podSetFamilyDemand ps (d_family d) (share_count n))) (podSetFamilyDemands ps (PsCount ps))) as Hall.
  { apply list.Forall_forall. intros d Hd. split; [by eapply podset_sized|]. intros n Hn.
    eapply podset_family_sized; [exact Hc|by eapply assignedNodes_counts|exact Hd]. }
  revert demands. induction Hall as [|d l [Hd Hn] _ IH]; intros demands Hs; cbn [foldl]; [done|]. apply IH.
  destruct (assignedNodes wl (PsName ps)) as [|n0 nodes]; [by apply merge_demand_sized, origin_sized|].
  revert demands Hs Hn. generalize (n0 :: nodes). intros ns. induction ns as [|n ns IHn]; intros demands Hs Hn; [done|].
  cbn [foldl]. apply IHn; [|intros n' Hn'; apply Hn; by right]. apply merge_demand_sized; [done|]. apply origin_sized, Hn. left.
Qed.

Lemma parse_sized wl : valid_counts wl -> Forall sized (parseFamilyDemands wl).
Proof.
  intros Hv. unfold parseFamilyDemands, sortDemands. rewrite sort_stable_perm.
  assert (forall l acc, (forall ps, ps ∈ l -> ps ∈ WlPodSets wl) -> Forall sized acc ->
            Forall sized (foldl (podset_demands wl) acc l)) as H.
  { induction l as [|ps l IH]; intros acc Hl Ha; [done|]. cbn [foldl]. apply IH; [intros; apply Hl; by right|].
    apply podset_demands_sized; [done| |done]. apply Hl. left. }
  apply H; [done|constructor].
Qed.

(** *** Counting *)

Definition entry_cards (family : ResourceFamily) (entry : string * Z) : Z :=
  if bool_decide (ResourceFamilyOf entry.1 = family) then
    match reading_of family entry.1 entry.2 with ReadsCards qty => clampInt32 qty | _ => 0 end
  else 0.

(** The cards of a family one Pod asks for, as a mathematical integer. *)
Definition card_total (family : ResourceFamily) (entries : list (string * Z)) : Z :=
  foldr (fun e n => entry_cards family e + n) 0 entries.

Lemma entry_cards_nonneg family e : 0 <= entry_cards family e.
Proof.
  unfold entry_cards. destruct (bool_decide _); [|lia]. destruct (reading_of _ _ _) as [|qty| |]; try lia.
  apply clampInt32_range.
Qed.

Definition cards_so_far (m : gmap ResourceFamily familyDemand) (family : ResourceFamily) : Z :=
  default 0 (d_cards <$> m !! family).

Lemma scan_cards m e family :
  tidy_map m -> card_family family = true ->
  cards_so_far (scan_entry m e) family =
    if bool_decide (ResourceFamilyOf e.1 = family) then
      match reading_of family e.1 e.2 with
      | ReadsCards qty => i32 (cards_so_far m family + clampInt32 qty) | _ => cards_so_far m family end
    else cards_so_far m family.
Proof.
  intros Hm Hc. destruct e as [name qty]. unfold scan_entry, cards_so_far. cbn [fst snd].
  case_bool_decide as Hf; [rewrite Hf, Hc|].
  2: { destruct (card_family (ResourceFamilyOf name)); [|done]. by rewrite lookup_insert_ne. }
  rewrite lookup_insert_eq. cbn. destruct (tidy_default m family Hm) as [Hd _]. rewrite read_entry_alt, Hd.
  destruct (reading_of family name qty); cbn; by destruct (m !! family).
Qed.

Lemma total_cons family e l : card_total family (e :: l) = entry_cards family e + card_total family l.
Proof. done. Qed.

Lemma card_total_nonneg family l : 0 <= card_total family l.
Proof. induction l as [|e l IH]; [done|]. rewrite total_cons. pose proof (entry_cards_nonneg family e). lia. Qed.

Lemma scan_total l m family :
  tidy_map m -> card_family family = true -> 0 <= cards_so_far m family ->
  cards_so_far m family + card_total family l <= 2147483647 ->
  cards_so_far (foldl scan_entry m l) family = cards_so_far m family + card_total family l.
Proof.
  revert m. induction l as [|e l IH]; intros m Hm Hc H0 Hb; [cbn; lia|]. cbn [foldl].
  rewrite total_cons in *. pose proof (entry_cards_nonneg family e). pose proof (card_total_nonneg family l).
  assert (cards_so_far (scan_entry m e) family = cards_so_far m family + entry_cards family e) as He.
  { rewrite scan_cards by done. unfold entry_cards in *. destruct (bool_decide _); [|lia].
    destruct (reading_of _ _ _); try lia. apply i32_small. unfold is_i32. lia. }
  rewrite IH; [lia|by apply scan_entry_tidy|done|lia|lia].
Qed.

Lemma scan_tidy l m : tidy_map m -> tidy_map (foldl scan_entry m l).
Proof. revert m. induction l as [|e l IH]; intros m Hm; [done|]. by apply IH, scan_entry_tidy. Qed.

Lemma scale_family count d d' : scale_demand count d = Some d' -> d_family d' = d_family d.
Proof. unfold scale_demand. destruct (_ <=? 0); [done|]. by intros [= <-]. Qed.

Lemma filter_other_families m family count :
  tidy_map m -> m !! family = None ->
  filter (fun d => d_family d = family) (omap (fun fd => scale_demand count fd.2) (map_to_list m)) = [].
Proof.
  intros Hm Hn. apply filter_none. intros d ([f d0] & Hin%elem_of_map_to_list & Hs)%list_elem_of_omap Hf.
  cbn in Hs. apply scale_family in Hs. destruct (Hm _ _ Hin) as [Hf0 _]. congruence.
Qed.

Lemma family_demand_cards m family count :
  tidy_map m -> 0 <= count -> 0 <= cards_so_far m family -> cards_so_far m family * count <= 2147483647 ->
  d_cards <$> filter (fun d => d_family d = family) (sortDemands (omap (fun fd => scale_demand count fd.2) (map_to_list m))) =
    if 0 <? cards_so_far m family * count then [cards_so_far m family * count] else [].
Proof.
  intros Hm Hc H0 Hb. unfold sortDemands, cards_so_far in *.
  destruct (m !! family) as [d|] eqn:Hd; cbn in *.
  - assert (filter (fun d => d_family d = family) (sort_stable (fun a b => compare_demands a b <=? 0)
              (omap (fun fd => scale_demand count fd.2) (map_to_list m))) ≡ₚ option_list (scale_demand count d)) as Hp.
    { rewrite sort_stable_perm, <- (map_to_list_delete m family d Hd). destruct (Hm _ _ Hd) as [Hf _].
      assert (forall rest, omap (fun fd => scale_demand count fd.2) ((family, d) :: rest) =
                option_list (scale_demand count d) ++ omap (fun fd => scale_demand count fd.2) rest) as ->.
      { intros rest. cbn. by destruct (scale_demand count d). }
      rewrite filter_app, filter_other_families, app_nil_r; [|by apply map_Forall_delete|apply lookup_delete_eq].
      destruct (scale_demand count d) as [d'|] eqn:Hs; [|done]. apply scale_family in Hs. cbn. by rewrite decide_True by congruence. }
    assert (d_cards <$> option_list (scale_demand count d) =
              if 0 <? d_cards d * count then [d_cards d * count] else []) as <-.
    { unfold scale_demand. rewrite i64_small, clampInt32_id by (unfold is_i64; nia).
      destruct (Z.ltb_spec 0 (d_cards d * count)), (Z.leb_spec (d_cards d * count) 0); done || lia. }
    destruct (scale_demand count d) as [d'|]; cbn in Hp;
      [by apply Permutation_singleton_r in Hp as ->|by apply Permutation_nil_r in Hp as ->].
  - assert (filter (fun d => d_family d = family) (sort_stable (fun a b => compare_demands a b <=? 0)
              (omap (fun fd => scale_demand count fd.2) (map_to_list m))) ≡ₚ []) as Hp.
    { rewrite sort_stable_perm. by rewrite filter_other_families. }
    by apply Permutation_nil_r in Hp as ->.
Qed.

(** C39: the cards a podset is judged for are exactly the cards its containers ask
    for times its Pods, one demand per family, as long as both numbers fit an
    [int32]: no card is counted twice and none is lost. *)
Theorem podset_counts_every_card (ps : PodSet) (family : ResourceFamily) (count : Z) :
  card_family family = true -> 0 <= count ->
  card_total family (entries_of ps) <= 2147483647 -> card_total family (entries_of ps) * count <= 2147483647 ->
  d_cards <$> filter (fun d => d_family d = family) (podSetFamilyDemands ps count) =
    if 0 <? card_total family (entries_of ps) * count then [card_total family (entries_of ps) * count] else [].
Proof.
  intros Hf Hc Ht Hb. unfold podSetFamilyDemands, demands_of_entries.
  assert (cards_so_far (foldl scan_entry ∅ (entries_of ps)) family = card_total family (entries_of ps)) as He.
  { rewrite scan_total; [done|apply map_Forall_empty|done|done|done]. }
  rewrite <- He in *. apply family_demand_cards; [apply scan_tidy, map_Forall_empty|done| |done].
  rewrite He. apply card_total_nonneg.
Qed.
End Sizes.

(** ** A cluster to evaluate on *)

Definition demo_kueue : Kueue := {|
  IsLowestLevelHostname levels := bool_decide (last levels = Some "kubernetes.io/hostname");
  FindAdmissionCheck checks name :=
    first_of (fun c => if bool_decide (AcsName c = name) then Some c else None) checks;
  SetAdmissionCheckState checks st :=
    if bool_decide (AcsName st ∈ (AcsName <$> checks))
    then (fun c => if bool_decide (AcsName c = AcsName st) then st else c) <$> checks else checks ++ [st] |}.

Module DemandExample.
#[local] Existing Instance demo_kueue.

#[export] Instance tables : NameTables :=
  {| ResourceNames := {["nvidia" := "nvidia.com/gpu"]}; PartitionKinds := {["nvidia" := "mig"]} |}.

Definition container (name : string) (limits : gmap string Z) : Container :=
  {| CName := name; Requests := ∅; Limits := limits |}.

Definition podset (name : string) (count : Z) (ctrs : list Container) : PodSet :=
  {| PsName := name; PsCount := count; PsInitContainers := []; PsContainers := ctrs |}.

Definition mixed : PodSet :=
  podset "main" 3 [container "a" {["nvidia.com/gpu.sliced" := 1; "nvidia.com/gpu.sliced.units" := 400000]};
                   container "b" {["nvidia.com/gpu.sliced" := 2; "nvidia.com/gpu.sliced.units" := 100000; "cpu" := 4]}].

Lemma walk_order_irrelevant_witness :
  demands_of_entries (mjoin [[("nvidia.com/gpu.sliced.units", 400000); ("nvidia.com/gpu.sliced", 1)];
                             [("cpu", 4); ("nvidia.com/gpu.sliced", 2); ("nvidia.com/gpu.sliced.units", 100000)]]) 3
  = podSetFamilyDemands mixed 3.
Proof.
  apply (walk_order_irrelevant mixed). change (PsInitContainers mixed ++ PsContainers mixed) with (PsContainers mixed).
  apply Forall2_cons; split; [|apply Forall2_cons; split; [|constructor]].
  - match goal with |- _ ≡ₚ ?l => let v := eval vm_compute in l in change l with v end. solve_Permutation.
  - match goal with |- _ ≡ₚ ?l => let v := eval vm_compute in l in change l with v end. solve_Permutation.
Defined.

Lemma podset_counts_every_card_witness :
  d_cards <$> filter (fun d => d_family d = ResourceFamilySliced) (podSetFamilyDemands mixed 3) = [9].
Proof.
  refine (eq_trans (podset_counts_every_card mixed ResourceFamilySliced 3 _ _ _ _) _); by vm_compute.
Defined.

(** Two containers, each asking for the most cards an [int32] counts. *)
Definition oversized : PodSet :=
  podset "main" 1 [container "a" {["nvidia.com/gpu" := 2147483647]}; container "b" {["nvidia.com/gpu" := 2147483647]}].

End DemandExample.
