(* ===== verification/AdmitFit.v ===== *)
(** * Device admission: the fit

    The second half of src/pkg/worker/controllers/worker/node_devices_admission.go:
    the cards of the candidate nodes with what their ledgers leave, and the greedy
    fit of demands on them, one budget per card charged in place. *)

From stdpp Require Import prelude gmap strings list sorting.
From S2P Require Import Prelude Device PluginRecords AdmitDemand.

(** ** Verdict messages *)

(** [forRoles]: the roles a verdict names, sorted.  A message is kept as what it
    says; the code quotes every name it inserts. *)
Definition forRoles (podSets : list string) : list string := merge_sort name_le podSets.

Definition verdictMessage (state : CheckState) (podSets : list string) : Message :=
  PoolVerdict state (forRoles podSets).
Definition assignedNodeMessage (state : CheckState) (d : familyDemand) : Message :=
  NodeVerdict state (d_node d) (forRoles (d_podSets d)).
Definition demandVerdictMessage (state : CheckState) (d : familyDemand) : Message :=
  if negb (bool_decide (d_node d = "")) then assignedNodeMessage state d else verdictMessage state (d_podSets d).
Definition partitionVerdictMessage (state : CheckState) (profile : string) (podSets : list string) : Message :=
  PartitionVerdict state profile (forRoles podSets).
Definition partitionNoCardsMessage (profile : string) (podSets : list string) : Message :=
  NoPartitionedCard profile (forRoles podSets).
Definition partitionLedgerNotReadyMessage (podSets : list string) : Message :=
  PartitionLedgerNotReady (forRoles podSets).

(** ** Cards *)

Record cardLedger := {
  c_manufacturer : string;
  c_flavors : gset string;
  c_hostname : string;
  c_capability : AcceleratorStatus;
  c_mode : DeviceAllocationMode;
  c_remaining : Z;
  c_remainingProfiles : list AcceleratorProfileCount;
  c_allocatedSlices : Z }.

Definition coveredBy (c : cardLedger) (d : familyDemand) : bool :=
  bool_decide (d_flavor d ∈ c_flavors c) &&
  (bool_decide (d_node d = "") || bool_decide (c_hostname c = d_node d)).

Record flavorScope := { fs_flavor : string; fs_acceleratorKey : string; fs_acceleratorCount : Z }.
#[export] Instance flavorScope_eq_dec : EqDecision flavorScope.
Proof. solve_decision. Defined.

Record scopedDevices := {
  sd_name : string; sd_devices : Devices; sd_scopes : list flavorScope; sd_hostname : string }.

Definition acceleratorKeyOf (manufacturer groupID : string) : string := manufacturer +:+ "-" +:+ groupID.

(** The capability of an accelerator the inventory does not have. *)
Definition no_capability : AcceleratorStatus := {|
  Unhealthy := false; LogicalCount := 0; LogicalOvercommit := false; PhysicalCount := 0; PhysicalProfiles := [] |}.

(** [capByID]: of accelerators with one identifier, the last. *)
Definition capabilities (devs : Devices) : gmap string AcceleratorStatus :=
  foldl (fun m acc => <[AccID acc := AccStatus acc]> m) ∅ (mjoin (GrpAccelerators <$> SpecGroups devs)).

Definition covering (scopes : list flavorScope) (g : DevicesAllocationGroup) : gset string :=
  list_to_set (fs_flavor <$> filter (fun s =>
    fs_acceleratorKey s = acceleratorKeyOf (AgManufacturer g) (AgID g) /\
    (fs_acceleratorCount s = 0 \/ fs_acceleratorCount s = Z.of_nat (length (AgAccelerators g)))) scopes).

Definition node_cards (sd : scopedDevices) : list cardLedger :=
  let capByID := capabilities (sd_devices sd) in
  mjoin ((fun g => (fun acc => {|
      c_manufacturer := AgManufacturer g;
      c_flavors := covering (sd_scopes sd) g;
      c_hostname := sd_hostname sd;
      c_capability := default no_capability (capByID !! AllocID acc);
      c_mode := Mode acc;
      c_remaining := Remaining acc;
      c_remainingProfiles := RemainingProfiles acc;
      c_allocatedSlices := AllocatedSlices acc |}) <$> AgAccelerators g) <$> StatusGroups (sd_devices sd)).

Definition collectCards (pool : list scopedDevices) : list cardLedger := mjoin (node_cards <$> pool).

Definition servesFamily (c : cardLedger) (family : ResourceFamily) : bool :=
  match family with
  | ResourceFamilyPartitioned => IsPartitioned (c_capability c)
  | ResourceFamilySliced => IsLogicallySliceable (c_capability c)
  | _ => IsWholeAcceleratorCapable (c_capability c)
  end.

Definition freeSlots (c : cardLedger) : Z := LogicalSlotsFree (c_capability c) (c_allocatedSlices c).

(** Free, or already held in the mode. *)
Definition open_to (mode : DeviceAllocationMode) (c : cardLedger) : bool :=
  bool_decide (c_mode c = ModeNone) || bool_decide (c_mode c = mode).

Definition share : Z := ResourceMaxUnits / SharedResourceMaxSize.

Definition freeShares (c : cardLedger) : Z :=
  if negb (servesFamily c ResourceFamilyShared) || negb (open_to ModeShared c) then 0
  else c_remaining c `quot` share.

Definition freeSliceUnits (c : cardLedger) : Z :=
  if negb (servesFamily c ResourceFamilySliced) || negb (open_to ModeSliced c) || (freeSlots c <=? 0) then -1
  else c_remaining c.

Definition partitionProfilesHavePlacements (profiles : list PhysicalProfile) : bool :=
  existsb (fun p => (0 <? Z.of_nat (length (PPlacements p)))) profiles.

Definition remainingProfileCount (profiles : list AcceleratorProfileCount) (profile : string) : Z :=
  default 0 (first_of (fun p => if bool_decide (PcName p = profile) then Some (PcCount p) else None) profiles).

(** ** Budgets *)

Record cardBudget := { whole : bool; shares : Z; units : Z; slices : Z; placements : Z }.

Definition no_budget : cardBudget := {| whole := false; shares := 0; units := 0; slices := 0; placements := 0 |}.

Definition take_whole (b : cardBudget) : cardBudget :=
  {| whole := true; shares := shares b; units := units b; slices := slices b; placements := placements b |}.
Definition take_share (b : cardBudget) : cardBudget :=
  {| whole := whole b; shares := i32 (shares b + 1); units := units b; slices := slices b; placements := placements b |}.
Definition take_slice (u : Z) (b : cardBudget) : cardBudget :=
  {| whole := whole b; shares := shares b; units := i32 (units b + u); slices := i32 (slices b + 1);
     placements := placements b |}.
Definition take_placements (n : Z) (b : cardBudget) : cardBudget :=
  {| whole := whole b; shares := shares b; units := units b; slices := slices b;
     placements := i32 (placements b + n) |}.

(** A card with its budget; the lists [cards] and [budgets] of the code, zipped. *)
Abbreviation slot := (cardLedger * cardBudget)%type.

Definition verdict : Type := CheckState * Message.

Definition ready_or_retry (ok : bool) : CheckState := if ok then CheckStateReady else CheckStateRetry.

Definition scalar_verdict (ok : bool) (d : familyDemand) : verdict :=
  (ready_or_retry ok, demandVerdictMessage (ready_or_retry ok) d).

(** *** Whole cards *)

Definition usable_whole (d : familyDemand) (s : slot) : bool :=
  let '(c, b) := s in
  negb (whole b || (0 <? shares b) || (0 <? slices b) || negb (coveredBy c d) ||
        negb (servesFamily c (d_family d)) || (c_remaining c <? ResourceMaxUnits)).

Fixpoint fit_exclusive (d : familyDemand) (fit : Z) (slots : list slot) : bool * list slot :=
  match slots with
  | [] => (false, [])
  | s :: rest =>
      if negb (usable_whole d s) then let '(ok, rest) := fit_exclusive d fit rest in (ok, s :: rest)
      else let s := (s.1, take_whole s.2) in
           let fit := i32 (fit + 1) in
           if d_cards d <=? fit then (true, s :: rest)
           else let '(ok, rest) := fit_exclusive d fit rest in (ok, s :: rest)
  end.

Definition fitExclusiveDemand (slots : list slot) (d : familyDemand) : verdict * list slot :=
  let '(ok, slots) := fit_exclusive d 0 slots in (scalar_verdict ok d, slots).

(** *** Shares *)

Definition free_shares (d : familyDemand) (s : slot) : Z :=
  let '(c, b) := s in
  if whole b || (0 <? slices b) || negb (coveredBy c d) then 0 else i32 (freeShares c - shares b).

(** The cards of the node [host] with a free share, by position. *)
Definition with_share (d : familyDemand) (slots : list slot) (host : string) : list nat :=
  (imap pair slots ≫= fun '(i, s) =>
    if (0 <? free_shares d s) && bool_decide (c_hostname s.1 = host) then [i] else []).

(** The nodes with such a card, in name order. *)
Definition sharing_hosts (d : familyDemand) (slots : list slot) : list string :=
  merge_sort name_le (remove_dups ((fun s => c_hostname s.1) <$> filter (fun s => 0 < free_shares d s) slots)).

(** The node with more such cards, the first of equals. *)
Definition larger_node (d : familyDemand) (slots : list slot) (chosen : list nat) (host : string) : list nat :=
  let there := with_share d slots host in if (length chosen <? length there)%nat then there else chosen.

Definition chosen_cards (d : familyDemand) (slots : list slot) : list nat :=
  foldl (larger_node d slots) [] (sharing_hosts d slots).

Definition share_at (d : familyDemand) (slots : list slot) (i : nat) : Z :=
  default 0 (free_shares d <$> slots !! i).

(** One holder of [cards] distinct cards. *)
Definition place_holder (d : familyDemand) (cards : Z) (slots : list slot) : option (list slot) :=
  let chosen := chosen_cards d slots in
  if i32 (Z.of_nat (length chosen)) <? cards then None
  else let sorted := sort_stable (fun a b => share_at d slots b <=? share_at d slots a) chosen in
       Some (foldl (fun slots i => alter (fun s => (s.1, take_share s.2)) i slots) slots
                   (take (Z.to_nat cards) sorted)).

Fixpoint place_holders (d : familyDemand) (cards : Z) (containers : nat) (slots : list slot)
    : bool * list slot :=
  match containers with
  | O => (true, slots)
  | S containers =>
      match place_holder d cards slots with
      | None => (false, slots)
      | Some slots => place_holders d cards containers slots
      end
  end.

Fixpoint place_needs (d : familyDemand) (needs : list sharedNeed) (slots : list slot) : bool * list slot :=
  match needs with
  | [] => (true, slots)
  | n :: needs =>
      match place_holders d (need_cards n) (Z.to_nat (need_containers n)) slots with
      | (true, slots) => place_needs d needs slots
      | (false, slots) => (false, slots)
      end
  end.

Definition fitSharedDemand (slots : list slot) (d : familyDemand) : verdict * list slot :=
  let '(ok, slots) := place_needs d (d_sharedNeeds d) slots in (scalar_verdict ok d, slots).

(** *** Slices *)

Definition free_units (d : familyDemand) (s : slot) : Z :=
  let '(c, b) := s in
  let free := freeSliceUnits c in
  if (free <? 0) || whole b || (0 <? shares b) || negb (coveredBy c d) || (freeSlots c <=? slices b) then -1
  else i32 (free - units b).

(** The card with the fewest free units that fit a slice, the first of equals. *)
Definition best_card (d : familyDemand) (slots : list slot) : option (nat * Z) :=
  foldl (fun best '(i, s) =>
    let free := free_units d s in
    if (d_unitsPerCard d <=? free) && match best with None => true | Some (_, bestFree) => free <? bestFree end
    then Some (i, free) else best) None (imap pair slots).

Fixpoint place_slices (d : familyDemand) (n : nat) (slots : list slot) : bool * list slot :=
  match n with
  | O => (true, slots)
  | S n =>
      match best_card d slots with
      | None => (false, slots)
      | Some (best, _) =>
          place_slices d n (alter (fun s => (s.1, take_slice (d_unitsPerCard d) s.2)) best slots)
      end
  end.

Definition fitSlicedDemand (slots : list slot) (d : familyDemand) : verdict * list slot :=
  let '(ok, slots) := place_slices d (Z.to_nat (d_cards d)) slots in (scalar_verdict ok d, slots).

(** *** Partitions *)

Record partition_count := { partitionCards : Z; ledgerReady : Z; pfit : Z }.

(** The placements of the demand's profile the card still has. *)
Definition free_placements (d : familyDemand) (s : slot) : Z :=
  let '(c, b) := s in
  i32 (remainingProfileCount (c_remainingProfiles c) (VendorPartitionedProfileName (c_manufacturer c) (d_profile d))
       - placements b).

Definition count_card (c : cardLedger) (n : partition_count) : partition_count := {|
  partitionCards := i32 (partitionCards n + 1);
  ledgerReady := if partitionProfilesHavePlacements (PhysicalProfiles (c_capability c))
                 then i32 (ledgerReady n + 1) else ledgerReady n;
  pfit := pfit n |}.

Fixpoint fit_partition (d : familyDemand) (n : partition_count) (slots : list slot)
    : bool * partition_count * list slot :=
  match slots with
  | [] => (false, n, [])
  | s :: rest =>
      if negb (coveredBy s.1 d) || negb (servesFamily s.1 ResourceFamilyPartitioned) then
        let '(ok, n, rest) := fit_partition d n rest in (ok, n, s :: rest)
      else
        let n := count_card s.1 n in
        if negb (open_to ModePartitioned s.1) || (free_placements d s <=? 0) then
          let '(ok, n, rest) := fit_partition d n rest in (ok, n, s :: rest)
        else
          let take := Z.min (free_placements d s) (i32 (d_cards d - pfit n)) in
          let s := (s.1, take_placements take s.2) in
          let n := {| partitionCards := partitionCards n; ledgerReady := ledgerReady n; pfit := i32 (pfit n + take) |} in
          if d_cards d <=? pfit n then (true, n, s :: rest)
          else let '(ok, n, rest) := fit_partition d n rest in (ok, n, s :: rest)
  end.

Definition partition_verdict (ok : bool) (n : partition_count) (d : familyDemand) : verdict :=
  if ok then
    (CheckStateReady, if negb (bool_decide (d_node d = "")) then assignedNodeMessage CheckStateReady d
                      else partitionVerdictMessage CheckStateReady (d_profile d) (d_podSets d))
  else
    (CheckStateRetry,
     if partitionCards n =? 0 then partitionNoCardsMessage (d_profile d) (d_podSets d)
     else if ledgerReady n =? 0 then partitionLedgerNotReadyMessage (d_podSets d)
     else if negb (bool_decide (d_node d = "")) then assignedNodeMessage CheckStateRetry d
     else partitionVerdictMessage CheckStateRetry (d_profile d) (d_podSets d)).

Definition fitPartitionDemand (slots : list slot) (d : familyDemand) : verdict * list slot :=
  let '(ok, n, slots) := fit_partition d {| partitionCards := 0; ledgerReady := 0; pfit := 0 |} slots in
  (partition_verdict ok n d, slots).

(** ** The fit of a Workload *)

Definition fitDemand (slots : list slot) (d : familyDemand) : verdict * list slot :=
  match d_family d with
  | ResourceFamilyPartitioned => fitPartitionDemand slots d
  | ResourceFamilyShared => fitSharedDemand slots d
  | ResourceFamilySliced => fitSlicedDemand slots d
  | _ => fitExclusiveDemand slots d
  end.

(** Every inflight demand takes what it can. *)
Definition fit_inflight (slots : list slot) (inflight : list familyDemand) : list slot :=
  foldl (fun slots d => (fitDemand slots d).2) slots inflight.

Fixpoint fit_demands (counted : bool) (message : Message) (slots : list slot) (demands : list familyDemand) : verdict :=
  match demands with
  | [] => (CheckStateReady, message)
  | d :: demands =>
      let '((state, message), slots) := fitDemand slots d in
      if negb (bool_decide (state = CheckStateReady))
      then (state, if counted then WithInflightClause message else message)
      else fit_demands counted message slots demands
  end.

Definition nodeDevicesFeasibility (pool : list scopedDevices) (inflight demands : list familyDemand) : verdict :=
  let message := verdictMessage CheckStateReady [] in
  if (length demands =? 0)%nat then (CheckStateReady, message)
  else
    let slots := (fun c => (c, no_budget)) <$> collectCards pool in
    fit_demands (negb (length inflight =? 0)%nat) message (fit_inflight slots inflight) demands.
