(* ===== verification/AdmitPlacement.v ===== *)
(** * Device admission: what a verdict means

    A placement of a demand on cards, independent of any algorithm, and the
    relation of the greedy fit of AdmitFit.v to it: what the fit charges is a
    placement, and on the cards of one node the fit finds a placement of a demand
    whenever there is one. *)

From stdpp Require Import prelude gmap strings list sorting.
From S2P Require Import Prelude Device PluginRecords AdmitDemand AdmitFit.

(** ** Placements *)

(** The parts of a demand, each by the number of distinct cards it needs: the
    holders of a shared demand; the cards, slices or instances of any other. *)
Definition parts (d : familyDemand) : list nat :=
  match d_family d with
  | ResourceFamilyShared =>
      mjoin ((fun n => replicate (Z.to_nat (need_containers n)) (Z.to_nat (need_cards n))) <$> d_sharedNeeds d)
  | _ => replicate (Z.to_nat (d_cards d)) 1%nat
  end.

(** How many parts use card [i]. *)
Definition uses (g : list (list nat)) (i : nat) : nat := length (filter (fun part => i ∈ part) g).
#[global] Arguments uses : simpl never.

(** The card can take [n] more parts of the demand. *)
Definition room (d : familyDemand) (s : slot) (n : nat) : Prop :=
  let '(c, b) := s in
  coveredBy c d = true /\ servesFamily c (d_family d) = true /\
  match d_family d with
  | ResourceFamilyPartitioned =>
      open_to ModePartitioned c = true /\
      placements b + Z.of_nat n <=
        remainingProfileCount (c_remainingProfiles c) (VendorPartitionedProfileName (c_manufacturer c) (d_profile d))
  | ResourceFamilyShared =>
      open_to ModeShared c = true /\ whole b = false /\ slices b = 0 /\
      shares b + Z.of_nat n <= c_remaining c `quot` share
  | ResourceFamilySliced =>
      open_to ModeSliced c = true /\ whole b = false /\ shares b = 0 /\
      slices b + Z.of_nat n <= freeSlots c /\ units b + Z.of_nat n * d_unitsPerCard d <= c_remaining c
  | _ =>
      n = 1%nat /\ whole b = false /\ shares b = 0 /\ slices b = 0 /\ ResourceMaxUnits <= c_remaining c
  end.

(** The budget afterwards. *)
Definition charged (d : familyDemand) (n : nat) (b : cardBudget) : cardBudget :=
  match d_family d with
  | ResourceFamilyPartitioned =>
      {| whole := whole b; shares := shares b; units := units b; slices := slices b;
         placements := placements b + Z.of_nat n |}
  | ResourceFamilyShared =>
      {| whole := whole b; shares := shares b + Z.of_nat n; units := units b; slices := slices b;
         placements := placements b |}
  | ResourceFamilySliced =>
      {| whole := whole b; shares := shares b; units := units b + Z.of_nat n * d_unitsPerCard d;
         slices := slices b + Z.of_nat n; placements := placements b |}
  | _ =>
      {| whole := whole b || (0 <? Z.of_nat n); shares := shares b; units := units b; slices := slices b;
         placements := placements b |}
  end.

Definition after (d : familyDemand) (g : list (list nat)) (slots : list slot) : list slot :=
  imap (fun i s => (s.1, charged d (uses g i) s.2)) slots.

(** The parts [g] of a demand on the cards: a part has distinct cards of one node,
    and every card has room for all the parts that use it. *)
Record placement (d : familyDemand) (g : list (list nat)) (slots : list slot) : Prop := {
  distinct_cards : Forall NoDup g;
  one_node : forall part i j s s',
    part ∈ g -> i ∈ part -> j ∈ part -> slots !! i = Some s -> slots !! j = Some s' -> c_hostname s.1 = c_hostname s'.1;
  has_room : forall i, (0 < uses g i)%nat -> exists s, slots !! i = Some s /\ room d s (uses g i) }.

Definition placeable (d : familyDemand) (slots : list slot) : Prop :=
  exists g, length <$> g = parts d /\ placement d g slots.

(** All the parts are placed; as many as fit, and all of them if they can be. *)
Definition in_full (d : familyDemand) (g : list (list nat)) (slots : list slot) : Prop := length <$> g = parts d.
Definition if_possible (d : familyDemand) (g : list (list nat)) (slots : list slot) : Prop :=
  in_full d g slots \/ ((length <$> g) `prefix_of` parts d /\ ~ placeable d slots).

(** Demands placed one after another. *)
Inductive in_turn (how : familyDemand -> list (list nat) -> list slot -> Prop)
    : list slot -> list familyDemand -> list slot -> Prop :=
  | in_turn_nil slots : in_turn how slots [] slots
  | in_turn_cons slots d g l slots' :
      placement d g slots -> how d g slots -> in_turn how (after d g slots) l slots' -> in_turn how slots (d :: l) slots'.

(** ** Cards and budgets in range *)

(** The [int32]s of a ledger, its counts not negative. *)
Definition sound_card (c : cardLedger) : Prop :=
  is_i32 (c_remaining c) /\ Forall (fun p => 0 <= PcCount p < 2 ^ 31) (c_remainingProfiles c).

#[export] Instance sound_card_dec c : Decision (sound_card c).
Proof. unfold sound_card, is_i32. apply _. Defined.

(** What was charged so far was there. *)
Record sound_slot (s : slot) : Prop := {
  slot_card : sound_card s.1;
  slot_shares : 0 <= shares s.2 <= Z.max 0 (freeShares s.1);
  slot_units : 0 <= units s.2 <= Z.max 0 (c_remaining s.1);
  slot_slices : 0 <= slices s.2 <= Z.max 0 (freeSlots s.1);
  slot_placements : 0 <= placements s.2 < 2 ^ 31 }.

(** How many parts of the demand the card can take. *)
Definition capacity (d : familyDemand) (s : slot) : nat :=
  match d_family d with
  | ResourceFamilyPartitioned =>
      if coveredBy s.1 d && servesFamily s.1 ResourceFamilyPartitioned && open_to ModePartitioned s.1
      then Z.to_nat (free_placements d s) else 0%nat
  | ResourceFamilyShared => Z.to_nat (free_shares d s)
  | ResourceFamilySliced =>
      if free_units d s <? d_unitsPerCard d then 0%nat
      else let slots := Z.to_nat (freeSlots s.1 - slices s.2) in
           if d_unitsPerCard d =? 0 then slots else Nat.min slots (Z.to_nat (free_units d s / d_unitsPerCard d))
  | _ => if usable_whole d s then 1%nat else 0%nat
  end.

Definition capacity_at (d : familyDemand) (slots : list slot) (i : nat) : nat :=
  default 0%nat (capacity d <$> slots !! i).

Lemma freeSlots_range c : is_i32 (freeSlots c).
Proof.
  unfold freeSlots, LogicalSlotsFree. destruct (negb _); [unfold is_i32; lia|apply i32_range].
Qed.

Lemma freeShares_range c : sound_card c -> -13422 <= freeShares c <= 13422.
Proof.
  intros [Hr _]. unfold freeShares. destruct (_ || _); [lia|]. unfold is_i32 in Hr.
  change share with 160000. pose proof (Z.quot_rem' (c_remaining c) 160000).
  pose proof (Z.rem_bound_abs (c_remaining c) 160000 ltac:(lia)). lia.
Qed.

Lemma profile_count_range c p : sound_card c -> 0 <= remainingProfileCount (c_remainingProfiles c) p < 2 ^ 31.
Proof.
  intros [_ Hp]. unfold remainingProfileCount, first_of. destruct (head _) as [n|] eqn:Hh; cbn; [|lia].
  apply head_Some_elem_of, list_elem_of_omap in Hh as (x & Hx & Hb). rewrite list.Forall_forall in Hp.
  specialize (Hp x Hx). case_bool_decide; [|done]. injection Hb as <-. lia.
Qed.

Section Capacity.
Context (d : familyDemand) (Hd : sized d).

Lemma free_shares_small s : sound_slot s -> free_shares d s =
  if whole s.2 || (0 <? slices s.2) || negb (coveredBy s.1 d) then 0 else freeShares s.1 - shares s.2.
Proof.
  destruct s as [c b]. intros [Hc Hs _ _ _]. cbn in *. destruct (_ || _ || _); [done|]. apply i32_small.
  pose proof (freeShares_range c Hc). unfold is_i32. lia.
Qed.

Lemma free_units_small s : sound_slot s -> free_units d s =
  if (freeSliceUnits s.1 <? 0) || whole s.2 || (0 <? shares s.2) || negb (coveredBy s.1 d) || (freeSlots s.1 <=? slices s.2)
  then -1 else freeSliceUnits s.1 - units s.2.
Proof.
  destruct s as [c b]. intros [[Hr _] _ Hu _ _]. cbn in *. unfold freeSliceUnits.
  destruct (negb (servesFamily c ResourceFamilySliced) || negb (open_to ModeSliced c) || (freeSlots c <=? 0)); cbn; [done|].
  destruct (_ || _); [done|]. apply i32_small. unfold is_i32 in *. lia.
Qed.

Lemma free_placements_small s : sound_slot s -> free_placements d s =
  remainingProfileCount (c_remainingProfiles s.1) (VendorPartitionedProfileName (c_manufacturer s.1) (d_profile d)) - placements s.2.
Proof.
  destruct s as [c b]. intros [Hc _ _ _ Hp]. cbn in *. apply i32_small.
  pose proof (profile_count_range c (VendorPartitionedProfileName (c_manufacturer c) (d_profile d)) Hc). unfold is_i32. lia.
Qed.
End Capacity.

Section Greedy.
Context (d : familyDemand) (Hd : sized d).

(** *** Capacity is what there is room for *)

Ltac cases := intuition (congruence || lia || (exfalso; lia)).

Lemma usable_whole_iff s : 0 <= shares s.2 -> 0 <= slices s.2 -> usable_whole d s = true <->
  coveredBy s.1 d = true /\ servesFamily s.1 (d_family d) = true /\
  whole s.2 = false /\ shares s.2 = 0 /\ slices s.2 = 0 /\ ResourceMaxUnits <= c_remaining s.1.
Proof.
  destruct s as [c b]. cbn. intros H1 H2. rewrite negb_true_iff, !orb_false_iff, !negb_false_iff, !Z.ltb_ge.
  cases.
Qed.

Lemma room_shared c b n : sound_slot (c, b) -> d_family d = ResourceFamilyShared -> (0 < n)%nat ->
  room d (c, b) n <-> (n <= capacity d (c, b))%nat.
Proof.
  intros Hs Hf Hn. unfold room, capacity. rewrite Hf, free_shares_small by done. destruct Hs as [_ Hsh _ Hsl _]. cbn in *.
  unfold freeShares in *. destruct (coveredBy c d); cbn; [|rewrite orb_true_r; cbn; split; [by intros [? _]|lia]].
  rewrite orb_false_r. destruct (whole b); cbn; [cases|].
  destruct (Z.ltb_spec 0 (slices b)); cbn; [cases|].
  destruct (IsWholeAcceleratorCapable _); cbn in *; [|cases].
  destruct (open_to ModeShared c); cbn in *; [|cases].
  cases.
Qed.

Lemma room_partitioned c b n : sound_slot (c, b) -> d_family d = ResourceFamilyPartitioned -> (0 < n)%nat ->
  room d (c, b) n <-> (n <= capacity d (c, b))%nat.
Proof.
  intros Hs Hf Hn. unfold room, capacity. rewrite Hf, free_placements_small by done. cbn.
  destruct (coveredBy c d), (IsPartitioned (c_capability c)), (open_to ModePartitioned c); cbn; cases.
Qed.

Lemma slices_fit n k u r x : 0 <= u -> 0 <= r -> (0 < n)%nat ->
  (x <= r /\ Z.of_nat n <= k /\ x + Z.of_nat n * u <= r) <->
  u <= r - x /\ x <= r /\ (n <= if (u =? 0)%Z then Z.to_nat k else Z.to_nat k `min` Z.to_nat ((r - x) / u))%nat.
Proof.
  intros Hu Hr Hn. destruct (Z.eqb_spec u 0) as [->|Hne]; [split; intros; lia|].
  split.
  - intros (H1 & H2 & H3). assert (Z.of_nat n <= (r - x) / u) by (apply Z.div_le_lower_bound; lia). nia.
  - intros (H1 & H2 & H3). assert (Z.of_nat n <= (r - x) / u) as Hq by lia.
    assert (u * ((r - x) / u) <= r - x) by (apply Z.mul_div_le; lia). nia.
Qed.

Lemma room_sliced c b n : sound_slot (c, b) -> d_family d = ResourceFamilySliced -> (0 < n)%nat ->
  room d (c, b) n <-> (n <= capacity d (c, b))%nat.
Proof.
  intros Hs Hf Hn. unfold room, capacity. rewrite Hf, free_units_small by done.
  destruct Hs as [_ Hsh Hu Hsl _]. pose proof (sized_units d Hd) as Hun. cbn in *. unfold freeSliceUnits. cbn [servesFamily].
  destruct (IsLogicallySliceable (c_capability c)); cbn.
  2: { destruct (Z.ltb_spec (-1) (d_unitsPerCard d)); cases. }
  destruct (open_to ModeSliced c); cbn.
  2: { destruct (Z.ltb_spec (-1) (d_unitsPerCard d)); cases. }
  destruct (Z.leb_spec (freeSlots c) 0); cbn.
  { destruct (Z.ltb_spec (-1) (d_unitsPerCard d)); cases. }
  destruct ((c_remaining c <? 0) || whole b || (0 <? shares b) || negb (coveredBy c d) || (freeSlots c <=? slices b)) eqn:Hb.
  - assert (-1 <? d_unitsPerCard d = true) as -> by lia. rewrite !orb_true_iff, negb_true_iff in Hb.
    split; [|lia]. intros (H1 & _ & _ & H2 & H3 & H4 & H5). destruct Hb as [[[[Hb|Hb]|Hb]|Hb]|Hb]; (congruence || nia).
  - rewrite !orb_false_iff, negb_false_iff in Hb. destruct Hb as [[[[B1 B2] B3] B4] B5].
    pose proof (slices_fit n (freeSlots c - slices b) (d_unitsPerCard d) (c_remaining c) (units b) ltac:(lia) ltac:(lia) Hn) as Hf'.
    destruct (Z.ltb_spec (c_remaining c - units b) (d_unitsPerCard d)); cases.
Qed.

Lemma room_exclusive c b n : sound_slot (c, b) -> d_family d = ResourceFamilyExclusive -> (0 < n)%nat ->
  room d (c, b) n <-> (n <= capacity d (c, b))%nat.
Proof.
  intros Hs Hf Hn. destruct Hs as [_ Hsh _ Hsl _].
  pose proof (usable_whole_iff (c, b) (proj1 Hsh) (proj1 Hsl)) as Hu. unfold room, capacity. rewrite Hf in *.
  destruct (usable_whole d (c, b)).
  - destruct (proj1 Hu eq_refl) as (? & ? & ? & ? & ? & ?). split; [intros (_ & _ & -> & _); lia|]. intros Hle.
    assert (n = 1%nat) as -> by lia. done.
  - split; [|lia]. intros (? & ? & -> & ? & ? & ? & ?). discriminate (proj2 Hu ltac:(done)).
Qed.

Lemma room_capacity s n : sound_slot s -> (0 < n)%nat -> room d s n <-> (n <= capacity d s)%nat.
Proof.
  destruct s as [c b]. pose proof (sized_family d Hd) as Hc. destruct (d_family d) eqn:E; try done; intros Hs Hn.
  - by apply room_exclusive.
  - by apply room_shared.
  - by apply room_sliced.
  - by apply room_partitioned.
Qed.

(** *** Charging *)

Lemma charged_0 b : charged d 0 b = b.
Proof.
  unfold charged. destruct b as [w sh u sl p]. destruct (d_family d); cbn; rewrite ?Z.add_0_r, ?orb_false_r; done.
Qed.

Lemma charged_add m n b : charged d m (charged d n b) = charged d (n + m) b.
Proof.
  unfold charged. destruct (d_family d); cbn; f_equal; try lia.
  all: destruct (whole b); cbn; [done|]; destruct n, m; done.
Qed.

Lemma room_charged c b n m : room d (c, b) n -> (0 < n)%nat -> (0 < m)%nat ->
  room d (c, charged d n b) m <-> room d (c, b) (n + m).
Proof.
  intros Hr Hn Hm. unfold room, charged in *. pose proof (sized_family d Hd) as Hf.
  destruct (d_family d); try done; cbn in *; destruct Hr as (H1 & H2 & H3); rewrite ?Nat2Z.inj_add.
  - split; [|intros (_ & _ & ? & _); lia]. intros (_ & _ & _ & Hw & _). destruct n; [lia|]. by rewrite orb_true_r in Hw.
  - split; intros; destruct_and!; split_and!; done || lia.
  - split; intros; destruct_and!; split_and!; done || lia.
  - split; intros; destruct_and!; split_and!; done || lia.
Qed.

Lemma capacity_charged c b n : sound_slot (c, b) -> (n <= capacity d (c, b))%nat ->
  sound_slot (c, charged d n b) /\ (capacity d (c, charged d n b) = capacity d (c, b) - n)%nat.
Proof.
  intros Hs Hn. destruct (decide (n = 0%nat)) as [->|Hnz]; [rewrite charged_0, Nat.sub_0_r; done|].
  assert (room d (c, b) n) as Hr by (apply room_capacity; [done|lia|done]).
  assert (sound_slot (c, charged d n b)) as Hs'.
  { destruct Hs as [H1 H2 H3 H4 H5]. cbn in *. pose proof (sized_family d Hd) as Hf. pose proof (sized_units d Hd) as Hu.
    pose proof (profile_count_range c (VendorPartitionedProfileName (c_manufacturer c) (d_profile d)) H1) as Hp.
    unfold room, charged in *. unfold freeShares in *.
    destruct (d_family d); try done; constructor; cbn in *; try done; destruct_and!; try lia.
    - unfold freeShares. cbn [servesFamily].
      match goal with A : IsWholeAcceleratorCapable _ = true, B : open_to ModeShared c = true |- _ => rewrite A, B in * end.
      cbn in *. lia. }
  split; [done|]. apply Nat.le_antisymm.
  - destruct (decide (capacity d (c, charged d n b) = 0%nat)) as [->|Hnz']; [lia|].
    assert (room d (c, charged d n b) (capacity d (c, charged d n b))) as Hr' by (apply room_capacity; [done|lia|done]).
    apply room_charged in Hr'; [|done|lia|lia]. apply room_capacity in Hr'; [lia|done|lia].
  - destruct (decide (capacity d (c, b) - n = 0)%nat) as [->|Hnz']; [lia|].
    apply room_capacity; [done|lia|]. apply room_charged; [done|lia|lia|]. apply room_capacity; [done|lia|lia].
Qed.
End Greedy.

(** ** Parts and the cards they use *)

Lemma uses_app g h i : uses (g ++ h) i = (uses g i + uses h i)%nat.
Proof. unfold uses. by rewrite filter_app, length_app. Qed.

Lemma uses_cons part g i : uses (part :: g) i = ((if decide (i ∈ part) then 1 else 0) + uses g i)%nat.
Proof. unfold uses. rewrite filter_cons. by destruct (decide (i ∈ part)). Qed.

Lemma uses_0 g i : uses g i = 0%nat <-> forall part, part ∈ g -> i ∉ part.
Proof.
  unfold uses. rewrite length_zero_iff_nil. split.
  - intros Hn part Hp Hi. apply (elem_of_nil part). rewrite <- Hn. apply list_elem_of_filter. done.
  - intros Ha. apply filter_none. intros part Hp Hi. by apply (Ha part).
Qed.

Lemma uses_perm g h i : g ≡ₚ h -> uses g i = uses h i.
Proof. intros Hp. unfold uses. by rewrite Hp. Qed.

(** Parts that fit a capacity of each card. *)
Definition packed (cap : nat -> nat) (sizes : list nat) (g : list (list nat)) : Prop :=
  length <$> g = sizes /\ Forall NoDup g /\ forall i, (uses g i <= cap i)%nat.

(** *** Taking the cards with the most room loses nothing *)

Section Exchange.
Context (cap : nat -> nat).

Lemma swap_in part (a b : nat) :
  NoDup part -> a ∉ part -> b ∈ part ->
  exists part', NoDup part' /\ length part' = length part /\ a ∈ part' /\ b ∉ part' /\
    forall i, i <> a -> i <> b -> (i ∈ part' <-> i ∈ part).
Proof.
  intros Hn Ha (l & r & ->)%list_elem_of_split. exists (a :: l ++ r).
  rewrite NoDup_app, NoDup_cons in Hn. destruct Hn as (Hl & Hlr & Hb & Hr).
  assert (forall i, i ∈ l ++ b :: r <-> i = b \/ i ∈ l ++ r) as Hin by (intros; rewrite !elem_of_app, elem_of_cons; tauto).
  assert (b ∉ l) as Hbl by (intros Hbl; apply (Hlr b Hbl); left). rewrite Hin in Ha.
  split_and!; [|cbn; rewrite !length_app; cbn; lia|left| |].
  - constructor; [tauto|]. apply NoDup_app. split_and!; [done| |done]. intros x Hx Hx'. apply (Hlr x Hx). by right.
  - rewrite elem_of_cons, elem_of_app. intros [<-|[?|?]]; tauto.
  - intros i Hia Hib. rewrite Hin, elem_of_cons. tauto.
Qed.

(** A part that another card would serve as well can use that card instead. *)
Lemma exchange part g a b :
  NoDup part -> Forall NoDup g -> (forall i, (uses (part :: g) i <= cap i)%nat) ->
  a ∉ part -> b ∈ part -> (cap b <= cap a)%nat ->
  exists part' g', NoDup part' /\ length part' = length part /\ length <$> g' = length <$> g /\ Forall NoDup g' /\
    (forall i, (uses (part' :: g') i <= cap i)%nat) /\ a ∈ part' /\ b ∉ part' /\
    forall i, i <> a -> i <> b -> (i ∈ part' <-> i ∈ part).
Proof.
  intros Hn Hg Hu Ha Hb Hab. destruct (swap_in part a b Hn Ha Hb) as (p' & Hn' & Hl' & Ha' & Hb' & Hs).
  destruct (decide (uses g a < cap a)%nat) as [Hfree|Hfull].
  - exists p', g. split_and!; try done. intros i. specialize (Hu i). rewrite uses_cons in *.
    destruct (decide (i = a)) as [->|Hia]; [rewrite decide_True by done; lia|].
    destruct (decide (i = b)) as [->|Hib]; [rewrite decide_False by done; lia|].
    destruct (decide (i ∈ p')), (decide (i ∈ part)); try lia. exfalso. naive_solver.
  - (* some part uses [a] and not [b] *)
    assert (exists q, q ∈ g /\ a ∈ q /\ b ∉ q) as (q & Hq & Haq & Hbq).
    { pose proof (Hu a) as Hua. pose proof (Hu b) as Hub. rewrite uses_cons in Hua, Hub.
      rewrite decide_False in Hua by done. rewrite decide_True in Hub by done.
      assert (uses g b < uses g a)%nat as Hlt by lia. clear -Hlt.
      induction g as [|q g IH]; [unfold uses in Hlt; cbn in Hlt; lia|]. rewrite !uses_cons in Hlt.
      destruct (decide (a ∈ q)) as [Haq|Haq], (decide (b ∈ q)) as [Hbq|Hbq].
      - destruct IH as (q' & ? & ? & ?); [lia|]. exists q'. split; [by right|done].
      - exists q. split; [left|done].
      - destruct IH as (q' & ? & ? & ?); [lia|]. exists q'. split; [by right|done].
      - destruct IH as (q' & ? & ? & ?); [lia|]. exists q'. split; [by right|done]. }
    apply list_elem_of_split in Hq as (l & r & ->).
    rewrite Forall_app, Forall_cons in Hg. destruct Hg as (Hgl & Hnq & Hgr).
    destruct (swap_in q b a Hnq Hbq Haq) as (q' & Hnq' & Hlq' & Hbq' & Haq' & Hsq).
    exists p', (l ++ q' :: r). split_and!; try done.
    + rewrite !fmap_app, !fmap_cons. by rewrite Hlq'.
    + by rewrite Forall_app, Forall_cons.
    + intros i. specialize (Hu i). rewrite uses_cons, uses_app, uses_cons in *.
      destruct (decide (i = a)) as [->|Hia].
      { rewrite (decide_True _ _ Ha'), (decide_False _ _ Haq'). rewrite (decide_False _ _ Ha), (decide_True _ _ Haq) in Hu. lia. }
      destruct (decide (i = b)) as [->|Hib].
      { rewrite (decide_False _ _ Hb'), (decide_True _ _ Hbq'). rewrite (decide_True _ _ Hb), (decide_False _ _ Hbq) in Hu. lia. }
      destruct (decide (i ∈ p')), (decide (i ∈ part)), (decide (i ∈ q')), (decide (i ∈ q)); try lia; exfalso; naive_solver.
Qed.

(** [top] holds the cards with the most room. *)
Lemma greedy_part (top : list nat) sizes :
  NoDup top -> (forall a b, a ∈ top -> b ∉ top -> (cap b <= cap a)%nat) ->
  forall part g, length part = length top -> NoDup part -> Forall NoDup g -> length <$> g = sizes ->
  (forall i, (uses (part :: g) i <= cap i)%nat) ->
  exists g', packed (fun i => cap i - if decide (i ∈ top) then 1 else 0)%nat sizes g'.
Proof.
  intros Ht Htop. assert (forall k part g, (length (filter (fun i => i ∉ part) top) <= k)%nat ->
    length part = length top -> NoDup part -> Forall NoDup g -> length <$> g = sizes ->
    (forall i, (uses (part :: g) i <= cap i)%nat) ->
    exists g', packed (fun i => cap i - if decide (i ∈ top) then 1 else 0)%nat sizes g') as H; [|eauto].
  induction k as [|k IH]; intros part g Hk Hl Hn Hg Hs Hu.
  - exists g. split; [done|]. split; [done|]. intros i. specialize (Hu i). rewrite uses_cons in Hu.
    assert (forall i, i ∈ top -> i ∈ part) as Hsub.
    { intros j Hj. destruct (decide (j ∈ part)) as [|Hj']; [done|]. exfalso.
      apply (elem_of_nil j). rewrite <- (nil_length_inv (filter (fun i => i ∉ part) top)) by lia.
      by apply list_elem_of_filter. }
    destruct (decide (i ∈ top)) as [Hi|Hi]; [rewrite decide_True in Hu by (by apply Hsub)|]; lia.
  - destruct (filter (fun i => i ∉ part) top) as [|a rest] eqn:Hf; [apply (IH part g); try done; rewrite Hf; cbn; lia|].
    assert (a ∈ filter (fun i => i ∉ part) top) as [Ha Hat]%list_elem_of_filter by (rewrite Hf; left).
    assert (exists b, b ∈ part /\ b ∉ top) as (b & Hb & Hbt).
    { destruct (decide (Forall (fun b => b ∈ top) part)) as [Hall|Hex].
      - exfalso. assert (part ≡ₚ top) as Hp.
        { apply submseteq_length_Permutation; [|lia]. apply NoDup_submseteq; [done|]. by apply list.Forall_forall. }
        by rewrite Hp in Ha.
      - apply not_Forall_Exists in Hex; [|intros; apply _]. apply Exists_exists in Hex as (b & ? & ?). eauto. }
    destruct (exchange part g a b Hn Hg Hu Ha Hb (Htop a b Hat Hbt)) as (p' & g' & Hn' & Hl' & Hs' & Hg' & Hu' & Ha' & Hb' & Hsame).
    apply (IH p' g'); try done; [|congruence|congruence].
    enough (length (filter (fun i => i ∉ p') top) < length (filter (fun i => i ∉ part) top))%nat by (rewrite Hf in *; cbn in *; lia).
    rewrite (filter_agree (fun i => i ∉ p') (fun i => i <> a /\ i ∉ part) top).
    2: { intros i Hi. destruct (decide (i = a)) as [->|Hia]; [tauto|]. assert (i <> b) by (by intros ->). rewrite (Hsame i) by done. tauto. }
    rewrite <- (list_filter_filter (fun i => i <> a) (fun i => i ∉ part)). apply length_filter_lt with a; [|tauto].
    by apply list_elem_of_filter.
Qed.
End Exchange.

(** *** Parts of one card *)

Abbreviation singles := (Forall (fun part : list nat => length part = 1%nat)).

Lemma sum_list_alter_pred (c : list nat) j k :
  c !! j = Some (S k) -> sum_list c = S (sum_list (alter pred j c)).
Proof.
  revert j. induction c as [|n c IH]; intros [|j] Hj; try done; cbn in *.
  - injection Hj as ->. done.
  - rewrite (IH j Hj). cbn. lia.
Qed.

(** Every part takes one of what its card has. *)
Lemma sum_minus (c : list nat) g :
  singles g -> (forall i, (uses g i <= default 0 (c !! i))%nat) ->
  (sum_list (imap (fun i n => n - uses g i) c) + length g = sum_list c)%nat.
Proof.
  intros Hg. revert c. induction Hg as [|part g Hp _ IH]; intros c Hu.
  - cbn. rewrite Nat.add_0_r. f_equal. apply list_eq. intros i. rewrite list_lookup_imap. destruct (c !! i) as [n|]; [|done].
    cbn. f_equal. unfold uses. cbn. lia.
  - destruct part as [|j [|]]; try done. clear Hp.
    assert (exists k, c !! j = Some (S k)) as [k Hk].
    { specialize (Hu j). rewrite uses_cons, decide_True in Hu by (by apply list_elem_of_singleton).
      destruct (c !! j) as [[|k]|]; cbn in Hu; [lia|eauto|lia]. }
    rewrite (sum_list_alter_pred c j k Hk). rewrite <- (IH (alter pred j c)).
    + cbn [length]. rewrite Nat.add_succ_r. do 3 f_equal. apply list_eq. intros i. rewrite !list_lookup_imap.
      destruct (decide (i = j)) as [->|Hne].
      * rewrite list_lookup_alter_eq, Hk. cbn. rewrite uses_cons, decide_True by (by apply list_elem_of_singleton). done.
      * rewrite list_lookup_alter_ne by done. rewrite uses_cons, decide_False by (by rewrite list_elem_of_singleton). done.
    + intros i. specialize (Hu i). rewrite uses_cons in Hu. destruct (decide (i = j)) as [->|Hne].
      * rewrite list_lookup_alter_eq, Hk in *. cbn in *. rewrite decide_True in Hu by (by apply list_elem_of_singleton). lia.
      * rewrite list_lookup_alter_ne by done. rewrite decide_False in Hu by (by rewrite list_elem_of_singleton). lia.
Qed.

(** [n] parts on each card, by position. *)
Fixpoint spread (k : nat) (taken : list nat) : list (list nat) :=
  match taken with [] => [] | n :: taken => replicate n [k] ++ spread (S k) taken end.

Lemma spread_singles k taken : singles (spread k taken) /\ length (spread k taken) = sum_list taken.
Proof.
  revert k. induction taken as [|n taken IH]; intros k; cbn; [done|]. destruct (IH (S k)) as [H1 H2].
  rewrite length_app, length_replicate, H2. split; [|done]. apply Forall_app. split; [by apply Forall_replicate|done].
Qed.

Lemma spread_uses k taken i : uses (spread k taken) (k + i) = default 0%nat (taken !! i).
Proof.
  assert (forall taken k i, (i < k)%nat -> uses (spread k taken) i = 0%nat) as Hlow.
  { intros t. induction t as [|n t IH]; intros k' j Hj; [done|]. cbn. rewrite uses_app, IH by lia.
    rewrite (proj2 (uses_0 _ _)); [done|]. intros part (-> & _)%elem_of_replicate. rewrite list_elem_of_singleton. lia. }
  revert k i. induction taken as [|n taken IH]; intros k i; [done|]. cbn [spread]. rewrite uses_app. destruct i as [|i].
  - rewrite Nat.add_0_r, Hlow by lia. cbn. rewrite Nat.add_0_r. unfold uses.
    rewrite filter_all; [apply length_replicate|]. intros part (-> & _)%elem_of_replicate. by apply list_elem_of_singleton.
  - rewrite (proj2 (uses_0 _ _)).
    2: { intros part (-> & _)%elem_of_replicate. rewrite list_elem_of_singleton. lia. }
    replace (k + S i)%nat with (S k + i)%nat by lia. apply IH.
Qed.

(** ** One demand *)

Section Fit.
Context (d : familyDemand) (Hd : sized d).

Lemma after_lookup g slots i :
  after d g slots !! i = (fun s => (s.1, charged d (uses g i) s.2)) <$> slots !! i.
Proof. apply list_lookup_imap. Qed.

Lemma after_nil slots : after d [] slots = slots.
Proof.
  apply list_eq. intros i. rewrite after_lookup. destruct (slots !! i) as [[c b]|]; [|done]. cbn. by rewrite charged_0.
Qed.

Lemma after_app g h slots : after d h (after d g slots) = after d (g ++ h) slots.
Proof.
  apply list_eq. intros i. rewrite !after_lookup. destruct (slots !! i) as [[c b]|]; [|done]. cbn.
  by rewrite charged_add, uses_app.
Qed.

Lemma after_sound g slots :
  Forall sound_slot slots -> (forall i, (uses g i <= capacity_at d slots i)%nat) ->
  Forall sound_slot (after d g slots) /\
  forall i, (capacity_at d (after d g slots) i = capacity_at d slots i - uses g i)%nat.
Proof.
  intros Hs Hu. rewrite Forall_lookup in Hs. split.
  - apply Forall_lookup. intros i s. rewrite after_lookup. intros ([c b] & Hl & ->)%fmap_Some. cbn.
    apply capacity_charged; [done|by apply (Hs i)|]. specialize (Hu i). unfold capacity_at in Hu. by rewrite Hl in Hu.
  - intros i. specialize (Hu i). unfold capacity_at in *. rewrite after_lookup. destruct (slots !! i) as [[c b]|] eqn:Hl; [|done].
    cbn in *. apply capacity_charged; [done|by apply (Hs i)|done].
Qed.

Lemma has_room_capacity g slots :
  Forall sound_slot slots ->
  (forall i, (0 < uses g i)%nat -> exists s, slots !! i = Some s /\ room d s (uses g i)) <->
  forall i, (uses g i <= capacity_at d slots i)%nat.
Proof.
  intros Hs. rewrite Forall_lookup in Hs. unfold capacity_at. split.
  - intros Hr i. destruct (decide (uses g i = 0)%nat) as [->|Hnz]; [lia|].
    destruct (Hr i ltac:(lia)) as (s & Hl & Hroom). rewrite Hl. cbn. apply room_capacity; [done|by apply (Hs i)|lia|done].
  - intros Hu i Hp. specialize (Hu i). destruct (slots !! i) as [s|] eqn:Hl; cbn in Hu; [|lia]. exists s. split; [done|].
    apply room_capacity; [done|by apply (Hs i)|done|done].
Qed.

(** What a fit leaves: a placement of the parts it could place, all of them when it
    answers Ready. *)
Definition fitted (ok : bool) (slots slots' : list slot) : Prop :=
  exists g, slots' = after d g slots /\ placement d g slots /\
    (length <$> g) `prefix_of` parts d /\ (ok = true <-> length <$> g = parts d).

Definition sum_capacity (slots : list slot) : nat := sum_list (capacity d <$> slots).

Lemma capacity_at_list slots i : capacity_at d slots i = default 0%nat ((capacity d <$> slots) !! i).
Proof. unfold capacity_at. by rewrite list_lookup_fmap. Qed.

Lemma sum_after g slots :
  Forall sound_slot slots -> singles g -> (forall i, (uses g i <= capacity_at d slots i)%nat) ->
  (sum_capacity (after d g slots) + length g = sum_capacity slots)%nat.
Proof.
  intros Hs Hg Hu. unfold sum_capacity. rewrite <- (sum_minus (capacity d <$> slots) g); [|done|].
  - do 2 f_equal. apply list_eq. intros i. rewrite list_lookup_fmap, list_lookup_imap, list_lookup_fmap, after_lookup.
    destruct (slots !! i) as [s|] eqn:Hl; [|done]. cbn. f_equal. pose proof (proj2 (after_sound g slots Hs Hu) i) as Ha.
    unfold capacity_at in Ha. by rewrite after_lookup, Hl in Ha.
  - intros i. rewrite <- capacity_at_list. apply Hu.
Qed.

(** Parts of one card each, as many as asked for or as there is room for. *)
Definition picked (need : nat) (ok : bool) (slots slots' : list slot) : Prop :=
  exists g, slots' = after d g slots /\ singles g /\ (forall i, (uses g i <= capacity_at d slots i)%nat) /\
    if ok then length g = need else (length g < need)%nat /\ length g = sum_capacity slots.

Lemma singles_lengths g : singles g -> length <$> g = replicate (length g) 1%nat.
Proof. induction 1 as [|part g Hp _ IH]; [done|]. cbn. by rewrite Hp, IH. Qed.

Lemma singles_placement g slots :
  Forall sound_slot slots -> singles g -> (forall i, (uses g i <= capacity_at d slots i)%nat) -> placement d g slots.
Proof.
  intros Hs Hg Hu. rewrite list.Forall_forall in Hg. constructor; [| |by apply has_room_capacity].
  - apply list.Forall_forall. intros part Hp. specialize (Hg part Hp). destruct part as [|i [|]]; try done. apply NoDup_singleton.
  - intros part i j s s' Hp Hi Hj Hls Hls'. specialize (Hg part Hp). destruct part as [|k [|]]; try done.
    apply list_elem_of_singleton in Hi, Hj. congruence.
Qed.

Lemma picked_fitted ok slots slots' :
  d_family d <> ResourceFamilyShared -> Forall sound_slot slots -> picked (Z.to_nat (d_cards d)) ok slots slots' ->
  fitted ok slots slots' /\ (ok = true <-> placeable d slots).
Proof.
  intros Hf Hs (g & -> & Hg & Hu & Hok).
  assert (parts d = replicate (Z.to_nat (d_cards d)) 1%nat) as Hparts by (unfold parts; by destruct (d_family d)).
  pose proof (singles_placement g slots Hs Hg Hu) as Hp. pose proof (singles_lengths g Hg) as Hl.
  assert (ok = true <-> length <$> g = parts d) as Hall.
  { rewrite Hl, Hparts. destruct ok; [by rewrite Hok|]. split; [done|]. intros He%(f_equal length).
    rewrite !length_replicate in He. lia. }
  split.
  - exists g. split; [done|]. split; [done|]. split; [|done]. rewrite Hl, Hparts.
    assert (length g <= Z.to_nat (d_cards d))%nat as Hle by (destruct ok; lia).
    exists (replicate (Z.to_nat (d_cards d) - length g) 1%nat). rewrite <- replicate_add. f_equal. lia.
  - split; [intros Ht; exists g; split; [by apply Hall|done]|]. intros (h & Hlh & [_ _ Hr]). destruct ok; [done|].
    destruct Hok as [Hlt He]. pose proof (proj1 (has_room_capacity h slots Hs) Hr) as Hr'. rewrite Hparts in Hlh.
    assert (singles h) as Hh.
    { apply list.Forall_forall. intros part Hin. apply (list_elem_of_fmap_2 length) in Hin. rewrite Hlh in Hin.
      by apply elem_of_replicate in Hin as [? _]. }
    pose proof (sum_after h slots Hs Hh Hr') as Hsum. apply (f_equal length) in Hlh. rewrite length_fmap, length_replicate in Hlh. lia.
Qed.
End Fit.

(** ** The four fits *)

Section Families.
Context (d : familyDemand) (Hd : sized d).

(** *** Loops along the cards *)

(** The loop took [taken] from the cards, everything when it did not get [need]. *)
Definition takes (need : Z) (ok : bool) (slots slots' : list slot) : Prop :=
  exists taken, Forall2 (fun s n => (n <= capacity d s)%nat) slots taken /\
    slots' = zip_with (fun s n => (s.1, charged d n s.2)) slots taken /\
    if ok then Z.of_nat (sum_list taken) = need
    else Z.of_nat (sum_list taken) < need /\ sum_list taken = sum_capacity d slots.

Lemma takes_nil need : 0 < need -> takes need false [] [].
Proof. intros Hn. exists []. split; [constructor|]. split; [done|]. cbn. split; [lia|done]. Qed.

Lemma takes_skip need ok s rest rest' :
  capacity d s = 0%nat -> takes need ok rest rest' -> takes need ok (s :: rest) (s :: rest').
Proof.
  intros Hs (taken & Ht & -> & Hok). exists (0%nat :: taken). split; [by constructor; [lia|]|]. split.
  - cbn. rewrite charged_0. by destruct s.
  - unfold sum_capacity in *. cbn. by rewrite Hs.
Qed.

Lemma takes_more need ok s n rest rest' :
  n = capacity d s -> takes (need - Z.of_nat n) ok rest rest' ->
  takes need ok (s :: rest) ((s.1, charged d n s.2) :: rest').
Proof.
  intros Hs (taken & Ht & -> & Hok). exists (n :: taken). split; [by constructor; [lia|]|]. split; [done|].
  unfold sum_capacity in *. cbn. destruct ok; lia.
Qed.

Lemma takes_last need s n rest :
  (n <= capacity d s)%nat -> need = Z.of_nat n -> takes need true (s :: rest) ((s.1, charged d n s.2) :: rest).
Proof.
  intros Hs ->. exists (n :: replicate (length rest) 0%nat). split; [|split].
  - constructor; [done|]. apply Forall2_same_length_lookup. split; [by rewrite length_replicate|].
    intros i x y _ (-> & _)%lookup_replicate. lia.
  - cbn. f_equal. apply list_eq. intros i. rewrite lookup_zip_with. destruct (rest !! i) as [[c b]|] eqn:Hi; [|done]. cbn.
    rewrite lookup_replicate_2 by (by eapply lookup_lt_Some). cbn. by rewrite charged_0.
  - cbn. rewrite sum_list_replicate. lia.
Qed.

Lemma takes_picked ok slots slots' : takes (d_cards d) ok slots slots' -> picked d (Z.to_nat (d_cards d)) ok slots slots'.
Proof.
  intros (taken & Ht & -> & Hok). exists (spread 0 taken). destruct (spread_singles 0 taken) as [Hg Hl].
  assert (forall i, uses (spread 0 taken) i = default 0%nat (taken !! i)) as Hu by (intros i; apply (spread_uses 0)).
  split_and!; [|done| |rewrite Hl; pose proof (sized_cards d Hd); destruct ok; lia].
  - apply list_eq. intros i. rewrite after_lookup, lookup_zip_with, Hu.
    destruct (slots !! i) as [s|] eqn:Hi; [|done]. cbn. destruct (Forall2_lookup_l _ _ _ _ _ Ht Hi) as (n & -> & _). done.
  - intros i. rewrite Hu. unfold capacity_at. destruct (taken !! i) as [n|] eqn:Hi; [|cbn; lia].
    destruct (Forall2_lookup_r _ _ _ _ _ Ht Hi) as (s & -> & Hc). done.
Qed.

Lemma exclusive_takes slots fit :
  d_family d = ResourceFamilyExclusive -> 0 <= fit < d_cards d ->
  let r := fit_exclusive d fit slots in takes (d_cards d - fit) r.1 slots r.2.
Proof.
  intros Hf. pose proof (sized_cards d Hd) as Hc. revert fit. induction slots as [|s rest IH]; intros fit Hfit; cbn [fit_exclusive].
  - apply takes_nil. lia.
  - assert (capacity d s = if usable_whole d s then 1 else 0)%nat as Hcap by (unfold capacity; by rewrite Hf).
    assert (take_whole s.2 = charged d 1 s.2) as Hch by (unfold charged, take_whole; rewrite Hf; cbn; by rewrite orb_true_r).
    destruct (usable_whole d s) eqn:Hu; cbn [negb].
    + rewrite Hch, i32_small by (unfold is_i32; lia). destruct (Z.leb_spec (d_cards d) (fit + 1)).
      * apply takes_last; [by rewrite Hcap|lia].
      * specialize (IH (fit + 1) ltac:(lia)). destruct (fit_exclusive d (fit + 1) rest) as [ok rest'].
        apply takes_more; [by rewrite Hcap|]. cbn [fst snd] in *.
        by replace (d_cards d - fit - Z.of_nat 1) with (d_cards d - (fit + 1)) by lia.
    + specialize (IH fit ltac:(lia)). destruct (fit_exclusive d fit rest) as [ok rest']. by apply takes_skip.
Qed.

Lemma partition_takes slots n :
  d_family d = ResourceFamilyPartitioned -> Forall sound_slot slots -> 0 <= pfit n < d_cards d ->
  let r := fit_partition d n slots in takes (d_cards d - pfit n) r.1.1 slots r.2.
Proof.
  intros Hf Hs. pose proof (sized_cards d Hd) as Hc. revert n. induction Hs as [|s rest Hs Hrest IH]; intros n Hfit; cbn [fit_partition].
  - apply takes_nil. lia.
  - assert (capacity d s = if coveredBy s.1 d && servesFamily s.1 ResourceFamilyPartitioned && open_to ModePartitioned s.1
                           then Z.to_nat (free_placements d s) else 0)%nat as Hcap by (unfold capacity; by rewrite Hf).
    destruct (coveredBy s.1 d), (servesFamily s.1 ResourceFamilyPartitioned); cbn [negb orb andb] in *;
      try (specialize (IH n Hfit); destruct (fit_partition d n rest) as [[ok n'] rest']; by apply takes_skip).
    set (n0 := count_card s.1 n). assert (pfit n0 = pfit n) as Hn0 by done. rewrite <- Hn0 in *.
    destruct (open_to ModePartitioned s.1); cbn [negb orb] in *.
    2: { specialize (IH n0 Hfit); destruct (fit_partition d n0 rest) as [[ok n'] rest']; by apply takes_skip. }
    destruct (Z.leb_spec (free_placements d s) 0) as [Hz|Hp].
    { specialize (IH n0 Hfit); destruct (fit_partition d n0 rest) as [[ok n'] rest']. apply takes_skip; [lia|done]. }
    assert (free_placements d s + placements s.2 < 2 ^ 31) as Hlt.
    { rewrite free_placements_small by done.
      pose proof (profile_count_range s.1 (VendorPartitionedProfileName (c_manufacturer s.1) (d_profile d)) (slot_card s Hs)). lia. }
    pose proof (slot_placements s Hs). rewrite (i32_small (d_cards d - pfit n0)) by (unfold is_i32; lia).
    set (take := Z.min (free_placements d s) (d_cards d - pfit n0)).
    assert (take_placements take s.2 = charged d (Z.to_nat take) s.2) as ->.
    { unfold take_placements, charged. rewrite Hf, i32_small by (unfold is_i32; lia). f_equal. lia. }
    cbn [pfit]. rewrite i32_small by (unfold is_i32; lia). destruct (Z.leb_spec (d_cards d) (pfit n0 + take)).
    + apply takes_last; lia.
    + set (n1 := {| partitionCards := _; ledgerReady := _; pfit := pfit n0 + take |}).
      specialize (IH n1 ltac:(cbn; lia)). destruct (fit_partition d n1 rest) as [[ok n'] rest'].
      apply takes_more; [lia|]. cbn [fst snd] in *.
      by replace (d_cards d - pfit n0 - Z.of_nat (Z.to_nat take)) with (d_cards d - pfit n1) by (unfold n1; cbn; lia).
Qed.

(** *** Slices *)

Lemma capacity_sliced s : d_family d = ResourceFamilySliced -> sound_slot s ->
  (0 < capacity d s)%nat <-> d_unitsPerCard d <= free_units d s.
Proof.
  intros Hf Hs. unfold capacity. rewrite Hf. pose proof (sized_units d Hd) as Hu.
  destruct (Z.ltb_spec (free_units d s) (d_unitsPerCard d)); [lia|].
  assert (0 < freeSlots s.1 - slices s.2).
  { rewrite free_units_small in * by done. destruct (freeSliceUnits s.1 <? 0); cbn in *; [lia|].
    destruct (whole s.2); cbn in *; [lia|]. destruct (0 <? shares s.2); cbn in *; [lia|].
    destruct (coveredBy s.1 d); cbn in *; [|lia]. destruct (Z.leb_spec (freeSlots s.1) (slices s.2)); lia. }
  destruct (Z.eqb_spec (d_unitsPerCard d) 0); [lia|].
  assert (1 <= free_units d s / d_unitsPerCard d) by (apply Z.div_le_lower_bound; lia). lia.
Qed.

Lemma best_card_some slots :
  match best_card d slots with
  | Some (i, free) => exists s, slots !! i = Some s /\ free = free_units d s /\ d_unitsPerCard d <= free
  | None => forall s, s ∈ slots -> free_units d s < d_unitsPerCard d
  end.
Proof.
  unfold best_card. induction slots as [|s slots IH] using rev_ind; [by intros ? ?%elem_of_nil|].
  rewrite imap_app, foldl_app. cbn. rewrite Nat.add_0_r. destruct (foldl _ None (imap pair slots)) as [[i free]|].
  - destruct IH as (s' & Hi & -> & Hle). assert ((slots ++ [s]) !! i = Some s') as Hi' by (by apply lookup_app_l_Some).
    destruct (Z.leb_spec (d_unitsPerCard d) (free_units d s)); cbn; [|eauto].
    destruct (_ <? _); [|eauto]. exists s. split; [|done]. rewrite lookup_app_r, Nat.sub_diag by lia. done.
  - destruct (Z.leb_spec (d_unitsPerCard d) (free_units d s)); cbn.
    + exists s. split; [|done]. by rewrite lookup_app_r, Nat.sub_diag by lia.
    + intros s' [?|Hs']%elem_of_app; [by apply IH|]. by apply list_elem_of_singleton in Hs' as ->.
Qed.

Lemma take_slice_charged s : d_family d = ResourceFamilySliced -> sound_slot s -> (0 < capacity d s)%nat ->
  take_slice (d_unitsPerCard d) s.2 = charged d 1 s.2.
Proof.
  destruct s as [c b]. intros Hf Hs Hc. assert (room d (c, b) 1) as Hr by (apply room_capacity; [done|done|lia|lia]).
  unfold room in Hr. rewrite Hf in Hr. destruct Hr as (_ & _ & _ & _ & _ & Hsl & Hu). destruct Hs as [[Hrem _] _ Hu0 Hs0 _].
  pose proof (freeSlots_range c). pose proof (sized_units d Hd). unfold is_i32 in *. cbn in *.
  unfold take_slice, charged. rewrite Hf, !i32_small by (unfold is_i32; lia). f_equal. lia.
Qed.

Lemma alter_after slots i s f :
  slots !! i = Some s -> f s.2 = charged d 1 s.2 ->
  alter (fun s => (s.1, f s.2)) i slots = after d [[i]] slots.
Proof.
  intros Hi Hf. apply list_eq. intros j. rewrite after_lookup, uses_cons. unfold uses. cbn. rewrite Nat.add_0_r.
  destruct (decide (j = i)) as [->|Hne].
  - rewrite list_lookup_alter_eq, Hi. cbn. rewrite decide_True by (by apply list_elem_of_singleton). by rewrite Hf.
  - rewrite list_lookup_alter_ne by done. rewrite decide_False by (by rewrite list_elem_of_singleton).
    destruct (slots !! j) as [[c b]|]; [|done]. cbn. by rewrite charged_0.
Qed.

Lemma uses_single i j : uses [[i]] j = if decide (j = i) then 1%nat else 0%nat.
Proof.
  rewrite uses_cons. unfold uses. cbn. rewrite Nat.add_0_r.
  destruct (decide (j = i)) as [->|]; [by rewrite decide_True by (by apply list_elem_of_singleton)|].
  by rewrite decide_False by (by rewrite list_elem_of_singleton).
Qed.

Lemma slices_picked n slots :
  d_family d = ResourceFamilySliced -> Forall sound_slot slots ->
  let r := place_slices d n slots in picked d n r.1 slots r.2.
Proof.
  intros Hf. revert slots. induction n as [|n IH]; intros slots Hs; cbn [place_slices].
  { exists []. rewrite after_nil. split; [done|]. split; [constructor|]. split; [|done]. intros i. unfold uses. cbn. lia. }
  pose proof (best_card_some slots) as Hb. destruct (best_card d slots) as [[i free]|].
  - destruct Hb as (s & Hi & -> & Hle). assert (sound_slot s) as Hss by (rewrite Forall_lookup in Hs; by apply (Hs i)).
    assert (0 < capacity d s)%nat as Hc by (by apply capacity_sliced).
    rewrite (alter_after slots i s) by (try done; by apply take_slice_charged).
    assert (forall j, uses [[i]] j <= capacity_at d slots j)%nat as Hu.
    { intros j. rewrite uses_single. unfold capacity_at. destruct (decide (j = i)) as [->|]; [|lia]. rewrite Hi. cbn. lia. }
    destruct (after_sound d Hd [[i]] slots Hs Hu) as [Hs' Hcap]. specialize (IH _ Hs').
    destruct (place_slices d n (after d [[i]] slots)) as [ok slots']. destruct IH as (g & -> & Hg & Hug & Hok).
    exists ([[i]] ++ g). cbn [fst snd] in *. split; [by rewrite after_app|]. split; [by constructor|]. split.
    + intros j. rewrite uses_app. specialize (Hug j). rewrite Hcap in Hug. specialize (Hu j). lia.
    + pose proof (sum_after d Hd [[i]] slots Hs ltac:(by repeat constructor) Hu) as Hsum. cbn [length] in Hsum.
      rewrite length_app. cbn [length]. destruct ok; lia.
  - exists []. rewrite after_nil. split; [done|]. split; [constructor|]. split; [intros i; unfold uses; cbn; lia|]. cbn. split; [lia|].
    symmetry. unfold sum_capacity. assert (forall l, (forall s, s ∈ l -> s ∈ slots) -> sum_list (capacity d <$> l) = 0%nat) as H.
    { induction l as [|s l IHl]; intros Hl; [done|]. cbn. rewrite IHl by (intros; apply Hl; by right).
      assert (s ∈ slots) as Hin by (apply Hl; left). specialize (Hb s Hin). rewrite list.Forall_forall in Hs.
      pose proof (capacity_sliced s Hf (Hs s Hin)). lia. }
    by apply H.
Qed.
End Families.

(** *** Shares *)

Section Shares.
Context (d : familyDemand) (Hd : sized d) (Hf : d_family d = ResourceFamilyShared).

Lemma capacity_shared s : capacity d s = Z.to_nat (free_shares d s).
Proof. unfold capacity. by rewrite Hf. Qed.

Lemma elem_of_with_share slots host i :
  i ∈ with_share d slots host <-> exists s, slots !! i = Some s /\ (0 < capacity d s)%nat /\ c_hostname s.1 = host.
Proof.
  unfold with_share. rewrite list_elem_of_bind. split.
  - intros ([j s] & Hi & Hj). apply elem_of_lookup_imap in Hj as (j' & s' & [= -> ->] & Hj).
    destruct ((0 <? free_shares d s') && bool_decide (c_hostname s'.1 = host)) eqn:E; [|by apply elem_of_nil in Hi].
    apply list_elem_of_singleton in Hi as ->. apply andb_true_iff in E as [E1%Z.ltb_lt E2%bool_decide_eq_true].
    exists s'. rewrite capacity_shared. split; [done|]. split; [lia|done].
  - intros (s & Hi & Hc & Hh). exists (i, s). rewrite capacity_shared in Hc. rewrite (proj2 (Z.ltb_lt 0 _)) by lia.
    rewrite bool_decide_eq_true_2 by done. split; [by apply list_elem_of_singleton|]. apply elem_of_lookup_imap. eauto.
Qed.

Lemma with_share_NoDup slots host : NoDup (with_share d slots host).
Proof.
  unfold with_share. assert (forall (l : list (nat * slot)), NoDup l.*1 ->
    NoDup (l ≫= fun '(i, s) => if (0 <? free_shares d s) && bool_decide (c_hostname s.1 = host) then [i] else []) /\
    forall i, i ∈ (l ≫= fun '(i, s) => if (0 <? free_shares d s) && bool_decide (c_hostname s.1 = host) then [i] else []) -> i ∈ l.*1) as H.
  { induction l as [|[i s] l IH]; cbn; [split; [constructor|done]|]. intros [Hi Hl]%NoDup_cons. destruct (IH Hl) as [H1 H2].
    destruct (_ && _); cbn; [|split; [done|intros j Hj; right; by apply H2]]. split; [constructor; [intros Hin; by apply Hi, H2|done]|].
    intros j [->|Hj]%elem_of_cons; [left|right; by apply H2]. }
  apply H. assert ((imap pair slots).*1 = seq 0 (length slots)) as ->; [|apply NoDup_seq].
  apply list_eq. intros i. rewrite list_lookup_fmap, list_lookup_imap. destruct (slots !! i) as [s|] eqn:Hi; cbn; symmetry.
  - apply lookup_seq. split; [lia|by eapply lookup_lt_Some].
  - apply lookup_seq_ge. by apply lookup_ge_None.
Qed.

Lemma chosen_cards_spec slots :
  (chosen_cards d slots = [] \/ exists host, chosen_cards d slots = with_share d slots host) /\
  forall host, (length (with_share d slots host) <= length (chosen_cards d slots))%nat.
Proof.
  assert (forall hosts chosen, let r := foldl (larger_node d slots) chosen hosts in
      (r = chosen \/ exists host, r = with_share d slots host) /\ (length chosen <= length r)%nat /\
      forall host, host ∈ hosts -> (length (with_share d slots host) <= length r)%nat) as H.
  { induction hosts as [|h hosts IH]; intros chosen; cbn [foldl]; cbv zeta; [split; [by left|]; split; [done|by intros ? ?%elem_of_nil]|].
    destruct (IH (larger_node d slots chosen h)) as (H1 & H2 & H3).
    assert ((larger_node d slots chosen h = chosen \/ larger_node d slots chosen h = with_share d slots h) /\
            (length chosen <= length (larger_node d slots chosen h))%nat /\
            (length (with_share d slots h) <= length (larger_node d slots chosen h))%nat) as (L1 & L2 & L3).
    { unfold larger_node. destruct (Nat.ltb_spec (length chosen) (length (with_share d slots h))); split_and!; auto; lia. }
    split; [|split; [lia|intros host [->|Hh]%elem_of_cons; [lia|by apply H3]]].
    destruct H1 as [H1|?]; [|by right]. rewrite H1. destruct L1; [by left|right; by exists h]. }
  destruct (H (sharing_hosts d slots) []) as (H1 & _ & H3). split; [done|]. intros host.
  destruct (with_share d slots host) as [|i l] eqn:Hw; [cbn; lia|]. rewrite <- Hw. apply H3.
  assert (i ∈ with_share d slots host) as (s & Hi & Hc & <-)%elem_of_with_share by (rewrite Hw; left).
  unfold sharing_hosts. rewrite merge_sort_Permutation. apply elem_of_remove_dups, list_elem_of_fmap. exists s. split; [done|].
  apply list_elem_of_filter. split; [rewrite capacity_shared in Hc; lia|by eapply list_elem_of_lookup_2].
Qed.

Lemma chosen_elem slots i : i ∈ chosen_cards d slots -> exists s, slots !! i = Some s /\ (0 < capacity d s)%nat.
Proof.
  destruct (chosen_cards_spec slots) as [[->|[host ->]] _]; [by intros ?%elem_of_nil|].
  intros (s & ? & ? & _)%elem_of_with_share. eauto.
Qed.

Lemma chosen_host slots i j s s' :
  i ∈ chosen_cards d slots -> j ∈ chosen_cards d slots -> slots !! i = Some s -> slots !! j = Some s' ->
  c_hostname s.1 = c_hostname s'.1.
Proof.
  destruct (chosen_cards_spec slots) as [[->|[host ->]] _]; [by intros ?%elem_of_nil|].
  intros (t & ? & _ & ?)%elem_of_with_share (t' & ? & _ & ?)%elem_of_with_share. congruence.
Qed.

Lemma chosen_NoDup slots : NoDup (chosen_cards d slots).
Proof.
  destruct (chosen_cards_spec slots) as [[->|[host ->]] _]; [constructor|apply with_share_NoDup].
Qed.

Lemma foldl_alter_lookup (f : slot -> slot) (T : list nat) (slots : list slot) (j : nat) :
  NoDup T -> foldl (fun slots i => alter f i slots) slots T !! j =
    if decide (j ∈ T) then f <$> slots !! j else slots !! j.
Proof.
  intros Hn. revert slots. induction Hn as [|i T Hi Hn IH]; intros slots; [done|]. cbn [foldl]. rewrite IH.
  destruct (decide (j = i)) as [->|Hne].
  - rewrite (decide_False (P := i ∈ T)), decide_True by (done || left). apply list_lookup_alter_eq.
  - rewrite list_lookup_alter_ne by done. destruct (decide (j ∈ T)).
    + by rewrite decide_True by (by right).
    + rewrite decide_False; [done|]. by intros [?|?]%elem_of_cons.
Qed.

Lemma take_share_charged s : sound_slot s -> (0 < capacity d s)%nat -> take_share s.2 = charged d 1 s.2.
Proof.
  intros Hs Hc. pose proof (freeShares_range s.1 (slot_card s Hs)). destruct Hs as [_ Hsh _ _ _].
  unfold take_share, charged. rewrite Hf, i32_small by (unfold is_i32; lia). done.
Qed.

(** The cards a holder is given. *)
Definition holder_cards (slots : list slot) (r : nat) : list nat :=
  take r (sort_stable (fun a b => share_at d slots b <=? share_at d slots a) (chosen_cards d slots)).

Lemma holder_cards_chosen slots r i : i ∈ holder_cards slots r -> i ∈ chosen_cards d slots.
Proof. unfold holder_cards. intros Hi%elem_of_take. destruct Hi as (k & Hk & _). rewrite <- (sort_stable_perm (fun a b => share_at d slots b <=? share_at d slots a)). by eapply list_elem_of_lookup_2. Qed.

Lemma holder_cards_NoDup slots r : NoDup (holder_cards slots r).
Proof.
  unfold holder_cards. eapply sublist_NoDup; [|apply sublist_take]. rewrite sort_stable_perm. apply chosen_NoDup.
Qed.

Lemma place_holder_spec slots r :
  Forall sound_slot slots -> Z.of_nat (length slots) < 2 ^ 31 ->
  place_holder d (Z.of_nat r) slots =
    if (length (chosen_cards d slots) <? r)%nat then None else Some (after d [holder_cards slots r] slots).
Proof.
  intros Hs Hb. unfold place_holder.
  assert (length (chosen_cards d slots) <= length slots)%nat as Hle.
  { rewrite <- (length_seq (length slots) 0). apply submseteq_length, NoDup_submseteq; [apply chosen_NoDup|].
    intros i (s & Hi & _)%chosen_elem. apply elem_of_seq. split; [lia|]. by eapply lookup_lt_Some. }
  rewrite i32_small by (unfold is_i32; lia).
  destruct (Z.ltb_spec (Z.of_nat (length (chosen_cards d slots))) (Z.of_nat r)), (Nat.ltb_spec (length (chosen_cards d slots)) r); try lia; [done|].
  f_equal. rewrite Nat2Z.id. change (take r _) with (holder_cards slots r). apply list_eq. intros j.
  rewrite foldl_alter_lookup by apply holder_cards_NoDup. rewrite after_lookup, uses_cons. unfold uses. cbn. rewrite Nat.add_0_r.
  destruct (decide (j ∈ holder_cards slots r)) as [Hj|Hj].
  - apply holder_cards_chosen, chosen_elem in Hj as (s & Hj & Hc). rewrite Hj. cbn. f_equal. f_equal.
    apply take_share_charged; [|done]. rewrite Forall_lookup in Hs. by apply (Hs j).
  - destruct (slots !! j) as [[c b]|]; [|done]. cbn. by rewrite charged_0.
Qed.

Lemma holder_length slots r : (r <= length (chosen_cards d slots))%nat -> length (holder_cards slots r) = r.
Proof. intros Hr. unfold holder_cards. rewrite length_take, sort_stable_perm. lia. Qed.

Lemma holder_uses slots r i : (uses [holder_cards slots r] i <= capacity_at d slots i)%nat.
Proof.
  rewrite uses_cons. unfold uses. cbn. rewrite Nat.add_0_r. destruct (decide (i ∈ holder_cards slots r)) as [Hi|]; [|lia].
  apply holder_cards_chosen, chosen_elem in Hi as (s & Hi & Hc). unfold capacity_at. rewrite Hi. cbn. lia.
Qed.
End Shares.

Section Holders.
Context (d : familyDemand) (Hd : sized d) (Hf : d_family d = ResourceFamilyShared).

(** The loop over needs and containers, one holder after another. *)
Fixpoint place_parts (sizes : list nat) (slots : list slot) : bool * list slot :=
  match sizes with
  | [] => (true, slots)
  | r :: sizes =>
      match place_holder d (Z.of_nat r) slots with
      | None => (false, slots)
      | Some slots => place_parts sizes slots
      end
  end.

Lemma place_parts_app a b slots :
  place_parts (a ++ b) slots =
    match place_parts a slots with (true, slots) => place_parts b slots | (false, slots) => (false, slots) end.
Proof.
  revert slots. induction a as [|r a IH]; intros slots; [done|]. cbn. destruct (place_holder _ _ _); [apply IH|done].
Qed.

Lemma place_needs_parts slots : place_needs d (d_sharedNeeds d) slots = place_parts (parts d) slots.
Proof.
  unfold parts. rewrite Hf. pose proof (sized_holders d Hd) as Hn. revert slots.
  induction Hn as [|n needs [Hc _] _ IH]; intros slots; [done|]. cbn. rewrite place_parts_app.
  assert (place_holders d (need_cards n) (Z.to_nat (need_containers n)) slots =
            place_parts (replicate (Z.to_nat (need_containers n)) (Z.to_nat (need_cards n))) slots) as ->.
  { generalize (Z.to_nat (need_containers n)). intros k. revert slots. induction k as [|k IHk]; intros slots; [done|].
    cbn. rewrite Z2Nat.id by lia. destruct (place_holder _ _ _); [apply IHk|done]. }
  destruct (place_parts _ slots) as [[] slots']; [apply IH|done].
Qed.

Lemma after_host g slots i s : after d g slots !! i = Some s -> exists s', slots !! i = Some s' /\ s.1 = s'.1.
Proof. rewrite after_lookup. intros (s' & Hs & ->)%fmap_Some. eauto. Qed.

Lemma after_length g slots : length (after d g slots) = length slots.
Proof. apply length_imap. Qed.

Lemma place_parts_spec sizes slots :
  Forall sound_slot slots -> Z.of_nat (length slots) < 2 ^ 31 ->
  let r := place_parts sizes slots in
  exists g, r.2 = after d g slots /\ placement d g slots /\ (length <$> g) `prefix_of` sizes /\
    (r.1 = true <-> length <$> g = sizes).
Proof.
  intros Hs Hb. cbn zeta. revert slots Hs Hb. induction sizes as [|r sizes IH]; intros slots Hs Hb; cbn [place_parts].
  { exists []. rewrite after_nil. split_and!; try done. constructor; [constructor|by intros ? ? ? ? ? ?%elem_of_nil|].
    intros i. unfold uses. cbn. lia. }
  rewrite place_holder_spec by done. destruct (Nat.ltb_spec (length (chosen_cards d slots)) r) as [Hlt|Hge].
  { exists []. rewrite after_nil. split_and!; try done; [|apply prefix_nil].
    constructor; [constructor|by intros ? ? ? ? ? ?%elem_of_nil|]. intros i. unfold uses. cbn. lia. }
  pose proof (holder_uses d Hf slots r) as Hu. destruct (after_sound d Hd _ slots Hs Hu) as [Hs' Hcap].
  destruct (IH _ Hs' ltac:(by rewrite after_length)) as (g & -> & [Hn H1 Hr] & Hpre & Hok).
  exists ([holder_cards d slots r] ++ g). rewrite after_app. split; [done|].
  pose proof (proj1 (has_room_capacity d Hd g _ Hs') Hr) as Hr'.
  split; [constructor|split].
  - apply Forall_app. split; [|done]. apply list.Forall_singleton. by apply holder_cards_NoDup.
  - intros part i j s s' [Hp|Hp]%elem_of_app Hi Hj Hls Hls'.
    + apply list_elem_of_singleton in Hp as ->. apply holder_cards_chosen in Hi, Hj. by eapply (chosen_host d Hf slots i j).
    + specialize (H1 part i j (s.1, charged d (uses [holder_cards d slots r] i) s.2) (s'.1, charged d (uses [holder_cards d slots r] j) s'.2)).
      apply H1; [done|done|done|by rewrite after_lookup, Hls|by rewrite after_lookup, Hls'].
  - apply (has_room_capacity d Hd); [done|]. intros i. rewrite uses_app. specialize (Hr' i). rewrite Hcap in Hr'.
    specialize (Hu i). lia.
  - rewrite fmap_app. cbn. rewrite (holder_length d slots r Hge). by apply prefix_cons.
  - rewrite fmap_app. cbn. rewrite (holder_length d slots r Hge). rewrite Hok. split; [by intros ->|by intros [= ->]].
Qed.

(** All cards a holder may use are of one node. *)
Definition one_host (slots : list slot) : Prop :=
  exists host, forall s, s ∈ slots -> (0 < capacity d s)%nat -> c_hostname s.1 = host.

Lemma one_host_after g slots :
  Forall sound_slot slots -> (forall i, (uses g i <= capacity_at d slots i)%nat) -> one_host slots -> one_host (after d g slots).
Proof.
  intros Hs Hu (host & Hh). exists host. intros s (i & Hi)%list_elem_of_lookup_1 Hc.
  pose proof (proj2 (after_sound d Hd g slots Hs Hu) i) as Hcap. unfold capacity_at in Hcap. rewrite Hi in Hcap. cbn in Hcap.
  apply after_host in Hi as (s' & Hi & ->). rewrite Hi in Hcap. cbn in Hcap. apply Hh; [by eapply list_elem_of_lookup_2|lia].
Qed.

Lemma chosen_all slots : one_host slots -> forall i, i ∈ chosen_cards d slots <-> (0 < capacity_at d slots i)%nat.
Proof.
  intros (host & Hh) i. destruct (chosen_cards_spec d Hf slots) as [Hc Hmax]. unfold capacity_at. split.
  - intros (s & -> & ?)%(chosen_elem d Hf). done.
  - destruct (slots !! i) as [s|] eqn:Hi; cbn; [|lia]. intros Hp.
    assert (c_hostname s.1 = host) as Hhost by (apply Hh; [by eapply list_elem_of_lookup_2|done]).
    assert (i ∈ with_share d slots host) as Hin by (apply (elem_of_with_share d Hf); eauto).
    destruct Hc as [He|(host' & He)].
    + specialize (Hmax host). rewrite He in Hmax. destruct (with_share d slots host); [by apply elem_of_nil in Hin|cbn in Hmax; lia].
    + rewrite He in *. destruct (with_share d slots host') as [|j l] eqn:Hw.
      { specialize (Hmax host). destruct (with_share d slots host); [by apply elem_of_nil in Hin|cbn in Hmax; lia]. }
      assert (j ∈ with_share d slots host') as (s' & Hj & Hpj & <-)%(elem_of_with_share d Hf) by (rewrite Hw; left).
      rewrite <- Hw. apply (elem_of_with_share d Hf). exists s. split_and!; [done|done|].
      rewrite Hhost. symmetry. apply Hh; [by eapply list_elem_of_lookup_2|done].
Qed.

Lemma holder_top slots r a b :
  one_host slots -> a ∈ holder_cards d slots r -> b ∉ holder_cards d slots r ->
  (capacity_at d slots b <= capacity_at d slots a)%nat.
Proof.
  intros Hone Ha Hb. assert (forall i, capacity_at d slots i = Z.to_nat (share_at d slots i)) as Hcap.
  { intros i. unfold capacity_at, share_at. destruct (slots !! i); [|done]. cbn. by apply capacity_shared. }
  destruct (decide (0 < capacity_at d slots b)%nat) as [Hp|]; [|lia]. apply (chosen_all slots Hone) in Hp.
  unfold holder_cards in *. apply (sorted_take _) with (b := b) in Ha.
  - rewrite !Hcap. lia.
  - intros x y. destruct (Z.le_ge_cases (share_at d slots x) (share_at d slots y)); [right|left]; lia.
  - intros x y z. lia.
  - by rewrite sort_stable_perm.
  - done.
Qed.

Lemma place_parts_complete sizes slots :
  Forall sound_slot slots -> Z.of_nat (length slots) < 2 ^ 31 -> one_host slots ->
  (exists g, packed (capacity_at d slots) sizes g) -> (place_parts sizes slots).1 = true.
Proof.
  revert slots. induction sizes as [|r sizes IH]; intros slots Hs Hb Hone (g & Hl & Hn & Hu); [done|]. cbn [place_parts].
  destruct g as [|part g]; [done|]. cbn in Hl. injection Hl as Hlp Hl. apply Forall_cons in Hn as [Hnp Hn].
  assert (r <= length (chosen_cards d slots))%nat as Hr.
  { rewrite <- Hlp. apply submseteq_length, NoDup_submseteq; [done|]. intros i Hi. apply (chosen_all slots Hone).
    specialize (Hu i). rewrite uses_cons, decide_True in Hu by done. lia. }
  rewrite place_holder_spec by done. rewrite (proj2 (Nat.ltb_ge _ _)) by done.
  pose proof (holder_uses d Hf slots r) as Hhu. destruct (after_sound d Hd _ slots Hs Hhu) as [Hs' Hcap].
  apply IH; [done|by rewrite after_length|by apply one_host_after|].
  destruct (greedy_part (capacity_at d slots) (holder_cards d slots r) sizes) with (part := part) (g := g) as (g' & Hl' & Hn' & Hu'); try done.
  - apply holder_cards_NoDup, Hf.
  - intros a b. by apply holder_top.
  - by rewrite (holder_length d slots r Hr).
  - exists g'. split_and!; [done|done|]. intros i. rewrite Hcap. specialize (Hu' i). rewrite uses_cons. unfold uses at 2. cbn.
    rewrite Nat.add_0_r. done.
Qed.
End Holders.

(** ** The whole fit *)

Lemma fitDemand_ok slots d :
  exists ok, (fitDemand slots d).1.1 = ready_or_retry ok /\
    (d_family d = ResourceFamilyExclusive -> (ok, (fitDemand slots d).2) = fit_exclusive d 0 slots) /\
    (d_family d = ResourceFamilyShared -> (ok, (fitDemand slots d).2) = place_needs d (d_sharedNeeds d) slots) /\
    (d_family d = ResourceFamilySliced -> (ok, (fitDemand slots d).2) = place_slices d (Z.to_nat (d_cards d)) slots) /\
    (d_family d = ResourceFamilyPartitioned ->
       let r := fit_partition d {| partitionCards := 0; ledgerReady := 0; pfit := 0 |} slots in
       (ok, (fitDemand slots d).2) = (r.1.1, r.2)).
Proof.
  unfold fitDemand, fitExclusiveDemand, fitSharedDemand, fitSlicedDemand, fitPartitionDemand.
  destruct (d_family d).
  all: try (destruct (fit_exclusive d 0 slots) as [ok slots']; exists ok; done).
  - destruct (place_needs d (d_sharedNeeds d) slots) as [ok slots']. by exists ok.
  - destruct (place_slices d (Z.to_nat (d_cards d)) slots) as [ok slots']. by exists ok.
  - destruct (fit_partition _ _ _) as [[ok n] slots']. exists ok. cbn. by destruct ok.
Qed.

Lemma ready_iff ok : ready_or_retry ok = CheckStateReady <-> ok = true.
Proof. by destruct ok. Qed.

(** A demand is fitted as placed; on one node, or for a family other than shared,
    whenever it can be. *)
Lemma fitDemand_spec slots d :
  sized d -> Forall sound_slot slots -> Z.of_nat (length slots) < 2 ^ 31 ->
  exists ok, (fitDemand slots d).1.1 = ready_or_retry ok /\ fitted d ok slots (fitDemand slots d).2 /\
    ((d_family d = ResourceFamilyShared -> one_host d slots) -> ok = true <-> placeable d slots).
Proof.
  intros Hd Hs Hb. destruct (fitDemand_ok slots d) as (ok & Hok & H1 & H2 & H3 & H4). exists ok. split; [done|].
  pose proof (sized_cards d Hd) as Hc. pose proof (sized_family d Hd) as Hfam.
  destruct (d_family d) eqn:Hf; try done.
  - pose proof (exclusive_takes d Hd slots 0 Hf ltac:(lia)) as Ht. rewrite <- H1 in Ht by done. rewrite Z.sub_0_r in Ht.
    apply takes_picked in Ht; [|done]. apply (picked_fitted d Hd) in Ht as [? ?]; [|congruence|done]. done.
  - rewrite (place_needs_parts d Hd Hf) in H2. specialize (H2 eq_refl).
    destruct (place_parts_spec d Hd Hf (parts d) slots Hs Hb) as (g & Hg & Hp & Hpre & Hall). rewrite <- H2 in *. cbn in *.
    split; [by exists g|]. intros Hone. split; [intros Ht; exists g; split; [by apply Hall|done]|].
    intros (h & Hl & [Hn _ Hr]). apply (f_equal fst) in H2. cbn in H2. rewrite H2.
    apply (place_parts_complete d Hd Hf); [done|done|by apply Hone|]. exists h. split; [done|]. split; [done|].
    by apply (has_room_capacity d Hd).
  - pose proof (slices_picked d Hd (Z.to_nat (d_cards d)) slots Hf Hs) as Ht. rewrite <- H3 in Ht by done.
    apply (picked_fitted d Hd) in Ht as [? ?]; [|congruence|done]. done.
  - pose proof (partition_takes d Hd slots {| partitionCards := 0; ledgerReady := 0; pfit := 0 |} Hf Hs ltac:(cbn; lia)) as Ht.
    cbn [pfit] in Ht. rewrite Z.sub_0_r in Ht. specialize (H4 eq_refl). cbn zeta in H4. injection H4 as -> H4. rewrite H4.
    apply takes_picked in Ht; [|done]. apply (picked_fitted d Hd) in Ht as [? ?]; [|congruence|done]. done.
Qed.

Lemma placement_sound d g slots : sized d -> Forall sound_slot slots -> placement d g slots -> Forall sound_slot (after d g slots).
Proof. intros Hd Hs [_ _ Hr]. apply (after_sound d Hd); [done|]. by apply (has_room_capacity d Hd). Qed.

Lemma no_budget_sound c : sound_card c -> sound_slot (c, no_budget).
Proof. intros Hc. constructor; cbn; [done|lia..]. Qed.

Lemma node_one_host d slots : d_family d = ResourceFamilyShared -> d_node d <> "" -> one_host d slots.
Proof.
  intros Hf Hn. exists (d_node d). intros [c b] _ Hc. rewrite (capacity_shared d Hf) in Hc. cbn in *.
  destruct (whole b || (0 <? slices b)); cbn in Hc; [lia|]. destruct (coveredBy c d) eqn:E; cbn in Hc; [|lia].
  unfold coveredBy in E. apply andb_true_iff in E as [_ E]. rewrite (bool_decide_eq_false_2 (d_node d = "")) in E by done.
  by apply bool_decide_eq_true in E.
Qed.

(** C11: on what earlier demands left, the greedy fit of a demand is exact: it answers
    Ready if and only if the demand can be placed.  That holds for whole cards, slices
    and partitions wherever they are, and for shared cards on the node the demand is
    confined to: first the holder that needs the most cards, on the cards with the
    most free shares, never costs a later holder its place. *)
Theorem fit_exact (slots : list slot) (d : familyDemand) :
  sized d -> Forall sound_slot slots -> Z.of_nat (length slots) < 2 ^ 31 ->
  (d_family d = ResourceFamilyShared -> d_node d <> "") ->
  (fitDemand slots d).1.1 = CheckStateReady <-> placeable d slots.
Proof.
  intros Hd Hs Hb Hn. destruct (fitDemand_spec slots d Hd Hs Hb) as (ok & -> & _ & He). rewrite ready_iff.
  apply He. intros Hf. apply node_one_host; auto.
Qed.

(** *** Inflight demands first, then the Workload's *)

(** The demand names its node. *)
Definition placed_demand (d : familyDemand) : Prop := d_node d <> "".

Lemma fit_inflight_spec slots inflight :
  Forall sized inflight -> Forall placed_demand inflight -> Forall sound_slot slots -> Z.of_nat (length slots) < 2 ^ 31 ->
  in_turn if_possible slots inflight (fit_inflight slots inflight) /\
  Forall sound_slot (fit_inflight slots inflight) /\ length (fit_inflight slots inflight) = length slots.
Proof.
  intros Hi. revert slots. induction Hi as [|d inflight Hd _ IH]; intros slots Hn Hs Hb.
  { split_and!; try done. constructor. }
  apply Forall_cons in Hn as [Hn Hns].
  destruct (fitDemand_spec slots d Hd Hs Hb) as (ok & _ & (g & Hg & Hp & Hpre & Hall) & He).
  unfold fit_inflight in *. cbn [foldl]. rewrite Hg.
  destruct (IH (after d g slots)) as (Hl & Hsound & Hlen); [done|by apply placement_sound|by rewrite after_length|].
  split_and!; [|done|by rewrite Hlen, after_length]. econstructor; [exact Hp| |exact Hl].
  destruct ok; [left; by apply Hall|right]. split; [done|]. intros Hpl.
  apply He in Hpl; [done|]. intros Hf. by apply node_one_host.
Qed.

Lemma fit_demands_spec counted message slots demands :
  Forall sized demands -> Forall sound_slot slots -> Z.of_nat (length slots) < 2 ^ 31 ->
  (fit_demands counted message slots demands).1 = CheckStateReady -> exists slots', in_turn in_full slots demands slots'.
Proof.
  intros Hi. revert message slots. induction Hi as [|d demands Hd _ IH]; intros message slots Hs Hb Hr.
  { exists slots. constructor. }
  destruct (fitDemand_spec slots d Hd Hs Hb) as (ok & Hok & (g & Hg & Hp & _ & Hall) & _).
  cbn in Hr. destruct (fitDemand slots d) as [[state message'] slots1]. cbn in *. subst state slots1.
  destruct ok; [|done]. cbn in Hr.
  destruct (IH message' (after d g slots)) as (slots' & Hl); [by apply placement_sound|by rewrite after_length|done|].
  exists slots'. econstructor; [exact Hp|by apply Hall|exact Hl].
Qed.

(** A Ready verdict is about room that is there.  Every demand of Workloads answered
    before is placed in full where that is possible at all, and then every demand of
    this Workload, one after another: no two of them claim the same whole card, no
    card gives more shares, slices, units or placements than its ledger has left, and
    each uses only cards its own flavor and node cover and its family can run on. *)
Lemma ready_places_every_demand (pool : list scopedDevices) (inflight demands : list familyDemand) :
  Forall sound_card (collectCards pool) -> Z.of_nat (length (collectCards pool)) < 2 ^ 31 ->
  Forall sized inflight -> Forall placed_demand inflight -> Forall sized demands ->
  (nodeDevicesFeasibility pool inflight demands).1 = CheckStateReady ->
  exists taken left,
    in_turn if_possible ((fun c => (c, no_budget)) <$> collectCards pool) inflight taken /\
    in_turn in_full taken demands left.
Proof.
  intros Hc Hb Hi Hn Hd Hr. set (slots := (fun c => (c, no_budget)) <$> collectCards pool).
  assert (Forall sound_slot slots) as Hs.
  { apply Forall_fmap. eapply Forall_impl; [exact Hc|]. apply no_budget_sound. }
  assert (Z.of_nat (length slots) < 2 ^ 31) as Hb' by (unfold slots; by rewrite length_fmap).
  destruct (fit_inflight_spec slots inflight Hi Hn Hs Hb') as (Hbt & Hs' & Hlen).
  exists (fit_inflight slots inflight). unfold nodeDevicesFeasibility in Hr. destruct demands as [|d demands].
  { exists (fit_inflight slots inflight). split; [done|constructor]. }
  cbn [length Nat.eqb] in Hr. fold slots in Hr.
  destruct (fit_demands_spec _ _ _ _ Hd Hs' ltac:(by rewrite Hlen) Hr) as (left & Hown). by exists left.
Qed.

(** A verdict is Ready or Retry. *)
Lemma feasibility_never_rejects pool inflight demands :
  (nodeDevicesFeasibility pool inflight demands).1 = CheckStateReady \/
  (nodeDevicesFeasibility pool inflight demands).1 = CheckStateRetry.
Proof.
  unfold nodeDevicesFeasibility. destruct (_ =? _)%nat; [by left|].
  generalize (fit_inflight ((fun c => (c, no_budget)) <$> collectCards pool) inflight) (verdictMessage CheckStateReady []).
  induction demands as [|d demands IH]; intros slots message; [by left|]. cbn.
  destruct (fitDemand_ok slots d) as (ok & Hok & _). destruct (fitDemand slots d) as [[state message'] slots']. cbn in *.
  subst state. destruct ok; [apply IH|by right].
Qed.

Module FitExample.
Import DemandExample.
#[local] Existing Instance tables.
#[local] Existing Instance demo_kueue.

Definition accelerator (id : string) : Accelerator := {| AccID := id; AccIndex := 0; AccStatus := no_capability |}.

Definition free_row (remaining : Z) (id : string) : AcceleratorAllocation := {|
  AllocID := id; AllocIndex := 0; Mode := if remaining =? ResourceMaxUnits then ModeNone else ModeShared;
  Allocated := 0; Remaining := remaining; AllocatedSlices := 0; AllocatedProfiles := []; RemainingProfiles := [];
  AllocatedPhysicalProfile := ""; AllocatedPhysicalPlacements := []; AllocatedPhysicalID := ""; AllocatedLogicalPlacements := [] |}.

(** A node of cards of one model, each with [remaining] units. *)
Definition node (name : string) (remaining : Z) (ids : list string) : scopedDevices := {|
  sd_name := name; sd_hostname := name;
  sd_scopes := [{| fs_flavor := "a100"; fs_acceleratorKey := "nvidia-a100"; fs_acceleratorCount := 0 |}];
  sd_devices := {|
    SpecGroups := [{| GrpID := "a100"; GrpManufacturer := "nvidia"; GrpMemory := 81920; GrpAccelerators := accelerator <$> ids |}];
    StatusGroups := [{| AgID := "a100"; AgManufacturer := "nvidia"; AgAccelerators := free_row remaining <$> ids |}] |} |}.

Definition two_nodes : list scopedDevices :=
  [node "n1" ResourceMaxUnits ["g0"; "g1"]; node "n2" ResourceMaxUnits ["g2"; "g3"]].

Definition shared_cards (host : string) (needs : list (Z * Z)) : familyDemand := {|
  d_family := ResourceFamilyShared; d_cards := 1; d_unitsPerCard := 0; d_profile := ""; d_flavor := "a100";
  d_podSets := ["main"]; d_sharedNeeds := (fun n => {| need_cards := n.1; need_containers := n.2 |}) <$> needs; d_node := host |}.

Lemma free_sound pool : Forall sound_card (collectCards pool) ->
  Forall sound_slot ((fun c => (c, no_budget)) <$> collectCards pool).
Proof. intros Hc. apply Forall_fmap. eapply Forall_impl; [exact Hc|]. apply no_budget_sound. Qed.

Lemma two_nodes_sound : Forall sound_card (collectCards two_nodes).
Proof. apply (bool_decide_unpack _). by vm_compute. Qed.

Lemma fit_exact_witness :
  placeable (shared_cards "n1" [(2, 3)]) ((fun c => (c, no_budget)) <$> collectCards two_nodes).
Proof.
  apply (fit_exact ((fun c => (c, no_budget)) <$> collectCards two_nodes) (shared_cards "n1" [(2, 3)])).
  - constructor; cbn; [done|lia|lia|]. repeat constructor; cbn; lia.
  - apply free_sound, two_nodes_sound.
  - by vm_compute.
  - done.
  - by vm_compute.
Defined.

(** Two nodes of cards with one free share each. *)
Definition last_shares : list scopedDevices :=
  [node "n1" 160000 ["g0"; "g1"; "g2"; "g3"]; node "n2" 160000 ["g4"; "g5"; "g6"]].

(** For holders that may go to any node the fit is not exact, although the demand
    competes with no other: one holder of three cards and two of two fit on a node
    with four free shares and one with three, but the largest holder is sent to the
    larger node, which leaves one share on each for the last. *)
Theorem shared_fit_misses_placement :
  let slots := (fun c => (c, no_budget)) <$> collectCards last_shares in
  let d := shared_cards "" [(3, 1); (2, 2)] in
  (fitDemand slots d).1.1 = CheckStateRetry /\ placeable d slots.
Proof.
  intros slots d. split; [by vm_compute|]. exists [[4; 5; 6]; [0; 1]; [2; 3]]%nat. split; [done|].
  constructor; [by apply (bool_decide_unpack _); vm_compute| |].
  - intros part i j s s' Hp Hi Hj. assert (forall k, k ∈ part -> c_hostname <$> (slots !! k ≫= fun s => Some s.1) =
      Some (if bool_decide (part = [4; 5; 6]%nat) then "n2" else "n1")) as Hh.
    { intros k. revert Hp. rewrite !elem_of_cons, elem_of_nil. intros [->|[->|[->|[]]]];
        rewrite !elem_of_cons, elem_of_nil; intros Hk; destruct_or! Hk; subst; try done. }
    intros Hs Hs'. pose proof (Hh i Hi) as E1. pose proof (Hh j Hj) as E2. rewrite Hs in E1. rewrite Hs' in E2. cbn in *. congruence.
  - intros i Hi. destruct (decide (i < 7)%nat) as [Hlt|Hge].
    + do 7 (destruct i as [|i]; [eexists; split; [reflexivity|]; repeat split; by vm_compute|]). lia.
    + exfalso. rewrite (proj2 (uses_0 _ _)) in Hi; [lia|]. intros part. rewrite !elem_of_cons, elem_of_nil.
      intros Hp; destruct_or! Hp; subst; rewrite ?elem_of_cons, ?elem_of_nil; lia || done.
Qed.

(** A Workload with the flavor assigned and no topology. *)
Definition reserved (podsets : list PodSet) : Workload := {|
  WlNamespace := "default"; WlName := "job"; WlUID := "u1"; WlPodSets := podsets;
  WlAdmission := Some ((fun ps => {| PsaName := PsName ps; PsaFlavors := {["credits.gpustack.ai/nvidia" := "a100"]};
                                     PsaTopology := None |}) <$> podsets);
  WlChecks := []; HasQuotaReservation := true; IsEvicted := false; IsFinished := false; IsActive := true; IsAdmitted := false |}.

(** One Pod of four whole cards. *)
Definition four_cards : Workload := reserved [podset "main" 1 [container "a" {["nvidia.com/gpu" := 4]}]].

(** A Ready verdict counts whole cards across nodes: a Pod of four cards, which
    must find them on one node, is answered Ready by a pool whose nodes have two
    each.  The cards of a demand that Kueue did not place on a node are summed over
    the pool. *)
Theorem four_cards_on_two_nodes :
  (nodeDevicesFeasibility two_nodes [] (parseFamilyDemands four_cards)).1 = CheckStateReady /\
  (fun sd => length (node_cards sd)) <$> two_nodes = [2; 2]%nat.
Proof. by vm_compute. Qed.

(** A partitioned card: one placement of the large profile, which covers the seven
    of the small one. *)
Definition large : list AcceleratorPlacement := [Placement 0 8].
Definition small : list AcceleratorPlacement := (fun i => Placement i 1) <$> [0; 1; 2; 3; 4; 5; 6].
Definition profiles : gmap string (list AcceleratorPlacement) := {["7g.80gb" := large; "1g.10gb" := small]}.

Definition partitioned_node : scopedDevices := {|
  sd_name := "n1"; sd_hostname := "n1";
  sd_scopes := [{| fs_flavor := "a100"; fs_acceleratorKey := "nvidia-a100"; fs_acceleratorCount := 0 |}];
  sd_devices := {|
    SpecGroups := [{| GrpID := "a100"; GrpManufacturer := "nvidia"; GrpMemory := 81920;
      GrpAccelerators := [{| AccID := "g0"; AccIndex := 0;
        AccStatus := {| Unhealthy := false; LogicalCount := 0; LogicalOvercommit := false; PhysicalCount := 7;
          PhysicalProfiles := (fun np => {| PName := np.1; PMemoryMib := 10240; PComputeSlices := 1; PMemorySlices := 1;
                                            PCount := 1; PPlacements := np.2 |}) <$> [("7g.80gb", large); ("1g.10gb", small)] |} |}] |}];
    StatusGroups := [{| AgID := "a100"; AgManufacturer := "nvidia"; AgAccelerators := [
      {| AllocID := "g0"; AllocIndex := 0; Mode := ModeNone; Allocated := 0; Remaining := ResourceMaxUnits;
         AllocatedSlices := 0; AllocatedProfiles := [];
         RemainingProfiles := (fun np => {| PcName := np.1; PcCount := np.2 |}) <$> map_to_list (ComputeRemainingProfiles [] profiles);
         AllocatedPhysicalProfile := ""; AllocatedPhysicalPlacements := []; AllocatedPhysicalID := "";
         AllocatedLogicalPlacements := [] |}] |}] |} |}.

Definition large_and_small : Workload :=
  reserved [podset "a" 1 [container "a" {["nvidia.com/gpu.partitioned" := 1; "nvidia.com/gpu.partitioned.mig-7g.80gb" := 1]}];
            podset "b" 1 [container "b" {["nvidia.com/gpu.partitioned" := 1; "nvidia.com/gpu.partitioned.mig-1g.10gb" := 1]}]].

(** A Ready verdict charges every partition one placement whatever its size: a
    Workload of one instance that takes the whole card and one small instance is
    answered Ready by a pool with a single free card, where the large instance leaves
    the small profile no placement. *)
Theorem overlapping_partitions_pass :
  (nodeDevicesFeasibility [partitioned_node] [] (parseFamilyDemands large_and_small)).1 = CheckStateReady /\
  default 0 (ComputeRemainingProfiles large profiles !! "1g.10gb") = 0.
Proof. by vm_compute. Qed.
End FitExample.
