(* ===== verification/AdmitWorld.v ===== *)
(** * Device admission: the cluster as the controller finds it

    The [world] the programs of AdmitReconcile.v act on: Workloads on the API server
    and in the informer cache that lags behind it, flavors, nodes, Devices objects and
    bound Pods, and the controller's own memory.  [perform] says what each call
    answers and how it may fail.  A write carries the resource version it was judged
    from and does not land on a newer object, as the comment of [objectWriteResult]
    (src/pkg/worker/controllers/worker/helper.go) relies on.  Which Ready answers were
    written, and on what they were judged, is recorded beside, for the theorems only. *)

From stdpp Require Import prelude gmap strings list sorting.
From S2P Require Import Prelude Programs Device PluginRecords AdmitDemand AdmitFit.

Record ResourceFlavor := { RfNodeLabels : gmap string string }.

Record DevicesObject := { DoName : string; DoLabels : gmap string string; DoDevices : Devices }.

(** A Pod bound to a node, with its Workload annotation and its podset label. *)
Record BoundPod := { BpPod : Pod; BpWorkload : string; BpPodSet : string }.

(** Namespace and name. *)
Abbreviation key := (string * string)%type.

Definition key_of (wl : Workload) : key := (WlNamespace wl, WlName wl).

(** A Workload with its resource version. *)
Abbreviation object := (Workload * Z)%type.

Inductive apierr := NotFound | Conflict | OtherError.

(** The Pods of one Workload podset bound to one node, as [chargedKey]: namespace,
    Workload, podset, hostname. *)
Abbreviation chargedKey := (string * string * string * string)%type.

Record ledgerCharges := { lc_hostnames : gset string; lc_pods : gmap chargedKey Z }.

(** What a verdict was judged on. *)
Record judgement := {
  j_pool : list scopedDevices; j_charges : ledgerCharges;
  j_inflight : list familyDemand; j_demands : list familyDemand }.

(** [stream] holds per Workload what the cache shows, then the newer states of the
    API server in the order they were written; [None] is an absent object. *)
Abbreviation streams := (gmap key (list (option object))).

Record answer := { a_workload : Workload; a_basis : judgement; a_streams : streams }.

Record world := {
  stream : streams;
  clock : Z;
  flavors : gmap string ResourceFlavor;
  inventory : gmap string DevicesObject;
  nodes : gmap string (gmap string string);
  bound : gmap string (list BoundPod);
  readyUnobserved : gmap key Workload;
  (** a Ready answer that was written and not yet put into [readyUnobserved] *)
  unrecorded : option Workload;
  answers : list answer }.

Definition set_stream s clk (w : world) : world := {|
  stream := s; clock := clk; flavors := flavors w; inventory := inventory w; nodes := nodes w; bound := bound w;
  readyUnobserved := readyUnobserved w; unrecorded := unrecorded w; answers := answers w |}.
Definition set_memory m u (w : world) : world := {|
  stream := stream w; clock := clock w; flavors := flavors w; inventory := inventory w; nodes := nodes w;
  bound := bound w; readyUnobserved := m; unrecorded := u; answers := answers w |}.
Definition set_answers u a (w : world) : world := {|
  stream := stream w; clock := clock w; flavors := flavors w; inventory := inventory w; nodes := nodes w;
  bound := bound w; readyUnobserved := readyUnobserved w; unrecorded := u; answers := a |}.
Definition set_cluster fl inv nd bd (w : world) : world := {|
  stream := stream w; clock := clock w; flavors := fl; inventory := inv; nodes := nd; bound := bd;
  readyUnobserved := readyUnobserved w; unrecorded := unrecorded w; answers := answers w |}.

Definition history (s : streams) (k : key) : list (option object) := default [None] (s !! k).
Definition cached_at (s : streams) (k : key) : option object := default None (head (history s k)).
Definition stored_at (s : streams) (k : key) : option object := default None (last (history s k)).

(** The API server takes a new state. *)
Definition write_at (k : key) (o : option Workload) (w : world) : world :=
  set_stream (<[k := history (stream w) k ++ [(fun wl => (wl, clock w + 1)) <$> o]]> (stream w)) (clock w + 1) w.

Definition with_checks (checks : list AdmissionCheckState) (wl : Workload) : Workload := {|
  WlNamespace := WlNamespace wl; WlName := WlName wl; WlUID := WlUID wl; WlPodSets := WlPodSets wl;
  WlAdmission := WlAdmission wl; WlChecks := checks; HasQuotaReservation := HasQuotaReservation wl;
  IsEvicted := IsEvicted wl; IsFinished := IsFinished wl; IsActive := IsActive wl; IsAdmitted := IsAdmitted wl |}.

(** ** Actions *)

Inductive act : Type -> Type :=
  | GetWorkload (k : key) : act (apierr + object)
  | FilterForController (checks : list AdmissionCheckState) : act (option (list string))
  | GetFlavor (ref : string) : act (apierr + ResourceFlavor)
  | ListDevices (sel : gmap string string) : act (option (list DevicesObject))
  | GetNode (name : string) : act (apierr + gmap string string)
  | ListPods (node : string) : act (option (list BoundPod))
  | ListWorkloads : act (option (list Workload))
  | ReadUnobserved : act (gmap key Workload)
  | StoreUnobserved (m : gmap key Workload) : act unit
  | PatchStatus (wl : Workload) (version : Z) (desired : list AdmissionCheckState) (basis : option judgement)
      : act (option apierr).

(** A call fails; a write is applied and its answer is lost. *)
Record choice := { failing : bool; lost : bool }.

Section Perform.
Context `{KueueAPI : Kueue}.
(** The checks that name this controller. *)
Context (owned : string -> bool).

Definition set_checks (desired : list AdmissionCheckState) (wl : Workload) : Workload :=
  with_checks (foldl SetAdmissionCheckState (WlChecks wl) desired) wl.

(** The verdict written is Ready. *)
Definition says_ready (desired : list AdmissionCheckState) : bool :=
  existsb (fun st => bool_decide (AcsState st = CheckStateReady)) desired.

Definition patch (wl : Workload) (desired : list AdmissionCheckState) (basis : option judgement) (w : world) : world :=
  let written := set_checks desired wl in
  let w' := write_at (key_of wl) (Some written) w in
  if says_ready desired then
    set_answers (Some written)
      (answers w ++ match basis with
                    | Some j => [{| a_workload := written; a_basis := j; a_streams := stream w |}]
                    | None => []
                    end) w'
  else w'.

Definition answering {X} (c : choice) (x : X) : option X := if failing c then None else Some x.

Definition found {X} (c : choice) (o : option X) : apierr + X :=
  if failing c then inl OtherError else match o with None => inl NotFound | Some x => inr x end.

Definition perform (t : nat) (c : choice) {X} (a : act X) (w : world) : option (X * world) :=
  match a with
  | GetWorkload k => Some (found c (cached_at (stream w) k), w)
  | FilterForController checks =>
      Some (answering c (filter (fun n => owned n = true) (AcsName <$> checks)), w)
  | GetFlavor ref => Some (found c (flavors w !! ref), w)
  | ListDevices sel =>
      Some (answering c (filter (fun o => sel ⊆ DoLabels o) (map_to_list (inventory w)).*2), w)
  | GetNode name => Some (found c (nodes w !! name), w)
  | ListPods node => Some (answering c (default [] (bound w !! node)), w)
  | ListWorkloads =>
      Some (answering c (omap (fun k => fst <$> cached_at (stream w) k) (map_to_list (stream w)).*1), w)
  | ReadUnobserved => Some (readyUnobserved w, w)
  | StoreUnobserved m => Some (tt, set_memory m None w)
  | PatchStatus wl version desired basis =>
      Some (match stored_at (stream w) (key_of wl) with
            | None => (Some NotFound, w)
            | Some (stored, v) =>
                if negb (v =? version) then (Some Conflict, w)
                else if failing c then (Some OtherError, w)
                else (if lost c then Some OtherError else None, patch stored desired basis w)
            end)
  end.
End Perform.

Abbreviation prog := (Programs.prog act).
#[global] Open Scope prog_scope.
