(* ===== verification/AdmitReconcile.v ===== *)
(** * Device admission: one judgment

    [Reconcile] of the node-devices admission check
    (src/pkg/worker/controllers/worker/node_devices_admission.go), with the candidate
    nodes and the verdict it writes, and the count of what is promised and not yet
    allocated (node_devices_inflight.go), as programs of the actions of AdmitWorld.v. *)

From stdpp Require Import prelude gmap strings list sorting.
From S2P Require Import Prelude Programs Device PluginRecords PluginLedger AdmitDemand AdmitFit AdmitWorld.

Definition _NodeDevicesRetryAfterSeconds : Z := 30.
Definition ResourceFlavorCountLabelSuffix : string := ".count".

Section Reconcile.
Context `{Tables : NameTables} `{KueueAPI : Kueue}.
(** [terminatedPodsReleased()], fixed at start-up. *)
Context (released : bool).

(** ** Flavors and candidate nodes *)

Definition flavorAcceleratorKey (rf : ResourceFlavor) : string :=
  match ExtractAcceleratableKeys (RfNodeLabels rf) with [key] => key | _ => "" end.

Definition _unreadableAcceleratorBatch : Z := -1.

Definition flavorAcceleratorCount (rf : ResourceFlavor) (acceleratorKey : string) : Z :=
  if bool_decide (acceleratorKey = "") then 0
  else match RfNodeLabels rf !! (AcceleratableFeatureLabelPrefix +:+ acceleratorKey +:+ ResourceFlavorCountLabelSuffix) with
       | None => 0
       | Some raw =>
           match parse_int 64 raw with
           | Some count => if count <=? 0 then _unreadableAcceleratorBatch else count
           | None => _unreadableAcceleratorBatch
           end
       end.

Definition scope_of (ref : string) (rf : ResourceFlavor) : flavorScope :=
  let aKey := flavorAcceleratorKey rf in
  {| fs_flavor := ref; fs_acceleratorKey := aKey; fs_acceleratorCount := flavorAcceleratorCount rf aKey |}.

(** The flavor's labels without its node batch. *)
Definition device_selector (rf : ResourceFlavor) : gmap string string :=
  filter (fun kv => has_suffix ResourceFlavorCountLabelSuffix kv.1 = false) (RfNodeLabels rf).

Definition add_scope (scope : flavorScope) (byName : gmap string scopedDevices) (o : DevicesObject)
    : gmap string scopedDevices :=
  let sd := default {| sd_name := DoName o; sd_devices := DoDevices o; sd_scopes := []; sd_hostname := "" |}
                    (byName !! DoName o) in
  <[DoName o := {| sd_name := sd_name sd; sd_devices := sd_devices sd; sd_scopes := sd_scopes sd ++ [scope];
                   sd_hostname := sd_hostname sd |}]> byName.

Definition nodeHostname (name : string) : prog (unit + string) :=
  let! r := call (GetNode name) in
  Ret (match r with
       | inr labels => inr (default "" (labels !! "kubernetes.io/hostname"))
       | inl NotFound => inr ""
       | inl _ => inl tt
       end).

Definition candidateDevices (wl : Workload) : prog (unit + list scopedDevices) :=
  match WlAdmission wl with
  | None => Ret (inr [])
  | Some psas =>
      let flavorRefs := remove_dups (mjoin ((fun psa => (map_to_list (PsaFlavors psa)).*2) <$> psas)) in
      let? byName := for_each flavorRefs (∅ : gmap string scopedDevices) (fun byName ref =>
        let! r := call (GetFlavor ref) in
        match r with
        | inl NotFound => Ret (inr byName)
        | inl _ => Ret (inl tt)
        | inr rf =>
            if bool_decide (RfNodeLabels rf = ∅) then Ret (inr byName)
            else
              let! list := call (ListDevices (device_selector rf)) in
              Ret (match list with
                   | None => inl tt
                   | Some items => inr (foldl (add_scope (scope_of ref rf)) byName items)
                   end)
        end) in
      for_each (merge_sort name_le (map_to_list byName).*1) [] (fun pool name =>
        match byName !! name with
        | None => Ret (inr pool)
        | Some sd =>
            let? host := nodeHostname name in
            Ret (inr (pool ++ [{| sd_name := sd_name sd; sd_devices := sd_devices sd; sd_scopes := sd_scopes sd;
                                  sd_hostname := host |}]))
        end)
  end.

Definition unresolvedDemands (pool : list scopedDevices) (demands : list familyDemand) : list familyDemand :=
  let scopes := mjoin (sd_scopes <$> pool) in
  let reached := fs_flavor <$> scopes in
  let resolved := fs_flavor <$> filter (fun s => fs_acceleratorKey s <> "") scopes in
  filter (fun d => d_flavor d <> "" /\ d_flavor d ∈ reached /\ d_flavor d ∉ resolved) demands.

(** ** Ledgers and the Pods they hold *)

Definition requestsCard (ctr : Container) : bool :=
  existsb (fun nq => let family := ResourceFamilyOf nq.1 in
                     card_family family && isCardKey nq.1 family && (0 <? nq.2))
    (map_to_list (mergedContainerResources ctr)).

Definition podCharged (pod : Pod) : bool :=
  match AllocatedAcceleratorsOf (AllocationAnnotation pod) with
  | None => false
  | Some allocations =>
      negb (bool_decide (allocations = ∅)) &&
      forallb (fun ctr => negb (requestsCard ctr) || bool_decide (is_Some (allocations !! CName ctr)))
        (InitContainers pod ++ Containers pod)
  end.

(** One Pod of a node's list, into the charges. *)
Definition charge_pod (host : string) (pods : gmap chargedKey Z) (p : BoundPod) : gmap chargedKey Z :=
  if bool_decide (BpWorkload p = "") || negb (podCharged (BpPod p)) then pods
  else let k := (PodNamespace (BpPod p), BpWorkload p, BpPodSet p, host) in
       <[k := i32 (default 0 (pods !! k) + 1)]> pods.

Definition rebuilt (sd : scopedDevices) (pods : list BoundPod) : scopedDevices := {|
  sd_name := sd_name sd; sd_scopes := sd_scopes sd; sd_hostname := sd_hostname sd;
  sd_devices := {| SpecGroups := SpecGroups (sd_devices sd);
                   StatusGroups := (BuildDesiredStatus released (sd_devices sd) (BpPod <$> pods)).1 |} |}.

(** The nodes a demand can use. *)
Definition needed (demands : list familyDemand) (sd : scopedDevices) : bool :=
  bool_decide ("" ∈ d_node <$> demands) ||
  (negb (bool_decide (sd_hostname sd = "")) && bool_decide (sd_hostname sd ∈ d_node <$> demands)).

(** A node's ledger rebuilt from the Pods listed on it, and those of them it holds. *)
Definition charge_listed (sd : scopedDevices) (pods : list BoundPod) (st : list scopedDevices * ledgerCharges)
    : list scopedDevices * ledgerCharges :=
  let '(pool, charges) := st in
  (pool ++ [rebuilt sd pods],
   if bool_decide (sd_hostname sd = "") then charges
   else {| lc_hostnames := {[sd_hostname sd]} ∪ lc_hostnames charges;
           lc_pods := foldl (charge_pod (sd_hostname sd)) (lc_pods charges) pods |}).

Definition charge_node (demands : list familyDemand) (st : list scopedDevices * ledgerCharges) (sd : scopedDevices)
    : prog (unit + (list scopedDevices * ledgerCharges)) :=
  if negb (needed demands sd) then Ret (inr (st.1 ++ [sd], st.2))
  else
    let! r := call (ListPods (sd_name sd)) in
    Ret (match r with None => inl tt | Some pods => inr (charge_listed sd pods st) end).

Definition chargeLedgers (pool : list scopedDevices) (demands : list familyDemand)
    : prog (unit + (list scopedDevices * ledgerCharges)) :=
  for_each pool ([], {| lc_hostnames := ∅; lc_pods := ∅ |}) (charge_node demands).

(** ** Promised cards *)

(** A Workload that may hold cards at all. *)
Definition live (wl : Workload) : bool :=
  HasQuotaReservation wl && negb (IsEvicted wl) && negb (IsFinished wl) && IsActive wl.

Definition answered_ready (checks : list AdmissionCheckState) (names : list string) : bool :=
  existsb (fun name => match FindAdmissionCheck checks name with
                       | Some acs => bool_decide (AcsState acs = CheckStateReady)
                       | None => false
                       end) names.

Definition holdsCards (wl : Workload) : prog (unit + bool) :=
  if negb (live wl) then Ret (inr false)
  else if IsAdmitted wl then Ret (inr true)
  else
    let! r := call (FilterForController (WlChecks wl)) in
    Ret (match r with
         | None => inl tt
         | Some names => inr (answered_ready (WlChecks wl) names)
         end).

Definition showsChecks (wl written : Workload) : bool :=
  forallb (fun c =>
    negb (bool_decide (AcsState c = CheckStateReady)) ||
    match FindAdmissionCheck (WlChecks wl) (AcsName c) with
    | Some acs => bool_decide (AcsState acs = CheckStateReady)
    | None => false
    end) (WlChecks written).

(** The cache answers for the Workload again. *)
Definition observed (wl written : Workload) : bool :=
  negb (bool_decide (WlUID written = WlUID wl)) || showsChecks wl written ||
  negb (HasQuotaReservation wl) || IsEvicted wl || IsFinished wl.

Definition observe (st : list Workload * gmap key Workload) (wl : Workload) : list Workload * gmap key Workload :=
  let '(out, unobserved) := st in
  match unobserved !! key_of wl with
  | None => (out ++ [wl], unobserved)
  | Some written =>
      if observed wl written then (out ++ [wl], delete (key_of wl) unobserved)
      else (out ++ [written], unobserved)
  end.

Definition compare_keys (a b : Workload) : Z :=
  let c := compare_strings (WlNamespace a) (WlNamespace b) in
  if negb (c =? 0) then c else compare_strings (WlName a) (WlName b).

Definition withUnobservedReady (cached : list Workload) (unobserved : gmap key Workload)
    : list Workload * gmap key Workload :=
  let '(out, unobserved) := foldl observe ([], unobserved) cached in
  (sort_stable (fun a b => compare_keys a b <=? 0) out, filter (fun kv => kv.1 ∈ key_of <$> cached) unobserved).

Definition recordVerdict (wl : Workload) (written : list AdmissionCheckState) (state : CheckState)
    (unobserved : gmap key Workload) : gmap key Workload :=
  if negb (bool_decide (state = CheckStateReady)) then delete (key_of wl) unobserved
  else <[key_of wl := set_checks written wl]> unobserved.

(** The Pods of one Workload that rebuilt ledgers do not hold, as demands. *)
Definition uncharged_demands (charges : ledgerCharges) (wl : Workload) : list familyDemand :=
  mjoin ((fun ps =>
    mjoin ((fun n =>
      if negb (bool_decide (hostname n ∈ lc_hostnames charges)) then []
      else
        let charged := default 0 (lc_pods charges !! (WlNamespace wl, WlName wl, PsName ps, hostname n)) in
        let left := i32 (share_count n - charged) in
        if left <=? 0 then []
        else set_origin (assignedFlavor wl (PsName ps)) [] (hostname n) <$> podSetFamilyDemands ps left)
      <$> assignedNodes wl (PsName ps))) <$> WlPodSets wl).

Definition add_inflight (self : Workload) (charges : ledgerCharges) (inflight : list familyDemand) (wl : Workload)
    : prog (unit + list familyDemand) :=
  if bool_decide (key_of wl = key_of self) then Ret (inr inflight)
  else match uncharged_demands charges wl with
       | [] => Ret (inr inflight)
       | demands =>
           let? holds := holdsCards wl in
           Ret (inr (if holds : bool then inflight ++ demands else inflight))
       end.

Definition append_scope (node : string) (scope : flavorScope) (sd : scopedDevices) : scopedDevices :=
  if bool_decide (sd_hostname sd = node) && negb (bool_decide (scope ∈ sd_scopes sd))
  then {| sd_name := sd_name sd; sd_devices := sd_devices sd; sd_scopes := sd_scopes sd ++ [scope];
          sd_hostname := sd_hostname sd |}
  else sd.

Fixpoint scopeInflightFlavors (inflight : list familyDemand) (scopes : gmap string flavorScope)
    (pool : list scopedDevices) : prog (unit + (list scopedDevices * string)) :=
  match inflight with
  | [] => Ret (inr (pool, ""))
  | d :: inflight =>
      if bool_decide (d_flavor d = "") then Ret (inr (pool, d_node d))
      else
        let? scope :=
          match scopes !! d_flavor d with
          | Some scope => Ret (inr scope)
          | None =>
              let! r := call (GetFlavor (d_flavor d)) in
              Ret (match r with
                   | inr rf => inr (scope_of (d_flavor d) rf)
                   | inl NotFound => inr {| fs_flavor := d_flavor d; fs_acceleratorKey := ""; fs_acceleratorCount := 0 |}
                   | inl _ => inl tt
                   end)
          end in
        if bool_decide (fs_acceleratorKey scope = "") then Ret (inr (pool, d_node d))
        else scopeInflightFlavors inflight (<[d_flavor d := scope]> scopes) (append_scope (d_node d) scope <$> pool)
  end.

Definition inflightDemands (self : Workload) (pool : list scopedDevices) (charges : ledgerCharges)
    : prog (unit + (list familyDemand * string * list scopedDevices)) :=
  if bool_decide (lc_hostnames charges = ∅) then Ret (inr ([], "", pool))
  else
    let! list := call ListWorkloads in
    match list with
    | None => Ret (inl tt)
    | Some items =>
        let! memory := call ReadUnobserved in
        let '(out, memory) := withUnobservedReady items memory in
        call (StoreUnobserved memory) ;!
        let? inflight := for_each out [] (add_inflight self charges) in
        let inflight := sortDemands inflight in
        let? r := scopeInflightFlavors inflight ∅ pool in
        let '(pool, unresolved) := r in
        Ret (inr (inflight, unresolved, pool))
    end.

(** ** The verdict *)

Definition desired_check (state : CheckState) (message : Message) (name : string) : AdmissionCheckState := {|
  AcsName := name; AcsState := state; AcsMessage := message;
  AcsRequeueAfterSeconds := if bool_decide (state = CheckStateRetry) then Some _NodeDevicesRetryAfterSeconds else None |}.

(** The check on the Workload says something else. *)
Definition differs (wl : Workload) (acs : AdmissionCheckState) : bool :=
  match FindAdmissionCheck (WlChecks wl) (AcsName acs) with
  | None => true
  | Some cur =>
      negb (bool_decide (AcsState cur = AcsState acs)) || negb (bool_decide (AcsMessage cur = AcsMessage acs)) ||
      negb (bool_decide (AcsRequeueAfterSeconds cur = AcsRequeueAfterSeconds acs))
  end.

Definition desiredCheckStates (wl : Workload) (checks : list string) (state : CheckState) (message : Message)
    : list AdmissionCheckState * bool :=
  let desired := desired_check state message <$> checks in (desired, existsb (differs wl) desired).

(** [applyVerdict] and the [objectWriteResult] of its caller: [inl] is an error that
    is returned. *)
Definition applyVerdict (wl : Workload) (version : Z) (checks : list string) (state : CheckState) (message : Message)
    (basis : option judgement) : prog (unit + unit) :=
  let '(desired, changed) := desiredCheckStates wl checks state message in
  if negb changed then Ret (inr tt)
  else
    let! r := call (PatchStatus wl version desired basis) in
    match r with
    | Some OtherError => Ret (inl tt)
    | Some _ => Ret (inr tt)
    | None =>
        let! memory := call ReadUnobserved in
        call (StoreUnobserved (recordVerdict wl desired state memory)) ;!
        Ret (inr tt)
    end.

Definition unassignedFlavorMessage (roles : list string) : Message := UnassignedFlavor (forRoles roles).
Definition unresolvedFlavorMessage (roles : list string) : Message := UnresolvedFlavor (forRoles roles).
Definition unresolvedInflightMessage (node : string) : Message := UnresolvedInflight node.

(** The demands of a Workload, with roles only where there are several podsets. *)
Definition demands_of (wl : Workload) : list familyDemand :=
  let demands := parseFamilyDemands wl in
  if (length (WlPodSets wl) <=? 1)%nat then withoutRoles demands else demands.

Definition judge (wl : Workload) (version : Z) (checks : list string) : prog (unit + unit) :=
  let demands := demands_of wl in
  match unassignedDemands demands with
  | _ :: _ as unassigned =>
      applyVerdict wl version checks CheckStateRetry (unassignedFlavorMessage (rolesOf unassigned)) None
  | [] =>
      let? devices := candidateDevices wl in
      match unresolvedDemands devices demands with
      | _ :: _ as unresolved =>
          applyVerdict wl version checks CheckStateRetry (unresolvedFlavorMessage (rolesOf unresolved)) None
      | [] =>
          let? charged := chargeLedgers devices demands in
          let '(devices, charges) := charged in
          let? r := inflightDemands wl devices charges in
          let '(inflight, unresolvedNode, devices) := r in
          if negb (bool_decide (unresolvedNode = "")) then
            applyVerdict wl version checks CheckStateRetry (unresolvedInflightMessage unresolvedNode) None
          else
            let '(state, message) := nodeDevicesFeasibility devices inflight demands in
            applyVerdict wl version checks state message
              (Some {| j_pool := devices; j_charges := charges; j_inflight := inflight; j_demands := demands |})
      end
  end.

Definition Reconcile (k : key) : prog (unit + unit) :=
  let! r := call (GetWorkload k) in
  match r with
  | inl NotFound => Ret (inr tt)
  | inl _ => Ret (inl tt)
  | inr (wl, version) =>
      if negb (HasQuotaReservation wl) || IsEvicted wl || IsFinished wl || negb (IsActive wl) then Ret (inr tt)
      else if IsAdmitted wl then Ret (inr tt)
      else
        let! r := call (FilterForController (WlChecks wl)) in
        match r with
        | None => Ret (inl tt)
        | Some [] => Ret (inr tt)
        | Some checks => judge wl version checks
        end
  end.
End Reconcile.
