(* ===== verification/AdmitSafety.v ===== *)
(** * Device admission: what is promised is remembered

    The proof that a judgment counts every Workload answered Ready before it, although
    it reads Workloads from a cache that may not show those answers yet: an invariant
    over the states of each Workload between the cache and the API server, kept by
    whatever Kueue does beside the controller and by every program of
    AdmitReconcile.v. *)

From stdpp Require Import prelude gmap strings list sorting relations.
From S2P Require Import Prelude Programs Device PluginRecords PluginLedger AdmitDemand AdmitFit AdmitWorld AdmitReconcile.

(** What Kueue's helpers on lists of check states do. *)
Class KueueLaws `{KueueAPI : Kueue} : Prop := {
  find_elem cs n acs : FindAdmissionCheck cs n = Some acs -> acs ∈ cs /\ AcsName acs = n;
  find_set_same cs st :
    AcsState <$> FindAdmissionCheck (SetAdmissionCheckState cs st) (AcsName st) = Some (AcsState st);
  find_set_other cs st n :
    n <> AcsName st -> FindAdmissionCheck (SetAdmissionCheckState cs st) n = FindAdmissionCheck cs n;
  names_set cs st n : n ∈ AcsName <$> SetAdmissionCheckState cs st <-> n ∈ AcsName <$> cs \/ n = AcsName st }.

Section Safety.
Context `{Tables : NameTables} `{KueueAPI : Kueue} `{Laws : !KueueLaws}.
Context (owned : string -> bool) (released : bool).

Abbreviation perform := (AdmitWorld.perform owned).

(** ** Promises *)

Definition own_checks (checks : list AdmissionCheckState) : list string :=
  filter (fun n => owned n = true) (AcsName <$> checks).

(** The Workload's cards are promised to it: a check of this controller says Ready
    and it may use them. *)
Definition promised (wl : Workload) : Prop :=
  live wl = true /\ answered_ready (WlChecks wl) (own_checks (WlChecks wl)) = true.

(** What a Workload's inflight demands are read from. *)
Definition content (wl : Workload) : string * list PodSet * option (list PodSetAssignment) :=
  (WlUID wl, WlPodSets wl, WlAdmission wl).

(** A state of the object of key [k] that keeps the promise of [wl]. *)
Definition promises (wl : Workload) (o : option object) : Prop :=
  exists wl' v, o = Some (wl', v) /\ promised wl' /\ content wl' = content wl.

(** What others may write over [o]: a new object is not answered Ready, and only a
    promise that was there is there afterwards, for the same Pods on the same nodes. *)
Definition may_become (k : key) (o : option object) (wl' : option Workload) : Prop :=
  forall wl, wl' = Some wl -> key_of wl = k /\ (promised wl -> promises wl o).

(** ** What happens beside the controller *)

Inductive env : relation world :=
  | env_write w k wl : may_become k (stored_at (stream w) k) wl -> env w (write_at k wl w)
  | env_deliver w k o o' rest :
      stream w !! k = Some (o :: o' :: rest) -> env w (set_stream (<[k := o' :: rest]> (stream w)) (clock w) w)
  | env_cluster w fl inv nd bd : env w (set_cluster fl inv nd bd w).

Definition rely (t : nat) : relation world := fun w w' => t = 0%nat -> rtc env w w'.
#[export] Instance rely_interference : Interference rely.
Proof.
  constructor. intros t. split; [by intros w _|]. intros w1 w2 w3 H1 H2 Ht. by trans w2; auto.
Qed.

(** ** Answers *)

(** The ledgers of the nodes a demand can use, rebuilt one after another, each from
    one list of the Pods bound to the node. *)
Inductive listing (demands : list familyDemand) : list scopedDevices -> list scopedDevices * ledgerCharges -> Prop :=
  | listing_nil : listing demands [] ([], {| lc_hostnames := ∅; lc_pods := ∅ |})
  | listing_skip pool st sd :
      listing demands pool st -> needed demands sd = false -> listing demands (pool ++ [sd]) (st.1 ++ [sd], st.2)
  | listing_node pool st sd pods :
      listing demands pool st -> needed demands sd = true ->
      listing demands (pool ++ [sd]) (charge_listed released sd pods st).

(** The same nodes, with the flavors of inflight demands added. *)
Definition rescoped (pool pool' : list scopedDevices) : Prop :=
  Forall2 (fun a b => sd_name b = sd_name a /\ sd_devices b = sd_devices a /\ sd_hostname b = sd_hostname a /\
                      sd_scopes a ⊆ sd_scopes b) pool pool'.

(** The inflight demands of a judgment are those of other Workloads, and every
    Workload whose cards are promised is among them: what its Pods still need on the
    rebuilt nodes is in the judgment. *)
Definition counts_promises (self : Workload) (charges : ledgerCharges) (inflight : list familyDemand) (s : streams) : Prop :=
  exists others, NoDup (key_of <$> others) /\ key_of self ∉ key_of <$> others /\
    inflight ≡ₚ mjoin (uncharged_demands charges <$> others) /\
    forall k wl v, k <> key_of self -> stored_at s k = Some (wl, v) -> promised wl -> uncharged_demands charges wl <> [] ->
      exists other, other ∈ others /\ key_of other = k /\ content other = content wl.

Record fair (a : answer) : Prop := {
  fair_demands : j_demands (a_basis a) = demands_of (a_workload a);
  fair_ledgers : exists pool pool',
    listing (j_demands (a_basis a)) pool (pool', j_charges (a_basis a)) /\ rescoped pool' (j_pool (a_basis a));
  fair_inflight : counts_promises (a_workload a) (j_charges (a_basis a)) (j_inflight (a_basis a)) (a_streams a);
  fair_ready :
    (nodeDevicesFeasibility (j_pool (a_basis a)) (j_inflight (a_basis a)) (j_demands (a_basis a))).1 = CheckStateReady }.

(** ** The invariant *)

(** Older states come first. *)
Definition versions (l : list (option object)) : list Z := omap (fun o => snd <$> o) l.

Record ordered (k : key) (clk : Z) (l : list (option object)) : Prop := {
  ordered_some : l <> [];
  ordered_keys : forall wl v, Some (wl, v) ∈ l -> key_of wl = k /\ v <= clk;
  ordered_versions : StronglySorted Z.lt (versions l) }.

(** The whole stream keeps the promise. *)
Definition shown (wl : Workload) (l : list (option object)) : Prop := Forall (promises wl) l.

(** The cache is one write behind, and the controller remembers what it wrote. *)
Definition behind (wl : Workload) (l : list (option object)) (m : option Workload) : Prop :=
  exists wl0 v rest written,
    l = Some (wl0, v) :: rest /\ live wl0 = true /\ content wl0 = content wl /\ shown wl rest /\
    m = Some written.

Definition kept (l : list (option object)) (m : option Workload) : Prop :=
  forall wl v, last l = Some (Some (wl, v)) -> promised wl ->
    (shown wl l \/ behind wl l m) /\
    forall e, m = Some e -> promised e /\ content e = content wl.

Definition memory (w : world) : gmap key Workload :=
  match unrecorded w with Some wl => <[key_of wl := wl]> (readyUnobserved w) | None => readyUnobserved w end.

Record inv (w : world) : Prop := {
  inv_ordered : forall k, ordered k (clock w) (history (stream w) k);
  inv_memory : forall k e, memory w !! k = Some e -> key_of e = k;
  inv_kept : forall k, kept (history (stream w) k) (memory w !! k);
  inv_answers : Forall fair (answers w) }.

Definition guar (t : nat) : relation world := fun w w' => t = 0%nat /\ (inv w -> inv w').

(** *** Streams *)

Lemma history_insert s k l k' : history (<[k := l]> s) k' = if decide (k' = k) then l else history s k'.
Proof.
  unfold history. destruct (decide (k' = k)) as [->|Hne]; [by rewrite lookup_insert_eq|by rewrite lookup_insert_ne].
Qed.

Lemma stored_last s k o : stored_at s k = Some o -> last (history s k) = Some (Some o).
Proof. unfold stored_at. destruct (last (history s k)) as [[?|]|]; cbn; congruence. Qed.

Lemma versions_app l1 l2 : versions (l1 ++ l2) = versions l1 ++ versions l2.
Proof. apply omap_app. Qed.

Lemma sorted_snoc (l : list Z) z : StronglySorted Z.lt l -> (forall x, x ∈ l -> x < z) -> StronglySorted Z.lt (l ++ [z]).
Proof.
  induction 1 as [|x l Hs IH Hx]; intros Hz; cbn; [by repeat constructor|]. constructor.
  - apply IH. intros y Hy. apply Hz. by right.
  - apply Forall_app. split; [done|]. apply list.Forall_singleton. apply Hz. left.
Qed.

Lemma elem_versions l v : v ∈ versions l -> exists wl, Some (wl, v) ∈ l.
Proof. intros ([[wl v']|] & Ho & Hv)%list_elem_of_omap; [|done]. injection Hv as ->. eauto. Qed.

Lemma ordered_write k clk l wl :
  ordered k clk l -> (forall x, wl = Some x -> key_of x = k) ->
  ordered k (clk + 1) (l ++ [(fun wl => (wl, clk + 1)) <$> wl]).
Proof.
  intros [H1 H2 H3] Hk. constructor.
  - by destruct l.
  - intros x v [Hx|Hx]%elem_of_app; [destruct (H2 x v Hx); split; [done|lia]|].
    apply list_elem_of_singleton in Hx. destruct wl as [y|]; [|done]. injection Hx as -> ->. split; [by apply Hk|lia].
  - rewrite versions_app. destruct wl as [y|]; [|by rewrite app_nil_r]. apply sorted_snoc; [done|].
    intros v (x & Hx)%elem_versions. destruct (H2 x v Hx). cbn. lia.
Qed.

Lemma ordered_mono k clk clk' l : clk <= clk' -> ordered k clk l -> ordered k clk' l.
Proof. intros Hc [H1 H2 H3]. constructor; [done| |done]. intros wl v Hin. destruct (H2 wl v Hin). split; [done|lia]. Qed.

Lemma ordered_tail k clk o o' rest : ordered k clk (o :: o' :: rest) -> ordered k clk (o' :: rest).
Proof.
  intros [H1 H2 H3]. constructor; [done|intros wl v Hin; apply H2; by right|]. unfold versions in *. cbn in H3.
  destruct o as [[]|]; cbn in H3; [by apply StronglySorted_inv in H3 as [? _]|done].
Qed.

(** *** Others keep the invariant *)

Lemma kept_write l wl v m :
  l <> [] -> kept l m -> (promised wl -> promises wl (default None (last l))) -> kept (l ++ [Some (wl, v)]) m.
Proof.
  intros Hl Hk Hp wl' v' Hlast Hpr. rewrite last_snoc in Hlast. injection Hlast as -> ->.
  destruct (Hp Hpr) as (wl0 & v0 & Ho & Hp0 & Hc). destruct (last l) as [o|] eqn:He; [|by apply last_None in He].
  cbn in Ho. subst o. destruct (Hk wl0 v0 He Hp0) as [Hs Hm].
  assert (forall o, promises wl0 o -> promises wl' o) as Himp.
  { intros o (x & vx & -> & Hx & Hcx). exists x, vx. split_and!; [done|done|congruence]. }
  assert (promises wl' (Some (wl', v'))) as Hself by (exists wl', v'; done).
  split; [|intros e He'; destruct (Hm e He'); split; [done|congruence]].
  destruct Hs as [Hs|(o0 & vo & rest & written & -> & Hlv & Hc0 & Hs & Hw)]; [left|right].
  - apply Forall_app. split; [|by apply list.Forall_singleton]. eapply Forall_impl; [exact Hs|done].
  - exists o0, vo, (rest ++ [Some (wl', v')]), written. split_and!; [done|done|congruence| |done].
    apply Forall_app. split; [|by apply list.Forall_singleton]. eapply Forall_impl; [exact Hs|done].
Qed.

Lemma kept_none l m : kept (l ++ [None]) m.
Proof. intros wl v Hl. by rewrite last_snoc in Hl. Qed.

Lemma kept_deliver o o' rest m : kept (o :: o' :: rest) m -> kept (o' :: rest) m.
Proof.
  intros Hk wl v Hl Hp. destruct (Hk wl v) as [Hs Hm]; [by rewrite last_cons_cons|done|]. split; [|done]. left.
  destruct Hs as [Hs|(o0 & vo & rest' & written & [= -> <-] & _ & _ & Hs & _)]; [by apply Forall_cons in Hs as [_ Hs]|done].
Qed.

Lemma history_write k o w k' :
  history (stream (write_at k o w)) k' =
    if decide (k' = k) then history (stream w) k ++ [(fun wl => (wl, clock w + 1)) <$> o] else history (stream w) k'.
Proof. apply history_insert. Qed.

Lemma ordered_write_at k k' o w :
  (forall x, o = Some x -> key_of x = k') -> ordered k (clock w) (history (stream w) k) ->
  ordered k (clock (write_at k' o w)) (history (stream (write_at k' o w)) k).
Proof.
  intros Ho Hk. rewrite history_write. destruct (decide (k = k')) as [->|Hne]; [by apply ordered_write|].
  eapply ordered_mono; [|done]. cbn. lia.
Qed.

Lemma ordered_env k w w' :
  env w w' -> ordered k (clock w) (history (stream w) k) -> ordered k (clock w') (history (stream w') k).
Proof.
  intros He Ho. destruct He as [w k' wl Hm|w k' o o' rest Hs|]; [| |done].
  - apply ordered_write_at; [|done]. intros x ->. by apply (Hm x).
  - cbn. rewrite history_insert. destruct (decide (k = k')) as [->|Hne]; [|done]. apply (ordered_tail _ _ o).
    unfold history in Ho. by rewrite Hs in Ho.
Qed.

Lemma env_inv w w' : env w w' -> inv w -> inv w'.
Proof.
  intros He [H1 H2 H3 H4]. constructor; [intros k; by eapply ordered_env|by destruct He| |by destruct He].
  destruct He as [w k wl Hm|w k o o' rest Hs|w fl iv nd bd]; [| |done]; intros k'.
  - rewrite history_write. destruct (decide (k' = k)) as [->|Hne]; [|apply H3].
    destruct wl as [x|]; [|apply kept_none]. cbn. apply kept_write; [apply (ordered_some _ _ _ (H1 k))|apply H3|]. by apply (Hm x).
  - cbn. rewrite history_insert. destruct (decide (k' = k)) as [->|Hne]; [|apply H3].
    apply (kept_deliver o). specialize (H3 k). unfold history in H3. by rewrite Hs in H3.
Qed.

Lemma rely_inv w w' : rely 0 w w' -> inv w -> inv w'.
Proof. intros Hr. specialize (Hr eq_refl). induction Hr as [|w1 w2 w3 He _ IH]; [done|]. intros Hi. by eapply IH, env_inv. Qed.

(** What every step beside the controller keeps. *)
Lemma rely_stable (P : world -> Prop) w w' :
  (forall w w', env w w' -> inv w -> P w -> P w') -> rely 0 w w' -> inv w -> P w -> P w'.
Proof.
  intros Hs Hr. specialize (Hr eq_refl). induction Hr as [|w1 w2 w3 He _ IH]; [done|]. intros Hi Hp.
  apply IH; [by eapply env_inv|by eapply Hs].
Qed.

(** *** What stays while others act *)

Lemma promise_back w w' k wl v :
  rely 0 w w' -> stored_at (stream w') k = Some (wl, v) -> promised wl -> promises wl (stored_at (stream w) k).
Proof.
  intros Hr. specialize (Hr eq_refl). revert wl v. induction Hr as [w|w1 w2 w3 He _ IH]; intros wl v Hs Hp.
  { exists wl, v. done. }
  destruct (IH wl v Hs Hp) as (wl2 & v2 & Hs2 & Hp2 & Hc2).
  enough (promises wl2 (stored_at (stream w1) k)) as (wl1 & v1 & -> & Hp1 & Hc1) by (exists wl1, v1; split_and!; [done|done|congruence]).
  clear IH Hs. destruct He as [w k' o Hm|w k' o o' rest Hst|]; [| |by exists wl2, v2].
  - unfold stored_at in Hs2. rewrite history_write in Hs2. destruct (decide (k = k')) as [->|Hne]; [|by exists wl2, v2].
    rewrite last_snoc in Hs2. destruct o as [x|]; [|done]. cbn in Hs2. injection Hs2 as -> _. by apply (Hm wl2).
  - unfold stored_at in *. cbn in Hs2. rewrite history_insert in Hs2. destruct (decide (k = k')) as [->|Hne]; [|by exists wl2, v2].
    assert (history (stream w) k' = o :: o' :: rest) as -> by (unfold history; by rewrite Hst).
    rewrite last_cons_cons. by exists wl2, v2.
Qed.

Definition unpromised (k : key) (w : world) : Prop := forall wl v, stored_at (stream w) k = Some (wl, v) -> ~ promised wl.

Lemma unpromised_rely k w w' : rely 0 w w' -> unpromised k w -> unpromised k w'.
Proof. intros Hr Hu wl v Hs Hp. destruct (promise_back w w' k wl v Hr Hs Hp) as (wl0 & v0 & Hs0 & Hp0 & _). by eapply Hu. Qed.

Lemma uncharged_content charges a b :
  key_of a = key_of b -> content a = content b -> uncharged_demands charges a = uncharged_demands charges b.
Proof.
  unfold key_of, content, uncharged_demands, assignedNodes, assignedFlavor, assignment_of. intros [= -> ->] [= _ -> ->]. done.
Qed.

Lemma stored_key w k wl v : inv w -> stored_at (stream w) k = Some (wl, v) -> key_of wl = k.
Proof. intros Hi Hs%stored_last. by apply (ordered_keys _ _ _ (inv_ordered w Hi k) wl v), last_Some_elem_of. Qed.

Lemma counts_rely self charges inflight w w' :
  rely 0 w w' -> inv w -> counts_promises self charges inflight (stream w) -> counts_promises self charges inflight (stream w').
Proof.
  intros Hr Hi (others & H1 & H2 & H3 & H4). exists others. split_and!; [done|done|done|]. intros k wl v Hk Hs Hp Hu.
  destruct (promise_back w w' k wl v Hr Hs Hp) as (wl0 & v0 & Hs0 & Hp0 & Hc).
  assert (key_of wl0 = key_of wl) as Hkey.
  { rewrite (stored_key w k wl0 v0 Hi Hs0). symmetry. apply (stored_key w' k wl v); [by eapply rely_inv|done]. }
  destruct (H4 k wl0 v0 Hk Hs0 Hp0) as (x & Hx & Hkx & Hcx); [by rewrite (uncharged_content charges wl0 wl)|].
  exists x. split_and!; [done|done|congruence].
Qed.

(** The controller's own memory and its log. *)
Lemma rely_own w w' :
  rely 0 w w' -> readyUnobserved w' = readyUnobserved w /\ unrecorded w' = unrecorded w /\ answers w' = answers w.
Proof. intros Hr. specialize (Hr eq_refl). induction Hr as [|w1 w2 w3 He _ IH]; [done|]. by destruct He. Qed.

(** The object was read in this state, and the cache went on from there. *)
Definition seen (k : key) (wl : Workload) (v : Z) (w : world) : Prop :=
  ordered k (clock w) (history (stream w) k) /\ v <= clock w /\
  ((exists rest, history (stream w) k = Some (wl, v) :: rest) \/ Forall (fun v' => v < v') (versions (history (stream w) k))).

Lemma seen_env k wl v w w' : env w w' -> seen k wl v w -> seen k wl v w'.
Proof.
  intros He (Ho & Hv & Hs). split; [by eapply ordered_env|].
  destruct He as [w k' o Hm|w k' o o' rest Hst|]; [| |done]; cbn.
  - split; [lia|]. rewrite history_insert. destruct (decide (k = k')) as [->|Hne]; [|done].
    destruct Hs as [(rest & ->)|Hs]; [left; eexists; reflexivity|right]. rewrite versions_app. apply Forall_app.
    split; [done|]. destruct o as [x|]; cbn; [apply list.Forall_singleton; lia|constructor].
  - split; [done|]. rewrite history_insert. destruct (decide (k = k')) as [->|Hne]; [|done].
    assert (history (stream w) k' = o :: o' :: rest) as Hh by (unfold history; by rewrite Hst).
    apply ordered_versions in Ho. rewrite Hh in Ho, Hs. right. destruct Hs as [(r & [= -> <-])|Hs].
    + unfold versions in Ho. cbn in Ho. by apply StronglySorted_inv in Ho as [_ Ho].
    + unfold versions in Hs. cbn in Hs. destruct o as [[]|]; [by apply Forall_cons in Hs as [_ Hs]|done].
Qed.

Lemma seen_rely k wl v w w' : rely 0 w w' -> seen k wl v w -> seen k wl v w'.
Proof. intros Hr. specialize (Hr eq_refl). induction Hr as [|w1 w2 w3 He _ IH]; [done|]. intros Hs. by eapply IH, seen_env. Qed.

(** A write that lands was judged from the one state the cache and the API server
    both have. *)
Lemma seen_current k wl v w wl' :
  seen k wl v w -> stored_at (stream w) k = Some (wl', v) -> history (stream w) k = [Some (wl, v)] /\ wl' = wl.
Proof.
  intros (Ho & _ & Hs) Hst. apply stored_last in Hst. apply ordered_versions in Ho.
  assert (v ∈ versions (history (stream w) k)) as Hv.
  { apply list_elem_of_omap. exists (Some (wl', v)). split; [by apply last_Some_elem_of|done]. }
  destruct Hs as [(rest & Hh)|Hs]; [|rewrite list.Forall_forall in Hs; specialize (Hs v Hv); lia].
  rewrite Hh in *. destruct rest as [|o rest]; [cbn in Hst; by injection Hst as ->|]. exfalso.
  change (StronglySorted Z.lt (v :: versions (o :: rest))) in Ho. apply StronglySorted_inv in Ho as [_ Ho].
  rewrite list.Forall_forall in Ho.
  rewrite last_cons_cons in Hst. assert (v < v) as Hlt; [|lia]. apply Ho, list_elem_of_omap. exists (Some (wl', v)).
  split; [by apply last_Some_elem_of|done].
Qed.

(** *** Checks after a write *)

Lemma set_names cs desired n :
  n ∈ AcsName <$> foldl SetAdmissionCheckState cs desired <-> n ∈ AcsName <$> cs \/ n ∈ AcsName <$> desired.
Proof.
  revert cs. induction desired as [|st desired IH]; intros cs; cbn; [rewrite elem_of_nil; tauto|].
  rewrite IH, names_set, elem_of_cons. tauto.
Qed.

Lemma set_find cs state message names n :
  n ∈ names -> AcsState <$> FindAdmissionCheck (foldl SetAdmissionCheckState cs (desired_check state message <$> names)) n = Some state.
Proof.
  revert cs. induction names as [|m names IH] using rev_ind; intros cs Hn; [by apply elem_of_nil in Hn|].
  rewrite fmap_app, foldl_app. cbn. destruct (decide (n = m)) as [->|Hne]; [apply (find_set_same _ (desired_check state message m))|].
  rewrite find_set_other by done. apply IH. apply elem_of_app in Hn as [Hn|Hn]; [done|]. by apply list_elem_of_singleton in Hn.
Qed.

Lemma answered_iff cs names : answered_ready cs names = true <->
  exists n, n ∈ names /\ AcsState <$> FindAdmissionCheck cs n = Some CheckStateReady.
Proof.
  unfold answered_ready. rewrite existsb_exists. split; intros (n & Hn & Hf); exists n; rewrite list_elem_of_In in *; (split; [done|]).
  - destruct (FindAdmissionCheck cs n) as [acs|]; [|done]. apply bool_decide_eq_true in Hf. cbn. by rewrite Hf.
  - destruct (FindAdmissionCheck cs n) as [acs|]; [|done]. cbn in Hf. injection Hf as Hf. by apply bool_decide_eq_true.
Qed.

Lemma promised_set wl state message checks :
  live wl = true -> checks = own_checks (WlChecks wl) -> checks <> [] ->
  promised (set_checks (desired_check state message <$> checks) wl) <-> state = CheckStateReady.
Proof.
  intros Hl Hc Hne. unfold promised. rewrite answered_iff. cbn.
  assert (forall n, n ∈ own_checks (foldl SetAdmissionCheckState (WlChecks wl) (desired_check state message <$> checks)) <-> n ∈ checks) as Hn.
  { intros n. unfold own_checks. rewrite list_elem_of_filter, set_names. rewrite <- list_fmap_compose.
    assert ((AcsName ∘ desired_check state message) <$> checks = checks) as -> by apply list_fmap_id.
    rewrite Hc. unfold own_checks. rewrite !list_elem_of_filter. tauto. }
  split.
  - intros (_ & n & Hin & Hf). apply Hn in Hin. rewrite set_find in Hf by done. congruence.
  - intros ->. split; [done|]. destruct checks as [|n checks]; [done|]. exists n. split; [apply Hn; left|].
    apply set_find. left.
Qed.

(** ** Reading *)

Definition allowed (c : choice) : Prop := lost c = false.

Definition reads (X : Type) (a : act X) : bool :=
  match a with StoreUnobserved _ | PatchStatus _ _ _ _ => false | _ => true end.

Definition says (X : Type) (a : act X) : X -> Prop :=
  match a in act X return X -> Prop with
  | FilterForController checks => fun r => r = None \/ r = Some (own_checks checks)
  | _ => fun _ => True
  end.

Abbreviation wp := (Programs.wp (@AdmitWorld.perform _ owned) allowed rely guar inv 0%nat).

Lemma wp_reads {A} (p : prog A) R w : quiet reads p -> always says p R -> wp p (fun x w' => R x /\ rely 0 w w') w.
Proof.
  apply (wp_always (@AdmitWorld.perform _ owned) allowed rely guar inv). intros c X a w0 x w0' Hr Hp.
  destruct a; try done; cbn in Hp; injection Hp as <- <-; (split; [done|]; split; [done|]); try done.
  cbn. unfold answering. destruct (failing c); [by left|by right].
Qed.

Lemma quiet_reads_call {X} (a : act X) : reads X a = true -> quiet reads (call a).
Proof. intros H. split; [done|]. done. Qed.

Lemma quiet_candidateDevices wl : quiet reads (candidateDevices wl).
Proof.
  unfold candidateDevices. destruct (WlAdmission wl) as [psas|]; [|done]. apply quiet_bind_err.
  - apply quiet_for_each. intros byName ref. apply quiet_bind; [by apply quiet_reads_call|]. intros [[]|rf]; try done.
    destruct (bool_decide _); [done|]. apply quiet_bind; [by apply quiet_reads_call|]. done.
  - intros byName. apply quiet_for_each. intros pool name. destruct (byName !! name); [|done]. apply quiet_bind_err; [|done].
    apply quiet_bind; [by apply quiet_reads_call|]. done.
Qed.

Lemma quiet_charge pool demands : quiet reads (chargeLedgers released pool demands).
Proof.
  apply quiet_for_each. intros st sd. unfold charge_node. destruct (negb _); [done|].
  apply quiet_bind; [by apply quiet_reads_call|]. done.
Qed.

Lemma charge_listing pool demands :
  always says (chargeLedgers released pool demands) (fun r => match r with inl _ => True | inr st => listing demands pool st end).
Proof.
  apply (always_for_each says pool _ _ (listing demands)); [constructor|]. intros before sd st Hst. unfold charge_node.
  destruct (needed demands sd) eqn:Hn; cbn [negb]; [|by apply listing_skip].
  apply always_bind. intros [pods|] _; [|done]. by apply listing_node.
Qed.

Lemma quiet_holds wl : quiet reads (holdsCards wl).
Proof.
  unfold holdsCards. destruct (negb _); [done|]. destruct (IsAdmitted wl); [done|].
  apply quiet_bind; [by apply quiet_reads_call|]. done.
Qed.

Lemma holds_promised wl :
  promised wl -> always says (holdsCards wl) (fun r => match r with inl _ => True | inr b => b = true end).
Proof.
  intros [Hl Ha]. unfold holdsCards. rewrite Hl. cbn [negb]. destruct (IsAdmitted wl); [done|].
  apply always_bind. by intros r [-> | ->].
Qed.

Lemma quiet_inflight self charges out : quiet reads (for_each out [] (add_inflight self charges)).
Proof.
  apply quiet_for_each. intros inflight wl. unfold add_inflight. destruct (bool_decide _); [done|].
  destruct (uncharged_demands charges wl); [done|]. apply quiet_bind_err; [apply quiet_holds|done].
Qed.

(** The Workloads among [before] whose Pods are counted. *)
Definition counting (self : Workload) (charges : ledgerCharges) (before : list Workload) (inflight : list familyDemand) : Prop :=
  exists others, others `sublist_of` before /\ (forall x, x ∈ others -> key_of x <> key_of self) /\
    inflight = mjoin (uncharged_demands charges <$> others) /\
    forall x, x ∈ before -> key_of x <> key_of self -> promised x -> uncharged_demands charges x <> [] -> x ∈ others.

Lemma counting_skip self charges before inflight wl :
  (key_of wl <> key_of self -> promised wl -> uncharged_demands charges wl = []) ->
  counting self charges before inflight -> counting self charges (before ++ [wl]) inflight.
Proof.
  intros Hwl (others & H1 & H2 & H3 & H4). exists others. split_and!; [by apply sublist_inserts_r|done|done|].
  intros x [Hx|Hx]%elem_of_app Hk Hp Hu; [by apply H4|]. apply list_elem_of_singleton in Hx as ->. by rewrite Hwl in Hu.
Qed.

Lemma counting_add self charges before inflight wl :
  key_of wl <> key_of self ->
  counting self charges before inflight -> counting self charges (before ++ [wl]) (inflight ++ uncharged_demands charges wl).
Proof.
  intros Hwl (others & H1 & H2 & -> & H4). exists (others ++ [wl]). split_and!.
  - by apply sublist_app.
  - intros x [Hx|Hx]%elem_of_app; [by apply H2|]. by apply list_elem_of_singleton in Hx as ->.
  - rewrite fmap_app, join_app. cbn. by rewrite app_nil_r.
  - intros x [Hx|Hx]%elem_of_app Hk Hp Hu; apply elem_of_app; [left; by apply H4|by right].
Qed.

Lemma inflight_counting self charges out :
  always says (for_each out [] (add_inflight self charges))
    (fun r => match r with inl _ => True | inr inflight => counting self charges out inflight end).
Proof.
  apply (always_for_each says out _ _ (counting self charges)).
  { exists []. split_and!; try done; by intros x ?%elem_of_nil. }
  intros before wl inflight Hc. unfold add_inflight. case_bool_decide as Hk; [by apply counting_skip|].
  destruct (uncharged_demands charges wl) as [|d ds] eqn:Hu; [by apply counting_skip|].
  pose proof (counting_add self charges before inflight wl Hk Hc) as Hadd. rewrite Hu in Hadd.
  destruct (decide (live wl = true /\ answered_ready (WlChecks wl) (own_checks (WlChecks wl)) = true)) as [Hp|Hp].
  - eapply (always_bind_err says _ _ (fun b => b = true) (fun r => counting self charges (before ++ [wl]) r)).
    + by apply holds_promised.
    + by intros b ->.
  - eapply (always_bind_err says _ _ (fun _ => True) (fun r => counting self charges (before ++ [wl]) r)).
    + eapply always_mono; [|apply always_true]. by intros [].
    + intros b _. cbn. destruct b; [done|]. apply counting_skip; [|done]. intros _ Hpr. by destruct Hp.
Qed.

Lemma quiet_scope inflight scopes pool : quiet reads (scopeInflightFlavors inflight scopes pool).
Proof.
  revert scopes pool. induction inflight as [|d inflight IH]; intros scopes pool; cbn [scopeInflightFlavors]; [done|].
  destruct (bool_decide _); [done|]. apply quiet_bind_err.
  - destruct (scopes !! d_flavor d); [done|]. apply quiet_bind; [by apply quiet_reads_call|]. done.
  - intros scope. destruct (bool_decide _); [done|]. apply IH.
Qed.

Lemma rescoped_refl pool : rescoped pool pool.
Proof. apply Forall_Forall2_diag, list.Forall_forall. done. Qed.

Lemma rescoped_trans a b c : rescoped a b -> rescoped b c -> rescoped a c.
Proof.
  unfold rescoped. intros Hab Hbc. revert c Hbc. induction Hab as [|x y a b (H1 & H2 & H3 & H4) _ IH]; intros c Hbc.
  - by inversion Hbc.
  - inversion Hbc as [|? z ? c' (G1 & G2 & G3 & G4) Hr]; subst. constructor; [|by apply IH].
    split_and!; [congruence..|]. by etrans.
Qed.

Lemma scope_rescoped inflight scopes pool :
  always says (scopeInflightFlavors inflight scopes pool) (fun r => match r with inl _ => True | inr pn => rescoped pool pn.1 end).
Proof.
  revert scopes pool. induction inflight as [|d inflight IH]; intros scopes pool; cbn [scopeInflightFlavors]; [apply rescoped_refl|].
  destruct (bool_decide _); [apply rescoped_refl|].
  eapply (always_bind_err says _ _ (fun _ => True) (fun pn => rescoped pool pn.1)).
  { eapply always_mono; [|apply always_true]. by intros []. }
  intros scope _. destruct (bool_decide _); [apply rescoped_refl|]. eapply always_mono; [|apply IH].
  intros [|[pool' n]]; [done|]. apply rescoped_trans. apply Forall2_fmap_r, Forall_Forall2_diag, list.Forall_forall.
  intros sd _. cbn. unfold append_scope. repeat case_bool_decide; cbn; split_and!; try done.
  intros x Hx. apply elem_of_app. by left.
Qed.

(** ** The cache and the memory *)

(** What a cached Workload is replaced by. *)
Definition current (m : gmap key Workload) (wl : Workload) : Workload :=
  match m !! key_of wl with Some e => if observed wl e then wl else e | None => wl end.

Lemma observe_spec items acc m :
  NoDup (key_of <$> items) ->
  let r := foldl observe (acc, m) items in
  r.1 = acc ++ (current m <$> items) /\
  forall k, r.2 !! k = m !! k \/ (r.2 !! k = None /\ exists e wl, m !! k = Some e /\ wl ∈ items /\ key_of wl = k /\ observed wl e = true).
Proof.
  cbn zeta. revert acc m. induction items as [|wl items IH]; intros acc m Hn; [cbn; rewrite app_nil_r; auto|].
  cbn in Hn. apply NoDup_cons in Hn as [Hwl Hn]. cbn [foldl].
  assert (forall m', (forall k, k <> key_of wl -> m' !! k = m !! k) -> current m' <$> items = current m <$> items) as Hcur.
  { intros m' Hm'. apply list_fmap_ext. intros i x Hx. unfold current. rewrite Hm'; [done|]. intros E. apply Hwl. rewrite <- E.
    by eapply list_elem_of_fmap_2, list_elem_of_lookup_2. }
  assert (observe (acc, m) wl = (acc ++ [current m wl],
    match m !! key_of wl with Some e => if observed wl e then delete (key_of wl) m else m | None => m end)) as ->.
  { unfold observe, current. destruct (m !! key_of wl) as [e|]; [|done]. by destruct (observed wl e). }
  destruct (m !! key_of wl) as [e|] eqn:He; [destruct (observed wl e) eqn:Ho|].
  - destruct (IH (acc ++ [current m wl]) (delete (key_of wl) m) Hn) as [H1 H2]. split.
    + rewrite H1, <- app_assoc. cbn. do 2 f_equal. apply Hcur. intros k Hk. by rewrite lookup_delete_ne.
    + intros k. destruct (decide (k = key_of wl)) as [->|Hk].
      * right. specialize (H2 (key_of wl)). rewrite lookup_delete_eq in H2. split; [by destruct H2 as [->|[-> _]]|].
        exists e, wl. split_and!; [done|left|done|done].
      * specialize (H2 k). rewrite lookup_delete_ne in H2 by done.
        destruct H2 as [->|(-> & e' & wl' & ? & ? & ? & ?)]; [by left|]. right. split; [done|]. exists e', wl'. split_and!; [done|by right|done|done].
  - destruct (IH (acc ++ [current m wl]) m Hn) as [H1 H2]. split; [by rewrite H1, <- app_assoc|].
    intros k. destruct (H2 k) as [->|(-> & e' & wl' & ? & ? & ? & ?)]; [by left|]. right. split; [done|]. exists e', wl'.
    split_and!; [done|by right|done|done].
  - destruct (IH (acc ++ [current m wl]) m Hn) as [H1 H2]. split; [by rewrite H1, <- app_assoc|].
    intros k. destruct (H2 k) as [->|(-> & e' & wl' & ? & ? & ? & ?)]; [by left|]. right. split; [done|]. exists e', wl'.
    split_and!; [done|by right|done|done].
Qed.

Lemma unobserved_spec items m :
  NoDup (key_of <$> items) ->
  let r := withUnobservedReady items m in
  r.1 ≡ₚ current m <$> items /\
  forall k, r.2 !! k = m !! k \/
    (r.2 !! k = None /\ exists e, m !! k = Some e /\
       (k ∉ key_of <$> items \/ exists wl, wl ∈ items /\ key_of wl = k /\ observed wl e = true)).
Proof.
  intros Hn. cbn zeta. unfold withUnobservedReady. destruct (observe_spec items [] m Hn) as [H1 H2].
  destruct (foldl observe ([], m) items) as [out m']. cbn in H1, H2 |- *. subst out. split; [apply sort_stable_perm|].
  intros k. destruct (H2 k) as [E|(E & e & wl & He & Hwl & Hk & Ho)].
  - destruct (m' !! k) as [e|] eqn:Em.
    + destruct (decide (k ∈ key_of <$> items)) as [Hin|Hin].
      * left. rewrite <- E. by apply map_lookup_filter_Some_2.
      * right. split; [|exists e; split; [done|by left]]. apply map_lookup_filter_None. right. intros e' He' Hin'. by apply Hin.
    + left. rewrite <- E. apply map_lookup_filter_None. by left.
  - right. split; [apply map_lookup_filter_None; by left|]. exists e. split; [done|right]. by exists wl.
Qed.

(** The Workloads the cache lists. *)
Definition cached_list (s : streams) : list Workload := omap (fun k => fst <$> cached_at s k) (map_to_list s).*1.

Lemma elem_of_cached w wl : inv w -> wl ∈ cached_list (stream w) <-> exists v, cached_at (stream w) (key_of wl) = Some (wl, v).
Proof.
  intros Hi. unfold cached_list. rewrite list_elem_of_omap. split.
  - intros (k & _ & Hk). apply fmap_Some in Hk as ([wl' v] & Hc & ->). cbn. enough (key_of wl' = k) as -> by eauto.
    apply (ordered_keys _ _ _ (inv_ordered w Hi k) wl' v). unfold cached_at in Hc.
    destruct (head (history (stream w) k)) as [o|] eqn:Hh; [|done]. cbn in Hc. subst o. by apply head_Some_elem_of.
  - intros (v & Hc). exists (key_of wl). rewrite Hc. split; [|done]. unfold cached_at, history in Hc.
    destruct (stream w !! key_of wl) as [l|] eqn:Hs; [|done]. apply list_elem_of_fmap. exists (key_of wl, l). split; [done|].
    by apply elem_of_map_to_list.
Qed.

Lemma cached_NoDup w : inv w -> NoDup (key_of <$> cached_list (stream w)).
Proof.
  intros Hi. unfold cached_list. pose proof (NoDup_fst_map_to_list (stream w)) as Hn.
  induction Hn as [|k l Hk _ IH]; [constructor|]. cbn. destruct (fst <$> cached_at (stream w) k) as [wl|] eqn:E; [|done].
  assert (forall k wl, fst <$> cached_at (stream w) k = Some wl -> key_of wl = k) as Hkey.
  { intros k0 wl0 ([wl' v] & Hc & ->)%fmap_Some. apply (ordered_keys _ _ _ (inv_ordered w Hi k0) wl' v).
    unfold cached_at in Hc. destruct (head (history (stream w) k0)) as [o|] eqn:Hh; [|done]. cbn in Hc. subst o.
    by apply head_Some_elem_of. }
  cbn. constructor; [|done]. intros (x & Hx & Hin)%list_elem_of_fmap. apply list_elem_of_omap in Hin as (k' & Hk' & Hx').
  rewrite (Hkey _ _ E) in Hx. rewrite (Hkey _ _ Hx') in Hx. by subst k'.
Qed.

(** A check that says Ready in [written] says so in [wl] too. *)
Lemma shows_promised wl written : live wl = true -> promised written -> showsChecks wl written = true -> promised wl.
Proof.
  intros Hl [_ Hw] Hs. split; [done|]. rewrite answered_iff in *. destruct Hw as (n & Hn & Hf).
  destruct (FindAdmissionCheck (WlChecks written) n) as [acs|] eqn:Hfind; [|done]. cbn in Hf. injection Hf as Hf.
  apply find_elem in Hfind as [Hin Hname]. unfold showsChecks in Hs. rewrite forallb_forall in Hs.
  specialize (Hs acs (proj1 (list_elem_of_In _ _) Hin)). rewrite Hf, bool_decide_eq_true_2 in Hs by done. cbn in Hs.
  rewrite Hname in Hs. destruct (FindAdmissionCheck (WlChecks wl) n) as [acs'|] eqn:Hfind'; [|done].
  apply bool_decide_eq_true in Hs. exists n. rewrite Hfind'. cbn. rewrite Hs. split; [|done].
  apply find_elem in Hfind' as [Hin' <-]. unfold own_checks in *. apply list_elem_of_filter in Hn as [Ho _].
  apply list_elem_of_filter. split; [congruence|]. by apply list_elem_of_fmap_2.
Qed.

(** The whole stream keeps the promise there is. *)
Definition settled (k : key) (w : world) : Prop :=
  forall wl v, stored_at (stream w) k = Some (wl, v) -> promised wl -> shown wl (history (stream w) k).

Lemma settled_env k w w' : env w w' -> inv w -> settled k w -> settled k w'.
Proof.
  intros He Hi Hs wl v Hst Hp. destruct (promise_back w w' k wl v) as (wl0 & v0 & Hs0 & Hp0 & Hc); [|done|done|].
  { intros _. by apply rtc_once. }
  assert (shown wl (history (stream w) k)) as Hsh.
  { eapply Forall_impl; [exact (Hs wl0 v0 Hs0 Hp0)|]. intros o (x & vx & -> & Hx & Hcx). exists x, vx. split_and!; [done|done|congruence]. }
  destruct He as [w k' o Hm|w k' o o' rest Hstr|]; [| |done].
  - unfold stored_at in Hst. rewrite history_write in *. destruct (decide (k = k')) as [->|]; [|done].
    rewrite last_snoc in Hst. cbn in Hst. rewrite Hst. apply Forall_app. split; [done|]. apply list.Forall_singleton. by exists wl, v.
  - cbn in *. rewrite history_insert. destruct (decide (k = k')) as [->|]; [|done].
    assert (history (stream w) k' = o :: o' :: rest) as Hh by (unfold history; by rewrite Hstr). rewrite Hh in Hsh.
    by apply Forall_cons in Hsh as [_ ?].
Qed.

Lemma settled_stable k w w' : rely 0 w w' -> inv w -> settled k w -> settled k w'.
Proof. apply rely_stable. apply settled_env. Qed.

(** What the cache shows of a promised Workload. *)
Lemma promised_head w k wl v :
  inv w -> stored_at (stream w) k = Some (wl, v) -> promised wl ->
  exists c vc, cached_at (stream w) k = Some (c, vc) /\ key_of c = k /\ live c = true /\ content c = content wl /\
    (promised c \/ is_Some (memory w !! k)) /\ (promised c -> settled k w) /\
    forall e, memory w !! k = Some e -> promised e /\ content e = content wl.
Proof.
  intros Hi Hs Hp. pose proof (stored_last _ _ _ Hs) as Hl. destruct (inv_kept w Hi k wl v Hl Hp) as [Hk Hm].
  pose proof (inv_ordered w Hi k) as Ho. destruct (history (stream w) k) as [|o rest] eqn:Hh; [by apply ordered_some in Ho|].
  assert (forall wl' v', shown wl (o :: rest) -> stored_at (stream w) k = Some (wl', v') -> promised wl' -> shown wl' (o :: rest)) as Hset.
  { intros wl' v' Hsh Hs' _. rewrite Hs in Hs'. by injection Hs' as <- <-. }
  assert (cached_at (stream w) k = o) as Hc by (unfold cached_at; by rewrite Hh).
  destruct Hk as [Hsh|(c & vc & rest' & e & [= -> <-] & Hlv & Hcc & Hsh & He)].
  - pose proof Hsh as Hsh'. apply Forall_cons in Hsh' as [(c & vc & -> & Hpc & Hcc) _]. exists c, vc.
    split_and!; [done|apply (ordered_keys _ _ _ Ho c vc); left|apply Hpc|done|by left| |done].
    intros _ wl' v' Hs' Hp'. rewrite Hh. by eapply Hset.
  - exists c, vc. split_and!; [done|apply (ordered_keys _ _ _ Ho c vc); left|done|done|right; by exists e| |done].
    intros Hpc wl' v' Hs' Hp'. rewrite Hh. apply (Hset wl' v'); [|done|done]. apply Forall_cons. split; [by exists c, vc|done].
Qed.

Lemma live_observed c e : live c = true -> content e = content c -> observed c e = true -> showsChecks c e = true.
Proof.
  unfold live, observed, content. intros Hl [= Hu _ _]. rewrite Hu, bool_decide_eq_true_2 by done.
  destruct (HasQuotaReservation c), (IsEvicted c), (IsFinished c), (showsChecks c e); done.
Qed.

(** What a judgment reads stands for every promised Workload. *)
Lemma current_promised w k wl v :
  inv w -> stored_at (stream w) k = Some (wl, v) -> promised wl ->
  exists x, x ∈ current (memory w) <$> cached_list (stream w) /\ key_of x = k /\ content x = content wl /\ promised x.
Proof.
  intros Hi Hs Hp. destruct (promised_head w k wl v Hi Hs Hp) as (c & vc & Hc & Hk & Hl & Hcc & Hor & _ & Hm).
  exists (current (memory w) c). split.
  { apply list_elem_of_fmap_2, (elem_of_cached w); [done|]. exists vc. by rewrite Hk. }
  unfold current. rewrite Hk. destruct (memory w !! k) as [e|] eqn:He.
  - destruct (Hm e eq_refl) as [Hpe Hce]. destruct (observed c e) eqn:Ho.
    + split_and!; [done|done|]. apply (shows_promised c e); [done|done|]. apply live_observed; [done|congruence|done].
    + split_and!; [by apply (inv_memory w Hi)|done|done].
  - destruct Hor as [Hpc|[? ?]]; [|done]. done.
Qed.

(** An entry that is dropped is not needed any more. *)
Lemma dropped_settled w k e :
  inv w -> memory w !! k = Some e ->
  k ∉ key_of <$> cached_list (stream w) \/ (exists wl, wl ∈ cached_list (stream w) /\ key_of wl = k /\ observed wl e = true) ->
  settled k w.
Proof.
  intros Hi He Hd wl v Hs Hp. destruct (promised_head w k wl v Hi Hs Hp) as (c & vc & Hc & Hk & Hl & Hcc & _ & Hset & Hm).
  destruct (Hm e He) as [Hpe Hce]. apply (Hset) with (v := v); [|done|done].
  assert (c ∈ cached_list (stream w)) as Hin by (apply (elem_of_cached w); [done|exists vc; by rewrite Hk]).
  destruct Hd as [Hn|(c' & Hin' & Hk' & Ho)].
  - destruct Hn. rewrite <- Hk. by apply list_elem_of_fmap_2.
  - apply (elem_of_cached w) in Hin' as (v' & Hc'); [|done]. rewrite Hk', Hc in Hc'. injection Hc' as <- <-.
    apply (shows_promised c e); [done|done|]. apply live_observed; [done|congruence|done].
Qed.

(** ** Programs that write *)

Lemma unpromised_settled k w : unpromised k w -> settled k w.
Proof. intros Hu wl v Hs Hp. by destruct (Hu wl v). Qed.

(** The controller's memory may lose what is not needed any more. *)
Lemma inv_store m w :
  inv w -> (forall k, m !! k = memory w !! k \/ (m !! k = None /\ settled k w)) -> inv (set_memory m None w).
Proof.
  intros [H1 H2 H3 H4] Hm. constructor; [done| |intros k|done].
  - intros k e He. cbn in He. destruct (Hm k) as [E|[E _]]; [|congruence]. apply H2. by rewrite <- E.
  - change (memory (set_memory m None w)) with m. destruct (Hm k) as [->|[-> Hs]]; [apply H3|].
    intros wl v Hl Hp. split; [left|done]. apply (Hs wl v); [|done]. unfold stored_at. cbn in Hl. by rewrite Hl.
Qed.

Lemma memory_recorded w : unrecorded w = None -> memory w = readyUnobserved w.
Proof. intros H. unfold memory. by rewrite H. Qed.

Lemma rely_memory w w' : rely 0 w w' -> memory w' = memory w.
Proof. intros Hr. destruct (rely_own w w' Hr) as (E1 & E2 & _). unfold memory. by rewrite E1, E2. Qed.

Lemma current_keys w : inv w -> key_of <$> (current (memory w) <$> cached_list (stream w)) = key_of <$> cached_list (stream w).
Proof.
  intros Hi. rewrite <- list_fmap_compose. apply list_fmap_ext. intros i wl _. cbn. unfold current.
  destruct (memory w !! key_of wl) as [e|] eqn:He; [|done]. destruct (observed wl e); [done|]. by apply (inv_memory w Hi).
Qed.

Lemma counting_counts w self charges out inflight inflight' :
  inv w -> out ≡ₚ current (memory w) <$> cached_list (stream w) -> counting self charges out inflight ->
  inflight' ≡ₚ inflight -> counts_promises self charges inflight' (stream w).
Proof.
  intros Hi Hout (others & H1 & H2 & H3 & H4) Hp. exists others. split_and!.
  - apply (sublist_NoDup _ (key_of <$> out)); [|by apply fmap_sublist].
    rewrite Hout, current_keys by done. by apply cached_NoDup.
  - intros (x & Hx & Hin)%list_elem_of_fmap. by apply (H2 x Hin).
  - by rewrite Hp, H3.
  - intros k wl v Hk Hs Hpr Hu. destruct (current_promised w k wl v Hi Hs Hpr) as (x & Hx & Hkx & Hcx & Hpx).
    exists x. split_and!; [|done|done]. apply H4; [by rewrite Hout|congruence|done|].
    rewrite (uncharged_content charges x wl); [done| |done]. rewrite Hkx. symmetry. by apply (stored_key w k wl v).
Qed.

Lemma uncharged_none charges wl : lc_hostnames charges = ∅ -> uncharged_demands charges wl = [].
Proof.
  intros Hc. unfold uncharged_demands. apply join_nil, Forall_fmap, list.Forall_forall. intros ps _.
  apply join_nil, Forall_fmap, list.Forall_forall. intros n _. cbn. rewrite Hc, bool_decide_eq_false_2; [done|]. set_solver.
Qed.

(** What judging counts. *)
Definition counted (self : Workload) (pool : list scopedDevices) (charges : ledgerCharges)
    (r : unit + list familyDemand * string * list scopedDevices) (w : world) : Prop :=
  match r with inl _ => True | inr x => rescoped pool x.2 /\ counts_promises self charges x.1.1 (stream w) end.

Lemma wp_inflight self pool charges w :
  inv w -> unrecorded w = None ->
  wp (inflightDemands self pool charges) (fun r w' => inv w' /\ unrecorded w' = None /\ counted self pool charges r w') w.
Proof.
  intros Hi Hu. unfold inflightDemands. case_bool_decide as Hc.
  { intros w' Hr. destruct (rely_own w w' Hr) as (_ & E & _). split; [by eapply rely_inv|]. split; [congruence|]. split; [apply rescoped_refl|].
    exists []. split_and!; [constructor|apply not_elem_of_nil|done|]. intros k wl v _ _ _ []. by apply uncharged_none. }
  intros w1 Hr1 Hi1 c1 r1 w1' _ [= <- <-]. split; [done|]. destruct (rely_own w w1 Hr1) as (_ & Eu1 & _).
  assert (unrecorded w1 = None) as Hu1 by congruence. unfold answering. destruct (failing c1).
  { intros w' Hr. destruct (rely_own w1 w' Hr) as (_ & E & _). split; [by eapply rely_inv|]. split; [congruence|done]. }
  fold (cached_list (stream w1)). cbn [bind call]. intros w2 Hr2 Hi2 c2 r2 w2' _ [= <- <-]. split; [done|].
  destruct (rely_own w1 w2 Hr2) as (Em2 & _ & _). rewrite Em2, <- (memory_recorded w1 Hu1).
  destruct (unobserved_spec (cached_list (stream w1)) (memory w1) (cached_NoDup w1 Hi1)) as [Hout Hm].
  destruct (withUnobservedReady (cached_list (stream w1)) (memory w1)) as [out m]. cbn [fst snd] in Hout, Hm. cbn [bind call].
  intros w3 Hr3 Hi3 c3 r3 w3' _ [= <- <-]. assert (rely 0 w1 w3) as Hr13 by (by trans w2).
  assert (inv (set_memory m None w3)) as Hi3'.
  { apply inv_store; [done|]. intros k. rewrite (rely_memory w1 w3 Hr13). destruct (Hm k) as [E|(E & e & He & Hd)]; [by left|right].
    split; [done|]. eapply settled_stable; [exact Hr13|done|]. by eapply dropped_settled. }
  split; [done|]. apply wp_bind; [apply _|]. eapply wp_mono; [|apply (wp_reads _ _ _ (quiet_inflight _ _ _) (inflight_counting _ _ _))].
  intros [|inflight] w4 [Hcount Hr4].
  { intros w' Hr. destruct (rely_own _ w' (transitivity (R := rely 0) Hr4 Hr)) as (_ & E & _). split; [|by split].
    eapply rely_inv; [exact Hr|]. by eapply rely_inv. }
  apply wp_bind; [apply _|]. eapply wp_mono; [|apply (wp_reads _ _ _ (quiet_scope _ _ _) (scope_rescoped _ _ _))].
  intros r w5 [Hres Hr5]. assert (rely 0 (set_memory m None w3) w5) as Hr35 by (by trans w4).
  enough (forall w', rely 0 w5 w' -> inv w' /\ unrecorded w' = None /\
    counts_promises self charges (sortDemands inflight) (stream w')) as Hend.
  { destruct r as [|[pool' node]]; intros w' Hr; destruct (Hend w' Hr) as (? & ? & ?); done. }
  intros w' Hr. assert (rely 0 (set_memory m None w3) w') as Hr' by (by trans w5).
  destruct (rely_own _ w' Hr') as (_ & E & _). split_and!; [by eapply rely_inv|done|].
  eapply counts_rely; [exact Hr'|done|]. apply (counts_rely _ _ _ w1 w3); [done|done|].
  eapply counting_counts; [done|exact Hout|exact Hcount|apply sort_stable_perm].
Qed.

(** *** Writing a verdict *)

Section Verdict.
Context (wl : Workload) (v : Z) (checks : list string) (state : CheckState) (message : Message) (basis : option judgement).
Context (Hlive : live wl = true) (Hown : checks = own_checks (WlChecks wl)) (Hsome : checks <> []).

Let desired := desired_check state message <$> checks.
Let written := set_checks desired wl.

Lemma says_ready_state : says_ready desired = bool_decide (state = CheckStateReady).
Proof.
  subst desired. unfold says_ready. clear Hown. destruct checks as [|c cs]; [done|]. cbn. case_bool_decide; [done|]. cbn.
  clear Hsome. induction cs as [|c' cs IH]; [done|]. cbn. by rewrite bool_decide_eq_false_2.
Qed.

(** A Ready answer rests on a fair judgment. *)
Definition grounded (s : streams) : Prop :=
  state = CheckStateReady -> exists j, basis = Some j /\ fair {| a_workload := written; a_basis := j; a_streams := s |}.

Lemma kept_promise clk :
  state = CheckStateReady -> kept ([Some (wl, v)] ++ [Some (written, clk)]) (Some written).
Proof.
  intros Hst x vx Hl Hp. injection Hl as <- <-. split; [right|by intros e [= <-]].
  exists wl, v, [Some (written, clk)], written. split_and!; try done. apply list.Forall_singleton. by exists written, clk.
Qed.

Lemma patch_inv w :
  inv w -> unrecorded w = None -> history (stream w) (key_of wl) = [Some (wl, v)] -> grounded (stream w) ->
  inv (patch wl desired basis w).
Proof.
  intros [H1 H2 H3 H4] Hu Hh Hg. unfold patch. rewrite says_ready_state. fold written.
  rewrite memory_recorded in H2 by done.
  assert (forall k, ordered k (clock w + 1) (history (stream (write_at (key_of wl) (Some written) w)) k)) as Ho.
  { intros k. apply (ordered_write_at k (key_of wl) (Some written) w); [by intros x [= <-]|apply H1]. }
  case_bool_decide as Hst; (constructor; [exact Ho| | |]).
  - intros k e. cbn. intros [[<- <-]|[_ He]]%lookup_insert_Some; [done|by apply H2].
  - intros k. change (kept (history (stream (write_at (key_of wl) (Some written) w)) k)
      ((<[key_of wl := written]> (readyUnobserved w)) !! k)).
    rewrite history_write. destruct (decide (k = key_of wl)) as [->|Hne].
    + rewrite lookup_insert_eq, Hh. by apply kept_promise.
    + rewrite lookup_insert_ne by done. specialize (H3 k). by rewrite memory_recorded in H3.
  - apply Forall_app. split; [done|]. destruct (Hg Hst) as (j & -> & Hf). by apply list.Forall_singleton.
  - intros k e. cbn. rewrite memory_recorded by done. apply H2.
  - intros k. change (memory (write_at (key_of wl) (Some written) w)) with (memory w).
    rewrite history_write. destruct (decide (k = key_of wl)) as [->|Hne]; [|apply H3].
    intros x vx Hl Hp. rewrite last_snoc in Hl. injection Hl as <- _. by apply promised_set in Hp.
  - done.
Qed.

(** What is remembered of a write that landed. *)
Lemma record_inv w w' :
  inv w -> unrecorded w = None -> history (stream w) (key_of wl) = [Some (wl, v)] ->
  rely 0 (patch wl desired basis w) w' -> inv w' ->
  inv (set_memory (recordVerdict wl desired state (readyUnobserved w)) None w').
Proof.
  intros Hi Hu Hh Hr Hi'. apply inv_store; [done|]. intros k. rewrite (rely_memory _ _ Hr).
  unfold recordVerdict, patch in *. rewrite says_ready_state in *. fold written in Hr |- *.
  case_bool_decide as Hst; cbn [negb]; [by left|]. change (memory (write_at (key_of wl) (Some written) w)) with (memory w).
  rewrite memory_recorded by done. destruct (decide (k = key_of wl)) as [->|Hne]; [right|left; by rewrite lookup_delete_ne].
  split; [apply lookup_delete_eq|]. apply unpromised_settled. eapply unpromised_rely; [exact Hr|].
  intros x vx Hs Hp. unfold stored_at in Hs. rewrite history_write, decide_True, last_snoc in Hs by done.
  injection Hs as <- _. by apply promised_set in Hp.
Qed.

Lemma wp_verdict w :
  inv w -> unrecorded w = None -> seen (key_of wl) wl v w -> (forall w', rely 0 w w' -> grounded (stream w')) ->
  wp (applyVerdict wl v checks state message basis) (fun _ w' => unrecorded w' = None) w.
Proof.
  intros Hi Hu Hs Hg. assert (forall w', rely 0 w w' -> unrecorded w' = None) as Hst.
  { intros w' Hr. destruct (rely_own w w' Hr) as (_ & E & _). congruence. }
  unfold applyVerdict, desiredCheckStates. fold desired. destruct (existsb _ desired); cbn [negb]; [|exact Hst].
  intros w1 Hr1 Hi1 c1 r1 w1' Hc1 Hp1. unfold allowed in Hc1. cbn in Hp1. rewrite Hc1 in Hp1. specialize (Hst w1 Hr1).
  assert (forall r, unrecorded w1 = None -> wp (Ret (r : unit + unit)) (fun _ w' => unrecorded w' = None) w1) as Hret.
  { intros r E w' Hr'. destruct (rely_own w1 w' Hr') as (_ & E' & _). congruence. }
  destruct (stored_at (stream w1) (key_of wl)) as [[stored vs]|] eqn:Hst1.
  2: { injection Hp1 as <- <-. split; [done|]. by apply Hret. }
  destruct (Z.eqb_spec vs v) as [->|Hv]; cbn [negb] in Hp1; [|injection Hp1 as <- <-; split; [done|by apply Hret]].
  destruct (failing c1); [injection Hp1 as <- <-; split; [done|by apply Hret]|]. injection Hp1 as <- <-.
  destruct (seen_current (key_of wl) wl v w1 stored) as [Hh ->]; [by eapply seen_rely|done|].
  split; [split; [done|]; intros _; apply patch_inv; auto|]. cbn [bind call].
  intros w2 Hr2 Hi2 c2 r2 w2' _ [= <- <-]. split; [done|].
  intros w3 Hr3 Hi3 c3 r3 w3' _ [= <- <-]. assert (rely 0 (patch wl desired basis w1) w3) as Hr by (by trans w2).
  assert (readyUnobserved w2 = readyUnobserved w1) as ->.
  { destruct (rely_own _ _ Hr2) as (-> & _). unfold patch. by destruct (says_ready desired). }
  split; [split; [done|]; intros _; by apply record_inv|].
  intros w' Hr'. destruct (rely_own _ _ Hr') as (_ & -> & _). done.
Qed.
End Verdict.

(** *** Judging *)

(** Everything but the write of a verdict. *)
Definition judges (X : Type) (a : act X) : bool := match a with PatchStatus _ _ _ _ => false | _ => true end.

Lemma quiet_inflightDemands self pool charges : quiet judges (inflightDemands self pool charges).
Proof.
  assert (forall {A} (p : prog A), quiet reads p -> quiet judges p) as Hq.
  { intros A p. apply quiet_mono. by intros X []. }
  unfold inflightDemands. destruct (bool_decide _); [done|]. apply quiet_bind; [by apply quiet_call|].
  intros [items|]; [|done]. apply quiet_bind; [by apply quiet_call|]. intros m.
  destruct (withUnobservedReady items m) as [out m']. apply quiet_bind; [by apply quiet_call|]. intros _.
  apply quiet_bind_err; [apply Hq, quiet_inflight|]. intros inflight. apply quiet_bind_err; [apply Hq, quiet_scope|].
  by intros [pool' node].
Qed.

Lemma wp_inflight_seen self pool charges k wl v w :
  inv w -> unrecorded w = None -> seen k wl v w ->
  wp (inflightDemands self pool charges)
     (fun r w' => (inv w' /\ unrecorded w' = None /\ counted self pool charges r w') /\ seen k wl v w') w.
Proof.
  intros Hi Hu Hs. apply (wp_frame _ _ _ _ _ judges); [| |apply quiet_inflightDemands|done|by apply wp_inflight].
  - intros w1 w2. apply seen_rely.
  - intros c X a w1 x w2 Hj Hp. destruct a; try done; cbn in Hp; by injection Hp as <- <-.
Qed.

Section Judge.
Context (wl : Workload) (v : Z) (checks : list string).
Context (Hlive : live wl = true) (Hown : checks = own_checks (WlChecks wl)) (Hsome : checks <> []).

(** Where a judgment may stop or go on. *)
Definition going (w : world) : Prop := inv w /\ unrecorded w = None /\ seen (key_of wl) wl v w.

Lemma going_rely w w' : rely 0 w w' -> going w -> going w'.
Proof.
  intros Hr (Hi & Hu & Hs). destruct (rely_own w w' Hr) as (_ & E & _).
  split_and!; [by eapply rely_inv|congruence|by eapply seen_rely].
Qed.

Lemma wp_retry message w :
  going w -> wp (applyVerdict wl v checks CheckStateRetry message None) (fun _ w' => unrecorded w' = None) w.
Proof. intros (Hi & Hu & Hs). by apply wp_verdict. Qed.

(** A step that only reads comes first. *)
Lemma wp_reading {A} (p : prog (unit + A)) (k : A -> prog (unit + unit)) (R : A -> Prop) w :
  quiet reads p -> always says p (fun r => match r with inl _ => True | inr x => R x end) -> going w ->
  (forall x w', R x -> going w' -> wp (k x) (fun _ w' => unrecorded w' = None) w') ->
  wp (bind_err p k) (fun _ w' => unrecorded w' = None) w.
Proof.
  intros Hq Ha Hw Hk. apply wp_bind; [apply _|]. eapply wp_mono; [|by apply wp_reads].
  intros [e|x] w1 [HR Hr]; [|apply Hk; [done|by eapply going_rely]].
  intros w' Hr'. by apply (going_rely w w' (transitivity Hr Hr') Hw).
Qed.

Lemma judged_fair state message pool pool' charges inflight demands devices w :
  demands = demands_of wl -> listing demands pool (pool', charges) -> rescoped pool' devices ->
  counts_promises wl charges inflight (stream w) -> inv w ->
  nodeDevicesFeasibility devices inflight demands = (state, message) ->
  forall w', rely 0 w w' -> grounded wl checks state message
    (Some {| j_pool := devices; j_charges := charges; j_inflight := inflight; j_demands := demands |}) (stream w').
Proof.
  intros -> Hl Hres Hc Hi Hf w' Hr Hst. eexists. split; [done|]. constructor; cbn.
  - done.
  - by exists pool, pool'.
  - apply (counts_rely wl charges inflight w w' Hr Hi Hc).
  - by rewrite Hf.
Qed.

Lemma wp_judge w : going w -> wp (judge released wl v checks) (fun _ w' => unrecorded w' = None) w.
Proof.
  intros Hw. unfold judge. destruct (unassignedDemands (demands_of wl)) as [|d ds]; [|by apply wp_retry].
  apply (wp_reading _ _ (fun _ => True)); [apply quiet_candidateDevices| |done|].
  { eapply always_mono; [|apply always_true]. by intros []. }
  intros pool w1 _ Hw1. destruct (unresolvedDemands pool (demands_of wl)) as [|d ds]; [|by apply wp_retry].
  apply (wp_reading _ _ (listing (demands_of wl) pool)); [apply quiet_charge|apply charge_listing|done|].
  intros [pool' charges] w2 Hl (Hi2 & Hu2 & Hs2). apply wp_bind; [apply _|].
  eapply wp_mono; [|by apply (wp_inflight_seen wl pool' charges (key_of wl) wl v)].
  intros [e|[[inflight node] devices]] w3 ((Hi3 & Hu3 & Hc3) & Hs3).
  { intros w' Hr. destruct (rely_own w3 w' Hr) as (_ & -> & _). done. }
  destruct (negb (bool_decide (node = ""))); [by apply wp_retry|].
  destruct (nodeDevicesFeasibility devices inflight (demands_of wl)) as [state message] eqn:Hf.
  destruct Hc3 as [Hres Hc]. apply wp_verdict; try done. by eapply judged_fair.
Qed.
End Judge.

Lemma seen_cached w k wl v : inv w -> cached_at (stream w) k = Some (wl, v) -> key_of wl = k /\ seen k wl v w.
Proof.
  intros Hi Hc. pose proof (inv_ordered w Hi k) as Ho. unfold cached_at in Hc.
  destruct (history (stream w) k) as [|o rest] eqn:Hh; [done|]. cbn in Hc. subst o.
  destruct (ordered_keys _ _ _ Ho wl v) as [Hk Hv]; [left|]. split; [done|]. split; [by rewrite Hh|]. split; [done|].
  left. by exists rest.
Qed.

Lemma wp_Reconcile k w : inv w -> unrecorded w = None -> wp (Reconcile released k) (fun _ w' => unrecorded w' = None) w.
Proof.
  intros Hi Hu. assert (forall w1 w' : world, rely 0 w1 w' -> unrecorded w1 = None -> unrecorded w' = None) as Hst.
  { intros w1 w' Hr. by destruct (rely_own w1 w' Hr) as (_ & -> & _). }
  intros w1 Hr1 Hi1 c1 r1 w1' _ [= <- <-]. split; [done|]. apply (Hst w w1) in Hu; [|done].
  unfold found. destruct (failing c1); [intros w' Hr; by apply (Hst w1)|].
  destruct (cached_at (stream w1) k) as [[wl v]|] eqn:Hc; cbn [bind call]; [|intros w' Hr; by apply (Hst w1)].
  destruct (seen_cached w1 k wl v Hi1 Hc) as [<- Hs].
  destruct (negb (HasQuotaReservation wl) || IsEvicted wl || IsFinished wl || negb (IsActive wl)) eqn:Hg;
    [intros w' Hr; by apply (Hst w1)|].
  destruct (IsAdmitted wl); [intros w' Hr; by apply (Hst w1)|].
  intros w2 Hr2 Hi2 c2 r2 w2' _ [= <- <-]. split; [done|]. unfold answering.
  destruct (failing c2); [intros w' Hr; apply (Hst w2); [done|by apply (Hst w1)]|]. fold (own_checks (WlChecks wl)).
  destruct (own_checks (WlChecks wl)) as [|ch chs] eqn:Ho; [intros w' Hr; apply (Hst w2); [done|by apply (Hst w1)]|].
  apply wp_judge; [|by rewrite Ho|done|].
  - unfold live. destruct (HasQuotaReservation wl), (IsEvicted wl), (IsFinished wl), (IsActive wl); done.
  - apply (going_rely wl v w1); [done|]. done.
Qed.
End Safety.
