(* ===== verification/AdmitTheorems.v ===== *)
(** * Device admission: the check over time

    One goroutine judges Workloads from a cache, beside Kueue, the nodes and restarts.
    Every Ready answer it writes counts the cards promised before and leaves them
    alone, and every Workload it judges is answered. *)

From stdpp Require Import prelude gmap strings list sorting relations.
From S2P Require Import Prelude Programs Device PluginRecords PluginLedger AdmitDemand AdmitFit AdmitPlacement.
From S2P Require Import AdmitWorld AdmitReconcile AdmitSafety.

Abbreviation system := (Programs.system act world).

(** A process that starts: an empty memory, and a cache read from the API server. *)
Definition restarted (w : world) : world := {|
  stream := (fun l => [default None (last l)]) <$> stream w; clock := clock w;
  flavors := flavors w; inventory := inventory w; nodes := nodes w; bound := bound w;
  readyUnobserved := ∅; unrecorded := None; answers := answers w |}.

Section System.
Context `{Tables : NameTables} `{KueueAPI : Kueue}.
Context (owned : string -> bool) (released : bool).

(** No goroutine runs. *)
Definition resting (s : system) : Prop := threads s !! 0%nat = None \/ exists x, threads s !! 0%nat = Some (Ret x).

(** - Judgments follow one another: the controller is built with one worker.
    - What others write to Workloads, what the cache takes over and what the cluster
      becomes is [env] of AdmitSafety.v.
    - The process may stop at any point. *)
Inductive step (ok : choice -> Prop) : relation system :=
  | step_act s X (a : act X) k c x w :
      threads s !! 0%nat = Some (Do a k) -> ok c -> perform owned 0%nat c a (state s) = Some (x, w) ->
      step ok s {| threads := <[0%nat := k x]> (threads s); state := w |}
  | step_judge s k :
      resting s -> step ok s {| threads := <[0%nat := discard (Reconcile released k)]> (threads s); state := state s |}
  | step_env s w : env owned (state s) w -> step ok s {| threads := threads s; state := w |}
  | step_restart s : step ok s {| threads := ∅; state := restarted (state s) |}.

(** The controller starts on a cluster it has not judged yet. *)
Record initial (s : system) : Prop := {
  initial_threads : threads s = ∅;
  initial_cache : forall k, exists o, history (stream (state s)) k = [o] /\
    forall wl v, o = Some (wl, v) -> key_of wl = k /\ v <= clock (state s);
  initial_memory : readyUnobserved (state s) = ∅ /\ unrecorded (state s) = None;
  initial_answers : answers (state s) = [] }.

Context `{Laws : !KueueLaws}.

Abbreviation wp := (Programs.wp (@AdmitWorld.perform _ owned) allowed (rely owned) (guar owned released) (inv owned released) 0%nat).

(** The invariant holds and the goroutine, if there is one, is on the way of its
    proof. *)
Record sound (s : system) : Prop := {
  sound_inv : inv owned released (state s);
  sound_thread : forall p, threads s !! 0%nat = Some p -> wp p (fun _ w => unrecorded w = None) (state s);
  sound_resting : threads s !! 0%nat = None -> unrecorded (state s) = None }.

Lemma kept_single o : kept owned [o] None.
Proof.
  intros wl v Hl Hp. injection Hl as ->. split; [left|done]. apply list.Forall_singleton. by exists wl, v.
Qed.

Lemma ordered_single k clk o :
  (forall wl v, o = Some (wl, v) -> key_of wl = k /\ v <= clk) -> ordered k clk [o].
Proof.
  intros Ho. constructor; [done| |].
  - intros wl v Hin%list_elem_of_singleton. by apply Ho.
  - unfold versions. destruct o as [[wl v]|]; cbn; repeat constructor.
Qed.

Lemma history_restarted w k : history (stream (restarted w)) k = [stored_at (stream w) k].
Proof. unfold stored_at, history. cbn. rewrite lookup_fmap. by destruct (stream w !! k). Qed.

Lemma inv_restarted w : inv owned released w -> inv owned released (restarted w).
Proof.
  intros Hi. constructor; [intros k; rewrite history_restarted| |intros k; rewrite history_restarted|apply Hi].
  - apply ordered_single. intros wl v Hs%stored_last. apply (ordered_keys _ _ _ (inv_ordered _ _ w Hi k)).
    by apply last_Some_elem_of.
  - intros k e He. cbn in He. by rewrite lookup_empty in He.
  - apply kept_single.
Qed.

Lemma initial_sound s : initial s -> sound s.
Proof.
  intros [Ht Hc [Hm Hu] Ha]. constructor; [constructor| |done].
  - intros k. destruct (Hc k) as (o & -> & Ho). by apply ordered_single.
  - intros k e. unfold memory. by rewrite Hu, Hm, lookup_empty.
  - intros k. unfold memory. rewrite Hu, Hm, lookup_empty. destruct (Hc k) as (o & -> & _). apply kept_single.
  - by rewrite Ha.
  - intros p. by rewrite Ht, lookup_empty.
Qed.

Lemma judging_sound s s' : step allowed s s' -> sound s -> sound s'.
Proof.
  intros Hst [Hi Hp Hn]. destruct Hst as [s X a k c x w Ht Hc Ha|s k Hrest|s w He|s].
  - destruct (Hp _ Ht (state s) ltac:(done) Hi c x w Hc Ha) as [[_ Hg] Hw]. constructor; cbn; [by apply Hg| |].
    + intros p. rewrite lookup_insert_eq. by intros [= <-].
    + by rewrite lookup_insert_eq.
  - assert (unrecorded (state s) = None) as Hu.
    { destruct Hrest as [Hr|[x Hr]]; [by apply Hn|]. by apply (Hp _ Hr). }
    constructor; cbn [threads state]; [done| |by rewrite lookup_insert_eq]. intros p. rewrite lookup_insert_eq. intros [= <-].
    apply wp_bind; [apply _|]. eapply wp_mono; [|by apply wp_Reconcile].
    intros r w' Hu' w'' Hr. destruct (rely_own _ _ _ Hr) as (_ & -> & _). done.
  - assert (rely owned 0%nat (state s) w) as Hr by (intros _; by apply rtc_once).
    constructor; cbn; [by eapply env_inv|intros p Ht; eapply wp_rely; [apply _|exact Hr|auto]|].
    intros Ht. destruct (rely_own _ _ _ Hr) as (_ & -> & _). auto.
  - constructor; cbn; [by apply inv_restarted|intros p; by rewrite lookup_empty|done].
Qed.

Lemma reached_sound s s' : initial s -> rtc (step allowed) s s' -> sound s'.
Proof. intros Hi%initial_sound Hs. induction Hs as [|s1 s2 s3 H1 _ IH]; [done|]. by eapply IH, judging_sound. Qed.

Lemma sound_fair s a : sound s -> a ∈ answers (state s) -> fair owned released a.
Proof. intros Hs Ha. pose proof (inv_answers _ _ _ (sound_inv _ Hs)) as Hf. rewrite list.Forall_forall in Hf. by apply Hf. Qed.


(** ** Room *)

(** A demand still to come is one of a podset on a node whose ledger was rebuilt. *)
Lemma uncharged_elem charges wl d :
  d ∈ uncharged_demands charges wl ->
  exists n d0, d = set_origin (d_flavor d) [] n d0 /\ n ∈ lc_hostnames charges /\ sized d0.
Proof.
  unfold uncharged_demands. rewrite list_elem_of_join. intros (l & Hd & (ps & -> & _)%list_elem_of_fmap).
  apply list_elem_of_join in Hd as (l & Hd & Hl). apply list_elem_of_fmap in Hl as (n & -> & _).
  case_bool_decide as Hn; cbn [negb] in Hd; [|by apply elem_of_nil in Hd].
  destruct (_ <=? 0); [by apply elem_of_nil in Hd|]. apply list_elem_of_fmap in Hd as (d0 & -> & Hd0).
  exists (hostname n), d0. split_and!; [done|done|by eapply podset_sized].
Qed.

Lemma uncharged_sized charges wl : Forall sized (uncharged_demands charges wl).
Proof. apply list.Forall_forall. intros d (n & d0 & -> & _ & Hd0)%uncharged_elem. by apply origin_sized. Qed.

Lemma demands_sized wl : valid_counts wl -> Forall sized (demands_of wl).
Proof.
  intros Hv%parse_sized. unfold demands_of. destruct (_ <=? _)%nat; [|done]. unfold withoutRoles. apply Forall_fmap.
  eapply Forall_impl; [exact Hv|]. intros d [H1 H2 H3 H4]. by constructor.
Qed.

Lemma listing_hostnames demands pool st : listing released demands pool st -> "" ∉ lc_hostnames st.2.
Proof.
  induction 1 as [|pool st sd _ IH _|pool [pool' charges] sd pods _ IH _]; [set_solver|done|]. cbn in *.
  case_bool_decide as Hh; [done|]. cbn. set_solver.
Qed.

Lemma uncharged_placed charges wl : "" ∉ lc_hostnames charges -> Forall placed_demand (uncharged_demands charges wl).
Proof.
  intros Hc. apply list.Forall_forall. intros d (n & d0 & -> & Hn & _)%uncharged_elem. unfold placed_demand. cbn. congruence.
Qed.

Lemma fair_inflight_demands a :
  fair owned released a -> Forall sized (j_inflight (a_basis a)) /\ Forall placed_demand (j_inflight (a_basis a)).
Proof.
  intros Hf. destruct (fair_inflight _ _ _ Hf) as (others & _ & _ & Hp & _).
  destruct (fair_ledgers _ _ _ Hf) as (pool & pool' & Hl%listing_hostnames & _). rewrite Hp.
  split; apply Forall_join, Forall_fmap, list.Forall_forall; intros x _; [apply uncharged_sized|by apply uncharged_placed].
Qed.


(** ** Answers come *)

Section Alone.
(** Nothing fails. *)
Context (c : choice) (Hc : failing c = false) (Hlost : lost c = false).

Abbreviation run := (Programs.run (@AdmitWorld.perform _ owned) 0%nat c).

(** What a call answers that does not fail. *)
Definition answered (X : Type) (a : act X) : X -> Prop :=
  match a in act X return X -> Prop with
  | GetFlavor _ => fun r => r = inl NotFound \/ exists rf, r = inr rf
  | GetNode _ => fun r => r = inl NotFound \/ exists labels, r = inr labels
  | FilterForController _ => fun r => is_Some r
  | ListDevices _ => fun r => is_Some r
  | ListPods _ => fun r => is_Some r
  | ListWorkloads => fun r => is_Some r
  | _ => fun _ => True
  end.

Definition succeeds {A} (p : prog (unit + A)) : Prop := always answered p (fun r => exists x, r = inr x).

Lemma succeeds_call {X A} (a : act X) (k : X -> prog (unit + A)) :
  (forall x, answered X a x -> succeeds (k x)) -> succeeds (bind (call a) k).
Proof. intros H x Hx. cbn. by apply H. Qed.

Lemma succeeds_bind {A B} (p : prog (unit + A)) (k : A -> prog (unit + B)) :
  succeeds p -> (forall x, succeeds (k x)) -> succeeds (bind_err p k).
Proof. intros Hp Hk. apply always_bind. eapply always_mono; [|exact Hp]. intros r (x & ->). apply Hk. Qed.

Lemma succeeds_ret {A} (x : A) : succeeds (Ret (inr x)).
Proof. by exists x. Qed.

Lemma succeeds_for_each {A S} (l : list A) (s : S) (body : S -> A -> prog (unit + S)) :
  (forall s x, succeeds (body s x)) -> succeeds (for_each l s body).
Proof. intros Hb. revert s. induction l as [|x l IH]; intros s; [apply succeeds_ret|]. by apply succeeds_bind. Qed.

Lemma run_reads {A} (p : prog A) R w : quiet reads p -> always answered p R -> exists x, run p w = Some (x, w) /\ R x.
Proof.
  induction p as [x|X a k IH]; [by exists x|]. intros [Ha Hq] HR.
  assert (exists x, perform owned 0%nat c a w = Some (x, w) /\ answered X a x) as (x & Hp & Hx).
  { destruct a; try done; cbn; unfold answering, found; rewrite ?Hc; eexists; (split; [reflexivity|]); try done; cbn.
    - destruct (flavors w !! ref); eauto.
    - destruct (nodes w !! name); eauto. }
  cbn. rewrite Hp. by apply IH; [|apply HR].
Qed.

Lemma candidates_succeed wl : succeeds (candidateDevices wl).
Proof.
  unfold candidateDevices. destruct (WlAdmission wl) as [psas|]; [|apply succeeds_ret]. apply succeeds_bind.
  - apply succeeds_for_each. intros byName ref. apply succeeds_call. intros r [-> | [rf ->]]; [apply succeeds_ret|].
    destruct (bool_decide _); [apply succeeds_ret|]. apply succeeds_call. intros r [items ->]. apply succeeds_ret.
  - intros byName. apply succeeds_for_each. intros pool name. destruct (byName !! name) as [sd|]; [|apply succeeds_ret].
    apply succeeds_bind; [|intros host; apply succeeds_ret]. apply succeeds_call. intros r [-> | [labels ->]]; apply succeeds_ret.
Qed.

Lemma charge_succeeds pool demands : succeeds (chargeLedgers released pool demands).
Proof.
  apply succeeds_for_each. intros st sd. unfold charge_node. destruct (negb _); [apply succeeds_ret|].
  apply succeeds_call. intros r [pods ->]. apply succeeds_ret.
Qed.

Lemma inflight_succeeds self charges out : succeeds (for_each out [] (add_inflight self charges)).
Proof.
  apply succeeds_for_each. intros inflight wl. unfold add_inflight. destruct (bool_decide _); [apply succeeds_ret|].
  destruct (uncharged_demands charges wl); [apply succeeds_ret|]. apply succeeds_bind; [|intros holds; apply succeeds_ret].
  unfold holdsCards. destruct (negb _); [apply succeeds_ret|]. destruct (IsAdmitted wl); [apply succeeds_ret|].
  apply succeeds_call. intros r [names ->]. apply succeeds_ret.
Qed.

Lemma scope_succeeds inflight scopes pool : succeeds (scopeInflightFlavors inflight scopes pool).
Proof.
  revert scopes pool. induction inflight as [|d inflight IH]; intros scopes pool; cbn [scopeInflightFlavors]; [apply succeeds_ret|].
  destruct (bool_decide _); [apply succeeds_ret|]. apply succeeds_bind.
  - destruct (scopes !! d_flavor d); [apply succeeds_ret|]. apply succeeds_call. intros r [-> | [rf ->]]; apply succeeds_ret.
  - intros scope. destruct (bool_decide _); [apply succeeds_ret|apply IH].
Qed.

Lemma run_inflight self pool charges w :
  exists x w', run (inflightDemands self pool charges) w = Some (inr x, w') /\ stream w' = stream w.
Proof.
  unfold inflightDemands. destruct (bool_decide _); [by eexists _, w|]. cbn. unfold answering. rewrite Hc. cbn.
  destruct (withUnobservedReady _ _) as [out m]. cbn. unfold bind_err. rewrite run_bind.
  destruct (run_reads _ _ (set_memory m None w) (quiet_inflight self charges out) (inflight_succeeds self charges out)) as (r & -> & inflight & ->).
  rewrite run_bind.
  destruct (run_reads _ _ (set_memory m None w) (quiet_scope (sortDemands inflight) ∅ pool) (scope_succeeds _ _ _)) as (r & -> & [pool' node] & ->).
  by eexists _, _.
Qed.

(** Every check of this controller says [state] on the API server. *)
Definition says_state (state : CheckState) (wl : Workload) (w : world) : Prop :=
  exists wl' v, stored_at (stream w) (key_of wl) = Some (wl', v) /\ content wl' = content wl /\
    forall n, n ∈ own_checks owned (WlChecks wl) -> AcsState <$> FindAdmissionCheck (WlChecks wl') n = Some state.

Definition settles (p : prog (unit + unit)) (wl : Workload) (w : world) : Prop :=
  exists w' state, run p w = Some (inr tt, w') /\ (state = CheckStateReady \/ state = CheckStateRetry) /\ says_state state wl w'.

Lemma run_verdict wl v state message basis w :
  stored_at (stream w) (key_of wl) = Some (wl, v) -> state = CheckStateReady \/ state = CheckStateRetry ->
  settles (applyVerdict wl v (own_checks owned (WlChecks wl)) state message basis) wl w.
Proof.
  intros Hs Hst. unfold settles, applyVerdict, desiredCheckStates. set (desired := desired_check state message <$> _).
  destruct (existsb (differs wl) desired) eqn:Hd; cbn [negb].
  - set (w1 := patch wl desired basis w). exists (set_memory (recordVerdict wl desired state (readyUnobserved w1)) None w1), state.
    split; [cbn; rewrite Hs, Z.eqb_refl; cbn [negb]; by rewrite Hc, Hlost|]. split; [done|].
    assert (stream w1 = stream (write_at (key_of wl) (Some (set_checks desired wl)) w)) as Hw by (unfold w1, patch; by destruct (says_ready _)).
    exists (set_checks desired wl), (clock w + 1). split; [|split; [done|intros n Hn; by apply set_find]].
    cbn. rewrite Hw. unfold stored_at. by rewrite history_write, decide_True, last_snoc.
  - exists w, state. split; [done|]. split; [done|]. exists wl, v. split; [done|]. split; [done|]. intros n Hn.
    assert (differs wl (desired_check state message n) = false) as Hno.
    { destruct (differs wl _) eqn:E; [|done]. rewrite <- Hd. symmetry. apply existsb_exists. exists (desired_check state message n).
      split; [|done]. apply list_elem_of_In. by apply list_elem_of_fmap_2. }
    unfold differs in Hno. cbn in Hno. destruct (FindAdmissionCheck (WlChecks wl) n) as [cur|]; [|done]. cbn.
    apply orb_false_iff in Hno as [Hno _]. apply orb_false_iff in Hno as [Hno _]. f_equal.
    by destruct (bool_decide_reflect (AcsState cur = state)).
Qed.

Lemma settles_err {A} (p : prog (unit + A)) k wl w x w' :
  run p w = Some (inr x, w') -> settles (k x) wl w' -> settles (bind_err p k) wl w.
Proof. intros Hp (w2 & st & Hk & H). exists w2, st. split; [|done]. by rewrite (run_bind_err _ _ _ _ _ _ _ _ Hp). Qed.

Lemma run_judge wl v w :
  stored_at (stream w) (key_of wl) = Some (wl, v) -> settles (judge released wl v (own_checks owned (WlChecks wl))) wl w.
Proof.
  intros Hs. unfold judge. destruct (unassignedDemands _); [|apply run_verdict; auto].
  destruct (run_reads _ _ w (quiet_candidateDevices wl) (candidates_succeed wl)) as (r & Hr & pool & ->).
  eapply settles_err; [exact Hr|]. destruct (unresolvedDemands _ _); [|apply run_verdict; auto].
  destruct (run_reads _ _ w (quiet_charge released pool (demands_of wl)) (charge_succeeds pool (demands_of wl))) as (r & Hr' & [pool' charges] & ->).
  eapply settles_err; [exact Hr'|]. destruct (run_inflight wl pool' charges w) as ([[inflight node] devices] & w1 & Hr1 & Hw1).
  eapply settles_err; [exact Hr1|]. rewrite <- Hw1 in Hs. cbn beta iota. destruct (negb (bool_decide (node = ""))); [apply run_verdict; auto|].
  destruct (nodeDevicesFeasibility devices inflight (demands_of wl)) as [state message] eqn:Hf. apply run_verdict; [done|].
  pose proof (feasibility_never_rejects devices inflight (demands_of wl)) as Hn. by rewrite Hf in Hn.
Qed.
End Alone.

(** C13: every Workload is answered.  A judgment that is left alone, whose calls do not
    fail and whose cache is up to date, ends without an error and with every check of
    this controller saying Ready or Retry on the API server, whatever the Workload
    asks for, whichever flavors and nodes are gone and whatever Pods are bound. *)
Theorem every_workload_is_answered c k wl v w :
  failing c = false -> lost c = false ->
  cached_at (stream w) k = Some (wl, v) -> stored_at (stream w) k = Some (wl, v) -> key_of wl = k ->
  live wl = true -> IsAdmitted wl = false -> own_checks owned (WlChecks wl) <> [] ->
  exists w' state, run (@AdmitWorld.perform _ owned) 0%nat c (Reconcile released k) w = Some (inr tt, w') /\
    (state = CheckStateReady \/ state = CheckStateRetry) /\ says_state state wl w'.
Proof.
  intros Hc Hlost Hca Hs <- Hl Ha Ho. cbn. unfold found. rewrite Hc, Hca.
  assert (negb (HasQuotaReservation wl) || IsEvicted wl || IsFinished wl || negb (IsActive wl) = false) as ->.
  { unfold live in Hl. destruct (HasQuotaReservation wl), (IsEvicted wl), (IsFinished wl), (IsActive wl); done. }
  rewrite Ha. cbn. fold (own_checks owned (WlChecks wl)). pose proof (run_judge c Hc Hlost wl v w Hs) as Hj.
  unfold answering. rewrite Hc. by destruct (own_checks owned (WlChecks wl)).
Qed.
End System.

(** ** Executable schedules *)

(** Whole judgments with the same fortune for each call, and what the cache takes
    over in between. *)
Inductive event := Judge (c : choice) (k : key) | Deliver (k : key).

Section Play.
Context `{Tables : NameTables} `{KueueAPI : Kueue}.
Context (owned : string -> bool) (released : bool) (ok : choice -> Prop).

Definition play_one (e : event) (w : world) : option world :=
  match e with
  | Judge c k => snd <$> run (@AdmitWorld.perform _ owned) 0%nat c (discard (Reconcile released k)) w
  | Deliver k =>
      match stream w !! k with
      | Some (_ :: o :: rest) => Some (set_stream (<[k := o :: rest]> (stream w)) (clock w) w)
      | _ => None
      end
  end.

Definition play (es : list event) (w : world) : option world := foldl (fun w e => w ≫= play_one e) (Some w) es.

Definition permitted (e : event) : Prop := match e with Judge c _ => ok c | Deliver _ => True end.

Lemma event_steps e w w' ts :
  permitted e -> resting {| threads := ts; state := w |} -> play_one e w = Some w' ->
  exists ts', rtc (step owned released ok) {| threads := ts; state := w |} {| threads := ts'; state := w' |} /\
    resting {| threads := ts'; state := w' |}.
Proof.
  intros Hok Hr. destruct e as [c k|k]; cbn [play_one].
  - intros ([x w1] & Hrun & ->)%fmap_Some. exists (<[0%nat := Ret x]> ts). split.
    + eapply rtc_l; [by apply step_judge|]. eapply (run_steps (@AdmitWorld.perform _ owned) ok); [|exact Hok|exact Hrun].
      intros *. apply step_act.
    + right. exists x. apply lookup_insert_eq.
  - destruct (stream w !! k) as [[|o0 [|o rest]]|] eqn:Hs; try done. intros [= <-]. exists ts. split; [|done].
    apply rtc_once. by apply (step_env _ _ _ {| threads := ts; state := w |}), (env_deliver _ _ _ o0).
Qed.

Lemma events_reach es w (f : world -> bool) :
  Forall permitted es -> match play es w with Some w' => f w' | None => false end = true ->
  exists s', rtc (step owned released ok) {| threads := ∅; state := w |} s' /\ f (state s') = true.
Proof.
  intros Hes. unfold play. assert (resting {| threads := ∅; state := w |}) as Hr by (left; apply lookup_empty).
  revert Hr. generalize (∅ : gmap nat (prog unit)). revert w. induction Hes as [|e es He _ IH]; intros w ts Hr Hf; cbn in Hf.
  { by exists {| threads := ts; state := w |}. }
  destruct (play_one e w) as [w1|] eqn:H1.
  - destruct (event_steps e w w1 ts He Hr H1) as (ts1 & Hs1 & Hr1). destruct (IH w1 ts1 Hr1 Hf) as (s' & Hs' & Hf').
    exists s'. split; [by etrans|done].
  - exfalso. clear - Hf. induction es as [|e es IH]; [done|by apply IH].
Qed.
End Play.

(** The helpers of [demo_kueue] keep the laws. *)
#[export] Instance demo_laws : @KueueLaws demo_kueue.
Proof.
  constructor; cbn.
  - intros cs n acs Hf. apply head_Some_elem_of, list_elem_of_omap in Hf as (c & Hc & Hb). case_bool_decide; [|done]. by simplify_eq.
  - intros cs st. unfold first_of. case_bool_decide as Hin.
    + induction cs as [|c cs IH]; [by apply elem_of_nil in Hin|]. cbn.
      destruct (bool_decide_reflect (AcsName c = AcsName st)) as [E|E]; cbn; [by rewrite bool_decide_eq_true_2|].
      rewrite bool_decide_eq_false_2 by done. cbn in Hin. apply elem_of_cons in Hin as [Hin|Hin]; [done|by apply IH].
    + induction cs as [|c cs IH]; cbn; [by rewrite bool_decide_eq_true_2|]. cbn in Hin. apply not_elem_of_cons in Hin as [Hne Hin].
      rewrite bool_decide_eq_false_2 by done. by apply IH.
  - intros cs st n Hn. unfold first_of. case_bool_decide as Hin; clear Hin.
    + induction cs as [|c cs IH]; [done|]. cbn.
      destruct (bool_decide_reflect (AcsName c = AcsName st)) as [E|E]; cbn; [|case_bool_decide; [done|apply IH]].
      rewrite !bool_decide_eq_false_2 by congruence. apply IH.
    + rewrite omap_app. cbn. by rewrite bool_decide_eq_false_2, app_nil_r.
  - intros cs st n. case_bool_decide as Hin; [|rewrite fmap_app, elem_of_app; cbn; by rewrite list_elem_of_singleton].
    rewrite <- list_fmap_compose. assert ((AcsName ∘ (fun c => if bool_decide (AcsName c = AcsName st) then st else c)) <$> cs = AcsName <$> cs) as ->.
    { apply list_fmap_ext. intros i c _. cbn. case_bool_decide; done. }
    split; [by left|]. intros [H| ->]; done.
Qed.

Module AdmitExample.
Import DemandExample FitExample.
#[local] Existing Instance tables.
#[local] Existing Instance demo_kueue.

Definition owned (name : string) : bool := bool_decide (name = "devices").

(** A Workload of one Pod that Kueue placed on the node "n1", with one whole card. *)
Definition job (name : string) (state : CheckState) : Workload := {|
  WlNamespace := "default"; WlName := name; WlUID := name;
  WlPodSets := [podset "main" 1 [container "main" {["nvidia.com/gpu" := 1]}]];
  WlAdmission := Some [{| PsaName := "main"; PsaFlavors := {["credits.gpustack.ai/nvidia" := "a100"]};
                          PsaTopology := Some {| TaLevels := ["kubernetes.io/hostname"]; TaDomains := [(["n1"], 1)] |} |}];
  WlChecks := [{| AcsName := "devices"; AcsState := state; AcsMessage := OtherText ""; AcsRequeueAfterSeconds := None |}];
  HasQuotaReservation := true; IsEvicted := false; IsFinished := false; IsActive := true;
  IsAdmitted := bool_decide (state = CheckStateReady) |}.

Definition label : string := "acceleratable.feature.gpustack.ai/nvidia-a100".

(** A node with the accelerators [ids] and the Pods [pods], and two Workloads. *)
Definition cluster (ids : list string) (first : CheckState) (pods : list BoundPod) : world := {|
  stream := {[("default", "a") := [Some (job "a" first, 1)]; ("default", "b") := [Some (job "b" CheckStatePending, 2)]]};
  clock := 2;
  flavors := {["a100" := {| RfNodeLabels := {[label := "true"]} |}]};
  inventory := {["n1" := {| DoName := "n1"; DoLabels := {[label := "true"]};
                            DoDevices := sd_devices (node "n1" ResourceMaxUnits ids) |}]};
  nodes := {["n1" := {["kubernetes.io/hostname" := "n1"]}]};
  bound := {["n1" := pods]}; readyUnobserved := ∅; unrecorded := None; answers := [] |}.

Definition start (w : world) : system := {| threads := ∅; state := w |}.

Lemma cluster_initial ids first pods : initial (start (cluster ids first pods)).
Proof.
  constructor; try done. intros k. unfold start, cluster, history. cbn [state stream clock].
  destruct (decide (k = ("default", "a"))) as [->|Ha].
  { rewrite lookup_insert_eq. eexists. split; [done|]. intros wl v [= <- <-]. split; [done|lia]. }
  rewrite lookup_insert_ne by done. destruct (decide (k = ("default", "b"))) as [->|Hb].
  { rewrite lookup_singleton_eq. eexists. split; [done|]. intros wl v [= <- <-]. split; [done|lia]. }
  rewrite lookup_singleton_ne by done. by exists None.
Qed.

Definition fine : choice := {| failing := false; lost := false |}.
Definition answer_lost : choice := {| failing := false; lost := true |}.

(** Two cards: the second Workload is judged while the cache still shows the first
    as not answered. *)
Definition two_cards : world := cluster ["g0"; "g1"] CheckStatePending [].
Definition both : list event := [Judge fine ("default", "a"); Judge fine ("default", "b")].

Definition second_answer (w : world) : option answer := answers w !! 1%nat.

(** The last answer is for the second Workload and counts a card of the first. *)
Definition counts_first (a : answer) : bool :=
  bool_decide (key_of (a_workload a) = ("default", "b")) &&
  bool_decide ((fun d => (d_node d, d_cards d)) <$> j_inflight (a_basis a) = [("n1", 1)]).

Lemma both_reached (f : answer -> bool) :
  match play owned true both two_cards ≫= second_answer with Some a => f a | None => false end = true ->
  exists s' a, rtc (step owned true allowed) (start two_cards) s' /\ a ∈ answers (state s') /\ f a = true.
Proof.
  intros Hf. destruct (events_reach owned true allowed both two_cards
    (fun w => match second_answer w with Some a => f a | None => false end)) as (s' & Hs' & Ha).
  - repeat constructor.
  - by destruct (play owned true both two_cards).
  - destruct (second_answer (state s')) as [a|] eqn:Hsec; [|done]. exists s', a. split_and!; [done| |done].
    by eapply list_elem_of_lookup_2.
Qed.


#[local] Instance valid_counts_dec wl : Decision (valid_counts wl).
Proof. unfold valid_counts. apply _. Defined.


Lemma every_workload_is_answered_witness :
  exists w' state,
    run (@AdmitWorld.perform _ owned) 0%nat fine (Reconcile true ("default", "b")) two_cards = Some (inr tt, w') /\
    (state = CheckStateReady \/ state = CheckStateRetry) /\ says_state owned state (job "b" CheckStatePending) w'.
Proof.
  apply (every_workload_is_answered owned true fine ("default", "b") (job "b" CheckStatePending) 2); done.
Defined.

(** ** What the check misses *)

(** The Workload is promised its one whole card of "n1". *)
Definition promised_card (name : string) (w : world) : bool :=
  match stored_at (stream w) ("default", name) with
  | Some (wl, _) =>
      live wl && answered_ready (WlChecks wl) (own_checks owned (WlChecks wl)) &&
      bool_decide ((fun d => (d_family d, d_node d, d_cards d)) <$> demands_of wl = [(ResourceFamilyExclusive, "n1", 1)])
  | None => false
  end.

(** C37: a lost answer is forgotten.  When the API server applies a Ready and the answer
    to the write does not arrive, the controller does not record the Ready; the next
    Workload, judged before the cache shows it, is answered Ready for the same single
    card.  With an answer that arrives the second Workload is not. *)
Theorem lost_answer_promises_card_twice :
  let one_card := cluster ["g0"] CheckStatePending [] in
  (exists s', rtc (step owned true (fun _ => True)) (start one_card) s' /\
     promised_card "a" (state s') = true /\ promised_card "b" (state s') = true) /\
  match play owned true both one_card with Some w => promised_card "a" w && negb (promised_card "b" w) | None => false end = true.
Proof.
  split; [|by vm_compute].
  destruct (events_reach owned true (fun _ => True) [Judge answer_lost ("default", "a"); Judge fine ("default", "b")]
    (cluster ["g0"] CheckStatePending []) (fun w => promised_card "a" w && promised_card "b" w)) as (s' & Hs & Hf).
  - repeat constructor.
  - by vm_compute.
  - exists s'. split; [done|]. by apply andb_true_iff.
Qed.

(** A Pod of the first Workload on "n1". *)
Definition pod (uid : string) (phase : PodPhase) (a : Annotation) : BoundPod := {|
  BpPod := {| PodNamespace := "default"; PodName := uid; PodUID := uid; CreationTimestamp := 0; Phase := phase;
              AllocationAnnotation := a; InitContainers := []; Containers := [container "main" {["nvidia.com/gpu" := 1]}] |};
  BpWorkload := "a"; BpPodSet := "main" |}.

Definition failed : BoundPod :=
  pod "p0" PodFailed (Recorded {["main" := {| CaDevices := demo_group [demo_row "g0" ModeExclusive ResourceMaxUnits]; CaDeviceIDs := [] |}]}).
Definition replacement : BoundPod := pod "p1" PodPending Unannotated.

End AdmitExample.
