(* ===== verification/ElasticRecord.v ===== *)
(** * The durable record of an elastic resize
    (pkg/worker/controllers/worker/model_deployment_elastic_operation.go)

    A resize of an expert-parallel deployment is a record kept in a ConfigMap
    and a pure decision over it.  This file holds the record, its validation,
    the envelope an update may not move, and the store that reads and writes
    it through the API server.

    The API server's client and the JSON codec are not code of this
    repository: they are parameters, with their documented behaviour stated as
    named laws ([ConfigMapApiLaws], [codec_roundtrip]). *)

From stdpp Require Import prelude gmap strings list pretty.
From S2P Require Import Prelude.

(** ** Data *)

Inductive elasticOperationState :=
  | StateNone            (* the empty string *)
  | Recorded
  | CommandSentState
  | AwaitingWidth
  | NativeDone
  | Withdrawn
  | Released
  | Completed
  | Abandoned
  | StateOther (s : string).  (* any other stored text *)

#[export] Instance elasticOperationState_eq_dec : EqDecision elasticOperationState.
Proof. solve_decision. Defined.

Record elasticWidth := Width { Old : Z; Target : Z }.
#[export] Instance elasticWidth_eq_dec : EqDecision elasticWidth.
Proof. solve_decision. Defined.

Definition Upward (w : elasticWidth) : bool := Old w <? Target w.

Record elasticCapturedIdentity := Identity { IdName : string; IdUID : string }.
#[export] Instance elasticCapturedIdentity_eq_dec : EqDecision elasticCapturedIdentity.
Proof. solve_decision. Defined.

Record releaseCard := {
  GroupID : string; Manufacturer : string; DeviceID : string; CardIndex : Z }.
#[export] Instance releaseCard_eq_dec : EqDecision releaseCard.
Proof. solve_decision. Defined.

Record releaseMember := {
  PodUID : string; MemberNamespace : string; MemberName : string; NodeName : string;
  AcceleratorClaim : string; MemberCards : list releaseCard; Claim : string }.
#[export] Instance releaseMember_eq_dec : EqDecision releaseMember.
Proof. solve_decision. Defined.

Record releaseNode := {
  RNodeName : string; DevicesName : string; DevicesUID : string;
  NodeCards : list releaseCard; Inventory : string }.
#[export] Instance releaseNode_eq_dec : EqDecision releaseNode.
Proof. solve_decision. Defined.

Record retirementRelease := {
  ModelDeploymentUID : string; ObservedGeneration : Z; RoleName : string;
  ReplicaOrdinal : Z; TargetMemberUIDs : list string; TargetWorkloadUID : string;
  StartedAt : string; LastConsumedRetryToken : string;
  ReleaseMembers : list releaseMember; WorkloadUIDs : list string;
  ReleaseNodes : list releaseNode }.
#[export] Instance retirementRelease_eq_dec : EqDecision retirementRelease.
Proof. solve_decision. Defined.

Record elasticOperation := Operation {
  Name : string;
  DeploymentUID : string;
  Namespace : string;
  Generation : Z;
  OpWidth : elasticWidth;
  Workers : list elasticCapturedIdentity;
  Master : elasticCapturedIdentity;
  Head : elasticCapturedIdentity;
  Members : list elasticCapturedIdentity;
  Release : option retirementRelease;
  State : elasticOperationState;
  CommandIntent : string;
  CommandSent : bool;
  ScaleAttempts : Z;
  ScaleLastError : string;
  ScaleLastFailedAt : option Z;
  ScaleAmbiguousAttempts : Z;
  ResourceVersion : string
}.
#[export] Instance elasticOperation_eq_dec : EqDecision elasticOperation.
Proof. solve_decision. Defined.

(** Field assignments of the record. *)
Definition set_state (op : elasticOperation) (s : elasticOperationState) : elasticOperation :=
  {| Name := Name op; DeploymentUID := DeploymentUID op; Namespace := Namespace op;
     Generation := Generation op; OpWidth := OpWidth op; Workers := Workers op;
     Master := Master op; Head := Head op; Members := Members op; Release := Release op;
     State := s; CommandIntent := CommandIntent op; CommandSent := CommandSent op;
     ScaleAttempts := ScaleAttempts op; ScaleLastError := ScaleLastError op;
     ScaleLastFailedAt := ScaleLastFailedAt op;
     ScaleAmbiguousAttempts := ScaleAmbiguousAttempts op;
     ResourceVersion := ResourceVersion op |}.

Definition set_command (op : elasticOperation) (sent : bool) (intent : string) : elasticOperation :=
  {| Name := Name op; DeploymentUID := DeploymentUID op; Namespace := Namespace op;
     Generation := Generation op; OpWidth := OpWidth op; Workers := Workers op;
     Master := Master op; Head := Head op; Members := Members op; Release := Release op;
     State := State op; CommandIntent := intent; CommandSent := sent;
     ScaleAttempts := ScaleAttempts op; ScaleLastError := ScaleLastError op;
     ScaleLastFailedAt := ScaleLastFailedAt op;
     ScaleAmbiguousAttempts := ScaleAmbiguousAttempts op;
     ResourceVersion := ResourceVersion op |}.

Definition set_scale (op : elasticOperation) (attempts : Z) (lastError : string)
    (failedAt : option Z) (ambiguous : Z) : elasticOperation :=
  {| Name := Name op; DeploymentUID := DeploymentUID op; Namespace := Namespace op;
     Generation := Generation op; OpWidth := OpWidth op; Workers := Workers op;
     Master := Master op; Head := Head op; Members := Members op; Release := Release op;
     State := State op; CommandIntent := CommandIntent op; CommandSent := CommandSent op;
     ScaleAttempts := attempts; ScaleLastError := lastError;
     ScaleLastFailedAt := failedAt; ScaleAmbiguousAttempts := ambiguous;
     ResourceVersion := ResourceVersion op |}.

Definition set_version (op : elasticOperation) (rv : string) : elasticOperation :=
  {| Name := Name op; DeploymentUID := DeploymentUID op; Namespace := Namespace op;
     Generation := Generation op; OpWidth := OpWidth op; Workers := Workers op;
     Master := Master op; Head := Head op; Members := Members op; Release := Release op;
     State := State op; CommandIntent := CommandIntent op; CommandSent := CommandSent op;
     ScaleAttempts := ScaleAttempts op; ScaleLastError := ScaleLastError op;
     ScaleLastFailedAt := ScaleLastFailedAt op;
     ScaleAmbiguousAttempts := ScaleAmbiguousAttempts op;
     ResourceVersion := rv |}.

Definition set_place (op : elasticOperation) (ns rv name : string) : elasticOperation :=
  {| Name := name; DeploymentUID := DeploymentUID op; Namespace := ns;
     Generation := Generation op; OpWidth := OpWidth op; Workers := Workers op;
     Master := Master op; Head := Head op; Members := Members op; Release := Release op;
     State := State op; CommandIntent := CommandIntent op; CommandSent := CommandSent op;
     ScaleAttempts := ScaleAttempts op; ScaleLastError := ScaleLastError op;
     ScaleLastFailedAt := ScaleLastFailedAt op;
     ScaleAmbiguousAttempts := ScaleAmbiguousAttempts op;
     ResourceVersion := rv |}.

(** ** The state says whether a command left *)

Definition sent_state (s : elasticOperationState) : bool :=
  match s with
  | CommandSentState | AwaitingWidth | NativeDone | Withdrawn | Released | Completed
  | Abandoned => true
  | StateNone | Recorded | StateOther _ => false
  end.

Definition SentState (op : elasticOperation) : bool := sent_state (State op).

(** ** Errors *)

(** [errElasticOperation] wrapped around a message, as [fmt.Errorf] prints it. *)
Definition errElasticOperation : string := "elastic resize operation is not usable".
Definition record_error (msg : string) : string := errElasticOperation +:+ ": " +:+ msg.

Inductive store_error :=
  | ErrRecord (msg : string)                       (* wraps errElasticOperation *)
  | ErrNotFound
  | ErrConflict (name : string) (from to : string)
  | ErrAlreadyExists
  | ErrOther (msg : string).

(** ** Envelope *)

Definition str_neq (a b : string) : bool := bool_decide (a <> b).
Definition str_empty (a : string) : bool := bool_decide (a = "").
#[global] Arguments str_neq : simpl never.
#[global] Arguments str_empty : simpl never.

(** The first worker that differs between two captured lists of one length. *)
Fixpoint workers_drift (ws vs : list elasticCapturedIdentity) : bool :=
  match ws, vs with
  | w :: ws, v :: vs => if bool_decide (w <> v) then true else workers_drift ws vs
  | _, _ => false
  end.

Definition envelopeDrift (eo next : elasticOperation) : string :=
  if bool_decide (Head eo <> Head next) || bool_decide (Members eo <> Members next)
     || bool_decide (Release eo <> Release next)
  then "the captured runtime and allocation identities cannot change"
  else if str_neq (DeploymentUID eo) (DeploymentUID next)
  then "the record cannot be moved to another deployment"
  else if negb (Generation eo =? Generation next)
  then "the record cannot be rebound to another spec generation"
  else if bool_decide (OpWidth eo <> OpWidth next)
  then "the record cannot be retargeted to another width"
  else if negb (Nat.eqb (length (Workers eo)) (length (Workers next)))
  then "the record cannot capture a different number of workers"
  else if workers_drift (Workers eo) (Workers next)
  then "the record cannot capture a different worker identity"
  else if bool_decide (Master eo <> Master next)
  then "the record cannot capture a different master identity"
  else if negb (str_empty (CommandIntent eo)) && str_neq (CommandIntent next) (CommandIntent eo)
  then "the record cannot change the command it already recorded"
  else if CommandSent eo && negb (CommandSent next)
  then "the record cannot forget that a command was sent"
  else "".

(** ** Validation

    [None] is acceptance; a refusal is the message [errElasticOperation] is
    wrapped with. *)

(** The loop over the captured workers: the first refusal, with its index. *)
Fixpoint validate_workers (master : string) (i : Z) (ws : list elasticCapturedIdentity)
    : option string :=
  match ws with
  | [] => None
  | w :: ws =>
      if str_empty (IdUID w)
      then Some ("captured worker " +:+ pretty i +:+ " has no identity")
      else if str_empty (IdName w)
      then Some ("captured worker " +:+ pretty i +:+ " has no name")
      else if bool_decide (IdUID w = master)
      then Some "the master is also captured as retirable"
      else validate_workers master (i + 1) ws
  end.

Definition validate (eo : elasticOperation) : option string :=
  if str_empty (DeploymentUID eo) then Some "it names no deployment"
  else if Generation eo <=? 0 then Some "it is bound to no spec generation"
  else if (Old (OpWidth eo) <=? 0) || (Target (OpWidth eo) <=? 0)
  then Some ("widths " +:+ pretty (Old (OpWidth eo)) +:+ " to "
               +:+ pretty (Target (OpWidth eo)) +:+ " are not a resize")
  else if Old (OpWidth eo) =? Target (OpWidth eo)
  then Some "the target width equals the old one"
  else if bool_decide (State eo = StateNone) then Some "it carries no state"
  else if CommandSent eo && negb (SentState eo)
  then Some "it says a command was sent in a state that has not"
  else if negb (CommandSent eo) && SentState eo
  then Some "it says no command was sent in a state that has"
  else if str_empty (IdUID (Master eo)) || str_empty (IdName (Master eo))
  then Some "it captured no master identity"
  else if str_empty (Name eo) then Some "it names no deployment"
  else if str_empty (Namespace eo)
  then Some "it names no namespace to store the record in"
  else validate_workers (IdUID (Master eo)) 0 (Workers eo).

(** The captured set an operation may ever remove. *)
Definition retractableWorkers (eo : elasticOperation) : list elasticCapturedIdentity :=
  List.filter (fun w => str_neq (IdUID w) (IdUID (Master eo))) (Workers eo).

Definition elasticOperationRecordName (deploymentUID : string) : string :=
  "elastic-resize-" +:+ deploymentUID.

(** ** Stored objects *)

Record OwnerReference := {
  APIVersion : string; Kind : string; OwnerName : string; OwnerUID : string;
  Controller : option bool }.

Record ConfigMap := {
  CmNamespace : string;
  CmName : string;
  CmUID : string;
  CmResourceVersion : string;
  CmLabels : gmap string string;
  CmOwnerReferences : list OwnerReference;
  CmCreationTimestamp : option Z;
  CmData : gmap string string }.

Definition elasticOperationLabel : string := "gpustack.ai/elastic-operation".
Definition elasticOperationDataKey : string := "operation.json".
Definition groupVersion : string := "worker.gpustack.ai/v1alpha1".
Definition elasticControllerRef : option bool := Some true.

(** [strings.TrimSpace(body) == ""]: only Unicode white space, on the UTF-8
    bytes of the text. *)
Fixpoint blank_bytes (l : list nat) : bool :=
  match l with
  | [] => true
  | c :: l1 =>
      if bool_decide (c ∈ [9; 10; 11; 12; 13; 32]%nat) then blank_bytes l1
      else
        match l1 with
        | [] => false
        | d :: l2 =>
            if Nat.eqb c 194 && bool_decide (d ∈ [133; 160]%nat) then blank_bytes l2
            else
              match l2 with
              | [] => false
              | e :: l3 =>
                  if (Nat.eqb c 225 && Nat.eqb d 154 && Nat.eqb e 128)
                     || (Nat.eqb c 226 && Nat.eqb d 128
                         && ((Nat.leb 128 e && Nat.leb e 138)
                             || bool_decide (e ∈ [168; 169; 175]%nat)))
                     || (Nat.eqb c 226 && Nat.eqb d 129 && Nat.eqb e 159)
                     || (Nat.eqb c 227 && Nat.eqb d 128 && Nat.eqb e 128)
                  then blank_bytes l3 else false
              end
        end
  end.

Definition blank (s : string) : bool :=
  blank_bytes (Ascii.nat_of_ascii <$> String.list_ascii_of_string s).

(** What decoding a document yields: an error, a value followed by more JSON,
    or exactly one value. *)
Inductive decoded := DecodeError (msg : string) | DecodeTrailing | DecodeOne (op : elasticOperation).

(** The API server's ConfigMaps as the client sees them; a failed write may
    still leave the world changed. *)
Class ConfigMapApi (W : Type) := {
  api_get : W -> string -> string -> store_error + ConfigMap;
  api_create : W -> ConfigMap -> W * (store_error + ConfigMap);
  api_update : W -> ConfigMap -> W * (store_error + ConfigMap);
  api_delete : W -> ConfigMap -> string -> string -> W * option store_error
}.

(** The codec and owner lookup the store calls. *)
Class RecordCodec := {
  json_marshal : elasticOperation -> option string;
  json_decode : string -> decoded;
  getControllerOf : list OwnerReference -> option OwnerReference
}.

(** ** The store *)

Section store.
Context {W : Type} `{ConfigMapApi W} `{RecordCodec}.
(** [s.client == nil] and [s.now]. *)
Context (has_client : bool) (now : option Z).

Definition elasticOperationFromData (body : string) : store_error + elasticOperation :=
  if blank body then inl (ErrRecord "the stored record is empty")
  else
    match json_decode body with
    | DecodeError msg => inl (ErrRecord msg)
    | DecodeTrailing => inl (ErrRecord "the stored record carries a trailing JSON value")
    | DecodeOne op => inr op
    end.

Definition elasticControllingOwnerIs (stored : ConfigMap) (name deploymentUID : string)
    : option store_error :=
  if str_empty name || str_empty deploymentUID
  then Some (ErrRecord "no expected deployment identity was given to match the stored owner")
  else
    match getControllerOf (CmOwnerReferences stored) with
    | None => Some (ErrRecord "the stored record has no controlling owner")
    | Some owner =>
        if str_neq (Kind owner) "ModelDeployment"
        then Some (ErrRecord ("the stored record is owned by a " +:+ Kind owner
                     +:+ " rather than a ModelDeployment"))
        else if str_neq (APIVersion owner) groupVersion
        then Some (ErrRecord ("the stored record's owner is " +:+ APIVersion owner
                     +:+ " rather than " +:+ groupVersion))
        else if str_neq (OwnerName owner) name
        then Some (ErrRecord ("the stored record is owned by " +:+ OwnerName owner
                     +:+ " rather than the expected " +:+ name))
        else if str_neq (OwnerUID owner) deploymentUID
        then Some (ErrRecord ("the stored record is owned by " +:+ OwnerUID owner
                     +:+ " rather than " +:+ deploymentUID))
        else None
    end.

Definition Create (w : W) (op : elasticOperation) : W * (store_error + elasticOperation) :=
  match validate op with
  | Some e => (w, inl (ErrRecord e))
  | None =>
      if negb has_client then (w, inl (ErrRecord "no client is configured"))
      else
        match json_marshal op with
        | None => (w, inl (ErrOther "encode the elastic resize record"))
        | Some document =>
            let stored :=
              {| CmNamespace := Namespace op;
                 CmName := elasticOperationRecordName (DeploymentUID op);
                 CmUID := ""; CmResourceVersion := "";
                 CmLabels := {[ elasticOperationLabel := "true" ]};
                 CmOwnerReferences :=
                   [ {| APIVersion := groupVersion; Kind := "ModelDeployment";
                        OwnerName := Name op; OwnerUID := DeploymentUID op;
                        Controller := elasticControllerRef |} ];
                 CmCreationTimestamp := now;
                 CmData := {[ elasticOperationDataKey := document ]} |} in
            match api_create w stored with
            | (w', inl e) => (w', inl e)
            | (w', inr stored') => (w', inr (set_version op (CmResourceVersion stored')))
            end
        end
  end.

Definition Read (w : W) (namespace name deploymentUID : string) : store_error + elasticOperation :=
  if negb has_client then inl (ErrRecord "no client is configured")
  else
    match api_get w namespace (elasticOperationRecordName deploymentUID) with
    | inl e => inl e
    | inr stored =>
        match elasticControllingOwnerIs stored name deploymentUID with
        | Some e => inl e
        | None =>
            match getControllerOf (CmOwnerReferences stored) with
            | None => inl (ErrOther "nil owner")
            | Some owner =>
                match CmData stored !! elasticOperationDataKey with
                | None => inl (ErrRecord "the stored record is empty")
                | Some body =>
                    match elasticOperationFromData body with
                    | inl e => inl e
                    | inr op =>
                        if negb (str_empty (DeploymentUID op))
                           && str_neq (DeploymentUID op) (OwnerUID owner)
                        then inl (ErrRecord ("the record inside names deployment "
                               +:+ DeploymentUID op +:+ " while its owner is " +:+ OwnerUID owner))
                        else if negb (str_empty (Name op)) && str_neq (Name op) (OwnerName owner)
                        then inl (ErrRecord ("the record inside names " +:+ Name op
                               +:+ " while its owner is " +:+ OwnerName owner))
                        else
                          let op := set_place op (CmNamespace stored)
                                      (CmResourceVersion stored) (OwnerName owner) in
                          match validate op with
                          | Some e => inl (ErrRecord e)
                          | None =>
                              if str_neq (DeploymentUID op) deploymentUID
                              then inl (ErrRecord ("the record inside is bound to "
                                     +:+ DeploymentUID op +:+ " rather than " +:+ deploymentUID))
                              else inr op
                          end
                    end
                end
            end
        end
    end.

(** The object an update writes back: the stored one with the record's
    document as its only datum. *)
Definition with_document (stored : ConfigMap) (document : string) : ConfigMap :=
  {| CmNamespace := CmNamespace stored; CmName := CmName stored; CmUID := CmUID stored;
     CmResourceVersion := CmResourceVersion stored; CmLabels := CmLabels stored;
     CmOwnerReferences := CmOwnerReferences stored;
     CmCreationTimestamp := CmCreationTimestamp stored;
     CmData := {[ elasticOperationDataKey := document ]} |}.

(** [Update] and [RecoverInterrupted] share everything from the fresh read to
    the write; they differ in the record whose version and envelope are
    checked and the record that is written. *)
Definition replace_record (w : W) (current next : elasticOperation)
    : W * (store_error + elasticOperation) :=
  match api_get w (Namespace current) (elasticOperationRecordName (DeploymentUID current)) with
  | inl e => (w, inl e)
  | inr stored =>
      if str_empty (ResourceVersion current)
      then (w, inl (ErrRecord "the record was not read, so it carries no version to write against"))
      else if str_neq (CmResourceVersion stored) (ResourceVersion current)
      then (w, inl (ErrConflict (elasticOperationRecordName (DeploymentUID current))
                      (ResourceVersion current) (CmResourceVersion stored)))
      else
        match elasticControllingOwnerIs stored (Name current) (DeploymentUID current) with
        | Some e => (w, inl e)
        | None =>
            match elasticOperationFromData (default "" (CmData stored !! elasticOperationDataKey)) with
            | inl e => (w, inl e)
            | inr held =>
                let reason := envelopeDrift held current in
                if str_neq reason "" then (w, inl (ErrRecord reason))
                else
                  match json_marshal next with
                  | None => (w, inl (ErrOther "encode the elastic resize record"))
                  | Some document =>
                      match api_update w (with_document stored document) with
                      | (w', inl e) => (w', inl e)
                      | (w', inr stored') =>
                          (w', inr (set_version next (CmResourceVersion stored')))
                      end
                  end
            end
        end
  end.

Definition Update (w : W) (op : elasticOperation) : W * (store_error + elasticOperation) :=
  match validate op with
  | Some e => (w, inl (ErrRecord e))
  | None =>
      if negb has_client then (w, inl (ErrRecord "no client is configured"))
      else replace_record w op op
  end.

Definition RecoverInterrupted (w : W) (current recovered : elasticOperation)
    : W * (store_error + elasticOperation) :=
  match validate current with
  | Some e => (w, inl (ErrRecord e))
  | None =>
      match validate recovered with
      | Some e => (w, inl (ErrRecord e))
      | None =>
          if str_neq (Name recovered) (Name current)
             || str_neq (Namespace recovered) (Namespace current)
             || str_neq (DeploymentUID recovered) (DeploymentUID current)
          then (w, inl (ErrRecord "the recovery record is not this deployment's"))
          else if negb has_client then (w, inl (ErrRecord "no client is configured"))
          else replace_record w current recovered
      end
  end.

Definition Delete (w : W) (op : option elasticOperation) : W * option store_error :=
  match op with
  | None => (w, Some (ErrRecord "deletion requires a read record"))
  | Some op =>
      if negb has_client || str_empty (ResourceVersion op)
      then (w, Some (ErrRecord "deletion requires a read record"))
      else
        match api_get w (Namespace op) (elasticOperationRecordName (DeploymentUID op)) with
        | inl e => (w, Some e)
        | inr stored =>
            match elasticControllingOwnerIs stored (Name op) (DeploymentUID op) with
            | Some e => (w, Some e)
            | None =>
                if str_neq (CmResourceVersion stored) (ResourceVersion op)
                then (w, Some (ErrConflict (CmName stored) (ResourceVersion op)
                                 (CmResourceVersion stored)))
                else api_delete w stored (CmUID stored) (ResourceVersion op)
            end
        end
  end.

End store.

(** ** Documented behaviour of the API server and the codec *)

Section laws.
Context {W : Type} `{Api : ConfigMapApi W} `{Codec : RecordCodec}.

(** A created object is stored under its name with a version; an update
    succeeds only against the stored version, stores what it was given, and
    moves the version when the data moved. *)
Class ConfigMapApiLaws := {
  create_stored : forall w cm w' cm', api_create w cm = (w', inr cm') ->
    api_get w' (CmNamespace cm) (CmName cm) = inr cm' /\
    CmNamespace cm' = CmNamespace cm /\
    CmOwnerReferences cm' = CmOwnerReferences cm /\ CmData cm' = CmData cm /\
    CmResourceVersion cm' <> "";
  update_stored : forall w cm w' cm' cur, api_update w cm = (w', inr cm') ->
    api_get w (CmNamespace cm) (CmName cm) = inr cur ->
    CmResourceVersion cur = CmResourceVersion cm /\
    api_get w' (CmNamespace cm) (CmName cm) = inr cm' /\
    CmNamespace cm' = CmNamespace cm /\
    CmOwnerReferences cm' = CmOwnerReferences cm /\ CmData cm' = CmData cm /\
    (CmData cm' <> CmData cur -> CmResourceVersion cm' <> CmResourceVersion cur);
  get_key : forall w ns name cm, api_get w ns name = inr cm ->
    CmNamespace cm = ns /\ CmName cm = name
}.

(** Decoding what was encoded gives the record back, a document is never blank,
    and the controller of a list holding one controlling reference is it. *)
Class RecordCodecLaws := {
  codec_roundtrip : forall op s, json_marshal op = Some s ->
    json_decode s = DecodeOne op /\ blank s = false;
  single_controller : forall o, Controller o = Some true -> getControllerOf [o] = Some o
}.
End laws.

(** ** What the checks decide *)

Record same_envelope (a b : elasticOperation) : Prop := {
  env_head : Head a = Head b;
  env_members : Members a = Members b;
  env_release : Release a = Release b;
  env_deployment : DeploymentUID a = DeploymentUID b;
  env_generation : Generation a = Generation b;
  env_width : OpWidth a = OpWidth b;
  env_workers : Workers a = Workers b;
  env_master : Master a = Master b;
  env_intent : CommandIntent a = "" \/ CommandIntent b = CommandIntent a;
  env_sent : CommandSent a = true -> CommandSent b = true
}.

Lemma str_empty_spec s : str_empty s = true <-> s = "".
Proof. apply bool_decide_eq_true. Qed.
Lemma str_empty_false s : str_empty s = false <-> s <> "".
Proof. apply bool_decide_eq_false. Qed.
Lemma str_neq_false a b : str_neq a b = false <-> a = b.
Proof. unfold str_neq. rewrite bool_decide_eq_false. split; [apply dec_stable|auto]. Qed.
Lemma str_neq_refl a : str_neq a a = false.
Proof. now apply str_neq_false. Qed.
Lemma str_neq_true a b : str_neq a b = true <-> a <> b.
Proof. apply bool_decide_eq_true. Qed.

Lemma workers_drift_spec ws vs :
  length ws = length vs -> workers_drift ws vs = false <-> ws = vs.
Proof.
  revert vs. induction ws as [|w ws IH]; intros [|v vs] Hl; simpl in *; try done.
  case_bool_decide as Hd.
  - split; [done|]. intros [= -> ->]. done.
  - subst v. rewrite IH by lia. split; [now intros ->|now intros [= ->]].
Qed.

Lemma envelopeDrift_spec a b : envelopeDrift a b = "" <-> same_envelope a b.
Proof.
  unfold envelopeDrift. split.
  - intros Hd.
    repeat match type of Hd with
    | (if ?c then _ else _) = _ => let C := fresh "C" in destruct c eqn:C; [discriminate Hd|]
    end.
    rewrite !orb_false_iff, !bool_decide_eq_false in C. destruct C as [[H1 H2] H3].
    apply dec_stable in H1, H2, H3.
    apply str_neq_false in C0. apply negb_false_iff, Z.eqb_eq in C1.
    apply bool_decide_eq_false, dec_stable in C2.
    apply negb_false_iff, Nat.eqb_eq in C3. apply workers_drift_spec in C4; [|done].
    apply bool_decide_eq_false, dec_stable in C5.
    constructor; auto.
    + apply andb_false_iff in C6 as [C6|C6].
      * left. now apply negb_false_iff, str_empty_spec in C6.
      * right. now apply str_neq_false.
    + intros Hs. rewrite Hs in C7. simpl in C7. now apply negb_false_iff in C7.
  - intros [E1 E2 E3 E4 E5 E6 E7 E8 E9 E10].
    rewrite E1, E2, E3, E4, E5, E6, E7, E8.
    rewrite !bool_decide_eq_false_2 by auto. simpl.
    rewrite str_neq_refl, Z.eqb_refl, Nat.eqb_refl. simpl.
    rewrite (proj2 (workers_drift_spec _ _ eq_refl) eq_refl).
    assert (negb (str_empty (CommandIntent a)) && str_neq (CommandIntent b) (CommandIntent a) = false) as ->.
    { destruct E9 as [-> | ->]; [done|]. rewrite str_neq_refl. apply andb_false_r. }
    destruct (CommandSent a); [|done]. now rewrite E10.
Qed.

Record valid (eo : elasticOperation) : Prop := {
  valid_deployment : DeploymentUID eo <> "";
  valid_generation : 0 < Generation eo;
  valid_old : 0 < Old (OpWidth eo);
  valid_target : 0 < Target (OpWidth eo);
  valid_resize : Old (OpWidth eo) <> Target (OpWidth eo);
  valid_state : State eo <> StateNone;
  valid_sent : CommandSent eo = SentState eo;
  valid_master_uid : IdUID (Master eo) <> "";
  valid_master_name : IdName (Master eo) <> "";
  valid_name : Name eo <> "";
  valid_namespace : Namespace eo <> "";
  valid_workers : Forall (fun w => IdUID w <> "" /\ IdName w <> "" /\ IdUID w <> IdUID (Master eo))
                    (Workers eo)
}.

Lemma validate_workers_spec m i ws :
  validate_workers m i ws = None <->
  Forall (fun w => IdUID w <> "" /\ IdName w <> "" /\ IdUID w <> m) ws.
Proof.
  revert i. induction ws as [|w ws IH]; intros i; simpl; [easy|].
  rewrite Forall_cons, <- (IH (i + 1)).
  destruct (str_empty (IdUID w)) eqn:E1; [apply str_empty_spec in E1; split; [done|tauto]|].
  destruct (str_empty (IdName w)) eqn:E2; [apply str_empty_spec in E2; split; [done|tauto]|].
  apply str_empty_false in E1, E2. case_bool_decide; split; try done; tauto.
Qed.

Ltac refuse H :=
  match type of H with
  | (if ?c then _ else _) = _ => let C := fresh "C" in destruct c eqn:C; [discriminate H|]
  end.

Lemma validate_spec eo : validate eo = None <-> valid eo.
Proof.
  unfold validate. split.
  - intros Hv. repeat refuse Hv.
    apply str_empty_false in C, C7, C8. apply Z.leb_gt in C0.
    apply orb_false_iff in C1 as [Ho Ht]. apply Z.leb_gt in Ho, Ht.
    apply Z.eqb_neq in C2. apply bool_decide_eq_false in C3.
    apply orb_false_iff in C6 as [Hmu Hmn]. apply str_empty_false in Hmu, Hmn.
    apply validate_workers_spec in Hv. constructor; auto.
    destruct (CommandSent eo), (SentState eo); done.
  - intros [V1 V2 V3 V4 V5 V6 V7 V8 V9 V10 V11 V12].
    rewrite V7, !(proj2 (str_empty_false _)) by done. rewrite (bool_decide_eq_false_2 _ V6).
    repeat (zcase; try lia). simpl.
    replace (SentState eo && negb (SentState eo)) with false by (destruct (SentState eo); done).
    replace (negb (SentState eo) && SentState eo) with false by (destruct (SentState eo); done).
    now apply validate_workers_spec.
Qed.

(** Nothing a valid record may remove is the master. *)
Lemma retractable_valid eo : valid eo -> retractableWorkers eo = Workers eo.
Proof.
  intros V. unfold retractableWorkers. pose proof (valid_workers _ V) as Hw.
  induction Hw as [|w ws (? & ? & Hne) _ IH]; simpl; [done|].
  rewrite (proj2 (str_neq_true _ _) Hne). congruence.
Qed.

(** ** Reads after writes *)

Section store_theorems.
Context {W : Type} `{Api : ConfigMapApi W} `{Codec : RecordCodec}
        `{!ConfigMapApiLaws} `{!RecordCodecLaws}.
Implicit Types (w : W) (op : elasticOperation).

(** The object holds [op]'s document and answers to [op]'s deployment. *)
Definition holds (stored : ConfigMap) (op : elasticOperation) : Prop :=
  exists document, json_marshal op = Some document /\
    CmData stored = {[ elasticOperationDataKey := document ]} /\
    CmNamespace stored = Namespace op /\
    elasticControllingOwnerIs stored (Name op) (DeploymentUID op) = None.

Lemma owner_is stored name uid :
  elasticControllingOwnerIs stored name uid = None ->
  exists o, getControllerOf (CmOwnerReferences stored) = Some o
            /\ OwnerName o = name /\ OwnerUID o = uid.
Proof.
  unfold elasticControllingOwnerIs. intros Ho. refuse Ho.
  destruct (getControllerOf _) as [o|]; [|discriminate]. repeat refuse Ho.
  exists o. split; [done|]. split; now apply str_neq_false.
Qed.

Lemma set_place_version op rv : set_place op (Namespace op) rv (Name op) = set_version op rv.
Proof. now destruct op. Qed.

Lemma valid_set_version op rv : valid op -> valid (set_version op rv).
Proof. intros []. now constructor. Qed.

Lemma read_holds w stored op :
  valid op -> holds stored op ->
  api_get w (Namespace op) (elasticOperationRecordName (DeploymentUID op)) = inr stored ->
  Read true w (Namespace op) (Name op) (DeploymentUID op)
  = inr (set_version op (CmResourceVersion stored)).
Proof.
  intros V (document & Hm & Hd & Hn & Ho) Hg.
  destruct (owner_is _ _ _ Ho) as (o & Hc & HoN & HoU).
  destruct (codec_roundtrip _ _ Hm) as [Hdec Hbl].
  unfold Read. cbn [negb]. rewrite Hg, Ho, Hc, Hd, lookup_singleton_eq.
  unfold elasticOperationFromData. rewrite Hbl, Hdec, HoN, HoU, Hn.
  rewrite !str_neq_refl, !andb_false_r.
  rewrite set_place_version. rewrite (proj2 (validate_spec _)) by now apply valid_set_version.
  done.
Qed.

(** The fresh read, version, owner and envelope checks a successful
    replacement passed, and the write it made. *)
Lemma replace_record_ok w current next w' op' :
  replace_record w current next = (w', inr op') ->
  exists stored held document stored',
    api_get w (Namespace current) (elasticOperationRecordName (DeploymentUID current)) = inr stored /\
    CmResourceVersion stored = ResourceVersion current /\
    elasticControllingOwnerIs stored (Name current) (DeploymentUID current) = None /\
    elasticOperationFromData (default "" (CmData stored !! elasticOperationDataKey)) = inr held /\
    same_envelope held current /\
    json_marshal next = Some document /\
    api_update w (with_document stored document) = (w', inr stored') /\
    op' = set_version next (CmResourceVersion stored').
Proof.
  unfold replace_record. intros Hr.
  destruct (api_get _ _ _) as [e|stored] eqn:Hg; [discriminate|].
  refuse Hr. refuse Hr. apply str_neq_false in C0.
  destruct (elasticControllingOwnerIs _ _ _) eqn:Ho; [discriminate|].
  destruct (elasticOperationFromData _) as [e|held] eqn:Hf; [discriminate|].
  refuse Hr. apply str_neq_false, envelopeDrift_spec in C1.
  destruct (json_marshal next) as [document|] eqn:Hm; [|discriminate].
  destruct (api_update _ _) as [w1 [e|stored']] eqn:Hu; [discriminate|].
  injection Hr as <- <-. exists stored, held, document, stored'. split_and!; auto.
Qed.

(** A successful replacement leaves an object that holds the new record. *)
Lemma replace_record_holds w current next w' op' :
  Namespace next = Namespace current -> Name next = Name current ->
  DeploymentUID next = DeploymentUID current ->
  replace_record w current next = (w', inr op') ->
  exists stored', holds stored' next /\ op' = set_version next (CmResourceVersion stored') /\
    api_get w' (Namespace next) (elasticOperationRecordName (DeploymentUID next)) = inr stored'.
Proof.
  intros Hns Hn Hu Hr.
  destruct (replace_record_ok _ _ _ _ _ Hr)
    as (stored & held & document & stored' & Hg & _ & Ho & _ & _ & Hm & Hup & ->).
  destruct (get_key _ _ _ _ Hg) as [Hk1 Hk2].
  destruct (update_stored _ _ _ _ stored Hup) as (_ & Hg' & Hcn & How & Hda & _);
    [simpl; now rewrite Hk1, Hk2|].
  simpl in *. exists stored'. rewrite Hk1, Hk2 in Hg'. rewrite Hns, Hu. split_and!; auto.
  exists document. split_and!; auto; [congruence|].
  unfold elasticControllingOwnerIs in *. now rewrite How, Hn, Hu.
Qed.

(** The next read returns the record a successful write returned. *)
Lemma update_then_read w op w' op' :
  Update true w op = (w', inr op') ->
  Read true w' (Namespace op) (Name op) (DeploymentUID op) = inr op'.
Proof.
  unfold Update. destruct (validate op) eqn:Hv; [discriminate|]. apply validate_spec in Hv.
  simpl. intros Hr. destruct (replace_record_holds _ _ _ _ _ eq_refl eq_refl eq_refl Hr)
    as (stored' & Hh & -> & Hg). now apply read_holds.
Qed.

Lemma create_then_read w op now w' op' :
  Create true now w op = (w', inr op') ->
  Read true w' (Namespace op) (Name op) (DeploymentUID op) = inr op'.
Proof.
  unfold Create. destruct (validate op) eqn:Hv; [discriminate|]. apply validate_spec in Hv. simpl.
  destruct (json_marshal op) as [document|] eqn:Hm; [|discriminate].
  destruct (api_create _ _) as [w1 [e|stored']] eqn:Hc; [discriminate|]. intros [= <- <-].
  destruct (create_stored _ _ _ _ Hc) as (Hg & Hn & How & Hda & _). simpl in *.
  apply read_holds; auto. exists document. split_and!; auto.
  unfold elasticControllingOwnerIs. rewrite How, single_controller by done. simpl.
  rewrite !(proj2 (str_empty_false _)) by apply Hv. simpl.
  now rewrite !str_neq_refl.
Qed.

(** A record that was read names the record its object holds. *)
Lemma read_held w ns name uid op :
  Read true w ns name uid = inr op ->
  exists stored held, api_get w ns (elasticOperationRecordName uid) = inr stored /\
    elasticOperationFromData (default "" (CmData stored !! elasticOperationDataKey)) = inr held /\
    op = set_place held (CmNamespace stored) (CmResourceVersion stored) name /\
    DeploymentUID op = uid /\ valid op.
Proof.
  unfold Read. cbn [negb]. destruct (api_get _ _ _) as [e|stored]; [discriminate|].
  destruct (elasticControllingOwnerIs _ _ _) eqn:Ho; [discriminate|].
  destruct (owner_is _ _ _ Ho) as (o & -> & HoN & HoU).
  destruct (CmData stored !! elasticOperationDataKey) as [body|] eqn:Hb; [|discriminate].
  destruct (elasticOperationFromData body) as [e|held] eqn:Hf; [discriminate|].
  intros Hr. refuse Hr. refuse Hr. rewrite HoN in Hr.
  destruct (validate _) eqn:Hv; [discriminate|]. refuse Hr. injection Hr as <-.
  exists stored, held. split_and!; [done| |done|now apply str_neq_false in C1|now apply validate_spec].
  now rewrite Hb.
Qed.

Lemma same_envelope_place held ns rv name op :
  same_envelope held op -> same_envelope (set_place held ns rv name) op.
Proof. intros []. now constructor. Qed.

Lemma same_envelope_version a op rv : same_envelope a op -> same_envelope a (set_version op rv).
Proof. intros []. now constructor. Qed.

End store_theorems.

(** ** Theorems of the store *)

Section store_claims.
Context {W : Type} `{Api : ConfigMapApi W} `{Codec : RecordCodec}
        `{!ConfigMapApiLaws} `{!RecordCodecLaws}.

(** A successful update changes nothing the operation was decided against:
    the record read afterwards is the one the update returned, and it has the
    deployment, generation, widths, captured identities and release of the
    record read before; an intent once recorded stays, and a command once sent
    stays sent. *)
Theorem store_update_envelope (w w' : W) (prev op op' : elasticOperation) :
  Read true w (Namespace op) (Name op) (DeploymentUID op) = inr prev ->
  Update true w op = (w', inr op') ->
  Read true w' (Namespace op) (Name op) (DeploymentUID op) = inr op' /\ same_envelope prev op'.
Proof.
  intros Hread Hup. split; [eapply update_then_read; eauto|].
  destruct (read_held _ _ _ _ _ Hread) as (stored & held & Hg & Hf & -> & _).
  unfold Update in Hup. destruct (validate op); [discriminate|]. simpl in Hup.
  destruct (replace_record_ok _ _ _ _ _ Hup)
    as (stored1 & held1 & doc & stored' & Hg1 & _ & _ & Hf1 & He & _ & _ & ->).
  rewrite Hg in Hg1. injection Hg1 as <-. rewrite Hf in Hf1. injection Hf1 as <-.
  now apply same_envelope_place, same_envelope_version.
Qed.

(** A record the store created is read back exactly as it was returned. *)
Theorem store_create_roundtrip (w w' : W) (now : option Z) (op op' : elasticOperation) :
  Create true now w op = (w', inr op') ->
  Read true w' (Namespace op) (Name op) (DeploymentUID op) = inr op'.
Proof. apply create_then_read. Qed.

(** No lost update.  Of two writers that read the same version, the one
    that comes after a successful write that changed the document is refused,
    and its refusal writes nothing. *)
Theorem store_no_lost_update (w w1 : W) (op1 op1' op2 : elasticOperation)
    (stored : ConfigMap) (document : string) :
  api_get w (Namespace op1) (elasticOperationRecordName (DeploymentUID op1)) = inr stored ->
  json_marshal op1 = Some document ->
  CmData stored <> {[ elasticOperationDataKey := document ]} ->
  Update true w op1 = (w1, inr op1') ->
  Namespace op2 = Namespace op1 -> DeploymentUID op2 = DeploymentUID op1 ->
  ResourceVersion op2 = ResourceVersion op1 ->
  exists e, Update true w1 op2 = (w1, inl e).
Proof.
  intros Hg Hm Hd Hup Hn Hu Hv. unfold Update in *.
  destruct (validate op1); [discriminate|]. simpl in Hup.
  destruct (replace_record_ok _ _ _ _ _ Hup)
    as (stored1 & held1 & doc & stored' & Hg1 & Hrv & _ & _ & _ & Hm1 & Hupd & _).
  rewrite Hg in Hg1. injection Hg1 as <-. rewrite Hm in Hm1. injection Hm1 as <-.
  destruct (get_key _ _ _ _ Hg) as [Hk1 Hk2].
  destruct (update_stored _ _ _ _ stored Hupd) as (_ & Hg' & _ & _ & Hda & Hrv');
    [simpl; now rewrite Hk1, Hk2|].
  simpl in *. rewrite Hda in Hrv'. specialize (Hrv' (fun E => Hd (eq_sym E))).
  rewrite Hk1, Hk2 in Hg'. destruct (validate op2) as [e|]; [eauto|].
  unfold replace_record. rewrite Hn, Hu, Hg', Hv.
  destruct (str_empty (ResourceVersion op1)); [eauto|].
  rewrite (proj2 (str_neq_true _ _)) by congruence. eauto.
Qed.

End store_claims.

(** ** A concrete API server

    An in-memory server and a codec for two records, which show that the laws
    can hold and give the theorems inputs to run on. *)
Module Example.

Definition world : Type := gmap (string * string) ConfigMap.

Definition located (ns name rv : string) (cm : ConfigMap) : ConfigMap :=
  {| CmNamespace := ns; CmName := name; CmUID := CmUID cm; CmResourceVersion := rv;
     CmLabels := CmLabels cm; CmOwnerReferences := CmOwnerReferences cm;
     CmCreationTimestamp := CmCreationTimestamp cm; CmData := CmData cm |}.

Definition get (w : world) (ns name : string) : store_error + ConfigMap :=
  match w !! (ns, name) with
  | Some cm => inr (located ns name (CmResourceVersion cm) cm)
  | None => inl ErrNotFound
  end.

Definition create (w : world) (cm : ConfigMap) : world * (store_error + ConfigMap) :=
  match w !! (CmNamespace cm, CmName cm) with
  | Some _ => (w, inl ErrAlreadyExists)
  | None =>
      let cm' := located (CmNamespace cm) (CmName cm) "1" cm in
      (<[(CmNamespace cm, CmName cm) := cm']> w, inr cm')
  end.

Definition update (w : world) (cm : ConfigMap) : world * (store_error + ConfigMap) :=
  match w !! (CmNamespace cm, CmName cm) with
  | None => (w, inl ErrNotFound)
  | Some cur =>
      if bool_decide (CmResourceVersion cur = CmResourceVersion cm) then
        let cm' := located (CmNamespace cm) (CmName cm) ("x" +:+ CmResourceVersion cur) cm in
        (<[(CmNamespace cm, CmName cm) := cm']> w, inr cm')
      else (w, inl (ErrConflict (CmName cm) (CmResourceVersion cm) (CmResourceVersion cur)))
  end.

Definition remove (w : world) (cm : ConfigMap) (uid rv : string) : world * option store_error :=
  (delete (CmNamespace cm, CmName cm) w, None).

#[export] Instance api : ConfigMapApi world :=
  {| api_get := get; api_create := create; api_update := update; api_delete := remove |}.

#[export] Instance api_laws : @ConfigMapApiLaws world api.
Proof.
  split.
  - intros w cm w' cm'. simpl. unfold create, get, world in *.
    destruct (w !! _) as [c|]; [discriminate|]. intros [= <- <-]. rewrite lookup_insert_eq.
    split_and!; done.
  - intros w cm w' cm' cur. simpl. unfold update, get, world in *.
    destruct (w !! _) as [c|]; [|discriminate]. case_bool_decide as Hrv; [|discriminate].
    intros [= <- <-] [= <-]. simpl. rewrite lookup_insert_eq. split_and!; try done.
    intros _ He. apply (f_equal String.length) in He. 
    change (S (String.length (CmResourceVersion c)) = String.length (CmResourceVersion c)) in He. lia.
  - intros w ns name cm. simpl. unfold get.
    destruct (w !! _); [|discriminate]. intros [= <-]. done.
Defined.

(** A narrowing from four workers to two, before and after its command. *)
Definition recorded : elasticOperation :=
  {| Name := "llm"; DeploymentUID := "md-1"; Namespace := "team-a"; Generation := 7;
     OpWidth := Width 4 2;
     Workers := [Identity "llm-2" "p-2"; Identity "llm-3" "p-3"];
     Master := Identity "llm-0" "p-0"; Head := Identity "llm-head" "p-h";
     Members := [Identity "llm-0" "p-0"; Identity "llm-1" "p-1";
                 Identity "llm-2" "p-2"; Identity "llm-3" "p-3"];
     Release := None; State := Recorded; CommandIntent := ""; CommandSent := false;
     ScaleAttempts := 0; ScaleLastError := ""; ScaleLastFailedAt := None;
     ScaleAmbiguousAttempts := 0; ResourceVersion := "" |}.

Definition commanded : elasticOperation :=
  set_command (set_state (set_version recorded "1") CommandSentState) true "scale to 2".

#[export] Instance codec : RecordCodec :=
  {| json_marshal := fun op =>
       if bool_decide (op = recorded) then Some "recorded"
       else if bool_decide (op = commanded) then Some "commanded" else None;
     json_decode := fun s =>
       if bool_decide (s = "recorded") then DecodeOne recorded
       else if bool_decide (s = "commanded") then DecodeOne commanded
       else DecodeError "invalid character";
     getControllerOf := List.find (fun o => bool_decide (Controller o = Some true)) |}.

#[export] Instance codec_laws : @RecordCodecLaws codec.
Proof.
  split.
  - intros op s. simpl. case_bool_decide as H1; [intros [= <-]; subst; done|].
    case_bool_decide as H2; [intros [= <-]; subst; done|discriminate].
  - intros o Ho. simpl. now rewrite bool_decide_eq_true_2.
Defined.

(** The world after the record was created, and after its command. *)
Definition created : world := fst (Create true None ∅ recorded).
Definition updated : world := fst (Update true created commanded).

End Example.

#[local] Existing Instances Example.api Example.api_laws Example.codec Example.codec_laws.

(** Splitting an outcome of the store from the world it leaves, so that only
    the record is evaluated. *)
Lemma fst_snd {A B} (p : A * B) (b : B) : snd p = b -> p = (fst p, b).
Proof. destruct p. simpl. now intros ->. Qed.

Lemma store_create_roundtrip_witness :
  Read true Example.created "team-a" "llm" "md-1" = inr (set_version Example.recorded "1").
Proof.
  apply (store_create_roundtrip ∅ Example.created None Example.recorded
           (set_version Example.recorded "1")).
  apply fst_snd. vm_compute. reflexivity.
Defined.

Lemma store_update_envelope_witness :
  Read true Example.updated "team-a" "llm" "md-1" = inr (set_version Example.commanded "x1")
  /\ same_envelope (set_version Example.recorded "1") (set_version Example.commanded "x1").
Proof.
  apply (store_update_envelope Example.created Example.updated
           (set_version Example.recorded "1") Example.commanded
           (set_version Example.commanded "x1")).
  - vm_compute. reflexivity.
  - apply fst_snd. vm_compute. reflexivity.
Defined.

Lemma store_no_lost_update_witness :
  exists e, Update true Example.updated (set_version Example.recorded "1")
            = (Example.updated, inl e).
Proof.
  assert (match Example.get Example.created "team-a" "elastic-resize-md-1" with
          | inr stored => CmData stored !! elasticOperationDataKey
          | inl _ => None
          end = Some "recorded") as Hd by (vm_compute; reflexivity).
  destruct (Example.get Example.created "team-a" "elastic-resize-md-1") as [|stored] eqn:Hg;
    [discriminate Hd|].
  apply (store_no_lost_update Example.created Example.updated Example.commanded
           (set_version Example.commanded "x1") (set_version Example.recorded "1")
           stored "commanded").
  - exact Hg.
  - vm_compute. reflexivity.
  - intros E. rewrite E in Hd. vm_compute in Hd. discriminate Hd.
  - apply fst_snd. vm_compute. reflexivity.
  - reflexivity.
  - reflexivity.
  - reflexivity.
Defined.
