(* ===== verification/ElasticKernel.v ===== *)
(** * The decision kernel of an elastic resize
    (pkg/worker/controllers/worker/model_deployment_elastic_operation_kernel.go,
    and the acting half of the pass in model_deployment_elastic_reconcile.go)

    The kernel is a pure function of a record and a set of facts.  It is
    translated check by check, messages included; the theorems characterise
    exactly when it asks the engine to scale, when it releases workers and
    when it ends the operation, and follow the record over whole runs of
    passes. *)

From stdpp Require Import prelude gmap strings list pretty.
From S2P Require Import Prelude ElasticRecord.

(** ** Facts and decisions *)

Record elasticLayer := Layer { Known : bool; Value : Z; LReason : string }.
Definition knownLayer (value : Z) : elasticLayer := Layer true value "".
Definition unknownLayer (reason : string) : elasticLayer := Layer false 0 reason.

Record elasticFacts := {
  FDeploymentUID : string;
  FGeneration : Z;
  Desired : elasticLayer;
  AdmittedWidth : elasticLayer;
  Ray : elasticLayer;
  Effective : elasticLayer;
  AdmittedAllocation : elasticLayer;
  WithdrawalConfirmed : bool;
  NativeComplete : bool;
  ScalingKnown : bool;
  Scaling : bool;
  ForwardProven : bool;
  ActorFree : gmap string bool;
  ActorMappingKnown : bool;
  ReleaseObserved : bool
}.

Inductive elasticAction :=
  | Hold | RequestScale | RetryScale | AwaitNative | AwaitWithdrawal | AwaitForward
  | ReleaseAction | Complete.
#[export] Instance elasticAction_eq_dec : EqDecision elasticAction.
Proof. solve_decision. Defined.

Record elasticDecision := Decision { Action : elasticAction; DState : elasticOperationState; DReason : string }.

Definition elasticHold (state : elasticOperationState) (reason : string) : elasticDecision :=
  Decision Hold state reason.

Definition elasticScaleMaxAttempts : Z := 5.
(** Nanoseconds, as [time.Duration]. *)
Definition second : Z := 1000000000.
Definition elasticScaleRetryBase : Z := 15 * second.
Definition elasticScaleRetryCap : Z := 240 * second.

(** ** The kernel *)

Definition request_scale (op : elasticOperation) : elasticDecision :=
  Decision RequestScale CommandSentState
    ("the engine was not yet asked to move from " +:+ pretty (Old (OpWidth op)) +:+ " to "
     +:+ pretty (Target (OpWidth op))).

Definition decideBeforeCommand (op : elasticOperation) (facts : elasticFacts) : elasticDecision :=
  let target := Target (OpWidth op) in
  if negb (Known (Desired facts))
  then elasticHold (State op) ("the desired width is unknown: " +:+ LReason (Desired facts))
  else if negb (Value (Desired facts) =? target)
  then elasticHold (State op) ("the spec now wants width " +:+ pretty (Value (Desired facts))
         +:+ " rather than " +:+ pretty target)
  else if negb (Upward (OpWidth op)) then
    if negb (WithdrawalConfirmed facts)
    then Decision AwaitWithdrawal (State op)
           "the serving side has not confirmed the narrowing withdrew"
    else request_scale op
  else if negb (Known (AdmittedWidth facts))
  then elasticHold (State op) ("admitted width is unknown: " +:+ LReason (AdmittedWidth facts))
  else if Value (AdmittedWidth facts) <? target
  then elasticHold (State op) ("only " +:+ pretty (Value (AdmittedWidth facts))
         +:+ " workers are admitted and " +:+ pretty target +:+ " are wanted")
  else if negb (Known (AdmittedAllocation facts))
  then elasticHold (State op) ("admitted allocation is unknown: " +:+ LReason (AdmittedAllocation facts))
  else if Value (AdmittedAllocation facts) <? target
  then elasticHold (State op) ("only " +:+ pretty (Value (AdmittedAllocation facts))
         +:+ " workers hold an allocation and " +:+ pretty target +:+ " are wanted")
  else if negb (Known (Ray facts))
  then elasticHold (State op) ("the ray world is unknown: " +:+ LReason (Ray facts))
  else if Value (Ray facts) <? target
  then elasticHold (State op) ("the ray world holds " +:+ pretty (Value (Ray facts))
         +:+ " members and " +:+ pretty target +:+ " are wanted")
  else request_scale op.

Definition elasticScaleRefusalMessage (op : elasticOperation) : string :=
  "the scale command from width " +:+ pretty (Old (OpWidth op)) +:+ " to "
  +:+ pretty (Target (OpWidth op)) +:+ " was refused " +:+ pretty (Z.max (ScaleAttempts op) 1)
  +:+ " times and its retry bound is spent; the last refusal: " +:+ ScaleLastError op.

Definition elasticScaleRefusalOutcome (op : elasticOperation) (facts : elasticFacts)
    : option elasticDecision :=
  if str_empty (ScaleLastError op) then None
  else if negb (ScalingKnown facts)
  then Some (elasticHold (State op)
         ("the engine did not answer whether it is scaling, so the refused command is not re-issued on a guess; the recorded refusal: "
          +:+ ScaleLastError op))
  else if Scaling facts
  then Some (elasticHold (State op)
         ("the engine is still scaling, so the refused command waits for it to settle; the recorded refusal: "
          +:+ ScaleLastError op))
  else if Z.max (ScaleAttempts op) 1 <? elasticScaleMaxAttempts
  then Some (Decision RetryScale (State op)
         ("the engine refused the scale command to width " +:+ pretty (Target (OpWidth op))
          +:+ "; the recorded refusal: " +:+ ScaleLastError op))
  else Some (elasticHold Abandoned (elasticScaleRefusalMessage op)).

Definition await_native : elasticDecision :=
  Decision AwaitNative AwaitingWidth "the engine has not reported the new width yet".

Definition decideUpwardAfterCommand (op : elasticOperation) (facts : elasticFacts) : elasticDecision :=
  if negb (NativeComplete facts) then
    match elasticScaleRefusalOutcome op facts with
    | Some decision => decision
    | None => await_native
    end
  else if negb (Known (Effective facts))
  then elasticHold NativeDone ("the effective width is unknown: " +:+ LReason (Effective facts))
  else if negb (Value (Effective facts) =? Target (OpWidth op))
  then elasticHold NativeDone ("the engine reports width " +:+ pretty (Value (Effective facts))
         +:+ " rather than " +:+ pretty (Target (OpWidth op)))
  else if negb (ForwardProven facts)
  then Decision AwaitForward NativeDone "no request has been served at the new width yet"
  else Decision Complete Completed ("the engine serves at width " +:+ pretty (Target (OpWidth op))).

(** The walk over the workers that may be removed: the first refusal. *)
Fixpoint retirement_refusal_workers (master : string) (actorFree : gmap string bool)
    (ws : list elasticCapturedIdentity) : string :=
  match ws with
  | [] => ""
  | worker :: ws =>
      if bool_decide (IdUID worker = master)
      then "worker " +:+ IdName worker +:+ " is the master and is never retirable"
      else
        match actorFree !! IdUID worker with
        | None => "worker " +:+ IdName worker +:+ " has no actor evidence, because nothing mapped it"
        | Some false => "worker " +:+ IdName worker +:+ " still holds an actor"
        | Some true => retirement_refusal_workers master actorFree ws
        end
  end.

Definition elasticRetirementRefusal (op : elasticOperation) (facts : elasticFacts) : string :=
  if negb (ActorMappingKnown facts)
  then "the runtime's actor mapping could not be read, so no worker is proven actor-free"
  else retirement_refusal_workers (IdUID (Master op)) (ActorFree facts) (retractableWorkers op).

Definition decideDownwardAfterCommand (op : elasticOperation) (facts : elasticFacts) : elasticDecision :=
  if negb (NativeComplete facts) then
    match elasticScaleRefusalOutcome op facts with
    | Some decision => decision
    | None => await_native
    end
  else if negb (Known (Effective facts))
  then elasticHold NativeDone ("the effective width is unknown: " +:+ LReason (Effective facts))
  else if negb (Value (Effective facts) =? Target (OpWidth op))
  then elasticHold NativeDone ("the engine reports width " +:+ pretty (Value (Effective facts))
         +:+ " rather than " +:+ pretty (Target (OpWidth op)))
  else if negb (ForwardProven facts)
  then Decision AwaitForward NativeDone "no request has been served at the new width yet"
  else if negb (WithdrawalConfirmed facts)
  then Decision AwaitWithdrawal Withdrawn
         "the serving side has not confirmed the narrowing withdrew"
  else
    let reason := elasticRetirementRefusal op facts in
    if str_neq reason "" then elasticHold Withdrawn reason
    else Decision ReleaseAction Released
           (pretty (Z.of_nat (length (retractableWorkers op)))
            +:+ " captured workers are proven actor-free and may be released").

Definition elasticReleaseComplete (op : elasticOperation) (facts : elasticFacts) : elasticDecision :=
  if negb (ReleaseObserved facts)
  then elasticHold Released
         "the captured workers have not been seen released from the ledger and the quota"
  else Decision Complete Completed "the narrowing is released, observed and complete".

Definition decideAfterCommand (op : elasticOperation) (facts : elasticFacts) : elasticDecision :=
  if Upward (OpWidth op) then decideUpwardAfterCommand op facts
  else if bool_decide (State op = Released) then elasticReleaseComplete op facts
  else decideDownwardAfterCommand op facts.

Definition decideElasticOperation (op : elasticOperation) (facts : elasticFacts) : elasticDecision :=
  match validate op with
  | Some err => Decision Hold (State op) (record_error err)
  | None =>
      if str_neq (FDeploymentUID facts) (DeploymentUID op)
      then elasticHold (State op) ("the facts are about deployment " +:+ FDeploymentUID facts
             +:+ " rather than " +:+ DeploymentUID op)
      else if negb (FGeneration facts =? Generation op)
      then elasticHold (State op) ("the deployment is at generation " +:+ pretty (FGeneration facts)
             +:+ " while this operation is bound to " +:+ pretty (Generation op))
      else if SentState op then decideAfterCommand op facts
      else decideBeforeCommand op facts
  end.

(** ** What each decision requires *)

(** The facts are about this operation: its deployment at its generation. *)
Definition current (op : elasticOperation) (facts : elasticFacts) : Prop :=
  valid op /\ FDeploymentUID facts = DeploymentUID op /\ FGeneration facts = Generation op.

(** A layer was read and reaches a width. *)
Definition reaches (l : elasticLayer) (width : Z) : Prop := Known l = true /\ width <= Value l.
Definition agrees (l : elasticLayer) (width : Z) : Prop := Known l = true /\ Value l = width.

Ltac decide_step :=
  match goal with
  | |- context [if ?c then _ else _] => destruct c eqn:?
  | |- context [match ?x with Some _ => _ | None => _ end] => destruct x eqn:?
  end.

Ltac bools :=
  repeat match goal with
  | H : negb _ = true |- _ => apply negb_true_iff in H
  | H : negb _ = false |- _ => apply negb_false_iff in H
  | H : str_neq _ _ = false |- _ => apply str_neq_false in H
  | H : str_neq _ _ = true |- _ => apply str_neq_true in H
  | H : (_ =? _) = true |- _ => apply Z.eqb_eq in H
  | H : (_ =? _) = false |- _ => apply Z.eqb_neq in H
  | H : (_ <? _) = true |- _ => apply Z.ltb_lt in H
  | H : (_ <? _) = false |- _ => apply Z.ltb_ge in H
  | H : bool_decide _ = true |- _ => apply bool_decide_eq_true in H
  | H : bool_decide _ = false |- _ => apply bool_decide_eq_false in H
  end.

(** The kernel past its first three checks. *)
Lemma decide_current op facts :
  current op facts ->
  decideElasticOperation op facts =
  if SentState op then decideAfterCommand op facts else decideBeforeCommand op facts.
Proof.
  intros (V & Hu & Hg). unfold decideElasticOperation.
  now rewrite (proj2 (validate_spec op) V), Hu, str_neq_refl, Hg, Z.eqb_refl.
Qed.

Lemma decide_stale op facts :
  ~ current op facts ->
  Action (decideElasticOperation op facts) = Hold /\
  DState (decideElasticOperation op facts) = State op.
Proof.
  intros Hc. unfold decideElasticOperation.
  destruct (validate op) eqn:Hv; [done|]. apply validate_spec in Hv.
  repeat decide_step; bools; try done; exfalso; apply Hc; split_and!; auto.
Qed.

Lemma current_dec op facts : current op facts \/ ~ current op facts.
Proof.
  unfold current. destruct (validate op) eqn:Hv.
  - right. intros (V & _). apply validate_spec in V. congruence.
  - apply validate_spec in Hv.
    destruct (decide (FDeploymentUID facts = DeploymentUID op)) as [E|E]; [|right; tauto].
    destruct (decide (FGeneration facts = Generation op)); [left; auto|right; tauto].
Qed.

(** After a command the kernel never asks for the first command. *)
Lemma after_command_no_request op facts : Action (decideAfterCommand op facts) <> RequestScale.
Proof.
  unfold decideAfterCommand, decideUpwardAfterCommand, decideDownwardAfterCommand,
    elasticReleaseComplete, elasticScaleRefusalOutcome, await_native, elasticHold.
  cbv zeta. repeat decide_step; simplify_eq; simpl; discriminate.
Qed.

(** Before a command the kernel only holds, waits for the withdrawal, or asks. *)
Lemma before_command_actions op facts :
  let d := decideBeforeCommand op facts in
  (Action d = Hold /\ DState d = State op) \/ (Action d = AwaitWithdrawal /\ DState d = State op)
  \/ (Action d = RequestScale /\ DState d = CommandSentState).
Proof.
  unfold decideBeforeCommand, elasticHold, request_scale. cbv zeta.
  repeat decide_step; simpl; auto.
Qed.

Lemma before_command_request op facts :
  Action (decideBeforeCommand op facts) = RequestScale <->
  agrees (Desired facts) (Target (OpWidth op)) /\
  if Upward (OpWidth op)
  then reaches (AdmittedWidth facts) (Target (OpWidth op))
       /\ reaches (AdmittedAllocation facts) (Target (OpWidth op))
       /\ reaches (Ray facts) (Target (OpWidth op))
  else WithdrawalConfirmed facts = true.
Proof.
  unfold decideBeforeCommand, agrees, reaches, elasticHold, request_scale. cbv zeta.
  repeat decide_step; bools; simpl;
    (split; [intros Hx; try discriminate Hx; split_and!; auto; lia
            |intros Hx; destruct_and? Hx; try reflexivity; exfalso; first [congruence|lia]]).
Qed.

Lemma refusal_workers_spec m af ws :
  retirement_refusal_workers m af ws = "" <->
  Forall (fun w => IdUID w <> m /\ af !! IdUID w = Some true) ws.
Proof.
  induction ws as [|w ws IH]; simpl; [easy|]. rewrite Forall_cons, <- IH.
  case_bool_decide as Hm; [split; [done|tauto]|].
  destruct (af !! IdUID w) as [[]|]; split; try done; try tauto; intros [[_ Hx] _]; done.
Qed.

Lemma retirement_refusal_spec op facts :
  valid op ->
  elasticRetirementRefusal op facts = "" <->
  ActorMappingKnown facts = true /\
  Forall (fun w => ActorFree facts !! IdUID w = Some true) (Workers op).
Proof.
  intros V. unfold elasticRetirementRefusal.
  destruct (ActorMappingKnown facts); simpl; [|split; [done|intros [? _]; done]].
  rewrite refusal_workers_spec, retractable_valid by done.
  pose proof (valid_workers _ V) as Hw. rewrite !Forall_forall in *. split.
  - intros Hf. split; [done|]. intros w Hin. now apply Hf.
  - intros [_ Hf] w Hin. split; [apply Hw|]; auto.
Qed.

(** The kernel asks the engine to scale exactly when a valid record whose
    state says no command left is met by facts about its own deployment and
    generation, the spec still wants the record's target, and either the target
    is admitted, allocated and registered (upward) or the serving side has
    withdrawn (downward). *)
Theorem request_scale_iff (op : elasticOperation) (facts : elasticFacts) :
  Action (decideElasticOperation op facts) = RequestScale <->
  current op facts /\ SentState op = false /\
  agrees (Desired facts) (Target (OpWidth op)) /\
  if Upward (OpWidth op)
  then reaches (AdmittedWidth facts) (Target (OpWidth op))
       /\ reaches (AdmittedAllocation facts) (Target (OpWidth op))
       /\ reaches (Ray facts) (Target (OpWidth op))
  else WithdrawalConfirmed facts = true.
Proof.
  destruct (current_dec op facts) as [Hc|Hc].
  - rewrite decide_current by done. destruct (SentState op) eqn:Hs.
    + split; [intros Hx; now apply after_command_no_request in Hx|intros (_ & ? & _); done].
    + rewrite before_command_request. tauto.
  - destruct (decide_stale _ _ Hc) as [-> _]. split; [done|tauto].
Qed.

(** The kernel releases captured workers exactly when the narrowing's
    command left, the engine finished and reports the target width, a request
    was served there, the serving side withdrew, the actor mapping was read and
    every captured worker is shown to hold no actor. *)
Theorem release_iff (op : elasticOperation) (facts : elasticFacts) :
  Action (decideElasticOperation op facts) = ReleaseAction <->
  current op facts /\ SentState op = true /\ Upward (OpWidth op) = false /\
  State op <> Released /\ NativeComplete facts = true /\
  agrees (Effective facts) (Target (OpWidth op)) /\ ForwardProven facts = true /\
  WithdrawalConfirmed facts = true /\ ActorMappingKnown facts = true /\
  Forall (fun w => ActorFree facts !! IdUID w = Some true) (Workers op).
Proof.
  destruct (current_dec op facts) as [Hc|Hc];
    [|destruct (decide_stale _ _ Hc) as [-> _]; split; [done|tauto]].
  rewrite decide_current by done. pose proof (retirement_refusal_spec op facts (proj1 Hc)) as Hr.
  destruct (SentState op) eqn:Hs.
  - unfold decideAfterCommand, decideUpwardAfterCommand, decideDownwardAfterCommand,
      elasticReleaseComplete, elasticScaleRefusalOutcome, await_native, elasticHold, agrees.
    cbv zeta. repeat decide_step; bools; simplify_eq; simpl;
      (split; [intros Hx; try discriminate Hx; tauto
              |intros Hx; destruct_and? Hx; try reflexivity; exfalso; first [congruence|tauto]]).
  - destruct (before_command_actions op facts) as [[-> _]|[[-> _]|[-> _]]];
      (split; [discriminate|intros (_ & ? & _); discriminate]).
Qed.

(** The kernel ends an operation exactly when its command left and either
    an upward target is reported and has served a request, or a narrowing's
    release has been observed. *)
Theorem complete_iff (op : elasticOperation) (facts : elasticFacts) :
  Action (decideElasticOperation op facts) = Complete <->
  current op facts /\ SentState op = true /\
  ((Upward (OpWidth op) = true /\ NativeComplete facts = true /\
    agrees (Effective facts) (Target (OpWidth op)) /\ ForwardProven facts = true) \/
   (Upward (OpWidth op) = false /\ State op = Released /\ ReleaseObserved facts = true)).
Proof.
  destruct (current_dec op facts) as [Hc|Hc];
    [|destruct (decide_stale _ _ Hc) as [-> _]; split; [done|tauto]].
  rewrite decide_current by done. destruct (SentState op) eqn:Hs.
  - unfold decideAfterCommand, decideUpwardAfterCommand, decideDownwardAfterCommand,
      elasticReleaseComplete, elasticScaleRefusalOutcome, await_native, elasticHold, agrees.
    cbv zeta. repeat decide_step; bools; simplify_eq; simpl;
      (split; [intros Hx; try discriminate Hx; tauto
              |intros (_ & _ & [Hx|Hx]); destruct_and? Hx; first [reflexivity|exfalso; congruence]]).
  - destruct (before_command_actions op facts) as [[-> _]|[[-> _]|[-> _]]];
      (split; [discriminate|intros (_ & ? & _); discriminate]).
Qed.

(** The kernel re-issues a command exactly when one left and the record
    carries the engine's refusal of it, the engine answered that it is idle, the
    target has not been reported, and the retry bound is not spent; a narrowing
    that was released is never commanded again. *)
Theorem retry_iff (op : elasticOperation) (facts : elasticFacts) :
  Action (decideElasticOperation op facts) = RetryScale <->
  current op facts /\ SentState op = true /\
  (Upward (OpWidth op) = true \/ State op <> Released) /\
  NativeComplete facts = false /\ ScaleLastError op <> "" /\
  ScalingKnown facts = true /\ Scaling facts = false /\
  ScaleAttempts op < elasticScaleMaxAttempts.
Proof.
  destruct (current_dec op facts) as [Hc|Hc];
    [|destruct (decide_stale _ _ Hc) as [-> _]; split; [done|tauto]].
  rewrite decide_current by done. destruct (SentState op) eqn:Hs.
  - unfold decideAfterCommand, decideUpwardAfterCommand, decideDownwardAfterCommand,
      elasticReleaseComplete, elasticScaleRefusalOutcome, await_native, elasticHold.
    cbv zeta. unfold elasticScaleMaxAttempts.
    repeat decide_step; bools; simplify_eq; simpl;
      repeat match goal with
      | H : str_empty _ = true |- _ => apply str_empty_spec in H
      | H : str_empty _ = false |- _ => apply str_empty_false in H
      end;
      (split; [intros Hx; try discriminate Hx; split_and!; auto; lia
              |intros (_ & _ & [Hu|Hu] & Hx); destruct_and? Hx;
               first [reflexivity|exfalso; first [congruence|lia]]]).
  - destruct (before_command_actions op facts) as [[-> _]|[[-> _]|[-> _]]];
      (split; [discriminate|intros (_ & ? & _); discriminate]).
Qed.

(** After a command the state the kernel answers with still says a command
    left. *)
Lemma after_command_sent op facts :
  SentState op = true -> sent_state (DState (decideAfterCommand op facts)) = true.
Proof.
  intros Hs. unfold decideAfterCommand, decideUpwardAfterCommand, decideDownwardAfterCommand,
    elasticReleaseComplete, elasticScaleRefusalOutcome, await_native, elasticHold.
  cbv zeta. repeat decide_step; simplify_eq; simpl; auto.
Qed.

Lemma decide_state op facts :
  let d := decideElasticOperation op facts in
  (SentState op = true -> sent_state (DState d) = true) /\
  (SentState op = false -> Action d <> RequestScale -> DState d = State op).
Proof.
  simpl. destruct (current_dec op facts) as [Hc|Hc].
  - rewrite decide_current by done. destruct (SentState op) eqn:Hs; split; try discriminate.
    + intros _. now apply after_command_sent.
    + intros _ Hr. destruct (before_command_actions op facts) as [[_ ->]|[[_ ->]|[? _]]]; done.
  - destruct (decide_stale _ _ Hc) as [_ ->]. unfold SentState. auto.
Qed.

(** What the actions that reach past the record need after a command. *)
Lemma after_command_needs op facts :
  match Action (decideAfterCommand op facts) with
  | RetryScale => ScaleAttempts op < elasticScaleMaxAttempts
  | ReleaseAction => Upward (OpWidth op) = false /\ ForwardProven facts = true /\
      NativeComplete facts = true /\ ActorMappingKnown facts = true
  | Complete => (Upward (OpWidth op) = true /\ ForwardProven facts = true) \/
      (Upward (OpWidth op) = false /\ State op = Released)
  | _ => True
  end.
Proof.
  unfold decideAfterCommand, decideUpwardAfterCommand, decideDownwardAfterCommand,
    elasticReleaseComplete, elasticScaleRefusalOutcome, elasticRetirementRefusal, await_native,
    elasticHold.
  cbv zeta. repeat decide_step; bools; simplify_eq; simpl; auto; try lia.
  destruct (ActorMappingKnown facts); [auto|discriminate].
Qed.

Lemma decision_needs op facts :
  match Action (decideElasticOperation op facts) with
  | RequestScale => SentState op = false /\ FGeneration facts = Generation op
  | RetryScale => SentState op = true /\ FGeneration facts = Generation op /\
      ScaleAttempts op < elasticScaleMaxAttempts
  | ReleaseAction => SentState op = true /\ FGeneration facts = Generation op /\
      ForwardProven facts = true /\ ActorMappingKnown facts = true
  | Complete => SentState op = true /\ (ForwardProven facts = true \/ State op = Released)
  | _ => True
  end.
Proof.
  destruct (current_dec op facts) as [Hc|Hc]; [|now destruct (decide_stale _ _ Hc) as [-> _]].
  rewrite decide_current by done. destruct Hc as (_ & _ & Hg). destruct (SentState op).
  - pose proof (after_command_needs op facts) as Hn.
    pose proof (after_command_no_request op facts) as Hr.
    destruct (Action _); try done; destruct_and? Hn; try tauto.
  - now destruct (before_command_actions op facts) as [[-> _]|[[-> _]|[-> _]]].
Qed.

Lemma valid_set_state op s :
  valid op -> s <> StateNone -> sent_state s = SentState op -> valid (set_state op s).
Proof. intros [] Hne Hs. constructor; simpl; auto. unfold SentState at 1. simpl. congruence. Qed.

Lemma valid_command op intent :
  valid op -> valid (set_command (set_state op CommandSentState) true intent).
Proof. intros []. constructor; simpl; auto; discriminate. Qed.

Lemma sent_not_none s : sent_state s = true -> s <> StateNone.
Proof. now intros Hs ->. Qed.

(** C34: the record the pass writes after a decision is valid again: whatever
    state the kernel answers with, a command that left is never forgotten, and
    an unsent record only leaves its state by recording the command. *)
Theorem decision_keeps_valid (op : elasticOperation) (facts : elasticFacts) (intent : string) :
  valid op ->
  let d := decideElasticOperation op facts in
  (Action d <> RequestScale -> valid (set_state op (DState d))) /\
  (Action d = RequestScale ->
     DState d = CommandSentState /\ valid (set_command (set_state op (DState d)) true intent)).
Proof.
  intros V. simpl. destruct (decide_state op facts) as [H1 H2]. split.
  - intros Hr. destruct (SentState op) eqn:Hs.
    + apply valid_set_state; auto using sent_not_none. rewrite Hs. auto.
    + rewrite (H2 eq_refl Hr). apply valid_set_state; auto; apply V.
  - intros Hr. destruct (current_dec op facts) as [Hc|Hc];
      [|destruct (decide_stale _ _ Hc) as [E _]; congruence].
    rewrite decide_current in * by done. destruct (SentState op);
      [now apply after_command_no_request in Hr|].
    destruct (before_command_actions op facts) as [[? _]|[[? _]|[_ ->]]]; [congruence..|].
    split; [done|]. now apply valid_command.
Qed.

Lemma decision_keeps_valid_witness :
  let op := Example.recorded in
  let facts := {| FDeploymentUID := "md-1"; FGeneration := 7; Desired := knownLayer 2;
    AdmittedWidth := knownLayer 4; Ray := knownLayer 4; Effective := knownLayer 4;
    AdmittedAllocation := knownLayer 4; WithdrawalConfirmed := true; NativeComplete := false;
    ScalingKnown := false; Scaling := false; ForwardProven := true; ActorFree := ∅;
    ActorMappingKnown := true; ReleaseObserved := false |} in
  let d := decideElasticOperation op facts in
  (Action d <> RequestScale -> valid (set_state op (DState d))) /\
  (Action d = RequestScale ->
     DState d = CommandSentState /\ valid (set_command (set_state op (DState d)) true "scale to 2")).
Proof.
  intros op facts. apply (decision_keeps_valid op facts "scale to 2").
  apply validate_spec. vm_compute. reflexivity.
Defined.

(** ** Retries *)

(** The loop of [elasticScaleRetryDue] that doubles the wait; [i] counts
    down. *)
Fixpoint retry_wait (i : nat) (wait : Z) : Z :=
  match i with
  | O => wait
  | S i => if wait <? elasticScaleRetryCap then retry_wait i (wait * 2) else wait
  end.

(** How long the next attempt still owes, in nanoseconds. *)
Definition elasticScaleRetryDue (op : elasticOperation) (now : Z) : Z :=
  match ScaleLastFailedAt op with
  | None => 0
  | Some failedAt =>
      let i := Z.max (i64 (ScaleAttempts op + ScaleAmbiguousAttempts op)) 1 in
      let wait := retry_wait (Z.to_nat (i - 1)) elasticScaleRetryBase in
      let wait := Z.min wait elasticScaleRetryCap in
      let due := failedAt + wait in
      if now <? due then due - now else 0
  end.

Lemma retry_wait_capped n w :
  0 < w -> Z.min (retry_wait n w) elasticScaleRetryCap = Z.min (w * 2 ^ Z.of_nat n) elasticScaleRetryCap.
Proof.
  revert w. induction n as [|n IH]; intros w Hw; cbn [retry_wait]; [now rewrite Z.mul_1_r|].
  replace (2 ^ Z.of_nat (S n)) with (2 * 2 ^ Z.of_nat n)
    by (rewrite Nat2Z.inj_succ, Z.pow_succ_r by lia; lia).
  assert (0 < 2 ^ Z.of_nat n) by (apply Z.pow_pos_nonneg; lia).
  destruct (Z.ltb_spec w elasticScaleRetryCap) as [Hlt|Hge].
  - rewrite IH by lia. f_equal. lia.
  - rewrite !Z.min_r; nia.
Qed.

(** The backoff is the schedule the record's contract states: after [n]
    refusals and unanswered attempts (at least one) the next attempt waits
    min(15s * 2^(n-1), 4m) from the last failure, and no longer than that. *)
Theorem retry_due_schedule (op : elasticOperation) (failedAt now : Z) :
  ScaleLastFailedAt op = Some failedAt ->
  is_i64 (ScaleAttempts op + ScaleAmbiguousAttempts op) ->
  elasticScaleRetryDue op now =
  Z.max 0 (failedAt + Z.min (elasticScaleRetryBase
                             * 2 ^ (Z.max (ScaleAttempts op + ScaleAmbiguousAttempts op) 1 - 1))
                            elasticScaleRetryCap - now).
Proof.
  intros Hf Hr. unfold elasticScaleRetryDue. rewrite Hf, i64_small by done. cbv zeta.
  rewrite retry_wait_capped by (unfold elasticScaleRetryBase, second; lia).
  rewrite Z2Nat.id by lia. zcase; lia.
Qed.

Lemma retry_due_schedule_witness :
  elasticScaleRetryDue (set_scale Example.commanded 3 "busy" (Some 1000) 1) 2000 =
  Z.max 0 (1000 + Z.min (elasticScaleRetryBase * 2 ^ (Z.max (3 + 1) 1 - 1)) elasticScaleRetryCap
           - 2000).
Proof.
  apply (retry_due_schedule (set_scale Example.commanded 3 "busy" (Some 1000) 1) 1000 2000).
  - reflexivity.
  - vm_compute. split; [discriminate|reflexivity].
Defined.
