(* ===== verification/ElasticPass.v ===== *)
(** * The elastic resize pass

    [reconcileModelDeploymentElasticResize] of
    src/pkg/worker/controllers/worker/model_deployment_elastic_reconcile.go: one
    pass reads the live members and the durable record, proves the native
    width, decides through the kernel ([ElasticKernel]) and acts.  The record
    and the observation document live in the API server of [ElasticRecord]; what
    the pass reads from anywhere else (Pods, the engine, Ray, the clock) is an
    answer of [env], one per point of the pass that asks; what it does to
    anything else is an event, logged with the API server's state at that
    moment.  The theorems say what the state must be for a scale command or a
    deletion to leave. *)

From stdpp Require Import prelude gmap strings list pretty sorting.
From S2P Require Import Prelude ElasticRecord ElasticKernel.

(** ** Kubernetes objects the pass reads *)

Record ContainerStatus := {
  CName : string; ContainerID : string; Running : bool; CRest : string }.
#[export] Instance ContainerStatus_eq_dec : EqDecision ContainerStatus.
Proof. solve_decision. Defined.

#[export] Instance OwnerReference_eq_dec : EqDecision OwnerReference.
Proof. solve_decision. Defined.

(** A nil map is [None]; the parts of the object the pass only compares as a
    whole are one opaque value. *)
Record Pod := {
  PName : string; PNamespace : string; PUID : string; PResourceVersion : string;
  PLabels : option (gmap string string);
  PAnnotations : option (gmap string string);
  POwnerReferences : list OwnerReference;
  PDeleting : bool;
  PodIP : string;
  PContainerStatuses : list ContainerStatus;
  PSpec : string }.

Definition entry (m : option (gmap string string)) (k : string) : string :=
  match m with Some m => default "" (m !! k) | None => "" end.

Record ModelDeploymentRole := { RName : string; ElasticEP : option Z }.

Record ModelDeployment := {
  MName : string; MNamespace : string; MUID : string; MGeneration : Z;
  MDeleting : bool;
  MRoles : list ModelDeploymentRole;
  (** The status, reason and message of its ElasticResize condition. *)
  MCondition : option (string * string * string) }.

Record KueueWorkload := {
  WlName : string; WlUID : string; WlResourceVersion : string; WlDeleting : bool;
  WlOwnerReferences : list OwnerReference }.

Definition modelDeploymentLabelKeyComponent : string := "app.kubernetes.io/component".
Definition modelDeploymentReplicaOrdinalLabel : string := "modeldeployment.gpustack.ai/pod-ordinal".
Definition modelDeploymentLabelKeyEndpointEligible : string :=
  "modeldeployment.gpustack.ai/endpoint-eligible".
Definition modelDeploymentElasticWithdrawnAnnotation : string :=
  "modeldeployment.gpustack.ai/elastic-withdrawn".
Definition AllocatedAcceleratorAnnoKey : string := "device.gpustack.ai/accelerator.allocated".
Definition modelDeploymentMainContainerName : string := "main".
Definition WidthMin : Z := 2.
Definition WidthMax : Z := 64.

Definition modelDeploymentPodRole (pod : Pod) : string :=
  entry (PLabels pod) modelDeploymentLabelKeyComponent.

Definition modelDeploymentPodOrdinal (pod : Pod) : option Z :=
  match parse_int 64 (entry (PLabels pod) modelDeploymentReplicaOrdinalLabel) with
  | Some ordinal => if ordinal <? 0 then None else Some ordinal
  | None => None
  end.

Definition modelDeploymentElasticHeadName (md : ModelDeployment) : string :=
  MName md +:+ "-elastic-head".

(** The elastic role and its width; nil when the deployment has none. *)
Fixpoint elastic_role (roles : list ModelDeploymentRole) : option (string * Z) :=
  match roles with
  | [] => None
  | role :: roles =>
      match ElasticEP role with
      | Some width => Some (RName role, width)
      | None => elastic_role roles
      end
  end.

Definition ModelDeploymentElasticRole (md : ModelDeployment) : option (string * Z) :=
  elastic_role (MRoles md).

Definition ModelDeploymentElasticBootstrapFromMaster (masterUID raw : string)
    (md : ModelDeployment) : option Z :=
  let width :=
    if negb (str_empty masterUID) then parse_int 32 raw
    else match ModelDeploymentElasticRole md with
         | Some (_, w) => Some w
         | None => Some 0
         end in
  match width with
  | None => None
  | Some width => if (width <? WidthMin) || (WidthMax <? width) then None else Some width
  end.

Definition elasticOwnedBy `{RecordCodec} (md : ModelDeployment) (pod : Pod) : bool :=
  match getControllerOf (POwnerReferences pod) with
  | None => false
  | Some owner =>
      bool_decide (Kind owner = "ModelDeployment") && bool_decide (APIVersion owner = groupVersion)
      && bool_decide (OwnerName owner = MName md) && bool_decide (OwnerUID owner = MUID md)
      && negb (str_empty (PUID pod))
  end.

(** ** What the pass observes *)

Record modelDeploymentElasticStatus := {
  SDeploymentUID : string; SObservedGeneration : Z;
  SDesired : elasticLayer; SAdmitted : elasticLayer; SAllocated : elasticLayer;
  SRay : elasticLayer; SEffective : elasticLayer;
  SState : elasticOperationState; SReason : string;
  SStableWidth : Z; SMasterUID : string }.

Record modelDeploymentElasticObservation := {
  WidthKnown : bool; RayWidth : Z;
  RankToPodUID : gmap Z string;
  RegisteredGPUKnown : bool; RegisteredGPU : Z; RegisteredGPUUnknownReason : string;
  ActorsComplete : bool;
  ObsActorFree : gmap string bool }.

Definition no_observation : modelDeploymentElasticObservation :=
  {| WidthKnown := false; RayWidth := 0; RankToPodUID := ∅; RegisteredGPUKnown := false;
     RegisteredGPU := 0; RegisteredGPUUnknownReason := ""; ActorsComplete := false;
     ObsActorFree := ∅ |}.

(** One forward of the native world: the rank it answered for, and whether it
    was served. *)
Record NativeWorld := { ObservedWidth : Z; Forwards : list (Z * bool) }.

Inductive memberRole := RoleWorker | RoleHead | RoleMaster.
#[export] Instance memberRole_eq_dec : EqDecision memberRole.
Proof. solve_decision. Defined.

Record capturedMember := { CmbUID : string; CmbName : string; CmbRole : memberRole }.

(** Reading the deployment and listing its Pods again. *)
Record members_read := {
  mr_deployment : string + ModelDeployment;
  mr_pods : string + list Pod }.

(** The reads of one proof of a width: two Ray observations, each with its
    error, around the native forwards, and the members after them. *)
Record probe := {
  pr_first : modelDeploymentElasticObservation * option string;
  pr_native : string + NativeWorld;
  pr_second : modelDeploymentElasticObservation * option string;
  pr_after : members_read }.

Inductive pod_answer := PodNotFound | PodError (msg : string) | PodFound (pod : Pod).

Inductive engine_kind :=
  | KindInvalidInput | KindReconfiguring | KindNativeFailure | KindAmbiguous | KindMalformed.
#[export] Instance engine_kind_eq_dec : EqDecision engine_kind.
Proof. solve_decision. Defined.

(** An error of [Scale]; [kind] is absent when it is not an engine error. *)
Record scale_error := { ScaleKind : option engine_kind; ScaleText : string }.

Definition elasticScaleAnswerIsRefusal (err : scale_error) : bool :=
  match ScaleKind err with
  | None => false
  | Some k => negb (bool_decide (k = KindAmbiguous)) && negb (bool_decide (k = KindMalformed))
  end.

(** What [elasticDeleteCaptured] reads, and how its deletions are answered. *)
Record delete_env := {
  de_deployment : string + ModelDeployment;
  de_pod : string -> pod_answer;
  de_delete_pod : string -> option string;
  de_workloads : string + list KueueWorkload;
  de_delete_workload : string -> option string }.

(** What [elasticSetWithdrawn] reads, and how its writes are answered. *)
Record withdraw_env := {
  we_fresh : string + Pod;
  we_update : option string;
  we_members : members_read;
  we_service : option string;
  we_router : option string }.

(** Every other answer a pass receives, by the point that asks. *)
Record env := {
  HasAPIReader : bool;
  ErrorText : store_error -> string;
  Members0 : members_read;
  Allocation : elasticLayer * elasticLayer;
  NativeClient : option string;
  HasObserver : bool;
  ProbeDrift : Z -> probe;
  Probe0 : Z -> probe;
  Reprobe : Z -> probe;
  CaptureRelease : list Pod -> string + retirementRelease;
  CreateClock : Z;
  IsScaling : string + bool;
  IsScalingExit : string + bool;
  Withdraw : withdraw_env;
  Residual : string * bool;
  Disaggregated : bool * string;
  DrainAnswer : string + (bool * string * string);
  DeleteResumed : delete_env;
  DeleteReleased : delete_env;
  TargetsAbsent : string * bool;
  WorkloadsGone : string * bool;
  AcceleratorsReturned : string * bool;
  MembersAgain : members_read;
  Scale : Z -> option scale_error;
  ClockBefore : Z;
  ClockAfter : Z;
  Restore : withdraw_env;
  PersistDeployment : string + ModelDeployment;
  PatchCondition : option string }.

(** ** Pure checks *)

(** The members of a read that succeeded: owned Pods of the elastic role or its
    head, by name.  The error is [inl None] when the deployment itself
    changed. *)
Definition pod_le (a b : Pod) : Prop := String.leb (PName a) (PName b) = true.
#[export] Instance pod_le_dec : RelDecision pod_le.
Proof. intros a b. exact (bool_eq_dec _ _). Defined.

Definition elasticLiveMembers `{RecordCodec} (has_reader : bool) (md : ModelDeployment)
    (r : members_read) : option string + list Pod :=
  if negb has_reader then inl (Some "elastic observations require an uncached API reader")
  else
    match mr_deployment r with
    | inl e => inl (Some e)
    | inr live =>
        if str_neq (MUID live) (MUID md) || negb (MGeneration live =? MGeneration md) || MDeleting live
        then inl None
        else
          match mr_pods r with
          | inl e => inl (Some e)
          | inr items =>
              let roleName := match ModelDeploymentElasticRole md with
                              | Some (n, _) => n | None => "" end in
              inr (merge_sort pod_le
                     (filter (fun pod => elasticOwnedBy md pod
                        && (bool_decide (modelDeploymentPodRole pod = roleName)
                            || bool_decide (modelDeploymentPodRole pod
                                            = modelDeploymentElasticHeadName md)) = true) items))
          end
    end.

(** The engine container is running and has an identity. *)
Definition member_running (pod : Pod) : bool :=
  existsb (fun c => bool_decide (CName c = modelDeploymentMainContainerName)
                    && negb (str_empty (ContainerID c)) && Running c) (PContainerStatuses pod).

(** The loop of [elasticRuntimeMembers]: what it captured, the master and the
    number of heads, or the master it returns with its error. *)
Fixpoint runtime_members (md : ModelDeployment) (roleName : string) (pods : list Pod)
    (captured : list capturedMember) (master : option Pod) (heads : Z)
    : (option Pod * string) + (list capturedMember * option Pod * Z) :=
  match pods with
  | [] => inr (captured, master, heads)
  | pod :: pods =>
      let continue memberRole master heads :=
        if negb (member_running pod)
        then inl (master, "member " +:+ PName pod +:+ " has no running engine identity")
        else runtime_members md roleName pods
               (captured ++ [{| CmbUID := PUID pod; CmbName := PName pod; CmbRole := memberRole |}])
               master heads in
      if bool_decide (modelDeploymentPodRole pod = modelDeploymentElasticHeadName md)
      then continue RoleHead master (heads + 1)
      else
        match modelDeploymentPodOrdinal pod with
        | None => inl (None, "GPU member has no ordinal")
        | Some ordinal =>
            if (ordinal =? 0) && bool_decide (is_Some master)
            then inl (None, "multiple reserved masters")
            else
              let '(memberRole, master) :=
                if ordinal =? 0 then (RoleMaster, Some pod) else (RoleWorker, master) in
              if str_neq (modelDeploymentPodRole pod) roleName then inl (None, "foreign role")
              else continue memberRole master heads
        end
  end.

Definition elasticRuntimeMembers (md : ModelDeployment) (pods : list Pod)
    : (option Pod * string) + (list capturedMember * Pod) :=
  let roleName := match ModelDeploymentElasticRole md with Some (n, _) => n | None => "" end in
  match runtime_members md roleName pods [] None 0 with
  | inl e => inl e
  | inr (captured, master, heads) =>
      match master with
      | Some m => if negb (heads =? 1) || str_empty (PodIP m)
                  then inl (master, "reserved master or CPU head is not ready for observation")
                  else inr (captured, m)
      | None => inl (None, "reserved master or CPU head is not ready for observation")
      end
  end.

Definition same_member (a b : Pod) : bool :=
  bool_decide (PName a = PName b) && bool_decide (PUID a = PUID b)
  && bool_decide (PodIP a = PodIP b) && negb (PDeleting a) && negb (PDeleting b)
  && bool_decide (POwnerReferences a = POwnerReferences b)
  && bool_decide (PContainerStatuses a = PContainerStatuses b)
  && bool_decide (PSpec a = PSpec b)
  && bool_decide (entry (PAnnotations a) AllocatedAcceleratorAnnoKey
                  = entry (PAnnotations b) AllocatedAcceleratorAnnoKey).

Fixpoint elasticSameRuntime (before after : list Pod) : bool :=
  match before, after with
  | [], [] => true
  | a :: before, b :: after => same_member a b && elasticSameRuntime before after
  | _, _ => false
  end.

(** The ranks from [rank] on, [n] of them, each with a Pod not [seen] yet. *)
Fixpoint ranks_distinct (ranks : gmap Z string) (n : nat) (rank : Z) (seen : list string) : bool :=
  match n with
  | O => true
  | S n =>
      let uid := default "" (ranks !! rank) in
      if str_empty uid || bool_decide (uid ∈ seen) then false
      else ranks_distinct ranks n (rank + 1) (uid :: seen)
  end.

Definition elasticRankMapComplete (obs : modelDeploymentElasticObservation) (width : Z)
    (master : string) : bool :=
  if negb (WidthKnown obs) || negb (RayWidth obs =? width)
     || negb (Z.of_nat (size (RankToPodUID obs)) =? width)
     || str_neq (default "" (RankToPodUID obs !! 0)) master
  then false
  else ranks_distinct (RankToPodUID obs) (Z.to_nat width) 0 [].

(** Forward [rank], [rank + 1], ... answered for its own rank and was
    served. *)
Fixpoint forwards_served (rank : Z) (forwards : list (Z * bool)) : bool :=
  match forwards with
  | [] => true
  | (r, served) :: forwards => (r =? rank) && served && forwards_served (rank + 1) forwards
  end.

Definition elasticEffective `{RecordCodec} (has_reader has_observer : bool)
    (md : ModelDeployment) (pods : list Pod) (master : Pod) (p : Z -> probe) (width : Z)
    : elasticLayer * modelDeploymentElasticObservation * bool :=
  if negb has_observer then (unknownLayer "Ray reader is unavailable", no_observation, false)
  else
    let p := p width in
    let first := fst (pr_first p) in
    let second := fst (pr_second p) in
    match snd (pr_first p) with
    | Some _ => (unknownLayer "native rank identities are unknown", first, false)
    | None =>
        if negb (elasticRankMapComplete first width (PUID master))
        then (unknownLayer "native rank identities are unknown", first, false)
        else
          match pr_native p with
          | inl failure => (unknownLayer failure, first, false)
          | inr native =>
              match snd (pr_second p), elasticLiveMembers has_reader md (pr_after p) with
              | None, inr after =>
                  if negb (elasticSameRuntime pods after)
                     || negb (elasticRankMapComplete second width (PUID master))
                     || negb (bool_decide (RankToPodUID first = RankToPodUID second))
                  then (unknownLayer "runtime identities moved across native forwards", second, false)
                  else if negb (ObservedWidth native =? width)
                          || negb (Z.of_nat (length (Forwards native)) =? width)
                          || negb (forwards_served 0 (Forwards native))
                  then (unknownLayer "native forward proof is incomplete", second, false)
                  else (knownLayer width, second, true)
              | _, _ => (unknownLayer "runtime identities moved across native forwards", second, false)
              end
          end
    end.

Definition ray_layer (ray : modelDeploymentElasticObservation) : elasticLayer :=
  if RegisteredGPUKnown ray then knownLayer (RegisteredGPU ray)
  else unknownLayer (RegisteredGPUUnknownReason ray).

(** The UID the last Pod of a name bears; the empty UID when there is none. *)
Definition byName (pods : list Pod) (name : string) : string :=
  foldl (fun uid pod => if bool_decide (PName pod = name) then PUID pod else uid) "" pods.

Definition elasticOperationMemberSurvives (op : elasticOperation) (pods : list Pod) : bool :=
  existsb (fun member => negb (str_empty (IdUID member))
                         && bool_decide (byName pods (IdName member) = IdUID member))
    (Members op ++ [Master op; Head op]).

Definition elasticOperationMembersMatch (op : elasticOperation) (pods : list Pod) : bool :=
  forallb (fun member =>
      negb (str_empty (IdUID member))
      && (bool_decide (byName pods (IdName member) = IdUID member)
          || (bool_decide (State op = Released)
              && existsb (fun worker => bool_decide (worker = member)
                                        && str_empty (byName pods (IdName member))) (Workers op))))
    (Members op ++ [Master op; Head op]).

(** ** Effects *)

(** What a pass does outside its record: each event is logged when the call is
    made ([Stored], [RecordDeleted] and [Observed]: when it succeeded). *)
Inductive event :=
  | Scaled (target : Z)
  | Stored (op : elasticOperation)
  | RecordDeleted (op : elasticOperation)
  | Observed (status : modelDeploymentElasticStatus)
  | PodUpdated (pod : Pod)
  | ServiceSynced
  | RouterSynced
  | PodDeleted (pod : Pod) (uid rv : string)
  | WorkloadDeleted (wl : KueueWorkload) (uid rv : string)
  | ConditionPatched (status reason message : string).

Class StatusCodec := {
  status_marshal : modelDeploymentElasticStatus -> option string;
  status_unmarshal : string -> string + modelDeploymentElasticStatus }.

(** A pass ends by returning an error or nil, or by a nil dereference. *)
Inductive verdict := Returned (err : option string) | Panicked.

(** State passing with early return. *)
Definition pass (W A : Type) : Type :=
  W -> list (W * event) -> (verdict + A) * (W * list (W * event)).

Definition pret {W A} (a : A) : pass W A := fun w l => (inr a, (w, l)).
Definition pbind {W A B} (m : pass W A) (k : A -> pass W B) : pass W B :=
  fun w l => match m w l with
             | (inl v, s) => (inl v, s)
             | (inr a, (w', l')) => k a w' l'
             end.
Definition leave {W A} (v : verdict) : pass W A := fun w l => (inl v, (w, l)).
Definition emit {W} (e : event) : pass W unit := fun w l => (inr tt, (w, l ++ [(w, e)])).

Declare Scope pass_scope.
Delimit Scope pass_scope with pass.
Notation "'let!' x := m 'in' k" := (pbind m (fun x => k))
  (at level 10, x pattern, m at level 200, k at level 200, right associativity) : pass_scope.
Notation "m ';!' k" := (pbind m (fun _ => k))
  (at level 199, right associativity) : pass_scope.
#[local] Open Scope pass_scope.

(** [if err := m; err != nil { return err }]. *)
Definition orReturn {W} (m : pass W (option string)) : pass W unit :=
  let! r := m in
  match r with None => pret tt | Some e => leave (Returned (Some e)) end.

(** [return m()]. *)
Definition returning {W A} (m : pass W (option string)) : pass W A :=
  let! r := m in leave (Returned r).

Section pass.
Context {W : Type} `{ConfigMapApi W} `{RecordCodec} `{StatusCodec}.
Context (e : env) (md : ModelDeployment).

(** *** The record through the store *)

Definition store_read : pass W (store_error + elasticOperation) :=
  fun w l => (inr (Read true w (MNamespace md) (MName md) (MUID md)), (w, l)).

(** A successful write logs the record it left and hands it on. *)
Definition store_write (f : W -> W * (store_error + elasticOperation)) : pass W elasticOperation :=
  fun w l => match f w with
             | (w', inl err) => (inl (Returned (Some (ErrorText e err))), (w', l))
             | (w', inr op') => (inr op', (w', l ++ [(w', Stored op')]))
             end.

Definition store_create (op : elasticOperation) : pass W elasticOperation :=
  store_write (fun w => Create true (Some (CreateClock e)) w op).
Definition store_update (op : elasticOperation) : pass W elasticOperation :=
  store_write (fun w => Update true w op).
Definition store_recover (current recovered : elasticOperation) : pass W elasticOperation :=
  store_write (fun w => RecoverInterrupted true w current recovered).

Definition store_delete (op : elasticOperation) : pass W unit :=
  fun w l => match Delete true w (Some op) with
             | (w', Some err) => (inl (Returned (Some (ErrorText e err))), (w', l))
             | (w', None) => (inr tt, (w', l ++ [(w', RecordDeleted op)]))
             end.

(** *** The observation document *)

Definition modelDeploymentElasticObservationName : string :=
  "elastic-observation-" +:+ MUID md.

Definition elasticObservationDocument (w : W) : string + option ConfigMap :=
  match api_get w (MNamespace md) modelDeploymentElasticObservationName with
  | inl ErrNotFound => inr None
  | inl err => inl (ErrorText e err)
  | inr cm =>
      match elasticControllingOwnerIs cm (MName md) (MUID md) with
      | Some err => inl (ErrorText e err)
      | None => inr (Some cm)
      end
  end.

Definition set_stable_width (s : modelDeploymentElasticStatus) (width : Z)
    : modelDeploymentElasticStatus :=
  {| SDeploymentUID := SDeploymentUID s; SObservedGeneration := SObservedGeneration s;
     SDesired := SDesired s; SAdmitted := SAdmitted s; SAllocated := SAllocated s;
     SRay := SRay s; SEffective := SEffective s; SState := SState s; SReason := SReason s;
     SStableWidth := width; SMasterUID := SMasterUID s |}.

Definition observation_data (body : string) : gmap string string := {[ "observation.json" := body ]}.

(** The write of the document: an unchanged one writes nothing. *)
Definition write_observation (w : W) (cm : option ConfigMap) (body : string)
    : W * option string :=
  match cm with
  | None =>
      match api_create w
        {| CmNamespace := MNamespace md; CmName := modelDeploymentElasticObservationName;
           CmUID := ""; CmResourceVersion := "";
           CmLabels := {[ "gpustack.ai/elastic-observation" := "true" ]};
           CmOwnerReferences :=
             [ {| APIVersion := groupVersion; Kind := "ModelDeployment"; OwnerName := MName md;
                  OwnerUID := MUID md; Controller := elasticControllerRef |} ];
           CmCreationTimestamp := None; CmData := observation_data body |} with
      | (w', inl err) => (w', Some (ErrorText e err))
      | (w', inr _) => (w', None)
      end
  | Some cm =>
      if bool_decide (default "" (CmData cm !! "observation.json") = body) then (w, None)
      else
        match api_update w
          {| CmNamespace := CmNamespace cm; CmName := CmName cm; CmUID := CmUID cm;
             CmResourceVersion := CmResourceVersion cm; CmLabels := CmLabels cm;
             CmOwnerReferences := CmOwnerReferences cm;
             CmCreationTimestamp := CmCreationTimestamp cm;
             CmData := observation_data body |} with
        | (w', inl err) => (w', Some (ErrorText e err))
        | (w', inr _) => (w', None)
        end
  end.

(** The width the document keeps: one never written is carried over from the
    same master's prior document. *)
Definition carried_status (status : modelDeploymentElasticStatus) (cm : option ConfigMap)
    : string + modelDeploymentElasticStatus :=
  match cm with
  | None => inr status
  | Some cm =>
      match status_unmarshal (default "" (CmData cm !! "observation.json")) with
      | inl err => inl err
      | inr prior =>
          inr (if (SStableWidth status =? 0) && bool_decide (SMasterUID prior = SMasterUID status)
               then set_stable_width status (SStableWidth prior) else status)
      end
  end.

Definition persistElasticObservation (status : modelDeploymentElasticStatus)
    : pass W (option string) :=
  fun w l =>
    match PersistDeployment e with
    | inl err => (inr (Some err), (w, l))
    | inr live =>
        if str_neq (MUID live) (MUID md) || negb (MGeneration live =? MGeneration md) || MDeleting live
        then (inr (Some "deployment changed before observation persistence"), (w, l))
        else
          match elasticObservationDocument w with
          | inl err => (inr (Some err), (w, l))
          | inr cm =>
              match carried_status status cm with
              | inl err => (inr (Some err), (w, l))
              | inr status =>
                  match status_marshal status with
                  | None => (inr (Some "encode the observation"), (w, l))
                  | Some body =>
                      match write_observation w cm body with
                      | (w', Some err) => (inr (Some err), (w', l))
                      | (w', None) => (inr None, (w', l ++ [(w', Observed status)]))
                      end
                  end
              end
          end
    end.

(** *** The condition *)

Definition writeElasticResizeCondition (status reason message : string) : pass W (option string) :=
  if bool_decide (MCondition md = Some (status, reason, message)) then pret None
  else emit (ConditionPatched status reason message) ;! pret (PatchCondition e).

Definition recordElasticResizeCondition (op : option elasticOperation) : pass W (option string) :=
  match op with
  | Some o =>
      if bool_decide (State o = Abandoned)
      then writeElasticResizeCondition "False" "ScaleRefused" (elasticScaleRefusalMessage o)
      else writeElasticResizeCondition "True" "NoRefusal" "no elastic scale command stands refused"
  | None => writeElasticResizeCondition "True" "NoRefusal" "no elastic scale command stands refused"
  end.

(** *** Withdrawing the master from its endpoints *)

Definition set_marks (pod : Pod) (labels annotations : option (gmap string string)) : Pod :=
  {| PName := PName pod; PNamespace := PNamespace pod; PUID := PUID pod;
     PResourceVersion := PResourceVersion pod; PLabels := labels; PAnnotations := annotations;
     POwnerReferences := POwnerReferences pod; PDeleting := PDeleting pod; PodIP := PodIP pod;
     PContainerStatuses := PContainerStatuses pod; PSpec := PSpec pod |}.

Definition marked (fresh : Pod) (withdraw : bool) : Pod :=
  let annotations := default ∅ (PAnnotations fresh) in
  if withdraw
  then set_marks fresh (delete modelDeploymentLabelKeyEndpointEligible <$> PLabels fresh)
         (Some (<[modelDeploymentElasticWithdrawnAnnotation := "true"]> annotations))
  else set_marks fresh (PLabels fresh)
         (Some (delete modelDeploymentElasticWithdrawnAnnotation annotations)).

Definition elasticSetWithdrawn (we : withdraw_env) (master : Pod) (withdraw : bool)
    : pass W (option string) :=
  match we_fresh we with
  | inl err => pret (Some err)
  | inr fresh =>
      if str_neq (PUID fresh) (PUID master) || negb (elasticOwnedBy md fresh)
      then pret (Some "master changed before endpoint update")
      else
        let fresh := marked fresh withdraw in
        let! failed :=
          (if bool_decide (PAnnotations fresh = PAnnotations master)
              && bool_decide (PLabels fresh = PLabels master)
           then pret None
           else emit (PodUpdated fresh) ;! pret (we_update we)) in
        match failed with
        | Some err => pret (Some err)
        | None =>
            if withdraw then
              match elasticLiveMembers (HasAPIReader e) md (we_members we) with
              | inl err => pret (Some (default "deployment identity or generation changed" err))
              | inr _ =>
                  emit ServiceSynced ;!
                  match we_service we with
                  | Some err => pret (Some err)
                  | None => emit RouterSynced ;! pret (we_router we)
                  end
              end
            else pret None
        end
  end.

Definition elasticWithdrawal (master : Pod) : pass W (bool * string) :=
  let! failed := elasticSetWithdrawn (Withdraw e) master true in
  match failed with
  | Some err => pret (false, err)
  | None =>
      let (reason, held) := Residual e in
      if held then pret (false, reason)
      else
        let (disaggregated, reason) := Disaggregated e in
        if negb (str_empty reason) then pret (false, reason)
        else if disaggregated
        then pret (false, "the member runs a disaggregated shape, which has no verifiable decoder-side release in elastic mode")
        else
          match DrainAnswer e with
          | inl err => pret (false, err)
          | inr (complete, state, reason) =>
              pret (complete && bool_decide (state = "Idle"), reason)
          end
  end.

(** *** Deleting what a record retired *)

Definition lineage_missing (op : elasticOperation) : bool :=
  match Release op with
  | None => true
  | Some release =>
      str_neq (ModelDeploymentUID release) (DeploymentUID op)
      || negb (ObservedGeneration release =? Generation op)
      || bool_decide (Workers op = [])
  end.

(** The captured claim of a worker is the one its Pod still carries. *)
Definition claim_matched (release : retirementRelease) (worker : elasticCapturedIdentity) (pod : Pod)
    : bool :=
  existsb (fun member => bool_decide (PodUID member = IdUID worker)
                         && bool_decide (MemberName member = IdName worker)
                         && bool_decide (Claim member = entry (PAnnotations pod) AllocatedAcceleratorAnnoKey))
    (ReleaseMembers release).

Fixpoint delete_workers (de : delete_env) (op : elasticOperation) (release : retirementRelease)
    (ray : modelDeploymentElasticObservation) (workers : list elasticCapturedIdentity)
    : pass W (option string) :=
  match workers with
  | [] => pret None
  | worker :: workers =>
      match de_pod de (IdName worker) with
      | PodNotFound => delete_workers de op release ray workers
      | PodError err => pret (Some err)
      | PodFound pod =>
          if negb (default false (ObsActorFree ray !! IdUID worker))
          then pret (Some "captured worker has no current actor-free proof")
          else if str_neq (PUID pod) (IdUID worker) || negb (elasticOwnedBy md pod)
                  || bool_decide (PUID pod = IdUID (Master op))
          then pret (Some "captured worker identity changed")
          else if negb (claim_matched release worker pod)
          then pret (Some "captured allocation changed before retirement")
          else if PDeleting pod then delete_workers de op release ray workers
          else
            emit (PodDeleted pod (IdUID worker) (PResourceVersion pod)) ;!
            match de_delete_pod de (IdName worker) with
            | Some err => pret (Some err)
            | None => delete_workers de op release ray workers
            end
      end
  end.

Definition owned_by_worker (op : elasticOperation) (wl : KueueWorkload) : bool :=
  existsb (fun owner => existsb (fun worker =>
      bool_decide (OwnerUID owner = IdUID worker) && bool_decide (OwnerName owner = IdName worker)
      && bool_decide (Kind owner = "Pod") && bool_decide (APIVersion owner = "v1")) (Workers op))
    (WlOwnerReferences wl).

Fixpoint delete_workloads (de : delete_env) (op : elasticOperation) (release : retirementRelease)
    (workloads : list KueueWorkload) : pass W (option string) :=
  match workloads with
  | [] => pret None
  | wl :: workloads =>
      if negb (bool_decide (WlUID wl ∈ WorkloadUIDs release))
      then delete_workloads de op release workloads
      else if negb (owned_by_worker op wl) then pret (Some "captured Workload owner changed")
      else if WlDeleting wl then delete_workloads de op release workloads
      else
        emit (WorkloadDeleted wl (WlUID wl) (WlResourceVersion wl)) ;!
        match de_delete_workload de (WlName wl) with
        | Some err => pret (Some err)
        | None => delete_workloads de op release workloads
        end
  end.

Definition elasticDeleteCaptured (de : delete_env) (op : elasticOperation)
    (ray : modelDeploymentElasticObservation) : pass W (option string) :=
  match Release op with
  | None => pret (Some "captured allocation lineage is missing")
  | Some release =>
      if lineage_missing op then pret (Some "captured allocation lineage is missing")
      else
        match de_deployment de with
        | inl err => pret (Some err)
        | inr fresh =>
            if str_neq (MUID fresh) (DeploymentUID op) || negb (MGeneration fresh =? Generation op)
            then pret (Some "deployment changed before retirement")
            else
              let! failed := delete_workers de op release ray (Workers op) in
              match failed with
              | Some err => pret (Some err)
              | None =>
                  match de_workloads de with
                  | inl err => pret (Some err)
                  | inr items => delete_workloads de op release items
                  end
              end
        end
  end.

(** *** Finishing a pass *)

Definition set_proof (s : modelDeploymentElasticStatus) (effective ray : elasticLayer)
    : modelDeploymentElasticStatus :=
  {| SDeploymentUID := SDeploymentUID s; SObservedGeneration := SObservedGeneration s;
     SDesired := SDesired s; SAdmitted := SAdmitted s; SAllocated := SAllocated s;
     SRay := ray; SEffective := effective; SState := SState s; SReason := SReason s;
     SStableWidth := SStableWidth s; SMasterUID := SMasterUID s |}.

Definition set_verdict (s : modelDeploymentElasticStatus) (state : elasticOperationState)
    (reason : string) : modelDeploymentElasticStatus :=
  {| SDeploymentUID := SDeploymentUID s; SObservedGeneration := SObservedGeneration s;
     SDesired := SDesired s; SAdmitted := SAdmitted s; SAllocated := SAllocated s;
     SRay := SRay s; SEffective := SEffective s; SState := state; SReason := reason;
     SStableWidth := SStableWidth s; SMasterUID := SMasterUID s |}.

Definition set_observed_state (s : modelDeploymentElasticStatus) (state : elasticOperationState) :=
  set_verdict s state (SReason s).

(** [finish] before the record was read, and after. *)
Definition hold {A} (status : modelDeploymentElasticStatus) (reason : string) : pass W A :=
  returning (persistElasticObservation (set_verdict status (SState status) reason)).

Definition finish {A} (status : modelDeploymentElasticStatus) (op : option elasticOperation)
    (reason : string) : pass W A :=
  orReturn (persistElasticObservation (set_verdict status (SState status) reason)) ;!
  returning (recordElasticResizeCondition op).

Definition finishElasticWorldUnprovable {A} (status : modelDeploymentElasticStatus) (desired : Z)
    : pass W A :=
  if Known (SRay status) && (Value (SRay status) =? desired)
  then finish status None (LReason (SEffective status))
  else
    orReturn (persistElasticObservation
                (set_verdict status (SState status) (LReason (SEffective status)))) ;!
    let ray := if Known (SRay status) then pretty (Value (SRay status)) else "unknown" in
    returning (writeElasticResizeCondition "Unknown" "WorldUnprovable"
      ("the corrective scale from the live width " +:+ ray +:+ " to the desired width "
       +:+ pretty desired +:+ " is blocked: the live world cannot be proven ("
       +:+ LReason (SEffective status) +:+ ")")).

(** *** Records whose world moved *)

Definition recoverElasticUnsentMemberDrift (status : modelDeploymentElasticStatus)
    (pods : list Pod) (captured : list capturedMember) (master : Pod) (op : elasticOperation)
    : pass W (bool * modelDeploymentElasticStatus) :=
  if negb (bool_decide (State op = Recorded)) || CommandSent op || Upward (OpWidth op)
     || negb (Known (SDesired status)) || negb (Value (SDesired status) =? Target (OpWidth op))
     || elasticOperationMemberSurvives op pods
  then pret (false, status)
  else
    let currentWidth := Z.of_nat (length captured) - 1 in
    if (currentWidth <? WidthMin) || (WidthMax <? currentWidth) then pret (false, status)
    else if negb (Known (SAdmitted status)) || negb (Value (SAdmitted status) =? currentWidth)
            || negb (Known (SAllocated status)) || negb (Value (SAllocated status) =? currentWidth)
    then pret (false, status)
    else
      let '(effective, ray, proven) :=
        elasticEffective (HasAPIReader e) (HasObserver e) md pods master (ProbeDrift e) currentWidth in
      let status := set_proof status effective (ray_layer ray) in
      if negb proven then pret (false, status)
      else
        let status := set_verdict (set_stable_width status currentWidth) Completed
          ("the unsent operation held replaced member identities; the current native world proves width "
           +:+ pretty currentWidth +:+ " and the stale record is retired") in
        orReturn (persistElasticObservation status) ;!
        (if (currentWidth =? Value (SDesired status))
            && bool_decide (entry (PAnnotations master) modelDeploymentElasticWithdrawnAnnotation = "true")
         then orReturn (elasticSetWithdrawn (Restore e) master false)
         else pret tt) ;!
        store_delete op ;!
        orReturn (recordElasticResizeCondition None) ;!
        pret (true, status).

Definition elasticGenerationExit (status : modelDeploymentElasticStatus)
    (ray : modelDeploymentElasticObservation) (proven : bool) (op : elasticOperation)
    : string * bool :=
  if negb proven
  then ("the current native ranks and forwards do not prove this record's own width; the operation holds", false)
  else
    match IsScalingExit e with
    | inl err => (err, false)
    | inr true =>
        ("the engine is still scaling, so this record's outcome is not observable yet; the operation holds", false)
    | inr false =>
        if negb (SentState op) then
          if negb (Known (SDesired status)) || negb (Value (SDesired status) =? Target (OpWidth op))
          then ("the desired target changed before send; the operation and admitted capacity stay held", false)
          else ("the current native world proves this unsent record's old width and no scale is in flight, so it never left that width", true)
        else if negb (ActorsComplete ray)
        then ("the actor mapping is not complete, so the runtime identities this record captured cannot be re-proved; the operation holds", false)
        else if Upward (OpWidth op) then
          if negb (Known (SAdmitted status)) || (Value (SAdmitted status) <? Target (OpWidth op))
             || negb (Known (SAllocated status)) || (Value (SAllocated status) <? Target (OpWidth op))
             || negb (Known (SRay status)) || (Value (SRay status) <? Target (OpWidth op))
          then ("the target width is reached natively, but the current admitted, allocated and registered members do not yet hold it; the operation holds", false)
          else ("the current native width, every rank forward, the actor mapping and the admitted, allocated and registered members all prove the upward target", true)
        else if lineage_missing op
        then ("this narrowing record carries no complete captured release, so its return cannot be proved; the operation holds", false)
        else
          let (reason, absent) := TargetsAbsent e in
          if negb absent then (reason, false)
          else
            let (reason, gone) := WorkloadsGone e in
            if negb gone then (reason, false)
            else
              let (reason, returned) := AcceleratorsReturned e in
              if negb returned then (reason, false)
              else ("the target width, every rank forward, the actor mapping and the already-returned captured release all prove the narrowing outcome", true)
    end.

(** The members of the loop of [recoverElasticUpscaleAfterGenerationChange]:
    the retiring Pods, the GPU members, the head and the master. *)
Definition identity_of (pod : Pod) : elasticCapturedIdentity := Identity (PName pod) (PUID pod).
Definition no_identity : elasticCapturedIdentity := Identity "" "".

Definition upscale_members (roleName : string) (ranked : list string) (pods : list Pod)
    : list Pod * list Pod * elasticCapturedIdentity * elasticCapturedIdentity :=
  foldl (fun '(retiring, gpuMembers, headIdentity, masterIdentity) pod =>
      if bool_decide (modelDeploymentPodRole pod = modelDeploymentElasticHeadName md)
      then (retiring, gpuMembers, identity_of pod, masterIdentity)
      else if str_neq (modelDeploymentPodRole pod) roleName
      then (retiring, gpuMembers, headIdentity, masterIdentity)
      else
        (if bool_decide (PUID pod ∈ ranked) then retiring else retiring ++ [pod],
         gpuMembers ++ [pod], headIdentity,
         match modelDeploymentPodOrdinal pod with
         | Some 0 => identity_of pod
         | _ => masterIdentity
         end))
    ([], [], no_identity, no_identity) pods.

(** The release-only record that replaces an interrupted upscale. *)
Definition recovered_record (op : elasticOperation) (captured : list capturedMember)
    (gpuMembers retiring : list Pod) (headIdentity masterIdentity : elasticCapturedIdentity)
    (release : retirementRelease) : elasticOperation :=
  {| Name := MName md; DeploymentUID := MUID md; Namespace := MNamespace md;
     Generation := MGeneration md;
     OpWidth := Width (Z.of_nat (length gpuMembers)) (Old (OpWidth op));
     Workers := identity_of <$> retiring; Master := masterIdentity; Head := headIdentity;
     Members := (fun m => Identity (CmbName m) (CmbUID m))
                  <$> filter (fun m => CmbRole m <> RoleHead) captured;
     Release := Some release; State := Released;
     CommandIntent := "recovered at already observed native width " +:+ pretty (Old (OpWidth op));
     CommandSent := true; ScaleAttempts := 0; ScaleLastError := ""; ScaleLastFailedAt := None;
     ScaleAmbiguousAttempts := 0; ResourceVersion := "" |}.

(** [None] when the record was not recovered, otherwise the reason. *)
Definition recoverElasticUpscaleAfterGenerationChange (status : modelDeploymentElasticStatus)
    (pods : list Pod) (captured : list capturedMember) (master : Pod) (op : elasticOperation)
    : pass W (option string * modelDeploymentElasticStatus) :=
  if negb (Upward (OpWidth op)) || negb (Known (SDesired status))
     || negb (Value (SDesired status) =? Old (OpWidth op))
  then pret (None, status)
  else
    let '(oldEffective, oldRay, oldProven) :=
      elasticEffective (HasAPIReader e) (HasObserver e) md pods master (Reprobe e) (Old (OpWidth op)) in
    if negb oldProven then pret (None, status)
    else
      let status := set_proof status oldEffective (ray_layer oldRay) in
      if negb (ActorsComplete oldRay) then pret (None, status)
      else
        match IsScaling e with
        | inl err => leave (Returned (Some err))
        | inr true => pret (None, status)
        | inr false =>
            let ranked := (map_to_list (RankToPodUID oldRay)).*2 in
            let roleName := match ModelDeploymentElasticRole md with
                            | Some (n, _) => n | None => "" end in
            let '(retiring, gpuMembers, headIdentity, masterIdentity) :=
              upscale_members roleName ranked pods in
            if bool_decide (length retiring = 0%nat) then
              let reason := "the interrupted upscale never left the proven old native width; the stale record was retired" in
              let status := set_verdict (set_stable_width status (Old (OpWidth op))) Completed reason in
              orReturn (persistElasticObservation status) ;!
              store_delete op ;!
              pret (Some reason, status)
            else if (Z.of_nat (length gpuMembers) <=? Old (OpWidth op))
                    || str_empty (IdUID masterIdentity) || str_empty (IdUID headIdentity)
            then pret (None, status)
            else
              match CaptureRelease e retiring with
              | inl err => leave (Returned (Some err))
              | inr release =>
                  let recovered :=
                    recovered_record op captured gpuMembers retiring headIdentity masterIdentity release in
                  let reason := "the interrupted upscale was recovered at the proven old native width; excess members await the normal release proofs" in
                  let status := set_verdict (set_stable_width status (Old (OpWidth op)))
                                  Released reason in
                  orReturn (persistElasticObservation status) ;!
                  store_recover op recovered ;!
                  pret (Some reason, status)
              end
        end.

Definition reconstructElasticGeneration {A} (status : modelDeploymentElasticStatus)
    (pods : list Pod) (captured : list capturedMember) (master : Pod) (op : elasticOperation)
    : pass W A :=
  let observed := if SentState op then Target (OpWidth op) else Old (OpWidth op) in
  let '(effective, ray, proven) :=
    elasticEffective (HasAPIReader e) (HasObserver e) md pods master (Probe0 e) observed in
  let status := set_stable_width
    (set_observed_state (set_proof status effective (ray_layer ray)) (State op)) 0 in
  let! (recovered, status) :=
    (if proven then pret (None, status)
     else recoverElasticUpscaleAfterGenerationChange status pods captured master op) in
  match recovered with
  | Some reason => finish status (Some (set_state op Completed)) reason
  | None =>
      let (reason, safe) := elasticGenerationExit status ray proven op in
      if negb safe then finish status (Some op) reason
      else
        let status := set_verdict (set_stable_width status observed)
                        (if SentState op then Completed else StateNone) reason in
        orReturn (persistElasticObservation status) ;!
        orReturn (elasticSetWithdrawn (Restore e) master false) ;!
        store_delete op ;!
        returning (recordElasticResizeCondition None)
  end.

(** *** The pass *)

(** [time.Duration] cut to whole seconds, as text. *)
Definition seconds_text (wait : Z) : string :=
  let s := wait / second in
  if s <? 60 then pretty s +:+ "s"
  else if s <? 3600 then pretty (s / 60) +:+ "m" +:+ pretty (s mod 60) +:+ "s"
  else pretty (s / 3600) +:+ "h" +:+ pretty (s / 60 mod 60) +:+ "m" +:+ pretty (s mod 60) +:+ "s".

(** The record the pass writes after [Scale] answered with [err]: a refusal
    counts and is kept, anything else of a re-issued command only moves the
    schedule. *)
Definition refused (op : elasticOperation) (err : scale_error) : elasticOperation :=
  set_scale op (i64 (ScaleAttempts op + 1)) (ScaleText err) (Some (ClockAfter e))
    (ScaleAmbiguousAttempts op).
Definition unanswered (op : elasticOperation) : elasticOperation :=
  set_scale op (ScaleAttempts op) (ScaleLastError op) (Some (ClockAfter e))
    (i64 (ScaleAmbiguousAttempts op + 1)).

(** The members are the ones the observations were made of. *)
Definition identity_unchanged (pods : list Pod) : bool :=
  match elasticLiveMembers (HasAPIReader e) md (MembersAgain e) with
  | inr live => elasticSameRuntime pods live
  | inl _ => false
  end.

Definition sent_reason : string := "native command recorded and sent; completion unobserved".

(** The action a decision asks for. *)
Definition act_request {A} (status : modelDeploymentElasticStatus) (pods : list Pod)
    (op : elasticOperation) : pass W A :=
  if negb (identity_unchanged pods)
  then finish status (Some op) "identity changed before native intent"
  else
    let intent := "scale to " +:+ pretty (Target (OpWidth op)) in
    let! op := store_update (set_command (set_state op CommandSentState) true intent) in
    emit (Scaled (Target (OpWidth op))) ;!
    match Scale e (Target (OpWidth op)) with
    | Some err =>
        let! op := (if elasticScaleAnswerIsRefusal err then store_update (refused op err)
                    else pret op) in
        finish (set_observed_state status (State op)) (Some op) (ScaleText err)
    | None => finish (set_observed_state status (State op)) (Some op) sent_reason
    end.

Definition act_retry {A} (status : modelDeploymentElasticStatus) (pods : list Pod)
    (op : elasticOperation) : pass W A :=
  if negb (identity_unchanged pods)
  then finish status (Some op) "identity changed before the refused scale command is re-issued"
  else
    let wait := elasticScaleRetryDue op (ClockBefore e) in
    if 0 <? wait
    then finish status (Some op)
           ("the engine refused the scale command to width " +:+ pretty (Target (OpWidth op))
            +:+ "; the next attempt backs off " +:+ seconds_text wait
            +:+ "; the recorded refusal: " +:+ ScaleLastError op)
    else
      emit (Scaled (Target (OpWidth op))) ;!
      match Scale e (Target (OpWidth op)) with
      | Some err =>
          let! op := store_update (if elasticScaleAnswerIsRefusal err then refused op err
                                   else unanswered op) in
          finish (set_observed_state status (State op)) (Some op) (ScaleText err)
      | None =>
          let! op := store_update (set_scale op (ScaleAttempts op) "" None 0) in
          finish (set_observed_state status (State op)) (Some op) sent_reason
      end.

Definition act {A} (status : modelDeploymentElasticStatus) (pods : list Pod) (master : Pod)
    (ray : modelDeploymentElasticObservation) (op : elasticOperation) (decision : elasticDecision)
    : pass W A :=
  match Action decision with
  | RequestScale => act_request status pods op
  | RetryScale => act_retry status pods op
  | ReleaseAction =>
      let! op := store_update (set_state op Released) in
      let! failed := elasticDeleteCaptured (DeleteReleased e) op ray in
      match failed with
      | Some err => finish status (Some op) err
      | None => finish (set_observed_state status (State op)) (Some op) (DReason decision)
      end
  | Complete =>
      let status := set_observed_state (set_stable_width status (Target (OpWidth op))) Completed in
      orReturn (persistElasticObservation status) ;!
      orReturn (elasticSetWithdrawn (Restore e) master false) ;!
      store_delete op ;!
      returning (recordElasticResizeCondition None)
  | Hold | AwaitNative | AwaitWithdrawal | AwaitForward =>
      let! op := (if bool_decide (State op <> DState decision)
                  then store_update (set_state op (DState decision)) else pret op) in
      finish (set_observed_state status (State op)) (Some op) (DReason decision)
  end.

(** The record a pass writes first: it captures the members and, when it
    narrows, the workers of the ranks it retires and their allocation. *)
Definition fresh_record (pods : list Pod) (master : Pod) (width desired : Z)
    (ray : modelDeploymentElasticObservation) : elasticOperation * list Pod :=
  let head pod := bool_decide (modelDeploymentPodRole pod = modelDeploymentElasticHeadName md) in
  let op_width := Width width desired in
  let retired pod :=
    if Upward op_width then []
    else (fun _ => pod) <$> filter (fun '(rank, uid) => desired <= rank /\ uid = PUID pod)
                              (map_to_list (RankToPodUID ray)) in
  let retiring := mjoin (retired <$> pods) in
  ({| Name := MName md; DeploymentUID := MUID md; Namespace := MNamespace md;
      Generation := MGeneration md; OpWidth := op_width;
      Workers := identity_of <$> retiring; Master := identity_of master;
      Head := foldl (fun h pod => if head pod then identity_of pod else h) no_identity pods;
      Members := identity_of <$> filter (fun pod => head pod = false) pods;
      Release := None; State := Recorded; CommandIntent := ""; CommandSent := false;
      ScaleAttempts := 0; ScaleLastError := ""; ScaleLastFailedAt := None;
      ScaleAmbiguousAttempts := 0; ResourceVersion := "" |}, retiring).

Definition with_release (op : elasticOperation) (release : retirementRelease) : elasticOperation :=
  {| Name := Name op; DeploymentUID := DeploymentUID op; Namespace := Namespace op;
     Generation := Generation op; OpWidth := OpWidth op; Workers := Workers op;
     Master := Master op; Head := Head op; Members := Members op; Release := Some release;
     State := State op; CommandIntent := CommandIntent op; CommandSent := CommandSent op;
     ScaleAttempts := ScaleAttempts op; ScaleLastError := ScaleLastError op;
     ScaleLastFailedAt := ScaleLastFailedAt op;
     ScaleAmbiguousAttempts := ScaleAmbiguousAttempts op;
     ResourceVersion := ResourceVersion op |}.

(** The width to prove when there is no record: the master's boot width, unless
    its last observation settled on another. *)
Definition bookkeeping_width {A} (status : modelDeploymentElasticStatus) (master : Pod)
    (k : Z -> pass W A) : pass W A :=
  match ModelDeploymentElasticBootstrapFromMaster (PUID master)
          (entry (PAnnotations master) "worker.gpustack.ai/elastic-boot-width") md with
  | None => finish status None "master bootstrap width is unknown"
  | Some boot =>
      fun w l =>
        match elasticObservationDocument w with
        | inl err => finish status None err w l
        | inr None => k boot w l
        | inr (Some cm) =>
            match status_unmarshal (default "" (CmData cm !! "observation.json")) with
            | inl _ => finish status None "prior observation is malformed" w l
            | inr old =>
                k (if bool_decide (SMasterUID old = PUID master)
                      && (2 <=? SStableWidth old) && (SStableWidth old <=? 64)
                   then SStableWidth old else boot) w l
            end
        end
  end.

(** A proven world at a width the spec does not want: record the corrective
    operation it needs. *)
Definition pass_resize {A} (status : modelDeploymentElasticStatus) (pods : list Pod)
    (master : Pod) (desired width : Z) (ray : modelDeploymentElasticObservation)
    (k : elasticOperation -> pass W A) : pass W A :=
  if (width <? desired)
     && (negb (Known (SAdmitted status)) || (Value (SAdmitted status) <? desired)
         || negb (Known (SAllocated status)) || (Value (SAllocated status) <? desired)
         || negb (Known (SRay status)) || (Value (SRay status) <? desired))
  then finish status None "new members are not admitted, allocated and registered"
  else
    let (op, retiring) := fresh_record pods master width desired ray in
    if Upward (OpWidth op) then let! op := store_create op in k op
    else if negb (Z.of_nat (length (Workers op)) =? width - desired)
    then finish status (Some op) "retirement rank identities are incomplete"
    else
      match CaptureRelease e retiring with
      | inl err => finish status (Some op) err
      | inr release => let! op := store_create (with_release op release) in k op
      end.

(** With no record: prove the world, at the admitted width when the bookkeeping
    width cannot be proven and more members are admitted. *)
Definition pass_unrecorded {A} (status : modelDeploymentElasticStatus) (pods : list Pod)
    (master : Pod) (desired width : Z)
    (k : modelDeploymentElasticStatus -> modelDeploymentElasticObservation -> bool ->
         elasticOperation -> pass W A) : pass W A :=
  let settle status width ray proven :=
    if negb proven then finishElasticWorldUnprovable status desired
    else
      let status := set_stable_width status width in
      if width =? desired then finish status None "native ranks and forwards agree"
      else pass_resize status pods master desired width ray (k status ray proven) in
  let '(effective, ray, proven) :=
    elasticEffective (HasAPIReader e) (HasObserver e) md pods master (Probe0 e) width in
  let status := set_proof status effective (ray_layer ray) in
  let live := Value (SAdmitted status) in
  if negb proven && Known (SAdmitted status) && (width <? live) then
    let '(effective, ray, proven) :=
      elasticEffective (HasAPIReader e) (HasObserver e) md pods master (Reprobe e) live in
    settle (set_proof status effective (ray_layer ray)) live ray proven
  else settle status width ray proven.

(** The scaling answer a sent record asks for: its error, whether it is known,
    and what it said. *)
Definition scaling_facts (op : elasticOperation) (proven : bool)
    : option string * bool * bool * bool :=
  if SentState op && (proven || negb (str_empty (ScaleLastError op))) then
    match IsScaling e with
    | inl err => (Some err, false, false, false)
    | inr scaling => (None, proven && negb scaling, true, scaling)
    end
  else (None, false, false, false).

(** A released record deletes what it captured and waits for every return. *)
Definition pass_released {A} (status : modelDeploymentElasticStatus)
    (ray : modelDeploymentElasticObservation) (proven nativeComplete : bool)
    (op : elasticOperation) (k : pass W A) : pass W A :=
  if negb proven || negb nativeComplete || negb (ActorsComplete ray)
  then finish status (Some op) "native release proof is not current"
  else
    let! failed := elasticDeleteCaptured (DeleteResumed e) op ray in
    match failed with
    | Some err => finish status (Some op) err
    | None =>
        let (reason, gone) := TargetsAbsent e in
        if negb gone then finish status (Some op) reason
        else
          let (reason, gone) := WorkloadsGone e in
          if negb gone then finish status (Some op) reason
          else
            let (reason, gone) := AcceleratorsReturned e in
            if negb gone then finish status (Some op) reason else k
    end.

(** From a record of this generation and the proof of its width to the
    action. *)
Definition pass_recorded {A} (status : modelDeploymentElasticStatus) (pods : list Pod)
    (master : Pod) (ray : modelDeploymentElasticObservation) (proven : bool)
    (op : elasticOperation) : pass W A :=
  let status := set_observed_state status (State op) in
  let '(nativeReadFailure, nativeComplete, scalingKnown, scaling) := scaling_facts op proven in
  let! (withdrawn, reason) :=
    (if Upward (OpWidth op) then pret (false, "") else elasticWithdrawal master) in
  if negb (Upward (OpWidth op)) && negb withdrawn then finish status (Some op) reason
  else
    let released := bool_decide (State op = Released) in
    let facts := {|
      FDeploymentUID := MUID md; FGeneration := MGeneration md;
      Desired := SDesired status; AdmittedWidth := SAdmitted status; Ray := SRay status;
      Effective := SEffective status; AdmittedAllocation := SAllocated status;
      WithdrawalConfirmed := withdrawn; NativeComplete := nativeComplete;
      ScalingKnown := scalingKnown; Scaling := scaling; ForwardProven := proven;
      ActorFree := ObsActorFree ray; ActorMappingKnown := ActorsComplete ray;
      ReleaseObserved := released |} in
    let rest :=
      if negb (SentState op) && negb proven
      then finish status (Some op) "current native ranks and forwards do not prove the old world"
      else
        match nativeReadFailure with
        | Some err => finish status (Some op) err
        | None => act status pods master ray op (decideElasticOperation op facts)
        end in
    if released then pass_released status ray proven nativeComplete op rest else rest.

(** A record whose captured members are not the live ones. *)
Definition pass_drifted {A} (status : modelDeploymentElasticStatus) (pods : list Pod)
    (captured : list capturedMember) (master : Pod) (op : elasticOperation) : pass W A :=
  let! (recovered, status) := recoverElasticUnsentMemberDrift status pods captured master op in
  if recovered then leave (Returned None)
  else if (Generation op =? MGeneration md) || elasticOperationMemberSurvives op pods
  then finish (set_observed_state status (State op)) (Some op)
         "a captured member identity no longer matches; the operation holds"
  else reconstructElasticGeneration status pods captured master op.

Definition set_members (status : modelDeploymentElasticStatus) (allocation : elasticLayer * elasticLayer)
    (masterUID : string) : modelDeploymentElasticStatus :=
  {| SDeploymentUID := SDeploymentUID status; SObservedGeneration := SObservedGeneration status;
     SDesired := SDesired status; SAdmitted := fst allocation; SAllocated := snd allocation;
     SRay := SRay status; SEffective := SEffective status; SState := SState status;
     SReason := SReason status; SStableWidth := SStableWidth status; SMasterUID := masterUID |}.

Definition initial_status (desired : Z) : modelDeploymentElasticStatus :=
  {| SDeploymentUID := MUID md; SObservedGeneration := MGeneration md;
     SDesired := knownLayer desired; SAdmitted := unknownLayer "not collected";
     SAllocated := unknownLayer "not collected"; SRay := unknownLayer "not collected";
     SEffective := unknownLayer "not collected"; SState := StateNone; SReason := "";
     SStableWidth := 0; SMasterUID := "" |}.

(** The pass once the members are known and the record was read. *)
Definition pass_observed {A} (status : modelDeploymentElasticStatus) (desired : Z)
    (pods : list Pod) (captured : list capturedMember) (master : Pod)
    (op : option elasticOperation) : pass W A :=
  match op with
  | None =>
      bookkeeping_width status master (fun width =>
        pass_unrecorded status pods master desired width (fun status ray proven op =>
          pass_recorded status pods master ray proven op))
  | Some op =>
      if negb (elasticOperationMembersMatch op pods)
      then pass_drifted status pods captured master op
      else if negb (Generation op =? MGeneration md)
      then reconstructElasticGeneration status pods captured master op
      else
        let width := if SentState op then Target (OpWidth op) else Old (OpWidth op) in
        let '(effective, ray, proven) :=
          elasticEffective (HasAPIReader e) (HasObserver e) md pods master (Probe0 e) width in
        pass_recorded (set_proof status effective (ray_layer ray)) pods master ray proven op
  end.

Definition reconcileModelDeploymentElasticResize : pass W unit :=
  if negb (HasAPIReader e) then leave (Returned None)
  else
    match ModelDeploymentElasticRole md with
    | None => leave Panicked
    | Some (_, desired) =>
        let status := initial_status desired in
        match elasticLiveMembers (HasAPIReader e) md (Members0 e) with
        | inl None => leave (Returned None)
        | inl (Some err) => hold status err
        | inr pods =>
            match elasticRuntimeMembers md pods with
            | inl (master, err) =>
                hold (set_members status (Allocation e)
                        (match master with Some m => PUID m | None => "" end)) err
            | inr (captured, master) =>
                let status := set_members status (Allocation e) (PUID master) in
                match NativeClient e with
                | Some err => hold status err
                | None =>
                    let! read := store_read in
                    match read with
                    | inr op => pass_observed status desired pods captured master (Some op)
                    | inl ErrNotFound => pass_observed status desired pods captured master None
                    | inl err => hold status (ErrorText e err)
                    end
                end
            end
        end
    end.

End pass.
