(* ===== verification/ElasticSafety.v ===== *)
(** * What an elastic pass may do, and when

    Over the pass of [ElasticPass]: every scale command, every write of the
    record, every deletion and the removal of the record itself is justified by
    the state of the API server at that moment and by what the pass proved.  The
    proofs use a small Hoare logic whose invariant is that the log so far is
    justified. *)

From stdpp Require Import prelude gmap strings list pretty.
From S2P Require Import Prelude ElasticRecord ElasticKernel ElasticPass.
#[local] Open Scope pass_scope.

Section safety.
Context {W : Type} `{Api : ConfigMapApi W} `{Codec : RecordCodec} `{Codec2 : StatusCodec}
        `{!ConfigMapApiLaws} `{!RecordCodecLaws}.
Context (e : env) (md : ModelDeployment) (w0 : W).
Implicit Types (op : elasticOperation) (w : W) (l : list (W * event)).

(** ** Justified events *)

Definition record_in (w : W) : store_error + elasticOperation :=
  Read true w (MNamespace md) (MName md) (MUID md).

(** The retry bound of a record: never exceeded, and nothing was refused before
    a command left. *)
Definition attempts_ok op : Prop :=
  0 <= ScaleAttempts op <= elasticScaleMaxAttempts /\
  (SentState op = false -> ScaleAttempts op = 0).

Definition bounded_before : Prop := forall op, record_in w0 = inr op -> attempts_ok op.

(** The native world was proven at a width, with what Ray reported then. *)
Definition proven_at (width : Z) (effective : elasticLayer)
    (ray : modelDeploymentElasticObservation) : Prop :=
  exists pods master p, (p = Probe0 e \/ p = Reprobe e \/ p = ProbeDrift e) /\
    elasticEffective (HasAPIReader e) (HasObserver e) md pods master p width = (effective, ray, true).

Definition command_recorded (w : W) (target : Z) : Prop :=
  exists op, record_in w = inr op /\ valid op /\ CommandSent op = true /\
    Generation op = MGeneration md /\ Target (OpWidth op) = target.

(** The record a deletion acts for: released, of this generation, with the
    target width proven by the pass. *)
Definition released_record (w : W) op (release : retirementRelease)
    (ray : modelDeploymentElasticObservation) : Prop :=
  record_in w = inr op /\ valid op /\ State op = Released /\ CommandSent op = true /\
  Generation op = MGeneration md /\ Release op = Some release /\
  ActorsComplete ray = true /\
  exists effective, proven_at (Target (OpWidth op)) effective ray.

Definition retired_pod (w : W) (pod : Pod) (uid rv : string) : Prop :=
  exists op release ray worker, released_record w op release ray /\
    worker ∈ Workers op /\ IdUID worker = uid /\ uid <> IdUID (Master op) /\
    PUID pod = uid /\ rv = PResourceVersion pod /\ PDeleting pod = false /\
    elasticOwnedBy md pod = true /\ claim_matched release worker pod = true /\
    ObsActorFree ray !! uid = Some true.

Definition retired_workload (w : W) (wl : KueueWorkload) (uid rv : string) : Prop :=
  exists op release ray, released_record w op release ray /\
    uid = WlUID wl /\ rv = WlResourceVersion wl /\ WlDeleting wl = false /\
    uid ∈ WorkloadUIDs release /\ owned_by_worker op wl = true.

(** The observation that outlives a record: a proven width, written before the
    record goes. *)
Definition settled (s : modelDeploymentElasticStatus) : Prop :=
  0 < SStableWidth s /\ SEffective s = knownLayer (SStableWidth s).

Definition settled_before l : Prop := exists w s, (w, Observed s) ∈ l /\ settled s.

Definition good l w (ev : event) : Prop :=
  match ev with
  | Scaled target => command_recorded w target
  | Stored op => bounded_before -> attempts_ok op
  | PodDeleted pod uid rv => retired_pod w pod uid rv
  | WorkloadDeleted wl uid rv => retired_workload w wl uid rv
  | RecordDeleted _ => settled_before l
  | _ => True
  end.

Definition ok l : Prop := forall l1 w ev l2, l = l1 ++ (w, ev) :: l2 -> good l1 w ev.

Lemma ok_snoc l w ev : ok l -> good l w ev -> ok (l ++ [(w, ev)]).
Proof.
  intros Ho Hg l1 w1 ev1 l2 E. destruct l2 as [|x l2 _] using rev_ind.
  - apply app_inj_tail in E as [-> [= <- <-]]. done.
  - rewrite app_comm_cons, app_assoc in E. apply app_inj_tail in E as [-> _]. now eapply Ho.
Qed.

(** ** A Hoare logic over the log *)

Definition hoare {A} (P : W -> list (W * event) -> Prop) (m : pass W A)
    (Q : A -> W -> list (W * event) -> Prop) : Prop :=
  forall w l, P w l -> ok l ->
    match m w l with
    | (inl _, (_, l')) => ok l'
    | (inr a, (w', l')) => ok l' /\ Q a w' l'
    end.

Abbreviation safe P m := (hoare P m (fun _ _ _ => True)).

Lemma h_bind {A B} P (m : pass W A) Q (k : A -> pass W B) R :
  hoare P m Q -> (forall a, hoare (Q a) (k a) R) -> hoare P (pbind m k) R.
Proof.
  intros Hm Hk w l HP Ho. specialize (Hm w l HP Ho). unfold pbind.
  destruct (m w l) as [[v|a] [w' l']]; [done|]. destruct Hm. now apply Hk.
Qed.

Lemma h_ret {A} (P : W -> list (W * event) -> Prop) (a : A) Q :
  (forall w l, P w l -> Q a w l) -> hoare P (pret a) Q.
Proof. intros Hq w l HP Ho. simpl. auto. Qed.

Lemma h_leave {A} P v Q : hoare P (leave v : pass W A) Q.
Proof. intros w l _ Ho. exact Ho. Qed.

Lemma h_pre {A} (P P' : W -> list (W * event) -> Prop) (m : pass W A) Q :
  (forall w l, P w l -> P' w l) -> hoare P' m Q -> hoare P m Q.
Proof. intros Hp Hm w l HP. apply Hm. auto. Qed.

Lemma h_post {A} P (m : pass W A) (Q Q' : A -> W -> list (W * event) -> Prop) :
  (forall a w l, Q' a w l -> Q a w l) -> hoare P m Q' -> hoare P m Q.
Proof.
  intros Hq Hm w l HP Ho. specialize (Hm w l HP Ho).
  destruct (m w l) as [[v|a] [w' l']]; [done|]. destruct Hm. auto.
Qed.

(** A consequence of the precondition that does not depend on the state. *)
Lemma h_assume {A} (F : Prop) (P : W -> list (W * event) -> Prop) (m : pass W A) Q :
  (forall w l, P w l -> F) -> (F -> hoare P m Q) -> hoare P m Q.
Proof. intros HF Hm w l HP. apply Hm; eauto. Qed.

Lemma h_emit P ev (Q : unit -> W -> list (W * event) -> Prop) :
  (forall w l, P w l -> good l w ev) ->
  (forall w l, P w l -> Q tt w (l ++ [(w, ev)])) -> hoare P (emit ev) Q.
Proof. intros Hg Hq w l HP Ho. simpl. split; [apply ok_snoc|]; auto. Qed.

(** Programs whose events need no justification and which leave the API server
    alone: anything monotone in the log survives them. *)
Definition grows (P : W -> list (W * event) -> Prop) : Prop :=
  forall w l l', P w l -> P w (l ++ l').

Definition still {A} (m : pass W A) : Prop :=
  forall P, grows P -> hoare P m (fun _ => P).

Lemma still_ret {A} (a : A) : still (pret a).
Proof. intros P _. now apply h_ret. Qed.

Lemma still_bind {A B} (m : pass W A) (k : A -> pass W B) :
  still m -> (forall a, still (k a)) -> still (pbind m k).
Proof. intros Hm Hk P HP. eapply h_bind; [now apply Hm|]. intros a. now apply Hk. Qed.

Lemma still_emit ev : (forall l w, good l w ev) -> still (emit ev).
Proof. intros Hg P HP. apply h_emit; auto. Qed.

Lemma still_leave {A} v : still (leave v : pass W A).
Proof. intros P _. apply h_leave. Qed.

(** *** The pieces of the pass that justify nothing *)

Ltac still :=
  repeat first
    [ apply still_ret | apply still_leave | apply still_emit; done
    | apply still_bind; [|intros ?]
    | match goal with
      | |- still (match ?x with _ => _ end) => destruct x
      | |- still (let (_, _) := ?x in _) => destruct x
      end ].

Lemma condition_still s r m : still (writeElasticResizeCondition e md s r m).
Proof. unfold writeElasticResizeCondition. still. Qed.

Lemma record_condition_still (held : option elasticOperation) : still (recordElasticResizeCondition e md held).
Proof. unfold recordElasticResizeCondition. still; apply condition_still. Qed.

Lemma set_withdrawn_still we master b : still (elasticSetWithdrawn e md we master b).
Proof. unfold elasticSetWithdrawn. cbv zeta. still. Qed.

Lemma withdrawal_still master : still (elasticWithdrawal e md master).
Proof. unfold elasticWithdrawal. still. apply set_withdrawn_still. Qed.

Lemma or_return_still m : still m -> still (orReturn m).
Proof. intros Hm. unfold orReturn. still. exact Hm. Qed.

Lemma still_safe {A} P (m : pass W A) : still m -> safe P m.
Proof.
  intros Hm. apply h_pre with (P' := fun _ _ => True); [done|].
  apply h_post with (Q' := fun _ _ _ => True); [done|]. now apply Hm.
Qed.

Lemma settled_before_grows : grows (fun _ l => settled_before l).
Proof. intros w l l' (w1 & s & Hin & Hs). exists w1, s. split; [|done]. apply elem_of_app. auto. Qed.

Lemma carried_settled s cm s' : carried_status s cm = inr s' -> settled s -> s' = s.
Proof.
  unfold carried_status, settled. destruct cm as [cm|]; [|now intros [= ->]].
  destruct (status_unmarshal _) as [err|prior]; [done|].
  destruct (Z.eqb_spec (SStableWidth s) 0); [lia|]. simpl. now intros [= ->].
Qed.

Lemma h_persist P s :
  hoare P (persistElasticObservation e md s)
    (fun r _ l => r = None -> settled s -> settled_before l).
Proof.
  intros w l _ Ho. unfold persistElasticObservation.
  destruct (PersistDeployment e) as [err|live]; [done|].
  destruct (_ || _); [done|]. destruct (elasticObservationDocument _ _ _) as [err|cm]; [done|].
  destruct (carried_status s cm) as [err|s'] eqn:Hc; [done|].
  destruct (status_marshal s') as [body|]; [|done].
  destruct (write_observation _ _ _ _ _) as [w' [err|]]; [done|].
  split; [now apply ok_snoc|]. intros _ Hs. rewrite (carried_settled _ _ _ Hc Hs).
  exists w', s. split; [|done]. apply elem_of_app. right. now left.
Qed.

(** Persisting a settled observation or returning. *)
Lemma h_settle P s : settled s ->
  hoare P (orReturn (persistElasticObservation e md s)) (fun _ _ l => settled_before l).
Proof.
  intros Hs. eapply h_bind; [apply h_persist|]. intros [err|]; [apply h_leave|].
  apply h_ret. auto.
Qed.

Lemma returning_still {A} m : still m -> still (returning m : pass W A).
Proof. intros Hm. unfold returning. still. exact Hm. Qed.

Lemma persist_safe P s : safe P (orReturn (persistElasticObservation e md s)).
Proof.
  eapply h_bind; [apply h_persist|]. intros [err|]; [apply h_leave|]. now apply h_ret.
Qed.

Lemma finish_safe {A} P s (held : option elasticOperation) r : safe P (finish e md s held r : pass W A).
Proof.
  unfold finish. eapply h_bind; [apply persist_safe|].
  intros ?. apply still_safe, returning_still, record_condition_still.
Qed.

Lemma hold_safe {A} P s r : safe P (hold e md s r : pass W A).
Proof.
  unfold hold, returning. eapply h_bind; [apply h_persist|]. intros r'. apply h_leave.
Qed.

Lemma unprovable_safe {A} P s d : safe P (finishElasticWorldUnprovable e md s d : pass W A).
Proof.
  unfold finishElasticWorldUnprovable. destruct (_ && _); [apply finish_safe|]. eapply h_bind; [apply persist_safe|].
  intros ?. cbv zeta. apply still_safe, returning_still, condition_still.
Qed.

(** *** Writing the record *)

Definition of_md op : Prop :=
  Namespace op = MNamespace md /\ Name op = MName md /\ DeploymentUID op = MUID md.

Lemma attempts_ok_version op rv : attempts_ok op -> attempts_ok (set_version op rv).
Proof. now destruct op. Qed.

Lemma h_store_write (f : W -> W * (store_error + elasticOperation)) op P :
  (bounded_before -> attempts_ok op) ->
  (forall w w' op', f w = (w', inr op') ->
     exists rv, op' = set_version op rv /\
       Read true w' (Namespace op) (Name op) (DeploymentUID op) = inr op') ->
  of_md op ->
  hoare P (store_write e f)
    (fun op' w' _ => exists rv, op' = set_version op rv /\ record_in w' = inr op').
Proof.
  intros Ha Hf (Hn & Hm & Hu) w l _ Ho. unfold store_write.
  destruct (f w) as [w' [err|op']] eqn:Hw; [done|].
  destruct (Hf _ _ _ Hw) as (rv & -> & Hr). split.
  - apply ok_snoc; [done|]. simpl. intros Hb. apply attempts_ok_version. auto.
  - exists rv. split; [done|]. unfold record_in. congruence.
Qed.

Lemma update_returns w op w' op' :
  Update true w op = (w', inr op') ->
  exists rv, op' = set_version op rv /\
    Read true w' (Namespace op) (Name op) (DeploymentUID op) = inr op'.
Proof.
  intros Hup. pose proof (update_then_read _ _ _ _ Hup) as Hr. unfold Update in Hup.
  destruct (validate op); [done|]. simpl in Hup.
  destruct (replace_record_ok _ _ _ _ _ Hup) as (? & ? & ? & st & Hx). destruct_and? Hx. eauto.
Qed.

Lemma create_returns now w op w' op' :
  Create true now w op = (w', inr op') ->
  exists rv, op' = set_version op rv /\
    Read true w' (Namespace op) (Name op) (DeploymentUID op) = inr op'.
Proof.
  intros Hc. pose proof (create_then_read _ _ _ _ _ Hc) as Hr. unfold Create in Hc.
  destruct (validate op); [done|]. simpl in Hc. destruct (json_marshal op); [|done].
  destruct (api_create _ _) as [w1 [err|st]]; [done|]. injection Hc as <- <-. eauto.
Qed.

Lemma recover_returns w cur op w' op' :
  RecoverInterrupted true w cur op = (w', inr op') ->
  exists rv, op' = set_version op rv /\
    Read true w' (Namespace op) (Name op) (DeploymentUID op) = inr op'.
Proof.
  unfold RecoverInterrupted. destruct (validate cur); [done|].
  destruct (validate op) eqn:Hv; [done|]. apply validate_spec in Hv.
  destruct (_ || _) eqn:Hs; [done|]. simpl. intros Hr.
  apply orb_false_iff in Hs as [Hs Hu]. apply orb_false_iff in Hs as [Hn Hns]. bools.
  destruct (replace_record_holds _ _ _ _ _ Hns Hn Hu Hr) as (st & Hh & -> & Hg).
  eauto using read_holds.
Qed.

Lemma h_delete op :
  hoare (fun _ l => settled_before l) (store_delete e op) (fun _ _ _ => True).
Proof.
  intros w l Hs Ho. unfold store_delete. destruct (Delete true w (Some op)) as [w' [err|]]; [done|].
  split; [|done]. now apply ok_snoc.
Qed.

(** The end of an operation: the settled observation, the endpoints given back,
    the record gone. *)
Lemma retire_safe {A} P s we master op :
  settled s ->
  safe P (orReturn (persistElasticObservation e md s) ;!
          orReturn (elasticSetWithdrawn e md we master false) ;!
          store_delete e op ;!
          returning (recordElasticResizeCondition e md None) : pass W A).
Proof.
  intros Hs. eapply h_bind; [now apply h_settle|]. intros ?.
  eapply h_bind; [apply or_return_still; [apply set_withdrawn_still|apply settled_before_grows]|].
  intros ?. eapply h_bind; [apply h_delete|]. intros ?.
  apply still_safe, returning_still, record_condition_still.
Qed.

(** *** Deleting captured workers *)

Lemma record_in_spec w op : record_in w = inr op -> valid op /\ of_md op.
Proof.
  intros Hr. destruct (read_held _ _ _ _ _ Hr) as (st & held & Hg & _ & -> & Hu & V).
  split; [done|]. destruct (get_key _ _ _ _ Hg) as [Hn _]. unfold of_md. simpl in *. auto.
Qed.

Lemma h_delete_workers de op release ray ws :
  (forall x, x ∈ ws -> x ∈ Workers op) ->
  hoare (fun w _ => released_record w op release ray) (delete_workers md de op release ray ws)
    (fun _ w _ => released_record w op release ray).
Proof.
  induction ws as [|worker ws IH]; intros Hws; simpl; [now apply h_ret|].
  assert (forall x, x ∈ ws -> x ∈ Workers op) as Hws' by (intros; apply Hws; now right).
  destruct (de_pod de (IdName worker)) as [|msg|pod]; [now apply IH|now apply h_ret|].
  destruct (negb _) eqn:Haf; [now apply h_ret|].
  destruct (_ || _) eqn:Hid; [now apply h_ret|].
  destruct (negb (claim_matched release worker pod)) eqn:Hcl; [now apply h_ret|].
  destruct (PDeleting pod) eqn:Hdel; [now apply IH|].
  apply orb_false_iff in Hid as [Hid Hm]. apply orb_false_iff in Hid as [Hid Hown]. bools.
  eapply h_bind with (Q := fun _ w _ => released_record w op release ray).
  - apply h_emit; [|done]. intros w l Hr. exists op, release, ray, worker.
    split_and!; auto; try congruence; [apply Hws; now left|].
    destruct (ObsActorFree ray !! IdUID worker) as [b|]; simpl in Haf; congruence.
  - intros _. destruct (de_delete_pod de (IdName worker)); [now apply h_ret|now apply IH].
Qed.

Lemma h_delete_workloads de op release ray wls :
  hoare (fun w _ => released_record w op release ray)
    (delete_workloads de op release wls) (fun _ w _ => released_record w op release ray).
Proof.
  induction wls as [|wl wls IH]; simpl; [now apply h_ret|].
  destruct (negb _) eqn:Hu; [exact IH|].
  destruct (negb (owned_by_worker op wl)) eqn:Ho; [now apply h_ret|].
  destruct (WlDeleting wl) eqn:Hd; [exact IH|]. bools.
  eapply h_bind with (Q := fun _ w _ => released_record w op release ray).
  - apply h_emit; [|done]. intros w l Hr. exists op, release, ray. split_and!; auto.
  - intros _. destruct (de_delete_workload de (WlName wl)); [now apply h_ret|exact IH].
Qed.

Lemma h_delete_captured de op ray (P : W -> list (W * event) -> Prop) :
  (forall w l release, P w l -> Release op = Some release -> released_record w op release ray) ->
  hoare P (elasticDeleteCaptured md de op ray)
    (fun r w _ => r = None -> record_in w = inr op).
Proof.
  intros HP. unfold elasticDeleteCaptured. destruct (Release op) as [release|]; [|now apply h_ret].
  destruct (lineage_missing op); [now apply h_ret|].
  destruct (de_deployment de) as [err|fresh]; [now apply h_ret|].
  destruct (_ || _); [now apply h_ret|].
  apply h_pre with (P' := fun w _ => released_record w op release ray); [intros; eauto|].
  eapply h_bind; [now apply h_delete_workers|]. intros [err|]; [now apply h_ret|].
  destruct (de_workloads de) as [err|items]; [now apply h_ret|].
  eapply h_post; [|apply h_delete_workloads]. intros r w l [Hr _] _. exact Hr.
Qed.

(** *** Acting on a decision *)

(** The record a pass works with is the stored one. *)
Definition here (w : W) op : Prop :=
  record_in w = inr op /\ (bounded_before -> attempts_ok op).

Lemma h_update op op1 :
  of_md op -> Namespace op1 = Namespace op -> Name op1 = Name op ->
  DeploymentUID op1 = DeploymentUID op -> (bounded_before -> attempts_ok op1) ->
  forall P, hoare P (store_update e op1)
    (fun op' w' _ => exists rv, op' = set_version op1 rv /\ record_in w' = inr op').
Proof.
  intros (? & ? & ?) ? ? ? Ha P. apply h_store_write; auto.
  - intros w w' op' Hu. now apply update_returns in Hu.
  - unfold of_md. split_and!; congruence.
Qed.

Lemma command_recorded_in w op :
  record_in w = inr op -> SentState op = true -> Generation op = MGeneration md ->
  command_recorded w (Target (OpWidth op)).
Proof.
  intros Hr Hs Hg. destruct (record_in_spec _ _ Hr) as [V _]. exists op. split_and!; auto.
  rewrite (valid_sent _ V). done.
Qed.

Lemma attempts_zero op op1 :
  SentState op = false -> ScaleAttempts op1 = ScaleAttempts op ->
  (bounded_before -> attempts_ok op) -> bounded_before -> attempts_ok op1.
Proof.
  intros Hs He Ha Hb. destruct (Ha Hb) as [_ Hz]. unfold attempts_ok, elasticScaleMaxAttempts.
  rewrite He, Hz by done. split; [lia|done].
Qed.

Lemma refused_attempts op err :
  SentState op = true -> (bounded_before -> 0 <= ScaleAttempts op < elasticScaleMaxAttempts) ->
  bounded_before -> attempts_ok (refused e op err).
Proof.
  intros Hs Ha Hb. specialize (Ha Hb). unfold attempts_ok, SentState, refused, elasticScaleMaxAttempts in *.
  simpl. rewrite i64_small by (unfold is_i64; lia). split; [lia|congruence].
Qed.

Lemma act_request_safe {A} s pods op :
  SentState op = false -> Generation op = MGeneration md ->
  safe (fun w _ => here w op) (act_request e md s pods op : pass W A).
Proof.
  intros Hs Hg. eapply h_assume; [intros w l [Hr Ha]; exact (conj (record_in_spec _ _ Hr) Ha)|].
  intros [[V Hmd] Ha]. unfold act_request. destruct (negb _); [apply finish_safe|]. cbv zeta.
  eapply h_bind; [eapply h_update; eauto using attempts_zero|]. intros op'. simpl.
  eapply h_assume; [intros w l (rv & Hrv & _); exact (ex_intro (fun rv => _ = _) rv Hrv)|].
  intros (rv & ->). eapply h_bind with (Q := fun _ _ _ => True).
  - apply h_emit; [|done]. intros w l (_ & _ & Hr). now apply command_recorded_in.
  - intros _. destruct (Scale _ _) as [err|]; [|apply finish_safe].
    eapply h_bind; [|intros ?; apply finish_safe].
    destruct (elasticScaleAnswerIsRefusal err);
      [|now apply h_ret with (Q := fun _ _ _ => True)].
    eapply h_post; [|eapply (h_update op); eauto]; [done|].
    apply refused_attempts; [done|]. simpl. intros Hb. destruct (Ha Hb) as [_ Hz].
    unfold elasticScaleMaxAttempts. rewrite Hz by done. lia.
Qed.

Lemma act_retry_safe {A} s pods op :
  SentState op = true -> Generation op = MGeneration md ->
  ScaleAttempts op < elasticScaleMaxAttempts ->
  safe (fun w _ => here w op) (act_retry e md s pods op : pass W A).
Proof.
  intros Hs Hg Hlt. eapply h_assume; [intros w l [Hr Ha]; exact (conj (record_in_spec _ _ Hr) Ha)|].
  intros [[V Hmd] Ha]. unfold act_retry. destruct (negb _); [apply finish_safe|]. cbv zeta.
  destruct (0 <? _); [apply finish_safe|]. eapply h_bind with (Q := fun _ _ _ => True).
  - apply h_emit; [|done]. intros w l [Hr _]. now apply command_recorded_in.
  - intros _. destruct (Scale _ _) as [err|]; (eapply h_bind; [|intros ?; apply finish_safe]);
      (eapply h_post; [|eapply (h_update op); eauto; try (now destruct (elasticScaleAnswerIsRefusal _))]);
      try done.
    destruct (elasticScaleAnswerIsRefusal err); [|exact Ha].
    apply refused_attempts; [done|]. intros Hb. destruct (Ha Hb). lia.
Qed.

Lemma effective_known r o pods master p width effective ray :
  elasticEffective r o md pods master p width = (effective, ray, true) ->
  effective = knownLayer width.
Proof.
  unfold elasticEffective. cbv zeta. repeat case_match; congruence.
Qed.

Lemma proven_at_known width effective ray :
  proven_at width effective ray -> effective = knownLayer width.
Proof. intros (pods & master & p & _ & Hp). eapply effective_known; eauto. Qed.

(** The width a record is observed at. *)
Definition observed_width op : Z :=
  if SentState op then Target (OpWidth op) else Old (OpWidth op).

Lemma attempts_ok_state op st :
  (SentState op = true -> sent_state st = true) ->
  (SentState op = false -> st = State op) ->
  attempts_ok op -> attempts_ok (set_state op st).
Proof.
  intros H1 H2 [Hb Hz]. split; [done|]. unfold SentState at 1. simpl. intros Hs. apply Hz.
  destruct (SentState op); [|done]. rewrite H1 in Hs by done. done.
Qed.

Section act.
Context (s : modelDeploymentElasticStatus) (pods : list Pod) (master : Pod)
        (ray : modelDeploymentElasticObservation) (op : elasticOperation) (facts : elasticFacts).
Context (Hgen : FGeneration facts = MGeneration md)
        (Hactors : ActorMappingKnown facts = ActorsComplete ray)
        (Hproven : ForwardProven facts = true -> proven_at (observed_width op) (SEffective s) ray)
        (Hreleased : State op = Released -> ForwardProven facts = true).

Lemma release_action_safe {A} d :
  SentState op = true -> Generation op = MGeneration md -> ForwardProven facts = true ->
  ActorMappingKnown facts = true ->
  Action d = ReleaseAction -> safe (fun w _ => here w op) (act e md s pods master ray op d : pass W A).
Proof.
  intros Hs Hg Hf Ham Hd. specialize (Hproven Hf).
  eapply h_assume; [intros w l [Hr Ha]; exact (conj (record_in_spec _ _ Hr) Ha)|].
  intros [[V Hmd] Ha]. unfold act. rewrite Hd. eapply h_bind.
  - eapply (h_update op); eauto. intros Hb. apply attempts_ok_state; auto; congruence.
  - intros op'. eapply h_assume;
      [intros w l (rv & Hrv & _); exact (ex_intro (fun rv => _ = _) rv Hrv)|]. intros (rv & ->).
    eapply h_bind; [|intros [err|]; apply finish_safe].
    apply h_delete_captured. intros w l release (_ & _ & Hr) Hrel.
    destruct (record_in_spec _ _ Hr) as [V' _]. unfold released_record. split_and!; auto.
    + now rewrite (valid_sent _ V').
    + congruence.
    + exists (SEffective s). unfold observed_width in Hproven. rewrite Hs in Hproven. exact Hproven.
Qed.

Lemma complete_action_safe {A} d :
  SentState op = true -> ForwardProven facts = true ->
  Action d = Complete -> safe (fun w _ => here w op) (act e md s pods master ray op d : pass W A).
Proof.
  intros Hs Hf Hd. eapply h_assume; [intros w l [Hr _]; exact (proj1 (record_in_spec _ _ Hr))|].
  intros V. unfold act. rewrite Hd. cbv zeta. apply retire_safe.
  specialize (Hproven Hf). apply proven_at_known in Hproven. unfold observed_width in Hproven.
  rewrite Hs in Hproven. split; [apply V|exact Hproven].
Qed.

Lemma act_safe {A} :
  safe (fun w _ => here w op)
    (act e md s pods master ray op (decideElasticOperation op facts) : pass W A).
Proof.
  pose proof (decision_needs op facts) as Hn. pose proof (decide_state op facts) as [H1 H2].
  destruct (Action (decideElasticOperation op facts)) eqn:Hd.
  2: { unfold act. rewrite Hd. destruct Hn. apply act_request_safe; congruence. }
  2: { unfold act. rewrite Hd. destruct_and? Hn. apply act_retry_safe; congruence. }
  6: { destruct Hn as [Hs Hf]. apply complete_action_safe; auto. destruct Hf; auto. }
  5: { destruct_and? Hn. apply release_action_safe; auto; congruence. }
  all: eapply h_assume;
    [intros w l [Hr Ha]; exact (conj (record_in_spec _ _ Hr) Ha)|intros [[V Hmd] Ha]];
    unfold act; rewrite Hd; (eapply h_bind; [|intros ?; apply finish_safe]);
    destruct (bool_decide _); try (now apply h_ret with (Q := fun _ _ _ => True));
    (eapply h_post; [|eapply (h_update op); eauto]; [done|]);
    intros Hb; apply attempts_ok_state; auto; intros Hs; apply H2; auto; congruence.
Qed.

End act.

(** *** Records whose world moved *)

(** The next condition of the program. *)
Ltac branch H :=
  match goal with |- hoare _ (if ?c then _ else _) _ => destruct c eqn:H end.

Lemma recover_drift_safe P s pods captured master op :
  safe P (recoverElasticUnsentMemberDrift e md s pods captured master op).
Proof.
  unfold recoverElasticUnsentMemberDrift. branch H1; [now apply h_ret|]. cbv zeta.
  branch Hw; [now apply h_ret|]. branch H2; [now apply h_ret|].
  destruct (elasticEffective _ _ _ _ _ _ _) as [[effective ray] proven] eqn:He.
  destruct proven; cbn [negb]; [|now apply h_ret]. apply effective_known in He as ->.
  eapply h_bind; [apply h_settle|intros ?].
  - split; [|done]. simpl. apply orb_false_iff in Hw as [Hw _]. bools. unfold WidthMin in Hw. lia.
  - eapply h_bind with (Q := fun _ _ l => settled_before l); [|intros ?].
    + branch H3; [|now apply h_ret].
      apply (or_return_still _ (set_withdrawn_still _ _ _)), settled_before_grows.
    + eapply h_bind; [apply h_delete|intros ?].
      eapply h_bind; [|intros ?; now apply h_ret].
      apply still_safe, or_return_still, record_condition_still.
Qed.

Lemma recover_upscale_safe P s pods captured master op :
  valid op ->
  safe P (recoverElasticUpscaleAfterGenerationChange e md s pods captured master op).
Proof.
  intros V. unfold recoverElasticUpscaleAfterGenerationChange. branch H1; [now apply h_ret|].
  destruct (elasticEffective _ _ _ _ _ _ _) as [[effective ray] proven] eqn:He.
  destruct proven; cbn [negb]; [|now apply h_ret]. apply effective_known in He as ->.
  destruct (negb (ActorsComplete ray)); [now apply h_ret|].
  destruct (IsScaling e) as [err|[]]; [apply h_leave|now apply h_ret|].
  destruct (upscale_members _ _ _ _) as [[[retiring gpuMembers] headIdentity] masterIdentity].
  assert (0 < Old (OpWidth op)) as Hpos by apply V.
  branch H3.
  - eapply h_bind; [apply h_settle; now split|intros ?].
    eapply h_bind; [apply h_delete|intros ?]. now apply h_ret.
  - branch H2; [now apply h_ret|].
    destruct (CaptureRelease e retiring) as [err|release]; [apply h_leave|].
    eapply h_bind; [apply persist_safe|intros ?].
    eapply h_bind; [|intros ?; now apply h_ret with (Q := fun _ _ _ => True)].
    eapply h_store_write with (op := recovered_record md op captured gpuMembers retiring
      headIdentity masterIdentity release); [|intros ???; apply recover_returns|done].
    intros _. unfold attempts_ok, elasticScaleMaxAttempts. simpl. split; [lia|done].
Qed.

Lemma generation_exit_proven s ray proven op reason :
  elasticGenerationExit e s ray proven op = (reason, true) -> proven = true.
Proof. unfold elasticGenerationExit. now destruct proven. Qed.

Lemma reconstruct_safe {A} P s pods captured master op :
  valid op -> safe P (reconstructElasticGeneration e md s pods captured master op : pass W A).
Proof.
  intros V. unfold reconstructElasticGeneration. cbv zeta.
  destruct (elasticEffective _ _ _ _ _ _ _) as [[effective ray] proven] eqn:He.
  eapply h_bind with (Q := fun r _ _ => proven = true -> SEffective (snd r) = effective).
  { destruct proven; [now apply h_ret|].
    eapply h_post; [|now apply recover_upscale_safe]. done. }
  intros [[reason|] s']; [apply finish_safe|].
  eapply h_assume; [intros w l Hs; exact Hs|]. simpl. intros Hs.
  destruct (elasticGenerationExit _ _ _ _ _) as [reason []] eqn:Hx; simpl; [|apply finish_safe].
  apply generation_exit_proven in Hx as ->. apply retire_safe. apply effective_known in He as ->.
  split; simpl; [destruct (SentState op); apply V|now apply Hs].
Qed.

(** *** A record of this generation *)

Lemma pass_released_safe {A} s ray proven nc op (k : pass W A) :
  State op = Released -> Generation op = MGeneration md ->
  (proven = true -> proven_at (observed_width op) (SEffective s) ray) ->
  (proven = true -> safe (fun w _ => here w op) k) ->
  safe (fun w _ => here w op) (pass_released e md s ray proven nc op k).
Proof.
  intros Hst Hg Hp Hk. unfold pass_released. branch H1; [apply finish_safe|].
  apply orb_false_iff in H1 as [H1 Hac]. apply orb_false_iff in H1 as [H1 _]. bools. subst proven.
  eapply h_assume; [intros w l [Hr Ha]; exact Ha|]. intros Ha.
  eapply h_bind; [apply h_delete_captured|].
  - intros w l release [Hr _] Hrel. destruct (record_in_spec _ _ Hr) as [V _].
    assert (SentState op = true) as Hs by (unfold SentState; now rewrite Hst).
    unfold released_record. split_and!; auto; [now rewrite (valid_sent _ V)|].
    exists (SEffective s). unfold observed_width in Hp. rewrite Hs in Hp. auto.
  - intros [err|]; [apply finish_safe|].
    destruct (TargetsAbsent e) as [r1 []]; simpl; [|apply finish_safe].
    destruct (WorkloadsGone e) as [r2 []]; simpl; [|apply finish_safe].
    destruct (AcceleratorsReturned e) as [r3 []]; simpl; [|apply finish_safe].
    eapply h_pre; [|now apply Hk]. intros w l Hr. split; auto.
Qed.

Lemma here_grows op : grows (fun w _ => here w op).
Proof. now intros w l l'. Qed.

Lemma pass_recorded_safe {A} s pods master ray proven op :
  Generation op = MGeneration md ->
  (proven = true -> proven_at (observed_width op) (SEffective s) ray) ->
  safe (fun w _ => here w op) (pass_recorded e md s pods master ray proven op : pass W A).
Proof.
  intros Hg Hp. unfold pass_recorded. cbv zeta.
  destruct (scaling_facts e op proven) as [[[failure nc] known] scaling].
  eapply h_bind with (Q := fun _ w _ => here w op).
  { destruct (Upward (OpWidth op)); [now apply h_ret|]. apply withdrawal_still, here_grows. }
  intros [withdrawn reason]. branch H1; [apply finish_safe|].
  assert ((State op = Released -> proven = true) -> forall facts,
    FGeneration facts = MGeneration md -> ForwardProven facts = proven ->
    ActorMappingKnown facts = ActorsComplete ray ->
    safe (fun w _ => here w op)
      (if negb (SentState op) && negb proven
       then finish e md (set_observed_state s (State op)) (Some op)
              "current native ranks and forwards do not prove the old world"
       else match failure with
            | Some err => finish e md (set_observed_state s (State op)) (Some op) err
            | None => act e md (set_observed_state s (State op)) pods master ray op
                        (decideElasticOperation op facts)
            end : pass W A)) as Hact.
  { intros Hr facts Hfg Hfp Hfa. branch H2; [apply finish_safe|].
    destruct failure; [apply finish_safe|]. apply act_safe; auto; rewrite Hfp; auto. }
  branch H3.
  - apply bool_decide_eq_true in H3. apply pass_released_safe; auto.
  - apply bool_decide_eq_false in H3. apply Hact; auto; done.
Qed.

(** *** The whole pass *)

Lemma fresh_record_attempts pods master width desired ray :
  attempts_ok (fst (fresh_record md pods master width desired ray)).
Proof. split; [unfold elasticScaleMaxAttempts; simpl; lia|done]. Qed.

Lemma pass_created_safe {A} s pods master ray op :
  attempts_ok op -> of_md op -> Generation op = MGeneration md ->
  proven_at (observed_width op) (SEffective s) ray ->
  forall P, safe P (let! op := store_create e op in
                    pass_recorded e md s pods master ray true op : pass W A).
Proof.
  intros Ha Hmd Hg Hp P. eapply h_bind.
  - apply h_store_write with (op := op); auto. intros w w' op'. apply create_returns.
  - intros op'. eapply h_assume;
      [intros w l (rv & Hrv & _); exact (ex_intro (fun rv => _ = _) rv Hrv)|]. intros (rv & ->).
    eapply h_pre; [|apply pass_recorded_safe; [done|intros _; exact Hp]].
    intros w l (_ & _ & Hr). split; [done|]. intros _. now apply attempts_ok_version.
Qed.

Lemma pass_resize_safe {A} P s pods master desired width ray :
  proven_at width (SEffective s) ray ->
  safe P (pass_resize e md s pods master desired width ray
            (fun op => pass_recorded e md s pods master ray true op) : pass W A).
Proof.
  intros Hp. unfold pass_resize. branch H1; [apply finish_safe|].
  pose proof (fresh_record_attempts pods master width desired ray) as Ha.
  destruct (fresh_record _ _ _ _ _ _) as [op retiring] eqn:Hf. unfold fresh_record in Hf.
  injection Hf as Hop _. simpl in Ha.
  assert (of_md op /\ Generation op = MGeneration md /\ observed_width op = width) as (Hmd & Hg & Hw)
    by now rewrite <- Hop.
  clear Hop. rewrite <- Hw in Hp. branch H2; [now apply pass_created_safe|].
  branch H3; [apply finish_safe|].
  destruct (CaptureRelease e retiring) as [err|release]; [apply finish_safe|].
  now apply pass_created_safe.
Qed.

Lemma pass_unrecorded_safe {A} P s pods master desired width :
  safe P (pass_unrecorded e md s pods master desired width
            (fun s ray proven op => pass_recorded e md s pods master ray proven op) : pass W A).
Proof.
  unfold pass_unrecorded. cbv zeta.
  destruct (elasticEffective _ _ _ _ _ (Probe0 e) _) as [[eff1 ray1] proven1] eqn:E1.
  branch H1.
  - destruct (elasticEffective _ _ _ _ _ (Reprobe e) _) as [[eff2 ray2] proven2] eqn:E2.
    destruct proven2; cbn [negb]; [|apply unprovable_safe]. branch H2; [apply finish_safe|].
    apply pass_resize_safe. exists pods, master, (Reprobe e). auto.
  - destruct proven1; cbn [negb]; [|apply unprovable_safe]. branch H2; [apply finish_safe|].
    apply pass_resize_safe. exists pods, master, (Probe0 e). auto.
Qed.

Lemma bookkeeping_safe {A} P s master (k : Z -> pass W A) :
  (forall width, safe P (k width)) -> safe P (bookkeeping_width e md s master k).
Proof.
  intros Hk. unfold bookkeeping_width.
  destruct (ModelDeploymentElasticBootstrapFromMaster _ _ _) as [boot|]; [|apply finish_safe].
  intros w l HP Ho. destruct (elasticObservationDocument _ _ _) as [err|[cm|]].
  - now apply (finish_safe (fun _ _ => True)).
  - destruct (status_unmarshal _) as [err|old]; [now apply (finish_safe (fun _ _ => True))|].
    now apply Hk.
  - now apply Hk.
Qed.

Lemma pass_observed_safe {A} s desired pods captured master (held : option elasticOperation) :
  safe (fun w _ => match held with Some op => here w op | None => True end)
    (pass_observed e md s desired pods captured master held : pass W A).
Proof.
  destruct held as [op|]; simpl; [|apply bookkeeping_safe; intros; apply pass_unrecorded_safe].
  eapply h_assume; [intros w l [Hr _]; exact (proj1 (record_in_spec _ _ Hr))|]. intros V.
  branch H1.
  - unfold pass_drifted. eapply h_bind; [apply recover_drift_safe|]. intros [[] s'];
      [apply h_leave|]. branch H2; [apply finish_safe|now apply reconstruct_safe].
  - branch H2; [now apply reconstruct_safe|]. bools.
    destruct (elasticEffective _ _ _ _ _ _ _) as [[eff ray] proven] eqn:E.
    apply pass_recorded_safe; [done|]. intros ->. exists pods, master, (Probe0 e). auto.
Qed.

(** Every event of a pass started at [w0] is justified. *)
Lemma pass_justified w ev l1 l2 :
  snd (snd (reconcileModelDeploymentElasticResize e md w0 [])) = l1 ++ (w, ev) :: l2 ->
  good l1 w ev.
Proof.
  assert (safe (fun w _ => w = w0) (reconcileModelDeploymentElasticResize e md)) as Hsafe.
  { unfold reconcileModelDeploymentElasticResize. branch H1; [apply h_leave|].
    destruct (ModelDeploymentElasticRole md) as [[roleName desired]|]; [|apply h_leave]. cbv zeta.
    destruct (elasticLiveMembers _ _ _) as [[err|]|pods]; [apply hold_safe|apply h_leave|].
    destruct (elasticRuntimeMembers md pods) as [[m err]|[captured master]]; [apply hold_safe|].
    destruct (NativeClient e); [apply hold_safe|].
    eapply h_bind with (Q := fun r w _ => w = w0 /\ r = record_in w).
    { intros w1 l -> Ho. simpl. auto. }
    intros r. destruct r as [[]|op]; try apply hold_safe.
    - eapply h_pre; [|apply pass_observed_safe]. done.
    - eapply h_pre; [|apply pass_observed_safe]. intros w1 l [-> Hr]. split; [done|].
      intros Hb. now apply Hb. }
  intros Hl. specialize (Hsafe w0 [] eq_refl). unfold ok in Hsafe.
  destruct (reconcileModelDeploymentElasticResize e md w0 []) as [[v|a] [w' l']]; simpl in Hl.
  - eapply Hsafe; [|exact Hl]. now intros [|].
  - eapply (proj1 (Hsafe ltac:(now intros [|]))), Hl.
Qed.

End safety.

(** ** Theorems of the pass *)

Definition pass_log {W} `{ConfigMapApi W} `{RecordCodec} `{StatusCodec}
    (e : env) (md : ModelDeployment) (w0 : W) : list (W * event) :=
  snd (snd (reconcileModelDeploymentElasticResize e md w0 [])).

Section claims.
Context {W : Type} `{Api : ConfigMapApi W} `{Codec : RecordCodec} `{Codec2 : StatusCodec}
        `{!ConfigMapApiLaws} `{!RecordCodecLaws}.

Lemma logged_good (e : env) (md : ModelDeployment) (w0 w : W) (ev : event) :
  (w, ev) ∈ pass_log e md w0 -> exists l1, good e md w0 l1 w ev.
Proof.
  intros Hin. apply list_elem_of_split in Hin as (l1 & l2 & Hl). exists l1.
  eapply pass_justified, Hl.
Qed.


(** C20: whatever the world answers, a Pod is deleted only under the UID and
    version preconditions of a worker that the stored record captured, while
    that record stands released at the current generation, the pass has proven
    the engine at the record's target width with a complete actor mapping that
    shows this worker free, the Pod still belongs to the deployment and still
    carries the captured claim; the reserved master is never deleted. *)
Theorem pod_deletion_justified (e : env) (md : ModelDeployment) (w0 w : W)
    (pod : Pod) (uid rv : string) :
  (w, PodDeleted pod uid rv) ∈ pass_log e md w0 -> retired_pod e md w pod uid rv.
Proof. intros Hin. now destruct (logged_good _ _ _ _ _ Hin) as [l1 Hg]. Qed.

(** C21: the proof outlives the record: a pass removes the durable record only
    after it has written an observation whose stable width is a positive width
    that it proved on the engine. *)
Theorem record_deleted_after_settled (e : env) (md : ModelDeployment) (w0 w : W)
    (op : elasticOperation) (l1 l2 : list (W * event)) :
  pass_log e md w0 = l1 ++ (w, RecordDeleted op) :: l2 -> settled_before l1.
Proof. intros Hl. exact (pass_justified e md w0 w _ l1 l2 Hl). Qed.

(** The retry bound is an invariant of the stored record: if the record
    read at the start of a pass counts at most five refusals, and none before
    its command left, so does every record the pass writes. *)
Theorem retry_bound_kept (e : env) (md : ModelDeployment) (w0 w : W) (op : elasticOperation) :
  bounded_before md w0 -> (w, Stored op) ∈ pass_log e md w0 -> attempts_ok op.
Proof. intros Hb Hin. destruct (logged_good _ _ _ _ _ Hin) as [l1 Hg]. now apply Hg. Qed.

End claims.

(** ** The rank proof *)

Lemma ranks_distinct_spec ranks n rank seen :
  ranks_distinct ranks n rank seen = true <->
  (forall r, rank <= r < rank + Z.of_nat n ->
     exists uid, ranks !! r = Some uid /\ uid <> "" /\ uid ∉ seen) /\
  (forall r r' uid, rank <= r < rank + Z.of_nat n -> rank <= r' < rank + Z.of_nat n ->
     ranks !! r = Some uid -> ranks !! r' = Some uid -> r = r').
Proof.
  revert rank seen. induction n as [|n IH]; intros rank seen; simpl.
  { split; [intros _; split; intros; lia|done]. }
  destruct (_ || _) eqn:Hc.
  - split; [done|]. intros [H1 _]. destruct (H1 rank ltac:(lia)) as (uid & Hu & Hne & Hs).
    rewrite Hu in Hc. simpl in Hc. apply orb_true_iff in Hc as [Hc|Hc];
      [now apply str_empty_spec in Hc|now apply bool_decide_eq_true in Hc].
  - apply orb_false_iff in Hc as [Hc Hs]. apply str_empty_false in Hc.
    apply bool_decide_eq_false in Hs.
    destruct (ranks !! rank) as [uid|] eqn:Hr; [|done]. simpl in *. rewrite IH. split.
    + intros [H1 H2]. split.
      * intros r Hin. destruct (Z.eq_dec r rank) as [->|]; [eauto|].
        destruct (H1 r ltac:(lia)) as (u & ? & ? & Hnu). exists u. split_and!; auto.
        intros Hx. apply Hnu. now right.
      * intros r r' u Hin Hin' Hu Hu'.
        destruct (Z.eq_dec r rank) as [->|], (Z.eq_dec r' rank) as [->|]; [done| | |eapply H2; eauto; lia].
        -- destruct (H1 r' ltac:(lia)) as (v & Hv & _ & Hnv). simplify_eq. destruct Hnv. now left.
        -- destruct (H1 r ltac:(lia)) as (v & Hv & _ & Hnv). simplify_eq. destruct Hnv. now left.
    + intros [H1 H2]. split.
      * intros r Hin. destruct (H1 r ltac:(lia)) as (u & Hu & ? & Hnu). exists u. split_and!; auto.
        intros [->|?]%elem_of_cons; [|done]. assert (r = rank) by (eapply H2; eauto; lia). lia.
      * intros r r' u ? ? ? ?. eapply H2; eauto; lia.
Qed.

(** A map whose size is [width] and which has every rank below [width] has no
    other. *)
Lemma exact_domain (ranks : gmap Z string) (width : Z) :
  Z.of_nat (size ranks) = width ->
  (forall r, 0 <= r < width -> is_Some (ranks !! r)) ->
  forall r, is_Some (ranks !! r) <-> 0 <= r < width.
Proof.
  intros Hs Hin r. split; [|auto]. intros Hr.
  assert (list_to_set (seqZ 0 width) = dom ranks) as Hd.
  { apply set_subseteq_size_eq.
    - intros x Hx. apply elem_of_list_to_set, elem_of_seqZ in Hx. apply elem_of_dom, Hin. lia.
    - rewrite size_dom, size_list_to_set by apply NoDup_seqZ. rewrite length_seqZ. lia. }
  apply elem_of_dom in Hr. rewrite <- Hd in Hr. apply elem_of_list_to_set, elem_of_seqZ in Hr. lia.
Qed.

Lemma exact_size (ranks : gmap Z string) (width : Z) :
  0 <= width -> (forall r, is_Some (ranks !! r) <-> 0 <= r < width) ->
  Z.of_nat (size ranks) = width.
Proof.
  intros Hw Hin. assert (list_to_set (seqZ 0 width) = dom ranks) as Hd.
  { apply set_eq. intros x. rewrite elem_of_list_to_set, elem_of_seqZ, elem_of_dom, Hin. lia. }
  rewrite <- size_dom, <- Hd, size_list_to_set by apply NoDup_seqZ. rewrite length_seqZ. lia.
Qed.

(** The rank proof of a width holds exactly when Ray reports that width and
    its rank map is a bijection: the ranks are precisely 0 .. width-1, each
    names a Pod, no Pod bears two ranks, and rank 0 is the reserved master. *)
Theorem rank_map_complete_iff (obs : modelDeploymentElasticObservation) (width : Z)
    (master : string) :
  0 < width ->
  elasticRankMapComplete obs width master = true <->
  WidthKnown obs = true /\ RayWidth obs = width /\
  (forall r, is_Some (RankToPodUID obs !! r) <-> 0 <= r < width) /\
  (forall r uid, RankToPodUID obs !! r = Some uid -> uid <> "") /\
  (forall r r' uid, RankToPodUID obs !! r = Some uid -> RankToPodUID obs !! r' = Some uid -> r = r') /\
  RankToPodUID obs !! 0 = Some master.
Proof.
  intros Hw. unfold elasticRankMapComplete. destruct (_ || _) eqn:Hc.
  - split; [done|]. intros (Hk & Hr & Hdom & _ & _ & H0). exfalso.
    rewrite Hk, Hr, Z.eqb_refl, H0, (exact_size _ _ (Z.lt_le_incl _ _ Hw) Hdom), Z.eqb_refl in Hc.
    simpl in Hc. rewrite str_neq_refl in Hc. done.
  - apply orb_false_iff in Hc as [Hc Hm]. apply orb_false_iff in Hc as [Hc Hs].
    apply orb_false_iff in Hc as [Hk Hr]. bools. rewrite ranks_distinct_spec.
    rewrite Z2Nat.id by lia. split.
    + intros [H1 H2]. assert (forall r, is_Some (RankToPodUID obs !! r) <-> 0 <= r < width) as Hdom.
      { apply exact_domain; [done|]. intros r Hin. destruct (H1 r ltac:(lia)) as (u & -> & _). eauto. }
      split_and!; auto.
      * intros r uid Hu. destruct (H1 r ltac:(apply Hdom; eauto)) as (u & ? & ? & _). congruence.
      * intros r r' uid Hu Hu'. eapply H2; eauto; apply Hdom; eauto.
      * destruct (H1 0 ltac:(lia)) as (u & Hu & _). rewrite Hu in *. simpl in Hm. congruence.
    + intros (_ & _ & Hdom & Hne & Hinj & _). split; [|eauto].
      intros r Hin. destruct (proj2 (Hdom r) Hin) as [u Hu]. exists u.
      split_and!; eauto. apply not_elem_of_nil.
Qed.

(** ** A concrete deployment

    A narrowing from four members to two: its command, the deletion of what it
    released, and its end, on an in-memory API server. *)
Module PassExample.

#[local] Existing Instances Example.api Example.api_laws.

Definition deployment : ModelDeployment :=
  {| MName := "llm"; MNamespace := "team-a"; MUID := "md-1"; MGeneration := 7; MDeleting := false;
     MRoles := [{| RName := "decode"; ElasticEP := Some 2 |}]; MCondition := None |}.

Definition owner : OwnerReference :=
  {| APIVersion := groupVersion; Kind := "ModelDeployment"; OwnerName := "llm"; OwnerUID := "md-1";
     Controller := Some true |}.

Definition member (name uid role ordinal : string) : Pod :=
  {| PName := name; PNamespace := "team-a"; PUID := uid; PResourceVersion := "9";
     PLabels := Some {[ modelDeploymentLabelKeyComponent := role;
                        modelDeploymentReplicaOrdinalLabel := ordinal ]};
     PAnnotations := Some {[ AllocatedAcceleratorAnnoKey := uid ]};
     POwnerReferences := [owner]; PDeleting := false; PodIP := "10.0.0.1";
     PContainerStatuses := [{| CName := "main"; ContainerID := "c"; Running := true; CRest := "" |}];
     PSpec := "" |}.

Definition pods : list Pod :=
  [member "llm-0" "p-0" "decode" "0"; member "llm-1" "p-1" "decode" "1";
   member "llm-2" "p-2" "decode" "2"; member "llm-3" "p-3" "decode" "3";
   member "llm-head" "p-h" "llm-elastic-head" "0"].

Definition captured (name uid : string) : releaseMember :=
  {| PodUID := uid; MemberNamespace := "team-a"; MemberName := name; NodeName := "n";
     AcceleratorClaim := ""; MemberCards := []; Claim := uid |}.

Definition released : elasticOperation :=
  {| Name := "llm"; DeploymentUID := "md-1"; Namespace := "team-a"; Generation := 7;
     OpWidth := Width 4 2; Workers := Workers Example.recorded; Master := Master Example.recorded;
     Head := Head Example.recorded; Members := Members Example.recorded;
     Release := Some {| ModelDeploymentUID := "md-1"; ObservedGeneration := 7; RoleName := "decode";
       ReplicaOrdinal := 0; TargetMemberUIDs := ["p-2"; "p-3"]; TargetWorkloadUID := "";
       StartedAt := ""; LastConsumedRetryToken := "";
       ReleaseMembers := [captured "llm-2" "p-2"; captured "llm-3" "p-3"];
       WorkloadUIDs := []; ReleaseNodes := [] |};
     State := Released; CommandIntent := "scale to 2"; CommandSent := true; ScaleAttempts := 0;
     ScaleLastError := ""; ScaleLastFailedAt := None; ScaleAmbiguousAttempts := 0;
     ResourceVersion := "" |}.

#[export] Instance codec : RecordCodec :=
  {| json_marshal := fun op =>
       if bool_decide (op = released) then Some "released" else @json_marshal Example.codec op;
     json_decode := fun s =>
       if bool_decide (s = "released") then DecodeOne released else @json_decode Example.codec s;
     getControllerOf := @getControllerOf Example.codec |}.

#[export] Instance codec_laws : @RecordCodecLaws codec.
Proof.
  split; [|apply Example.codec_laws].
  intros op s. simpl. case_bool_decide as H1; [intros [= <-]; subst; done|].
  intros Hs. destruct (@codec_roundtrip Example.codec Example.codec_laws op s Hs) as [Hd Hb].
  split; [|done]. rewrite bool_decide_eq_false_2; [done|]. intros ->. discriminate.
Defined.

#[export] Instance status_codec : StatusCodec :=
  {| status_marshal := fun _ => Some "{}"; status_unmarshal := fun _ => inl "malformed" |}.

Definition created : Example.world := fst (Create true None ∅ Example.recorded).

Definition released_world : Example.world :=
  {[ ("team-a", "elastic-resize-md-1") :=
     {| CmNamespace := "team-a"; CmName := "elastic-resize-md-1"; CmUID := "u";
        CmResourceVersion := "5"; CmLabels := ∅; CmOwnerReferences := [owner];
        CmCreationTimestamp := None; CmData := {[ elasticOperationDataKey := "released" ]} |} ]}.

Definition reads : members_read := {| mr_deployment := inr deployment; mr_pods := inr pods |}.

Definition ray (width : Z) : modelDeploymentElasticObservation :=
  {| WidthKnown := true; RayWidth := width;
     RankToPodUID := if width =? 2 then {[ 0 := "p-0"; 1 := "p-1" ]}
                     else {[ 0 := "p-0"; 1 := "p-1"; 2 := "p-2"; 3 := "p-3" ]};
     RegisteredGPUKnown := true; RegisteredGPU := width; RegisteredGPUUnknownReason := "";
     ActorsComplete := true; ObsActorFree := {[ "p-2" := true; "p-3" := true ]} |}.

Definition answers (width : Z) : probe :=
  {| pr_first := (ray width, None);
     pr_native := inr {| ObservedWidth := width;
                         Forwards := (fun r => (r, true)) <$> seqZ 0 width |};
     pr_second := (ray width, None); pr_after := reads |}.

Definition withdrawing : withdraw_env :=
  {| we_fresh := inr (member "llm-0" "p-0" "decode" "0"); we_update := None; we_members := reads;
     we_service := None; we_router := None |}.

(** The retired Pods as [present] says. *)
Definition deleting (present : string -> pod_answer) : delete_env :=
  {| de_deployment := inr deployment; de_pod := present; de_delete_pod := fun _ => None;
     de_workloads := inr []; de_delete_workload := fun _ => None |}.

Definition answers_env (present : string -> pod_answer) : env :=
  {| HasAPIReader := true; ErrorText := fun _ => "store error"; Members0 := reads;
     Allocation := (knownLayer 4, knownLayer 4); NativeClient := None; HasObserver := true;
     ProbeDrift := answers; Probe0 := answers; Reprobe := answers;
     CaptureRelease := fun _ => inl "unreadable"; CreateClock := 0;
     IsScaling := inr false; IsScalingExit := inr false; Withdraw := withdrawing;
     Residual := ("", false); Disaggregated := (false, ""); DrainAnswer := inr (true, "Idle", "");
     DeleteResumed := deleting present; DeleteReleased := deleting present;
     TargetsAbsent := ("", true); WorkloadsGone := ("", true); AcceleratorsReturned := ("", true);
     MembersAgain := reads; Scale := fun _ => None; ClockBefore := 0; ClockAfter := 0;
     Restore := withdrawing; PersistDeployment := inr deployment; PatchCondition := None |}.

Definition worker_present (name : string) : pod_answer :=
  if bool_decide (name = "llm-2") then PodFound (member "llm-2" "p-2" "decode" "2") else PodNotFound.

End PassExample.

#[local] Existing Instances Example.api Example.api_laws PassExample.codec PassExample.codec_laws
  PassExample.status_codec.

Lemma logged {W} (p : event -> bool) (l : list (W * event)) :
  existsb (fun x => p (snd x)) l = true -> exists w ev, (w, ev) ∈ l /\ p ev = true.
Proof.
  intros Hx. apply existsb_exists in Hx as ([w ev] & Hin & Hp). exists w, ev.
  split; [|done]. now apply list_elem_of_In.
Qed.


Lemma pod_deletion_justified_witness :
  let e := PassExample.answers_env PassExample.worker_present in
  let pod := PassExample.member "llm-2" "p-2" "decode" "2" in
  exists w, (w, PodDeleted pod "p-2" "9") ∈ pass_log e PassExample.deployment PassExample.released_world
    /\ retired_pod e PassExample.deployment w pod "p-2" "9".
Proof.
  intros e pod.
  assert (exists w, (w, PodDeleted pod "p-2" "9")
    ∈ pass_log e PassExample.deployment PassExample.released_world) as [w Hin].
  { assert ((pass_log e PassExample.deployment PassExample.released_world).*2 !! 3%nat
            = Some (PodDeleted pod "p-2" "9")) as Hl by (vm_compute; reflexivity).
    apply list_elem_of_lookup_2, list_elem_of_fmap in Hl as ([w ev] & -> & Hin). eauto. }
  exists w. split; [exact Hin|]. eapply pod_deletion_justified. exact Hin.
Defined.

Lemma record_deleted_after_settled_witness :
  let log := pass_log (PassExample.answers_env (fun _ => PodNotFound))
               PassExample.deployment PassExample.released_world in
  exists l1 w op l2, log = l1 ++ (w, RecordDeleted op) :: l2 /\ settled_before l1.
Proof.
  intros log.
  destruct (logged (fun ev => match ev with RecordDeleted _ => true | _ => false end) log)
    as (w & ev & Hin & Hp); [vm_compute; reflexivity|].
  destruct ev as [| |op| | | | | | |]; try discriminate.
  apply list_elem_of_split in Hin as (l1 & l2 & Hl). exists l1, w, op, l2.
  split; [exact Hl|]. eapply record_deleted_after_settled. exact Hl.
Defined.

Definition bounded_check {W} `{ConfigMapApi W} `{RecordCodec} (md : ModelDeployment) (w0 : W) : bool :=
  match record_in md w0 with
  | inl _ => true
  | inr op => (0 <=? ScaleAttempts op) && (ScaleAttempts op <=? elasticScaleMaxAttempts)
              && (SentState op || (ScaleAttempts op =? 0))
  end.

Lemma bounded_check_spec {W} `{ConfigMapApi W} `{RecordCodec} (md : ModelDeployment) (w0 : W) :
  bounded_check md w0 = true -> bounded_before md w0.
Proof.
  unfold bounded_check, bounded_before, attempts_ok. intros Hc op Hr. rewrite Hr in Hc.
  apply andb_true_iff in Hc as [[H1 H2]%andb_true_iff H3]. apply orb_true_iff in H3. split; [lia|].
  intros Hs. rewrite Hs in H3. destruct H3; [done|lia].
Qed.

Lemma retry_bound_kept_witness :
  let log := pass_log (PassExample.answers_env PassExample.worker_present)
               PassExample.deployment PassExample.created in
  exists w op, (w, Stored op) ∈ log /\ attempts_ok op.
Proof.
  intros log.
  destruct (logged (fun ev => match ev with Stored _ => true | _ => false end) log)
    as (w & ev & Hin & Hp); [vm_compute; reflexivity|].
  destruct ev as [|op| | | | | | | |]; try discriminate. exists w, op. split; [exact Hin|].
  eapply retry_bound_kept; [|exact Hin]. apply bounded_check_spec. vm_compute. reflexivity.
Defined.

Lemma rank_map_complete_iff_witness :
  0 < 2 /\ WidthKnown (PassExample.ray 2) = true /\
  forall r r' uid, RankToPodUID (PassExample.ray 2) !! r = Some uid ->
    RankToPodUID (PassExample.ray 2) !! r' = Some uid -> r = r'.
Proof.
  split; [lia|].
  destruct (proj1 (rank_map_complete_iff (PassExample.ray 2) 2 "p-0" ltac:(lia))) as (Hk & _ & _ & _ & Hi & _).
  - vm_compute. reflexivity.
  - split; [exact Hk|exact Hi].
Defined.
