(* ===== verification/ModelStore.v ===== *)
(** * The node's model cache: the store

    src/pkg/modelmanager/store (store.go, ledger.go, rebuild.go).  The cache root
    is a [world] of published trees, attempts, trash, reference records and
    digest records.  Each file-system call of the source is one action of
    [perform], which also says how it may fail; the methods of [Store] are
    programs of such actions, with the locks they take, so that the calls of
    several goroutines interleave action by action.  The mount table, the clock
    and the other things the collector and the driver ask for are actions too. *)

From stdpp Require Import prelude gmap strings list sorting pretty.
From S2P Require Import Prelude Programs.

(** ** Data *)

(** A Go error, as far as the code tells errors apart. *)
Inductive ioerr := NotExist | Err (msg : string).

Record Ref := {
  VolumeID : string; TargetPath : string; Hex : string;
  PodNamespace : string; PodName : string; PodUID : string }.

(** Times are nanoseconds since the zero time, durations nanoseconds. *)
Record DigestRecord := {
  LastAttempt : Z; LastUsedTime : Z; Failures : Z; Reason : string; Message : string; RetryTime : Z }.

Definition zero_record : DigestRecord :=
  {| LastAttempt := 0; LastUsedTime := 0; Failures := 0; Reason := ""; Message := ""; RetryTime := 0 |}.

Record Marker := {
  Digest : string; MAttempt : Z; ManifestFormat : string; SizeBytes : Z; FileCount : Z;
  PublishedTime : Z; MSource : string }.

Record Partial := { PHex : string; PAttempt : Z; PSizeBytes : Z; PModTime : Z }.

Record Usage := { Total : Z; Used : Z }.

(** What an attempt's directory holds. *)
Record attempt_dir := { DirSize : Z; DirModTime : Z; DirMarker : option Marker }.

(** The mutexes of Store, Collector and Driver. *)
Inductive lock := ClaimMu | DigestMu | CollectMu | ReserveMu | TargetMu (target : string).
#[export] Instance lock_eq_dec : EqDecision lock.
Proof. solve_decision. Defined.
#[export] Instance lock_countable : Countable lock.
Proof.
  refine (inj_countable' (fun l => match l with
    | ClaimMu => inl 0%nat | DigestMu => inl 1%nat | CollectMu => inl 2%nat | ReserveMu => inl 3%nat
    | TargetMu t => inr t end)
    (fun x => match x with
    | inl 0%nat => ClaimMu | inl 1%nat => DigestMu | inl 2%nat => CollectMu | inl _ => ReserveMu
    | inr t => TargetMu t end) _). by intros [].
Defined.

Abbreviation tid := nat.

(** The cache root, the mount table of the kubelet's targets (digest and whether
    the mount is read-only), the running reservations and the mutexes. *)
Record world := {
  published : gmap string Marker;
  attempts : gmap (string * Z) attempt_dir;
  trash : gset string;
  refs : gmap string Ref;
  digests : gmap string DigestRecord;
  mounts : gmap string (string * bool);
  reservations : gmap nat Z;
  locks : gmap lock tid }.

Record mountAttributes := { Artifact : string; ArtifactUID : string; ADigest : string }.

(** The fields of a ModelArtifact the driver reads. *)
Record ModelArtifact := {
  MaUID : string; OnHuggingFace : bool; OnModelScope : bool;
  Conditions : list (string * string); ResolvedDigest : option string }.

Record Progress := { PublishedNow : bool; PCode : string; PMessage : string }.

(** ** What the environment answers to one action *)

Record choice := {
  fault : option string;         (** the call fails, with this message *)
  late : bool;                   (** ... after its effect, on the directory sync *)
  unlisted : bool;               (** a directory cannot be read *)
  clock : Z;
  usage : ioerr + Usage;
  watermarks : Z * Z * string;
  downloading : gset string;
  pinned : option (gset string);
  cancelled : option string;
  artifact_read : ioerr + option ModelArtifact;
  ensured : Progress;
  written : Z;                   (** of the caller's download *)
  written_of : nat -> Z }.       (** of the running reservations *)

(** ** Actions *)

Inductive act : Type -> Type :=
  | Lock (l : lock) : act unit
  | Unlock (l : lock) : act unit
  | GlobRefs : act (list string)
  | ReadRefFile (volume : string) : act (ioerr + Ref)
  | WriteRefFile (volume : string) (r : Ref) : act (option ioerr)
  | RemoveRefFile (volume : string) : act (option ioerr)
  | StatMarker (hex : string) : act bool
  | ReadMarkerFile (hex : string) : act (ioerr + Marker)
  | ReadDirPublished : act (ioerr + list string)
  | RenameToTrash (hex : string) : act (ioerr + string)
  | SyncPublished : act (option ioerr)
  | ReadDirTrash : act (ioerr + list string)
  | RemoveAllTrash (name : string) : act (option ioerr)
  | GlobDigests : act (list string)
  | ReadDigestFile (hex : string) : act (ioerr + DigestRecord)
  | WriteDigestFile (hex : string) (rec : DigestRecord) : act (option ioerr)
  | RemoveDigestFile (hex : string) : act (option ioerr)
  | ReadDirPartial : act (ioerr + list string)
  | ReadDirAttempts (hex : string) : act (ioerr + list string)
  | WalkAttempt (hex : string) (n : Z) : act (ioerr + Z * Z)
  | RemoveAllAttempt (hex : string) (n : Z) : act (option ioerr)
  | RenameAttempt (hex : string) (from to : Z) : act (option ioerr)
  | RemoveAttemptMarker (hex : string) (n : Z) : act (option ioerr)
  | Unseal (hex : string) (n : Z) : act (option ioerr)
  | MkdirAttempt (hex : string) (n : Z) : act (option ioerr)
  | Seal (hex : string) (n : Z) : act (option ioerr)
  | WriteAttemptMarker (hex : string) (n : Z) (m : Marker) : act (option ioerr)
  | RenameToPublished (hex : string) (n : Z) : act (option ioerr)
  | Now : act Z
  | ReadUsage : act (ioerr + Usage)
  | Watermarks : act (Z * Z * string)
  | Downloading : act (gset string)
  | Pinned : act (option (gset string))
  | CtxErr : act (option string)
  | Written : act Z
  | InFlight : act Z
  | AddReservation (size : Z) : act nat
  | DropReservation (token : nat) : act unit
  | GetArtifact (namespace name : string) : act (ioerr + option ModelArtifact)
  | Ensure (hex : string) : act Progress
  | IsMountPoint (target : string) : act (bool * option ioerr)
  | IsReadOnly (target : string) : act (ioerr + bool)
  | MkdirTarget (target : string) : act (option ioerr)
  | BindMount (hex target : string) : act (option ioerr)
  | RemountReadOnly (target : string) : act (option ioerr)
  | Unmount (target : string) : act (option ioerr)
  | RemoveTarget (target : string) : act (option ioerr).

(** *** Updates of one component of the world *)

Definition set_published f w := {| published := f (published w); attempts := attempts w; trash := trash w;
  refs := refs w; digests := digests w; mounts := mounts w; reservations := reservations w; locks := locks w |}.
Definition set_attempts f w := {| published := published w; attempts := f (attempts w); trash := trash w;
  refs := refs w; digests := digests w; mounts := mounts w; reservations := reservations w; locks := locks w |}.
Definition set_trash f w := {| published := published w; attempts := attempts w; trash := f (trash w);
  refs := refs w; digests := digests w; mounts := mounts w; reservations := reservations w; locks := locks w |}.
Definition set_refs f w := {| published := published w; attempts := attempts w; trash := trash w;
  refs := f (refs w); digests := digests w; mounts := mounts w; reservations := reservations w; locks := locks w |}.
Definition set_digests f w := {| published := published w; attempts := attempts w; trash := trash w;
  refs := refs w; digests := f (digests w); mounts := mounts w; reservations := reservations w; locks := locks w |}.
Definition set_mounts f w := {| published := published w; attempts := attempts w; trash := trash w;
  refs := refs w; digests := digests w; mounts := f (mounts w); reservations := reservations w; locks := locks w |}.
Definition set_reservations f w := {| published := published w; attempts := attempts w; trash := trash w;
  refs := refs w; digests := digests w; mounts := mounts w; reservations := f (reservations w); locks := locks w |}.
Definition set_locks f w := {| published := published w; attempts := attempts w; trash := trash w;
  refs := refs w; digests := digests w; mounts := mounts w; reservations := reservations w; locks := f (locks w) |}.

(** *** One action *)

Definition failure (c : choice) : option ioerr := Err <$> fault c.

(** A call that fails without effect, or has its effect. *)
Definition effect (c : choice) (f : world -> world) (w : world) : option ioerr * world :=
  match failure c with Some e => (Some e, w) | None => (None, f w) end.

(** [writeFileSync]: the rename may have happened when the directory sync fails. *)
Definition durable (c : choice) (f : world -> world) (w : world) : option ioerr * world :=
  match failure c with Some e => (Some e, if late c then f w else w) | None => (None, f w) end.

(** A read that fails, or answers what is there. *)
Definition reading {X} (c : choice) (x : option X) : ioerr + X :=
  match x with
  | None => inl NotExist
  | Some x => match failure c with Some e => inl e | None => inr x end
  end.

(** [os.ReadDir]. *)
Definition listing (c : choice) (names : list string) : ioerr + list string :=
  match failure c with Some e => inl e | None => inr names end.

(** [filepath.Glob], which ignores the errors of reading directories. *)
Definition glob (c : choice) (names : list string) : list string := if unlisted c then [] else names.

Definition keys {A} (m : gmap string A) : list string := (map_to_list m).*1.

(** What the running reservations have yet to write. *)
Definition in_flight (c : choice) (w : world) : Z :=
  map_fold (fun token size n => i64 (n + Z.max (i64 (size - written_of c token)) 0)) 0 (reservations w).

Definition attempt_names (hex : string) (w : world) : list string :=
  (fun k => pretty k.1.2) <$> filter (fun k => k.1.1 = hex) (map_to_list (attempts w)).

Definition fresh_token (w : world) : nat := fresh (dom (reservations w)).

(** [perform t c a w]: goroutine [t] does [a]; [None] when it has to wait. *)
Definition perform (t : tid) (c : choice) {X} (a : act X) (w : world) : option (X * world) :=
  match a with
  | Lock l => match locks w !! l with None => Some (tt, set_locks <[l := t]> w) | Some _ => None end
  | Unlock l => if bool_decide (locks w !! l = Some t) then Some (tt, set_locks (delete l) w) else None
  | GlobRefs => Some (glob c (keys (refs w)), w)
  | ReadRefFile v => Some (reading c (refs w !! v), w)
  | WriteRefFile v r => Some (durable c (set_refs <[v := r]>) w)
  | RemoveRefFile v =>
      Some (match refs w !! v with
            | None => (Some NotExist, w)
            | Some _ => effect c (set_refs (delete v)) w
            end)
  | StatMarker hex => Some (bool_decide (is_Some (published w !! hex) /\ failure c = None), w)
  | ReadMarkerFile hex => Some (reading c (published w !! hex), w)
  | ReadDirPublished => Some (listing c (keys (published w)), w)
  | RenameToTrash hex =>
      Some (match published w !! hex with
            | None => (inl NotExist, w)
            | Some _ =>
                match failure c with
                | Some e => (inl e, w)
                | None =>
                    let dst := hex +:+ "-" +:+ pretty (clock c) in
                    (inr dst, set_trash (fun tr => {[dst]} ∪ tr) (set_published (delete hex) w))
                end
            end)
  | SyncPublished => Some (failure c, w)
  | ReadDirTrash => Some (listing c (elements (trash w)), w)
  | RemoveAllTrash name => Some (effect c (set_trash (fun tr => tr ∖ {[name]})) w)
  | GlobDigests => Some (glob c (keys (digests w)), w)
  | ReadDigestFile hex => Some (reading c (digests w !! hex), w)
  | WriteDigestFile hex rec => Some (durable c (set_digests <[hex := rec]>) w)
  | RemoveDigestFile hex =>
      Some (match digests w !! hex with
            | None => (Some NotExist, w)
            | Some _ => effect c (set_digests (delete hex)) w
            end)
  | ReadDirPartial => Some (listing c (remove_dups (map_to_list (attempts w)).*1.*1), w)
  | ReadDirAttempts hex =>
      Some (match attempt_names hex w with
            | [] => inl NotExist
            | names => listing c names
            end, w)
  | WalkAttempt hex n =>
      Some (match attempts w !! (hex, n) with
            | None => inr (0, 0)
            | Some d => match failure c with Some e => inl e | None => inr (DirSize d, DirModTime d) end
            end, w)
  | RemoveAllAttempt hex n => Some (effect c (set_attempts (delete (hex, n))) w)
  | RenameAttempt hex from to =>
      Some (match attempts w !! (hex, from), attempts w !! (hex, to) with
            | None, _ => (Some NotExist, w)
            | Some _, Some _ => (Some (Err "directory not empty"), w)
            | Some d, None => effect c (set_attempts (fun m => <[(hex, to) := d]> (delete (hex, from) m))) w
            end)
  | RemoveAttemptMarker hex n =>
      Some (match attempts w !! (hex, n) with
            | Some d =>
                match DirMarker d with
                | Some _ => effect c (set_attempts <[(hex, n) :=
                    {| DirSize := DirSize d; DirModTime := DirModTime d; DirMarker := None |}]>) w
                | None => (Some NotExist, w)
                end
            | None => (Some NotExist, w)
            end)
  | Unseal hex n => Some (failure c, w)
  | MkdirAttempt hex n =>
      Some (match attempts w !! (hex, n) with
            | Some _ => (failure c, w)
            | None => effect c (set_attempts <[(hex, n) :=
                {| DirSize := 0; DirModTime := clock c; DirMarker := None |}]>) w
            end)
  | Seal hex n =>
      Some (match attempts w !! (hex, n) with None => Some NotExist | Some _ => failure c end, w)
  | WriteAttemptMarker hex n m =>
      Some (match attempts w !! (hex, n) with
            | None => (Some NotExist, w)
            | Some d => durable c (set_attempts <[(hex, n) :=
                {| DirSize := DirSize d; DirModTime := DirModTime d; DirMarker := Some m |}]>) w
            end)
  | RenameToPublished hex n =>
      Some (match attempts w !! (hex, n), published w !! hex with
            | None, _ => (Some NotExist, w)
            | Some _, Some _ => (Some (Err "directory not empty"), w)
            | Some d, None =>
                match DirMarker d with
                | Some m => effect c (fun w => set_published <[hex := m]> (set_attempts (delete (hex, n)) w)) w
                | None => effect c (set_attempts (delete (hex, n))) w
                end
            end)
  | Now => Some (clock c, w)
  | ReadUsage => Some (usage c, w)
  | Watermarks => Some (watermarks c, w)
  | Downloading => Some (downloading c, w)
  | Pinned => Some (pinned c, w)
  | CtxErr => Some (cancelled c, w)
  | Written => Some (written c, w)
  | InFlight => Some (in_flight c w, w)
  | AddReservation size =>
      let token := fresh_token w in Some (token, set_reservations <[token := size]> w)
  | DropReservation token => Some (tt, set_reservations (delete token) w)
  | GetArtifact _ _ => Some (artifact_read c, w)
  | Ensure _ => Some (ensured c, w)
  | IsMountPoint target =>
      Some (match failure c with
            | Some e => (false, Some e)
            | None => (bool_decide (is_Some (mounts w !! target)), None)
            end, w)
  | IsReadOnly target =>
      Some (match failure c with
            | Some e => inl e
            | None => inr (match mounts w !! target with Some (_, ro) => ro | None => false end)
            end, w)
  | MkdirTarget target => Some (failure c, w)
  | BindMount hex target =>
      Some (match published w !! hex with
            | None => (Some NotExist, w)
            | Some _ => effect c (set_mounts <[target := (hex, false)]>) w
            end)
  | RemountReadOnly target =>
      Some (match mounts w !! target with
            | None => (Some (Err "invalid argument"), w)
            | Some (hex, _) => effect c (set_mounts <[target := (hex, true)]>) w
            end)
  | Unmount target =>
      Some (match mounts w !! target with
            | None => (None, w)
            | Some _ => effect c (set_mounts (delete target)) w
            end)
  | RemoveTarget target =>
      Some (match mounts w !! target with
            | Some _ => (Some (Err "device or resource busy"), w)
            | None => (failure c, w)
            end)
  end.

(** ** Programs *)

Abbreviation prog := (Programs.prog act).
#[global] Open Scope prog_scope.

(** ** File names *)

Definition char_ok (f : nat -> bool) (s : string) : bool :=
  forallb (fun a => f (Ascii.nat_of_ascii a)) (String.list_ascii_of_string s).

Definition in_class (lo hi n : nat) : bool := (lo <=? n)%nat && (n <=? hi)%nat.

(** [^[0-9a-f]{64}$]. *)
Definition hexDigestPattern (s : string) : bool :=
  (String.length s =? 64)%nat && char_ok (fun n => in_class 48 57 n || in_class 97 102 n) s.

(** [^[A-Za-z0-9._-]{1,128}$]. *)
Definition volumeIDPattern (s : string) : bool :=
  in_class 1 128 (String.length s)
  && char_ok (fun n => in_class 65 90 n || in_class 97 122 n || in_class 48 57 n
                       || (n =? 46)%nat || (n =? 95)%nat || (n =? 45)%nat) s.

Definition drop_string (n : nat) (s : string) : string := String.substring n (String.length s - n) s.

Definition HexOf (digest : string) : string :=
  if bool_decide (String.substring 0 7 digest = "sha256:") && hexDigestPattern (drop_string 7 digest)
  then drop_string 7 digest else "".

(** ** References *)

Definition refPath (volume : string) : ioerr + string :=
  if volumeIDPattern volume then inr volume else inl (Err "the volume ID is not a file name").

Definition WriteRef (r : Ref) : prog (option ioerr) :=
  match refPath (VolumeID r) with
  | inl e => Ret (Some e)
  | inr path => call (WriteRefFile path r)
  end.

Definition IsPublished (hex : string) : prog bool := call (StatMarker hex).

Definition Claim (r : Ref) : prog (ioerr + bool) :=
  call (Lock ClaimMu) ;!
  let! res :=
    let! p := IsPublished (Hex r) in
    if negb p then Ret (inr false)
    else
      let! err := WriteRef r in
      match err with Some e => Ret (inl e) | None => Ret (inr true) end in
  call (Unlock ClaimMu) ;! Ret res.

Definition ReadRef (volume : string) : prog (ioerr + option Ref) :=
  match refPath volume with
  | inl e => Ret (inl e)
  | inr path =>
      let! b := call (ReadRefFile path) in
      match b with
      | inl NotExist => Ret (inr None)
      | inl e => Ret (inl e)
      | inr r => Ret (inr (Some r))
      end
  end.

Definition RemoveRef (volume : string) : prog (option ioerr) :=
  match refPath volume with
  | inl e => Ret (Some e)
  | inr path =>
      let! err := call (RemoveRefFile path) in
      match err with Some NotExist => Ret None | _ => Ret err end
  end.

Definition target_le (a b : Ref) : Prop := String.leb (TargetPath a) (TargetPath b) = true.
#[export] Instance target_le_dec : RelDecision target_le.
Proof. intros a b. exact (bool_eq_dec _ _). Defined.

(** One listed record; one unmounted since the listing is skipped. *)
Definition collect_ref (refs : list Ref) (p : string) : prog (ioerr + list Ref) :=
  let! b := call (ReadRefFile p) in
  match b with
  | inl NotExist => Ret (inr refs)
  | inl e => Ret (inl e)
  | inr r => Ret (inr (refs ++ [r]))
  end.

Definition Refs : prog (ioerr + list Ref) :=
  let! paths := call GlobRefs in
  let? refs := for_each paths [] collect_ref in
  Ret (inr (merge_sort target_le refs)).

(** ** Digest records *)

Definition digestPath (hex : string) : ioerr + string :=
  if hexDigestPattern hex then inr hex else inl (Err "the digest is not 64 hexadecimal digits").

Definition ReadDigest (hex : string) : prog (ioerr + DigestRecord) :=
  match digestPath hex with
  | inl e => Ret (inl e)
  | inr path =>
      let! b := call (ReadDigestFile path) in
      match b with inl NotExist => Ret (inr zero_record) | b => Ret b end
  end.

Definition WriteDigest (hex : string) (rec : DigestRecord) : prog (option ioerr) :=
  match digestPath hex with
  | inl e => Ret (Some e)
  | inr path => call (WriteDigestFile path rec)
  end.

(** [fn] also answers what its closure captured. *)
Definition UpdateDigest {A} (hex : string) (fn : DigestRecord -> DigestRecord * A) : prog (ioerr + A) :=
  call (Lock DigestMu) ;!
  let! res :=
    let? rec := ReadDigest hex in
    WriteDigest hex (fn rec).1 ?; Ret (inr (fn rec).2) in
  call (Unlock DigestMu) ;! Ret res.

Definition Digests : prog (ioerr + gmap string DigestRecord) :=
  let! paths := call GlobDigests in
  for_each paths ∅ (fun recs hex =>
    if negb (hexDigestPattern hex) then Ret (inr recs)
    else let? rec := ReadDigest hex in Ret (inr (<[hex := rec]> recs))).

Definition RemoveDigest (hex : string) : prog (option ioerr) :=
  match digestPath hex with
  | inl e => Ret (Some e)
  | inr path =>
      let! err := call (RemoveDigestFile path) in
      match err with Some NotExist => Ret None | _ => Ret err end
  end.

(** ** Published trees *)

Definition ReadMarker (hex : string) : prog (ioerr + Marker) := call (ReadMarkerFile hex).

Definition Published : prog (ioerr + list Marker) :=
  let? entries := call ReadDirPublished in
  for_each entries [] (fun markers name =>
    if negb (hexDigestPattern name) then Ret (inr markers)
    else
      let! m := ReadMarker name in
      match m with
      | inl NotExist => Ret (inr markers)
      | inl (Err msg) => Ret (inl (Err ("published tree " +:+ name +:+ ": " +:+ msg)))
      | inr m => Ret (inr (markers ++ [m]))
      end).

(** The trash name, the empty string when there is no published tree; the error
    may come with the name. *)
Definition trashPublished (hex : string) : prog (string * option ioerr) :=
  let! dst := call (RenameToTrash hex) in
  match dst with
  | inl NotExist => Ret ("", None)
  | inl e => Ret ("", Some e)
  | inr dst => let! err := call SyncPublished in Ret (dst, err)
  end.

Definition RemovePublished (hex : string) : prog (option ioerr) :=
  let! r := trashPublished hex in
  match r with
  | (_, Some e) => Ret (Some e)
  | (trash, None) =>
      if bool_decide (trash = "") then Ret None else call (RemoveAllTrash trash)
  end.

Definition trashUnreferenced (hex : string) : prog (string * option ioerr) :=
  call (Lock ClaimMu) ;!
  let! res :=
    let! refs := Refs in
    match refs with
    | inl e => Ret ("", Some e)
    | inr refs =>
        if existsb (fun r => bool_decide (Hex r = hex)) refs then Ret ("", None)
        else
          let! p := IsPublished hex in
          if negb p then Ret ("", None) else trashPublished hex
    end in
  call (Unlock ClaimMu) ;! Ret res.

Definition RemoveUnreferenced (hex : string) : prog (ioerr + bool) :=
  let! r := trashUnreferenced hex in
  match r with
  | (_, Some e) => Ret (inl e)
  | (trash, None) =>
      if bool_decide (trash = "") then Ret (inr false)
      else call (RemoveAllTrash trash) ?; Ret (inr true)
  end.

Definition EmptyTrash : prog (ioerr + unit) :=
  let? entries := call ReadDirTrash in
  for_each entries tt (fun _ name => call (RemoveAllTrash name) ?; Ret (inr tt)).

(** ** Attempts *)

Definition Partials : prog (ioerr + list Partial) :=
  let? names := call ReadDirPartial in
  for_each names [] (fun partials d =>
    let! atts := call (ReadDirAttempts d) in
    match atts with
    | inl NotExist => Ret (inr partials)
    | inl e => Ret (inl e)
    | inr atts =>
        for_each atts partials (fun partials a =>
          match parse_int 64 a with
          | None => Ret (inr partials)
          | Some n =>
              if negb (hexDigestPattern d) then Ret (inr partials)
              else
                let? walked := call (WalkAttempt d n) in
                Ret (inr (partials ++ [{| PHex := d; PAttempt := n;
                                          PSizeBytes := walked.1; PModTime := walked.2 |}]))
          end)
    end).

Definition RemovePartial (hex : string) (n : Z) : prog (option ioerr) := call (RemoveAllAttempt hex n).

Definition latestPartial (hex : string) : prog (ioerr + Z) :=
  let! entries := call (ReadDirAttempts hex) in
  match entries with
  | inl NotExist => Ret (inr 0)
  | inl e => Ret (inl e)
  | inr entries =>
      Ret (inr (foldl (fun latest e =>
        match parse_int 64 e with Some n => if latest <? n then n else latest | None => latest end) 0 entries))
  end.

(** An attempt is its digest and its number. *)
Definition NewAttempt (hex : string) : prog (ioerr + Z) :=
  if negb (hexDigestPattern hex) then Ret (inl (Err "the digest is not 64 hexadecimal digits"))
  else
    let? previous := latestPartial hex in
    let? number := UpdateDigest hex (fun rec =>
        let number := i64 (Z.max (LastAttempt rec) previous + 1) in
        ({| LastAttempt := number; LastUsedTime := LastUsedTime rec; Failures := Failures rec;
            Reason := Reason rec; Message := Message rec; RetryTime := RetryTime rec |}, number)) in
    (if 0 <? previous then
       call (RenameAttempt hex previous number) ?;
       let! err := call (RemoveAttemptMarker hex number) in
       match err with
       | Some (Err msg) => Ret (inl (Err msg))
       | _ => call (Unseal hex number) ?; call (MkdirAttempt hex number) ?; Ret (inr number)
       end
     else call (MkdirAttempt hex number) ?; Ret (inr number)).

Definition Publish (hex : string) (number : Z) (m : Marker) : prog (option ioerr) :=
  let! r :=
    call (Seal hex number) ?;
    let m := {| Digest := Digest m; MAttempt := number; ManifestFormat := ManifestFormat m;
                SizeBytes := SizeBytes m; FileCount := FileCount m; PublishedTime := PublishedTime m;
                MSource := MSource m |} in
    call (WriteAttemptMarker hex number m) ?;
    let! err := call (RenameToPublished hex number) in
    match err with
    | Some (Err msg) => Ret (inl (Err ("publish " +:+ hex +:+ ": " +:+ msg)))
    | Some NotExist => Ret (inl NotExist)
    | None => call SyncPublished ?; Ret (inr tt)
    end in
  match r with inl e => Ret (Some e) | inr _ => Ret None end.

(** ** One goroutine on its own *)

Abbreviation run := (Programs.run (@perform)).

Lemma elem_of_keys {A} (m : gmap string A) k : k ∈ keys m <-> is_Some (m !! k).
Proof.
  unfold keys. rewrite list_elem_of_fmap. split.
  - intros ([k' x] & -> & H%elem_of_map_to_list). eauto.
  - intros [x Hx]. exists (k, x). split; [done|]. by apply elem_of_map_to_list.
Qed.
