(* ===== verification/ModelGC.v ===== *)
(** * The node's model cache: collection and reservations

    src/pkg/modelmanager/gc (gc.go, watermark.go), wired as manager.go wires it:
    the references come from the ledger, the other inputs from the environment.
    Filesystem shares are computed in binary64, as in the source. *)

From stdpp Require Import prelude gmap strings list sorting pretty.
From Stdlib Require Import SpecFloat.
From S2P Require Import Prelude Programs GoFloat ModelStore.

(** ** Shares in binary64 *)

Definition Percent (u : Usage) : float64 :=
  if Total u =? 0 then to_float 0
  else fmul (fdiv (to_float (Used u)) (to_float (Total u))) (to_float 100).

Definition fits (u : Usage) (bytes high : Z) : bool :=
  if Total u =? 0 then false
  else fle (fmul (fdiv (to_float (u64 (Used u + u64 (Z.max bytes 0)))) (to_float (Total u))) (to_float 100))
           (to_float high).

(** ** Collection *)

Definition minute : Z := 60 * 10 ^ 9.
Definition hour : Z := 60 * minute.

Definition DefaultGrace : Z := 10 * minute.
Definition DefaultPartialTTL : Z := 24 * hour.

Record Collector := { Grace : Z; PartialTTL : Z }.

Definition grace (c : Collector) : Z := if 0 <? Grace c then Grace c else DefaultGrace.
Definition partialTTL (c : Collector) : Z := if 0 <? PartialTTL c then PartialTTL c else DefaultPartialTTL.

(** [time.Time.Sub], which saturates. *)
Definition time_sub (t u : Z) : Z := Z.max (- 2 ^ 63) (Z.min (2 ^ 63 - 1) (t - u)).

Record Result := { RemovedBytes : Z; CapacityLow : bool; RUsage : Usage; Skipped : string }.

Definition zero_result : Result :=
  {| RemovedBytes := 0; CapacityLow := false; RUsage := {| Total := 0; Used := 0 |}; Skipped := "" |}.

Definition set_usage (u : Usage) (r : Result) : Result :=
  {| RemovedBytes := RemovedBytes r; CapacityLow := CapacityLow r; RUsage := u; Skipped := Skipped r |}.
Definition set_skipped (s : string) (r : Result) : Result :=
  {| RemovedBytes := RemovedBytes r; CapacityLow := CapacityLow r; RUsage := RUsage r; Skipped := s |}.
Definition removed (bytes : Z) (r : Result) : Result :=
  {| RemovedBytes := i64 (RemovedBytes r + bytes); CapacityLow := CapacityLow r; RUsage := RUsage r;
     Skipped := Skipped r |}.

Definition done (r : Result) (high : Z) : Result :=
  {| RemovedBytes := RemovedBytes r;
     CapacityLow := bool_decide (Skipped r = "") && flt (to_float high) (Percent (RUsage r));
     RUsage := RUsage r; Skipped := Skipped r |}.

Definition error_text (e : ioerr) : string :=
  match e with NotExist => "file does not exist" | Err msg => msg end.

Definition unreadableReferences (err : option ioerr) : string :=
  match err with
  | None => ""
  | Some e => "the references cannot be read, so no tree is known to be unmounted: " +:+ error_text e
  end.

(** Manager.referenced of manager.go. *)
Definition referenced : prog (ioerr + gset string) :=
  let! refs := Refs in
  match refs with
  | inl NotExist => Ret (inl NotExist)
  | inl (Err msg) => Ret (inl (Err ("read the references: " +:+ msg)))
  | inr refs => Ret (inr (list_to_set (Hex <$> refs)))
  end.

Definition pinned_in (pinned : option (gset string)) (hex : string) : bool :=
  match pinned with Some s => bool_decide (hex ∈ s) | None => false end.

Record candidate := { CHex : string; CSize : Z; CLastUsed : Z }.

Definition older (a b : candidate) : Prop := CLastUsed a <= CLastUsed b.
#[export] Instance older_dec : RelDecision older.
Proof. intros a b. unfold older. apply _. Defined.

Definition last_used (rec : DigestRecord) (fallback : Z) : Z :=
  if LastUsedTime rec =? 0 then fallback else LastUsedTime rec.

Definition candidates (c : Collector) (now : Z) (referenced : gset string)
    : prog (ioerr + list candidate) :=
  let? markers := Published in
  let! downloading := call Downloading in
  let! pinned := call Pinned in
  let? out := for_each markers [] (fun out m =>
    let hex := HexOf (Digest m) in
    if bool_decide (hex = "") || bool_decide (hex ∈ referenced) || bool_decide (hex ∈ downloading)
       || pinned_in pinned hex
    then Ret (inr out)
    else
      let? rec := ReadDigest hex in
      let lastUsed := last_used rec (PublishedTime m) in
      if time_sub now lastUsed <? grace c then Ret (inr out)
      else Ret (inr (out ++ [{| CHex := hex; CSize := SizeBytes m; CLastUsed := lastUsed |}]))) in
  Ret (inr (merge_sort older out)).

Definition pruneRecords (c : Collector) (now : Z) : prog (ioerr + unit) :=
  let? records := Digests in
  let? partials := Partials in
  let onDisk : gset string := list_to_set (PHex <$> partials) in
  for_each (map_to_list records) tt (fun _ '(hex, rec) =>
    if bool_decide (Reason rec = "") || (time_sub now (RetryTime rec) <? partialTTL c)
       || bool_decide (hex ∈ onDisk)
    then Ret (inr tt)
    else
      let! p := IsPublished hex in
      if p then Ret (inr tt)
      else
        let! downloading := call Downloading in
        if bool_decide (hex ∈ downloading) then Ret (inr tt)
        else RemoveDigest hex ?; Ret (inr tt)).

(** The partial loop: one listed attempt. *)
Definition collect_partial (c : Collector) (now : Z) (res : Result) (p : Partial)
    : prog (ioerr + Result) :=
  if time_sub now (PModTime p) <? partialTTL c then Ret (inr res)
  else
    let! downloading := call Downloading in
    if bool_decide (PHex p ∈ downloading) then Ret (inr res)
    else RemovePartial (PHex p) (PAttempt p) ?; Ret (inr (removed (PSizeBytes p) res)).

(** The tree loop over the candidates left. *)
Fixpoint collect_trees (c : Collector) (incoming low : Z) (cands : list candidate) (res : Result)
    : prog (ioerr + Result) :=
  match cands with
  | [] => Ret (inr res)
  | cand :: cands =>
      let! ctx := call CtxErr in
      match ctx with
      | Some e => Ret (inl (Err e))
      | None =>
          if fits (RUsage res) incoming low then Ret (inr res)
          else
            let! downloading := call Downloading in
            if bool_decide (CHex cand ∈ downloading) then collect_trees c incoming low cands res
            else
              let! pinned := call Pinned in
              if pinned_in pinned (CHex cand) then collect_trees c incoming low cands res
              else
                let? rec := ReadDigest (CHex cand) in
                let! now := call Now in
                if time_sub now (last_used rec (CLastUsed cand)) <? grace c
                then collect_trees c incoming low cands res
                else
                  let! r := RemoveUnreferenced (CHex cand) in
                  match r with
                  | inl e => Ret (inr (set_skipped (unreadableReferences (Some e)) res))
                  | inr false => collect_trees c incoming low cands (set_skipped "" res)
                  | inr true =>
                      let? u := call ReadUsage in
                      collect_trees c incoming low cands
                        (set_usage u (removed (CSize cand) (set_skipped "" res)))
                  end
      end
  end.

Definition collect (c : Collector) (incoming : Z) : prog (ioerr + Result) :=
  let! now := call Now in
  let! '(high, low, unavailable) := call Watermarks in
  if negb (bool_decide (unavailable = "")) then
    let? u := call ReadUsage in
    Ret (inr (done (set_skipped unavailable (set_usage u zero_result)) 0))
  else
    let? partials := Partials in
    let? res := for_each partials zero_result (collect_partial c now) in
    let? _ := pruneRecords c now in
    let? u := call ReadUsage in
    let res := set_usage u res in
    if fits u incoming high then Ret (inr (done res high))
    else
      let! refs := referenced in
      match refs with
      | inl e => Ret (inr (done (set_skipped (unreadableReferences (Some e)) res) high))
      | inr refs =>
          let? cands := candidates c now refs in
          let? res := collect_trees c incoming low cands res in
          Ret (inr (done res high))
      end.

(** [defer] of an unlock. *)
Definition locked {A} (l : lock) (p : prog A) : prog A :=
  call (Lock l) ;! let! x := p in call (Unlock l) ;! Ret x.

Definition Collect (c : Collector) : prog (ioerr + Result) :=
  locked CollectMu
    (let! incoming := locked ReserveMu (call InFlight) in collect c incoming).

(** ** Reservations *)

Inductive reserve_error :=
  | InvalidRequest (msg : string)
  | InsufficientCapacity (bytes high : Z) (skipped : string)
  | ReserveFailed (e : ioerr).

Record reserveCheck := { release : option nat; rbytes : Z; rincoming : Z; rusage : Usage; rhigh : Z }.

Definition tryReserve (sizeBytes : Z) : prog (reserve_error + reserveCheck) :=
  locked ReserveMu
    (let! '(high, _, unavailable) := call Watermarks in
     if negb (bool_decide (unavailable = "")) then Ret (inl (InvalidRequest unavailable))
     else
       let! n := call Written in
       let bytes := Z.max (i64 (sizeBytes - n)) 0 in
       let! others := call InFlight in
       let incoming := i64 (bytes + others) in
       let! u := call ReadUsage in
       match u with
       | inl e => Ret (inl (ReserveFailed e))
       | inr u =>
           if fits u incoming high then
             let! token := call (AddReservation sizeBytes) in
             Ret (inr {| release := Some token; rbytes := bytes; rincoming := incoming; rusage := u; rhigh := high |})
           else
             Ret (inr {| release := None; rbytes := bytes; rincoming := incoming; rusage := u; rhigh := high |})
       end).

Definition Release (token : nat) : prog unit := locked ReserveMu (call (DropReservation token)).

Definition Reserve (c : Collector) (sizeBytes : Z) : prog (reserve_error + nat) :=
  let! first := tryReserve sizeBytes in
  match first with
  | inl e => Ret (inl e)
  | inr check =>
      match release check with
      | Some token => Ret (inr token)
      | None =>
          locked CollectMu
            (let! second := tryReserve sizeBytes in
             match second with
             | inl e => Ret (inl e)
             | inr check =>
                 match release check with
                 | Some token => Ret (inr token)
                 | None =>
                     let! res := collect c (rincoming check) in
                     match res with
                     | inl e => Ret (inl (ReserveFailed e))
                     | inr res =>
                         let! third := tryReserve sizeBytes in
                         match third with
                         | inl e => Ret (inl e)
                         | inr check =>
                             match release check with
                             | Some token => Ret (inr token)
                             | None => Ret (inl (InsufficientCapacity (rbytes check) (rhigh check) (Skipped res)))
                             end
                         end
                     end
                 end
             end)
      end
  end.

(** ** Watermarks *)

Definition defaultNodefsAvailablePercent : Z := 10.
Definition defaultImagefsAvailablePercent : Z := 15.
Definition defaultImageGCHighPercent : Z := 85.
Definition watermarkMargin : Z := 5.
Definition watermarkFloor : Z := 2.

Record Cap := { CapPercent : Z; CapSource : string; Ignored : string }.

Record NodeModelStoreKubelet := {
  NodefsAvailable : string; ImagefsAvailable : string; ImageGCHighThresholdPercent : option Z }.

(** A percentage of the filesystem, or a quantity of bytes. *)
Inductive Threshold := ThresholdPercent (p : float64) | ThresholdBytes (bytes : Z).

Definition cut_suffix (s suffix : string) : option string :=
  let n := (String.length s - String.length suffix)%nat in
  if (String.length suffix <=? String.length s)%nat && bool_decide (drop_string n s = suffix)
  then Some (String.substring 0 n s) else None.

Section thresholds.
(** [strconv.ParseFloat] at 64 bits, and [resource.ParseQuantity] with the sign
    and the rounded-up value of its result. *)
Context (parse_float : string -> option float64) (parse_quantity : string -> option (Z * Z)).

Definition ParseThreshold (raw : string) : option Threshold :=
  match cut_suffix raw "%" with
  | Some p =>
      match parse_float p with
      | Some f =>
          match f with
          | S754_nan | S754_infinity _ => None
          | _ => if flt f (to_float 0) || flt (to_float 100) f then None else Some (ThresholdPercent f)
          end
      | None => None
      end
  | None =>
      match parse_quantity raw with
      | Some (sign, value) => if sign <? 0 then None else Some (ThresholdBytes value)
      | None => None
      end
  end.

(** The percentage if one was read, whether the threshold can never fire, and the
    note. *)
Definition availablePercent (signal v : string) (totalBytes : Z) : option Z * bool * string :=
  if bool_decide (v = "") then (None, false, "")
  else
    match ParseThreshold v with
    | None => (None, false, signal +:+ " " +:+ v +:+ " cannot be read, so kubelet's default applies")
    | Some (ThresholdPercent p) => (Some (ceil_to_int p), false, "")
    | Some (ThresholdBytes bytes) =>
        if totalBytes =? 0 then (None, false, "")
        else if totalBytes <=? Z.max bytes 0 then
          (None, true, signal +:+ " " +:+ v +:+ " is not below the filesystem's " +:+ pretty totalBytes
             +:+ " bytes and can never fire, so the cap is floored")
        else (Some (ceil_to_int (fmul (fdiv (to_float bytes) (to_float totalBytes)) (to_float 100))), false, "")
    end.

Definition join_notes (notes : list string) : string := String.concat "; " notes.

Definition KubeletCap (k : option NodeModelStoreKubelet) (totalBytes : Z) : Cap :=
  let '(nodefs, imagefs, gcHigh, unreachable, source, ignored) :=
    match k with
    | None =>
        (defaultNodefsAvailablePercent, defaultImagefsAvailablePercent, defaultImageGCHighPercent, false,
         "kubelet's default thresholds, since the node's effective kubelet configuration could not be read", "")
    | Some k =>
        let '(n, n_never, n_note) := availablePercent "nodefs.available" (NodefsAvailable k) totalBytes in
        let '(i, i_never, i_note) := availablePercent "imagefs.available" (ImagefsAvailable k) totalBytes in
        let notes := filter (fun note => note <> "") [n_note; i_note] in
        let source := "the node's effective kubelet configuration" in
        let ignored := join_notes notes in
        (default defaultNodefsAvailablePercent n, default defaultImagefsAvailablePercent i,
         default defaultImageGCHighPercent (ImageGCHighThresholdPercent k), n_never || i_never,
         if bool_decide (notes = []) then source else source +:+ " (" +:+ ignored +:+ ")", ignored)
    end in
  let c := Z.min (Z.min (i64 (100 - nodefs - watermarkMargin)) (i64 (100 - imagefs - watermarkMargin)))
                 (i64 (gcHigh - watermarkMargin)) in
  let c := if unreachable then watermarkFloor else c in
  {| CapPercent := i32 (Z.max c watermarkFloor); CapSource := source; Ignored := ignored |}.
End thresholds.

Definition Effective (high low : Z) (c : option Cap) : Z * Z * string :=
  match c with
  | None => (high, low, "")
  | Some c =>
      if high <=? CapPercent c then (high, low, "")
      else
        let h := CapPercent c in
        (h, Z.min low (i32 (h - 1)),
         "the high watermark " +:+ pretty high +:+ "% is capped at " +:+ pretty h
         +:+ "% on the filesystem the cache shares with kubelet, from " +:+ CapSource c)
  end.

(** *** The watermarks in force *)

(** The image collection threshold that counts. *)
Definition image_gc_high (k : option NodeModelStoreKubelet) : Z :=
  match k with
  | None => defaultImageGCHighPercent
  | Some k => default defaultImageGCHighPercent (ImageGCHighThresholdPercent k)
  end.

Lemma kubelet_cap_spec parse_float parse_quantity k total :
  is_i32 (image_gc_high k) ->
  exists c, CapPercent (KubeletCap parse_float parse_quantity k total) = Z.max c watermarkFloor /\
    (c = watermarkFloor \/ c <= image_gc_high k - watermarkMargin).
Proof.
  intros Hk.
  assert (forall nodefs imagefs gcHigh (unreachable : bool), gcHigh = image_gc_high k ->
    let c := if unreachable then watermarkFloor
             else Z.min (Z.min (i64 (100 - nodefs - watermarkMargin)) (i64 (100 - imagefs - watermarkMargin)))
                        (i64 (gcHigh - watermarkMargin)) in
    i32 (Z.max c watermarkFloor) = Z.max c watermarkFloor /\
    (c = watermarkFloor \/ c <= image_gc_high k - watermarkMargin)) as H.
  { intros nodefs imagefs gcHigh unreachable ->. unfold is_i32, watermarkFloor, watermarkMargin in *.
    rewrite (i64_small (image_gc_high k - 5)) by (unfold is_i64; lia).
    destruct unreachable; cbv zeta; (split; [apply i32_small; unfold is_i32|]); lia. }
  unfold KubeletCap. destruct k as [k|].
  - destruct (availablePercent _ _ "nodefs.available" _ _) as [[n n_never] n_note].
    destruct (availablePercent _ _ "imagefs.available" _ _) as [[i i_never] i_note].
    destruct (H (default defaultNodefsAvailablePercent n) (default defaultImagefsAvailablePercent i)
      _ (n_never || i_never) eq_refl) as [H1 H2].
    cbn [CapPercent]. eauto.
  - destruct (H defaultNodefsAvailablePercent defaultImagefsAvailablePercent _ false eq_refl) as [H1 H2].
    cbn [CapPercent]. eauto.
Qed.

(** The watermarks in force on kubelet's filesystem never exceed the
    configured ones, keep the low one below the high one, and keep the high one
    under the cap, which is the floor of 2 percent or stays 5 points below
    kubelet's image collection threshold, whatever the eviction thresholds say. *)
Theorem watermarks_capped (parse_float : string -> option float64) (parse_quantity : string -> option (Z * Z))
    (k : option NodeModelStoreKubelet) (total high low : Z) :
  is_i32 (image_gc_high k) -> low < high ->
  let c := KubeletCap parse_float parse_quantity k total in
  let '(h, l, _) := Effective high low (Some c) in
  h <= high /\ l <= low /\ l < h /\ h <= CapPercent c /\
  (CapPercent c = watermarkFloor \/ CapPercent c + watermarkMargin <= image_gc_high k).
Proof.
  intros Hk Hlow. cbv zeta.
  destruct (kubelet_cap_spec parse_float parse_quantity k total Hk) as (c & Hc & Hbound).
  unfold Effective. rewrite Hc. unfold watermarkFloor, watermarkMargin, is_i32 in *.
  destruct (Z.leb_spec high (Z.max c 2)); [lia|].
  rewrite i32_small by (unfold is_i32; lia). lia.
Qed.

Lemma watermarks_capped_witness :
  let k := Some {| NodefsAvailable := "10%"; ImagefsAvailable := "200"; ImageGCHighThresholdPercent := Some 60 |} in
  let pf := fun s => if bool_decide (s = "10") then Some (to_float 10) else None in
  let pq := fun s => if bool_decide (s = "200") then Some (1, 200) else None in
  CapPercent (KubeletCap pf pq k 1000) = 55 /\ CapPercent (KubeletCap pf pq k 200) = 2 /\
  let '(h, l, _) := Effective 80 60 (Some (KubeletCap pf pq k 1000)) in
  h <= 80 /\ l <= 60 /\ l < h /\ h <= CapPercent (KubeletCap pf pq k 1000) /\
  (CapPercent (KubeletCap pf pq k 1000) = watermarkFloor \/
   CapPercent (KubeletCap pf pq k 1000) + watermarkMargin <= image_gc_high k).
Proof.
  intros k pf pq. split; [vm_compute; reflexivity|]. split; [vm_compute; reflexivity|].
  apply (watermarks_capped pf pq k 1000 80 60); [|reflexivity].
  split; vm_compute; [discriminate|reflexivity].
Defined.
