(* ===== verification/ModelDriver.v ===== *)
(** * The node's model cache: the CSI node service

    src/pkg/modelmanager/driver: the authorization of a mount (authorize.go), the
    two calls kubelet makes (driver.go) and the host mounter (mount_linux.go), as
    programs over the world of ModelStore.v. *)

From stdpp Require Import prelude gmap strings list.
From S2P Require Import Prelude Programs ModelStore.

(** ** Authorization *)

Definition ruleArtifactMissing : string := "the Pod's namespace has no such ModelArtifact".
Definition ruleUIDMismatch : string := "the ModelArtifact is not the one the volume names".
Definition ruleNotHub : string := "the ModelArtifact is not on a model hub".
Definition ruleNotResolved : string := "the ModelArtifact is not resolved".
Definition ruleDigestMismatch : string := "the ModelArtifact resolves to another digest".

Fixpoint conditionTrue (conds : list (string * string)) (typ : string) : bool :=
  match conds with
  | [] => false
  | (t, s) :: conds => if bool_decide (t = typ) then bool_decide (s = "True") else conditionTrue conds typ
  end.

(** The rule that denies the mount; the empty string allows it. *)
Definition authorizeMount (attrs : mountAttributes) (ma : option ModelArtifact) : string :=
  match ma with
  | None => ruleArtifactMissing
  | Some ma =>
      if negb (bool_decide (MaUID ma = ArtifactUID attrs)) then ruleUIDMismatch
      else if negb (OnHuggingFace ma) && negb (OnModelScope ma) then ruleNotHub
      else
        match conditionTrue (Conditions ma) "Resolved", ResolvedDigest ma with
        | true, Some digest =>
            if negb (bool_decide (digest = ADigest attrs)) then ruleDigestMismatch else ""
        | _, _ => ruleNotResolved
        end
  end.

(** ** The host mounter *)

Definition BindReadOnly (hex target : string) : prog (option ioerr) :=
  let! err := call (BindMount hex target) in
  match err with
  | Some e => Ret (Some e)
  | None =>
      let! err := call (RemountReadOnly target) in
      match err with
      | Some e => call (Unmount target) ;! Ret (Some e)
      | None => Ret None
      end
  end.

(** ** The calls *)

Inductive code := InvalidArgument | Unavailable | Internal | PermissionDenied | Materializing (c : string).

Record PublishRequest := {
  PubVolumeID : string; PubTarget : string; PubUnder : bool; PubMountVolume : bool;
  PubEphemeral : bool; PubNamespace : string; PubPodName : string; PubPodUID : string;
  PubAttributes : mountAttributes }.

(** Driver.artifact. *)
Definition artifact (namespace name : string) : prog (ioerr + option ModelArtifact) :=
  if bool_decide (namespace = "") || bool_decide (name = "") then Ret (inr None)
  else call (GetArtifact namespace name).

Definition dropRef (ref : Ref) : prog unit := RemoveRef (VolumeID ref) ;! Ret tt.

(** Reporter.used: the events of a mount and an unmount. *)
Definition used (hex : string) : prog unit :=
  let! now := call Now in
  UpdateDigest hex (fun rec =>
    ({| LastAttempt := LastAttempt rec; LastUsedTime := now; Failures := Failures rec;
        Reason := Reason rec; Message := Message rec; RetryTime := RetryTime rec |}, tt)) ;!
  Ret tt.

(** The mount once the reference is claimed. *)
Definition mount_claimed (ref : Ref) : prog (option code) :=
  let! err := call (MkdirTarget (TargetPath ref)) in
  match err with
  | Some _ => dropRef ref ;! Ret (Some Internal)
  | None =>
      let! err := BindReadOnly (Hex ref) (TargetPath ref) in
      match err with
      | Some _ => dropRef ref ;! Ret (Some Internal)
      | None => used (Hex ref) ;! Ret None
      end
  end.

(** The call from the claim on. *)
Definition claim_and_mount (ref : Ref) : prog (option code) :=
  let! published := Claim ref in
  match published with
  | inl _ => Ret (Some Internal)
  | inr true => mount_claimed ref
  | inr false =>
      let! p := call (Ensure (Hex ref)) in
      if negb (PublishedNow p) then Ret (Some (Materializing (PCode p)))
      else
        let! published := Claim ref in
        match published with
        | inl _ => Ret (Some Internal)
        | inr false => Ret (Some Unavailable)
        | inr true => mount_claimed ref
        end
  end.

(** The authorized call: a target already mounted answers a repeated call. *)
Definition mount_target (req : PublishRequest) : prog (option code) :=
  let target := PubTarget req in
  let! mounted := call (IsMountPoint target) in
  match mounted with
  | (_, Some _) => Ret (Some Internal)
  | (true, None) =>
      let! readOnly := call (IsReadOnly target) in
      match readOnly with
      | inl _ => Ret (Some Internal)
      | inr true => Ret None
      | inr false =>
          let! err := call (Unmount target) in
          match err with Some _ => Ret (Some Internal) | None => Ret (Some Unavailable) end
      end
  | (false, None) =>
      claim_and_mount {| VolumeID := PubVolumeID req; TargetPath := target;
        Hex := HexOf (ADigest (PubAttributes req)); PodNamespace := PubNamespace req;
        PodName := PubPodName req; PodUID := PubPodUID req |}
  end.

(** What the call does while it holds the target's lock. *)
Definition publish_locked (req : PublishRequest) : prog (option code) :=
  let attrs := PubAttributes req in
  let! ma := artifact (PubNamespace req) (Artifact attrs) in
  match ma with
  | inl _ => Ret (Some Unavailable)
  | inr ma =>
      if negb (bool_decide (authorizeMount attrs ma = "")) then Ret (Some PermissionDenied)
      else mount_target req
  end.

(** [None] is success.  [ready] is the plugin's readiness, [PubUnder] whether the
    target is under the kubelet's pods directory. *)
Definition NodePublishVolume (ready : bool) (req : PublishRequest) : prog (option code) :=
  if bool_decide (PubVolumeID req = "") || negb (PubUnder req) then Ret (Some InvalidArgument)
  else if negb (PubMountVolume req) then Ret (Some InvalidArgument)
  else if negb (PubEphemeral req) then Ret (Some InvalidArgument)
  else if negb ready then Ret (Some Unavailable)
  else
    call (Lock (TargetMu (PubTarget req))) ;!
    let! res := publish_locked req in
    call (Unlock (TargetMu (PubTarget req))) ;! Ret res.

Record UnpublishRequest := { UnVolumeID : string; UnTarget : string; UnUnder : bool }.

(** The unmounted target: its directory, its reference, its last use. *)
Definition forget_target (req : UnpublishRequest) : prog (option code) :=
  let! err := call (RemoveTarget (UnTarget req)) in
  match err with
  | Some (Err _) => Ret (Some Internal)
  | _ =>
      let! ref := ReadRef (UnVolumeID req) in
      RemoveRef (UnVolumeID req) ;!
      match ref with
      | inr (Some ref) => used (Hex ref) ;! Ret None
      | _ => Ret None
      end
  end.

Definition unpublish_locked (req : UnpublishRequest) : prog (option code) :=
  let! mounted := call (IsMountPoint (UnTarget req)) in
  match mounted with
  | (_, Some (Err _)) => Ret (Some Internal)
  | (true, _) =>
      let! err := call (Unmount (UnTarget req)) in
      match err with Some _ => Ret (Some Internal) | None => forget_target req end
  | (false, _) => forget_target req
  end.

Definition NodeUnpublishVolume (req : UnpublishRequest) : prog (option code) :=
  if bool_decide (UnVolumeID req = "") || negb (UnUnder req) then Ret (Some InvalidArgument)
  else
    call (Lock (TargetMu (UnTarget req))) ;!
    let! res := unpublish_locked req in
    call (Unlock (TargetMu (UnTarget req))) ;! Ret res.

(** ** What a call may do *)

(** An action with the answer it got. *)
Inductive event : Type :=
  | Ev {X : Type} (a : act X) (x : X).

(** [path p tr]: running [p], whatever the answers, gives the events [tr] in
    order, perhaps with more to come. *)
Fixpoint path {A} (p : prog A) (tr : list event) : Prop :=
  match p with
  | Ret _ => tr = []
  | Do a k => tr = [] \/ exists x tr', tr = Ev a x :: tr' /\ path (k x) tr'
  end.

Definition bind_ok (P : string -> string -> Prop) (e : event) : Prop :=
  match e with Ev a _ => match a with BindMount hex target => P hex target | _ => True end end.

(** Every bind mount of [p] satisfies [P]. *)
Fixpoint binds_only {A} (P : string -> string -> Prop) (p : prog A) : Prop :=
  match p with
  | Ret _ => True
  | Do a k => match a with BindMount hex target => P hex target | _ => True end /\ forall x, binds_only P (k x)
  end.

Lemma binds_only_bind {A B} P (p : prog A) (k : A -> prog B) :
  binds_only P p -> (forall x, binds_only P (k x)) -> binds_only P (bind p k).
Proof. induction p as [x|X a h IH]; simpl; [auto|]. intros [Ha Hh] Hk. split; auto. Qed.

Lemma binds_only_path {A} P (p : prog A) tr hex target x :
  binds_only P p -> path p tr -> Ev (BindMount hex target) x ∈ tr -> P hex target.
Proof.
  revert tr. induction p as [y|X a k IH]; simpl; intros tr Hp Hpath Hin.
  { subst tr. by apply elem_of_nil in Hin. }
  destruct Hpath as [->|(y & tr' & -> & Hpath)]; [by apply elem_of_nil in Hin|].
  destruct Hp as [Ha Hk]. apply elem_of_cons in Hin as [Heq|Hin]; [|by apply (IH y tr')].
  change (bind_ok P (Ev (BindMount hex target) x)). rewrite Heq. exact Ha.
Qed.

Lemma binds_only_update_digest {A} P hex (f : DigestRecord -> DigestRecord * A) :
  binds_only P (UpdateDigest hex f).
Proof.
  unfold UpdateDigest, WriteDigest, ReadDigest.
  destruct (digestPath hex); repeat (split || intros [[]|] || intros ?); done.
Qed.

Lemma binds_only_claim P ref : binds_only P (Claim ref).
Proof.
  unfold Claim, IsPublished, WriteRef. split; [done|intros []]. split; [done|intros []]; [|by repeat (split || intros ?)].
  simpl. destruct (refPath _); simpl; [by repeat (split || intros ?)|].
  split; [done|]. intros [e|]; by repeat (split || intros ?).
Qed.

Lemma binds_only_drop P ref : binds_only P (dropRef ref).
Proof.
  unfold dropRef, RemoveRef. destruct (refPath _); [done|]. split; [done|]. by intros [[]|].
Qed.

Lemma binds_only_mount (P : string -> string -> Prop) ref :
  P (Hex ref) (TargetPath ref) -> binds_only P (mount_claimed ref).
Proof.
  intros HP. apply binds_only_bind; [done|]. intros [e|].
  { apply binds_only_bind; [apply binds_only_drop|done]. }
  apply binds_only_bind.
  { split; [done|]. intros [e|]; [done|]. split; [done|]. intros [e|]; [|done]. by split. }
  intros [e|]; (apply binds_only_bind; [|done]); [apply binds_only_drop|].
  apply binds_only_bind; [done|]. intros now.
  apply binds_only_bind; [apply binds_only_update_digest|done].
Qed.

Lemma binds_only_claim_and_mount (P : string -> string -> Prop) ref :
  P (Hex ref) (TargetPath ref) -> binds_only P (claim_and_mount ref).
Proof.
  intros HP. apply binds_only_bind; [apply binds_only_claim|]. intros [e|[]]; [done|by apply binds_only_mount|].
  apply binds_only_bind; [done|]. intros p. destruct (negb _); [done|].
  apply binds_only_bind; [apply binds_only_claim|]. intros [e|[]]; [done|by apply binds_only_mount|done].
Qed.

(** The artifact the call read allows the mount of [hex] on [target]. *)
Definition authorized (req : PublishRequest) (ma : option ModelArtifact) (hex target : string) : Prop :=
  authorizeMount (PubAttributes req) ma = "" /\ hex = HexOf (ADigest (PubAttributes req)) /\
  target = PubTarget req.

Lemma authorize_mount_iff attrs ma :
  authorizeMount attrs ma = "" <->
  exists m, ma = Some m /\ MaUID m = ArtifactUID attrs /\ (OnHuggingFace m || OnModelScope m) = true /\
    conditionTrue (Conditions m) "Resolved" = true /\ ResolvedDigest m = Some (ADigest attrs).
Proof.
  destruct ma as [m|]; simpl; [|split; [done|by intros (? & ? & _)]].
  destruct (bool_decide_reflect (MaUID m = ArtifactUID attrs)) as [Hu|Hu]; simpl.
  2: { split; [done|]. intros (m' & [= <-] & ? & _). done. }
  destruct (OnHuggingFace m) eqn:Hh, (OnModelScope m) eqn:Hs; simpl;
    try (split; [done|]; intros (m' & [= <-] & _ & H & _); by rewrite Hh, Hs in H).
  all: destruct (conditionTrue _ _) eqn:Hc; [|split; [done|]; intros (m' & [= <-] & _ & _ & ? & _); congruence].
  all: destruct (ResolvedDigest m) as [d|] eqn:Hd; [|split; [done|]; intros (m' & [= <-] & _ & _ & _ & ?); congruence].
  all: destruct (bool_decide_reflect (d = ADigest attrs)) as [->|Hne]; simpl;
    [split; [intros _; exists m; by rewrite Hh, Hs|done]|].
  all: split; try done; intros (m' & [= <-] & _ & _ & _ & ?); congruence.
Qed.

Lemma binds_only_mount_target (P : string -> string -> Prop) req :
  P (HexOf (ADigest (PubAttributes req))) (PubTarget req) -> binds_only P (mount_target req).
Proof.
  intros HP. apply binds_only_bind; [done|]. intros [[] [e|]]; [done| |done|by apply binds_only_claim_and_mount].
  apply binds_only_bind; [done|]. intros [e|[]]; [done|done|]. apply binds_only_bind; [done|]. by intros [e|].
Qed.

(** The artifact is read first, and decides. *)
Lemma artifact_path {B} req (k : option code -> prog B) tr hex target x :
  (forall P r, binds_only P (k r)) ->
  path (bind (publish_locked req) k) tr -> Ev (BindMount hex target) x ∈ tr ->
  exists m, Ev (GetArtifact (PubNamespace req) (Artifact (PubAttributes req))) (inr (Some m)) ∈ tr /\
    authorizeMount (PubAttributes req) (Some m) = "" /\
    hex = HexOf (ADigest (PubAttributes req)) /\ target = PubTarget req.
Proof.
  intros Hk Hpath Hin.
  assert (forall r tr, path (k r) tr -> Ev (BindMount hex target) x ∈ tr -> False) as Hno
    by (intros r tr' Hp Hi; apply (binds_only_path (fun _ _ => False) _ _ _ _ _ (Hk _ r) Hp Hi)).
  unfold publish_locked, artifact in Hpath.
  destruct (bool_decide _ || bool_decide _); [by destruct (Hno _ _ Hpath Hin)|].
  destruct Hpath as [->|(ma & tr1 & -> & Hpath)]; [by apply elem_of_nil in Hin|].
  apply elem_of_cons in Hin as [[=]|Hin].
  destruct ma as [e|ma]; [by destruct (Hno _ _ Hpath Hin)|].
  change (path (bind (if negb (bool_decide (authorizeMount (PubAttributes req) ma = ""))
    then Ret (Some PermissionDenied) else mount_target req) k) tr1) in Hpath.
  destruct (bool_decide_reflect (authorizeMount (PubAttributes req) ma = "")) as [Ha|Ha];
    [|by destruct (Hno _ _ Hpath Hin)].
  destruct ma as [m|]; [|done]. exists m. split; [by left|]. split; [done|].
  apply (binds_only_path (fun h t => h = HexOf (ADigest (PubAttributes req)) /\ t = PubTarget req)
           _ _ _ _ _) with (2 := Hpath) (3 := Hin).
  apply binds_only_bind; [by apply binds_only_mount_target|apply Hk].
Qed.

(** C22: whatever the API server, the file system and the mount table answer, a
    publish call bind-mounts only the tree of the digest its volume names onto
    its own target, and only after the ModelArtifact it read in the Pod's
    namespace in that same call turned out to carry the volume's UID, to be a hub
    artifact, to be resolved, and to be resolved to that very digest. *)
Theorem bind_authorized (ready : bool) (req : PublishRequest) (tr : list event) (hex target : string)
    (x : option ioerr) :
  path (NodePublishVolume ready req) tr -> Ev (BindMount hex target) x ∈ tr ->
  exists m, Ev (GetArtifact (PubNamespace req) (Artifact (PubAttributes req))) (inr (Some m)) ∈ tr /\
    MaUID m = ArtifactUID (PubAttributes req) /\ (OnHuggingFace m || OnModelScope m) = true /\
    conditionTrue (Conditions m) "Resolved" = true /\
    ResolvedDigest m = Some (ADigest (PubAttributes req)) /\
    hex = HexOf (ADigest (PubAttributes req)) /\ target = PubTarget req.
Proof.
  intros Hpath Hin. unfold NodePublishVolume in Hpath.
  repeat (case_match; [simpl in Hpath; subst tr; by apply elem_of_nil in Hin|]).
  destruct Hpath as [->|([] & tr1 & -> & Hpath)]; [by apply elem_of_nil in Hin|].
  apply elem_of_cons in Hin as [[=]|Hin].
  destruct (artifact_path req (fun res => bind (call (Unlock (TargetMu (PubTarget req)))) (fun _ => Ret res))
    tr1 hex target x) as (m & Hm & Ha & -> & ->); [done|exact Hpath|exact Hin|].
  apply authorize_mount_iff in Ha as (m' & [= <-] & Hx). exists m. split; [by right|]. tauto.
Qed.

Lemma bind_authorized_witness :
  let req := {| PubVolumeID := "v"; PubTarget := "t"; PubUnder := true; PubMountVolume := true;
    PubEphemeral := true; PubNamespace := "ns"; PubPodName := "p"; PubPodUID := "u";
    PubAttributes := {| Artifact := "a"; ArtifactUID := "u"; ADigest := "d" |} |} in
  let m := {| MaUID := "u"; OnHuggingFace := true; OnModelScope := false;
    Conditions := [("Resolved", "True")]; ResolvedDigest := Some "d" |} in
  let tr := [Ev (Lock (TargetMu "t")) tt; Ev (GetArtifact "ns" "a") (inr (Some m));
    Ev (IsMountPoint "t") (false, None); Ev (Lock ClaimMu) tt; Ev (StatMarker "") true;
    Ev (WriteRefFile "v" {| VolumeID := "v"; TargetPath := "t"; Hex := ""; PodNamespace := "ns";
          PodName := "p"; PodUID := "u" |}) None;
    Ev (Unlock ClaimMu) tt; Ev (MkdirTarget "t") None; Ev (BindMount "" "t") None] in
  path (NodePublishVolume true req) tr /\
  exists m, Ev (GetArtifact "ns" "a") (inr (Some m)) ∈ tr /\ MaUID m = "u" /\ ResolvedDigest m = Some "d".
Proof.
  intros req m tr. assert (path (NodePublishVolume true req) tr) as Hp.
  { simpl. repeat (right; eexists; eexists; split; [reflexivity|]; simpl). by left. }
  split; [exact Hp|]. destruct (bind_authorized true req tr "" "t" None Hp) as (m' & H1 & H2 & _ & _ & H3 & _).
  { unfold tr. rewrite !elem_of_cons. tauto. }
  exists m'. done.
Defined.
