(* ===== verification/ModelRebuild.v ===== *)
(** * The node's model cache: the reference table after a restart

    src/pkg/modelmanager/store/rebuild.go: the references are reconstructed from
    the mount table and the ledger before the plugin serves.  The theorem says
    that the ledger then holds exactly the mounts, which is the state the
    concurrent calls of ModelSafety.v start from. *)

From stdpp Require Import prelude gmap strings list sorting.
From S2P Require Import Prelude Programs ModelStore.

(** ** Mounts *)

Record Mount := { Device : string; Root : string; MountPoint : string }.

(** The components of a path, last first. *)
Fixpoint split_path (s cur : string) (acc : list string) : list string :=
  match s with
  | EmptyString => cur :: acc
  | String a s =>
      if (Ascii.nat_of_ascii a =? 47)%nat then split_path s "" (cur :: acc)
      else split_path s (cur +:+ String a "") acc
  end.
Definition components (s : string) : list string := split_path s "" [].

(** [/published/([0-9a-f]{64})/tree$]: the digest. *)
Definition publishedRootPattern (root : string) : option string :=
  match components root with
  | tree :: hex :: dir :: _ :: _ =>
      if bool_decide (tree = "tree") && hexDigestPattern hex && bool_decide (dir = "published")
      then Some hex else None
  | _ => None
  end.

(** [/pods/([^/]+)/volumes/kubernetes\.io~csi/([^/]+)/mount$]: the Pod's UID and
    the volume's name. *)
Definition csiTargetPattern (target : string) : option (string * string) :=
  match components target with
  | mount :: volume :: csi :: volumes :: uid :: pods :: _ :: _ =>
      if bool_decide (mount = "mount") && negb (bool_decide (volume = ""))
         && bool_decide (csi = "kubernetes.io~csi") && bool_decide (volumes = "volumes")
         && negb (bool_decide (uid = "")) && bool_decide (pods = "pods")
      then Some (uid, volume) else None
  | _ => None
  end.

(** Which digest each target is mounted from; a later line wins. *)
Definition mounted_map (device : string) (mounts : list Mount) : gmap string string :=
  foldl (fun m mt =>
    if negb (bool_decide (Device mt = device)) || negb (bool_decide (is_Some (csiTargetPattern (MountPoint mt))))
    then m
    else match publishedRootPattern (Root mt) with
         | Some hex => <[MountPoint mt := hex]> m
         | None => m
         end) ∅ mounts.

(** ** The rebuild *)

Record Rebuilt := { Kept : list Ref; Corrected : list Ref; Adopted : list Ref; Dropped : list Ref }.

Definition References (r : Rebuilt) : list Ref := merge_sort target_le (Kept r ++ Corrected r ++ Adopted r).

Definition with_hex (hex : string) (r : Ref) : Ref :=
  {| VolumeID := VolumeID r; TargetPath := TargetPath r; Hex := hex; PodNamespace := PodNamespace r;
     PodName := PodName r; PodUID := PodUID r |}.

Definition string_le (a b : string) : Prop := String.leb a b = true.
#[export] Instance string_le_dec : RelDecision string_le.
Proof. intros a b. exact (bool_eq_dec _ _). Defined.

Section rebuild.
(** [stringx.SumBySHA256]. *)
Context (sum_sha256 : string -> string).

Definition EphemeralVolumeID (podUID volumeName : string) : string := "csi-" +:+ sum_sha256 (podUID +:+ volumeName).

(** One record of the ledger against the mounts. *)
Definition rebuild_ledger (mounted : gmap string string) (out : Rebuilt) (r : Ref) : prog (ioerr + Rebuilt) :=
  match mounted !! TargetPath r with
  | None =>
      RemoveRef (VolumeID r) ?;
      Ret (inr {| Kept := Kept out; Corrected := Corrected out; Adopted := Adopted out; Dropped := Dropped out ++ [r] |})
  | Some hex =>
      if negb (bool_decide (hex = Hex r)) then
        WriteRef (with_hex hex r) ?;
        Ret (inr {| Kept := Kept out; Corrected := Corrected out ++ [with_hex hex r]; Adopted := Adopted out;
                    Dropped := Dropped out |})
      else Ret (inr {| Kept := Kept out ++ [r]; Corrected := Corrected out; Adopted := Adopted out;
                       Dropped := Dropped out |})
  end.

(** The record of a mounted target the ledger does not know. *)
Definition adopted_ref (mounted : gmap string string) (t : string) : Ref :=
  let '(uid, volume) := default ("", "") (csiTargetPattern t) in
  {| VolumeID := EphemeralVolumeID uid volume; TargetPath := t; Hex := default "" (mounted !! t);
     PodNamespace := ""; PodName := ""; PodUID := uid |}.

Definition rebuild_mount (mounted : gmap string string) (out : Rebuilt) (t : string) : prog (ioerr + Rebuilt) :=
  WriteRef (adopted_ref mounted t) ?;
  Ret (inr {| Kept := Kept out; Corrected := Corrected out; Adopted := Adopted out ++ [adopted_ref mounted t];
              Dropped := Dropped out |}).

Definition unseen (mounted : gmap string string) (ledger : list Ref) : list string :=
  merge_sort string_le (filter (fun t => t ∉ TargetPath <$> ledger) (keys mounted)).

Definition Rebuild (mounts : list Mount) (device : string) : prog (ioerr + Rebuilt) :=
  let mounted := mounted_map device mounts in
  let? ledger := Refs in
  let? out := for_each ledger {| Kept := []; Corrected := []; Adopted := []; Dropped := [] |}
                (rebuild_ledger mounted) in
  for_each (unseen mounted ledger) out (rebuild_mount mounted).
End rebuild.

(** ** Correctness *)

Definition same_but_refs (w w' : world) : Prop :=
  published w' = published w /\ attempts w' = attempts w /\ digests w' = digests w /\ mounts w' = mounts w /\
  locks w' = locks w.

#[local] Instance same_but_refs_preorder : PreOrder same_but_refs.
Proof. split; [by intros w|]. intros w1 w2 w3 (? & ? & ? & ? & ?) (? & ? & ? & ? & ?). repeat split; congruence. Qed.

Section healthy.
(** Every call works. *)
Context (t : tid) (c : choice) (Hfault : fault c = None) (Hlisted : unlisted c = false).

Lemma run_write_ref r w :
  volumeIDPattern (VolumeID r) = true ->
  run t c (WriteRef r) w = Some (None, set_refs <[VolumeID r := r]> w).
Proof.
  intros Hv. unfold WriteRef, refPath. rewrite Hv. simpl. unfold durable, failure. by rewrite Hfault.
Qed.

Lemma run_remove_ref v w :
  volumeIDPattern v = true ->
  exists w', run t c (RemoveRef v) w = Some (None, w') /\ refs w' = delete v (refs w) /\ same_but_refs w w'.
Proof.
  intros Hv. unfold RemoveRef, refPath. rewrite Hv. simpl. unfold effect, failure. rewrite Hfault. simpl.
  destruct (refs w !! v) eqn:Hr; simpl; eexists; (split; [done|]).
  - by repeat split.
  - split; [|done]. by rewrite delete_id.
Qed.

Lemma run_collect_refs names acc w :
  (forall v, v ∈ names -> is_Some (refs w !! v)) ->
  run t c (for_each names acc collect_ref) w = Some (inr (acc ++ omap (refs w !!.) names), w).
Proof.
  revert acc. induction names as [|v names IH]; intros acc Hin; [simpl; by rewrite app_nil_r|].
  destruct (Hin v) as [r Hr]; [left|].
  assert (run t c (collect_ref acc v) w = Some (inr (acc ++ [r]), w)) as Hstep.
  { unfold collect_ref. rewrite run_bind. simpl. rewrite Hr. simpl. unfold failure. by rewrite Hfault. }
  cbn [for_each]. rewrite (run_bind_err _ _ _ _ _ _ _ _ Hstep), IH by (intros; apply Hin; by right).
  simpl. rewrite Hr. by rewrite <- app_assoc.
Qed.

Lemma run_refs w :
  run t c Refs w = Some (inr (merge_sort target_le (omap (refs w !!.) (keys (refs w)))), w).
Proof.
  unfold Refs. rewrite run_bind. simpl. unfold glob. rewrite Hlisted.
  erewrite run_bind_err; [reflexivity|]. rewrite run_collect_refs; [done|].
  intros v. apply elem_of_keys.
Qed.

Lemma run_ledger mounted l out w :
  (forall r, r ∈ l -> volumeIDPattern (VolumeID r) = true /\ refs w !! VolumeID r = Some r) ->
  NoDup (VolumeID <$> l) ->
  exists out' w', run t c (for_each l out (rebuild_ledger mounted)) w = Some (inr out', w') /\
    same_but_refs w w' /\
    (forall v, v ∉ VolumeID <$> l -> refs w' !! v = refs w !! v) /\
    (forall r, r ∈ l -> refs w' !! VolumeID r = (fun hex => with_hex hex r) <$> mounted !! TargetPath r).
Proof.
  revert out w. induction l as [|r l IH]; intros out w Hl Hnd.
  { exists out, w. split_and!; try done. by intros r ?%elem_of_nil. }
  apply NoDup_cons in Hnd as [Hr Hnd]. destruct (Hl r) as [Hp Href]; [by left|].
  assert (exists out1 w1, run t c (rebuild_ledger mounted out r) w = Some (inr out1, w1) /\ same_but_refs w w1 /\
    refs w1 !! VolumeID r = (fun hex => with_hex hex r) <$> mounted !! TargetPath r /\
    forall v, v <> VolumeID r -> refs w1 !! v = refs w !! v) as (out1 & w1 & Hrun & Hsame & Hnew & Hold).
  { unfold rebuild_ledger. destruct (mounted !! TargetPath r) as [hex|].
    - destruct (bool_decide_reflect (hex = Hex r)) as [->|Hne]; simpl.
      + eexists _, w. split; [done|]. split; [done|]. split; [rewrite Href; by destruct r|done].
      + eexists _, _. unfold check. rewrite run_bind, run_write_ref by done. simpl. split; [done|].
        split; [done|]. simpl. split; [apply lookup_insert_eq|]. intros v Hv. by rewrite lookup_insert_ne.
    - destruct (run_remove_ref (VolumeID r) w Hp) as (w1 & Hrun & Hrefs & Hsame).
      eexists _, w1. unfold check. rewrite run_bind, Hrun. simpl. split; [done|]. split; [done|].
      rewrite Hrefs. split; [apply lookup_delete_eq|]. intros v Hv. by rewrite lookup_delete_ne. }
  destruct (IH out1 w1) as (out' & w' & Hrun' & Hsame' & Hout & Hin).
  { intros r' Hr'. destruct (Hl r') as [Hp' Href']; [by right|]. split; [done|]. rewrite Hold; [done|].
    intros Heq. apply Hr. rewrite <- Heq. by apply list_elem_of_fmap_2. }
  { done. }
  exists out', w'. cbn [for_each]. rewrite (run_bind_err _ _ _ _ _ _ _ _ Hrun). split; [done|].
  split; [by trans w1|]. split.
  - intros v [Hne Hv]%not_elem_of_cons. rewrite Hout by done. by apply Hold.
  - intros r' [->|Hr']%elem_of_cons; [|by apply Hin]. by rewrite Hout.
Qed.

(** The records written for the targets [ts]. *)
Definition adopt (sum_sha256 : string -> string) (mounted : gmap string string) (ts : list string)
    (m : gmap string Ref) : gmap string Ref :=
  foldl (fun m t => <[VolumeID (adopted_ref sum_sha256 mounted t) := adopted_ref sum_sha256 mounted t]> m) m ts.

Lemma run_mounts sum_sha256 mounted ts out w :
  (forall t, t ∈ ts -> volumeIDPattern (VolumeID (adopted_ref sum_sha256 mounted t)) = true) ->
  exists out' w', run t c (for_each ts out (rebuild_mount sum_sha256 mounted)) w = Some (inr out', w') /\
    same_but_refs w w' /\ refs w' = adopt sum_sha256 mounted ts (refs w).
Proof.
  revert out w. induction ts as [|x ts IH]; intros out w Hts; [by exists out, w|].
  cbn [for_each]. unfold rebuild_mount at 1, check, bind_err.
  rewrite run_bind, run_bind, run_write_ref by (apply Hts; left). simpl.
  edestruct IH as (out' & w' & Hrun & Hsame & Hrefs); [intros; apply Hts; by right|].
  exists out', w'. rewrite Hrun. split; [done|]. split; [done|]. by rewrite Hrefs.
Qed.
End healthy.

Lemma adopt_elem sum_sha256 mounted ts m v r :
  adopt sum_sha256 mounted ts m !! v = Some r ->
  m !! v = Some r \/ exists t, t ∈ ts /\ r = adopted_ref sum_sha256 mounted t /\ v = VolumeID r.
Proof.
  revert m. induction ts as [|x ts IH]; intros m Hv; [by left|]. simpl in Hv.
  destruct (IH _ Hv) as [Hm|(t & Ht & Hr)]; [|right; exists t; split; [by right|done]].
  destruct (decide (VolumeID (adopted_ref sum_sha256 mounted x) = v)) as [<-|Hne].
  - rewrite lookup_insert_eq in Hm. injection Hm as <-. right. exists x. split; [by left|done].
  - rewrite lookup_insert_ne in Hm by done. by left.
Qed.

Lemma adopt_other sum_sha256 mounted ts m v :
  (forall t, t ∈ ts -> VolumeID (adopted_ref sum_sha256 mounted t) <> v) ->
  adopt sum_sha256 mounted ts m !! v = m !! v.
Proof.
  revert m. induction ts as [|x ts IH]; intros m Hne; [done|]. simpl. rewrite IH by (intros; apply Hne; by right).
  apply lookup_insert_ne, Hne. by left.
Qed.

Lemma adopt_in sum_sha256 mounted ts m t :
  (forall t', t' ∈ ts -> VolumeID (adopted_ref sum_sha256 mounted t') = VolumeID (adopted_ref sum_sha256 mounted t) ->
     t' = t) ->
  t ∈ ts ->
  adopt sum_sha256 mounted ts m !! VolumeID (adopted_ref sum_sha256 mounted t) = Some (adopted_ref sum_sha256 mounted t).
Proof.
  revert m. induction ts as [|x ts IH]; intros m Hinj Hin; [by apply elem_of_nil in Hin|]. simpl.
  destruct (decide (t ∈ ts)) as [Ht|Ht]; [apply IH; [|done]; intros; apply Hinj; [by right|done]|].
  apply elem_of_cons in Hin as [->|Hin]; [|done]. rewrite adopt_other; [apply lookup_insert_eq|].
  intros t' Ht' Heq. apply Ht. rewrite <- (Hinj t'); [done|by right|done].
Qed.

(** What kubelet promises of volume identifiers: the ledger's records are filed
    under theirs, and a volume has one target. *)
Record well_filed (target_of : string -> string) (m : gmap string Ref) : Prop := {
  filed_key : forall v r, m !! v = Some r -> VolumeID r = v;
  filed_name : forall v r, m !! v = Some r -> volumeIDPattern v = true;
  filed_target : forall v r, m !! v = Some r -> target_of v = TargetPath r }.

Definition named (sum_sha256 : string -> string) (target_of : string -> string) (mounted : gmap string string) : Prop :=
  forall t, is_Some (mounted !! t) ->
    volumeIDPattern (VolumeID (adopted_ref sum_sha256 mounted t)) = true /\
    target_of (VolumeID (adopted_ref sum_sha256 mounted t)) = t.

Lemma adopted_fields sum_sha256 mounted t hex :
  mounted !! t = Some hex ->
  TargetPath (adopted_ref sum_sha256 mounted t) = t /\ Hex (adopted_ref sum_sha256 mounted t) = hex.
Proof. intros Ht. unfold adopted_ref. rewrite Ht. by destruct (default _ _). Qed.

Lemma elem_of_unseen mounted ledger t :
  t ∈ unseen mounted ledger <-> (t ∉ TargetPath <$> ledger) /\ is_Some (mounted !! t).
Proof. unfold unseen. by rewrite merge_sort_Permutation, list_elem_of_filter, elem_of_keys. Qed.

(** The records the rebuild reads are the ledger's, once each. *)
Lemma ledger_records target_of w :
  well_filed target_of (refs w) ->
  let ledger : list Ref := merge_sort target_le (omap (refs w !!.) (keys (refs w))) in
  (forall r, r ∈ ledger -> refs w !! VolumeID r = Some r) /\
  (forall v r, refs w !! v = Some r -> r ∈ ledger) /\ NoDup (VolumeID <$> ledger).
Proof.
  intros Hf. cbv zeta.
  assert (forall names : list string, (forall v, v ∈ names -> is_Some (refs w !! v)) ->
    VolumeID <$> (omap (refs w !!.) names : list Ref) = names) as Hnames.
  { induction names as [|v names IH]; intros Hn; [done|]. destruct (Hn v) as [r Hr]; [left|].
    simpl. rewrite Hr. simpl. f_equal; [by apply (filed_key _ _ Hf)|]. apply IH. intros; apply Hn; by right. }
  split_and!.
  - intros r. rewrite merge_sort_Permutation, list_elem_of_omap. intros (v & _ & Hr).
    by rewrite (filed_key _ _ Hf v r Hr).
  - intros v r Hr. rewrite merge_sort_Permutation, list_elem_of_omap. exists v.
    split; [apply elem_of_keys; eauto|done].
  - rewrite merge_sort_Permutation, Hnames by (intros v; apply elem_of_keys).
    apply NoDup_fst_map_to_list.
Qed.

(** C23: when the file calls work, the rebuild ends and leaves a ledger that holds
    exactly the mounts: every mounted target has a record of the digest it is
    mounted from, corrected or adopted where the ledger had it wrong or lost it,
    and every record names a mounted target with its digest. *)
Theorem rebuild_exact (sum_sha256 target_of : string -> string) (ms : list Mount) (device : string)
    (t : tid) (c : choice) (w : world) :
  fault c = None -> unlisted c = false -> well_filed target_of (refs w) ->
  named sum_sha256 target_of (mounted_map device ms) ->
  exists out w', run t c (Rebuild sum_sha256 ms device) w = Some (inr out, w') /\ same_but_refs w w' /\
    (forall target hex, mounted_map device ms !! target = Some hex ->
       exists v r, target_of v = target /\ refs w' !! v = Some r /\ TargetPath r = target /\ Hex r = hex) /\
    (forall v r, refs w' !! v = Some r -> mounted_map device ms !! TargetPath r = Some (Hex r)).
Proof.
  intros Hfault Hlisted Hfiled Hnamed. set (mounted := mounted_map device ms) in *.
  pose proof (ledger_records target_of w Hfiled) as (Hin & Hall & Hnd).
  set (ledger := merge_sort target_le _) in *.
  destruct (run_ledger t c Hfault mounted ledger
    {| Kept := []; Corrected := []; Adopted := []; Dropped := [] |} w) as (out1 & w1 & Hrun1 & Hs1 & Hout & Hcor).
  { intros r Hr. split; [|by apply Hin]. by apply (filed_name _ _ Hfiled _ r), Hin. }
  { done. }
  destruct (run_mounts t c Hfault sum_sha256 mounted (unseen mounted ledger) out1 w1) as (out & w' & Hrun2 & Hs2 & Hrefs).
  { intros x [_ Hx]%elem_of_unseen. by apply Hnamed. }
  exists out, w'. split.
  { unfold Rebuild. rewrite (run_bind_err _ _ _ _ _ _ _ _ (run_refs t c Hfault Hlisted w)).
    by rewrite (run_bind_err _ _ _ _ _ _ _ _ Hrun1). }
  split; [by trans w1|]. split.
  - intros target hex Hm. destruct (decide (target ∈ TargetPath <$> ledger)) as [Hseen|Hnew].
    + apply list_elem_of_fmap in Hseen as (r & -> & Hr). exists (VolumeID r), (with_hex hex r).
      split; [apply (filed_target _ _ Hfiled); by apply Hin|]. split; [|done].
      rewrite Hrefs, adopt_other; [by rewrite Hcor, Hm by done|].
      intros x [Hx Hxm]%elem_of_unseen Heq. apply Hx, list_elem_of_fmap. exists r. split; [|done].
      rewrite <- (filed_target _ _ Hfiled (VolumeID r) r) by (by apply Hin).
      rewrite <- Heq. symmetry. by apply Hnamed.
    + assert (is_Some (mounted !! target)) as Hsome by eauto.
      exists (VolumeID (adopted_ref sum_sha256 mounted target)), (adopted_ref sum_sha256 mounted target).
      split; [by apply Hnamed|]. split; [|by apply adopted_fields].
      rewrite Hrefs. apply adopt_in; [|by apply elem_of_unseen].
      intros x [_ Hx]%elem_of_unseen Heq. destruct (Hnamed x Hx) as [_ <-]. rewrite Heq. by apply Hnamed.
  - intros v r. rewrite Hrefs. intros [Hv|(x & [_ [hex Hx]]%elem_of_unseen & -> & _)]%adopt_elem.
    + destruct (decide (v ∈ VolumeID <$> ledger)) as [Hl|Hl].
      * apply list_elem_of_fmap in Hl as (r0 & -> & Hr0). rewrite Hcor in Hv by done.
        destruct (mounted !! TargetPath r0) as [hex|] eqn:Hm; [|done]. by injection Hv as <-.
      * rewrite Hout in Hv by done. destruct Hl. apply list_elem_of_fmap. exists r.
        split; [symmetry; by apply (filed_key _ _ Hfiled)|by apply (Hall v)].
    + destruct (adopted_fields sum_sha256 mounted x hex Hx) as [-> ->]. done.
Qed.

Lemma rebuild_exact_witness :
  let target := "/k/pods/u/volumes/kubernetes.io~csi/model/mount" in
  let hex := "0123456789abcdef0123456789abcdef0123456789abcdef0123456789abcdef" in
  let ms := [{| Device := "8:1"; Root := "/cache/published/" +:+ hex +:+ "/tree"; MountPoint := target |}] in
  let w := {| published := ∅; attempts := ∅; trash := ∅;
    refs := {["old" := {| VolumeID := "old"; TargetPath := "gone"; Hex := hex; PodNamespace := ""; PodName := "";
      PodUID := "" |}]}; digests := ∅; mounts := ∅; reservations := ∅; locks := ∅ |} in
  let c := {| fault := None; late := false; unlisted := false; clock := 0; usage := inl NotExist;
    watermarks := (0, 0, ""); downloading := ∅; pinned := None; cancelled := None; artifact_read := inr None;
    ensured := {| PublishedNow := false; PCode := ""; PMessage := "" |}; written := 0; written_of := fun _ => 0 |} in
  mounted_map "8:1" ms !! target = Some hex /\
  exists out w', run 0%nat c (Rebuild (fun _ => "00") ms "8:1") w = Some (inr out, w') /\
    exists v r, refs w' !! v = Some r /\ TargetPath r = target /\ Hex r = hex.
Proof.
  intros target hex ms w c. assert (mounted_map "8:1" ms = {[target := hex]}) as Hm by (vm_compute; reflexivity).
  assert (mounted_map "8:1" ms !! target = Some hex) as Ht by (rewrite Hm; apply lookup_singleton_eq).
  split; [exact Ht|].
  destruct (rebuild_exact (fun _ => "00") (fun v => if bool_decide (v = "old") then "gone" else target) ms "8:1"
    0%nat c w eq_refl eq_refl) as (out & w' & Hrun & _ & Href & _).
  - constructor; intros v r; simpl; intros [<- <-]%lookup_singleton_Some; vm_compute; reflexivity.
  - intros x. rewrite Hm. intros [y [<- _]%lookup_singleton_Some]. vm_compute. auto.
  - exists out, w'. split; [exact Hrun|]. destruct (Href target hex Ht) as (v & r & _ & Hr & Hp & Hx). eauto.
Defined.
