(* ===== verification/ModelSafety.v ===== *)
(** * The node's model cache: mounted content stays

    Publish and unpublish calls, collections, reservations and attempts run in
    any number of goroutines over one [world], interleaved action by action and
    with any failures.  A rely-guarantee argument over the programs of
    ModelStore.v, ModelGC.v and ModelDriver.v shows that a read-only mount keeps
    its reference and its published tree, as long as the directory of references
    can be listed; without that the collector removes a mounted tree. *)

From stdpp Require Import prelude gmap strings list sorting.
From S2P Require Import Prelude Programs ModelStore ModelGC ModelDriver.

(** ** The running plugin *)

Abbreviation system := (Programs.system act world).

Section plugin.
(** A volume has one target: kubelet derives both from the Pod and the volume's
    name. *)
Context (target_of : string -> string).
(** The environment's answers that can occur. *)
Context (allowed : choice -> Prop).

(** What a goroutine runs: one call of the driver, the reporter or a download. *)
Inductive entry : prog unit -> Prop :=
  | entry_publish ready req :
      target_of (PubVolumeID req) = PubTarget req -> entry (discard (NodePublishVolume ready req))
  | entry_unpublish req :
      target_of (UnVolumeID req) = UnTarget req -> entry (discard (NodeUnpublishVolume req))
  | entry_collect c : entry (discard (Collect c))
  | entry_reserve c size : entry (discard (Reserve c size))
  | entry_release token : entry (Release token)
  | entry_new_attempt hex : entry (discard (NewAttempt hex))
  | entry_publish_attempt hex number m : entry (discard (Publish hex number m))
  | entry_update_digest hex f : entry (discard (UpdateDigest hex (fun rec => (f rec, tt))))
  | entry_read_digests : entry (discard Digests)
  | entry_read_published : entry (discard Published).

Inductive step : system -> system -> Prop :=
  | step_spawn s t p :
      threads s !! t = None -> entry p ->
      step s {| threads := <[t := p]> (threads s); state := state s |}
  | step_act s t X (a : act X) k c x w :
      threads s !! t = Some (Do a k) -> allowed c -> perform t c a (state s) = Some (x, w) ->
      step s {| threads := <[t := k x]> (threads s); state := w |}.

(** Every read-only mount has a reference to its digest, and every reference a
    published tree. *)
Record consistent (w : world) : Prop := {
  mount_referenced : forall target hex, mounts w !! target = Some (hex, true) ->
    exists v r, target_of v = target /\ refs w !! v = Some r /\ Hex r = hex;
  reference_published : forall v r, refs w !! v = Some r -> is_Some (published w !! Hex r) }.

(** ** Rely and guarantee *)

(** What goroutine [t] may count on while the others run. *)
Record rely (t : tid) (w w' : world) : Prop := {
  rely_consistent : consistent w -> consistent w';
  rely_claim : locks w !! ClaimMu = Some t ->
    locks w' !! ClaimMu = Some t /\
    (forall h, is_Some (published w !! h) -> is_Some (published w' !! h)) /\
    (forall v r, refs w' !! v = Some r -> refs w !! v = Some r);
  rely_target : forall target, locks w !! TargetMu target = Some t ->
    locks w' !! TargetMu target = Some t /\ mounts w' !! target = mounts w !! target /\
    (forall v, target_of v = target -> refs w' !! v = refs w !! v) }.

(** What goroutine [t] grants the others. *)
Record guar (t : tid) (w w' : world) : Prop := {
  guar_consistent : consistent w -> consistent w';
  guar_locks : forall l u, locks w !! l = Some u -> u <> t -> locks w' !! l = Some u;
  guar_claim : locks w !! ClaimMu <> Some t ->
    (forall h, is_Some (published w !! h) -> is_Some (published w' !! h)) /\
    (forall v r, refs w' !! v = Some r -> refs w !! v = Some r);
  guar_target : forall target, locks w !! TargetMu target <> Some t ->
    mounts w' !! target = mounts w !! target /\
    (forall v, target_of v = target -> refs w' !! v = refs w !! v) }.

Lemma guar_rely t u w w' : guar t w w' -> t <> u -> rely u w w'.
Proof.
  intros [Hc Hl Hcl Ht] Hne. constructor; [done| |].
  - intros Hu. split; [by apply Hl|]. apply Hcl. congruence.
  - intros target Hu. split; [by apply Hl|]. apply Ht. congruence.
Qed.

#[local] Instance rely_interference : Interference rely.
Proof.
  constructor. intros t. split.
  - intros w. constructor; auto.
  - intros w1 w2 w3 [A1 B1 C1] [A2 B2 C2]. constructor; [auto| |].
    + intros H. destruct (B1 H) as (H1 & H2 & H3). destruct (B2 H1) as (H4 & H5 & H6). auto 10.
    + intros target H. destruct (C1 target H) as (H1 & H2 & H3).
      destruct (C2 target H1) as (H4 & H5 & H6). split_and!; [done|congruence|].
      intros v Hv. rewrite H6 by done. auto.
Qed.

(** ** Programs under interference *)

Abbreviation wp := (Programs.wp (@perform) allowed rely guar consistent).
Abbreviation wp_rely := (Programs.wp_rely (@perform) allowed rely guar consistent).
Abbreviation wp_mono := (Programs.wp_mono (@perform) allowed rely guar consistent).
Abbreviation wp_bind := (Programs.wp_bind (@perform) allowed rely guar consistent).
Abbreviation wp_call := (Programs.wp_call (@perform) allowed rely guar consistent).

(** ** Actions that touch nothing shared *)

(** References, mounts and the locks that protect them stay, trees are only
    added. *)
Record keeps (w w' : world) : Prop := {
  keeps_refs : refs w' = refs w;
  keeps_mounts : mounts w' = mounts w;
  keeps_published : forall h, is_Some (published w !! h) -> is_Some (published w' !! h);
  keeps_claim : locks w' !! ClaimMu = locks w !! ClaimMu;
  keeps_target : forall target, locks w' !! TargetMu target = locks w !! TargetMu target }.

Lemma keeps_consistent w w' : keeps w w' -> consistent w -> consistent w'.
Proof.
  intros [Hr Hm Hp _ _] [H1 H2]. constructor.
  - intros target hex. rewrite Hm, Hr. apply H1.
  - intros v r. rewrite Hr. eauto.
Qed.

Lemma keeps_rely t w w' : keeps w w' -> rely t w w'.
Proof.
  intros H. pose proof (keeps_consistent _ _ H). destruct H as [Hr Hm Hp Hc Ht]. constructor; [done| |].
  - intros Hl. rewrite Hc, Hr. auto.
  - intros target Hl. rewrite Ht, Hm, Hr. auto.
Qed.

Lemma keeps_guar t w w' :
  keeps w w' -> (forall l u, locks w !! l = Some u -> u <> t -> locks w' !! l = Some u) -> guar t w w'.
Proof.
  intros H Hl. pose proof (keeps_consistent _ _ H). destruct H as [Hr Hm Hp Hc Ht].
  constructor; [done|done| |]; intros; rewrite ?Hr, ?Hm; auto.
Qed.

Definition protected (l : lock) : bool := match l with ClaimMu | TargetMu _ => true | _ => false end.

Definition harmless {X} (a : act X) : bool :=
  match a with
  | Lock l | Unlock l => negb (protected l)
  | WriteRefFile _ _ | RemoveRefFile _ | RenameToTrash _ | BindMount _ _ | RemountReadOnly _ | Unmount _ => false
  | _ => true
  end.

Lemma others_locks {X} t c (a : act X) w x w' :
  perform t c a w = Some (x, w') ->
  forall l u, locks w !! l = Some u -> u <> t -> locks w' !! l = Some u.
Proof.
  intros Hp l u Hl Hu. destruct a; simpl in Hp; unfold effect, durable in Hp;
    repeat case_match; simplify_eq/=; try done.
  - rewrite lookup_insert_ne; [done|]. congruence.
  - match goal with H : bool_decide _ = true |- _ => apply bool_decide_eq_true in H end.
    rewrite lookup_delete_ne; [done|]. intros ->. congruence.
Qed.

Lemma is_Some_insert_any {A} (m : gmap string A) k h x : is_Some (m !! h) -> is_Some (<[k := x]> m !! h).
Proof. intros H. destruct (decide (k = h)) as [->|]; [rewrite lookup_insert_eq; eauto|by rewrite lookup_insert_ne]. Qed.

Lemma harmless_keeps {X} t c (a : act X) w x w' :
  harmless a = true -> perform t c a w = Some (x, w') -> keeps w w'.
Proof.
  intros Hh Hp. destruct a; try discriminate Hh; simpl in Hp; unfold effect, durable in Hp;
    repeat case_match; simplify_eq/=; (constructor; simpl; intros; auto using is_Some_insert_any);
    try (rewrite lookup_insert_ne; [done|by intros ->]); try (rewrite lookup_delete_ne; [done|by intros ->]).
Qed.

Abbreviation quiet := (Programs.quiet (@harmless)).

Lemma wp_untouching {A} t (p : prog A) w : quiet p -> wp t p (fun _ => rely t w) w.
Proof.
  apply (Programs.wp_quiet (@perform) allowed rely guar consistent). clear. intros t c X a w x w' Hh Hp.
  pose proof (harmless_keeps t c a w x w' Hh Hp) as Hk. split; [|by apply keeps_rely].
  apply keeps_guar; [done|]. by eapply others_locks.
Qed.

Lemma wp_harmless {X} t (a : act X) w : harmless a = true -> wp t (call a) (fun _ => rely t w) w.
Proof. intros Hh. by apply wp_untouching, quiet_call. Qed.

(** ** Programs that need nothing from the world *)

Definition safe {A} (t : tid) (p : prog A) : Prop := forall w, wp t p (fun _ _ => True) w.

Lemma safe_ret {A} t (x : A) : safe t (Ret x).
Proof. done. Qed.

Lemma safe_bind {A B} t (p : prog A) (k : A -> prog B) :
  safe t p -> (forall x, safe t (k x)) -> safe t (bind p k).
Proof. intros Hp Hk w. apply wp_bind. eapply wp_mono; [|apply Hp]. intros x w' _. apply Hk. Qed.

Lemma safe_call {X} t (a : act X) : harmless a = true -> safe t (call a).
Proof. intros Hh w. eapply wp_mono; [|by apply wp_harmless]. done. Qed.

Lemma safe_bind_err {A B} t (p : prog (ioerr + A)) (k : A -> prog (ioerr + B)) :
  safe t p -> (forall x, safe t (k x)) -> safe t (bind_err p k).
Proof. intros Hp Hk. apply safe_bind; [done|]. intros [e|x]; [apply safe_ret|apply Hk]. Qed.

Lemma safe_check {B} t p (k : prog (ioerr + B)) : safe t p -> safe t k -> safe t (check p k).
Proof. intros Hp Hk. apply safe_bind; [done|]. intros [e|]; [apply safe_ret|done]. Qed.

Lemma safe_for_each {A S} t (l : list A) (body : S -> A -> prog (ioerr + S)) :
  (forall s x, safe t (body s x)) -> forall s, safe t (for_each l s body).
Proof.
  intros Hb. induction l as [|x l IH]; intros s; [apply safe_ret|]. apply safe_bind_err; auto.
Qed.

Lemma quiet_safe {A} t (p : prog A) : quiet p -> safe t p.
Proof. intros Hq w. eapply wp_mono; [|by apply wp_untouching]. done. Qed.

Lemma quiet_locked {A} l (p : prog A) : protected l = false -> quiet p -> quiet (locked l p).
Proof.
  intros Hl Hp. unfold locked.
  apply quiet_bind; [apply quiet_call; simpl; by rewrite Hl|intros _]. apply quiet_bind; [done|intros x].
  apply quiet_bind; [apply quiet_call; simpl; by rewrite Hl|done].
Qed.

#[local] Ltac quiet_step :=
  first
    [ done
    | assumption
    | apply quiet_call; reflexivity
    | apply quiet_locked; [reflexivity|]
    | apply quiet_bind_err; [|intros ?]
    | apply quiet_check
    | apply quiet_for_each; intros ? ?
    | apply quiet_bind; [|intros ?]
    | match goal with |- quiet (match ?x with _ => _ end) => destruct x end ].
#[local] Ltac quiet := repeat quiet_step.

Lemma quiet_read_digest hex : quiet (ReadDigest hex).
Proof. unfold ReadDigest. quiet. Qed.
Lemma quiet_update_digest {A} hex (f : DigestRecord -> DigestRecord * A) : quiet (UpdateDigest hex f).
Proof.
  unfold UpdateDigest, WriteDigest.
  apply quiet_bind; [quiet|intros _]. apply quiet_bind; [|intros; quiet].
  apply quiet_bind_err; [apply quiet_read_digest|intros ?]. quiet.
Qed.
Lemma quiet_digests : quiet Digests.
Proof.
  unfold Digests. apply quiet_bind; [quiet|intros ?]. apply quiet_for_each; intros ? ?.
  destruct (negb _); [done|]. apply quiet_bind_err; [apply quiet_read_digest|done].
Qed.
Lemma quiet_published : quiet Published.
Proof. unfold Published, ReadMarker. quiet. Qed.
Lemma quiet_partials : quiet Partials.
Proof. unfold Partials. quiet. Qed.
Lemma quiet_refs : quiet Refs.
Proof. unfold Refs, collect_ref. quiet. Qed.
Lemma quiet_used hex : quiet (used hex).
Proof.
  unfold used. apply quiet_bind; [quiet|intros ?].
  apply quiet_bind; [apply quiet_update_digest|done].
Qed.
Lemma quiet_new_attempt hex : quiet (NewAttempt hex).
Proof.
  unfold NewAttempt, latestPartial. destruct (negb _); [done|].
  apply quiet_bind_err; [quiet|intros previous].
  apply quiet_bind_err; [apply quiet_update_digest|intros number]. quiet.
Qed.
Lemma quiet_publish hex number m : quiet (Publish hex number m).
Proof. unfold Publish. quiet. Qed.
Lemma quiet_prune c now : quiet (pruneRecords c now).
Proof.
  unfold pruneRecords, IsPublished, RemoveDigest.
  apply quiet_bind_err; [apply quiet_digests|intros ?].
  apply quiet_bind_err; [apply quiet_partials|intros ?]. quiet.
Qed.
Lemma quiet_candidates c now r : quiet (candidates c now r).
Proof.
  unfold candidates. apply quiet_bind_err; [apply quiet_published|intros ?].
  apply quiet_bind; [quiet|intros ?]. apply quiet_bind; [quiet|intros ?].
  apply quiet_bind_err; [|done]. apply quiet_for_each; intros ? ?. destruct (_ || _); [done|].
  apply quiet_bind_err; [apply quiet_read_digest|intros ?]. quiet.
Qed.
Lemma quiet_try_reserve size : quiet (tryReserve size).
Proof. unfold tryReserve. quiet. Qed.

(** ** Removing a tree *)

(** The directory of references can be listed. *)
Context (Hlisted : forall c, allowed c -> unlisted c = false).

Lemma wp_lock t l w :
  wp t (call (Lock l)) (fun _ w' => rely t w w' /\ (protected l = true -> locks w' !! l = Some t)) w.
Proof.
  apply wp_call. intros w1 c x w2 Hr _ _ Hp.
  assert (guar t w1 w2 /\ rely t w1 w2 /\ locks w2 !! l = Some t) as (Hg & Hr2 & Hl).
  { pose proof (others_locks _ _ _ _ _ _ Hp) as Ho. simpl in Hp. case_match; simplify_eq/=.
    split_and!; [| |by rewrite lookup_insert_eq].
    - constructor; simpl; auto. intros [H1 H2]. by constructor.
    - constructor; simpl; auto; [intros [H1 H2]; by constructor| |];
        intros; (split; [|auto]); rewrite lookup_insert_ne; congruence. }
  split; [done|]. intros w3 Hr3. split; [trans w1; [done|]; by trans w2|].
  destruct l; simpl; try done; intros _; by apply Hr3.
Qed.

Lemma guar_unlock t l w : locks w !! l = Some t -> guar t w (set_locks (delete l) w).
Proof.
  intros Hl. constructor; simpl; auto.
  - intros [H1 H2]. by constructor.
  - intros l' u Hu Hne. rewrite lookup_delete_ne; [done|]. intros ->. congruence.
Qed.

Lemma wp_unlock t l w Q :
  (forall w1, rely t w w1 -> consistent w1 -> locks w1 !! l = Some t ->
     forall w3, rely t (set_locks (delete l) w1) w3 -> Q tt w3) ->
  wp t (call (Unlock l)) Q w.
Proof.
  intros H. apply wp_call. intros w1 c [] w2 Hr Hc _ Hp. simpl in Hp. case_match; simplify_eq.
  match goal with E : bool_decide _ = true |- _ => apply bool_decide_eq_true in E; rename E into Hl end.
  split; [by apply guar_unlock|]. by apply H.
Qed.

Lemma safe_unlock t l : safe t (call (Unlock l)).
Proof. intros w. by apply wp_unlock. Qed.

(** No reference names [hex], as goroutine [t] knows while it holds the claim
    lock. *)
Definition unreferenced (t : tid) (hex : string) (w : world) : Prop :=
  locks w !! ClaimMu = Some t /\ forall v r, refs w !! v = Some r -> Hex r <> hex.

Lemma unreferenced_rely t hex w w' : rely t w w' -> unreferenced t hex w -> unreferenced t hex w'.
Proof.
  intros [_ Hc _] [Hl Hu]. destruct (Hc Hl) as (H1 & _ & H3). split; [done|]. eauto.
Qed.

(** Every reference of [w] is still to be read or has been read. *)
Definition accounted (t : tid) (todo : list string) (acc : list Ref) (w : world) : Prop :=
  locks w !! ClaimMu = Some t /\ forall v r, refs w !! v = Some r -> v ∈ todo \/ r ∈ acc.

Lemma accounted_rely t todo acc w w' : rely t w w' -> accounted t todo acc w -> accounted t todo acc w'.
Proof. intros [_ Hc _] [Hl Hu]. destruct (Hc Hl) as (H1 & _ & H3). split; [done|]. eauto. Qed.

Lemma refs_loop t todo acc w :
  accounted t todo acc w ->
  wp t (for_each todo acc collect_ref)
     (fun res w' => match res with inl _ => True | inr l => accounted t [] l w' end) w.
Proof.
  revert acc w. induction todo as [|v todo IH]; intros acc w Hacc; cbn [for_each].
  { intros w' Hr. by eapply accounted_rely. }
  apply wp_bind, wp_bind, wp_call. intros w1 c x w2 Hr Hcons Ha Hp. simpl in Hp. simplify_eq.
  apply (accounted_rely _ _ _ _ _ Hr) in Hacc. destruct Hacc as [Hl Hacc].
  split; [apply keeps_guar; [by constructor|done]|]. intros w3 Hr3.
  assert (forall acc', (forall r, refs w2 !! v = Some r -> r ∈ acc') -> acc ⊆ acc' -> accounted t todo acc' w3) as Hstep.
  { intros acc' Hv Hsub. eapply accounted_rely; [done|]. split; [done|]. intros v' r Hvr.
    destruct (Hacc v' r Hvr) as [[->|Hin]%elem_of_cons|Hin]; auto. }
  unfold reading. destruct (refs w2 !! v) as [r|] eqn:Hv.
  - destruct (failure c) as [[|msg]|] eqn:Hf; [unfold failure in Hf; by destruct (fault c)| |].
    { by intros w4 _. }
    intros w4 Hr4. eapply wp_rely; [done|]. apply IH, Hstep; [intros r' [= <-]|]; set_solver.
  - intros w4 Hr4. eapply wp_rely; [done|]. apply IH, Hstep; [done|]. done.
Qed.

Lemma wp_refs t hex w :
  locks w !! ClaimMu = Some t ->
  wp t Refs (fun res w' => match res with
    | inl _ => True
    | inr l => existsb (fun r => bool_decide (Hex r = hex)) l = false -> unreferenced t hex w' end) w.
Proof.
  intros Hl. apply wp_bind, wp_call. intros w1 c x w2 Hr Hc Ha Hp. simpl in Hp. simplify_eq.
  split; [apply keeps_guar; [by constructor|done]|]. intros w3 Hr3. unfold glob. rewrite Hlisted by done.
  apply wp_bind. eapply wp_mono; [|apply refs_loop].
  - intros [e|l] w4 Hacc; [by intros w5|]. intros w5 Hr5 Hex.
    eapply unreferenced_rely; [done|]. destruct Hacc as [Hl4 Hacc]. split; [done|]. intros v r Hv Heq.
    destruct (Hacc v r Hv) as [[]%not_elem_of_nil|Hin].
    apply not_true_iff_false in Hex. apply Hex, existsb_exists. exists r. split; [|by apply bool_decide_eq_true].
    apply list_elem_of_In. by rewrite merge_sort_Permutation.
  - eapply accounted_rely; [done|]. split; [by apply Hr|]. intros v r Hv. left. apply elem_of_keys. eauto.
Qed.

Lemma safe_sync t : safe t (call SyncPublished).
Proof. by apply safe_call. Qed.

Lemma wp_trash_published t hex w :
  unreferenced t hex w -> wp t (trashPublished hex) (fun _ _ => True) w.
Proof.
  intros Hu. apply wp_bind, wp_call. intros w1 c x w2 Hr Hc Ha Hp.
  apply (unreferenced_rely _ _ _ _ Hr) in Hu. destruct Hu as [Hl Hu].
  pose proof (others_locks _ _ _ _ _ _ Hp) as Ho. split.
  - simpl in Hp. repeat case_match; simplify_eq; try (apply keeps_guar; [by constructor|done]).
    constructor; simpl; auto; [|congruence]. intros [H1 H2]. constructor; simpl; [done|].
    intros v r Hv. rewrite lookup_delete_ne; [eauto|]. intros Heq. by apply (Hu v r).
  - intros w3 _. destruct x as [[|msg]|dst]; [done|done|]. apply safe_bind; [apply safe_sync|done].
Qed.

Lemma safe_trash_unreferenced t hex : safe t (trashUnreferenced hex).
Proof.
  intros w. unfold trashUnreferenced. apply wp_bind. eapply wp_mono; [|apply wp_lock].
  intros _ w1 [_ Hl]. specialize (Hl eq_refl). apply wp_bind.
  apply (wp_mono _ _ (fun _ _ => True)).
  { intros x w2 _. apply safe_bind; [apply safe_unlock|done]. }
  apply wp_bind. eapply wp_mono; [|by apply (wp_refs t hex)]. intros [e|l] w2 Hrefs; [done|].
  destruct (existsb _ l) eqn:Hex; [done|]. specialize (Hrefs eq_refl).
  apply wp_bind. eapply wp_mono; [|by apply wp_harmless]. intros p w3 Hr3.
  destruct (negb p); [done|]. apply wp_trash_published. eapply unreferenced_rely; [exact Hr3|done].
Qed.

Lemma safe_remove_unreferenced t hex : safe t (RemoveUnreferenced hex).
Proof.
  apply safe_bind; [apply safe_trash_unreferenced|]. intros [trash [e|]]; [done|].
  case_match; [done|]. apply safe_check; [by apply safe_call|done].
Qed.

(** ** Collections and reservations *)

Lemma safe_locked {A} t l (p : prog A) : safe t p -> safe t (locked l p).
Proof.
  intros Hp. apply safe_bind.
  - intros w. eapply wp_mono; [|apply wp_lock]. done.
  - intros _. apply safe_bind; [done|]. intros x. apply safe_bind; [apply safe_unlock|done].
Qed.

Lemma safe_collect_trees t c incoming low cands res : safe t (collect_trees c incoming low cands res).
Proof.
  revert res. induction cands as [|cand cands IH]; intros res; [done|]. cbn [collect_trees].
  apply safe_bind; [by apply safe_call|]. intros [e|]; [done|]. case_match; [done|].
  apply safe_bind; [by apply safe_call|]. intros downloading. case_match; [done|].
  apply safe_bind; [by apply safe_call|]. intros pinned. case_match; [done|].
  apply safe_bind_err; [apply quiet_safe, quiet_read_digest|]. intros rec.
  apply safe_bind; [by apply safe_call|]. intros now. case_match; [done|].
  apply safe_bind; [apply safe_remove_unreferenced|]. intros [e|[]]; [done| |done].
  apply safe_bind_err; [by apply safe_call|]. done.
Qed.

Lemma safe_collect t c incoming : safe t (collect c incoming).
Proof.
  unfold collect. apply safe_bind; [by apply safe_call|]. intros now.
  apply safe_bind; [by apply safe_call|]. intros [[high low] unavailable]. case_match.
  { apply safe_bind_err; [by apply safe_call|done]. }
  apply safe_bind_err; [apply quiet_safe, quiet_partials|]. intros partials.
  apply safe_bind_err.
  { apply quiet_safe, quiet_for_each. intros res p. unfold collect_partial, RemovePartial. quiet. }
  intros res. apply safe_bind_err; [apply quiet_safe, quiet_prune|]. intros _.
  apply safe_bind_err; [by apply safe_call|]. intros u. case_match; [done|].
  apply safe_bind.
  { apply quiet_safe. unfold referenced. apply quiet_bind; [apply quiet_refs|]. intros [[]|]; done. }
  intros [e|refs]; [done|]. apply safe_bind_err; [apply quiet_safe, quiet_candidates|]. intros cands.
  apply safe_bind_err; [apply safe_collect_trees|done].
Qed.

Lemma safe_Collect t c : safe t (Collect c).
Proof.
  apply safe_locked, safe_bind; [by apply safe_locked, safe_call|]. intros. apply safe_collect.
Qed.

Lemma safe_Reserve t c size : safe t (Reserve c size).
Proof.
  assert (safe t (tryReserve size)) by apply quiet_safe, quiet_try_reserve.
  apply safe_bind; [done|]. intros [e|chk]; [done|]. destruct (release chk); [done|].
  apply safe_locked, safe_bind; [done|]. intros [e|chk']; [done|]. destruct (release chk'); [done|].
  apply safe_bind; [apply safe_collect|]. intros [e|res]; [done|]. apply safe_bind; [done|].
  intros [e|chk'']; [done|]. by destruct (release chk'').
Qed.

(** ** Mounting *)

(** Goroutine [t] holds the lock of [target], on which [m] is mounted. *)
Definition holds (t : tid) (target : string) (m : option (string * bool)) (w : world) : Prop :=
  locks w !! TargetMu target = Some t /\ mounts w !! target = m.

Lemma holds_rely t target m w w' : rely t w w' -> holds t target m w -> holds t target m w'.
Proof. intros [_ _ Ht] [Hl Hm]. destruct (Ht target Hl) as (H1 & H2 & _). split; [done|congruence]. Qed.

(** ... and the volume's reference is [r]. *)
Definition holds_ref (t : tid) (ref : Ref) (m : option (string * bool)) (w : world) : Prop :=
  holds t (TargetPath ref) m w /\ refs w !! VolumeID ref = Some ref.

Lemma holds_ref_rely t ref m w w' :
  target_of (VolumeID ref) = TargetPath ref -> rely t w w' -> holds_ref t ref m w -> holds_ref t ref m w'.
Proof.
  intros Ho Hr [Hh Href]. split; [by eapply holds_rely|]. destruct Hh as [Hl _].
  destruct Hr as [_ _ Ht]. destruct (Ht _ Hl) as (_ & _ & H). by rewrite H.
Qed.

(** A change of one target's mount that leaves no read-only mount without its
    reference. *)
Lemma guar_mount t target (m : option (string * bool)) w w' :
  locks w !! TargetMu target = Some t ->
  w' = set_mounts (partial_alter (fun _ => m) target) w ->
  (forall hex, m = Some (hex, true) ->
     exists v r, target_of v = target /\ refs w !! v = Some r /\ Hex r = hex) ->
  guar t w w'.
Proof.
  intros Hl -> Hm. constructor; simpl; auto.
  - intros [H1 H2]. constructor; simpl; [|done]. intros target' hex.
    destruct (decide (target = target')) as [<-|]; [rewrite lookup_partial_alter_eq; apply Hm|].
    rewrite lookup_partial_alter_ne by done. apply H1.
  - intros target' Hne. split; [|done]. rewrite lookup_partial_alter_ne; [done|]. congruence.
Qed.

(** Writing the reference of a volume whose target is locked and not mounted. *)
Lemma guar_write_ref t ref w :
  target_of (VolumeID ref) = TargetPath ref -> holds t (TargetPath ref) None w ->
  locks w !! ClaimMu = Some t -> is_Some (published w !! Hex ref) ->
  guar t w (set_refs <[VolumeID ref := ref]> w).
Proof.
  intros Ho [Hl Hm] Hc Hp. constructor; simpl; auto; [|done|].
  - intros [H1 H2]. constructor; simpl.
    + intros target hex Hmt. destruct (H1 target hex Hmt) as (v & r & Hv & Hr & Hx). exists v, r.
      rewrite lookup_insert_ne; [done|]. intros <-. congruence.
    + intros v r. destruct (decide (VolumeID ref = v)) as [<-|].
      * rewrite lookup_insert_eq. by intros [= <-].
      * rewrite lookup_insert_ne by done. apply H2.
  - intros target Hne. split; [done|]. intros v Hv. rewrite lookup_insert_ne; [done|]. congruence.
Qed.

Lemma wp_write_ref t ref w :
  target_of (VolumeID ref) = TargetPath ref -> holds t (TargetPath ref) None w ->
  locks w !! ClaimMu = Some t -> is_Some (published w !! Hex ref) ->
  wp t (WriteRef ref) (fun err w' => holds t (TargetPath ref) None w' /\
    (err = None -> refs w' !! VolumeID ref = Some ref)) w.
Proof.
  intros Ho Hh Hl Hp. unfold WriteRef, refPath. destruct (volumeIDPattern _).
  2: { intros w' Hr. split; [by eapply holds_rely|done]. }
  apply wp_call. intros w1 c x w2 Hr Hc Ha Hpf.
  apply (holds_rely _ _ _ _ _ Hr) in Hh. destruct (rely_claim _ _ _ Hr Hl) as (Hl1 & Hp1 & _).
  assert (guar t w1 w2 /\ holds t (TargetPath ref) None w2 /\ (x = None -> refs w2 !! VolumeID ref = Some ref))
    as (Hg & Hh2 & Hx).
  { pose proof (guar_write_ref t ref w1 Ho Hh Hl1 (Hp1 _ Hp)) as Hg.
    assert (guar t w1 w1) by (apply keeps_guar; [by constructor|done]).
    simpl in Hpf. unfold durable in Hpf. repeat case_match; simplify_eq; (split_and!; [done|done|]);
      try done. intros _. simpl. apply lookup_insert_eq. }
  split; [done|]. intros w3 Hr3. split; [by eapply holds_rely|]. intros ->.
  apply (holds_ref_rely t ref None w2 w3 Ho Hr3 (conj Hh2 (Hx eq_refl))).
Qed.

Lemma wp_is_published t hex w :
  wp t (IsPublished hex) (fun p w' => rely t w w' /\ (p = true -> exists w1, rely t w w1 /\
    is_Some (published w1 !! hex) /\ rely t w1 w')) w.
Proof.
  apply wp_call. intros w1 c x w2 Hr Hc Ha Hp. simpl in Hp. simplify_eq.
  split; [apply keeps_guar; [by constructor|done]|]. intros w3 Hr3.
  split; [by trans w2|]. intros Hx. apply bool_decide_eq_true in Hx as [Hx _]. eauto.
Qed.

Lemma wp_claim t ref w :
  target_of (VolumeID ref) = TargetPath ref -> holds t (TargetPath ref) None w ->
  wp t (Claim ref) (fun res w' => holds t (TargetPath ref) None w' /\
    (res = inr true -> refs w' !! VolumeID ref = Some ref)) w.
Proof.
  intros Ho Hh. unfold Claim. apply wp_bind. eapply wp_mono; [|apply wp_lock].
  intros _ w1 [Hr1 Hl1]. specialize (Hl1 eq_refl). apply (holds_rely _ _ _ _ _ Hr1) in Hh.
  apply wp_bind. apply (wp_mono _ _ (fun res w' => holds t (TargetPath ref) None w' /\
    (res = inr true -> refs w' !! VolumeID ref = Some ref))).
  { intros res w2 [Hh2 Hres]. apply wp_bind, wp_unlock. intros w3 Hr3 Hc3 Hl3 w4 Hr4 w5 Hr5.
    assert (holds t (TargetPath ref) None w3) as [Hl Hm] by (by eapply holds_rely).
    assert (rely t (set_locks (delete ClaimMu) w3) w5) as Hr35 by (by trans w4).
    split.
    - eapply holds_rely; [exact Hr35|]. split; [simpl; by rewrite lookup_delete_ne|done].
    - intros ->. eapply (holds_ref_rely t ref None); [done|exact Hr35|].
      split; [split; [simpl; by rewrite lookup_delete_ne|done]|].
      simpl. apply (holds_ref_rely t ref None w2 w3 Ho Hr3 (conj Hh2 (Hres eq_refl))). }
  apply wp_bind. eapply wp_mono; [|apply wp_is_published]. intros p w2 [Hr2 Hp].
  apply (holds_rely _ _ _ _ _ Hr2) in Hh. destruct (rely_claim _ _ _ Hr2 Hl1) as (Hl2 & _ & _).
  destruct p; simpl.
  2: { intros w3 Hr3. split; [by eapply holds_rely|done]. }
  destruct (Hp eq_refl) as (w1' & Ha & Hpub & Hb). apply wp_bind.
  eapply wp_mono; [|apply (wp_write_ref t ref w2 Ho Hh Hl2)].
  - intros [e|] w3 [Hh3 H3] w4 Hr4; (split; [by eapply holds_rely|]); [done|]. intros _.
    apply (holds_ref_rely t ref None w3 w4 Ho Hr4 (conj Hh3 (H3 eq_refl))).
  - destruct (rely_claim _ _ _ Ha Hl1) as (Hl1' & _). by apply (rely_claim _ _ _ Hb Hl1').
Qed.

(** Not a read-only mount. *)
Definition not_served (m : option (string * bool)) : Prop := forall hex, m <> Some (hex, true).

Lemma safe_remove_ref t v m w :
  holds t (target_of v) m w -> not_served m -> wp t (RemoveRef v) (fun _ _ => True) w.
Proof.
  intros Hh Hm. unfold RemoveRef, refPath. destruct (volumeIDPattern v); [|done].
  apply wp_bind, wp_call. intros w1 c x w2 Hr Hc Ha Hp. apply (holds_rely _ _ _ _ _ Hr) in Hh.
  destruct Hh as [Hl Hmt]. split; [|by intros w3 _; destruct x as [[]|]].
  simpl in Hp. unfold effect in Hp. repeat case_match; simplify_eq; try (apply keeps_guar; [by constructor|done]).
  constructor; simpl; auto.
  - intros [H1 H2]. constructor; simpl.
    + intros target hex Ht. destruct (H1 target hex Ht) as (v' & r' & Hv & Href & Hx). exists v', r'.
      rewrite lookup_delete_ne; [done|]. intros <-. subst target. by apply (Hm hex).
    + intros v' r' [_ Hv]%lookup_delete_Some. eauto.
  - intros _. split; [done|]. by intros v' r' [_ Hv]%lookup_delete_Some.
  - intros target Hne. split; [done|]. intros v' Hv. rewrite lookup_delete_ne; [done|]. congruence.
Qed.

Lemma wp_unmount t target m w :
  holds t target m w ->
  wp t (call (Unmount target)) (fun err w' => match err with
    | None => holds t target None w' | Some _ => holds t target m w' end) w.
Proof.
  intros Hh. apply wp_call. intros w1 c x w2 Hr Hc Ha Hp. apply (holds_rely _ _ _ _ _ Hr) in Hh.
  assert (guar t w1 w2 /\ match x with None => holds t target None w2 | Some _ => holds t target m w2 end)
    as [Hg Hx].
  { destruct Hh as [Hl Hmt]. simpl in Hp. unfold effect in Hp. repeat case_match; simplify_eq;
      try (split; [apply keeps_guar; [by constructor|done]|by split; [|congruence]]).
    split; [by eapply guar_mount|]. split; [done|]. apply lookup_delete_eq. }
  split; [done|]. intros w3 Hr3. destruct x; by eapply holds_rely.
Qed.

Lemma wp_bind_mount t ref w :
  target_of (VolumeID ref) = TargetPath ref -> holds_ref t ref None w ->
  wp t (call (BindMount (Hex ref) (TargetPath ref))) (fun err w' => match err with
    | None => holds_ref t ref (Some (Hex ref, false)) w' | Some _ => holds_ref t ref None w' end) w.
Proof.
  intros Ho Hh. apply wp_call. intros w1 c x w2 Hr Hc Ha Hp. apply (holds_ref_rely _ _ _ _ _ Ho Hr) in Hh.
  assert (guar t w1 w2 /\ match x with None => holds_ref t ref (Some (Hex ref, false)) w2
    | Some _ => holds_ref t ref None w2 end) as [Hg Hx].
  { destruct Hh as [[Hl Hmt] Href]. simpl in Hp. unfold effect in Hp. repeat case_match; simplify_eq;
      try (split; [apply keeps_guar; [by constructor|done]|done]).
    split; [by eapply guar_mount|]. split; [|done]. split; [done|]. apply lookup_insert_eq. }
  split; [done|]. intros w3 Hr3. destruct x; by eapply holds_ref_rely.
Qed.

Lemma wp_remount t ref w :
  target_of (VolumeID ref) = TargetPath ref -> holds_ref t ref (Some (Hex ref, false)) w ->
  wp t (call (RemountReadOnly (TargetPath ref))) (fun err w' => match err with
    | None => True | Some _ => holds_ref t ref (Some (Hex ref, false)) w' end) w.
Proof.
  intros Ho Hh. apply wp_call. intros w1 c x w2 Hr Hc Ha Hp. apply (holds_ref_rely _ _ _ _ _ Ho Hr) in Hh.
  assert (guar t w1 w2 /\ match x with None => True
    | Some _ => holds_ref t ref (Some (Hex ref, false)) w2 end) as [Hg Hx].
  { destruct Hh as [[Hl Hmt] Href]. simpl in Hp. rewrite Hmt in Hp. unfold effect in Hp. repeat case_match; simplify_eq;
      try (split; [apply keeps_guar; [by constructor|done]|done]).
    split; [|done]. eapply guar_mount; [done|done|]. intros hex [= <-]. eauto. }
  split; [done|]. intros w3 Hr3. destruct x; [|done]. by eapply holds_ref_rely.
Qed.

Lemma wp_bind_read_only t ref w :
  target_of (VolumeID ref) = TargetPath ref -> holds_ref t ref None w ->
  wp t (BindReadOnly (Hex ref) (TargetPath ref)) (fun err w' =>
    err = None \/ exists m, not_served m /\ holds t (TargetPath ref) m w') w.
Proof.
  intros Ho Hh. apply wp_bind. eapply wp_mono; [|by apply wp_bind_mount]. intros [e|] w1 Hh1.
  { intros w2 Hr. right. exists None. split; [done|]. destruct Hh1. by eapply holds_rely. }
  apply wp_bind. eapply wp_mono; [|by apply wp_remount]. intros [e|] w2 Hh2; [|by left].
  apply wp_bind. destruct Hh2 as [Hh2 _]. eapply wp_mono; [|by eapply wp_unmount].
  intros [e'|] w3 Hh3 w4 Hr; right; eexists; (split; [|by eapply holds_rely]); by intros hex.
Qed.

Lemma wp_mount_claimed t ref w :
  target_of (VolumeID ref) = TargetPath ref -> holds_ref t ref None w ->
  wp t (mount_claimed ref) (fun _ _ => True) w.
Proof.
  intros Ho Hh. apply wp_bind. eapply wp_mono; [|by apply wp_harmless]. intros [e|] w1 Hr1.
  - apply wp_bind, wp_bind. apply (holds_ref_rely _ _ _ _ _ Ho Hr1) in Hh. destruct Hh as [Hh _].
    eapply wp_mono; [|eapply (safe_remove_ref t (VolumeID ref) None)]; [done|by rewrite Ho|done].
  - apply wp_bind. eapply wp_mono; [|apply wp_bind_read_only]; [|done|by eapply holds_ref_rely].
    intros [e|] w2 [Hx|(m & Hm & Hh2)]; try done.
    + apply wp_bind, wp_bind.
      eapply wp_mono; [|eapply (safe_remove_ref t (VolumeID ref) m)]; [done|by rewrite Ho|done].
    + apply safe_bind; [apply quiet_safe, quiet_used|done].
    + apply safe_bind; [apply quiet_safe, quiet_used|done].
Qed.

Lemma wp_claim_and_mount t ref w :
  target_of (VolumeID ref) = TargetPath ref -> holds t (TargetPath ref) None w ->
  wp t (claim_and_mount ref) (fun _ _ => True) w.
Proof.
  intros Ho Hh. apply wp_bind. eapply wp_mono; [|by apply wp_claim]. intros [e|[]] w1 [Hh1 Href]; [done| |].
  { apply wp_mount_claimed; [done|]. split; auto. }
  apply wp_bind. eapply wp_mono; [|by apply wp_harmless]. intros p w2 Hr2. destruct (negb _); [done|].
  apply wp_bind. eapply wp_mono; [|apply wp_claim]; [|done|eapply holds_rely; [exact Hr2|done]].
  intros [e|[]] w3 [Hh3 Href3]; [done| |done]. apply wp_mount_claimed; [done|]. split; auto.
Qed.

Lemma wp_is_mount_point t target m w :
  holds t target m w ->
  wp t (call (IsMountPoint target)) (fun res w' => holds t target m w' /\
    (res = (false, None) -> m = None)) w.
Proof.
  intros Hh. apply wp_call. intros w1 c x w2 Hr Hc Ha Hp. apply (holds_rely _ _ _ _ _ Hr) in Hh.
  simpl in Hp. simplify_eq. split; [apply keeps_guar; [by constructor|done]|]. intros w3 Hr3.
  split; [by eapply holds_rely|]. destruct Hh as [_ Hm]. case_match; [done|]. intros [= Hx].
  apply bool_decide_eq_false in Hx. destruct m; [|done]. exfalso. apply Hx. rewrite Hm. eauto.
Qed.

Lemma wp_remove_target t target m w :
  holds t target m w ->
  wp t (call (RemoveTarget target)) (fun err w' => holds t target m w' /\
    ((forall msg, err <> Some (Err msg)) -> m = None)) w.
Proof.
  intros Hh. apply wp_call. intros w1 c x w2 Hr Hc Ha Hp. apply (holds_rely _ _ _ _ _ Hr) in Hh.
  pose proof Hh as [_ Hm]. simpl in Hp. rewrite Hm in Hp.
  assert (w2 = w1 /\ ((forall msg, x <> Some (Err msg)) -> m = None)) as [-> Hx].
  { destruct m; simplify_eq; (split; [done|]); [|done]. intros H. by destruct (H "device or resource busy"). }
  split; [apply keeps_guar; [by constructor|done]|]. intros w3 Hr3. split; [by eapply holds_rely|done].
Qed.

Lemma wp_publish_locked t req w :
  target_of (PubVolumeID req) = PubTarget req -> locks w !! TargetMu (PubTarget req) = Some t ->
  wp t (publish_locked req) (fun _ _ => True) w.
Proof.
  intros Ho Hl. unfold publish_locked. apply wp_bind.
  eapply wp_mono; [|apply wp_untouching; unfold artifact; quiet].
  intros [e|ma] w1 Hr1; [done|]. case_match; [done|].
  destruct (rely_target _ _ _ Hr1 _ Hl) as (Hl1 & _). apply wp_bind.
  eapply wp_mono; [|apply (wp_is_mount_point t _ (mounts w1 !! PubTarget req)); by split].
  intros [[] [e|]] w2 [Hh Hx]; try done.
  - apply wp_bind. eapply wp_mono; [|by apply wp_harmless]. intros [e|[]] w3 Hr3; [done|done|].
    apply wp_bind. eapply wp_mono; [|eapply wp_unmount, holds_rely; [exact Hr3|done]].
    by intros [e|] w4 _.
  - rewrite (Hx eq_refl) in Hh. by apply wp_claim_and_mount.
Qed.

Lemma safe_node_publish t ready req :
  target_of (PubVolumeID req) = PubTarget req -> safe t (NodePublishVolume ready req).
Proof.
  intros Ho. unfold NodePublishVolume. repeat (case_match; [done|]). intros w. apply wp_bind.
  eapply wp_mono; [|apply wp_lock]. intros _ w1 [_ Hl]. specialize (Hl eq_refl). apply wp_bind.
  eapply wp_mono; [|by apply wp_publish_locked]. intros x w2 _.
  apply safe_bind; [apply safe_unlock|done].
Qed.

Lemma wp_forget_target t req m w :
  target_of (UnVolumeID req) = UnTarget req -> holds t (UnTarget req) m w ->
  wp t (forget_target req) (fun _ _ => True) w.
Proof.
  intros Ho Hh. apply wp_bind. eapply wp_mono; [|by eapply wp_remove_target]. intros err w1 [Hh1 Hx].
  assert ((exists msg, err = Some (Err msg)) \/ m = None) as [[msg ->]|Hm]; [|done|].
  { destruct err as [[|msg]|]; [right|left; eauto|right]; by apply Hx. }
  subst m. assert (forall ref : ioerr + option Ref, wp t
    (bind (RemoveRef (UnVolumeID req)) (fun _ => match ref with
       | inr (Some ref) => bind (used (Hex ref)) (fun _ => Ret None)
       | _ => Ret (@None code) end)) (fun _ _ => True) w1) as Hdrop.
  { intros ref. apply wp_bind. eapply wp_mono; [|eapply safe_remove_ref; [by rewrite Ho|done]].
    intros _ w2 _. destruct ref as [e|[ref|]]; [done| |done].
    apply safe_bind; [apply quiet_safe, quiet_used|done]. }
  destruct err as [[|msg]|]; [|done|];
    (apply wp_bind; eapply wp_mono; [|apply wp_untouching; unfold ReadRef; quiet]; intros ref w2 Hr2;
     eapply wp_rely; [exact Hr2|apply Hdrop]).
Qed.

Lemma safe_node_unpublish t req :
  target_of (UnVolumeID req) = UnTarget req -> safe t (NodeUnpublishVolume req).
Proof.
  intros Ho. unfold NodeUnpublishVolume. case_match; [done|]. intros w. apply wp_bind.
  eapply wp_mono; [|apply wp_lock]. intros _ w1 [_ Hl]. specialize (Hl eq_refl). apply wp_bind.
  apply (wp_mono _ _ (fun _ _ => True)).
  { intros x w2 _. apply safe_bind; [apply safe_unlock|done]. }
  apply wp_bind. eapply wp_mono; [|apply (wp_is_mount_point t _ (mounts w1 !! UnTarget req)); by split].
  intros [mounted err] w2 [Hh _].
  assert (wp t (forget_target req) (fun _ _ => True) w2) as Hf by (by eapply wp_forget_target).
  assert (wp t (bind (call (Unmount (UnTarget req)))
    (fun err => match err with Some _ => Ret (Some Internal) | None => forget_target req end))
    (fun _ _ => True) w2) as Hu.
  { apply wp_bind. eapply wp_mono; [|by eapply wp_unmount]. intros [e|] w3 Hh3; [done|].
    by eapply wp_forget_target. }
  by destruct mounted, err as [[]|].
Qed.

(** ** The invariant of the plugin *)

Lemma entry_safe t p : entry p -> safe t p.
Proof.
  destruct 1; try (apply safe_bind; [|done]).
  - by apply safe_node_publish.
  - by apply safe_node_unpublish.
  - apply safe_Collect.
  - apply safe_Reserve.
  - by apply safe_locked, safe_call.
  - apply quiet_safe, quiet_new_attempt.
  - apply quiet_safe, quiet_publish.
  - apply quiet_safe, quiet_update_digest.
  - apply quiet_safe, quiet_digests.
  - apply quiet_safe, quiet_published.
Qed.

Abbreviation running := (Programs.running (@perform) allowed rely guar consistent).

Lemma step_running s s' : step s s' -> running s -> running s'.
Proof.
  intros Hstep Hrun. destruct Hstep as [s t p Hf He|s t X a k c x w Htp Ha Hp].
  - apply running_spawn; [done|]. by apply entry_safe.
  - by eapply (running_act (@perform) allowed rely guar consistent guar_consistent guar_rely).
Qed.

Lemma steps_running s s' : rtc step s s' -> running s -> running s'.
Proof. induction 1; [done|]. eauto using step_running. Qed.
End plugin.

(** C4: however publish and unpublish calls, collections, reservations and
    attempts interleave and fail, a target mounted read-only keeps a reference to
    its digest in the ledger and its published tree on disk, provided the
    directory of references can be listed when it is read. *)
Theorem mounted_tree_stays (target_of : string -> string) (allowed : choice -> Prop) (s s' : system)
    (target hex : string) :
  (forall c, allowed c -> unlisted c = false) ->
  threads s = ∅ -> consistent target_of (state s) -> rtc (step target_of allowed) s s' ->
  mounts (state s') !! target = Some (hex, true) ->
  is_Some (published (state s') !! hex) /\
  exists v r, target_of v = target /\ refs (state s') !! v = Some r /\ Hex r = hex.
Proof.
  intros Hlisted Hnone Hcons Hsteps Hm.
  destruct (steps_running target_of allowed Hlisted s s' Hsteps) as [Hc _].
  { constructor; [done|]. intros t p. by rewrite Hnone, lookup_empty. }
  destruct (mount_referenced _ _ Hc target hex Hm) as (v & r & Hv & Hr & Hx).
  split; [|eauto]. subst hex. by apply (reference_published _ _ Hc v).
Qed.

(** ** Running one goroutine to its end *)

Lemma run_call target_of allowed t c p w x w' :
  allowed c -> entry target_of p -> run t c p w = Some (x, w') ->
  rtc (step target_of allowed) {| threads := ∅; state := w |}
      {| threads := <[t := Ret x]> ∅; state := w' |}.
Proof.
  intros Ha He Hrun. eapply rtc_l; [by apply step_spawn|]. simpl.
  eapply (run_steps (@perform) allowed); [|exact Ha|exact Hrun]. intros *. apply step_act.
Qed.

Module CacheExample.
Definition digest : string := "0123456789abcdef0123456789abcdef0123456789abcdef0123456789abcdef".
Definition target : string := "/var/lib/kubelet/pods/p/volumes/kubernetes.io~csi/model/mount".
Definition target_of (_ : string) : string := target.

Definition marker : Marker :=
  {| Digest := "sha256:" +:+ digest; MAttempt := 1; ManifestFormat := ""; SizeBytes := 40; FileCount := 1;
     PublishedTime := 1; MSource := "Hub" |}.

Definition reference : Ref :=
  {| VolumeID := "csi-model"; TargetPath := target; Hex := digest; PodNamespace := "default"; PodName := "p";
     PodUID := "p" |}.

(** One published tree that nothing uses. *)
Definition cached : world :=
  {| published := {[digest := marker]}; attempts := ∅; trash := ∅; refs := ∅; digests := ∅; mounts := ∅;
     reservations := ∅; locks := ∅ |}.

(** The same tree, mounted. *)
Definition in_use : world :=
  {| published := {[digest := marker]}; attempts := ∅; trash := ∅; refs := {["csi-model" := reference]};
     digests := ∅; mounts := {[target := (digest, true)]}; reservations := ∅; locks := ∅ |}.

(** A nearly full disk, an hour later, on which every call works but perhaps the
    listing of a directory. *)
Definition answers (unlisted : bool) : choice :=
  {| fault := None; late := false; unlisted := unlisted; clock := hour;
     usage := inr {| Total := 100; Used := 90 |}; watermarks := (85, 50, ""); downloading := ∅; pinned := None;
     cancelled := None;
     artifact_read := inr (Some {| MaUID := "u"; OnHuggingFace := true; OnModelScope := false;
       Conditions := [("Resolved", "True")]; ResolvedDigest := Some ("sha256:" +:+ digest) |});
     ensured := {| PublishedNow := true; PCode := ""; PMessage := "" |}; written := 0; written_of := fun _ => 0 |}.

Definition request : PublishRequest :=
  {| PubVolumeID := "csi-model"; PubTarget := target; PubUnder := true; PubMountVolume := true;
     PubEphemeral := true; PubNamespace := "default"; PubPodName := "p"; PubPodUID := "p";
     PubAttributes := {| Artifact := "a"; ArtifactUID := "u"; ADigest := "sha256:" +:+ digest |} |}.

Definition collector : Collector := {| Grace := 0; PartialTTL := 0 |}.
End CacheExample.

Lemma mounted_tree_stays_witness :
  exists s', rtc (step CacheExample.target_of (fun c => unlisted c = false))
               {| threads := ∅; state := CacheExample.cached |} s' /\
    mounts (state s') !! CacheExample.target = Some (CacheExample.digest, true) /\
    is_Some (published (state s') !! CacheExample.digest) /\
    exists v r, CacheExample.target_of v = CacheExample.target /\ refs (state s') !! v = Some r /\
      Hex r = CacheExample.digest.
Proof.
  assert (match run 0%nat (CacheExample.answers false)
    (discard (NodePublishVolume true CacheExample.request)) CacheExample.cached with
    | Some (_, w) => bool_decide (mounts w !! CacheExample.target = Some (CacheExample.digest, true))
    | None => false end = true) as Hm by (vm_compute; reflexivity).
  destruct (run 0%nat _ _ _) as [[x w]|] eqn:Hrun; [|discriminate Hm]. apply bool_decide_eq_true in Hm.
  assert (rtc (step CacheExample.target_of (fun c => unlisted c = false))
            {| threads := ∅; state := CacheExample.cached |} {| threads := <[0%nat := Ret x]> ∅; state := w |})
    as Hsteps by (exact (run_call CacheExample.target_of (fun c => unlisted c = false) 0%nat (CacheExample.answers false)
          _ CacheExample.cached x w eq_refl
          (entry_publish CacheExample.target_of true CacheExample.request eq_refl) Hrun)).
  eexists. split; [exact Hsteps|]. split; [exact Hm|].
  apply (mounted_tree_stays CacheExample.target_of (fun c => unlisted c = false) _ _ CacheExample.target
           CacheExample.digest) with (4 := Hsteps); [done|done| |exact Hm].
  constructor; intros *; simpl; by rewrite lookup_empty.
Defined.

(** C26: when the directory of references cannot be listed the collector takes the
    tree for unreferenced: there is an execution in which it removes the tree of
    a target that is mounted read-only and has its reference. *)
Theorem mounted_tree_lost :
  exists s', consistent CacheExample.target_of CacheExample.in_use /\
    rtc (step CacheExample.target_of (fun c => unlisted c = true))
      {| threads := ∅; state := CacheExample.in_use |} s' /\
    mounts (state s') !! CacheExample.target = Some (CacheExample.digest, true) /\
    is_Some (refs (state s') !! "csi-model") /\
    published (state s') !! CacheExample.digest = None.
Proof.
  assert (match run 0%nat (CacheExample.answers true)
    (discard (Collect CacheExample.collector)) CacheExample.in_use with
    | Some (_, w) => bool_decide (mounts w !! CacheExample.target = Some (CacheExample.digest, true)) &&
        bool_decide (is_Some (refs w !! "csi-model")) &&
        bool_decide (published w !! CacheExample.digest = None)
    | None => false end = true) as Hw by (vm_compute; reflexivity).
  destruct (run 0%nat _ _ _) as [[x w]|] eqn:Hrun; [|discriminate Hw].
  apply andb_true_iff in Hw as [[Hm Hr]%andb_true_iff Hp].
  apply bool_decide_eq_true in Hm, Hr, Hp.
  exists {| threads := <[0%nat := Ret x]> ∅; state := w |}. split; [|split].
  - constructor; simpl.
    + intros target hex [<- [= <-]]%lookup_singleton_Some. exists "csi-model", CacheExample.reference.
      split; [reflexivity|]. split; [apply lookup_singleton_eq|reflexivity].
    + intros v r [_ <-]%lookup_singleton_Some. simpl. rewrite lookup_singleton_eq. by eexists.
  - exact (run_call CacheExample.target_of (fun c => unlisted c = true) 0%nat (CacheExample.answers true)
      _ CacheExample.in_use x w eq_refl (entry_collect CacheExample.target_of CacheExample.collector) Hrun).
  - split; [exact Hm|]. split; [exact Hr|exact Hp].
Qed.
